(* ===== verification/_CoqProject ===== *)
-Q . S2P
Prelude.v
Utils.v
Async.v
StreamAdapters.v
StreamAdaptersSpec.v
StreamConsumers.v
StreamConsumersSpec.v
WakerSet.v
WakerClients.v
Mutex.v
MutexSpec.v
RwLock.v
RwLockInv.v
RwLockSpec.v
Stamps.v
Channel.v
ChannelQueue.v
ChannelMethods.v
ChannelQueueSpec.v
ChannelSteps.v
ChannelRing.v
ChannelWake.v
ChannelInv.v
ChannelRuns.v
ChannelSpec.v
StreamSources.v
StreamCombine.v
StreamCombineSpec.v
StreamCompare.v
StreamCompareSpec.v
StreamTheorems.v
WakerSetSpec.v
Io.v
IoBuf.v
IoRead.v
IoLines.v
IoWrite.v
IoExt.v
IoLaws.v
IoWriterLaws.v
IoFutures.v
IoUntil.v
IoSpec.v
File.v
FileInv.v
FileSpec.v
Future.v
FutureSpec.v
DoubleEnded.v
DoubleEndedSpec.v
Collect.v
CollectSpec.v
StreamExt.v
Await.v
Stdio.v
StdioSpec.v
Barrier.v
BarrierSpec.v
Maps.v
Executor.v
ExecutorSpec.v
Blocking.v
BlockingSpec.v
Task.v
TaskSpec.v
TaskTheorems.v
Park.v
ParkSpec.v
Driver.v
DriverSpec.v
Net.v
NetSpec.v
Fs.v
FsSpec.v
Path.v
PathSpec.v
Spawn.v
SpawnSpec.v
SpawnTheorems.v
IoVectored.v
