(* ===== verification/Prelude.v ===== *)
(** * A verification development for async-std

    async-std is an asynchronous version of the Rust standard library.  Nothing in
    it runs by itself: futures and streams are state machines that an executor
    polls, again after their waker has been called.  This library translates the
    parts of it that carry logic of their own and proves what they promise.

    ** How the program is modelled

    A poll is a function from the state of the future or stream to its answer
    ([Ready] or [Pending]), the new state and the events it caused on the context:
    [Eff] in this file.  A call panics ([Panic]) where the code does: [unwrap] on
    [None], an index out of range, an arithmetic overflow.  Rust's [loop] is
    [rust_loop], bounded by fuel; [OutOfFuel] is an answer no theorem accepts: what
    is stated of a call that returns is accompanied by theorems that it does return,
    and more fuel never changes an answer ([fuel_mono]).  Machine integers are [N]
    or [nat] with the 64-bit bounds written out where they matter.  Traits are
    type classes ([Stream], [Future], [FnMut] of Async.v; [AsyncRead],
    [AsyncBufRead], [AsyncWrite], [AsyncSeek] of Io.v), and what a component may
    assume of another is a class of laws ([StreamMono], [StreamWakes],
    [WakerSetLaws], [ReaderLaws], [BufReaderLaws], [WriterLaws]); the adapters are
    proved to be instances of the same classes, so that they compose.

    What threads share is modelled as one state with a step relation: the code of
    an operation is cut at each atomic operation, lock, queue operation or system
    call, an inductive [Pc] has one constructor per cut, [op_step] or [thread_step]
    is what the code does next, [step] lets any operation or the environment move,
    and the theorems hold of every [reachable] state.  The sequential reading of the
    same code is modelled too, and proved to be a run of those steps.

    Crates and system interfaces that the code only calls (slab, crossbeam_deque,
    crossbeam_channel, broadcaster, mio, timers, std::io devices and files) are
    parameters, with classes of laws for what is relied on ([Slab], [DequeLaws],
    [AsyncTaskLaws], [MioLaws], [OsFileLaws], [ReserveLaws], ...).  Utils.v has what the program
    shares: [random] on 32-bit words, [abort_on_panic] and [defer!] as functions on
    code that may unwind ([Exit], [Run]).

    ** Streams (src/src/stream)

    Async.v has the interfaces and [until_ready], [pulls], [yields], [resolves]: what
    an executor obtains by polling again and again, however often the answer is
    [Pending].  One record and one [_poll_next] (or [_poll]) per struct of
    src/src/stream/stream/:
    - StreamAdapters.v, StreamAdaptersSpec.v: map, filter, take, skip, ...;
    - StreamConsumers.v, StreamConsumersSpec.v: the futures that consume a stream;
    - StreamSources.v: once, repeat, from_fn, successors, interval, ...;
    - StreamCombine.v, StreamCombineSpec.v: chain, zip, flatten, cycle, merge, and
      the timed ones;
    - StreamCompare.v, StreamCompareSpec.v: cmp, eq, lt, ...;
    - DoubleEnded.v, DoubleEndedSpec.v: streams taken from both ends are deques;
    - StreamExt.v: the extension methods, [ExactSizeStream], and pipelines of any
      length over a boxed stream, proved equal to the same pipeline of list functions.
    StreamTheorems.v gathers what they yield, as equations with list functions, and
    that an adapter, a consuming future or a comparison that is pending has arranged
    to be woken.

    Collect.v has [Extend], [FromStream], [Sum] and [Product] and their
    implementations (src/src/collections, vec, string, unit, option, result,
    stream/sum.rs, product.rs); CollectSpec.v says what is collected, where the
    first [None] or [Err] stops the stream, and when integer sums overflow.

    ** Futures (src/src/future)

    Future.v has [MaybeDone], the joins, races and timeouts and the sources
    [ready], [pending], [poll_fn], [yield_now]; FutureSpec.v what they resolve to
    and after how many polls.

    ** Synchronisation (src/src/sync)

    WakerSet.v models waker_set.rs over a slab ([Slab], documented laws of the slab
    crate) and states what it promises to its clients ([WakerSetLaws], proved for
    [WakerSet] in the same file; WakerSetSpec.v).  Mutex.v, RwLock.v and Channel.v
    with ChannelSteps.v have the methods as the code has them, and the same code cut
    at its atomic operations: a [Pc] per place in the code, [op_step] for the next
    atomic operation and [step] for any operation moving, starting, being polled or
    cancelled.  Loads and stores are sequentially consistent.  The theorems hold of
    every reachable state: exclusion, no lost wakeups, no panics
    (MutexSpec.v, RwLockInv.v, RwLockSpec.v); that messages arrive once and in order
    and that the ring buffer is a bounded queue (ChannelRing.v, ChannelWake.v,
    ChannelInv.v, ChannelSpec.v, with the bit arithmetic of Stamps.v and the
    sequential ChannelQueue.v, ChannelMethods.v, ChannelQueueSpec.v); and that the
    methods are runs of the atomic operations (ChannelRuns.v and [_methods_are_steps]).
    WakerClients.v has what the three share: who owns which entry of a waker set.

    Barrier.v cuts [wait] where it is suspended, with any number of tasks; its
    theorem (BarrierSpec.v) is that calls meet in groups of [n] with one leader each.

    ** Tasks (src/src/task)

    Executor.v has the worker threads of executor/pool.rs and sleepers.rs: the
    functions [schedule], [find_runnable], [notify_one] as the code has them, and
    the threads cut at the operations on the queues and on the sleepers' lock.
    ExecutorSpec.v: no task is lost or run twice; no task stays in a queue while all
    workers sleep.  Blocking.v and BlockingSpec.v do the same for the threads of
    spawn_blocking.rs and their counter.  Task.v has the handles, the task-local
    storage (task.rs, task_id.rs, task_local.rs, current.rs) and what block_on.rs
    puts around a future, with the boxes of [dyn Send] as dependent pairs, so that a
    pointer cast to the wrong type is an outcome of the model ([Undefined]);
    TaskSpec.v and TaskTheorems.v: it is never reached.  Park.v has the loop of
    block_on.rs with its wakers over a reference-counted [Parker] and the parker
    each thread keeps, for any number of threads, nested calls and wakers;
    ParkSpec.v: a call whose waker was called polls again, no two calls share a
    parker, and no waker dangles.  Spawn.v has [Builder::spawn], the handles of
    task/builder.rs, spawn.rs and join_handle.rs and the [turn]s that the threads of
    the executor take with the tasks they found, composed with Executor.v; the crate
    async_task, which makes the cell of a task, is the class [AsyncTask] with what
    it documents ([AsyncTaskLaws]).  SpawnSpec.v has the invariant of the cells
    ([Placed]) and SpawnTheorems.v what is seen of a task: one that
    is due has a [Runnable] or is being polled, never at two places, and its handle
    resolves to what its future returned.  Maps.v has what those invariants need of maps.

    ** Input and output (src/src/io)

    Io.v has the traits and their laws, the smallest readers and writers and
    [Cursor]; IoBuf.v [BufReader], [BufWriter] and [copy]; IoRead.v, IoLines.v and
    IoWrite.v the adapters and futures of src/src/io/read, buf_read, write and seek,
    one record and one [_poll] per struct, their loops as [_round]; IoExt.v the
    methods that make them.  A buffer given to a reader is its length, and what was
    put into it is the answer.  IoLaws.v and IoWriterLaws.v prove the adapters
    instances of the laws of what they wrap, so that they stack; IoFutures.v and
    IoUntil.v say what the futures and the streams [Split] and [Lines] do over
    anything that keeps the laws, whatever is pending or fails in between
    ([promises]); IoVectored.v has the vectored reads and writes, the defaults of
    the traits and those that readers and cursors have of their own ([VectoredLaws]),
    and the cursors over slices, which do not grow; IoSpec.v draws the conclusions: transparency, round trips, 64-bit
    seeks, and the places where bytes are lost or written twice.

    Stdio.v has the state machines of stdin.rs, stdout.rs and stderr.rs around the
    blocking device; StdioSpec.v: an operation that is awaited is one call of the
    device, and what an abandoned one leaves behind.

    ** Files (src/src/fs)

    File.v has the state machine behind the lock of a [File]: the modes, the cache,
    the methods of [LockGuard<State>], the blocking jobs that take the guard with
    them ([run_job], [complete]) and the lock with its wakers ([with_lock]).  The
    operating system's file is a parameter, [OsFile]; FileInv.v states what is
    relied on ([OsFileLaws]: it may fail and read in parts, its cursor can be moved
    back) and the abstraction [view]: which bytes at which position the user sees,
    the cache counted in.  FileSpec.v proves every operation to be one on that
    abstract file, over all reachable states.  Who owns the file, and with it what
    [into_raw_fd] answers, is a step relation of its own ([Handles]: the counts of the
    two [Arc]s, the closures of [metadata], the threads that end); it may panic
    ([into_raw_fd_unwraps], [into_raw_fd_races]).  Fs.v has the other functions of
    src/src/fs, its builders and [ReadDir], over what std::fs does ([Filesystem]);
    FsSpec.v: awaiting one is one call of std::fs ([one_call], of Await.v, which
    Stdio.v shares).

    ** Network (src/src/net, src/src/os/unix/net)

    Driver.v has the table of I/O handles of net/driver/mod.rs, the thread that
    waits for events and the operations of [Watcher], interleaved with each other
    and with events; DriverSpec.v: a task that waits for a handle is in its list or
    has been woken.  Net.v has addresses, and the TCP, UDP and Unix sockets over the
    driver; NetSpec.v: what the loops of connect and bind return, with the last
    error, and what accepting and connecting answer.  Net.v also has how
    sockets are made ([bind], [pair], the closures that connect, conversions from std
    and from raw descriptors), asked and set, and how a [Watcher] ends
    ([Watcher_drop], [Watcher_into_inner]): the driver has then forgotten the source,
    and its token is free ([into_inner_steps], [raw_fd_roundtrip]).

    ** Paths (src/src/path)

    Path.v has paths as bytes on Unix, the double-ended iterator of std::path over
    their components with its states, and what std and this crate build on it;
    PathSpec.v: the iterator is a deque of the components that splitting gives, and
    the methods are functions of that list, up to which paths are equal ([path_eq]).
    Rounds of the iterator: the length of the path and four ([rounds]).

    ** Bounds

    The theorems about the channel are for fewer than [2^62] messages: stamps are
    64-bit words that come round after [cap * 2^(63-k)] messages ([period]), and a
    word that has come round is beyond what the algorithm distinguishes.  Fuel: a
    theorem that a poll returns gives the number of rounds in its statement or
    quantifies it existentially, with [fuel_mono] for any larger number.

    ** Assumptions

    Atomics are sequentially consistent; memory orderings weaker than that are not
    modelled.  Condition variables wake up the threads that are notified; the
    wakeups that come for no reason are a relation of their own in Executor.v
    ([spurious_wakeup]), with what they do to the executor as an example in
    ExecutorSpec.v.  Mutexes of the standard library are not poisoned.  A call of
    the operating system that blocks returns in the end.

    ** Not modelled

    Raw handles of the standard streams, and the methods that only hand on to
    the same operation of a reference or of std; process and macros; Debug
    implementations, conversions of paths and logged messages; what has no code of
    its own: re-exports, and implementations that are there for the documentation
    only. *)

From stdpp Require Export base tactics list option numbers.
From Stdlib Require Export Lia.

Declare Scope async_scope.
Delimit Scope async_scope with async.

(** * The result of polling and the context a poll is given *)

(** [std::task::Poll], re-exported by src/src/task/mod.rs. *)
Inductive Poll (A : Type) : Type :=
| Ready (a : A)
| Pending.
Arguments Ready {A} _.
Arguments Pending {A}.

(** What a poll does to the waker inside the [cx: &mut Context] it is given:
    it calls [cx.waker().wake_by_ref()], or it clones the waker and leaves the
    clone with somebody who will call it. *)
Inductive CxEvent : Type :=
| WakeByRef
| CloneWaker.

(** A call either returns, or panics, or is still running when the fuel of the
    model is exhausted. *)
Inductive Outcome (A : Type) : Type :=
| Done (a : A)
| Panic
| OutOfFuel.
Arguments Done {A} _.
Arguments Panic {A}.
Arguments OutOfFuel {A}.

(** A call with effects: its outcome, and the events it caused, in order. *)
Definition Act (Ev A : Type) : Type := Outcome (A * list Ev).
(** A call that is given a context [cx]. *)
Abbreviation Eff := (Act CxEvent).

Definition eff_bind {Ev A B : Type} (k : A → Act Ev B) (m : Act Ev A) : Act Ev B :=
  match m with
  | Done (a, w) =>
      match k a with
      | Done (b, w') => Done (b, w ++ w')
      | Panic => Panic
      | OutOfFuel => OutOfFuel
      end
  | Panic => Panic
  | OutOfFuel => OutOfFuel
  end.

#[global] Instance eff_mret {Ev} : MRet (Act Ev) := λ A a, Done (a, []).
#[global] Instance eff_mbind {Ev} : MBind (Act Ev) := @eff_bind Ev.

(** An event. *)
Definition emit {Ev : Type} (e : Ev) : Act Ev () := Done (tt, [e]).

(** [cx.waker().wake_by_ref()]. *)
Definition wake_by_ref : Eff () := emit WakeByRef.
(** [cx.waker().clone()], the clone being stored by whoever asked for it. *)
Definition clone_waker : Eff () := emit CloneWaker.
(** [panic!], [unwrap] on [None], an arithmetic overflow. *)
Definition eff_panic {Ev A : Type} : Act Ev A := Panic.

(** The macro [futures_core::ready!]: the value of a ready poll, or an early
    return (of the expression after [else]) when it is pending. *)
Notation "'ready!' x ':=' p 'else' e 'in' k" :=
  (match p with Ready x => k | Pending => e end)
  (at level 10, x pattern, p at level 100, e at level 100, k at level 200,
   only parsing) : async_scope.

(** [std::result::Result]. *)
Inductive Result (A E : Type) : Type :=
| Ok (a : A)
| Err (e : E).
Arguments Ok {A E} _.
Arguments Err {A E} _.

(** Rust's [loop]: the body either continues with a new state or leaves the
    loop with a value.  The first argument bounds the number of rounds. *)
Fixpoint rust_loop {Ev S A : Type} (body : S → Act Ev (S + A)) (n : nat) (s : S) :
    Act Ev A :=
  match n with
  | O => OutOfFuel
  | Datatypes.S n' =>
      r ← body s;
      match r with
      | inl s' => rust_loop body n' s'
      | inr a => mret a
      end
  end.

(** [Option::unwrap]. *)
Definition unwrap {Ev A : Type} (o : option A) : Act Ev A :=
  match o with Some a => mret a | None => eff_panic end.

(** * Machine integers *)

Local Open Scope N_scope.

Definition usize_bits : N := 64.
Definition usize_modulus : N := 2 ^ usize_bits.
Definition isize_MAX : N := 2 ^ 63 - 1.

(** [a + b] on [usize] or [u64], with overflow checks. *)
Definition usize_add {Ev : Type} (a b : N) : Act Ev N :=
  if a + b <? usize_modulus then mret (a + b) else eff_panic.
(** [a - b] on [usize] or [u64], with overflow checks. *)
Definition usize_sub {Ev : Type} (a b : N) : Act Ev N :=
  if b <=? a then mret (a - b) else eff_panic.
(** [a.wrapping_add(b)]. *)
Definition wrapping_add (a b : N) : N := (a + b) mod usize_modulus.
(** [a.wrapping_sub(b)]: what [AtomicUsize::fetch_sub] stores. *)
Definition wrapping_sub (a b : N) : N := (a + (usize_modulus - b mod usize_modulus)) mod usize_modulus.
(** [!a] on [usize]. *)
Definition usize_not (a : N) : N := N.lnot a usize_bits.

Local Close Scope N_scope.

Lemma usize_add_ok {Ev} a b :
  (a + b < usize_modulus)%N → usize_add (Ev:=Ev) a b = Done ((a + b)%N, []).
Proof. intros H. unfold usize_add. by rewrite (proj2 (N.ltb_lt _ _) H). Qed.

Lemma usize_sub_ok {Ev} a b : (b ≤ a)%N → usize_sub (Ev:=Ev) a b = Done ((a - b)%N, []).
Proof. intros H. unfold usize_sub. by rewrite (proj2 (N.leb_le _ _) H). Qed.

Lemma usize_add_done {Ev} a b c w :
  usize_add (Ev:=Ev) a b = Done (c, w) → c = (a + b)%N ∧ w = [].
Proof. unfold usize_add. destruct (_ <? _)%N; [by intros [= <- <-]|done]. Qed.

Lemma wrapping_sub_le a b :
  (b ≤ a)%N → (a < usize_modulus)%N → wrapping_sub a b = (a - b)%N.
Proof.
  intros Hle Ha. unfold wrapping_sub. rewrite (N.mod_small b) by lia.
  replace (a + (usize_modulus - b))%N with (a - b + 1 * usize_modulus)%N by lia.
  rewrite N.Div0.mod_add. apply N.mod_small. lia.
Qed.

(** * Reasoning about calls *)

Create HintDb async discriminated.

Lemma eff_bind_done {Ev A B} (m : Act Ev A) (k : A → Act Ev B) b w :
  m ≫= k = Done (b, w) ↔
  ∃ a w1 w2, m = Done (a, w1) ∧ k a = Done (b, w2) ∧ w = w1 ++ w2.
Proof.
  unfold mbind, eff_mbind, eff_bind. split.
  - destruct m as [[a w1]| |]; try discriminate.
    destruct (k a) as [[b' w2]| |] eqn:Hk; try discriminate.
    intros [= <- <-]. eauto 10.
  - intros (a & w1 & w2 & -> & -> & ->). reflexivity.
Qed.

Lemma eff_ret_done {Ev A} (a b : A) w :
  (mret a : Act Ev A) = Done (b, w) ↔ a = b ∧ w = [].
Proof.
  unfold mret, eff_mret. split; [by intros [= <- <-]|by intros [-> ->]].
Qed.

Lemma eff_bind_ret {Ev A B} (a : A) (k : A → Act Ev B) :
  (mret a : Act Ev A) ≫= k = k a.
Proof.
  unfold mbind, eff_mbind, eff_bind, mret, eff_mret.
  destruct (k a) as [[? ?]| |]; reflexivity.
Qed.

Lemma eff_bind_Done {Ev A B} (a : A) (k : A → Act Ev B) : Done (a, []) ≫= k = k a.
Proof. apply (eff_bind_ret a). Qed.

Lemma eff_bind_step {Ev A B} (m : Act Ev A) (k : A → Act Ev B) a b w1 w2 :
  m = Done (a, w1) → k a = Done (b, w2) → m ≫= k = Done (b, w1 ++ w2).
Proof. intros. apply eff_bind_done. eauto 10. Qed.

(** A call followed by code without events. *)
Lemma eff_bind_pure {Ev A B} (m : Act Ev A) (k : A → Act Ev B) a b w :
  m = Done (a, w) → k a = Done (b, []) → m ≫= k = Done (b, w).
Proof. intros Hm Hk. rewrite <- (app_nil_r w). by eapply eff_bind_step. Qed.

Lemma unwrap_Some {Ev A} (a : A) : unwrap (Ev:=Ev) (Some a) = mret a.
Proof. done. Qed.

(** Goes on in the goal with a call whose first steps are known to return. *)
Ltac run_on := repeat first [rewrite unwrap_Some|rewrite eff_bind_ret|rewrite eff_bind_Done|progress lazy beta iota zeta].

(** Case analysis of an equation [m = Done _] along the structure of [m]. *)
Ltac inv_eff_step :=
  match goal with
  | H : _ ≫= _ = Done (_, _) |- _ =>
      apply eff_bind_done in H;
      let a := fresh "a" in let w1 := fresh "w" in let w2 := fresh "w" in
      let H1 := fresh "Heff" in let H2 := fresh "Heff" in
      destruct H as (a & w1 & w2 & H1 & H2 & ?)
  | H : mret _ = Done (_, _) |- _ => apply eff_ret_done in H; destruct H as [? ?]
  | H : Done _ = Done _ |- _ => injection H; clear H; intros
  | H : Panic = Done _ |- _ => discriminate H
  | H : OutOfFuel = Done _ |- _ => discriminate H
  | H : eff_panic = Done _ |- _ => discriminate H
  | H : (let '(_, _) := ?p in _) = Done _ |- _ => destruct p eqn:?
  | H : match ?x with _ => _ end = Done _ |- _ => destruct x eqn:?
  | _ => progress simplify_eq
  end.
Ltac inv_eff := repeat (inv_eff_step; simpl in *).

(** ** More fuel never changes an answer *)

Definition fuel_mono {A : Type} (p : nat → Outcome A) : Prop :=
  ∀ n m r, n ≤ m → p n = Done r → p m = Done r.

Lemma fuel_mono_const {A} (o : Outcome A) : fuel_mono (λ _, o).
Proof. intros n m r _ H. exact H. Qed.

Lemma fuel_mono_bind {Ev A B} (p : nat → Act Ev A) (k : nat → A → Act Ev B) :
  fuel_mono p → (∀ a, fuel_mono (λ n, k n a)) → fuel_mono (λ n, p n ≫= k n).
Proof.
  intros Hp Hk n m [b w] Hle H. apply eff_bind_done in H as (a & w1 & w2 & H1 & H2 & ->).
  eapply eff_bind_step; [by eapply Hp|by eapply (Hk a)].
Qed.

Lemma rust_loop_mono_body {Ev S A} (body body' : S → Act Ev (S + A)) :
  (∀ s r, body s = Done r → body' s = Done r) →
  ∀ n m s r, n ≤ m → rust_loop body n s = Done r → rust_loop body' m s = Done r.
Proof.
  intros Hb. induction n as [|n IH]; intros m s [a w] Hle H; [discriminate|].
  destruct m as [|m]; [lia|]. simpl in *.
  apply eff_bind_done in H as (x & w1 & w2 & H1 & H2 & ->).
  eapply eff_bind_step; [by apply Hb|].
  destruct x; [|exact H2]. eapply IH; [lia|exact H2].
Qed.

Lemma fuel_mono_loop {Ev S A} (body : nat → S → Act Ev (S + A)) (s : S) :
  (∀ s, fuel_mono (λ n, body n s)) → fuel_mono (λ n, rust_loop (body n) n s).
Proof.
  intros Hb n m r Hle. apply rust_loop_mono_body; [|lia].
  intros s' r' H. by eapply Hb.
Qed.

Lemma rust_loop_continue {Ev S A} (body : S → Act Ev (S + A)) n s s' w1 a w2 :
  body s = Done (inl s', w1) → rust_loop body n s' = Done (a, w2) →
  rust_loop body (Datatypes.S n) s = Done (a, w1 ++ w2).
Proof. intros H1 H2. simpl. by eapply eff_bind_step. Qed.

Lemma rust_loop_break {Ev S A} (body : S → Act Ev (S + A)) n s a w :
  body s = Done (inr a, w) → rust_loop body (Datatypes.S n) s = Done (a, w).
Proof.
  intros H. simpl. rewrite <- (app_nil_r w). by eapply eff_bind_step.
Qed.

#[export] Hint Resolve fuel_mono_const fuel_mono_bind fuel_mono_loop : async.

(** ** A poll that is a loop *)

Section LoopPoll.
Context {T R : Type} (body : nat → T → Eff (T + R)).

(** The method [fn poll] whose whole body is [loop { .. }]. *)
Definition loop_poll (fuel : nat) (t : T) : Eff R := rust_loop (body fuel) fuel t.

Context (Hmono : ∀ t, fuel_mono (λ n, body n t)).

Lemma loop_poll_mono t : fuel_mono (λ n, loop_poll n t).
Proof. unfold loop_poll. by apply fuel_mono_loop. Qed.

Lemma loop_poll_break n t r w :
  body n t = Done (inr r, w) → ∃ m, loop_poll m t = Done (r, w).
Proof.
  intros Hb. exists (Datatypes.S n). unfold loop_poll. apply rust_loop_break.
  eapply (Hmono t n); [lia|done].
Qed.

Lemma loop_poll_ready n t r w :
  body n t = Done (inr r, w) → ∃ m w', loop_poll m t = Done (r, w').
Proof. intros Hb. destruct (loop_poll_break _ _ _ _ Hb) as [m Hm]. eauto. Qed.

Lemma loop_poll_continue n t t1 w m r w1 :
  body n t = Done (inl t1, w) → loop_poll m t1 = Done (r, w1) →
  ∃ m', loop_poll m' t = Done (r, w ++ w1).
Proof.
  intros Hb Hl. exists (Datatypes.S (n `max` m)). unfold loop_poll in *.
  eapply rust_loop_continue.
  - eapply (Hmono t n); [lia|done].
  - eapply rust_loop_mono_body; [..|exact Hl]; [|lia].
    intros s o Hs. eapply (Hmono s m); [lia|done].
Qed.

Lemma loop_poll_round n t t1 w m r w1 :
  body n t = Done (inl t1, w) → loop_poll m t1 = Done (r, w1) →
  ∃ m' w', loop_poll m' t = Done (r, w').
Proof.
  intros Hb Hl. destruct (loop_poll_continue _ _ _ _ _ _ _ Hb Hl) as [m' Hm']. eauto.
Qed.

(** Whatever holds of every way out of the loop, and is preserved by the
    events of the rounds before, holds of the loop. *)
Lemma loop_poll_ind (P : R → list CxEvent → Prop) :
  (∀ n t r w, body n t = Done (inr r, w) → P r w) →
  (∀ r w1 w2, P r w2 → P r (w1 ++ w2)) →
  ∀ n t r w, loop_poll n t = Done (r, w) → P r w.
Proof.
  intros Hb Happ n t r w. unfold loop_poll. generalize n at 2 as k.
  intros k. revert t w. induction k as [|k IH]; intros t w Hl; [discriminate|].
  simpl in Hl. apply eff_bind_done in Hl as (x & w1 & w2 & H1 & H2 & ->).
  destruct x as [t'|r']; [by apply Happ, (IH t')|].
  apply eff_ret_done in H2 as [-> ->]. rewrite app_nil_r. by eapply Hb.
Qed.

(** The same with an invariant of the rounds. *)
Lemma loop_poll_inv (I : T → Prop) (P : R → list CxEvent → Prop) :
  (∀ n t t' w, I t → body n t = Done (inl t', w) → I t') →
  (∀ n t r w, I t → body n t = Done (inr r, w) → P r w) →
  (∀ r w1 w2, P r w2 → P r (w1 ++ w2)) →
  ∀ n t r w, I t → loop_poll n t = Done (r, w) → P r w.
Proof.
  intros Hc Hb Happ n t r w. unfold loop_poll. generalize n at 2 as k.
  intros k. revert t w. induction k as [|k IH]; intros t w HI Hl; [discriminate|].
  simpl in Hl. apply eff_bind_done in Hl as (x & w1 & w2 & H1 & H2 & ->).
  destruct x as [t'|r']; [eapply Happ, IH; [by eapply Hc|done]|].
  apply eff_ret_done in H2 as [-> ->]. rewrite app_nil_r. by eapply Hb.
Qed.

(** A loop whose rounds return and make [measure] smaller returns. *)
Lemma loop_poll_total (I : T → Prop) (measure : T → nat) :
  (∀ t, I t → ∃ n x w, body n t = Done (x, w) ∧ ∀ t', x = inl t' → I t' ∧ measure t' < measure t) →
  ∀ t, I t → ∃ n x, loop_poll n t = Done x.
Proof.
  intros Hb t. remember (measure t) as k eqn:Hk. revert t Hk.
  induction k as [k IH] using lt_wf_ind. intros t -> HI.
  destruct (Hb t HI) as (n & [t'|r] & w & Ht & Hl).
  - destruct (Hl t' eq_refl) as [HI' Hlt]. destruct (IH _ Hlt t' eq_refl HI') as (m & [r w'] & Hm).
    destruct (loop_poll_continue _ _ _ _ _ _ _ Ht Hm) as (m' & Hm'). by exists m', (r, w ++ w').
  - destruct (loop_poll_break _ _ _ _ Ht) as (m & Hm). by exists m, (r, w).
Qed.

(** Both at once: the rounds return, keep [I] and make [measure] smaller, and
    leave the loop with [P]. *)
Lemma loop_poll_meets (I : T → Prop) (measure : T → nat) (P : R → list CxEvent → Prop) :
  (∀ n t x w, I t → body n t = Done (x, w) →
     match x with inl t' => I t' ∧ measure t' < measure t | inr r => P r w end) →
  (∀ t, I t → ∃ n x, body n t = Done x) →
  (∀ r w1 w2, P r w2 → P r (w1 ++ w2)) →
  ∀ t, I t → (∀ n r w, loop_poll n t = Done (r, w) → P r w) ∧ ∃ n x, loop_poll n t = Done x.
Proof.
  intros Hr Ht Happ t HI. split.
  - intros n r w. apply (loop_poll_inv I P); [..|done]; [|intros *; apply Hr|done].
    intros m t1 t2 w' H1 H2. by destruct (Hr _ _ _ _ H1 H2).
  - apply (loop_poll_total I measure); [|done]. intros t1 H1. destruct (Ht t1 H1) as (n & [x w] & He).
    exists n, x, w. split; [done|]. intros t' ->. exact (Hr _ _ _ _ H1 He).
Qed.
End LoopPoll.

#[export] Hint Resolve loop_poll_mono : async.

Lemma events_nonempty_l (w1 w2 : list CxEvent) : w1 ≠ [] → w1 ++ w2 ≠ [].
Proof. by destruct w1. Qed.
Lemma events_nonempty_r (w1 w2 : list CxEvent) : w2 ≠ [] → w1 ++ w2 ≠ [].
Proof. by destruct w1. Qed.
#[export] Hint Resolve events_nonempty_l events_nonempty_r : async.

(** Closes [fuel_mono (λ n, e)] by recursion on the shape of [e]. *)
Ltac solve_fuel_mono :=
  repeat first
    [ apply fuel_mono_const
    | solve [eauto with async]
    | apply fuel_mono_bind; [|intros ?]
    | apply fuel_mono_loop; intros ?
    | apply loop_poll_mono; intros ?
    | match goal with
      | |- fuel_mono (λ _, let '(_, _) := ?p in _) => destruct p
      | |- fuel_mono (λ _, match ?x with _ => _ end) => destruct x
      end ].
