(* ===== verification/Utils.v ===== *)
(** What the rest of the program shares from src/src/utils.rs: [random],
    [abort_on_panic] and [defer!], with the code that may unwind as functions of
    the state of the thread that runs it. *)

From S2P Require Import Prelude.

(** * [random] *)

Section Random.
Local Open Scope N_scope.

Definition u32_modulus : N := 2 ^ 32.

(** The three assignments to [x], a [Wrapping<u32>]. *)
Definition xorshift (x : N) : N :=
  let x := N.lxor x (N.shiftl x 13 mod u32_modulus) in
  let x := N.lxor x (N.shiftr x 17) in
  N.lxor x (N.shiftl x 5 mod u32_modulus).

(** The number, and the new value of the thread-local [RNG]. *)
Definition random (n rng : N) : N * N :=
  let x := xorshift rng in
  (N.shiftr ((x * n) mod usize_modulus) 32 mod u32_modulus, x).

Lemma lxor_lt a b k : a < 2 ^ k → b < 2 ^ k → N.lxor a b < 2 ^ k.
Proof.
  intros Ha Hb. destruct (N.eq_dec (N.lxor a b) 0) as [->|Hne]; [lia|].
  apply N.log2_lt_pow2; [lia|].
  eapply N.le_lt_trans; [apply N.log2_lxor|]. apply N.max_lub_lt.
  - destruct (N.eq_dec a 0) as [->|Ha0]; [|by apply N.log2_lt_pow2; lia].
    destruct (N.eq_dec b 0) as [->|Hb0]; [done|]. apply N.log2_lt_pow2 in Hb; [|lia].
    simpl. lia.
  - destruct (N.eq_dec b 0) as [->|Hb0]; [|by apply N.log2_lt_pow2; lia].
    destruct (N.eq_dec a 0) as [->|Ha0]; [done|]. apply N.log2_lt_pow2 in Ha; [|lia].
    simpl. lia.
Qed.

Lemma shiftr_lt a k j : a < 2 ^ k → N.shiftr a j < 2 ^ k.
Proof.
  intros Ha. rewrite N.shiftr_div_pow2. eapply N.le_lt_trans; [|exact Ha].
  apply N.Div0.div_le_upper_bound. pose proof (N.pow_nonzero 2 j). nia.
Qed.

Lemma xorshift_lt x : x < u32_modulus → xorshift x < u32_modulus.
Proof.
  intros Hx. unfold xorshift, u32_modulus in *.
  assert (∀ y, y mod 2 ^ 32 < 2 ^ 32) as Hm by (intros y; by apply N.mod_lt).
  repeat apply lxor_lt; auto using shiftr_lt, lxor_lt.
Qed.

(** The number is one of [0..n], and [0] if there is none. *)
Lemma random_lt n rng :
  rng < u32_modulus → n < u32_modulus → 0 < n →
  (random n rng).1 < n ∧ (random n rng).2 < u32_modulus.
Proof.
  intros Hr Hn H0. pose proof (xorshift_lt rng Hr) as Hx. split; [|exact Hx].
  unfold random. simpl. revert Hx. generalize (xorshift rng) as x. intros x Hx.
  unfold u32_modulus, usize_modulus, usize_bits in *.
  assert (x * n < 2 ^ 32 * n) as Hxn by nia.
  rewrite (N.mod_small (x * n)) by nia. rewrite N.shiftr_div_pow2.
  assert (x * n / 2 ^ 32 < n) as Hlt by (apply N.Div0.div_lt_upper_bound; lia).
  rewrite N.mod_small; lia.
Qed.

Lemma random_le n rng :
  rng < u32_modulus → n < u32_modulus → (random n rng).1 ≤ n ∧ (random n rng).2 < u32_modulus.
Proof.
  intros Hr Hn. destruct (N.eq_dec n 0) as [->|H0].
  - split; [|by apply xorshift_lt]. unfold random. simpl. by rewrite N.mul_0_r.
  - destruct (random_lt n rng); [done..|lia|]. split; [lia|done].
Qed.

(** A stage [x ^= x << k]: of a number other than zero it does not make zero. *)
Lemma shiftl_stage k x :
  0 < k → x < u32_modulus → N.lxor x (N.shiftl x k mod u32_modulus) = 0 → x = 0.
Proof.
  intros Hk Hx H. apply N.lxor_eq in H. apply N.bits_inj_0.
  assert (∀ i, N.testbit x i = N.testbit (N.shiftl x k mod u32_modulus) i) as Hb by (intros i; by rewrite <- H).
  intros i. induction i as [i IH] using (well_founded_induction N.lt_wf_0).
  rewrite Hb. unfold u32_modulus in *. destruct (N.lt_ge_cases i 32) as [Hi|Hi].
  - rewrite N.mod_pow2_bits_low by done. destruct (N.lt_ge_cases i k) as [Hik|Hik].
    + by apply N.shiftl_spec_low.
    + rewrite N.shiftl_spec_high' by done. apply IH. lia.
  - by apply N.mod_pow2_bits_high.
Qed.

Lemma shiftr_stage k x : 0 < k → x < u32_modulus → N.lxor x (N.shiftr x k) = 0 → x = 0.
Proof.
  intros Hk Hx H. apply N.lxor_eq in H. destruct (N.eq_dec x 0) as [|Hne]; [done|].
  exfalso. rewrite N.shiftr_div_pow2 in H.
  assert (x / 2 ^ k < x); [|lia]. apply N.div_lt; [lia|].
  apply N.pow_gt_1; lia.
Qed.

(** So the generator never gets stuck at zero. *)
Lemma xorshift_nonzero x : x < u32_modulus → x ≠ 0 → xorshift x ≠ 0.
Proof.
  intros Hx Hne Hz. apply Hne. unfold xorshift in Hz.
  assert (∀ y, y mod u32_modulus < u32_modulus) as Hm by (intros y; by apply N.mod_lt).
  apply (shiftl_stage 13 x); [lia|done|]. apply (shiftr_stage 17); [lia| |].
  - by apply (lxor_lt _ _ 32); [|apply Hm].
  - apply (shiftl_stage 5); [lia| |exact Hz].
    apply (lxor_lt _ _ 32); [|apply shiftr_lt]; by (apply (lxor_lt _ _ 32); [|apply Hm]).
Qed.
End Random.

(** * Code that may unwind *)

(** How a piece of code ends that works on a state: it returns, it panics and
    unwinds, it aborts the process; [Undefined] is undefined behaviour, and
    [Unfinished] that the fuel was not enough. *)
Inductive Exit (A : Type) : Type :=
| Returns (a : A)
| Unwinds
| Aborts
| Undefined
| Unfinished.
Arguments Returns {A} a.
Arguments Unwinds {A}.
Arguments Aborts {A}.
Arguments Undefined {A}.
Arguments Unfinished {A}.

Definition Run (S A : Type) : Type := S → Exit A * S.

Section Run.
Context {S : Type}.

Definition run_bind {A B : Type} (k : A → Run S B) (m : Run S A) : Run S B := λ s,
  let '(r, s) := m s in
  match r with
  | Returns a => k a s
  | Unwinds => (Unwinds, s)
  | Aborts => (Aborts, s)
  | Undefined => (Undefined, s)
  | Unfinished => (Unfinished, s)
  end.

Definition stop {A : Type} (e : Exit A) : Run S A := λ s, (e, s).
Definition get {A : Type} (f : S → A) : Run S A := λ s, (Returns (f s), s).
Definition modify (f : S → S) : Run S () := λ s, (Returns tt, f s).

(** [abort_on_panic(f)]: the bomb goes off when the stack is unwound. *)
Definition abort_on_panic {A : Type} (f : Run S A) : Run S A := λ s,
  let '(r, s) := f s in
  (match r with Unwinds => Aborts | r => r end, s).

(** [defer! { body } ..rest..]: the guard runs [body] when the scope is left, by
    returning or by unwinding; a panic while unwinding aborts. *)
Definition defer {A : Type} (body : Run S ()) (rest : Run S A) : Run S A := λ s,
  let '(r, s) := rest s in
  match r with
  | Returns _ | Unwinds =>
      let '(r', s) := body s in
      (match r', r with
       | Returns _, r => r
       | Unwinds, Returns _ => Unwinds
       | Unwinds, _ => Aborts
       | Aborts, _ => Aborts
       | Undefined, _ => Undefined
       | Unfinished, _ => Unfinished
       end, s)
  | _ => (r, s)
  end.
End Run.

#[global] Instance run_mret {S} : MRet (Run S) := λ A a s, (Returns a, s).
#[global] Instance run_mbind {S} : MBind (Run S) := @run_bind S.

Section RunLemmas.
Context {S : Type}.

Lemma run_bind_returns {A B} (m : Run S A) (k : A → Run S B) s a s' :
  m s = (Returns a, s') → (m ≫= k) s = k a s'.
Proof. intros Hm. unfold mbind, run_mbind, run_bind. by rewrite Hm. Qed.

Lemma run_bind_get {A B} (f : S → A) (k : A → Run S B) s : (get f ≫= k) s = k (f s) s.
Proof. done. Qed.

Lemma run_bind_mret {A B} (a : A) (k : A → Run S B) s : ((mret a : Run S A) ≫= k) s = k a s.
Proof. done. Qed.

Lemma run_bind_assoc {A B C} (m : Run S A) (k : A → Run S B) (k' : B → Run S C) s :
  ((m ≫= k) ≫= k') s = (m ≫= λ a, k a ≫= k') s.
Proof. unfold mbind, run_mbind, run_bind. by destruct (m s) as [[] ?]. Qed.

Lemma run_bind_inv {A B} (m : Run S A) (k : A → Run S B) s r s' :
  (m ≫= k) s = (r, s') →
  (∃ a s1, m s = (Returns a, s1) ∧ k a s1 = (r, s')) ∨
  (∃ e : Exit A, m s = (e, s') ∧ (∀ a, e ≠ Returns a) ∧
     r = match e with Aborts => Aborts | Undefined => Undefined | Unfinished => Unfinished | _ => Unwinds end).
Proof.
  unfold mbind, run_mbind, run_bind. destruct (m s) as [[a| | | |] s1]; [by eauto|..];
    intros [= <- <-]; right; eexists; (split; [reflexivity|done]).
Qed.
End RunLemmas.
