(* ===== verification/Async.v ===== *)
(** The interfaces every component of async-std is written against: [Stream]
    and [Future] as poll functions, closures, and the laws a well-behaved
    implementation satisfies; and the relations [pulls], [yields], [resolves]
    that say what a stream or a future produces when an executor keeps polling
    it. *)

From S2P Require Import Prelude.
Local Open Scope async_scope.

(** * Interfaces *)

(** [futures_core::stream::Stream] ([poll_next], src/src/stream/stream/mod.rs).
    The first argument is fuel for the loops a poll runs; the stream is
    returned in the state the poll leaves it in. *)
Class Stream (St A : Type) : Type := poll_next : nat → St → Eff (Poll (option A) * St).
#[global] Hint Mode Stream ! - : typeclass_instances.

(** [std::future::Future]. *)
Class Future (F T : Type) : Type := poll : nat → F → Eff (Poll T * F).
#[global] Hint Mode Future ! - : typeclass_instances.

(** [FnMut(A) -> B]: a call may change what the closure has captured. *)
Class FnMut (F A B : Type) : Type := call_mut : F → A → B * F.
#[global] Hint Mode FnMut ! - - : typeclass_instances.

(** A function that captures nothing. *)
#[global] Instance fn_pure (A B : Type) : FnMut (A → B) A B := λ f a, (f a, f).

(** A closure with captured state [env]. *)
Record Closure (E A B : Type) : Type := mkClosure {
  closure_env : E;
  closure_body : E → A → B * E
}.
Arguments mkClosure {E A B}.
Arguments closure_env {E A B}.
Arguments closure_body {E A B}.

#[global] Instance fn_closure (E A B : Type) : FnMut (Closure E A B) A B :=
  λ f a, let '(b, st) := closure_body f (closure_env f) a in
         (b, mkClosure st (closure_body f)).

(** The arguments a closure is called with, in order, and its answers. *)
Fixpoint calls `{FnMut F A B} (f : F) (l : list A) : list (A * B) :=
  match l with
  | [] => []
  | a :: l => let '(b, f') := call_mut f a in (a, b) :: calls f' l
  end.

(** What the closure has become after being called with them. *)
Fixpoint calls_end `{FnMut F A B} (f : F) (l : list A) : F :=
  match l with
  | [] => f
  | a :: l => calls_end (snd (call_mut f a)) l
  end.

Lemma calls_pure {A B} (f : A → B) (l : list A) : calls f l = (λ a, (a, f a)) <$> l.
Proof. induction l as [|a l IH]; simpl; [done|by f_equal]. Qed.

Lemma calls_fst `{FnMut F A B} (f : F) (l : list A) : (calls f l).*1 = l.
Proof.
  revert f. induction l as [|a l IH]; intros f; simpl; [done|].
  destruct (call_mut f a) as [b f']. simpl. by rewrite IH.
Qed.

(** * Laws *)

(** Giving a poll more fuel does not change its answer. *)
Class StreamMono St {A} `{Stream St A} : Prop :=
  stream_mono : ∀ s : St, fuel_mono (λ n, poll_next n s).
Class FutureMono F {T} `{Future F T} : Prop :=
  future_mono : ∀ f : F, fuel_mono (λ n, poll n f).

(** The contract of a poll that returns [Pending]: before it returned, it
    called the waker or left it with somebody who will. *)
Class StreamWakes St {A} `{Stream St A} : Prop :=
  stream_wakes : ∀ n (s s' : St) w, poll_next n s = Done ((Pending, s'), w) → w ≠ [].
Class FutureWakes F {T} `{Future F T} : Prop :=
  future_wakes : ∀ n (f f' : F) w, poll n f = Done ((Pending, f'), w) → w ≠ [].

#[export] Hint Resolve stream_mono future_mono : async.
#[export] Hint Extern 1 (StreamMono _) => typeclasses eauto : async.
#[export] Hint Extern 1 (FutureMono _) => typeclasses eauto : async.

(** * What an executor obtains by polling again and again *)

Section PollUntilReady.
Context {S X : Type} (p : nat → S → Eff (Poll X * S)).

(** [until_ready s x s']: polled until it is ready, [s] gives [x] and is left
    in the state [s']. *)
Inductive until_ready : S → X → S → Prop :=
| until_ready_now n s x s' w :
    p n s = Done ((Ready x, s'), w) → until_ready s x s'
| until_ready_later n s s1 x s' w :
    p n s = Done ((Pending, s1), w) → until_ready s1 x s' → until_ready s x s'.
End PollUntilReady.

(** A stream's next item ([None] at its end), and a future's value. *)
Abbreviation pulls := (until_ready poll_next).
Abbreviation resolves := (until_ready poll).

#[export] Hint Constructors until_ready : async.

Section Lift.
Context {S T X Y : Type} (p : nat → S → Eff (Poll X * S)) (q : nat → T → Eff (Poll Y * T)).

(** An adapter [g] that is pending, unchanged, when what it wraps is. *)
Definition pending_through (g : S → T) : Prop :=
  ∀ n s s1 w, p n s = Done ((Pending, s1), w) →
    ∃ m w', q m (g s) = Done ((Pending, g s1), w').

Lemma until_ready_lift (g : S → T) s x s' y t :
  pending_through g →
  until_ready p s x s' →
  (∀ s0 n w, p n s0 = Done ((Ready x, s'), w) → until_ready q (g s0) y t) →
  until_ready q (g s) y t.
Proof.
  intros Hg Hs Hnow. induction Hs as [n s x s' w Hp|n s s1 x s' w Hp _ IH].
  - by eapply Hnow.
  - destruct (Hg _ _ _ _ Hp) as (m & w' & Hq). eapply until_ready_later; eauto.
Qed.

(** The common case: the adapter is ready as soon as what it wraps is. *)
Lemma until_ready_map (g : S → T) s x s' y t :
  pending_through g →
  until_ready p s x s' →
  (∀ s0 n w, p n s0 = Done ((Ready x, s'), w) →
     ∃ m w', q m (g s0) = Done ((Ready y, t), w')) →
  until_ready q (g s) y t.
Proof.
  intros Hg Hs Hnow. eapply until_ready_lift; [done..|].
  intros s0 n w Hp. destruct (Hnow _ _ _ Hp) as (m & w' & Hq).
  by eapply until_ready_now.
Qed.

(** An adapter whose poll consumes the item and asks to be polled again. *)
Lemma until_ready_again (g : S → T) s x s' t1 y t :
  pending_through g →
  until_ready p s x s' →
  (∀ s0 n w, p n s0 = Done ((Ready x, s'), w) →
     ∃ m w', q m (g s0) = Done ((Pending, t1), w')) →
  until_ready q t1 y t →
  until_ready q (g s) y t.
Proof.
  intros Hg Hs Hnow Ht. eapply until_ready_lift; [done..|].
  intros s0 n w Hp. destruct (Hnow _ _ _ Hp) as (m & w' & Hq).
  by eapply until_ready_later.
Qed.
End Lift.

Section Continue.
Context {S T X Y : Type} (p : nat → S → Eff (Poll X * S)) (q : nat → T → Eff (Poll Y * T)).

(** An adapter whose poll, once it has the item, goes round its loop and so
    does what polling [t1] would have done. *)
Lemma until_ready_continue (g : S → T) s x s' t1 y t :
  pending_through p q g →
  until_ready p s x s' →
  (∀ s0 n w m r w1, p n s0 = Done ((Ready x, s'), w) → q m t1 = Done (r, w1) →
     ∃ m' w', q m' (g s0) = Done (r, w')) →
  until_ready q t1 y t →
  until_ready q (g s) y t.
Proof.
  intros Hg Hs Hnow Ht. eapply until_ready_lift; [done..|].
  intros s0 n w Hp. destruct Ht as [m t1 y t w1 Hq|m t1 t2 y t w1 Hq Ht].
  - destruct (Hnow _ _ _ _ _ _ Hp Hq) as (m' & w' & Hq').
    by eapply until_ready_now.
  - destruct (Hnow _ _ _ _ _ _ Hp Hq) as (m' & w' & Hq').
    by eapply until_ready_later.
Qed.
End Continue.

Section Determinism.
Context {S X : Type} (p : nat → S → Eff (Poll X * S)).
Context (Hmono : ∀ s, fuel_mono (λ n, p n s)).

Lemma poll_det n m s r1 r2 : p n s = Done r1 → p m s = Done r2 → r1 = r2.
Proof.
  intros H1 H2.
  pose proof (Hmono s n (n `max` m) r1 (Nat.le_max_l _ _) H1) as H1'.
  pose proof (Hmono s m (n `max` m) r2 (Nat.le_max_r _ _) H2) as H2'.
  simpl in *. congruence.
Qed.

Lemma until_ready_det s x1 s1 x2 s2 :
  until_ready p s x1 s1 → until_ready p s x2 s2 → x1 = x2 ∧ s1 = s2.
Proof.
  intros H1. revert x2 s2.
  induction H1 as [n s x s' w Hp|n s s1 x s' w Hp H1 IH]; intros x2 s2 H2;
    destruct H2 as [m s x2 s2 w2 Hq|m s s3 x2 s2 w2 Hq H2];
    pose proof (poll_det _ _ _ _ _ Hp Hq) as Heq; simplify_eq; eauto.
Qed.
End Determinism.

(** A poll that is a loop, round by round. *)
Section UntilRounds.
Context {T X : Type} (body : nat → T → Eff (T + (Poll X * T))).
Context (Hmono : ∀ t, fuel_mono (λ n, body n t)).

Lemma until_round_ready n t x t' w :
  body n t = Done (inr (Ready x, t'), w) → until_ready (loop_poll body) t x t'.
Proof.
  intros Hb. destruct (loop_poll_ready body Hmono _ _ _ _ Hb) as (m & w' & Hm).
  by eapply until_ready_now.
Qed.

Lemma until_round_pending n t t1 w x t' :
  body n t = Done (inr (Pending, t1), w) → until_ready (loop_poll body) t1 x t' →
  until_ready (loop_poll body) t x t'.
Proof.
  intros Hb Ht. destruct (loop_poll_ready body Hmono _ _ _ _ Hb) as (m & w' & Hm).
  by eapply until_ready_later.
Qed.

Lemma until_round_continue n t t1 w x t' :
  body n t = Done (inl t1, w) → until_ready (loop_poll body) t1 x t' →
  until_ready (loop_poll body) t x t'.
Proof.
  intros Hb Ht. destruct Ht as [m t1 x t' w1 Hq|m t1 t2 x t' w1 Hq Ht];
    destruct (loop_poll_round body Hmono _ _ _ _ _ _ _ Hb Hq) as (m' & w' & Hm');
    [by eapply until_ready_now|by eapply until_ready_later].
Qed.
End UntilRounds.

(** [items s l s']: the stream gives the items [l], and is then [s']. *)
Inductive items `{Stream St A} : St → list A → St → Prop :=
| items_nil s : items s [] s
| items_cons s a s1 l s' : pulls s (Some a) s1 → items s1 l s' → items s (a :: l) s'.

(** [yields s l]: the stream gives the items [l] and then ends. *)
Inductive yields `{Stream St A} : St → list A → Prop :=
| yields_nil s s' : pulls s None s' → yields s []
| yields_cons s a s1 l : pulls s (Some a) s1 → yields s1 l → yields s (a :: l).

(** [drains s l s']: the same, the stream being [s'] after its end. *)
Inductive drains `{Stream St A} : St → list A → St → Prop :=
| drains_nil s s' : pulls s None s' → drains s [] s'
| drains_cons s a s1 l s' :
    pulls s (Some a) s1 → drains s1 l s' → drains s (a :: l) s'.

(** [resolves_to f v]: polled until it is ready, the future gives [v]. *)
Definition resolves_to `{Future F T} (f : F) (v : T) : Prop := ∃ f', resolves f v f'.

(** [promises f post]: however [f] is polled from now on, every poll returns; one
    that is pending has used the waker; and one that is ready satisfies [post].
    The greatest such property, as an invariant. *)
Definition promises `{Future F T} (f : F) (post : T → F → Prop) : Prop :=
  ∃ I : F → Prop, I f ∧ ∀ f, I f →
    (∃ n x, poll n f = Done x) ∧
    ∀ n p f' w, poll n f = Done ((p, f'), w) →
      match p with
      | Pending => w ≠ [] ∧ I f'
      | Ready v => post v f'
      end.

#[export] Hint Constructors items yields drains : async.

Section Promises.
Context `{Future F T}.
Implicit Types (f : F) (post : T → F → Prop).

Lemma promises_resolves f v f' post : promises f post → resolves f v f' → post v f'.
Proof.
  intros (I & Hf & HI) Hr. induction Hr as [n f v f' w Hp|n f f1 v f' w Hp _ IH].
  - exact (proj2 (HI _ Hf) _ _ _ _ Hp).
  - apply IH. by apply (proj2 (HI _ Hf) _ _ _ _ Hp).
Qed.

Lemma promises_mono f post (post' : T → F → Prop) :
  promises f post → (∀ v f', post v f' → post' v f') → promises f post'.
Proof.
  intros (I & Hf & HI) Himp. exists I. split; [done|]. intros f1 H1. destruct (HI f1 H1) as [Ht Hs].
  split; [done|]. intros n p f' w Hp. pose proof (Hs _ _ _ _ Hp) as Hx. destruct p; [by apply Himp|done].
Qed.
End Promises.

Section Yields.
Context `{Stream St A}.

Lemma yields_items (s : St) l : yields s l ↔ ∃ s1 s2, items s l s1 ∧ pulls s1 None s2.
Proof.
  split.
  - induction 1 as [s s' Hp|s a s1 l Hp Hy (s2 & s3 & Hi & He)];
      eauto 6 with async.
  - intros (s1 & s2 & Hi & He).
    induction Hi; eauto with async.
Qed.

Lemma yields_drains (s : St) l : yields s l ↔ ∃ s', drains s l s'.
Proof.
  split.
  - induction 1 as [|s a s1 l Hp Hy [s' Hd]]; eauto with async.
  - intros [s' Hd]. induction Hd; eauto with async.
Qed.

Lemma items_app (s s1 s2 : St) l1 l2 :
  items s l1 s1 → items s1 l2 s2 → items s (l1 ++ l2) s2.
Proof. induction 1; simpl; eauto with async. Qed.

Lemma items_yields (s s1 : St) l1 l2 :
  items s l1 s1 → yields s1 l2 → yields s (l1 ++ l2).
Proof. induction 1; simpl; eauto with async. Qed.

Lemma yields_app_inv (s : St) l1 l2 :
  yields s (l1 ++ l2) → ∃ s1, items s l1 s1 ∧ yields s1 l2.
Proof.
  revert s. induction l1 as [|a l1 IH]; intros s Hy; simpl in *; [eauto with async|].
  inversion Hy as [|? ? s1 ? Hp Hy']; subst.
  destruct (IH _ Hy') as (s2 & Hi & Hy2). eauto with async.
Qed.

(** A stream whose next item is that of [t] yields what [t] yields. *)
Lemma yields_as (s t : St) l :
  yields t l → (∀ o t', pulls t o t' → pulls s o t') → yields s l.
Proof. destruct 1; intros Hp; eauto with async. Qed.

(** What a stream yields is determined by the stream. *)
Lemma yields_det `{!StreamMono St} (s : St) l1 l2 : yields s l1 → yields s l2 → l1 = l2.
Proof.
  intros H1. revert l2.
  induction H1 as [s s' Hp|s a s1 l Hp Hy IH]; intros l2 H2;
    destruct H2 as [s s2 Hq|s b s2 l2 Hq Hy2];
    destruct (until_ready_det _ stream_mono _ _ _ _ _ Hp Hq); simplify_eq;
    [done|f_equal; eauto].
Qed.
End Yields.

(** * Tactics *)

(** Runs the polls in the goal with the equations for the inner polls that are
    in the context. *)
Ltac eff_eval :=
  repeat first
    [ once match goal with
      | H : ?m = Done _ |- context [?m] => rewrite H
      | H : call_mut ?f ?a = _ |- context [call_mut ?f ?a] => rewrite H
      | H : ?b = true |- context [if ?b then _ else _] => rewrite H
      | H : ?b = false |- context [if ?b then _ else _] => rewrite H
      end
    | progress simpl ].

Ltac head_of t := lazymatch t with ?f _ => head_of f | _ => t end.

(** Proves [StreamMono] and [FutureMono] instances. *)
Ltac solve_mono :=
  let s := fresh "s" in intros s;
  lazymatch goal with
  | |- fuel_mono (λ n, @poll_next _ _ ?I n s) =>
      let h := head_of I in
      let J := eval cbv beta delta [h] in I in
      let g := head_of J in
      change (fuel_mono (λ n, J n s)); unfold g
  | |- fuel_mono (λ n, @poll _ _ ?I n s) =>
      let h := head_of I in
      let J := eval cbv beta delta [h] in I in
      let g := head_of J in
      change (fuel_mono (λ n, J n s)); unfold g
  end;
  solve_fuel_mono.

(** Opens the poll of an adapter in a hypothesis. *)
Ltac open_poll_in H :=
  lazymatch type of H with
  | @poll_next _ _ ?I ?n ?s = ?r =>
      let h := head_of I in
      let J := eval cbv beta delta [h] in I in
      let g := head_of J in
      change (J n s = r) in H; unfold g in H
  | @poll _ _ ?I ?n ?s = ?r =>
      let h := head_of I in
      let J := eval cbv beta delta [h] in I in
      let g := head_of J in
      change (J n s = r) in H; unfold g in H
  end.

(** Opens the poll of an adapter in the goal. *)
Ltac open_poll :=
  lazymatch goal with
  | |- context [@poll_next _ _ ?I ?n ?s] =>
      let h := head_of I in
      let J := eval cbv beta delta [h] in I in
      let g := head_of J in
      change (@poll_next _ _ I n s) with (J n s); unfold g
  | |- context [@poll _ _ ?I ?n ?s] =>
      let h := head_of I in
      let J := eval cbv beta delta [h] in I in
      let g := head_of J in
      change (@poll _ _ I n s) with (J n s); unfold g
  end.

(** Proves [StreamWakes] and [FutureWakes] instances: a poll that is pending
    either polled something that was pending, or used the waker itself. *)
Ltac wakes_done :=
  repeat match goal with
    | H : poll_next _ _ = Done ((Pending, _), _) |- _ => apply stream_wakes in H
    | H : poll _ _ = Done ((Pending, _), _) |- _ => apply future_wakes in H
    end; subst; simpl; auto with async.
Ltac solve_wakes :=
  let n := fresh "n" in let w := fresh "w" in let Hp := fresh "Hp" in
  intros n ? ? w Hp; open_poll_in Hp; inv_eff; wakes_done.
Ltac solve_wakes_loop :=
  let n := fresh "n" in let w := fresh "w" in let Hp := fresh "Hp" in
  intros n ? ? w Hp; open_poll_in Hp;
  refine (loop_poll_ind _ (λ r w, fst r = Pending → w ≠ []) _ _ _ _ _ _ Hp eq_refl);
  [clear Hp w n; intros n ? [? ?] w Hp ?; simpl in *; subst;
   match type of Hp with ?b _ _ = _ => let g := head_of b in unfold g in Hp end;
   inv_eff; wakes_done
  |simpl; auto with async].

(** Proves [pending_through] and readiness goals, [∃ m w, poll m t = Done (r, w)],
    for polls without a loop; the fuel is that of the inner poll. *)
Ltac run_straight :=
  match goal with
  | H : _ ?n _ = Done _ |- _ => exists n
  | _ => exists 0
  end;
  eexists; open_poll; eff_eval; try reflexivity.
Ltac solve_pending := intros ? ? ? ? ?; run_straight.

(** The same for polls that are a loop leaving in its first round. *)
Ltac run_loop body :=
  match goal with
  | H : _ ?n _ = Done _ |- _ => eapply (loop_poll_ready body ltac:(eauto with async) n)
  end;
  (let g := head_of body in unfold g); eff_eval; try reflexivity.
Ltac solve_pending_loop body := intros ? ? ? ? ?; run_loop body.

(** What an adapter gives once the stream below it, polled until ready, has
    given something: at once ([lift_now]), or after being polled again
    ([lift_again]); [lift_now_loop] and [lift_round] are the counterparts for a
    poll that is a loop. *)
Ltac lift_by Hp k :=
  lazymatch type of Hp with
  | until_ready ?p ?s ?x ?s' =>
      lazymatch goal with
      | |- until_ready ?q ?T ?y ?t =>
          let g := eval pattern s in T in
          lazymatch g with ?g' _ => k p q g' s x s' y t end
      end
  end.
Ltac lift_now Hp :=
  lift_by Hp ltac:(fun p q g s x s' y t => eapply (until_ready_map p q g s x s' y t));
  [solve_pending|exact Hp|intros; run_straight].
Ltac lift_again Hp :=
  lift_by Hp ltac:(fun p q g s x s' y t =>
    eapply (until_ready_again p q g s x s' _ y t));
  [solve_pending|exact Hp|intros; run_straight|].
Ltac lift_now_loop body Hp :=
  lift_by Hp ltac:(fun p q g s x s' y t => eapply (until_ready_map p q g s x s' y t));
  [solve_pending_loop body|exact Hp|intros; run_loop body].
Ltac lift_round body Hp :=
  lift_by Hp ltac:(fun p q g s x s' y t =>
    eapply (until_ready_continue p q g s x s' _ y t));
  [solve_pending_loop body
  |exact Hp
  |let n := fresh "n" in let Hin := fresh "Hin" in let Hout := fresh "Hout" in
   intros ? n ? ? ? ? Hin Hout;
   eapply (loop_poll_round body ltac:(eauto with async) n);
   [(let g := head_of body in unfold g); eff_eval; try reflexivity|exact Hout]
  |].
