(* ===== verification/StreamAdapters.v ===== *)
(** Stream adapters: the streams src/src/stream/stream/*.rs builds from another
    stream, one record and one [poll_next] per adapter, with what each yields
    when the stream below it yields a list. *)

From S2P Require Import Prelude Async.
Local Open Scope async_scope.

(** * The adapters *)

(** ** map.rs *)

Record Map (St F : Type) : Type := mkMap { map_stream : St; map_f : F }.
Arguments mkMap {St F}.
Arguments map_stream {St F}.
Arguments map_f {St F}.

Definition Map_new {St F : Type} (stream : St) (f : F) : Map St F := mkMap stream f.

Definition Map_poll_next `{Stream St A} `{FnMut F A B} (fuel : nat) (this : Map St F) :
    Eff (Poll (option B) * Map St F) :=
  '(next, s) ← poll_next fuel (map_stream this);
  ready! next := next else mret (Pending, mkMap s (map_f this)) in
  match next with
  | Some v => let '(b, f) := call_mut (map_f this) v in mret (Ready (Some b), mkMap s f)
  | None => mret (Ready None, mkMap s (map_f this))
  end.
#[global] Instance Map_Stream `{Stream St A} `{FnMut F A B} : Stream (Map St F) B :=
  Map_poll_next.

(** ** inspect.rs *)

Record Inspect (St F : Type) : Type := mkInspect { inspect_stream : St; inspect_f : F }.
Arguments mkInspect {St F}.
Arguments inspect_stream {St F}.
Arguments inspect_f {St F}.

Definition Inspect_new {St F : Type} (stream : St) (f : F) : Inspect St F :=
  mkInspect stream f.

Definition Inspect_poll_next `{Stream St A} `{FnMut F A ()} (fuel : nat)
    (this : Inspect St F) : Eff (Poll (option A) * Inspect St F) :=
  '(next, s) ← poll_next fuel (inspect_stream this);
  ready! next := next else mret (Pending, mkInspect s (inspect_f this)) in
  match next with
  | Some x => let '(_, f) := call_mut (inspect_f this) x in mret (Ready (Some x), mkInspect s f)
  | None => mret (Ready None, mkInspect s (inspect_f this))
  end.
#[global] Instance Inspect_Stream `{Stream St A} `{FnMut F A ()} : Stream (Inspect St F) A :=
  Inspect_poll_next.

(** ** enumerate.rs *)

Record Enumerate (St : Type) : Type := mkEnumerate { enumerate_stream : St; enumerate_i : N }.
Arguments mkEnumerate {St}.
Arguments enumerate_stream {St}.
Arguments enumerate_i {St}.

Definition Enumerate_new {St : Type} (stream : St) : Enumerate St := mkEnumerate stream 0.

Definition Enumerate_poll_next `{Stream St A} (fuel : nat) (this : Enumerate St) :
    Eff (Poll (option (N * A)) * Enumerate St) :=
  '(next, s) ← poll_next fuel (enumerate_stream this);
  ready! next := next else mret (Pending, mkEnumerate s (enumerate_i this)) in
  match next with
  | Some v =>
      let ret := (enumerate_i this, v) in
      i ← usize_add (enumerate_i this) 1;
      mret (Ready (Some ret), mkEnumerate s i)
  | None => mret (Ready None, mkEnumerate s (enumerate_i this))
  end.
#[global] Instance Enumerate_Stream `{Stream St A} : Stream (Enumerate St) (N * A) :=
  Enumerate_poll_next.

(** ** filter.rs *)

Record Filter (St P : Type) : Type := mkFilter { filter_stream : St; filter_predicate : P }.
Arguments mkFilter {St P}.
Arguments filter_stream {St P}.
Arguments filter_predicate {St P}.

Definition Filter_new {St P : Type} (stream : St) (predicate : P) : Filter St P :=
  mkFilter stream predicate.

Definition Filter_poll_next `{Stream St A} `{FnMut P A bool} (fuel : nat) (this : Filter St P) :
    Eff (Poll (option A) * Filter St P) :=
  '(next, s) ← poll_next fuel (filter_stream this);
  ready! next := next else mret (Pending, mkFilter s (filter_predicate this)) in
  match next with
  | Some v =>
      let '(keep, p) := call_mut (B:=bool) (filter_predicate this) v in
      if keep then mret (Ready (Some v), mkFilter s p)
      else (_ ← wake_by_ref; mret (Pending, mkFilter s p))
  | None => mret (Ready None, mkFilter s (filter_predicate this))
  end.
#[global] Instance Filter_Stream `{Stream St A} `{FnMut P A bool} : Stream (Filter St P) A :=
  Filter_poll_next.

(** ** filter_map.rs *)

Record FilterMap (St F : Type) : Type := mkFilterMap { filter_map_stream : St; filter_map_f : F }.
Arguments mkFilterMap {St F}.
Arguments filter_map_stream {St F}.
Arguments filter_map_f {St F}.

Definition FilterMap_new {St F : Type} (stream : St) (f : F) : FilterMap St F :=
  mkFilterMap stream f.

Definition FilterMap_poll_next `{Stream St A} `{FnMut F A (option B)} (fuel : nat)
    (this : FilterMap St F) : Eff (Poll (option B) * FilterMap St F) :=
  '(next, s) ← poll_next fuel (filter_map_stream this);
  ready! next := next else mret (Pending, mkFilterMap s (filter_map_f this)) in
  match next with
  | Some v =>
      let '(r, f) := call_mut (B:=option B) (filter_map_f this) v in
      match r with
      | Some b => mret (Ready (Some b), mkFilterMap s f)
      | None => _ ← wake_by_ref; mret (Pending, mkFilterMap s f)
      end
  | None => mret (Ready None, mkFilterMap s (filter_map_f this))
  end.
#[global] Instance FilterMap_Stream `{Stream St A} `{FnMut F A (option B)} :
  Stream (FilterMap St F) B := FilterMap_poll_next.

(** ** take.rs *)

Record Take (St : Type) : Type := mkTake { take_stream : St; take_remaining : N }.
Arguments mkTake {St}.
Arguments take_stream {St}.
Arguments take_remaining {St}.

Definition Take_new {St : Type} (stream : St) (remaining : N) : Take St :=
  mkTake stream remaining.

Definition Take_poll_next `{Stream St A} (fuel : nat) (this : Take St) :
    Eff (Poll (option A) * Take St) :=
  if (take_remaining this =? 0)%N then mret (Ready None, this)
  else
    '(next, s) ← poll_next fuel (take_stream this);
    ready! next := next else mret (Pending, mkTake s (take_remaining this)) in
    remaining ← match next with
                | Some _ => usize_sub (take_remaining this) 1
                | None => mret 0%N
                end;
    mret (Ready next, mkTake s remaining).
#[global] Instance Take_Stream `{Stream St A} : Stream (Take St) A := Take_poll_next.

(** ** take_while.rs *)

Record TakeWhile (St P : Type) : Type := mkTakeWhile {
  take_while_stream : St; take_while_predicate : P }.
Arguments mkTakeWhile {St P}.
Arguments take_while_stream {St P}.
Arguments take_while_predicate {St P}.

Definition TakeWhile_new {St P : Type} (stream : St) (predicate : P) : TakeWhile St P :=
  mkTakeWhile stream predicate.

Definition TakeWhile_poll_next `{Stream St A} `{FnMut P A bool} (fuel : nat)
    (this : TakeWhile St P) : Eff (Poll (option A) * TakeWhile St P) :=
  '(next, s) ← poll_next fuel (take_while_stream this);
  ready! next := next else mret (Pending, mkTakeWhile s (take_while_predicate this)) in
  match next with
  | Some v =>
      let '(keep, p) := call_mut (B:=bool) (take_while_predicate this) v in
      if keep then mret (Ready (Some v), mkTakeWhile s p)
      else mret (Ready None, mkTakeWhile s p)
  | None => mret (Ready None, mkTakeWhile s (take_while_predicate this))
  end.
#[global] Instance TakeWhile_Stream `{Stream St A} `{FnMut P A bool} :
  Stream (TakeWhile St P) A := TakeWhile_poll_next.

(** ** skip.rs *)

Record Skip (St : Type) : Type := mkSkip { skip_stream : St; skip_n : N }.
Arguments mkSkip {St}.
Arguments skip_stream {St}.
Arguments skip_n {St}.

Definition Skip_new {St : Type} (stream : St) (n : N) : Skip St := mkSkip stream n.

Definition Skip_round `{Stream St A} (fuel : nat) (this : Skip St) :
    Eff (Skip St + (Poll (option A) * Skip St)) :=
  '(next, s) ← poll_next fuel (skip_stream this);
  ready! next := next else mret (inr (Pending, mkSkip s (skip_n this))) in
  match next with
  | Some v =>
      if (skip_n this =? 0)%N then mret (inr (Ready (Some v), mkSkip s (skip_n this)))
      else (n ← usize_sub (skip_n this) 1; mret (inl (mkSkip s n)))
  | None => mret (inr (Ready None, mkSkip s (skip_n this)))
  end.
Definition Skip_poll_next `{Stream St A} : nat → Skip St → Eff (Poll (option A) * Skip St) :=
  loop_poll Skip_round.
#[global] Instance Skip_Stream `{Stream St A} : Stream (Skip St) A := Skip_poll_next.

(** ** skip_while.rs *)

Record SkipWhile (St P : Type) : Type := mkSkipWhile {
  skip_while_stream : St; skip_while_predicate : option P }.
Arguments mkSkipWhile {St P}.
Arguments skip_while_stream {St P}.
Arguments skip_while_predicate {St P}.

Definition SkipWhile_new {St P : Type} (stream : St) (predicate : P) : SkipWhile St P :=
  mkSkipWhile stream (Some predicate).

Definition SkipWhile_round `{Stream St A} `{FnMut P A bool} (fuel : nat)
    (this : SkipWhile St P) : Eff (SkipWhile St P + (Poll (option A) * SkipWhile St P)) :=
  '(next, s) ← poll_next fuel (skip_while_stream this);
  ready! next := next else mret (inr (Pending, mkSkipWhile s (skip_while_predicate this))) in
  match next with
  | Some v =>
      match skip_while_predicate this with
      | Some p =>
          let '(skip, p) := call_mut (B:=bool) p v in
          if negb skip then mret (inr (Ready (Some v), mkSkipWhile s None))
          else mret (inl (mkSkipWhile s (Some p)))
      | None => mret (inr (Ready (Some v), mkSkipWhile s None))
      end
  | None => mret (inr (Ready None, mkSkipWhile s (skip_while_predicate this)))
  end.
Definition SkipWhile_poll_next `{Stream St A} `{FnMut P A bool} :
    nat → SkipWhile St P → Eff (Poll (option A) * SkipWhile St P) :=
  loop_poll SkipWhile_round.
#[global] Instance SkipWhile_Stream `{Stream St A} `{FnMut P A bool} :
  Stream (SkipWhile St P) A := SkipWhile_poll_next.

(** ** step_by.rs *)

Record StepBy (St : Type) : Type := mkStepBy {
  step_by_stream : St; step_by_step : N; step_by_i : N }.
Arguments mkStepBy {St}.
Arguments step_by_stream {St}.
Arguments step_by_step {St}.
Arguments step_by_i {St}.

(** [step.checked_sub(1).unwrap()] panics for a step of zero. *)
Definition StepBy_new {St : Type} (stream : St) (step : N) : Eff (StepBy St) :=
  step ← usize_sub step 1;
  mret (mkStepBy stream step 0).

Definition StepBy_round `{Stream St A} (fuel : nat) (this : StepBy St) :
    Eff (StepBy St + (Poll (option A) * StepBy St)) :=
  '(next, s) ← poll_next fuel (step_by_stream this);
  ready! next := next
    else mret (inr (Pending, mkStepBy s (step_by_step this) (step_by_i this))) in
  match next with
  | Some v =>
      if (step_by_i this =? 0)%N
      then mret (inr (Ready (Some v), mkStepBy s (step_by_step this) (step_by_step this)))
      else (i ← usize_sub (step_by_i this) 1; mret (inl (mkStepBy s (step_by_step this) i)))
  | None => mret (inr (Ready None, mkStepBy s (step_by_step this) (step_by_i this)))
  end.
Definition StepBy_poll_next `{Stream St A} :
    nat → StepBy St → Eff (Poll (option A) * StepBy St) := loop_poll StepBy_round.
#[global] Instance StepBy_Stream `{Stream St A} : Stream (StepBy St) A := StepBy_poll_next.

(** ** scan.rs *)

(** The closure receives the state by mutable reference: it gives back the
    state it leaves. *)
Record Scan (St T F : Type) : Type := mkScan { scan_stream : St; scan_state_f : T * F }.
Arguments mkScan {St T F}.
Arguments scan_stream {St T F}.
Arguments scan_state_f {St T F}.

Definition Scan_new {St T F : Type} (stream : St) (initial_state : T) (f : F) : Scan St T F :=
  mkScan stream (initial_state, f).

Definition Scan_poll_next `{Stream St A} `{FnMut F (T * A) (option B * T)} (fuel : nat)
    (this : Scan St T F) : Eff (Poll (option B) * Scan St T F) :=
  '(poll_result, s) ← poll_next fuel (scan_stream this);
  match poll_result with
  | Ready (Some item) =>
      let '(state, f) := scan_state_f this in
      let '((r, state), f) := call_mut (B:=option B * T) f (state, item) in
      mret (Ready r, mkScan s (state, f))
  | Ready None => mret (Ready None, mkScan s (scan_state_f this))
  | Pending => mret (Pending, mkScan s (scan_state_f this))
  end.
#[global] Instance Scan_Stream `{Stream St A} `{FnMut F (T * A) (option B * T)} :
  Stream (Scan St T F) B := Scan_poll_next.

(** ** fuse.rs *)

Record Fuse (St : Type) : Type := mkFuse { fuse_stream : St; fuse_done : bool }.
Arguments mkFuse {St}.
Arguments fuse_stream {St}.
Arguments fuse_done {St}.

Definition Fuse_new {St : Type} (stream : St) : Fuse St := mkFuse stream false.

Definition Fuse_poll_next `{Stream St A} (fuel : nat) (this : Fuse St) :
    Eff (Poll (option A) * Fuse St) :=
  if fuse_done this then mret (Ready None, this)
  else
    '(next, s) ← poll_next fuel (fuse_stream this);
    ready! next := next else mret (Pending, mkFuse s (fuse_done this)) in
    match next with
    | None => mret (Ready next, mkFuse s true)
    | Some _ => mret (Ready next, mkFuse s (fuse_done this))
    end.
#[global] Instance Fuse_Stream `{Stream St A} : Stream (Fuse St) A := Fuse_poll_next.

(** ** cloned.rs, copied.rs *)

(** A reference [&T] is modelled by the value it refers to. *)
Class Clone (T : Type) : Type := clone : T → T.
#[global] Hint Mode Clone ! : typeclass_instances.

Record Cloned (St : Type) : Type := mkCloned { cloned_stream : St }.
Arguments mkCloned {St}.
Arguments cloned_stream {St}.

Definition Cloned_new {St : Type} (stream : St) : Cloned St := mkCloned stream.

Definition Cloned_poll_next `{Stream St A} `{!Clone A} (fuel : nat) (this : Cloned St) :
    Eff (Poll (option A) * Cloned St) :=
  '(next, s) ← poll_next fuel (cloned_stream this);
  ready! next := next else mret (Pending, mkCloned s) in
  mret (Ready (option_map clone next), mkCloned s).
#[global] Instance Cloned_Stream `{Stream St A} `{!Clone A} : Stream (Cloned St) A :=
  Cloned_poll_next.

Record Copied (St : Type) : Type := mkCopied { copied_stream : St }.
Arguments mkCopied {St}.
Arguments copied_stream {St}.

Definition Copied_new {St : Type} (stream : St) : Copied St := mkCopied stream.

Definition Copied_poll_next `{Stream St A} (fuel : nat) (this : Copied St) :
    Eff (Poll (option A) * Copied St) :=
  '(next, s) ← poll_next fuel (copied_stream this);
  ready! next := next else mret (Pending, mkCopied s) in
  mret (Ready next, mkCopied s).
#[global] Instance Copied_Stream `{Stream St A} : Stream (Copied St) A := Copied_poll_next.

(** * Laws: fuel and wakers *)

#[global] Instance Map_mono `{Stream St A} `{FnMut F A B} `{!StreamMono St} : StreamMono (Map St F).
Proof. solve_mono. Qed.
#[global] Instance Map_wakes `{Stream St A} `{FnMut F A B} `{!StreamWakes St} : StreamWakes (Map St F).
Proof. solve_wakes. Qed.
#[global] Instance Inspect_mono `{Stream St A} `{FnMut F A ()} `{!StreamMono St} : StreamMono (Inspect St F).
Proof. solve_mono. Qed.
#[global] Instance Inspect_wakes `{Stream St A} `{FnMut F A ()} `{!StreamWakes St} : StreamWakes (Inspect St F).
Proof. solve_wakes. Qed.
#[global] Instance Enumerate_mono `{Stream St A} `{!StreamMono St} : StreamMono (Enumerate St).
Proof. solve_mono. Qed.
#[global] Instance Enumerate_wakes `{Stream St A} `{!StreamWakes St} : StreamWakes (Enumerate St).
Proof. solve_wakes. Qed.
#[global] Instance Filter_mono `{Stream St A} `{FnMut P A bool} `{!StreamMono St} : StreamMono (Filter St P).
Proof. solve_mono. Qed.
#[global] Instance Filter_wakes `{Stream St A} `{FnMut P A bool} `{!StreamWakes St} : StreamWakes (Filter St P).
Proof. solve_wakes. Qed.
#[global] Instance FilterMap_mono `{Stream St A} `{FnMut F A (option B)} `{!StreamMono St} : StreamMono (FilterMap St F).
Proof. solve_mono. Qed.
#[global] Instance FilterMap_wakes `{Stream St A} `{FnMut F A (option B)} `{!StreamWakes St} : StreamWakes (FilterMap St F).
Proof. solve_wakes. Qed.
#[global] Instance Take_mono `{Stream St A} `{!StreamMono St} : StreamMono (Take St).
Proof. solve_mono. Qed.
#[global] Instance Take_wakes `{Stream St A} `{!StreamWakes St} : StreamWakes (Take St).
Proof. solve_wakes. Qed.
#[global] Instance TakeWhile_mono `{Stream St A} `{FnMut P A bool} `{!StreamMono St} : StreamMono (TakeWhile St P).
Proof. solve_mono. Qed.
#[global] Instance TakeWhile_wakes `{Stream St A} `{FnMut P A bool} `{!StreamWakes St} : StreamWakes (TakeWhile St P).
Proof. solve_wakes. Qed.
#[global] Instance Scan_mono `{Stream St A} `{FnMut F (T * A) (option B * T)} `{!StreamMono St} : StreamMono (Scan St T F).
Proof. solve_mono. Qed.
#[global] Instance Scan_wakes `{Stream St A} `{FnMut F (T * A) (option B * T)} `{!StreamWakes St} : StreamWakes (Scan St T F).
Proof. solve_wakes. Qed.
#[global] Instance Fuse_mono `{Stream St A} `{!StreamMono St} : StreamMono (Fuse St).
Proof. solve_mono. Qed.
#[global] Instance Fuse_wakes `{Stream St A} `{!StreamWakes St} : StreamWakes (Fuse St).
Proof. solve_wakes. Qed.
#[global] Instance Cloned_mono `{Stream St A} `{!Clone A} `{!StreamMono St} : StreamMono (Cloned St).
Proof. solve_mono. Qed.
#[global] Instance Cloned_wakes `{Stream St A} `{!Clone A} `{!StreamWakes St} : StreamWakes (Cloned St).
Proof. solve_wakes. Qed.
#[global] Instance Copied_mono `{Stream St A} `{!StreamMono St} : StreamMono (Copied St).
Proof. solve_mono. Qed.
#[global] Instance Copied_wakes `{Stream St A} `{!StreamWakes St} : StreamWakes (Copied St).
Proof. solve_wakes. Qed.
Lemma Skip_round_mono `{Stream St A} `{!StreamMono St} (this : Skip St) :
  fuel_mono (λ n, Skip_round n this).
Proof. unfold Skip_round. solve_fuel_mono. Qed.
#[export] Hint Resolve Skip_round_mono : async.
#[global] Instance Skip_mono `{Stream St A} `{!StreamMono St} : StreamMono (Skip St).
Proof. solve_mono. Qed.
#[global] Instance Skip_wakes `{Stream St A} `{!StreamWakes St} : StreamWakes (Skip St).
Proof. solve_wakes_loop. Qed.
Lemma SkipWhile_round_mono `{Stream St A} `{FnMut P A bool} `{!StreamMono St} (this : SkipWhile St P) :
  fuel_mono (λ n, SkipWhile_round n this).
Proof. unfold SkipWhile_round. solve_fuel_mono. Qed.
#[export] Hint Resolve SkipWhile_round_mono : async.
#[global] Instance SkipWhile_mono `{Stream St A} `{FnMut P A bool} `{!StreamMono St} : StreamMono (SkipWhile St P).
Proof. solve_mono. Qed.
#[global] Instance SkipWhile_wakes `{Stream St A} `{FnMut P A bool} `{!StreamWakes St} : StreamWakes (SkipWhile St P).
Proof. solve_wakes_loop. Qed.
Lemma StepBy_round_mono `{Stream St A} `{!StreamMono St} (this : StepBy St) :
  fuel_mono (λ n, StepBy_round n this).
Proof. unfold StepBy_round. solve_fuel_mono. Qed.
#[export] Hint Resolve StepBy_round_mono : async.
#[global] Instance StepBy_mono `{Stream St A} `{!StreamMono St} : StreamMono (StepBy St).
Proof. solve_mono. Qed.
#[global] Instance StepBy_wakes `{Stream St A} `{!StreamWakes St} : StreamWakes (StepBy St).
Proof. solve_wakes_loop. Qed.
