(* ===== verification/StreamAdaptersSpec.v ===== *)
(** What the adapters of StreamAdapters.v yield: each is compared with the
    function on lists its documentation describes. *)

From S2P Require Import Prelude Async StreamAdapters.

(** * Item by item *)

Section Items.
Context `{Stream St A}.

Section Straight.
Context (s s' : St).

Lemma Map_pulls_Some `{FnMut F A B} (f f' : F) a b :
  call_mut f a = (b, f') → pulls s (Some a) s' →
  pulls (mkMap s f) (Some b) (mkMap s' f').
Proof. intros Hc Hp. lift_now Hp. Qed.
Lemma Map_pulls_None `{FnMut F A B} (f : F) :
  pulls s None s' → pulls (mkMap s f) None (mkMap s' f).
Proof. intros Hp. lift_now Hp. Qed.

Lemma Inspect_pulls_Some `{FnMut F A ()} (f f' : F) a u :
  call_mut f a = (u, f') → pulls s (Some a) s' →
  pulls (mkInspect s f) (Some a) (mkInspect s' f').
Proof. intros Hc Hp. lift_now Hp. Qed.
Lemma Inspect_pulls_None `{FnMut F A ()} (f : F) :
  pulls s None s' → pulls (mkInspect s f) None (mkInspect s' f).
Proof. intros Hp. lift_now Hp. Qed.

Lemma Enumerate_pulls_Some i a :
  (i + 1 < usize_modulus)%N → pulls s (Some a) s' →
  pulls (mkEnumerate s i) (Some (i, a)) (mkEnumerate s' (i + 1)).
Proof. intros Hi%(usize_add_ok (Ev:=CxEvent)) Hp. lift_now Hp. Qed.
Lemma Enumerate_pulls_None i :
  pulls s None s' → pulls (mkEnumerate s i) None (mkEnumerate s' i).
Proof. intros Hp. lift_now Hp. Qed.

Lemma Filter_pulls_keep `{FnMut P A bool} (p p' : P) a :
  call_mut p a = (true, p') → pulls s (Some a) s' →
  pulls (mkFilter s p) (Some a) (mkFilter s' p').
Proof. intros Hc Hp. lift_now Hp. Qed.
Lemma Filter_pulls_drop `{FnMut P A bool} (p p' : P) a o t :
  call_mut p a = (false, p') → pulls s (Some a) s' →
  pulls (mkFilter s' p') o t → pulls (mkFilter s p) o t.
Proof. intros Hc Hp Ht. lift_again Hp. done. Qed.
Lemma Filter_pulls_None `{FnMut P A bool} (p : P) :
  pulls s None s' → pulls (mkFilter s p) None (mkFilter s' p).
Proof. intros Hp. lift_now Hp. Qed.

Lemma FilterMap_pulls_Some `{FnMut F A (option B)} (f f' : F) a b :
  call_mut f a = (Some b, f') → pulls s (Some a) s' →
  pulls (mkFilterMap s f) (Some b) (mkFilterMap s' f').
Proof. intros Hc Hp. lift_now Hp. Qed.
Lemma FilterMap_pulls_drop `{FnMut F A (option B)} (f f' : F) a o t :
  call_mut f a = (None, f') → pulls s (Some a) s' →
  pulls (mkFilterMap s' f') o t → pulls (mkFilterMap s f) o t.
Proof. intros Hc Hp Ht. lift_again Hp. done. Qed.
Lemma FilterMap_pulls_None `{FnMut F A (option B)} (f : F) :
  pulls s None s' → pulls (mkFilterMap s f) None (mkFilterMap s' f).
Proof. intros Hp. lift_now Hp. Qed.

Lemma Take_pulls_Some n a :
  (n ≠ 0)%N → pulls s (Some a) s' →
  pulls (mkTake s n) (Some a) (mkTake s' (n - 1)).
Proof.
  intros Hn%N.eqb_neq Hp. assert (usize_sub (Ev:=CxEvent) n 1 = Done ((n - 1)%N, [])) as Hs
    by (apply usize_sub_ok; apply N.eqb_neq in Hn; lia).
  lift_now Hp.
Qed.
Lemma Take_pulls_None n :
  (n ≠ 0)%N → pulls s None s' → pulls (mkTake s n) None (mkTake s' 0).
Proof. intros Hn%N.eqb_neq Hp. lift_now Hp. Qed.
Lemma Take_pulls_end : pulls (mkTake s 0) None (mkTake s 0).
Proof. by apply (until_ready_now _ 0 _ _ _ []). Qed.

Lemma TakeWhile_pulls_keep `{FnMut P A bool} (p p' : P) a :
  call_mut p a = (true, p') → pulls s (Some a) s' →
  pulls (mkTakeWhile s p) (Some a) (mkTakeWhile s' p').
Proof. intros Hc Hp. lift_now Hp. Qed.
Lemma TakeWhile_pulls_stop `{FnMut P A bool} (p p' : P) a :
  call_mut p a = (false, p') → pulls s (Some a) s' →
  pulls (mkTakeWhile s p) None (mkTakeWhile s' p').
Proof. intros Hc Hp. lift_now Hp. Qed.
Lemma TakeWhile_pulls_None `{FnMut P A bool} (p : P) :
  pulls s None s' → pulls (mkTakeWhile s p) None (mkTakeWhile s' p).
Proof. intros Hp. lift_now Hp. Qed.

Lemma Scan_pulls_Some `{FnMut F (T * A) (option B * T)} (f f' : F) st st' a r :
  call_mut f (st, a) = ((r, st'), f') → pulls s (Some a) s' →
  pulls (mkScan s (st, f)) r (mkScan s' (st', f')).
Proof. intros Hc Hp. lift_now Hp. Qed.
Lemma Scan_pulls_None `{FnMut F (T * A) (option B * T)} (st : T) (f : F) :
  pulls s None s' → pulls (mkScan s (st, f)) None (mkScan s' (st, f)).
Proof. intros Hp. lift_now Hp. Qed.

Lemma Fuse_pulls_Some a :
  pulls s (Some a) s' → pulls (mkFuse s false) (Some a) (mkFuse s' false).
Proof. intros Hp. lift_now Hp. Qed.
Lemma Fuse_pulls_None :
  pulls s None s' → pulls (mkFuse s false) None (mkFuse s' true).
Proof. intros Hp. lift_now Hp. Qed.

Lemma Cloned_pulls `{!Clone A} o :
  pulls s o s' → pulls (mkCloned s) (option_map clone o) (mkCloned s').
Proof. intros Hp. lift_now Hp. Qed.
Lemma Copied_pulls o : pulls s o s' → pulls (mkCopied s) o (mkCopied s').
Proof. intros Hp. lift_now Hp. Qed.
End Straight.

Section Loops.
Context `{!StreamMono St} (s s' : St).

Lemma Skip_pulls_Some a :
  pulls s (Some a) s' → pulls (mkSkip s 0) (Some a) (mkSkip s' 0).
Proof. intros Hp. lift_now_loop (@Skip_round St A H) Hp. Qed.
Lemma Skip_pulls_None n : pulls s None s' → pulls (mkSkip s n) None (mkSkip s' n).
Proof. intros Hp. lift_now_loop (@Skip_round St A H) Hp. Qed.
Lemma Skip_pulls_drop n a o t :
  (n ≠ 0)%N → pulls s (Some a) s' →
  pulls (mkSkip s' (n - 1)) o t → pulls (mkSkip s n) o t.
Proof.
  intros Hn Hp Ht. assert (usize_sub (Ev:=CxEvent) n 1 = Done ((n - 1)%N, [])) as Hs
    by (apply usize_sub_ok; lia).
  apply N.eqb_neq in Hn. lift_round (@Skip_round St A H) Hp.
  done.
Qed.

Lemma SkipWhile_pulls_Some `{FnMut P A bool} a :
  pulls s (Some a) s' →
  pulls (mkSkipWhile s (None : option P)) (Some a) (mkSkipWhile s' None).
Proof. intros Hp. lift_now_loop (@SkipWhile_round St A H P H0) Hp. Qed.
Lemma SkipWhile_pulls_None `{FnMut P A bool} (p : option P) :
  pulls s None s' → pulls (mkSkipWhile s p) None (mkSkipWhile s' p).
Proof. intros Hp. lift_now_loop (@SkipWhile_round St A H P H0) Hp. Qed.
Lemma SkipWhile_pulls_first `{FnMut P A bool} (p p' : P) a :
  call_mut p a = (false, p') → pulls s (Some a) s' →
  pulls (mkSkipWhile s (Some p)) (Some a) (mkSkipWhile s' None).
Proof. intros Hc Hp. lift_now_loop (@SkipWhile_round St A H P H0) Hp. Qed.
Lemma SkipWhile_pulls_drop `{FnMut P A bool} (p p' : P) a o t :
  call_mut p a = (true, p') → pulls s (Some a) s' →
  pulls (mkSkipWhile s' (Some p')) o t → pulls (mkSkipWhile s (Some p)) o t.
Proof. intros Hc Hp Ht. lift_round (@SkipWhile_round St A H P H0) Hp. done. Qed.

Lemma StepBy_pulls_Some k a :
  pulls s (Some a) s' → pulls (mkStepBy s k 0) (Some a) (mkStepBy s' k k).
Proof. intros Hp. lift_now_loop (@StepBy_round St A H) Hp. Qed.
Lemma StepBy_pulls_None k i :
  pulls s None s' → pulls (mkStepBy s k i) None (mkStepBy s' k i).
Proof. intros Hp. lift_now_loop (@StepBy_round St A H) Hp. Qed.
Lemma StepBy_pulls_drop k i a o t :
  (i ≠ 0)%N → pulls s (Some a) s' →
  pulls (mkStepBy s' k (i - 1)) o t → pulls (mkStepBy s k i) o t.
Proof.
  intros Hi Hp Ht. assert (usize_sub (Ev:=CxEvent) i 1 = Done ((i - 1)%N, [])) as Hs
    by (apply usize_sub_ok; lia).
  apply N.eqb_neq in Hi. lift_round (@StepBy_round St A H) Hp. done.
Qed.
End Loops.
End Items.

(** * The whole stream *)

(** The list functions the adapters are documented by. *)

(** The items of [l] with their numbers, from [i] on. *)
Fixpoint number_from {A} (i : N) (l : list A) : list (N * A) :=
  match l with
  | [] => []
  | a :: l => (i, a) :: number_from (i + 1) l
  end.

(** The elements before the first refused one, and those from it on. *)
Fixpoint accepted `{FnMut P A bool} (p : P) (l : list A) : list A :=
  match l with
  | [] => []
  | a :: l => let '(keep, p') := call_mut (B:=bool) p a in
              if keep then a :: accepted p' l else []
  end.
Fixpoint after_accepted `{FnMut P A bool} (p : P) (l : list A) : list A :=
  match l with
  | [] => []
  | a :: l' => let '(keep, p') := call_mut (B:=bool) p a in
               if keep then after_accepted p' l' else l
  end.

(** Every [step]-th element, the first being number [i]. *)
Fixpoint every {A} (step i : nat) (l : list A) : list A :=
  match l with
  | [] => []
  | a :: l => match i with
              | O => a :: every step (step - 1) l
              | S i => every step i l
              end
  end.

(** The answers of a stateful closure until it declines. *)
Fixpoint scanned `{FnMut F (T * A) (option B * T)} (st : T) (f : F) (l : list A) : list B :=
  match l with
  | [] => []
  | a :: l => let '((r, st'), f') := call_mut (B:=option B * T) f (st, a) in
              match r with Some b => b :: scanned st' f' l | None => [] end
  end.

Section Whole.
Context `{Stream St A}.

Lemma Map_yields `{FnMut F A B} (s : St) (f : F) l :
  yields s l → yields (Map_new s f) (calls f l).*2.
Proof.
  intros Hy. revert f. induction Hy as [s s' Hp|s a s1 l Hp Hy IH]; intros f; simpl.
  - eapply yields_nil, Map_pulls_None, Hp.
  - destruct (call_mut f a) as [b f'] eqn:Hc. simpl.
    eapply yields_cons; [by eapply Map_pulls_Some|apply IH].
Qed.

Lemma Inspect_yields `{FnMut F A ()} (s : St) (f : F) l :
  yields s l → yields (Inspect_new s f) l.
Proof.
  intros Hy. revert f. induction Hy as [s s' Hp|s a s1 l Hp Hy IH]; intros f.
  - eapply yields_nil, Inspect_pulls_None, Hp.
  - destruct (call_mut (B:=()) f a) as [u f'] eqn:Hc.
    eapply yields_cons; [by eapply Inspect_pulls_Some|apply IH].
Qed.

(** The closure has then seen every item, in order. *)
Lemma Inspect_items `{FnMut F A ()} (s s' : St) (f : F) l :
  items s l s' → items (Inspect_new s f) l (mkInspect s' (calls_end (B:=()) f l)).
Proof.
  intros Hi. revert f. induction Hi as [s|s a s1 l s' Hp Hi IH]; intros f; simpl.
  - apply items_nil.
  - destruct (call_mut (B:=()) f a) as [u f'] eqn:Hc. simpl.
    eapply items_cons; [by eapply Inspect_pulls_Some|apply IH].
Qed.

Lemma Enumerate_yields_from (s : St) i l :
  (i + N.of_nat (length l) < usize_modulus)%N →
  yields s l → yields (mkEnumerate s i) (number_from i l).
Proof.
  intros Hb Hy. revert i Hb.
  induction Hy as [s s' Hp|s a s1 l Hp Hy IH]; intros i Hb; simpl in *.
  - eapply yields_nil, Enumerate_pulls_None, Hp.
  - eapply yields_cons; [eapply Enumerate_pulls_Some; [lia|done]|apply IH; lia].
Qed.

Lemma Filter_yields `{FnMut P A bool} (s : St) (p : P) l :
  yields s l → yields (Filter_new s p) (List.filter snd (calls p l)).*1.
Proof.
  intros Hy. revert p. induction Hy as [s s' Hp|s a s1 l Hp Hy IH]; intros p; simpl.
  - eapply yields_nil, Filter_pulls_None, Hp.
  - destruct (call_mut p a) as [[] p'] eqn:Hc; simpl.
    + eapply yields_cons; [by eapply Filter_pulls_keep|apply IH].
    + eapply yields_as; [apply (IH p')|intros o t Ht; by eapply Filter_pulls_drop].
Qed.

Lemma FilterMap_yields `{FnMut F A (option B)} (s : St) (f : F) l :
  yields s l → yields (FilterMap_new s f) (omap snd (calls f l)).
Proof.
  intros Hy. revert f. induction Hy as [s s' Hp|s a s1 l Hp Hy IH]; intros f; simpl.
  - eapply yields_nil, FilterMap_pulls_None, Hp.
  - destruct (call_mut f a) as [[b|] f'] eqn:Hc; simpl.
    + eapply yields_cons; [by eapply FilterMap_pulls_Some|apply IH].
    + eapply yields_as; [apply (IH f')|intros o t Ht; by eapply FilterMap_pulls_drop].
Qed.

Lemma Take_yields (s : St) n l :
  yields s l → yields (Take_new s n) (take (N.to_nat n) l).
Proof.
  intros Hy. revert n. induction Hy as [s s' Hp|s a s1 l Hp Hy IH]; intros n.
  - rewrite take_nil. destruct (decide (n = 0%N)) as [->|Hn].
    + eapply yields_nil, Take_pulls_end.
    + by eapply yields_nil, Take_pulls_None.
  - destruct (decide (n = 0%N)) as [->|Hn]; [eapply yields_nil, Take_pulls_end|].
    replace (N.to_nat n) with (Datatypes.S (N.to_nat (n - 1))) by lia. simpl.
    eapply yields_cons; [by apply Take_pulls_Some|apply IH].
Qed.

(** [take] needs no more of the stream than the items it gives, so it ends
    also when the stream never does. *)
Lemma Take_items_yields (s s' : St) l :
  items s l s' → yields (Take_new s (N.of_nat (length l))) l.
Proof.
  induction 1 as [s|s a s1 l s' Hp Hi IH]; simpl length.
  - eapply yields_nil, Take_pulls_end.
  - eapply yields_cons; [apply Take_pulls_Some; [lia|done]|].
    replace (N.of_nat (Datatypes.S (length l)) - 1)%N with (N.of_nat (length l)) by lia.
    apply IH.
Qed.

Lemma TakeWhile_yields `{FnMut P A bool} (s : St) (p : P) l :
  yields s l → yields (TakeWhile_new s p) (accepted p l).
Proof.
  intros Hy. revert p. induction Hy as [s s' Hp|s a s1 l Hp Hy IH]; intros p; simpl.
  - eapply yields_nil, TakeWhile_pulls_None, Hp.
  - destruct (call_mut p a) as [[] p'] eqn:Hc.
    + eapply yields_cons; [by eapply TakeWhile_pulls_keep|apply IH].
    + eapply yields_nil, TakeWhile_pulls_stop; eauto.
Qed.

Lemma Scan_yields `{FnMut F (T * A) (option B * T)} (s : St) (st : T) (f : F) l :
  yields s l → yields (Scan_new s st f) (scanned st f l).
Proof.
  intros Hy. revert st f. induction Hy as [s s' Hp|s a s1 l Hp Hy IH]; intros st f; simpl.
  - eapply yields_nil, Scan_pulls_None, Hp.
  - destruct (call_mut f (st, a)) as [[[b|] st'] f'] eqn:Hc.
    + eapply yields_cons; [by eapply Scan_pulls_Some|apply IH].
    + eapply yields_nil, Scan_pulls_Some; eauto.
Qed.

Lemma Fuse_yields (s : St) l : yields s l → yields (Fuse_new s) l.
Proof.
  induction 1 as [s s' Hp|s a s1 l Hp Hy IH].
  - eapply yields_nil, Fuse_pulls_None, Hp.
  - eapply yields_cons; [apply Fuse_pulls_Some, Hp|apply IH].
Qed.

Lemma Cloned_yields `{!Clone A} (s : St) l : yields s l → yields (Cloned_new s) (clone <$> l).
Proof.
  induction 1 as [s s' Hp|s a s1 l Hp Hy IH]; simpl.
  - eapply yields_nil, (Cloned_pulls s s' None), Hp.
  - eapply yields_cons; [apply (Cloned_pulls s s1 (Some a)), Hp|apply IH].
Qed.

Lemma Copied_yields (s : St) l : yields s l → yields (Copied_new s) l.
Proof.
  induction 1 as [s s' Hp|s a s1 l Hp Hy IH].
  - eapply yields_nil, Copied_pulls, Hp.
  - eapply yields_cons; [apply Copied_pulls, Hp|apply IH].
Qed.

Section WholeLoops.
Context `{!StreamMono St}.

Lemma Skip_yields (s : St) n l :
  yields s l → yields (Skip_new s n) (drop (N.to_nat n) l).
Proof.
  intros Hy. revert n. induction Hy as [s s' Hp|s a s1 l Hp Hy IH]; intros n.
  - rewrite drop_nil. eapply yields_nil, Skip_pulls_None, Hp.
  - destruct (decide (n = 0%N)) as [->|Hn].
    + eapply yields_cons; [apply Skip_pulls_Some, Hp|apply (IH 0%N)].
    + replace (N.to_nat n) with (Datatypes.S (N.to_nat (n - 1))) by lia. simpl.
      eapply yields_as; [apply (IH (n - 1)%N)|intros o t Ht; by eapply Skip_pulls_drop].
Qed.

Lemma SkipWhile_yields_rest `{FnMut P A bool} (s : St) l :
  yields s l → yields (mkSkipWhile s (None : option P)) l.
Proof.
  induction 1 as [s s' Hp|s a s1 l Hp Hy IH].
  - eapply yields_nil, SkipWhile_pulls_None, Hp.
  - eapply yields_cons; [apply SkipWhile_pulls_Some, Hp|apply IH].
Qed.

Lemma SkipWhile_yields `{FnMut P A bool} (s : St) (p : P) l :
  yields s l → yields (SkipWhile_new s p) (after_accepted p l).
Proof.
  intros Hy. revert p. induction Hy as [s s' Hp|s a s1 l Hp Hy IH]; intros p; simpl.
  - eapply yields_nil, SkipWhile_pulls_None, Hp.
  - destruct (call_mut p a) as [[] p'] eqn:Hc.
    + eapply yields_as; [apply (IH p')|intros o t Ht; by eapply SkipWhile_pulls_drop].
    + eapply yields_cons; [by eapply SkipWhile_pulls_first|].
      by apply SkipWhile_yields_rest.
Qed.

Lemma StepBy_yields_from (s : St) k i l :
  yields s l →
  yields (mkStepBy s k i) (every (Datatypes.S (N.to_nat k)) (N.to_nat i) l).
Proof.
  intros Hy. revert i. induction Hy as [s s' Hp|s a s1 l Hp Hy IH]; intros i.
  - eapply yields_nil, StepBy_pulls_None, Hp.
  - destruct (decide (i = 0%N)) as [->|Hi].
    + eapply yields_cons; [apply StepBy_pulls_Some, Hp|].
      replace (Datatypes.S (N.to_nat k) - 1) with (N.to_nat k) by lia. apply IH.
    + replace (N.to_nat i) with (Datatypes.S (N.to_nat (i - 1))) by lia. simpl.
      eapply yields_as; [apply (IH (i - 1)%N)|intros o t Ht; by eapply StepBy_pulls_drop].
Qed.
End WholeLoops.
End Whole.
