(* ===== verification/StreamConsumers.v ===== *)
(** Stream consumers: the futures src/src/stream/stream/*.rs that poll a stream
    and resolve to a value computed from its items, one record and one [poll]
    per future.  A future that borrows its stream ([&'a mut S]) carries the
    stream's state. *)

From S2P Require Import Prelude Async.
Local Open Scope async_scope.

(** [std::cmp::Ord] and [std::cmp::PartialOrd]. *)
Class Ord (A : Type) : Type := cmp : A → A → comparison.
#[global] Hint Mode Ord ! : typeclass_instances.
Class PartialOrd (A B : Type) : Type := partial_cmp : A → B → option comparison.
#[global] Hint Mode PartialOrd ! ! : typeclass_instances.
Class PartialEq (A B : Type) : Type := partial_eq : A → B → bool.
#[global] Hint Mode PartialEq ! ! : typeclass_instances.

(** [Default + std::iter::Extend<A>]. *)
Class Collection (C A : Type) : Type := {
  coll_default : C;
  coll_extend : C → list A → C
}.
#[global] Hint Mode Collection ! - : typeclass_instances.

(** [Vec<A>]. *)
#[global] Instance vec_Collection (A : Type) : Collection (list A) A :=
  {| coll_default := []; coll_extend := app |}.

(** * Consumers that ask to be polled again after each item *)

(** ** next.rs *)

Record NextFuture (St : Type) : Type := mkNextFuture { next_stream : St }.
Arguments mkNextFuture {St}.
Arguments next_stream {St}.

Definition NextFuture_poll `{Stream St A} (fuel : nat) (this : NextFuture St) :
    Eff (Poll (option A) * NextFuture St) :=
  '(next, s) ← poll_next fuel (next_stream this);
  mret (next, mkNextFuture s).
#[global] Instance NextFuture_Future `{Stream St A} : Future (NextFuture St) (option A) :=
  NextFuture_poll.

(** ** all.rs *)

Record AllFuture (St F : Type) : Type := mkAllFuture { all_stream : St; all_f : F }.
Arguments mkAllFuture {St F}.
Arguments all_stream {St F}.
Arguments all_f {St F}.

Definition AllFuture_new {St F : Type} (stream : St) (f : F) : AllFuture St F :=
  mkAllFuture stream f.

Definition AllFuture_poll `{Stream St A} `{FnMut F A bool} (fuel : nat) (this : AllFuture St F) :
    Eff (Poll bool * AllFuture St F) :=
  '(next, s) ← poll_next fuel (all_stream this);
  ready! next := next else mret (Pending, mkAllFuture s (all_f this)) in
  match next with
  | Some v =>
      let '(result, f) := call_mut (B:=bool) (all_f this) v in
      if result then (_ ← wake_by_ref; mret (Pending, mkAllFuture s f))
      else mret (Ready false, mkAllFuture s f)
  | None => mret (Ready true, mkAllFuture s (all_f this))
  end.
#[global] Instance AllFuture_Future `{Stream St A} `{FnMut F A bool} :
  Future (AllFuture St F) bool := AllFuture_poll.

(** ** any.rs *)

Record AnyFuture (St F : Type) : Type := mkAnyFuture { any_stream : St; any_f : F }.
Arguments mkAnyFuture {St F}.
Arguments any_stream {St F}.
Arguments any_f {St F}.

Definition AnyFuture_new {St F : Type} (stream : St) (f : F) : AnyFuture St F :=
  mkAnyFuture stream f.

Definition AnyFuture_poll `{Stream St A} `{FnMut F A bool} (fuel : nat) (this : AnyFuture St F) :
    Eff (Poll bool * AnyFuture St F) :=
  '(next, s) ← poll_next fuel (any_stream this);
  ready! next := next else mret (Pending, mkAnyFuture s (any_f this)) in
  match next with
  | Some v =>
      let '(result, f) := call_mut (B:=bool) (any_f this) v in
      if result then mret (Ready true, mkAnyFuture s f)
      else (_ ← wake_by_ref; mret (Pending, mkAnyFuture s f))
  | None => mret (Ready false, mkAnyFuture s (any_f this))
  end.
#[global] Instance AnyFuture_Future `{Stream St A} `{FnMut F A bool} :
  Future (AnyFuture St F) bool := AnyFuture_poll.

(** ** find.rs *)

Record FindFuture (St P : Type) : Type := mkFindFuture { find_stream : St; find_p : P }.
Arguments mkFindFuture {St P}.
Arguments find_stream {St P}.
Arguments find_p {St P}.

Definition FindFuture_new {St P : Type} (stream : St) (p : P) : FindFuture St P :=
  mkFindFuture stream p.

Definition FindFuture_poll `{Stream St A} `{FnMut P A bool} (fuel : nat)
    (this : FindFuture St P) : Eff (Poll (option A) * FindFuture St P) :=
  '(item, s) ← poll_next fuel (find_stream this);
  ready! item := item else mret (Pending, mkFindFuture s (find_p this)) in
  match item with
  | Some v =>
      let '(found, p) := call_mut (B:=bool) (find_p this) v in
      if found then mret (Ready (Some v), mkFindFuture s p)
      else (_ ← wake_by_ref; mret (Pending, mkFindFuture s p))
  | None => mret (Ready None, mkFindFuture s (find_p this))
  end.
#[global] Instance FindFuture_Future `{Stream St A} `{FnMut P A bool} :
  Future (FindFuture St P) (option A) := FindFuture_poll.

(** ** find_map.rs *)

Record FindMapFuture (St F : Type) : Type := mkFindMapFuture {
  find_map_stream : St; find_map_f : F }.
Arguments mkFindMapFuture {St F}.
Arguments find_map_stream {St F}.
Arguments find_map_f {St F}.

Definition FindMapFuture_new {St F : Type} (stream : St) (f : F) : FindMapFuture St F :=
  mkFindMapFuture stream f.

Definition FindMapFuture_poll `{Stream St A} `{FnMut F A (option B)} (fuel : nat)
    (this : FindMapFuture St F) : Eff (Poll (option B) * FindMapFuture St F) :=
  '(item, s) ← poll_next fuel (find_map_stream this);
  ready! item := item else mret (Pending, mkFindMapFuture s (find_map_f this)) in
  match item with
  | Some v =>
      let '(r, f) := call_mut (B:=option B) (find_map_f this) v in
      match r with
      | Some v => mret (Ready (Some v), mkFindMapFuture s f)
      | None => _ ← wake_by_ref; mret (Pending, mkFindMapFuture s f)
      end
  | None => mret (Ready None, mkFindMapFuture s (find_map_f this))
  end.
#[global] Instance FindMapFuture_Future `{Stream St A} `{FnMut F A (option B)} :
  Future (FindMapFuture St F) (option B) := FindMapFuture_poll.

(** ** position.rs *)

Record PositionFuture (St P : Type) : Type := mkPositionFuture {
  position_stream : St; position_predicate : P; position_index : N }.
Arguments mkPositionFuture {St P}.
Arguments position_stream {St P}.
Arguments position_predicate {St P}.
Arguments position_index {St P}.

Definition PositionFuture_new {St P : Type} (stream : St) (predicate : P) :
    PositionFuture St P := mkPositionFuture stream predicate 0.

Definition PositionFuture_poll `{Stream St A} `{FnMut P A bool} (fuel : nat)
    (this : PositionFuture St P) : Eff (Poll (option N) * PositionFuture St P) :=
  '(next, s) ← poll_next fuel (position_stream this);
  ready! next := next
    else mret (Pending, mkPositionFuture s (position_predicate this) (position_index this)) in
  match next with
  | Some v =>
      let '(found, p) := call_mut (B:=bool) (position_predicate this) v in
      if found
      then mret (Ready (Some (position_index this)), mkPositionFuture s p (position_index this))
      else (_ ← wake_by_ref;
            index ← usize_add (position_index this) 1;
            mret (Pending, mkPositionFuture s p index))
  | None =>
      mret (Ready None, mkPositionFuture s (position_predicate this) (position_index this))
  end.
#[global] Instance PositionFuture_Future `{Stream St A} `{FnMut P A bool} :
  Future (PositionFuture St P) (option N) := PositionFuture_poll.

(** ** nth.rs *)

Record NthFuture (St : Type) : Type := mkNthFuture { nth_stream : St; nth_n : N }.
Arguments mkNthFuture {St}.
Arguments nth_stream {St}.
Arguments nth_n {St}.

Definition NthFuture_new {St : Type} (stream : St) (n : N) : NthFuture St :=
  mkNthFuture stream n.

Definition NthFuture_poll `{Stream St A} (fuel : nat) (this : NthFuture St) :
    Eff (Poll (option A) * NthFuture St) :=
  '(next, s) ← poll_next fuel (nth_stream this);
  ready! next := next else mret (Pending, mkNthFuture s (nth_n this)) in
  match next with
  | Some v =>
      if (nth_n this =? 0)%N then mret (Ready (Some v), mkNthFuture s (nth_n this))
      else (n ← usize_sub (nth_n this) 1;
            _ ← wake_by_ref;
            mret (Pending, mkNthFuture s n))
  | None => mret (Ready None, mkNthFuture s (nth_n this))
  end.
#[global] Instance NthFuture_Future `{Stream St A} : Future (NthFuture St) (option A) :=
  NthFuture_poll.

(** ** last.rs *)

Record LastFuture (St A : Type) : Type := mkLastFuture { last_stream : St; last_last : option A }.
Arguments mkLastFuture {St A}.
Arguments last_stream {St A}.
Arguments last_last {St A}.

Definition LastFuture_new {St A : Type} (stream : St) : LastFuture St A :=
  mkLastFuture stream None.

Definition LastFuture_poll `{Stream St A} (fuel : nat) (this : LastFuture St A) :
    Eff (Poll (option A) * LastFuture St A) :=
  '(next, s) ← poll_next fuel (last_stream this);
  ready! next := next else mret (Pending, mkLastFuture s (last_last this)) in
  match next with
  | Some new => _ ← wake_by_ref; mret (Pending, mkLastFuture s (Some new))
  | None => mret (Ready (last_last this), mkLastFuture s (last_last this))
  end.
#[global] Instance LastFuture_Future `{Stream St A} : Future (LastFuture St A) (option A) :=
  LastFuture_poll.

(** ** count.rs *)

Record CountFuture (St : Type) : Type := mkCountFuture { count_stream : St; count_count : N }.
Arguments mkCountFuture {St}.
Arguments count_stream {St}.
Arguments count_count {St}.

Definition CountFuture_new {St : Type} (stream : St) : CountFuture St := mkCountFuture stream 0.

Definition CountFuture_poll `{Stream St A} (fuel : nat) (this : CountFuture St) :
    Eff (Poll N * CountFuture St) :=
  '(next, s) ← poll_next fuel (count_stream this);
  ready! next := next else mret (Pending, mkCountFuture s (count_count this)) in
  match next with
  | Some _ =>
      _ ← wake_by_ref;
      count ← usize_add (count_count this) 1;
      mret (Pending, mkCountFuture s count)
  | None => mret (Ready (count_count this), mkCountFuture s (count_count this))
  end.
#[global] Instance CountFuture_Future `{Stream St A} : Future (CountFuture St) N :=
  CountFuture_poll.

(** * Consumers that drain the stream in a loop *)

(** ** fold.rs *)

Record FoldFuture (St F B : Type) : Type := mkFoldFuture {
  fold_stream : St; fold_f : F; fold_acc : option B }.
Arguments mkFoldFuture {St F B}.
Arguments fold_stream {St F B}.
Arguments fold_f {St F B}.
Arguments fold_acc {St F B}.

Definition FoldFuture_new {St F B : Type} (stream : St) (init : B) (f : F) :
    FoldFuture St F B := mkFoldFuture stream f (Some init).

Definition FoldFuture_round `{Stream St A} `{FnMut F (B * A) B} (fuel : nat)
    (this : FoldFuture St F B) : Eff (FoldFuture St F B + (Poll B * FoldFuture St F B)) :=
  '(next, s) ← poll_next fuel (fold_stream this);
  ready! next := next
    else mret (inr (Pending, mkFoldFuture s (fold_f this) (fold_acc this))) in
  match next with
  | Some v =>
      old ← unwrap (fold_acc this);
      let '(new, f) := call_mut (B:=B) (fold_f this) (old, v) in
      mret (inl (mkFoldFuture s f (Some new)))
  | None =>
      acc ← unwrap (fold_acc this);
      mret (inr (Ready acc, mkFoldFuture s (fold_f this) None))
  end.
Definition FoldFuture_poll `{Stream St A} `{FnMut F (B * A) B} :
    nat → FoldFuture St F B → Eff (Poll B * FoldFuture St F B) := loop_poll FoldFuture_round.
#[global] Instance FoldFuture_Future `{Stream St A} `{FnMut F (B * A) B} :
  Future (FoldFuture St F B) B := FoldFuture_poll.

(** ** for_each.rs *)

Record ForEachFuture (St F : Type) : Type := mkForEachFuture {
  for_each_stream : St; for_each_f : F }.
Arguments mkForEachFuture {St F}.
Arguments for_each_stream {St F}.
Arguments for_each_f {St F}.

Definition ForEachFuture_new {St F : Type} (stream : St) (f : F) : ForEachFuture St F :=
  mkForEachFuture stream f.

Definition ForEachFuture_round `{Stream St A} `{FnMut F A ()} (fuel : nat)
    (this : ForEachFuture St F) : Eff (ForEachFuture St F + (Poll () * ForEachFuture St F)) :=
  '(next, s) ← poll_next fuel (for_each_stream this);
  ready! next := next else mret (inr (Pending, mkForEachFuture s (for_each_f this))) in
  match next with
  | Some v =>
      let '(_, f) := call_mut (B:=()) (for_each_f this) v in
      mret (inl (mkForEachFuture s f))
  | None => mret (inr (Ready (), mkForEachFuture s (for_each_f this)))
  end.
Definition ForEachFuture_poll `{Stream St A} `{FnMut F A ()} :
    nat → ForEachFuture St F → Eff (Poll () * ForEachFuture St F) :=
  loop_poll ForEachFuture_round.
#[global] Instance ForEachFuture_Future `{Stream St A} `{FnMut F A ()} :
  Future (ForEachFuture St F) () := ForEachFuture_poll.

(** ** try_fold.rs *)

Record TryFoldFuture (St F T : Type) : Type := mkTryFoldFuture {
  try_fold_stream : St; try_fold_f : F; try_fold_acc : option T }.
Arguments mkTryFoldFuture {St F T}.
Arguments try_fold_stream {St F T}.
Arguments try_fold_f {St F T}.
Arguments try_fold_acc {St F T}.

Definition TryFoldFuture_new {St F T : Type} (stream : St) (init : T) (f : F) :
    TryFoldFuture St F T := mkTryFoldFuture stream f (Some init).

Definition TryFoldFuture_round `{Stream St A} `{FnMut F (T * A) (Result T E)} (fuel : nat)
    (this : TryFoldFuture St F T) :
    Eff (TryFoldFuture St F T + (Poll (Result T E) * TryFoldFuture St F T)) :=
  '(next, s) ← poll_next fuel (try_fold_stream this);
  ready! next := next
    else mret (inr (Pending, mkTryFoldFuture s (try_fold_f this) (try_fold_acc this))) in
  match next with
  | Some v =>
      old ← unwrap (try_fold_acc this);
      let '(new, f) := call_mut (B:=Result T E) (try_fold_f this) (old, v) in
      match new with
      | Ok o => mret (inl (mkTryFoldFuture s f (Some o)))
      | Err e => mret (inr (Ready (Err e), mkTryFoldFuture s f None))
      end
  | None =>
      acc ← unwrap (try_fold_acc this);
      mret (inr (Ready (Ok acc), mkTryFoldFuture s (try_fold_f this) None))
  end.
Definition TryFoldFuture_poll `{Stream St A} `{FnMut F (T * A) (Result T E)} :
    nat → TryFoldFuture St F T → Eff (Poll (Result T E) * TryFoldFuture St F T) :=
  loop_poll TryFoldFuture_round.
#[global] Instance TryFoldFuture_Future `{Stream St A} `{FnMut F (T * A) (Result T E)} :
  Future (TryFoldFuture St F T) (Result T E) := TryFoldFuture_poll.

(** ** try_for_each.rs *)

Record TryForEachFuture (St F : Type) : Type := mkTryForEachFuture {
  try_for_each_stream : St; try_for_each_f : F }.
Arguments mkTryForEachFuture {St F}.
Arguments try_for_each_stream {St F}.
Arguments try_for_each_f {St F}.

Definition TryForEachFuture_new {St F : Type} (stream : St) (f : F) : TryForEachFuture St F :=
  mkTryForEachFuture stream f.

Definition TryForEachFuture_round `{Stream St A} `{FnMut F A (Result () E)} (fuel : nat)
    (this : TryForEachFuture St F) :
    Eff (TryForEachFuture St F + (Poll (Result () E) * TryForEachFuture St F)) :=
  '(item, s) ← poll_next fuel (try_for_each_stream this);
  ready! item := item else mret (inr (Pending, mkTryForEachFuture s (try_for_each_f this))) in
  match item with
  | None => mret (inr (Ready (Ok ()), mkTryForEachFuture s (try_for_each_f this)))
  | Some v =>
      let '(res, f) := call_mut (B:=Result () E) (try_for_each_f this) v in
      match res with
      | Err e => mret (inr (Ready (Err e), mkTryForEachFuture s f))
      | Ok _ => mret (inl (mkTryForEachFuture s f))
      end
  end.
Definition TryForEachFuture_poll `{Stream St A} `{FnMut F A (Result () E)} :
    nat → TryForEachFuture St F → Eff (Poll (Result () E) * TryForEachFuture St F) :=
  loop_poll TryForEachFuture_round.
#[global] Instance TryForEachFuture_Future `{Stream St A} `{FnMut F A (Result () E)} :
  Future (TryForEachFuture St F) (Result () E) := TryForEachFuture_poll.

(** ** partition.rs *)

Record PartitionFuture (St F B : Type) : Type := mkPartitionFuture {
  partition_stream : St; partition_f : F; partition_res : option (B * B) }.
Arguments mkPartitionFuture {St F B}.
Arguments partition_stream {St F B}.
Arguments partition_f {St F B}.
Arguments partition_res {St F B}.

Definition PartitionFuture_new {St F B A : Type} `{Collection B A} (stream : St) (f : F) :
    PartitionFuture St F B := mkPartitionFuture stream f (Some (coll_default, coll_default)).

Definition PartitionFuture_round `{Stream St A} `{FnMut F A bool} `{Collection B A}
    (fuel : nat) (this : PartitionFuture St F B) :
    Eff (PartitionFuture St F B + (Poll (B * B) * PartitionFuture St F B)) :=
  '(next, s) ← poll_next fuel (partition_stream this);
  ready! next := next
    else mret (inr (Pending, mkPartitionFuture s (partition_f this) (partition_res this))) in
  match next with
  | Some v =>
      '(yes, no) ← unwrap (partition_res this);
      let '(b, f) := call_mut (B:=bool) (partition_f this) v in
      if b then mret (inl (mkPartitionFuture s f (Some (coll_extend yes [v], no))))
      else mret (inl (mkPartitionFuture s f (Some (yes, coll_extend no [v]))))
  | None =>
      res ← unwrap (partition_res this);
      mret (inr (Ready res, mkPartitionFuture s (partition_f this) None))
  end.
Definition PartitionFuture_poll `{Stream St A} `{FnMut F A bool} `{Collection B A} :
    nat → PartitionFuture St F B → Eff (Poll (B * B) * PartitionFuture St F B) :=
  loop_poll PartitionFuture_round.
#[global] Instance PartitionFuture_Future `{Stream St A} `{FnMut F A bool} `{Collection B A} :
  Future (PartitionFuture St F B) (B * B) := PartitionFuture_poll.

(** ** unzip.rs *)

Record UnzipFuture (St FromA FromB : Type) : Type := mkUnzipFuture {
  unzip_stream : St; unzip_res : option (FromA * FromB) }.
Arguments mkUnzipFuture {St FromA FromB}.
Arguments unzip_stream {St FromA FromB}.
Arguments unzip_res {St FromA FromB}.

Definition UnzipFuture_new {St FromA FromB A B : Type} `{Collection FromA A}
    `{Collection FromB B} (stream : St) : UnzipFuture St FromA FromB :=
  mkUnzipFuture stream (Some (coll_default, coll_default)).

Definition UnzipFuture_round `{Stream St (A * B)} `{Collection FromA A} `{Collection FromB B}
    (fuel : nat) (this : UnzipFuture St FromA FromB) :
    Eff (UnzipFuture St FromA FromB +
         (Poll (FromA * FromB) * UnzipFuture St FromA FromB)) :=
  '(next, s) ← poll_next fuel (unzip_stream this);
  ready! next := next else mret (inr (Pending, mkUnzipFuture s (unzip_res this))) in
  match next with
  | Some (a, b) =>
      '(res_a, res_b) ← unwrap (unzip_res this);
      mret (inl (mkUnzipFuture s (Some (coll_extend res_a [a], coll_extend res_b [b]))))
  | None =>
      res ← unwrap (unzip_res this);
      mret (inr (Ready res, mkUnzipFuture s None))
  end.
Definition UnzipFuture_poll `{Stream St (A * B)} `{Collection FromA A} `{Collection FromB B} :
    nat → UnzipFuture St FromA FromB →
    Eff (Poll (FromA * FromB) * UnzipFuture St FromA FromB) :=
  loop_poll UnzipFuture_round.
#[global] Instance UnzipFuture_Future `{Stream St (A * B)} `{Collection FromA A}
    `{Collection FromB B} : Future (UnzipFuture St FromA FromB) (FromA * FromB) :=
  UnzipFuture_poll.

(** * Consumers that keep the best item so far *)

(** ** min.rs *)

Record MinFuture (St A : Type) : Type := mkMinFuture { min_stream : St; min_min : option A }.
Arguments mkMinFuture {St A}.
Arguments min_stream {St A}.
Arguments min_min {St A}.

Definition MinFuture_new {St A : Type} (stream : St) : MinFuture St A := mkMinFuture stream None.

Definition MinFuture_poll `{Stream St A} `{!Ord A} (fuel : nat) (this : MinFuture St A) :
    Eff (Poll (option A) * MinFuture St A) :=
  '(next, s) ← poll_next fuel (min_stream this);
  ready! next := next else mret (Pending, mkMinFuture s (min_min this)) in
  match next with
  | Some new =>
      _ ← wake_by_ref;
      let min := match min_min this with
                 | None => Some new
                 | Some old => match cmp new old with
                               | Lt => Some new
                               | _ => Some old
                               end
                 end in
      mret (Pending, mkMinFuture s min)
  | None => mret (Ready (min_min this), mkMinFuture s None)
  end.
#[global] Instance MinFuture_Future `{Stream St A} `{!Ord A} :
  Future (MinFuture St A) (option A) := MinFuture_poll.

(** ** max.rs *)

Record MaxFuture (St A : Type) : Type := mkMaxFuture { max_stream : St; max_max : option A }.
Arguments mkMaxFuture {St A}.
Arguments max_stream {St A}.
Arguments max_max {St A}.

Definition MaxFuture_new {St A : Type} (stream : St) : MaxFuture St A := mkMaxFuture stream None.

Definition MaxFuture_poll `{Stream St A} `{!Ord A} (fuel : nat) (this : MaxFuture St A) :
    Eff (Poll (option A) * MaxFuture St A) :=
  '(next, s) ← poll_next fuel (max_stream this);
  ready! next := next else mret (Pending, mkMaxFuture s (max_max this)) in
  match next with
  | Some new =>
      _ ← wake_by_ref;
      let max := match max_max this with
                 | None => Some new
                 | Some old => match cmp new old with
                               | Gt => Some new
                               | _ => Some old
                               end
                 end in
      mret (Pending, mkMaxFuture s max)
  | None => mret (Ready (max_max this), mkMaxFuture s None)
  end.
#[global] Instance MaxFuture_Future `{Stream St A} `{!Ord A} :
  Future (MaxFuture St A) (option A) := MaxFuture_poll.

(** ** min_by.rs *)

Record MinByFuture (St F A : Type) : Type := mkMinByFuture {
  min_by_stream : St; min_by_compare : F; min_by_best : option A }.
Arguments mkMinByFuture {St F A}.
Arguments min_by_stream {St F A}.
Arguments min_by_compare {St F A}.
Arguments min_by_best {St F A}.

Definition MinByFuture_new {St F A : Type} (stream : St) (compare : F) : MinByFuture St F A :=
  mkMinByFuture stream compare None.

Definition MinByFuture_poll `{Stream St A} `{FnMut F (A * A) comparison} (fuel : nat)
    (this : MinByFuture St F A) : Eff (Poll (option A) * MinByFuture St F A) :=
  '(next, s) ← poll_next fuel (min_by_stream this);
  ready! next := next
    else mret (Pending, mkMinByFuture s (min_by_compare this) (min_by_best this)) in
  match next with
  | Some new =>
      _ ← wake_by_ref;
      let '(best, compare) :=
        match min_by_best this with
        | None => (Some new, min_by_compare this)
        | Some old =>
            let '(c, compare) := call_mut (B:=comparison) (min_by_compare this) (new, old) in
            match c with
            | Lt => (Some new, compare)
            | _ => (Some old, compare)
            end
        end in
      mret (Pending, mkMinByFuture s compare best)
  | None => mret (Ready (min_by_best this), mkMinByFuture s (min_by_compare this) (min_by_best this))
  end.
#[global] Instance MinByFuture_Future `{Stream St A} `{FnMut F (A * A) comparison} :
  Future (MinByFuture St F A) (option A) := MinByFuture_poll.

(** ** max_by.rs *)

Record MaxByFuture (St F A : Type) : Type := mkMaxByFuture {
  max_by_stream : St; max_by_compare : F; max_by_best : option A }.
Arguments mkMaxByFuture {St F A}.
Arguments max_by_stream {St F A}.
Arguments max_by_compare {St F A}.
Arguments max_by_best {St F A}.

Definition MaxByFuture_new {St F A : Type} (stream : St) (compare : F) : MaxByFuture St F A :=
  mkMaxByFuture stream compare None.

Definition MaxByFuture_poll `{Stream St A} `{FnMut F (A * A) comparison} (fuel : nat)
    (this : MaxByFuture St F A) : Eff (Poll (option A) * MaxByFuture St F A) :=
  '(next, s) ← poll_next fuel (max_by_stream this);
  ready! next := next
    else mret (Pending, mkMaxByFuture s (max_by_compare this) (max_by_best this)) in
  match next with
  | Some new =>
      _ ← wake_by_ref;
      let '(best, compare) :=
        match max_by_best this with
        | None => (Some new, max_by_compare this)
        | Some old =>
            let '(c, compare) := call_mut (B:=comparison) (max_by_compare this) (new, old) in
            match c with
            | Gt => (Some new, compare)
            | _ => (Some old, compare)
            end
        end in
      mret (Pending, mkMaxByFuture s compare best)
  | None => mret (Ready (max_by_best this), mkMaxByFuture s (max_by_compare this) None)
  end.
#[global] Instance MaxByFuture_Future `{Stream St A} `{FnMut F (A * A) comparison} :
  Future (MaxByFuture St F A) (option A) := MaxByFuture_poll.

(** ** min_by_key.rs *)

Record MinByKeyFuture (St A K : Type) : Type := mkMinByKeyFuture {
  min_by_key_stream : St; min_by_key_best : option (A * A); min_by_key_key_by : K }.
Arguments mkMinByKeyFuture {St A K}.
Arguments min_by_key_stream {St A K}.
Arguments min_by_key_best {St A K}.
Arguments min_by_key_key_by {St A K}.

Definition MinByKeyFuture_new {St A K : Type} (stream : St) (key_by : K) : MinByKeyFuture St A K :=
  mkMinByKeyFuture stream None key_by.

Definition MinByKeyFuture_poll `{Stream St A} `{FnMut K A A} `{!Ord A} (fuel : nat)
    (this : MinByKeyFuture St A K) : Eff (Poll (option A) * MinByKeyFuture St A K) :=
  '(next, s) ← poll_next fuel (min_by_key_stream this);
  ready! next := next
    else mret (Pending, mkMinByKeyFuture s (min_by_key_best this) (min_by_key_key_by this)) in
  match next with
  | Some new =>
      let '(key, key_by) := call_mut (B:=A) (min_by_key_key_by this) new in
      _ ← wake_by_ref;
      let best := match min_by_key_best this with
                  | None => Some (key, new)
                  | Some old => match cmp key (fst old) with
                                | Lt => Some (key, new)
                                | _ => Some old
                                end
                  end in
      mret (Pending, mkMinByKeyFuture s best key_by)
  | None => mret (Ready (option_map snd (min_by_key_best this)), mkMinByKeyFuture s None (min_by_key_key_by this))
  end.
#[global] Instance MinByKeyFuture_Future `{Stream St A} `{FnMut K A A} `{!Ord A} :
  Future (MinByKeyFuture St A K) (option A) := MinByKeyFuture_poll.

(** ** max_by_key.rs *)

Record MaxByKeyFuture (St A K : Type) : Type := mkMaxByKeyFuture {
  max_by_key_stream : St; max_by_key_best : option (A * A); max_by_key_key_by : K }.
Arguments mkMaxByKeyFuture {St A K}.
Arguments max_by_key_stream {St A K}.
Arguments max_by_key_best {St A K}.
Arguments max_by_key_key_by {St A K}.

Definition MaxByKeyFuture_new {St A K : Type} (stream : St) (key_by : K) : MaxByKeyFuture St A K :=
  mkMaxByKeyFuture stream None key_by.

Definition MaxByKeyFuture_poll `{Stream St A} `{FnMut K A A} `{!Ord A} (fuel : nat)
    (this : MaxByKeyFuture St A K) : Eff (Poll (option A) * MaxByKeyFuture St A K) :=
  '(next, s) ← poll_next fuel (max_by_key_stream this);
  ready! next := next
    else mret (Pending, mkMaxByKeyFuture s (max_by_key_best this) (max_by_key_key_by this)) in
  match next with
  | Some new =>
      let '(key, key_by) := call_mut (B:=A) (max_by_key_key_by this) new in
      _ ← wake_by_ref;
      let best := match max_by_key_best this with
                  | None => Some (key, new)
                  | Some old => match cmp key (fst old) with
                                | Gt => Some (key, new)
                                | _ => Some old
                                end
                  end in
      mret (Pending, mkMaxByKeyFuture s best key_by)
  | None => mret (Ready (option_map snd (max_by_key_best this)), mkMaxByKeyFuture s None (max_by_key_key_by this))
  end.
#[global] Instance MaxByKeyFuture_Future `{Stream St A} `{FnMut K A A} `{!Ord A} :
  Future (MaxByKeyFuture St A K) (option A) := MaxByKeyFuture_poll.

(** * Laws: fuel and wakers *)

#[global] Instance NextFuture_mono `{Stream St A} `{!StreamMono St} :
  FutureMono (NextFuture St).
Proof. solve_mono. Qed.
#[global] Instance NextFuture_wakes `{Stream St A} `{!StreamWakes St} :
  FutureWakes (NextFuture St).
Proof. solve_wakes. Qed.
#[global] Instance AllFuture_mono `{Stream St A} `{FnMut F A bool} `{!StreamMono St} :
  FutureMono (AllFuture St F).
Proof. solve_mono. Qed.
#[global] Instance AllFuture_wakes `{Stream St A} `{FnMut F A bool} `{!StreamWakes St} :
  FutureWakes (AllFuture St F).
Proof. solve_wakes. Qed.
#[global] Instance AnyFuture_mono `{Stream St A} `{FnMut F A bool} `{!StreamMono St} :
  FutureMono (AnyFuture St F).
Proof. solve_mono. Qed.
#[global] Instance AnyFuture_wakes `{Stream St A} `{FnMut F A bool} `{!StreamWakes St} :
  FutureWakes (AnyFuture St F).
Proof. solve_wakes. Qed.
#[global] Instance FindFuture_mono `{Stream St A} `{FnMut P A bool} `{!StreamMono St} :
  FutureMono (FindFuture St P).
Proof. solve_mono. Qed.
#[global] Instance FindFuture_wakes `{Stream St A} `{FnMut P A bool} `{!StreamWakes St} :
  FutureWakes (FindFuture St P).
Proof. solve_wakes. Qed.
#[global] Instance FindMapFuture_mono `{Stream St A} `{FnMut F A (option B)} `{!StreamMono St} :
  FutureMono (FindMapFuture St F).
Proof. solve_mono. Qed.
#[global] Instance FindMapFuture_wakes `{Stream St A} `{FnMut F A (option B)} `{!StreamWakes St} :
  FutureWakes (FindMapFuture St F).
Proof. solve_wakes. Qed.
#[global] Instance PositionFuture_mono `{Stream St A} `{FnMut P A bool} `{!StreamMono St} :
  FutureMono (PositionFuture St P).
Proof. solve_mono. Qed.
#[global] Instance PositionFuture_wakes `{Stream St A} `{FnMut P A bool} `{!StreamWakes St} :
  FutureWakes (PositionFuture St P).
Proof. solve_wakes. Qed.
#[global] Instance NthFuture_mono `{Stream St A} `{!StreamMono St} :
  FutureMono (NthFuture St).
Proof. solve_mono. Qed.
#[global] Instance NthFuture_wakes `{Stream St A} `{!StreamWakes St} :
  FutureWakes (NthFuture St).
Proof. solve_wakes. Qed.
#[global] Instance LastFuture_mono `{Stream St A} `{!StreamMono St} :
  FutureMono (LastFuture St A).
Proof. solve_mono. Qed.
#[global] Instance LastFuture_wakes `{Stream St A} `{!StreamWakes St} :
  FutureWakes (LastFuture St A).
Proof. solve_wakes. Qed.
#[global] Instance CountFuture_mono `{Stream St A} `{!StreamMono St} :
  FutureMono (CountFuture St).
Proof. solve_mono. Qed.
#[global] Instance CountFuture_wakes `{Stream St A} `{!StreamWakes St} :
  FutureWakes (CountFuture St).
Proof. solve_wakes. Qed.
#[global] Instance MinFuture_mono `{Stream St A} `{!Ord A} `{!StreamMono St} :
  FutureMono (MinFuture St A).
Proof. solve_mono. Qed.
#[global] Instance MinFuture_wakes `{Stream St A} `{!Ord A} `{!StreamWakes St} :
  FutureWakes (MinFuture St A).
Proof. solve_wakes. Qed.
#[global] Instance MaxFuture_mono `{Stream St A} `{!Ord A} `{!StreamMono St} :
  FutureMono (MaxFuture St A).
Proof. solve_mono. Qed.
#[global] Instance MaxFuture_wakes `{Stream St A} `{!Ord A} `{!StreamWakes St} :
  FutureWakes (MaxFuture St A).
Proof. solve_wakes. Qed.
#[global] Instance MinByFuture_mono `{Stream St A} `{FnMut F (A * A) comparison} `{!StreamMono St} :
  FutureMono (MinByFuture St F A).
Proof. solve_mono. Qed.
#[global] Instance MinByFuture_wakes `{Stream St A} `{FnMut F (A * A) comparison} `{!StreamWakes St} :
  FutureWakes (MinByFuture St F A).
Proof. solve_wakes. Qed.
#[global] Instance MaxByFuture_mono `{Stream St A} `{FnMut F (A * A) comparison} `{!StreamMono St} :
  FutureMono (MaxByFuture St F A).
Proof. solve_mono. Qed.
#[global] Instance MaxByFuture_wakes `{Stream St A} `{FnMut F (A * A) comparison} `{!StreamWakes St} :
  FutureWakes (MaxByFuture St F A).
Proof. solve_wakes. Qed.
#[global] Instance MinByKeyFuture_mono `{Stream St A} `{FnMut K A A} `{!Ord A} `{!StreamMono St} :
  FutureMono (MinByKeyFuture St A K).
Proof. solve_mono. Qed.
#[global] Instance MinByKeyFuture_wakes `{Stream St A} `{FnMut K A A} `{!Ord A} `{!StreamWakes St} :
  FutureWakes (MinByKeyFuture St A K).
Proof. solve_wakes. Qed.
#[global] Instance MaxByKeyFuture_mono `{Stream St A} `{FnMut K A A} `{!Ord A} `{!StreamMono St} :
  FutureMono (MaxByKeyFuture St A K).
Proof. solve_mono. Qed.
#[global] Instance MaxByKeyFuture_wakes `{Stream St A} `{FnMut K A A} `{!Ord A} `{!StreamWakes St} :
  FutureWakes (MaxByKeyFuture St A K).
Proof. solve_wakes. Qed.
Lemma FoldFuture_round_mono `{Stream St A} `{FnMut F (B * A) B} `{!StreamMono St}
    (this : FoldFuture St F B) : fuel_mono (λ n, FoldFuture_round n this).
Proof. unfold FoldFuture_round. solve_fuel_mono. Qed.
#[export] Hint Resolve FoldFuture_round_mono : async.
#[global] Instance FoldFuture_mono `{Stream St A} `{FnMut F (B * A) B} `{!StreamMono St} :
  FutureMono (FoldFuture St F B).
Proof. solve_mono. Qed.
#[global] Instance FoldFuture_wakes `{Stream St A} `{FnMut F (B * A) B} `{!StreamWakes St} :
  FutureWakes (FoldFuture St F B).
Proof. solve_wakes_loop. Qed.
Lemma ForEachFuture_round_mono `{Stream St A} `{FnMut F A ()} `{!StreamMono St}
    (this : ForEachFuture St F) : fuel_mono (λ n, ForEachFuture_round n this).
Proof. unfold ForEachFuture_round. solve_fuel_mono. Qed.
#[export] Hint Resolve ForEachFuture_round_mono : async.
#[global] Instance ForEachFuture_mono `{Stream St A} `{FnMut F A ()} `{!StreamMono St} :
  FutureMono (ForEachFuture St F).
Proof. solve_mono. Qed.
#[global] Instance ForEachFuture_wakes `{Stream St A} `{FnMut F A ()} `{!StreamWakes St} :
  FutureWakes (ForEachFuture St F).
Proof. solve_wakes_loop. Qed.
Lemma TryFoldFuture_round_mono `{Stream St A} `{FnMut F (T * A) (Result T E)} `{!StreamMono St}
    (this : TryFoldFuture St F T) : fuel_mono (λ n, TryFoldFuture_round n this).
Proof. unfold TryFoldFuture_round. solve_fuel_mono. Qed.
#[export] Hint Resolve TryFoldFuture_round_mono : async.
#[global] Instance TryFoldFuture_mono `{Stream St A} `{FnMut F (T * A) (Result T E)} `{!StreamMono St} :
  FutureMono (TryFoldFuture St F T).
Proof. solve_mono. Qed.
#[global] Instance TryFoldFuture_wakes `{Stream St A} `{FnMut F (T * A) (Result T E)} `{!StreamWakes St} :
  FutureWakes (TryFoldFuture St F T).
Proof. solve_wakes_loop. Qed.
Lemma TryForEachFuture_round_mono `{Stream St A} `{FnMut F A (Result () E)} `{!StreamMono St}
    (this : TryForEachFuture St F) : fuel_mono (λ n, TryForEachFuture_round n this).
Proof. unfold TryForEachFuture_round. solve_fuel_mono. Qed.
#[export] Hint Resolve TryForEachFuture_round_mono : async.
#[global] Instance TryForEachFuture_mono `{Stream St A} `{FnMut F A (Result () E)} `{!StreamMono St} :
  FutureMono (TryForEachFuture St F).
Proof. solve_mono. Qed.
#[global] Instance TryForEachFuture_wakes `{Stream St A} `{FnMut F A (Result () E)} `{!StreamWakes St} :
  FutureWakes (TryForEachFuture St F).
Proof. solve_wakes_loop. Qed.
Lemma PartitionFuture_round_mono `{Stream St A} `{FnMut F A bool} `{Collection B A} `{!StreamMono St}
    (this : PartitionFuture St F B) : fuel_mono (λ n, PartitionFuture_round n this).
Proof. unfold PartitionFuture_round. solve_fuel_mono. Qed.
#[export] Hint Resolve PartitionFuture_round_mono : async.
#[global] Instance PartitionFuture_mono `{Stream St A} `{FnMut F A bool} `{Collection B A} `{!StreamMono St} :
  FutureMono (PartitionFuture St F B).
Proof. solve_mono. Qed.
#[global] Instance PartitionFuture_wakes `{Stream St A} `{FnMut F A bool} `{Collection B A} `{!StreamWakes St} :
  FutureWakes (PartitionFuture St F B).
Proof. solve_wakes_loop. Qed.
Lemma UnzipFuture_round_mono `{Stream St (A * B)} `{Collection FromA A} `{Collection FromB B} `{!StreamMono St}
    (this : UnzipFuture St FromA FromB) : fuel_mono (λ n, UnzipFuture_round n this).
Proof. unfold UnzipFuture_round. solve_fuel_mono. Qed.
#[export] Hint Resolve UnzipFuture_round_mono : async.
#[global] Instance UnzipFuture_mono `{Stream St (A * B)} `{Collection FromA A} `{Collection FromB B} `{!StreamMono St} :
  FutureMono (UnzipFuture St FromA FromB).
Proof. solve_mono. Qed.
#[global] Instance UnzipFuture_wakes `{Stream St (A * B)} `{Collection FromA A} `{Collection FromB B} `{!StreamWakes St} :
  FutureWakes (UnzipFuture St FromA FromB).
Proof. solve_wakes_loop. Qed.
