(* ===== verification/StreamConsumersSpec.v ===== *)
(** What the consumers of StreamConsumers.v resolve to: each is compared with
    the function on lists its documentation describes. *)

From S2P Require Import Prelude Async StreamConsumers.

(** * The list functions *)

(** The number of the first accepted item, counting from [i]. *)
Fixpoint position_from {A} (i : N) (l : list (A * bool)) : option N :=
  match l with
  | [] => None
  | (_, found) :: l => if found then Some i else position_from (i + 1) l
  end.

(** Folds with a closure that may change its state. *)
Fixpoint fold_calls `{FnMut F (B * A) B} (f : F) (acc : B) (l : list A) : B * F :=
  match l with
  | [] => (acc, f)
  | a :: l => let '(acc, f) := call_mut (B:=B) f (acc, a) in fold_calls f acc l
  end.

Fixpoint try_fold_calls `{FnMut F (T * A) (Result T E)} (f : F) (acc : T) (l : list A) :
    Result T E :=
  match l with
  | [] => Ok acc
  | a :: l => match call_mut (B:=Result T E) f (acc, a) with
              | (Ok acc, f) => try_fold_calls f acc l
              | (Err e, _) => Err e
              end
  end.

(** The first error among the answers. *)
Fixpoint first_err {A E} (l : list (A * Result () E)) : Result () E :=
  match l with
  | [] => Ok ()
  | (_, Ok _) :: l => first_err l
  | (_, Err e) :: _ => Err e
  end.

(** The item a scan that replaces its choice whenever [better new old] ends
    with. *)
Definition keep_better {A} (better : A → A → bool) (best : option A) (new : A) : option A :=
  match best with
  | None => Some new
  | Some old => if better new old then Some new else Some old
  end.
Definition best_of {A} (better : A → A → bool) (l : list A) : option A :=
  fold_left (keep_better better) l None.

Definition is_lt (c : comparison) : bool := match c with Lt => true | _ => false end.
Definition is_gt (c : comparison) : bool := match c with Gt => true | _ => false end.

(** What [cmp] promises: a total preorder. *)
Class OrdLaws (A : Type) `{Ord A} : Prop := {
  cmp_opp (x y : A) : cmp y x = CompOpp (cmp x y);
  cmp_lt_trans (x y z : A) : cmp x y = Lt → cmp y z = Lt → cmp x z = Lt;
  cmp_eq_l (x y z : A) : cmp x y = Eq → cmp x z = cmp y z
}.

(** [m] is the first item of [l] that no item is better than. *)
Definition first_best {A} (better : A → A → bool) (l : list A) (m : A) : Prop :=
  ∃ i, l !! i = Some m ∧
    (∀ j x, l !! j = Some x → better x m = false) ∧
    (∀ j x, j < i → l !! j = Some x → better m x = true).

Lemma fold_calls_pure {A B} (f : B * A → B) acc (l : list A) :
  fold_calls f acc l = (fold_left (λ b a, f (b, a)) l acc, f).
Proof. revert acc. induction l as [|a l IH]; intros acc; simpl; [done|apply IH]. Qed.

(** * Consumers that ask to be polled again *)

Section Again.
Context `{Stream St A}.

Lemma NextFuture_resolves (s s' : St) o :
  pulls s o s' → resolves (mkNextFuture s) o (mkNextFuture s').
Proof. intros Hp. lift_now Hp. Qed.

Lemma AllFuture_resolves `{FnMut F A bool} (s : St) (f : F) l :
  yields s l → resolves_to (AllFuture_new s f) (forallb snd (calls f l)).
Proof.
  intros Hy. revert f. induction Hy as [s s' Hp|s a s1 l Hp Hy IH]; intros f; simpl.
  - eexists. lift_now Hp.
  - destruct (call_mut f a) as [[] f'] eqn:Hc; simpl; [|eexists; lift_now Hp].
    destruct (IH f') as [t Ht]. exists t. lift_again Hp. exact Ht.
Qed.

Lemma AnyFuture_resolves `{FnMut F A bool} (s : St) (f : F) l :
  yields s l → resolves_to (AnyFuture_new s f) (existsb snd (calls f l)).
Proof.
  intros Hy. revert f. induction Hy as [s s' Hp|s a s1 l Hp Hy IH]; intros f; simpl.
  - eexists. lift_now Hp.
  - destruct (call_mut f a) as [[] f'] eqn:Hc; simpl; [eexists; lift_now Hp|].
    destruct (IH f') as [t Ht]. exists t. lift_again Hp. exact Ht.
Qed.

Lemma FindFuture_resolves `{FnMut P A bool} (s : St) (p : P) l :
  yields s l → resolves_to (FindFuture_new s p) (fst <$> List.find snd (calls p l)).
Proof.
  intros Hy. revert p. induction Hy as [s s' Hp|s a s1 l Hp Hy IH]; intros p; simpl.
  - eexists. lift_now Hp.
  - destruct (call_mut p a) as [[] p'] eqn:Hc; simpl; [eexists; lift_now Hp|].
    destruct (IH p') as [t Ht]. exists t. lift_again Hp. exact Ht.
Qed.

Lemma FindMapFuture_resolves `{FnMut F A (option B)} (s : St) (f : F) l :
  yields s l → resolves_to (FindMapFuture_new s f) (head (omap snd (calls f l))).
Proof.
  intros Hy. revert f. induction Hy as [s s' Hp|s a s1 l Hp Hy IH]; intros f; simpl.
  - eexists. lift_now Hp.
  - destruct (call_mut f a) as [[b|] f'] eqn:Hc; simpl; [eexists; lift_now Hp|].
    destruct (IH f') as [t Ht]. exists t. lift_again Hp. exact Ht.
Qed.

Lemma PositionFuture_resolves_from `{FnMut P A bool} (s : St) (p : P) i l :
  (i + N.of_nat (length l) < usize_modulus)%N →
  yields s l → resolves_to (mkPositionFuture s p i) (position_from i (calls p l)).
Proof.
  intros Hb Hy. revert p i Hb.
  induction Hy as [s s' Hp|s a s1 l Hp Hy IH]; intros p i Hb; simpl in *.
  - eexists. lift_now Hp.
  - destruct (call_mut p a) as [[] p'] eqn:Hc; simpl; [eexists; lift_now Hp|].
    assert (usize_add (Ev:=CxEvent) i 1 = Done ((i + 1)%N, [])) as Hi by (apply usize_add_ok; lia).
    destruct (IH p' (i + 1)%N) as [t Ht]; [lia|].
    exists t. lift_again Hp. exact Ht.
Qed.

Lemma NthFuture_resolves (s : St) n l :
  yields s l → resolves_to (NthFuture_new s n) (l !! N.to_nat n).
Proof.
  intros Hy. revert n. induction Hy as [s s' Hp|s a s1 l Hp Hy IH]; intros n.
  - eexists. lift_now Hp.
  - destruct (n =? 0)%N eqn:Hn.
    + apply N.eqb_eq in Hn as ->. eexists. lift_now Hp.
    + assert (usize_sub (Ev:=CxEvent) n 1 = Done ((n - 1)%N, [])) as Hs
        by (apply usize_sub_ok; apply N.eqb_neq in Hn; lia).
      destruct (IH (n - 1)%N) as [t Ht]. exists t.
      replace (N.to_nat n) with (S (N.to_nat (n - 1))) by (apply N.eqb_neq in Hn; lia).
      lift_again Hp. exact Ht.
Qed.

Lemma LastFuture_resolves_from (s : St) (o : option A) l :
  yields s l →
  resolves_to (mkLastFuture s o) (match list.last l with Some a => Some a | None => o end).
Proof.
  intros Hy. revert o. induction Hy as [s s' Hp|s a s1 l Hp Hy IH]; intros o.
  - eexists. lift_now Hp.
  - destruct (IH (Some a)) as [t Ht]. exists t. rewrite last_cons.
    lift_again Hp. destruct (list.last l); exact Ht.
Qed.

Lemma CountFuture_resolves_from (s : St) c l :
  (c + N.of_nat (length l) < usize_modulus)%N →
  yields s l → resolves_to (mkCountFuture s c) (c + N.of_nat (length l))%N.
Proof.
  intros Hb Hy. revert c Hb.
  induction Hy as [s s' Hp|s a s1 l Hp Hy IH]; intros c Hb; simpl length in *.
  - rewrite N.add_0_r. eexists. lift_now Hp.
  - assert (usize_add (Ev:=CxEvent) c 1 = Done ((c + 1)%N, [])) as Hc by (apply usize_add_ok; lia).
    destruct (IH (c + 1)%N) as [t Ht]; [lia|].
    replace (c + N.of_nat (S (length l)))%N with (c + 1 + N.of_nat (length l))%N by lia.
    exists t. lift_again Hp. exact Ht.
Qed.
End Again.

(** * Consumers that are a loop *)

Section Drain.
Context `{Stream St A} `{!StreamMono St}.

Lemma FoldFuture_resolves `{FnMut F (B * A) B} (s s' : St) (f : F) (init : B) l :
  drains s l s' →
  resolves (FoldFuture_new s init f) (fst (fold_calls f init l))
    (mkFoldFuture s' (snd (fold_calls f init l)) None).
Proof.
  intros Hd. revert f init.
  induction Hd as [s s' Hp|s a s1 l s' Hp Hd IH]; intros f init; simpl.
  - lift_now_loop (@FoldFuture_round St A H F B H0) Hp.
  - destruct (call_mut f (init, a)) as [acc f'] eqn:Hc.
    lift_round (@FoldFuture_round St A H F B H0) Hp. apply IH.
Qed.

Lemma ForEachFuture_resolves `{FnMut F A ()} (s s' : St) (f : F) l :
  drains s l s' →
  resolves (ForEachFuture_new s f) () (mkForEachFuture s' (calls_end (B:=()) f l)).
Proof.
  intros Hd. revert f. induction Hd as [s s' Hp|s a s1 l s' Hp Hd IH]; intros f; simpl.
  - lift_now_loop (@ForEachFuture_round St A H F H0) Hp.
  - destruct (call_mut (B:=()) f a) as [u f'] eqn:Hc. simpl.
    lift_round (@ForEachFuture_round St A H F H0) Hp. apply IH.
Qed.

Lemma TryFoldFuture_resolves `{FnMut F (T * A) (Result T E)} (s : St) (f : F) (init : T) l :
  yields s l → resolves_to (TryFoldFuture_new s init f) (try_fold_calls f init l).
Proof.
  intros Hd. revert f init.
  induction Hd as [s s' Hp|s a s1 l Hp Hd IH]; intros f init; simpl.
  - eexists. lift_now_loop (@TryFoldFuture_round St A H F T E H0) Hp.
  - destruct (call_mut f (init, a)) as [[acc|e] f'] eqn:Hc.
    + destruct (IH f' acc) as [t Ht]. exists t.
      lift_round (@TryFoldFuture_round St A H F T E H0) Hp. apply Ht.
    + eexists. lift_now_loop (@TryFoldFuture_round St A H F T E H0) Hp.
Qed.

Lemma TryForEachFuture_resolves `{FnMut F A (Result () E)} (s : St) (f : F) l :
  yields s l → resolves_to (TryForEachFuture_new s f) (first_err (calls f l)).
Proof.
  intros Hd. revert f. induction Hd as [s s' Hp|s a s1 l Hp Hd IH]; intros f; simpl.
  - eexists. lift_now_loop (@TryForEachFuture_round St A H F E H0) Hp.
  - destruct (call_mut f a) as [[[]|e] f'] eqn:Hc; simpl.
    + destruct (IH f') as [t Ht]. exists t.
      lift_round (@TryForEachFuture_round St A H F E H0) Hp. apply Ht.
    + eexists. lift_now_loop (@TryForEachFuture_round St A H F E H0) Hp.
Qed.

(** The two collections a partition has built, extended one item at a time. *)
Lemma PartitionFuture_resolves_from `{FnMut F A bool} `{Collection B A} (s : St) (f : F)
    (yes no : B) l :
  yields s l →
  resolves_to (mkPartitionFuture s f (Some (yes, no)))
    (fold_left (λ c a, coll_extend c [a]) (List.filter snd (calls f l)).*1 yes,
     fold_left (λ c a, coll_extend c [a])
       (List.filter (negb ∘ snd) (calls f l)).*1 no).
Proof.
  intros Hd. revert f yes no.
  induction Hd as [s s' Hp|s a s1 l Hp Hd IH]; intros f yes no; simpl.
  - eexists. lift_now_loop (@PartitionFuture_round St A H F H0 B H1) Hp.
  - destruct (call_mut f a) as [[] f'] eqn:Hc; simpl.
    + destruct (IH f' (coll_extend yes [a]) no) as [t Ht]. exists t.
      lift_round (@PartitionFuture_round St A H F H0 B H1) Hp. apply Ht.
    + destruct (IH f' yes (coll_extend no [a])) as [t Ht]. exists t.
      lift_round (@PartitionFuture_round St A H F H0 B H1) Hp. apply Ht.
Qed.
End Drain.

Lemma UnzipFuture_resolves_from `{Stream St (A * B)} `{!StreamMono St} `{Collection FromA A}
    `{Collection FromB B} (s : St) (ca : FromA) (cb : FromB) l :
  yields s l →
  resolves_to (mkUnzipFuture s (Some (ca, cb)))
    (fold_left (λ c a, coll_extend c [a]) l.*1 ca,
     fold_left (λ c b, coll_extend c [b]) l.*2 cb).
Proof.
  intros Hd. revert ca cb. induction Hd as [s s' Hp|s [a b] s1 l Hp Hd IH]; intros ca cb; simpl.
  - eexists. lift_now_loop (@UnzipFuture_round St A B H FromA H0 FromB H1) Hp.
  - destruct (IH (coll_extend ca [a]) (coll_extend cb [b])) as [t Ht]. exists t.
    lift_round (@UnzipFuture_round St A B H FromA H0 FromB H1) Hp. apply Ht.
Qed.

(** * The minimum and the maximum *)

Section BestOf.
Context {A} (better : A → A → bool).
Context (better_irrefl : ∀ x, better x x = false).
Context (better_trans : ∀ x y z, better x y = true → better y z = true → better x z = true).
Context (worse_trans : ∀ x y z, better x y = false → better y z = false → better x z = false).

Lemma first_best_one x : first_best better [x] x.
Proof.
  exists 0. split_and!; [done| |lia].
  intros [|j] y Hj; simplify_eq/=. apply better_irrefl.
Qed.

Lemma first_best_snoc l m x :
  first_best better l m → first_best better (l ++ [x]) (if better x m then x else m).
Proof.
  intros (i & Hi & Hworst & Hfirst). destruct (better x m) eqn:Hx.
  - exists (length l). split_and!.
    + by rewrite lookup_app_r, Nat.sub_diag by lia.
    + intros j y [Hj|[_ Hj]]%lookup_app_Some.
      * destruct (better y x) eqn:Hyx; [|done].
        pose proof (better_trans _ _ _ Hyx Hx). rewrite (Hworst j y) in *; done.
      * destruct (j - length l); simplify_eq/=. apply better_irrefl.
    + intros j y Hlt Hj. rewrite lookup_app_l in Hj by done.
      destruct (better x y) eqn:Hxy; [done|].
      by rewrite (worse_trans x y m Hxy (Hworst _ _ Hj)) in Hx.
  - exists i. pose proof (lookup_lt_Some _ _ _ Hi). split_and!.
    + by rewrite lookup_app_l.
    + intros j y [Hj|[_ Hj]]%lookup_app_Some; [by eapply Hworst|].
      destruct (j - length l); by simplify_eq/=.
    + intros j y Hlt Hj. rewrite lookup_app_l in Hj by lia. eauto.
Qed.

Lemma best_of_first l : l ≠ [] → ∃ m, best_of better l = Some m ∧ first_best better l m.
Proof.
  unfold best_of. induction l as [|x l IH] using rev_ind; [done|intros _].
  rewrite fold_left_app. simpl. destruct l as [|y l].
  - exists x. split; [done|apply first_best_one].
  - destruct IH as (m & -> & Hm); [done|]. simpl.
    exists (if better x m then x else m). split; [by destruct (better x m)|].
    exact (first_best_snoc (y :: l) m x Hm).
Qed.
End BestOf.

Section OrdBest.
Context `{OrdLaws A}.

Lemma cmp_refl (x : A) : cmp x x = Eq.
Proof. pose proof (cmp_opp x x). destruct (cmp x x); simpl in *; congruence. Qed.

Lemma cmp_gt_trans (x y z : A) : cmp x y = Gt → cmp y z = Gt → cmp x z = Gt.
Proof.
  rewrite (cmp_opp y x), (cmp_opp z y), (cmp_opp z x). intros H1 H2.
  rewrite (cmp_lt_trans z y x); [done|..].
  - by destruct (cmp z y).
  - by destruct (cmp y x).
Qed.

Lemma cmp_eq_r (x y z : A) : cmp y z = Eq → cmp x y = cmp x z.
Proof. intros He. rewrite (cmp_opp y x), (cmp_opp z x). by rewrite (cmp_eq_l y z x He). Qed.

Lemma min_first l : l ≠ [] →
  ∃ m : A, best_of (λ new old, is_lt (cmp new old)) l = Some m ∧
    first_best (λ new old, is_lt (cmp new old)) l m.
Proof.
  apply best_of_first.
  - intros x. by rewrite cmp_refl.
  - intros x y z. destruct (cmp x y) eqn:H1, (cmp y z) eqn:H2; try done.
    by rewrite (cmp_lt_trans x y z).
  - intros x y z. destruct (cmp x y) eqn:H1, (cmp y z) eqn:H2; try done; intros _ _.
    + by rewrite (cmp_eq_l _ _ _ H1), H2.
    + by rewrite (cmp_eq_l _ _ _ H1), H2.
    + by rewrite <- (cmp_eq_r x _ _ H2), H1.
    + by rewrite (cmp_gt_trans x y z).
Qed.

Lemma max_first l : l ≠ [] →
  ∃ m : A, best_of (λ new old, is_gt (cmp new old)) l = Some m ∧
    first_best (λ new old, is_gt (cmp new old)) l m.
Proof.
  apply best_of_first.
  - intros x. by rewrite cmp_refl.
  - intros x y z. destruct (cmp x y) eqn:H1, (cmp y z) eqn:H2; try done.
    by rewrite (cmp_gt_trans x y z).
  - intros x y z. destruct (cmp x y) eqn:H1, (cmp y z) eqn:H2; try done; intros _ _.
    + by rewrite (cmp_eq_l _ _ _ H1), H2.
    + by rewrite (cmp_eq_l _ _ _ H1), H2.
    + by rewrite <- (cmp_eq_r x _ _ H2), H1.
    + by rewrite (cmp_lt_trans x y z).
Qed.
End OrdBest.

Section Best.
Context `{Stream St A}.

Lemma MinFuture_resolves_from `{!Ord A} (s : St) o l :
  yields s l →
  resolves_to (mkMinFuture s o) (fold_left (keep_better (λ x y, is_lt (cmp x y))) l o).
Proof.
  intros Hy. revert o. induction Hy as [s s' Hp|s a s1 l Hp Hy IH]; intros o; simpl.
  - eexists. lift_now Hp.
  - match goal with |- resolves_to _ (fold_left _ _ ?o') => destruct (IH o') as [t Ht] end.
    exists t. lift_again Hp. destruct o as [old|]; simpl in *; [|exact Ht].
    destruct (cmp a old); exact Ht.
Qed.

Lemma MaxFuture_resolves_from `{!Ord A} (s : St) o l :
  yields s l →
  resolves_to (mkMaxFuture s o) (fold_left (keep_better (λ x y, is_gt (cmp x y))) l o).
Proof.
  intros Hy. revert o. induction Hy as [s s' Hp|s a s1 l Hp Hy IH]; intros o; simpl.
  - eexists. lift_now Hp.
  - match goal with |- resolves_to _ (fold_left _ _ ?o') => destruct (IH o') as [t Ht] end.
    exists t. lift_again Hp. destruct o as [old|]; simpl in *; [|exact Ht].
    destruct (cmp a old); exact Ht.
Qed.

Lemma MinByFuture_resolves_from `{FnMut F (A * A) comparison} (f : F)
    (compare : A → A → comparison) (s : St) o l :
  (∀ x y, call_mut f (x, y) = (compare x y, f)) →
  yields s l →
  resolves_to (mkMinByFuture s f o) (fold_left (keep_better (λ x y, is_lt (compare x y))) l o).
Proof.
  intros Hf Hy. revert o. induction Hy as [s s' Hp|s a s1 l Hp Hy IH]; intros o; simpl.
  - eexists. lift_now Hp.
  - match goal with |- resolves_to _ (fold_left _ _ ?o') => destruct (IH o') as [t Ht] end.
    exists t. destruct o as [old|]; simpl in *; 
      [pose proof (Hf a old) as Hc; destruct (compare a old)|];
      lift_again Hp; exact Ht.
Qed.

Lemma MaxByFuture_resolves_from `{FnMut F (A * A) comparison} (f : F)
    (compare : A → A → comparison) (s : St) o l :
  (∀ x y, call_mut f (x, y) = (compare x y, f)) →
  yields s l →
  resolves_to (mkMaxByFuture s f o) (fold_left (keep_better (λ x y, is_gt (compare x y))) l o).
Proof.
  intros Hf Hy. revert o. induction Hy as [s s' Hp|s a s1 l Hp Hy IH]; intros o; simpl.
  - eexists. lift_now Hp.
  - match goal with |- resolves_to _ (fold_left _ _ ?o') => destruct (IH o') as [t Ht] end.
    exists t. destruct o as [old|]; simpl in *; 
      [pose proof (Hf a old) as Hc; destruct (compare a old)|];
      lift_again Hp; exact Ht.
Qed.

(** The items are compared by the keys computed when they arrived. *)
Definition keyed `{FnMut K A A} (k : K) (l : list A) : list (A * A) := prod_swap <$> calls k l.

Lemma MinByKeyFuture_resolves_from `{FnMut K A A} `{!Ord A} (s : St) (k : K) o l :
  yields s l →
  resolves_to (mkMinByKeyFuture s o k)
    (snd <$> fold_left (keep_better (λ x y, is_lt (cmp x.1 y.1))) (keyed k l) o).
Proof.
  intros Hy. revert k o. induction Hy as [s s' Hp|s a s1 l Hp Hy IH]; intros k o.
  - eexists. lift_now Hp.
  - unfold keyed. simpl. destruct (call_mut k a) as [key k'] eqn:Hc. simpl.
    match goal with |- resolves_to _ (_ <$> fold_left _ _ ?o') =>
      destruct (IH k' o') as [t Ht] end.
    exists t. lift_again Hp. destruct o as [[old v]|]; simpl in *; [|exact Ht].
    destruct (cmp key old); exact Ht.
Qed.

Lemma MaxByKeyFuture_resolves_from `{FnMut K A A} `{!Ord A} (s : St) (k : K) o l :
  yields s l →
  resolves_to (mkMaxByKeyFuture s o k)
    (snd <$> fold_left (keep_better (λ x y, is_gt (cmp x.1 y.1))) (keyed k l) o).
Proof.
  intros Hy. revert k o. induction Hy as [s s' Hp|s a s1 l Hp Hy IH]; intros k o.
  - eexists. lift_now Hp.
  - unfold keyed. simpl. destruct (call_mut k a) as [key k'] eqn:Hc. simpl.
    match goal with |- resolves_to _ (_ <$> fold_left _ _ ?o') =>
      destruct (IH k' o') as [t Ht] end.
    exists t. lift_again Hp. destruct o as [[old v]|]; simpl in *; [|exact Ht].
    destruct (cmp key old); exact Ht.
Qed.
End Best.
