(* ===== verification/WakerSet.v ===== *)
(** The waker set of src/src/sync/waker_set.rs: the list of blocked operations
    on which [Mutex], [RwLock] and the channel are built.  The [slab] crate is a
    parameter ([Slab]); [WakerSetOps] and [WakerSetLaws] are what the waker set
    promises to the primitives above it. *)

From stdpp Require Import gmap fin_maps.
From S2P Require Import Prelude.

(** * The slab crate *)

(** [slab::Slab<V>]: [remove] panics ([None]) on a vacant key; [slab_iter] is the
    order in which [iter_mut] visits the entries, and [slab_store] the
    assignment through one of its references. *)
Class Slab (S V : Type) : Type := {
  slab_new : S;
  slab_insert : S → V → nat * S;
  slab_get : S → nat → option V;
  slab_remove : S → nat → option (V * S);
  slab_len : S → N;
  slab_iter : S → list (nat * V);
  slab_store : S → nat → V → S
}.
#[global] Hint Mode Slab ! - : typeclass_instances.

(** Its documentation, in terms of the entries it holds. *)
Class SlabLaws (S V : Type) `{Slab S V} : Type := {
  slab_view : S → gmap nat V;
  slab_view_new : slab_view slab_new = ∅;
  slab_view_insert (s : S) (v : V) (k : nat) (s' : S) :
    slab_insert s v = (k, s') →
    slab_view s !! k = None ∧ slab_view s' = <[k:=v]> (slab_view s);
  slab_view_get (s : S) (k : nat) : slab_get s k = slab_view s !! k;
  slab_view_remove (s : S) (k : nat) (v : V) :
    slab_view s !! k = Some v →
    ∃ s', slab_remove s k = Some (v, s') ∧ slab_view s' = delete k (slab_view s);
  slab_view_vacant (s : S) (k : nat) : slab_view s !! k = None → slab_remove s k = None;
  slab_view_len (s : S) : slab_len s = N.of_nat (size (slab_view s));
  slab_view_iter (s : S) : slab_iter s ≡ₚ map_to_list (slab_view s);
  slab_view_store (s : S) (k : nat) (v : V) :
    is_Some (slab_view s !! k) → slab_view (slab_store s k v) = <[k:=v]> (slab_view s)
}.

(** A slab, to compute with. *)
#[global] Instance gmap_Slab (V : Type) : Slab (gmap nat V) V := {|
  slab_new := ∅;
  slab_insert m v := let k := fresh (dom m) in (k, <[k:=v]> m);
  slab_get m k := m !! k;
  slab_remove m k := (λ v, (v, delete k m)) <$> m !! k;
  slab_len m := N.of_nat (size m);
  slab_iter m := map_to_list m;
  slab_store m k v := <[k:=v]> m
|}.

#[global] Instance gmap_SlabLaws (V : Type) : SlabLaws (gmap nat V) V.
Proof.
  exists id; simpl; try done.
  - intros s v k s' [= <- <-]. split; [|done].
    apply not_elem_of_dom, is_fresh.
  - intros s k v ->. eauto.
  - by intros s k ->.
Defined.

(** * The waker set *)

(** Set when the entry list is locked. *)
Definition LOCKED : N := N.shiftl 1 0.
(** Set when there is at least one entry that has already been notified. *)
Definition NOTIFIED : N := N.shiftl 1 1.
(** Set when there is at least one notifiable entry. *)
Definition NOTIFIABLE : N := N.shiftl 1 2.

Inductive Notify : Type :=
| NotifyAny
| NotifyOne
| NotifyAll.

#[global] Instance Notify_eq_dec : EqDecision Notify.
Proof. solve_decision. Defined.

Record Inner (S : Type) : Type := mkInner { entries : S; notifiable : N }.
Arguments mkInner {S}.
Arguments entries {S}.
Arguments notifiable {S}.

Record WakerSet (S : Type) : Type := mkWakerSet { ws_flag : N; ws_inner : Inner S }.
Arguments mkWakerSet {S}.
Arguments ws_flag {S}.
Arguments ws_inner {S}.

Section Ops.
(** [W] is the type of wakers; the events of a call are the wakers it wakes. *)
Context {W S : Type} `{Slab S (option W)}.

Definition WakerSet_new : WakerSet S := mkWakerSet 0 (mkInner slab_new 0).

(** One round of [while self.flag.fetch_or(LOCKED, ..) & LOCKED != 0]: the new
    flag, and whether the lock was free. *)
Definition lock_round (flag : N) : N * bool :=
  (N.lor flag LOCKED, (N.land flag LOCKED =? 0)%N).

(** [self.lock()] when nobody else runs: it returns at once or spins for ever. *)
Definition lock (ws : WakerSet S) : Act W (WakerSet S) :=
  let '(flag, free) := lock_round (ws_flag ws) in
  if free then mret (mkWakerSet flag (ws_inner ws)) else OutOfFuel.

(** [Lock::drop]. *)
Definition Lock_drop (inner : Inner S) : Act W N :=
  notified ← usize_sub (slab_len (entries inner)) (notifiable inner);
  let flag := if (0 <? notified)%N then NOTIFIED else 0%N in
  mret (if (0 <? notifiable inner)%N then N.lor flag NOTIFIABLE else flag).

(** A method that takes the lock, works on the inner state, and drops the lock
    when it returns. *)
Definition locked {R : Type} (body : Inner S → Act W (R * Inner S)) (ws : WakerSet S) :
    Act W (R * WakerSet S) :=
  ws ← lock ws;
  '(r, inner) ← body (ws_inner ws);
  flag ← Lock_drop inner;
  mret (r, mkWakerSet flag inner).

Definition insert_body (w : W) (inner : Inner S) : Act W (nat * Inner S) :=
  let '(key, es) := slab_insert (entries inner) (Some w) in
  n ← usize_add (notifiable inner) 1;
  mret (key, mkInner es n).

Definition remove_body (key : nat) (inner : Inner S) : Act W (() * Inner S) :=
  '(o, es) ← unwrap (slab_remove (entries inner) key);
  match o with
  | Some _ => n ← usize_sub (notifiable inner) 1; mret ((), mkInner es n)
  | None => mret ((), mkInner es (notifiable inner))
  end.

(** The [for] loop of [cancel]: the first entry that still has a waker is
    notified. *)
Fixpoint cancel_loop (iter : list (nat * option W)) (inner : Inner S) :
    Act W (bool * Inner S) :=
  match iter with
  | [] => mret (false, inner)
  | (k, opt_waker) :: iter =>
      match opt_waker with
      | Some w =>
          let es := slab_store (entries inner) k None in
          _ ← emit w;
          n ← usize_sub (notifiable inner) 1;
          mret (true, mkInner es n)
      | None => cancel_loop iter inner
      end
  end.

Definition cancel_body (key : nat) (inner : Inner S) : Act W (bool * Inner S) :=
  '(o, es) ← unwrap (slab_remove (entries inner) key);
  match o with
  | Some _ => n ← usize_sub (notifiable inner) 1; mret (false, mkInner es n)
  | None => cancel_loop (slab_iter es) (mkInner es (notifiable inner))
  end.

(** The [for] loop of [notify]. *)
Fixpoint notify_loop (n : Notify) (iter : list (nat * option W)) (inner : Inner S)
    (notified : bool) : Act W (bool * Inner S) :=
  match iter with
  | [] => mret (notified, inner)
  | (k, opt_waker) :: iter =>
      match opt_waker with
      | Some w =>
          let es := slab_store (entries inner) k None in
          _ ← emit w;
          c ← usize_sub (notifiable inner) 1;
          let inner := mkInner es c in
          if decide (n = NotifyOne) then mret (true, inner)
          else if decide (n = NotifyAny) then mret (true, inner)
          else notify_loop n iter inner true
      | None =>
          if decide (n = NotifyAny) then mret (notified, inner)
          else notify_loop n iter inner notified
      end
  end.

Definition notify_body (n : Notify) (inner : Inner S) : Act W (bool * Inner S) :=
  notify_loop n (slab_iter (entries inner)) inner false.

Definition insert (w : W) (ws : WakerSet S) : Act W (nat * WakerSet S) :=
  locked (insert_body w) ws.
Definition remove (key : nat) (ws : WakerSet S) : Act W (() * WakerSet S) :=
  locked (remove_body key) ws.
Definition cancel (key : nat) (ws : WakerSet S) : Act W (bool * WakerSet S) :=
  locked (cancel_body key) ws.
Definition notify (n : Notify) (ws : WakerSet S) : Act W (bool * WakerSet S) :=
  locked (notify_body n) ws.

(** The tests of the flag before [notify] is called. *)
Definition any_wanted (flag : N) : bool :=
  (N.land flag NOTIFIED =? 0)%N && negb (N.land flag NOTIFIABLE =? 0)%N.
Definition one_wanted (flag : N) : bool := negb (N.land flag NOTIFIABLE =? 0)%N.

Definition notify_any (ws : WakerSet S) : Act W (bool * WakerSet S) :=
  if any_wanted (ws_flag ws) then notify NotifyAny ws else mret (false, ws).
Definition notify_one (ws : WakerSet S) : Act W (bool * WakerSet S) :=
  if one_wanted (ws_flag ws) then notify NotifyOne ws else mret (false, ws).
Definition notify_all (ws : WakerSet S) : Act W (bool * WakerSet S) :=
  if one_wanted (ws_flag ws) then notify NotifyAll ws else mret (false, ws).
End Ops.

(** * What the waker set promises *)

(** The entries, by key: [Some w] for a blocked operation that can be notified,
    [None] for one that was notified and has not removed itself yet. *)
Definition waiting {W : Type} (m : gmap nat (option W)) (k : nat) (w : W) : Prop :=
  m !! k = Some (Some w).
Definition nobody_waits {W : Type} (m : gmap nat (option W)) : Prop := ∀ k w, ¬ waiting m k w.

(** [woke m l m']: notifying the entries [l], in order, turns [m] into [m']. *)
Inductive woke {W : Type} : gmap nat (option W) → list (nat * W) → gmap nat (option W) → Prop :=
| woke_nil m : woke m [] m
| woke_cons m k w l m' :
    waiting m k w → woke (<[k:=None]> m) l m' → woke m ((k, w) :: l) m'.

(** What a notification of kind [n] may do. *)
Definition notify_post {W : Type} (n : Notify) (m : gmap nat (option W)) (l : list (nat * W))
    (m' : gmap nat (option W)) : Prop :=
  woke m l m' ∧
  match n with
  | NotifyAny => length l ≤ 1 ∧ (l = [] → m = ∅ ∨ ∃ k, m !! k = Some None)
  | NotifyOne => length l ≤ 1 ∧ (l = [] → nobody_waits m)
  | NotifyAll => nobody_waits m'
  end.

(** The operations of a waker set, the wakers being of type [W]. *)
Class WakerSetOps (WS W : Type) : Type := {
  wset_new : WS;
  wset_insert : W → WS → Act W (nat * WS);
  wset_remove : nat → WS → Act W (() * WS);
  wset_cancel : nat → WS → Act W (bool * WS);
  wset_any_wanted : WS → bool;
  wset_one_wanted : WS → bool;
  wset_notify : Notify → WS → Act W (bool * WS)
}.
#[global] Hint Mode WakerSetOps ! - : typeclass_instances.

Class WakerSetLaws (WS W : Type) `{WakerSetOps WS W} : Type := {
  wset_view : WS → gmap nat (option W);
  wset_wf : WS → Prop;
  wset_new_spec : wset_wf wset_new ∧ wset_view wset_new = ∅;
  wset_insert_spec (w : W) (ws : WS) (k : nat) (ws' : WS) (l : list W) :
    wset_wf ws → wset_insert w ws = Done ((k, ws'), l) →
    wset_wf ws' ∧ l = [] ∧ wset_view ws !! k = None ∧
    wset_view ws' = <[k:=Some w]> (wset_view ws);
  wset_insert_total (w : W) (ws : WS) :
    wset_wf ws → (N.of_nat (size (wset_view ws)) + 1 < usize_modulus)%N →
    ∃ r, wset_insert w ws = Done r;
  wset_remove_spec (k : nat) (ws : WS) :
    wset_wf ws → is_Some (wset_view ws !! k) →
    ∃ ws', wset_remove k ws = Done ((tt, ws'), []) ∧ wset_wf ws' ∧
      wset_view ws' = delete k (wset_view ws);
  wset_cancel_spec (k : nat) (ws : WS) (o : option W) :
    wset_wf ws → wset_view ws !! k = Some o →
    ∃ ws' kl, wset_cancel k ws = Done ((bool_decide (kl ≠ []), ws'), kl.*2) ∧ wset_wf ws' ∧
      match o with
      | Some _ => kl = [] ∧ wset_view ws' = delete k (wset_view ws)
      | None => notify_post NotifyOne (delete k (wset_view ws)) kl (wset_view ws')
      end;
  wset_any_wanted_spec (ws : WS) :
    wset_wf ws →
    wset_any_wanted ws = true ↔
    (∃ k w, waiting (wset_view ws) k w) ∧ ∀ k, wset_view ws !! k ≠ Some None;
  wset_one_wanted_spec (ws : WS) :
    wset_wf ws → wset_one_wanted ws = true ↔ ∃ k w, waiting (wset_view ws) k w;
  wset_notify_spec (n : Notify) (ws : WS) :
    wset_wf ws →
    ∃ ws' kl, wset_notify n ws = Done ((bool_decide (kl ≠ []), ws'), kl.*2) ∧ wset_wf ws' ∧
      notify_post n (wset_view ws) kl (wset_view ws')
}.

#[global] Instance WakerSet_Ops {W S : Type} `{Slab S (option W)} : WakerSetOps (WakerSet S) W := {|
  wset_new := WakerSet_new;
  wset_insert := insert;
  wset_remove := remove;
  wset_cancel := cancel;
  wset_any_wanted ws := any_wanted (ws_flag ws);
  wset_one_wanted ws := one_wanted (ws_flag ws);
  wset_notify := notify
|}.

(** * Facts about entries *)

Section Entries.
Context {W : Type}.
Implicit Types m : gmap nat (option W).

(** The wakers that are left. *)
Definition wakers m : gmap nat W := omap id m.

Lemma lookup_wakers m k w : wakers m !! k = Some w ↔ waiting m k w.
Proof.
  unfold wakers, waiting. rewrite lookup_omap. destruct (m !! k) as [[w'|]|]; simpl; naive_solver.
Qed.

Lemma wakers_insert_Some m k w : wakers (<[k:=Some w]> m) = <[k:=w]> (wakers m).
Proof. unfold wakers. by rewrite omap_insert. Qed.
Lemma wakers_insert_None m k : wakers (<[k:=None]> m) = delete k (wakers m).
Proof. unfold wakers. by rewrite omap_insert. Qed.
Lemma wakers_delete m k : wakers (delete k m) = delete k (wakers m).
Proof. unfold wakers. by rewrite omap_delete. Qed.

Lemma size_wakers_take m k w :
  waiting m k w → size (wakers m) = Datatypes.S (size (wakers (<[k:=None]> m))).
Proof.
  intros Hk%lookup_wakers. rewrite wakers_insert_None.
  rewrite <- (insert_delete_id (wakers m) k w Hk) at 1.
  apply map_size_insert_None, lookup_delete_eq.
Qed.

Lemma wakers_None m k : m !! k = Some None → wakers m !! k = None.
Proof. intros H. unfold wakers. by rewrite lookup_omap, H. Qed.

Lemma dom_wakers m : dom (wakers m) ⊆ dom m.
Proof.
  intros k [w Hw%lookup_wakers]%elem_of_dom. apply elem_of_dom. by eexists.
Qed.

Lemma size_wakers_le m : size (wakers m) ≤ size m.
Proof. rewrite <- !size_dom. apply subseteq_size, dom_wakers. Qed.

(** Some entry was notified when there are fewer wakers than entries. *)
Lemma size_wakers_lt m : size (wakers m) < size m ↔ ∃ k, m !! k = Some None.
Proof.
  split.
  - intros Hlt. destruct (decide (map_Exists (λ _ o, o = None) m)) as [(k & o & Hk & ->)|Hn];
      [by exists k|].
    exfalso. assert (dom (wakers m) = dom m) as Hd.
    { apply leibniz_equiv. intros k. split; intros Hk; [by apply dom_wakers|].
      apply elem_of_dom in Hk as [[w|] Ho]; apply elem_of_dom.
      - exists w. by apply lookup_wakers.
      - destruct Hn. by exists k, None. }
    rewrite <- !size_dom, Hd in Hlt. lia.
  - intros [k Hk]. rewrite <- !size_dom. apply subset_size. split; [apply dom_wakers|].
    intros Hsub. assert (k ∈ dom (wakers m)) as [w Hw]%elem_of_dom
      by (apply Hsub, elem_of_dom; by eexists).
    rewrite wakers_None in Hw; done.
Qed.

Lemma size_wakers_pos m : 0 < size (wakers m) ↔ ∃ k w, waiting m k w.
Proof.
  split.
  - intros Hpos. destruct (map_choose (wakers m)) as (k & w & Hw).
    { intros Hw. rewrite Hw, map_size_empty in Hpos. lia. }
    exists k, w. by apply lookup_wakers.
  - intros (k & w & Hw%lookup_wakers). apply Nat.neq_0_lt_0.
    intros He%map_size_empty_inv. by rewrite He in Hw.
Qed.
End Entries.

(** ** Entries that are notified *)

Section Woke.
Context {W : Type}.
Implicit Types m : gmap nat (option W).

Lemma woke_None m l m' k : woke m l m' → m !! k = Some None → m' !! k = Some None.
Proof.
  induction 1 as [|m k1 w l m' Hk1 Hw IH]; [done|]. intros Hk. apply IH.
  destruct (decide (k = k1)) as [->|]; [apply lookup_insert_eq|by rewrite lookup_insert_ne].
Qed.

Lemma woke_dom m l m' : woke m l m' → dom m' = dom m.
Proof.
  induction 1 as [|m k1 w l m' Hk1 Hw IH]; [done|]. rewrite IH.
  apply dom_insert_lookup_L. by eexists.
Qed.

(** An entry still waiting was waiting before. *)
Lemma woke_back m l m' k w : woke m l m' → waiting m' k w → waiting m k w.
Proof.
  induction 1 as [|m k1 w1 l m' Hk1 Hw IH]; [done|]. intros Hk%IH.
  unfold waiting in *. destruct (decide (k = k1)) as [->|];
    [by rewrite lookup_insert_eq in Hk|by rewrite lookup_insert_ne in Hk].
Qed.

(** The entries notified, and only they, have lost their wakers. *)
Lemma woke_lookup m l m' k :
  woke m l m' → m' !! k = if decide (k ∈ l.*1) then Some None else m !! k.
Proof.
  induction 1 as [|m k1 w1 l m' Hk1 Hw IH]; [done|]. rewrite IH. simpl.
  destruct (decide (k = k1)) as [->|Hne].
  - rewrite lookup_insert_eq. repeat case_decide; try done; exfalso; set_solver.
  - rewrite lookup_insert_ne by done. apply decide_ext. rewrite elem_of_cons. naive_solver.
Qed.

Lemma woke_in m l m' k w : woke m l m' → (k, w) ∈ l → waiting m k w.
Proof.
  induction 1 as [|m k1 w1 l m' Hk1 Hw IH]; [by intros ?%not_elem_of_nil|].
  intros [[= -> ->]|Hin]%elem_of_cons; [done|]. apply IH in Hin. unfold waiting in *.
  destruct (decide (k = k1)) as [->|];
    [by rewrite lookup_insert_eq in Hin|by rewrite lookup_insert_ne in Hin].
Qed.

Lemma woke_empty m m' : woke m [] m' → m' = m.
Proof. by inversion 1. Qed.
End Woke.

(** * The waker set keeps its promises *)

Section Laws.
Context {W S : Type} `{SlabLaws S (option W)}.
Implicit Types inner : Inner S.

(** The entries of the slab. *)
Definition inner_view inner : gmap nat (option W) := slab_view (entries inner).

(** [notifiable] counts the entries that hold a waker. *)
Definition inner_ok inner : Prop :=
  notifiable inner = N.of_nat (size (wakers (inner_view inner))).

(** What [Lock::drop] stores in the flag. *)
Definition flag_of inner : N :=
  let flag :=
    if (0 <? slab_len (entries inner) - notifiable inner)%N then NOTIFIED else 0%N in
  if (0 <? notifiable inner)%N then N.lor flag NOTIFIABLE else flag.

(** A waker set nobody is working on. *)
Definition ws_wf (ws : WakerSet S) : Prop :=
  inner_ok (ws_inner ws) ∧ ws_flag ws = flag_of (ws_inner ws).

Lemma inner_len inner :
  inner_ok inner → (notifiable inner ≤ slab_len (entries inner))%N.
Proof.
  intros Hok. rewrite Hok, slab_view_len.
  pose proof (size_wakers_le (inner_view inner)). unfold inner_view in *. lia.
Qed.

Lemma Lock_drop_ok inner :
  inner_ok inner → Lock_drop (W:=W) inner = Done (flag_of inner, []).
Proof.
  intros Hok%inner_len. unfold Lock_drop. by rewrite usize_sub_ok.
Qed.

(** The two bits tell whether an entry was notified and whether one can be. *)
Lemma notified_bit inner :
  inner_ok inner →
  N.land (flag_of inner) NOTIFIED = 0%N ↔ ∀ k, inner_view inner !! k ≠ Some None.
Proof.
  intros Hok. unfold flag_of.
  assert ((0 < slab_len (entries inner) - notifiable inner)%N ↔
          ∃ k, inner_view inner !! k = Some None) as Hlt.
  { rewrite <- size_wakers_lt, Hok, slab_view_len. unfold inner_view. lia. }
  destruct (N.ltb_spec 0 (slab_len (entries inner) - notifiable inner)) as [Hn|Hn];
    (destruct (0 <? notifiable inner)%N; simpl); split; try done;
    try (apply Hlt in Hn as [k Hk]; intros Hno; by destruct (Hno k));
    intros _ k Hk; assert (0 < slab_len (entries inner) - notifiable inner)%N
      by (apply Hlt; by exists k); lia.
Qed.

Lemma notifiable_bit inner :
  inner_ok inner →
  N.land (flag_of inner) NOTIFIABLE ≠ 0%N ↔ ∃ k w, waiting (inner_view inner) k w.
Proof.
  intros Hok. rewrite <- size_wakers_pos. unfold flag_of.
  destruct (N.ltb_spec 0 (notifiable inner)) as [Hn|Hn]; rewrite Hok in Hn;
    (destruct (0 <? slab_len (entries inner) - notifiable inner)%N; simpl); split; try done; lia.
Qed.

Lemma locked_bit inner : N.land (flag_of inner) LOCKED = 0%N.
Proof. unfold flag_of. by repeat case_match. Qed.

(** A method runs its body on the inner state and publishes the new flag. *)
Lemma locked_run {R} (body : Inner S → Act W (R * Inner S)) ws r inner l :
  ws_wf ws → body (ws_inner ws) = Done ((r, inner), l) → inner_ok inner →
  locked body ws = Done ((r, mkWakerSet (flag_of inner) inner), l).
Proof.
  intros [Hok Hflag] Hbody Hok'. unfold locked, lock, lock_round. simpl.
  rewrite Hflag, locked_bit. simpl. rewrite Hbody. simpl.
  rewrite Lock_drop_ok by done. simpl. by rewrite app_nil_r.
Qed.

Lemma ws_wf_of inner : inner_ok inner → ws_wf (mkWakerSet (flag_of inner) inner).
Proof. by split. Qed.

(** ** The bodies *)

Lemma insert_body_run w inner r l :
  inner_ok inner → insert_body w inner = Done (r, l) →
  inner_ok (snd r) ∧ l = [] ∧ inner_view inner !! fst r = None ∧
  inner_view (snd r) = <[fst r:=Some w]> (inner_view inner).
Proof.
  intros Hok Hb. unfold insert_body in Hb.
  destruct (slab_insert (entries inner) (Some w)) as [key es] eqn:Hi.
  apply slab_view_insert in Hi as [Hk Hv]. fold (inner_view inner) in Hk, Hv.
  apply eff_bind_done in Hb as (n & w1 & w2 & Hn & Hr & ->).
  apply eff_ret_done in Hr as [<- ->]. unfold usize_add in Hn.
  case_match; [|done]. apply eff_ret_done in Hn as [<- ->].
  split_and!; try done. simpl. unfold inner_ok, inner_view at 1. simpl.
  rewrite Hv, wakers_insert_Some, map_size_insert_None, Hok; [lia|].
  destruct (wakers (inner_view inner) !! key) eqn:Hw; [|done].
  apply lookup_wakers in Hw. unfold waiting in Hw. congruence.
Qed.

Lemma insert_body_total w inner :
  inner_ok inner → (N.of_nat (size (inner_view inner)) + 1 < usize_modulus)%N →
  ∃ r, insert_body w inner = Done (r, []).
Proof.
  intros Hok Hb. unfold insert_body. destruct (slab_insert _ _) as [key es].
  rewrite usize_add_ok; [eexists; reflexivity|].
  rewrite Hok. pose proof (size_wakers_le (inner_view inner)). lia.
Qed.

(** Removing an entry, whether or not it holds a waker. *)
Lemma remove_count inner es k o :
  inner_ok inner → inner_view inner !! k = Some o →
  slab_view es = delete k (inner_view inner) →
  match o with
  | Some _ => (1 ≤ notifiable inner)%N ∧ inner_ok (mkInner es (notifiable inner - 1))
  | None => inner_ok (mkInner es (notifiable inner))
  end.
Proof.
  intros Hok Hk Hv. unfold inner_ok, inner_view in *; simpl. rewrite Hv, Hok, wakers_delete.
  destruct o as [w|].
  - apply lookup_wakers in Hk as Hw.
    rewrite <- (insert_delete_id _ _ _ Hw) at 1 2.
    rewrite map_size_insert_None by apply lookup_delete_eq. lia.
  - by rewrite delete_id by by apply wakers_None.
Qed.

Lemma remove_body_run k inner :
  inner_ok inner → is_Some (inner_view inner !! k) →
  ∃ inner', remove_body k inner = Done ((tt, inner'), []) ∧ inner_ok inner' ∧
    inner_view inner' = delete k (inner_view inner).
Proof.
  intros Hok [o Hk]. unfold remove_body.
  destruct (slab_view_remove _ _ _ Hk) as (es & -> & Hv).
  pose proof (remove_count _ _ _ _ Hok Hk Hv) as Hc. simpl.
  destruct o as [w|]; [destruct Hc as [Hle Hc]; rewrite usize_sub_ok by done|];
    by eexists.
Qed.

(** ** The loops *)

(** Taking the waker of an entry. *)
Lemma take_count inner k w :
  inner_ok inner → waiting (inner_view inner) k w →
  let inner' := mkInner (slab_store (entries inner) k None) (notifiable inner - 1) in
  (1 ≤ notifiable inner)%N ∧ inner_ok inner' ∧
  inner_view inner' = <[k:=None]> (inner_view inner).
Proof.
  intros Hok Hk inner'. pose proof (size_wakers_take _ _ _ Hk) as Hs.
  assert (inner_view inner' = <[k:=None]> (inner_view inner)) as Hv.
  { unfold inner_view, inner'. simpl. apply slab_view_store. by eexists. }
  split_and!; [|unfold inner_ok; rewrite Hv|done]; unfold inner_ok in Hok;
    subst inner'; simpl in *; lia.
Qed.

(** [iter] is what is left of the iteration over the entries. *)
Definition to_visit (iter : list (nat * option W)) inner : Prop :=
  NoDup iter.*1 ∧ ∀ k o, (k, o) ∈ iter → inner_view inner !! k = Some o.

Lemma to_visit_here k o iter inner :
  to_visit ((k, o) :: iter) inner → inner_view inner !! k = Some o.
Proof. intros [_ Hv]. apply Hv. left. Qed.

Lemma to_visit_next k o iter inner inner' :
  to_visit ((k, o) :: iter) inner →
  (∀ k', k' ≠ k → inner_view inner' !! k' = inner_view inner !! k') →
  to_visit iter inner'.
Proof.
  intros [Hnd Hv] Heq. simpl in Hnd. inversion_clear Hnd as [|? ? Hk Hnd']; rename Hnd' into Hnd. split; [done|].
  intros k' o' Hin. rewrite Heq; [by apply Hv; right|].
  intros ->. apply Hk, list_elem_of_fmap. by exists (k, o').
Qed.

Lemma to_visit_all inner : to_visit (slab_iter (entries inner)) inner.
Proof.
  split.
  - rewrite slab_view_iter. apply NoDup_fst_map_to_list.
  - intros k o. rewrite slab_view_iter. apply elem_of_map_to_list.
Qed.

(** What is left of the loop of [notify] will do. *)
Definition notify_rest (n : Notify) (iter : list (nat * option W)) (kl : list (nat * W))
    inner' : Prop :=
  match n with
  | NotifyAny => length kl ≤ 1 ∧ (kl = [] → iter = [] ∨ ∃ k, (k, None) ∈ iter)
  | NotifyOne => length kl ≤ 1 ∧ (kl = [] → ∀ k w, (k, Some w) ∉ iter)
  | NotifyAll => ∀ k o, (k, o) ∈ iter → inner_view inner' !! k = Some None
  end.

Lemma notify_loop_run n iter inner b0 :
  inner_ok inner → to_visit iter inner →
  ∃ kl inner', notify_loop n iter inner b0 = Done ((b0 || bool_decide (kl ≠ []), inner'), kl.*2) ∧
    inner_ok inner' ∧ woke (inner_view inner) kl (inner_view inner') ∧
    notify_rest n iter kl inner'.
Proof.
  revert inner b0. induction iter as [|[k o] iter IH]; intros inner b0 Hok Hvis; simpl.
  { exists [], inner. rewrite orb_false_r. split_and!; try done; [constructor|].
    destruct n; simpl; [naive_solver lia|split; [lia|set_solver]|set_solver]. }
  pose proof (to_visit_here _ _ _ _ Hvis) as Hk. destruct o as [w|].
  - destruct (take_count _ _ _ Hok Hk) as (Hle & Hok' & Hv).
    rewrite usize_sub_ok by done. simpl.
    set (inner1 := mkInner _ _) in *.
    assert (woke (inner_view inner) [(k, w)] (inner_view inner1)) as Hw1
      by (rewrite Hv; repeat constructor; done).
    destruct (decide (n = NotifyOne)) as [->|H1]; simpl;
      [|destruct (decide (n = NotifyAny)) as [->|H2]; simpl].
    1, 2: exists [(k, w)], inner1; rewrite orb_true_r; split_and!; done.
    destruct (IH inner1 true Hok') as (kl & inner' & -> & Hok'' & Hw & Hr).
    { eapply to_visit_next; [done|]. intros k' Hk'. rewrite Hv. by apply lookup_insert_ne. }
    exists ((k, w) :: kl), inner'. rewrite orb_true_r.
    split_and!; [done|done|rewrite Hv in Hw; by constructor|].
    destruct n; [done..|]. simpl in *. intros k' o' [[= -> ->]|Hin]%elem_of_cons; [|by eapply Hr].
    eapply woke_None; [done|]. rewrite Hv. apply lookup_insert_eq.
  - destruct (decide (n = NotifyAny)) as [->|H2].
    { exists [], inner. rewrite orb_false_r. split_and!; try done; [constructor|].
      simpl. split; [lia|]. intros _. right. exists k. left. }
    destruct (IH inner b0 Hok) as (kl & inner' & -> & Hok'' & Hw & Hr).
    { by eapply to_visit_next. }
    exists kl, inner'. split_and!; [done..|]. destruct n; [done|simpl in *|simpl in *].
    + destruct Hr as [Hlen Hr]. split; [done|]. intros Hkl k' w' [?|Hin]%elem_of_cons; [done|].
      by eapply Hr.
    + intros k' o' [[= -> ->]|Hin]%elem_of_cons; [|by eapply Hr]. by eapply woke_None.
Qed.

(** The loop of [cancel] is that of [notify(Notify::One)]. *)
Lemma cancel_loop_notify iter inner :
  cancel_loop iter inner = notify_loop NotifyOne iter inner false.
Proof. revert inner. induction iter as [|[k [w|]] iter IH]; intros inner; simpl; eauto. Qed.

Lemma notify_body_run n inner :
  inner_ok inner →
  ∃ kl inner', notify_loop n (slab_iter (entries inner)) inner false =
      Done ((bool_decide (kl ≠ []), inner'), kl.*2) ∧
    inner_ok inner' ∧ notify_post n (inner_view inner) kl (inner_view inner').
Proof.
  intros Hok.
  destruct (notify_loop_run n _ inner false Hok (to_visit_all inner))
    as (kl & inner' & -> & Hok' & Hw & Hr).
  assert (∀ k o, (k, o) ∈ slab_iter (entries inner) ↔ inner_view inner !! k = Some o) as Hin.
  { intros k o. by rewrite slab_view_iter, elem_of_map_to_list. }
  exists kl, inner'. split_and!; [done..|]. split; [done|]. destruct n; simpl in Hr.
  - destruct Hr as [Hlen Hr]. split; [done|]. intros Hkl.
    destruct (Hr Hkl) as [He|[k Hk]]; [left|right; exists k; by apply Hin].
    apply map_empty. intros k. apply eq_None_not_Some. intros [o Hko%Hin].
    rewrite He in Hko. by apply not_elem_of_nil in Hko.
  - destruct Hr as [Hlen Hr]. split; [done|]. intros Hkl k w Hkw%Hin. by eapply Hr.
  - intros k w Hkw. pose proof (woke_back _ _ _ _ _ Hw Hkw) as Ho%Hin.
    apply Hr in Ho. unfold waiting in Hkw. congruence.
Qed.

Lemma cancel_body_run k o inner :
  inner_ok inner → inner_view inner !! k = Some o →
  ∃ kl inner', cancel_body k inner = Done ((bool_decide (kl ≠ []), inner'), kl.*2) ∧
    inner_ok inner' ∧
    match o with
    | Some _ => kl = [] ∧ inner_view inner' = delete k (inner_view inner)
    | None => notify_post NotifyOne (delete k (inner_view inner)) kl (inner_view inner')
    end.
Proof.
  intros Hok Hk. unfold cancel_body.
  destruct (slab_view_remove _ _ _ Hk) as (es & -> & Hv).
  pose proof (remove_count _ _ _ _ Hok Hk Hv) as Hc. simpl.
  destruct o as [w|]; [destruct Hc as [Hle Hc]; rewrite usize_sub_ok by done; simpl;
                       by exists [], (mkInner es (notifiable inner - 1)%N)|].
  destruct (notify_body_run NotifyOne _ Hc) as (kl & inner' & He & Hok' & Hp).
  simpl in He. rewrite cancel_loop_notify, He. exists kl, inner'.
  split_and!; [done..|]. unfold inner_view in *. simpl in Hp. by rewrite Hv in Hp.
Qed.
End Laws.

#[global] Instance WakerSet_Laws {W S : Type} `{SlabLaws S (option W)} :
  WakerSetLaws (WakerSet S) W.
Proof.
  refine {| wset_view ws := inner_view (ws_inner ws); wset_wf := ws_wf |}.
  - split; [split|]; unfold inner_ok, inner_view; simpl; rewrite ?slab_view_new; try done.
    unfold flag_of. simpl. by rewrite slab_view_len, slab_view_new.
  - intros w ws k ws' l [Hok Hf] Hi. unfold wset_insert in Hi. simpl in Hi.
    destruct (insert_body w (ws_inner ws)) as [[[k1 inner'] l1]| |] eqn:Hb;
      [|unfold insert, locked, lock, lock_round in Hi; simpl in Hi;
        rewrite Hf, locked_bit in Hi; simpl in Hi; by rewrite Hb in Hi..].
    destruct (insert_body_run _ _ _ _ Hok Hb) as (Hok' & -> & Hk & Hv). simpl in *.
    unfold insert in Hi. rewrite (locked_run _ _ _ _ _ (conj Hok Hf) Hb Hok') in Hi.
    simplify_eq. split_and!; [by apply ws_wf_of|done..].
  - intros w ws [Hok Hf] Hs. destruct (insert_body_total w _ Hok Hs) as [[k inner'] Hb].
    destruct (insert_body_run _ _ _ _ Hok Hb) as (Hok' & _).
    eexists. simpl. unfold insert. by apply locked_run.
  - intros k ws Hwf Hk. destruct (remove_body_run _ _ (proj1 Hwf) Hk) as (inner' & Hb & Hok' & Hv).
    exists (mkWakerSet (flag_of inner') inner'). simpl.
    split_and!; [by apply locked_run|by apply ws_wf_of|done].
  - intros k ws o Hwf Hk.
    destruct (cancel_body_run _ _ _ (proj1 Hwf) Hk) as (kl & inner' & Hb & Hok' & Hp).
    exists (mkWakerSet (flag_of inner') inner'), kl. simpl.
    split_and!; [by apply locked_run|by apply ws_wf_of|done].
  - intros ws [Hok Hf]. simpl. unfold any_wanted. rewrite Hf, andb_true_iff, N.eqb_eq.
    rewrite negb_true_iff, N.eqb_neq, notified_bit, notifiable_bit by done. tauto.
  - intros ws [Hok Hf]. simpl. unfold one_wanted.
    by rewrite Hf, negb_true_iff, N.eqb_neq, notifiable_bit.
  - intros n ws Hwf.
    destruct (notify_body_run n _ (proj1 Hwf)) as (kl & inner' & Hb & Hok' & Hp).
    exists (mkWakerSet (flag_of inner') inner'), kl. simpl.
    split_and!; [by apply (locked_run (notify_body n))|by apply ws_wf_of|done].
Defined.
