(* ===== verification/WakerClients.v ===== *)
(** What the clients of the waker set share: operations that hold the key of an
    entry ([opt_key]), and the bookkeeping of who owns which entry and who has
    been woken.  Operations are numbered, and the waker an operation leaves in
    an entry is its own number. *)

From stdpp Require Import gmap fin_maps.
From S2P Require Import Prelude WakerSet.

(** [keys_ok ks m]: [ks] says which operation owns which entry of [m]. *)
Record keys_ok (ks : gmap nat nat) (m : gmap nat (option nat)) : Prop := {
  keys_in o k : ks !! o = Some k → is_Some (m !! k);
  keys_inj o1 o2 k : ks !! o1 = Some k → ks !! o2 = Some k → o1 = o2;
  keys_owner k : is_Some (m !! k) → ∃ o, ks !! o = Some k;
  keys_self k w : waiting m k w → ks !! w = Some k
}.

(** An operation that sleeps although its entry was notified has been woken. *)
Definition woken_ok (ks : gmap nat nat) (m : gmap nat (option nat)) (asleep : nat → Prop)
    (woken : gset nat) : Prop :=
  ∀ o k, ks !! o = Some k → asleep o → m !! k = Some None → o ∈ woken.

Lemma no_wakes (wk : gset nat) : wk ∪ list_to_set [] = wk.
Proof. apply union_empty_r_L. Qed.

Section Keys.
Implicit Types (ks : gmap nat nat) (m : gmap nat (option nat)).

Lemma keys_empty : keys_ok ∅ ∅.
Proof.
  split; try (intros *; rewrite ?lookup_empty; naive_solver).
  intros k w Hw. unfold waiting in Hw. by rewrite lookup_empty in Hw.
Qed.

Lemma keys_insert ks m o k :
  keys_ok ks m → ks !! o = None → m !! k = None →
  keys_ok (<[o:=k]> ks) (<[k:=Some o]> m).
Proof.
  intros [Hin Hinj Hown Hself] Ho Hk.
  assert (∀ o', ks !! o' ≠ Some k) as Hfresh.
  { intros o' Ho'. apply Hin in Ho' as [? ?]. congruence. }
  split.
  - intros o' k' Hl. apply lookup_insert_Some in Hl as [[-> ->]|[Hne Hl]];
      [by rewrite lookup_insert_eq|]. rewrite lookup_insert_ne by naive_solver. eauto.
  - intros o1 o2 k' H1 H2. apply lookup_insert_Some in H1, H2. naive_solver.
  - intros k' Hk'. destruct (decide (k' = k)) as [->|Hne];
      [exists o; apply lookup_insert_eq|].
    rewrite lookup_insert_ne in Hk' by done. destruct (Hown k' Hk') as [o' Ho'].
    exists o'. rewrite lookup_insert_ne; [done|congruence].
  - intros k' w Hw. unfold waiting in *. apply lookup_insert_Some in Hw as [[-> [= ->]]|[Hne Hw]];
      [apply lookup_insert_eq|]. apply Hself in Hw. rewrite lookup_insert_ne; [done|congruence].
Qed.

Lemma keys_remove ks m o k :
  keys_ok ks m → ks !! o = Some k → keys_ok (delete o ks) (delete k m).
Proof.
  intros [Hin Hinj Hown Hself] Ho. split.
  - intros o' k' Hl. apply lookup_delete_Some in Hl as [Hne Hl].
    rewrite lookup_delete_ne by (intros ->; destruct Hne; eauto). eauto.
  - intros o1 o2 k' H1 H2. apply lookup_delete_Some in H1, H2. naive_solver.
  - intros k' [x Hk']. apply lookup_delete_Some in Hk' as [Hne Hk'].
    destruct (Hown k') as [o' Ho']; [by eexists|].
    exists o'. rewrite lookup_delete_ne; [done|congruence].
  - intros k' w Hw. unfold waiting in *. apply lookup_delete_Some in Hw as [Hne Hw].
    apply Hself in Hw. rewrite lookup_delete_ne; [done|congruence].
Qed.

Lemma keys_woke ks m l m' : keys_ok ks m → woke m l m' → keys_ok ks m'.
Proof.
  intros [Hin Hinj Hown Hself] Hw.
  assert (∀ k, is_Some (m' !! k) ↔ is_Some (m !! k)) as Hdom.
  { intros k. by rewrite <- !elem_of_dom, (woke_dom _ _ _ Hw). }
  split; [|done| |].
  - intros o k Hk. apply Hdom. eauto.
  - intros k Hk. apply Hown. by apply Hdom.
  - intros k w Hk. by eapply Hself, woke_back.
Qed.

(** The owner of an entry that was notified is among those woken. *)
Lemma woken_woke ks m l m' (asleep : nat → Prop) woken :
  keys_ok ks m → woke m l m' → woken_ok ks m asleep woken →
  woken_ok ks m' asleep (woken ∪ list_to_set l.*2).
Proof.
  intros Hks Hw Hok o k Ho Has Hk. rewrite (woke_lookup _ _ _ _ Hw) in Hk.
  apply elem_of_union. case_decide as Hkl; [right|left; eauto].
  apply list_elem_of_fmap in Hkl as [[k' w] [-> Hkl]].
  pose proof (keys_self _ _ Hks _ _ (woke_in _ _ _ _ _ Hw Hkl)) as Hw'.
  assert (o = w) as -> by (eapply keys_inj; eauto).
  apply elem_of_list_to_set, list_elem_of_fmap. by exists (k', w).
Qed.

Lemma woken_grow ks m (asleep : nat → Prop) woken woken' :
  woken ⊆ woken' → woken_ok ks m asleep woken → woken_ok ks m asleep woken'.
Proof. intros Hsub Hok o k Ho Has Hk. eauto. Qed.

(** An operation with a new entry has its waker there. *)
Lemma woken_insert ks m (asleep : nat → Prop) woken o k :
  keys_ok ks m → m !! k = None → woken_ok ks m asleep woken →
  woken_ok (<[o:=k]> ks) (<[k:=Some o]> m) asleep woken.
Proof.
  intros Hks Hk Hok o' k' Ho' Has Hk'. destruct (decide (k' = k)) as [->|Hne];
    [by rewrite lookup_insert_eq in Hk'|]. rewrite lookup_insert_ne in Hk' by done.
  apply lookup_insert_Some in Ho' as [[-> ->]|[_ Ho']]; [done|]. eauto.
Qed.

Lemma woken_remove ks m (asleep : nat → Prop) woken o k :
  woken_ok ks m asleep woken → woken_ok (delete o ks) (delete k m) asleep woken.
Proof.
  intros Hok o' k' [_ Ho']%lookup_delete_Some Has [_ Hk']%lookup_delete_Some. eauto.
Qed.

Lemma size_of_list (l : list nat) : size (list_to_set l : gset nat) ≤ length l.
Proof.
  induction l as [|x l IH]; simpl; [apply Nat.le_refl|].
  rewrite size_union_alt, size_singleton.
  pose proof (subseteq_size (list_to_set l ∖ {[x]} : gset nat) (list_to_set l)
    ltac:(set_solver)). lia.
Qed.

(** There are no more entries than operations. *)
Lemma keys_size ks m : keys_ok ks m → size m ≤ size ks.
Proof.
  intros Hks. rewrite <- (length_map_to_list ks), <- (length_fmap snd), <- (size_dom m).
  etrans; [|apply size_of_list]. apply subseteq_size. intros k [o Hk]%elem_of_dom.
  destruct (keys_owner _ _ Hks k) as [o' Ho']; [by eexists|].
  apply elem_of_list_to_set, list_elem_of_fmap. exists (o', k).
  by rewrite elem_of_map_to_list.
Qed.
End Keys.

(** * Operations *)

(** Replaces the state of the operation [o]; [None] when it is over. *)
Definition set_op {Pc : Type} (o : nat) (pc : option Pc) (ps : gmap nat Pc) : gmap nat Pc :=
  match pc with Some pc => <[o:=pc]> ps | None => delete o ps end.

Section Operations.
(** [key_of] is the entry an operation owns in a given waker set; [starting]
    tells that it is at the head of its loop and about to remove it. *)
Context {Pc : Type} (key_of : Pc → option nat) (starting : Pc → bool).
Implicit Types (ps : gmap nat Pc) (m : gmap nat (option nat)) (wk : gset nat).

Definition keys ps : gmap nat nat := omap key_of ps.

Definition registered ps (o : nat) : Prop := ∀ pc, ps !! o = Some pc → starting pc = false.

(** The entries of a waker set are those of the operations, and whoever was
    notified has been woken. *)
Definition tracked ps m wk : Prop :=
  keys_ok (keys ps) m ∧ woken_ok (keys ps) m (registered ps) wk.

Lemma set_op_ne o pc ps o' : o' ≠ o → set_op o pc ps !! o' = ps !! o'.
Proof. intros Hne. destruct pc; simpl; [by rewrite lookup_insert_ne|by rewrite lookup_delete_ne]. Qed.

Lemma set_op_eq o pc ps : set_op o pc ps !! o = pc.
Proof. destruct pc; simpl; [apply lookup_insert_eq|apply lookup_delete_eq]. Qed.

Lemma keys_at ps o : keys ps !! o = ps !! o ≫= key_of.
Proof. apply lookup_omap. Qed.

Lemma keys_lookup ps o pc : ps !! o = Some pc → keys ps !! o = key_of pc.
Proof. intros Ho. by rewrite keys_at, Ho. Qed.

Lemma keys_lookup_None ps o : ps !! o = None → keys ps !! o = None.
Proof. intros Ho. by rewrite keys_at, Ho. Qed.

Lemma keys_set o pc ps :
  keys (set_op o pc ps) = match pc ≫= key_of with
                          | Some k => <[o:=k]> (keys ps)
                          | None => delete o (keys ps)
                          end.
Proof.
  unfold keys. destruct pc as [pc|]; simpl; [rewrite omap_insert; by destruct (key_of pc)|].
  by rewrite omap_delete.
Qed.

Lemma keys_le ps : size (keys ps) ≤ size ps.
Proof.
  rewrite <- !size_dom. apply subseteq_size. intros o [k Hk]%elem_of_dom.
  rewrite keys_at in Hk. destruct (ps !! o) eqn:Ho; [|done]. apply elem_of_dom. by eexists.
Qed.

(** Only the operation [o] changed, and no entry became notified. *)
Lemma woken_frame ps o pc m m' wk wk' :
  (∀ k, m' !! k = Some None → m !! k = Some None) →
  wk ∖ {[o]} ⊆ wk' →
  (∀ k, pc ≫= key_of = Some k → registered (set_op o pc ps) o → m' !! k = Some None → o ∈ wk') →
  woken_ok (keys ps) m (registered ps) wk →
  woken_ok (keys (set_op o pc ps)) m' (registered (set_op o pc ps)) wk'.
Proof.
  intros Hm Hwk Ho Hok o' k Hk Hr Hmk. rewrite keys_at in Hk.
  destruct (decide (o' = o)) as [->|Hne]; [by rewrite set_op_eq in Hk; eauto|].
  rewrite set_op_ne in Hk by done.
  assert (o' ∈ wk); [|set_solver]. apply (Hok o' k); [by rewrite keys_at| |by apply Hm].
  intros pc' Hpc'. apply Hr. by rewrite set_op_ne.
Qed.

Lemma tracked_empty : tracked ∅ ∅ ∅.
Proof.
  split; [unfold keys; rewrite omap_empty; apply keys_empty|].
  intros o k Ho. unfold keys in Ho. by rewrite lookup_omap, lookup_empty in Ho.
Qed.

(** The waker set is unchanged: an operation that moves on with the key it
    has, one that starts a poll, one that has no key. *)
Lemma tracked_keep ps m wk wk' o pc pc' :
  tracked ps m wk → ps !! o = Some pc → starting pc = false →
  pc' ≫= key_of = key_of pc → wk ⊆ wk' → tracked (set_op o pc' ps) m wk'.
Proof.
  intros [Hks Hwk] Ho Hst Hk Hsub. pose proof (keys_lookup _ _ _ Ho) as Hko. split.
  - rewrite keys_set, Hk. destruct (key_of pc); [by rewrite insert_id|by rewrite delete_id].
  - eapply (woken_frame _ _ _ m _ wk); [done|set_solver| |exact Hwk]. intros k Hk' _ Hm.
    apply Hsub, (Hwk o k); [congruence|intros ? ?; congruence|done].
Qed.

Lemma tracked_start ps m wk wk' o pc :
  tracked ps m wk → keys ps !! o = key_of pc → starting pc = true → wk ∖ {[o]} ⊆ wk' →
  tracked (<[o:=pc]> ps) m wk'.
Proof.
  intros [Hks Hwk] Hk Hst Hsub. change (<[o:=pc]> ps) with (set_op o (Some pc) ps). split.
  - rewrite keys_set. simpl. destruct (key_of pc); [by rewrite insert_id|by rewrite delete_id].
  - eapply (woken_frame _ _ _ m _ wk); [done|done| |exact Hwk]. intros k _ Hr.
    specialize (Hr pc (set_op_eq o (Some pc) ps)). congruence.
Qed.

Lemma tracked_keyless ps m wk wk' o pc :
  tracked ps m wk → keys ps !! o = None → pc ≫= key_of = None → wk ∖ {[o]} ⊆ wk' →
  tracked (set_op o pc ps) m wk'.
Proof.
  intros [Hks Hwk] Hk Hpc Hsub. split.
  - rewrite keys_set, Hpc. by rewrite delete_id.
  - eapply (woken_frame _ _ _ m _ wk); [done|done| |exact Hwk]. congruence.
Qed.

Lemma tracked_no_key ps m wk wk' o pc pc' :
  tracked ps m wk → ps !! o = pc → pc ≫= key_of = None → pc' ≫= key_of = None →
  wk ∖ {[o]} ⊆ wk' → tracked (set_op o pc' ps) m wk'.
Proof. intros Htr Ho Hk. apply tracked_keyless; [done|]. by rewrite keys_at, Ho. Qed.

(** The waker set is used. *)
Lemma tracked_remove ps m wk wk' o k pc :
  tracked ps m wk → keys ps !! o = Some k → pc ≫= key_of = None → wk ∖ {[o]} ⊆ wk' →
  tracked (set_op o pc ps) (delete k m) wk'.
Proof.
  intros [Hks Hwk] Hk Hpc Hsub. split.
  - rewrite keys_set, Hpc. by apply keys_remove.
  - eapply (woken_frame _ _ _ m _ wk); [by intros ? [_ ?]%lookup_delete_Some|done| |exact Hwk]. congruence.
Qed.

Lemma tracked_insert ps m wk wk' o k pc :
  tracked ps m wk → keys ps !! o = None → m !! k = None → key_of pc = Some k →
  wk ∖ {[o]} ⊆ wk' → tracked (<[o:=pc]> ps) (<[k:=Some o]> m) wk'.
Proof.
  intros [Hks Hwk] Hk Hm Hpc Hsub. change (<[o:=pc]> ps) with (set_op o (Some pc) ps). split.
  - rewrite keys_set. simpl. rewrite Hpc. by apply keys_insert.
  - eapply (woken_frame _ _ _ m _ wk); [|done| |exact Hwk].
    + intros k' Hk'. apply lookup_insert_Some in Hk' as [[? ?]|[? ?]]; done.
    + simpl. rewrite Hpc. intros k' [= <-] _. by rewrite lookup_insert_eq.
Qed.

Lemma tracked_woke ps m l m' wk :
  tracked ps m wk → woke m l m' → tracked ps m' (wk ∪ list_to_set l.*2).
Proof. intros [Hks Hwk] Hw. split; [by eapply keys_woke|by eapply woken_woke]. Qed.

Lemma tracked_grow ps m wk wk' : tracked ps m wk → wk ⊆ wk' → tracked ps m wk'.
Proof. intros [Hks Hwk] Hsub. split; [done|by eapply woken_grow]. Qed.

Lemma tracked_in ps m wk o pc k :
  tracked ps m wk → ps !! o = Some pc → key_of pc = Some k → is_Some (m !! k).
Proof. intros [Hks _] Ho Hk. eapply (keys_in _ _ Hks o). by rewrite (keys_lookup _ _ _ Ho). Qed.

Lemma tracked_size ps m wk : tracked ps m wk → size m ≤ size ps.
Proof. intros [Hks _]. etrans; [by apply (keys_size _ _ Hks)|apply keys_le]. Qed.

(** The owner of an entry waits there, or has been woken. *)
Lemma tracked_entry ps m wk o pc k :
  tracked ps m wk → ps !! o = Some pc → key_of pc = Some k → starting pc = false →
  waiting m k o ∨ o ∈ wk.
Proof.
  intros [Hks Hwk] Ho Hk Hst. pose proof (keys_lookup _ _ _ Ho) as Hko. rewrite Hk in Hko.
  destruct (keys_in _ _ Hks _ _ Hko) as [[w|] Hx].
  - left. by rewrite (keys_inj _ _ Hks _ _ _ Hko (keys_self _ _ Hks _ _ Hx)).
  - right. apply (Hwk o k); [done|intros ? ?; congruence|done].
Qed.

(** Whose entry it is. *)
Lemma tracked_owner ps m wk k x :
  tracked ps m wk → m !! k = Some x →
  ∃ o pc, ps !! o = Some pc ∧ key_of pc = Some k ∧
    match x with
    | Some w => w = o
    | None => starting pc = false → o ∈ wk
    end.
Proof.
  intros [Hks Hwk] Hk. destruct (keys_owner _ _ Hks k) as [o Ho]; [by eexists|].
  pose proof Ho as Hko. rewrite keys_at in Ho.
  destruct (ps !! o) as [pc|] eqn:Hpc; [|done]. exists o, pc. split_and!; [done..|].
  destruct x as [w|].
  - eapply keys_inj; [done|by eapply keys_self|done].
  - intros Hst. apply (Hwk o k); [done|intros ? ?; congruence|done].
Qed.
End Operations.

(** Proves that an operation which does not touch a waker set is still tracked. *)
Ltac solve_tracked :=
  lazymatch goal with
  | |- tracked _ _ (<[?o:=?pc]> ?ps) ?m ?wk =>
      change (<[o:=pc]> ps) with (set_op o (Some pc) ps)
  | _ => idtac
  end;
  first
    [ eassumption
    | eapply tracked_no_key; [eassumption|eassumption|reflexivity|reflexivity|set_solver]
    | eapply tracked_no_key; [eassumption|eassumption|reflexivity|by repeat case_match|set_solver]
    | eapply tracked_keep; [eassumption|eassumption|reflexivity|reflexivity|set_solver]
    | eapply tracked_keep; [eassumption|eassumption|reflexivity|by repeat case_match|set_solver]
    | apply tracked_start; [eassumption|by apply keys_lookup|reflexivity|set_solver] ].

(** A notification leaves a notified entry behind, unless nobody waits. *)
Lemma notify_leaves n (m m' : gmap nat (option nat)) kl k w :
  n ≠ NotifyAll → notify_post n m kl m' → waiting m' k w → ∃ k', m' !! k' = Some None.
Proof.
  intros Hn [Hw Hp] Hk. destruct kl as [|[k1 w1] kl].
  - apply woke_empty in Hw as ->. destruct n; [|by destruct (proj2 Hp eq_refl k w)|done].
    destruct (proj2 Hp eq_refl) as [->|]; [|done]. unfold waiting in Hk. by rewrite lookup_empty in Hk.
  - exists k1. rewrite (woke_lookup _ _ _ _ Hw). rewrite decide_True; [done|left].
Qed.

(** When [notify_any] does not want to notify, nobody waits or somebody was
    notified already. *)
Lemma unwanted `{WakerSetLaws WS nat} (ws : WS) k w :
  wset_wf ws → wset_any_wanted ws = false → waiting (wset_view ws) k w →
  ∃ k', wset_view ws !! k' = Some None.
Proof.
  intros Hwf Hw Hk.
  destruct (decide (map_Exists (λ _ x, x = None) (wset_view ws))) as [(k' & x & Hx & ->)|Hno];
    [by exists k'|].
  assert (wset_any_wanted ws = true) as Ht; [|congruence].
  apply (wset_any_wanted_spec ws Hwf). split; [eauto|].
  intros k' Hkn. apply Hno. by exists k', None.
Qed.

(** * Counting operations *)

Section Count.
Context {Pc : Type} (P : Pc → bool).
Implicit Types (ps : gmap nat Pc).

(** The operations whose state satisfies [P]. *)
Definition count ps : nat := size (omap (λ pc, if P pc then Some () else None) ps).

Definition is_at (pc : option Pc) : nat := if pc is Some pc then Nat.b2n (P pc) else 0.

Lemma count_empty : count ∅ = 0.
Proof. unfold count. by rewrite omap_empty. Qed.

Lemma count_lookup ps o :
  omap (λ pc, if P pc then Some () else None) ps !! o =
  if decide (is_at (ps !! o) = 1) then Some () else None.
Proof.
  rewrite lookup_omap. destruct (ps !! o) as [pc|]; simpl; [|done]. by destruct (P pc).
Qed.

Lemma count_set ps o pc : count (set_op o pc ps) + is_at (ps !! o) = count ps + is_at pc.
Proof.
  unfold count.
  set (f := λ pc, if P pc then Some () else None).
  assert (omap f (set_op o pc ps) =
    if decide (is_at pc = 1) then <[o:=()]> (omap f ps) else delete o (omap f ps)) as ->.
  { destruct pc as [pc|]; simpl; [|by rewrite omap_delete].
    rewrite omap_insert. unfold f at 1. by destruct (P pc). }
  pose proof (count_lookup ps o) as Hl. fold f in Hl.
  assert (is_at (ps !! o) = 0 ∨ is_at (ps !! o) = 1) as Ho
    by (destruct (ps !! o) as [q|]; simpl; [destruct (P q)|]; simpl; lia).
  assert (is_at pc = 0 ∨ is_at pc = 1) as Hpc
    by (destruct pc as [q|]; simpl; [destruct (P q)|]; simpl; lia).
  destruct Ho as [Ho|Ho]; rewrite Ho in Hl; simpl in Hl;
    destruct Hpc as [Hpc|Hpc]; rewrite Ho, Hpc; simpl.
  - rewrite delete_id by done. lia.
  - rewrite map_size_insert_None by done. lia.
  - rewrite <- (insert_delete_id _ _ _ Hl) at 2.
    rewrite map_size_insert_None by apply lookup_delete_eq. lia.
  - rewrite insert_id by done. lia.
Qed.

Lemma count_pos ps o pc : ps !! o = Some pc → P pc = true → 1 ≤ count ps.
Proof.
  intros Ho HP. pose proof (count_set ps o None) as Hc. rewrite Ho in Hc. simpl in Hc.
  rewrite HP in Hc. simpl in Hc. lia.
Qed.

Lemma count_ex ps : 1 ≤ count ps → ∃ o pc, ps !! o = Some pc ∧ P pc = true.
Proof.
  unfold count. intros Hc.
  destruct (map_choose (omap (λ pc, if P pc then Some () else None) ps)) as (o & u & Ho).
  { intros He. rewrite He, map_size_empty in Hc. lia. }
  rewrite lookup_omap in Ho. destruct (ps !! o) as [pc|] eqn:Hpc; [|done]. simpl in Ho.
  exists o, pc. split; [done|]. by destruct (P pc).
Qed.

Lemma count_unique ps o1 o2 pc1 pc2 :
  count ps ≤ 1 → ps !! o1 = Some pc1 → ps !! o2 = Some pc2 →
  P pc1 = true → P pc2 = true → o1 = o2.
Proof.
  intros Hc H1 H2 HP1 HP2. destruct (decide (o1 = o2)) as [|Hne]; [done|].
  pose proof (count_set ps o1 None) as Hd. rewrite H1 in Hd. simpl in Hd. rewrite HP1 in Hd.
  assert (1 ≤ count (delete o1 ps)); [|simpl in *; lia].
  apply (count_pos _ o2 pc2); [by rewrite lookup_delete_ne|done].
Qed.

Lemma count_le ps : count ps ≤ size ps.
Proof.
  unfold count. rewrite <- !size_dom. apply subseteq_size. intros o [k Hk]%elem_of_dom.
  rewrite lookup_omap in Hk. destruct (ps !! o) eqn:Ho; [|done]. apply elem_of_dom. by eexists.
Qed.
End Count.
