(* ===== verification/Mutex.v ===== *)
(** The mutex of src/src/sync/mutex.rs.  [LockFuture_poll] and
    [MutexGuard_drop] are the methods as the code has them, run without
    interruption; [op_step] is the same code cut at its atomic operations, and
    [step] lets any number of operations interleave there.  The waker set is
    used through its interface only. *)

From stdpp Require Import gmap fin_maps relations.
From S2P Require Import Prelude WakerSet WakerClients.

Record Mutex (WS T : Type) : Type := mkMutex {
  locked : bool;
  wakers : WS;
  value : T
}.
Arguments mkMutex {WS T}.
Arguments locked {WS T}.
Arguments wakers {WS T}.
Arguments value {WS T}.

Section Mutex.
Context {T WS : Type} `{WakerSetOps WS nat}.
Implicit Types (mx : Mutex WS T) (o : nat).

(** * The methods *)

Definition Mutex_new (t : T) : Mutex WS T := mkMutex false wset_new t.

Definition with_wakers mx (ws : WS) : Mutex WS T := mkMutex (locked mx) ws (value mx).

(** [swap(true)], and whether a guard is returned. *)
Definition try_lock mx : bool * Mutex WS T :=
  (negb (locked mx), mkMutex true (wakers mx) (value mx)).

Definition into_inner mx : T := value mx.
Definition get_mut (v : T) mx : Mutex WS T := mkMutex (locked mx) (wakers mx) v.

(** One round of the loop of [LockFuture::poll], by the operation [o]. *)
Definition LockFuture_round (o : nat) (st : option nat * Mutex WS T) :
    Act nat ((option nat * Mutex WS T) + (Poll () * option nat * Mutex WS T)) :=
  let '(opt_key, mx) := st in
  mx ← match opt_key with
       | Some key => '(_, ws) ← wset_remove key (wakers mx); mret (with_wakers mx ws)
       | None => mret mx
       end;
  let '(guard, mx) := try_lock mx in
  if guard then mret (inr (Ready tt, None, mx))
  else
    '(key, ws) ← wset_insert o (wakers mx);
    let mx := with_wakers mx ws in
    if locked mx then mret (inr (Pending, Some key, mx))
    else mret (inl (Some key, mx)).

Definition LockFuture_poll (fuel : nat) (o : nat) (opt_key : option nat) mx :
    Act nat (Poll () * option nat * Mutex WS T) :=
  rust_loop (LockFuture_round o) fuel (opt_key, mx).

(** [LockFuture::drop]. *)
Definition LockFuture_drop (opt_key : option nat) mx : Act nat (Mutex WS T) :=
  match opt_key with
  | Some key => '(_, ws) ← wset_cancel key (wakers mx); mret (with_wakers mx ws)
  | None => mret mx
  end.

Definition wset_notify_any (ws : WS) : Act nat (bool * WS) :=
  if wset_any_wanted ws then wset_notify NotifyAny ws else mret (false, ws).

(** [MutexGuard::drop]. *)
Definition MutexGuard_drop mx : Act nat (Mutex WS T) :=
  let mx := mkMutex false (wakers mx) (value mx) in
  '(_, ws) ← wset_notify_any (wakers mx);
  mret (with_wakers mx ws).

(** * The atomic operations *)

(** Where an operation is. *)
Inductive Pc : Type :=
| Start (opt_key : option nat)   (* at the head of the loop *)
| TryLock                        (* about to swap *)
| Insert                         (* about to insert its waker *)
| Load (key : nat)               (* about to load [locked] again *)
| Parked (key : nat)             (* [poll] returned [Pending] *)
| Holding                        (* a guard *)
| Released                       (* [locked] stored, about to load the flag *)
| Notifying.                     (* about to run [notify(Notify::Any)] *)

(** The next atomic operation of an operation that is running; [None] when it
    is over. *)
Definition op_step (o : nat) (pc : Pc) mx : Act nat (option Pc * Mutex WS T) :=
  match pc with
  | Start None => mret (Some TryLock, mx)
  | Start (Some key) =>
      '(_, ws) ← wset_remove key (wakers mx);
      mret (Some TryLock, with_wakers mx ws)
  | TryLock =>
      let '(guard, mx) := try_lock mx in
      mret (Some (if guard then Holding else Insert), mx)
  | Insert =>
      '(key, ws) ← wset_insert o (wakers mx);
      mret (Some (Load key), with_wakers mx ws)
  | Load key => mret (Some (if locked mx then Parked key else Start (Some key)), mx)
  | Parked key => mret (Some (Parked key), mx)
  | Holding => mret (Some Holding, mx)
  | Released => mret (if wset_any_wanted (wakers mx) then Some Notifying else None, mx)
  | Notifying =>
      '(_, ws) ← wset_notify NotifyAny (wakers mx);
      mret (None, with_wakers mx ws)
  end.

Definition active (pc : Pc) : bool :=
  match pc with Parked _ | Holding => false | _ => true end.

(** The mutex, the operations on it, and those whose wakers have been called
    since they were last polled. *)
Record State : Type := mkState {
  mutex : Mutex WS T;
  ops : gmap nat Pc;
  woken : gset nat
}.

Inductive step : State → State → Prop :=
| step_run mx ps wk o pc pc' mx' l :
    ps !! o = Some pc → active pc = true → op_step o pc mx = Done ((pc', mx'), l) →
    step (mkState mx ps wk) (mkState mx' (set_op o pc' ps) (wk ∪ list_to_set l))
| step_lock mx ps wk o :          (* [mutex.lock()] *)
    ps !! o = None → step (mkState mx ps wk) (mkState mx (<[o:=Start None]> ps) (wk ∖ {[o]}))
| step_try_lock mx ps wk o guard mx' :   (* [mutex.try_lock()] *)
    ps !! o = None → try_lock mx = (guard, mx') →
    step (mkState mx ps wk) (mkState mx' (set_op o (if guard then Some Holding else None) ps) wk)
| step_poll mx ps wk o key :      (* woken or not *)
    ps !! o = Some (Parked key) →
    step (mkState mx ps wk) (mkState mx (<[o:=Start (Some key)]> ps) (wk ∖ {[o]}))
| step_cancel mx ps wk o key mx' l :     (* the future is dropped *)
    ps !! o = Some (Parked key) → LockFuture_drop (Some key) mx = Done (mx', l) →
    step (mkState mx ps wk) (mkState mx' (delete o ps) (wk ∪ list_to_set l))
| step_write mx ps wk o v :       (* through [deref_mut] *)
    ps !! o = Some Holding → step (mkState mx ps wk) (mkState (get_mut v mx) ps wk)
| step_unlock mx ps wk o :        (* the first half of [MutexGuard::drop] *)
    ps !! o = Some Holding →
    step (mkState mx ps wk) (mkState (mkMutex false (wakers mx) (value mx)) (<[o:=Released]> ps) wk).

Definition initial (t : T) : State := mkState (Mutex_new t) ∅ ∅.
Definition reachable (s : State) : Prop := ∃ t, rtc step (initial t) s.

(** * The invariant *)

Definition key_of (pc : Pc) : option nat :=
  match pc with
  | Start opt_key => opt_key
  | Load key | Parked key => Some key
  | _ => None
  end.

Definition starting (pc : Pc) : bool := if pc is Start _ then true else false.

Definition holders_ok (b : bool) (ps : gmap nat Pc) : Prop :=
  (b = true ↔ ∃ o, ps !! o = Some Holding) ∧
  ∀ o1 o2, ps !! o1 = Some Holding → ps !! o2 = Some Holding → o1 = o2.

(** When the mutex is free and an operation waits, either one has been notified
    already or an operation is at work that will do it. *)
Definition wake_ok (b : bool) (m : gmap nat (option nat)) (ps : gmap nat Pc) : Prop :=
  b = false → (∃ k w, waiting m k w) →
  (∃ k, m !! k = Some None) ∨ ∃ o pc, ps !! o = Some pc ∧ active pc = true.
End Mutex.

Section Invariant.
Context {T WS : Type} `{WakerSetLaws WS nat}.
Implicit Types (mx : Mutex WS T) (ps : gmap nat Pc) (s : State (T:=T) (WS:=WS)).

Definition view mx : gmap nat (option nat) := wset_view (wakers mx).

Record Inv s : Prop := {
  inv_wf : wset_wf (wakers (mutex s));
  inv_tracked : tracked key_of starting (ops s) (view (mutex s)) (woken s);
  inv_holders : holders_ok (locked (mutex s)) (ops s);
  inv_wake : wake_ok (locked (mutex s)) (view (mutex s)) (ops s)
}.

(** ** Who holds the lock *)

Lemma holders_set b ps o pc :
  ps !! o ≠ Some Holding → pc ≠ Some Holding → holders_ok b ps → holders_ok b (set_op o pc ps).
Proof.
  intros Ho Hpc [Hb Hone].
  assert (∀ o', set_op o pc ps !! o' = Some Holding ↔ ps !! o' = Some Holding) as Heq.
  { intros o'. destruct (decide (o' = o)) as [->|Hne];
      [by rewrite set_op_eq|by rewrite set_op_ne]. }
  split; [setoid_rewrite Heq; done|]. intros o1 o2 H1%Heq H2%Heq. eauto.
Qed.

Lemma holders_acquire ps o :
  holders_ok false ps → holders_ok true (<[o:=Holding]> ps).
Proof.
  intros [[_ Hb] _].
  assert (∀ o', <[o:=Holding]> ps !! o' = Some Holding → o' = o) as Hone.
  { intros o' Ho'. destruct (decide (o' = o)) as [|Hne]; [done|].
    rewrite lookup_insert_ne in Ho' by done. by assert (false = true) by eauto. }
  split; [split; [|done]; intros _; exists o; apply lookup_insert_eq|].
  intros o1 o2 ->%Hone ->%Hone. done.
Qed.

Lemma holders_release ps o pc :
  ps !! o = Some Holding → pc ≠ Holding → holders_ok true ps →
  holders_ok false (<[o:=pc]> ps).
Proof.
  intros Ho Hpc [_ Hone].
  assert (∀ o', <[o:=pc]> ps !! o' ≠ Some Holding) as Hno.
  { intros o' Ho'. destruct (decide (o' = o)) as [->|Hne];
      [rewrite lookup_insert_eq in Ho'; naive_solver|].
    rewrite lookup_insert_ne in Ho' by done. by destruct Hne; eauto. }
  split; [split; [done|intros [o' Ho']; by destruct (Hno o')]|].
  intros o1 o2 H1. by destruct (Hno o1).
Qed.

Lemma holders_held ps o : ps !! o = Some Holding → ∀ b, holders_ok b ps → b = true.
Proof. intros Ho b [Hb _]. apply Hb. by exists o. Qed.

(** ** Somebody will be woken *)

(** Whatever happened, an operation at work will see to it. *)
Lemma wake_active_set b m ps o pc : active pc = true → wake_ok b m (<[o:=pc]> ps).
Proof. intros Hpc _ _. right. exists o, pc. by rewrite lookup_insert_eq. Qed.

Lemma wake_locked m ps : wake_ok true m ps.
Proof. done. Qed.

Lemma wake_notify b n m kl m' ps :
  n ≠ NotifyAll → notify_post n m kl m' → wake_ok b m' ps.
Proof. intros Hn Hp _ (k & w & Hk). left. by eapply notify_leaves. Qed.

(** Somebody who merely waited has gone. *)
Lemma wake_delete b m ps o k pc0 w :
  ps !! o = Some pc0 → active pc0 = false → m !! k = Some (Some w) →
  wake_ok b m ps → wake_ok b (delete k m) (delete o ps).
Proof.
  intros Ho Hpc Hk Hok Hb (k' & w' & Hk'). unfold waiting in Hk'.
  apply lookup_delete_Some in Hk' as [Hne Hk'].
  destruct Hok as [[k1 Hk1]|(o1 & pc1 & Ho1 & Hpc1)]; [done|by exists k', w'|left|right].
  - exists k1. rewrite lookup_delete_ne; [done|congruence].
  - exists o1, pc1. rewrite lookup_delete_ne; [done|congruence].
Qed.
End Invariant.

#[export] Hint Resolve wake_active_set wake_locked : async.

Section Preservation.
Context {T WS : Type} `{WakerSetLaws WS nat}.
Implicit Types (mx : Mutex WS T) (ps : gmap nat Pc) (s : State (T:=T) (WS:=WS)).

Lemma initial_Inv (t : T) : Inv (initial t).
Proof.
  destruct wset_new_spec as [Hwf Hv].
  split; unfold view; simpl; rewrite ?Hv; [done|apply tracked_empty|..].
  - split; [split; [done|]|]; setoid_rewrite lookup_empty; naive_solver.
  - intros _ (k & w & Hk). unfold waiting in Hk. by rewrite lookup_empty in Hk.
Qed.

(** [self.opt_key.take()], and [remove]. *)
Lemma Inv_start mx ps wk o opt_key pc' mx' l :
  Inv (mkState mx ps wk) → ps !! o = Some (Start opt_key) →
  op_step o (Start opt_key) mx = Done ((pc', mx'), l) →
  Inv (mkState mx' (set_op o pc' ps) (wk ∪ list_to_set l)).
Proof.
  intros [Hwf Htr Hho Hwa] Ho Hs. simpl in *.
  pose proof (keys_lookup key_of _ _ _ Ho) as Hk.
  assert (holders_ok (locked mx) (set_op o (Some TryLock) ps)) as Hho'
    by (apply holders_set; [by rewrite Ho|done..]).
  destruct opt_key as [key|]; simpl in *.
  - destruct (wset_remove_spec key (wakers mx) Hwf) as (ws' & Hr & Hwf' & Hv);
      [by eapply tracked_in|].
    rewrite Hr in Hs. simpl in Hs. simplify_eq.
    split; unfold view; simpl; rewrite ?Hv; eauto with async.
    eapply (tracked_remove _ _ ps _ wk _ o key (Some TryLock)); [done..|set_solver].
  - apply eff_ret_done in Hs as [Hs ->]. simplify_eq. split; simpl; eauto with async.
    eapply (tracked_keyless _ _ ps _ wk _ o (Some TryLock)); [done..|set_solver].
Qed.

(** [swap], by a [poll] or by the caller of [try_lock]. *)
Lemma Inv_swap mx ps wk o (pc' : bool → option Pc) guard mx' :
  Inv (mkState mx ps wk) → keys key_of ps !! o = None → ps !! o ≠ Some Holding →
  pc' true = Some Holding → pc' false ≫= key_of = None → pc' false ≠ Some Holding →
  try_lock mx = (guard, mx') →
  Inv (mkState mx' (set_op o (pc' guard) ps) wk).
Proof.
  intros [Hwf Htr Hho Hwa] Hk Ho Ht Hf Hf' Hs. simpl in *.
  unfold try_lock in Hs. injection Hs as <- <-.
  split; simpl; eauto with async.
  - eapply tracked_keyless; [done..| |set_solver].
    destruct (locked mx); simpl; [done|by rewrite Ht].
  - destruct (locked mx); simpl; [by apply holders_set|]. rewrite Ht. by apply holders_acquire.
Qed.

Lemma Inv_insert mx ps wk o pc' mx' l :
  Inv (mkState mx ps wk) → ps !! o = Some Insert →
  op_step o Insert mx = Done ((pc', mx'), l) →
  Inv (mkState mx' (set_op o pc' ps) (wk ∪ list_to_set l)).
Proof.
  intros [Hwf Htr Hho Hwa] Ho Hs. simpl in *.
  apply eff_bind_done in Hs as ([key ws] & w1 & w2 & Hi & Hr & ->).
  apply eff_ret_done in Hr as [Hr ->]. simplify_eq.
  destruct (wset_insert_spec _ _ _ _ _ Hwf Hi) as (Hwf' & -> & Hkey & Hv).
  split; unfold view; simpl; rewrite ?Hv; eauto with async.
  - eapply tracked_insert; [done|by apply (keys_lookup key_of) in Ho|done..|set_solver].
  - by apply (holders_set _ _ _ (Some (Load key))); [rewrite Ho|..].
Qed.

(** The second load of [locked]. *)
Lemma Inv_load mx ps wk o key :
  Inv (mkState mx ps wk) → ps !! o = Some (Load key) →
  Inv (mkState mx (<[o:=if locked mx then Parked key else Start (Some key)]> ps) wk).
Proof.
  intros [Hwf Htr Hho Hwa] Ho. simpl in *. split; simpl; [done|..].
  - eapply (tracked_keep _ _ _ _ wk _ _ _ (Some _) Htr Ho); [done|by destruct (locked mx)|done].
  - apply (holders_set _ _ _ (Some _)); [by rewrite Ho|by destruct (locked mx)|done].
  - destruct (locked mx) eqn:Hl; auto with async.
Qed.

(** The end of [MutexGuard::drop]. *)
Lemma Inv_released mx ps wk o :
  Inv (mkState mx ps wk) → ps !! o = Some Released →
  Inv (mkState mx
    (set_op o (if wset_any_wanted (wakers mx) then Some Notifying else None) ps) wk).
Proof.
  intros [Hwf Htr Hho Hwa] Ho. simpl in *. split; simpl; [done|..].
  - eapply tracked_keep; [done..|by case_match|done].
  - apply holders_set; [by rewrite Ho|by case_match|done].
  - destruct (wset_any_wanted (wakers mx)) eqn:Hw; simpl; [by apply wake_active_set|].
    intros _ (k & w & Hkw). left. by eapply unwanted.
Qed.

(** A notification, or a cancellation that notifies somebody else. *)
Lemma Inv_notified mx ws ps wk o n m kl :
  tracked key_of starting (delete o ps) m wk →
  holders_ok (locked mx) ps → ps !! o ≠ Some Holding → n ≠ NotifyAll →
  wset_wf ws → notify_post n m kl (wset_view ws) →
  Inv (mkState (with_wakers mx ws) (delete o ps) (wk ∪ list_to_set kl.*2)).
Proof.
  intros Htr Hho Ho Hn Hwf Hp. pose proof Hp as [Hw _].
  split; simpl; [done|by eapply tracked_woke|by apply (holders_set _ _ _ None)|].
  by eapply wake_notify.
Qed.

Lemma Inv_step_run mx ps wk o pc pc' mx' l :
  Inv (mkState mx ps wk) → ps !! o = Some pc → active pc = true →
  op_step o pc mx = Done ((pc', mx'), l) →
  Inv (mkState mx' (set_op o pc' ps) (wk ∪ list_to_set l)).
Proof.
  intros HI Ho Hact Hs. pose proof (keys_lookup key_of _ _ _ Ho) as Hk.
  destruct pc as [opt_key| | |key|key| | |]; try discriminate Hact.
  - by eapply Inv_start.
  - unfold op_step in Hs. destruct (try_lock mx) as [guard mx1] eqn:Ht.
    apply eff_ret_done in Hs as [[= <- <-] ->]. rewrite no_wakes.
    by apply (Inv_swap mx ps wk o (λ g : bool, Some (if g then Holding else Insert)) guard);
      [..|rewrite Ho| | | |].
  - by eapply Inv_insert.
  - apply eff_ret_done in Hs as [Hs ->]. simplify_eq. rewrite no_wakes. by apply Inv_load.
  - apply eff_ret_done in Hs as [Hs ->]. simplify_eq. rewrite no_wakes. by apply Inv_released.
  - destruct HI as [Hwf Htr Hho Hwa]. simpl in *.
    destruct (wset_notify_spec NotifyAny (wakers mx) Hwf) as (ws & kl & Hn & Hwf' & Hp).
    rewrite Hn in Hs. simpl in Hs. simplify_eq. rewrite app_nil_r.
    eapply (Inv_notified _ _ _ _ _ NotifyAny); [|done|by rewrite Ho|done..].
    by apply (tracked_keyless _ _ ps _ wk _ o None); [..|set_solver].
Qed.

(** [LockFuture::drop] on an operation that is parked. *)
Lemma Inv_cancel mx ps wk o key mx' l :
  Inv (mkState mx ps wk) → ps !! o = Some (Parked key) →
  LockFuture_drop (Some key) mx = Done (mx', l) →
  Inv (mkState mx' (delete o ps) (wk ∪ list_to_set l)).
Proof.
  intros [Hwf Htr Hho Hwa] Ho Hd. simpl in *.
  destruct (tracked_in _ _ _ _ _ _ _ key Htr Ho) as [x Hx]; [done|].
  destruct (wset_cancel_spec key (wakers mx) x Hwf Hx) as (ws & kl & Hc & Hwf' & Hp).
  rewrite Hc in Hd. simpl in Hd. simplify_eq. rewrite app_nil_r.
  assert (tracked key_of starting (delete o ps) (delete key (view mx)) wk) as Htr'.
  { apply (tracked_remove _ _ ps _ wk _ o key None); [done| |done|set_solver].
    by apply (keys_lookup key_of) in Ho. }
  destruct x as [w|].
  - destruct Hp as [-> Hv]. rewrite no_wakes.
    split; unfold view; simpl; rewrite ?Hv; [done..| |by eapply wake_delete].
    apply (holders_set _ _ _ None); [by rewrite Ho|done..].
  - eapply Inv_notified; [exact Htr'|done|by rewrite Ho| |done|exact Hp]. done.
Qed.

(** An operation starts a poll. *)
Lemma Inv_start_poll mx ps wk o opt_key :
  Inv (mkState mx ps wk) → keys key_of ps !! o = opt_key → ps !! o ≠ Some Holding →
  Inv (mkState mx (<[o:=Start opt_key]> ps) (wk ∖ {[o]})).
Proof.
  intros [Hwf Htr Hho Hwa] Hk Ho. split; simpl in *; auto with async.
  - by eapply tracked_start.
  - by apply (holders_set _ _ _ (Some (Start opt_key))).
Qed.

Lemma Inv_step s s' : Inv s → step s s' → Inv s'.
Proof.
  intros HI Hs. destruct Hs as [mx ps wk o pc pc' mx' l Ho Hact Hrun|mx ps wk o Ho
    |mx ps wk o guard mx' Ho Ht|mx ps wk o key Ho|mx ps wk o key mx' l Ho Hd
    |mx ps wk o v Ho|mx ps wk o Ho].
  - by eapply Inv_step_run.
  - apply Inv_start_poll; [done|by apply keys_lookup_None|by rewrite Ho].
  - by apply (Inv_swap mx ps wk o (λ g : bool, if g then Some Holding else None) guard);
      [..|apply keys_lookup_None|rewrite Ho| | | |].
  - apply Inv_start_poll; [done|by apply (keys_lookup key_of) in Ho|by rewrite Ho].
  - by eapply Inv_cancel.
  - destruct HI. by split.
  - destruct HI as [Hwf Htr Hho Hwa]. split; simpl in *; auto with async.
    + by apply (tracked_keep _ _ _ _ wk _ _ _ (Some Released) Htr Ho).
    + apply holders_release; [done..|]. by rewrite <- (holders_held _ _ Ho _ Hho).
Qed.

Lemma reachable_Inv s : reachable s → Inv s.
Proof.
  intros [t Hs]. remember (initial t) as s0 eqn:He. pose proof (initial_Inv t) as HI.
  rewrite <- He in HI. clear He. induction Hs as [|s1 s2 s3 H12 _ IH]; [done|].
  apply IH. by eapply Inv_step.
Qed.
End Preservation.

(** * The methods are runs of the atomic operations *)

Section Methods.
Context {T WS : Type} `{WakerSetLaws WS nat}.
Implicit Types (mx : Mutex WS T) (ps : gmap nat Pc) (s : State (T:=T) (WS:=WS)).

(** Where an operation is after a poll. *)
Definition poll_pc (r : Poll ()) (opt_key : option nat) : Pc :=
  match r, opt_key with
  | Ready _, _ => Holding
  | Pending, Some key => Parked key
  | Pending, None => Start None
  end.

Lemma steps_run mx ps wk o pc pc' mx' l s' :
  active pc = true → op_step o pc mx = Done ((Some pc', mx'), l) →
  rtc step (mkState mx' (<[o:=pc']> ps) (wk ∪ list_to_set l)) s' →
  rtc step (mkState mx (<[o:=pc]> ps) wk) s'.
Proof.
  intros Hact Hs Hr. eapply rtc_l; [|exact Hr].
  rewrite <- (insert_insert_eq ps o pc' pc).
  eapply (step_run _ _ _ o pc (Some pc')); [apply lookup_insert_eq|done..].
Qed.

Lemma steps_end mx ps wk o pc mx' l :
  active pc = true → op_step o pc mx = Done ((None, mx'), l) →
  rtc step (mkState mx (<[o:=pc]> ps) wk) (mkState mx' (delete o ps) (wk ∪ list_to_set l)).
Proof.
  intros Hact Hs. apply rtc_once. rewrite <- (delete_insert_eq ps o pc).
  eapply (step_run _ _ _ o pc None); [apply lookup_insert_eq|done..].
Qed.

(** What a round of the loop does, step by step. *)
Lemma LockFuture_round_steps mx ps wk o opt_key r l :
  LockFuture_round o (opt_key, mx) = Done (r, l) →
  rtc step (mkState mx (<[o:=Start opt_key]> ps) wk)
    match r with
    | inl (opt_key', mx') => mkState mx' (<[o:=Start opt_key']> ps) (wk ∪ list_to_set l)
    | inr (p, opt_key', mx') => mkState mx' (<[o:=poll_pc p opt_key']> ps) (wk ∪ list_to_set l)
    end.
Proof.
  unfold LockFuture_round. intros Hr.
  apply eff_bind_done in Hr as (mx1 & l1 & l2 & H1 & Hr & ->).
  assert (op_step o (Start opt_key) mx = Done ((Some TryLock, mx1), l1)) as Hstart.
  { destruct opt_key as [key|]; simpl in *; [|by apply eff_ret_done in H1 as [<- ->]].
    apply eff_bind_done in H1 as ([u ws] & w1 & w2 & -> & Hm & ->). simpl.
    apply eff_ret_done in Hm as [<- ->]. done. }
  eapply steps_run; [done|exact Hstart|]. clear Hstart H1.
  rewrite list_to_set_app_L, (assoc_L _ wk). generalize (wk ∪ list_to_set l1). clear wk.
  intros wk. eapply steps_run; [done|reflexivity|]. rewrite no_wakes.
  unfold try_lock in Hr. destruct (locked mx1) eqn:Hl; simpl in Hr |- *.
  2: { apply eff_ret_done in Hr as [<- ->]. simpl. by rewrite no_wakes. }
  apply eff_bind_done in Hr as ([key ws] & w1 & w2 & Hi & Hr & ->). simpl in *.
  apply eff_ret_done in Hr as [<- ->]. rewrite app_nil_r. simpl.
  eapply steps_run; [done|simpl; rewrite Hi; reflexivity|].
  eapply steps_run; [done|reflexivity|]. simpl. by rewrite app_nil_r, no_wakes.
Qed.

Lemma LockFuture_poll_steps n o mx ps wk opt_key p opt_key' mx' l :
  LockFuture_poll n o opt_key mx = Done ((p, opt_key', mx'), l) →
  rtc step (mkState mx (<[o:=Start opt_key]> ps) wk)
    (mkState mx' (<[o:=poll_pc p opt_key']> ps) (wk ∪ list_to_set l)).
Proof.
  unfold LockFuture_poll. revert mx opt_key wk l.
  induction n as [|n IH]; intros mx opt_key wk l Hp; [discriminate|].
  apply eff_bind_done in Hp as (r & l1 & l2 & Hr & Hp & ->).
  pose proof (LockFuture_round_steps mx ps wk o opt_key r l1 Hr) as Hsteps.
  destruct r as [[opt_key1 mx1]|[[p1 opt_key1] mx1]].
  - etrans; [exact Hsteps|]. rewrite list_to_set_app_L, (assoc_L _ wk). by apply IH.
  - apply eff_ret_done in Hp as [[= -> -> ->] ->]. by rewrite app_nil_r.
Qed.

Lemma MutexGuard_drop_steps o mx ps wk mx' l :
  ps !! o = Some Holding → MutexGuard_drop mx = Done (mx', l) →
  rtc step (mkState mx ps wk) (mkState mx' (delete o ps) (wk ∪ list_to_set l)).
Proof.
  intros Ho Hd. unfold MutexGuard_drop in Hd. simpl in Hd.
  apply eff_bind_done in Hd as ([b ws] & l1 & l2 & Hn & Hm & ->).
  apply eff_ret_done in Hm as [<- ->]. rewrite app_nil_r.
  eapply rtc_l; [by apply step_unlock with (o:=o)|].
  unfold wset_notify_any in Hn. destruct (wset_any_wanted (wakers mx)) eqn:Hw.
  - eapply steps_run; [done|simpl; rewrite Hw; reflexivity|]. rewrite no_wakes.
    apply steps_end; [done|]. simpl. rewrite Hn. simpl. by rewrite app_nil_r.
  - apply eff_ret_done in Hn as [[= <- <-] ->].
    apply steps_end; [done|]. simpl. rewrite Hw. done.
Qed.
End Methods.

(** * Schedules *)

(** The steps, named: [exec] plays them. *)
Inductive Ev (T : Type) : Type :=
| EvRun (o : nat) | EvLock (o : nat) | EvTryLock (o : nat) | EvPoll (o : nat)
| EvCancel (o : nat) | EvWrite (o : nat) (v : T) | EvUnlock (o : nat).
Arguments EvRun {T} _.
Arguments EvLock {T} _.
Arguments EvTryLock {T} _.
Arguments EvPoll {T} _.
Arguments EvCancel {T} _.
Arguments EvWrite {T} _ _.
Arguments EvUnlock {T} _.

Section Schedules.
Context {T WS : Type} `{WakerSetOps WS nat}.
Implicit Types (s : State (T:=T) (WS:=WS)).

Definition exec (e : Ev T) (s : State (T:=T) (WS:=WS)) : option (State (T:=T) (WS:=WS)) :=
  let '(mkState mx ps wk) := s in
  match e with
  | EvRun o =>
      pc ← ps !! o;
      if active pc then
        match op_step o pc mx with
        | Done ((pc', mx'), l) => Some (mkState mx' (set_op o pc' ps) (wk ∪ list_to_set l))
        | _ => None
        end
      else None
  | EvLock o =>
      if ps !! o is None then Some (mkState mx (<[o:=Start None]> ps) (wk ∖ {[o]})) else None
  | EvTryLock o =>
      if ps !! o is None then
        let '(guard, mx') := try_lock mx in
        Some (mkState mx' (set_op o (if guard then Some Holding else None) ps) wk)
      else None
  | EvPoll o =>
      if ps !! o is Some (Parked key)
      then Some (mkState mx (<[o:=Start (Some key)]> ps) (wk ∖ {[o]})) else None
  | EvCancel o =>
      if ps !! o is Some (Parked key) then
        match LockFuture_drop (Some key) mx with
        | Done (mx', l) => Some (mkState mx' (delete o ps) (wk ∪ list_to_set l))
        | _ => None
        end
      else None
  | EvWrite o v =>
      if ps !! o is Some Holding then Some (mkState (get_mut v mx) ps wk) else None
  | EvUnlock o =>
      if ps !! o is Some Holding
      then Some (mkState (mkMutex false (wakers mx) (value mx)) (<[o:=Released]> ps) wk) else None
  end.

Fixpoint exec_all (es : list (Ev T)) (s : State (T:=T) (WS:=WS)) : option (State (T:=T) (WS:=WS)) :=
  match es with
  | [] => Some s
  | e :: es => s' ← exec e s; exec_all es s'
  end.

Lemma exec_step e s s' : exec e s = Some s' → step s s'.
Proof.
  destruct s as [mx ps wk]. intros He.
  destruct e; simpl in He; destruct (ps !! o) as [pc|] eqn:Ho; simpl in He; try discriminate He;
    try (destruct pc; discriminate He).
  - destruct (active pc) eqn:Ha; [|done]. destruct (op_step o pc mx) as [[[pc' mx'] l]| |] eqn:Hs;
      simplify_eq. by eapply step_run.
  - simplify_eq. by apply step_lock.
  - destruct (try_lock mx) as [guard mx'] eqn:Ht. injection He as <-. by eapply step_try_lock.
  - destruct pc; simplify_eq. by apply step_poll.
  - destruct pc; try done.
    destruct (wset_cancel key (wakers mx)) as [[[b ws] l]| |] eqn:Hd; simpl in He; simplify_eq.
    eapply step_cancel; [done|]. simpl. by rewrite Hd.
  - destruct pc; simplify_eq. by apply step_write with (o:=o).
  - destruct pc; simplify_eq. by apply step_unlock.
Qed.

Lemma exec_all_steps es s s' : exec_all es s = Some s' → rtc step s s'.
Proof.
  revert s. induction es as [|e es IH]; intros s He; simpl in He; [by simplify_eq|].
  destruct (exec e s) as [s1|] eqn:H1; [|done]. eapply rtc_l; [by eapply exec_step|by apply IH].
Qed.

Lemma exec_reachable (t : T) es s : exec_all es (initial t) = Some s → reachable s.
Proof. intros He. exists t. by eapply exec_all_steps. Qed.
End Schedules.
