(* ===== verification/MutexSpec.v ===== *)
(** What the mutex guarantees in every interleaving: mutual exclusion, no lost
    wakeup, no panic, and what an uninterrupted poll does. *)

From stdpp Require Import gmap fin_maps relations.
From S2P Require Import Prelude WakerSet WakerClients Mutex.

Section Theorems.
Context {T WS : Type} `{WakerSetLaws WS nat}.
Implicit Types (mx : Mutex WS T) (s : State (T:=T) (WS:=WS)).

(** C1 Mutual exclusion of [Mutex], whatever the interleaving of [lock],
    [try_lock], polls, cancellations and unlocks: [locked] is set exactly when
    some operation holds a guard, at most one does, and only the holder of the
    guard changes the protected value. *)
Theorem mutex_exclusion s :
    reachable s →
    (locked (mutex s) = true ↔ ∃ o, ops s !! o = Some Holding) ∧
    (∀ o1 o2, ops s !! o1 = Some Holding → ops s !! o2 = Some Holding → o1 = o2) ∧
    ∀ s', step s s' → value (mutex s') ≠ value (mutex s) →
      ∃ o, ops s !! o = Some Holding ∧ ops s' !! o = Some Holding.
Proof.
  intros HI%reachable_Inv. destruct (inv_holders _ HI) as [Hl Hone].
  split_and!; [done..|]. intros s' Hs Hv.
  destruct Hs as [mx ps wk o pc pc' mx' l Ho Hact Hrun|mx ps wk o Ho
    |mx ps wk o guard mx' Ho Ht|mx ps wk o key Ho|mx ps wk o key mx' l Ho Hd
    |mx ps wk o v Ho|mx ps wk o Ho]; simpl in *; try done; [| | |by exists o].
  - destruct Hv. destruct pc as [[]| | | | | | |]; simpl in Hrun; inv_eff; done.
  - destruct Hv. unfold try_lock in Ht. by simplify_eq.
  - destruct Hv. unfold LockFuture_drop in Hd. inv_eff. done.
Qed.

(** C2 No wakeup of [Mutex] is lost: while the mutex is free and some [lock()]
    is parked, some parked operation has had its waker called, or some
    operation is still in the middle of its code. *)
Theorem mutex_no_lost_wakeup s o k :
    reachable s → locked (mutex s) = false → ops s !! o = Some (Parked k) →
    (∃ o' k', ops s !! o' = Some (Parked k') ∧ o' ∈ woken s) ∨
    ∃ o' pc, ops s !! o' = Some pc ∧ active pc = true.
Proof.
  intros [_ Htr _ Hwa]%reachable_Inv Hl Ho.
  destruct (tracked_entry _ _ _ _ _ _ _ _ Htr Ho eq_refl eq_refl) as [Hw|Hw];
    [|left; eauto]. destruct (Hwa Hl) as [[k' Hk']|?]; [by eauto| |by right].
  destruct (tracked_owner _ _ _ _ _ _ _ Htr Hk') as (o' & pc & Hpc & Hkey & Hwk).
  destruct pc; simpl in *; try discriminate Hkey; eauto 8.
Qed.

(** No operation on a [Mutex] panics (no slab key is removed twice, no
    counter of the waker set over- or underflows), in any interleaving of fewer
    than [2^64] operations; nor does dropping a parked future. *)
Theorem mutex_never_panics s :
    reachable s → (N.of_nat (size (ops s)) + 1 < usize_modulus)%N →
    (∀ o pc, ops s !! o = Some pc → active pc = true → ∃ r, op_step o pc (mutex s) = Done r) ∧
    (∀ o k, ops s !! o = Some (Parked k) → ∃ r, LockFuture_drop (Some k) (mutex s) = Done r).
Proof.
  intros [Hwf Htr _ _]%reachable_Inv Hb. pose proof (tracked_size _ _ _ _ _ Htr) as Hsz.
  split.
  - intros o pc Ho Hact. destruct pc as [[key|]| | |key|key| | |]; simpl; try by eexists.
    + destruct (wset_remove_spec key (wakers (mutex s)) Hwf) as (ws & -> & _);
        [by eapply tracked_in|by eexists].
    + destruct (wset_insert_total o (wakers (mutex s)) Hwf) as [[[key ws] l] ->];
        [unfold view in Hsz; lia|by eexists].
    + destruct (wset_notify_spec NotifyAny (wakers (mutex s)) Hwf) as (ws & kl & -> & _).
      by eexists.
  - intros o k Ho. destruct (tracked_in _ _ _ _ _ _ _ k Htr Ho eq_refl) as [x Hx].
    destruct (wset_cancel_spec k (wakers (mutex s)) x Hwf Hx) as (ws & kl & Hc & _).
    simpl. rewrite Hc. by eexists.
Qed.

(** An uninterrupted [LockFuture::poll] leaves its loop in the first round:
    it takes the lock when the mutex is free, after removing the entry the
    operation had; otherwise it is pending, with the waker of the operation in
    a fresh entry of the waker set, and changes nothing else. *)
Theorem mutex_poll s o opt_key :
    reachable s → ops s !! o = Some (Start opt_key) →
    (N.of_nat (size (ops s)) + 1 < usize_modulus)%N →
    ∃ key ws, LockFuture_poll 1 o opt_key (mutex s) =
      Done (if locked (mutex s) then (Pending, Some key, mkMutex true ws (value (mutex s)))
            else (Ready tt, None, mkMutex true ws (value (mutex s))), []) ∧
      wset_wf ws ∧
      let m := if opt_key is Some k then delete k (view (mutex s)) else view (mutex s) in
      if locked (mutex s) then m !! key = None ∧ wset_view ws = <[key:=Some o]> m
      else wset_view ws = m.
Proof.
  intros [Hwf Htr _ _]%reachable_Inv Ho Hb. pose proof (tracked_size _ _ _ _ _ Htr) as Hsz.
  destruct s as [[b ws v] ps wk]. simpl in *.
  set (m := if opt_key is Some k then _ else _).
  assert (∃ ws1, (if opt_key is Some key
                  then '(_, ws) ← wset_remove key ws; mret (mkMutex b ws v)
                  else mret (mkMutex b ws v)) = Done (mkMutex b ws1 v, []) ∧
                 wset_wf ws1 ∧ wset_view ws1 = m) as (ws1 & Hrm & Hwf1 & Hv1).
  { destruct opt_key as [k|]; [|by exists ws].
    destruct (wset_remove_spec k ws Hwf) as (ws1 & -> & Hwf1 & Hv1); [|by exists ws1].
    by eapply tracked_in. }
  unfold LockFuture_poll, LockFuture_round. cbn [rust_loop wakers locked value with_wakers].
  unfold with_wakers. cbn [wakers locked value]. rewrite Hrm. destruct b; simpl.
  - destruct (wset_insert_total o ws1 Hwf1) as [[[key ws2] l] Hi].
    { rewrite Hv1. assert (size m ≤ size (view (mkMutex false ws v))) as Hm; [|unfold view in *; simpl in *; lia].
      subst m. destruct opt_key; [|done].
      rewrite <- !size_dom. apply subseteq_size. rewrite dom_delete. set_solver. }
    destruct (wset_insert_spec _ _ _ _ _ Hwf1 Hi) as (Hwf2 & -> & Hk & Hv2).
    exists key, ws2. rewrite Hi. simpl. split_and!; try done; by rewrite <- Hv1.
  - by exists 0, ws1.
Qed.

(** The methods of the source, run without interruption, are runs of the
    atomic operations: whatever [LockFuture::poll] and [MutexGuard::drop] do,
    the interleaving model does in that order. *)
Theorem mutex_methods_are_steps ps wk o mx :
    (∀ n opt_key p opt_key' mx' l,
       LockFuture_poll n o opt_key mx = Done ((p, opt_key', mx'), l) →
       rtc step (mkState mx (<[o:=Start opt_key]> ps) wk)
         (mkState mx' (<[o:=poll_pc p opt_key']> ps) (wk ∪ list_to_set l))) ∧
    (∀ mx' l, ps !! o = Some Holding → MutexGuard_drop mx = Done (mx', l) →
       rtc step (mkState mx ps wk) (mkState mx' (delete o ps) (wk ∪ list_to_set l))).
Proof.
  split; intros *; [by apply LockFuture_poll_steps|by apply MutexGuard_drop_steps].
Qed.
End Theorems.

(** * Witnesses: the waker set of the source over a concrete slab *)

Abbreviation MWS := (WakerSet (gmap nat (option nat))).

(** The operation 0 takes the lock, 1 and 2 park, 0 writes and unlocks. *)
Definition contended : list (Ev nat) :=
  [EvTryLock 0;
   EvLock 1; EvRun 1; EvRun 1; EvRun 1; EvRun 1;
   EvLock 2; EvRun 2; EvRun 2; EvRun 2; EvRun 2;
   EvWrite 0 7; EvUnlock 0; EvRun 0; EvRun 0].

Definition contended_state : State (T:=nat) (WS:=MWS) :=
  default (initial 0) (exec_all contended (initial 0)).

Lemma contended_reachable : reachable contended_state.
Proof. apply (exec_reachable 0 contended). vm_compute. reflexivity. Qed.

Lemma mutex_exclusion_witness :
  reachable contended_state ∧
  (locked (mutex contended_state) = true ↔ ∃ o, ops contended_state !! o = Some Holding).
Proof. split; [apply contended_reachable|apply (mutex_exclusion _ contended_reachable)]. Defined.

Lemma mutex_no_lost_wakeup_witness :
  (∃ o' k', ops contended_state !! o' = Some (Parked k') ∧ o' ∈ woken contended_state) ∨
  ∃ o' pc, ops contended_state !! o' = Some pc ∧ active pc = true.
Proof.
  apply (mutex_no_lost_wakeup contended_state 2 1 contended_reachable);
    vm_compute; reflexivity.
Defined.

Lemma mutex_never_panics_witness :
  ∃ r, LockFuture_drop (Some 1) (mutex contended_state) = Done r.
Proof.
  apply (mutex_never_panics contended_state contended_reachable) with (o := 2);
    vm_compute; reflexivity.
Defined.

Definition repoll_state : State (T:=nat) (WS:=MWS) :=
  default (initial 0) (exec_all (contended ++ [EvPoll 1]) (initial 0)).

Lemma mutex_poll_witness :
  ∃ key ws, LockFuture_poll 1 1 (Some 0) (mutex repoll_state) =
    Done (if locked (mutex repoll_state) then (Pending, Some key, mkMutex true ws 7)
          else (Ready tt, None, mkMutex true ws 7), []).
Proof.
  destruct (mutex_poll repoll_state 1 (Some 0)) as (key & ws & Hp & _).
  - apply (exec_reachable 0 (contended ++ [EvPoll 1])). vm_compute. reflexivity.
  - vm_compute. reflexivity.
  - vm_compute. reflexivity.
  - exists key, ws. exact Hp.
Defined.

(** An unlock by the only holder. *)
Lemma mutex_methods_are_steps_witness :
  let mx : Mutex MWS nat := mkMutex true wset_new 5 in
  rtc step (mkState mx {[0:=Holding]} ∅)
    (mkState (mkMutex false wset_new 5) (delete 0 {[0:=Holding]}) (∅ ∪ list_to_set [])).
Proof.
  apply (mutex_methods_are_steps {[0:=Holding]} ∅ 0 (mkMutex true wset_new 5));
    vm_compute; reflexivity.
Defined.
