(* ===== verification/RwLock.v ===== *)
(** The reader-writer lock of src/src/sync/rwlock.rs.  As for the mutex, the
    methods of the source come first, and then the same code cut at its atomic
    operations ([op_step], [step]). *)

From stdpp Require Import gmap fin_maps relations.
From S2P Require Import Prelude WakerSet WakerClients.

Local Open Scope N_scope.

(** Set if a write lock is held. *)
Definition WRITE_LOCK : N := N.shiftl 1 0.
(** The value of a single blocked read contributing to the read count. *)
Definition ONE_READ : N := N.shiftl 1 1.
(** The bits in which the read count is stored. *)
Definition READ_COUNT_MASK : N := usize_not (ONE_READ - 1).

Record RwLock (WS T : Type) : Type := mkRwLock {
  state : N;
  read_wakers : WS;
  write_wakers : WS;
  value : T
}.
Arguments mkRwLock {WS T}.
Arguments state {WS T}.
Arguments read_wakers {WS T}.
Arguments write_wakers {WS T}.
Arguments value {WS T}.

Section RwLock.
Context {T WS : Type} `{WakerSetOps WS nat}.
Implicit Types (lk : RwLock WS T) (o : nat).

(** * The methods *)

Definition RwLock_new (t : T) : RwLock WS T := mkRwLock 0 wset_new wset_new t.

Definition with_state lk (st : N) : RwLock WS T :=
  mkRwLock st (read_wakers lk) (write_wakers lk) (value lk).
Definition with_read_wakers lk (ws : WS) : RwLock WS T :=
  mkRwLock (state lk) ws (write_wakers lk) (value lk).
Definition with_write_wakers lk (ws : WS) : RwLock WS T :=
  mkRwLock (state lk) (read_wakers lk) ws (value lk).

Definition write_locked (st : N) : bool := negb (N.land st WRITE_LOCK =? 0).

(** The head of the loop of [try_read]: [None] when a writer holds the lock;
    the process aborts when there are too many readers. *)
Definition read_head (st : N) : Act nat (option N) :=
  if write_locked st then mret None
  else if isize_MAX <? st then eff_panic
  else mret (Some st).

(** [compare_exchange_weak], which may fail for no reason ([spurious]). *)
Definition cas_weak (spurious : bool) lk (expected new : N) : Result N N * RwLock WS T :=
  if negb spurious && (state lk =? expected) then (Ok (state lk), with_state lk new)
  else (Err (state lk), lk).

(** [try_read] without interruption; [weak] tells of each exchange it has time
    for whether it fails spuriously. *)
Fixpoint try_read_loop (weak : list bool) (st : N) (lk : RwLock WS T) : Act nat (bool * RwLock WS T) :=
  h ← read_head st;
  match h with
  | None => mret (false, lk)
  | Some st =>
      new ← usize_add st ONE_READ;
      match weak with
      | [] => OutOfFuel
      | spurious :: weak =>
          match cas_weak spurious lk st new with
          | (Ok _, lk) => mret (true, lk)
          | (Err s, lk) => try_read_loop weak s lk
          end
      end
  end.
Definition try_read (weak : list bool) lk : Act nat (bool * RwLock WS T) :=
  try_read_loop weak (state lk) lk.

(** [compare_and_swap(0, WRITE_LOCK)], and whether a guard is returned. *)
Definition try_write lk : bool * RwLock WS T :=
  if state lk =? 0 then (true, with_state lk WRITE_LOCK) else (false, lk).

Definition into_inner lk : T := value lk.
Definition get_mut (v : T) lk : RwLock WS T :=
  mkRwLock (state lk) (read_wakers lk) (write_wakers lk) v.

Definition take_read_key (opt_key : option nat) lk : Act nat (RwLock WS T) :=
  match opt_key with
  | Some key => '(_, ws) ← wset_remove key (read_wakers lk); mret (with_read_wakers lk ws)
  | None => mret lk
  end.
Definition take_write_key (opt_key : option nat) lk : Act nat (RwLock WS T) :=
  match opt_key with
  | Some key => '(_, ws) ← wset_remove key (write_wakers lk); mret (with_write_wakers lk ws)
  | None => mret lk
  end.

(** One round of the loop of [ReadFuture::poll]. *)
Definition ReadFuture_round (weak : list bool) (o : nat) (st : option nat * RwLock WS T) :
    Act nat ((option nat * RwLock WS T) + (Poll () * option nat * RwLock WS T)) :=
  let '(opt_key, lk) := st in
  lk ← take_read_key opt_key lk;
  '(guard, lk) ← try_read weak lk;
  if guard : bool then mret (inr (Ready tt, None, lk))
  else
    '(key, ws) ← wset_insert o (read_wakers lk);
    let lk := with_read_wakers lk ws in
    if write_locked (state lk) then mret (inr (Pending, Some key, lk))
    else mret (inl (Some key, lk)).
Definition ReadFuture_poll (fuel : nat) (weak : list bool) (o : nat) (opt_key : option nat) lk :
    Act nat (Poll () * option nat * RwLock WS T) :=
  rust_loop (ReadFuture_round weak o) fuel (opt_key, lk).

(** One round of the loop of [WriteFuture::poll]. *)
Definition WriteFuture_round (o : nat) (st : option nat * RwLock WS T) :
    Act nat ((option nat * RwLock WS T) + (Poll () * option nat * RwLock WS T)) :=
  let '(opt_key, lk) := st in
  lk ← take_write_key opt_key lk;
  let '(guard, lk) := try_write lk in
  if guard then mret (inr (Ready tt, None, lk))
  else
    '(key, ws) ← wset_insert o (write_wakers lk);
    let lk := with_write_wakers lk ws in
    if negb (state lk =? 0) then mret (inr (Pending, Some key, lk))
    else mret (inl (Some key, lk)).
Definition WriteFuture_poll (fuel : nat) (o : nat) (opt_key : option nat) lk :
    Act nat (Poll () * option nat * RwLock WS T) :=
  rust_loop (WriteFuture_round o) fuel (opt_key, lk).

(** [self.write_wakers.notify_any()] and [self.read_wakers.notify_all()]. *)
Definition notify_writers lk : Act nat (RwLock WS T) :=
  if wset_any_wanted (write_wakers lk) then
    '(_, ws) ← wset_notify NotifyAny (write_wakers lk); mret (with_write_wakers lk ws)
  else mret lk.
Definition notify_readers lk : Act nat (bool * RwLock WS T) :=
  if wset_one_wanted (read_wakers lk) then
    '(b, ws) ← wset_notify NotifyAll (read_wakers lk); mret (b, with_read_wakers lk ws)
  else mret (false, lk).

Definition no_readers (st : N) : bool := N.land st READ_COUNT_MASK =? 0.
Definition last_reader (st : N) : bool := N.land st READ_COUNT_MASK =? ONE_READ.

(** [ReadFuture::drop]. *)
Definition ReadFuture_drop (opt_key : option nat) lk : Act nat (RwLock WS T) :=
  match opt_key with
  | Some key =>
      '(_, ws) ← wset_cancel key (read_wakers lk);
      let lk := with_read_wakers lk ws in
      if no_readers (state lk) then notify_writers lk else mret lk
  | None => mret lk
  end.

(** [WriteFuture::drop]. *)
Definition WriteFuture_drop (opt_key : option nat) lk : Act nat (RwLock WS T) :=
  match opt_key with
  | Some key =>
      '(b, ws) ← wset_cancel key (write_wakers lk);
      let lk := with_write_wakers lk ws in
      if negb b then '(_, lk) ← notify_readers lk; mret lk else mret lk
  | None => mret lk
  end.

(** [RwLockReadGuard::drop] and [RwLockWriteGuard::drop]. *)
Definition RwLockReadGuard_drop lk : Act nat (RwLock WS T) :=
  let st := state lk in
  let lk := with_state lk (wrapping_sub st ONE_READ) in
  if last_reader st then notify_writers lk else mret lk.
Definition RwLockWriteGuard_drop lk : Act nat (RwLock WS T) :=
  let lk := with_state lk 0 in
  '(b, lk) ← notify_readers lk;
  if negb b then notify_writers lk else mret lk.

(** * The atomic operations *)

(** Where an operation is. *)
Inductive Pc : Type :=
(* [ReadFuture::poll]; [user] tells a call of [try_read] from outside *)
| RStart (opt_key : option nat)
| RTry (user : bool)                  (* about to load [state] *)
| RCas (user : bool) (st : N)         (* about to exchange *)
| RInsert
| RLoad (key : nat)
| RParked (key : nat)
| RHold                               (* a read guard *)
| RCancelled                          (* [ReadFuture::drop], about to load [state] *)
(* [WriteFuture::poll] *)
| WStart (opt_key : option nat)
| WTry
| WInsert
| WLoad (key : nat)
| WParked (key : nat)
| WHold                               (* a write guard *)
(* [read_wakers.notify_all()], with or without [notify_any] after it *)
| AllFlag (then_any : bool)
| AllNotify (then_any : bool)
(* [write_wakers.notify_any()] *)
| AnyFlag
| AnyNotify.

(** Where the head of the loop of [try_read] goes, with the value it has. *)
Definition after_load (user : bool) (st : N) lk : Act nat (option Pc * RwLock WS T) :=
  h ← read_head st;
  mret (match h with
        | Some st => Some (RCas user st)
        | None => if user then None else Some RInsert
        end, lk).

Definition op_step (o : nat) (pc : Pc) lk : Act nat (option Pc * RwLock WS T) :=
  match pc with
  | RStart opt_key => lk ← take_read_key opt_key lk; mret (Some (RTry false), lk)
  | RTry user => after_load user (state lk) lk
  | RCas user st =>
      new ← usize_add st ONE_READ;
      match cas_weak false lk st new with
      | (Ok _, lk) => mret (Some RHold, lk)
      | (Err s, lk) => after_load user s lk
      end
  | RInsert =>
      '(key, ws) ← wset_insert o (read_wakers lk);
      mret (Some (RLoad key), with_read_wakers lk ws)
  | RLoad key =>
      mret (Some (if write_locked (state lk) then RParked key else RStart (Some key)), lk)
  | RCancelled => mret (if no_readers (state lk) then Some AnyFlag else None, lk)
  | WStart opt_key => lk ← take_write_key opt_key lk; mret (Some WTry, lk)
  | WTry => let '(guard, lk) := try_write lk in mret (Some (if guard then WHold else WInsert), lk)
  | WInsert =>
      '(key, ws) ← wset_insert o (write_wakers lk);
      mret (Some (WLoad key), with_write_wakers lk ws)
  | WLoad key =>
      mret (Some (if negb (state lk =? 0) then WParked key else WStart (Some key)), lk)
  | AllFlag then_any =>
      mret (if wset_one_wanted (read_wakers lk) then Some (AllNotify then_any)
            else if then_any then Some AnyFlag else None, lk)
  | AllNotify then_any =>
      '(b, ws) ← wset_notify NotifyAll (read_wakers lk);
      mret (if negb b && then_any then Some AnyFlag else None, with_read_wakers lk ws)
  | AnyFlag => mret (if wset_any_wanted (write_wakers lk) then Some AnyNotify else None, lk)
  | AnyNotify =>
      '(_, ws) ← wset_notify NotifyAny (write_wakers lk);
      mret (None, with_write_wakers lk ws)
  | RParked _ | RHold | WParked _ | WHold => mret (Some pc, lk)
  end.

Definition active (pc : Pc) : bool :=
  match pc with RParked _ | RHold | WParked _ | WHold => false | _ => true end.

Record State : Type := mkState {
  lock : RwLock WS T;
  ops : gmap nat Pc;
  woken : gset nat
}.

Inductive step : State → State → Prop :=
| step_run lk ps wk o pc pc' lk' l :
    ps !! o = Some pc → active pc = true → op_step o pc lk = Done ((pc', lk'), l) →
    step (mkState lk ps wk) (mkState lk' (set_op o pc' ps) (wk ∪ list_to_set l))
| step_spurious lk ps wk o user st pc' lk' l :      (* the exchange fails *)
    ps !! o = Some (RCas user st) → after_load user (state lk) lk = Done ((pc', lk'), l) →
    step (mkState lk ps wk) (mkState lk' (set_op o pc' ps) (wk ∪ list_to_set l))
| step_call lk ps wk o pc :       (* [read()], [try_read()], [write()] *)
    ps !! o = None → pc = RStart None ∨ pc = RTry true ∨ pc = WStart None →
    step (mkState lk ps wk) (mkState lk (<[o:=pc]> ps) (wk ∖ {[o]}))
| step_try_write lk ps wk o guard lk' :
    ps !! o = None → try_write lk = (guard, lk') →
    step (mkState lk ps wk) (mkState lk' (set_op o (if guard then Some WHold else None) ps) wk)
| step_poll_read lk ps wk o key :
    ps !! o = Some (RParked key) →
    step (mkState lk ps wk) (mkState lk (<[o:=RStart (Some key)]> ps) (wk ∖ {[o]}))
| step_poll_write lk ps wk o key :
    ps !! o = Some (WParked key) →
    step (mkState lk ps wk) (mkState lk (<[o:=WStart (Some key)]> ps) (wk ∖ {[o]}))
| step_cancel_read lk ps wk o key b ws l :     (* [ReadFuture::drop] *)
    ps !! o = Some (RParked key) → wset_cancel key (read_wakers lk) = Done ((b, ws), l) →
    step (mkState lk ps wk)
      (mkState (with_read_wakers lk ws) (<[o:=RCancelled]> ps) (wk ∪ list_to_set l))
| step_cancel_write lk ps wk o key b ws l :    (* [WriteFuture::drop] *)
    ps !! o = Some (WParked key) → wset_cancel key (write_wakers lk) = Done ((b, ws), l) →
    step (mkState lk ps wk)
      (mkState (with_write_wakers lk ws)
         (set_op o (if negb b then Some (AllFlag false) else None) ps) (wk ∪ list_to_set l))
| step_write lk ps wk o v :
    ps !! o = Some WHold → step (mkState lk ps wk) (mkState (get_mut v lk) ps wk)
| step_unlock_read lk ps wk o :
    ps !! o = Some RHold →
    step (mkState lk ps wk)
      (mkState (with_state lk (wrapping_sub (state lk) ONE_READ))
         (set_op o (if last_reader (state lk) then Some AnyFlag else None) ps) wk)
| step_unlock_write lk ps wk o :
    ps !! o = Some WHold →
    step (mkState lk ps wk) (mkState (with_state lk 0) (<[o:=AllFlag true]> ps) wk).

Definition initial (t : T) : State := mkState (RwLock_new t) ∅ ∅.
Definition reachable (s : State) : Prop := ∃ t, rtc step (initial t) s.
End RwLock.
