(* ===== verification/RwLockInv.v ===== *)
(** The invariant of the reader-writer lock, and that every step keeps it. *)

From stdpp Require Import gmap fin_maps relations.
From S2P Require Import Prelude WakerSet WakerClients RwLock.

(** * The state word *)

Lemma write_locked_word (r w : nat) :
  (w ≤ 1)%nat → write_locked (N.of_nat (2 * r + w)) = bool_decide (w = 1).
Proof.
  intros Hw. unfold write_locked, WRITE_LOCK.
  assert (N.land (N.of_nat (2 * r + w)) (N.shiftl 1 0) = N.of_nat w) as ->.
  { change (N.shiftl 1 0) with (N.ones 1). rewrite N.land_ones. symmetry.
    change (2 ^ 1)%N with 2%N. apply (N.mod_unique _ _ (N.of_nat r)); lia. }
  destruct w as [|[|?]]; [done..|lia].
Qed.

(** The read count of an even word. *)
Lemma read_count_word (r : nat) :
  (N.of_nat (2 * r) < usize_modulus)%N →
  N.land (N.of_nat (2 * r)) READ_COUNT_MASK = N.of_nat (2 * r).
Proof.
  intros Hr. unfold READ_COUNT_MASK, usize_not.
  destruct (decide (r = 0)) as [->|Hne]; [done|].
  rewrite <- N.ldiff_land_low.
  - change (ONE_READ - 1)%N with (N.ones 1). rewrite N.ldiff_ones_r.
    rewrite N.shiftr_div_pow2, N.shiftl_mul_pow2. simpl (2 ^ 1)%N.
    rewrite Nat2N.inj_mul. simpl (N.of_nat 2).
    rewrite (N.mul_comm 2), N.div_mul by done. done.
  - apply N.log2_lt_pow2; [lia|done].
Qed.

(** A word with the write lock bit alone. *)
Lemma read_count_writer : N.land WRITE_LOCK READ_COUNT_MASK = 0%N.
Proof. reflexivity. Qed.

(** * The invariant *)

Definition rkey_of (pc : Pc) : option nat :=
  match pc with
  | RStart opt_key => opt_key
  | RLoad key | RParked key => Some key
  | _ => None
  end.
Definition wkey_of (pc : Pc) : option nat :=
  match pc with
  | WStart opt_key => opt_key
  | WLoad key | WParked key => Some key
  | _ => None
  end.
Definition rstarting (pc : Pc) : bool := if pc is RStart _ then true else false.
Definition wstarting (pc : Pc) : bool := if pc is WStart _ then true else false.

Definition is_reader (pc : Pc) : bool := if pc is RHold then true else false.
Definition is_writer (pc : Pc) : bool := if pc is WHold then true else false.
Abbreviation readers := (count is_reader).
Abbreviation writers := (count is_writer).

(** The state word counts the guards: one writer, or any number of readers. *)
Record guards_ok (st : N) (ps : gmap nat Pc) : Prop := {
  guards_one : writers ps ≤ 1;
  guards_xor : writers ps = 1 → readers ps = 0;
  guards_word : st = N.of_nat (2 * readers ps + writers ps);
  guards_bound : (N.of_nat (2 * readers ps) < usize_modulus)%N
}.

(** Operations that look again at the lock on behalf of a reader that waits. *)
Definition rwaker (pc : Pc) : bool :=
  match pc with
  | RLoad _ | RStart (Some _) | AllFlag _ | AllNotify _ => true
  | _ => false
  end.

(** While no writer holds the lock, a reader that waits is about to look at the
    lock again, or all readers are about to be notified. *)
Definition read_wake (st : N) (mr : gmap nat (option nat)) (ps : gmap nat Pc) : Prop :=
  write_locked st = false → ∀ k w, waiting mr k w →
  (∃ pc, ps !! w = Some pc ∧ (pc = RLoad k ∨ pc = RStart (Some k))) ∨
  ∃ o b, ps !! o = Some (AllFlag b) ∨ ps !! o = Some (AllNotify b).

(** Operations that take the lock, and so will notify when they release it, or
    are about to notify a writer. *)
Definition wwaker (pc : Pc) : bool :=
  match pc with
  | RStart _ | RTry _ | RCas _ _ | RCancelled | WStart _ | WTry | WLoad _
  | AllFlag true | AllNotify true | AnyFlag | AnyNotify => true
  | _ => false
  end.

(** While the lock is free and a writer waits, a writer or a reader has been
    notified, or somebody is about to. *)
Definition write_wake (st : N) (mr mw : gmap nat (option nat)) (ps : gmap nat Pc) : Prop :=
  st = 0%N → (∃ k w, waiting mw k w) →
  (∃ k, mw !! k = Some None) ∨ (∃ k, mr !! k = Some None) ∨
  ∃ o pc, ps !! o = Some pc ∧ wwaker pc = true.

(** An exchange is only tried from a word the loop of [try_read] has checked. *)
Definition cas_good (pc : Pc) : bool :=
  if pc is RCas _ st then negb (write_locked st) && (st <=? isize_MAX)%N else true.
Definition cas_ok (ps : gmap nat Pc) : Prop := ∀ o pc, ps !! o = Some pc → cas_good pc = true.

Section Invariant.
Context {T WS : Type} `{WakerSetLaws WS nat}.
Implicit Types (lk : RwLock WS T) (ps : gmap nat Pc) (s : State (T:=T) (WS:=WS)).

Definition rview lk : gmap nat (option nat) := wset_view (read_wakers lk).
Definition wview lk : gmap nat (option nat) := wset_view (write_wakers lk).

Record Inv s : Prop := {
  inv_rwf : wset_wf (read_wakers (lock s));
  inv_wwf : wset_wf (write_wakers (lock s));
  inv_rtracked : tracked rkey_of rstarting (ops s) (rview (lock s)) (woken s);
  inv_wtracked : tracked wkey_of wstarting (ops s) (wview (lock s)) (woken s);
  inv_cas : cas_ok (ops s);
  inv_guards : guards_ok (state (lock s)) (ops s);
  inv_rwake : read_wake (state (lock s)) (rview (lock s)) (ops s);
  inv_wwake : write_wake (state (lock s)) (rview (lock s)) (wview (lock s)) (ops s)
}.

Lemma cas_set ps o pc' :
  cas_ok ps → (if pc' is Some pc then cas_good pc = true else True) → cas_ok (set_op o pc' ps).
Proof.
  intros Hok Hpc o1 pc1. destruct (decide (o1 = o)) as [->|Hne];
    [rewrite set_op_eq; by intros ->|rewrite set_op_ne by done; apply Hok].
Qed.

(** ** Guards *)

Lemma guards_move st ps o pc pc' :
  guards_ok st ps → ps !! o = pc →
  is_at is_reader pc = is_at is_reader pc' → is_at is_writer pc = is_at is_writer pc' →
  guards_ok st (set_op o pc' ps).
Proof.
  intros [H1 Hx Hw Hb] Ho Hr Hwr.
  pose proof (count_set is_reader ps o pc') as Hcr. pose proof (count_set is_writer ps o pc') as Hcw.
  rewrite Ho in Hcr, Hcw. split; [lia|lia| |]; replace (readers (set_op o pc' ps)) with (readers ps) by lia.
  - by replace (writers (set_op o pc' ps)) with (writers ps) by lia.
  - done.
Qed.

Lemma guards_write_locked st ps : guards_ok st ps → write_locked st = bool_decide (writers ps = 1).
Proof. intros [H1 _ -> _]. by apply write_locked_word. Qed.

(** ** Readers that wait *)

Lemma read_wake_frame st st' mr mr' ps o pc' :
  (write_locked st' = false → write_locked st = false) →
  (∀ k w, waiting mr' k w → waiting mr k w) →
  (∀ pc, ps !! o = Some pc → rwaker pc = false) →
  read_wake st mr ps → read_wake st' mr' (set_op o pc' ps).
Proof.
  intros Hst Hw Ho Hok Hl k w Hk.
  destruct (Hok (Hst Hl) k w (Hw _ _ Hk)) as [(pc & Hpc & Hor)|(o1 & b & Hor)].
  - left. exists pc. rewrite set_op_ne; [done|]. intros ->.
    apply Ho in Hpc. destruct Hor as [-> | ->]; done.
  - right. exists o1, b. rewrite set_op_ne; [done|]. intros ->.
    destruct Hor as [Hor|Hor]; by apply Ho in Hor.
Qed.

Lemma read_wake_locked st mr ps : write_locked st = true → read_wake st mr ps.
Proof. intros Hl Hf. congruence. Qed.

Lemma read_wake_all st mr ps o pc b :
  pc = AllFlag b ∨ pc = AllNotify b → read_wake st mr (<[o:=pc]> ps).
Proof.
  intros Hpc _ k w _. right. exists o, b. rewrite !lookup_insert_eq.
  destruct Hpc as [-> | ->]; auto.
Qed.

Lemma read_wake_nobody st mr ps : nobody_waits mr → read_wake st mr ps.
Proof. intros Hno _ k w Hk. by destruct (Hno k w). Qed.

(** ** Writers that wait *)

Lemma write_wake_frame st st' mr mr' mw mw' ps o pc' :
  (st' = 0%N → st = 0%N) →
  (∀ k w, waiting mw' k w → waiting mw k w) →
  (∀ k, mw !! k = Some None → ∃ k', mw' !! k' = Some None) →
  (∀ k, mr !! k = Some None → ∃ k', mr' !! k' = Some None) →
  (∀ pc, ps !! o = Some pc → wwaker pc = false) →
  write_wake st mr mw ps → write_wake st' mr' mw' (set_op o pc' ps).
Proof.
  intros Hst Hw Hmw Hmr Ho Hok Hz (k & w & Hk).
  destruct Hok as [[k' Hk']|[[k' Hk']|(o1 & pc & Hpc & Hwk)]]; eauto 6.
  right. right. exists o1, pc. rewrite set_op_ne; [done|]. intros ->.
  apply Ho in Hpc. congruence.
Qed.

Lemma write_wake_by st mr mw ps o pc :
  wwaker pc = true → write_wake st mr mw (<[o:=pc]> ps).
Proof. intros Hpc _ _. right. right. exists o, pc. by rewrite lookup_insert_eq. Qed.

Lemma write_wake_taken st mr mw ps : st ≠ 0%N → write_wake st mr mw ps.
Proof. by intros Hst ?. Qed.

Lemma write_wake_locked st mr mw ps : write_locked st = true → write_wake st mr mw ps.
Proof. intros Hl. apply write_wake_taken. intros ->. discriminate Hl. Qed.
End Invariant.

#[export] Hint Resolve read_wake_all read_wake_locked write_wake_by write_wake_locked : async.

Section Preservation.
Context {T WS : Type} `{WakerSetLaws WS nat}.
Implicit Types (lk : RwLock WS T) (ps : gmap nat Pc) (s : State (T:=T) (WS:=WS)).

Lemma rw_initial_Inv (t : T) : Inv (initial t).
Proof.
  destruct wset_new_spec as [Hwf Hv].
  split; unfold rview, wview; simpl; rewrite ?Hv; [done|done|apply tracked_empty..| | | |].
  - intros o pc Ho. by rewrite lookup_empty in Ho.
  - split; rewrite ?count_empty; [lia|lia|done|done].
  - intros _ k w Hk. unfold waiting in Hk. by rewrite lookup_empty in Hk.
  - intros _ (k & w & Hk). unfold waiting in Hk. by rewrite lookup_empty in Hk.
Qed.

(** ** The reader *)

(** A reader's entry is gone: it was the reader's own. *)
Lemma read_wake_remove st mr ps o key pc' :
  ps !! o = Some (RStart (Some key)) → read_wake st mr ps →
  read_wake st (delete key mr) (set_op o pc' ps).
Proof.
  intros Ho Hok Hl k w Hk. unfold waiting in Hk. apply lookup_delete_Some in Hk as [Hne Hk].
  destruct (Hok Hl k w Hk) as [(pc & Hpc & Hor)|(o1 & b & Hor)].
  - left. exists pc. rewrite set_op_ne; [done|]. intros ->. destruct Hor; simplify_eq.
  - right. exists o1, b. rewrite set_op_ne; [done|]. intros ->. destruct Hor; simplify_eq.
Qed.

Lemma Inv_rstart lk ps wk o opt_key pc' lk' l :
  Inv (mkState lk ps wk) → ps !! o = Some (RStart opt_key) →
  op_step o (RStart opt_key) lk = Done ((pc', lk'), l) →
  Inv (mkState lk' (set_op o pc' ps) (wk ∪ list_to_set l)).
Proof.
  intros [Hrwf Hwwf Hrtr Hwtr Hcas Hg Hrw Hww] Ho Hs. simpl in *.
  unfold take_read_key in Hs. destruct opt_key as [key|].
  - destruct (wset_remove_spec key (read_wakers lk) Hrwf) as (ws' & Hr & Hrwf' & Hv);
      [by eapply tracked_in|].
    rewrite Hr in Hs. simpl in Hs. simplify_eq.
    split; unfold rview, wview in *; simpl; rewrite ?Hv; eauto with async.
    + eapply (tracked_remove _ _ ps _ wk _ o key (Some (RTry false))); [done| |done|set_solver].
      by apply (keys_lookup rkey_of) in Ho.
    + solve_tracked.
    + by apply (cas_set _ _ (Some (RTry false))).
    + by eapply (guards_move _ _ _ _ (Some (RTry false))).
    + by eapply (read_wake_remove _ _ _ _ _ (Some (RTry false))).
  - simpl in Hs. simplify_eq. split; simpl; eauto with async.
    + solve_tracked.
    + solve_tracked.
    + by apply (cas_set _ _ (Some (RTry false))).
    + by eapply (guards_move _ _ _ _ (Some (RTry false))).
    + by eapply (read_wake_frame _ _ _ _ _ _ (Some (RTry false))); [..|rewrite Ho; by intros ? [= <-]|].
Qed.

(** The head of the loop of [try_read], reached from the load or from an
    exchange that failed. *)
Lemma Inv_after_load lk ps wk o pc user pc' lk' l :
  Inv (mkState lk ps wk) → ps !! o = Some pc → pc = RTry user ∨ (∃ st, pc = RCas user st) →
  after_load user (state lk) lk = Done ((pc', lk'), l) →
  Inv (mkState lk' (set_op o pc' ps) (wk ∪ list_to_set l)).
Proof.
  intros [Hrwf Hwwf Hrtr Hwtr Hcas Hg Hrw Hww] Ho Hpc Hs. simpl in *.
  assert (rkey_of pc = None ∧ wkey_of pc = None ∧ rwaker pc = false ∧
          is_reader pc = false ∧ is_writer pc = false) as (Hrk & Hwk & Hnw & Hnr & Hnwr)
    by (destruct Hpc as [-> |[st ->]]; done).
  assert ((pc' = Some (RCas user (state lk)) ∧ write_locked (state lk) = false ∧
           (state lk <= isize_MAX)%N) ∨
          (pc' = (if user then None else Some RInsert) ∧ write_locked (state lk) = true)) as Hpc'.
  { unfold after_load, read_head in Hs. destruct (write_locked (state lk)); simpl in Hs;
      [simplify_eq; by right|].
    destruct (N.ltb_spec isize_MAX (state lk)); simpl in Hs; simplify_eq. by left. }
  assert (lk' = lk ∧ l = []) as [-> ->].
  { unfold after_load, read_head in Hs. repeat case_match; simpl in Hs; by simplify_eq. }
  assert (pc' ≫= rkey_of = None ∧ pc' ≫= wkey_of = None ∧
          is_at is_reader pc' = 0 ∧ is_at is_writer pc' = 0 ∧
          if pc' is Some pc then cas_good pc = true else True) as (Hrk' & Hwk' & Hr' & Hw' & Hg').
  { destruct Hpc' as [(-> & Hl & Hle)|[-> _]]; [|by destruct user]. split_and!; try done. simpl.
    rewrite Hl. by apply N.leb_le. }
  rewrite no_wakes. split; simpl; auto.
  - eapply tracked_no_key; [eassumption|done..|set_solver].
  - eapply tracked_no_key; [eassumption|done..|set_solver].
  - by apply cas_set.
  - eapply guards_move; [done|done|..]; simpl; [by rewrite Hnr, Hr'|by rewrite Hnwr, Hw'].
  - eapply read_wake_frame; [..|done]; [done|done|]. rewrite Ho. by intros ? [= <-].
  - destruct Hpc' as [(-> & _)|[_ Hl]]; simpl; auto with async.
Qed.

(** The exchange succeeds: one more reader. *)
Lemma guards_read st ps o pc :
  guards_ok st ps → ps !! o = Some pc → is_reader pc = false → is_writer pc = false →
  write_locked st = false → (st <= isize_MAX)%N →
  guards_ok (st + ONE_READ) (<[o:=RHold]> ps).
Proof.
  intros Hg Ho Hr Hw Hl Hle. rewrite (guards_write_locked _ _ Hg) in Hl.
  apply bool_decide_eq_false in Hl. destruct Hg as [H1 Hx Hst Hb].
  pose proof (count_set is_reader ps o (Some RHold)) as Hcr.
  pose proof (count_set is_writer ps o (Some RHold)) as Hcw.
  rewrite Ho in Hcr, Hcw. simpl in Hcr, Hcw. rewrite Hr in Hcr. rewrite Hw in Hcw.
  simpl in Hcr, Hcw. unfold ONE_READ. change (N.shiftl 1 1) with 2%N.
  split; [lia|lia|lia|]. unfold isize_MAX, usize_modulus, usize_bits in *. lia.
Qed.

Lemma Inv_rcas lk ps wk o user st pc' lk' l :
  Inv (mkState lk ps wk) → ps !! o = Some (RCas user st) →
  op_step o (RCas user st) lk = Done ((pc', lk'), l) →
  Inv (mkState lk' (set_op o pc' ps) (wk ∪ list_to_set l)).
Proof.
  intros HI Ho Hs. pose proof HI as [Hrwf Hwwf Hrtr Hwtr Hcas Hg Hrw Hww]. simpl in *.
  pose proof (Hcas _ _ Ho) as Hgood. simpl in Hgood.
  apply andb_true_iff in Hgood as [Hl%negb_true_iff Hle%N.leb_le].
  rewrite usize_add_ok in Hs by (change ONE_READ with 2%N; unfold isize_MAX, usize_modulus, usize_bits in *; lia).
  simpl in Hs. unfold cas_weak in Hs. simpl in Hs.
  destruct (N.eqb_spec (state lk) st) as [<-|Hne].
  - simpl in Hs. simplify_eq. split; simpl; auto.
    + solve_tracked.
    + solve_tracked.
    + by apply (cas_set _ _ (Some RHold)).
    + by eapply guards_read.
    + eapply (read_wake_frame (state lk) _ (rview lk) _ _ _ (Some RHold));
        [done|done|rewrite Ho; by intros ? [= <-]|done].
    + apply write_wake_taken. change ONE_READ with 2%N. lia.
  - destruct (after_load user (state lk) lk) as [[[pc1 lk1] l1]| |] eqn:Ha; simpl in Hs; simplify_eq.
    eapply Inv_after_load; eauto.
Qed.

Lemma Inv_rinsert lk ps wk o pc' lk' l :
  Inv (mkState lk ps wk) → ps !! o = Some RInsert →
  op_step o RInsert lk = Done ((pc', lk'), l) →
  Inv (mkState lk' (set_op o pc' ps) (wk ∪ list_to_set l)).
Proof.
  intros [Hrwf Hwwf Hrtr Hwtr Hcas Hg Hrw Hww] Ho Hs. simpl in *.
  apply eff_bind_done in Hs as ([key ws] & w1 & w2 & Hi & Hr & ->).
  apply eff_ret_done in Hr as [Hr ->]. simplify_eq.
  destruct (wset_insert_spec _ _ _ _ _ Hrwf Hi) as (Hwf' & -> & Hkey & Hv).
  split; unfold rview in *; simpl; rewrite ?Hv; auto.
  - eapply tracked_insert; [done|by apply (keys_lookup rkey_of) in Ho|done..|set_solver].
  - solve_tracked.
  - by apply (cas_set _ _ (Some (RLoad key))).
  - by eapply (guards_move _ _ _ _ (Some (RLoad key))).
  - intros Hl k w Hk. unfold waiting in Hk.
    apply lookup_insert_Some in Hk as [[<- [= <-]]|[Hne Hk]];
      [left; exists (RLoad key); rewrite lookup_insert_eq; auto|].
    eapply (read_wake_frame (state lk) _ (rview lk) _ _ _ (Some (RLoad key)));
      [done|done|rewrite Ho; by intros ? [= <-]|exact Hrw|done|exact Hk].
  - eapply (write_wake_frame (state lk) _ (rview lk) _ (wview lk) _ _ _ (Some (RLoad key)));
      [done|done|eauto| |rewrite Ho; by intros ? [= <-]|exact Hww].
    intros k Hk. unfold rview in Hk. exists k. rewrite lookup_insert_ne; [done|congruence].
Qed.

Lemma Inv_rload lk ps wk o key :
  Inv (mkState lk ps wk) → ps !! o = Some (RLoad key) →
  Inv (mkState lk
    (<[o:=if write_locked (state lk) then RParked key else RStart (Some key)]> ps) wk).
Proof.
  intros [Hrwf Hwwf Hrtr Hwtr Hcas Hg Hrw Hww] Ho. simpl in *.
  split; simpl; [done|done|..].
  - eapply (tracked_keep _ _ _ _ wk _ _ _ (Some _) Hrtr Ho);
      [done|by destruct (write_locked (state lk))|done].
  - eapply (tracked_keep _ _ _ _ wk _ _ _ (Some _) Hwtr Ho);
      [done|by destruct (write_locked (state lk))|done].
  - apply (cas_set _ _ (Some _)); [done|]. by destruct (write_locked (state lk)).
  - eapply (guards_move _ _ _ _ (Some _)); [done..| |]; by destruct (write_locked (state lk)).
  - destruct (write_locked (state lk)) eqn:Hl; [by apply read_wake_locked|].
    intros _ k w Hk. destruct (Hrw Hl k w Hk) as [(pc & Hpc & Hor)|(o1 & b & Hor)].
    + left. destruct (decide (w = o)) as [->|Hne].
      * exists (RStart (Some key)). rewrite lookup_insert_eq. split; [done|].
        destruct Hor; simplify_eq. by right.
      * exists pc. by rewrite lookup_insert_ne.
    + right. exists o1, b. rewrite !lookup_insert_ne; [done|]. intros ->. destruct Hor; simplify_eq.
  - destruct (write_locked (state lk)) eqn:Hl; auto with async.
Qed.

(** ** The writer *)

Lemma Inv_wstart lk ps wk o opt_key pc' lk' l :
  Inv (mkState lk ps wk) → ps !! o = Some (WStart opt_key) →
  op_step o (WStart opt_key) lk = Done ((pc', lk'), l) →
  Inv (mkState lk' (set_op o pc' ps) (wk ∪ list_to_set l)).
Proof.
  intros [Hrwf Hwwf Hrtr Hwtr Hcas Hg Hrw Hww] Ho Hs. simpl in *.
  assert (read_wake (state lk) (rview lk) (set_op o (Some WTry) ps)) as Hrw'.
  { eapply (read_wake_frame (state lk) _ (rview lk)); [done|done|rewrite Ho; by intros ? [= <-]|done]. }
  unfold take_write_key in Hs. destruct opt_key as [key|].
  - destruct (wset_remove_spec key (write_wakers lk) Hwwf) as (ws' & Hr & Hwwf' & Hv);
      [by eapply tracked_in|].
    rewrite Hr in Hs. simpl in Hs. simplify_eq.
    split; unfold rview, wview in *; simpl; rewrite ?Hv; eauto with async.
    + solve_tracked.
    + eapply (tracked_remove _ _ ps _ wk _ o key (Some WTry)); [done| |done|set_solver].
      by apply (keys_lookup wkey_of) in Ho.
    + by apply (cas_set _ _ (Some WTry)).
    + by eapply (guards_move _ _ _ _ (Some WTry)).
  - simpl in Hs. simplify_eq. split; simpl; eauto with async.
    + solve_tracked.
    + solve_tracked.
    + by apply (cas_set _ _ (Some WTry)).
    + by eapply (guards_move _ _ _ _ (Some WTry)).
Qed.

Lemma guards_write ps o :
  guards_ok 0 ps → is_at is_reader (ps !! o) = 0 → is_at is_writer (ps !! o) = 0 →
  guards_ok WRITE_LOCK (set_op o (Some WHold) ps).
Proof.
  intros [H1 Hx Hst Hb] Hr Hw.
  pose proof (count_set is_reader ps o (Some WHold)) as Hcr.
  pose proof (count_set is_writer ps o (Some WHold)) as Hcw.
  rewrite Hr in Hcr. rewrite Hw in Hcw. simpl is_at in Hcr, Hcw.
  change WRITE_LOCK with 1%N. split; lia.
Qed.

(** [try_write], by a [poll] or by its caller. *)
Lemma Inv_try_write lk ps wk o (pc' : bool → option Pc) guard lk' :
  Inv (mkState lk ps wk) → ps !! o = None ∨ ps !! o = Some WTry →
  pc' true = Some WHold → pc' false = None ∨ pc' false = Some WInsert →
  try_write lk = (guard, lk') →
  Inv (mkState lk' (set_op o (pc' guard) ps) wk).
Proof.
  intros [Hrwf Hwwf Hrtr Hwtr Hcas Hg Hrw Hww] Ho Ht Hf Hs. simpl in *.
  assert (keys rkey_of ps !! o = None ∧ keys wkey_of ps !! o = None ∧
          is_at is_reader (ps !! o) = 0 ∧ is_at is_writer (ps !! o) = 0) as (Hrk & Hwk & Hr & Hw)
    by (rewrite !keys_at; by destruct Ho as [-> | ->]).
  unfold try_write in Hs. destruct (N.eqb_spec (state lk) 0) as [Hz|Hnz]; injection Hs as <- <-.
  - rewrite Ht. split; simpl; auto.
    + by apply (tracked_keyless _ _ _ _ wk _ _ (Some WHold)); [..|set_solver].
    + by apply (tracked_keyless _ _ _ _ wk _ _ (Some WHold)); [..|set_solver].
    + by apply (cas_set _ _ (Some WHold)).
    + apply guards_write; [by rewrite <- Hz|done..].
    + by apply read_wake_locked.
    + by apply write_wake_taken.
  - assert (pc' false ≫= rkey_of = None ∧ pc' false ≫= wkey_of = None ∧
            is_at is_reader (pc' false) = 0 ∧ is_at is_writer (pc' false) = 0 ∧
            if pc' false is Some pc then cas_good pc = true else True)
      as (Hrk' & Hwk' & Hr' & Hw' & Hc') by (by destruct Hf as [-> | ->]).
    split; simpl; auto.
    + by apply (tracked_keyless _ _ _ _ wk); [..|set_solver].
    + by apply (tracked_keyless _ _ _ _ wk); [..|set_solver].
    + by apply cas_set.
    + eapply guards_move; [done|done|by rewrite Hr, Hr'|by rewrite Hw, Hw'].
    + eapply (read_wake_frame (state lk) _ (rview lk)); [done|done| |done].
      intros pc Hpc. destruct Ho as [Ho|Ho]; by simplify_eq.
    + by apply write_wake_taken.
Qed.

Lemma Inv_winsert lk ps wk o pc' lk' l :
  Inv (mkState lk ps wk) → ps !! o = Some WInsert →
  op_step o WInsert lk = Done ((pc', lk'), l) →
  Inv (mkState lk' (set_op o pc' ps) (wk ∪ list_to_set l)).
Proof.
  intros [Hrwf Hwwf Hrtr Hwtr Hcas Hg Hrw Hww] Ho Hs. simpl in *.
  apply eff_bind_done in Hs as ([key ws] & w1 & w2 & Hi & Hr & ->).
  apply eff_ret_done in Hr as [Hr ->]. simplify_eq.
  destruct (wset_insert_spec _ _ _ _ _ Hwwf Hi) as (Hwf' & -> & Hkey & Hv).
  split; unfold wview in *; simpl; rewrite ?Hv; auto with async.
  - solve_tracked.
  - eapply tracked_insert; [done|by apply (keys_lookup wkey_of) in Ho|done..|set_solver].
  - by apply (cas_set _ _ (Some (WLoad key))).
  - by eapply (guards_move _ _ _ _ (Some (WLoad key))).
  - eapply (read_wake_frame (state lk) _ (rview lk) _ _ _ (Some (WLoad key)));
      [done|done|rewrite Ho; by intros ? [= <-]|done].
Qed.

Lemma Inv_wload lk ps wk o key :
  Inv (mkState lk ps wk) → ps !! o = Some (WLoad key) →
  Inv (mkState lk
    (<[o:=if negb (state lk =? 0)%N then WParked key else WStart (Some key)]> ps) wk).
Proof.
  intros [Hrwf Hwwf Hrtr Hwtr Hcas Hg Hrw Hww] Ho. simpl in *.
  split; simpl; [done|done|..].
  - eapply (tracked_no_key _ _ _ _ wk _ _ _ (Some _) Hrtr Ho); [done|by case_match|set_solver].
  - eapply (tracked_keep _ _ _ _ wk _ _ _ (Some _) Hwtr Ho); [done|by case_match|done].
  - apply (cas_set _ _ (Some _)); [done|]. by case_match.
  - eapply (guards_move _ _ _ _ (Some _)); [done..| |]; by case_match.
  - eapply (read_wake_frame (state lk) _ (rview lk) _ _ _ (Some _));
      [done|done|rewrite Ho; by intros ? [= <-]|done].
  - destruct (N.eqb_spec (state lk) 0); [by apply write_wake_by|by apply write_wake_taken].
Qed.

(** ** Notifications *)

(** An operation that only moves on to a notification, or ends. *)
Lemma Inv_move lk ps wk o pc pc' :
  Inv (mkState lk ps wk) → ps !! o = Some pc →
  rkey_of pc = None → wkey_of pc = None → is_reader pc = false → is_writer pc = false →
  (if pc' is Some pc1
   then (∃ b, pc1 = AllFlag b ∨ pc1 = AllNotify b) ∨ pc1 = AnyFlag ∨ pc1 = AnyNotify
   else True) →
  read_wake (state lk) (rview lk) (set_op o pc' ps) →
  write_wake (state lk) (rview lk) (wview lk) (set_op o pc' ps) →
  Inv (mkState lk (set_op o pc' ps) wk).
Proof.
  intros [Hrwf Hwwf Hrtr Hwtr Hcas Hg _ _] Ho Hrk Hwk Hr Hw Hpc' Hrw Hww. simpl in *.
  assert (pc' ≫= rkey_of = None ∧ pc' ≫= wkey_of = None ∧
          is_at is_reader pc' = 0 ∧ is_at is_writer pc' = 0 ∧
          if pc' is Some pc then cas_good pc = true else True)
    as (Hrk' & Hwk' & Hr' & Hw' & Hc') by (destruct pc'; naive_solver).
  split; simpl; auto.
  - by eapply (tracked_no_key _ _ _ _ wk); [..|set_solver].
  - by eapply (tracked_no_key _ _ _ _ wk); [..|set_solver].
  - by apply cas_set.
  - eapply guards_move; [done|done|..]; simpl; [by rewrite Hr, Hr'|by rewrite Hw, Hw'].
Qed.

Lemma Inv_any_flag lk ps wk o :
  Inv (mkState lk ps wk) → ps !! o = Some AnyFlag →
  Inv (mkState lk
    (set_op o (if wset_any_wanted (write_wakers lk) then Some AnyNotify else None) ps) wk).
Proof.
  intros HI Ho. pose proof HI as [Hrwf Hwwf Hrtr Hwtr Hcas Hg Hrw Hww]. simpl in *.
  eapply Inv_move; [done|done|done..|by destruct (wset_any_wanted _); auto| |].
  - eapply (read_wake_frame (state lk) _ (rview lk)); [done|done|rewrite Ho; by intros ? [= <-]|done].
  - destruct (wset_any_wanted (write_wakers lk)) eqn:Hw; simpl; [by apply write_wake_by|].
    intros _ (k & w & Hk). left. by eapply unwanted.
Qed.

Lemma Inv_all_flag lk ps wk o b :
  Inv (mkState lk ps wk) → ps !! o = Some (AllFlag b) →
  Inv (mkState lk
    (set_op o (if wset_one_wanted (read_wakers lk) then Some (AllNotify b)
               else if b then Some AnyFlag else None) ps) wk).
Proof.
  intros HI Ho. pose proof HI as [Hrwf Hwwf Hrtr Hwtr Hcas Hg Hrw Hww]. simpl in *.
  eapply Inv_move; [done|done|done..|destruct (wset_one_wanted _), b; simpl; eauto| |].
  - destruct (wset_one_wanted (read_wakers lk)) eqn:Hw; simpl; [by apply (read_wake_all _ _ _ _ _ b); auto|].
    apply read_wake_nobody. intros k w Hk.
    assert (wset_one_wanted (read_wakers lk) = true); [|congruence].
    apply wset_one_wanted_spec; eauto.
  - destruct b; [destruct (wset_one_wanted (read_wakers lk)); simpl; by apply write_wake_by|].
    eapply (write_wake_frame (state lk) _ (rview lk) _ (wview lk));
      [done|done|eauto|eauto|rewrite Ho; by intros ? [= <-]|done].
Qed.

Lemma Inv_any_notify lk ps wk o pc' lk' l :
  Inv (mkState lk ps wk) → ps !! o = Some AnyNotify →
  op_step o AnyNotify lk = Done ((pc', lk'), l) →
  Inv (mkState lk' (set_op o pc' ps) (wk ∪ list_to_set l)).
Proof.
  intros [Hrwf Hwwf Hrtr Hwtr Hcas Hg Hrw Hww] Ho Hs. simpl in *.
  destruct (wset_notify_spec NotifyAny (write_wakers lk) Hwwf) as (ws & kl & Hn & Hwf' & Hp).
  rewrite Hn in Hs. simpl in Hs. simplify_eq. rewrite app_nil_r. split; simpl; auto.
  - apply tracked_grow with wk; [|set_solver]. change (delete o ps) with (set_op o None ps). solve_tracked.
  - eapply tracked_woke; [|apply Hp]. change (delete o ps) with (set_op o None ps). solve_tracked.
  - by apply (cas_set _ _ None).
  - by eapply (guards_move _ _ _ _ None).
  - eapply (read_wake_frame (state lk) _ (rview lk) _ _ _ None);
      [done|done|rewrite Ho; by intros ? [= <-]|done].
  - intros _ (k & w & Hk). left. by eapply (notify_leaves NotifyAny); [|exact Hp|exact Hk].
Qed.

Lemma Inv_all_notify lk ps wk o b pc' lk' l :
  Inv (mkState lk ps wk) → ps !! o = Some (AllNotify b) →
  op_step o (AllNotify b) lk = Done ((pc', lk'), l) →
  Inv (mkState lk' (set_op o pc' ps) (wk ∪ list_to_set l)).
Proof.
  intros [Hrwf Hwwf Hrtr Hwtr Hcas Hg Hrw Hww] Ho Hs. simpl in *.
  destruct (wset_notify_spec NotifyAll (read_wakers lk) Hrwf) as (ws & kl & Hn & Hwf' & Hp).
  rewrite Hn in Hs. simpl in Hs. simplify_eq. rewrite app_nil_r. destruct Hp as [Hwoke Hno].
  assert (∀ pc, pc = (if negb (bool_decide (kl ≠ [])) && b then Some AnyFlag else None) →
    tracked rkey_of rstarting (set_op o pc ps) (rview lk) wk ∧
    tracked wkey_of wstarting (set_op o pc ps) (wview lk) wk ∧
    cas_ok (set_op o pc ps) ∧ guards_ok (state lk) (set_op o pc ps)) as Hpc.
  { intros pc ->. split_and!.
    - eapply (tracked_no_key _ _ _ _ wk); [done|done|done|by destruct (negb _ && b)|set_solver].
    - eapply (tracked_no_key _ _ _ _ wk); [done|done|done|by destruct (negb _ && b)|set_solver].
    - apply cas_set; [done|]. by destruct (negb _ && b).
    - eapply guards_move; [done|done|..]; by destruct (negb _ && b). }
  destruct (Hpc _ eq_refl) as (Hrtr' & Hwtr' & Hcas' & Hg'). split; simpl; auto.
  - by eapply tracked_woke.
  - by apply tracked_grow with wk; [|set_solver].
  - by apply read_wake_nobody.
  - destruct b; [|eapply (write_wake_frame (state lk) _ (rview lk) _ (wview lk));
                  [done|done|eauto| |rewrite Ho; by intros ? [= <-]|done];
                  intros k Hk; exists k; by eapply woke_None].
    destruct kl as [|[k1 w1] kl]; simpl; [by apply write_wake_by|].
    intros _ _. right. left. exists k1. unfold rview. simpl.
    rewrite (woke_lookup _ _ _ _ Hwoke). rewrite decide_True; [done|left].
Qed.

(** ** Cancellation *)

Lemma Inv_cancel_read lk ps wk o key b ws l :
  Inv (mkState lk ps wk) → ps !! o = Some (RParked key) →
  wset_cancel key (read_wakers lk) = Done ((b, ws), l) →
  Inv (mkState (with_read_wakers lk ws) (<[o:=RCancelled]> ps) (wk ∪ list_to_set l)).
Proof.
  intros [Hrwf Hwwf Hrtr Hwtr Hcas Hg Hrw Hww] Ho Hc. simpl in *.
  destruct (tracked_in _ _ _ _ _ _ _ key Hrtr Ho) as [x Hx]; [done|].
  destruct (wset_cancel_spec key (read_wakers lk) x Hrwf Hx) as (ws' & kl & Hc' & Hwf' & Hp).
  rewrite Hc in Hc'. simplify_eq.
  assert (tracked rkey_of rstarting (<[o:=RCancelled]> ps) (delete key (rview lk)) wk) as Htr'.
  { apply (tracked_remove _ _ ps _ wk _ o key (Some RCancelled)); [done| |done|set_solver].
    by apply (keys_lookup rkey_of) in Ho. }
  assert (woke (delete key (rview lk)) kl (wset_view ws')) as Hwoke
    by (destruct x; [destruct Hp as [-> ->]; constructor|apply Hp]).
  split; simpl; auto with async.
  - by eapply tracked_woke.
  - solve_tracked.
  - by apply (cas_set _ _ (Some RCancelled)).
  - by eapply (guards_move _ _ _ _ (Some RCancelled)).
  - eapply (read_wake_frame (state lk) _ (rview lk) _ _ _ (Some RCancelled));
      [done| |rewrite Ho; by intros ? [= <-]|done].
    intros k w Hk. eapply woke_back in Hk; [|exact Hwoke].
    unfold waiting in *. by apply lookup_delete_Some in Hk as [_ ?].
Qed.

Lemma Inv_cancel_write lk ps wk o key b ws l :
  Inv (mkState lk ps wk) → ps !! o = Some (WParked key) →
  wset_cancel key (write_wakers lk) = Done ((b, ws), l) →
  Inv (mkState (with_write_wakers lk ws)
    (set_op o (if negb b then Some (AllFlag false) else None) ps) (wk ∪ list_to_set l)).
Proof.
  intros [Hrwf Hwwf Hrtr Hwtr Hcas Hg Hrw Hww] Ho Hc. simpl in *.
  destruct (tracked_in _ _ _ _ _ _ _ key Hwtr Ho) as [x Hx]; [done|].
  destruct (wset_cancel_spec key (write_wakers lk) x Hwwf Hx) as (ws' & kl & Hc' & Hwf' & Hp).
  rewrite Hc in Hc'. simplify_eq.
  set (pc := if negb _ then _ else _).
  assert (tracked wkey_of wstarting (set_op o pc ps) (delete key (wview lk)) wk) as Htr'.
  { apply (tracked_remove _ _ ps _ wk _ o key pc); [done| |subst pc; by destruct (negb _)|set_solver].
    by apply (keys_lookup wkey_of) in Ho. }
  assert (woke (delete key (wview lk)) kl (wset_view ws')) as Hwoke
    by (destruct x; [destruct Hp as [-> ->]; constructor|apply Hp]).
  split; simpl; auto with async.
  - eapply (tracked_no_key _ _ _ _ wk); [done|done|done|subst pc; by destruct (negb _)|set_solver].
  - by eapply tracked_woke.
  - apply cas_set; [done|]. subst pc. by destruct (negb _).
  - eapply guards_move; [done|done|..]; subst pc; by destruct (negb _).
  - eapply (read_wake_frame (state lk) _ (rview lk)); [done|done|rewrite Ho; by intros ? [= <-]|done].
  - destruct x as [w1|]; [|intros _ (k & w & Hk); left; by eapply (notify_leaves NotifyOne); [|exact Hp|exact Hk]].
    destruct Hp as [-> Hv].
    eapply (write_wake_frame (state lk) _ (rview lk) _ (wview lk));
      [done| | |eauto|rewrite Ho; by intros ? [= <-]|done]; unfold wview; simpl; rewrite Hv.
    + intros k w Hk. unfold waiting in *. by apply lookup_delete_Some in Hk as [_ ?].
    + intros k Hk. exists k. rewrite lookup_delete_ne; [done|]. intros <-.
      change (wview lk !! key = Some None) in Hk. congruence.
Qed.

(** ** Unlocking *)

Lemma Inv_unlock_write lk ps wk o :
  Inv (mkState lk ps wk) → ps !! o = Some WHold →
  Inv (mkState (with_state lk 0) (<[o:=AllFlag true]> ps) wk).
Proof.
  intros [Hrwf Hwwf Hrtr Hwtr Hcas Hg Hrw Hww] Ho. simpl in *.
  split; simpl; eauto with async.
  - solve_tracked.
  - solve_tracked.
  - by apply (cas_set _ _ (Some (AllFlag true))).
  - destruct Hg as [H1 Hx Hst Hb].
    pose proof (count_pos is_writer _ _ _ Ho eq_refl) as Hpos.
    pose proof (count_set is_reader ps o (Some (AllFlag true))) as Hcr.
    pose proof (count_set is_writer ps o (Some (AllFlag true))) as Hcw.
    rewrite Ho in Hcr, Hcw. simpl in Hcr, Hcw.
    split; [lia|lia|lia|]. replace (readers _) with 0 by lia. done.
Qed.

(** What the word says while a reader holds the lock. *)
Lemma guards_reading st ps o :
  guards_ok st ps → ps !! o = Some RHold →
  writers ps = 0 ∧ 1 ≤ readers ps ∧ st = N.of_nat (2 * readers ps) ∧
  last_reader st = bool_decide (readers ps = 1) ∧
  wrapping_sub st ONE_READ = N.of_nat (2 * (readers ps - 1)).
Proof.
  intros [H1 Hx Hst Hb] Ho.
  pose proof (count_pos is_reader _ _ _ Ho eq_refl) as Hpos.
  assert (writers ps = 0) as Hw by lia.
  assert (st = N.of_nat (2 * readers ps)) as Hst' by lia.
  split_and!; [done..| |].
  - unfold last_reader. rewrite Hst', read_count_word by done. change ONE_READ with 2%N.
    apply eq_iff_eq_true. rewrite N.eqb_eq, bool_decide_eq_true. lia.
  - rewrite wrapping_sub_le; change ONE_READ with 2%N; lia.
Qed.

Lemma Inv_unlock_read lk ps wk o :
  Inv (mkState lk ps wk) → ps !! o = Some RHold →
  Inv (mkState (with_state lk (wrapping_sub (state lk) ONE_READ))
         (set_op o (if last_reader (state lk) then Some AnyFlag else None) ps) wk).
Proof.
  intros [Hrwf Hwwf Hrtr Hwtr Hcas Hg Hrw Hww] Ho. simpl in *.
  destruct (guards_reading _ _ _ Hg Ho) as (Hw0 & Hpos & Hst & -> & ->).
  set (pc := if bool_decide _ then _ else _).
  assert (pc ≫= rkey_of = None ∧ pc ≫= wkey_of = None ∧ is_at is_reader pc = 0 ∧
          is_at is_writer pc = 0 ∧ if pc is Some pc then cas_good pc = true else True)
    as (Hrk & Hwk & Hr & Hw & Hc) by (subst pc; by destruct (bool_decide _)).
  split; simpl; auto.
  - by eapply (tracked_no_key _ _ _ _ wk); [..|set_solver].
  - by eapply (tracked_no_key _ _ _ _ wk); [..|set_solver].
  - by apply cas_set.
  - destruct Hg as [H1 Hx _ Hb].
    pose proof (count_set is_reader ps o pc) as Hcr. pose proof (count_set is_writer ps o pc) as Hcw.
    rewrite Ho in Hcr, Hcw. simpl in Hcr, Hcw. split; lia.
  - eapply (read_wake_frame (state lk) _ (rview lk)); [|done|rewrite Ho; by intros ? [= <-]|done].
    intros _. rewrite (guards_write_locked _ _ Hg), Hw0. done.
  - subst pc. destruct (bool_decide (readers ps = 1)) eqn:Hd; [by apply write_wake_by|].
    apply write_wake_taken. apply bool_decide_eq_false in Hd. lia.
Qed.

(** ** Starting *)

(** An operation begins a poll, or a call begins. *)
Lemma Inv_begin lk ps wk o pc :
  Inv (mkState lk ps wk) →
  keys rkey_of ps !! o = rkey_of pc → keys wkey_of ps !! o = wkey_of pc →
  is_at is_reader (ps !! o) = 0 → is_at is_writer (ps !! o) = 0 →
  (∀ pc0, ps !! o = Some pc0 → rwaker pc0 = false) →
  (∃ k, pc = RStart k) ∨ pc = RTry true ∨ (∃ k, pc = WStart k) →
  Inv (mkState lk (<[o:=pc]> ps) (wk ∖ {[o]})).
Proof.
  intros [Hrwf Hwwf Hrtr Hwtr Hcas Hg Hrw Hww] Hrk Hwk Hr Hw Hnw Hpc. simpl in *.
  assert (is_reader pc = false ∧ is_writer pc = false ∧ cas_good pc = true ∧ wwaker pc = true ∧
          (rstarting pc = true ∨ rkey_of pc = None) ∧ (wstarting pc = true ∨ wkey_of pc = None))
    as (Hr' & Hw' & Hc & Hwk' & Hrs & Hws)
    by (destruct Hpc as [[k ->]|[-> |[k ->]]]; simpl; auto 10).
  split; simpl; auto with async.
  - destruct Hrs; [by apply tracked_start with wk|].
    apply (tracked_keyless _ _ _ _ wk _ _ (Some pc)); [done|congruence|done|done].
  - destruct Hws; [by apply tracked_start with wk|].
    apply (tracked_keyless _ _ _ _ wk _ _ (Some pc)); [done|congruence|done|done].
  - by apply (cas_set _ _ (Some pc)).
  - eapply (guards_move _ _ _ _ (Some pc)); [done|done|..]; simpl; [by rewrite Hr, Hr'|by rewrite Hw, Hw'].
  - by eapply (read_wake_frame (state lk) _ (rview lk) _ _ _ (Some pc)).
Qed.

Lemma rw_Inv_step_run lk ps wk o pc pc' lk' l :
  Inv (mkState lk ps wk) → ps !! o = Some pc → active pc = true →
  op_step o pc lk = Done ((pc', lk'), l) →
  Inv (mkState lk' (set_op o pc' ps) (wk ∪ list_to_set l)).
Proof.
  intros HI Ho Hact Hs.
  assert (∀ pc1 lk1, op_step o pc lk = mret (pc1, lk1) → pc' = pc1 ∧ lk' = lk1 ∧ l = []) as Hret
    by (intros pc1 lk1 He; rewrite He in Hs; apply eff_ret_done in Hs as [Hs ->]; by simplify_eq).
  destruct pc; try discriminate Hact;
    first [by eapply Inv_rstart|by eapply Inv_rcas|by eapply Inv_rinsert|by eapply Inv_wstart
          |by eapply Inv_winsert|by eapply Inv_any_notify|by eapply Inv_all_notify|idtac].
  - eapply Inv_after_load; eauto.
  - destruct (Hret _ _ eq_refl) as (-> & -> & ->). rewrite no_wakes. by apply Inv_rload.
  - destruct (Hret _ _ eq_refl) as (-> & -> & ->). rewrite no_wakes.
    eapply Inv_move; [done|done|done..|by destruct (no_readers _); auto| |].
    + eapply (read_wake_frame (state lk) _ (rview lk));
        [done|done|rewrite Ho; by intros ? [= <-]|by apply (inv_rwake _ HI)].
    + unfold no_readers. destruct (N.eqb_spec (N.land (state lk) READ_COUNT_MASK) 0) as [|Hne];
        [by apply write_wake_by|].
      apply write_wake_taken. intros Hz. by rewrite Hz in Hne.
  - unfold op_step in Hs. destruct (try_write lk) as [guard lk1] eqn:Ht.
    apply eff_ret_done in Hs as [[= <- <-] ->]. rewrite no_wakes.
    eapply (Inv_try_write lk ps wk o (λ g : bool, Some (if g then WHold else WInsert)) guard); auto.
  - destruct (Hret _ _ eq_refl) as (-> & -> & ->). rewrite no_wakes. by apply Inv_wload.
  - destruct (Hret _ _ eq_refl) as (-> & -> & ->). rewrite no_wakes. by apply Inv_all_flag.
  - destruct (Hret _ _ eq_refl) as (-> & -> & ->). rewrite no_wakes. by apply Inv_any_flag.
Qed.

Lemma rw_Inv_step s s' : Inv s → step s s' → Inv s'.
Proof.
  intros HI Hs.
  destruct Hs as [lk ps wk o pc pc' lk' l Ho Hact Hrun|lk ps wk o user st pc' lk' l Ho Hal
    |lk ps wk o pc Ho Hpc|lk ps wk o guard lk' Ho Ht|lk ps wk o key Ho|lk ps wk o key Ho
    |lk ps wk o key b ws l Ho Hc|lk ps wk o key b ws l Ho Hc|lk ps wk o v Ho|lk ps wk o Ho
    |lk ps wk o Ho].
  - by eapply rw_Inv_step_run.
  - eapply Inv_after_load; eauto.
  - apply Inv_begin; [done|rewrite keys_at, Ho; by destruct Hpc as [-> |[-> | ->]]..| | | |];
      rewrite ?Ho; [done..|]. destruct Hpc as [-> |[-> | ->]]; eauto.
  - eapply (Inv_try_write lk ps wk o (λ g : bool, if g then Some WHold else None) guard); auto.
  - apply Inv_begin; rewrite ?keys_at, ?Ho; eauto. by intros ? [= <-].
  - apply Inv_begin; rewrite ?keys_at, ?Ho; eauto. by intros ? [= <-].
  - by eapply Inv_cancel_read.
  - by eapply Inv_cancel_write.
  - destruct HI. by split.
  - by apply Inv_unlock_read.
  - by apply Inv_unlock_write.
Qed.

Lemma rw_reachable_Inv s : reachable s → Inv s.
Proof.
  intros [t Hs]. remember (initial t) as s0 eqn:He. pose proof (rw_initial_Inv t) as HI.
  rewrite <- He in HI. clear He. induction Hs as [|s1 s2 s3 H12 _ IH]; [done|].
  apply IH. by eapply rw_Inv_step.
Qed.
End Preservation.
