(* ===== verification/RwLockSpec.v ===== *)
(** What the reader-writer lock guarantees in every interleaving, and what its
    methods do when nothing interrupts them. *)

From stdpp Require Import gmap fin_maps relations.
From S2P Require Import Prelude WakerSet WakerClients RwLock RwLockInv.

(** * The methods are runs of the atomic operations *)

Section Methods.
Context {T WS : Type} `{WakerSetOps WS nat}.
Implicit Types (lk : RwLock WS T) (ps : gmap nat Pc).

Definition read_pc (r : Poll ()) (opt_key : option nat) : Pc :=
  match r, opt_key with
  | Ready _, _ => RHold
  | Pending, Some key => RParked key
  | Pending, None => RStart None
  end.
Definition write_pc (r : Poll ()) (opt_key : option nat) : Pc :=
  match r, opt_key with
  | Ready _, _ => WHold
  | Pending, Some key => WParked key
  | Pending, None => WStart None
  end.

Lemma rw_steps_run lk ps wk o pc pc' lk' l s' :
  active pc = true → op_step o pc lk = Done ((pc', lk'), l) →
  rtc step (mkState lk' (set_op o pc' ps) (wk ∪ list_to_set l)) s' →
  rtc step (mkState lk (<[o:=pc]> ps) wk) s'.
Proof.
  intros Hact Hs Hr. eapply rtc_l; [|exact Hr].
  assert (set_op o pc' ps = set_op o pc' (<[o:=pc]> ps)) as ->
    by (destruct pc'; simpl; [by rewrite insert_insert_eq|by rewrite delete_insert_eq]).
  eapply step_run; [apply lookup_insert_eq|done..].
Qed.

Lemma steps_spurious lk ps wk o user st pc' lk' l s' :
  after_load user (state lk) lk = Done ((pc', lk'), l) →
  rtc step (mkState lk' (set_op o pc' ps) (wk ∪ list_to_set l)) s' →
  rtc step (mkState lk (<[o:=RCas user st]> ps) wk) s'.
Proof.
  intros Hs Hr. eapply rtc_l; [|exact Hr].
  assert (set_op o pc' ps = set_op o pc' (<[o:=RCas user st]> ps)) as ->
    by (destruct pc'; simpl; [by rewrite insert_insert_eq|by rewrite delete_insert_eq]).
  eapply step_spurious; [apply lookup_insert_eq|done].
Qed.

(** [try_read], from the head of its loop with the current word. *)
Lemma try_read_steps weak lk ps wk o user guard lk' l pc1 :
  try_read_loop weak (state lk) lk = Done ((guard, lk'), l) →
  (∀ st pc2, after_load user (state lk) lk = Done ((pc2, lk), []) →
     rtc step (mkState lk (set_op o pc2 ps) wk) st → rtc step (mkState lk (<[o:=pc1]> ps) wk) st) →
  l = [] ∧
  rtc step (mkState lk (<[o:=pc1]> ps) wk)
    (mkState lk' (set_op o (if guard then Some RHold
                            else if user then None else Some RInsert) ps) wk).
Proof.
  revert pc1. induction weak as [|spurious weak IH]; intros pc1 Hl Hhead;
    simpl in Hl; unfold after_load in Hhead; unfold read_head in *;
    destruct (write_locked (state lk)) eqn:Hwl; simpl in Hl, Hhead.
  1, 3: simplify_eq; split; [done|eapply Hhead; [done|apply rtc_refl]].
  1: { destruct (_ <? _)%N; simpl in Hl; [done|]. unfold usize_add in Hl.
       by destruct (_ <? _)%N. }
  destruct (isize_MAX <? state lk)%N eqn:Hmax; simpl in Hl, Hhead; [done|].
  destruct (usize_add (state lk) ONE_READ) as [[new l1]| |] eqn:Ha; simpl in Hl; try done.
  apply usize_add_done in Ha as Hnew. destruct Hnew as [_ ->].
  unfold cas_weak in Hl. rewrite N.eqb_refl, andb_true_r in Hl. destruct spurious; simpl in Hl.
  - destruct (try_read_loop weak (state lk) lk) as [[[g lk1] l2]| |] eqn:Hr; simplify_eq.
    edestruct (IH (RCas user (state lk))) as [-> Hsteps]; [done| |split; [done|]].
    + intros st pc2 Hal Hst. eapply steps_spurious; [exact Hal|]. by rewrite no_wakes.
    + by eapply Hhead.
  - simplify_eq. split; [done|]. eapply Hhead; [done|]. simpl.
    eapply (rw_steps_run _ _ _ _ _ (Some RHold) _ []); [done| |rewrite no_wakes; apply rtc_refl].
    simpl. rewrite Ha. simpl. unfold cas_weak. simpl. by rewrite N.eqb_refl.
Qed.

Lemma ReadFuture_round_steps weak lk ps wk o opt_key r l :
  ReadFuture_round weak o (opt_key, lk) = Done (r, l) →
  rtc step (mkState lk (<[o:=RStart opt_key]> ps) wk)
    match r with
    | inl (opt_key', lk') => mkState lk' (<[o:=RStart opt_key']> ps) (wk ∪ list_to_set l)
    | inr (p, opt_key', lk') => mkState lk' (<[o:=read_pc p opt_key']> ps) (wk ∪ list_to_set l)
    end.
Proof.
  unfold ReadFuture_round. intros Hr.
  apply eff_bind_done in Hr as (lk1 & l1 & l2 & H1 & Hr & ->).
  eapply rw_steps_run; [done|simpl; rewrite H1; simpl; rewrite app_nil_r; reflexivity|]. simpl.
  rewrite list_to_set_app_L, (assoc_L _ wk). generalize (wk ∪ list_to_set l1). clear wk H1.
  intros wk. apply eff_bind_done in Hr as ([guard lk2] & l3 & l4 & H2 & Hr & ->).
  unfold try_read in H2.
  destruct (try_read_steps weak lk1 ps wk o false guard lk2 l3 (RTry false) H2) as [-> Hsteps].
  { intros st pc2 Hal Hst. eapply rw_steps_run; [done|exact Hal|]. by rewrite no_wakes. }
  etrans; [exact Hsteps|]. simpl. destruct guard.
  { apply eff_ret_done in Hr as [<- ->]. simpl. by rewrite no_wakes. }
  apply eff_bind_done in Hr as ([key ws] & l5 & l6 & Hi & Hr & ->). simpl.
  eapply rw_steps_run; [done|simpl; rewrite Hi; reflexivity|]. simpl.
  eapply rw_steps_run; [done|reflexivity|]. simpl in Hr |- *. rewrite no_wakes.
  destruct (write_locked (state lk2)); apply eff_ret_done in Hr as [<- ->]; simpl;
    by rewrite !app_nil_r.
Qed.

Lemma ReadFuture_poll_steps n weak o lk ps wk opt_key p opt_key' lk' l :
  ReadFuture_poll n weak o opt_key lk = Done ((p, opt_key', lk'), l) →
  rtc step (mkState lk (<[o:=RStart opt_key]> ps) wk)
    (mkState lk' (<[o:=read_pc p opt_key']> ps) (wk ∪ list_to_set l)).
Proof.
  unfold ReadFuture_poll. revert lk opt_key wk l.
  induction n as [|n IH]; intros lk opt_key wk l Hp; [discriminate|].
  apply eff_bind_done in Hp as (r & l1 & l2 & Hr & Hp & ->).
  pose proof (ReadFuture_round_steps weak lk ps wk o opt_key r l1 Hr) as Hsteps.
  destruct r as [[opt_key1 lk1]|[[p1 opt_key1] lk1]].
  - etrans; [exact Hsteps|]. rewrite list_to_set_app_L, (assoc_L _ wk). by apply IH.
  - apply eff_ret_done in Hp as [[= -> -> ->] ->]. by rewrite app_nil_r.
Qed.

Lemma WriteFuture_round_steps lk ps wk o opt_key r l :
  WriteFuture_round o (opt_key, lk) = Done (r, l) →
  rtc step (mkState lk (<[o:=WStart opt_key]> ps) wk)
    match r with
    | inl (opt_key', lk') => mkState lk' (<[o:=WStart opt_key']> ps) (wk ∪ list_to_set l)
    | inr (p, opt_key', lk') => mkState lk' (<[o:=write_pc p opt_key']> ps) (wk ∪ list_to_set l)
    end.
Proof.
  unfold WriteFuture_round. intros Hr.
  apply eff_bind_done in Hr as (lk1 & l1 & l2 & H1 & Hr & ->).
  eapply rw_steps_run; [done|simpl; rewrite H1; simpl; rewrite app_nil_r; reflexivity|]. simpl.
  rewrite list_to_set_app_L, (assoc_L _ wk). generalize (wk ∪ list_to_set l1). clear wk H1.
  intros wk. destruct (try_write lk1) as [guard lk2] eqn:Ht.
  eapply rw_steps_run; [done|unfold op_step; rewrite Ht; reflexivity|].
  rewrite no_wakes. destruct guard; simpl.
  { apply eff_ret_done in Hr as [<- ->]. by rewrite no_wakes. }
  apply eff_bind_done in Hr as ([key ws] & l5 & l6 & Hi & Hr & ->).
  eapply rw_steps_run; [done|simpl; rewrite Hi; reflexivity|]. simpl.
  eapply rw_steps_run; [done|reflexivity|]. simpl in Hr |- *. rewrite no_wakes.
  destruct (negb (state lk2 =? 0)%N); apply eff_ret_done in Hr as [<- ->]; simpl;
    by rewrite !app_nil_r.
Qed.

Lemma WriteFuture_poll_steps n o lk ps wk opt_key p opt_key' lk' l :
  WriteFuture_poll n o opt_key lk = Done ((p, opt_key', lk'), l) →
  rtc step (mkState lk (<[o:=WStart opt_key]> ps) wk)
    (mkState lk' (<[o:=write_pc p opt_key']> ps) (wk ∪ list_to_set l)).
Proof.
  unfold WriteFuture_poll. revert lk opt_key wk l.
  induction n as [|n IH]; intros lk opt_key wk l Hp; [discriminate|].
  apply eff_bind_done in Hp as (r & l1 & l2 & Hr & Hp & ->).
  pose proof (WriteFuture_round_steps lk ps wk o opt_key r l1 Hr) as Hsteps.
  destruct r as [[opt_key1 lk1]|[[p1 opt_key1] lk1]].
  - etrans; [exact Hsteps|]. rewrite list_to_set_app_L, (assoc_L _ wk). by apply IH.
  - apply eff_ret_done in Hp as [[= -> -> ->] ->]. by rewrite app_nil_r.
Qed.

(** [write_wakers.notify_any()] and [read_wakers.notify_all()]. *)
Lemma notify_writers_steps lk ps wk o lk' l :
  notify_writers lk = Done (lk', l) →
  rtc step (mkState lk (<[o:=AnyFlag]> ps) wk)
    (mkState lk' (delete o ps) (wk ∪ list_to_set l)).
Proof.
  unfold notify_writers. intros Hn. eapply rw_steps_run; [done|reflexivity|].
  rewrite no_wakes. destruct (wset_any_wanted (write_wakers lk)).
  - apply eff_bind_done in Hn as ([b ws] & l1 & l2 & Hn & Hr & ->).
    apply eff_ret_done in Hr as [<- ->]. eapply rw_steps_run; [done|simpl; rewrite Hn; reflexivity|].
    apply rtc_refl.
  - apply eff_ret_done in Hn as [<- ->]. by rewrite no_wakes.
Qed.

Lemma notify_readers_steps lk ps wk o then_any b lk' l :
  notify_readers lk = Done ((b, lk'), l) →
  rtc step (mkState lk (<[o:=AllFlag then_any]> ps) wk)
    (mkState lk' (set_op o (if negb b && then_any then Some AnyFlag else None) ps)
       (wk ∪ list_to_set l)).
Proof.
  unfold notify_readers. intros Hn. eapply rw_steps_run; [done|reflexivity|].
  rewrite no_wakes. destruct (wset_one_wanted (read_wakers lk)).
  - apply eff_bind_done in Hn as ([b1 ws] & l1 & l2 & Hn & Hr & ->).
    apply eff_ret_done in Hr as [[= <- <-] ->].
    eapply rw_steps_run; [done|simpl; rewrite Hn; reflexivity|]. apply rtc_refl.
  - apply eff_ret_done in Hn as [[= <- <-] ->]. by rewrite no_wakes.
Qed.

Lemma ReadFuture_drop_steps lk ps wk o key lk' l :
  ps !! o = Some (RParked key) → ReadFuture_drop (Some key) lk = Done (lk', l) →
  rtc step (mkState lk ps wk) (mkState lk' (delete o ps) (wk ∪ list_to_set l)).
Proof.
  intros Ho Hd. apply eff_bind_done in Hd as ([b ws] & l1 & l2 & Hc & Hd & ->).
  eapply rtc_l; [by eapply step_cancel_read|].
  rewrite list_to_set_app_L, (assoc_L _ wk). generalize (wk ∪ list_to_set l1). intros wk1.
  eapply rw_steps_run; [done|reflexivity|]. rewrite no_wakes. simpl in Hd |- *.
  destruct (no_readers (state lk)); simpl; [by apply notify_writers_steps|].
  apply eff_ret_done in Hd as [<- ->]. by rewrite no_wakes.
Qed.

Lemma WriteFuture_drop_steps lk ps wk o key lk' l :
  ps !! o = Some (WParked key) → WriteFuture_drop (Some key) lk = Done (lk', l) →
  rtc step (mkState lk ps wk) (mkState lk' (delete o ps) (wk ∪ list_to_set l)).
Proof.
  intros Ho Hd. apply eff_bind_done in Hd as ([b ws] & l1 & l2 & Hc & Hd & ->).
  eapply rtc_l; [by eapply step_cancel_write|].
  rewrite list_to_set_app_L, (assoc_L _ wk). generalize (wk ∪ list_to_set l1). intros wk1.
  destruct b; simpl in *; [apply eff_ret_done in Hd as [<- ->]; by rewrite no_wakes|].
  apply eff_bind_done in Hd as ([b1 lk1] & l3 & l4 & Hn & Hr & ->).
  apply eff_ret_done in Hr as [<- ->]. rewrite app_nil_r.
  pose proof (notify_readers_steps _ ps wk1 o false _ _ _ Hn) as Hsteps.
  by rewrite andb_false_r in Hsteps.
Qed.

Lemma RwLockReadGuard_drop_steps lk ps wk o lk' l :
  ps !! o = Some RHold → RwLockReadGuard_drop lk = Done (lk', l) →
  rtc step (mkState lk ps wk) (mkState lk' (delete o ps) (wk ∪ list_to_set l)).
Proof.
  intros Ho Hd. eapply rtc_l; [by apply step_unlock_read with (o:=o)|].
  unfold RwLockReadGuard_drop in Hd.
  destruct (last_reader (state lk)); simpl in *; [by apply notify_writers_steps|].
  apply eff_ret_done in Hd as [<- ->]. by rewrite no_wakes.
Qed.

Lemma RwLockWriteGuard_drop_steps lk ps wk o lk' l :
  ps !! o = Some WHold → RwLockWriteGuard_drop lk = Done (lk', l) →
  rtc step (mkState lk ps wk) (mkState lk' (delete o ps) (wk ∪ list_to_set l)).
Proof.
  intros Ho Hd. eapply rtc_l; [by apply step_unlock_write with (o:=o)|].
  unfold RwLockWriteGuard_drop in Hd.
  apply eff_bind_done in Hd as ([b lk1] & l1 & l2 & Hn & Hd & ->).
  etrans; [by eapply notify_readers_steps|].
  rewrite list_to_set_app_L, (assoc_L _ wk), andb_true_r.
  destruct b; simpl in *; [apply eff_ret_done in Hd as [<- ->]; by rewrite no_wakes|].
  by apply notify_writers_steps.
Qed.
End Methods.

(** * Schedules *)

Inductive Ev (T : Type) : Type :=
| EvRun (o : nat) | EvSpurious (o : nat) | EvCall (o : nat) (pc : Pc) | EvTryWrite (o : nat)
| EvPoll (o : nat) | EvCancel (o : nat) | EvWrite (o : nat) (v : T) | EvUnlock (o : nat).
Arguments EvRun {T} _.
Arguments EvSpurious {T} _.
Arguments EvCall {T} _ _.
Arguments EvTryWrite {T} _.
Arguments EvPoll {T} _.
Arguments EvCancel {T} _.
Arguments EvWrite {T} _ _.
Arguments EvUnlock {T} _.

Section Schedules.
Context {T WS : Type} `{WakerSetOps WS nat}.
Implicit Types (s : State (T:=T) (WS:=WS)).

Definition exec (e : Ev T) (s : State (T:=T) (WS:=WS)) : option (State (T:=T) (WS:=WS)) :=
  let '(mkState lk ps wk) := s in
  match e with
  | EvRun o =>
      pc ← ps !! o;
      if active pc then
        match op_step o pc lk with
        | Done ((pc', lk'), l) => Some (mkState lk' (set_op o pc' ps) (wk ∪ list_to_set l))
        | _ => None
        end
      else None
  | EvSpurious o =>
      if ps !! o is Some (RCas user st) then
        match after_load user (state lk) lk with
        | Done ((pc', lk'), l) => Some (mkState lk' (set_op o pc' ps) (wk ∪ list_to_set l))
        | _ => None
        end
      else None
  | EvCall o pc =>
      if ps !! o is None then
        match pc with
        | RStart None | RTry true | WStart None => Some (mkState lk (<[o:=pc]> ps) (wk ∖ {[o]}))
        | _ => None
        end
      else None
  | EvTryWrite o =>
      if ps !! o is None then
        let '(guard, lk') := try_write lk in
        Some (mkState lk' (set_op o (if guard then Some WHold else None) ps) wk)
      else None
  | EvPoll o =>
      match ps !! o with
      | Some (RParked key) => Some (mkState lk (<[o:=RStart (Some key)]> ps) (wk ∖ {[o]}))
      | Some (WParked key) => Some (mkState lk (<[o:=WStart (Some key)]> ps) (wk ∖ {[o]}))
      | _ => None
      end
  | EvCancel o =>
      match ps !! o with
      | Some (RParked key) =>
          match wset_cancel key (read_wakers lk) with
          | Done ((b, ws), l) =>
              Some (mkState (with_read_wakers lk ws) (<[o:=RCancelled]> ps) (wk ∪ list_to_set l))
          | _ => None
          end
      | Some (WParked key) =>
          match wset_cancel key (write_wakers lk) with
          | Done ((b, ws), l) =>
              Some (mkState (with_write_wakers lk ws)
                (set_op o (if negb b then Some (AllFlag false) else None) ps)
                (wk ∪ list_to_set l))
          | _ => None
          end
      | _ => None
      end
  | EvWrite o v =>
      if ps !! o is Some WHold then Some (mkState (get_mut v lk) ps wk) else None
  | EvUnlock o =>
      match ps !! o with
      | Some RHold =>
          Some (mkState (with_state lk (wrapping_sub (state lk) ONE_READ))
            (set_op o (if last_reader (state lk) then Some AnyFlag else None) ps) wk)
      | Some WHold => Some (mkState (with_state lk 0) (<[o:=AllFlag true]> ps) wk)
      | _ => None
      end
  end.

Fixpoint exec_all (es : list (Ev T)) (s : State (T:=T) (WS:=WS)) : option (State (T:=T) (WS:=WS)) :=
  match es with
  | [] => Some s
  | e :: es => s' ← exec e s; exec_all es s'
  end.

Lemma rw_exec_step e s s' : exec e s = Some s' → step s s'.
Proof.
  destruct s as [lk ps wk]. intros He.
  destruct e as [o|o|o pc0|o|o|o|o v|o]; simpl in He; destruct (ps !! o) as [pc|] eqn:Ho;
    simpl in He; try discriminate He; try (destruct pc; discriminate He).
  - destruct (active pc) eqn:Ha; [|done].
    destruct (op_step o pc lk) as [[[pc' lk'] l]| |] eqn:Hs; simplify_eq. by eapply step_run.
  - destruct pc; try done.
    destruct (after_load user (state lk) lk) as [[[pc' lk'] l]| |] eqn:Hs; simplify_eq.
    by eapply step_spurious.
  - destruct pc0 as [[]|[]| | | | | | |[]| | | | | | | | |]; try done; simplify_eq;
      apply step_call; auto.
  - destruct (try_write lk) as [guard lk'] eqn:Ht. injection He as <-. by eapply step_try_write.
  - destruct pc; simplify_eq; [by apply step_poll_read|by apply step_poll_write].
  - destruct pc; try done.
    + destruct (wset_cancel key (read_wakers lk)) as [[[b ws] l]| |] eqn:Hd; simplify_eq.
      by eapply step_cancel_read.
    + destruct (wset_cancel key (write_wakers lk)) as [[[b ws] l]| |] eqn:Hd; simplify_eq.
      by eapply step_cancel_write.
  - destruct pc; simplify_eq. by apply step_write with (o:=o).
  - destruct pc; simplify_eq; [by apply step_unlock_read|by apply step_unlock_write].
Qed.

Lemma rw_exec_all_steps es s s' : exec_all es s = Some s' → rtc step s s'.
Proof.
  revert s. induction es as [|e es IH]; intros s He; simpl in He; [by simplify_eq|].
  destruct (exec e s) as [s1|] eqn:H1; [|done]. eapply rtc_l; [by eapply rw_exec_step|by apply IH].
Qed.

Lemma rw_exec_reachable (t : T) es s : exec_all es (initial t) = Some s → reachable s.
Proof. intros He. exists t. by eapply rw_exec_all_steps. Qed.
End Schedules.

(** * What the lock guarantees *)

Section Facts.
Context {T WS : Type} `{WakerSetLaws WS nat}.
Implicit Types (lk : RwLock WS T) (s : State (T:=T) (WS:=WS)).

(** A notified entry belongs to an operation that was woken, or is at work. *)
Lemma notified_reader s k :
  Inv s → rview (lock s) !! k = Some None →
  (∃ o k', ops s !! o = Some (RParked k') ∧ o ∈ woken s) ∨
  ∃ o pc, ops s !! o = Some pc ∧ active pc = true.
Proof.
  intros HI Hk. destruct (tracked_owner _ _ _ _ _ _ _ (inv_rtracked _ HI) Hk)
    as (o & pc & Hpc & Hkey & Hwk). destruct pc; simpl in *; try discriminate Hkey; eauto 8.
Qed.

Lemma notified_writer s k :
  Inv s → wview (lock s) !! k = Some None →
  (∃ o k', ops s !! o = Some (WParked k') ∧ o ∈ woken s) ∨
  ∃ o pc, ops s !! o = Some pc ∧ active pc = true.
Proof.
  intros HI Hk. destruct (tracked_owner _ _ _ _ _ _ _ (inv_wtracked _ HI) Hk)
    as (o & pc & Hpc & Hkey & Hwk). destruct pc; simpl in *; try discriminate Hkey; eauto 8.
Qed.

(** With fewer than [2^61] operations the read count is far from its bound. *)
Lemma read_head_total s user :
  Inv s → (N.of_nat (size (ops s)) < 2 ^ 61)%N →
  ∃ r, after_load user (state (lock s)) (lock s) = Done r.
Proof.
  intros HI Hb. destruct (inv_guards _ HI) as [H1 _ Hst _].
  pose proof (count_le is_reader (ops s)) as Hle.
  unfold after_load, read_head. destruct (write_locked _); simpl; [by eexists|].
  destruct (N.ltb_spec isize_MAX (state (lock s))) as [Hlt|]; simpl; [|by eexists].
  unfold isize_MAX in Hlt. lia.
Qed.

Lemma try_read_free weak lk :
  write_locked (state lk) = false → (state lk <= isize_MAX)%N → false ∈ weak →
  try_read weak lk = Done ((true, with_state lk (state lk + ONE_READ)%N), []).
Proof.
  intros Hl Hle Hin. unfold try_read. induction weak as [|spurious weak IH];
    [by apply not_elem_of_nil in Hin|]. simpl. unfold read_head. rewrite Hl.
  destruct (N.ltb_spec isize_MAX (state lk)); [lia|]. simpl. rewrite usize_add_ok
    by (change ONE_READ with 2%N; unfold isize_MAX, usize_modulus, usize_bits in *; lia).
  simpl. unfold cas_weak. rewrite N.eqb_refl, andb_true_r. destruct spurious; [|done]. simpl.
  rewrite IH; [done|]. by apply elem_of_cons in Hin as [|].
Qed.

Lemma try_read_taken weak lk :
  write_locked (state lk) = true → try_read weak lk = Done ((false, lk), []).
Proof.
  intros Hl. unfold try_read. destruct weak; simpl; unfold read_head; rewrite Hl; done.
Qed.
End Facts.

Section Theorems.
Context {T WS : Type} `{WakerSetLaws WS nat}.
Implicit Types (lk : RwLock WS T) (s : State (T:=T) (WS:=WS)).

(** C3 Exclusion of [RwLock], whatever the interleaving of [read], [try_read]
    with spurious failures of its exchange, [write], [try_write], polls,
    cancellations and drops of guards: a write guard excludes every other
    guard, the state word is twice the number of read guards plus the number of
    write guards, and only a write guard changes the value. *)
Theorem rwlock_exclusion s :
    reachable s →
    (∀ o1 o2, ops s !! o1 = Some WHold → ops s !! o2 = Some WHold → o1 = o2) ∧
    (∀ o1 o2, ops s !! o1 = Some WHold → ops s !! o2 ≠ Some RHold) ∧
    state (lock s) = N.of_nat (2 * readers (ops s) + writers (ops s)) ∧
    ∀ s', step s s' → value (lock s') ≠ value (lock s) → ∃ o, ops s !! o = Some WHold.
Proof.
  intros HI%rw_reachable_Inv. destruct (inv_guards _ HI) as [H1 Hx Hst _]. split_and!; [| |done|].
  - intros o1 o2 Ho1 Ho2. by eapply (count_unique is_writer).
  - intros o1 o2 Ho1 Ho2. pose proof (count_pos is_writer _ _ _ Ho1 eq_refl).
    pose proof (count_pos is_reader _ _ _ Ho2 eq_refl). lia.
  - intros s' Hs Hv.
    destruct Hs as [lk ps wk o pc pc' lk' l Ho Hact Hrun|lk ps wk o user st pc' lk' l Ho Hal
      |lk ps wk o pc Ho Hpc|lk ps wk o guard lk' Ho Ht|lk ps wk o key Ho|lk ps wk o key Ho
      |lk ps wk o key b ws l Ho Hc|lk ps wk o key b ws l Ho Hc|lk ps wk o v Ho|lk ps wk o Ho
      |lk ps wk o Ho]; simpl in *; eauto; destruct Hv; try done.
    + destruct pc as [[]| | | | | | | |[]| | | | | | | | |]; simpl in Hrun;
        unfold after_load, cas_weak, try_write in Hrun; simpl in Hrun; inv_eff;
        repeat case_match; by simplify_eq.
    + unfold after_load in Hal. by inv_eff.
    + unfold try_write in Ht. by case_match; simplify_eq.
Qed.

(** C4 No wakeup of [RwLock] is lost.  While no write guard exists, a parked
    reader has been woken or all readers are about to be notified; while the
    lock is free and a writer is parked, some parked operation has been woken or
    some operation is still in the middle of its code. *)
Theorem rwlock_no_lost_wakeup s o k :
    reachable s →
    (write_locked (state (lock s)) = false → ops s !! o = Some (RParked k) →
       o ∈ woken s ∨ ∃ o' b, ops s !! o' = Some (AllFlag b) ∨ ops s !! o' = Some (AllNotify b)) ∧
    (state (lock s) = 0%N → ops s !! o = Some (WParked k) →
       (∃ o' k', (ops s !! o' = Some (RParked k') ∨ ops s !! o' = Some (WParked k')) ∧
                 o' ∈ woken s) ∨
       ∃ o' pc, ops s !! o' = Some pc ∧ active pc = true).
Proof.
  intros HI%rw_reachable_Inv. split.
  - intros Hl Ho.
    destruct (tracked_entry _ _ _ _ _ _ _ k (inv_rtracked _ HI) Ho) as [Hw|]; [done..| |by left].
    right. destruct (inv_rwake _ HI Hl _ _ Hw) as [(pc & Hpc & Hor)|]; [|done].
    destruct Hor; simplify_eq.
  - intros Hz Ho.
    destruct (tracked_entry _ _ _ _ _ _ _ k (inv_wtracked _ HI) Ho) as [Hw|]; [done..| |eauto 6].
    destruct (inv_wwake _ HI Hz) as [[k' Hk']|[[k' Hk']|(o' & pc & Hpc & Hwk)]]; [by eauto|..].
    + destruct (notified_writer _ _ HI Hk') as [(o1 & k1 & Ho1 & Hin)|?]; [left|by right].
      exists o1, k1. auto.
    + destruct (notified_reader _ _ HI Hk') as [(o1 & k1 & Ho1 & Hin)|?]; [left|by right].
      exists o1, k1. auto.
    + right. exists o', pc. split; [done|]. by destruct pc.
Qed.

(** No operation on an [RwLock] panics or aborts (keys are removed once,
    the word neither overflows nor exceeds [isize::MAX], counters do not
    underflow), in any interleaving of fewer than [2^61] operations; nor does
    dropping a parked future. *)
Theorem rwlock_never_panics s :
    reachable s → (N.of_nat (size (ops s)) < 2 ^ 61)%N →
    (∀ o pc, ops s !! o = Some pc → active pc = true → ∃ r, op_step o pc (lock s) = Done r) ∧
    (∀ o k, ops s !! o = Some (RParked k) → ∃ r, wset_cancel k (read_wakers (lock s)) = Done r) ∧
    (∀ o k, ops s !! o = Some (WParked k) → ∃ r, wset_cancel k (write_wakers (lock s)) = Done r).
Proof.
  intros HI%rw_reachable_Inv Hb. pose proof HI as [Hrwf Hwwf Hrtr Hwtr Hcas _ _ _].
  pose proof (tracked_size _ _ _ _ _ Hrtr) as Hrsz. pose proof (tracked_size _ _ _ _ _ Hwtr) as Hwsz.
  assert (∀ n : nat, n ≤ size (ops s) → (N.of_nat n + 1 < usize_modulus)%N) as Hn
    by (intros n Hn; unfold usize_modulus, usize_bits; lia).
  split_and!.
  - intros o pc Ho Hact. destruct pc as [[key|]|user|user st| |key| | | |[key|]| | |key| | |b|b| |];
      simpl; try discriminate Hact; try by eexists.
    + destruct (wset_remove_spec key (read_wakers (lock s)) Hrwf) as (ws & -> & _);
        [by eapply tracked_in|by eexists].
    + by apply read_head_total.
    + pose proof (Hcas _ _ Ho) as [_ Hle%N.leb_le]%andb_true_iff.
      rewrite usize_add_ok by (change ONE_READ with 2%N; unfold isize_MAX, usize_modulus, usize_bits in *; lia).
      simpl. unfold cas_weak. simpl. destruct (_ =? _)%N; [by eexists|].
      destruct (read_head_total s user HI Hb) as [[[pc lk1] l] ->]. by eexists.
    + destruct (wset_insert_total o (read_wakers (lock s)) Hrwf) as [[[key ws] l] ->];
        [by apply Hn|by eexists].
    + destruct (wset_remove_spec key (write_wakers (lock s)) Hwwf) as (ws & -> & _);
        [by eapply tracked_in|by eexists].
    + unfold try_write. case_match; by eexists.
    + destruct (wset_insert_total o (write_wakers (lock s)) Hwwf) as [[[key ws] l] ->];
        [by apply Hn|by eexists].
    + destruct (wset_notify_spec NotifyAll (read_wakers (lock s)) Hrwf) as (ws & kl & -> & _).
      by eexists.
    + destruct (wset_notify_spec NotifyAny (write_wakers (lock s)) Hwwf) as (ws & kl & -> & _).
      by eexists.
  - intros o k Ho. destruct (tracked_in _ _ _ _ _ _ _ k Hrtr Ho eq_refl) as [x Hx].
    destruct (wset_cancel_spec k _ x Hrwf Hx) as (ws & kl & Hc & _). rewrite Hc. by eexists.
  - intros o k Ho. destruct (tracked_in _ _ _ _ _ _ _ k Hwtr Ho eq_refl) as [x Hx].
    destruct (wset_cancel_spec k _ x Hwwf Hx) as (ws & kl & Hc & _). rewrite Hc. by eexists.
Qed.

(** An uninterrupted [ReadFuture::poll] leaves its loop in the first round:
    ready with one more reader when no writer holds the lock, however many
    exchanges fail spuriously first; otherwise pending, with its waker in a fresh
    entry of [read_wakers]. *)
Theorem rwlock_read_poll s o opt_key weak :
    reachable s → ops s !! o = Some (RStart opt_key) → false ∈ weak →
    (N.of_nat (size (ops s)) < 2 ^ 61)%N →
    ∃ key ws, let lk := lock s in
      ReadFuture_poll 1 weak o opt_key lk =
      Done (if write_locked (state lk)
            then (Pending, Some key, with_read_wakers lk ws)
            else (Ready tt, None, with_state (with_read_wakers lk ws) (state lk + ONE_READ)%N), []) ∧
      wset_wf ws ∧
      let m := if opt_key is Some k then delete k (rview lk) else rview lk in
      if write_locked (state lk) then m !! key = None ∧ wset_view ws = <[key:=Some o]> m
      else wset_view ws = m.
Proof.
  intros HI%rw_reachable_Inv Ho Hin Hb. pose proof (tracked_size _ _ _ _ _ (inv_rtracked _ HI)) as Hsz.
  destruct (inv_guards _ HI) as [H1 _ Hst _]. pose proof (count_le is_reader (ops s)) as Hle.
  destruct s as [lk ps wk]. simpl in *. set (m := if opt_key is Some k then _ else _).
  assert (∃ ws1, take_read_key opt_key lk = Done (with_read_wakers lk ws1, []) ∧
    wset_wf ws1 ∧ wset_view ws1 = m) as (ws1 & Hrm & Hwf1 & Hv1).
  { destruct opt_key as [k|]; [|exists (read_wakers lk); split_and!; [by destruct lk|apply (inv_rwf _ HI)|done]].
    destruct (wset_remove_spec k (read_wakers lk) (inv_rwf _ HI)) as (ws1 & Hr & Hwf1 & Hv1);
      [by eapply tracked_in; [apply (inv_rtracked _ HI)|..]|].
    exists ws1. simpl. by rewrite Hr. }
  assert (size m ≤ size ps) as Hm.
  { etrans; [|exact Hsz]. subst m. destruct opt_key; [|done].
    rewrite <- !size_dom. apply subseteq_size. rewrite dom_delete. set_solver. }
  unfold ReadFuture_poll. simpl. rewrite Hrm. simpl.
  destruct (write_locked (state lk)) eqn:Hl.
  - rewrite try_read_taken by done. simpl. destruct (wset_insert_total o ws1 Hwf1) as [[[key ws2] l] Hi].
    { rewrite Hv1. unfold usize_modulus, usize_bits. lia. }
    destruct (wset_insert_spec _ _ _ _ _ Hwf1 Hi) as (Hwf2 & -> & Hk & Hv2).
    exists key, ws2. rewrite Hi. simpl. rewrite Hl. simpl. split_and!; try done; by rewrite <- Hv1.
  - rewrite try_read_free; [|done| |done]; [by exists 0, ws1|]. simpl. unfold isize_MAX. lia.
Qed.

(** The methods of the source, run without interruption, are runs of the
    atomic operations of the interleaving model: polls of both futures, their
    cancellations, and the drops of both guards. *)
Theorem rwlock_methods_are_steps ps wk o lk :
    (∀ n weak opt_key p opt_key' lk' l,
       ReadFuture_poll n weak o opt_key lk = Done ((p, opt_key', lk'), l) →
       rtc step (mkState lk (<[o:=RStart opt_key]> ps) wk)
         (mkState lk' (<[o:=read_pc p opt_key']> ps) (wk ∪ list_to_set l))) ∧
    (∀ n opt_key p opt_key' lk' l,
       WriteFuture_poll n o opt_key lk = Done ((p, opt_key', lk'), l) →
       rtc step (mkState lk (<[o:=WStart opt_key]> ps) wk)
         (mkState lk' (<[o:=write_pc p opt_key']> ps) (wk ∪ list_to_set l))) ∧
    (∀ pc drop lk' l, ps !! o = Some pc → drop lk = Done (lk', l) →
       (∃ k, pc = RParked k ∧ drop = ReadFuture_drop (Some k)) ∨
       (∃ k, pc = WParked k ∧ drop = WriteFuture_drop (Some k)) ∨
       (pc = RHold ∧ drop = RwLockReadGuard_drop) ∨
       (pc = WHold ∧ drop = RwLockWriteGuard_drop) →
       rtc step (mkState lk ps wk) (mkState lk' (delete o ps) (wk ∪ list_to_set l))).
Proof.
  split_and!; intros *; [by apply ReadFuture_poll_steps|by apply WriteFuture_poll_steps|].
  intros Ho Hd [(k & -> & ->)|[(k & -> & ->)|[[-> ->]|[-> ->]]]].
  - by eapply ReadFuture_drop_steps.
  - by eapply WriteFuture_drop_steps.
  - by eapply RwLockReadGuard_drop_steps.
  - by eapply RwLockWriteGuard_drop_steps.
Qed.
End Theorems.

(** * Witnesses: the waker set of the source over a concrete slab *)

Abbreviation RWS := (WakerSet (gmap nat (option nat))).

(** Operation 0 writes; 1 (a reader) and 2 (a writer) park; 0 unlocks and
    notifies the readers. *)
Definition contended : list (Ev nat) :=
  [EvTryWrite 0;
   EvCall 1 (RStart None); EvRun 1; EvRun 1; EvRun 1; EvRun 1;
   EvCall 2 (WStart None); EvRun 2; EvRun 2; EvRun 2; EvRun 2;
   EvWrite 0 7; EvUnlock 0; EvRun 0; EvRun 0].
Definition contended_state : State (T:=nat) (WS:=RWS) :=
  default (initial 0) (exec_all contended (initial 0)).

(** Then 1 is polled, its exchange failing once. *)
Definition reading : list (Ev nat) := contended ++ [EvPoll 1].
Definition reading_state : State (T:=nat) (WS:=RWS) :=
  default (initial 0) (exec_all reading (initial 0)).

Lemma rw_contended_reachable : reachable contended_state.
Proof. apply (rw_exec_reachable 0 contended). vm_compute. reflexivity. Qed.
Lemma reading_reachable : reachable reading_state.
Proof. apply (rw_exec_reachable 0 reading). vm_compute. reflexivity. Qed.

Lemma rwlock_exclusion_witness :
  state (lock contended_state) =
  N.of_nat (2 * readers (ops contended_state) + writers (ops contended_state)).
Proof. apply (rwlock_exclusion _ rw_contended_reachable). Defined.

Lemma rwlock_no_lost_wakeup_witness :
  (∃ o' k', (ops contended_state !! o' = Some (RParked k') ∨
             ops contended_state !! o' = Some (WParked k')) ∧ o' ∈ woken contended_state) ∨
  ∃ o' pc, ops contended_state !! o' = Some pc ∧ active pc = true.
Proof.
  apply (rwlock_no_lost_wakeup contended_state 2 0 rw_contended_reachable);
    vm_compute; reflexivity.
Defined.

Lemma rwlock_never_panics_witness :
  ∃ r, wset_cancel 0 (read_wakers (lock contended_state)) = Done r.
Proof.
  apply (rwlock_never_panics contended_state rw_contended_reachable) with (o := 1);
    vm_compute; reflexivity.
Defined.

Lemma rwlock_read_poll_witness :
  ∃ key ws, ReadFuture_poll 1 [true; false] 1 (Some 0) (lock reading_state) =
    Done (if write_locked (state (lock reading_state))
          then (Pending, Some key, with_read_wakers (lock reading_state) ws)
          else (Ready tt, None,
                with_state (with_read_wakers (lock reading_state) ws)
                  (state (lock reading_state) + ONE_READ)%N), []).
Proof.
  destruct (rwlock_read_poll reading_state 1 (Some 0) [true; false]) as (key & ws & Hp & _).
  - apply reading_reachable.
  - vm_compute. reflexivity.
  - right. left.
  - vm_compute. reflexivity.
  - exists key, ws. exact Hp.
Defined.

Lemma rwlock_methods_are_steps_witness :
  let lk : RwLock RWS nat := mkRwLock WRITE_LOCK wset_new wset_new 5 in
  rtc step (mkState lk {[0:=WHold]} ∅)
    (mkState (mkRwLock 0 wset_new wset_new 5) (delete 0 {[0:=WHold]}) (∅ ∪ list_to_set [])).
Proof.
  apply (rwlock_methods_are_steps {[0:=WHold]} ∅ 0 (mkRwLock WRITE_LOCK wset_new wset_new 5))
    with (pc := WHold) (drop := RwLockWriteGuard_drop); [vm_compute; reflexivity..|auto 6].
Defined.
