(* ===== verification/Stamps.v ===== *)
(** The stamps of the channel (src/src/sync/channel.rs): the head, the tail and
    the slots hold a lap, a mark bit and an index into the buffer, packed into
    one word.  Here the word of the [p]-th message ever sent is computed, and the
    bit operations of the code on such words, wrap-around of the lap included. *)

From S2P Require Import Prelude.
Local Open Scope N_scope.

Section Stamps.
(** The mark bit is bit [k]; the capacity fits below it. *)
Context (k C : N).

(** The word of position [p], and the same with the mark bit. *)
Definition stamp_of (p : N) : N := (p / C * 2 ^ (k + 1) + p mod C) mod usize_modulus.
Definition word (p : N) (mark : bool) : N := stamp_of p + (if mark then 2 ^ k else 0).
(** The positions after which the words repeat. *)
Definition period : N := C * 2 ^ (63 - k).

Context (HC : 0 < C < 2 ^ k) (Hk : k <= 62).

Lemma modulus_laps : usize_modulus = 2 ^ (k + 1) * 2 ^ (63 - k).
Proof. unfold usize_modulus, usize_bits. rewrite <- N.pow_add_r. f_equal. lia. Qed.
Lemma lap_double : 2 ^ (k + 1) = 2 * 2 ^ k.
Proof. rewrite N.add_1_r, N.pow_succ_r'. lia. Qed.
Lemma index_lt p : p mod C < C.
Proof. apply N.mod_lt. lia. Qed.

Lemma stamp_form p :
  stamp_of p = 2 ^ (k + 1) * ((p / C) mod 2 ^ (63 - k)) + p mod C.
Proof.
  unfold stamp_of. pose proof (index_lt p). pose proof lap_double.
  rewrite modulus_laps, N.Div0.mod_mul_r.
  assert ((p / C * 2 ^ (k + 1) + p mod C) mod 2 ^ (k + 1) = p mod C) as ->.
  { rewrite N.add_comm, N.Div0.mod_add. apply N.mod_small. lia. }
  rewrite N.div_add_l, (N.div_small (p mod C)) by lia. rewrite N.add_0_r. lia.
Qed.

Lemma stamp_lt p : stamp_of p + 2 ^ (k + 1) <= usize_modulus + p mod C.
Proof.
  rewrite stamp_form, modulus_laps.
  pose proof (N.mod_lt (p / C) (2 ^ (63 - k)) ltac:(apply N.pow_nonzero; lia)). nia.
Qed.

Lemma word_lt p (b : bool) : word p b + 1 < usize_modulus.
Proof.
  unfold word. pose proof (stamp_lt p). pose proof (index_lt p). pose proof lap_double.
  destruct b; lia.
Qed.

(** ** The bit operations *)

Lemma stamp_mark p : N.land (stamp_of p) (2 ^ k) = 0.
Proof.
  apply N.bits_inj_iff. intros n. rewrite N.land_spec, N.bits_0, N.pow2_bits_eqb.
  destruct (N.eqb_spec k n) as [<-|]; [|by rewrite andb_false_r]. rewrite andb_true_r.
  rewrite N.testbit_eqb, stamp_form, lap_double.
  pose proof (index_lt p).
  replace (2 * 2 ^ k * ((p / C) mod 2 ^ (63 - k)) + p mod C)
    with (p mod C + 2 * ((p / C) mod 2 ^ (63 - k)) * 2 ^ k) by lia.
  rewrite N.div_add by lia. rewrite (N.div_small (p mod C)) by lia.
  by rewrite N.add_0_l, N.mul_comm, N.Div0.mod_mul.
Qed.

Lemma word_lxor p (b : bool) : word p b = N.lxor (stamp_of p) (if b then 2 ^ k else 0).
Proof.
  unfold word. destruct b; [|by rewrite N.lxor_0_r, N.add_0_r].
  apply N.add_nocarry_lxor, stamp_mark.
Qed.

Lemma word_lor p (b : bool) : N.lor (stamp_of p) (if b then 2 ^ k else 0) = word p b.
Proof.
  rewrite word_lxor. destruct b; [|by rewrite N.lor_0_r, N.lxor_0_r].
  symmetry. apply N.lxor_lor, stamp_mark.
Qed.

Lemma word_mark p (b : bool) : N.land (word p b) (2 ^ k) = if b then 2 ^ k else 0.
Proof.
  rewrite <- word_lor, N.land_lor_distr_l, stamp_mark, N.lor_0_l.
  destruct b; [apply N.land_diag|apply N.land_0_l].
Qed.

Lemma word_unmark p (b : bool) : N.lxor (word p b) (if b then 2 ^ k else 0) = stamp_of p.
Proof. by rewrite word_lxor, N.lxor_assoc, N.lxor_nilpotent, N.lxor_0_r. Qed.

Lemma land_not a b : a < usize_modulus → N.land a (usize_not b) = N.ldiff a b.
Proof.
  intros Ha. unfold usize_not. symmetry. apply N.ldiff_land_low.
  destruct (decide (a = 0)) as [->|]; [done|]. apply N.log2_lt_pow2; [lia|exact Ha].
Qed.

Lemma word_not_mark p (b : bool) : N.land (word p b) (usize_not (2 ^ k)) = stamp_of p.
Proof.
  pose proof (word_lt p b). rewrite land_not by lia.
  rewrite <- word_lor. apply N.bits_inj. intros n.
  assert (N.testbit (N.land (stamp_of p) (2 ^ k)) n = false) as Hm
    by (rewrite stamp_mark; apply N.bits_0).
  rewrite N.land_spec in Hm. rewrite N.ldiff_spec, N.lor_spec.
  destruct b; rewrite ?N.bits_0;
    destruct (N.testbit (stamp_of p) n), (N.testbit (2 ^ k) n); done.
Qed.

Lemma word_index p (b : bool) : N.land (word p b) (2 ^ k - 1) = p mod C.
Proof.
  rewrite N.sub_1_r, <- N.ones_equiv, N.land_ones. unfold word. rewrite stamp_form, lap_double.
  pose proof (index_lt p).
  replace (2 * 2 ^ k * ((p / C) mod 2 ^ (63 - k)) + p mod C + (if b then 2 ^ k else 0))
    with (p mod C + (2 * ((p / C) mod 2 ^ (63 - k)) + (if b then 1 else 0)) * 2 ^ k)
    by (destruct b; lia).
  rewrite N.Div0.mod_add. apply N.mod_small. lia.
Qed.

Lemma word_false p : word p false = stamp_of p.
Proof. unfold word. lia. Qed.

Lemma stamp_index p : N.land (stamp_of p) (2 ^ k - 1) = p mod C.
Proof. rewrite <- word_false. apply word_index. Qed.

Lemma stamp_lap p :
  N.land (stamp_of p) (usize_not (2 ^ (k + 1) - 1)) = stamp_of p - p mod C.
Proof.
  pose proof (word_lt p false) as Hlt. rewrite word_false in Hlt. rewrite land_not by lia.
  rewrite N.sub_1_r, <- N.ones_equiv, N.ldiff_ones_r, N.shiftr_div_pow2, N.shiftl_mul_pow2.
  rewrite stamp_form. pose proof (index_lt p). pose proof lap_double.
  rewrite (N.mul_comm (2 ^ (k + 1))), N.div_add_l by lia.
  rewrite (N.div_small (p mod C)) by lia. by rewrite N.add_0_r, N.add_sub.
Qed.

(** ** The next positions *)

Lemma stamp_next p :
  p mod C + 1 < C → stamp_of (p + 1) = stamp_of p + 1.
Proof.
  intros Hi. rewrite !stamp_form.
  assert ((p + 1) / C = p / C /\ (p + 1) mod C = p mod C + 1) as [-> ->]; [|lia].
  pose proof (N.div_mod p C ltac:(lia)) as Hp.
  split; symmetry; [apply (N.div_unique _ _ _ (p mod C + 1))|apply (N.mod_unique _ _ (p / C))]; lia.
Qed.

Lemma stamp_lap_next p : wrapping_add (stamp_of p) (2 ^ (k + 1)) = stamp_of (p + C).
Proof.
  unfold wrapping_add, stamp_of. rewrite N.Div0.add_mod_idemp_l.
  assert ((p + C) / C = p / C + 1 /\ (p + C) mod C = p mod C) as [-> ->].
  { replace (p + C) with (p + 1 * C) by lia. split; [apply N.div_add; lia|apply N.Div0.mod_add]. }
  f_equal. lia.
Qed.

Lemma stamp_wrap p :
  p mod C + 1 = C → wrapping_add (stamp_of p - p mod C) (2 ^ (k + 1)) = stamp_of (p + 1).
Proof.
  intros Hi. pose proof (N.div_mod p C ltac:(lia)) as Hp.
  assert (stamp_of p - p mod C = stamp_of (p - p mod C)) as ->.
  { rewrite !stamp_form.
    assert ((p - p mod C) / C = p / C /\ (p - p mod C) mod C = 0) as [-> ->];
      [|by rewrite N.add_0_r, N.add_sub].
    set (i := p mod C) in *. set (l := p / C) in *. clearbody i l.
    split; symmetry; [apply (N.div_unique _ _ _ 0)|apply (N.mod_unique _ _ l)]; lia. }
  rewrite stamp_lap_next. f_equal. pose proof (N.Div0.mod_le p C). lia.
Qed.

(** ** Which words are equal *)

Lemma stamp_inj p q : stamp_of p = stamp_of q → p < q + period → q < p + period → p = q.
Proof.
  rewrite !stamp_form. unfold period. intros He Hp Hq.
  pose proof (index_lt p). pose proof (index_lt q). pose proof lap_double.
  pose proof (N.div_mod p C ltac:(lia)) as Hpd. pose proof (N.div_mod q C ltac:(lia)) as Hqd.
  set (P := 2 ^ (63 - k)) in *. assert (P <> 0) by (apply N.pow_nonzero; lia).
  set (M := 2 ^ (k + 1)) in *.
  assert (p mod C = q mod C /\ (p / C) mod P = (q / C) mod P) as [Hm Hl].
  { destruct (N.div_mod_unique M ((p / C) mod P) ((q / C) mod P) (p mod C) (q mod C)); auto; lia. }
  pose proof (N.div_mod (p / C) P ltac:(lia)) as Hp2.
  pose proof (N.div_mod (q / C) P ltac:(lia)) as Hq2.
  rewrite Hm in *. rewrite Hl in *.
  assert (p / C / P = q / C / P); nia.
Qed.

Lemma stamp_succ_ne p q : p mod C = q mod C → stamp_of p + 1 <> stamp_of q.
Proof.
  rewrite !stamp_form. intros -> He. pose proof (index_lt q). pose proof lap_double.
  set (M := 2 ^ (k + 1)) in *.
  destruct (N.div_mod_unique M ((p / C) mod 2 ^ (63 - k)) ((q / C) mod 2 ^ (63 - k))
    (q mod C + 1) (q mod C)); lia.
Qed.

Lemma stamp_succ_inj p q (b : bool) :
  stamp_of p + 1 = word q b → p mod C = q mod C → False.
Proof.
  intros He Hpq. destruct b; [|rewrite word_false in He; by eapply stamp_succ_ne].
  apply (f_equal (λ x : N, x mod 2 ^ k)) in He. unfold word in He.
  rewrite !stamp_form, lap_double, Hpq in He. pose proof (index_lt q).
  rewrite <- !N.mul_assoc, !(N.mul_comm 2), <- !N.mul_assoc, <- !N.add_assoc in He.
  rewrite !(N.mul_comm (2 ^ k)), !(N.add_comm (_ * 2 ^ k)), !N.Div0.mod_add in He.
  rewrite (N.mod_small (q mod C + 1)) in He by lia.
  replace (q mod C + 2 ^ k) with (q mod C + 1 * 2 ^ k) in He by lia.
  rewrite N.Div0.mod_add, (N.mod_small (q mod C) (2 ^ k)) in He by lia. lia.
Qed.
End Stamps.
