(* ===== verification/Channel.v ===== *)
(** The bounded channel of src/src/sync/channel.rs.  First the methods as the
    code has them, run without interruption; then the same code cut at its
    atomic operations ([op_step]), which any number of senders, receivers and
    streams interleave ([step]).  A slot that holds no message has [None] in the
    place of uninitialised memory, and reading that is an error. *)

From stdpp Require Import gmap fin_maps relations.
From S2P Require Import Prelude WakerSet WakerClients.
Local Open Scope N_scope.

Record Slot (T : Type) : Type := mkSlot { slot_stamp : N; slot_msg : option T }.
Arguments mkSlot {T}.
Arguments slot_stamp {T}.
Arguments slot_msg {T}.

Record Channel (WS T : Type) : Type := mkChannel {
  ch_head : N;
  ch_tail : N;
  buffer : list (Slot T);
  cap : N;
  one_lap : N;
  mark_bit : N;
  send_wakers : WS;
  recv_wakers : WS;
  stream_wakers : WS;
  sender_count : N;
  receiver_count : N
}.
Arguments mkChannel {WS T}.
Arguments ch_head {WS T}.
Arguments ch_tail {WS T}.
Arguments buffer {WS T}.
Arguments cap {WS T}.
Arguments one_lap {WS T}.
Arguments mark_bit {WS T}.
Arguments send_wakers {WS T}.
Arguments recv_wakers {WS T}.
Arguments stream_wakers {WS T}.
Arguments sender_count {WS T}.
Arguments receiver_count {WS T}.

Inductive TrySendError (T : Type) : Type :=
| Full (msg : T)
| Disconnected (msg : T).
Arguments Full {T}.
Arguments Disconnected {T}.

Inductive TryRecvError : Type :=
| Empty
| RecvDisconnected.

(** The three waker sets of a channel. *)
Inductive WSet : Type :=
| SendWakers
| RecvWakers
| StreamWakers.
#[global] Instance WSet_eq_dec : EqDecision WSet.
Proof. solve_decision. Defined.

Section Channel.
Context {T WS : Type} `{WakerSetOps WS nat}.
Implicit Types (ch : Channel WS T) (o : nat) (x : WSet).

(** * The fields *)

Definition set_head (h : N) ch : Channel WS T :=
  mkChannel h (ch_tail ch) (buffer ch) (cap ch) (one_lap ch) (mark_bit ch) (send_wakers ch)
    (recv_wakers ch) (stream_wakers ch) (sender_count ch) (receiver_count ch).
Definition set_tail (t : N) ch : Channel WS T :=
  mkChannel (ch_head ch) t (buffer ch) (cap ch) (one_lap ch) (mark_bit ch) (send_wakers ch)
    (recv_wakers ch) (stream_wakers ch) (sender_count ch) (receiver_count ch).
Definition set_buffer (b : list (Slot T)) ch : Channel WS T :=
  mkChannel (ch_head ch) (ch_tail ch) b (cap ch) (one_lap ch) (mark_bit ch) (send_wakers ch)
    (recv_wakers ch) (stream_wakers ch) (sender_count ch) (receiver_count ch).
Definition set_counts (s r : N) ch : Channel WS T :=
  mkChannel (ch_head ch) (ch_tail ch) (buffer ch) (cap ch) (one_lap ch) (mark_bit ch)
    (send_wakers ch) (recv_wakers ch) (stream_wakers ch) s r.
Definition wakers_of x ch : WS :=
  match x with
  | SendWakers => send_wakers ch
  | RecvWakers => recv_wakers ch
  | StreamWakers => stream_wakers ch
  end.
Definition set_wakers x (ws : WS) ch : Channel WS T :=
  mkChannel (ch_head ch) (ch_tail ch) (buffer ch) (cap ch) (one_lap ch) (mark_bit ch)
    (if x is SendWakers then ws else send_wakers ch)
    (if x is RecvWakers then ws else recv_wakers ch)
    (if x is StreamWakers then ws else stream_wakers ch)
    (sender_count ch) (receiver_count ch).

(** * Stamps *)

(** [mark_bit] and [one_lap] are powers of two above one: the subtractions
    cannot overflow. *)
Definition mark_of ch (w : N) : N := N.land w (mark_bit ch).
Definition unmarked ch (w : N) : N := N.land w (usize_not (mark_bit ch)).
Definition index_of ch (w : N) : N := N.land w (mark_bit ch - 1).
Definition lap_of ch (w : N) : N := N.land w (usize_not (one_lap ch - 1)).

(** The stamp after [w]: the index incremented, or one lap forward. *)
Definition next_of ch (w : N) : Act nat N :=
  if index_of ch w + 1 <? cap ch then usize_add w 1
  else mret (wrapping_add (lap_of ch w) (one_lap ch)).

(** [&*self.buffer.add(index)]. *)
Definition slot_at ch (w : N) : Act nat (Slot T) := unwrap (buffer ch !! N.to_nat (index_of ch w)).
Definition set_slot (w : N) (s : Slot T) ch : Channel WS T :=
  set_buffer (<[N.to_nat (index_of ch w) := s]> (buffer ch)) ch.
Definition write_msg (w : N) (msg : option T) ch : Act nat (Channel WS T) :=
  slot ← slot_at ch w; mret (set_slot w (mkSlot (slot_stamp slot) msg) ch).
Definition store_stamp (w : N) (stamp : N) ch : Act nat (Channel WS T) :=
  slot ← slot_at ch w; mret (set_slot w (mkSlot stamp (slot_msg slot)) ch).

(** [compare_exchange_weak] on a word that is [cur], which may fail for no
    reason ([spurious]), and the word afterwards. *)
Definition cas_weak (spurious : bool) (cur expected new : N) : Result N N * N :=
  if negb spurious && (cur =? expected) then (Ok cur, new) else (Err cur, cur).

(** * The methods *)

(** [next_power_of_two] and multiplication, with overflow checks. *)
Definition next_power_of_two (n : N) : Act nat N :=
  let p := 2 ^ N.log2_up n in if p <? usize_modulus then mret p else eff_panic.
Definition usize_mul (a b : N) : Act nat N :=
  if a * b <? usize_modulus then mret (a * b) else eff_panic.

Definition with_capacity (c : N) : Act nat (Channel WS T) :=
  if 0 <? c then
    n ← usize_add c 1;
    mark ← next_power_of_two n;
    lap ← usize_mul mark 2;
    let slots := (λ i, mkSlot (N.of_nat i) None) <$> seq 0 (N.to_nat c) in
    mret (mkChannel 0 0 slots c lap mark wset_new wset_new wset_new 1 1)
  else eff_panic.

Definition notify_one x ch : Act nat (bool * Channel WS T) :=
  if wset_one_wanted (wakers_of x ch) then
    '(b, ws) ← wset_notify NotifyOne (wakers_of x ch); mret (b, set_wakers x ws ch)
  else mret (false, ch).
Definition notify_all x ch : Act nat (bool * Channel WS T) :=
  if wset_one_wanted (wakers_of x ch) then
    '(b, ws) ← wset_notify NotifyAll (wakers_of x ch); mret (b, set_wakers x ws ch)
  else mret (false, ch).

(** One round of the loop of [try_send], with the tail it has loaded; [weak]
    tells of each exchange whether it fails for no reason. *)
Definition try_send_round (msg : T) (st : list bool * N * Channel WS T) :
    Act nat ((list bool * N * Channel WS T) + (Result () (TrySendError T) * Channel WS T)) :=
  let '(weak, w, ch) := st in
  let mark := mark_of ch w in
  let tail := N.lxor w mark in
  slot ← slot_at ch tail;
  if tail =? slot_stamp slot then
    new_tail ← next_of ch tail;
    match cas_weak (hd false weak) (ch_tail ch) (N.lor tail mark) (N.lor new_tail mark) with
    | (Ok _, t) =>
        ch ← write_msg tail (Some msg) (set_tail t ch);
        stamp ← usize_add tail 1;
        ch ← store_stamp tail stamp ch;
        '(_, ch) ← notify_one RecvWakers ch;
        '(_, ch) ← notify_all StreamWakers ch;
        mret (inr (Ok tt, ch))
    | (Err t, _) => mret (inl (tl weak, t, ch))
    end
  else
    next ← usize_add tail 1;
    if wrapping_add (slot_stamp slot) (one_lap ch) =? next then
      if wrapping_add (ch_head ch) (one_lap ch) =? tail then
        mret (inr (Err (if negb (mark =? 0) then Disconnected msg else Full msg), ch))
      else mret (inl (weak, ch_tail ch, ch))
    else mret (inl (weak, ch_tail ch, ch)).
Definition try_send (fuel : nat) (weak : list bool) (msg : T) ch :
    Act nat (Result () (TrySendError T) * Channel WS T) :=
  rust_loop (try_send_round msg) fuel (weak, ch_tail ch, ch).

(** One round of the loop of [try_recv], with the head it has loaded. *)
Definition try_recv_round (st : list bool * N * Channel WS T) :
    Act nat ((list bool * N * Channel WS T) + (Result T TryRecvError * Channel WS T)) :=
  let '(weak, head, ch) := st in
  slot ← slot_at ch head;
  next ← usize_add head 1;
  if next =? slot_stamp slot then
    new ← next_of ch head;
    match cas_weak (hd false weak) (ch_head ch) head new with
    | (Ok _, h) =>
        let ch := set_head h ch in
        msg ← unwrap (slot_msg slot);
        ch ← write_msg head None ch;
        ch ← store_stamp head (wrapping_add head (one_lap ch)) ch;
        '(_, ch) ← notify_one SendWakers ch;
        mret (inr (Ok msg, ch))
    | (Err h, _) => mret (inl (tl weak, h, ch))
    end
  else if slot_stamp slot =? head then
    let tail := ch_tail ch in
    if unmarked ch tail =? head then
      mret (inr (Err (if negb (mark_of ch tail =? 0) then RecvDisconnected else Empty), ch))
    else mret (inl (weak, ch_head ch, ch))
  else mret (inl (weak, ch_head ch, ch)).
Definition try_recv (fuel : nat) (weak : list bool) ch :
    Act nat (Result T TryRecvError * Channel WS T) :=
  rust_loop try_recv_round fuel (weak, ch_head ch, ch).

Definition is_disconnected ch : bool := negb (mark_of ch (ch_tail ch) =? 0).
Definition is_empty ch : bool := unmarked ch (ch_tail ch) =? ch_head ch.
Definition is_full ch : bool := wrapping_add (ch_head ch) (one_lap ch) =? unmarked ch (ch_tail ch).
Definition len ch : N :=
  let hix := index_of ch (ch_head ch) in
  let tix := index_of ch (ch_tail ch) in
  if hix <? tix then tix - hix
  else if tix <? hix then cap ch - hix + tix
  else if unmarked ch (ch_tail ch) =? ch_head ch then 0
  else cap ch.

Definition disconnect ch : Act nat (Channel WS T) :=
  let tail := ch_tail ch in
  let ch := set_tail (N.lor tail (mark_bit ch)) ch in
  if mark_of ch tail =? 0 then
    '(_, ch) ← notify_all SendWakers ch;
    '(_, ch) ← notify_all RecvWakers ch;
    '(_, ch) ← notify_all StreamWakers ch;
    mret ch
  else mret ch.

(** ** The operations that wait *)

Definition take_key x (opt_key : option nat) ch : Act nat (Channel WS T) :=
  match opt_key with
  | Some key => '(_, ws) ← wset_remove key (wakers_of x ch); mret (set_wakers x ws ch)
  | None => mret ch
  end.
Definition insert_key x (o : nat) ch : Act nat (nat * Channel WS T) :=
  '(key, ws) ← wset_insert o (wakers_of x ch); mret (key, set_wakers x ws ch).
Definition cancel_key x (opt_key : option nat) ch : Act nat (Channel WS T) :=
  match opt_key with
  | Some key => '(_, ws) ← wset_cancel key (wakers_of x ch); mret (set_wakers x ws ch)
  | None => mret ch
  end.

(** One round of the loop of [SendFuture::poll]: the key, the message and the
    channel. *)
Definition SendFuture_round (fuel : nat) (weak : list bool) (o : nat)
    (st : option nat * option T * Channel WS T) :
    Act nat ((option nat * option T * Channel WS T) +
             (Poll () * option nat * option T * Channel WS T)) :=
  let '(opt_key, msg, ch) := st in
  msg ← unwrap msg;
  ch ← take_key SendWakers opt_key ch;
  '(r, ch) ← try_send fuel weak msg ch;
  match r with
  | Ok _ => mret (inr (Ready tt, None, None, ch))
  | Err (Disconnected msg) => mret (inr (Pending, None, Some msg, ch))
  | Err (Full msg) =>
      '(key, ch) ← insert_key SendWakers o ch;
      if is_full ch && negb (is_disconnected ch) then mret (inr (Pending, Some key, Some msg, ch))
      else mret (inl (Some key, Some msg, ch))
  end.
Definition SendFuture_poll (fuel : nat) (weak : list bool) (o : nat) (opt_key : option nat)
    (msg : option T) ch : Act nat (Poll () * option nat * option T * Channel WS T) :=
  rust_loop (SendFuture_round fuel weak o) fuel (opt_key, msg, ch).

(** One round of the loop of [poll_recv]. *)
Definition poll_recv_round (fuel : nat) (weak : list bool) x (o : nat)
    (st : option nat * Channel WS T) :
    Act nat ((option nat * Channel WS T) + (Poll (option T) * option nat * Channel WS T)) :=
  let '(opt_key, ch) := st in
  ch ← take_key x opt_key ch;
  '(r, ch) ← try_recv fuel weak ch;
  match r with
  | Ok msg => mret (inr (Ready (Some msg), None, ch))
  | Err RecvDisconnected => mret (inr (Ready None, None, ch))
  | Err Empty =>
      '(key, ch) ← insert_key x o ch;
      if is_empty ch && negb (is_disconnected ch) then mret (inr (Pending, Some key, ch))
      else mret (inl (Some key, ch))
  end.
Definition poll_recv (fuel : nat) (weak : list bool) x (o : nat) (opt_key : option nat) ch :
    Act nat (Poll (option T) * option nat * Channel WS T) :=
  rust_loop (poll_recv_round fuel weak x o) fuel (opt_key, ch).
Definition RecvFuture_poll (fuel : nat) (weak : list bool) (o : nat) (opt_key : option nat) ch :
    Act nat (Poll (option T) * option nat * Channel WS T) :=
  poll_recv fuel weak RecvWakers o opt_key ch.
Definition Receiver_poll_next (fuel : nat) (weak : list bool) (o : nat) (opt_key : option nat) ch :
    Act nat (Poll (option T) * option nat * Channel WS T) :=
  poll_recv fuel weak StreamWakers o opt_key ch.

Definition SendFuture_drop (opt_key : option nat) ch : Act nat (Channel WS T) :=
  cancel_key SendWakers opt_key ch.
Definition RecvFuture_drop (opt_key : option nat) ch : Act nat (Channel WS T) :=
  cancel_key RecvWakers opt_key ch.

(** ** The handles *)

Definition Sender_clone ch : Act nat (Channel WS T) :=
  if isize_MAX <? sender_count ch then eff_panic
  else mret (set_counts (wrapping_add (sender_count ch) 1) (receiver_count ch) ch).
Definition Receiver_clone ch : Act nat (Channel WS T) :=
  if isize_MAX <? receiver_count ch then eff_panic
  else mret (set_counts (sender_count ch) (wrapping_add (receiver_count ch) 1) ch).
Definition Sender_drop ch : Act nat (Channel WS T) :=
  let count := sender_count ch in
  let ch := set_counts (wrapping_sub count 1) (receiver_count ch) ch in
  if count =? 1 then disconnect ch else mret ch.
Definition Receiver_drop (opt_key : option nat) ch : Act nat (Channel WS T) :=
  ch ← cancel_key StreamWakers opt_key ch;
  let count := receiver_count ch in
  let ch := set_counts (sender_count ch) (wrapping_sub count 1) ch in
  if count =? 1 then disconnect ch else mret ch.

(** [Channel::drop]: the messages it drops, in order. *)
Fixpoint drop_slots (hix : N) (is_ : list N) ch : Act nat (list T) :=
  match is_ with
  | [] => mret []
  | i :: is_ =>
      let index := if hix + i <? cap ch then hix + i else hix + i - cap ch in
      slot ← unwrap (buffer ch !! N.to_nat index);
      msg ← unwrap (slot_msg slot);
      msgs ← drop_slots hix is_ (set_buffer (<[N.to_nat index := mkSlot (slot_stamp slot) None]> (buffer ch)) ch);
      mret (msg :: msgs)
  end.
Definition Channel_drop ch : Act nat (list T) :=
  drop_slots (index_of ch (ch_head ch)) (N.of_nat <$> seq 0 (N.to_nat (len ch))) ch.
End Channel.
