(* ===== verification/ChannelQueue.v ===== *)
(** The channel as a queue: what each method of Channel.v, run without
    interruption, does to the sequence of messages in the channel.  The
    positions of messages are counted without bound, and the stamps wrap around. *)

From stdpp Require Import gmap fin_maps.
From S2P Require Import Prelude WakerSet WakerClients Stamps Channel.
Local Open Scope N_scope.

Section Config.
Context {T WS : Type} `{WakerSetOps WS nat}.
Implicit Types (ch : Channel WS T) (x : WSet).

(** What [with_capacity] computes and no method changes. *)
Record config (k : N) ch : Prop := mkConfig {
  cfg_mark : mark_bit ch = 2 ^ k;
  cfg_lap : one_lap ch = 2 ^ (k + 1);
  cfg_cap : 0 < cap ch < 2 ^ k;
  cfg_k : k ≤ 62;
  cfg_buffer : length (buffer ch) = N.to_nat (cap ch)
}.

(** The slot of a position. *)
Definition slot ch (p : N) : nat := N.to_nat (p mod cap ch).
Definition stamp (k : N) ch (p : N) : N := stamp_of k (cap ch) p.
Definition marked (k : N) ch (p : N) (d : bool) : N := word k (cap ch) p d.

Context (k : N) ch (Hcfg : config k ch).

Lemma mark_of_marked p (d : bool) : mark_of ch (marked k ch p d) = if d then 2 ^ k else 0.
Proof. unfold mark_of. rewrite (cfg_mark _ _ Hcfg). apply word_mark; apply Hcfg. Qed.

Lemma marked_lxor p (d : bool) : N.lxor (marked k ch p d) (mark_of ch (marked k ch p d)) = stamp k ch p.
Proof. rewrite mark_of_marked. apply word_unmark; apply Hcfg. Qed.

Lemma marked_lor p (d : bool) : N.lor (stamp k ch p) (if d then 2 ^ k else 0) = marked k ch p d.
Proof. apply word_lor; apply Hcfg. Qed.

Lemma marked_set p (d : bool) : N.lor (marked k ch p d) (mark_bit ch) = marked k ch p true.
Proof.
  rewrite (cfg_mark _ _ Hcfg), <- !marked_lor. destruct d; [|by rewrite N.lor_0_r].
  by rewrite <- N.lor_assoc, N.lor_diag.
Qed.

Lemma unmarked_marked p (d : bool) : unmarked ch (marked k ch p d) = stamp k ch p.
Proof. unfold unmarked. rewrite (cfg_mark _ _ Hcfg). apply word_not_mark; apply Hcfg. Qed.

Lemma mark_test p (d : bool) : (mark_of ch (marked k ch p d) =? 0) = negb d.
Proof.
  rewrite mark_of_marked. destruct d; [|done]. apply N.eqb_neq, N.pow_nonzero. lia.
Qed.

Lemma marked_false p : marked k ch p false = stamp k ch p.
Proof. apply word_false; apply Hcfg. Qed.

Lemma index_of_marked p (d : bool) : index_of ch (marked k ch p d) = p mod cap ch.
Proof. unfold index_of. rewrite (cfg_mark _ _ Hcfg). apply word_index; apply Hcfg. Qed.

Lemma index_of_stamp p : index_of ch (stamp k ch p) = p mod cap ch.
Proof. rewrite <- marked_false. apply index_of_marked. Qed.

Lemma slot_at_stamp p : slot_at ch (stamp k ch p) = unwrap (buffer ch !! slot ch p).
Proof. unfold slot_at. by rewrite index_of_stamp. Qed.

Lemma slot_exists p : is_Some (buffer ch !! slot ch p).
Proof.
  apply lookup_lt_is_Some. rewrite (cfg_buffer _ _ Hcfg). unfold slot.
  pose proof (N.mod_lt p (cap ch)). pose proof (cfg_cap _ _ Hcfg). lia.
Qed.

Lemma stamp_succ p : usize_add (stamp k ch p) 1 = Done (stamp k ch p + 1, []) :> Act nat N.
Proof.
  apply usize_add_ok. rewrite <- marked_false. apply word_lt; apply Hcfg.
Qed.

Lemma next_of_stamp p : next_of ch (stamp k ch p) = Done (stamp k ch (p + 1), []).
Proof.
  unfold next_of. rewrite index_of_stamp.
  pose proof (N.mod_lt p (cap ch)) as Hlt. pose proof (cfg_cap _ _ Hcfg).
  destruct (N.ltb_spec (p mod cap ch + 1) (cap ch)).
  - rewrite stamp_succ. unfold stamp. rewrite stamp_next by (apply Hcfg || done). done.
  - unfold lap_of. rewrite (cfg_lap _ _ Hcfg). unfold stamp.
    rewrite stamp_lap, stamp_wrap by (apply Hcfg || lia). done.
Qed.

Lemma stamp_add_lap p : wrapping_add (stamp k ch p) (one_lap ch) = stamp k ch (p + cap ch).
Proof. rewrite (cfg_lap _ _ Hcfg). apply stamp_lap_next; apply Hcfg. Qed.

Lemma stamp_eq p q :
  p < q + period k (cap ch) → q < p + period k (cap ch) →
  (stamp k ch p =? stamp k ch q) = bool_decide (p = q).
Proof.
  intros H1 H2. destruct (N.eqb_spec (stamp k ch p) (stamp k ch q)) as [He|Hne]; symmetry.
  - apply bool_decide_eq_true. eapply stamp_inj; [..|exact He|done|done]; apply Hcfg.
  - apply bool_decide_eq_false. by intros ->.
Qed.

Lemma cap_period : 2 * cap ch ≤ period k (cap ch).
Proof.
  unfold period. pose proof (cfg_k _ _ Hcfg).
  pose proof (N.pow_le_mono_r 2 1 (63 - k)). nia.
Qed.

(** Two positions less than the capacity apart have different slots. *)
Lemma slot_inj p q : p < q + cap ch → q < p + cap ch → slot ch p = slot ch q → p = q.
Proof.
  unfold slot. intros H1 H2 He%N2Nat.inj.
  pose proof (N.div_mod p (cap ch)) as Hp. pose proof (N.div_mod q (cap ch)) as Hq.
  pose proof (cfg_cap _ _ Hcfg).
  assert (p / cap ch = q / cap ch) by nia. nia.
Qed.

Lemma slot_lap p : slot ch (p + cap ch) = slot ch p.
Proof.
  unfold slot. replace (p + cap ch) with (p + 1 * cap ch) by lia.
  by rewrite N.Div0.mod_add.
Qed.

Lemma stamp_succ_slot p q : slot ch p = slot ch q → stamp k ch p + 1 ≠ stamp k ch q.
Proof. intros He%N2Nat.inj. by apply stamp_succ_ne; try apply Hcfg. Qed.
End Config.

(** * Waker sets of the channel *)

Section Wakers.
Context {T WS : Type} `{WakerSetLaws WS nat}.
Implicit Types (ch : Channel WS T) (x : WSet).

Definition chan_wf ch : Prop := ∀ x, wset_wf (wakers_of x ch).
Definition cview x ch : gmap nat (option nat) := wset_view (wakers_of x ch).

Lemma wakers_of_set x y ws ch :
  wakers_of y (set_wakers x ws ch) = if decide (y = x) then ws else wakers_of y ch.
Proof. by destruct x, y. Qed.

Lemma set_wakers_id x ch : set_wakers x (wakers_of x ch) ch = ch.
Proof. by destruct ch, x. Qed.

Lemma chan_wf_set x ws ch : chan_wf ch → wset_wf ws → chan_wf (set_wakers x ws ch).
Proof. intros Hwf Hw y. rewrite wakers_of_set. by destruct (decide (y = x)). Qed.

Lemma cview_set x y ws ch :
  cview y (set_wakers x ws ch) = if decide (y = x) then wset_view ws else cview y ch.
Proof. unfold cview. rewrite wakers_of_set. by destruct (decide (y = x)). Qed.

(** [notified x n ch ch' l]: the set [x] has been notified, and nothing else
    has changed. *)
Definition notified x (n : Notify) ch ch' (l : list nat) : Prop :=
  ∃ ws kl, ch' = set_wakers x ws ch ∧ wset_wf ws ∧ l = kl.*2 ∧
    notify_post n (cview x ch) kl (wset_view ws).

Lemma notify_none x (n : Notify) ch :
  chan_wf ch → wset_one_wanted (wakers_of x ch) = false → n ≠ NotifyAny → notified x n ch ch [].
Proof.
  intros Hwf Hw Hn. exists (wakers_of x ch), []. rewrite set_wakers_id.
  assert (nobody_waits (cview x ch)) as Hno.
  { intros j w Hj. assert (wset_one_wanted (wakers_of x ch) = true); [|congruence].
    apply wset_one_wanted_spec; [done|]. by exists j, w. }
  split_and!; [done..|]. split; [constructor|]. destruct n; [done| |done].
  simpl. split; [lia|done].
Qed.

Lemma notify_run x (n : Notify) ch :
  chan_wf ch → n ≠ NotifyAny →
  ∃ b ch' l,
    match n with NotifyAll => notify_all x ch | _ => notify_one x ch end = Done ((b, ch'), l) ∧
    notified x n ch ch' l.
Proof.
  intros Hwf Hn. destruct (wset_one_wanted (wakers_of x ch)) eqn:Hw.
  - destruct (wset_notify_spec n (wakers_of x ch) (Hwf x)) as (ws & kl & He & Hwf' & Hp).
    eexists _, (set_wakers x ws ch), kl.*2. split; [|by exists ws, kl].
    destruct n; [done|unfold notify_one|unfold notify_all]; rewrite Hw, He; simpl;
      by rewrite app_nil_r.
  - exists false, ch, []. split; [|by apply notify_none].
    destruct n; [done|unfold notify_one|unfold notify_all]; by rewrite Hw.
Qed.

Lemma notified_wf x n ch ch' l : chan_wf ch → notified x n ch ch' l → chan_wf ch'.
Proof. intros Hwf (ws & kl & -> & Hw & _). by apply chan_wf_set. Qed.
End Wakers.

(** * The queue *)

Section Queue.
Context {T WS : Type} `{WakerSetLaws WS nat}.
Implicit Types (ch : Channel WS T) (x : WSet) (q : list T).

(** [queue_is k ch h q d]: the channel holds the messages [q], the first of them
    at position [h], and is disconnected when [d]. *)
Record queue_is (k : N) ch (h : N) q (d : bool) : Prop := mkQueue {
  q_config : config k ch;
  q_wf : chan_wf ch;
  q_head : ch_head ch = stamp k ch h;
  q_tail : ch_tail ch = marked k ch (h + N.of_nat (length q)) d;
  q_len : N.of_nat (length q) ≤ cap ch;
  q_used i m : q !! i = Some m →
    buffer ch !! slot ch (h + N.of_nat i) = Some (mkSlot (stamp k ch (h + N.of_nat i) + 1) (Some m));
  q_free p : h + N.of_nat (length q) ≤ p < h + cap ch →
    ∃ m, buffer ch !! slot ch p = Some (mkSlot (stamp k ch p) m)
}.

(** Notifying leaves the queue alone. *)
Lemma queue_notified k ch h q d x n ch' l :
  queue_is k ch h q d → notified x n ch ch' l → queue_is k ch' h q d.
Proof.
  intros [[] Hwf] (ws & kl & -> & Hw & _). split; try done. by apply chan_wf_set.
Qed.

Lemma queue_set_wakers k ch h q d x ws :
  queue_is k ch h q d → wset_wf ws → queue_is k (set_wakers x ws ch) h q d.
Proof. intros [[] Hwf]. split; try done. by apply chan_wf_set. Qed.

Lemma queue_counts k ch h q d s r :
  queue_is k ch h q d → queue_is k (set_counts s r ch) h q d.
Proof. intros [[] Hwf]. by split. Qed.

(** ** [with_capacity] *)

Lemma next_power_of_two_run n :
  1 < n ≤ 2 ^ 62 → ∃ k, next_power_of_two n = Done (2 ^ k, []) ∧ n ≤ 2 ^ k ∧ k ≤ 62.
Proof.
  intros [H1 Hn]. exists (N.log2_up n). pose proof (N.log2_up_spec n H1) as [_ Hle].
  assert (N.log2_up n ≤ 62) as Hk.
  { rewrite <- (N.log2_up_pow2 62) by lia. by apply N.log2_up_le_mono. }
  unfold next_power_of_two. rewrite (proj2 (N.ltb_lt _ _)); [done|].
  unfold usize_modulus, usize_bits. apply N.pow_lt_mono_r; lia.
Qed.

Lemma with_capacity_run c :
  0 < c → c + 1 ≤ 2 ^ 62 →
  ∃ k ch, with_capacity (T:=T) c = Done (ch, []) ∧ cap ch = c ∧ queue_is k ch 0 [] false ∧
    (∀ x, cview x ch = ∅) ∧ sender_count ch = 1 ∧ receiver_count ch = 1.
Proof.
  intros Hc Hlt. destruct (next_power_of_two_run (c + 1)) as (k & Hp & Hle & Hk); [lia|].
  exists k. eexists. unfold with_capacity. rewrite (proj2 (N.ltb_lt _ _)) by done.
  rewrite usize_add_ok by (unfold usize_modulus, usize_bits; lia). simpl. rewrite Hp. simpl.
  unfold usize_mul. rewrite (proj2 (N.ltb_lt (2 ^ k * 2) _)).
  2: { unfold usize_modulus, usize_bits. pose proof (N.pow_le_mono_r 2 k 62). lia. }
  simpl. split; [done|]. destruct wset_new_spec as [Hwf Hv].
  split; [done|]. split; [|split; [by intros []|done]].
  split; simpl; try done.
  - split; simpl; [done| |lia|done|by rewrite length_fmap, length_seq].
    rewrite N.add_1_r, N.pow_succ_r'. lia.
  - by intros [].
  - lia.
  - intros p Hr. exists None. unfold slot, stamp. simpl. rewrite N.mod_small by lia.
    rewrite list_lookup_fmap, lookup_seq_lt by lia. simpl. do 2 f_equal.
    unfold stamp_of. rewrite (N.div_small p c), (N.mod_small p c) by lia.
    rewrite N.mod_small; unfold usize_modulus, usize_bits; lia.
Qed.

(** ** Writing slots *)

Definition put (p : N) (sl : Slot T) ch : Channel WS T :=
  set_buffer (<[slot ch p := sl]> (buffer ch)) ch.

Lemma config_put k ch p sl : config k ch → config k (put p sl ch).
Proof. intros []. split; try done. simpl. by rewrite length_insert. Qed.

Lemma write_msg_run k ch p sl msg :
  config k ch → buffer ch !! slot ch p = Some sl →
  write_msg (stamp k ch p) msg ch = Done (put p (mkSlot (slot_stamp sl) msg) ch, []).
Proof.
  intros Hc Hs. unfold write_msg. rewrite slot_at_stamp, Hs by done. simpl.
  unfold set_slot. by rewrite (index_of_stamp k ch Hc).
Qed.

Lemma store_stamp_run k ch p sl w :
  config k ch → buffer ch !! slot ch p = Some sl →
  store_stamp (stamp k ch p) w ch = Done (put p (mkSlot w (slot_msg sl)) ch, []).
Proof.
  intros Hc Hs. unfold store_stamp. rewrite slot_at_stamp, Hs by done. simpl.
  unfold set_slot. by rewrite (index_of_stamp k ch Hc).
Qed.

Lemma put_lookup k ch p sl :
  config k ch → buffer (put p sl ch) !! slot (put p sl ch) p = Some sl.
Proof.
  intros Hc. apply list_lookup_insert_eq. destruct (slot_exists k ch Hc p) as [s Hs].
  by apply lookup_lt_Some in Hs.
Qed.

(** A message and then its stamp are stored in a slot. *)
Lemma put_put ch p sl sl' : put p sl' (put p sl ch) = put p sl' ch.
Proof. unfold put, set_buffer. simpl. f_equal. apply list_insert_insert_eq. Qed.

Lemma publish_run {R} k ch p sl m (cont : Channel WS T → Act nat R) :
  config k ch → buffer ch !! slot ch p = Some sl →
  (ch1 ← write_msg (stamp k ch p) (Some m) ch;
   w ← usize_add (stamp k ch p) 1;
   ch2 ← store_stamp (stamp k ch p) w ch1;
   cont ch2) = cont (put p (mkSlot (stamp k ch p + 1) (Some m)) ch).
Proof.
  intros Hc Hs. rewrite (write_msg_run k ch p sl) by done. run_on.
  rewrite (stamp_succ k ch Hc). run_on.
  set (ch1 := put p _ ch). change (store_stamp (stamp k ch p)) with (store_stamp (T:=T) (WS:=WS) (stamp k ch1 p)).
  rewrite (store_stamp_run k ch1 p (mkSlot (slot_stamp sl) (Some m))).
  - run_on. unfold ch1. by rewrite put_put.
  - by apply config_put.
  - by eapply put_lookup.
Qed.

Lemma release_run {R} k ch p sl (cont : Channel WS T → Act nat R) :
  config k ch → buffer ch !! slot ch p = Some sl →
  (ch1 ← write_msg (stamp k ch p) None ch;
   ch2 ← store_stamp (stamp k ch p) (wrapping_add (stamp k ch p) (one_lap ch1)) ch1;
   cont ch2) = cont (put p (mkSlot (stamp k ch (p + cap ch)) None) ch).
Proof.
  intros Hc Hs. rewrite (write_msg_run k ch p sl) by done. run_on.
  set (ch1 := put p _ ch). assert (config k ch1) as Hc1 by (by apply config_put).
  change (stamp k ch p) with (stamp k ch1 p). rewrite (stamp_add_lap k ch1 Hc1).
  rewrite (store_stamp_run k ch1 p (mkSlot (slot_stamp sl) None)) by (done || by eapply put_lookup).
  run_on. unfold ch1. by rewrite put_put.
Qed.

Lemma put_lookup_ne ch p p' sl :
  slot ch p' ≠ slot ch p → buffer (put p sl ch) !! slot ch p' = buffer ch !! slot ch p'.
Proof. intros Hne. apply list_lookup_insert_ne. congruence. Qed.

Lemma queue_push k ch h q d m :
  queue_is k ch h q d → N.of_nat (length q) < cap ch →
  let t := h + N.of_nat (length q) in
  queue_is k (put t (mkSlot (stamp k ch t + 1) (Some m)) (set_tail (marked k ch (t + 1) d) ch))
    h (q ++ [m]) d.
Proof.
  intros [Hc Hwf Hh Ht Hl Hu Hf] Hlt t. set (ch1 := set_tail (marked k ch (t + 1) d) ch).
  assert (config k ch1) as Hc1 by (by destruct Hc).
  split; [by apply config_put|done|done| |by rewrite length_app; simpl; lia| |].
  - simpl. rewrite length_app. simpl. unfold marked. f_equal. lia.
  - intros i m'. destruct (decide (i = length q)) as [->|Hi].
    + rewrite list_lookup_middle by done. intros [= <-]. by apply (put_lookup k ch1).
    + intros Hm. assert (i < length q)%nat as Hil.
      { apply lookup_lt_Some in Hm. rewrite length_app in Hm. simpl in Hm. lia. }
      rewrite lookup_app_l in Hm by done. etrans; [|exact (Hu i m' Hm)].
      apply (put_lookup_ne ch1). intros He. apply (slot_inj k ch Hc) in He; lia.
  - intros p Hp. rewrite length_app in Hp. simpl in Hp.
    destruct (Hf p ltac:(lia)) as [m' Hm']. exists m'. etrans; [|exact Hm'].
    apply (put_lookup_ne ch1). intros He. apply (slot_inj k ch Hc) in He; simpl in *; lia.
Qed.

Lemma queue_pop k ch h q d m :
  queue_is k ch h (m :: q) d →
  queue_is k (put h (mkSlot (stamp k ch (h + cap ch)) None) (set_head (stamp k ch (h + 1)) ch))
    (h + 1) q d.
Proof.
  intros [Hc Hwf Hh Ht Hl Hu Hf]. set (ch1 := set_head (stamp k ch (h + 1)) ch).
  assert (config k ch1) as Hc1 by (by destruct Hc). simpl in Hl.
  split; [by apply config_put|done|done| |simpl; lia| |].
  - simpl. rewrite Ht. unfold marked. simpl. f_equal. lia.
  - intros i m' Hm. assert (i < length q)%nat as Hil by (by eapply lookup_lt_Some).
    replace (h + 1 + N.of_nat i) with (h + N.of_nat (S i)) by lia.
    etrans; [|exact (Hu (S i) m' Hm)].
    apply (put_lookup_ne ch1). intros He. apply (slot_inj k ch Hc) in He; lia.
  - intros p Hp. simpl in Hp. destruct (decide (p = h + cap ch)) as [->|Hne].
    + exists None. etrans; [|exact (put_lookup k ch1 h _ Hc1)]. f_equal. apply (slot_lap ch1).
    + destruct (Hf p) as [m' Hm']; [simpl; lia|]. exists m'. etrans; [|exact Hm'].
      apply (put_lookup_ne ch1). intros He. apply (slot_inj k ch Hc) in He; lia.
Qed.
End Queue.
