(* ===== verification/ChannelMethods.v ===== *)
(** Running the methods of the channel without interruption: sending and
    receiving, waiting, and dropping handles, as operations on the queue of
    ChannelQueue.v. *)

From stdpp Require Import gmap fin_maps.
From S2P Require Import Prelude WakerSet WakerClients Stamps Channel ChannelQueue.
Local Open Scope N_scope.

Section Methods.
Context {T WS : Type} `{WakerSetLaws WS nat}.
Implicit Types (ch : Channel WS T) (x : WSet) (q : list T).

(** * Sending *)

Lemma free_slot k ch h q d :
  queue_is k ch h q d → N.of_nat (length q) < cap ch →
  ∃ m, buffer ch !! slot ch (h + N.of_nat (length q)) =
    Some (mkSlot (stamp k ch (h + N.of_nat (length q))) m).
Proof. intros Hq Hl. apply (q_free _ _ _ _ _ Hq). lia. Qed.

(** A round with space: the message is in the queue, unless the exchange fails
    for no reason. *)
Lemma try_send_round_push k ch h q d weak m :
  queue_is k ch h q d → N.of_nat (length q) < cap ch → hd false weak = false →
  ∃ ch' l, try_send_round m (weak, ch_tail ch, ch) = Done (inr (Ok tt, ch'), l) ∧
    queue_is k ch' h (q ++ [m]) d ∧ cview SendWakers ch' = cview SendWakers ch.
Proof.
  intros Hq Hl Hweak. pose proof (q_config _ _ _ _ _ Hq) as Hc.
  destruct (free_slot _ _ _ _ _ Hq Hl) as [m0 Hs]. set (t := h + N.of_nat (length q)) in *.
  pose proof (queue_push _ _ _ _ _ m Hq Hl) as Hq1. fold t in Hq1.
  set (ch1 := set_tail (marked k ch (t + 1) d) ch) in *.
  assert (config k ch1) as Hc1 by (by destruct Hc).
  destruct (notify_run RecvWakers NotifyOne _ (q_wf _ _ _ _ _ Hq1)) as (b1 & ch2 & l1 & Hn1 & Hd1);
    [done|].
  pose proof (queue_notified _ _ _ _ _ _ _ _ _ Hq1 Hd1) as Hq2.
  destruct (notify_run StreamWakers NotifyAll _ (q_wf _ _ _ _ _ Hq2)) as (b2 & ch3 & l2 & Hn2 & Hd2);
    [done|].
  pose proof (queue_notified _ _ _ _ _ _ _ _ _ Hq2 Hd2) as Hq3.
  exists ch3, (l1 ++ l2). split; [|split; [exact Hq3|]].
  - unfold try_send_round. rewrite (q_tail _ _ _ _ _ Hq). fold t.
    rewrite marked_lxor, slot_at_stamp, Hs, mark_of_marked by done. run_on. simpl slot_stamp.
    rewrite N.eqb_refl, next_of_stamp by done. run_on. rewrite !marked_lor by done.
    unfold cas_weak. rewrite Hweak, N.eqb_refl. cbn [negb andb]. run_on. fold ch1.
    change (stamp k ch t) with (stamp k ch1 t).
    rewrite (publish_run k ch1 t _ m _ Hc1 Hs). run_on. change (stamp k ch1 t) with (stamp k ch t).
    eapply eff_bind_step; [exact Hn1|]. rewrite <- (app_nil_r l2).
    by eapply eff_bind_step; [exact Hn2|].
  - destruct Hd2 as (ws2 & kl2 & -> & _), Hd1 as (ws1 & kl1 & -> & _). by rewrite !cview_set.
Qed.

Lemma try_send_round_weak k ch h q d weak m :
  queue_is k ch h q d → N.of_nat (length q) < cap ch →
  try_send_round m (true :: weak, ch_tail ch, ch) = Done (inl (weak, ch_tail ch, ch), []).
Proof.
  intros Hq Hl. pose proof (q_config _ _ _ _ _ Hq) as Hc.
  destruct (free_slot _ _ _ _ _ Hq Hl) as [m0 Hs].
  unfold try_send_round. rewrite (q_tail _ _ _ _ _ Hq).
  rewrite marked_lxor, slot_at_stamp, Hs by done. simpl.
  by rewrite N.eqb_refl, next_of_stamp by done.
Qed.

(** A round without. *)
Lemma try_send_round_full k ch h q d weak m :
  queue_is k ch h q d → N.of_nat (length q) = cap ch →
  try_send_round m (weak, ch_tail ch, ch) =
    Done (inr (Err (if d then Disconnected m else Full m), ch), []).
Proof.
  intros Hq Hl. pose proof (q_config _ _ _ _ _ Hq) as Hc. pose proof (cfg_cap _ _ Hc).
  destruct q as [|m0 q]; [simpl in Hl; lia|].
  pose proof (q_used _ _ _ _ _ Hq 0 m0 eq_refl) as Hs. rewrite N.add_0_r in Hs.
  pose proof (cap_period k ch Hc).
  unfold try_send_round. rewrite (q_tail _ _ _ _ _ Hq), Hl.
  rewrite marked_lxor, slot_at_stamp, slot_lap, Hs by done. simpl.
  destruct (N.eqb_spec (stamp k ch (h + cap ch)) (stamp k ch h + 1)) as [He|_].
  { symmetry in He. apply stamp_succ_slot in He; [done|done|by rewrite slot_lap]. }
  rewrite stamp_succ by done. simpl.
  assert (wrapping_add (stamp k ch h + 1) (one_lap ch) = stamp k ch (h + cap ch) + 1) as ->.
  { rewrite <- (stamp_add_lap k ch Hc). unfold wrapping_add.
    pose proof (word_lt k (cap ch) (cfg_cap _ _ Hc) (cfg_k _ _ Hc) (h + cap ch) false) as Hlt.
    change (word k (cap ch) (h + cap ch) false) with (marked k ch (h + cap ch) false) in Hlt.
    rewrite (marked_false k ch Hc), <- (stamp_add_lap k ch Hc) in Hlt. unfold wrapping_add in Hlt.
    rewrite <- (N.mod_small _ _ Hlt), N.Div0.add_mod_idemp_l. f_equal. lia. }
  rewrite N.eqb_refl, (q_head _ _ _ _ _ Hq), stamp_add_lap, N.eqb_refl, mark_test by done.
  by rewrite negb_involutive.
Qed.

Lemma try_send_push k ch h q d weak fuel m :
  queue_is k ch h q d → N.of_nat (length q) < cap ch → (length weak < fuel)%nat →
  ∃ ch' l, try_send fuel weak m ch = Done ((Ok tt, ch'), l) ∧
    queue_is k ch' h (q ++ [m]) d ∧ cview SendWakers ch' = cview SendWakers ch.
Proof.
  intros Hq Hl. revert fuel. unfold try_send.
  induction weak as [|[] weak IH]; intros [|fuel] Hf; simpl in Hf; try lia.
  - destruct (try_send_round_push _ _ _ _ _ [] m Hq Hl eq_refl) as (ch' & l & Hr & Hq').
    exists ch', l. split; [|done]. cbn [rust_loop]. rewrite Hr. simpl. by rewrite app_nil_r.
  - destruct (IH fuel ltac:(lia)) as (ch' & l & Hr & Hq'). exists ch', l. split; [|done].
    cbn [rust_loop]. rewrite (try_send_round_weak _ _ _ _ _ _ _ Hq Hl). simpl. by rewrite Hr.
  - destruct (try_send_round_push _ _ _ _ _ (false :: weak) m Hq Hl eq_refl)
      as (ch' & l & Hr & Hq').
    exists ch', l. split; [|done]. cbn [rust_loop]. rewrite Hr. simpl. by rewrite app_nil_r.
Qed.

Lemma try_send_full k ch h q d weak fuel m :
  queue_is k ch h q d → N.of_nat (length q) = cap ch → (0 < fuel)%nat →
  try_send fuel weak m ch = Done ((Err (if d then Disconnected m else Full m), ch), []).
Proof.
  intros Hq Hl Hf. destruct fuel as [|fuel]; [lia|]. unfold try_send. cbn [rust_loop].
  by rewrite (try_send_round_full _ _ _ _ _ _ _ Hq Hl).
Qed.

(** * Receiving *)

Lemma first_slot k ch h q d m :
  queue_is k ch h (m :: q) d → buffer ch !! slot ch h = Some (mkSlot (stamp k ch h + 1) (Some m)).
Proof.
  intros Hq. pose proof (q_used _ _ _ _ _ Hq 0 m eq_refl) as Hs. by rewrite N.add_0_r in Hs.
Qed.

Lemma try_recv_round_pop k ch h q d weak m :
  queue_is k ch h (m :: q) d → hd false weak = false →
  ∃ ch' l, try_recv_round (weak, ch_head ch, ch) = Done (inr (Ok m, ch'), l) ∧
    queue_is k ch' (h + 1) q d ∧ (∀ x, x ≠ SendWakers → cview x ch' = cview x ch).
Proof.
  intros Hq Hweak. pose proof (q_config _ _ _ _ _ Hq) as Hc.
  pose proof (first_slot _ _ _ _ _ _ Hq) as Hs.
  pose proof (queue_pop _ _ _ _ _ _ Hq) as Hq1. set (ch1 := set_head (stamp k ch (h + 1)) ch) in *.
  assert (config k ch1) as Hc1 by (by destruct Hc).
  destruct (notify_run SendWakers NotifyOne _ (q_wf _ _ _ _ _ Hq1)) as (b1 & ch2 & l1 & Hn1 & Hd1);
    [done|].
  exists ch2, l1. split; [|split; [by eapply queue_notified|]].
  - unfold try_recv_round. rewrite (q_head _ _ _ _ _ Hq), slot_at_stamp, Hs by done. run_on.
    rewrite stamp_succ by done. run_on. simpl slot_stamp.
    rewrite N.eqb_refl, next_of_stamp by done. run_on.
    unfold cas_weak. rewrite Hweak, N.eqb_refl. cbn [negb andb slot_msg]. run_on. fold ch1.
    change (stamp k ch h) with (stamp k ch1 h).
    rewrite (release_run k ch1 h _ _ Hc1 Hs).
    rewrite <- (app_nil_r l1). by eapply eff_bind_step; [exact Hn1|].
  - intros x Hx. destruct Hd1 as (ws1 & kl1 & -> & _). rewrite cview_set. by rewrite decide_False.
Qed.

Lemma try_recv_round_weak k ch h q d weak m :
  queue_is k ch h (m :: q) d →
  try_recv_round (true :: weak, ch_head ch, ch) = Done (inl (weak, ch_head ch, ch), []).
Proof.
  intros Hq. pose proof (q_config _ _ _ _ _ Hq) as Hc.
  pose proof (first_slot _ _ _ _ _ _ Hq) as Hs.
  unfold try_recv_round. rewrite (q_head _ _ _ _ _ Hq), slot_at_stamp, Hs by done. run_on.
  rewrite stamp_succ by done. run_on. simpl slot_stamp.
  by rewrite N.eqb_refl, next_of_stamp by done.
Qed.

Lemma try_recv_round_empty k ch h d weak :
  queue_is k ch h [] d →
  try_recv_round (weak, ch_head ch, ch) =
    Done (inr (Err (if d then RecvDisconnected else Empty), ch), []).
Proof.
  intros Hq. pose proof (q_config _ _ _ _ _ Hq) as Hc. pose proof (cfg_cap _ _ Hc).
  destruct (q_free _ _ _ _ _ Hq h) as [m0 Hs]; [simpl; lia|].
  unfold try_recv_round. rewrite (q_head _ _ _ _ _ Hq), slot_at_stamp, Hs by done. run_on.
  rewrite stamp_succ by done. run_on. simpl slot_stamp.
  destruct (N.eqb_spec (stamp k ch h + 1) (stamp k ch h)) as [He|_]; [lia|].
  rewrite N.eqb_refl, (q_tail _ _ _ _ _ Hq). simpl length. rewrite N.add_0_r.
  rewrite unmarked_marked, N.eqb_refl, mark_test by done. by rewrite negb_involutive.
Qed.

Lemma try_recv_pop k ch h q d weak fuel m :
  queue_is k ch h (m :: q) d → (length weak < fuel)%nat →
  ∃ ch' l, try_recv fuel weak ch = Done ((Ok m, ch'), l) ∧
    queue_is k ch' (h + 1) q d ∧ (∀ x, x ≠ SendWakers → cview x ch' = cview x ch).
Proof.
  intros Hq. revert fuel. unfold try_recv.
  induction weak as [|[] weak IH]; intros [|fuel] Hf; simpl in Hf; try lia.
  - destruct (try_recv_round_pop _ _ _ _ _ [] m Hq eq_refl) as (ch' & l & Hr & Hq').
    exists ch', l. split; [|done]. cbn [rust_loop]. rewrite Hr. simpl. by rewrite app_nil_r.
  - destruct (IH fuel ltac:(lia)) as (ch' & l & Hr & Hq'). exists ch', l. split; [|done].
    cbn [rust_loop]. rewrite (try_recv_round_weak _ _ _ _ _ _ _ Hq). simpl. by rewrite Hr.
  - destruct (try_recv_round_pop _ _ _ _ _ (false :: weak) m Hq eq_refl) as (ch' & l & Hr & Hq').
    exists ch', l. split; [|done]. cbn [rust_loop]. rewrite Hr. simpl. by rewrite app_nil_r.
Qed.

Lemma try_recv_empty k ch h d weak fuel :
  queue_is k ch h [] d → (0 < fuel)%nat →
  try_recv fuel weak ch = Done ((Err (if d then RecvDisconnected else Empty), ch), []).
Proof.
  intros Hq Hf. destruct fuel as [|fuel]; [lia|]. unfold try_recv. cbn [rust_loop].
  by rewrite (try_recv_round_empty _ _ _ _ _ Hq).
Qed.

(** * Looking *)

Lemma is_disconnected_queue k ch h q d : queue_is k ch h q d → is_disconnected ch = d.
Proof.
  intros Hq. unfold is_disconnected. rewrite (q_tail _ _ _ _ _ Hq), (mark_test k ch) by apply Hq.
  apply negb_involutive.
Qed.

Lemma stamp_diff k ch h n :
  config k ch → n ≤ cap ch →
  (stamp k ch (h + n) =? stamp k ch h) = bool_decide (n = 0).
Proof.
  intros Hc Hn. pose proof (cap_period k ch Hc). pose proof (cfg_cap _ _ Hc).
  rewrite stamp_eq by (done || lia). apply bool_decide_ext. lia.
Qed.

Lemma is_empty_queue k ch h q d :
  queue_is k ch h q d → is_empty ch = bool_decide (q = []).
Proof.
  intros Hq. unfold is_empty. rewrite (q_tail _ _ _ _ _ Hq), (q_head _ _ _ _ _ Hq).
  rewrite (unmarked_marked k ch), (stamp_diff k ch) by apply Hq.
  apply bool_decide_ext. destruct q; simpl; naive_solver lia.
Qed.

Lemma is_full_queue k ch h q d :
  queue_is k ch h q d → is_full ch = bool_decide (N.of_nat (length q) = cap ch).
Proof.
  intros Hq. pose proof (q_config _ _ _ _ _ Hq) as Hc. pose proof (q_len _ _ _ _ _ Hq).
  pose proof (cap_period k ch Hc). pose proof (cfg_cap _ _ Hc).
  unfold is_full. rewrite (q_tail _ _ _ _ _ Hq), (q_head _ _ _ _ _ Hq).
  rewrite (unmarked_marked k ch), stamp_add_lap, stamp_eq by (done || lia).
  apply bool_decide_ext. lia.
Qed.

Lemma len_queue k ch h q d : queue_is k ch h q d → len ch = N.of_nat (length q).
Proof.
  intros Hq. pose proof (q_config _ _ _ _ _ Hq) as Hc. pose proof (q_len _ _ _ _ _ Hq) as Hl.
  pose proof (cfg_cap _ _ Hc). unfold len. rewrite (q_tail _ _ _ _ _ Hq), (q_head _ _ _ _ _ Hq).
  rewrite (index_of_stamp k ch Hc), (index_of_marked k ch Hc), (unmarked_marked k ch Hc).
  rewrite stamp_diff by done. set (n := N.of_nat (length q)) in *.
  pose proof (N.mod_lt h (cap ch) ltac:(lia)). pose proof (N.mod_lt (h + n) (cap ch) ltac:(lia)).
  pose proof (N.div_mod h (cap ch) ltac:(lia)) as Hh.
  pose proof (N.div_mod (h + n) (cap ch) ltac:(lia)) as Hn.
  set (hix := h mod cap ch) in *. set (tix := (h + n) mod cap ch) in *.
  assert ((h + n) / cap ch = h / cap ch ∨ (h + n) / cap ch = h / cap ch + 1) as [He|He] by nia;
    rewrite He in Hn;
    destruct (N.ltb_spec hix tix); [| |nia|]; try destruct (N.ltb_spec tix hix); try nia;
    case_bool_decide; nia.
Qed.

(** * Waiting *)

(** A key that [insert] gave out, if there is one. *)
Definition key_ok x (opt_key : option nat) ch : Prop :=
  match opt_key with Some key => is_Some (cview x ch !! key) | None => True end.
Definition unkeyed (opt_key : option nat) (m : gmap nat (option nat)) : gmap nat (option nat) :=
  match opt_key with Some key => delete key m | None => m end.

Lemma take_key_run k ch h q d x opt_key :
  queue_is k ch h q d → key_ok x opt_key ch →
  ∃ ch', take_key x opt_key ch = Done (ch', []) ∧ queue_is k ch' h q d ∧ cap ch' = cap ch ∧
    ∀ y, cview y ch' = if decide (y = x) then unkeyed opt_key (cview x ch) else cview y ch.
Proof.
  intros Hq Hk. destruct opt_key as [key|]; simpl.
  - destruct (wset_remove_spec key (wakers_of x ch) (q_wf _ _ _ _ _ Hq x) Hk)
      as (ws & -> & Hwf & Hv).
    eexists. split; [done|]. split; [by apply queue_set_wakers|]. split; [done|].
    intros y. rewrite cview_set. by rewrite Hv.
  - exists ch. split_and!; [done..|]. intros y. by destruct (decide (y = x)) as [->|].
Qed.

Lemma insert_key_run k ch h q d x o :
  queue_is k ch h q d → N.of_nat (size (cview x ch)) + 1 < usize_modulus →
  ∃ key ch', insert_key x o ch = Done ((key, ch'), []) ∧ queue_is k ch' h q d ∧ cap ch' = cap ch ∧
    cview x ch !! key = None ∧
    ∀ y, cview y ch' = if decide (y = x) then <[key:=Some o]> (cview x ch) else cview y ch.
Proof.
  intros Hq Hs. pose proof (q_wf _ _ _ _ _ Hq x) as Hwf.
  destruct (wset_insert_total o (wakers_of x ch) Hwf Hs) as [[[key ws] l] He].
  destruct (wset_insert_spec o (wakers_of x ch) key ws l Hwf He) as (Hwf' & -> & Hn & Hv).
  exists key. eexists. unfold insert_key. rewrite He. split; [done|].
  split; [by apply queue_set_wakers|]. split_and!; [done..|].
  intros y. rewrite cview_set. by rewrite Hv.
Qed.

Lemma unkeyed_size opt_key (m : gmap nat (option nat)) : (size (unkeyed opt_key m) ≤ size m)%nat.
Proof.
  destruct opt_key; [|done]. rewrite <- !size_dom. apply subseteq_size.
  simpl. rewrite dom_delete. set_solver.
Qed.

(** Whether a poll of [SendFuture] goes through, and what is left behind. *)
Lemma SendFuture_poll_run k ch h q d fuel weak o opt_key m :
  queue_is k ch h q d → key_ok SendWakers opt_key ch → (length weak < fuel)%nat →
  N.of_nat (size (cview SendWakers ch)) + 1 < usize_modulus →
  ∃ r key msg ch' l,
    SendFuture_poll fuel weak o opt_key (Some m) ch = Done ((r, key, msg, ch'), l) ∧
    if decide (N.of_nat (length q) < cap ch)
    then r = Ready tt ∧ key = None ∧ msg = None ∧ queue_is k ch' h (q ++ [m]) d ∧
      cview SendWakers ch' = unkeyed opt_key (cview SendWakers ch)
    else r = Pending ∧ msg = Some m ∧ queue_is k ch' h q d ∧ l = [] ∧
      if d then key = None ∧ cview SendWakers ch' = unkeyed opt_key (cview SendWakers ch)
      else ∃ i, key = Some i ∧
        cview SendWakers ch' = <[i:=Some o]> (unkeyed opt_key (cview SendWakers ch)).
Proof.
  intros Hq Hk Hf Hs. destruct fuel as [|fuel]; [lia|].
  destruct (take_key_run _ _ _ _ _ _ _ Hq Hk) as (ch1 & Ht & Hq1 & Hcap & Hv1).
  unfold SendFuture_poll. cbn [rust_loop]. unfold SendFuture_round. run_on. rewrite Ht. run_on.
  specialize (Hv1 SendWakers) as Hv. rewrite decide_True in Hv by done.
  pose proof (q_len _ _ _ _ _ Hq) as Hl.
  destruct (decide (N.of_nat (length q) < cap ch)) as [Hlt|Hge].
  - destruct (try_send_push _ _ _ _ _ weak (S fuel) m Hq1 ltac:(lia) Hf) as (ch2 & l & -> & Hq2 & Hv2).
    simpl. do 5 eexists. split; [done|]. split_and!; [done..|congruence].
  - rewrite (try_send_full _ _ _ _ _ _ _ _ Hq1) by lia. destruct d; run_on.
    + simpl. do 5 eexists. by split_and!.
    + destruct (insert_key_run _ _ _ _ _ SendWakers o Hq1) as (i & ch2 & Hi & Hq2 & Hcap2 & _ & Hv2).
      { rewrite Hv. pose proof (unkeyed_size opt_key (cview SendWakers ch)). lia. }
      rewrite Hi. run_on. rewrite (is_full_queue _ _ _ _ _ Hq2), (is_disconnected_queue _ _ _ _ _ Hq2).
      rewrite bool_decide_eq_true_2 by lia. simpl. do 5 eexists. split; [done|].
      split_and!; [done..|]. exists i. split; [done|]. rewrite (Hv2 SendWakers), decide_True by done.
      by rewrite Hv.
Qed.

(** The same for receiving, through [x], the waker set of the future or of the
    stream. *)
Lemma poll_recv_run k ch h q d fuel weak x o opt_key :
  queue_is k ch h q d → key_ok x opt_key ch → (length weak < fuel)%nat →
  N.of_nat (size (cview x ch)) + 1 < usize_modulus → x ≠ SendWakers →
  ∃ r key ch' l,
    poll_recv fuel weak x o opt_key ch = Done ((r, key, ch'), l) ∧
    match q with
    | m :: q' => r = Ready (Some m) ∧ key = None ∧ queue_is k ch' (h + 1) q' d ∧
        cview x ch' = unkeyed opt_key (cview x ch)
    | [] => queue_is k ch' h [] d ∧ l = [] ∧
        if d then r = Ready None ∧ key = None ∧ cview x ch' = unkeyed opt_key (cview x ch)
        else r = Pending ∧ ∃ i, key = Some i ∧
          cview x ch' = <[i:=Some o]> (unkeyed opt_key (cview x ch))
    end.
Proof.
  intros Hq Hk Hf Hs Hx. destruct fuel as [|fuel]; [lia|].
  destruct (take_key_run _ _ _ _ _ _ _ Hq Hk) as (ch1 & Ht & Hq1 & Hcap & Hv1).
  unfold poll_recv. cbn [rust_loop]. unfold poll_recv_round. rewrite Ht. run_on.
  specialize (Hv1 x) as Hv. rewrite decide_True in Hv by done.
  destruct q as [|m q].
  - rewrite (try_recv_empty _ _ _ _ _ _ Hq1) by lia. destruct d; run_on.
    + simpl. do 4 eexists. by split_and!.
    + destruct (insert_key_run _ _ _ _ _ x o Hq1) as (i & ch2 & Hi & Hq2 & Hcap2 & _ & Hv2).
      { rewrite Hv. pose proof (unkeyed_size opt_key (cview x ch)). lia. }
      rewrite Hi. run_on.
      rewrite (is_empty_queue _ _ _ _ _ Hq2), (is_disconnected_queue _ _ _ _ _ Hq2).
      simpl. do 4 eexists. split; [done|]. split_and!; [done..|]. exists i. split; [done|].
      rewrite (Hv2 x), decide_True by done. by rewrite Hv.
  - destruct (try_recv_pop _ _ _ _ _ weak (S fuel) m Hq1 Hf) as (ch2 & l & -> & Hq2 & Hv2).
    simpl. do 4 eexists. split; [done|]. split_and!; [done..|]. by rewrite (Hv2 x Hx).
Qed.

(** * The handles *)

Lemma notify_all_run k ch h q d x :
  queue_is k ch h q d →
  ∃ b ch' l, notify_all x ch = Done ((b, ch'), l) ∧ queue_is k ch' h q d ∧
    nobody_waits (cview x ch') ∧ ∀ y, y ≠ x → cview y ch' = cview y ch.
Proof.
  intros Hq. destruct (notify_run x NotifyAll ch (q_wf _ _ _ _ _ Hq)) as (b & ch' & l & He & Hn);
    [done|].
  exists b, ch', l. split; [done|]. split; [by eapply queue_notified|].
  destruct Hn as (ws & kl & -> & _ & _ & _ & Hno). split.
  - by rewrite cview_set, decide_True.
  - intros y Hy. by rewrite cview_set, decide_False.
Qed.

Lemma disconnect_run k ch h q d :
  queue_is k ch h q d →
  ∃ ch' l, disconnect ch = Done (ch', l) ∧ queue_is k ch' h q true ∧
    if d then ∀ x, cview x ch' = cview x ch else ∀ x, nobody_waits (cview x ch').
Proof.
  intros Hq. pose proof (q_config _ _ _ _ _ Hq) as Hc.
  assert (queue_is k (set_tail (N.lor (ch_tail ch) (mark_bit ch)) ch) h q true ∧
    ∀ x, cview x (set_tail (N.lor (ch_tail ch) (mark_bit ch)) ch) = cview x ch) as [Hq1 Hv1].
  { split; [|by intros []]. destruct Hq as [[] Hwf Hh Ht]. split; try done. simpl. rewrite Ht. exact (marked_set k ch Hc _ d). }
  assert ((mark_of ch (ch_tail ch) =? 0) = negb d) as Hm
    by (rewrite (q_tail _ _ _ _ _ Hq); exact (mark_test k ch Hc _ d)).
  unfold disconnect. set (ch1 := set_tail _ ch) in *.
  change (mark_of ch1) with (mark_of ch). rewrite Hm. clearbody ch1. destruct d; cbn [negb].
  { exists ch1, []. split_and!; [done..|]. exact Hv1. }
  destruct (notify_all_run _ _ _ _ _ SendWakers Hq1) as (b2 & ch2 & l2 & He2 & Hq2 & Hn2 & Hv2).
  destruct (notify_all_run _ _ _ _ _ RecvWakers Hq2) as (b3 & ch3 & l3 & He3 & Hq3 & Hn3 & Hv3).
  destruct (notify_all_run _ _ _ _ _ StreamWakers Hq3) as (b4 & ch4 & l4 & He4 & Hq4 & Hn4 & Hv4).
  exists ch4, (l2 ++ l3 ++ l4 ++ []). split; [|split; [done|]].
  - do 3 (eapply eff_bind_step; [eassumption|]). done.
  - intros []; [by rewrite Hv4, Hv3|by rewrite Hv4|done].
Qed.

Lemma cancel_key_run k ch h q d x opt_key :
  queue_is k ch h q d → key_ok x opt_key ch →
  ∃ ch' l, cancel_key x opt_key ch = Done (ch', l) ∧ queue_is k ch' h q d.
Proof.
  intros Hq Hk. destruct opt_key as [key|]; simpl; [|by exists ch, []].
  destruct Hk as [o Ho].
  destruct (wset_cancel_spec key (wakers_of x ch) o (q_wf _ _ _ _ _ Hq x) Ho)
    as (ws & kl & -> & Hwf & _).
  do 2 eexists. split; [done|]. by apply queue_set_wakers.
Qed.

(** ** Dropping the channel *)

(** The messages from the [i]-th on are in their slots. *)
Lemma drop_slots_run ch (hix : N) (n i : nat) q :
  0 < cap ch → hix < cap ch → (i + n = length q)%nat → N.of_nat (length q) ≤ cap ch →
  (∀ j m, (i ≤ j)%nat → q !! j = Some m →
     ∃ w, buffer ch !! N.to_nat ((hix + N.of_nat j) mod cap ch) = Some (mkSlot w (Some m))) →
  drop_slots hix (N.of_nat <$> seq i n) ch = Done (drop i q, []).
Proof.
  intros Hc Hh. revert i ch Hc Hh. induction n as [|n IH]; intros i ch Hc Hh Hi Hl Hs; simpl.
  { rewrite drop_ge by lia. done. }
  destruct (lookup_lt_is_Some_2 q i ltac:(lia)) as [m Hm].
  assert (∀ j, (j < length q)%nat →
    (if hix + N.of_nat j <? cap ch then hix + N.of_nat j else hix + N.of_nat j - cap ch) =
    (hix + N.of_nat j) mod cap ch) as Hidx.
  { intros j Hj. destruct (N.ltb_spec (hix + N.of_nat j) (cap ch)); [by rewrite N.mod_small|].
    apply (N.mod_unique _ _ 1); lia. }
  rewrite Hidx by lia. destruct (Hs i m ltac:(lia) Hm) as [w Hw]. rewrite Hw. run_on.
  cbn [slot_msg]. run_on. rewrite IH; simpl; try lia.
  - by rewrite (drop_S q m i Hm).
  - intros j m' Hj Hm'. destruct (Hs j m' ltac:(lia) Hm') as [w' Hw']. exists w'.
    rewrite list_lookup_insert_ne; [done|]. intros He%N2Nat.inj.
    assert (j < length q)%nat by (by eapply lookup_lt_Some).
    rewrite <- !Hidx in He by lia.
    destruct (N.ltb_spec (hix + N.of_nat i) (cap ch)), (N.ltb_spec (hix + N.of_nat j) (cap ch)); lia.
Qed.

Lemma Channel_drop_run k ch h q d : queue_is k ch h q d → Channel_drop ch = Done (q, []).
Proof.
  intros Hq. pose proof (q_config _ _ _ _ _ Hq) as Hc. pose proof (cfg_cap _ _ Hc).
  unfold Channel_drop. rewrite (len_queue _ _ _ _ _ Hq), (q_head _ _ _ _ _ Hq).
  rewrite (index_of_stamp k ch Hc), Nat2N.id.
  pose proof (N.mod_lt h (cap ch) ltac:(lia)).
  rewrite (drop_slots_run ch _ _ 0 q); [done|lia|done|lia|apply Hq|].
  intros j m _ Hm. exists (stamp k ch (h + N.of_nat j) + 1).
  rewrite <- (q_used _ _ _ _ _ Hq j m Hm). f_equal. unfold slot. f_equal.
  apply N.Div0.add_mod_idemp_l.
Qed.
End Methods.
