(* ===== verification/ChannelQueueSpec.v ===== *)
(** What the methods of the channel do when nothing interrupts them, for every
    capacity and any number of laps of the stamps. *)

From stdpp Require Import gmap fin_maps.
From S2P Require Import Prelude WakerSet WakerClients Stamps Channel ChannelQueue ChannelMethods.
Local Open Scope N_scope.

Section Theorems.
Context {T WS : Type} `{WakerSetLaws WS nat}.
Implicit Types (ch : Channel WS T) (x : WSet) (q : list T).

(** C8 The ring buffer is a bounded queue.  [with_capacity] makes an empty one (or
    panics when asked for no capacity); [try_send] puts a message at the end when
    there is space and gives it back otherwise, saying whether the channel is
    disconnected; [try_recv] takes the message at the front, or tells an empty
    channel from one that is also disconnected; the counting methods count; and
    dropping the channel drops the messages left in it, in order and each once.  Exchanges
    may fail for no reason any number of times, and the stamps may have wrapped around. *)
Theorem channel_queue k ch h q d c weak fuel m :
  queue_is k ch h q d → (length weak < fuel)%nat → 0 < c → c + 1 ≤ 2 ^ 62 →
  (∃ k0 ch0, with_capacity (T:=T) (WS:=WS) c = Done (ch0, []) ∧ cap ch0 = c ∧
     queue_is k0 ch0 0 [] false) ∧
  with_capacity (T:=T) (WS:=WS) 0 = Panic ∧
  (∃ r ch' l, try_send fuel weak m ch = Done ((r, ch'), l) ∧
     if decide (N.of_nat (length q) < cap ch) then r = Ok tt ∧ queue_is k ch' h (q ++ [m]) d
     else r = Err (if d then Disconnected m else Full m) ∧ ch' = ch) ∧
  (∃ r ch' l, try_recv fuel weak ch = Done ((r, ch'), l) ∧
     match q with
     | m :: q' => r = Ok m ∧ queue_is k ch' (h + 1) q' d
     | [] => r = Err (if d then RecvDisconnected else Empty) ∧ ch' = ch
     end) ∧
  len ch = N.of_nat (length q) ∧ is_empty ch = bool_decide (q = []) ∧
  is_full ch = bool_decide (N.of_nat (length q) = cap ch) ∧ is_disconnected ch = d ∧
  Channel_drop ch = Done (q, []).
Proof.
  intros Hq Hf Hc Hc2. pose proof (q_len _ _ _ _ _ Hq) as Hl.
  split_and!; [|done| | |by eapply len_queue|by eapply is_empty_queue|by eapply is_full_queue
    |by eapply is_disconnected_queue|by eapply Channel_drop_run].
  - destruct (with_capacity_run (T:=T) (WS:=WS) c Hc Hc2) as (k0 & ch0 & He & Hcap & Hq0 & _). by exists k0, ch0.
  - destruct (decide (N.of_nat (length q) < cap ch)) as [Hlt|Hge].
    + destruct (try_send_push _ _ _ _ _ weak fuel m Hq Hlt Hf) as (ch' & l & He & Hq' & _).
      by exists (Ok tt), ch', l.
    + do 3 eexists. split; [by apply (try_send_full _ _ _ _ _ _ _ _ Hq); lia|done].
  - destruct q as [|m' q].
    + do 3 eexists. split; [by apply (try_recv_empty _ _ _ _ _ _ Hq); lia|done].
    + destruct (try_recv_pop _ _ _ _ _ weak fuel m' Hq Hf) as (ch' & l & He & Hq' & _).
      by exists (Ok m'), ch', l.
Qed.

(** The futures and the handles.  A send future is ready as soon as there is
    space; on a full channel it is pending and has left its waker behind, except that on a
    full channel that is disconnected it waits for ever.  A receive future (and the
    stream) is ready with the next message, or with [None] when the channel is empty
    and disconnected, and otherwise pending with its waker left behind.  The last
    handle of either side that is dropped disconnects the channel and wakes
    everybody; dropping any other one only counts down. *)
Theorem channel_futures k ch h q d fuel weak x o opt_key m :
  queue_is k ch h q d → key_ok x opt_key ch → (length weak < fuel)%nat →
  N.of_nat (size (cview x ch)) + 1 < usize_modulus →
  0 < sender_count ch < usize_modulus → 0 < receiver_count ch < usize_modulus →
  (x = SendWakers → ∃ r key msg ch' l,
     SendFuture_poll fuel weak o opt_key (Some m) ch = Done ((r, key, msg, ch'), l) ∧
     if decide (N.of_nat (length q) < cap ch)
     then r = Ready tt ∧ key = None ∧ msg = None ∧ queue_is k ch' h (q ++ [m]) d ∧
       cview x ch' = unkeyed opt_key (cview x ch)
     else r = Pending ∧ msg = Some m ∧ queue_is k ch' h q d ∧ l = [] ∧
       if d then key = None ∧ cview x ch' = unkeyed opt_key (cview x ch)
       else ∃ i, key = Some i ∧ cview x ch' = <[i:=Some o]> (unkeyed opt_key (cview x ch))) ∧
  (x ≠ SendWakers → ∃ r key ch' l,
     (if x is RecvWakers then RecvFuture_poll fuel weak o opt_key ch
      else Receiver_poll_next fuel weak o opt_key ch) = Done ((r, key, ch'), l) ∧
     match q with
     | m :: q' => r = Ready (Some m) ∧ key = None ∧ queue_is k ch' (h + 1) q' d ∧
         cview x ch' = unkeyed opt_key (cview x ch)
     | [] => queue_is k ch' h [] d ∧ l = [] ∧
         if d then r = Ready None ∧ key = None ∧ cview x ch' = unkeyed opt_key (cview x ch)
         else r = Pending ∧ ∃ i, key = Some i ∧ cview x ch' = <[i:=Some o]> (unkeyed opt_key (cview x ch))
     end) ∧
  (∃ ch' l, Sender_drop ch = Done (ch', l) ∧
     queue_is k ch' h q (d || (sender_count ch =? 1)) ∧
     (sender_count ch = 1 → d = false → ∀ y, nobody_waits (cview y ch')) ∧
     (1 < sender_count ch → sender_count ch' = sender_count ch - 1)) ∧
  (x = StreamWakers → ∃ ch' l, Receiver_drop opt_key ch = Done (ch', l) ∧
     queue_is k ch' h q (d || (receiver_count ch =? 1)) ∧
     (receiver_count ch = 1 → d = false → ∀ y, nobody_waits (cview y ch'))).
Proof.
  intros Hq Hk Hf Hs Hsc Hrc. split_and!.
  - intros ->. by apply SendFuture_poll_run.
  - intros Hx. destruct x; [done|by apply poll_recv_run..].
  - unfold Sender_drop. rewrite wrapping_sub_le by lia.
    pose proof (queue_counts k ch h q d (sender_count ch - 1) (receiver_count ch) Hq) as Hq1.
    destruct (N.eqb_spec (sender_count ch) 1) as [H1|H1].
    + destruct (disconnect_run _ _ _ _ _ Hq1) as (ch' & l & He & Hq' & Hn).
      exists ch', l. rewrite orb_true_r. split_and!; [done|done| |lia]. by intros _ ->.
    + do 2 eexists. rewrite orb_false_r. split_and!; [done|exact Hq1|by intros|done].
  - intros ->. unfold Receiver_drop.
    destruct (cancel_key_run _ _ _ _ _ _ _ Hq Hk) as (ch1 & l1 & He1 & Hq1).
    assert (receiver_count ch1 = receiver_count ch ∧ sender_count ch1 = sender_count ch) as [Hr1 Hs1].
    { destruct opt_key; simpl in He1; inv_eff; done. }
    pose proof (queue_counts k ch1 h q d (sender_count ch1) (receiver_count ch1 - 1) Hq1) as Hq2.
    destruct (N.eqb_spec (receiver_count ch) 1) as [H1|H1].
    + destruct (disconnect_run _ _ _ _ _ Hq2) as (ch' & l & He & Hq' & Hn).
      exists ch', (l1 ++ l). rewrite orb_true_r. split_and!; [|done|by intros _ ->].
      eapply eff_bind_step; [exact He1|]. rewrite Hr1, H1, wrapping_sub_le by (done || lia).
      rewrite Hr1, H1 in He. exact He.
    + exists (set_counts (sender_count ch1) (receiver_count ch1 - 1) ch1), (l1 ++ []).
      rewrite orb_false_r. split_and!; [|exact Hq2|by intros].
      eapply eff_bind_step; [exact He1|]. rewrite Hr1, wrapping_sub_le by lia.
      by destruct (N.eqb_spec (receiver_count ch) 1).
Qed.
End Theorems.

(** * Witnesses *)

Abbreviation CWS := (WakerSet (gmap nat (option nat))).

(** A channel of capacity two that holds one message, disconnected or not. *)
Definition one_message (d : bool) : Channel CWS nat :=
  match with_capacity 2 with
  | Done (ch, _) =>
      match try_send 1 [] 7%nat ch with
      | Done ((_, ch), _) =>
          match (if d then disconnect ch else mret ch) with Done (ch, _) => ch | _ => ch end
      | _ => ch
      end
  | _ => mkChannel 0 0 [] 0 0 0 WakerSet_new WakerSet_new WakerSet_new 0 0
  end.

Lemma one_message_queue d : ∃ k, queue_is k (one_message d) 0 [7%nat] d.
Proof.
  destruct (with_capacity_run (T:=nat) (WS:=CWS) 2) as (k & ch & He & Hcap & Hq & _); [done..|].
  destruct (try_send_push _ _ _ _ _ [] 1 7%nat Hq) as (ch' & l & He' & Hq' & _);
    [rewrite Hcap; done|simpl; lia|].
  exists k. unfold one_message. rewrite He, He'. destruct d.
  - destruct (disconnect_run _ _ _ _ _ Hq') as (ch2 & l2 & -> & Hq2 & _). exact Hq2.
  - exact Hq'.
Qed.

Lemma channel_queue_witness :
  (∃ ch' l, try_recv 3 [true; true] (one_message true) = Done ((Ok 7%nat, ch'), l)) ∧
  Channel_drop (one_message true) = Done ([7%nat], []).
Proof.
  destruct (one_message_queue true) as [k Hq].
  destruct (channel_queue k (one_message true) 0 [7%nat] true 5 [true; true] 3 8%nat Hq)
    as (_ & _ & _ & (r & ch' & l & He & -> & _) & _ & _ & _ & _ & Hd); [simpl; lia|lia|lia|].
  split; [by exists ch', l|exact Hd].
Defined.

Lemma channel_futures_witness :
  ∃ ch' l, Receiver_drop None (one_message false) = Done (ch', l) ∧ is_disconnected ch' = true.
Proof.
  destruct (one_message_queue false) as [k Hq].
  destruct (channel_futures k (one_message false) 0 [7%nat] false 1 [] StreamWakers 0 None 8%nat Hq)
    as (_ & _ & _ & Hd); [exact I|simpl; lia|by vm_compute|by vm_compute|by vm_compute|].
  destruct (Hd eq_refl) as (ch' & l & He & Hq' & _). exists ch', l. split; [exact He|].
  exact (is_disconnected_queue _ _ _ _ _ Hq').
Defined.
