(* ===== verification/ChannelSteps.v ===== *)
(** The code of the channel cut at its atomic operations: any number of send
    futures, receive futures, streams and dropped handles interleave there.
    Loads and stores are sequentially consistent. *)

From stdpp Require Import gmap fin_maps relations.
From S2P Require Import Prelude WakerSet WakerClients Channel.
Local Open Scope N_scope.

(** Who is at work: a [SendFuture] with its message, a [RecvFuture], or the
    stream. *)
Inductive Agent (T : Type) : Type :=
| Sender (msg : T)
| Receiver (stream : bool).
Arguments Sender {T}.
Arguments Receiver {T}.

(** Where an operation is.  A word [w] is one it has loaded from its own end of
    the channel: the tail for a sender, the head for a receiver. *)
Inductive Pc (T : Type) : Type :=
| Start (a : Agent T) (opt_key : option nat)   (* at the head of the loop of [poll] *)
| LoadEnd (a : Agent T)                        (* [try_send] or [try_recv], about to load its end *)
| LoadStamp (a : Agent T) (w : N)              (* about to load the stamp of the slot *)
| Cas (a : Agent T) (w : N)                    (* about to exchange *)
| LoadOther (a : Agent T) (w : N)              (* about to load the other end *)
| Write (msg : T) (w : N)                      (* a sender that has moved the tail *)
| Publish (msg : T) (w : N)                    (* it has written its message *)
| Read (stream : bool) (w : N)                 (* a receiver that has moved the head *)
| Release (stream : bool) (msg : T) (w : N)    (* it has read its message *)
| Insert (a : Agent T)                         (* about to insert its waker *)
| CheckFirst (a : Agent T) (key : nat)         (* [is_full] or [is_empty], at the first load *)
| CheckSecond (a : Agent T) (key : nat) (w : N)
| CheckDisc (a : Agent T) (key : nat)          (* about to call [is_disconnected] *)
| Parked (a : Agent T) (key : nat)             (* [poll] returned [Pending] *)
| Closed (msg : T)                             (* the same, without a key *)
| Disconnect                                   (* about to set the mark bit *)
| Notifying (flag : bool) (todo : list (WSet * Notify)). (* [flag]: the flag is tested already *)
Arguments Start {T}.
Arguments LoadEnd {T}.
Arguments LoadStamp {T}.
Arguments Cas {T}.
Arguments LoadOther {T}.
Arguments Write {T}.
Arguments Publish {T}.
Arguments Read {T}.
Arguments Release {T}.
Arguments Insert {T}.
Arguments CheckFirst {T}.
Arguments CheckSecond {T}.
Arguments CheckDisc {T}.
Arguments Parked {T}.
Arguments Closed {T}.
Arguments Disconnect {T}.
Arguments Notifying {T}.

(** What has happened so far, for the theorems: the messages in the order of
    the exchanges of the tail, with their senders; the receivers in the order of
    the exchanges of the head; and what receive operations return. *)
Record History (T : Type) : Type := mkHistory {
  sent : list (nat * T);
  taken : list nat;
  returned : gmap nat (option T)
}.
Arguments mkHistory {T}.
Arguments sent {T}.
Arguments taken {T}.
Arguments returned {T}.

Section Steps.
Context {T WS : Type} `{WakerSetOps WS nat}.
Implicit Types (ch : Channel WS T) (o : nat) (x : WSet) (a : Agent T).

(** The waker set an operation waits in. *)
Definition set_of a : WSet :=
  match a with
  | Sender _ => SendWakers
  | Receiver false => RecvWakers
  | Receiver true => StreamWakers
  end.

(** Its end of the channel, and the other. *)
Definition own_end a ch : N := if a is Sender _ then ch_tail ch else ch_head ch.
Definition other_end a ch : N := if a is Sender _ then ch_head ch else ch_tail ch.

Definition after_notify (todo : list (WSet * Notify)) : option (Pc T) :=
  match todo with [] => None | _ => Some (Notifying false todo) end.
Definition wake_receivers : list (WSet * Notify) := [(RecvWakers, NotifyOne); (StreamWakers, NotifyAll)].
Definition wake_sender : list (WSet * Notify) := [(SendWakers, NotifyOne)].
Definition wake_all : list (WSet * Notify) :=
  [(SendWakers, NotifyAll); (RecvWakers, NotifyAll); (StreamWakers, NotifyAll)].

(** Where [try_send] and [try_recv] go with the stamp of the slot. *)
Definition after_stamp a (w : N) (stamp : N) ch : Act nat (Pc T) :=
  match a with
  | Sender _ =>
      let tail := N.lxor w (mark_of ch w) in
      if tail =? stamp then mret (Cas a w)
      else
        next ← usize_add tail 1;
        if wrapping_add stamp (one_lap ch) =? next then mret (LoadOther a w) else mret (LoadEnd a)
  | Receiver _ =>
      next ← usize_add w 1;
      if next =? stamp then mret (Cas a w)
      else if stamp =? w then mret (LoadOther a w) else mret (LoadEnd a)
  end.

(** The position, without the mark. *)
Definition pos_of a (w : N) ch : N := if a is Sender _ then N.lxor w (mark_of ch w) else w.

(** The exchange. *)
Definition exchange a (w : N) ch : Act nat (Pc T * Channel WS T) :=
  new ← next_of ch (pos_of a w ch);
  match a with
  | Sender msg =>
      let mark := mark_of ch w in
      match cas_weak false (ch_tail ch) (N.lor (pos_of a w ch) mark) (N.lor new mark) with
      | (Ok _, t) => mret (Write msg w, set_tail t ch)
      | (Err t, _) => mret (LoadStamp a t, ch)
      end
  | Receiver stream =>
      match cas_weak false (ch_head ch) w new with
      | (Ok _, h) => mret (Read stream w, set_head h ch)
      | (Err h, _) => mret (LoadStamp a h, ch)
      end
  end.

(** Full or empty, as [try_send] and [try_recv] find out. *)
Definition after_other a (w : N) ch : option (Pc T) :=
  match a with
  | Sender msg =>
      if wrapping_add (ch_head ch) (one_lap ch) =? pos_of a w ch then
        Some (if negb (mark_of ch w =? 0) then Closed msg else Insert a)
      else Some (LoadEnd a)
  | Receiver _ =>
      let tail := ch_tail ch in
      if unmarked ch tail =? w then
        if negb (mark_of ch tail =? 0) then None else Some (Insert a)
      else Some (LoadEnd a)
  end.

(** The second load of [is_full] and [is_empty]. *)
Definition still_blocked a (w : N) ch : bool :=
  match a with
  | Sender _ => wrapping_add (ch_head ch) (one_lap ch) =? unmarked ch w
  | Receiver _ => unmarked ch (ch_tail ch) =? w
  end.

(** The next atomic operation; [None] when the operation is over. *)
Definition op_step o (pc : Pc T) ch : Act nat (option (Pc T) * Channel WS T) :=
  match pc with
  | Start a opt_key => ch ← take_key (set_of a) opt_key ch; mret (Some (LoadEnd a), ch)
  | LoadEnd a => mret (Some (LoadStamp a (own_end a ch)), ch)
  | LoadStamp a w =>
      slot ← slot_at ch (pos_of a w ch);
      pc ← after_stamp a w (slot_stamp slot) ch;
      mret (Some pc, ch)
  | Cas a w => '(pc, ch) ← exchange a w ch; mret (Some pc, ch)
  | LoadOther a w => mret (after_other a w ch, ch)
  | Write msg w =>
      ch ← write_msg (N.lxor w (mark_of ch w)) (Some msg) ch;
      mret (Some (Publish msg w), ch)
  | Publish msg w =>
      stamp ← usize_add (N.lxor w (mark_of ch w)) 1;
      ch ← store_stamp (N.lxor w (mark_of ch w)) stamp ch;
      mret (Some (Notifying false wake_receivers), ch)
  | Read stream w =>
      slot ← slot_at ch w;
      msg ← unwrap (slot_msg slot);
      ch ← write_msg w None ch;
      mret (Some (Release stream msg w), ch)
  | Release _ _ w =>
      ch ← store_stamp w (wrapping_add w (one_lap ch)) ch;
      mret (Some (Notifying false wake_sender), ch)
  | Insert a =>
      '(key, ch) ← insert_key (set_of a) o ch;
      mret (Some (CheckFirst a key), ch)
  | CheckFirst a key => mret (Some (CheckSecond a key (own_end a ch)), ch)
  | CheckSecond a key w =>
      mret (Some (if still_blocked a w ch then CheckDisc a key else Start a (Some key)), ch)
  | CheckDisc a key =>
      mret (Some (if is_disconnected ch then Start a (Some key) else Parked a key), ch)
  | Parked _ _ | Closed _ => mret (Some pc, ch)
  | Disconnect =>
      let tail := ch_tail ch in
      let pc := if mark_of ch tail =? 0 then Some (Notifying false wake_all) else None in
      mret (pc, set_tail (N.lor tail (mark_bit ch)) ch)
  | Notifying _ [] => mret (None, ch)
  | Notifying false ((x, n) :: todo) =>
      mret (if wset_one_wanted (wakers_of x ch) then Some (Notifying true ((x, n) :: todo))
            else after_notify todo, ch)
  | Notifying true ((x, n) :: todo) =>
      '(_, ws) ← wset_notify n (wakers_of x ch);
      mret (after_notify todo, set_wakers x ws ch)
  end.

Definition active (pc : Pc T) : bool :=
  match pc with Parked _ _ | Closed _ => false | _ => true end.

(** What a step adds to the history. *)
Definition record_step o (pc : Pc T) (pc' : option (Pc T)) (hist : History T) : History T :=
  match pc, pc' with
  | Cas (Sender msg) _, Some (Write _ _) =>
      mkHistory (sent hist ++ [(o, msg)]) (taken hist) (returned hist)
  | Cas (Receiver _) _, Some (Read _ _) =>
      mkHistory (sent hist) (taken hist ++ [o]) (returned hist)
  | Read _ _, Some (Release _ msg _) =>
      mkHistory (sent hist) (taken hist) (<[o := Some msg]> (returned hist))
  | LoadOther (Receiver _) _, None =>
      mkHistory (sent hist) (taken hist) (<[o := None]> (returned hist))
  | _, _ => hist
  end.

Record State : Type := mkState {
  chan : Channel WS T;
  ops : gmap nat (Pc T);
  woken : gset nat;
  hist : History T
}.

(** A number that no operation has had yet. *)
Definition unused o (ps : gmap nat (Pc T)) (hi : History T) : Prop :=
  ps !! o = None ∧ (o ∉ (sent hi).*1) ∧ (o ∉ taken hi) ∧ returned hi !! o = None.

Inductive step : State → State → Prop :=
| step_run ch ps wk hi o pc pc' ch' l :
    ps !! o = Some pc → active pc = true → op_step o pc ch = Done ((pc', ch'), l) →
    step (mkState ch ps wk hi)
      (mkState ch' (set_op o pc' ps) (wk ∪ list_to_set l) (record_step o pc pc' hi))
| step_spurious ch ps wk hi o a w :        (* the exchange fails for no reason *)
    ps !! o = Some (Cas a w) →
    step (mkState ch ps wk hi) (mkState ch (<[o := LoadStamp a (own_end a ch)]> ps) wk hi)
| step_call ch ps wk hi o a :              (* [send()], [recv()], [next()] *)
    unused o ps hi →
    step (mkState ch ps wk hi) (mkState ch (<[o := Start a None]> ps) (wk ∖ {[o]}) hi)
| step_poll ch ps wk hi o a key :          (* woken or not *)
    ps !! o = Some (Parked a key) →
    step (mkState ch ps wk hi) (mkState ch (<[o := Start a (Some key)]> ps) (wk ∖ {[o]}) hi)
| step_poll_closed ch ps wk hi o msg :
    ps !! o = Some (Closed msg) →
    step (mkState ch ps wk hi) (mkState ch (<[o := Start (Sender msg) None]> ps) (wk ∖ {[o]}) hi)
| step_cancel ch ps wk hi o a key ch' l :  (* the future, or the stream, is dropped *)
    ps !! o = Some (Parked a key) → cancel_key (set_of a) (Some key) ch = Done (ch', l) →
    step (mkState ch ps wk hi) (mkState ch' (delete o ps) (wk ∪ list_to_set l) hi)
| step_cancel_closed ch ps wk hi o msg :
    ps !! o = Some (Closed msg) →
    step (mkState ch ps wk hi) (mkState ch (delete o ps) wk hi)
| step_clone ch ps wk hi ch' l :           (* of a sender or a receiver *)
    (0 < sender_count ch ∧ Sender_clone ch = Done (ch', l)) ∨
    (0 < receiver_count ch ∧ Receiver_clone ch = Done (ch', l)) →
    step (mkState ch ps wk hi) (mkState ch' ps wk hi)
| step_drop_sender ch ps wk hi o :         (* the first half of [Sender::drop] *)
    unused o ps hi → 0 < sender_count ch →
    step (mkState ch ps wk hi)
      (mkState (set_counts (wrapping_sub (sender_count ch) 1) (receiver_count ch) ch)
         (set_op o (if sender_count ch =? 1 then Some Disconnect else None) ps) wk hi)
| step_drop_receiver ch ps wk hi o :       (* of [Receiver::drop], nothing being polled *)
    unused o ps hi → 0 < receiver_count ch →
    step (mkState ch ps wk hi)
      (mkState (set_counts (sender_count ch) (wrapping_sub (receiver_count ch) 1) ch)
         (set_op o (if receiver_count ch =? 1 then Some Disconnect else None) ps) wk hi).

Definition initial ch : State := mkState ch ∅ ∅ (mkHistory [] [] ∅).
(** Reachable with a channel of capacity [c]. *)
Definition reachable (c : N) (s : State) : Prop :=
  ∃ ch, with_capacity c = Done (ch, []) ∧ rtc step (initial ch) s.
End Steps.
