(* ===== verification/ChannelRing.v ===== *)
(** The ring buffer of the channel under interleaving: the head and the tail
    count the exchanges, every slot between them holds its message or is being
    written, and every other slot is free or is being read.  Stamps tell
    positions apart as long as no stamp has come round again ([in_time]). *)

From stdpp Require Import gmap fin_maps relations.
From S2P Require Import Prelude WakerSet WakerClients Stamps Channel ChannelQueue ChannelSteps.
Local Open Scope N_scope.

Section Ring.
Context {T WS : Type} `{WakerSetLaws WS nat}.
Implicit Types (ch : Channel WS T) (o : nat) (x : WSet) (a : Agent T) (pc : Pc T)
  (ps : gmap nat (Pc T)) (hi : History T) (i p t : N).

Definition n_sent hi : N := N.of_nat (length (sent hi)).
Definition n_taken hi : N := N.of_nat (length (taken hi)).

(** No stamp has come round again. *)
Definition in_time (k : N) ch hi : Prop := n_sent hi + cap ch < period k (cap ch).

(** The slot of position [p] has the stamp [w], with some message or with [m]. *)
Definition stamped ch p (w : N) : Prop := ∃ m, buffer ch !! slot ch p = Some (mkSlot w m).
Definition holds ch p (w : N) (m : option T) : Prop := buffer ch !! slot ch p = Some (mkSlot w m).

Definition sent_at hi i o (m : T) : Prop := sent hi !! N.to_nat i = Some (o, m).
Definition taken_at hi i o : Prop := taken hi !! N.to_nat i = Some o.

(** A word loaded from the operation's own end. *)
Definition own_word (k : N) ch hi a (w : N) : Prop :=
  match a with
  | Sender _ => ∃ t (d : bool), w = marked k ch t d ∧ t ≤ n_sent hi
  | Receiver _ => ∃ t, w = stamp k ch t ∧ t ≤ n_taken hi
  end.

(** What an operation knows. *)
Definition op_ok (k : N) ch hi o pc : Prop :=
  match pc with
  | LoadStamp a w | LoadOther a w | CheckSecond a _ w => own_word k ch hi a w
  | Cas (Sender _) w => ∃ t (d : bool), w = marked k ch t d ∧ t ≤ n_sent hi ∧
      (t = n_sent hi → stamped ch t (stamp k ch t))
  | Cas (Receiver _) w => ∃ t, w = stamp k ch t ∧ t ≤ n_taken hi ∧
      (t = n_taken hi → stamped ch t (stamp k ch t + 1))
  | Write msg w => ∃ i (d : bool), w = marked k ch i d ∧ sent_at hi i o msg ∧ n_taken hi ≤ i ∧
      stamped ch i (stamp k ch i)
  | Publish msg w => ∃ i (d : bool), w = marked k ch i d ∧ sent_at hi i o msg ∧ n_taken hi ≤ i ∧
      holds ch i (stamp k ch i) (Some msg)
  | Read _ w => ∃ i o' msg, w = stamp k ch i ∧ taken_at hi i o ∧ sent_at hi i o' msg ∧
      n_sent hi ≤ i + cap ch ∧ holds ch i (stamp k ch i + 1) (Some msg)
  | Release _ msg w => ∃ i o', w = stamp k ch i ∧ taken_at hi i o ∧ sent_at hi i o' msg ∧
      n_sent hi ≤ i + cap ch ∧ holds ch i (stamp k ch i + 1) None
  | Notifying _ todo => Forall (λ e, e.2 ≠ NotifyAny) todo
  | _ => True
  end.

Definition writing pc : bool := match pc with Write _ _ | Publish _ _ => true | _ => false end.
Definition reading pc : bool := match pc with Read _ _ | Release _ _ _ => true | _ => false end.
(** Before the exchange. *)
Definition early pc : bool :=
  match pc with
  | Write _ _ | Publish _ _ | Read _ _ | Release _ _ _ | Disconnect | Notifying _ _ => false
  | _ => true
  end.
Definition fresh_op hi o : Prop := (o ∉ (sent hi).*1) ∧ (o ∉ taken hi) ∧ returned hi !! o = None.

Record Ring (k : N) ch ps hi : Prop := mkRing {
  r_config : config k ch;
  r_head : ch_head ch = stamp k ch (n_taken hi);
  r_tail : ch_tail ch = marked k ch (n_sent hi) (is_disconnected ch);
  r_len : n_taken hi ≤ n_sent hi ≤ n_taken hi + cap ch;
  r_used i o m : sent_at hi i o m → n_taken hi ≤ i →
    holds ch i (stamp k ch i + 1) (Some m) ∨ ∃ pc, ps !! o = Some pc ∧ writing pc = true;
  r_free p : n_sent hi ≤ p < n_taken hi + cap ch →
    stamped ch p (stamp k ch p) ∨
    ∃ i o pc, p = i + cap ch ∧ taken_at hi i o ∧ ps !! o = Some pc ∧ reading pc = true;
  r_op o pc : ps !! o = Some pc → op_ok k ch hi o pc;
  r_fresh o pc : ps !! o = Some pc → early pc = true → fresh_op hi o;
  r_sent : NoDup (sent hi).*1;
  r_taken : NoDup (taken hi);
  r_value o m : returned hi !! o = Some (Some m) →
    ∃ i o', taken_at hi i o ∧ sent_at hi i o' m;
  r_pending i o : taken_at hi i o →
    (∃ m, returned hi !! o = Some (Some m)) ∨ ∃ str w, ps !! o = Some (Read str w);
  r_none o : returned hi !! o = Some None → is_disconnected ch = true
}.

(** ** Positions *)

Section Positions.
Context (k : N) ch hi (Hc : config k ch) (Ht : in_time k ch hi).

Lemma pos_inj p q :
  stamp k ch p = stamp k ch q → p ≤ n_sent hi + cap ch → q ≤ n_sent hi + cap ch → p = q.
Proof.
  intros He Hp Hq. unfold in_time in Ht.
  eapply stamp_inj; [..|exact He| |]; [apply Hc|apply Hc|lia|lia].
Qed.

Lemma stamped_here p w w' m : stamped ch p w → holds ch p w' m → w = w'.
Proof. intros [m' Hm] Hm'. unfold holds in Hm'. congruence. Qed.

Lemma holds_stamped p w m : holds ch p w m → stamped ch p w.
Proof. by exists m. Qed.

Lemma stamped_fun p w w' : stamped ch p w → stamped ch p w' → w = w'.
Proof. intros [m Hm] [m' Hm']. congruence. Qed.

(** Two claims about one slot agree. *)
Lemma stamped_same p q w w' : slot ch p = slot ch q → stamped ch p w → stamped ch q w' → w = w'.
Proof. intros He [m Hm] [m' Hm']. rewrite He in Hm. congruence. Qed.

Lemma even_odd p q :
  slot ch p = slot ch q → stamped ch p (stamp k ch p) → stamped ch q (stamp k ch q + 1) → False.
Proof.
  intros He Hp Hq. pose proof (stamped_same _ _ _ _ He Hp Hq) as Hs.
  by apply (stamp_succ_slot k ch Hc q p); [|symmetry].
Qed.

Lemma even_even p q :
  slot ch p = slot ch q → stamped ch p (stamp k ch p) → stamped ch q (stamp k ch q) →
  p ≤ n_sent hi + cap ch → q ≤ n_sent hi + cap ch → p = q.
Proof. intros He Hp Hq. pose proof (stamped_same _ _ _ _ He Hp Hq) as Hs. by apply pos_inj. Qed.

Lemma odd_odd p q :
  slot ch p = slot ch q → stamped ch p (stamp k ch p + 1) → stamped ch q (stamp k ch q + 1) →
  p ≤ n_sent hi + cap ch → q ≤ n_sent hi + cap ch → p = q.
Proof.
  intros He Hp Hq. pose proof (stamped_same _ _ _ _ He Hp Hq) as Hs. apply pos_inj. lia.
Qed.

Lemma marked_eq p q (d d' : bool) :
  marked k ch p d = marked k ch q d' → p ≤ n_sent hi + cap ch → q ≤ n_sent hi + cap ch →
  p = q ∧ d = d'.
Proof.
  intros He Hp Hq. split.
  - apply pos_inj; [|done..]. rewrite <- (unmarked_marked k ch Hc p d), He.
    by apply unmarked_marked.
  - pose proof (mark_test k ch Hc p d) as H1. rewrite He, (mark_test k ch Hc q d') in H1.
    by destruct d, d'.
Qed.
End Positions.

(** ** One operation moves *)

(** It neither holds a slot nor leaves the history changed. *)
Lemma Ring_op k ch ps hi o (pc' : option (Pc T)) :
  Ring k ch ps hi →
  (∀ pc, ps !! o = Some pc → writing pc = false ∧ reading pc = false) →
  (∀ pc, pc' = Some pc → op_ok k ch hi o pc ∧ (early pc = true → fresh_op hi o)) →
  Ring k ch (set_op o pc' ps) hi.
Proof.
  intros [] Hold Hnew. split; try done.
  - intros i o' m Hs Hi. destruct (r_used0 i o' m Hs Hi) as [|(pc & Ho & Hw)]; [by left|right].
    exists pc. split; [|done]. rewrite set_op_ne; [done|]. intros ->.
    destruct (Hold pc Ho). congruence.
  - intros p Hp. destruct (r_free0 p Hp) as [|(i & o' & pc & -> & Hi & Ho & Hr)]; [by left|right].
    exists i, o', pc. split_and!; [done..| |done]. rewrite set_op_ne; [done|]. intros ->.
    destruct (Hold pc Ho). congruence.
  - intros o' pc Ho'. destruct (decide (o' = o)) as [->|Hne].
    + rewrite set_op_eq in Ho'. by apply Hnew.
    + rewrite set_op_ne in Ho' by done. eauto.
  - intros o' pc Ho' He. destruct (decide (o' = o)) as [->|Hne].
    + rewrite set_op_eq in Ho'. by apply (Hnew pc).
    + rewrite set_op_ne in Ho' by done. eauto.
  - intros i o' Hi. destruct (r_pending0 i o' Hi) as [|(str & w & Ho)]; [by left|right].
    exists str, w. rewrite set_op_ne; [done|]. intros ->. by destruct (Hold _ Ho).
Qed.

Lemma Ring_set_wakers k ch ps hi x ws : Ring k ch ps hi → Ring k (set_wakers x ws ch) ps hi.
Proof. intros [Hc]. split; try done. by destruct Hc. Qed.

Lemma Ring_set_counts k ch ps hi s r : Ring k ch ps hi → Ring k (set_counts s r ch) ps hi.
Proof. intros [Hc]. split; try done. by destruct Hc. Qed.

(** ** A slot is stored to *)

Section Put.
Context (k : N) ch hi i (sl : Slot T) (Hc : config k ch).
Abbreviation ch' := (put i sl ch).

Lemma holds_put_ne p w m : slot ch p ≠ slot ch i → holds ch p w m → holds ch' p w m.
Proof. intros Hne Hp. etrans; [by apply (put_lookup_ne ch)|exact Hp]. Qed.

Lemma stamped_put_ne p w : slot ch p ≠ slot ch i → stamped ch p w → stamped ch' p w.
Proof. intros Hne [m Hm]. exists m. by apply holds_put_ne. Qed.

Lemma holds_put w m : sl = mkSlot w m → holds ch' i w m.
Proof. intros ->. by apply (put_lookup k ch). Qed.

(** The stamp is the same as before. *)
Lemma stamped_put p w : stamped ch i (slot_stamp sl) → stamped ch p w → stamped ch' p w.
Proof.
  intros Hi Hp. destruct (decide (slot ch p = slot ch i)) as [He|]; [|by apply stamped_put_ne].
  pose proof (stamped_same ch p i _ _ He Hp Hi) as ->. exists (slot_msg sl).
  change (slot ch' p) with (slot ch p). rewrite He.
  rewrite (holds_put (slot_stamp sl) (slot_msg sl)) by (by destruct sl). done.
Qed.

(** What another operation knows still holds, if it does not own the slot. *)
Lemma op_ok_put o pc :
  (stamped ch (n_sent hi) (stamp k ch (n_sent hi)) →
   stamped ch' (n_sent hi) (stamp k ch (n_sent hi))) →
  (stamped ch (n_taken hi) (stamp k ch (n_taken hi) + 1) →
   stamped ch' (n_taken hi) (stamp k ch (n_taken hi) + 1)) →
  (∀ j m, sent_at hi j o m → writing pc = true → n_taken hi ≤ j → stamped ch j (stamp k ch j) →
   slot ch j ≠ slot ch i) →
  (∀ j m o', taken_at hi j o → sent_at hi j o' m → reading pc = true →
   stamped ch j (stamp k ch j + 1) → slot ch j ≠ slot ch i) →
  op_ok k ch hi o pc → op_ok k ch' hi o pc.
Proof.
  intros Hs Ht Hw Hr. destruct pc as [| | |[]| | | | | | | | | | | | |]; simpl; try done.
  - intros (t & d & -> & Hle & Hn). exists t, d. split_and!; [done..|]. intros ->. by apply Hs, Hn.
  - intros (t & -> & Hle & Hn). exists t. split_and!; [done..|]. intros ->. by apply Ht, Hn.
  - intros (j & d & -> & Hj & Hle & Hsl). exists j, d. split_and!; [done..|].
    apply stamped_put_ne; eauto.
  - intros (j & d & -> & Hj & Hle & Hsl). exists j, d. split_and!; [done..|].
    apply holds_put_ne; [|done]. eapply Hw; eauto using holds_stamped.
  - intros (j & o' & m & -> & Hj & Hj' & Hle & Hsl). exists j, o', m. split_and!; [done..|].
    apply holds_put_ne; [|done]. eapply Hr; eauto using holds_stamped.
  - intros (j & o' & -> & Hj & Hj' & Hle & Hsl). exists j, o'. split_and!; [done..|].
    apply holds_put_ne; [|done]. eapply Hr; eauto using holds_stamped.
Qed.
End Put.

Lemma sent_at_lt hi i o m : sent_at hi i o m → i < n_sent hi.
Proof. intros Hs%lookup_lt_Some. unfold n_sent. lia. Qed.

Lemma taken_at_lt hi i o : taken_at hi i o → i < n_taken hi.
Proof. intros Hs%lookup_lt_Some. unfold n_taken. lia. Qed.

Lemma sent_at_unique hi i j o m m' :
  NoDup (sent hi).*1 → sent_at hi i o m → sent_at hi j o m' → i = j ∧ m = m'.
Proof.
  unfold sent_at. intros Hnd Hi Hj.
  assert (N.to_nat i = N.to_nat j) as He.
  { eapply NoDup_lookup; [exact Hnd|by rewrite list_lookup_fmap, Hi|by rewrite list_lookup_fmap, Hj]. }
  rewrite He in Hi. split; [lia|congruence].
Qed.

Lemma taken_at_unique hi i j o : NoDup (taken hi) → taken_at hi i o → taken_at hi j o → i = j.
Proof.
  unfold taken_at. intros Hnd Hi Hj.
  assert (N.to_nat i = N.to_nat j); [by eapply NoDup_lookup|lia].
Qed.

(** ** Storing to a slot that is being written or read *)

Section Store.
Context (k : N) ch ps hi o i (sl : Slot T).
Context (HR : Ring k ch ps hi) (Ht : in_time k ch hi).
Abbreviation ch' := (put i sl ch).

(** The slots of a writer and of a reader are their own. *)
Lemma writer_alone m j o' m' :
  sent_at hi i o m → stamped ch i (stamp k ch i) → o' ≠ o →
  sent_at hi j o' m' → stamped ch j (stamp k ch j) → slot ch j ≠ slot ch i.
Proof.
  intros Hi Hsi Hne Hj Hsj He. pose proof (sent_at_lt _ _ _ _ Hi). pose proof (sent_at_lt _ _ _ _ Hj).
  assert (j = i) as -> by (eapply even_even; eauto using r_config; lia).
  unfold sent_at in *. congruence.
Qed.

Lemma reader_alone j o' :
  taken_at hi i o → stamped ch i (stamp k ch i + 1) → o' ≠ o →
  taken_at hi j o' → stamped ch j (stamp k ch j + 1) → slot ch j ≠ slot ch i.
Proof.
  intros Hi Hsi Hne Hj Hsj He. pose proof (taken_at_lt _ _ _ Hi). pose proof (taken_at_lt _ _ _ Hj).
  pose proof (r_len _ _ _ _ HR).
  assert (j = i) as -> by (eapply odd_odd; eauto using r_config; lia).
  unfold taken_at in *. congruence.
Qed.

Lemma even_odd_ne p q :
  stamped ch p (stamp k ch p) → stamped ch q (stamp k ch q + 1) → slot ch q ≠ slot ch p.
Proof. intros Hp Hq He. by eapply (even_odd k ch (r_config _ _ _ _ HR) p q). Qed.

(** The writer [o] stores its message, or the stamp that publishes it. *)
Lemma writer_others m o' pc :
  sent_at hi i o m → stamped ch i (stamp k ch i) → o' ≠ o →
  op_ok k ch hi o' pc → op_ok k ch' hi o' pc.
Proof.
  intros Hi Hsi Hne Hok. pose proof (sent_at_lt _ _ _ _ Hi). pose proof (r_config _ _ _ _ HR) as Hc.
  apply op_ok_put; [..|done].
  - intros Hn. apply stamped_put_ne; [|done]. intros He.
    assert (n_sent hi = i); [|lia]. eapply even_even; eauto; lia.
  - intros Hn. apply stamped_put_ne; [|done]. by apply even_odd_ne.
  - intros j m' Hj _ _ Hsj. by eapply writer_alone.
  - intros j m' o'' _ _ _ Hsj. by apply even_odd_ne.
Qed.

(** The reader [o] takes its message, or stores the stamp that frees the slot. *)
Lemma reader_others o' pc :
  taken_at hi i o → stamped ch i (stamp k ch i + 1) → o' ≠ o →
  op_ok k ch hi o' pc → op_ok k ch' hi o' pc.
Proof.
  intros Hi Hsi Hne Hok. pose proof (taken_at_lt _ _ _ Hi). pose proof (r_config _ _ _ _ HR) as Hc.
  pose proof (r_len _ _ _ _ HR).
  apply op_ok_put; [..|done].
  - intros Hn. apply stamped_put_ne; [|done]. intros He. by eapply even_odd_ne.
  - intros Hn. apply stamped_put_ne; [|done]. intros He.
    assert (n_taken hi = i); [|lia]. eapply odd_odd; eauto; lia.
  - intros j m' _ _ _ Hsj He. by eapply even_odd_ne.
  - intros j m' o'' Hj _ _ Hsj. by eapply reader_alone.
Qed.
End Store.

(** ** The four stores *)

Section Stores.
Context (k : N) ch ps hi o.
Context (HR : Ring k ch ps hi) (Ht : in_time k ch hi).

Lemma Ring_write msg w :
  ps !! o = Some (Write msg w) →
  ∃ i (d : bool), w = marked k ch i d ∧
    op_step o (Write msg w) ch =
      Done ((Some (Publish msg w), put i (mkSlot (stamp k ch i) (Some msg)) ch), []) ∧
    Ring k (put i (mkSlot (stamp k ch i) (Some msg)) ch) (<[o := Publish msg w]> ps) hi.
Proof.
  intros Ho. pose proof (r_config _ _ _ _ HR) as Hc.
  destruct (r_op _ _ _ _ HR _ _ Ho) as (i & d & -> & Hi & Hle & Hs).
  pose proof Hs as [m0 Hm0]. exists i, d. split; [done|]. split.
  - simpl. rewrite marked_lxor by done. by rewrite (write_msg_run k ch i _ _ Hc Hm0).
  - set (sl := mkSlot _ _). assert (∀ p v, stamped ch p v → stamped (put i sl ch) p v) as Hst.
    { intros p v. by apply (stamped_put k). }
    destruct HR. split; try done; [by apply config_put|..].
    + intros j o' m Hj Hjn. destruct (r_used0 j o' m Hj Hjn) as [Hh|(pc & Hpc & Hw)].
      * left. apply holds_put_ne; [|done]. eapply even_odd_ne; eauto using holds_stamped.
      * right. destruct (decide (o' = o)) as [->|]; [|exists pc; by rewrite lookup_insert_ne].
        rewrite lookup_insert_eq. by eexists.
    + intros p Hp. simpl in Hp. destruct (r_free0 p Hp) as [Hf|(j & o' & pc & -> & Hj & Hpc & Hr)].
      * left. by apply Hst.
      * right. exists j, o', pc. split_and!; [done..| |done]. rewrite lookup_insert_ne; [done|intros ->; by simplify_eq].
    + intros o' pc. destruct (decide (o' = o)) as [->|Hne].
      * rewrite lookup_insert_eq. intros [= <-]. exists i, d. split_and!; [done..|].
        by apply (holds_put k ch).
      * rewrite lookup_insert_ne by done. intros Hpc. by eapply writer_others; eauto.
    + intros o' pc. destruct (decide (o' = o)) as [->|Hne].
      * rewrite lookup_insert_eq. by intros [= <-].
      * rewrite lookup_insert_ne by done. eauto.
    + intros j o' Hj. destruct (r_pending0 j o' Hj) as [|(str & w & Ho')]; [by left|right].
      exists str, w. rewrite lookup_insert_ne; [done|congruence].
Qed.

Lemma Ring_publish msg w :
  ps !! o = Some (Publish msg w) →
  ∃ i (d : bool), w = marked k ch i d ∧
    op_step o (Publish msg w) ch =
      Done ((Some (Notifying false wake_receivers), put i (mkSlot (stamp k ch i + 1) (Some msg)) ch), []) ∧
    Ring k (put i (mkSlot (stamp k ch i + 1) (Some msg)) ch)
      (<[o := Notifying false wake_receivers]> ps) hi.
Proof.
  intros Ho. pose proof (r_config _ _ _ _ HR) as Hc.
  destruct (r_op _ _ _ _ HR _ _ Ho) as (i & d & -> & Hi & Hle & Hs).
  pose proof (holds_stamped _ _ _ _ Hs) as Hst. pose proof (sent_at_lt _ _ _ _ Hi) as Hlt.
  exists i, d. split; [done|]. split.
  - simpl. rewrite marked_lxor, stamp_succ by done. run_on.
    by rewrite (store_stamp_run k ch i _ _ Hc Hs).
  - set (sl := mkSlot _ _). destruct HR. split; try done; [by apply config_put|..].
    + intros j o' m Hj Hjn. destruct (decide (o' = o)) as [->|Hne].
      { destruct (sent_at_unique _ _ _ _ _ _ r_sent0 Hi Hj) as [<- <-]. left. by apply (holds_put k ch). }
      destruct (r_used0 j o' m Hj Hjn) as [Hh|(pc & Hpc & Hw)].
      * left. apply holds_put_ne; [|done]. eapply even_odd_ne; eauto using holds_stamped.
      * right. exists pc; by rewrite lookup_insert_ne.
    + intros p Hp. simpl in Hp. destruct (r_free0 p Hp) as [Hf|(j & o' & pc & -> & Hj & Hpc & Hr)].
      * left. apply stamped_put_ne; [|done]. intros He.
        assert (p = i); [|lia]. eapply (even_even k ch hi Hc Ht p i); eauto; lia.
      * right. exists j, o', pc. split_and!; [done..| |done].
        rewrite lookup_insert_ne; [done|intros ->; by simplify_eq].
    + intros o' pc. destruct (decide (o' = o)) as [->|Hne].
      * rewrite lookup_insert_eq. intros [= <-]. by repeat constructor.
      * rewrite lookup_insert_ne by done. intros Hpc. by eapply writer_others; eauto.
    + intros o' pc. destruct (decide (o' = o)) as [->|Hne].
      * rewrite lookup_insert_eq. by intros [= <-].
      * rewrite lookup_insert_ne by done. eauto.
    + intros j o' Hj. destruct (r_pending0 j o' Hj) as [|(str & w & Ho')]; [by left|right].
      exists str, w. rewrite lookup_insert_ne; [done|congruence].
Qed.

Lemma Ring_read str w :
  ps !! o = Some (Read str w) →
  ∃ i msg, w = stamp k ch i ∧
    op_step o (Read str w) ch =
      Done ((Some (Release str msg w), put i (mkSlot (stamp k ch i + 1) None) ch), []) ∧
    Ring k (put i (mkSlot (stamp k ch i + 1) None) ch) (<[o := Release str msg w]> ps)
      (mkHistory (sent hi) (taken hi) (<[o := Some msg]> (returned hi))).
Proof.
  intros Ho. pose proof (r_config _ _ _ _ HR) as Hc.
  destruct (r_op _ _ _ _ HR _ _ Ho) as (i & o1 & msg & -> & Hi & Hi1 & Hle & Hs).
  pose proof (holds_stamped _ _ _ _ Hs) as Hst. pose proof (taken_at_lt _ _ _ Hi) as Hlt.
  exists i, msg. split; [done|]. split.
  - simpl. rewrite slot_at_stamp by done. rewrite Hs. run_on. cbn [slot_msg]. run_on.
    by rewrite (write_msg_run k ch i _ _ Hc Hs).
  - set (sl := mkSlot _ _). destruct HR. split; try done; [by apply config_put|..]; simpl.
    + intros j o' m Hj Hjn. destruct (r_used0 j o' m Hj Hjn) as [Hh|(pc & Hpc & Hw)].
      * left. apply holds_put_ne; [|done]. intros He. assert (j = i); [|unfold n_taken in *; simpl in *; lia].
        pose proof (sent_at_lt _ _ _ _ Hj). unfold n_sent, n_taken in *. simpl in *.
        eapply odd_odd; eauto using holds_stamped; unfold n_sent; lia.
      * right. exists pc. rewrite lookup_insert_ne; [done|intros ->; by simplify_eq].
    + intros p Hp. simpl in Hp. destruct (r_free0 p Hp) as [Hf|(j & o' & pc & -> & Hj & Hpc & Hr)].
      * left. by apply (stamped_put k).
      * right. exists j, o'. destruct (decide (o' = o)) as [->|]; [|exists pc; by rewrite lookup_insert_ne].
        rewrite lookup_insert_eq. by eexists.
    + intros o' pc. destruct (decide (o' = o)) as [->|Hne].
      * rewrite lookup_insert_eq. intros [= <-]. exists i, o1. split_and!; [done..|].
        by apply (holds_put k ch).
      * rewrite lookup_insert_ne by done. intros Hpc. eapply (reader_others k ch ps hi); eauto.
    + intros o' pc. destruct (decide (o' = o)) as [->|Hne].
      * rewrite lookup_insert_eq. by intros [= <-].
      * rewrite lookup_insert_ne by done. intros Hpc He. destruct (r_fresh0 _ _ Hpc He) as (?&?&?).
        split_and!; [done..|]. simpl. by rewrite lookup_insert_ne.
    + intros o' m. destruct (decide (o' = o)) as [->|Hne].
      * rewrite lookup_insert_eq. intros [= <-]. by exists i, o1.
      * rewrite lookup_insert_ne by done. apply r_value0.
    + intros j o' Hj. destruct (decide (o' = o)) as [->|Hne].
      { left. exists msg. apply lookup_insert_eq. }
      rewrite !lookup_insert_ne by done. by eapply r_pending0.
    + intros o'. destruct (decide (o' = o)) as [->|Hne]; [by rewrite lookup_insert_eq|].
      rewrite lookup_insert_ne by done. apply r_none0.
Qed.

Lemma Ring_release str msg w :
  ps !! o = Some (Release str msg w) →
  ∃ i, w = stamp k ch i ∧
    op_step o (Release str msg w) ch =
      Done ((Some (Notifying false wake_sender), put i (mkSlot (stamp k ch (i + cap ch)) None) ch), []) ∧
    Ring k (put i (mkSlot (stamp k ch (i + cap ch)) None) ch) (<[o := Notifying false wake_sender]> ps) hi.
Proof.
  intros Ho. pose proof (r_config _ _ _ _ HR) as Hc.
  destruct (r_op _ _ _ _ HR _ _ Ho) as (i & o1 & -> & Hi & Hi1 & Hle & Hs).
  pose proof (holds_stamped _ _ _ _ Hs) as Hst. pose proof (taken_at_lt _ _ _ Hi) as Hlt.
  exists i. split; [done|]. split.
  - simpl. rewrite (stamp_add_lap k ch Hc). by rewrite (store_stamp_run k ch i _ _ Hc Hs).
  - set (sl := mkSlot _ _). destruct HR. split; try done; [by apply config_put|..].
    + intros j o' m Hj Hjn. destruct (r_used0 j o' m Hj Hjn) as [Hh|(pc & Hpc & Hw)].
      * left. apply holds_put_ne; [|done]. intros He. assert (j = i); [|lia].
        pose proof (sent_at_lt _ _ _ _ Hj). eapply odd_odd; eauto using holds_stamped; lia.
      * right. exists pc. rewrite lookup_insert_ne; [done|intros ->; by simplify_eq].
    + intros p Hp. simpl in Hp. destruct (r_free0 p Hp) as [Hf|(j & o' & pc & -> & Hj & Hpc & Hr)].
      * left. apply stamped_put_ne; [|done]. intros He. by eapply (even_odd_ne k ch ps hi); eauto.
      * destruct (decide (o' = o)) as [->|Hne].
        { rewrite (taken_at_unique _ _ _ _ r_taken0 Hj Hi). left. exists None.
          change (slot (put i sl ch) (i + cap ch)) with (slot ch (i + cap ch)).
          rewrite slot_lap. by apply (holds_put k ch). }
        right. exists j, o', pc. by rewrite lookup_insert_ne.
    + intros o' pc. destruct (decide (o' = o)) as [->|Hne].
      * rewrite lookup_insert_eq. intros [= <-]. by repeat constructor.
      * rewrite lookup_insert_ne by done. intros Hpc. eapply (reader_others k ch ps hi); eauto.
    + intros o' pc. destruct (decide (o' = o)) as [->|Hne].
      * rewrite lookup_insert_eq. by intros [= <-].
      * rewrite lookup_insert_ne by done. eauto.
    + intros j o' Hj. destruct (r_pending0 j o' Hj) as [|(str' & w & Ho')]; [by left|right].
      exists str', w. rewrite lookup_insert_ne; [done|congruence].
Qed.
End Stores.

(** ** The exchanges *)

Lemma exchange_sender k ch msg t (d : bool) :
  config k ch →
  exchange (Sender msg) (marked k ch t d) ch =
    Done (if ch_tail ch =? marked k ch t d
          then (Write msg (marked k ch t d), set_tail (marked k ch (t + 1) d) ch)
          else (LoadStamp (Sender msg) (ch_tail ch), ch), []).
Proof.
  intros Hc. unfold exchange, pos_of. rewrite marked_lxor, next_of_stamp by done. run_on.
  rewrite mark_of_marked, !marked_lor by done. unfold cas_weak. cbn [negb andb].
  by destruct (ch_tail ch =? marked k ch t d).
Qed.

Lemma exchange_receiver k ch str t :
  config k ch →
  exchange (Receiver str) (stamp k ch t) ch =
    Done (if ch_head ch =? stamp k ch t
          then (Read str (stamp k ch t), set_head (stamp k ch (t + 1)) ch)
          else (LoadStamp (Receiver str) (ch_head ch), ch), []).
Proof.
  intros Hc. unfold exchange, pos_of. rewrite next_of_stamp by done. run_on.
  unfold cas_weak. cbn [negb andb]. by destruct (ch_head ch =? stamp k ch t).
Qed.

Lemma disconnected_marked k ch p (d : bool) :
  config k ch → ch_tail ch = marked k ch p d → is_disconnected ch = d.
Proof.
  intros Hc Ht. unfold is_disconnected. rewrite Ht, mark_test by done. apply negb_involutive.
Qed.

Section Exchanges.
Context (k : N) ch ps hi o.
Context (HR : Ring k ch ps hi).

Definition pushed (msg : T) : History T := mkHistory (sent hi ++ [(o, msg)]) (taken hi) (returned hi).
Definition popped : History T := mkHistory (sent hi) (taken hi ++ [o]) (returned hi).

Lemma n_sent_pushed msg : n_sent (pushed msg) = n_sent hi + 1.
Proof. unfold n_sent. simpl. rewrite length_app. simpl. lia. Qed.

Lemma n_taken_popped : n_taken popped = n_taken hi + 1.
Proof. unfold n_taken. simpl. rewrite length_app. simpl. lia. Qed.

Lemma sent_at_pushed msg j o' m :
  sent_at (pushed msg) j o' m ↔ sent_at hi j o' m ∨ (j = n_sent hi ∧ o' = o ∧ m = msg).
Proof.
  unfold sent_at, n_sent. simpl. split.
  - intros [?|[Hj Hl]]%lookup_app_Some; [by left|right].
    apply list_lookup_singleton_Some in Hl as [Hl [= -> ->]]. split_and!; [lia|done..].
  - intros [Hj|(-> & -> & ->)]; [by apply lookup_app_l_Some|].
    rewrite Nat2N.id. by apply list_lookup_middle.
Qed.

Lemma taken_at_popped j o' : taken_at popped j o' ↔ taken_at hi j o' ∨ (j = n_taken hi ∧ o' = o).
Proof.
  unfold taken_at, n_taken. simpl. split.
  - intros [?|[Hj Hl]]%lookup_app_Some; [by left|right].
    apply list_lookup_singleton_Some in Hl as [Hl ->]. split; [lia|done].
  - intros [Hj|(-> & ->)]; [by apply lookup_app_l_Some|].
    rewrite Nat2N.id. by apply list_lookup_middle.
Qed.

(** The slot under the tail is free for the sender that moves the tail. *)
Lemma tail_free : in_time k ch hi → stamped ch (n_sent hi) (stamp k ch (n_sent hi)) →
  n_sent hi < n_taken hi + cap ch.
Proof.
  intros Ht Hs. destruct (decide (n_sent hi < n_taken hi + cap ch)) as [|Hge]; [done|exfalso].
  pose proof (r_config _ _ _ _ HR) as Hc. pose proof (cfg_cap _ _ Hc). pose proof (r_len _ _ _ _ HR).
  assert (slot ch (n_sent hi) = slot ch (n_taken hi)) as He.
  { rewrite <- (slot_lap ch (n_taken hi)). f_equal. lia. }
  destruct (lookup_lt_is_Some_2 (sent hi) (N.to_nat (n_taken hi))) as [[o' m] Hm];
    [unfold n_sent in *; lia|].
  destruct (r_used _ _ _ _ HR (n_taken hi) o' m Hm) as [Hh|(pc & Ho' & Hw)]; [lia| |].
  - eapply (even_odd k ch Hc); [exact He|done|by eapply holds_stamped].
  - assert (∃ j, sent_at hi j o' m ∧ stamped ch j (stamp k ch j)) as (j & Hj & Hsj).
    { destruct pc; try done; destruct (r_op _ _ _ _ HR _ _ Ho') as (j & d & _ & Hj & _ & Hsj);
        exists j; destruct (sent_at_unique _ _ _ _ _ _ (r_sent _ _ _ _ HR) Hm Hj) as [<- <-];
        eauto using holds_stamped. }
    destruct (sent_at_unique _ _ _ _ _ _ (r_sent _ _ _ _ HR) Hm Hj) as [<- _].
    assert (n_sent hi = n_taken hi); [|lia]. eapply (even_even k ch hi); eauto; lia.
Qed.

(** The slot under the head holds the message for the receiver that moves the
    head. *)
Lemma head_used : in_time k ch hi → stamped ch (n_taken hi) (stamp k ch (n_taken hi) + 1) →
  ∃ o' m, sent_at hi (n_taken hi) o' m ∧ holds ch (n_taken hi) (stamp k ch (n_taken hi) + 1) (Some m).
Proof.
  intros Ht Hs. pose proof (r_config _ _ _ _ HR) as Hc. pose proof (cfg_cap _ _ Hc).
  pose proof (r_len _ _ _ _ HR) as Hl.
  assert (n_taken hi < n_sent hi) as Hlt.
  { destruct (decide (n_taken hi < n_sent hi)) as [|Hge]; [done|exfalso].
    destruct (r_free _ _ _ _ HR (n_taken hi)) as [Hf|(i & o' & pc & Hi & Hti & Ho' & Hr)]; [lia| |].
    - by eapply (even_odd k ch Hc).
    - assert (stamped ch i (stamp k ch i + 1)) as Hsi.
      { destruct pc; try done;
          [destruct (r_op _ _ _ _ HR _ _ Ho') as (j & o1 & m & _ & Hj & _ & _ & Hsj)
          |destruct (r_op _ _ _ _ HR _ _ Ho') as (j & o1 & _ & Hj & _ & _ & Hsj)];
          rewrite (taken_at_unique _ _ _ _ (r_taken _ _ _ _ HR) Hti Hj); eauto using holds_stamped. }
      assert (slot ch (n_taken hi) = slot ch i) as He by (rewrite Hi; apply slot_lap).
      assert (n_taken hi = i); [|lia]. eapply (odd_odd k ch hi); eauto; lia. }
  destruct (lookup_lt_is_Some_2 (sent hi) (N.to_nat (n_taken hi))) as [[o' m] Hm];
    [unfold n_sent in *; lia|].
  exists o', m. split; [done|].
  destruct (r_used _ _ _ _ HR (n_taken hi) o' m Hm) as [Hh|(pc & Ho' & Hw)]; [lia|done|exfalso].
  assert (stamped ch (n_taken hi) (stamp k ch (n_taken hi))) as Hst.
  { destruct pc; try done; destruct (r_op _ _ _ _ HR _ _ Ho') as (j & d & _ & Hj & _ & Hsj);
      destruct (sent_at_unique _ _ _ _ _ _ (r_sent _ _ _ _ HR) Hm Hj) as [<- _];
      eauto using holds_stamped. }
  by eapply (even_odd k ch Hc).
Qed.

(** A reader of the position one lap back would still hold the slot. *)
Lemma reader_behind i o' :
  in_time k ch hi → stamped ch (n_sent hi) (stamp k ch (n_sent hi)) →
  taken_at hi i o' → n_sent hi ≤ i + cap ch → stamped ch i (stamp k ch i + 1) →
  n_sent hi + 1 ≤ i + cap ch.
Proof.
  intros Ht Hs Hi Hle Hsi. destruct (decide (n_sent hi = i + cap ch)) as [He|]; [exfalso|lia].
  eapply (even_odd k ch (r_config _ _ _ _ HR)); [|exact Hs|exact Hsi]. rewrite He. apply slot_lap.
Qed.

(** A writer of the first position would still hold the slot. *)
Lemma writer_ahead i o' m :
  stamped ch (n_taken hi) (stamp k ch (n_taken hi) + 1) →
  sent_at hi i o' m → n_taken hi ≤ i → stamped ch i (stamp k ch i) → n_taken hi + 1 ≤ i.
Proof.
  intros Hs Hi Hle Hsi. destruct (decide (n_taken hi = i)) as [<-|]; [exfalso|lia].
  by eapply (even_odd k ch (r_config _ _ _ _ HR)).
Qed.

Lemma NoDup_snoc {A} (l : list A) (z : A) : NoDup l → (z ∉ l) → NoDup (l ++ [z]).
Proof.
  intros Hl Hz. apply list.NoDup_app. split_and!; [done| |apply list.NoDup_singleton].
  intros y Hy ->%list_elem_of_singleton. done.
Qed.

Lemma Ring_push msg w :
  in_time k ch (pushed msg) → ps !! o = Some (Cas (Sender msg) w) → ch_tail ch = w →
  let d := is_disconnected ch in
  w = marked k ch (n_sent hi) d ∧
  Ring k (set_tail (marked k ch (n_sent hi + 1) d) ch) (<[o := Write msg w]> ps) (pushed msg).
Proof.
  intros Ht Ho He d. assert (in_time k ch hi) as Ht0.
  { unfold in_time in *. rewrite n_sent_pushed in Ht. lia. }
  pose proof (r_config _ _ _ _ HR) as Hc. pose proof (r_len _ _ _ _ HR) as Hlen.
  destruct (r_op _ _ _ _ HR _ _ Ho) as (t0 & d0 & He0 & Hle & Hst).
  rewrite (r_tail _ _ _ _ HR) in He. split; [done|].
  destruct (marked_eq k ch hi Hc Ht0 (n_sent hi) t0 d d0) as [<- _]; [exact (eq_trans He He0)|lia|lia|].
  specialize (Hst eq_refl). pose proof (tail_free Ht0 Hst) as Hlt. clear He0 Hle.
  destruct (r_fresh _ _ _ _ HR _ _ Ho eq_refl) as (Hf1 & Hf2 & Hf3).
  set (ch1 := set_tail _ ch). assert (config k ch1) as Hc1 by (by destruct Hc).
  assert (is_disconnected ch1 = d) as Hd by (by eapply (disconnected_marked k)).
  split; rewrite ?n_sent_pushed; try done; try apply HR.
  - by rewrite Hd.
  - simpl. change (n_taken (pushed msg)) with (n_taken hi). lia.
  - intros j o' m Hj Hjn. apply sent_at_pushed in Hj as [Hj|(-> & -> & ->)].
    + destruct (r_used _ _ _ _ HR j o' m Hj Hjn) as [Hh|(pc & Hpc & Hw)]; [by left|right].
      exists pc. rewrite lookup_insert_ne; [done|intros ->; by simplify_eq].
    + right. rewrite lookup_insert_eq. by eexists.
  - intros p Hp. change (n_taken (pushed msg)) with (n_taken hi) in Hp. simpl in Hp.
    destruct (r_free _ _ _ _ HR p) as [Hf|(j & o' & pc & -> & Hj & Hpc & Hr)]; [lia|by left|right].
    exists j, o', pc. split_and!; [done..| |done]. rewrite lookup_insert_ne; [done|intros ->; by simplify_eq].
  - intros o' pc. destruct (decide (o' = o)) as [->|Hne].
    + rewrite lookup_insert_eq. intros [= <-]. exists (n_sent hi), d. split_and!; [done| |change (n_taken (pushed msg)) with (n_taken hi); lia|done].
      apply sent_at_pushed. by right.
    + rewrite lookup_insert_ne by done. intros Hpc%(r_op _ _ _ _ HR).
      assert (∀ a w, own_word k ch hi a w → own_word k ch1 (pushed msg) a w) as Hown.
      { intros [] v; simpl; [|done]. intros (t & d' & -> & Hle). exists t, d'.
        rewrite n_sent_pushed. split; [done|lia]. }
      destruct pc as [| | |[]| | | | | | | | | | | | |]; simpl in *; try by auto.
      * destruct Hpc as (t & d' & -> & Hle & _). exists t, d'. rewrite n_sent_pushed.
        split_and!; [done|lia|lia].
      * destruct Hpc as (j & d' & -> & Hj & Hpc). exists j, d'. split_and!; [done| |apply Hpc..].
        apply sent_at_pushed. by left.
      * destruct Hpc as (j & d' & -> & Hj & Hpc). exists j, d'. split_and!; [done| |apply Hpc..].
        apply sent_at_pushed. by left.
      * destruct Hpc as (j & o1 & m & -> & Hj & Hj1 & Hle & Hs). exists j, o1, m. rewrite n_sent_pushed.
        split_and!; [done..| | |done]; [apply sent_at_pushed; by left|].
        eapply reader_behind; eauto using holds_stamped.
      * destruct Hpc as (j & o1 & -> & Hj & Hj1 & Hle & Hs). exists j, o1. rewrite n_sent_pushed.
        split_and!; [done..| | |done]; [apply sent_at_pushed; by left|].
        eapply reader_behind; eauto using holds_stamped.
  - intros o' pc. destruct (decide (o' = o)) as [->|Hne]; [rewrite lookup_insert_eq; by intros [= <-]|].
    rewrite lookup_insert_ne by done. intros Hpc Hearly.
    destruct (r_fresh _ _ _ _ HR _ _ Hpc Hearly) as (H1 & H2 & H3). split_and!; [|done..].
    simpl. rewrite fmap_app. set_solver.
  - simpl. rewrite fmap_app. apply NoDup_snoc; [apply HR|done].
  - intros o' m Hm. destruct (r_value _ _ _ _ HR o' m Hm) as (j & o1 & Hj & Hj1). exists j, o1.
    split; [done|]. apply sent_at_pushed. by left.
  - intros j o' Hj. destruct (r_pending _ _ _ _ HR j o' Hj) as [|(str & v & Ho')]; [by left|right].
    exists str, v. rewrite lookup_insert_ne; [done|congruence].
  - intros o' Ho'. rewrite Hd. by eapply (r_none _ _ _ _ HR).
Qed.

Lemma Ring_pop str w :
  in_time k ch hi → ps !! o = Some (Cas (Receiver str) w) → ch_head ch = w →
  w = stamp k ch (n_taken hi) ∧ n_taken hi < n_sent hi ∧
  Ring k (set_head (stamp k ch (n_taken hi + 1)) ch) (<[o := Read str w]> ps) popped.
Proof.
  intros Ht Ho He.
  pose proof (r_config _ _ _ _ HR) as Hc. pose proof (r_len _ _ _ _ HR) as Hlen.
  destruct (r_op _ _ _ _ HR _ _ Ho) as (t0 & He0 & Hle & Hst).
  rewrite (r_head _ _ _ _ HR) in He. split; [done|].
  assert (n_taken hi = t0) as <- by (eapply (pos_inj k ch hi); [done|done|congruence|lia|lia]).
  specialize (Hst eq_refl). destruct (head_used Ht Hst) as (o1 & m1 & Hm1 & Hh1).
  pose proof (sent_at_lt _ _ _ _ Hm1) as Hlt. split; [done|]. clear He0 Hle.
  destruct (r_fresh _ _ _ _ HR _ _ Ho eq_refl) as (Hf1 & Hf2 & Hf3).
  set (ch1 := set_head _ ch). assert (config k ch1) as Hc1 by (by destruct Hc).
  split; rewrite ?n_taken_popped; try done; try apply HR.
  - change (n_sent popped) with (n_sent hi). simpl. lia.
  - intros j o' m Hj Hjn.
    destruct (r_used _ _ _ _ HR j o' m Hj ltac:(lia)) as [Hh|(pc & Hpc & Hw)]; [by left|right].
    exists pc. rewrite lookup_insert_ne; [done|intros ->; by simplify_eq].
  - intros p Hp. change (n_sent popped) with (n_sent hi) in Hp. simpl in Hp.
    destruct (decide (p = n_taken hi + cap ch)) as [->|Hne].
    { right. exists (n_taken hi), o, (Read str w). split_and!; [done| |apply lookup_insert_eq|done].
      apply taken_at_popped. by right. }
    destruct (r_free _ _ _ _ HR p) as [Hf|(j & o' & pc & -> & Hj & Hpc & Hr)]; [lia|by left|right].
    exists j, o', pc. split_and!; [done|apply taken_at_popped; by left| |done].
    rewrite lookup_insert_ne; [done|intros ->; by simplify_eq].
  - intros o' pc. destruct (decide (o' = o)) as [->|Hne].
    + rewrite lookup_insert_eq. intros [= <-]. exists (n_taken hi), o1, m1.
      split_and!; [done|apply taken_at_popped; by right|done| |done].
      change (n_sent popped) with (n_sent hi). simpl. lia.
    + rewrite lookup_insert_ne by done. intros Hpc%(r_op _ _ _ _ HR).
      assert (∀ a w, own_word k ch hi a w → own_word k ch1 popped a w) as Hown.
      { intros [] v; simpl; [done|]. intros (t & -> & Hle). exists t.
        rewrite n_taken_popped. split; [done|lia]. }
      destruct pc as [| | |[]| | | | | | | | | | | | |]; simpl in *; try by auto.
      * destruct Hpc as (t & -> & Hle & _). exists t. rewrite n_taken_popped.
        split_and!; [done|lia|lia].
      * destruct Hpc as (j & d' & -> & Hj & Hle & Hs). exists j, d'. rewrite n_taken_popped.
        split_and!; [done..| |done]. by eapply writer_ahead.
      * destruct Hpc as (j & d' & -> & Hj & Hle & Hs). exists j, d'. rewrite n_taken_popped.
        split_and!; [done..| |done]. eapply writer_ahead; eauto using holds_stamped.
      * destruct Hpc as (j & o2 & m & -> & Hj & Hpc). exists j, o2, m.
        split_and!; [done|apply taken_at_popped; by left|apply Hpc..].
      * destruct Hpc as (j & o2 & -> & Hj & Hpc). exists j, o2.
        split_and!; [done|apply taken_at_popped; by left|apply Hpc..].
  - intros o' pc. destruct (decide (o' = o)) as [->|Hne]; [rewrite lookup_insert_eq; by intros [= <-]|].
    rewrite lookup_insert_ne by done. intros Hpc Hearly.
    destruct (r_fresh _ _ _ _ HR _ _ Hpc Hearly) as (H1 & H2 & H3). split_and!; [done| |done].
    simpl. set_solver.
  - simpl. apply NoDup_snoc; [apply HR|done].
  - intros o' m Hm. destruct (r_value _ _ _ _ HR o' m Hm) as (j & o2 & Hj & Hj1). exists j, o2.
    split; [|done]. apply taken_at_popped. by left.
  - intros j o' [Hj|[-> ->]]%taken_at_popped.
    + destruct (r_pending _ _ _ _ HR j o' Hj) as [|(str' & v & Ho')]; [by left|right].
      exists str', v. rewrite lookup_insert_ne; [done|congruence].
    + right. exists str, w. apply lookup_insert_eq.
Qed.

(** ** Disconnecting, and finding out *)

Lemma Ring_disconnect (pc' : option (Pc T)) :
  ps !! o = Some Disconnect → (∀ pc, pc' = Some pc → early pc = false ∧ op_ok k ch hi o pc) →
  let ch1 := set_tail (N.lor (ch_tail ch) (mark_bit ch)) ch in
  is_disconnected ch1 = true ∧ Ring k ch1 (set_op o pc' ps) hi.
Proof.
  intros Ho Hpc'. pose proof (r_config _ _ _ _ HR) as Hc. simpl.
  set (ch1 := set_tail _ ch). assert (config k ch1) as Hc1 by (by destruct Hc).
  assert (ch_tail ch1 = marked k ch1 (n_sent hi) true) as Htail.
  { simpl. rewrite (r_tail _ _ _ _ HR). by apply (marked_set k ch). }
  assert (is_disconnected ch1 = true) as Hd by (by eapply (disconnected_marked k)).
  split; [done|].
  assert (Ring k ch1 ps hi) as HR1.
  { destruct HR. split; try done. by rewrite Hd. }
  apply Ring_op; [done|intros pc Hpc; by simplify_eq|].
  intros pc Hpc. destruct (Hpc' pc Hpc) as [He Hok]. split; [exact Hok|congruence].
Qed.

Lemma Ring_returns_none str w :
  ps !! o = Some (LoadOther (Receiver str) w) → is_disconnected ch = true →
  Ring k ch (delete o ps) (mkHistory (sent hi) (taken hi) (<[o := None]> (returned hi))).
Proof.
  intros Ho Hd. destruct (r_fresh _ _ _ _ HR _ _ Ho eq_refl) as (Hf1 & Hf2 & Hf3).
  assert (Ring k ch (delete o ps) hi) as [].
  { apply (Ring_op k ch ps hi o None); [done|intros pc Hpc; by simplify_eq|done]. }
  split; try done; simpl.
  - intros o' pc Hpc He. destruct (r_fresh0 o' pc Hpc He) as (H1 & H2 & H3). split_and!; [done..|].
    simpl. rewrite lookup_insert_ne; [done|]. intros ->. by rewrite lookup_delete_eq in Hpc.
  - intros o' m [[??]|[? ?]]%lookup_insert_Some; [done|eauto].
  - intros j o' Hj. rewrite lookup_insert_ne; [eauto|]. intros ->. apply Hf2.
    by eapply list_elem_of_lookup_2.
Qed.
End Exchanges.

(** ** Every step *)

Section Run.
Context (k : N) ch ps hi o.
Context (HR : Ring k ch ps hi).

Lemma own_end_word a : own_word k ch hi a (own_end a ch).
Proof.
  destruct a; simpl.
  - exists (n_sent hi), (is_disconnected ch). split; [apply (r_tail _ _ _ _ HR)|done].
  - exists (n_taken hi). split; [apply (r_head _ _ _ _ HR)|done].
Qed.

(** An operation that has not exchanged yet goes on, to a state that [op_ok]
    allows. *)
Lemma Ring_early pc pc' :
  ps !! o = Some pc → early pc = true → op_ok k ch hi o pc' → Ring k ch (<[o := pc']> ps) hi.
Proof.
  intros Ho He Hok. apply (Ring_op k ch ps hi o (Some pc')); [done|..].
  - intros pc0. rewrite Ho. intros [= <-]. by destruct pc.
  - intros pc0 [= <-]. split; [done|]. intros _. by eapply (r_fresh _ _ _ _ HR).
Qed.

Lemma after_stamp_ok a w stamp pc' l m :
  own_word k ch hi a w → after_stamp a w stamp ch = Done (pc', l) →
  (∀ t, pos_of a w ch = ChannelQueue.stamp k ch t → holds ch t stamp m) →
  op_ok k ch hi o pc'.
Proof.
  intros Hw Ha Hs. pose proof (r_config _ _ _ _ HR) as Hc.
  destruct a as [msg|str]; simpl in Hw, Ha, Hs.
  - destruct Hw as (t & d & -> & Hle). specialize (Hs t). rewrite marked_lxor in Hs, Ha by done.
    destruct (N.eqb_spec (ChannelQueue.stamp k ch t) stamp) as [<-|_]; inv_eff.
    + exists t, d. split_and!; [done..|]. intros _. exists m. by apply Hs.
    + by exists t, d.
    + done.
  - destruct Hw as (t & -> & Hle). specialize (Hs t eq_refl). rewrite stamp_succ in Ha by done.
    rewrite eff_bind_Done in Ha.
    destruct (N.eqb_spec (ChannelQueue.stamp k ch t + 1) stamp) as [<-|_]; inv_eff.
    + exists t. split_and!; [done..|]. intros _. by exists m.
    + by exists t.
    + done.
Qed.

End Run.

Lemma Ring_load_stamp k ch ps hi o a w (pc' : option (Pc T)) ch' l :
  Ring k ch ps hi → ps !! o = Some (LoadStamp a w) → op_step o (LoadStamp a w) ch = Done ((pc', ch'), l) →
  ∃ pc, pc' = Some pc ∧ ch' = ch ∧ Ring k ch (<[o := pc]> ps) hi ∧
    record_step o (LoadStamp a w) pc' hi = hi.
Proof.
  intros HR Ho He. pose proof (r_config _ _ _ _ HR) as Hc.
  pose proof (r_op _ _ _ _ HR _ _ Ho) as Hw. simpl in Hw.
  assert (∃ t, pos_of a w ch = stamp k ch t) as [t Hpos].
  { destruct a; simpl in *; [destruct Hw as (t & d & -> & _)|destruct Hw as (t & -> & _)]; exists t;
      [by apply marked_lxor|done]. }
  simpl in He. rewrite Hpos, (slot_at_stamp k ch Hc) in He.
  destruct (slot_exists k ch Hc t) as [[st m] Hsl]. rewrite Hsl, unwrap_Some, eff_bind_ret in He.
  cbn [slot_stamp] in He. apply eff_bind_done in He as (pc & l1 & l2 & Ha & Hr & _). inv_eff.
  exists pc. split_and!; [done|done| |done]. eapply Ring_early; [done..|].
  eapply after_stamp_ok; [done|done|done|]. intros t' Ht'. rewrite Hpos in Ht'.
  unfold holds. rewrite <- Hsl. f_equal. unfold slot. f_equal.
  by rewrite <- (index_of_stamp k ch' Hc), <- Ht', (index_of_stamp k ch' Hc).
Qed.

Lemma Ring_cas k ch ps hi o a w (pc' : option (Pc T)) ch' l :
  Ring k ch ps hi →
  let hi' := record_step o (Cas a w) pc' hi in
  in_time k ch hi' →
  ps !! o = Some (Cas a w) → op_step o (Cas a w) ch = Done ((pc', ch'), l) →
  Ring k ch' (set_op o pc' ps) hi'.
Proof.
  intros HR hi' Ht Ho He. pose proof (r_config _ _ _ _ HR) as Hc.
  pose proof (r_op _ _ _ _ HR _ _ Ho) as Hw. simpl in Hw.
  simpl in He. apply eff_bind_done in He as ([pc ch1] & l1 & l2 & Hex & Hr & _). inv_eff.
  destruct a as [msg|str].
  - destruct Hw as (t & d & -> & Hle & _). rewrite exchange_sender in Hex by done. inv_eff.
    destruct (N.eqb_spec (ch_tail ch) (marked k ch t d)) as [Heq|Hne]; simplify_eq.
    + destruct (Ring_push k ch ps hi o HR msg _ Ht Ho Heq) as [Hm HR1]. simpl.
      rewrite <- (r_tail _ _ _ _ HR), Heq in Hm.
      pose proof (r_tail _ _ _ _ HR) as Htl. rewrite Heq in Htl.
      assert (in_time k ch hi) as Ht0.
      { unfold in_time, hi' in *. simpl in Ht. pose proof (n_sent_pushed hi o msg) as Hn.
        unfold pushed in Hn. lia. }
      pose proof (r_len _ _ _ _ HR).
      destruct (marked_eq k ch hi Hc Ht0 _ _ _ _ Htl) as [-> ->]; [lia|lia|]. exact HR1.
    + eapply Ring_early; [done..|]. exact (own_end_word k ch' ps hi HR (Sender msg)).
  - destruct Hw as (t & -> & Hle & _). rewrite exchange_receiver in Hex by done. inv_eff.
    destruct (N.eqb_spec (ch_head ch) (stamp k ch t)) as [Heq|Hne]; simplify_eq.
    + destruct (Ring_pop k ch ps hi o HR str _ Ht Ho Heq) as (Hm & _ & HR1). simpl.
      pose proof (r_len _ _ _ _ HR).
      assert (t = n_taken hi) as -> by (eapply (pos_inj k ch hi); eauto; lia). exact HR1.
    + eapply Ring_early; [done..|]. exact (own_end_word k ch' ps hi HR (Receiver str)).
Qed.

Lemma op_step_cap o ch pc (pc' : option (Pc T)) ch' l :
  op_step o pc ch = Done ((pc', ch'), l) → cap ch' = cap ch ∧ mark_bit ch' = mark_bit ch.
Proof.
  destruct pc as [a []| | |[]| | | | | | | | | | | | |? [|[]]]; simpl; intros He;
    unfold exchange, write_msg, store_stamp, take_key, insert_key in He; inv_eff; done.
Qed.

Lemma n_sent_record o hi pc (pc' : option (Pc T)) : n_sent hi ≤ n_sent (record_step o pc pc' hi).
Proof.
  unfold n_sent. destruct pc as [| | |[]|[]| | | | | | | | | | | |], pc' as [[]|]; simpl; try done;
    rewrite ?length_app; lia.
Qed.

Lemma Ring_run k ch ps hi o pc (pc' : option (Pc T)) ch' l :
  Ring k ch ps hi →
  let hi' := record_step o pc pc' hi in
  in_time k ch' hi' → ps !! o = Some pc → active pc = true →
  op_step o pc ch = Done ((pc', ch'), l) → Ring k ch' (set_op o pc' ps) hi'.
Proof.
  intros HR hi' Ht Ho Hact He. pose proof (op_step_cap _ _ _ _ _ _ He) as [Hcap _].
  assert (in_time k ch hi') as Ht'. { unfold in_time in *. by rewrite <- Hcap. }
  assert (in_time k ch hi) as Ht0.
  { pose proof (n_sent_record o hi pc pc'). unfold in_time in *. fold hi' in H1. lia. }
  unfold hi' in *. destruct pc as [a key|a|a w|a w|a w|msg w|msg w|str w|str msg w|a|a key|a key w|a key|a key|msg| |fl todo].
  - simpl in He. unfold take_key in He. destruct key; inv_eff; [apply Ring_set_wakers|];
      by eapply Ring_early.
  - simpl in He. inv_eff. eapply Ring_early; [done..|]. by apply (own_end_word k ch' ps).
  - destruct (Ring_load_stamp _ _ _ _ _ _ _ _ _ _ HR Ho He) as (pc & -> & -> & HR' & ->). exact HR'.
  - by eapply Ring_cas.
  - simpl in He. inv_eff. destruct (after_other a w ch') as [pc|] eqn:Ha.
    + assert (Ring k ch' (<[o := pc]> ps) hi); [|by destruct a, pc].
      eapply Ring_early; [done..|]. unfold after_other in Ha. destruct a; repeat case_match; simplify_eq; done.
    + destruct a as [|str]; simpl in Ha; repeat case_match; simplify_eq. simpl.
      apply (Ring_returns_none k ch' ps hi o HR str w Ho). unfold is_disconnected. congruence.
  - destruct (Ring_write k ch ps hi o HR Ht0 msg w Ho) as (i & d & -> & He' & HR'). rewrite He' in He. by simplify_eq.
  - destruct (Ring_publish k ch ps hi o HR Ht0 msg w Ho) as (i & d & -> & He' & HR'). rewrite He' in He. by simplify_eq.
  - destruct (Ring_read k ch ps hi o HR Ht0 str w Ho) as (i & msg & -> & He' & HR'). rewrite He' in He. by simplify_eq.
  - destruct (Ring_release k ch ps hi o HR Ht0 str msg w Ho) as (i & -> & He' & HR'). rewrite He' in He. by simplify_eq.
  - simpl in He. unfold insert_key in He. inv_eff. apply Ring_set_wakers. by eapply Ring_early.
  - simpl in He. inv_eff. eapply Ring_early; [done..|]. by apply (own_end_word k ch' ps).
  - simpl in He. inv_eff. eapply Ring_early; [done..|]. by destruct (still_blocked a w ch').
  - simpl in He. inv_eff. eapply Ring_early; [done..|]. by destruct (is_disconnected ch').
  - done.
  - done.
  - simpl in He. inv_eff. apply (Ring_disconnect k ch ps hi o HR); [done|].
    intros pc Hpc. destruct (mark_of ch (ch_tail ch) =? 0); simplify_eq. split; [done|]. by repeat constructor.
  - pose proof (r_op _ _ _ _ HR _ _ Ho) as Hf. simpl in Hf.
    assert (∀ todo', Forall (λ e : WSet * Notify, e.2 ≠ NotifyAny) todo' →
      Ring k ch (set_op o (after_notify todo') ps) hi) as Hafter.
    { intros todo' Hf'. apply Ring_op; [done|intros pc Hpc; by simplify_eq|].
      intros pc Hpc. destruct todo'; simplify_eq/=. split; [exact Hf'|done]. }
    destruct fl, todo as [|[x n] todo]; simpl in He; inv_eff.
    + by apply (Hafter []).
    + apply Ring_set_wakers, Hafter. by apply Forall_inv_tail in Hf.
    + by apply (Hafter []).
    + destruct (wset_one_wanted (wakers_of x ch')).
      * apply (Ring_op k ch' ps hi o (Some _)); [done|intros pc Hpc; by simplify_eq|].
        intros pc Hpc. simplify_eq/=. split; [exact Hf|done].
      * apply Hafter. by apply Forall_inv_tail in Hf.
Qed.
End Ring.
