(* ===== verification/ChannelWake.v ===== *)
(** Nobody is forgotten on a channel: when messages (or free slots) are there
    while operations sleep, as many others have been woken, are on their way to
    them, or are about to wake somebody. *)

From stdpp Require Import gmap fin_maps relations.
From S2P Require Import Prelude WakerSet WakerClients Stamps Channel ChannelQueue.
From S2P Require Import ChannelSteps ChannelRing.

(** * Entries that have been notified *)

Section Notified.
Implicit Types m : gmap nat (option nat).

Definition n_notified m : nat := size m - size (wakers m).

Lemma n_notified_insert m key w :
  m !! key = None → n_notified (<[key := Some w]> m) = n_notified m.
Proof.
  intros Hk. unfold n_notified. rewrite wakers_insert_Some, !map_size_insert_None; [done| |done].
  unfold wakers. by rewrite lookup_omap, Hk.
Qed.

Lemma n_notified_delete m key o :
  m !! key = Some o →
  n_notified m = n_notified (delete key m) + match o with None => 1 | Some _ => 0 end.
Proof.
  intros Hk. unfold n_notified. rewrite wakers_delete.
  pose proof (size_wakers_le (delete key m)) as Hle. rewrite wakers_delete in Hle.
  rewrite <- (insert_delete_id m key o Hk) at 1.
  rewrite map_size_insert_None by apply lookup_delete_eq.
  destruct o as [w|].
  - assert (wakers m !! key = Some w) as Hw by (by apply lookup_wakers).
    rewrite <- (insert_delete_id _ _ _ Hw) at 1.
    rewrite map_size_insert_None by apply lookup_delete_eq. lia.
  - rewrite (delete_id (wakers m)) in * by (by apply wakers_None). lia.
Qed.

Lemma n_notified_woke m l m' : woke m l m' → n_notified m' = n_notified m + length l.
Proof.
  induction 1 as [|m key w l m' Hk Hw IH]; simpl; [lia|]. rewrite IH.
  pose proof (size_wakers_take m key w Hk) as Hs. unfold n_notified.
  pose proof (size_wakers_le m) as Hle.
  rewrite map_size_insert_Some by (by eexists). lia.
Qed.
End Notified.

(** * Who waits, and who is responsible *)

Section Wake.
Context {T WS : Type} `{WakerSetLaws WS nat}.
Implicit Types (ch : Channel WS T) (o : nat) (x : WSet) (a : Agent T) (pc : Pc T)
  (ps : gmap nat (Pc T)) (hi : History T) (m : gmap nat (option nat)).

(** The entry an operation owns in the waker set [x]. *)
Definition chan_key x pc : option nat :=
  match pc with
  | Start a opt_key => if decide (set_of a = x) then opt_key else None
  | CheckFirst a key | CheckSecond a key _ | CheckDisc a key | Parked a key =>
      if decide (set_of a = x) then Some key else None
  | _ => None
  end.
Definition chan_starting pc : bool := if pc is Start _ _ then true else false.

(** The same, once it has found the channel full or empty. *)
Definition past_key x pc : option nat :=
  match pc with
  | CheckDisc a key | Parked a key => if decide (set_of a = x) then Some key else None
  | _ => None
  end.

(** Somebody sleeps, or is about to, and has not been notified. *)
Definition blocked x m ps : Prop :=
  ∃ o pc key, ps !! o = Some pc ∧ past_key x pc = Some key ∧ waiting m key o.

(** What they wait for: messages, or free slots. *)
Definition avail x (c : N) hi : N :=
  match x with
  | SendWakers => n_taken hi + c - n_sent hi
  | _ => n_sent hi - n_taken hi
  end.

(** An operation that is on its way to a message (or slot), or will notify. *)
Definition responsible x pc : bool :=
  match pc with
  | Start a None | LoadEnd a | LoadStamp a _ | Cas a _ | LoadOther a _ => bool_decide (set_of a = x)
  | Write _ _ | Publish _ _ => bool_decide (x ≠ SendWakers)
  | Read _ _ | Release _ _ _ => bool_decide (x = SendWakers)
  | Notifying _ todo => bool_decide (x ∈ todo.*1)
  | _ => false
  end.

Definition wake_inv x m (c : N) ps hi : Prop :=
  blocked x m ps → N.to_nat (avail x c hi) ≤ n_notified m + count (responsible x) ps.

(** After the channel is disconnected, nobody sleeps whom nobody will wake. *)
Definition disc_inv x (d : bool) m ps : Prop :=
  d = true → (∃ o a key, ps !! o = Some (Parked a key) ∧ set_of a = x ∧ waiting m key o) →
  ∃ o fl todo, ps !! o = Some (Notifying fl todo) ∧ ((x, NotifyAll) ∈ todo).

Record WInv ch ps (wk : gset nat) hi : Prop := mkWInv {
  w_wf : chan_wf ch;
  w_tracked x : tracked (chan_key x) chan_starting ps (cview x ch) wk;
  w_wake x : wake_inv x (cview x ch) (cap ch) ps hi;
  w_disc x : disc_inv x (is_disconnected ch) (cview x ch) ps
}.

(** ** One operation moves *)

Lemma blocked_back x m m' ps o (pc' : option (Pc T)) :
  (∀ key o', o' ≠ o → waiting m' key o' → waiting m key o') →
  (∀ key, pc' ≫= past_key x = Some key → waiting m' key o →
     (∃ pc, ps !! o = Some pc ∧ past_key x pc = Some key) ∧ waiting m key o) →
  blocked x m' (set_op o pc' ps) → blocked x m ps.
Proof.
  intros Hm Ho (o' & pc & key & Hpc & Hk & Hw). destruct (decide (o' = o)) as [->|Hne].
  - rewrite set_op_eq in Hpc. destruct (Ho key) as [(pc0 & Hpc0 & Hk0) Hw0]; [by rewrite Hpc|done|].
    by exists o, pc0, key.
  - rewrite set_op_ne in Hpc by done. exists o', pc, key. eauto.
Qed.

Lemma wake_step x m m' c ps hi hi' o (pc' : option (Pc T)) :
  wake_inv x m c ps hi →
  (blocked x m' (set_op o pc' ps) → blocked x m ps) →
  N.to_nat (avail x c hi') + n_notified m + is_at (responsible x) (ps !! o) ≤
    N.to_nat (avail x c hi) + n_notified m' + is_at (responsible x) pc' →
  wake_inv x m' c (set_op o pc' ps) hi'.
Proof.
  intros Hinv Hb Hle Hb'. specialize (Hinv (Hb Hb')).
  pose proof (count_set (responsible x) ps o pc'). lia.
Qed.

Lemma wake_none x m c ps hi : avail x c hi = 0%N → wake_inv x m c ps hi.
Proof. intros Ha _. rewrite Ha. lia. Qed.

Lemma wake_nobody x m c ps hi : nobody_waits m → wake_inv x m c ps hi.
Proof. intros Hn (o & pc & key & _ & _ & Hw). by destruct (Hn key o). Qed.

Lemma disc_nobody x d m ps : nobody_waits m → disc_inv x d m ps.
Proof. intros Hn _ (o & a & key & _ & _ & Hw). by destruct (Hn key o). Qed.

(** The entries that wait were waiting before, and whoever sleeps now slept
    before or the channel is connected; who was to notify everybody still is. *)
Lemma disc_step x d d' m m' ps o (pc' : option (Pc T)) :
  disc_inv x d m ps → (d' = true → d = true) →
  (∀ key o', waiting m' key o' → waiting m key o' ∨ o' = o) →
  (∀ a key, pc' = Some (Parked a key) → d' = true → False) →
  (∀ fl todo, ps !! o = Some (Notifying fl todo) → ((x, NotifyAll) ∈ todo) →
     (∃ fl' todo', pc' = Some (Notifying fl' todo') ∧ ((x, NotifyAll) ∈ todo')) ∨ nobody_waits m') →
  disc_inv x d' m' (set_op o pc' ps).
Proof.
  intros Hinv Hd Hm Hp Hn Hd' (o1 & a & key & Ho1 & Ha & Hw).
  destruct (decide (o1 = o)) as [->|Hne]; [rewrite set_op_eq in Ho1; by destruct (Hp a key)|].
  rewrite set_op_ne in Ho1 by done. destruct (Hm _ _ Hw) as [Hw'|]; [|done].
  destruct (Hinv (Hd Hd')) as (o2 & fl & todo & Ho2 & Hin); [by exists o1, a, key|].
  destruct (decide (o2 = o)) as [->|].
  - destruct (Hn _ _ Ho2 Hin) as [(fl' & todo' & -> & Hin')|Hno]; [|by destruct (Hno key o1)].
    exists o, fl', todo'. by rewrite set_op_eq.
  - exists o2, fl, todo. by rewrite set_op_ne.
Qed.

(** ** Full and empty *)

Definition at_limit a (w : N) ch : bool :=
  match a with
  | Sender _ => (wrapping_add (ch_head ch) (one_lap ch) =? pos_of a w ch)%N
  | Receiver _ => (unmarked ch (ch_tail ch) =? w)%N
  end.

Lemma at_limit_avail k ch ps hi a w :
  Ring k ch ps hi → in_time k ch hi → own_word k ch hi a w → at_limit a w ch = true →
  avail (set_of a) (cap ch) hi = 0%N.
Proof.
  intros HR Ht Hw Hl. pose proof (r_config _ _ _ _ HR) as Hc. pose proof (r_len _ _ _ _ HR).
  destruct a as [msg|str]; simpl in *.
  - destruct Hw as (t & d & -> & Hle). apply N.eqb_eq in Hl.
    rewrite marked_lxor, (r_head _ _ _ _ HR), stamp_add_lap in Hl by done.
    apply (pos_inj k ch hi Hc Ht) in Hl; lia.
  - destruct Hw as (t & -> & Hle). apply N.eqb_eq in Hl.
    rewrite (r_tail _ _ _ _ HR), unmarked_marked in Hl by done.
    apply (pos_inj k ch hi Hc Ht) in Hl; [|lia..]. destruct str; simpl; lia.
Qed.

Lemma still_blocked_limit k ch hi a w :
  config k ch → own_word k ch hi a w → still_blocked a w ch = at_limit a w ch.
Proof.
  intros Hc Hw. destruct a as [msg|str]; [|done]. simpl in *.
  destruct Hw as (t & d & -> & Hle). by rewrite marked_lxor, unmarked_marked by done.
Qed.

Lemma after_other_limit a w ch : at_limit a w ch = false → after_other a w ch = Some (LoadEnd a).
Proof. intros Hl. destruct a; simpl in *; by rewrite Hl. Qed.

Lemma after_other_cases a w ch :
  after_other a w ch = Some (LoadEnd a) ∨ at_limit a w ch = true ∧
    (after_other a w ch = Some (Insert a) ∨ after_other a w ch = None ∨
     ∃ msg, after_other a w ch = Some (Closed msg)).
Proof.
  destruct (at_limit a w ch) eqn:Hl; [right|left; by apply after_other_limit].
  split; [done|]. destruct a; simpl in *; rewrite Hl; case_match; eauto.
Qed.

(** ** Steps that leave the waker sets alone *)

Lemma WInv_quiet ch ch' ps wk wk' hi hi' o pc (pc' : option (Pc T)) :
  WInv ch ps wk hi → ps !! o = Some pc →
  (∀ x, wakers_of x ch' = wakers_of x ch) → cap ch' = cap ch →
  (is_disconnected ch' = true → is_disconnected ch = true) →
  (∀ x, tracked (chan_key x) chan_starting (set_op o pc' ps) (cview x ch) wk') →
  (∀ x, nobody_waits (cview x ch) ∨ avail x (cap ch) hi' = 0%N ∨
     (pc' ≫= past_key x = None ∨ past_key x pc = pc' ≫= past_key x) ∧
     N.to_nat (avail x (cap ch) hi') + Nat.b2n (responsible x pc) ≤
     N.to_nat (avail x (cap ch) hi) + is_at (responsible x) pc') →
  (∀ a key, pc' = Some (Parked a key) → is_disconnected ch = false) →
  (∀ x fl todo, pc = Notifying fl todo → ((x, NotifyAll) ∈ todo) →
     (∃ fl' todo', pc' = Some (Notifying fl' todo') ∧ ((x, NotifyAll) ∈ todo')) ∨
     nobody_waits (cview x ch)) →
  WInv ch' (set_op o pc' ps) wk' hi'.
Proof.
  intros [Hwf _ Hwake Hdisc] Ho Hws Hcap Hd Htr Hav Hp Hn.
  assert (∀ x, cview x ch' = cview x ch) as Hv by (intros x; unfold cview; by rewrite Hws).
  split.
  - intros x. rewrite Hws. apply Hwf.
  - intros x. rewrite Hv. apply Htr.
  - intros x. rewrite Hv, Hcap. destruct (Hav x) as [|[|[Hpast Hle]]];
      [by apply wake_nobody|by apply wake_none|].
    eapply wake_step; [apply Hwake| |rewrite Ho; simpl; lia].
    apply blocked_back; [done|]. intros key Hk Hw. split; [|done]. exists pc. split; [done|].
    destruct Hpast; congruence.
  - intros x. rewrite Hv. eapply disc_step; [apply Hdisc|exact Hd|by left| |].
    + intros a key Hpc Hd'. specialize (Hp a key Hpc). specialize (Hd Hd'). congruence.
    + intros fl todo Ho' Hin. simplify_eq. by apply (Hn x fl todo).
Qed.

(** ** Steps that use a waker set *)

Lemma responsible_set a x : bool_decide (set_of a = x) = true ↔ set_of a = x.
Proof. apply bool_decide_eq_true. Qed.

Lemma WInv_remove ch ps wk hi o a key ws :
  WInv ch ps wk hi → ps !! o = Some (Start a (Some key)) →
  wset_remove key (wakers_of (set_of a) ch) = Done ((tt, ws), []) → wset_wf ws →
  wset_view ws = delete key (cview (set_of a) ch) →
  WInv (set_wakers (set_of a) ws ch) (<[o := LoadEnd a]> ps) wk hi.
Proof.
  intros [Hwf Htr Hwake Hdisc] Ho He Hws Hv. change (<[o := ?pc]> ps) with (set_op o (Some pc) ps).
  assert (chan_key (set_of a) (Start a (Some key)) = Some key) as Hk by (simpl; by rewrite decide_True).
  destruct (tracked_in _ _ _ _ _ _ _ _ (Htr (set_of a)) Ho Hk) as [e Hme].
  assert (∀ x, (x = set_of a ∧ cview x (set_wakers (set_of a) ws ch) = delete key (cview x ch)) ∨
    x ≠ set_of a ∧ cview x (set_wakers (set_of a) ws ch) = cview x ch) as Hx.
  { intros x. rewrite cview_set. destruct (decide (x = set_of a)) as [->|]; [left|by right]. by rewrite Hv. }
  split.
  - by apply chan_wf_set.
  - intros x. destruct (Hx x) as [[-> ->]|[Hne ->]].
    + eapply tracked_remove; [apply Htr| |done|set_solver]. by rewrite (keys_lookup _ _ _ _ Ho).
    + eapply tracked_no_key; [apply Htr|done| |done|set_solver]. simpl. by rewrite decide_False.
  - intros x. eapply wake_step; [apply Hwake| |rewrite Ho; cbn [is_at responsible]].
    + apply blocked_back; [|done]. intros key' o' _ Hw.
      destruct (Hx x) as [[-> Hxe]|[Hne Hxe]]; rewrite Hxe in Hw; [|done].
      by apply lookup_delete_Some in Hw as [_ Hw].
    + destruct (Hx x) as [[-> ->]|[Hne ->]]; [|case_bool_decide; simpl; lia].
      rewrite (n_notified_delete _ _ _ Hme), bool_decide_eq_true_2 by done. destruct e; simpl; lia.
  - intros x. eapply disc_step; [apply Hdisc|done| |done|by intros fl todo; rewrite Ho].
    intros key' o' Hw. left. destruct (Hx x) as [[-> Hxe]|[Hne Hxe]]; rewrite Hxe in Hw; [|done].
    by apply lookup_delete_Some in Hw as [_ Hw].
Qed.

Lemma WInv_insert ch ps wk hi o a key ws :
  WInv ch ps wk hi → ps !! o = Some (Insert a) →
  cview (set_of a) ch !! key = None → wset_wf ws →
  wset_view ws = <[key := Some o]> (cview (set_of a) ch) →
  WInv (set_wakers (set_of a) ws ch) (<[o := CheckFirst a key]> ps) wk hi.
Proof.
  intros [Hwf Htr Hwake Hdisc] Ho Hk Hws Hv.
  assert (∀ x, (x = set_of a ∧ cview x (set_wakers (set_of a) ws ch) = <[key := Some o]> (cview x ch)) ∨
    x ≠ set_of a ∧ cview x (set_wakers (set_of a) ws ch) = cview x ch) as Hx.
  { intros x. rewrite cview_set. destruct (decide (x = set_of a)) as [->|]; [left|by right]. by rewrite Hv. }
  assert (∀ x key' o', waiting (cview x (set_wakers (set_of a) ws ch)) key' o' →
    waiting (cview x ch) key' o' ∨ o' = o) as Hback.
  { intros x key' o' Hw. unfold waiting in *.
    destruct (Hx x) as [[-> Hxe]|[Hne Hxe]]; rewrite Hxe in Hw; [|by left].
    apply lookup_insert_Some in Hw as [[_ [= ->]]|[_ Hw]]; [by right|by left]. }
  split.
  - by apply chan_wf_set.
  - intros x. destruct (Hx x) as [[-> ->]|[Hne ->]].
    + eapply tracked_insert; [apply Htr| |done| |set_solver]; [by rewrite (keys_lookup _ _ _ _ Ho)|].
      simpl. by rewrite decide_True.
    + change (<[o := ?pc]> ps) with (set_op o (Some pc) ps).
      eapply tracked_no_key; [apply Htr|done|done| |set_solver]. simpl. by rewrite decide_False.
  - intros x. change (<[o := ?pc]> ps) with (set_op o (Some pc) ps).
    eapply wake_step; [apply Hwake| |rewrite Ho; cbn [is_at responsible]].
    + apply blocked_back; [|done]. intros key' o' Hne Hw. by destruct (Hback _ _ _ Hw).
    + destruct (Hx x) as [[-> ->]|[Hne ->]]; [|lia]. rewrite n_notified_insert by done. lia.
  - intros x. change (<[o := ?pc]> ps) with (set_op o (Some pc) ps).
    eapply disc_step; [apply Hdisc|done| |done|by intros fl todo; rewrite Ho]. apply Hback.
Qed.

Lemma after_notify_in x (n : Notify) todo :
  ((x, n) ∈ todo) → ∃ fl' todo', after_notify (T:=T) todo = Some (Notifying fl' todo') ∧ ((x, n) ∈ todo').
Proof. destruct todo as [|e todo]; [by intros ?%not_elem_of_nil|]. intros Hin. by exists false, (e :: todo). Qed.

Lemma after_notify_at x todo :
  is_at (responsible x) (after_notify todo) = Nat.b2n (bool_decide (x ∈ todo.*1)).
Proof.
  destruct todo as [|e todo]; [|done]. rewrite bool_decide_eq_false_2; [done|].
  apply not_elem_of_nil.
Qed.

Lemma after_notify_plain x todo :
  after_notify (T:=T) todo ≫= chan_key x = None ∧ after_notify (T:=T) todo ≫= past_key x = None.
Proof. by destruct todo. Qed.

Lemma responsible_rest x y (n : Notify) todo :
  x ≠ y → bool_decide (x ∈ ((y, n) :: todo).*1) = bool_decide (x ∈ todo.*1).
Proof. intros Hne. apply bool_decide_ext. simpl. rewrite elem_of_cons. naive_solver. Qed.

(** The notifier goes on to the rest of its list. *)
Lemma WInv_notify ch ps wk hi o fl x (n : Notify) todo kl ws :
  WInv ch ps wk hi → ps !! o = Some (Notifying fl ((x, n) :: todo)) → n ≠ NotifyAny →
  wset_wf ws → notify_post n (cview x ch) kl (wset_view ws) →
  WInv (set_wakers x ws ch) (set_op o (after_notify todo) ps) (wk ∪ list_to_set kl.*2) hi.
Proof.
  intros [Hwf Htr Hwake Hdisc] Ho Hn Hws [Hw Hp].
  assert (∀ y, (y = x ∧ cview y (set_wakers x ws ch) = wset_view ws) ∨
    y ≠ x ∧ cview y (set_wakers x ws ch) = cview y ch) as Hy.
  { intros y. rewrite cview_set. destruct (decide (y = x)); [by left|by right]. }
  assert (nobody_waits (wset_view ws) ∨ n = NotifyOne ∧ length kl = 1) as Hone.
  { destruct n; [done| |by left]. destruct kl as [|? []]; [left|by right|simpl in Hp; lia].
    apply woke_empty in Hw as ->. by apply Hp. }
  assert (∀ y key o', waiting (cview y (set_wakers x ws ch)) key o' → waiting (cview y ch) key o') as Hback.
  { intros y key o' Hk. destruct (Hy y) as [[-> He]|[Hne He]]; rewrite He in Hk; [|done].
    by eapply woke_back. }
  split.
  - by apply chan_wf_set.
  - intros y. eapply tracked_keep; [|exact Ho|done|by destruct (after_notify_plain y todo)|reflexivity].
    destruct (Hy y) as [[-> ->]|[Hne ->]]; [by eapply tracked_woke|].
    eapply tracked_grow; [apply Htr|set_solver].
  - intros y. destruct (Hy y) as [[-> He]|[Hne He]]; rewrite He.
    + destruct Hone as [Hno|[-> Hl]]; [by apply wake_nobody|].
      eapply wake_step; [apply Hwake| |].
      * apply blocked_back; [|by destruct (after_notify_plain x todo) as [_ ->]].
        intros key o' _ Hk. by eapply woke_back.
      * rewrite Ho, (n_notified_woke _ _ _ Hw), Hl. simpl.
        rewrite bool_decide_eq_true_2 by (rewrite elem_of_cons; by left). simpl. lia.
    + eapply wake_step; [apply Hwake| |].
      * apply blocked_back; [done|by destruct (after_notify_plain y todo) as [_ ->]].
      * rewrite Ho, after_notify_at. cbn [is_at responsible]. rewrite responsible_rest by done. lia.
  - intros y. eapply disc_step; [apply Hdisc|done|by left; apply Hback|by destruct todo|].
    intros fl' todo' Ho' Hin. simplify_eq. apply elem_of_cons in Hin as [[= -> <-]|Hin].
    + right. rewrite cview_set, decide_True by done. by destruct Hone as [|[? _]].
    + left. by apply after_notify_in.
Qed.

(** ** Every step *)

Lemma past_key_chan x (pc' : option (Pc T)) : pc' ≫= chan_key x = None → pc' ≫= past_key x = None.
Proof. destruct pc' as [[]|]; done. Qed.

(** The operation has no key before or after. *)
Lemma WInv_silent ch ch' ps wk hi hi' o pc (pc' : option (Pc T)) :
  WInv ch ps wk hi → ps !! o = Some pc →
  (∀ x, wakers_of x ch' = wakers_of x ch) → cap ch' = cap ch →
  (is_disconnected ch' = true → is_disconnected ch = true) →
  (∀ x, chan_key x pc = None) → (∀ x, pc' ≫= chan_key x = None) →
  (∀ fl todo, pc ≠ Notifying fl todo) →
  (∀ x, avail x (cap ch) hi' = 0%N ∨
     N.to_nat (avail x (cap ch) hi') + Nat.b2n (responsible x pc) ≤
     N.to_nat (avail x (cap ch) hi) + is_at (responsible x) pc') →
  WInv ch' (set_op o pc' ps) wk hi'.
Proof.
  intros HW Ho Hws Hcap Hd Hk Hk' Hn Hav.
  eapply WInv_quiet; [exact HW|exact Ho|done|done|done| | | |].
  - intros x. eapply tracked_no_key; [apply (w_tracked _ _ _ _ HW)|done|apply Hk|apply Hk'|set_solver].
  - intros x. right. destruct (Hav x) as [|Hle]; [by left|right]. split; [|done].
    left. by apply past_key_chan.
  - intros a key ->. specialize (Hk' (set_of a)). simpl in Hk'. by rewrite decide_True in Hk'.
  - intros x fl todo ->. by destruct (Hn fl todo).
Qed.

Lemma avail_push c hi o msg x :
  (n_sent hi < n_taken hi + c)%N →
  avail x c (pushed hi o msg) = if decide (x = SendWakers) then (avail x c hi - 1)%N else
    (n_sent hi + 1 - n_taken hi)%N.
Proof.
  intros Hl. pose proof (n_sent_pushed hi o msg) as Hn. destruct x; simpl; rewrite Hn;
    change (n_taken (pushed hi o msg)) with (n_taken hi); lia.
Qed.

(** The exchanges. *)
Lemma WInv_cas k ch ps wk hi o a w (pc' : option (Pc T)) ch' l :
  let hi' := record_step o (Cas a w) pc' hi in
  Ring k ch ps hi → Ring k ch' (set_op o pc' ps) hi' → WInv ch ps wk hi →
  ps !! o = Some (Cas a w) → op_step o (Cas a w) ch = Done ((pc', ch'), l) →
  l = [] ∧ WInv ch' (set_op o pc' ps) wk hi'.
Proof.
  intros hi' HR HR' HW Ho He. pose proof (r_config _ _ _ _ HR) as Hc.
  pose proof (r_len _ _ _ _ HR) as Hlen. pose proof (r_len _ _ _ _ HR') as Hlen'.
  pose proof (op_step_cap _ _ _ _ _ _ He) as [Hcap Hmark]. rewrite Hcap in Hlen'.
  pose proof (r_op _ _ _ _ HR _ _ Ho) as Hw. simpl in Hw.
  simpl in He. apply eff_bind_done in He as ([pc ch1] & l1 & l2 & Hex & Hr & ->). inv_eff.
  destruct a as [msg|str].
  - destruct Hw as (t & d & -> & _ & _). rewrite exchange_sender in Hex by done. inv_eff.
    split; [done|]. destruct (ch_tail ch =? marked k ch t d)%N eqn:Heq; simplify_eq.
    + assert (∀ p, is_disconnected (set_tail (marked k ch p d) ch) = is_disconnected ch) as Hd.
      { intros p. apply N.eqb_eq in Heq. rewrite (disconnected_marked k ch t d Hc Heq).
        apply (disconnected_marked k _ p d); [by destruct Hc|done]. }
      assert (n_sent hi' = n_sent hi + 1 ∧ n_taken hi' = n_taken hi)%N as [Hn1 Hn2]
        by (split; [exact (n_sent_pushed hi o msg)|done]).
      eapply (WInv_silent ch _ ps wk hi _ o (Cas (Sender msg) _) (Some _)); try done; [by rewrite Hd|].
      intros x. right. destruct x; simpl; lia.
    + by eapply (WInv_silent ch' _ ps wk hi _ o (Cas (Sender msg) _) (Some _)); try done; intros x; right.
  - destruct Hw as (t & -> & _ & _). rewrite exchange_receiver in Hex by done. inv_eff.
    split; [done|]. destruct (ch_head ch =? stamp k ch t)%N eqn:Heq; simplify_eq.
    + assert (n_taken hi' = n_taken hi + 1 ∧ n_sent hi' = n_sent hi)%N as [Hn1 Hn2]
        by (split; [exact (n_taken_popped hi o)|done]).
      eapply (WInv_silent ch _ ps wk hi _ o (Cas (Receiver str) _) (Some _)); try done.
      intros x. right. destruct x, str; simpl; lia.
    + by eapply (WInv_silent ch' _ ps wk hi _ o (Cas (Receiver str) _) (Some _)); try done; intros x; right.
Qed.

(** The step changes neither the history nor how much the operation is
    responsible for. *)
Ltac usize_done :=
  repeat match goal with Hu : usize_add _ _ = Done _ |- _ => apply usize_add_done in Hu as [-> ->] end.
Ltac same_avail :=
  match goal with |- ∀ x, avail x ?c ?hi' = 0%N ∨ _ ≤ N.to_nat (avail x ?c ?hi) + _ =>
    let x := fresh "x" in intros x; right;
    change (avail x c hi') with (avail x c hi); try (destruct x; simpl; lia)
  end.

Lemma WInv_check ch ps wk hi o a key pc (pc' : Pc T) :
  WInv ch ps wk hi → ps !! o = Some pc →
  (∀ x, chan_key x pc = if decide (set_of a = x) then Some key else None) →
  (∀ x, chan_key x pc' = if decide (set_of a = x) then Some key else None) →
  chan_starting pc = false → (∀ x, responsible x pc = false) →
  (∀ x, past_key x pc' = None ∨ past_key x pc = past_key x pc' ∨ avail x (cap ch) hi = 0%N) →
  (∀ key, pc' = Parked a key → is_disconnected ch = false) →
  (∀ a' key, pc' = Parked a' key → a' = a) → (∀ fl todo, pc ≠ Notifying fl todo) →
  WInv ch (<[o := pc']> ps) wk hi.
Proof.
  intros HW Ho Hk Hk' Hst Hr Hp Hd Ha Hn. change (<[o := pc']> ps) with (set_op o (Some pc') ps).
  eapply WInv_quiet; [exact HW|exact Ho|done|done|done| | | |].
  - intros x. eapply tracked_keep; [apply (w_tracked _ _ _ _ HW)|exact Ho|done| |done].
    simpl. by rewrite Hk, Hk'.
  - intros x. right. destruct (Hp x) as [Hp'|[Hp'|]]; [right|right|by left]; rewrite Hr;
      (split; [simpl; auto|simpl; lia]).
  - intros a' key' [= ->]. apply (Hd key'). f_equal. by eapply Ha.
  - intros x fl todo ->. by destruct (Hn fl todo).
Qed.

(** The mark is set. *)
Lemma WInv_disconnect k ch ps wk hi o :
  Ring k ch ps hi → WInv ch ps wk hi → ps !! o = Some Disconnect →
  WInv (set_tail (N.lor (ch_tail ch) (mark_bit ch)) ch)
    (set_op o (if (mark_of ch (ch_tail ch) =? 0)%N then Some (Notifying false wake_all) else None) ps) wk hi.
Proof.
  intros HR HW Ho. set (pc' := if (_ =? _)%N then _ else _).
  assert (WInv ch (set_op o pc' ps) wk hi) as HW'.
  { eapply (WInv_silent ch ch ps wk hi hi o Disconnect); try done; [by intros x; unfold pc'; case_match|].
    intros x. right. simpl. lia. }
  destruct HW' as [Hwf Htr Hwake Hdisc]. split; try done.
  intros x _ Hb. assert (cview x (set_tail (N.lor (ch_tail ch) (mark_bit ch)) ch) = cview x ch) as Hv
      by (by destruct x). rewrite Hv in Hb.
  unfold pc' in *. destruct (mark_of ch (ch_tail ch) =? 0)%N eqn:Hm.
  - exists o, false, wake_all. rewrite set_op_eq. split; [done|]. unfold wake_all. destruct x; set_solver.
  - apply Hdisc; [|done]. unfold is_disconnected. by rewrite Hm.
Qed.

Lemma WInv_notifying ch ps wk hi o fl todo (pc' : option (Pc T)) ch' l :
  WInv ch ps wk hi → ps !! o = Some (Notifying fl todo) → Forall (λ e : WSet * Notify, e.2 ≠ NotifyAny) todo →
  op_step o (Notifying fl todo) ch = Done ((pc', ch'), l) →
  WInv ch' (set_op o pc' ps) (wk ∪ list_to_set l) hi.
Proof.
  intros HW Ho Hf He.
  assert (∀ pc' : option (Pc T), (∀ x, pc' ≫= chan_key x = None) →
    (∀ x, nobody_waits (cview x ch) ∨ Nat.b2n (responsible x (Notifying fl todo)) ≤ is_at (responsible x) pc') →
    (∀ x, ((x, NotifyAll) ∈ todo) → (∃ fl' todo', pc' = Some (Notifying fl' todo') ∧ ((x, NotifyAll) ∈ todo')) ∨
      nobody_waits (cview x ch)) → WInv ch (set_op o pc' ps) wk hi) as Hquiet.
  { intros pc0 Hk Hav Hn. eapply WInv_quiet; [exact HW|exact Ho|done|done|done| | | |].
    - intros x. eapply tracked_no_key; [apply (w_tracked _ _ _ _ HW)|done|done|apply Hk|set_solver].
    - intros x. destruct (Hav x) as [|Hle]; [by left|right; right]. split; [left; by apply past_key_chan|lia].
    - intros a key ->. specialize (Hk (set_of a)). simpl in Hk. by rewrite decide_True in Hk.
    - intros x fl0 todo0 [= <- <-]. apply Hn. }
  destruct todo as [|[x n] todo].
  { assert (pc' = None ∧ ch' = ch ∧ l = []) as (-> & -> & ->) by (destruct fl; simpl in He; by inv_eff).
    rewrite no_wakes. apply Hquiet; [done| |by intros x ?%not_elem_of_nil].
    intros x. right. cbn [responsible]. rewrite bool_decide_eq_false_2; [done|]. apply not_elem_of_nil. }
  destruct fl; simpl in He.
  - destruct (wset_notify_spec n (wakers_of x ch) (w_wf _ _ _ _ HW x)) as (ws & kl & Hs & Hws & Hp).
    rewrite Hs in He. inv_eff. rewrite app_nil_r. eapply WInv_notify; try done.
    by apply Forall_inv in Hf.
  - inv_eff. rewrite no_wakes. destruct (wset_one_wanted (wakers_of x ch')) eqn:Hw.
    + apply Hquiet; [done|by right|]. intros y Hy. left. by exists true, ((x, n) :: todo).
    + assert (nobody_waits (cview x ch')) as Hno.
      { intros key w Hk. assert (wset_one_wanted (wakers_of x ch') = true); [|congruence].
        apply wset_one_wanted_spec; [apply (w_wf _ _ _ _ HW)|]. by exists key, w. }
      apply Hquiet.
      * intros y. apply after_notify_plain.
      * intros y. destruct (decide (y = x)) as [->|Hne]; [by left|right].
        rewrite after_notify_at. apply Nat.eq_le_incl. f_equal. by apply (responsible_rest y x n).
      * intros y Hy. apply elem_of_cons in Hy as [[= -> _]|Hy]; [by right|left]. by apply after_notify_in.
Qed.

Lemma WInv_run k ch ps wk hi o pc (pc' : option (Pc T)) ch' l :
  let hi' := record_step o pc pc' hi in
  Ring k ch ps hi → in_time k ch hi → Ring k ch' (set_op o pc' ps) hi' → WInv ch ps wk hi →
  ps !! o = Some pc → active pc = true → op_step o pc ch = Done ((pc', ch'), l) →
  WInv ch' (set_op o pc' ps) (wk ∪ list_to_set l) hi'.
Proof.
  intros hi' HR Ht HR' HW Ho Hact He. pose proof (r_config _ _ _ _ HR) as Hc.
  pose proof (r_op _ _ _ _ HR _ _ Ho) as Hok.
  destruct pc as [a [key|]|a|a w|a w|a w|msg w|msg w|str w|str msg w|a|a key|a key w|a key|a key|msg| |fl todo].
  - assert (chan_key (set_of a) (Start a (Some key)) = Some key) as Hk by (simpl; by rewrite decide_True).
    pose proof (tracked_in _ _ _ _ _ _ _ _ (w_tracked _ _ _ _ HW (set_of a)) Ho Hk) as Hin.
    destruct (wset_remove_spec key (wakers_of (set_of a) ch) (w_wf _ _ _ _ HW _) Hin) as (ws & Hr & Hws & Hv).
    simpl in He. rewrite Hr in He. inv_eff. rewrite no_wakes. by eapply WInv_remove.
  - simpl in He. inv_eff. rewrite no_wakes. eapply (WInv_silent ch' ch' ps wk hi _ o _ (Some _)); try done.
    + intros x. simpl. by destruct (decide (set_of a = x)).
    + same_avail.
  - simpl in He. inv_eff. rewrite no_wakes. eapply (WInv_silent ch' ch' ps wk hi _ o _ (Some _)); try done.
    same_avail.
  - destruct (Ring_load_stamp _ _ _ _ _ _ _ _ _ _ HR Ho He) as (pc & -> & -> & _ & Hh).
    unfold hi'. rewrite Hh. simpl in He. apply eff_bind_done in He as (sl & l1 & l2 & Hsl & He & ->).
    apply eff_bind_done in He as (pc0 & l3 & l4 & Ha & Hr & ->). unfold slot_at, unwrap in Hsl.
    destruct a; simpl in Ha; inv_eff; usize_done; simpl; rewrite no_wakes;
      (eapply (WInv_silent ch ch ps wk hi _ o _ (Some _)); try done; same_avail).
  - destruct (WInv_cas _ _ _ _ _ _ _ _ _ _ _ HR HR' HW Ho He) as [-> HW']. by rewrite no_wakes.
  - simpl in He. inv_eff. rewrite no_wakes. simpl in Hok.
    assert (∀ x hi1, n_sent hi1 = n_sent hi → n_taken hi1 = n_taken hi →
      after_other a w ch' = Some (LoadEnd a) ∨ avail (set_of a) (cap ch') hi = 0%N →
      avail x (cap ch') hi1 = 0%N ∨ N.to_nat (avail x (cap ch') hi1) + Nat.b2n (responsible x (LoadOther a w)) ≤
      N.to_nat (avail x (cap ch') hi) + is_at (responsible x) (after_other a w ch')) as Hav.
    { intros x hi1 Hs1 Ht1 Hcase.
      assert (avail x (cap ch') hi1 = avail x (cap ch') hi) as -> by (unfold avail; by rewrite Hs1, Ht1).
      destruct Hcase as [->|Hz]; [right; simpl; lia|].
      destruct (decide (set_of a = x)) as [<-|Hne]; [by left|right].
      simpl. rewrite bool_decide_eq_false_2 by done. simpl. lia. }
    eapply (WInv_silent ch' ch' ps wk hi _ o _ (after_other a w ch')); try done.
    + intros x. destruct (after_other_cases a w ch') as [->|[_ [->|[->|[msg ->]]]]]; done.
    + intros x. apply Hav.
      * unfold hi'. by destruct a, (after_other _ w ch') as [[]|].
      * unfold hi'. by destruct a, (after_other _ w ch') as [[]|].
      * destruct (after_other_cases a w ch') as [|[Hl _]]; [by left|right].
        by eapply at_limit_avail.
  - destruct (Ring_write k ch ps hi o HR Ht msg w Ho) as (i & d & -> & He' & _).
    rewrite He' in He. simplify_eq. rewrite no_wakes.
    eapply (WInv_silent ch _ ps wk hi _ o _ (Some _)); try done. same_avail.
  - destruct (Ring_publish k ch ps hi o HR Ht msg w Ho) as (i & d & -> & He' & _).
    rewrite He' in He. simplify_eq. rewrite no_wakes.
    eapply (WInv_silent ch _ ps wk hi _ o _ (Some _)); try done. same_avail.
  - destruct (Ring_read k ch ps hi o HR Ht str w Ho) as (i & msg & -> & He' & _).
    rewrite He' in He. simplify_eq. rewrite no_wakes.
    eapply (WInv_silent ch _ ps wk hi _ o _ (Some _)); try done. same_avail.
  - destruct (Ring_release k ch ps hi o HR Ht str msg w Ho) as (i & -> & He' & _).
    rewrite He' in He. simplify_eq. rewrite no_wakes.
    eapply (WInv_silent ch _ ps wk hi _ o _ (Some _)); try done. same_avail.
  - simpl in He. unfold insert_key in He. inv_eff.
    match goal with Hi : wset_insert _ _ = Done ((?key, ?ws), ?l) |- _ =>
      destruct (wset_insert_spec o _ key ws l (w_wf _ _ _ _ HW _) Hi) as (Hws & -> & Hk & Hv) end.
    simpl. rewrite no_wakes. by apply WInv_insert.
  - simpl in He. inv_eff. rewrite no_wakes. eapply (WInv_check ch' ps wk hi o a key); try done. by left.
  - simpl in He. inv_eff. rewrite no_wakes. simpl in Hok.
    destruct (still_blocked a w ch') eqn:Hb; eapply (WInv_check ch' ps wk hi o a key); try done; [|by left].
    intros x. simpl. destruct (decide (set_of a = x)) as [<-|]; [right; right|by left].
    eapply at_limit_avail; try done. by erewrite <- still_blocked_limit.
  - simpl in He. inv_eff. rewrite no_wakes.
    destruct (is_disconnected ch') eqn:Hd; eapply (WInv_check ch' ps wk hi o a key); try done.
    + by left.
    + right. by left.
    + by intros a' key' [= <- _].
  - done.
  - done.
  - simpl in He. inv_eff. rewrite no_wakes. by eapply WInv_disconnect.
  - by eapply (WInv_notifying ch ps wk hi o fl todo).
Qed.
End Wake.
