(* ===== verification/ChannelInv.v ===== *)
(** The invariant of the channel under interleaving, and its schedules. *)

From stdpp Require Import gmap fin_maps relations.
From S2P Require Import Prelude WakerSet WakerClients Stamps Channel ChannelQueue.
From S2P Require Import ChannelSteps ChannelRing ChannelWake.

Section Invariant.
Context {T WS : Type} `{WakerSetLaws WS nat}.
Implicit Types (ch : Channel WS T) (o : nat) (x : WSet) (a : Agent T) (pc : Pc T)
  (ps : gmap nat (Pc T)) (hi : History T).

(** * Steps other than those of the operations *)

(** Somebody from outside starts an operation, polls it again, or ends it
    while it has no entry. *)
Lemma WInv_outside ch ch' ps wk wk' hi o (pc' : option (Pc T)) :
  WInv ch ps wk hi →
  (∀ x, wakers_of x ch' = wakers_of x ch) → cap ch' = cap ch →
  is_disconnected ch' = is_disconnected ch →
  (∀ x, tracked (chan_key x) chan_starting (set_op o pc' ps) (cview x ch) wk') →
  (∀ x, pc' ≫= past_key x = None) →
  (∀ x, is_at (responsible x) (ps !! o) ≤ is_at (responsible x) pc') →
  (∀ fl todo, ps !! o ≠ Some (Notifying fl todo)) →
  WInv ch' (set_op o pc' ps) wk' hi.
Proof.
  intros [Hwf _ Hwake Hdisc] Hws Hcap Hd Htr Hpast Hr Hn.
  assert (∀ x, cview x ch' = cview x ch) as Hv by (intros x; unfold cview; by rewrite Hws).
  split.
  - intros x. rewrite Hws. apply Hwf.
  - intros x. rewrite Hv. apply Htr.
  - intros x. rewrite Hv, Hcap. eapply wake_step; [apply Hwake| |specialize (Hr x); lia].
    apply blocked_back; [done|]. intros key Hk. by rewrite Hpast in Hk.
  - intros x. rewrite Hv, Hd. eapply disc_step; [apply Hdisc|done|by left| |].
    + intros a key ->. specialize (Hpast (set_of a)). simpl in Hpast. by rewrite decide_True in Hpast.
    + intros fl todo Ho. by destruct (Hn fl todo).
Qed.

Lemma WInv_new ch ch' ps wk wk' hi o (pc' : option (Pc T)) :
  WInv ch ps wk hi → ps !! o = None →
  (∀ x, wakers_of x ch' = wakers_of x ch) → cap ch' = cap ch →
  is_disconnected ch' = is_disconnected ch → wk ∖ {[o]} ⊆ wk' →
  (∀ x, pc' ≫= chan_key x = None) → WInv ch' (set_op o pc' ps) wk' hi.
Proof.
  intros HW Ho Hws Hcap Hd Hwk Hk. eapply WInv_outside; [exact HW|done|done|done| | | |].
  - intros x. eapply tracked_no_key; [apply (w_tracked _ _ _ _ HW)|exact Ho|done|apply Hk|done].
  - intros x. by apply past_key_chan.
  - intros x. rewrite Ho. simpl. lia.
  - by rewrite Ho.
Qed.

Lemma WInv_poll ch ps wk hi o a key :
  WInv ch ps wk hi → ps !! o = Some (Parked a key) →
  WInv ch (<[o := Start a (Some key)]> ps) (wk ∖ {[o]}) hi.
Proof.
  intros HW Ho. change (<[o := ?pc]> ps) with (set_op o (Some pc) ps).
  eapply WInv_outside; [exact HW|done|done|done| |done| |by rewrite Ho].
  - intros x. apply (tracked_start _ _ _ _ wk); [apply (w_tracked _ _ _ _ HW)| |done|done].
    by rewrite (keys_lookup _ _ _ _ Ho).
  - intros x. rewrite Ho. simpl. lia.
Qed.

Lemma WInv_idle ch ps wk wk' hi o msg (pc' : option (Pc T)) :
  WInv ch ps wk hi → ps !! o = Some (Closed msg) → wk ∖ {[o]} ⊆ wk' →
  (∀ x, pc' ≫= chan_key x = None) → WInv ch (set_op o pc' ps) wk' hi.
Proof.
  intros HW Ho Hwk Hk. eapply WInv_outside; [exact HW|done|done|done| | | |by rewrite Ho].
  - intros x. eapply tracked_no_key; [apply (w_tracked _ _ _ _ HW)|exact Ho|done|apply Hk|done].
  - intros x. by apply past_key_chan.
  - intros x. rewrite Ho. simpl. lia.
Qed.

(** A future that has been notified and is dropped notifies somebody else. *)
Lemma WInv_cancel ch ps wk hi o a key ch' l :
  WInv ch ps wk hi → ps !! o = Some (Parked a key) →
  cancel_key (set_of a) (Some key) ch = Done (ch', l) →
  ∃ ws, ch' = set_wakers (set_of a) ws ch ∧ WInv ch' (delete o ps) (wk ∪ list_to_set l) hi.
Proof.
  intros [Hwf Htr Hwake Hdisc] Ho He.
  assert (chan_key (set_of a) (Parked a key) = Some key) as Hk by (simpl; by rewrite decide_True).
  destruct (tracked_in _ _ _ _ _ _ _ _ (Htr (set_of a)) Ho Hk) as [e Hme].
  destruct (wset_cancel_spec key (wakers_of (set_of a) ch) e (Hwf _) Hme) as (ws & kl & Hc & Hws & Hv).
  simpl in He. rewrite Hc in He. simpl in He. inv_eff. rewrite app_nil_r.
  assert (woke (delete key (cview (set_of a) ch)) kl (wset_view ws) ∧
    (nobody_waits (wset_view ws) ∨
     n_notified (cview (set_of a) ch) ≤ n_notified (wset_view ws))) as [Hw Hn].
  { pose proof (n_notified_delete _ _ _ Hme) as Hd. destruct e as [w|].
    - destruct Hv as [-> Hv]. unfold cview in *. rewrite Hv. split; [constructor|right; lia].
    - destruct Hv as [Hw [Hl Hno]]. split; [exact Hw|].
      pose proof (n_notified_woke _ _ _ Hw) as Hnw. unfold cview in *. destruct kl as [|? []]; simpl in *; [|right; lia|lia].
      apply woke_empty in Hw as ->. left. by apply Hno. }
  exists ws. split; [done|]. change (delete o ps) with (set_op o None ps).
  assert (∀ y, (y = set_of a ∧ cview y (set_wakers (set_of a) ws ch) = wset_view ws) ∨
    y ≠ set_of a ∧ cview y (set_wakers (set_of a) ws ch) = cview y ch) as Hy.
  { intros y. rewrite cview_set. destruct (decide (y = set_of a)); [by left|by right]. }
  assert (∀ y key' o', waiting (cview y (set_wakers (set_of a) ws ch)) key' o' → waiting (cview y ch) key' o')
    as Hback.
  { intros y key' o' Hk'. destruct (Hy y) as [[-> E]|[Hne E]]; rewrite E in Hk'; [|done].
    apply (woke_back _ _ _ _ _ Hw) in Hk'. by apply lookup_delete_Some in Hk' as [_ ?]. }
  split.
  - by apply chan_wf_set.
  - intros y. destruct (Hy y) as [[-> ->]|[Hne ->]].
    + eapply tracked_woke; [|exact Hw]. eapply tracked_remove; [apply Htr| |done|set_solver].
      by rewrite (keys_lookup _ _ _ _ Ho).
    + eapply tracked_no_key; [apply Htr|exact Ho| |done|set_solver]. simpl. by rewrite decide_False.
  - intros y. assert (nobody_waits (cview y (set_wakers (set_of a) ws ch)) ∨
      n_notified (cview y ch) ≤ n_notified (cview y (set_wakers (set_of a) ws ch))) as Hn'.
    { destruct (Hy y) as [[-> ->]|[Hne ->]]; [done|right; lia]. }
    destruct Hn' as [|Hn']; [by apply wake_nobody|].
    eapply wake_step; [apply Hwake| |rewrite Ho; simpl; lia]. apply blocked_back; [|done].
    intros key' o' _. apply Hback.
  - intros y. eapply disc_step; [apply Hdisc|done|by left; apply Hback|done|by rewrite Ho].
Qed.

(** * The invariant *)

Record Inv (k c : N) (s : State (T:=T) (WS:=WS)) : Prop := mkInv {
  inv_cap : cap (chan s) = c;
  inv_time : in_time k (chan s) (hist s) →
    Ring k (chan s) (ops s) (hist s) ∧ WInv (chan s) (ops s) (woken s) (hist s)
}.

(** An operation comes in that has not exchanged anything. *)
Lemma Ring_enter k ch ps hi o pc :
  Ring k ch ps hi → unused o ps hi → op_ok k ch hi o pc → Ring k ch (<[o := pc]> ps) hi.
Proof.
  intros HR (Ho & Hs & Htk & Hr) Hok. apply (Ring_op k ch ps hi o (Some pc)); [done|by rewrite Ho|].
  intros pc0 [= <-]. by split.
Qed.

(** One leaves that does not hold a slot. *)
Lemma Ring_leave k ch ps hi o pc :
  Ring k ch ps hi → ps !! o = Some pc → writing pc = false → reading pc = false →
  Ring k ch (delete o ps) hi.
Proof.
  intros HR Ho Hw Hr. apply (Ring_op k ch ps hi o None); [done| |done].
  intros pc0 Ho'. by simplify_eq.
Qed.

Lemma in_time_back k ch ch' hi hi' :
  cap ch' = cap ch → (n_sent hi ≤ n_sent hi')%N → in_time k ch' hi' → in_time k ch hi.
Proof. unfold in_time. intros ->. lia. Qed.

Lemma Inv_drop k ch ps (wk : gset nat) hi o s r (final : bool) :
  Ring k ch ps hi → WInv ch ps wk hi → unused o ps hi →
  Ring k (set_counts s r ch) (set_op o (if final then Some Disconnect else None) ps) hi ∧
  WInv (set_counts s r ch) (set_op o (if final then Some Disconnect else None) ps) wk hi.
Proof.
  intros HR HW Hu. split.
  - apply Ring_set_counts. destruct final; simpl; [by apply Ring_enter|].
    rewrite delete_id; [done|apply Hu].
  - eapply WInv_new; [exact HW|apply Hu|by intros []|done|done|set_solver|by destruct final].
Qed.

Lemma chan_Inv_step k c s s' : Inv k c s → step s s' → Inv k c s'.
Proof.
  intros [Hcap HI] Hs.
  destruct Hs as [ch ps wk hi o pc pc' ch' l Ho Hact He|ch ps wk hi o a w Ho|ch ps wk hi o a Hu
    |ch ps wk hi o a key Ho|ch ps wk hi o msg Ho|ch ps wk hi o a key ch' l Ho He|ch ps wk hi o msg Ho
    |ch ps wk hi ch' l He|ch ps wk hi o Hu Hc|ch ps wk hi o Hu Hc]; simpl in *.
  - pose proof (op_step_cap _ _ _ _ _ _ He) as [Hcap' _]. split; simpl; [congruence|]. intros Ht.
    assert (in_time k ch hi) as Ht0 by (by eapply in_time_back; [|apply n_sent_record|exact Ht]).
    destruct (HI Ht0) as [HR HW]. assert (Ring k ch' (set_op o pc' ps) (record_step o pc pc' hi)) as HR'
      by (by eapply Ring_run). split; [exact HR'|]. by eapply WInv_run.
  - split; simpl; [done|]. intros Ht. destruct (HI Ht) as [HR HW]. split.
    + eapply Ring_early; [done|done|done|]. by apply (own_end_word k ch ps hi).
    + rewrite <- (no_wakes wk). change (<[o := ?pc]> ps) with (set_op o (Some pc) ps). rewrite no_wakes.
      eapply (WInv_silent ch ch ps wk hi hi); try done. intros x. right. simpl. lia.
  - split; simpl; [done|]. intros Ht. destruct (HI Ht) as [HR HW]. split; [by apply Ring_enter|].
    eapply (WInv_new ch ch ps wk _ hi o (Some (Start a None))); [done|apply Hu|done..|].
    intros x. simpl. by case_decide.
  - split; simpl; [done|]. intros Ht. destruct (HI Ht) as [HR HW].
    split; [by eapply Ring_early|by apply WInv_poll].
  - split; simpl; [done|]. intros Ht. destruct (HI Ht) as [HR HW]. split; [by eapply Ring_early|].
    eapply (WInv_idle ch ps wk _ hi o msg (Some _)); [done..|]. intros x. simpl. by case_decide.
  - split; simpl; [by simpl in He; inv_eff|]. intros Ht.
    assert (in_time k ch hi) as Ht0 by (eapply in_time_back; [..|exact Ht]; [by simpl in He; inv_eff|done]).
    destruct (HI Ht0) as [HR HW]. destruct (WInv_cancel _ _ _ _ _ _ _ _ _ HW Ho He) as (ws & -> & HW').
    split; [|exact HW']. apply Ring_set_wakers. by eapply Ring_leave.
  - split; simpl; [done|]. intros Ht. destruct (HI Ht) as [HR HW]. split; [by eapply Ring_leave|].
    eapply (WInv_idle ch ps wk _ hi o msg None); [done|done|set_solver|done].
  - assert (∃ s r, ch' = set_counts s r ch) as (s & r & ->).
    { destruct He as [[_ He]|[_ He]]; [unfold Sender_clone in He|unfold Receiver_clone in He]; inv_eff; eauto. }
    split; simpl; [done|]. intros Ht. destruct (HI Ht) as [HR [Hwf Htr Hw Hd]]. split; [by apply Ring_set_counts|].
    split; [exact Hwf|exact Htr|exact Hw|exact Hd].
  - split; simpl; [done|]. intros Ht. destruct (HI Ht) as [HR HW]. by apply Inv_drop.
  - split; simpl; [done|]. intros Ht. destruct (HI Ht) as [HR HW]. by apply Inv_drop.
Qed.

(** The mark bit is the least power of two above the capacity: fewer than
    [2^62] messages never reuse a stamp. *)
Lemma with_capacity_period c ch k :
  with_capacity (T:=T) (WS:=WS) c = Done (ch, []) → config k ch → cap ch = c →
  (2 ^ 62 ≤ period k c)%N.
Proof.
  intros He Hc Hcap. pose proof (cfg_mark _ _ Hc) as Hm. pose proof (cfg_k _ _ Hc).
  unfold with_capacity in He. destruct (N.ltb_spec 0 c) as [Hpos|]; [|done].
  apply eff_bind_done in He as (n & l1 & l2 & [-> ->]%usize_add_done & He & _).
  apply eff_bind_done in He as (mark & l3 & l4 & Hp & He & _).
  apply eff_bind_done in He as (lap & l5 & l6 & _ & He & _).
  apply eff_ret_done in He as [<- _]. simpl in Hm. subst mark.
  unfold next_power_of_two in Hp. destruct (_ <? _)%N; [|done].
  apply eff_ret_done in Hp as [Hp _]. apply N.pow_inj_r in Hp; [|lia].
  pose proof (N.log2_up_spec (c + 1) ltac:(lia)) as [Hlt _]. rewrite Hp in Hlt.
  assert (0 < k)%N as Hk0. { pose proof (N.log2_up_pos (c + 1) ltac:(lia)). lia. }
  unfold period. etrans; [|apply N.mul_le_mono_r; instantiate (1 := (2 ^ N.pred k)%N); lia].
  rewrite <- N.pow_add_r. apply N.pow_le_mono_r; lia.
Qed.

Lemma Inv_initial c ch :
  (0 < c)%N → (c + 1 ≤ 2 ^ 62)%N → with_capacity c = Done (ch, []) →
  ∃ k, Inv k c (initial ch) ∧ (2 ^ 62 ≤ period k c)%N.
Proof.
  intros Hc Hlt He. destruct (with_capacity_run (T:=T) (WS:=WS) c Hc Hlt) as (k & ch' & He' & Hcap & Hq & Hv & _).
  rewrite He in He'. simplify_eq. destruct Hq as [Hcfg Hwf Hh Ht Hl _ Hfree].
  exists k. split; [|by eapply with_capacity_period].
  split; [done|]. intros _. simpl. split.
  - split; simpl; try done.
    + rewrite Ht. f_equal. symmetry. by eapply (disconnected_marked k).
    + intros p Hp. left. by apply Hfree.
    + constructor.
    + constructor.
  - split; [done| | |].
    + intros x. rewrite Hv. apply tracked_empty.
    + intros x (o & pc & key & Ho & _). by rewrite lookup_empty in Ho.
    + intros x _ (o & a & key & Ho & _). by rewrite lookup_empty in Ho.
Qed.

(** What every reachable state satisfies. *)
Lemma reachable_inv c (s : State (T:=T) (WS:=WS)) :
  (0 < c)%N → (c + 1 ≤ 2 ^ 62)%N → reachable c s → (n_sent (hist s) + c < 2 ^ 62)%N →
  ∃ k, cap (chan s) = c ∧ in_time k (chan s) (hist s) ∧
    Ring k (chan s) (ops s) (hist s) ∧ WInv (chan s) (ops s) (woken s) (hist s).
Proof.
  intros Hc Hlt (ch & He & Hs) Hn. destruct (Inv_initial c ch Hc Hlt He) as (k & HI & Hper).
  assert (Inv k c s) as [Hcap HI'].
  { clear Hn. revert HI. induction Hs as [|s1 s2 s3 H12 _ IH]; [done|]. intros HI. by eapply IH, chan_Inv_step. }
  assert (in_time k (chan s) (hist s)) as Ht by (unfold in_time; rewrite Hcap; lia).
  exists k. split_and!; [done|done|by apply HI'..].
Qed.
End Invariant.

(** * Schedules *)

(** The steps, named: [exec] plays them. *)
Inductive Ev (T : Type) : Type :=
| EvRun (o : nat) | EvSpurious (o : nat) | EvCall (o : nat) (a : Agent T) | EvPoll (o : nat)
| EvCancel (o : nat) | EvClone (sender : bool) | EvDrop (o : nat) (sender : bool).
Arguments EvRun {T}.
Arguments EvSpurious {T}.
Arguments EvCall {T}.
Arguments EvPoll {T}.
Arguments EvCancel {T}.
Arguments EvClone {T}.
Arguments EvDrop {T}.

Section Schedules.
Context {T WS : Type} `{WakerSetOps WS nat}.
Implicit Types (s : State (T:=T) (WS:=WS)).

#[local] Instance unused_dec o ps (hi : History T) : Decision (unused o ps hi).
Proof. unfold unused. apply _. Defined.

Definition exec (e : Ev T) (s : State (T:=T) (WS:=WS)) : option (State (T:=T) (WS:=WS)) :=
  let '(mkState ch ps wk hi) := s in
  match e with
  | EvRun o =>
      pc ← ps !! o;
      if active pc then
        match op_step o pc ch with
        | Done ((pc', ch'), l) =>
            Some (mkState ch' (set_op o pc' ps) (wk ∪ list_to_set l) (record_step o pc pc' hi))
        | _ => None
        end
      else None
  | EvSpurious o =>
      if ps !! o is Some (Cas a _) then Some (mkState ch (<[o := LoadStamp a (own_end a ch)]> ps) wk hi)
      else None
  | EvCall o a =>
      if decide (unused o ps hi) then Some (mkState ch (<[o := Start a None]> ps) (wk ∖ {[o]}) hi) else None
  | EvPoll o =>
      match ps !! o with
      | Some (Parked a key) => Some (mkState ch (<[o := Start a (Some key)]> ps) (wk ∖ {[o]}) hi)
      | Some (Closed msg) => Some (mkState ch (<[o := Start (Sender msg) None]> ps) (wk ∖ {[o]}) hi)
      | _ => None
      end
  | EvCancel o =>
      match ps !! o with
      | Some (Parked a key) =>
          match cancel_key (set_of a) (Some key) ch with
          | Done (ch', l) => Some (mkState ch' (delete o ps) (wk ∪ list_to_set l) hi)
          | _ => None
          end
      | Some (Closed msg) => Some (mkState ch (delete o ps) wk hi)
      | _ => None
      end
  | EvClone sender =>
      if bool_decide (0 < if sender then sender_count ch else receiver_count ch)%N then
        match (if sender then Sender_clone ch else Receiver_clone ch) with
        | Done (ch', l) => Some (mkState ch' ps wk hi)
        | _ => None
        end
      else None
  | EvDrop o sender =>
      if decide (unused o ps hi) then
        let count := if sender then sender_count ch else receiver_count ch in
        if bool_decide (0 < count)%N then
          Some (mkState
            (if sender then set_counts (wrapping_sub (sender_count ch) 1) (receiver_count ch) ch
             else set_counts (sender_count ch) (wrapping_sub (receiver_count ch) 1) ch)
            (set_op o (if (count =? 1)%N then Some Disconnect else None) ps) wk hi)
        else None
      else None
  end.

Fixpoint exec_all (es : list (Ev T)) (s : State (T:=T) (WS:=WS)) : option (State (T:=T) (WS:=WS)) :=
  match es with
  | [] => Some s
  | e :: es => s' ← exec e s; exec_all es s'
  end.

Lemma chan_exec_step e s s' : exec e s = Some s' → step s s'.
Proof.
  destruct s as [ch ps wk hi]. intros He.
  destruct e as [o|o|o a|o|o|sender|o sender]; simpl in He.
  - destruct (ps !! o) as [pc|] eqn:Ho; simpl in He; [|done]. destruct (active pc) eqn:Ha; [|done].
    destruct (op_step o pc ch) as [[[pc' ch'] l]| |] eqn:Hs; simplify_eq. by eapply step_run.
  - destruct (ps !! o) as [[]|] eqn:Ho; simplify_eq. by eapply step_spurious.
  - case_decide; simplify_eq. by apply step_call.
  - destruct (ps !! o) as [[]|] eqn:Ho; simplify_eq; [by apply step_poll|by apply step_poll_closed].
  - destruct (ps !! o) as [[]|] eqn:Ho; try done.
    + destruct (x ← _; _) as [[ch' l]| |] eqn:Hc; simplify_eq. by eapply step_cancel.
    + simplify_eq. by eapply step_cancel_closed.
  - case_bool_decide; [|done].
    destruct (if sender then _ else _) as [[ch' l]| |] eqn:Hc; simplify_eq.
    eapply step_clone. destruct sender; [left|right]; eauto.
  - case_decide; [|done]. case_bool_decide; [|done]. simplify_eq.
    destruct sender; [by apply step_drop_sender|by apply step_drop_receiver].
Qed.

Lemma chan_exec_all_steps es s s' : exec_all es s = Some s' → rtc step s s'.
Proof.
  revert s. induction es as [|e es IH]; intros s He; simpl in He; [by simplify_eq|].
  destruct (exec e s) as [s1|] eqn:H1; [|done]. eapply rtc_l; [by eapply chan_exec_step|by apply IH].
Qed.
End Schedules.
