(* ===== verification/ChannelRuns.v ===== *)
(** The methods of the channel, run without interruption, are runs of its
    atomic operations. *)

From stdpp Require Import gmap fin_maps relations.
From S2P Require Import Prelude WakerSet WakerClients Channel ChannelSteps.

Section Runs.
Context {T WS : Type} `{WakerSetOps WS nat}.
Implicit Types (ch : Channel WS T) (x : WSet) (a : Agent T) (pc : Pc T) (ps : gmap nat (Pc T))
  (hi : History T).

(** From [pc] the operation [o], alone, gets to [pc'] and wakes [l]. *)
Definition goes (o : nat) pc ch (pc' : option (Pc T)) ch' (l : list nat) : Prop :=
  ∀ ps wk hi, ∃ hi',
    rtc step (mkState ch (<[o := pc]> ps) wk hi) (mkState ch' (set_op o pc' ps) (wk ∪ list_to_set l) hi').

Lemma goes_step o pc ch (pc' : option (Pc T)) ch' l :
  active pc = true → op_step o pc ch = Done ((pc', ch'), l) → goes o pc ch pc' ch' l.
Proof.
  intros Ha He ps wk hi. exists (record_step o pc pc' hi). apply rtc_once.
  replace (set_op o pc' ps) with (set_op o pc' (<[o := pc]> ps)).
  - eapply step_run; [apply lookup_insert_eq|done|done].
  - destruct pc'; simpl; [by rewrite insert_insert_eq|by rewrite delete_insert_eq].
Qed.

Lemma goes_spurious o a w ch : goes o (Cas a w) ch (Some (LoadStamp a (own_end a ch))) ch [].
Proof.
  intros ps wk hi. exists hi. apply rtc_once. rewrite no_wakes. simpl.
  rewrite <- (insert_insert_eq ps o (LoadStamp a (own_end a ch)) (Cas a w)).
  eapply step_spurious, lookup_insert_eq.
Qed.

Lemma goes_refl o pc ch : goes o pc ch (Some pc) ch [].
Proof. intros ps wk hi. exists hi. by rewrite no_wakes. Qed.

Lemma goes_trans o pc ch pc1 ch1 l1 (pc2 : option (Pc T)) ch2 l2 :
  goes o pc ch (Some pc1) ch1 l1 → goes o pc1 ch1 pc2 ch2 l2 → goes o pc ch pc2 ch2 (l1 ++ l2).
Proof.
  intros H1 H2 ps wk hi. destruct (H1 ps wk hi) as [hi1 Hs1].
  destruct (H2 ps (wk ∪ list_to_set l1) hi1) as [hi2 Hs2]. exists hi2.
  rewrite list_to_set_app_L, union_assoc_L. by etrans.
Qed.

(** One quiet step, then the rest. *)
Lemma goes_next o pc ch pc1 ch1 (pc2 : option (Pc T)) ch2 l :
  active pc = true → op_step o pc ch = Done ((Some pc1, ch1), []) →
  goes o pc1 ch1 pc2 ch2 l → goes o pc ch pc2 ch2 l.
Proof. intros Ha He Hg. apply (goes_trans _ _ _ pc1 ch1 []); [by apply goes_step|done]. Qed.

(** ** Notifying *)

Lemma goes_notify o n x todo ch b ch' l :
  (if wset_one_wanted (wakers_of x ch) then
     '(b, ws) ← wset_notify n (wakers_of x ch); mret (b, set_wakers x ws ch)
   else mret (false, ch)) = Done ((b, ch'), l) →
  goes o (Notifying false ((x, n) :: todo)) ch (after_notify todo) ch' l.
Proof.
  intros He. destruct (wset_one_wanted (wakers_of x ch)) eqn:Hw.
  - eapply goes_next; [done|simpl; by rewrite Hw|]. apply goes_step; [done|]. simpl. inv_eff.
    eapply eff_bind_step; [done|]. done.
  - inv_eff. apply goes_step; [done|]. simpl. by rewrite Hw.
Qed.

Lemma goes_wake_receivers o ch b1 ch1 l1 b2 ch2 l2 :
  notify_one RecvWakers ch = Done ((b1, ch1), l1) → notify_all StreamWakers ch1 = Done ((b2, ch2), l2) →
  goes o (Notifying false wake_receivers) ch None ch2 (l1 ++ l2).
Proof.
  intros H1 H2.
  eapply goes_trans; [exact (goes_notify o NotifyOne _ [(StreamWakers, NotifyAll)] _ _ _ _ H1)|].
  exact (goes_notify o NotifyAll _ [] _ _ _ _ H2).
Qed.

Lemma goes_disconnect o ch ch' l : disconnect ch = Done (ch', l) → goes o Disconnect ch None ch' l.
Proof.
  unfold disconnect. intros He. destruct (_ =? 0)%N eqn:Hm;
    change (mark_of _ _) with (mark_of ch (ch_tail ch)) in Hm.
  - eapply goes_next; [done|simpl; by rewrite Hm|].
    apply eff_bind_done in He as ([b1 ch1] & l1 & l2 & H1 & He & ->).
    apply eff_bind_done in He as ([b2 ch2] & l3 & l4 & H2 & He & ->).
    apply eff_bind_done in He as ([b3 ch3] & l5 & l6 & H3 & He & ->). inv_eff. rewrite app_nil_r.
    eapply goes_trans; [exact (goes_notify o NotifyAll _ [_; _] _ _ _ _ H1)|].
    eapply goes_trans; [exact (goes_notify o NotifyAll _ [_] _ _ _ _ H2)|].
    exact (goes_notify o NotifyAll _ [] _ _ _ _ H3).
  - inv_eff. apply goes_step; [done|]. simpl. by rewrite Hm.
Qed.

(** ** [try_send] and [try_recv] *)

(** Where they leave the operation. *)
Definition after_try_send (r : Result () (TrySendError T)) : option (Pc T) :=
  match r with
  | Ok _ => None
  | Err (Full msg) => Some (Insert (Sender msg))
  | Err (Disconnected msg) => Some (Closed msg)
  end.
Definition after_try_recv (str : bool) (r : Result T TryRecvError) : option (Pc T) :=
  match r with
  | Err Empty => Some (Insert (Receiver str))
  | _ => None
  end.

(** Parts of a round that wake nobody. *)
Lemma next_of_quiet ch w n l : next_of ch w = Done (n, l) → l = [].
Proof. unfold next_of, usize_add. intros He. by inv_eff. Qed.
Lemma slot_at_quiet ch w sl l : slot_at ch w = Done (sl, l) → l = [].
Proof. unfold slot_at, unwrap. intros He. by inv_eff. Qed.
Lemma write_msg_quiet w (m : option T) ch ch' l : write_msg w m ch = Done (ch', l) → l = [].
Proof. unfold write_msg, slot_at, unwrap. intros He. by inv_eff. Qed.
Lemma store_stamp_quiet w st ch ch' l : store_stamp w st ch = Done (ch', l) → l = [].
Proof. unfold store_stamp, slot_at, unwrap. intros He. by inv_eff. Qed.
Lemma unwrap_quiet {A} (v : option A) (b : A) (l : list nat) : unwrap v = Done (b, l) → l = [].
Proof. unfold unwrap. intros He. by inv_eff. Qed.

(** Takes the next call of [H] off, one that wakes nobody. *)
Ltac quiet_call H v Hv :=
  let l1 := fresh "q" in let l2 := fresh "q" in
  apply eff_bind_done in H as (v & l1 & l2 & Hv & H & ->);
  assert (l1 = []) as -> by
    (first [by apply next_of_quiet in Hv|by apply slot_at_quiet in Hv|by apply write_msg_quiet in Hv
      |by apply store_stamp_quiet in Hv|by apply usize_add_done in Hv as [_ ->]|by apply unwrap_quiet in Hv]);
  rewrite app_nil_l.

Lemma goes_load o a w sl ch pc (pc2 : option (Pc T)) ch2 l :
  slot_at ch (pos_of a w ch) = Done (sl, []) → after_stamp a w (slot_stamp sl) ch = Done (pc, []) →
  goes o pc ch pc2 ch2 l → goes o (LoadStamp a w) ch pc2 ch2 l.
Proof.
  intros Hsl Ha. apply goes_next; [done|]. simpl. rewrite Hsl. run_on. by rewrite Ha.
Qed.

(** The exchange, which may fail for no reason. *)
Lemma cas_weak_cases (sp : bool) (cur e n : N) :
  cas_weak sp cur e n = (Ok cur, n) ∧ cas_weak false cur e n = (Ok cur, n) ∨
  cas_weak sp cur e n = (Err cur, cur) ∧ (sp = true ∨ cas_weak false cur e n = (Err cur, cur)).
Proof. unfold cas_weak. destruct sp, (cur =? e)%N; simpl; auto. Qed.

(** A sender that has moved the tail. *)
Lemma goes_write o msg w ch ch1 st ch2 b1 ch3 l1 b2 ch4 l2 :
  write_msg (N.lxor w (mark_of ch w)) (Some msg) ch = Done (ch1, []) →
  usize_add (Ev:=nat) (N.lxor w (mark_of ch w)) 1 = Done (st, []) →
  store_stamp (N.lxor w (mark_of ch w)) st ch1 = Done (ch2, []) →
  notify_one RecvWakers ch2 = Done ((b1, ch3), l1) →
  notify_all StreamWakers ch3 = Done ((b2, ch4), l2) →
  goes o (Write msg w) ch None ch4 (l1 ++ l2).
Proof.
  intros Hw Ha Hs H1 H2. assert (mark_of ch1 w = mark_of ch w) as Hm.
  { unfold write_msg in Hw. inv_eff. done. }
  eapply (goes_next _ _ _ (Publish msg w) ch1); [done|simpl; by rewrite Hw|].
  eapply (goes_next _ _ _ (Notifying false wake_receivers) ch2); [done| |by eapply goes_wake_receivers].
  simpl. rewrite Hm, Ha. run_on. by rewrite Hs.
Qed.

(** A receiver that has moved the head. *)
Lemma goes_read o str w sl msg ch ch1 ch2 b ch3 l :
  slot_at ch w = Done (sl, []) → unwrap (Ev:=nat) (slot_msg sl) = Done (msg, []) →
  write_msg w None ch = Done (ch1, []) →
  store_stamp w (wrapping_add w (one_lap ch1)) ch1 = Done (ch2, []) →
  notify_one SendWakers ch2 = Done ((b, ch3), l) →
  goes o (Read str w) ch None ch3 l.
Proof.
  intros Hsl Hu Hw Hs H1.
  eapply (goes_next _ _ _ (Release str msg w) ch1); [done| |].
  { simpl. rewrite Hsl. run_on. rewrite Hu. run_on. by rewrite Hw. }
  eapply (goes_next _ _ _ (Notifying false wake_sender) ch2); [done|simpl; by rewrite Hs|].
  exact (goes_notify o NotifyOne _ [] _ _ _ _ H1).
Qed.

Definition round_send (msg : T) o w ch
    (r : list bool * N * Channel WS T + Result () (TrySendError T) * Channel WS T) l : Prop :=
  match r with
  | inl (_, w', ch') => goes o (LoadStamp (Sender msg) w) ch (Some (LoadStamp (Sender msg) w')) ch' l
  | inr (r, ch') => goes o (LoadStamp (Sender msg) w) ch (after_try_send r) ch' l
  end.

Lemma goes_try_send_round o msg (weak : list bool) w ch r l :
  try_send_round msg (weak, w, ch) = Done (r, l) → round_send msg o w ch r l.
Proof.
  intros He. unfold try_send_round in He. cbv zeta in He. quiet_call He sl Hsl.
  destruct (_ =? _)%N eqn:Heq.
  - quiet_call He new Hnew.
    assert (∀ (pc2 : option (Pc T)) ch2 l2, goes o (Cas (Sender msg) w) ch pc2 ch2 l2 →
      goes o (LoadStamp (Sender msg) w) ch pc2 ch2 l2) as Hload.
    { intros *. eapply goes_load; [exact Hsl|]. simpl. by rewrite Heq. }
    assert (exchange (Sender msg) w ch = Done
      (match cas_weak false (ch_tail ch) (N.lor (N.lxor w (mark_of ch w)) (mark_of ch w)) (N.lor new (mark_of ch w)) with
       | (Ok _, t) => (Write msg w, set_tail t ch) | (Err t, _) => (LoadStamp (Sender msg) t, ch) end, [])) as Hex.
    { unfold exchange. simpl. rewrite Hnew. run_on. unfold cas_weak. simpl. by destruct (ch_tail ch =? _)%N. }
    destruct (cas_weak_cases (hd false weak) (ch_tail ch) (N.lor (N.lxor w (mark_of ch w)) (mark_of ch w))
      (N.lor new (mark_of ch w))) as [[Hc Hc']|[Hc Hc']]; rewrite Hc in He.
    + rewrite Hc' in Hex. quiet_call He ch1 Hw. quiet_call He st Hadd. quiet_call He ch2 Hp.
      apply eff_bind_done in He as ([b1 ch3] & l1 & l2 & H1 & He & ->).
      apply eff_bind_done in He as ([b2 ch4] & l3 & l4 & H2 & He & ->).
      apply eff_ret_done in He as [<- ->]. rewrite app_nil_r. simpl. apply Hload.
      eapply goes_next; [done|simpl; by rewrite Hex|]. by eapply goes_write.
    + apply eff_ret_done in He as [<- ->]. simpl. apply Hload.
      destruct Hc' as [_|Hc']; [apply (goes_spurious o (Sender msg))|]. rewrite Hc' in Hex.
      apply goes_step; [done|]. simpl. by rewrite Hex.
  - quiet_call He next Hadd.
    assert (∀ (pc2 : option (Pc T)) ch2 l2, goes o (if (wrapping_add (slot_stamp sl) (one_lap ch) =? next)%N
        then LoadOther (Sender msg) w else LoadEnd (Sender msg)) ch pc2 ch2 l2 →
      goes o (LoadStamp (Sender msg) w) ch pc2 ch2 l2) as Hload.
    { intros *. eapply goes_load; [exact Hsl|]. simpl. rewrite Heq, Hadd. run_on.
      by destruct (wrapping_add (slot_stamp sl) (one_lap ch) =? next)%N. }
    destruct (wrapping_add (slot_stamp sl) _ =? next)%N.
    + destruct (wrapping_add (ch_head ch) _ =? _)%N eqn:Hf;
        apply eff_ret_done in He as [<- ->]; simpl; apply Hload.
      * apply goes_step; [done|]. simpl. rewrite Hf. by destruct (mark_of ch w =? 0)%N.
      * eapply (goes_next _ _ _ (LoadEnd _)); [done|simpl; by rewrite Hf|]. by apply goes_step.
    + apply eff_ret_done in He as [<- ->]. simpl. apply Hload. by apply goes_step.
Qed.

Definition round_recv (str : bool) o w ch
    (r : list bool * N * Channel WS T + Result T TryRecvError * Channel WS T) l : Prop :=
  match r with
  | inl (_, w', ch') => goes o (LoadStamp (Receiver str) w) ch (Some (LoadStamp (Receiver str) w')) ch' l
  | inr (r, ch') => goes o (LoadStamp (Receiver str) w) ch (after_try_recv str r) ch' l
  end.

Lemma goes_try_recv_round o str (weak : list bool) w ch r l :
  try_recv_round (weak, w, ch) = Done (r, l) → round_recv str o w ch r l.
Proof.
  intros He. unfold try_recv_round in He. cbv zeta in He. quiet_call He sl Hsl. quiet_call He next Hadd.
  assert (∀ pc (pc2 : option (Pc T)) ch2 l2, after_stamp (Receiver str) w (slot_stamp sl) ch = Done (pc, []) →
    goes o pc ch pc2 ch2 l2 → goes o (LoadStamp (Receiver str) w) ch pc2 ch2 l2) as Hload.
  { intros *. by eapply goes_load. }
  destruct (_ =? _)%N eqn:Heq.
  - quiet_call He new Hnew.
    assert (after_stamp (Receiver str) w (slot_stamp sl) ch = Done (Cas (Receiver str) w, [])) as Hst
      by (simpl; rewrite Hadd; run_on; by rewrite Heq).
    assert (exchange (Receiver str) w ch = Done
      (match cas_weak false (ch_head ch) w new with
       | (Ok _, h) => (Read str w, set_head h ch) | (Err h, _) => (LoadStamp (Receiver str) h, ch) end, [])) as Hex.
    { unfold exchange. simpl. rewrite Hnew. run_on. unfold cas_weak. simpl. by destruct (ch_head ch =? _)%N. }
    destruct (cas_weak_cases (hd false weak) (ch_head ch) w new) as [[Hc Hc']|[Hc Hc']]; rewrite Hc in He.
    + rewrite Hc' in Hex. quiet_call He msg Hu. quiet_call He ch1 Hw. quiet_call He ch2 Hp.
      apply eff_bind_done in He as ([b1 ch3] & l1 & l2 & H1 & He & ->).
      apply eff_ret_done in He as [<- ->]. rewrite app_nil_r. simpl. apply (Hload _ None _ _ Hst).
      eapply goes_next; [done|simpl; by rewrite Hex|]. eapply goes_read; [exact Hsl|exact Hu|exact Hw|exact Hp|exact H1].
    + apply eff_ret_done in He as [<- ->]. simpl. apply (Hload _ (Some _) _ _ Hst).
      destruct Hc' as [_|Hc']; [apply (goes_spurious o (Receiver str))|]. rewrite Hc' in Hex.
      apply goes_step; [done|]. simpl. by rewrite Hex.
  - assert (after_stamp (Receiver str) w (slot_stamp sl) ch = Done
      (if (slot_stamp sl =? w)%N then LoadOther (Receiver str) w else LoadEnd (Receiver str), [])) as Hst
      by (simpl; rewrite Hadd; run_on; rewrite Heq; by destruct (slot_stamp sl =? w)%N).
    destruct (slot_stamp sl =? w)%N.
    + destruct (unmarked ch _ =? w)%N eqn:Hf; apply eff_ret_done in He as [<- ->]; simpl.
      * destruct (negb (mark_of ch (ch_tail ch) =? 0)%N) eqn:Hm; apply (Hload _ _ _ _ Hst);
          (apply goes_step; [done|]; simpl; by rewrite Hf, Hm).
      * apply (Hload _ (Some _) _ _ Hst).
        eapply (goes_next _ _ _ (LoadEnd _)); [done|simpl; by rewrite Hf|]. by apply goes_step.
    + apply eff_ret_done in He as [<- ->]. simpl. apply (Hload _ (Some _) _ _ Hst). by apply goes_step.
Qed.

Lemma goes_try_send n o msg (weak : list bool) ch r ch' l :
  try_send n weak msg ch = Done ((r, ch'), l) → goes o (LoadEnd (Sender msg)) ch (after_try_send r) ch' l.
Proof.
  intros He. eapply goes_next; [done|done|]. unfold try_send in He. unfold own_end.
  revert He. generalize (ch_tail ch) as w. revert weak ch l.
  induction n as [|n IH]; intros weak ch l w He; [discriminate|]. simpl in He.
  apply eff_bind_done in He as ([[[weak1 w1] ch1]|[r1 ch1]] & l1 & l2 & Hr & He & ->);
    apply (goes_try_send_round o) in Hr; simpl in Hr.
  - eapply goes_trans; [exact Hr|by eapply IH].
  - apply eff_ret_done in He as [[= <- <-] ->]. by rewrite app_nil_r.
Qed.

Lemma goes_try_recv n o str (weak : list bool) ch r ch' l :
  try_recv n weak ch = Done ((r, ch'), l) → goes o (LoadEnd (Receiver str)) ch (after_try_recv str r) ch' l.
Proof.
  intros He. eapply goes_next; [done|done|]. unfold try_recv in He. unfold own_end.
  revert He. generalize (ch_head ch) as w. revert weak ch l.
  induction n as [|n IH]; intros weak ch l w He; [discriminate|]. simpl in He.
  apply eff_bind_done in He as ([[[weak1 w1] ch1]|[r1 ch1]] & l1 & l2 & Hr & He & ->);
    apply (goes_try_recv_round o str) in Hr; simpl in Hr.
  - eapply goes_trans; [exact Hr|by eapply IH].
  - apply eff_ret_done in He as [[= <- <-] ->]. by rewrite app_nil_r.
Qed.

(** ** The operations that wait *)

(** Where a poll leaves the operation. *)
Definition after_send_poll (r : Poll ()) (opt_key : option nat) (msg : option T) : option (Pc T) :=
  match r, msg with
  | Pending, Some msg => Some (if opt_key is Some key then Parked (Sender msg) key else Closed msg)
  | _, _ => None
  end.
Definition after_recv_poll (str : bool) (r : Poll (option T)) (opt_key : option nat) : option (Pc T) :=
  match r, opt_key with
  | Pending, Some key => Some (Parked (Receiver str) key)
  | _, _ => None
  end.

Definition check_pc a key (b : bool) : Pc T := if b then Parked a key else Start a (Some key).
Definition blocked_now a ch : bool :=
  match a with
  | Sender _ => is_full ch && negb (is_disconnected ch)
  | Receiver _ => is_empty ch && negb (is_disconnected ch)
  end.

(** Inserting the waker, and looking again. *)
Lemma goes_insert o a ch key ch1 l :
  insert_key (set_of a) o ch = Done ((key, ch1), l) →
  goes o (Insert a) ch (Some (check_pc a key (blocked_now a ch1))) ch1 l.
Proof.
  intros He. rewrite <- (app_nil_r l). eapply (goes_trans _ _ _ (CheckFirst a key)).
  { apply goes_step; [done|]. simpl. rewrite He. simpl. by rewrite app_nil_r. }
  eapply (goes_next _ _ _ (CheckSecond a key (own_end a ch1))); [done|done|].
  assert (still_blocked a (own_end a ch1) ch1 = if a is Sender _ then is_full ch1 else is_empty ch1) as Hb
    by (by destruct a).
  destruct (still_blocked a (own_end a ch1) ch1) eqn:Hs.
  - eapply (goes_next _ _ _ (CheckDisc a key)); [done|simpl; by rewrite Hs|]. apply goes_step; [done|].
    assert (blocked_now a ch1 = negb (is_disconnected ch1)) as -> by (by destruct a; simpl; rewrite <- Hb).
    simpl. by destruct (is_disconnected ch1).
  - assert (blocked_now a ch1 = false) as -> by (by destruct a; simpl; rewrite <- Hb).
    apply goes_step; [done|]. simpl. by rewrite Hs.
Qed.

Lemma goes_take o a opt_key ch ch1 l :
  take_key (set_of a) opt_key ch = Done (ch1, l) →
  goes o (Start a opt_key) ch (Some (LoadEnd a)) ch1 l.
Proof. intros He. apply goes_step; [done|]. simpl. rewrite He. simpl. by rewrite app_nil_r. Qed.

Lemma goes_SendFuture_poll n o opt_key msg (weak : list bool) ch r opt_key' (msg' : option T) ch' l :
  SendFuture_poll n weak o opt_key (Some msg) ch = Done ((r, opt_key', msg', ch'), l) →
  goes o (Start (Sender msg) opt_key) ch (after_send_poll r opt_key' msg') ch' l.
Proof.
  unfold SendFuture_poll. generalize n at 1. intros m. revert opt_key msg ch l.
  induction n as [|n IH]; intros opt_key msg ch l He; [discriminate|]. cbn [rust_loop] in He.
  apply eff_bind_done in He as (x & l1 & l2 & He & Hx & ->). unfold SendFuture_round in He.
  rewrite unwrap_Some, eff_bind_ret in He.
  apply eff_bind_done in He as (ch1 & l3 & l4 & Htk & He & ->).
  apply eff_bind_done in He as ([r1 ch2] & l5 & l6 & Hts & He & ->).
  apply (goes_take o (Sender msg)) in Htk. apply (goes_try_send _ o) in Hts.
  rewrite <- !app_assoc. eapply goes_trans; [exact Htk|].
  destruct r1 as [u|[m1|m1]].
  - apply eff_ret_done in He as [<- ->]. apply eff_ret_done in Hx as [[= <- <- <- <-] ->].
    by rewrite app_nil_r.
  - simpl in Hts. eapply goes_trans; [exact Hts|].
    apply eff_bind_done in He as ([key ch3] & l7 & l8 & Hi & He & ->).
    apply (goes_insert o (Sender m1)) in Hi. simpl in Hi. rewrite <- app_assoc.
    destruct (is_full ch3 && negb (is_disconnected ch3)); apply eff_ret_done in He as [<- ->]; simpl app.
    + apply eff_ret_done in Hx as [[= <- <- <- <-] ->]. by rewrite app_nil_r.
    + eapply goes_trans; [exact Hi|]. by apply IH.
  - apply eff_ret_done in He as [<- ->]. apply eff_ret_done in Hx as [[= <- <- <- <-] ->].
    by rewrite app_nil_r.
Qed.

Lemma goes_poll_recv n o str opt_key (weak : list bool) ch r opt_key' ch' l :
  poll_recv n weak (set_of (Receiver (T:=T) str)) o opt_key ch = Done ((r, opt_key', ch'), l) →
  goes o (Start (Receiver str) opt_key) ch (after_recv_poll str r opt_key') ch' l.
Proof.
  unfold poll_recv. generalize n at 1. intros m. revert opt_key ch l.
  induction n as [|n IH]; intros opt_key ch l He; [discriminate|]. cbn [rust_loop] in He.
  apply eff_bind_done in He as (x & l1 & l2 & He & Hx & ->). unfold poll_recv_round in He.
  apply eff_bind_done in He as (ch1 & l3 & l4 & Htk & He & ->).
  apply eff_bind_done in He as ([r1 ch2] & l5 & l6 & Hts & He & ->).
  apply (goes_take o (Receiver str)) in Htk. apply (goes_try_recv _ o str) in Hts.
  rewrite <- !app_assoc. eapply goes_trans; [exact Htk|].
  destruct r1 as [u|[]].
  - apply eff_ret_done in He as [<- ->]. apply eff_ret_done in Hx as [[= <- <- <-] ->].
    by rewrite app_nil_r.
  - simpl in Hts. eapply goes_trans; [exact Hts|].
    apply eff_bind_done in He as ([key ch3] & l7 & l8 & Hi & He & ->).
    apply (goes_insert o (Receiver str)) in Hi. simpl blocked_now in Hi. rewrite <- app_assoc.
    destruct (is_empty ch3 && negb (is_disconnected ch3)); apply eff_ret_done in He as [<- ->]; simpl app.
    + apply eff_ret_done in Hx as [[= <- <- <-] ->]. by rewrite app_nil_r.
    + eapply goes_trans; [exact Hi|]. by apply IH.
  - apply eff_ret_done in He as [<- ->]. apply eff_ret_done in Hx as [[= <- <- <-] ->].
    by rewrite app_nil_r.
Qed.

(** ** The handles *)

Lemma goes_quit o ps wk hi ch ch' l :
  goes o Disconnect ch None ch' l → unused o ps hi →
  ∃ hi', rtc step (mkState ch (<[o := Disconnect]> ps) wk hi) (mkState ch' ps (wk ∪ list_to_set l) hi').
Proof.
  intros Hg [Ho _]. destruct (Hg ps wk hi) as [hi' Hs]. exists hi'. simpl in Hs. by rewrite delete_id in Hs.
Qed.

Lemma Sender_drop_runs o ps wk hi ch ch' l :
  unused o ps hi → (0 < sender_count ch)%N → Sender_drop ch = Done (ch', l) →
  ∃ hi', rtc step (mkState ch ps wk hi) (mkState ch' ps (wk ∪ list_to_set l) hi').
Proof.
  intros Hu Hc He. pose proof (step_drop_sender ch ps wk hi o Hu Hc) as Hs. unfold Sender_drop in He.
  destruct (sender_count ch =? 1)%N.
  - destruct (goes_quit o ps wk hi _ ch' l (goes_disconnect o _ _ _ He) Hu) as [hi' Hd].
    exists hi'. by eapply rtc_l.
  - apply eff_ret_done in He as [<- ->]. exists hi. rewrite no_wakes. simpl in Hs.
    rewrite delete_id in Hs by apply Hu. by apply rtc_once.
Qed.

Lemma Receiver_drop_runs o ps wk hi ch ch' l :
  unused o ps hi → (0 < receiver_count ch)%N → Receiver_drop None ch = Done (ch', l) →
  ∃ hi', rtc step (mkState ch ps wk hi) (mkState ch' ps (wk ∪ list_to_set l) hi').
Proof.
  intros Hu Hc He. pose proof (step_drop_receiver ch ps wk hi o Hu Hc) as Hs. unfold Receiver_drop in He.
  cbn [cancel_key] in He. rewrite eff_bind_ret in He. destruct (receiver_count ch =? 1)%N.
  - destruct (goes_quit o ps wk hi _ ch' l (goes_disconnect o _ _ _ He) Hu) as [hi' Hd].
    exists hi'. by eapply rtc_l.
  - apply eff_ret_done in He as [<- ->]. exists hi. rewrite no_wakes. simpl in Hs.
    rewrite delete_id in Hs by apply Hu. by apply rtc_once.
Qed.
End Runs.
