(* ===== verification/ChannelSpec.v ===== *)
(** What the channel guarantees in every interleaving of senders, receivers,
    streams and dropped handles. *)

From stdpp Require Import gmap fin_maps relations.
From S2P Require Import Prelude WakerSet WakerClients Stamps Channel ChannelQueue.
From S2P Require Import ChannelSteps ChannelRing ChannelWake ChannelInv ChannelRuns.

(** * Who attends to a waker set *)

Section Attending.
Context {T WS : Type} `{WakerSetLaws WS nat}.
Implicit Types (ch : Channel WS T) (o : nat) (x : WSet) (a : Agent T) (pc : Pc T)
  (ps : gmap nat (Pc T)) (hi : History T) (s : State (T:=T) (WS:=WS)).

(** Those who are running, or sleep there and have been woken. *)
Definition sleeps_in x pc : bool := if pc is Parked a _ then bool_decide (set_of a = x) else false.
Definition attends x (wk : gset nat) o pc : Prop :=
  active pc = true ∨ sleeps_in x pc = true ∧ o ∈ wk.
#[local] Instance attends_dec x wk o pc : Decision (attends x wk o pc).
Proof. unfold attends. apply _. Defined.
Definition attending x s : gset nat :=
  dom (filter (λ e, attends x (woken s) e.1 e.2) (ops s)).

Lemma attending_in x s o : o ∈ attending x s ↔ ∃ pc, ops s !! o = Some pc ∧ attends x (woken s) o pc.
Proof.
  unfold attending. rewrite elem_of_dom. split.
  - intros [pc Hpc]. apply map_lookup_filter_Some in Hpc as [? ?]. by exists pc.
  - intros (pc & Ho & Ha). exists pc. by apply map_lookup_filter_Some.
Qed.

(** The entries that have been notified, and the operations that own them. *)
Definition notified_keys (m : gmap nat (option nat)) : gset nat := dom m ∖ dom (wakers m).

Lemma notified_keys_in m key : key ∈ notified_keys m ↔ m !! key = Some None.
Proof.
  unfold notified_keys. rewrite elem_of_difference, !elem_of_dom. split.
  - intros [[[w|] Hk] Hn]; [|done]. destruct Hn. exists w. by apply lookup_wakers.
  - intros Hk. split; [by eexists|]. rewrite (wakers_None _ _ Hk). by intros [? ?].
Qed.

Lemma n_notified_size m : n_notified m = size (notified_keys m).
Proof.
  unfold n_notified, notified_keys. rewrite size_difference by apply dom_wakers.
  by rewrite !size_dom.
Qed.

Definition on_the_way x ps : gset nat := dom (omap (λ pc, if responsible x pc then Some () else None) ps).
Definition owners x ps (m : gmap nat (option nat)) : gset nat :=
  dom (filter (λ e, m !! e.2 = Some None) (keys (chan_key x) ps)).

Lemma owners_in x ps m o :
  o ∈ owners x ps m ↔ ∃ pc key, ps !! o = Some pc ∧ chan_key x pc = Some key ∧ m !! key = Some None.
Proof.
  unfold owners. rewrite elem_of_dom. unfold is_Some. setoid_rewrite map_lookup_filter_Some. setoid_rewrite keys_at.
  split.
  - intros (key & Hk & Hm). destruct (ps !! o) as [pc|]; simpl in *; [|done]. by exists pc, key.
  - intros (pc & key & -> & Hk & Hm). by exists key.
Qed.

Lemma on_the_way_in x ps o : o ∈ on_the_way x ps ↔ ∃ pc, ps !! o = Some pc ∧ responsible x pc = true.
Proof.
  unfold on_the_way. rewrite elem_of_dom, lookup_omap. split.
  - intros [u Hu]. destruct (ps !! o) as [pc|]; simpl in *; [|done]. exists pc. by destruct (responsible x pc).
  - intros (pc & -> & Hr). simpl. rewrite Hr. by eexists.
Qed.

Lemma responsible_keyless x pc : responsible x pc = true → chan_key x pc = None ∧ active pc = true.
Proof. destruct pc as [a []| | | | | | | | | | | | | | | |]; simpl; try done. by case_decide. Qed.

Lemma responsible_attending x s : on_the_way x (ops s) ⊆ attending x s.
Proof.
  intros o (pc & Ho & Hr)%on_the_way_in. apply attending_in. exists pc. split; [done|left].
  by apply (responsible_keyless x).
Qed.

Lemma owners_attending x s m :
  tracked (chan_key x) chan_starting (ops s) m (woken s) → owners x (ops s) m ⊆ attending x s.
Proof.
  intros [Hks Hwk] o (pc & key & Ho & Hk & Hm)%owners_in. apply attending_in. exists pc. split; [done|].
  destruct (chan_starting pc) eqn:Hst; [left; by destruct pc|].
  destruct pc as [a []| | | | | | | | | |a key'|a key' w|a key'|a key'| | |]; simpl in Hk; try done;
    try by left. case_decide; [|done]. simplify_eq.
  right. split; [simpl; by case_bool_decide|]. apply (Hwk o key); [|intros pc Hpc; by simplify_eq|done].
  rewrite (keys_lookup _ _ _ _ Ho). simpl. by rewrite decide_True.
Qed.

Lemma notified_owned x ps m wk :
  tracked (chan_key x) chan_starting ps m wk → size (notified_keys m) ≤ size (owners x ps m).
Proof.
  intros [Hks _].
  etrans; [|etrans; [apply (size_of_list ((λ o, default 0 (keys (chan_key x) ps !! o)) <$> elements (owners x ps m)))|]].
  - apply subseteq_size. intros key Hk%notified_keys_in. apply elem_of_list_to_set, list_elem_of_fmap.
    destruct (keys_owner _ _ Hks key) as [o Ho]; [by eexists|]. exists o. rewrite Ho. split; [done|].
    apply elem_of_elements, owners_in. rewrite keys_at in Ho.
    destruct (ps !! o) as [pc|] eqn:Hpc; [|done]. by exists pc, key.
  - by rewrite length_fmap.
Qed.

Lemma count_on_the_way x ps : count (responsible x) ps = size (on_the_way x ps).
Proof. unfold count, on_the_way. by rewrite size_dom. Qed.

(** As many attend to a waker set as have been notified or will notify. *)
Lemma attending_enough x s m :
  tracked (chan_key x) chan_starting (ops s) m (woken s) →
  n_notified m + count (responsible x) (ops s) ≤ size (attending x s).
Proof.
  intros Htr. rewrite n_notified_size, count_on_the_way.
  pose proof (notified_owned _ _ _ _ Htr).
  assert (owners x (ops s) m ## on_the_way x (ops s)) as Hd.
  { intros o (pc & key & Ho & Hk & _)%owners_in (pc' & Ho' & Hr)%on_the_way_in. simplify_eq.
    apply responsible_keyless in Hr as [? _]. congruence. }
  pose proof (owners_attending _ _ _ Htr). pose proof (responsible_attending x s).
  assert (size (owners x (ops s) m ∪ on_the_way x (ops s)) ≤ size (attending x s)) as Hle
    by (apply subseteq_size; set_solver).
  rewrite (size_union _ _ Hd) in Hle. lia.
Qed.
End Attending.

(** * No operation panics *)

Section Total.
Context {T WS : Type} `{WakerSetLaws WS nat}.
Implicit Types (ch : Channel WS T) (o : nat) (x : WSet) (a : Agent T) (pc : Pc T)
  (ps : gmap nat (Pc T)) (hi : History T).

Lemma after_stamp_total k ch hi a w stamp :
  config k ch → own_word k ch hi a w → ∃ pc, after_stamp a w stamp ch = Done (pc, []).
Proof.
  intros Hc Hw. destruct a; simpl in *.
  - destruct Hw as (t & d & -> & _). rewrite marked_lxor, stamp_succ by done. run_on.
    repeat case_match; by eexists.
  - destruct Hw as (t & -> & _). rewrite stamp_succ by done. run_on. repeat case_match; by eexists.
Qed.

Lemma own_word_pos k ch hi a w : config k ch → own_word k ch hi a w → ∃ t, pos_of a w ch = stamp k ch t.
Proof.
  intros Hc Hw. destruct a; simpl in *; [|by destruct Hw as (t & -> & _); exists t].
  destruct Hw as (t & d & -> & _). exists t. by apply marked_lxor.
Qed.

Lemma op_step_total k ch ps wk hi o pc :
  Ring k ch ps hi → in_time k ch hi → WInv ch ps wk hi →
  (N.of_nat (size ps) + 1 < usize_modulus)%N →
  ps !! o = Some pc → active pc = true → ∃ r, op_step o pc ch = Done r.
Proof.
  intros HR Ht HW Hb Ho Hact. pose proof (r_config _ _ _ _ HR) as Hc.
  pose proof (r_op _ _ _ _ HR _ _ Ho) as Hok. pose proof (w_wf _ _ _ _ HW) as Hwf.
  destruct pc as [a [key|]|a|a w|a w|a w|msg w|msg w|str w|str msg w|a|a key|a key w|a key|a key|msg| |fl todo];
    try by eexists.
  - pose proof (tracked_in _ _ _ _ _ _ _ key (w_tracked _ _ _ _ HW (set_of a)) Ho) as Hin.
    destruct (wset_remove_spec key (wakers_of (set_of a) ch) (Hwf _)) as (ws & He & _).
    { apply Hin. simpl. by rewrite decide_True. }
    simpl. rewrite He. by eexists.
  - destruct (own_word_pos k ch hi a w Hc Hok) as [t Hpos].
    destruct (slot_exists k ch Hc t) as [sl Hsl].
    destruct (after_stamp_total k ch hi a w (slot_stamp sl) Hc Hok) as [pc He].
    simpl. rewrite Hpos, slot_at_stamp, Hsl by done. run_on. rewrite He. by eexists.
  - destruct a as [msg|str]; simpl in Hok.
    + destruct Hok as (t & d & -> & _). cbn [op_step]. rewrite exchange_sender by done.
      destruct (_ =? _)%N; by eexists.
    + destruct Hok as (t & -> & _). cbn [op_step]. rewrite exchange_receiver by done.
      destruct (_ =? _)%N; by eexists.
  - destruct (Ring_write k ch ps hi o HR Ht msg w Ho) as (i & d & _ & He & _). by eexists.
  - destruct (Ring_publish k ch ps hi o HR Ht msg w Ho) as (i & d & _ & He & _). by eexists.
  - destruct (Ring_read k ch ps hi o HR Ht str w Ho) as (i & m & _ & He & _). by eexists.
  - destruct (Ring_release k ch ps hi o HR Ht str msg w Ho) as (i & _ & He & _). by eexists.
  - pose proof (tracked_size _ _ _ _ _ (w_tracked _ _ _ _ HW (set_of a))) as Hsz.
    destruct (wset_insert_total o (wakers_of (set_of a) ch) (Hwf _)) as [[[key ws] l] He];
      [unfold cview in Hsz; lia|].
    simpl. unfold insert_key. rewrite He. by eexists.
  - destruct fl, todo as [|[x n] todo]; try by eexists.
    destruct (wset_notify_spec n (wakers_of x ch) (Hwf _)) as (ws & kl & He & _).
    simpl. rewrite He. by eexists.
Qed.

(** Nobody writes or reads a slot: the channel is the queue of the messages
    that have not been taken. *)
Lemma Ring_queue k ch ps hi :
  Ring k ch ps hi → chan_wf ch →
  (∀ o pc, ps !! o = Some pc → writing pc = false ∧ reading pc = false) →
  queue_is k ch (n_taken hi) (drop (length (taken hi)) (sent hi).*2) (is_disconnected ch).
Proof.
  intros HR Hwf Hno. pose proof (r_len _ _ _ _ HR) as Hlen. unfold n_taken, n_sent in *.
  split; [apply HR|done|apply HR| | | |]; rewrite ?length_drop, ?length_fmap.
  - rewrite (r_tail _ _ _ _ HR). f_equal. unfold n_sent. lia.
  - lia.
  - intros i m Hi. rewrite lookup_drop, list_lookup_fmap in Hi.
    destruct (sent hi !! _) as [[o m']|] eqn:Hs; simplify_eq/=.
    destruct (r_used _ _ _ _ HR (N.of_nat (length (taken hi)) + N.of_nat i)%N o m) as [Hh|(pc & Ho & Hw)].
    + unfold sent_at. by rewrite N2Nat.inj_add, !Nat2N.id.
    + unfold n_taken. lia.
    + exact Hh.
    + destruct (Hno o pc Ho). congruence.
  - intros p Hp. destruct (r_free _ _ _ _ HR p) as [Hf|(i & o & pc & _ & _ & Ho & Hr)].
    + unfold n_sent, n_taken. lia.
    + exact Hf.
    + destruct (Hno o pc Ho). congruence.
Qed.
End Total.

(** * The properties *)

Section Theorems.
Context {T WS : Type} `{WakerSetLaws WS nat}.
Implicit Types (s : State (T:=T) (WS:=WS)) (o : nat) (a : Agent T).

(** A receive operation that ends with [None] has just found the channel empty
    and disconnected. *)
Lemma returns_none k s s' o :
  Ring k (chan s) (ops s) (hist s) → in_time k (chan s) (hist s) → step s s' →
  returned (hist s) !! o ≠ Some None → returned (hist s') !! o = Some None →
  n_sent (hist s) = n_taken (hist s) ∧ is_disconnected (chan s) = true.
Proof.
  intros HR Ht Hs Hno Hret.
  destruct Hs as [ch ps wk hi o' pc pc' ch' l Ho Hact He| | | | | | | | |]; simpl in *; try done.
  assert (∃ str w, pc = LoadOther (Receiver str) w ∧ pc' = None) as (str & w & -> & ->).
  { destruct pc as [| | |[]|[]| | | | | | | | | | | |], pc' as [[]|]; simpl in Hret; try done; eauto.
    by apply lookup_insert_Some in Hret as [[_ [=]]|[_ Hret]]. }
  simpl in He. inv_eff. pose proof (r_len _ _ _ _ HR) as Hlen.
  destruct (_ =? w)%N eqn:Hl; [|done]. destruct (negb _) eqn:Hd; [|done].
  pose proof (at_limit_avail k ch' ps hi _ w HR Ht (r_op _ _ _ _ HR _ _ Ho) Hl) as Hav.
  split; [destruct str; simpl in Hav; lia|exact Hd].
Qed.

(** C5 The channel delivers every message once and in order, whatever the
    interleaving and with any number of senders, receivers, streams, spurious
    failures and cancellations (and fewer than [2^62] messages): the order in
    which the tail moves is the order of the messages, never more than the capacity
    are in flight, the receive operation that moves the head for the [i]-th time
    returns the [i]-th message (or is about to read it), none returns anything
    else, and one returns [None] only when the channel is disconnected and every
    message has been taken. *)
Theorem channel_fifo c s :
  (0 < c)%N → (c + 1 ≤ 2 ^ 62)%N → reachable c s →
  (N.of_nat (length (sent (hist s))) + c < 2 ^ 62)%N →
  NoDup (sent (hist s)).*1 ∧ NoDup (taken (hist s)) ∧
  length (taken (hist s)) ≤ length (sent (hist s)) ∧
  (N.of_nat (length (sent (hist s))) ≤ N.of_nat (length (taken (hist s))) + c)%N ∧
  (∀ o m, returned (hist s) !! o = Some (Some m) →
     ∃ i o', taken (hist s) !! i = Some o ∧ sent (hist s) !! i = Some (o', m)) ∧
  (∀ i o, taken (hist s) !! i = Some o →
     (∃ m, returned (hist s) !! o = Some (Some m)) ∨ ∃ str w, ops s !! o = Some (Read str w)) ∧
  (∀ s' o, step s s' → returned (hist s) !! o ≠ Some None → returned (hist s') !! o = Some None →
     is_disconnected (chan s) = true ∧ length (taken (hist s)) = length (sent (hist s))).
Proof.
  intros Hc Hlt Hs Hn. destruct (reachable_inv c s Hc Hlt Hs Hn) as (k & Hcap & Ht & HR & HW).
  pose proof (r_len _ _ _ _ HR) as Hlen. unfold n_sent, n_taken in Hlen. rewrite Hcap in Hlen.
  split_and!; [apply HR|apply HR|lia|lia| | |].
  - intros o m Hm. destruct (r_value _ _ _ _ HR o m Hm) as (i & o' & Hi & Hi'). by exists (N.to_nat i), o'.
  - intros i o Hi. apply (r_pending _ _ _ _ HR (N.of_nat i)). unfold taken_at. by rewrite Nat2N.id.
  - intros s' o Hstep Hno Hret. destruct (returns_none k s s' o HR Ht Hstep Hno Hret) as [He Hd].
    split; [done|]. unfold n_sent, n_taken in He. lia.
Qed.

(** C6 No wakeup of the channel is lost.  While a send future, receive future or
    stream sleeps that has not been woken, as many others as there are free
    slots (for a sender) or messages (for a receiver or stream) are running, or
    sleep in the same waker set and have been woken; and if the channel is
    disconnected somebody is running.  So when all are asleep and there is
    something for them, enough have been woken. *)
Theorem channel_no_lost_wakeup c s o a key :
  (0 < c)%N → (c + 1 ≤ 2 ^ 62)%N → reachable c s →
  (N.of_nat (length (sent (hist s))) + c < 2 ^ 62)%N →
  ops s !! o = Some (Parked a key) → o ∉ woken s →
  N.to_nat (avail (set_of a) c (hist s)) ≤ size (attending (set_of a) s) ∧
  (is_disconnected (chan s) = true → ∃ o' pc, ops s !! o' = Some pc ∧ active pc = true).
Proof.
  intros Hc Hlt Hs Hn Ho Hwk. destruct (reachable_inv c s Hc Hlt Hs Hn) as (k & Hcap & Ht & HR & HW).
  pose proof (w_tracked _ _ _ _ HW (set_of a)) as Htr.
  assert (chan_key (set_of a) (Parked a key) = Some key) as Hk by (simpl; by rewrite decide_True).
  destruct (tracked_entry _ _ _ _ _ _ _ _ Htr Ho Hk eq_refl) as [Hw|]; [|done]. split.
  - etrans; [|by apply (attending_enough _ _ _ Htr)]. rewrite <- Hcap. apply (w_wake _ _ _ _ HW).
    exists o, (Parked a key), key. split_and!; [done|exact Hk|done].
  - intros Hd. destruct (w_disc _ _ _ _ HW (set_of a) Hd) as (o' & fl & todo & Ho' & _); [by exists o, a, key|].
    by exists o', (Notifying fl todo).
Qed.

(** No operation on a channel panics, reads a message that is not there or
    indexes out of the buffer, in any interleaving of fewer than [2^62] messages
    and [2^64] operations; nor does dropping a future that waits. *)
Theorem channel_never_panics c s :
  (0 < c)%N → (c + 1 ≤ 2 ^ 62)%N → reachable c s →
  (N.of_nat (length (sent (hist s))) + c < 2 ^ 62)%N →
  (N.of_nat (size (ops s)) + 1 < usize_modulus)%N →
  (∀ o pc, ops s !! o = Some pc → active pc = true → ∃ r, op_step o pc (chan s) = Done r) ∧
  (∀ o a key, ops s !! o = Some (Parked a key) →
     ∃ r, cancel_key (set_of a) (Some key) (chan s) = Done r).
Proof.
  intros Hc Hlt Hs Hn Hb. destruct (reachable_inv c s Hc Hlt Hs Hn) as (k & Hcap & Ht & HR & HW). split.
  - intros o pc. by eapply op_step_total.
  - intros o a key Ho.
    destruct (tracked_in _ _ _ _ _ _ _ key (w_tracked _ _ _ _ HW (set_of a)) Ho) as [e He];
      [simpl; by rewrite decide_True|].
    destruct (wset_cancel_spec key _ e (w_wf _ _ _ _ HW (set_of a)) He) as (ws & kl & Hx & _).
    simpl. rewrite Hx. by eexists.
Qed.

(** C7 Refinement: in every reachable state in which no operation is between its
    exchange and the store of the stamp, the channel is the abstract bounded
    queue that [channel_queue] specifies: it holds the messages that have been
    sent and not taken, in the order they were sent. *)
Theorem channel_refines_queue c s :
  (0 < c)%N → (c + 1 ≤ 2 ^ 62)%N → reachable c s →
  (N.of_nat (length (sent (hist s))) + c < 2 ^ 62)%N →
  (∀ o pc, ops s !! o = Some pc → writing pc = false ∧ reading pc = false) →
  ∃ k, queue_is k (chan s) (N.of_nat (length (taken (hist s))))
    (drop (length (taken (hist s))) (sent (hist s)).*2) (is_disconnected (chan s)).
Proof.
  intros Hc Hlt Hs Hn Hno. destruct (reachable_inv c s Hc Hlt Hs Hn) as (k & _ & _ & HR & HW).
  exists k. by apply (Ring_queue k _ (ops s)); [|apply HW|].
Qed.

(** The methods of the source, run without interruption, are runs of the atomic
    operations: the polls of send futures, receive futures and streams, spurious
    failures of the exchanges included, and the drops of the handles. *)
Theorem channel_methods_are_steps o ps wk hi ch :
  (∀ n weak msg opt_key r opt_key' msg' ch' l,
     SendFuture_poll n weak o opt_key (Some msg) ch = Done ((r, opt_key', msg', ch'), l) →
     ∃ hi', rtc step (mkState ch (<[o := Start (Sender msg) opt_key]> ps) wk hi)
       (mkState (T:=T) (WS:=WS) ch' (set_op o (after_send_poll r opt_key' msg') ps) (wk ∪ list_to_set l) hi')) ∧
  (∀ n weak (str : bool) opt_key r opt_key' ch' l,
     (if str then Receiver_poll_next n weak o opt_key ch
      else RecvFuture_poll n weak o opt_key ch) = Done ((r, opt_key', ch'), l) →
     ∃ hi', rtc step (mkState ch (<[o := Start (Receiver str) opt_key]> ps) wk hi)
       (mkState ch' (set_op o (after_recv_poll str r opt_key') ps) (wk ∪ list_to_set l) hi')) ∧
  (∀ (sender : bool) ch' l,
     unused o ps hi → (0 < if sender then sender_count ch else receiver_count ch)%N →
     (if sender then Sender_drop ch else Receiver_drop None ch) = Done (ch', l) →
     ∃ hi', rtc step (mkState ch ps wk hi) (mkState ch' ps (wk ∪ list_to_set l) hi')).
Proof.
  split_and!.
  - intros * He. by apply (goes_SendFuture_poll _ _ _ _ _ _ _ _ _ _ _ He).
  - intros n weak str * He. apply (goes_poll_recv n o str opt_key weak). by destruct str.
  - intros [] ch' l Hu Hc He; [by eapply Sender_drop_runs|by eapply Receiver_drop_runs].
Qed.
End Theorems.

(** * Witnesses *)

Abbreviation CWS := (WakerSet (gmap nat (option nat))).
Definition runs (n o : nat) : list (Ev nat) := replicate n (EvRun o).

(** A channel for one message: 1 sends, 2 and 4 find it full and sleep, and 3
    receives the message and wakes 2. *)
Definition busy : list (Ev nat) :=
  EvCall 1 (Sender 7) :: runs 8 1 ++
  EvCall 2 (Sender 8) :: runs 8 2 ++
  EvCall 4 (Sender 9) :: runs 8 4 ++
  EvCall 3 (Receiver false) :: runs 3 3 ++ EvSpurious 3 :: runs 6 3.

Definition busy_state : State (T:=nat) (WS:=CWS) :=
  match with_capacity 1 with
  | Done (ch, _) => default (initial ch) (exec_all busy (initial ch))
  | _ => initial (mkChannel 0 0 [] 0 0 0 WakerSet_new WakerSet_new WakerSet_new 0 0)
  end.

Lemma busy_reachable : reachable 1 busy_state.
Proof.
  eexists. split; [reflexivity|]. apply (chan_exec_all_steps busy). vm_compute. reflexivity.
Qed.

Lemma channel_fifo_witness :
  (∃ i o', taken (hist busy_state) !! i = Some 3 ∧ sent (hist busy_state) !! i = Some (o', 7)).
Proof.
  destruct (channel_fifo 1 busy_state) as (_ & _ & _ & _ & Hv & _);
    [lia|lia|apply busy_reachable|vm_compute; done|]. apply Hv. vm_compute. reflexivity.
Defined.

Lemma channel_no_lost_wakeup_witness :
  avail SendWakers 1 (hist busy_state) = 1%N ∧
  N.to_nat (avail SendWakers 1 (hist busy_state)) ≤ size (attending SendWakers busy_state).
Proof.
  split; [vm_compute; reflexivity|].
  apply (channel_no_lost_wakeup 1 busy_state 2 (Sender 8) 0);
    [lia|lia|apply busy_reachable|vm_compute; done|vm_compute; reflexivity|].
  apply (bool_decide_unpack _). vm_compute. exact I.
Defined.

Lemma channel_never_panics_witness :
  ∃ r, cancel_key SendWakers (Some 1) (chan busy_state) = Done r.
Proof.
  apply (channel_never_panics 1 busy_state) with (o := 4) (a := Sender 9);
    [lia|lia|apply busy_reachable|vm_compute; done|vm_compute; done|vm_compute; reflexivity].
Defined.

Lemma channel_refines_queue_witness :
  ∃ k, queue_is k (chan busy_state) 1 [] false.
Proof.
  destruct (channel_refines_queue 1 busy_state) as [k Hq];
    [lia|lia|apply busy_reachable|vm_compute; done| |by exists k].
  intros o pc Ho. assert (bool_decide (map_Forall (λ _ pc, writing pc = false ∧ reading pc = false) (ops busy_state)))
    as Hall by (vm_compute; exact I).
  by apply bool_decide_unpack in Hall; apply (Hall o).
Defined.

(** The poll of a send on a new channel, the first exchange failing. *)
Lemma channel_methods_are_steps_witness :
  match with_capacity 1 with
  | Done (ch, _) =>
      ∃ ch' hi', rtc step (mkState (T:=nat) (WS:=CWS) ch {[5 := Start (Sender 7) None]} ∅ (mkHistory [] [] ∅))
        (mkState ch' ∅ ∅ hi')
  | _ => False
  end.
Proof.
  set (r := SendFuture_poll 5 [true] 5 None (Some 7)
    (match with_capacity (T:=nat) (WS:=CWS) 1 with Done (ch, _) => ch | _ => mkChannel 0 0 [] 0 0 0 WakerSet_new WakerSet_new WakerSet_new 0 0 end)).
  vm_compute in r. change (with_capacity 1) with (with_capacity (T:=nat) (WS:=CWS) 1).
  assert (∃ ch', r = Done ((Ready tt, None, None, ch'), [])) as [ch' Hr] by (eexists; reflexivity).
  destruct (channel_methods_are_steps (T:=nat) (WS:=CWS) 5 ∅ ∅ (mkHistory [] [] ∅)
    (match with_capacity (T:=nat) (WS:=CWS) 1 with Done (ch, _) => ch | _ => mkChannel 0 0 [] 0 0 0 WakerSet_new WakerSet_new WakerSet_new 0 0 end))
    as [Hs _].
  destruct (Hs 5 [true] 7 None (Ready tt) None None ch' [] Hr) as [hi' Hrtc].
  exists ch', hi'. exact Hrtc.
Defined.
