(* ===== verification/StreamSources.v ===== *)
(** The streams that are made from something else than a stream
    (src/src/stream/*.rs), with what they yield. *)

From S2P Require Import Prelude Async StreamAdapters.
Local Open Scope async_scope.

(** * Parameters: iterators and timers *)

(** [std::iter::Iterator]. *)
Class Iterator (I A : Type) : Type := iter_next : I → option A * I.
#[global] Hint Mode Iterator ! - : typeclass_instances.

(** [std::vec::IntoIter]. *)
#[global] Instance list_Iterator (A : Type) : Iterator (list A) A := λ l,
  match l with a :: l => (Some a, l) | [] => (None, []) end.

(** [iterates i l i']: [next] gives the items [l] and then [None]. *)
Inductive iterates `{Iterator It A} : It → list A → It → Prop :=
| iterates_nil i i' : iter_next i = (None, i') → iterates i [] i'
| iterates_cons i a i1 l i' :
    iter_next i = (Some a, i1) → iterates i1 l i' → iterates i (a :: l) i'.

(** [futures_timer::Delay], a future, together with the clock that
    [Instant::now] reads.  Instants and durations count nanoseconds. *)
Class Timer (D : Type) : Type := {
#[global] timer_Future :: Future D ();
timer_new : N → D;
timer_reset : D → N → D;
timer_now : D → N * D
}.
#[global] Hint Mode Timer ! : typeclass_instances.

(** * The streams *)

(** ** empty.rs *)

Record Empty (T : Type) : Type := mkEmpty {}.
Arguments mkEmpty {T}.
Definition empty {T : Type} : Empty T := mkEmpty.
Definition Empty_poll_next {T : Type} (fuel : nat) (this : Empty T) :
    Eff (Poll (option T) * Empty T) := mret (Ready None, this).
#[global] Instance Empty_Stream {T : Type} : Stream (Empty T) T := Empty_poll_next.

(** ** once.rs *)

Record Once (T : Type) : Type := mkOnce { once_value : option T }.
Arguments mkOnce {T}.
Arguments once_value {T}.
Definition once {T : Type} (t : T) : Once T := mkOnce (Some t).
Definition Once_poll_next {T : Type} (fuel : nat) (this : Once T) :
    Eff (Poll (option T) * Once T) := mret (Ready (once_value this), mkOnce None).
#[global] Instance Once_Stream {T : Type} : Stream (Once T) T := Once_poll_next.

(** ** repeat.rs *)

Record Repeat (T : Type) : Type := mkRepeat { repeat_item : T }.
Arguments mkRepeat {T}.
Arguments repeat_item {T}.
Definition repeat {T : Type} (item : T) : Repeat T := mkRepeat item.
Definition Repeat_poll_next `{Clone T} (fuel : nat) (this : Repeat T) :
    Eff (Poll (option T) * Repeat T) := mret (Ready (Some (clone (repeat_item this))), this).
#[global] Instance Repeat_Stream `{Clone T} : Stream (Repeat T) T := Repeat_poll_next.

(** ** repeat_with.rs *)

Record RepeatWith (F : Type) : Type := mkRepeatWith { repeat_with_f : F }.
Arguments mkRepeatWith {F}.
Arguments repeat_with_f {F}.
Definition repeat_with {F : Type} (repeater : F) : RepeatWith F := mkRepeatWith repeater.
Definition RepeatWith_poll_next `{FnMut F () T} (fuel : nat) (this : RepeatWith F) :
    Eff (Poll (option T) * RepeatWith F) :=
  let '(item, f) := call_mut (repeat_with_f this) () in
  mret (Ready (Some item), mkRepeatWith f).
#[global] Instance RepeatWith_Stream `{FnMut F () T} : Stream (RepeatWith F) T :=
  RepeatWith_poll_next.

(** ** from_fn.rs *)

Record FromFn (F : Type) : Type := mkFromFn { from_fn_f : F }.
Arguments mkFromFn {F}.
Arguments from_fn_f {F}.
Definition from_fn {F : Type} (f : F) : FromFn F := mkFromFn f.
Definition FromFn_poll_next `{FnMut F () (option T)} (fuel : nat) (this : FromFn F) :
    Eff (Poll (option T) * FromFn F) :=
  let '(item, f) := call_mut (from_fn_f this) () in mret (Ready item, mkFromFn f).
#[global] Instance FromFn_Stream `{FnMut F () (option T)} : Stream (FromFn F) T :=
  FromFn_poll_next.

(** ** from_iter.rs *)

Record FromIter (It : Type) : Type := mkFromIter { from_iter_iter : It }.
Arguments mkFromIter {It}.
Arguments from_iter_iter {It}.
Definition from_iter {It : Type} (iter : It) : FromIter It := mkFromIter iter.
Definition FromIter_poll_next `{Iterator It A} (fuel : nat) (this : FromIter It) :
    Eff (Poll (option A) * FromIter It) :=
  let '(item, iter) := iter_next (from_iter_iter this) in mret (Ready item, mkFromIter iter).
#[global] Instance FromIter_Stream `{Iterator It A} : Stream (FromIter It) A :=
  FromIter_poll_next.

(** ** successors.rs *)

Record Successors (F T : Type) : Type := mkSuccessors { succ_succ : F; succ_slot : option T }.
Arguments mkSuccessors {F T}.
Arguments succ_succ {F T}.
Arguments succ_slot {F T}.
Definition successors {F T : Type} (first : option T) (succ : F) : Successors F T :=
  mkSuccessors succ first.
Definition Successors_poll_next `{FnMut F T (option T)} (fuel : nat) (this : Successors F T) :
    Eff (Poll (option T) * Successors F T) :=
  match succ_slot this with
  | None => mret (Ready None, this)
  | Some cur =>
      let '(next, f) := call_mut (B:=option T) (succ_succ this) cur in
      let '(slot, next) := (next, succ_slot this) in      (* mem::swap *)
      mret (Ready next, mkSuccessors f slot)
  end.
#[global] Instance Successors_Stream `{FnMut F T (option T)} : Stream (Successors F T) T :=
  Successors_poll_next.

(** ** interval.rs *)

Section Interval.
Local Open Scope N_scope.
Context {D : Type} `{Timer D}.

Record Interval : Type := mkInterval { interval_delay : D; interval_interval : N }.

Definition interval (dur : N) : Interval := mkInterval (timer_new dur) dur.

(** A [Duration] has 64 bits of seconds: what does not fit in a [u64] of
    nanoseconds is [None]. *)
Definition duration_to_nanos (dur : N) : option N :=
  if dur <? usize_modulus then Some dur else None.

Definition next_interval (prev now interval : N) : Eff N :=
  let new := prev + interval in
  if now <? new then mret new
  else
    spent_ns ← unwrap (duration_to_nanos (now - prev));
    interval_ns ← unwrap (duration_to_nanos interval);
    if interval_ns =? 0 then eff_panic        (* division by zero *)
    else
      mult ← usize_add (spent_ns / interval_ns) 1;
      if mult <? 2 ^ 32 then mret (prev + interval * mult) else eff_panic.

Definition Interval_poll_next (fuel : nat) (this : Interval) : Eff (Poll (option ()) * Interval) :=
  '(r, delay) ← poll fuel (interval_delay this);
  match r with
  | Pending => mret (Pending, mkInterval delay (interval_interval this))
  | Ready _ =>
      let '(when, delay) := timer_now delay in
      let '(now, delay) := timer_now delay in
      next ← next_interval when now (interval_interval this);
      mret (Ready (Some ()), mkInterval (timer_reset delay next) (interval_interval this))
  end.
#[global] Instance Interval_Stream : Stream Interval () := Interval_poll_next.
End Interval.
Arguments Interval : clear implicits.

(** * Laws *)

(** A source that is never pending keeps the contract of wakers. *)
Ltac solve_never_pending :=
  let n := fresh "n" in let w := fresh "w" in let Hp := fresh "Hp" in
  intros n ? ? w Hp; open_poll_in Hp; repeat case_match; by inv_eff.

#[global] Instance Empty_mono {T} : StreamMono (Empty T).
Proof. solve_mono. Qed.
#[global] Instance Empty_wakes {T} : StreamWakes (Empty T).
Proof. solve_never_pending. Qed.
#[global] Instance Once_mono {T} : StreamMono (Once T).
Proof. solve_mono. Qed.
#[global] Instance Once_wakes {T} : StreamWakes (Once T).
Proof. solve_never_pending. Qed.
#[global] Instance Repeat_mono `{Clone T} : StreamMono (Repeat T).
Proof. solve_mono. Qed.
#[global] Instance Repeat_wakes `{Clone T} : StreamWakes (Repeat T).
Proof. solve_never_pending. Qed.
#[global] Instance RepeatWith_mono `{FnMut F () T} : StreamMono (RepeatWith F).
Proof. solve_mono. Qed.
#[global] Instance RepeatWith_wakes `{FnMut F () T} : StreamWakes (RepeatWith F).
Proof. solve_never_pending. Qed.
#[global] Instance FromFn_mono `{FnMut F () (option T)} : StreamMono (FromFn F).
Proof. solve_mono. Qed.
#[global] Instance FromFn_wakes `{FnMut F () (option T)} : StreamWakes (FromFn F).
Proof. solve_never_pending. Qed.
#[global] Instance FromIter_mono `{Iterator It A} : StreamMono (FromIter It).
Proof. solve_mono. Qed.
#[global] Instance FromIter_wakes `{Iterator It A} : StreamWakes (FromIter It).
Proof. solve_never_pending. Qed.
#[global] Instance Successors_mono `{FnMut F T (option T)} : StreamMono (Successors F T).
Proof. solve_mono. Qed.
#[global] Instance Successors_wakes `{FnMut F T (option T)} : StreamWakes (Successors F T).
Proof. solve_never_pending. Qed.
#[global] Instance Interval_mono `{Timer D} `{!FutureMono D} : StreamMono (Interval D).
Proof. solve_mono. Qed.
#[global] Instance Interval_wakes `{Timer D} `{!FutureWakes D} : StreamWakes (Interval D).
Proof. solve_wakes. Qed.

(** * What they yield *)

Section Yields.
Lemma Empty_yields {T} : yields (empty (T:=T)) [].
Proof. eapply yields_nil, until_ready_now with (n:=0). reflexivity. Qed.

Lemma Once_yields {T} (t : T) : yields (once t) [t].
Proof.
  eapply yields_cons; [by eapply until_ready_now with (n:=0)|].
  eapply yields_nil. by eapply until_ready_now with (n:=0).
Qed.

Lemma Repeat_pulls `{Clone T} (t : T) : pulls (repeat t) (Some (clone t)) (repeat t).
Proof. by eapply until_ready_now with (n:=0). Qed.

Lemma RepeatWith_pulls `{FnMut F () T} (f f' : F) t :
  call_mut f () = (t, f') → pulls (repeat_with f) (Some t) (repeat_with f').
Proof.
  intros Hc. eapply until_ready_now with (n:=0). open_poll. simpl. by rewrite Hc.
Qed.

Lemma FromFn_pulls `{FnMut F () (option T)} (f f' : F) o :
  call_mut f () = (o, f') → pulls (from_fn f) o (from_fn f').
Proof.
  intros Hc. eapply until_ready_now with (n:=0). open_poll. simpl. by rewrite Hc.
Qed.

Lemma FromIter_pulls `{Iterator It A} (i i' : It) o :
  iter_next i = (o, i') → pulls (from_iter i) o (from_iter i').
Proof.
  intros Hc. eapply until_ready_now with (n:=0). open_poll. simpl. by rewrite Hc.
Qed.

Lemma FromIter_drains `{Iterator It A} (i i' : It) l :
  iterates i l i' → drains (from_iter i) l (from_iter i').
Proof.
  induction 1 as [i i' Hi|i a i1 l i' Hi Hl IH]; [by apply drains_nil, FromIter_pulls|].
  by eapply drains_cons; [apply FromIter_pulls|].
Qed.

Lemma list_iterates {A} (l : list A) : iterates l l [].
Proof. induction l; [by apply iterates_nil|by eapply iterates_cons]. Qed.

(** A stream over a vector yields its elements. *)
Lemma from_list_drains {A} (l : list A) : drains (from_iter l) l (from_iter []).
Proof. apply FromIter_drains, list_iterates. Qed.
Lemma from_list_yields {A} (l : list A) : yields (from_iter l) l.
Proof. apply yields_drains. eexists. apply from_list_drains. Qed.

(** [first], [succ(first)], [succ(succ(first))], and so on. *)
Lemma Successors_pulls `{FnMut F T (option T)} (f f' : F) t o :
  call_mut f t = (o, f') → pulls (successors (Some t) f) (Some t) (successors o f').
Proof.
  intros Hc. eapply until_ready_now with (n:=0). open_poll. simpl. by rewrite Hc.
Qed.
Lemma Successors_end `{FnMut F T (option T)} (f : F) :
  pulls (successors None f) None (successors None f).
Proof. by eapply until_ready_now with (n:=0). Qed.
End Yields.

(** * The next tick of an interval *)

Section NextInterval.
Local Open Scope N_scope.

(** A tick lies in the future, a whole number of intervals after the previous
    one, and is the first such instant. *)
Lemma next_interval_first prev now interval next l :
  prev <= now → next_interval prev now interval = Done (next, l) →
  l = [] ∧ now < next ∧ ∃ k, 1 <= k ∧ next = prev + interval * k ∧ prev + interval * (k - 1) <= now.
Proof.
  intros Hle Hn. unfold next_interval in Hn.
  destruct (N.ltb_spec now (prev + interval)) as [Hlt|Hge].
  { apply eff_ret_done in Hn as [<- ->]. split_and!; [done|done|]. exists 1. lia. }
  unfold duration_to_nanos in Hn.
  destruct (now - prev <? usize_modulus); simpl in Hn; [|done].
  destruct (interval <? usize_modulus); simpl in Hn; [|done].
  destruct (N.eqb_spec interval 0) as [|Hnz]; simpl in Hn; [done|].
  destruct (usize_add ((now - prev) / interval) 1) as [[mult w]| |] eqn:Hm; simpl in Hn; try done.
  apply usize_add_done in Hm as [-> ->].
  destruct (_ <? 2 ^ 32); simpl in Hn; [|done]. simplify_eq.
  pose proof (N.div_mod (now - prev) interval Hnz) as Hdm.
  pose proof (N.mod_lt (now - prev) interval Hnz) as Hml.
  set (q := (now - prev) / interval) in *. set (r := (now - prev) mod interval) in *.
  split_and!; [done|rewrite N.mul_add_distr_l; lia|].
  exists (q + 1). split_and!; [lia|done|]. replace (q + 1 - 1) with q by lia. lia.
Qed.

(** It does not panic when the interval is not zero and less than 2^32
    intervals (and 2^64 nanoseconds) have gone by. *)
Lemma next_interval_total prev now interval :
  prev <= now → interval ≠ 0 → interval < usize_modulus → now - prev < usize_modulus →
  (now - prev) / interval + 1 < 2 ^ 32 →
  ∃ next, next_interval prev now interval = Done (next, []).
Proof.
  intros Hle Hnz Hi Hd Hm. unfold next_interval.
  destruct (now <? prev + interval); [by eexists|]. unfold duration_to_nanos.
  rewrite (proj2 (N.ltb_lt _ _) Hd), (proj2 (N.ltb_lt _ _) Hi). simpl.
  rewrite (proj2 (N.eqb_neq _ _) Hnz). rewrite usize_add_ok.
  - simpl. rewrite (proj2 (N.ltb_lt _ _) Hm). by eexists.
  - unfold usize_modulus, usize_bits. lia.
Qed.
End NextInterval.

(** * A stream to try the others on *)

(** What successive polls answer; a pending poll wakes the task at once. *)
Record Script (A : Type) : Type := mkScript { script_polls : list (Poll A) }.
Arguments mkScript {A}.
Arguments script_polls {A}.

Definition Script_poll_next {A : Type} (fuel : nat) (this : Script A) :
    Eff (Poll (option A) * Script A) :=
  match script_polls this with
  | [] => mret (Ready None, this)
  | Ready a :: l => mret (Ready (Some a), mkScript l)
  | Pending :: l => _ ← wake_by_ref; mret (Pending, mkScript l)
  end.
#[global] Instance Script_Stream {A : Type} : Stream (Script A) A := Script_poll_next.

(** The items it yields. *)
Fixpoint script_items {A : Type} (l : list (Poll A)) : list A :=
  match l with
  | [] => []
  | Ready a :: l => a :: script_items l
  | Pending :: l => script_items l
  end.

#[global] Instance Script_mono {A : Type} : StreamMono (Script A).
Proof. solve_mono. Qed.
#[global] Instance Script_wakes {A : Type} : StreamWakes (Script A).
Proof. solve_wakes. Qed.

Lemma Script_drains {A : Type} (l : list (Poll A)) :
  drains (mkScript l) (script_items l) (mkScript []).
Proof.
  induction l as [|[a|] l IH]; simpl.
  - apply drains_nil. by eapply until_ready_now with (n := 0).
  - eapply drains_cons; [|exact IH]. by eapply until_ready_now with (n := 0).
  - assert (∀ o t, pulls (mkScript l) o t → pulls (mkScript (Pending :: l)) o t) as Hp
      by (intros o t Ht; by eapply until_ready_later with (n := 0)).
    inversion IH as [? ? Hq|? ? ? ? ? Hq Hr]; subst;
      [by apply drains_nil, Hp|by eapply drains_cons; [apply Hp|]].
Qed.
Lemma Script_yields {A : Type} (l : list (Poll A)) : yields (mkScript l) (script_items l).
Proof. apply yields_drains. eexists. apply Script_drains. Qed.
