(* ===== verification/StreamCombine.v ===== *)
(** Streams made from other streams: chain, zip, flatten, flat_map, cycle,
    merge, delay, throttle and timeout (src/src/stream/stream/*.rs).  [merge] tosses
    its coin with the random numbers of Utils.v. *)

From S2P Require Import Prelude Utils Async StreamAdapters StreamSources.
Local Open Scope async_scope.

(** * The combinators *)

(** ** chain.rs *)

Record Chain (St U : Type) : Type := mkChain { chain_first : Fuse St; chain_second : Fuse U }.
Arguments mkChain {St U}.
Arguments chain_first {St U}.
Arguments chain_second {St U}.

Definition Chain_new {St U : Type} (first : St) (second : U) : Chain St U :=
  mkChain (Fuse_new first) (Fuse_new second).

(** The part of [poll_next] after the first stream is done with. *)
Definition Chain_poll_second `{Stream U A} {St : Type} (fuel : nat) (this : Chain St U) :
    Eff (Poll (option A) * Chain St U) :=
  let finish (this : Chain St U) : Eff (Poll (option A) * Chain St U) :=
    if fuse_done (chain_first this) && fuse_done (chain_second this)
    then mret (Ready None, this) else mret (Pending, this) in
  if negb (fuse_done (chain_second this)) then
    '(next, second) ← poll_next fuel (chain_second this);
    let this := mkChain (chain_first this) second in
    ready! next := next else mret (Pending, this) in
    match next with
    | Some next => mret (Ready (Some next), this)
    | None => finish this
    end
  else finish this.

Definition Chain_poll_next `{Stream St A} `{Stream U A} (fuel : nat) (this : Chain St U) :
    Eff (Poll (option A) * Chain St U) :=
  if negb (fuse_done (chain_first this)) then
    '(next, first) ← poll_next fuel (chain_first this);
    let this := mkChain first (chain_second this) in
    ready! next := next else mret (Pending, this) in
    match next with
    | Some next => mret (Ready (Some next), this)
    | None => Chain_poll_second fuel this
    end
  else Chain_poll_second fuel this.
#[global] Instance Chain_Stream `{Stream St A} `{Stream U A} : Stream (Chain St U) A :=
  Chain_poll_next.

(** ** zip.rs *)

Record Zip (St U A : Type) : Type := mkZip {
  zip_item_slot : option A; zip_first : St; zip_second : U }.
Arguments mkZip {St U A}.
Arguments zip_item_slot {St U A}.
Arguments zip_first {St U A}.
Arguments zip_second {St U A}.

Definition Zip_new {St U A : Type} (first : St) (second : U) : Zip St U A :=
  mkZip None first second.

(** The part of [poll_next] that polls the second stream. *)
Definition Zip_poll_second `{Stream U B} {St A : Type} (fuel : nat) (this : Zip St U A) :
    Eff (Poll (option (A * B)) * Zip St U A) :=
  '(second_item, second) ← poll_next fuel (zip_second this);
  ready! second_item := second_item
    else mret (Pending, mkZip (zip_item_slot this) (zip_first this) second) in
  first_item ← unwrap (zip_item_slot this);
  mret (Ready (option_map (pair first_item) second_item),
        mkZip None (zip_first this) second).

Definition Zip_poll_next `{Stream St A} `{Stream U B} (fuel : nat) (this : Zip St U A) :
    Eff (Poll (option (A * B)) * Zip St U A) :=
  match zip_item_slot this with
  | None =>
      '(next, first) ← poll_next fuel (zip_first this);
      match next with
      | Pending => mret (Pending, mkZip None first (zip_second this))
      | Ready None => mret (Ready None, mkZip None first (zip_second this))
      | Ready (Some item) => Zip_poll_second fuel (mkZip (Some item) first (zip_second this))
      end
  | Some _ => Zip_poll_second fuel this
  end.
#[global] Instance Zip_Stream `{Stream St A} `{Stream U B} : Stream (Zip St U A) (A * B) :=
  Zip_poll_next.

(** ** flatten.rs, flat_map.rs *)

(** [crate::stream::IntoStream]; a stream is its own [into_stream]. *)
Class IntoStream (I U : Type) : Type := into_stream : I → U.
#[global] Hint Mode IntoStream ! - : typeclass_instances.
Definition stream_IntoStream (U : Type) : IntoStream U U := λ u, u.

(** One round of the loop of both. *)
Definition flatten_round {St I U A : Type} `{Stream St I} `{!IntoStream I U} `{Stream U A}
    (fuel : nat) (this : St * option U) :
    Eff (St * option U + (Poll (option A) * (St * option U))) :=
  let '(stream, inner_stream) := this in
  let outer (inner_stream : option U) : Eff (St * option U + (Poll (option A) * (St * option U))) :=
    '(next, stream) ← poll_next fuel stream;
    ready! next := next else mret (inr (Pending, (stream, inner_stream))) in
    match next with
    | None => mret (inr (Ready None, (stream, inner_stream)))
    | Some inner => mret (inl (stream, Some (into_stream inner)))
    end in
  match inner_stream with
  | Some inner =>
      '(item, inner) ← poll_next fuel inner;
      ready! item := item else mret (inr (Pending, (stream, Some inner))) in
      match item with
      | Some _ => mret (inr (Ready item, (stream, Some inner)))
      | None => outer (Some inner)
      end
  | None => outer None
  end.

Record Flatten (St U : Type) : Type := mkFlatten {
  flatten_stream : St; flatten_inner_stream : option U }.
Arguments mkFlatten {St U}.
Arguments flatten_stream {St U}.
Arguments flatten_inner_stream {St U}.

Definition Flatten_new {St U : Type} (stream : St) : Flatten St U := mkFlatten stream None.

Definition Flatten_poll_next {St I U A : Type} `{Stream St I} `{!IntoStream I U} `{Stream U A}
    (fuel : nat) (this : Flatten St U) : Eff (Poll (option A) * Flatten St U) :=
  '(r, (stream, inner)) ←
    loop_poll flatten_round fuel (flatten_stream this, flatten_inner_stream this);
  mret (r, mkFlatten stream inner).
#[global] Instance Flatten_Stream {St I U A : Type} `{Stream St I} `{!IntoStream I U} `{Stream U A} :
  Stream (Flatten St U) A := Flatten_poll_next.

Record FlatMap (St U F : Type) : Type := mkFlatMap {
  flat_map_stream : Map St F; flat_map_inner_stream : option U }.
Arguments mkFlatMap {St U F}.
Arguments flat_map_stream {St U F}.
Arguments flat_map_inner_stream {St U F}.

Definition FlatMap_new {St U F : Type} (stream : St) (f : F) : FlatMap St U F :=
  mkFlatMap (Map_new stream f) None.

Definition FlatMap_poll_next {St I J U F A : Type} `{Stream St I} `{FnMut F I J}
    `{!IntoStream J U} `{Stream U A} (fuel : nat) (this : FlatMap St U F) :
    Eff (Poll (option A) * FlatMap St U F) :=
  '(r, (stream, inner)) ←
    loop_poll flatten_round fuel (flat_map_stream this, flat_map_inner_stream this);
  mret (r, mkFlatMap stream inner).
#[global] Instance FlatMap_Stream {St I J U F A : Type} `{Stream St I} `{FnMut F I J}
    `{!IntoStream J U} `{Stream U A} : Stream (FlatMap St U F) A := FlatMap_poll_next.

(** ** cycle.rs *)

Record Cycle (St : Type) : Type := mkCycle { cycle_orig : St; cycle_source : St }.
Arguments mkCycle {St}.
Arguments cycle_orig {St}.
Arguments cycle_source {St}.

Definition Cycle_new `{Clone St} (source : St) : Cycle St := mkCycle (clone source) source.

Definition Cycle_poll_next `{Stream St A} `{Clone St} (fuel : nat) (this : Cycle St) :
    Eff (Poll (option A) * Cycle St) :=
  '(next, source) ← poll_next fuel (cycle_source this);
  ready! next := next else mret (Pending, mkCycle (cycle_orig this) source) in
  match next with
  | Some item => mret (Ready (Some item), mkCycle (cycle_orig this) source)
  | None =>
      let source := clone (cycle_orig this) in
      '(next, source) ← poll_next fuel source;
      mret (next, mkCycle (cycle_orig this) source)
  end.
#[global] Instance Cycle_Stream `{Stream St A} `{Clone St} : Stream (Cycle St) A :=
  Cycle_poll_next.

(** ** merge.rs *)

(** The last field is the state of the thread's random number generator. *)
Record Merge (L R : Type) : Type := mkMerge {
  merge_left : Fuse L; merge_right : Fuse R; merge_rng : N }.
Arguments mkMerge {L R}.
Arguments merge_left {L R}.
Arguments merge_right {L R}.
Arguments merge_rng {L R}.

Definition Merge_new {L R : Type} (lft : L) (rgt : R) (rng : N) : Merge L R :=
  mkMerge (Fuse_new lft) (Fuse_new rgt) rng.

Definition poll_next_in_order `{Stream F A} `{Stream G A} (fuel : nat) (first : F) (second : G) :
    Eff (Poll (option A) * F * G) :=
  '(r, first) ← poll_next fuel first;
  match r with
  | Ready None => '(r, second) ← poll_next fuel second; mret (r, first, second)
  | Ready item => mret (Ready item, first, second)
  | Pending =>
      '(r, second) ← poll_next fuel second;
      match r with
      | Ready None | Pending => mret (Pending, first, second)
      | Ready item => mret (Ready item, first, second)
      end
  end.

Definition Merge_poll_next `{Stream L A} `{Stream R A} (fuel : nat) (this : Merge L R) :
    Eff (Poll (option A) * Merge L R) :=
  let '(coin, rng) := random 2 (merge_rng this) in
  if (coin =? 0)%N then
    '(r, lft, rgt) ← poll_next_in_order fuel (merge_left this) (merge_right this);
    mret (r, mkMerge lft rgt rng)
  else
    '(r, rgt, lft) ← poll_next_in_order fuel (merge_right this) (merge_left this);
    mret (r, mkMerge lft rgt rng).
#[global] Instance Merge_Stream `{Stream L A} `{Stream R A} : Stream (Merge L R) A :=
  Merge_poll_next.

(** ** delay.rs *)

Record Delay (St D : Type) : Type := mkDelay {
  delay_stream : St; delay_delay : D; delay_delay_done : bool }.
Arguments mkDelay {St D}.
Arguments delay_stream {St D}.
Arguments delay_delay {St D}.
Arguments delay_delay_done {St D}.

Definition Delay_new {St D : Type} `{Timer D} (stream : St) (dur : N) : Delay St D :=
  mkDelay stream (timer_new dur) false.

Definition Delay_poll_next {St D A : Type} `{Stream St A} `{Timer D} (fuel : nat)
    (this : Delay St D) : Eff (Poll (option A) * Delay St D) :=
  let poll_stream (this : Delay St D) : Eff (Poll (option A) * Delay St D) :=
    '(r, stream) ← poll_next fuel (delay_stream this);
    mret (r, mkDelay stream (delay_delay this) (delay_delay_done this)) in
  if negb (delay_delay_done this) then
    '(r, delay) ← poll fuel (delay_delay this);
    ready! _ := r else mret (Pending, mkDelay (delay_stream this) delay false) in
    poll_stream (mkDelay (delay_stream this) delay true)
  else poll_stream this.
#[global] Instance Delay_Stream {St D A : Type} `{Stream St A} `{Timer D} : Stream (Delay St D) A :=
  Delay_poll_next.

(** ** throttle.rs *)

Record Throttle (St D : Type) : Type := mkThrottle {
  throttle_stream : St; throttle_duration : N; throttle_blocked : bool; throttle_delay : D }.
Arguments mkThrottle {St D}.
Arguments throttle_stream {St D}.
Arguments throttle_duration {St D}.
Arguments throttle_blocked {St D}.
Arguments throttle_delay {St D}.

Definition Throttle_new {St D : Type} `{Timer D} (stream : St) (duration : N) : Throttle St D :=
  mkThrottle stream duration false (timer_new 0).

(** [poll_next] once the delay has passed. *)
Definition Throttle_poll_stream {St D A : Type} `{Stream St A} `{Timer D} (fuel : nat)
    (this : Throttle St D) : Eff (Poll (option A) * Throttle St D) :=
  '(r, stream) ← poll_next fuel (throttle_stream this);
  let duration := throttle_duration this in
  let delay := throttle_delay this in
  match r with
  | Pending => mret (Pending, mkThrottle stream duration (throttle_blocked this) delay)
  | Ready None => mret (Ready None, mkThrottle stream duration (throttle_blocked this) delay)
  | Ready (Some v) =>
      let '(now, delay) := timer_now delay in
      mret (Ready (Some v),
            mkThrottle stream duration true (timer_reset delay (now + duration)%N))
  end.
Definition Throttle_poll_next {St D A : Type} `{Stream St A} `{Timer D} (fuel : nat)
    (this : Throttle St D) : Eff (Poll (option A) * Throttle St D) :=
  if throttle_blocked this then
    '(r, d) ← poll fuel (throttle_delay this);
    match r with
    | Ready _ =>
        Throttle_poll_stream fuel (mkThrottle (throttle_stream this) (throttle_duration this) false d)
    | Pending =>
        mret (Pending, mkThrottle (throttle_stream this) (throttle_duration this) true d)
    end
  else Throttle_poll_stream fuel this.
#[global] Instance Throttle_Stream {St D A : Type} `{Stream St A} `{Timer D} :
  Stream (Throttle St D) A := Throttle_poll_next.

(** ** timeout.rs *)

Inductive TimeoutError : Type := mkTimeoutError.

Record Timeout (St D : Type) : Type := mkTimeout { timeout_stream : St; timeout_delay : D }.
Arguments mkTimeout {St D}.
Arguments timeout_stream {St D}.
Arguments timeout_delay {St D}.

Definition Timeout_new {St D : Type} `{Timer D} (stream : St) (dur : N) : Timeout St D :=
  mkTimeout stream (timer_new dur).

Definition Timeout_poll_next {St D A : Type} `{Stream St A} `{Timer D} (fuel : nat)
    (this : Timeout St D) : Eff (Poll (option (Result A TimeoutError)) * Timeout St D) :=
  '(r, stream) ← poll_next fuel (timeout_stream this);
  match r with
  | Ready (Some v) => mret (Ready (Some (Ok v)), mkTimeout stream (timeout_delay this))
  | Ready None => mret (Ready None, mkTimeout stream (timeout_delay this))
  | Pending =>
      '(r, delay) ← poll fuel (timeout_delay this);
      match r with
      | Ready _ => mret (Ready (Some (Err mkTimeoutError)), mkTimeout stream delay)
      | Pending => mret (Pending, mkTimeout stream delay)
      end
  end.
#[global] Instance Timeout_Stream {St D A : Type} `{Stream St A} `{Timer D} :
  Stream (Timeout St D) (Result A TimeoutError) := Timeout_poll_next.
