(* ===== verification/StreamCombineSpec.v ===== *)
(** The combinators of StreamCombine.v keep the laws of streams, and what they
    yield in terms of what the streams they are made from yield. *)

From S2P Require Import Prelude Utils Async StreamAdapters StreamAdaptersSpec StreamSources StreamCombine.
Local Open Scope async_scope.

(** * Laws *)

Lemma Fuse_ends `{Stream St A} n (f f' : Fuse St) w :
  poll_next n f = Done ((Ready None, f'), w) → fuse_done f' = true.
Proof. intros Hp. open_poll_in Hp. inv_eff; done. Qed.

#[global] Instance Chain_mono `{Stream St A} `{Stream U A} `{!StreamMono St} `{!StreamMono U} :
  StreamMono (Chain St U).
Proof.
  intros s. change (fuel_mono (λ n, Chain_poll_next n s)).
  unfold Chain_poll_next, Chain_poll_second. solve_fuel_mono.
Qed.

Lemma Chain_second_wakes `{Stream U A} `{!StreamWakes U} {St} n (s s' : Chain St U) w :
  fuse_done (chain_first s) = true →
  Chain_poll_second n s = Done ((Pending, s'), w) → w ≠ [].
Proof.
  intros Hd Hp. unfold Chain_poll_second in Hp.
  destruct (fuse_done (chain_second s)) eqn:Hd2; simpl in Hp; [rewrite Hd in Hp; by inv_eff|].
  apply eff_bind_done in Hp as ([r sec] & w1 & w2 & H1 & Hp & ->). destruct r as [[a|]|]; simpl in Hp.
  - by inv_eff.
  - pose proof (Fuse_ends _ _ _ _ H1) as He. rewrite Hd, He in Hp. simpl in Hp. by inv_eff.
  - apply stream_wakes in H1. by destruct w1.
Qed.

#[global] Instance Chain_wakes `{Stream St A} `{Stream U A} `{!StreamWakes St} `{!StreamWakes U} :
  StreamWakes (Chain St U).
Proof.
  intros n s s' w Hp. change (Chain_poll_next n s = Done ((Pending, s'), w)) in Hp.
  unfold Chain_poll_next in Hp. destruct (fuse_done (chain_first s)) eqn:Hd; simpl in Hp;
    [by eapply Chain_second_wakes|].
  apply eff_bind_done in Hp as ([r f] & w1 & w2 & H1 & Hp & ->). destruct r as [[a|]|].
  - by inv_eff.
  - apply events_nonempty_r. eapply Chain_second_wakes; [|exact Hp]. by eapply Fuse_ends.
  - apply stream_wakes in H1. by destruct w1.
Qed.

#[global] Instance Zip_mono `{Stream St A} `{Stream U B} `{!StreamMono St} `{!StreamMono U} :
  StreamMono (Zip St U A).
Proof.
  intros s. change (fuel_mono (λ n, Zip_poll_next n s)).
  unfold Zip_poll_next, Zip_poll_second. solve_fuel_mono.
Qed.
#[global] Instance Zip_wakes `{Stream St A} `{Stream U B} `{!StreamWakes St} `{!StreamWakes U} :
  StreamWakes (Zip St U A).
Proof.
  intros n s s' w Hp. change (Zip_poll_next n s = Done ((Pending, s'), w)) in Hp.
  unfold Zip_poll_next, Zip_poll_second in Hp. inv_eff; wakes_done.
Qed.

Lemma flatten_round_mono {St I U A} `{Stream St I} `{!IntoStream I U} `{Stream U A}
    `{!StreamMono St} `{!StreamMono U} (t : St * option U) : fuel_mono (λ n, flatten_round n t).
Proof. unfold flatten_round. solve_fuel_mono. Qed.
#[export] Hint Resolve flatten_round_mono : async.

Lemma flatten_loop_wakes {St I U A} `{Stream St I} `{!IntoStream I U} `{Stream U A}
    `{!StreamWakes St} `{!StreamWakes U} n (t t' : St * option U) w :
  loop_poll (flatten_round (A:=A)) n t = Done ((Pending, t'), w) → w ≠ [].
Proof.
  intros Hp.
  refine (loop_poll_ind (flatten_round (A:=A)) (λ r w, fst r = Pending → w ≠ []) _ _ _ _ _ _ Hp eq_refl);
    [|simpl; auto with async].
  clear n t t' w Hp. intros n t [r t'] w Hp Hr. simpl in Hr. subst r. unfold flatten_round in Hp.
  inv_eff; wakes_done.
Qed.

#[global] Instance Flatten_mono {St I U A} `{Stream St I} `{!IntoStream I U} `{Stream U A}
  `{!StreamMono St} `{!StreamMono U} : StreamMono (Flatten St U).
Proof.
  intros s. change (fuel_mono (λ n, Flatten_poll_next n s)). unfold Flatten_poll_next. solve_fuel_mono.
Qed.
#[global] Instance Flatten_wakes {St I U A} `{Stream St I} `{!IntoStream I U} `{Stream U A}
  `{!StreamWakes St} `{!StreamWakes U} : StreamWakes (Flatten St U).
Proof.
  intros n s s' w Hp. change (Flatten_poll_next n s = Done ((Pending, s'), w)) in Hp.
  unfold Flatten_poll_next in Hp. inv_eff. apply flatten_loop_wakes in Heff. auto with async.
Qed.
#[global] Instance FlatMap_mono {St I J U F A} `{Stream St I} `{FnMut F I J} `{!IntoStream J U}
  `{Stream U A} `{!StreamMono St} `{!StreamMono U} : StreamMono (FlatMap St U F).
Proof.
  intros s. change (fuel_mono (λ n, FlatMap_poll_next n s)). unfold FlatMap_poll_next. solve_fuel_mono.
Qed.
#[global] Instance FlatMap_wakes {St I J U F A} `{Stream St I} `{FnMut F I J} `{!IntoStream J U}
  `{Stream U A} `{!StreamWakes St} `{!StreamWakes U} : StreamWakes (FlatMap St U F).
Proof.
  intros n s s' w Hp. change (FlatMap_poll_next n s = Done ((Pending, s'), w)) in Hp.
  unfold FlatMap_poll_next in Hp. inv_eff. apply flatten_loop_wakes in Heff. auto with async.
Qed.

#[global] Instance Cycle_mono `{Stream St A} `{Clone St} `{!StreamMono St} : StreamMono (Cycle St).
Proof. solve_mono. Qed.
#[global] Instance Cycle_wakes `{Stream St A} `{Clone St} `{!StreamWakes St} : StreamWakes (Cycle St).
Proof. solve_wakes. Qed.

Lemma in_order_mono `{Stream F A} `{Stream G A} `{!StreamMono F} `{!StreamMono G} (f : F) (g : G) :
  fuel_mono (λ n, poll_next_in_order n f g).
Proof. unfold poll_next_in_order. solve_fuel_mono. Qed.
#[export] Hint Resolve in_order_mono : async.
Lemma in_order_wakes `{Stream F A} `{Stream G A} `{!StreamWakes F} `{!StreamWakes G} n
    (f f' : F) (g g' : G) w :
  poll_next_in_order n f g = Done ((Pending, f', g'), w) → w ≠ [].
Proof. unfold poll_next_in_order. intros Hp. inv_eff; wakes_done. Qed.

#[global] Instance Merge_mono `{Stream L A} `{Stream R A} `{!StreamMono L} `{!StreamMono R} :
  StreamMono (Merge L R).
Proof. solve_mono. Qed.
#[global] Instance Merge_wakes `{Stream L A} `{Stream R A} `{!StreamWakes L} `{!StreamWakes R} :
  StreamWakes (Merge L R).
Proof.
  intros n s s' w Hp. change (Merge_poll_next n s = Done ((Pending, s'), w)) in Hp.
  unfold Merge_poll_next in Hp. inv_eff;
    (match goal with H : poll_next_in_order _ _ _ = _ |- _ => apply in_order_wakes in H end);
    auto with async.
Qed.

#[global] Instance Delay_mono {St D A} `{Stream St A} `{Timer D} `{!StreamMono St} `{!FutureMono D} :
  StreamMono (Delay St D).
Proof. solve_mono. Qed.
#[global] Instance Delay_wakes {St D A} `{Stream St A} `{Timer D} `{!StreamWakes St} `{!FutureWakes D} :
  StreamWakes (Delay St D).
Proof. solve_wakes. Qed.
#[global] Instance Throttle_mono {St D A} `{Stream St A} `{Timer D} `{!StreamMono St} `{!FutureMono D} :
  StreamMono (Throttle St D).
Proof.
  intros s. change (fuel_mono (λ n, Throttle_poll_next n s)).
  unfold Throttle_poll_next, Throttle_poll_stream. solve_fuel_mono.
Qed.
#[global] Instance Throttle_wakes {St D A} `{Stream St A} `{Timer D} `{!StreamWakes St} `{!FutureWakes D} :
  StreamWakes (Throttle St D).
Proof.
  intros n s s' w Hp. change (Throttle_poll_next n s = Done ((Pending, s'), w)) in Hp.
  unfold Throttle_poll_next, Throttle_poll_stream in Hp. inv_eff; wakes_done.
Qed.
#[global] Instance Timeout_mono {St D A} `{Stream St A} `{Timer D} `{!StreamMono St} `{!FutureMono D} :
  StreamMono (Timeout St D).
Proof. solve_mono. Qed.
#[global] Instance Timeout_wakes {St D A} `{Stream St A} `{Timer D} `{!StreamWakes St} `{!FutureWakes D} :
  StreamWakes (Timeout St D).
Proof. solve_wakes. Qed.

(** * What they yield *)

(** A poll that has enough fuel has enough with more. *)
Lemma poll_more `{Stream St A} `{!StreamMono St} n m (s : St) r :
  poll_next n s = Done r → n ≤ m → poll_next m s = Done r.
Proof. intros Hp Hle. by eapply (stream_mono s n m). Qed.

Section Chain.
Context `{Stream St A} `{Stream U A} `{!StreamMono St} `{!StreamMono U}.
Implicit Types (s : St) (u : U).

Ltac run := eexists; unfold poll_next in *;
  cbv [poll_next Chain_Stream Chain_poll_next Chain_poll_second Fuse_Stream Fuse_poll_next]; simpl;
  repeat (match goal with H : ?m = Done _ |- context [?m] => rewrite H end; simpl); reflexivity.

Lemma Chain_pulls_first s a s' (f : Fuse U) :
  pulls s (Some a) s' → pulls (mkChain (mkFuse s false) f) (Some a) (mkChain (mkFuse s' false) f).
Proof.
  intros Hp. eapply (until_ready_map poll_next poll_next (λ s, mkChain (mkFuse s false) f));
    [|exact Hp|].
  - intros n s0 s1 w Hs. exists n. run.
  - intros s0 n w Hs. exists n. run.
Qed.

Lemma Chain_pulls_second s u a u' :
  pulls u (Some a) u' →
  pulls (mkChain (mkFuse s true) (mkFuse u false)) (Some a) (mkChain (mkFuse s true) (mkFuse u' false)).
Proof.
  intros Hp. eapply (until_ready_map poll_next poll_next
    (λ u, mkChain (mkFuse s true) (mkFuse u false))); [|exact Hp|].
  - intros n s0 s1 w Hs. exists n. run.
  - intros s0 n w Hs. exists n. run.
Qed.

Lemma Chain_pulls_end s u u' :
  pulls u None u' →
  pulls (mkChain (mkFuse s true) (mkFuse u false)) None (mkChain (mkFuse s true) (mkFuse u' true)).
Proof.
  intros Hp. eapply (until_ready_map poll_next poll_next
    (λ u, mkChain (mkFuse s true) (mkFuse u false))); [|exact Hp|].
  - intros n s0 s1 w Hs. exists n. run.
  - intros s0 n w Hs. exists n. run.
Qed.

(** When the first stream ends, the second is polled at once. *)
Lemma Chain_pulls_switch s s' (f : Fuse U) o t :
  pulls s None s' → pulls (mkChain (mkFuse s' true) f) o t →
  pulls (mkChain (mkFuse s false) f) o t.
Proof.
  intros Hp Ht. eapply (until_ready_continue poll_next poll_next
    (λ s, mkChain (mkFuse s false) f)); [|exact Hp| |exact Ht].
  - intros n s0 s1 w Hs. exists n. run.
  - intros s0 n w m r w1 Hs Hq. exists (n `max` m).
    apply poll_more with (m := n `max` m) in Hs; [|lia].
    apply poll_more with (m := n `max` m) in Hq; [|lia].
    set (k := n `max` m) in *.
    assert (poll_next k (mkFuse s0 false) = Done ((Ready None, mkFuse s' true), w ++ [])) as Hf.
    { unfold poll_next in *. cbv [poll_next Fuse_Stream Fuse_poll_next]. simpl.
      by rewrite Hs. }
    change (Chain_poll_second k (mkChain (mkFuse s' true) f) = Done (r, w1)) in Hq.
    exists ((w ++ []) ++ w1).
    change (Chain_poll_next k (mkChain (mkFuse s0 false) f) = Done (r, (w ++ []) ++ w1)).
    unfold Chain_poll_next. cbn [chain_first fuse_done negb].
    by eapply eff_bind_step; [exact Hf|].
Qed.

Lemma Chain_yields s u la lb :
  yields s la → yields u lb → yields (Chain_new s u) (la ++ lb).
Proof.
  intros Ha Hb. unfold Chain_new, Fuse_new.
  induction Ha as [s s' Hp|s a s1 la Hp Ha IH]; simpl.
  - eapply yields_as; [|intros o t; by eapply Chain_pulls_switch]. clear Hp.
    induction Hb as [u u' Hp|u b u1 lb Hp Hb IH];
      [by eapply yields_nil, Chain_pulls_end|by eapply yields_cons; [apply Chain_pulls_second|]].
  - by eapply yields_cons; [apply Chain_pulls_first|].
Qed.
End Chain.

Section Zip.
Context `{Stream St A} `{Stream U B} `{!StreamMono St} `{!StreamMono U}.
Implicit Types (s : St) (u : U).

Ltac run := eexists; unfold poll_next in *;
  cbv [poll_next Zip_Stream Zip_poll_next Zip_poll_second]; simpl;
  repeat (match goal with H : ?m = Done _ |- context [?m] => rewrite H end; simpl); reflexivity.

Lemma Zip_pulls_end s s' u :
  pulls s None s' → pulls (mkZip (A:=A) None s u) None (mkZip None s' u).
Proof.
  intros Hp. eapply (until_ready_map poll_next poll_next (λ s, mkZip None s u)); [|exact Hp|];
    [intros n s0 s1 w Hs|intros s0 n w Hs]; exists n; run.
Qed.

Lemma Zip_pulls_second s u (a : A) o u' :
  pulls u o u' → pulls (mkZip (Some a) s u) (option_map (pair a) o) (mkZip None s u').
Proof.
  intros Hp. eapply (until_ready_map poll_next poll_next (λ u, mkZip (Some a) s u)); [|exact Hp|];
    [intros n s0 s1 w Hs|intros s0 n w Hs]; exists n; run.
Qed.

Lemma Zip_pulls_first s a s' u o t :
  pulls s (Some a) s' → pulls (mkZip (Some a) s' u) o t → pulls (mkZip None s u) o t.
Proof.
  intros Hp Ht. eapply (until_ready_continue poll_next poll_next (λ s, mkZip None s u));
    [|exact Hp| |exact Ht].
  - intros n s0 s1 w Hs. exists n. run.
  - intros s0 n w m r w1 Hs Hq. exists (n `max` m), (w ++ w1).
    apply poll_more with (m := n `max` m) in Hs; [|lia].
    apply poll_more with (m := n `max` m) in Hq; [|lia].
    change (Zip_poll_second (n `max` m) (mkZip (Some a) s' u) = Done (r, w1)) in Hq.
    change (Zip_poll_next (n `max` m) (mkZip None s0 u) = Done (r, w ++ w1)).
    unfold Zip_poll_next. cbn [zip_item_slot zip_first zip_second].
    by eapply eff_bind_step; [exact Hs|].
Qed.

Lemma Zip_yields s u la lb :
  yields s la → yields u lb → yields (Zip_new s u) (zip la lb).
Proof.
  intros Ha. revert u lb. induction Ha as [s s' Hp|s a s1 la Hp Ha IH]; intros u lb Hb; simpl.
  - by eapply yields_nil, Zip_pulls_end.
  - destruct Hb as [u u' Hq|u b u1 lb Hq Hb].
    + eapply yields_nil, Zip_pulls_first; [done|]. by apply (Zip_pulls_second _ _ a None).
    + eapply yields_cons; [|by apply IH].
      eapply Zip_pulls_first; [done|]. by apply (Zip_pulls_second _ _ a (Some b)).
Qed.
End Zip.

(** ** Flatten *)

(** A stream that has ended stays ended. *)
Class StreamFused St {A} `{Stream St A} : Prop :=
  stream_fused : ∀ n (s s' : St) w, poll_next n s = Done ((Ready None, s'), w) →
    ∀ m, poll_next m s' = Done ((Ready None, s'), []).

#[global] Instance Fuse_fused `{Stream St A} : StreamFused (Fuse St).
Proof.
  intros n [s d] [s' d'] w Hp m. pose proof (Fuse_ends _ _ _ _ Hp) as Hd. simpl in Hd. by subst d'.
Qed.
#[global] Instance FromIter_list_fused {A} : StreamFused (FromIter (list A)).
Proof. intros n [l] [l'] w Hp m. destruct l; apply eff_ret_done in Hp as [Hp _]; by simplify_eq. Qed.

Section Flatten.
Context {St I U A : Type} `{Stream St I} `{!IntoStream I U} `{Stream U A}.
Context `{!StreamMono St} `{!StreamMono U} `{!StreamFused U}.
Implicit Types (s : St) (u : U).

Abbreviation round := (flatten_round (St:=St) (I:=I) (U:=U) (A:=A)).
Abbreviation flat_pulls := (until_ready (loop_poll round)).

(** No inner stream, or one that has ended. *)
Definition idle (inner : option U) : Prop :=
  if inner is Some u then ∀ n, poll_next n u = Done ((Ready None, u), []) else True.

Lemma round_idle n s inner :
  idle inner →
  round n (s, inner) =
    ('(next, stream) ← poll_next n s;
     match next with
     | Pending => mret (inr (Pending, (stream, inner)))
     | Ready None => mret (inr (Ready None, (stream, inner)))
     | Ready (Some i) => mret (inl (stream, Some (into_stream i)))
     end).
Proof.
  intros Hi. unfold flatten_round. destruct inner as [u|]; [|done].
  rewrite Hi. cbn. unfold mbind, eff_mbind, eff_bind.
  destruct (poll_next n s) as [[[[[i|]|] s'] w]| |]; done.
Qed.

Lemma flat_mono t : fuel_mono (λ n, round n t).
Proof. apply flatten_round_mono. Qed.

Lemma flat_outer s i s' inner o t :
  idle inner → pulls s (Some i) s' → flat_pulls (s', Some (into_stream i)) o t →
  flat_pulls (s, inner) o t.
Proof.
  intros Hi Hp Ht.
  eapply (until_ready_continue poll_next (loop_poll round) (λ s, (s, inner))); [|exact Hp| |exact Ht].
  - intros n s0 s1 w Hs. eapply (loop_poll_ready round flat_mono n).
    rewrite round_idle by done. rewrite Hs. simpl. reflexivity.
  - intros s0 n w m r w1 Hs Hq. eapply (loop_poll_round round flat_mono n); [|exact Hq].
    rewrite round_idle by done. rewrite Hs. simpl. reflexivity.
Qed.

Lemma flat_end s s' inner :
  idle inner → pulls s None s' → flat_pulls (s, inner) None (s', inner).
Proof.
  intros Hi Hp.
  eapply (until_ready_map poll_next (loop_poll round) (λ s, (s, inner))); [|exact Hp|].
  - intros n s0 s1 w Hs. eapply (loop_poll_ready round flat_mono n).
    rewrite round_idle by done. rewrite Hs. simpl. reflexivity.
  - intros s0 n w Hs. eapply (loop_poll_ready round flat_mono n).
    rewrite round_idle by done. rewrite Hs. simpl. reflexivity.
Qed.

Lemma flat_inner s u a u' :
  pulls u (Some a) u' → flat_pulls (s, Some u) (Some a) (s, Some u').
Proof.
  intros Hp.
  eapply (until_ready_map poll_next (loop_poll round) (λ u, (s, Some u))); [|exact Hp|].
  - intros n u0 u1 w Hu. eapply (loop_poll_ready round flat_mono n).
    unfold flatten_round. rewrite Hu. simpl. reflexivity.
  - intros u0 n w Hu. eapply (loop_poll_ready round flat_mono n).
    unfold flatten_round. rewrite Hu. simpl. reflexivity.
Qed.

(** When the inner stream ends, the outer one is polled at once. *)
Lemma flat_switch s u u' o t :
  pulls u None u' → (idle (Some u') → flat_pulls (s, Some u') o t) → flat_pulls (s, Some u) o t.
Proof.
  intros Hp Ht.
  eapply (until_ready_lift poll_next (loop_poll round) (λ u, (s, Some u))); [|exact Hp|].
  - intros n u0 u1 w Hu. eapply (loop_poll_ready round flat_mono n).
    unfold flatten_round. rewrite Hu. simpl. reflexivity.
  - intros u0 n w Hu. assert (idle (Some u')) as Hi by exact (stream_fused _ _ _ _ Hu).
    assert (∀ k x w1, round k (s, Some u') = Done (x, w1) →
      round (n `max` k) (s, Some u0) = Done (x, w ++ w1)) as Hround.
    { intros k x w1 Hk. apply poll_more with (m := n `max` k) in Hu; [|lia].
      apply (flat_mono _ k (n `max` k)) in Hk; [|lia].
      rewrite round_idle in Hk by done. unfold flatten_round. rewrite Hu. cbn.
      unfold mbind, eff_mbind, eff_bind in *.
      destruct (poll_next (n `max` k) s) as [[[[[i|]|] s1] w2]| |]; simplify_eq; simpl;
        try done; destruct x; simpl in *; by simplify_eq. }
    assert (∀ m r w1, loop_poll round m (s, Some u') = Done (r, w1) →
      ∃ m' w', loop_poll round m' (s, Some u0) = Done (r, w')) as Hloop.
    { intros m r w1 Hm. unfold loop_poll in Hm. destruct m as [|m]; [discriminate|].
      simpl in Hm. apply eff_bind_done in Hm as (x & w2 & w3 & Hx & Hm & ->).
      apply Hround in Hx. destruct x as [t1|r1].
      - eapply (loop_poll_round round flat_mono); [exact Hx|].
        unfold loop_poll. eapply (rust_loop_mono_body (round (S m))); [|..|exact Hm]; [done|lia].
      - apply eff_ret_done in Hm as [<- ->].
        by eapply (loop_poll_ready round flat_mono). }
    specialize (Ht Hi). destruct Ht as [m t1 y t2 w1 Hq|m t1 t2 y t3 w1 Hq Ht];
      destruct (Hloop _ _ _ Hq) as (m' & w' & Hq');
      [by eapply until_ready_now|by eapply until_ready_later].
Qed.
End Flatten.

Section FlattenYields.
Context {St I U A : Type} `{Stream St I} `{!IntoStream I U} `{Stream U A}.
Context `{!StreamMono St} `{!StreamMono U} `{!StreamFused U}.
Implicit Types (s : St) (u : U).

(** The pair of streams, polled by the loop, is itself a stream. *)
Definition flat_Stream : Stream (St * option U) A := loop_poll flatten_round.
Abbreviation flat_yields := (@yields _ _ flat_Stream).

Lemma pulls_None_idle u u' : pulls u None u' → idle (Some u').
Proof.
  intros Hp. remember None as o eqn:Ho. induction Hp as [n u o u' w Hu|]; [|eauto].
  subst o. exact (stream_fused _ _ _ _ Hu).
Qed.

Lemma flat_yields_inner s u l ll :
  yields u l → (∀ inner, idle inner → flat_yields (s, inner) ll) →
  flat_yields (s, Some u) (l ++ ll).
Proof.
  intros Hu Hrest. induction Hu as [u u' Hq|u a u1 l Hq Hu IH]; simpl.
  - eapply (@yields_as _ _ flat_Stream); [apply (Hrest (Some u')); by eapply pulls_None_idle|].
    intros o t Ht. by eapply flat_switch.
  - eapply (@yields_cons _ _ flat_Stream); [by apply flat_inner|done].
Qed.

Lemma flat_yields_concat s li inner ll :
  yields s li → idle inner → Forall2 (λ i l, yields (into_stream i) l) li ll →
  flat_yields (s, inner) (concat ll).
Proof.
  intros Hy. revert inner ll. induction Hy as [s s' Hp|s i s1 li Hp Hy IH]; intros inner ll Hi Hf.
  - apply Forall2_nil_inv_l in Hf as ->. eapply (@yields_nil _ _ flat_Stream). by eapply flat_end.
  - apply Forall2_cons_inv_l in Hf as (l & ll' & Hl & Hf & ->). simpl.
    eapply (@yields_as _ _ flat_Stream); [apply (flat_yields_inner s1 _ _ _ Hl); eauto|].
    intros o t Ht. by eapply flat_outer.
Qed.

(** A stream whose poll is that of the loop yields the same. *)
Lemma flat_lift {T} `{Stream T A} (g : St * option U → T) t l :
  (∀ n t1 r t2 w, flat_Stream n t1 = Done ((r, t2), w) →
     ∃ m w', poll_next m (g t1) = Done ((r, g t2), w')) →
  flat_yields t l → yields (g t) l.
Proof.
  intros Hg.
  assert (∀ t o t', until_ready flat_Stream t o t' → pulls (g t) o (g t')) as Hpull.
  { intros t1 o t1' Ht. induction Ht as [n t1 o t1' w Hp|n t1 t2 o t1' w Hp _ IH];
      destruct (Hg _ _ _ _ _ Hp) as (m & w' & Hq); [by eapply until_ready_now|by eapply until_ready_later]. }
  intros Hy. induction Hy; [by eapply yields_nil, Hpull|by eapply yields_cons; [apply Hpull|]].
Qed.

Lemma Flatten_yields s li ll :
  yields s li → Forall2 (λ i l, yields (into_stream i) l) li ll →
  yields (Flatten_new (U:=U) s) (concat ll).
Proof.
  intros Hy Hf. apply (flat_lift (λ t, mkFlatten t.1 t.2) (s, None)).
  - intros n [s1 i1] r [s2 i2] w Hp. exists n, (w ++ []).
    change (Flatten_poll_next n (mkFlatten s1 i1) = Done (r, mkFlatten s2 i2, w ++ [])).
    unfold Flatten_poll_next. cbn [flatten_stream flatten_inner_stream fst snd].
    by eapply eff_bind_step; [exact Hp|].
  - by apply (flat_yields_concat s li).
Qed.
End FlattenYields.

(** Each item of the stream is mapped to a stream. *)
Lemma FlatMap_yields {St I J U F A} `{Stream St I} `{FnMut F I J} `{!IntoStream J U} `{Stream U A}
    `{!StreamMono St} `{!StreamMono U} `{!StreamFused U} (s : St) (f : F) li ll :
  yields s li → Forall2 (λ j l, yields (into_stream j) l) (calls f li).*2 ll →
  yields (FlatMap_new (U:=U) s f) (concat ll).
Proof.
  intros Hy Hf. apply (flat_lift (U:=U) (λ t, mkFlatMap t.1 t.2) (Map_new s f, None)).
  - intros n [s1 i1] r [s2 i2] w Hp. exists n, (w ++ []).
    change (FlatMap_poll_next n (mkFlatMap s1 i1) = Done (r, mkFlatMap s2 i2, w ++ [])).
    unfold FlatMap_poll_next. cbn [flat_map_stream flat_map_inner_stream fst snd].
    by eapply eff_bind_step; [exact Hp|].
  - eapply flat_yields_concat; [by apply Map_yields|done|done].
Qed.

(** ** Cycle *)

Section Cycle.
Context `{Stream St A} `{Clone St} (Hclone : ∀ s : St, clone s = s).
Implicit Types (s src : St).

Ltac run := eexists; unfold poll_next in *;
  cbv [poll_next Cycle_Stream Cycle_poll_next]; simpl;
  repeat (match goal with H : ?m = Done _ |- context [?m] => rewrite H end; simpl); reflexivity.

Lemma Cycle_pulls_item s src a src' :
  pulls src (Some a) src' → pulls (mkCycle s src) (Some a) (mkCycle s src').
Proof.
  intros Hp. eapply (until_ready_map poll_next poll_next (λ src, mkCycle s src)); [|exact Hp|];
    [intros n s0 s1 w Hs|intros s0 n w Hs]; exists n; run.
Qed.

(** At its end the stream starts again. *)
Lemma Cycle_pulls_again `{!StreamMono St} s src src' a s1 :
  pulls src None src' → pulls s (Some a) s1 → pulls (mkCycle s src) (Some a) (mkCycle s s1).
Proof.
  intros Hp Ha.
  eapply (until_ready_lift poll_next poll_next (λ src, mkCycle s src)); [|exact Hp|].
  - intros n s0 s2 w Hs. exists n. run.
  - intros src0 n w Hs.
    assert (∀ m r t w1, poll_next m s = Done ((r, t), w1) →
      ∃ m' w', poll_next m' (mkCycle s src0) = Done ((r, mkCycle s t), w')) as Hpoll.
    { intros m r t w1 Hq. exists (n `max` m).
      apply poll_more with (m := n `max` m) in Hs; [|lia].
      apply poll_more with (m := n `max` m) in Hq; [|lia].
      exists (w ++ w1 ++ []). change (Cycle_poll_next (n `max` m) (mkCycle s src0) = Done (r, mkCycle s t, w ++ w1 ++ [])).
      unfold Cycle_poll_next. cbn [cycle_source cycle_orig]. eapply eff_bind_step; [exact Hs|].
      simpl. rewrite Hclone, Hq. done. }
    remember (Some a) as o eqn:Ho. destruct Ha as [m s o s1 w1 Hq|m s s2 o s1 w1 Hq Ha]; subst o;
      destruct (Hpoll _ _ _ _ Hq) as (m' & w' & Hq').
    + by eapply until_ready_now.
    + eapply until_ready_later; [exact Hq'|]. by apply Cycle_pulls_item.
Qed.

Lemma Cycle_items_rest s src l src' :
  items src l src' → items (mkCycle s src) l (mkCycle s src').
Proof. induction 1; [constructor|eapply items_cons; [by apply Cycle_pulls_item|done]]. Qed.

(** The items of the stream, as often as one likes. *)
Lemma Cycle_items `{!StreamMono St} s a l k :
  yields s (a :: l) →
  ∃ src, items (Cycle_new s) (concat (replicate k (a :: l))) (mkCycle s src).
Proof.
  intros Hy. unfold Cycle_new. rewrite Hclone.
  inversion Hy as [|? ? s1 ? Ha Hl]; subst. apply yields_items in Hl as (s2 & s3 & Hl & He).
  assert (∀ k src, (src = s ∨ ∃ src', pulls src None src') →
    ∃ src', items (mkCycle s src) (concat (replicate k (a :: l))) (mkCycle s src')) as Hgen.
  { clear k. induction k as [|k IH]; intros src Hsrc; [exists src; constructor|].
    destruct (IH s2) as [src' Hi]; [right; by exists s3|]. exists src'. simpl.
    eapply items_cons; [|eapply items_app; [by apply Cycle_items_rest|exact Hi]].
    destruct Hsrc as [->|[src1 Hsrc]]; [by apply Cycle_pulls_item|by eapply Cycle_pulls_again]. }
  apply Hgen. by left.
Qed.
End Cycle.

(** ** Merge *)

(** [interleave la lb l]: [l] has the items of both, each in their order. *)
Inductive interleave {A : Type} : list A → list A → list A → Prop :=
| interleave_nil : interleave [] [] []
| interleave_left a la lb l : interleave la lb l → interleave (a :: la) lb (a :: l)
| interleave_right b la lb l : interleave la lb l → interleave la (b :: lb) (b :: l).

Section Polls.
Context `{Stream St A}.

(** [polls k s l]: the stream yields [l], and it takes [k] polls. *)
Inductive polls : nat → St → list A → Prop :=
| polls_end n s s' w : poll_next n s = Done ((Ready None, s'), w) → polls 1 s []
| polls_item n s a s' w k l :
    poll_next n s = Done ((Ready (Some a), s'), w) → polls k s' l → polls (S k) s (a :: l)
| polls_pending n s s' w k l :
    poll_next n s = Done ((Pending, s'), w) → polls k s' l → polls (S k) s l.

Lemma yields_polls (s : St) l : yields s l → ∃ k, polls k s l.
Proof.
  induction 1 as [s s' Hp|s a s1 l Hp Hy [k Hk]].
  - remember None as o eqn:Ho. induction Hp as [n s o s' w Hs|n s s1 o s' w Hs _ IH]; subst.
    + eexists. by eapply polls_end.
    + destruct IH as [k Hk]; [done|]. eexists. by eapply polls_pending.
  - remember (Some a) as o eqn:Ho. induction Hp as [n s o s' w Hs|n s s1 o s' w Hs _ IH]; subst.
    + eexists. by eapply polls_item.
    + destruct IH as [k' Hk']; [done..|]. eexists. by eapply polls_pending.
Qed.

(** A fused stream: after its end it takes none. *)
Definition fused_polls (k : nat) (f : Fuse St) (l : list A) : Prop :=
  if fuse_done f then l = [] else polls k (fuse_stream f) l.

(** What is left after a poll. *)
Definition fused_after (k : nat) (l : list A) (r : Poll (option A)) (f' : Fuse St) : Prop :=
  match r with
  | Ready None => l = [] ∧ fuse_done f' = true
  | Ready (Some a) => ∃ k' l', k = S k' ∧ l = a :: l' ∧ fused_polls k' f' l'
  | Pending => ∃ k', k = S k' ∧ fused_polls k' f' l
  end.

Lemma fused_poll `{!StreamMono St} k f l :
  fused_polls k f l →
  ∃ n r f' w, (∀ m, n ≤ m → poll_next m f = Done ((r, f'), w)) ∧ fused_after k l r f'.
Proof.
  destruct f as [s d]. unfold fused_polls. simpl. destruct d.
  { intros ->. exists 0, (Ready None), (mkFuse s true), []. by split. }
  assert (∀ n r s' w, poll_next n s = Done ((r, s'), w) → ∀ m, n ≤ m →
    poll_next m (mkFuse s false) = Done ((r, mkFuse s' (if r is Ready None then true else false)), w)) as Hf.
  { intros n r s' w Hs m Hm. apply poll_more with (m := m) in Hs; [|done].
    unfold poll_next in *. cbv [poll_next Fuse_Stream Fuse_poll_next]. simpl. rewrite Hs.
    destruct r as [[a|]|]; simpl; by rewrite app_nil_r. }
  intros Hp. inversion Hp as [n s0 s' w Hs|n s0 a s' w k' l' Hs Hl|n s0 s' w k' l' Hs Hl]; subst;
    eexists n, _, _, w; (split; [by apply Hf|]); simpl; eauto 6.
Qed.
End Polls.

Section Merge.
Context `{Stream L A} `{Stream R A} `{!StreamMono L} `{!StreamMono R}.

Lemma fused_ended {St} `{Stream St A} (f : Fuse St) :
  fuse_done f = true → fused_polls 0 f [].
Proof. intros Hd. unfold fused_polls. by rewrite Hd. Qed.

(** A poll of both makes progress on one of them. *)
Lemma in_order_poll {F G} `{Stream F A} `{Stream G A} `{!StreamMono F} `{!StreamMono G}
    k1 k2 (f : Fuse F) (g : Fuse G) l1 l2 :
  fused_polls k1 f l1 → fused_polls k2 g l2 →
  ∃ n r f' g' w, poll_next_in_order n f g = Done ((r, f', g'), w) ∧
    match r with
    | Ready None => l1 = [] ∧ l2 = []
    | Ready (Some a) => ∃ k1' k2' l1' l2', k1' + k2' < k1 + k2 ∧
        fused_polls k1' f' l1' ∧ fused_polls k2' g' l2' ∧
        (l1 = a :: l1' ∧ l2' = l2 ∨ l2 = a :: l2' ∧ l1' = l1)
    | Pending => ∃ k1' k2', k1' + k2' < k1 + k2 ∧ fused_polls k1' f' l1 ∧ fused_polls k2' g' l2
    end.
Proof.
  intros Hf Hg. destruct (fused_poll _ _ _ Hf) as (n1 & r1 & f' & w1 & Hpf & Haf).
  destruct (fused_poll _ _ _ Hg) as (n2 & r2 & g' & w2 & Hpg & Hag).
  exists (n1 `max` n2). unfold poll_next_in_order.
  rewrite Hpf by lia. simpl. destruct r1 as [[a|]|]; simpl in Haf.
  - destruct Haf as (k1' & l1' & -> & -> & Hf'). repeat eexists; [..|left; done]; try done. lia.
  - destruct Haf as [-> Hd]. apply fused_ended in Hd. rewrite Hpg by lia. simpl.
    destruct r2 as [[b|]|]; simpl in Hag.
    + destruct Hag as (k2' & l2' & -> & -> & Hg'). repeat eexists; [..|right; done]; try done. lia.
    + destruct Hag as [-> _]. by repeat eexists.
    + destruct Hag as (k2' & -> & Hg'). repeat eexists; [|done..]. lia.
  - destruct Haf as (k1' & -> & Hf'). rewrite Hpg by lia. simpl.
    destruct r2 as [[b|]|]; simpl in Hag.
    + destruct Hag as (k2' & l2' & -> & -> & Hg'). repeat eexists; [..|right; done]; try done. lia.
    + destruct Hag as [-> Hd]. apply fused_ended in Hd. repeat eexists; [|done..]. lia.
    + destruct Hag as (k2' & -> & Hg'). repeat eexists; [|done..]. lia.
Qed.

Lemma yields_later {St} `{Stream St A} n (s s' : St) w l :
  poll_next n s = Done ((Pending, s'), w) → yields s' l → yields s l.
Proof.
  intros Hp Hy. eapply yields_as; [exact Hy|]. intros o t Ht. by eapply until_ready_later.
Qed.

Lemma Merge_yields_from k (f : Fuse L) (g : Fuse R) la lb rng k1 k2 :
  k1 + k2 < k → fused_polls k1 f la → fused_polls k2 g lb →
  ∃ l, interleave la lb l ∧ yields (mkMerge f g rng) l.
Proof.
  revert f g la lb rng k1 k2. induction k as [|k IH]; intros f g la lb rng k1 k2 Hk Hf Hg; [lia|].
  destruct (random 2 rng) as [coin rng'] eqn:Hrng.
  assert (∃ n r f' g' w, poll_next n (mkMerge f g rng) = Done ((r, mkMerge f' g' rng'), w) ∧
    match r with
    | Ready None => la = [] ∧ lb = []
    | Ready (Some a) => ∃ k1' k2' la' lb', k1' + k2' < k1 + k2 ∧
        fused_polls k1' f' la' ∧ fused_polls k2' g' lb' ∧
        (la = a :: la' ∧ lb' = lb ∨ lb = a :: lb' ∧ la' = la)
    | Pending => ∃ k1' k2', k1' + k2' < k1 + k2 ∧ fused_polls k1' f' la ∧ fused_polls k2' g' lb
    end) as (n & r & f' & g' & w & Hp & Hr).
  { destruct (coin =? 0)%N eqn:Hcoin.
    - destruct (in_order_poll _ _ _ _ _ _ Hf Hg) as (n & r & f' & g' & w & Hp & Hr).
      exists n, r, f', g', (w ++ []). split; [|exact Hr].
      change (Merge_poll_next n (mkMerge f g rng) = Done (r, mkMerge f' g' rng', w ++ [])).
      unfold Merge_poll_next. cbn [merge_rng merge_left merge_right]. rewrite Hrng, Hcoin.
      by eapply eff_bind_step; [exact Hp|].
    - destruct (in_order_poll _ _ _ _ _ _ Hg Hf) as (n & r & g' & f' & w & Hp & Hr).
      exists n, r, f', g', (w ++ []). split.
      + change (Merge_poll_next n (mkMerge f g rng) = Done (r, mkMerge f' g' rng', w ++ [])).
        unfold Merge_poll_next. cbn [merge_rng merge_left merge_right]. rewrite Hrng, Hcoin.
        by eapply eff_bind_step; [exact Hp|].
      + destruct r as [[a|]|]; [|tauto|].
        * destruct Hr as (k1' & k2' & l1 & l2 & Hlt & H1 & H2 & Hor).
          exists k2', k1', l2, l1. split_and!; [lia|done|done|]. destruct Hor; [right|left]; done.
        * destruct Hr as (k1' & k2' & Hlt & H1 & H2). exists k2', k1'. split_and!; [lia|done..]. }
  destruct r as [[a|]|].
  - destruct Hr as (k1' & k2' & la' & lb' & Hlt & Hf' & Hg' & Hor).
    destruct (IH f' g' la' lb' rng' k1' k2') as (l & Hi & Hy); [lia|done..|].
    exists (a :: l). split.
    + destruct Hor as [[-> ->]|[-> ->]]; by constructor.
    + eapply yields_cons; [|exact Hy]. by eapply until_ready_now.
  - destruct Hr as [-> ->]. exists []. split; [constructor|].
    eapply yields_nil. by eapply until_ready_now.
  - destruct Hr as (k1' & k2' & Hlt & Hf' & Hg').
    destruct (IH f' g' la lb rng' k1' k2') as (l & Hi & Hy); [lia|done..|].
    exists l. split; [done|]. by eapply yields_later.
Qed.

Lemma Merge_yields (s : L) (u : R) la lb rng :
  yields s la → yields u lb → ∃ l, interleave la lb l ∧ yields (Merge_new s u rng) l.
Proof.
  intros [k1 H1]%yields_polls [k2 H2]%yields_polls.
  by apply (Merge_yields_from (S (k1 + k2)) _ _ _ _ _ k1 k2); [lia|..].
Qed.
End Merge.

(** ** Delay and throttle *)

Section Timed.
Context {St D A : Type} `{Stream St A} `{Timer D} `{!StreamMono St} `{!FutureMono D}.
Implicit Types (s : St) (d : D).

Ltac run := eexists; unfold poll_next, poll in *;
  cbv [poll_next poll Delay_Stream Delay_poll_next Throttle_Stream Throttle_poll_next
       Throttle_poll_stream]; simpl;
  repeat (match goal with H : ?m = _ |- context [?m] => rewrite H end; simpl); reflexivity.

Lemma Delay_passes s d l :
  yields s l → yields (mkDelay s d true) l.
Proof.
  intros Hy. induction Hy as [s s' Hp|s a s1 l Hp Hy IH].
  - eapply yields_nil. eapply (until_ready_map poll_next poll_next (λ s, mkDelay s d true)); [|exact Hp|];
      [intros n s0 s1 w Hs|intros s0 n w Hs]; exists n; run.
  - eapply yields_cons; [|exact IH].
    eapply (until_ready_map poll_next poll_next (λ s, mkDelay s d true)); [|exact Hp|];
      [intros n s0 s2 w Hs|intros s0 n w Hs]; exists n; run.
Qed.

(** Nothing before the delay has passed, everything after it. *)
Lemma Delay_yields s d d' l :
  resolves d () d' → yields s l → yields (mkDelay s d false) l.
Proof.
  intros Hd Hy. eapply yields_as; [exact (Delay_passes s d' l Hy)|]. intros o t Ht.
  eapply (until_ready_continue poll poll_next (λ d, mkDelay s d false)); [|exact Hd| |exact Ht].
  - intros n d0 d1 w Hs. exists n. run.
  - intros d0 n w m r w1 Hs Hq. exists (n `max` m), (w ++ w1).
    apply (future_mono d0 n (n `max` m)) in Hs; [|lia].
    apply poll_more with (m := n `max` m) in Hq; [|lia].
    change (Delay_poll_next (n `max` m) (mkDelay s d0 false) = Done (r, w ++ w1)).
    unfold Delay_poll_next. cbn [delay_delay_done delay_delay delay_stream negb].
    eapply eff_bind_step; [exact Hs|exact Hq].
Qed.

(** The throttled stream yields the same items, if every delay passes. *)
Lemma Throttle_yields s d dur b l :
  (∀ d t, ∃ d', resolves (timer_reset d t) () d') →
  yields s l → (b = true → ∃ d', resolves d () d') → yields (mkThrottle s dur b d) l.
Proof.
  intros Hreset Hy. revert d b.
  assert (∀ s l, yields s l → ∀ d b, (b = true → ∃ d', resolves d () d') →
    (∀ d', yields (mkThrottle s dur false d') l) → yields (mkThrottle s dur b d) l) as Hblocked.
  { clear s l Hy. intros s l Hy d b Hb Hfree. destruct b; [|apply Hfree].
    destruct (Hb eq_refl) as [d' Hd]. eapply yields_as; [apply (Hfree d')|]. intros o t Ht.
    eapply (until_ready_continue poll poll_next (λ d, mkThrottle s dur true d)); [|exact Hd| |exact Ht].
    - intros n d0 d1 w Hs. exists n. run.
    - intros d0 n w m r w1 Hs Hq. exists (n `max` m), (w ++ w1).
      apply (future_mono d0 n (n `max` m)) in Hs; [|lia].
      apply poll_more with (m := n `max` m) in Hq; [|lia].
      change (Throttle_poll_next (n `max` m) (mkThrottle s dur true d0) = Done (r, w ++ w1)).
      unfold Throttle_poll_next. cbn [throttle_blocked throttle_delay throttle_stream throttle_duration].
      eapply eff_bind_step; [exact Hs|exact Hq]. }
  induction Hy as [s s' Hp|s a s1 l Hp Hy IH]; intros d b Hb; apply Hblocked; try done;
    [by eapply yields_nil| |by eapply yields_cons|]; intros d'.
  - eapply yields_nil.
    eapply (until_ready_map poll_next poll_next (λ s, mkThrottle s dur false d')); [|exact Hp|];
      [intros n s0 s1 w Hs|intros s0 n w Hs]; exists n; run.
  - destruct (timer_now d') as [now d1] eqn:Hnow.
    eapply (yields_cons _ a (mkThrottle s1 dur true (timer_reset d1 (now + dur)%N))).
    + eapply (until_ready_map poll_next poll_next (λ s, mkThrottle s dur false d')); [|exact Hp|];
        [intros n s0 s2 w Hs|intros s0 n w Hs]; exists n; run.
    + apply IH. intros _. apply Hreset.
Qed.
End Timed.
