(* ===== verification/StreamCompare.v ===== *)
(** Comparing streams: cmp, partial_cmp, lt, le, gt, ge, eq and ne
    (src/src/stream/stream/*.rs). *)

From S2P Require Import Prelude Async StreamAdapters StreamConsumers.
Local Open Scope async_scope.

(** * Lexicographic comparison *)

(** The state [CmpFuture] and [PartialCmpFuture] share. *)
Record CmpFuture (L R A B : Type) : Type := mkCmpFuture {
  cmp_l : Fuse L; cmp_r : Fuse R; cmp_l_cache : option A; cmp_r_cache : option B }.
Arguments mkCmpFuture {L R A B}.
Arguments cmp_l {L R A B}.
Arguments cmp_r {L R A B}.
Arguments cmp_l_cache {L R A B}.
Arguments cmp_r_cache {L R A B}.

Definition CmpFuture_new {L R A B : Type} (l : L) (r : R) : CmpFuture L R A B :=
  mkCmpFuture (Fuse_new l) (Fuse_new r) None None.

(** "Get next value if possible and necessary": one side of it. *)
Definition fill_cache `{Stream St A} (fuel : nat) (f : Fuse St) (cache : option A) :
    Eff (Poll () * Fuse St * option A) :=
  if negb (fuse_done f) && (if cache is None then true else false) then
    '(next, f) ← poll_next fuel f;
    ready! next := next else mret (Pending, f, cache) in
    match next with
    | Some item => mret (Ready tt, f, Some item)
    | None => mret (Ready tt, f, cache)
    end
  else mret (Ready tt, f, cache).

Definition complete {St A : Type} (f : Fuse St) (cache : option A) : bool :=
  fuse_done f && (if cache is None then true else false).

Section CmpRound.
(** The two loops are the same code around a comparison of two items: [ord]
    says what a comparison of lengths is in the type of the result, and
    [is_equal] tests for equality; [cmp] takes the items out of the caches
    before it compares them, [partial_cmp] leaves them there. *)
Context {L R A B O : Type} `{Stream L A} `{Stream R B}.
Context (compare : A → B → O) (ord : comparison → O) (is_equal : O → bool) (takes : bool).

Definition cmp_round (fuel : nat) (this : CmpFuture L R A B) :
    Eff (CmpFuture L R A B + (Poll O * CmpFuture L R A B)) :=
  let l_complete := complete (cmp_l this) (cmp_l_cache this) in
  let r_complete := complete (cmp_r this) (cmp_r_cache this) in
  if l_complete && r_complete then mret (inr (Ready (ord Eq), this))
  else if l_complete then mret (inr (Ready (ord Lt), this))
  else if r_complete then mret (inr (Ready (ord Gt), this))
  else
    '(p, l, l_cache) ← fill_cache fuel (cmp_l this) (cmp_l_cache this);
    ready! _ := p else mret (inr (Pending, mkCmpFuture l (cmp_r this) l_cache (cmp_r_cache this))) in
    '(p, r, r_cache) ← fill_cache fuel (cmp_r this) (cmp_r_cache this);
    ready! _ := p else mret (inr (Pending, mkCmpFuture l r l_cache r_cache)) in
    match l_cache, r_cache with
    | Some l_value, Some r_value =>
        let result := compare l_value r_value in
        if is_equal result then mret (inl (mkCmpFuture l r None None))
        else
          mret (inr (Ready result,
            if takes then mkCmpFuture l r None None else mkCmpFuture l r l_cache r_cache))
    | _, _ => mret (inl (mkCmpFuture l r l_cache r_cache))
    end.
End CmpRound.

(** ** cmp.rs *)

Definition CmpFuture_poll {L R A : Type} `{Stream L A} `{Stream R A} `{!Ord A} :
    nat → CmpFuture L R A A → Eff (Poll comparison * CmpFuture L R A A) :=
  loop_poll (cmp_round cmp (λ o, o) (λ o, if o is Eq then true else false) true).

(** ** partial_cmp.rs *)

Record PartialCmpFuture (L R A B : Type) : Type := mkPartialCmp { partial_cmp_state : CmpFuture L R A B }.
Arguments mkPartialCmp {L R A B}.
Arguments partial_cmp_state {L R A B}.

Definition PartialCmpFuture_new {L R A B : Type} (l : L) (r : R) : PartialCmpFuture L R A B :=
  mkPartialCmp (CmpFuture_new l r).

Definition PartialCmpFuture_poll {L R A B : Type} `{Stream L A} `{Stream R B} `{!PartialOrd A B}
    (fuel : nat) (this : PartialCmpFuture L R A B) :
    Eff (Poll (option comparison) * PartialCmpFuture L R A B) :=
  '(r, st) ←
    loop_poll (cmp_round partial_cmp Some (λ o, if o is Some Eq then true else false) false) fuel
      (partial_cmp_state this);
  mret (r, mkPartialCmp st).

(** ** lt.rs, le.rs, gt.rs, ge.rs *)

(** The four futures wrap [partial_cmp] and look at its result. *)
Section OrderFuture.
Context {L R A B : Type} `{Stream L A} `{Stream R B} `{!PartialOrd A B}.

Definition order_poll (accepts : option comparison → bool) (fuel : nat)
    (this : PartialCmpFuture L R A B) : Eff (Poll bool * PartialCmpFuture L R A B) :=
  '(result, st) ← PartialCmpFuture_poll fuel this;
  ready! result := result else mret (Pending, st) in
  mret (Ready (accepts result), st).

Definition LtFuture_poll : nat → PartialCmpFuture L R A B → Eff (Poll bool * PartialCmpFuture L R A B) :=
  order_poll (λ result, match result with Some Lt => true | _ => false end).
Definition LeFuture_poll : nat → PartialCmpFuture L R A B → Eff (Poll bool * PartialCmpFuture L R A B) :=
  order_poll (λ result, match result with Some Lt | Some Eq => true | _ => false end).
Definition GtFuture_poll : nat → PartialCmpFuture L R A B → Eff (Poll bool * PartialCmpFuture L R A B) :=
  order_poll (λ result, match result with Some Gt => true | _ => false end).
Definition GeFuture_poll : nat → PartialCmpFuture L R A B → Eff (Poll bool * PartialCmpFuture L R A B) :=
  order_poll (λ result, match result with Some Gt | Some Eq => true | _ => false end).
End OrderFuture.

(** * Equality *)

Record EqFuture (L R : Type) : Type := mkEqFuture { eq_l : Fuse L; eq_r : Fuse R }.
Arguments mkEqFuture {L R}.
Arguments eq_l {L R}.
Arguments eq_r {L R}.

Definition EqFuture_new {L R : Type} (l : L) (r : R) : EqFuture L R :=
  mkEqFuture (Fuse_new l) (Fuse_new r).

Section EqRounds.
Context {L R A B : Type} `{Stream L A} `{Stream R B} `{!PartialEq A B}.

(** ** eq.rs *)

Definition EqFuture_round (fuel : nat) (this : EqFuture L R) :
    Eff (EqFuture L R + (Poll bool * EqFuture L R)) :=
  '(l_val, l) ← poll_next fuel (eq_l this);
  ready! l_val := l_val else mret (inr (Pending, mkEqFuture l (eq_r this))) in
  '(r_val, r) ← poll_next fuel (eq_r this);
  ready! r_val := r_val else mret (inr (Pending, mkEqFuture l r)) in
  if fuse_done l && fuse_done r then mret (inr (Ready true, mkEqFuture l r))
  else
    match l_val, r_val with
    | Some lv, Some rv =>
        if negb (partial_eq lv rv) then mret (inr (Ready false, mkEqFuture l r))
        else mret (inl (mkEqFuture l r))
    | _, _ => mret (inl (mkEqFuture l r))
    end.
Definition EqFuture_poll : nat → EqFuture L R → Eff (Poll bool * EqFuture L R) :=
  loop_poll EqFuture_round.

(** ** ne.rs *)

Definition NeFuture_round (fuel : nat) (this : EqFuture L R) :
    Eff (EqFuture L R + (Poll bool * EqFuture L R)) :=
  '(l_val, l) ← poll_next fuel (eq_l this);
  ready! l_val := l_val else mret (inr (Pending, mkEqFuture l (eq_r this))) in
  '(r_val, r) ← poll_next fuel (eq_r this);
  ready! r_val := r_val else mret (inr (Pending, mkEqFuture l r)) in
  if fuse_done l || fuse_done r then mret (inr (Ready false, mkEqFuture l r))
  else
    match l_val, r_val with
    | Some lv, Some rv =>
        if partial_eq lv rv then mret (inl (mkEqFuture l r))
        else mret (inr (Ready true, mkEqFuture l r))
    | _, _ => mret (inr (Ready true, mkEqFuture l r))
    end.
Definition NeFuture_poll : nat → EqFuture L R → Eff (Poll bool * EqFuture L R) :=
  loop_poll NeFuture_round.
End EqRounds.
