(* ===== verification/StreamCompareSpec.v ===== *)
(** Comparisons of streams are the comparisons of the lists they yield; what
    [eq] and [ne] really compute. *)

From S2P Require Import Prelude Async StreamAdapters StreamSources StreamConsumers StreamCombineSpec StreamCompare.
Local Open Scope async_scope.

(** * The lists *)

Section Lex.
Context {A B O : Type} (compare : A → B → O) (ord : comparison → O) (is_equal : O → bool).

(** Lexicographic comparison: the first items that differ decide, and a proper
    prefix is less. *)
Fixpoint lex (la : list A) (lb : list B) : O :=
  match la, lb with
  | [], [] => ord Eq
  | [], _ :: _ => ord Lt
  | _ :: _, [] => ord Gt
  | a :: la, b :: lb => let o := compare a b in if is_equal o then lex la lb else o
  end.
End Lex.

Definition lex_cmp `{!Ord A} : list A → list A → comparison :=
  lex cmp (λ o, o) (λ o, if o is Eq then true else false).
Definition lex_partial_cmp `{!PartialOrd A B} : list A → list B → option comparison :=
  lex partial_cmp Some (λ o, if o is Some Eq then true else false).

(** * Wakers *)

(** A comparison that is pending has polled a stream that was. *)
Section CompareWakes.
Context {L R A B : Type} `{Stream L A} `{Stream R B} `{!StreamWakes L} `{!StreamWakes R}.

Lemma fill_cache_wakes {St X} `{Stream St X} `{!StreamWakes St} n (f f' : Fuse St) (c c' : option X) w :
  fill_cache n f c = Done ((Pending, f', c'), w) → w ≠ [].
Proof. unfold fill_cache. intros Hp. inv_eff; wakes_done. Qed.

Lemma cmp_loop_wakes {O} (compare : A → B → O) (ord : comparison → O) (is_equal : O → bool) (takes : bool)
    n (t t' : CmpFuture L R A B) w :
  loop_poll (cmp_round compare ord is_equal takes) n t = Done ((Pending, t'), w) → w ≠ [].
Proof.
  intros Hp.
  refine (loop_poll_ind (cmp_round compare ord is_equal takes) (λ r w, fst r = Pending → w ≠ []) _ _ _ _ _ _ Hp eq_refl);
    [|simpl; auto with async].
  clear n t t' w Hp. intros n t [r t'] w Hp Hr. simpl in Hr. subst r. unfold cmp_round in Hp.
  inv_eff; repeat match goal with Hf : fill_cache _ _ _ = Done ((Pending, _, _), _) |- _ => apply fill_cache_wakes in Hf end;
    wakes_done.
Qed.

Lemma PartialCmpFuture_wakes `{!PartialOrd A B} : FutureWakes (H:=PartialCmpFuture_poll) (PartialCmpFuture L R A B).
Proof.
  intros n f f' w Hp. change (PartialCmpFuture_poll n f = Done ((Pending, f'), w)) in Hp.
  unfold PartialCmpFuture_poll in Hp. inv_eff. apply cmp_loop_wakes in Heff. auto with async.
Qed.

Lemma order_wakes `{!PartialOrd A B} (accepts : option comparison → bool) :
  FutureWakes (H:=order_poll accepts) (PartialCmpFuture L R A B).
Proof.
  intros n f f' w Hp. change (order_poll accepts n f = Done ((Pending, f'), w)) in Hp.
  unfold order_poll in Hp. inv_eff. apply PartialCmpFuture_wakes in Heff. auto with async.
Qed.

Lemma EqFuture_wakes `{!PartialEq A B} : FutureWakes (H:=EqFuture_poll) (EqFuture L R).
Proof. solve_wakes_loop; repeat case_match; inv_eff; wakes_done. Qed.

Lemma NeFuture_wakes `{!PartialEq A B} : FutureWakes (H:=NeFuture_poll) (EqFuture L R).
Proof. solve_wakes_loop; repeat case_match; inv_eff; wakes_done. Qed.
End CompareWakes.

Lemma CmpFuture_wakes {L R A : Type} `{Stream L A} `{Stream R A} `{!Ord A} `{!StreamWakes L} `{!StreamWakes R} :
  FutureWakes (H:=CmpFuture_poll) (CmpFuture L R A A).
Proof. intros n f f' w. apply cmp_loop_wakes. Qed.

(** * The loops *)

Section CmpLoop.
Context {L R A B O : Type} `{Stream L A} `{Stream R B} `{!StreamMono L} `{!StreamMono R}.
Context (compare : A → B → O) (ord : comparison → O) (is_equal : O → bool) (takes : bool).

Abbreviation round := (cmp_round (L:=L) (R:=R) compare ord is_equal takes).

Lemma fill_cache_mono {St X} `{Stream St X} `{!StreamMono St} (f : Fuse St) (c : option X) :
  fuel_mono (λ n, fill_cache n f c).
Proof. unfold fill_cache. solve_fuel_mono. Qed.
Hint Resolve fill_cache_mono : async.

Lemma cmp_round_mono t : fuel_mono (λ n, round n t).
Proof. unfold cmp_round. solve_fuel_mono. Qed.

Lemma Fuse_live {St X} `{Stream St X} n (f f' : Fuse St) r w :
  poll_next n f = Done ((r, f'), w) → r ≠ Ready None → fuse_done f' = false.
Proof. intros Hp Hr. open_poll_in Hp. inv_eff; done. Qed.

(** Filling an empty cache from a stream that is live: either it is pending,
    or it shows the next item, or the end. *)
Definition filled {St X} `{Stream St X} (k : nat) (l : list X) (p : Poll ()) (f' : Fuse St)
    (c' : option X) : Prop :=
  match p, c' with
  | Pending, _ => fuse_done f' = false ∧ c' = None ∧ ∃ k', k' < k ∧ fused_polls k' f' l
  | Ready _, Some x => fuse_done f' = false ∧ ∃ k' l', k' < k ∧ l = x :: l' ∧ fused_polls k' f' l'
  | Ready _, None => fuse_done f' = true ∧ l = []
  end.

Lemma fill_live {St X} `{Stream St X} `{!StreamMono St} k (f : Fuse St) l :
  fuse_done f = false → fused_polls k f l →
  ∃ n p f' c' w, (∀ m, n ≤ m → fill_cache m f None = Done ((p, f', c'), w)) ∧
    filled k l p f' c' ∧ (p = Pending → ∃ m r w, poll_next m (fuse_stream f) = Done ((Pending, r), w)).
Proof.
  intros Hd Hs. destruct (fused_poll _ _ _ Hs) as (n & r & f' & w & Hp & Ha).
  unfold fill_cache. rewrite Hd. simpl. pose proof (Hp n (le_n n)) as Hpn. exists n.
  destruct r as [[x|]|]; simpl in Ha.
  - destruct Ha as (k' & l' & -> & -> & Hf'). apply Fuse_live in Hpn; [|done].
    exists (Ready tt), f', (Some x), (w ++ []).
    split_and!; [intros m Hm; by rewrite (Hp _ Hm)| |done]. split; [done|]. exists k', l'. auto.
  - destruct Ha as [-> Hd'].
    exists (Ready tt), f', None, (w ++ []). split_and!; [intros m Hm; by rewrite (Hp _ Hm)|done|done].
  - destruct Ha as (k' & -> & Hf'). pose proof (Fuse_live _ _ _ _ _ Hpn) as Hl.
    exists Pending, f', None, (w ++ []). split_and!; [intros m Hm; by rewrite (Hp _ Hm)| |].
    + split_and!; [by apply Hl|done|]. exists k'. auto.
    + intros _. open_poll_in Hpn. inv_eff. eauto.
Qed.

(** A stream that is never pending. *)
Definition eager (St : Type) {X : Type} `{Stream St X} : Prop :=
  ∀ n (s s' : St) w, poll_next n s ≠ Done ((Pending, s'), w).

Context (Heager : eager R).

(** One side has ended, and the other has shown its next item or its end. *)
Lemma cmp_terminal (f : Fuse L) (g : Fuse R) lc rc :
  complete f lc = true ∨ complete g rc = true →
  (is_Some lc ∨ complete f lc = true) → (is_Some rc ∨ complete g rc = true) →
  until_ready (loop_poll round) (mkCmpFuture f g lc rc)
    (match lc, rc with
     | None, None => ord Eq
     | None, Some _ => ord Lt
     | Some _, _ => ord Gt
     end) (mkCmpFuture f g lc rc).
Proof.
  intros Hc Hl Hr. eapply (until_round_ready round cmp_round_mono 0 _ _ _ []).
  unfold cmp_round. simpl.
  destruct lc as [x|], rc as [y|]; unfold complete in *; simpl in *;
    rewrite ?andb_false_r, ?andb_true_r in *.
  - by destruct Hc.
  - destruct Hc as [|Hc]; [done|]. by rewrite Hc.
  - destruct Hc as [Hc|]; [|done]. by rewrite Hc.
  - destruct Hl as [[? ?]|Hl]; [done|]. destruct Hr as [[? ?]|Hr]; [done|]. by rewrite Hl, Hr.
Qed.

Lemma cmp_loop k : ∀ (f : Fuse L) (g : Fuse R) la lb k1 k2,
  k1 + k2 < k → fuse_done f = false → fuse_done g = false →
  fused_polls k1 f la → fused_polls k2 g lb →
  ∃ t, until_ready (loop_poll round) (mkCmpFuture f g None None) (lex compare ord is_equal la lb) t.
Proof.
  induction k as [|k IH]; intros f g la lb k1 k2 Hk Hf Hg Hla Hlb; [lia|].
  destruct (fill_live _ _ _ Hf Hla) as (n1 & p1 & f' & lc & w1 & Hfl & Hl & _).
  destruct (fill_live _ _ _ Hg Hlb) as (n2 & p2 & g' & rc & w2 & Hfr & Hr & Hrp).
  assert (round (n1 `max` n2) (mkCmpFuture f g None None) =
    ('(p, l, l_cache) ← (Done ((p1, f', lc), w1) : Eff (Poll () * Fuse L * option A));
     match p with
     | Ready _ =>
         '(p, r, r_cache) ← (Done ((p2, g', rc), w2) : Eff (Poll () * Fuse R * option B));
         match p with
         | Ready _ =>
             match l_cache, r_cache with
             | Some l_value, Some r_value =>
                 let result := compare l_value r_value in
                 if is_equal result then mret (inl (mkCmpFuture l r None None))
                 else mret (inr (Ready result,
                        if takes then mkCmpFuture l r None None else mkCmpFuture l r l_cache r_cache))
             | _, _ => mret (inl (mkCmpFuture l r l_cache r_cache))
             end
         | Pending => mret (inr (Pending, mkCmpFuture l r l_cache r_cache))
         end
     | Pending => mret (inr (Pending, mkCmpFuture l g l_cache None))
     end)) as Hround.
  { unfold cmp_round, complete. simpl. rewrite Hf, Hg. cbn [andb].
    by rewrite (Hfl (n1 `max` n2)), (Hfr (n1 `max` n2)) by lia. }
  destruct p1 as [[]|]; simpl in Hl.
  2: { destruct Hl as (Hf' & -> & k' & Hlt & Hla'). simpl in Hround.
       destruct (IH f' g la lb k' k2) as [t Ht]; [lia|done..|]. exists t.
       eapply (until_round_pending round cmp_round_mono); [exact Hround|exact Ht]. }
  destruct p2 as [[]|]; [|destruct (Hrp eq_refl) as (m & r & w & He); by destruct (Heager _ _ _ _ He)].
  destruct lc as [x|]; [|destruct Hl as [Hf' ->]]; (destruct rc as [y|]; [|destruct Hr as [Hg' ->]]);
    simpl in Hround; try simpl in Hr.
  - destruct Hl as (Hf' & k1' & la' & Hlt1 & -> & Hla'). destruct Hr as (Hg' & k2' & lb' & Hlt2 & -> & Hlb').
    simpl. destruct (is_equal (compare x y)) eqn:He; simpl in Hround.
    + destruct (IH f' g' la' lb' k1' k2') as [t Ht]; [lia|done..|]. exists t.
      eapply (until_round_continue round cmp_round_mono); [exact Hround|exact Ht].
    + eexists. eapply (until_round_ready round cmp_round_mono). exact Hround.
  - destruct Hl as (Hf' & k1' & la' & Hlt1 & -> & Hla'). eexists.
    eapply (until_round_continue round cmp_round_mono); [exact Hround|].
    apply (cmp_terminal f' g' (Some x) None); unfold complete; rewrite ?Hg'; eauto.
  - destruct Hr as (Hg' & k2' & lb' & Hlt2 & -> & Hlb'). eexists.
    eapply (until_round_continue round cmp_round_mono); [exact Hround|].
    apply (cmp_terminal f' g' None (Some y)); unfold complete; rewrite ?Hf'; eauto.
  - eexists. eapply (until_round_continue round cmp_round_mono); [exact Hround|].
    apply (cmp_terminal f' g' None None); unfold complete; rewrite ?Hf', ?Hg'; eauto.
Qed.

Lemma cmp_yields l r la lb :
  yields l la → yields r lb →
  ∃ t, until_ready (loop_poll round) (CmpFuture_new l r) (lex compare ord is_equal la lb) t.
Proof.
  intros [k1 H1]%yields_polls [k2 H2]%yields_polls.
  by apply (cmp_loop (S (k1 + k2)) (Fuse_new l) (Fuse_new r) la lb k1 k2); [lia|..].
Qed.
End CmpLoop.

(** * The futures *)

Section Futures.
Context {L R : Type}.

Lemma CmpFuture_resolves {A} `{Stream L A} `{Stream R A} `{!Ord A} `{!StreamMono L} `{!StreamMono R}
    (l : L) (r : R) la lb :
  eager R → yields l la → yields r lb →
  ∃ t, until_ready CmpFuture_poll (CmpFuture_new l r) (lex_cmp la lb) t.
Proof. intros He. by apply cmp_yields. Qed.

Context {A B : Type} `{Stream L A} `{Stream R B} `{!PartialOrd A B} `{!StreamMono L} `{!StreamMono R}.

Lemma PartialCmpFuture_resolves (l : L) (r : R) la lb :
  eager R → yields l la → yields r lb →
  ∃ t, until_ready PartialCmpFuture_poll (PartialCmpFuture_new l r) (lex_partial_cmp la lb) t.
Proof.
  intros He Ha Hb.
  destruct (cmp_yields partial_cmp Some (λ o, if o is Some Eq then true else false) false He
    l r la lb Ha Hb) as [t Ht]. exists (mkPartialCmp t).
  apply (until_ready_map (loop_poll (cmp_round partial_cmp Some
           (λ o, if o is Some Eq then true else false) false)) PartialCmpFuture_poll mkPartialCmp
           _ _ _ _ _) with (2 := Ht).
  - intros n s0 s1 w Hs. exists n, (w ++ []). unfold PartialCmpFuture_poll. simpl. by rewrite Hs.
  - intros s0 n w Hs. exists n, (w ++ []). unfold PartialCmpFuture_poll. simpl. by rewrite Hs.
Qed.

Lemma order_resolves accepts (l : L) (r : R) la lb :
  eager R → yields l la → yields r lb →
  ∃ t, until_ready (order_poll accepts) (PartialCmpFuture_new l r) (accepts (lex_partial_cmp la lb)) t.
Proof.
  intros He Ha Hb. destruct (PartialCmpFuture_resolves l r la lb He Ha Hb) as [t Ht]. exists t.
  apply (until_ready_map PartialCmpFuture_poll (order_poll accepts) (λ s, s) _ _ _ _ _) with (2 := Ht).
  - intros n s0 s1 w Hs. exists n, (w ++ []). unfold order_poll. by rewrite Hs.
  - intros s0 n w Hs. exists n, (w ++ []). unfold order_poll. by rewrite Hs.
Qed.
End Futures.

(** * Equality *)

Section EqLoop.
Context {L R A B : Type} `{Stream L A} `{Stream R B} `{!PartialEq A B}.
Context `{!StreamMono L} `{!StreamMono R} (Hl : eager L) (Hr : eager R).

Lemma eq_round_mono t : fuel_mono (λ n, EqFuture_round (L:=L) (R:=R) n t).
Proof. unfold EqFuture_round. solve_fuel_mono. Qed.
Lemma ne_round_mono t : fuel_mono (λ n, NeFuture_round (L:=L) (R:=R) n t).
Proof. unfold NeFuture_round. solve_fuel_mono. Qed.

(** A poll of a stream that is never pending, through [Fuse]. *)
Lemma eager_poll {St X} `{Stream St X} `{!StreamMono St} k (f : Fuse St) (l : list X) :
  eager St → fused_polls k f l →
  ∃ n o f' w, (∀ m, n ≤ m → poll_next m f = Done ((Ready o, f'), w)) ∧
    match o with
    | Some x => fuse_done f' = false ∧ ∃ k' l', k = S k' ∧ l = x :: l' ∧ fused_polls k' f' l'
    | None => fuse_done f' = true ∧ l = []
    end.
Proof.
  intros He Hf. destruct (fused_poll _ _ _ Hf) as (n & r & f' & w & Hp & Ha).
  pose proof (Hp n (le_n n)) as Hpn. destruct r as [o|].
  - exists n, o, f', w. split; [done|]. destruct o as [x|]; simpl in Ha; [|naive_solver].
    split; [by eapply Fuse_live|done].
  - exfalso. open_poll_in Hpn. inv_eff. by eapply He.
Qed.

Definition all_equal (la : list A) (lb : list B) : bool :=
  forallb (λ p, partial_eq p.1 p.2) (zip la lb).

Definition live {St} (f : Fuse St) : nat := if fuse_done f then 0 else 1.

Lemma live_poll {St X} `{Stream St X} n (f f' : Fuse St) r w :
  poll_next n f = Done ((r, f'), w) → live f' ≤ live f.
Proof.
  intros Hp. unfold live. destruct (fuse_done f) eqn:Hd; [|case_match; lia].
  open_poll_in Hp. rewrite Hd in Hp. inv_eff. by rewrite Hd.
Qed.

Lemma eq_loop k : ∀ (f : Fuse L) (g : Fuse R) la lb k1 k2,
  k1 + k2 + live f + live g < k → fused_polls k1 f la → fused_polls k2 g lb →
  ∃ t, until_ready EqFuture_poll (mkEqFuture f g) (all_equal la lb) t.
Proof.
  induction k as [|k IH]; intros f g la lb k1 k2 Hk Hf Hg; [lia|].
  destruct (eager_poll _ _ _ Hl Hf) as (n1 & o1 & f' & w1 & Hp1 & H1).
  destruct (eager_poll _ _ _ Hr Hg) as (n2 & o2 & g' & w2 & Hp2 & H2).
  assert (EqFuture_round (n1 `max` n2) (mkEqFuture f g) =
    ('(l_val, l) ← (Done ((o1, f'), w1) : Eff (option A * Fuse L));
     '(r_val, r) ← (Done ((o2, g'), w2) : Eff (option B * Fuse R));
     if fuse_done l && fuse_done r then mret (inr (Ready true, mkEqFuture l r))
     else match l_val, r_val with
          | Some lv, Some rv =>
              if negb (partial_eq lv rv) then mret (inr (Ready false, mkEqFuture l r))
              else mret (inl (mkEqFuture l r))
          | _, _ => mret (inl (mkEqFuture l r))
          end)) as Hround.
  { unfold EqFuture_round. simpl. by rewrite Hp1, Hp2 by lia. }
  pose proof (live_poll _ _ _ _ _ (Hp1 n1 (le_n _))) as Hlf.
  pose proof (live_poll _ _ _ _ _ (Hp2 n2 (le_n _))) as Hlg.
  destruct o1 as [x|]; [destruct H1 as (Hd1 & k1' & la' & -> & -> & Hf')|destruct H1 as [Hd1 ->]];
    (destruct o2 as [y|]; [destruct H2 as (Hd2 & k2' & lb' & -> & -> & Hg')|destruct H2 as [Hd2 ->]]);
    simpl in Hround; rewrite Hd1, Hd2 in Hround; simpl in Hround.
  - unfold all_equal. simpl. destruct (partial_eq x y); simpl in *.
    + destruct (IH f' g' la' lb' k1' k2') as [t Ht]; [lia|done..|].
      exists t. by eapply (until_round_continue _ eq_round_mono).
    + eexists. by eapply (until_round_ready _ eq_round_mono).
  - destruct (IH f' g' la' [] k1' 0) as [t Ht];
      [lia|done|by apply fused_ended|].
    exists t. unfold all_equal in *. rewrite zip_with_nil_r in Ht. simpl in *.
    by eapply (until_round_continue _ eq_round_mono).
  - destruct (IH f' g' [] lb' 0 k2') as [t Ht];
      [lia|by apply fused_ended|done|].
    exists t. by eapply (until_round_continue _ eq_round_mono).
  - eexists. by eapply (until_round_ready _ eq_round_mono).
Qed.

Lemma ne_loop la : ∀ (f : Fuse L) (g : Fuse R) lb k1 k2,
  fused_polls k1 f la → fused_polls k2 g lb →
  ∃ t, until_ready NeFuture_poll (mkEqFuture f g) (negb (all_equal la lb)) t.
Proof.
  induction la as [|x la IH]; intros f g lb k1 k2 Hf Hg;
    destruct (eager_poll _ _ _ Hl Hf) as (n1 & o1 & f' & w1 & Hp1 & H1);
    destruct (eager_poll _ _ _ Hr Hg) as (n2 & o2 & g' & w2 & Hp2 & H2);
    assert (NeFuture_round (n1 `max` n2) (mkEqFuture f g) =
    ('(l_val, l) ← (Done ((o1, f'), w1) : Eff (option A * Fuse L));
     '(r_val, r) ← (Done ((o2, g'), w2) : Eff (option B * Fuse R));
     if fuse_done l || fuse_done r then mret (inr (Ready false, mkEqFuture l r))
     else match l_val, r_val with
          | Some lv, Some rv =>
              if partial_eq lv rv then mret (inl (mkEqFuture l r))
              else mret (inr (Ready true, mkEqFuture l r))
          | _, _ => mret (inr (Ready true, mkEqFuture l r))
          end)) as Hround by (unfold NeFuture_round; simpl; by rewrite Hp1, Hp2 by lia).
  - destruct o1 as [x|]; [destruct H1 as (_ & k1' & la' & _ & ? & _); done|destruct H1 as [Hd1 _]].
    simpl in Hround. rewrite Hd1 in Hround. simpl in Hround.
    eexists. by eapply (until_round_ready _ ne_round_mono).
  - destruct o1 as [x'|]; [destruct H1 as (Hd1 & k1' & la' & -> & [= <- <-] & Hf')|by destruct H1].
    destruct o2 as [y|]; [destruct H2 as (Hd2 & k2' & lb' & -> & -> & Hg')|destruct H2 as [Hd2 ->]];
      simpl in Hround; rewrite Hd1, Hd2 in Hround; simpl in Hround.
    + unfold all_equal. simpl. destruct (partial_eq x y); simpl in *.
      * destruct (IH f' g' lb' k1' k2' Hf' Hg') as [t Ht]. exists t.
        by eapply (until_round_continue _ ne_round_mono).
      * eexists. by eapply (until_round_ready _ ne_round_mono).
    + eexists. by eapply (until_round_ready _ ne_round_mono).
Qed.
End EqLoop.

(** * Theorems *)

#[global] Instance nat_Ord : Ord nat := Nat.compare.
#[global] Instance nat_PartialOrd : PartialOrd nat nat := λ a b, Some (Nat.compare a b).
#[global] Instance nat_PartialEq : PartialEq nat nat := Nat.eqb.

Lemma from_list_eager {A} : eager (FromIter (list A)).
Proof. intros n [l] s' w Hp. destruct l; by apply eff_ret_done in Hp as [Hp _]. Qed.

(** [cmp], [partial_cmp], [lt], [le], [gt] and [ge] of two streams are the
    lexicographic comparisons of the lists they yield, whatever the polls of the
    left stream answer, provided the right stream is never pending. *)
Theorem stream_order {L R A B} `{Stream L A} `{Stream R B} `{!StreamMono L} `{!StreamMono R}
    `{!PartialOrd A B} (l : L) (r : R) la lb :
  eager R → yields l la → yields r lb →
  let o := lex_partial_cmp la lb in
  let new := PartialCmpFuture_new l r in
  (∀ (R' : Type) (S' : Stream R' A) (_ : StreamMono R') (O' : Ord A) (r' : R') la',
     eager R' → yields r' la' →
     ∃ t, until_ready CmpFuture_poll (CmpFuture_new l r') (lex_cmp la la') t) ∧
  (∃ t, until_ready PartialCmpFuture_poll new o t) ∧
  (∃ t, until_ready LtFuture_poll new (bool_decide (o = Some Lt)) t) ∧
  (∃ t, until_ready LeFuture_poll new (bool_decide (o = Some Lt ∨ o = Some Eq)) t) ∧
  (∃ t, until_ready GtFuture_poll new (bool_decide (o = Some Gt)) t) ∧
  (∃ t, until_ready GeFuture_poll new (bool_decide (o = Some Gt ∨ o = Some Eq)) t).
Proof.
  intros He Ha Hb o new. split_and!.
  - intros. by apply CmpFuture_resolves.
  - by apply PartialCmpFuture_resolves.
  - destruct (order_resolves (λ result, match result with Some Lt => true | _ => false end)
      l r la lb He Ha Hb) as [t Ht]. exists t. fold o in Ht. by destruct o as [[]|].
  - destruct (order_resolves (λ result, match result with Some Lt | Some Eq => true | _ => false end)
      l r la lb He Ha Hb) as [t Ht]. exists t. fold o in Ht. by destruct o as [[]|].
  - destruct (order_resolves (λ result, match result with Some Gt => true | _ => false end)
      l r la lb He Ha Hb) as [t Ht]. exists t. fold o in Ht. by destruct o as [[]|].
  - destruct (order_resolves (λ result, match result with Some Gt | Some Eq => true | _ => false end)
      l r la lb He Ha Hb) as [t Ht]. exists t. fold o in Ht. by destruct o as [[]|].
Qed.

(** When neither stream is ever pending, [eq] is true and [ne] is false exactly
    when the items that have a partner in the other stream are equal: a stream is
    "equal" to each of its prefixes, unlike the lists of their items. *)
Theorem stream_equality {L R A B} `{Stream L A} `{Stream R B} `{!StreamMono L} `{!StreamMono R}
    `{!PartialEq A B} (l : L) (r : R) la lb :
  eager L → eager R → yields l la → yields r lb →
  let equal := forallb (λ p, partial_eq p.1 p.2) (zip la lb) in
  (∃ t, until_ready EqFuture_poll (EqFuture_new l r) equal t) ∧
  (∃ t, until_ready NeFuture_poll (EqFuture_new l r) (negb equal) t).
Proof.
  intros Hl Hr [k1 H1]%yields_polls [k2 H2]%yields_polls equal. split.
  - apply (eq_loop Hl Hr (S (k1 + k2 + 1 + 1)) (Fuse_new l) (Fuse_new r) la lb k1 k2); [unfold live; simpl; lia|done..].
  - by apply (ne_loop Hl Hr la (Fuse_new l) (Fuse_new r) lb k1 k2).
Qed.

(** C38 Comparing streams.  [cmp], [partial_cmp], [lt], [le], [gt] and [ge] are the
    lexicographic comparisons of the lists that the streams yield, whatever the polls
    of the left stream answer, provided the right stream is never pending.  When
    neither is ever pending, [eq] is true and [ne] is false exactly when the items
    that have a partner in the other stream are equal: a stream is "equal" to each of
    its prefixes, unlike the lists of their items. *)
Theorem streams_compare {L R A B} `{Stream L A} `{Stream R B} `{!StreamMono L} `{!StreamMono R}
    `{!PartialOrd A B} `{!PartialEq A B} (l : L) (r : R) la lb :
  eager R → yields l la → yields r lb →
  let o := lex_partial_cmp la lb in
  let new := PartialCmpFuture_new l r in
  let equal := forallb (λ p, partial_eq p.1 p.2) (zip la lb) in
  ((∀ (R' : Type) (S' : Stream R' A) (_ : StreamMono R') (O' : Ord A) (r' : R') la',
     eager R' → yields r' la' →
     ∃ t, until_ready CmpFuture_poll (CmpFuture_new l r') (lex_cmp la la') t) ∧
   (∃ t, until_ready PartialCmpFuture_poll new o t) ∧
   (∃ t, until_ready LtFuture_poll new (bool_decide (o = Some Lt)) t) ∧
   (∃ t, until_ready LeFuture_poll new (bool_decide (o = Some Lt ∨ o = Some Eq)) t) ∧
   (∃ t, until_ready GtFuture_poll new (bool_decide (o = Some Gt)) t) ∧
   (∃ t, until_ready GeFuture_poll new (bool_decide (o = Some Gt ∨ o = Some Eq)) t)) ∧
  (eager L →
   (∃ t, until_ready EqFuture_poll (EqFuture_new l r) equal t) ∧
   (∃ t, until_ready NeFuture_poll (EqFuture_new l r) (negb equal) t)).
Proof.
  intros He Ha Hb o new equal. split; [by apply stream_order|].
  intros Hl. by apply stream_equality.
Qed.

(** The second pair is a vector and a proper prefix of it: [eq] says true. *)
Lemma streams_compare_witness :
  (∃ t, until_ready LtFuture_poll
    (PartialCmpFuture_new (mkScript [Ready 1; Pending; Ready 2]) (from_iter [1; 3])) true t) ∧
  (∃ t, until_ready EqFuture_poll (EqFuture_new (from_iter [1]) (from_iter [1; 2])) true t).
Proof.
  split.
  - destruct (streams_compare (mkScript [Ready 1; Pending; Ready 2]) (from_iter [1; 3]) [1; 2] [1; 3]
      from_list_eager (Script_yields [Ready 1; Pending; Ready 2]) (from_list_yields [1; 3]))
      as [(_ & _ & Hlt & _) _]. exact Hlt.
  - destruct (streams_compare (from_iter [1]) (from_iter [1; 2]) [1] [1; 2]
      from_list_eager (from_list_yields [1]) (from_list_yields [1; 2])) as [_ Heq].
    exact (proj1 (Heq from_list_eager)).
Defined.

(** What the proviso on pending polls is for: when the right stream is
    pending at the wrong moment, [cmp] calls two streams of equal items [Less],
    and [eq] loses the item of the left stream it already has. *)
Theorem stream_compare_pending :
  let l := mkScript [Ready 1] in
  let r := mkScript [Ready 1; Pending] in
  let r' := mkScript [Pending; Ready 1] in
  yields l [1] ∧ yields r [1] ∧ yields r' [1] ∧
  (∃ t, until_ready CmpFuture_poll (CmpFuture_new l r) Lt t) ∧
  (∃ t, until_ready EqFuture_poll (EqFuture_new (mkScript [Ready 1; Ready 2])
     (mkScript [Pending; Ready 1; Ready 2])) false t).
Proof.
  intros l r r'.
  split_and!; [apply (Script_yields [Ready 1])|apply (Script_yields [Ready 1; Pending])
              |apply (Script_yields [Pending; Ready 1])|..].
  - eexists. eapply until_ready_later with (n := 5); [vm_compute; reflexivity|].
    eapply until_ready_now with (n := 5). vm_compute. reflexivity.
  - eexists. eapply until_ready_later with (n := 5); [vm_compute; reflexivity|].
    eapply until_ready_now with (n := 5). vm_compute. reflexivity.
Qed.
