(* ===== verification/StreamTheorems.v ===== *)
(** What the streams of the library promise, component by component: the
    contract of wakers, the items every adapter and combinator yields, and the
    values the consumers resolve to. *)

From S2P Require Import Prelude Utils Async StreamAdapters StreamAdaptersSpec.
From S2P Require Import StreamConsumers StreamConsumersSpec StreamSources.
From S2P Require Import StreamCombine StreamCombineSpec StreamCompare StreamCompareSpec.

(** * Adapters and combinators *)

Section Adapters.
Context `{Stream St A} `{!StreamMono St}.
Context `{FnMut F A B} `{FnMut G A ()} `{FnMut Fs (T * A) (option B * T)} `{!Clone A}.
Context `{FnMut P A bool} `{FnMut Fo A (option B)}.

(** C31 The adapters, on a stream that yields [l].  Those that change items give,
    through [map], the closure's answers, through [inspect], [fuse] and [copied]
    [l] itself ([inspect] calling its closure on each item), through [enumerate]
    the items numbered from 0, through [scan] the answers up to the first [None],
    through [cloned] the clones.  Those that choose items: [filter] and
    [filter_map] by their closure, [take] and [skip] by number, [take_while] and
    [skip_while] up to the first item refused, [step_by] every [step]-th starting
    with the first. *)
Theorem adapters_yield (s : St) (f : F) (g : G) (st : T) (fs : Fs) (p : P) (fo : Fo) (n step : N)
    (sb : StepBy St) l :
    yields s l →
    yields (Map_new s f) (calls f l).*2 ∧
    yields (Inspect_new s g) l ∧
    (∀ s', items s l s' → items (Inspect_new s g) l (mkInspect s' (calls_end (B:=()) g l))) ∧
    ((N.of_nat (length l) < usize_modulus)%N → yields (Enumerate_new s) (number_from 0 l)) ∧
    yields (Scan_new s st fs) (scanned st fs l) ∧
    yields (Fuse_new s) l ∧
    yields (Cloned_new s) (clone <$> l) ∧
    yields (Copied_new s) l ∧
    yields (Filter_new s p) (List.filter snd (calls p l)).*1 ∧
    yields (FilterMap_new s fo) (omap snd (calls fo l)) ∧
    yields (Take_new s n) (take (N.to_nat n) l) ∧
    yields (TakeWhile_new s p) (accepted p l) ∧
    yields (Skip_new s n) (drop (N.to_nat n) l) ∧
    yields (SkipWhile_new s p) (after_accepted p l) ∧
    (StepBy_new s step = Done (sb, []) → yields sb (every (N.to_nat step) 0 l)).
Proof.
  intros Hy. split_and!; try (intros; by first
    [ apply Map_yields | apply Inspect_yields | apply Inspect_items | apply Enumerate_yields_from
    | apply Scan_yields | apply Fuse_yields | apply Cloned_yields | apply Copied_yields
    | apply Filter_yields | apply FilterMap_yields | apply Take_yields | apply TakeWhile_yields
    | apply Skip_yields | apply SkipWhile_yields ]).
  intros Hsb. unfold StepBy_new, usize_sub in Hsb. destruct (N.leb_spec 1 step) as [Hz|]; [|done].
  simpl in Hsb. simplify_eq. pose proof (StepBy_yields_from s (step - 1) 0 l Hy) as Hs.
  by replace (S (N.to_nat (step - 1))) with (N.to_nat step) in Hs by lia.
Qed.
End Adapters.

Section Combinators.
Context `{Stream St A} `{Stream U A} `{Stream V B} `{!StreamMono St} `{!StreamMono U} `{!StreamMono V}.
Context `{Stream W Inn} `{!IntoStream Inn U} `{!StreamMono W} `{!StreamFused U} `{Clone St}.
Context `{FnMut F J Inn} `{Stream X J} `{!StreamMono X}.

(** C32 The combinators: [chain] yields the items of the first stream and then
    those of the second, [zip] the pairs up to the end of the shorter one,
    [flatten] and [flat_map] the items of the inner streams one after another,
    [cycle] the items of its stream again and again (inner streams that stay
    ended once they have ended; clones that are copies).  [merge] yields every item
    of both streams, once, each stream's items in their order, whatever its coin
    says and however the polls of the two streams alternate between pending and
    ready. *)
Theorem combinators_yield (s : St) (u : U) (v : V) (w : W) (x : X) (f : F) la lb lv lw lx ll lxl :
    yields s la → yields u lb → yields v lv → yields w lw → yields x lx →
    Forall2 (λ i l, yields (into_stream i) l) lw ll →
    Forall2 (λ i l, yields (into_stream i) l) (calls f lx).*2 lxl →
    (∀ s : St, clone s = s) →
    yields (Chain_new s u) (la ++ lb) ∧
    yields (Zip_new s v) (zip la lv) ∧
    yields (Flatten_new (U:=U) w) (concat ll) ∧
    yields (FlatMap_new (U:=U) x f) (concat lxl) ∧
    (la ≠ [] → ∀ k, ∃ src, items (Cycle_new s) (concat (replicate k la)) (mkCycle s src)) ∧
    (∀ rng, (rng < 2 ^ 32)%N → ∃ l, interleave la lb l ∧ yields (Merge_new s u rng) l).
Proof.
  intros Hs Hu Hv Hw Hx Hll Hlxl Hc. split_and!.
  - by apply Chain_yields.
  - by apply Zip_yields.
  - by eapply Flatten_yields.
  - by eapply FlatMap_yields.
  - intros Hne k. destruct la as [|a la]; [done|]. by apply Cycle_items.
  - intros rng Hr. by apply Merge_yields.
Qed.
End Combinators.

Section Timed.
Context {St D A : Type} `{Stream St A} `{Timer D} `{!StreamMono St} `{!FutureMono D}.

(** Streams and time: [delay] and [throttle] change when items arrive, not
    which, provided timers fire; the next tick of [interval] is the first instant
    after [now] that is a whole number of intervals after the previous tick. *)
Theorem timed_streams (s : St) (d d' : D) (dur : N) l prev now interval next w :
    yields s l → resolves d () d' → (∀ (d : D) t, ∃ d', resolves (timer_reset d t) () d') →
    (prev <= now)%N → next_interval prev now interval = Done (next, w) →
    yields (mkDelay s d false) l ∧
    yields (mkThrottle s dur false d) l ∧
    (now < next)%N ∧
    ∃ k, (1 <= k)%N ∧ next = (prev + interval * k)%N ∧ (prev + interval * (k - 1) <= now)%N.
Proof.
  intros Hy Hd Hreset Hle Hn. split_and!.
  - by eapply Delay_yields.
  - by apply Throttle_yields.
  - apply (next_interval_first _ _ _ _ _ Hle Hn).
  - apply (next_interval_first _ _ _ _ _ Hle Hn).
Qed.
End Timed.

(** * The contract of wakers *)

Section Wakers.
Context `{Stream St A} `{Stream U A} `{Stream V B} `{!StreamWakes St} `{!StreamWakes U} `{!StreamWakes V}.
Context `{Stream W (X * Y)} `{!StreamWakes W}.
Context `{FnMut F A B} `{FnMut G A ()} `{FnMut P A bool} `{FnMut Fo A (option B)}.
Context `{FnMut Fs (T * A) (option B * T)} `{FnMut Fj A J} `{!IntoStream A V} `{!IntoStream J V}.
Context `{Timer D} `{!FutureWakes D} `{Clone St} `{!Clone A}.
Context `{FnMut Fd (T * A) T} `{FnMut Ft (T * A) (Result T Er)} `{FnMut Fe A (Result () Er)}.
Context `{Collection C A} `{Collection CX X} `{Collection CY Y}.
Context `{!Ord A} `{FnMut Fc (A * A) comparison} `{FnMut K A A} `{!PartialOrd A B} `{!PartialEq A B}.

(** C40 A poll that answers [Pending] has called the waker or left it with
    somebody who will, if the streams (and the timer) underneath do so.  This holds
    of every struct of src/src/stream/stream/:
    - the adapters [map], [inspect], [enumerate], [filter], [filter_map], [take],
      [take_while], [skip], [skip_while], [step_by], [scan], [fuse], [cloned] and
      [copied];
    - the combinators [chain], [zip], [flatten], [flat_map], [cycle] and [merge];
    - [delay], [throttle] and [timeout], and [interval];
    - the futures of [next], [all], [any], [find], [find_map], [position], [nth],
      [last], [count], [fold], [for_each], [try_fold], [try_for_each], [partition],
      [unzip], [min], [max], [min_by], [max_by], [min_by_key] and [max_by_key];
    - the comparisons [cmp], [partial_cmp], [lt], [le], [gt], [ge], [eq] and [ne]. *)
Theorem streams_wake :
    (StreamWakes (Map St F) ∧ StreamWakes (Inspect St G) ∧ StreamWakes (Enumerate St) ∧
     StreamWakes (Filter St P) ∧ StreamWakes (FilterMap St Fo) ∧ StreamWakes (Take St) ∧
     StreamWakes (TakeWhile St P) ∧ StreamWakes (Skip St) ∧ StreamWakes (SkipWhile St P) ∧
     StreamWakes (StepBy St) ∧ StreamWakes (Scan St T Fs) ∧ StreamWakes (Fuse St) ∧
     StreamWakes (Cloned St) ∧ StreamWakes (Copied St)) ∧
    (StreamWakes (Chain St U) ∧ StreamWakes (Zip St V A) ∧ StreamWakes (Flatten St V) ∧
     StreamWakes (FlatMap St V Fj) ∧ StreamWakes (Cycle St) ∧ StreamWakes (Merge St U)) ∧
    (StreamWakes (Delay St D) ∧ StreamWakes (Throttle St D) ∧ StreamWakes (Timeout St D) ∧
     StreamWakes (Interval D)) ∧
    (FutureWakes (NextFuture St) ∧ FutureWakes (AllFuture St P) ∧ FutureWakes (AnyFuture St P) ∧
     FutureWakes (FindFuture St P) ∧ FutureWakes (FindMapFuture St Fo) ∧
     FutureWakes (PositionFuture St P) ∧ FutureWakes (NthFuture St) ∧
     FutureWakes (LastFuture St A) ∧ FutureWakes (CountFuture St)) ∧
    (FutureWakes (FoldFuture St Fd T) ∧ FutureWakes (ForEachFuture St G) ∧
     FutureWakes (TryFoldFuture St Ft T) ∧ FutureWakes (TryForEachFuture St Fe) ∧
     FutureWakes (PartitionFuture St P C) ∧ FutureWakes (UnzipFuture W CX CY)) ∧
    (FutureWakes (MinFuture St A) ∧ FutureWakes (MaxFuture St A) ∧
     FutureWakes (MinByFuture St Fc A) ∧ FutureWakes (MaxByFuture St Fc A) ∧
     FutureWakes (MinByKeyFuture St A K) ∧ FutureWakes (MaxByKeyFuture St A K)) ∧
    FutureWakes (H:=CmpFuture_poll) (CmpFuture St U A A) ∧
    FutureWakes (H:=PartialCmpFuture_poll) (PartialCmpFuture St V A B) ∧
    FutureWakes (H:=LtFuture_poll) (PartialCmpFuture St V A B) ∧
    FutureWakes (H:=LeFuture_poll) (PartialCmpFuture St V A B) ∧
    FutureWakes (H:=GtFuture_poll) (PartialCmpFuture St V A B) ∧
    FutureWakes (H:=GeFuture_poll) (PartialCmpFuture St V A B) ∧
    FutureWakes (H:=EqFuture_poll) (EqFuture St V) ∧
    FutureWakes (H:=NeFuture_poll) (EqFuture St V).
Proof.
  split; [split_and!; apply _|]. split; [split_and!; apply _|]. split; [split_and!; apply _|].
  split; [split_and!; apply _|]. split; [split_and!; apply _|]. split; [split_and!; apply _|].
  split_and!; [apply CmpFuture_wakes|apply PartialCmpFuture_wakes|apply order_wakes..|apply EqFuture_wakes|apply NeFuture_wakes].
Qed.
End Wakers.

(** * Consumers *)

Section Consumers.
Context `{Stream St A} `{!StreamMono St}.
Context `{FnMut P A bool} `{FnMut Fo A (option B)}.

(** The consumers that search: [next], [all], [any], [find], [find_map],
    [position], [nth], [last] and [count] resolve to what the functions of those
    names give on the list of items, the closure having been called on the items
    in order. *)
Theorem consumers_search (s : St) (p : P) (f : Fo) (n : N) l :
    yields s l → (N.of_nat (length l) < usize_modulus)%N →
    resolves_to (mkNextFuture s) (head l) ∧
    resolves_to (AllFuture_new s p) (forallb snd (calls p l)) ∧
    resolves_to (AnyFuture_new s p) (existsb snd (calls p l)) ∧
    resolves_to (FindFuture_new s p) (fst <$> List.find snd (calls p l)) ∧
    resolves_to (FindMapFuture_new s f) (head (omap snd (calls f l))) ∧
    resolves_to (PositionFuture_new s p) (position_from 0 (calls p l)) ∧
    resolves_to (NthFuture_new s n) (l !! N.to_nat n) ∧
    resolves_to (LastFuture_new s) (list.last l) ∧
    resolves_to (CountFuture_new s) (N.of_nat (length l)).
Proof.
  intros Hy Hl. split_and!.
  - destruct Hy as [s s' Hp|s a s' l Hp Hy]; eexists; by apply NextFuture_resolves.
  - by apply AllFuture_resolves.
  - by apply AnyFuture_resolves.
  - by apply FindFuture_resolves.
  - by apply FindMapFuture_resolves.
  - by apply PositionFuture_resolves_from.
  - by apply NthFuture_resolves.
  - pose proof (LastFuture_resolves_from s None l Hy) as Hr. by destruct (list.last l).
  - by apply (CountFuture_resolves_from s 0 l).
Qed.

Context `{FnMut Fd (T * A) T} `{FnMut G A ()} `{FnMut Ft (T * A) (Result T E)}.
Context `{FnMut Fe A (Result () E)} `{Collection C A}.

(** The consumers that fold: [fold] and [for_each] go through all the items
    in order, [try_fold] and [try_for_each] stop at the first error and return
    it, [partition] puts each item where its closure says, in order. *)
Theorem consumers_fold (s s' : St) (p : P) (fd : Fd) (g : G) (ft : Ft) (fe : Fe) (init : T) l :
    drains s l s' →
    resolves_to (FoldFuture_new s init fd) (fst (fold_calls fd init l)) ∧
    resolves (ForEachFuture_new s g) () (mkForEachFuture s' (calls_end (B:=()) g l)) ∧
    resolves_to (TryFoldFuture_new s init ft) (try_fold_calls ft init l) ∧
    resolves_to (TryForEachFuture_new s fe) (first_err (calls fe l)) ∧
    resolves_to (PartitionFuture_new (B:=C) s p)
      (fold_left (λ c a, coll_extend c [a]) (List.filter snd (calls p l)).*1 coll_default,
       fold_left (λ c a, coll_extend c [a]) (List.filter (negb ∘ snd) (calls p l)).*1 coll_default).
Proof.
  intros Hd. assert (yields s l) as Hy by (apply yields_drains; by exists s'). split_and!.
  - eexists. by apply FoldFuture_resolves.
  - by apply ForEachFuture_resolves.
  - by apply TryFoldFuture_resolves.
  - by apply TryForEachFuture_resolves.
  - by apply PartitionFuture_resolves_from.
Qed.

(** C37 The futures that consume a stream.  Those that search ([next], [all], [any],
    [find], [find_map], [position], [nth], [last], [count]) resolve to what the
    functions of those names give on the list of items, the closure having been
    called on the items in order.  Those that fold go through all the items in
    order: [fold] and [for_each] to the end, [try_fold] and [try_for_each] to the
    first error, which they return, and [partition] puts each item where its
    closure says. *)
Theorem consumers_resolve (s s' : St) (p : P) (f : Fo) (n : N) (fd : Fd) (g : G) (ft : Ft)
    (fe : Fe) (init : T) l :
    drains s l s' → (N.of_nat (length l) < usize_modulus)%N →
    (resolves_to (mkNextFuture s) (head l) ∧
     resolves_to (AllFuture_new s p) (forallb snd (calls p l)) ∧
     resolves_to (AnyFuture_new s p) (existsb snd (calls p l)) ∧
     resolves_to (FindFuture_new s p) (fst <$> List.find snd (calls p l)) ∧
     resolves_to (FindMapFuture_new s f) (head (omap snd (calls f l))) ∧
     resolves_to (PositionFuture_new s p) (position_from 0 (calls p l)) ∧
     resolves_to (NthFuture_new s n) (l !! N.to_nat n) ∧
     resolves_to (LastFuture_new s) (list.last l) ∧
     resolves_to (CountFuture_new s) (N.of_nat (length l))) ∧
    (resolves_to (FoldFuture_new s init fd) (fst (fold_calls fd init l)) ∧
     resolves (ForEachFuture_new s g) () (mkForEachFuture s' (calls_end (B:=()) g l)) ∧
     resolves_to (TryFoldFuture_new s init ft) (try_fold_calls ft init l) ∧
     resolves_to (TryForEachFuture_new s fe) (first_err (calls fe l)) ∧
     resolves_to (PartitionFuture_new (B:=C) s p)
       (fold_left (λ c a, coll_extend c [a]) (List.filter snd (calls p l)).*1 coll_default,
        fold_left (λ c a, coll_extend c [a]) (List.filter (negb ∘ snd) (calls p l)).*1 coll_default)).
Proof.
  intros Hd Hl. split; [|by eapply consumers_fold].
  apply consumers_search; [|done]. apply yields_drains. by exists s'.
Qed.
End Consumers.

Section Extrema.
Context `{Stream St A} `{!StreamMono St} `{!Ord A} `{!OrdLaws A}.
Context {F : Type} `{FnMut F (A * A) comparison}.

(** [min] and [max] (and [min_by], [max_by] with a comparison that has no
    state) resolve to [None] on an empty stream, and otherwise to an item that no
    item beats, the first such item of the stream. *)
Theorem extrema (s : St) (f : F) l :
    yields s l → (∀ x y, call_mut f (x, y) = (cmp x y, f)) →
    ∃ lo hi, (l = [] ↔ lo = None) ∧ (l = [] ↔ hi = None) ∧
      resolves_to (MinFuture_new s) lo ∧ resolves_to (MaxFuture_new s) hi ∧
      resolves_to (MinByFuture_new s f) lo ∧ resolves_to (MaxByFuture_new s f) hi ∧
      (∀ m, lo = Some m → first_best (λ x y, is_lt (cmp x y)) l m) ∧
      (∀ m, hi = Some m → first_best (λ x y, is_gt (cmp x y)) l m).
Proof.
  intros Hy Hf.
  exists (best_of (λ x y, is_lt (cmp x y)) l), (best_of (λ x y, is_gt (cmp x y)) l).
  assert (∀ b : A → A → bool,
    (l ≠ [] → ∃ m, best_of b l = Some m ∧ first_best b l m) →
    (l = [] ↔ best_of b l = None) ∧ ∀ m, best_of b l = Some m → first_best b l m) as Hb.
  { intros b Hex. destruct (decide (l = [])) as [->|Hne]; [done|].
    destruct (Hex Hne) as (m & -> & Hm). split; [done|]. by intros ? [= <-]. }
  destruct (Hb _ (min_first l)) as [Hlo1 Hlo2]. destruct (Hb _ (max_first l)) as [Hhi1 Hhi2].
  split_and!; [done|done|..|done|done].
  - by apply MinFuture_resolves_from.
  - by apply MaxFuture_resolves_from.
  - by apply MinByFuture_resolves_from.
  - by apply MaxByFuture_resolves_from.
Qed.
End Extrema.

(** * Witnesses *)

(** A stream with pending polls, a vector, and a timer that fires at its second
    poll and a clock that stands still. *)
Definition some_polls : list (Poll nat) := [Ready 1; Pending; Ready 5; Pending; Pending; Ready 4].
Abbreviation a_script := (mkScript some_polls).

Record TwoPolls : Type := mkTwoPolls { fired : bool }.
Definition TwoPolls_poll (fuel : nat) (this : TwoPolls) : Eff (Poll () * TwoPolls) :=
  if fired this then mret (Ready tt, this)
  else _ ← clone_waker; mret (Pending, mkTwoPolls true).
#[global] Instance TwoPolls_Timer : Timer TwoPolls := {|
  timer_Future := TwoPolls_poll;
  timer_new _ := mkTwoPolls false;
  timer_reset _ _ := mkTwoPolls false;
  timer_now d := (7%N, d)
|}.
#[global] Instance TwoPolls_mono : FutureMono TwoPolls.
Proof. intros [[]] n m r _ Hp; exact Hp. Qed.
#[global] Instance TwoPolls_wakes : FutureWakes TwoPolls.
Proof. intros n [[]] f' w Hp; cbv in Hp; [done|by injection Hp as <- <-]. Qed.

Lemma TwoPolls_fires (d : TwoPolls) : ∃ d', resolves d () d'.
Proof.
  exists (mkTwoPolls true). destruct d as [[]].
  - by eapply until_ready_now with (n := 0).
  - eapply until_ready_later with (n := 0); [reflexivity|]. by eapply until_ready_now with (n := 0).
Qed.

#[global] Instance nat_Clone : Clone nat := λ n, n.
#[global] Instance list_IntoStream : IntoStream (list nat) (FromIter (list nat)) := from_iter.
#[global] Instance nat_IntoStream : IntoStream nat (FromIter (list nat)) := λ n, from_iter [n].
#[global] Instance script_Clone : Clone (Script nat) := λ s, s.

Lemma adapters_yield_witness :
  yields (Map_new a_script S) [2; 6; 5] ∧
  yields (Scan_new a_script 0 (λ '(st, a), (if decide (a = 4) then None else Some (st + a), st + a)))
    [1; 6] ∧
  yields (Filter_new a_script Nat.even) [4] ∧ yields (Take_new a_script 2) [1; 5].
Proof.
  destruct (adapters_yield a_script S (λ _, ()) 0
    (λ '(st, a), (if decide (a = 4) then None else Some (st + a), st + a)) Nat.even (λ a, Some a) 2 2
    (mkStepBy a_script 1 0) [1; 5; 4] (Script_yields some_polls))
    as (Hm & _ & _ & _ & Hs & _ & _ & _ & Hf & _ & Ht & _).
  split; [exact Hm|]. split; [exact Hs|]. split; [exact Hf|exact Ht].
Defined.

Lemma combinators_yield_witness :
  yields (Chain_new a_script (from_iter [8])) [1; 5; 4; 8] ∧
  yields (Flatten_new (U:=FromIter (list nat)) (from_iter [[1; 2]; []; [3]])) [1; 2; 3] ∧
  ∃ l, interleave [1; 5; 4] [8] l ∧ yields (Merge_new a_script (from_iter [8]) 12345) l.
Proof.
  destruct (combinators_yield a_script (from_iter [8]) (from_iter [9]) (from_iter [[1; 2]; []; [3]])
    (from_iter [2]) (λ n : nat, [n; n]) [1; 5; 4] [8] [9] [[1; 2]; []; [3]] [2] [[1; 2]; []; [3]]
    [[2; 2]]
    (Script_yields some_polls) (from_list_yields [8]) (from_list_yields [9])
    (from_list_yields [[1; 2]; []; [3]]) (from_list_yields [2]))
    as (Hc & _ & Hf & _ & _ & Hm).
  - repeat constructor; apply from_list_yields.
  - repeat constructor; apply from_list_yields.
  - reflexivity.
  - split; [exact Hc|]. split; [exact Hf|]. apply Hm. vm_compute. reflexivity.
Defined.

Lemma timed_streams_witness :
  yields (mkThrottle a_script 3 false (mkTwoPolls true)) [1; 5; 4].
Proof.
  apply (timed_streams a_script (mkTwoPolls true) (mkTwoPolls true) 3 [1; 5; 4] 10 25 10 30 []
    (Script_yields some_polls)).
  - eapply until_ready_now with (n := 0). reflexivity.
  - intros d t. apply TwoPolls_fires.
  - vm_compute. discriminate.
  - vm_compute. reflexivity.
Defined.

Lemma streams_wake_witness :
  StreamWakes (Merge (Script nat) (FromIter (list nat))) ∧ StreamWakes (Inspect (Script nat) (nat → ())) ∧
  StreamWakes (FlatMap (Script nat) (FromIter (list nat)) (nat → nat)) ∧
  FutureWakes (H:=CmpFuture_poll) (CmpFuture (Script nat) (FromIter (list nat)) nat nat).
Proof.
  pose proof (streams_wake (St:=Script nat) (A:=nat) (U:=FromIter (list nat)) (V:=FromIter (list nat)) (B:=nat)
    (W:=FromIter (list (nat * nat))) (X:=nat) (Y:=nat) (F:=nat → nat) (G:=nat → ()) (P:=nat → bool)
    (Fo:=nat → option nat) (T:=nat) (Fs:=nat * nat → option nat * nat) (Fj:=nat → nat) (J:=nat) (D:=TwoPolls)
    (Fd:=nat * nat → nat) (Er:=nat) (Ft:=nat * nat → Result nat nat) (Fe:=nat → Result () nat)
    (C:=list nat) (CX:=list nat) (CY:=list nat) (Fc:=nat * nat → comparison) (K:=nat → nat)) as Hall.
  destruct Hall as (Ha & Hc & _ & _ & _ & _ & Hcmp & _).
  destruct Ha as (_ & Hi & _). destruct Hc as (_ & _ & _ & Hf & _ & Hm).
  split; [exact Hm|]. split; [exact Hi|]. split; [exact Hf|exact Hcmp].
Defined.

Lemma consumers_resolve_witness :
  resolves_to (PositionFuture_new a_script Nat.even) (Some 2%N) ∧
  resolves_to (CountFuture_new a_script) 3%N ∧
  resolves_to (FoldFuture_new a_script 0 (λ '(n, a), n + a)) 10.
Proof.
  destruct (consumers_resolve (C:=list nat) a_script (mkScript []) Nat.even (λ a, Some a) 0
    (λ '(n, a), n + a) (λ _, ()) (λ '(n, a), Ok (E:=nat) (n + a)) (λ _, Ok (E:=nat) ()) 0 [1; 5; 4]
    (Script_drains some_polls) eq_refl) as ((_ & _ & _ & _ & _ & Hp & _ & _ & Hc) & Hf & _).
  split_and!; [exact Hp|exact Hc|exact Hf].
Defined.

#[global] Instance nat_OrdLaws : OrdLaws nat.
Proof.
  split; intros *; unfold cmp, nat_Ord.
  - apply Nat.compare_antisym.
  - rewrite !Nat.compare_lt_iff. lia.
  - rewrite Nat.compare_eq_iff. by intros ->.
Qed.

Lemma extrema_witness : ∃ hi, resolves_to (MaxFuture_new a_script) (Some hi) ∧
  first_best (λ x y, is_gt (cmp x y)) [1; 5; 4] hi.
Proof.
  destruct (extrema a_script (λ '(x, y), cmp x y) [1; 5; 4] (Script_yields some_polls))
    as (lo & hi & _ & Hhi & _ & Hr & _ & _ & _ & Hb); [reflexivity|].
  destruct hi as [m|]; [|discriminate (proj2 Hhi eq_refl)].
  exists m. split; [exact Hr|by apply Hb].
Defined.
