(* ===== verification/WakerSetSpec.v ===== *)
(** What the waker set of src/src/sync/waker_set.rs does, in terms of its
    entries, over any slab that satisfies the laws of the slab crate. *)

From stdpp Require Import gmap fin_maps.
From S2P Require Import Prelude WakerSet.

Section Theorems.
Context {W S : Type} `{SlabLaws S (option W)}.
Implicit Types ws : WakerSet S.

Definition ws_view ws : gmap nat (option W) := inner_view (ws_inner ws).

(** The waker set as a map from keys to waiting or notified operations:
    [insert] adds a waiting entry under a fresh key, [remove] takes an entry
    away, [cancel] takes it away and passes a notification it had received on to
    an operation that still waits (returning whether there was one), and none of
    them panics on the keys [insert] gave out; the lock is released and the
    flag and counter are right after each. *)
Lemma waker_set_entries ws k :
    ws_wf ws →
    ws_wf (WakerSet_new (W:=W) (S:=S)) ∧ ws_view WakerSet_new = ∅ ∧
    (∀ w key ws' l, insert w ws = Done ((key, ws'), l) →
       ws_wf ws' ∧ l = [] ∧ ws_view ws !! key = None ∧ ws_view ws' = <[key:=Some w]> (ws_view ws)) ∧
    (∀ w, (N.of_nat (size (ws_view ws)) + 1 < usize_modulus)%N → ∃ r, insert w ws = Done r) ∧
    (is_Some (ws_view ws !! k) → ∃ ws', remove k ws = Done ((tt, ws'), []) ∧ ws_wf ws' ∧
       ws_view ws' = delete k (ws_view ws)) ∧
    (∀ o, ws_view ws !! k = Some o →
       ∃ ws' kl, cancel k ws = Done ((bool_decide (kl ≠ []), ws'), kl.*2) ∧ ws_wf ws' ∧
       match o with
       | Some _ => kl = [] ∧ ws_view ws' = delete k (ws_view ws)
       | None => notify_post NotifyOne (delete k (ws_view ws)) kl (ws_view ws')
       end).
Proof.
  intros Hwf. destruct (wset_new_spec (WS:=WakerSet S) (W:=W)) as [Hn1 Hn2].
  refine (conj Hn1 (conj Hn2 (conj _ (conj _ (conj _ _))))).
  - intros w key ws' l. exact (wset_insert_spec (WS:=WakerSet S) w ws key ws' l Hwf).
  - intros w. exact (wset_insert_total (WS:=WakerSet S) w ws Hwf).
  - exact (wset_remove_spec (WS:=WakerSet S) k ws Hwf).
  - intros o. exact (wset_cancel_spec (WS:=WakerSet S) k ws o Hwf).
Qed.

Lemma woke_NoDup (m : gmap nat (option W)) l m' : woke m l m' → NoDup l.*1.
Proof.
  induction 1 as [|m k w l m' Hk Hw IH]; simpl; [constructor|]. constructor; [|done].
  intros [[k' w'] [Heq Hin]]%list_elem_of_fmap. simpl in Heq. subst k'.
  pose proof (woke_in _ _ _ _ _ Hw Hin) as Hk'. unfold waiting in Hk'.
  by rewrite lookup_insert_eq in Hk'.
Qed.

(** Notification: [notify_all] leaves nobody waiting; [notify_one] wakes
    exactly one waiting operation if there is any; [notify_any] wakes at most one,
    and afterwards nobody waits or some entry has been notified and has not
    removed itself yet.  The result says whether somebody was woken, the wakers
    called are those of the entries notified, each once, and no entry is added
    or removed. *)
Lemma waker_set_notifies (n : Notify) ws :
    ws_wf ws →
    let call := match n with NotifyAny => notify_any | NotifyOne => notify_one
                | NotifyAll => notify_all end in
    ∃ ws' kl, call ws = Done ((bool_decide (kl ≠ []), ws'), kl.*2) ∧ ws_wf ws' ∧
      NoDup kl.*1 ∧ dom (ws_view ws') = dom (ws_view ws) ∧
      (∀ k w, (k, w) ∈ kl → waiting (ws_view ws) k w) ∧
      (∀ k, ws_view ws' !! k = if decide (k ∈ kl.*1) then Some None else ws_view ws !! k) ∧
      match n with
      | NotifyAll => nobody_waits (ws_view ws')
      | NotifyOne => (kl = [] ∧ nobody_waits (ws_view ws)) ∨ length kl = 1
      | NotifyAny => length kl ≤ 1 ∧ (nobody_waits (ws_view ws') ∨ ∃ k, ws_view ws' !! k = Some None)
      end.
Proof.
  intros Hwf call.
  assert (∃ ws' kl, call ws = Done ((bool_decide (kl ≠ []), ws'), kl.*2) ∧ ws_wf ws' ∧
    notify_post n (ws_view ws) kl (ws_view ws')) as (ws' & kl & Hc & Hwf' & Hp).
  { destruct (wset_notify_spec (WakerSetLaws:=WakerSet_Laws) n ws Hwf) as (ws1 & kl1 & Hn & Hwf1 & Hp1).
    assert (∀ b, wset_one_wanted ws = false ∨ (n = NotifyAny ∧ wset_any_wanted ws = false) → (b = false) →
      ∃ ws' kl, (mret (b, ws) : Act W (bool * WakerSet S)) = Done ((bool_decide (kl ≠ []), ws'), kl.*2) ∧
        ws_wf ws' ∧ notify_post n (ws_view ws) kl (ws_view ws')) as Hskip.
    { intros b Hw ->. exists ws, []. split; [done|]. split; [done|]. split; [constructor|].
      destruct Hw as [Hw|[-> Hw]].
      - assert (nobody_waits (ws_view ws)) as Hno.
        { intros k w Hk. assert (wset_one_wanted ws = true); [|congruence].
          apply (wset_one_wanted_spec (WakerSetLaws:=WakerSet_Laws) ws Hwf). by exists k, w. }
        destruct n; [|by split; [simpl; lia|]|done]. split; [simpl; lia|]. intros _.
        destruct (decide (ws_view ws = ∅)) as [|Hne]; [by left|right].
        apply map_choose in Hne as (k & [w|] & Hk); [by destruct (Hno k w)|by exists k].
      - split; [simpl; lia|]. intros _.
        destruct (decide (ws_view ws = ∅)) as [|Hne]; [by left|right].
        destruct (decide (map_Exists (λ _ x, x = None) (ws_view ws))) as [(k & x & Hx & ->)|Hn2];
          [by exists k|].
        assert (wset_any_wanted ws = true); [|congruence].
        apply (wset_any_wanted_spec (WakerSetLaws:=WakerSet_Laws) ws Hwf). split.
        + apply map_choose in Hne as (k & [w|] & Hk); [by exists k, w|].
          destruct Hn2. by exists k, None.
        + intros k Hk. destruct Hn2. by exists k, None. }
    subst call. destruct n; unfold notify_any, notify_one, notify_all.
    - destruct (any_wanted (ws_flag ws)) eqn:Hw; [by exists ws1, kl1|]. apply Hskip; auto.
    - destruct (one_wanted (ws_flag ws)) eqn:Hw; [by exists ws1, kl1|]. apply Hskip; auto.
    - destruct (one_wanted (ws_flag ws)) eqn:Hw; [by exists ws1, kl1|]. apply Hskip; auto. }
  pose proof Hp as [Hw Hn]. exists ws', kl.
  split_and!; [done|done|by eapply woke_NoDup|by eapply woke_dom|intros k w; by eapply woke_in
              |intros k; by apply woke_lookup|].
  destruct n; [|destruct Hn as [Hl Hn]|exact Hn].
  - split; [apply Hn|]. destruct (decide (map_Exists (λ _ x, x = None) (ws_view ws'))) as [(k & x & Hx & ->)|Hno];
      [right; by exists k|left].
    intros k w Hk. destruct kl as [|[k1 w1] kl].
    + apply woke_empty in Hw. rewrite Hw in *. destruct (proj2 Hn eq_refl) as [He|[k' Hk']].
      * unfold waiting in Hk. by rewrite He, lookup_empty in Hk.
      * destruct Hno. by exists k', None.
    + destruct Hno. exists k1, None. split; [|done]. rewrite (woke_lookup _ _ _ _ Hw).
      rewrite decide_True; [done|left].
  - destruct kl as [|? [|? ?]]; [left; auto|by right|simpl in Hl; lia].
Qed.
(** C9 The waker set as a map from keys to waiting or notified operations:
    [insert] adds a waiting entry under a fresh key, [remove] takes an entry
    away, [cancel] takes it away and passes a notification it had received on to
    an operation that still waits (returning whether there was one), and none of
    them panics on the keys [insert] gave out; the lock is released and the
    flag and counter are right after each.  [notify_all] leaves nobody waiting;
    [notify_one] wakes exactly one waiting operation if there is any;
    [notify_any] wakes at most one, and afterwards nobody waits or some entry has
    been notified and has not removed itself yet.  The result says whether
    somebody was woken, the wakers called are those of the entries notified, each
    once, and no entry is added or removed. *)
Theorem waker_set_operations ws k (n : Notify) :
    ws_wf ws →
    (
      ws_wf (WakerSet_new (W:=W) (S:=S)) ∧ ws_view WakerSet_new = ∅ ∧
      (∀ w key ws' l, insert w ws = Done ((key, ws'), l) →
         ws_wf ws' ∧ l = [] ∧ ws_view ws !! key = None ∧ ws_view ws' = <[key:=Some w]> (ws_view ws)) ∧
      (∀ w, (N.of_nat (size (ws_view ws)) + 1 < usize_modulus)%N → ∃ r, insert w ws = Done r) ∧
      (is_Some (ws_view ws !! k) → ∃ ws', remove k ws = Done ((tt, ws'), []) ∧ ws_wf ws' ∧
         ws_view ws' = delete k (ws_view ws)) ∧
      (∀ o, ws_view ws !! k = Some o →
         ∃ ws' kl, cancel k ws = Done ((bool_decide (kl ≠ []), ws'), kl.*2) ∧ ws_wf ws' ∧
         match o with
         | Some _ => kl = [] ∧ ws_view ws' = delete k (ws_view ws)
         | None => notify_post NotifyOne (delete k (ws_view ws)) kl (ws_view ws')
         end)) ∧
    (let call := match n with NotifyAny => notify_any | NotifyOne => notify_one
                | NotifyAll => notify_all end in
    ∃ ws' kl, call ws = Done ((bool_decide (kl ≠ []), ws'), kl.*2) ∧ ws_wf ws' ∧
      NoDup kl.*1 ∧ dom (ws_view ws') = dom (ws_view ws) ∧
      (∀ k w, (k, w) ∈ kl → waiting (ws_view ws) k w) ∧
      (∀ k, ws_view ws' !! k = if decide (k ∈ kl.*1) then Some None else ws_view ws !! k) ∧
      match n with
      | NotifyAll => nobody_waits (ws_view ws')
      | NotifyOne => (kl = [] ∧ nobody_waits (ws_view ws)) ∨ length kl = 1
      | NotifyAny => length kl ≤ 1 ∧ (nobody_waits (ws_view ws') ∨ ∃ k, ws_view ws' !! k = Some None)
      end).
Proof. intros Hwf. split; [by apply waker_set_entries|by apply waker_set_notifies]. Qed.
End Theorems.

(** * Witnesses *)

(** Two operations wait; the first has been notified. *)
Definition two_waiting : WakerSet (gmap nat (option nat)) :=
  match insert 10 WakerSet_new with
  | Done ((_, ws), _) =>
      match insert 11 ws with
      | Done ((_, ws), _) =>
          match notify_any ws with Done ((_, ws), _) => ws | _ => WakerSet_new end
      | _ => WakerSet_new
      end
  | _ => WakerSet_new
  end.

Lemma two_waiting_wf : ws_wf two_waiting.
Proof. split; vm_compute; reflexivity. Qed.

Lemma waker_set_operations_witness :
  (∃ ws' (kl : list (nat * nat)),
     cancel 1 two_waiting = Done ((bool_decide (kl ≠ []), ws'), kl.*2) ∧ ws_wf ws' ∧
     notify_post NotifyOne (delete 1 (ws_view two_waiting)) kl (ws_view ws')) ∧
  ∃ ws' (kl : list (nat * nat)),
    notify_all two_waiting = Done ((bool_decide (kl ≠ []), ws'), kl.*2) ∧
    nobody_waits (ws_view ws').
Proof.
  destruct (waker_set_operations two_waiting 1 NotifyAll two_waiting_wf) as [He Hn]. split.
  - apply He with (o := None). vm_compute. reflexivity.
  - destruct Hn as (ws' & kl & Hc & _ & _ & _ & _ & _ & Hn). exists ws', kl. split; [exact Hc|exact Hn].
Defined.
