(* ===== verification/Io.v ===== *)
(** Input and output (src/src/io): the traits [Read], [BufRead], [Write] and [Seek]
    as type classes, the laws documented for them as classes of their own, and the
    smallest implementations: [Empty], [Repeat], [Sink], and [Cursor] over a
    vector of bytes. *)

From stdpp Require Import strings.
From Stdlib Require Import Strings.Byte.
From S2P Require Import Prelude Async.
Local Open Scope async_scope.

Abbreviation bytes := (list byte).
#[global] Instance byte_eq_dec : EqDecision byte := Byte.byte_eq_dec.

(** * Errors *)

(** The kinds of [std::io::ErrorKind] that the code looks at or returns. *)
Inductive ErrorKind : Type :=
| Interrupted
| WriteZero
| UnexpectedEof
| InvalidData
| InvalidInput
| TimedOut
| WouldBlock
| OtherKind (code : nat).
#[global] Instance ErrorKind_eq_dec : EqDecision ErrorKind.
Proof. solve_decision. Defined.

(** [std::io::Error]. *)
Record Error : Type := mkError { kind : ErrorKind; message : string }.

(** [ErrorKind::into()]. *)
Definition error_of (k : ErrorKind) : Error := mkError k "".
(** [Result::context] of io/utils.rs: the kind stays, the message is the context. *)
Definition io_context {A : Type} (r : Result A Error) (msg : string) : Result A Error :=
  match r with
  | Ok a => Ok a
  | Err e => Err (mkError (kind e) msg)
  end.

(** * The traits *)

(** A buffer given to [poll_read] is the number of bytes it has room for, and a
    read returns the bytes it put at its front. *)
Class AsyncRead (R : Type) : Type :=
  poll_read : nat → nat → R → Eff (Poll (Result bytes Error) * R).
#[global] Hint Mode AsyncRead ! : typeclass_instances.

Class AsyncBufRead (R : Type) : Type := {
  poll_fill_buf : nat → R → Eff (Poll (Result bytes Error) * R);
  consume : nat → R → Eff R
}.
#[global] Hint Mode AsyncBufRead ! : typeclass_instances.

Class AsyncWrite (W : Type) : Type := {
  poll_write : nat → bytes → W → Eff (Poll (Result nat Error) * W);
  poll_flush : nat → W → Eff (Poll (Result () Error) * W);
  poll_close : nat → W → Eff (Poll (Result () Error) * W)
}.
#[global] Hint Mode AsyncWrite ! : typeclass_instances.

Inductive SeekFrom : Type :=
| SeekStart (n : N)
| SeekEnd (n : Z)
| SeekCurrent (n : Z).
#[global] Instance SeekFrom_eq_dec : EqDecision SeekFrom.
Proof. solve_decision. Defined.

Class AsyncSeek (S : Type) : Type :=
  poll_seek : nat → SeekFrom → S → Eff (Poll (Result N Error) * S).
#[global] Hint Mode AsyncSeek ! : typeclass_instances.

(** Where a seek goes, from the position [pos] in [len] bytes. *)
Definition i64_min : Z := (- 2 ^ 63)%Z.
Definition i64_max : Z := (2 ^ 63 - 1)%Z.
Definition seek_target (pos : SeekFrom) (cur len : N) : Z :=
  match pos with
  | SeekStart n => Z.of_N n
  | SeekEnd n => Z.of_N len + n
  | SeekCurrent n => Z.of_N cur + n
  end.

(** * What is documented of them *)

(** [contents r bs]: the bytes [r] is still to give.  A read gives some of them,
    none only at their end or into an empty buffer; one that fails or is pending
    gives none, and the latter has left the waker with somebody. *)
Class ReaderLaws (R : Type) `{AsyncRead R} : Type := {
  contents : R → bytes → Prop;
  read_mono len (r : R) : fuel_mono (λ n, poll_read n len r);
  read_returns (r : R) bs len : contents r bs → ∃ n x, poll_read n len r = Done x;
  read_spec n len (r : R) bs p r' w :
    contents r bs → poll_read n len r = Done ((p, r'), w) →
    match p with
    | Pending => w ≠ [] ∧ contents r' bs
    | Ready (Err e) => kind e ≠ Interrupted ∧ contents r' bs
    | Ready (Ok b) => ∃ rest, bs = b ++ rest ∧ length b ≤ len ∧
        (b = [] → len = 0 ∨ bs = []) ∧ contents r' rest
    end
}.
#[global] Hint Mode ReaderLaws ! - : typeclass_instances.

(** [buffered r bs b]: of the bytes [bs] to come, [b] are in the buffer. *)
Class BufReaderLaws (R : Type) `{AsyncBufRead R} : Type := {
  to_come : R → bytes → Prop;
  buffered : R → bytes → bytes → Prop;
  fill_mono (r : R) : fuel_mono (λ n, poll_fill_buf n r);
  fill_returns (r : R) bs : to_come r bs → ∃ n x, poll_fill_buf n r = Done x;
  fill_spec n (r : R) bs p r' w :
    to_come r bs → poll_fill_buf n r = Done ((p, r'), w) →
    match p with
    | Pending => w ≠ [] ∧ to_come r' bs
    | Ready (Err e) => kind e ≠ Interrupted ∧ to_come r' bs
    | Ready (Ok b) => buffered r' bs b ∧ (b = [] → bs = [])
    end;
  buffered_prefix (r : R) bs b : buffered r bs b → to_come r bs ∧ ∃ rest, bs = b ++ rest;
  consume_spec (r : R) bs b amt :
    buffered r bs b → amt ≤ length b →
    ∃ r', consume amt r = Done (r', []) ∧ to_come r' (drop amt bs);
  consume_none (r : R) bs :
    to_come r bs → ∃ r', consume 0 r = Done (r', []) ∧ to_come r' bs
}.
#[global] Hint Mode BufReaderLaws ! - : typeclass_instances.

(** [accepted w bs]: the bytes [w] has taken so far, in order; [settled w bs]: they
    have also been flushed. *)
Class WriterLaws (W : Type) `{AsyncWrite W} : Type := {
  accepted : W → bytes → Prop;
  settled : W → bytes → Prop;
  settled_accepted (v : W) bs : settled v bs → accepted v bs;
  write_mono buf (v : W) : fuel_mono (λ n, poll_write n buf v);
  flush_mono (v : W) : fuel_mono (λ n, poll_flush n v);
  write_returns (v : W) bs buf : accepted v bs → ∃ n x, poll_write n buf v = Done x;
  flush_returns (v : W) bs : accepted v bs → ∃ n x, poll_flush n v = Done x;
  write_spec n buf (v : W) bs p v' w :
    accepted v bs → poll_write n buf v = Done ((p, v'), w) →
    match p with
    | Pending => w ≠ [] ∧ accepted v' bs
    | Ready (Err e) => kind e ≠ Interrupted ∧ accepted v' bs
    | Ready (Ok k) => k ≤ length buf ∧ accepted v' (bs ++ take k buf)
    end;
  flush_spec n (v : W) bs p v' w :
    accepted v bs → poll_flush n v = Done ((p, v'), w) →
    accepted v' bs ∧ (p = Pending → w ≠ []) ∧ (p = Ready (Ok ()) → settled v' bs)
}.
#[global] Hint Mode WriterLaws ! - : typeclass_instances.

#[export] Hint Resolve read_mono fill_mono write_mono flush_mono : async.

(** * empty.rs, repeat.rs, sink.rs *)

Inductive Empty : Type := mkEmpty.
Definition Empty_poll_read (fuel len : nat) (this : Empty) : Eff (Poll (Result bytes Error) * Empty) :=
  mret (Ready (Ok []), this).
Definition Empty_poll_fill_buf (fuel : nat) (this : Empty) : Eff (Poll (Result bytes Error) * Empty) :=
  mret (Ready (Ok []), this).
Definition Empty_consume (amt : nat) (this : Empty) : Eff Empty := mret this.
#[global] Instance Empty_AsyncRead : AsyncRead Empty := Empty_poll_read.
#[global] Instance Empty_AsyncBufRead : AsyncBufRead Empty :=
  {| poll_fill_buf := Empty_poll_fill_buf; consume := Empty_consume |}.

Record Repeat : Type := mkRepeat { repeat_byte : byte }.
Definition Repeat_poll_read (fuel len : nat) (this : Repeat) : Eff (Poll (Result bytes Error) * Repeat) :=
  mret (Ready (Ok (replicate len (repeat_byte this))), this).
#[global] Instance Repeat_AsyncRead : AsyncRead Repeat := Repeat_poll_read.

Inductive Sink : Type := mkSink.
Definition Sink_poll_write (fuel : nat) (buf : bytes) (this : Sink) : Eff (Poll (Result nat Error) * Sink) :=
  mret (Ready (Ok (length buf)), this).
Definition Sink_poll_flush (fuel : nat) (this : Sink) : Eff (Poll (Result () Error) * Sink) :=
  mret (Ready (Ok ()), this).
Definition Sink_poll_close (fuel : nat) (this : Sink) : Eff (Poll (Result () Error) * Sink) :=
  mret (Ready (Ok ()), this).
#[global] Instance Sink_AsyncWrite : AsyncWrite Sink :=
  {| poll_write := Sink_poll_write; poll_flush := Sink_poll_flush; poll_close := Sink_poll_close |}.

(** * cursor.rs *)

(** [std::io::Cursor<Vec<u8>>], which the cursor wraps. *)
Record Cursor : Type := mkCursor { cursor_inner : bytes; cursor_pos : N }.

Definition Cursor_new (inner : bytes) : Cursor := mkCursor inner 0.

Definition std_cursor_fill_buf (c : Cursor) : bytes :=
  drop (N.to_nat (N.min (cursor_pos c) (N.of_nat (length (cursor_inner c))))) (cursor_inner c).
Definition std_cursor_advance (amt : nat) (c : Cursor) : Eff Cursor :=
  pos ← usize_add (cursor_pos c) (N.of_nat amt); mret (mkCursor (cursor_inner c) pos).
Definition std_cursor_seek (pos : SeekFrom) (c : Cursor) : Result N Error * Cursor :=
  let t := seek_target pos (cursor_pos c) (N.of_nat (length (cursor_inner c))) in
  if bool_decide (0 ≤ t < Z.of_N usize_modulus)%Z
  then (Ok (Z.to_N t), mkCursor (cursor_inner c) (Z.to_N t))
  else (Err (mkError InvalidInput "invalid seek to a negative or overflowing position"), c).
(** The vector is filled with zeros up to the position. *)
Definition std_cursor_write (buf : bytes) (c : Cursor) : Eff (nat * Cursor) :=
  let p := N.to_nat (cursor_pos c) in
  let inner := take p (cursor_inner c ++ replicate (p - length (cursor_inner c)) x00) ++ buf ++
    drop (p + length buf) (cursor_inner c) in
  pos ← usize_add (cursor_pos c) (N.of_nat (length buf));
  mret (length buf, mkCursor inner pos).

Definition Cursor_poll_seek (fuel : nat) (pos : SeekFrom) (this : Cursor) :
    Eff (Poll (Result N Error) * Cursor) :=
  let '(r, c) := std_cursor_seek pos this in mret (Ready r, c).
Definition Cursor_poll_read (fuel len : nat) (this : Cursor) : Eff (Poll (Result bytes Error) * Cursor) :=
  let b := take len (std_cursor_fill_buf this) in
  c ← std_cursor_advance (length b) this;
  mret (Ready (Ok b), c).
Definition Cursor_poll_fill_buf (fuel : nat) (this : Cursor) : Eff (Poll (Result bytes Error) * Cursor) :=
  mret (Ready (Ok (std_cursor_fill_buf this)), this).
Definition Cursor_consume (amt : nat) (this : Cursor) : Eff Cursor := std_cursor_advance amt this.
Definition Cursor_poll_write (fuel : nat) (buf : bytes) (this : Cursor) :
    Eff (Poll (Result nat Error) * Cursor) :=
  '(n, c) ← std_cursor_write buf this; mret (Ready (Ok n), c).
Definition Cursor_poll_flush (fuel : nat) (this : Cursor) : Eff (Poll (Result () Error) * Cursor) :=
  mret (Ready (Ok ()), this).
Definition Cursor_poll_close (fuel : nat) (this : Cursor) : Eff (Poll (Result () Error) * Cursor) :=
  Cursor_poll_flush fuel this.
#[global] Instance Cursor_AsyncSeek : AsyncSeek Cursor := Cursor_poll_seek.
#[global] Instance Cursor_AsyncRead : AsyncRead Cursor := Cursor_poll_read.
#[global] Instance Cursor_AsyncBufRead : AsyncBufRead Cursor :=
  {| poll_fill_buf := Cursor_poll_fill_buf; consume := Cursor_consume |}.
#[global] Instance Cursor_AsyncWrite : AsyncWrite Cursor :=
  {| poll_write := Cursor_poll_write; poll_flush := Cursor_poll_flush; poll_close := Cursor_poll_close |}.
