(* ===== verification/IoBuf.v ===== *)
(** The buffers of src/src/io: [BufReader] (buf_reader.rs), [BufWriter]
    (buf_writer.rs), and [copy] (copy.rs), which reads through the one. *)

From stdpp Require Import strings.
From Stdlib Require Import Strings.Byte.
From S2P Require Import Prelude Async Io.
Local Open Scope async_scope.

(** [&b[i..j]]. *)
Definition slice_range {A : Type} (b : list A) (i j : nat) : Eff (list A) :=
  if (i <=? j) && (j <=? length b) then mret (take (j - i) (drop i b)) else eff_panic.

Definition DEFAULT_BUF_SIZE : nat := 8 * 1024.

(** * buf_reader.rs *)

(** Of the buffer, which has a fixed length, the range from [br_pos] to [br_cap]
    is yet to be read. *)
Record BufReader (R : Type) : Type := mkBufReader {
  br_inner : R;
  br_buf : bytes;
  br_pos : nat;
  br_cap : nat
}.
Arguments mkBufReader {R}.
Arguments br_inner {R}.
Arguments br_buf {R}.
Arguments br_pos {R}.
Arguments br_cap {R}.

Section BufReader.
Context {R : Type}.
Implicit Types (this : BufReader R).

Definition BufReader_with_capacity (capacity : nat) (inner : R) : BufReader R :=
  mkBufReader inner (replicate capacity x00) 0 0.
Definition BufReader_new (inner : R) : BufReader R := BufReader_with_capacity DEFAULT_BUF_SIZE inner.
Definition BufReader_buffer this : Eff bytes := slice_range (br_buf this) (br_pos this) (br_cap this).
Definition BufReader_into_inner this : R := br_inner this.
Definition discard_buffer this : BufReader R := mkBufReader (br_inner this) (br_buf this) 0 0.
Definition br_set_inner (inner : R) this : BufReader R :=
  mkBufReader inner (br_buf this) (br_pos this) (br_cap this).

Definition BufReader_poll_fill_buf `{AsyncRead R} (fuel : nat) this :
    Eff (Poll (Result bytes Error) * BufReader R) :=
  if br_cap this <=? br_pos this then
    if br_pos this =? br_cap this then (* debug_assert! *)
      '(r, inner) ← poll_read fuel (length (br_buf this)) (br_inner this);
      let this := br_set_inner inner this in
      ready! r := r else mret (Pending, this) in
      match r with
      | Err e => mret (Ready (Err e), this)
      | Ok b =>
          let this := mkBufReader inner (b ++ drop (length b) (br_buf this)) 0 (length b) in
          rem ← slice_range (br_buf this) (br_pos this) (br_cap this);
          mret (Ready (Ok rem), this)
      end
    else eff_panic
  else
    rem ← slice_range (br_buf this) (br_pos this) (br_cap this);
    mret (Ready (Ok rem), this).

(** The sum is not bounded by 64 bits here, where that of the code may overflow: it
    does not for an [amt] that is at most the length of what [poll_fill_buf] gave, as the
    trait demands, since the capacity of a vector is below [2^63]. *)
Definition BufReader_consume (amt : nat) this : Eff (BufReader R) :=
  mret (mkBufReader (br_inner this) (br_buf this) ((br_pos this + amt) `min` br_cap this) (br_cap this)).

(** [rem.read(buf)] copies what fits. *)
Definition BufReader_poll_read `{AsyncRead R} (fuel len : nat) this :
    Eff (Poll (Result bytes Error) * BufReader R) :=
  if (br_pos this =? br_cap this) && (length (br_buf this) <=? len) then
    '(r, inner) ← poll_read fuel len (br_inner this);
    ready! r := r else mret (Pending, br_set_inner inner this) in
    mret (Ready r, discard_buffer (br_set_inner inner this))
  else
    '(r, this) ← BufReader_poll_fill_buf fuel this;
    ready! r := r else mret (Pending, this) in
    match r with
    | Err e => mret (Ready (Err e), this)
    | Ok rem =>
        let b := take len rem in
        this ← BufReader_consume (length b) this;
        mret (Ready (Ok b), this)
    end.

Definition BufReader_poll_seek `{AsyncSeek R} (fuel : nat) (pos : SeekFrom) this :
    Eff (Poll (Result N Error) * BufReader R) :=
  let seek_on pos this :=
    '(r, inner) ← poll_seek fuel pos (br_inner this);
    let this := br_set_inner inner this in
    match r with
    | Ready (Ok result) => mret (Ready (Ok result), discard_buffer this)
    | r => mret (r, this)
    end in
  match pos with
  | SeekCurrent n =>
      if br_pos this <=? br_cap this then
        let remainder := Z.of_nat (br_cap this - br_pos this) in
        if bool_decide (i64_min ≤ n - remainder)%Z then seek_on (SeekCurrent (n - remainder)) this
        else
          '(r, inner) ← poll_seek fuel (SeekCurrent (- remainder)) (br_inner this);
          let this := br_set_inner inner this in
          match r with
          | Ready (Ok _) => seek_on (SeekCurrent n) (discard_buffer this)
          | r => mret (r, this)
          end
      else eff_panic
  | pos => seek_on pos this
  end.
End BufReader.

#[global] Instance BufReader_AsyncRead `{AsyncRead R} : AsyncRead (BufReader R) := BufReader_poll_read.
#[global] Instance BufReader_AsyncBufRead `{AsyncRead R} : AsyncBufRead (BufReader R) :=
  {| poll_fill_buf := BufReader_poll_fill_buf; consume := BufReader_consume |}.
#[global] Instance BufReader_AsyncSeek `{AsyncSeek R} : AsyncSeek (BufReader R) := BufReader_poll_seek.

(** * buf_writer.rs *)

(** [bw_cap] is the capacity of the vector [buf], of which the first [written]
    bytes have been written already. *)
Record BufWriter (W : Type) : Type := mkBufWriter {
  bw_inner : W;
  bw_buf : bytes;
  bw_cap : nat;
  bw_written : nat
}.
Arguments mkBufWriter {W}.
Arguments bw_inner {W}.
Arguments bw_buf {W}.
Arguments bw_cap {W}.
Arguments bw_written {W}.

Section BufWriter.
Context {W : Type}.
Implicit Types (this : BufWriter W).

Definition BufWriter_with_capacity (capacity : nat) (inner : W) : BufWriter W :=
  mkBufWriter inner [] capacity 0.
Definition BufWriter_new (inner : W) : BufWriter W := BufWriter_with_capacity DEFAULT_BUF_SIZE inner.
Definition BufWriter_buffer this : bytes := bw_buf this.

Definition bw_set_inner (inner : W) this : BufWriter W :=
  mkBufWriter inner (bw_buf this) (bw_cap this) (bw_written this).
(** After the loop of [poll_flush_buf]. *)
Definition drain_written (ret : Result () Error) this : Eff (Poll (Result () Error) * BufWriter W) :=
  if bw_written this <=? length (bw_buf this) then
    mret (Ready ret, mkBufWriter (bw_inner this) (drop (bw_written this) (bw_buf this)) (bw_cap this) 0)
  else eff_panic.

Definition flush_buf_round `{AsyncWrite W} (fuel : nat) this :
    Eff (BufWriter W + (Poll (Result () Error) * BufWriter W)) :=
  if bw_written this <? length (bw_buf this) then
    '(r, inner) ← poll_write fuel (drop (bw_written this) (bw_buf this)) (bw_inner this);
    let this := bw_set_inner inner this in
    match r with
    | Pending => mret (inr (Pending, this))
    | Ready (Ok 0) =>
        r ← drain_written (Err (mkError WriteZero "Failed to write buffered data")) this; mret (inr r)
    | Ready (Ok n) => mret (inl (mkBufWriter inner (bw_buf this) (bw_cap this) (bw_written this + n)))
    | Ready (Err e) =>
        if bool_decide (kind e = Interrupted) then mret (inl this)
        else r ← drain_written (Err e) this; mret (inr r)
    end
  else r ← drain_written (Ok ()) this; mret (inr r).
Definition poll_flush_buf `{AsyncWrite W} (fuel : nat) this : Eff (Poll (Result () Error) * BufWriter W) :=
  loop_poll flush_buf_round fuel this.

(** Calls [f] once the buffer has been written. *)
Definition after_flush_buf `{AsyncWrite W} {A : Type} (fuel : nat) this
    (f : BufWriter W → Eff (Poll (Result A Error) * BufWriter W)) : Eff (Poll (Result A Error) * BufWriter W) :=
  '(r, this) ← poll_flush_buf fuel this;
  ready! r := r else mret (Pending, this) in
  match r with
  | Err e => mret (Ready (Err e), this)
  | Ok _ => f this
  end.

Definition BufWriter_poll_write `{AsyncWrite W} (fuel : nat) (buf : bytes) this :
    Eff (Poll (Result nat Error) * BufWriter W) :=
  let write this :=
    if bw_cap this <=? length buf then
      '(r, inner) ← poll_write fuel buf (bw_inner this);
      mret (r, bw_set_inner inner this)
    else
      mret (Ready (Ok (length buf)),
        mkBufWriter (bw_inner this) (bw_buf this ++ buf) (bw_cap this) (bw_written this)) in
  if bw_cap this <? length (bw_buf this) + length buf then after_flush_buf fuel this write
  else write this.
Definition BufWriter_poll_flush `{AsyncWrite W} (fuel : nat) this :
    Eff (Poll (Result () Error) * BufWriter W) :=
  after_flush_buf fuel this (λ this,
    '(r, inner) ← poll_flush fuel (bw_inner this); mret (r, bw_set_inner inner this)).
Definition BufWriter_poll_close `{AsyncWrite W} (fuel : nat) this :
    Eff (Poll (Result () Error) * BufWriter W) :=
  after_flush_buf fuel this (λ this,
    '(r, inner) ← poll_close fuel (bw_inner this); mret (r, bw_set_inner inner this)).
Definition BufWriter_poll_seek `{AsyncWrite W} `{AsyncSeek W} (fuel : nat) (pos : SeekFrom) this :
    Eff (Poll (Result N Error) * BufWriter W) :=
  after_flush_buf fuel this (λ this,
    '(r, inner) ← poll_seek fuel pos (bw_inner this); mret (r, bw_set_inner inner this)).
(** [into_inner]: the future of the [async fn]. *)
Definition BufWriter_into_inner_poll `{AsyncWrite W} (fuel : nat) this :
    Eff (Poll (Result W (BufWriter W * Error)) * BufWriter W) :=
  '(r, this) ← BufWriter_poll_flush fuel this;
  ready! r := r else mret (Pending, this) in
  match r with
  | Err e => mret (Ready (Err (this, e)), this)
  | Ok _ => mret (Ready (Ok (bw_inner this)), this)
  end.
End BufWriter.

#[global] Instance BufWriter_AsyncWrite `{AsyncWrite W} : AsyncWrite (BufWriter W) :=
  {| poll_write := BufWriter_poll_write; poll_flush := BufWriter_poll_flush; poll_close := BufWriter_poll_close |}.
#[global] Instance BufWriter_AsyncSeek `{AsyncWrite W} `{AsyncSeek W} : AsyncSeek (BufWriter W) :=
  BufWriter_poll_seek.

(** * copy.rs *)

Record CopyFuture (R W : Type) : Type := mkCopyFuture {
  copy_reader : R;
  copy_writer : W;
  copy_amt : N
}.
Arguments mkCopyFuture {R W}.
Arguments copy_reader {R W}.
Arguments copy_writer {R W}.
Arguments copy_amt {R W}.

Section Copy.
Context {R W : Type} `{AsyncBufRead R} `{AsyncWrite W}.
Implicit Types (this : CopyFuture R W).

Definition copy_round (fuel : nat) this :
    Eff (CopyFuture R W + (Poll (Result N Error) * CopyFuture R W)) :=
  '(r, reader) ← poll_fill_buf fuel (copy_reader this);
  let this := mkCopyFuture reader (copy_writer this) (copy_amt this) in
  match r with
  | Pending => mret (inr (Pending, this))
  | Ready (Err e) => mret (inr (Ready (Err e), this))
  | Ready (Ok []) =>
      '(r, writer) ← poll_flush fuel (copy_writer this);
      let this := mkCopyFuture reader writer (copy_amt this) in
      match r with
      | Pending => mret (inr (Pending, this))
      | Ready (Err e) => mret (inr (Ready (Err e), this))
      | Ready (Ok _) => mret (inr (Ready (Ok (copy_amt this)), this))
      end
  | Ready (Ok buffer) =>
      '(r, writer) ← poll_write fuel buffer (copy_writer this);
      let this := mkCopyFuture reader writer (copy_amt this) in
      match r with
      | Pending => mret (inr (Pending, this))
      | Ready (Err e) => mret (inr (Ready (Err e), this))
      | Ready (Ok 0) => mret (inr (Ready (Err (error_of WriteZero)), this))
      | Ready (Ok i) =>
          amt ← usize_add (copy_amt this) (N.of_nat i);
          reader ← consume i reader;
          mret (inl (mkCopyFuture reader writer amt))
      end
  end.
Definition CopyFuture_poll (fuel : nat) this : Eff (Poll (Result N Error) * CopyFuture R W) :=
  loop_poll copy_round fuel this.
#[global] Instance CopyFuture_Future : Future (CopyFuture R W) (Result N Error) := CopyFuture_poll.
End Copy.

(** The future [copy] awaits; its error gets the message ["io::copy failed"]. *)
Definition copy {R W : Type} (reader : R) (writer : W) : CopyFuture (BufReader R) W :=
  mkCopyFuture (BufReader_new reader) writer 0.
Definition copy_result (r : Result N Error) : Result N Error := io_context r "io::copy failed".
