(* ===== verification/IoRead.v ===== *)
(** The readers built on readers and the futures that read (src/src/io/read): [Take],
    [Chain], [Bytes], [ReadExactFuture], [ReadToEndFuture], [ReadToStringFuture]. *)

From stdpp Require Import strings.
From Stdlib Require Import Strings.Byte.
From S2P Require Import Prelude Async Io.
Local Open Scope async_scope.

(** * take.rs *)

Record Take (T : Type) : Type := mkTake { take_inner : T; take_limit : N }.
Arguments mkTake {T}.
Arguments take_inner {T}.
Arguments take_limit {T}.

Definition take_read_internal `{AsyncRead T} (fuel : nat) (rd : T) (len : nat) (limit : N) :
    Eff (Poll (Result bytes Error) * T * N) :=
  if (limit =? 0)%N then mret (Ready (Ok []), rd, limit)
  else
    let max := N.to_nat (N.min (N.of_nat len) limit) in
    '(r, rd) ← poll_read fuel max rd;
    match r with
    | Pending => mret (Pending, rd, limit)
    | Ready (Ok b) => limit ← usize_sub limit (N.of_nat (length b)); mret (Ready (Ok b), rd, limit)
    | Ready (Err e) => mret (Ready (Err e), rd, limit)
    end.

Definition Take_poll_read `{AsyncRead T} (fuel len : nat) (this : Take T) :
    Eff (Poll (Result bytes Error) * Take T) :=
  '(r, inner, limit) ← take_read_internal fuel (take_inner this) len (take_limit this);
  mret (r, mkTake inner limit).
Definition Take_poll_fill_buf `{AsyncBufRead T} (fuel : nat) (this : Take T) :
    Eff (Poll (Result bytes Error) * Take T) :=
  if (take_limit this =? 0)%N then mret (Ready (Ok []), this)
  else
    '(r, inner) ← poll_fill_buf fuel (take_inner this);
    let this := mkTake inner (take_limit this) in
    match r with
    | Pending => mret (Pending, this)
    | Ready (Ok buf) =>
        let cap := N.to_nat (N.min (N.of_nat (length buf)) (take_limit this)) in
        mret (Ready (Ok (take cap buf)), this)
    | Ready (Err e) => mret (Ready (Err e), this)
    end.
Definition Take_consume `{AsyncBufRead T} (amt : nat) (this : Take T) : Eff (Take T) :=
  let amt := N.min (N.of_nat amt) (take_limit this) in
  limit ← usize_sub (take_limit this) amt;
  inner ← consume (N.to_nat amt) (take_inner this);
  mret (mkTake inner limit).
#[global] Instance Take_AsyncRead `{AsyncRead T} : AsyncRead (Take T) := Take_poll_read.
#[global] Instance Take_AsyncBufRead `{AsyncBufRead T} : AsyncBufRead (Take T) :=
  {| poll_fill_buf := Take_poll_fill_buf; consume := Take_consume |}.

(** * chain.rs *)

Record Chain (T U : Type) : Type := mkChain { first : T; second : U; done_first : bool }.
Arguments mkChain {T U}.
Arguments first {T U}.
Arguments second {T U}.
Arguments done_first {T U}.

Section Chain.
Context {T U : Type}.
Implicit Types (this : Chain T U).

Definition Chain_poll_read `{AsyncRead T} `{AsyncRead U} (fuel len : nat) this :
    Eff (Poll (Result bytes Error) * Chain T U) :=
  let read_second this :=
    '(r, second) ← poll_read fuel len (second this); mret (r, mkChain (first this) second (done_first this)) in
  if done_first this then read_second this
  else
    '(r, first) ← poll_read fuel len (first this);
    let this := mkChain first (second this) false in
    match r with
    | Pending => mret (Pending, this)
    | Ready (Ok b) =>
        if (length b =? 0) && negb (len =? 0) then read_second (mkChain first (second this) true)
        else mret (Ready (Ok b), this)
    | Ready (Err err) => mret (Ready (Err err), this)
    end.
Definition Chain_poll_fill_buf `{AsyncBufRead T} `{AsyncBufRead U} (fuel : nat) this :
    Eff (Poll (Result bytes Error) * Chain T U) :=
  let fill_second this :=
    '(r, second) ← poll_fill_buf fuel (second this); mret (r, mkChain (first this) second (done_first this)) in
  if done_first this then fill_second this
  else
    '(r, first) ← poll_fill_buf fuel (first this);
    let this := mkChain first (second this) false in
    match r with
    | Pending => mret (Pending, this)
    | Ready (Ok []) => fill_second (mkChain first (second this) true)
    | Ready (Ok buf) => mret (Ready (Ok buf), this)
    | Ready (Err err) => mret (Ready (Err err), this)
    end.
Definition Chain_consume `{AsyncBufRead T} `{AsyncBufRead U} (amt : nat) this : Eff (Chain T U) :=
  if negb (done_first this) then
    first ← consume amt (first this); mret (mkChain first (second this) (done_first this))
  else
    second ← consume amt (second this); mret (mkChain (first this) second (done_first this)).
End Chain.
#[global] Instance Chain_AsyncRead `{AsyncRead T} `{AsyncRead U} : AsyncRead (Chain T U) := Chain_poll_read.
#[global] Instance Chain_AsyncBufRead `{AsyncBufRead T} `{AsyncBufRead U} : AsyncBufRead (Chain T U) :=
  {| poll_fill_buf := Chain_poll_fill_buf; consume := Chain_consume |}.

(** * bytes.rs *)

Record Bytes (T : Type) : Type := mkBytes { bytes_inner : T }.
Arguments mkBytes {T}.
Arguments bytes_inner {T}.

Definition Bytes_poll_next `{AsyncRead T} (fuel : nat) (this : Bytes T) :
    Eff (Poll (option (Result byte Error)) * Bytes T) :=
  '(r, rd) ← poll_read fuel 1 (bytes_inner this);
  let this := mkBytes rd in
  match r with
  | Pending => mret (Pending, this)
  | Ready (Ok []) => mret (Ready None, this)
  | Ready (Ok (byte :: _)) => mret (Ready (Some (Ok byte)), this)
  | Ready (Err e) =>
      if bool_decide (kind e = Interrupted) then mret (Pending, this) else mret (Ready (Some (Err e)), this)
  end.
#[global] Instance Bytes_Stream `{AsyncRead T} : Stream (Bytes T) (Result byte Error) := Bytes_poll_next.

(** * read.rs, read_exact.rs *)

Record ReadFuture (T : Type) : Type := mkReadFuture { rf_reader : T; rf_buf : nat }.
Arguments mkReadFuture {T}.
Arguments rf_reader {T}.
Arguments rf_buf {T}.
Definition ReadFuture_poll `{AsyncRead T} (fuel : nat) (this : ReadFuture T) :
    Eff (Poll (Result bytes Error) * ReadFuture T) :=
  '(r, reader) ← poll_read fuel (rf_buf this) (rf_reader this);
  mret (r, mkReadFuture reader (rf_buf this)).
#[global] Instance ReadFuture_Future `{AsyncRead T} : Future (ReadFuture T) (Result bytes Error) := ReadFuture_poll.

(** [re_buf] is the length of the rest of the caller's buffer, [re_filled] what
    the part before it holds. *)
Record ReadExactFuture (T : Type) : Type := mkReadExactFuture {
  re_reader : T;
  re_filled : bytes;
  re_buf : nat
}.
Arguments mkReadExactFuture {T}.
Arguments re_reader {T}.
Arguments re_filled {T}.
Arguments re_buf {T}.

Section ReadExact.
Context {T : Type} `{AsyncRead T}.
Implicit Types (this : ReadExactFuture T).

Definition ReadExact_round (fuel : nat) this :
    Eff (ReadExactFuture T + (Poll (Result () Error) * ReadExactFuture T)) :=
  if re_buf this =? 0 then mret (inr (Ready (Ok ()), this))
  else
    '(r, reader) ← poll_read fuel (re_buf this) (re_reader this);
    match r with
    | Pending => mret (inr (Pending, mkReadExactFuture reader (re_filled this) (re_buf this)))
    | Ready (Err e) => mret (inr (Ready (Err e), mkReadExactFuture reader (re_filled this) (re_buf this)))
    | Ready (Ok b) =>
        if length b <=? re_buf this then (* split_at_mut *)
          let this := mkReadExactFuture reader (re_filled this ++ b) (re_buf this - length b) in
          if length b =? 0 then mret (inr (Ready (Err (error_of UnexpectedEof)), this)) else mret (inl this)
        else eff_panic
    end.
Definition ReadExactFuture_poll (fuel : nat) this : Eff (Poll (Result () Error) * ReadExactFuture T) :=
  loop_poll ReadExact_round fuel this.
#[global] Instance ReadExactFuture_Future : Future (ReadExactFuture T) (Result () Error) := ReadExactFuture_poll.
End ReadExact.

(** * read_to_end.rs *)

(** A vector with its capacity.  How much [reserve] allocates is left open. *)
Record VecBuf : Type := mkVecBuf { vec_bytes : bytes; vec_capacity : nat }.
Class Reserve : Type := reserve : nat → VecBuf → nat.
Class ReserveLaws `{Reserve} : Prop :=
  reserve_spec additional v :
    length (vec_bytes v) + additional ≤ reserve additional v ∧ vec_capacity v ≤ reserve additional v.

Section ReadToEnd.
Context {R : Type} `{AsyncRead R} `{Reserve}.

(** In the loop, [room] is [g.buf.len() - g.len]. *)
Definition read_to_end_round (start_len : nat) (fuel : nat) (st : R * VecBuf * nat) :
    Eff ((R * VecBuf * nat) + (Poll (Result nat Error) * R * VecBuf)) :=
  let '(rd, buf, room) := st in
  let '(buf, room) :=
    if room =? 0 then
      let cap := reserve 32 buf in (mkVecBuf (vec_bytes buf) cap, cap - length (vec_bytes buf))
    else (buf, room) in
  '(r, rd) ← poll_read fuel room rd;
  match r with
  | Pending => mret (inr (Pending, rd, buf))
  | Ready (Ok []) =>
      n ← usize_sub (N.of_nat (length (vec_bytes buf))) (N.of_nat start_len);
      mret (inr (Ready (Ok (N.to_nat n)), rd, buf))
  | Ready (Ok b) => mret (inl (rd, mkVecBuf (vec_bytes buf ++ b) (vec_capacity buf), room - length b))
  | Ready (Err e) => mret (inr (Ready (Err e), rd, buf))
  end.
Definition read_to_end_internal (fuel : nat) (rd : R) (buf : VecBuf) (start_len : nat) :
    Eff (Poll (Result nat Error) * R * VecBuf) :=
  loop_poll (read_to_end_round start_len) fuel (rd, buf, 0).

Record ReadToEndFuture : Type := mkReadToEndFuture {
  rte_reader : R;
  rte_buf : VecBuf;
  rte_start_len : nat
}.
(** [ReadExt::read_to_end]. *)
Definition read_to_end (reader : R) (buf : VecBuf) : ReadToEndFuture :=
  mkReadToEndFuture reader buf (length (vec_bytes buf)).
Definition ReadToEndFuture_poll (fuel : nat) (this : ReadToEndFuture) :
    Eff (Poll (Result nat Error) * ReadToEndFuture) :=
  '(r, reader, buf) ← read_to_end_internal fuel (rte_reader this) (rte_buf this) (rte_start_len this);
  mret (r, mkReadToEndFuture reader buf (rte_start_len this)).
#[global] Instance ReadToEndFuture_Future : Future ReadToEndFuture (Result nat Error) := ReadToEndFuture_poll.
End ReadToEnd.
Arguments ReadToEndFuture : clear implicits.
Arguments mkReadToEndFuture {R}.
Arguments rte_reader {R}.
Arguments rte_buf {R}.
Arguments rte_start_len {R}.

(** * UTF-8 *)

Definition byte_in (lo hi : N) (b : byte) : bool := (lo <=? to_N b)%N && (to_N b <=? hi)%N.

(** [str::from_utf8] succeeds. *)
Fixpoint utf8_valid (bs : bytes) : bool :=
  match bs with
  | [] => true
  | b :: bs =>
      if byte_in 0 127 b then utf8_valid bs
      else
        match bs with
        | c :: bs =>
            if byte_in 194 223 b then byte_in 128 191 c && utf8_valid bs
            else
              match bs with
              | d :: bs =>
                  if byte_in 224 239 b then
                    byte_in (if byte_in 224 224 b then 160 else 128) (if byte_in 237 237 b then 159 else 191) c &&
                    byte_in 128 191 d && utf8_valid bs
                  else
                    match bs with
                    | e :: bs =>
                        byte_in 240 244 b &&
                        byte_in (if byte_in 240 240 b then 144 else 128) (if byte_in 244 244 b then 143 else 191) c &&
                        byte_in 128 191 d && byte_in 128 191 e && utf8_valid bs
                    | [] => false
                    end
              | [] => false
              end
        | [] => false
        end
  end.

Definition invalid_utf8 : Error := mkError InvalidData "stream did not contain valid UTF-8".
(** [ret.and_then(|_| Err(..))]. *)
Definition and_invalid {A : Type} (ret : Result A Error) : Result A Error :=
  match ret with Ok _ => Err invalid_utf8 | Err e => Err e end.

(** * read_to_string.rs *)

(** [rts_string] is the caller's string, empty while the future is at work. *)
Record ReadToStringFuture (R : Type) : Type := mkReadToStringFuture {
  rts_reader : R;
  rts_string : bytes;
  rts_bytes : VecBuf;
  rts_start_len : nat
}.
Arguments mkReadToStringFuture {R}.
Arguments rts_reader {R}.
Arguments rts_string {R}.
Arguments rts_bytes {R}.
Arguments rts_start_len {R}.

Section ReadToString.
Context {R : Type} `{AsyncRead R} `{Reserve}.

(** [ReadExt::read_to_string] takes the bytes out of the string. *)
Definition read_to_string (reader : R) (buf : VecBuf) : ReadToStringFuture R :=
  mkReadToStringFuture reader [] buf (length (vec_bytes buf)).
Definition ReadToStringFuture_poll (fuel : nat) (this : ReadToStringFuture R) :
    Eff (Poll (Result nat Error) * ReadToStringFuture R) :=
  '(r, reader, bytes) ← read_to_end_internal fuel (rts_reader this) (rts_bytes this) (rts_start_len this);
  ready! ret := r else mret (Pending, mkReadToStringFuture reader (rts_string this) bytes (rts_start_len this)) in
  if negb (utf8_valid (vec_bytes bytes)) then
    mret (Ready (and_invalid ret), mkReadToStringFuture reader (rts_string this) bytes (rts_start_len this))
  else if bool_decide (rts_string this = []) then (* debug_assert! *)
    mret (Ready ret, mkReadToStringFuture reader (vec_bytes bytes) (mkVecBuf (rts_string this) 0) (rts_start_len this))
  else eff_panic.
#[global] Instance ReadToStringFuture_Future : Future (ReadToStringFuture R) (Result nat Error) :=
  ReadToStringFuture_poll.
End ReadToString.
