(* ===== verification/IoLines.v ===== *)
(** Reading up to a delimiter (src/src/io/buf_read): [ReadUntilFuture],
    [ReadLineFuture] and the streams [Lines] and [Split]. *)

From stdpp Require Import strings.
From Stdlib Require Import Strings.Byte.
From S2P Require Import Prelude Async Io IoRead.
Local Open Scope async_scope.

(** The crate [memchr]: where a byte is first found. *)
Class Memchr : Type := memchr : byte → bytes → option nat.
Class MemchrLaws `{Memchr} : Prop :=
  memchr_spec b l :
    match memchr b l with
    | Some i => l !! i = Some b ∧ b ∉ take i l
    | None => b ∉ l
    end.

Definition newline : byte := x0a.
Definition carriage_return : byte := x0d.

(** [ends_with] and [pop], of a character of one byte. *)
Definition ends_with (l : bytes) (b : byte) : bool := bool_decide (list.last l = Some b).
Definition pop (l : bytes) : bytes := take (length l - 1) l.

Section BufRead.
Context {R : Type} `{AsyncBufRead R} `{Memchr}.
Implicit Types (reader : R) (buf : bytes) (read : N).

(** * mod.rs: [read_until_internal] *)

Definition read_until_round (byte : byte) (fuel : nat) (st : R * bytes * N) :
    Eff ((R * bytes * N) + (Poll (Result N Error) * R * bytes * N)) :=
  let '(reader, buf, read) := st in
  '(r, reader) ← poll_fill_buf fuel reader;
  match r with
  | Pending => mret (inr (Pending, reader, buf, read))
  | Ready (Err e) => mret (inr (Ready (Err e), reader, buf, read))
  | Ready (Ok available) =>
      let '(done, used) := match memchr byte available with
                           | Some i => (true, i + 1)
                           | None => (false, length available)
                           end in
      let buf := buf ++ take used available in
      reader ← consume used reader;
      read ← usize_add read (N.of_nat used);
      if done || (used =? 0) then mret (inr (Ready (Ok read), reader, buf, 0%N))
      else mret (inl (reader, buf, read))
  end.
Definition read_until_internal (fuel : nat) reader (byte : byte) buf read :
    Eff (Poll (Result N Error) * R * bytes * N) :=
  loop_poll (read_until_round byte) fuel (reader, buf, read).

(** * read_until.rs *)

Record ReadUntilFuture : Type := mkReadUntilFuture {
  ru_reader : R;
  ru_byte : byte;
  ru_buf : bytes;
  ru_read : N
}.
(** [BufReadExt::read_until]. *)
Definition read_until reader (byte : byte) buf : ReadUntilFuture := mkReadUntilFuture reader byte buf 0.
Definition ReadUntilFuture_poll (fuel : nat) (this : ReadUntilFuture) :
    Eff (Poll (Result N Error) * ReadUntilFuture) :=
  '(r, reader, buf, read) ←
    read_until_internal fuel (ru_reader this) (ru_byte this) (ru_buf this) (ru_read this);
  mret (r, mkReadUntilFuture reader (ru_byte this) buf read).
#[global] Instance ReadUntilFuture_Future : Future ReadUntilFuture (Result N Error) := ReadUntilFuture_poll.

(** * read_line.rs *)

(** A line is the bytes of a [String], whose validity is checked when it is
    swapped in. *)
Definition read_line_internal (fuel : nat) reader buf (bytes : bytes) read :
    Eff (Poll (Result N Error) * R * Io.bytes * Io.bytes * N) :=
  '(r, reader, bytes, read) ← read_until_internal fuel reader newline bytes read;
  ready! ret := r else mret (Pending, reader, buf, bytes, read) in
  if negb (utf8_valid bytes) then mret (Ready (and_invalid ret), reader, buf, bytes, read)
  else if bool_decide (buf = []) && (read =? 0)%N then (* debug_assert!, debug_assert_eq! *)
    mret (Ready ret, reader, bytes, buf, read)
  else eff_panic.

Record ReadLineFuture : Type := mkReadLineFuture {
  rl_reader : R;
  rl_buf : bytes;
  rl_bytes : bytes;
  rl_read : N
}.
(** [BufReadExt::read_line] takes the bytes out of the string. *)
Definition read_line reader buf : ReadLineFuture := mkReadLineFuture reader [] buf 0.
Definition ReadLineFuture_poll (fuel : nat) (this : ReadLineFuture) :
    Eff (Poll (Result N Error) * ReadLineFuture) :=
  '(r, reader, buf, bytes, read) ←
    read_line_internal fuel (rl_reader this) (rl_buf this) (rl_bytes this) (rl_read this);
  mret (r, mkReadLineFuture reader buf bytes read).
#[global] Instance ReadLineFuture_Future : Future ReadLineFuture (Result N Error) := ReadLineFuture_poll.

(** * lines.rs *)

Record Lines : Type := mkLines {
  lines_reader : R;
  lines_buf : bytes;
  lines_bytes : bytes;
  lines_read : N
}.
(** [BufReadExt::lines]. *)
Definition lines reader : Lines := mkLines reader [] [] 0.
Definition Lines_poll_next (fuel : nat) (this : Lines) : Eff (Poll (option (Result bytes Error)) * Lines) :=
  '(r, reader, buf, bytes, read) ←
    read_line_internal fuel (lines_reader this) (lines_buf this) (lines_bytes this) (lines_read this);
  let this := mkLines reader buf bytes read in
  match r with
  | Pending => mret (Pending, this)
  | Ready (Err e) => mret (Ready (Some (Err e)), this)
  | Ready (Ok n) =>
      if (n =? 0)%N && bool_decide (buf = []) then mret (Ready None, this)
      else
        let buf :=
          if ends_with buf newline then
            let buf := pop buf in
            if ends_with buf carriage_return then pop buf else buf
          else buf in
        mret (Ready (Some (Ok buf)), mkLines reader [] bytes read)
  end.
#[global] Instance Lines_Stream : Stream Lines (Result bytes Error) := Lines_poll_next.

(** * split.rs *)

Record Split : Type := mkSplit {
  split_reader : R;
  split_buf : bytes;
  split_read : N;
  split_delim : byte
}.
(** [BufReadExt::split]. *)
Definition split reader (byte : byte) : Split := mkSplit reader [] 0 byte.
Definition Split_poll_next (fuel : nat) (this : Split) : Eff (Poll (option (Result bytes Error)) * Split) :=
  '(r, reader, buf, read) ←
    read_until_internal fuel (split_reader this) (split_delim this) (split_buf this) (split_read this);
  let this := mkSplit reader buf read (split_delim this) in
  match r with
  | Pending => mret (Pending, this)
  | Ready (Err e) => mret (Ready (Some (Err e)), this)
  | Ready (Ok n) =>
      if (n =? 0)%N && bool_decide (buf = []) then mret (Ready None, this)
      else
        end_ ← unwrap (list.last buf);
        let buf := if bool_decide (end_ = split_delim this) then pop buf else buf in
        mret (Ready (Some (Ok buf)), mkSplit reader [] read (split_delim this))
  end.
#[global] Instance Split_Stream : Stream Split (Result bytes Error) := Split_poll_next.
End BufRead.
Arguments ReadUntilFuture : clear implicits.
Arguments mkReadUntilFuture {R}.
Arguments ru_reader {R}.
Arguments ru_byte {R}.
Arguments ru_buf {R}.
Arguments ru_read {R}.
Arguments ReadLineFuture : clear implicits.
Arguments mkReadLineFuture {R}.
Arguments rl_reader {R}.
Arguments rl_buf {R}.
Arguments rl_bytes {R}.
Arguments rl_read {R}.
Arguments Lines : clear implicits.
Arguments mkLines {R}.
Arguments lines_reader {R}.
Arguments lines_buf {R}.
Arguments lines_bytes {R}.
Arguments lines_read {R}.
Arguments Split : clear implicits.
Arguments mkSplit {R}.
Arguments split_reader {R}.
Arguments split_buf {R}.
Arguments split_read {R}.
Arguments split_delim {R}.
