(* ===== verification/IoWrite.v ===== *)
(** The futures that write (src/src/io/write) and seek: [WriteFuture],
    [WriteAllFuture], [FlushFuture], [WriteFmtFuture], [SeekFuture]; and the
    timeout of io/timeout.rs. *)

From stdpp Require Import strings.
From Stdlib Require Import Strings.Byte.
From S2P Require Import Prelude Async Io.
Local Open Scope async_scope.

Section Write.
Context {W : Type} `{AsyncWrite W}.

(** * write.rs, flush.rs *)

Record WriteFuture : Type := mkWriteFuture { wf_writer : W; wf_buf : bytes }.
Definition WriteFuture_poll (fuel : nat) (this : WriteFuture) : Eff (Poll (Result nat Error) * WriteFuture) :=
  '(r, writer) ← poll_write fuel (wf_buf this) (wf_writer this);
  mret (r, mkWriteFuture writer (wf_buf this)).
#[global] Instance WriteFuture_Future : Future WriteFuture (Result nat Error) := WriteFuture_poll.

Record FlushFuture : Type := mkFlushFuture { ff_writer : W }.
Definition FlushFuture_poll (fuel : nat) (this : FlushFuture) : Eff (Poll (Result () Error) * FlushFuture) :=
  '(r, writer) ← poll_flush fuel (ff_writer this); mret (r, mkFlushFuture writer).
#[global] Instance FlushFuture_Future : Future FlushFuture (Result () Error) := FlushFuture_poll.

(** * write_all.rs *)

Record WriteAllFuture : Type := mkWriteAllFuture { wa_writer : W; wa_buf : bytes }.
Definition WriteAll_round (fuel : nat) (this : WriteAllFuture) :
    Eff (WriteAllFuture + (Poll (Result () Error) * WriteAllFuture)) :=
  if bool_decide (wa_buf this = []) then mret (inr (Ready (Ok ()), this))
  else
    '(r, writer) ← poll_write fuel (wa_buf this) (wa_writer this);
    match r with
    | Pending => mret (inr (Pending, mkWriteAllFuture writer (wa_buf this)))
    | Ready (Err e) => mret (inr (Ready (Err e), mkWriteAllFuture writer (wa_buf this)))
    | Ready (Ok n) =>
        if n <=? length (wa_buf this) then (* split_at *)
          let this := mkWriteAllFuture writer (drop n (wa_buf this)) in
          if n =? 0 then mret (inr (Ready (Err (error_of WriteZero)), this)) else mret (inl this)
        else eff_panic
    end.
Definition WriteAllFuture_poll (fuel : nat) (this : WriteAllFuture) :
    Eff (Poll (Result () Error) * WriteAllFuture) := loop_poll WriteAll_round fuel this.
#[global] Instance WriteAllFuture_Future : Future WriteAllFuture (Result () Error) := WriteAllFuture_poll.

(** * write_fmt.rs *)

Record WriteFmtFuture : Type := mkWriteFmtFuture {
  wfm_writer : W;
  wfm_res : option (Result bytes Error);
  wfm_buffer : option bytes;
  wfm_amt : N
}.
(** [WriteExt::write_fmt]; [res] is the formatted string, or that formatting failed. *)
Definition write_fmt (writer : W) (res : Result bytes ()) : WriteFmtFuture :=
  mkWriteFmtFuture writer
    (Some match res with Ok b => Ok b | Err _ => Err (mkError (OtherKind 0) "formatter error") end) None 0.
Definition WriteFmt_round (buffer : bytes) (fuel : nat) (this : WriteFmtFuture) :
    Eff (WriteFmtFuture + (Poll (Result () Error) * WriteFmtFuture)) :=
  let set_writer writer amt := mkWriteFmtFuture writer (wfm_res this) (wfm_buffer this) amt in
  if (wfm_amt this =? N.of_nat (length buffer))%N then
    '(r, writer) ← poll_flush fuel (wfm_writer this);
    mret (inr (r, set_writer writer (wfm_amt this)))
  else
    '(r, writer) ← poll_write fuel buffer (wfm_writer this);
    match r with
    | Pending => mret (inr (Pending, set_writer writer (wfm_amt this)))
    | Ready (Err e) => mret (inr (Ready (Err e), set_writer writer (wfm_amt this)))
    | Ready (Ok 0) => mret (inr (Ready (Err (error_of WriteZero)), set_writer writer (wfm_amt this)))
    | Ready (Ok i) => amt ← usize_add (wfm_amt this) (N.of_nat i); mret (inl (set_writer writer amt))
    end.
Definition WriteFmtFuture_poll (fuel : nat) (this : WriteFmtFuture) :
    Eff (Poll (Result () Error) * WriteFmtFuture) :=
  match wfm_buffer this with
  | Some buffer => loop_poll (WriteFmt_round buffer) fuel this
  | None =>
      res ← unwrap (wfm_res this);
      match res with
      | Err err => mret (Ready (Err err), mkWriteFmtFuture (wfm_writer this) None None (wfm_amt this))
      | Ok buffer =>
          loop_poll (WriteFmt_round buffer) fuel
            (mkWriteFmtFuture (wfm_writer this) None (Some buffer) (wfm_amt this))
      end
  end.
#[global] Instance WriteFmtFuture_Future : Future WriteFmtFuture (Result () Error) := WriteFmtFuture_poll.
End Write.
Arguments WriteFuture : clear implicits.
Arguments mkWriteFuture {W}.
Arguments wf_writer {W}.
Arguments wf_buf {W}.
Arguments FlushFuture : clear implicits.
Arguments mkFlushFuture {W}.
Arguments ff_writer {W}.
Arguments WriteAllFuture : clear implicits.
Arguments mkWriteAllFuture {W}.
Arguments wa_writer {W}.
Arguments wa_buf {W}.
Arguments WriteFmtFuture : clear implicits.
Arguments mkWriteFmtFuture {W}.
Arguments wfm_writer {W}.
Arguments wfm_res {W}.
Arguments wfm_buffer {W}.
Arguments wfm_amt {W}.

(** * seek/seek.rs *)

Record SeekFuture (S : Type) : Type := mkSeekFuture { sf_seeker : S; sf_pos : SeekFrom }.
Arguments mkSeekFuture {S}.
Arguments sf_seeker {S}.
Arguments sf_pos {S}.
Definition SeekFuture_poll `{AsyncSeek F} (fuel : nat) (this : SeekFuture F) :
    Eff (Poll (Result N Error) * SeekFuture F) :=
  '(r, seeker) ← poll_seek fuel (sf_pos this) (sf_seeker this);
  mret (r, mkSeekFuture seeker (sf_pos this)).
#[global] Instance SeekFuture_Future `{AsyncSeek F} : Future (SeekFuture F) (Result N Error) := SeekFuture_poll.

(** * timeout.rs *)

(** [D] is the timer, [futures_timer::Delay]. *)
Record Timeout (F D : Type) : Type := mkTimeout { to_future : F; to_timeout : D }.
Arguments mkTimeout {F D}.
Arguments to_future {F D}.
Arguments to_timeout {F D}.
Definition Timeout_poll {T : Type} `{Future F (Result T Error)} `{Future D ()} (fuel : nat)
    (this : Timeout F D) : Eff (Poll (Result T Error) * Timeout F D) :=
  '(r, future) ← poll fuel (to_future this);
  match r with
  | Ready other => mret (Ready other, mkTimeout future (to_timeout this))
  | Pending =>
      '(r, timeout) ← poll (T:=()) fuel (to_timeout this);
      match r with
      | Ready _ => mret (Ready (Err (mkError TimedOut "future timed out")), mkTimeout future timeout)
      | Pending => mret (Pending, mkTimeout future timeout)
      end
  end.
