(* ===== verification/IoExt.v ===== *)
(** The extension methods of the reading, writing and seeking traits, which make
    the adapters and futures, and the methods that look into them. *)

From stdpp Require Import strings.
From Stdlib Require Import Strings.Byte.
From S2P Require Import Prelude Async Io IoBuf IoRead IoLines IoWrite.
Local Open Scope async_scope.

(** * read/mod.rs, write/mod.rs, seek/mod.rs *)

Module ReadExt.
Definition read {R : Type} (reader : R) (buf : nat) : ReadFuture R := mkReadFuture reader buf.
Definition read_exact {R : Type} (reader : R) (buf : nat) : ReadExactFuture R := mkReadExactFuture reader [] buf.
Definition take {R : Type} (reader : R) (limit : N) : Take R := mkTake reader limit.
Definition bytes {R : Type} (reader : R) : Bytes R := mkBytes reader.
Definition chain {R S : Type} (reader : R) (next : S) : Chain R S := mkChain reader next false.
End ReadExt.

Module WriteExt.
Definition write {W : Type} (writer : W) (buf : Io.bytes) : WriteFuture W := mkWriteFuture writer buf.
Definition flush {W : Type} (writer : W) : FlushFuture W := mkFlushFuture writer.
Definition write_all {W : Type} (writer : W) (buf : Io.bytes) : WriteAllFuture W := mkWriteAllFuture writer buf.
End WriteExt.

Definition seek {F : Type} (seeker : F) (pos : SeekFrom) : SeekFuture F := mkSeekFuture seeker pos.

(** * The structs *)

Definition Cursor_into_inner (this : Cursor) : bytes := cursor_inner this.
Definition Cursor_position (this : Cursor) : N := cursor_pos this.
Definition Cursor_set_position (pos : N) (this : Cursor) : Cursor := mkCursor (cursor_inner this) pos.
Definition Take_limit {T : Type} (this : Take T) : N := take_limit this.
Definition Take_set_limit {T : Type} (limit : N) (this : Take T) : Take T := mkTake (take_inner this) limit.
Definition Take_into_inner {T : Type} (this : Take T) : T := take_inner this.
Definition Chain_into_inner {T U : Type} (this : Chain T U) : T * U := (first this, second this).
