(* ===== verification/IoLaws.v ===== *)
(** The readers and writers of the library keep the laws of Io.v: what a
    [BufReader], a [Take], a [Chain] or a [Cursor] gives is determined by what is
    below it, and a [BufWriter] passes its bytes on in order. *)

From stdpp Require Import strings.
From Stdlib Require Import Strings.Byte.
From S2P Require Import Prelude Async Io IoBuf IoRead.
Local Open Scope async_scope.

(** Proves that more fuel does not change the answer of [f]. *)
Ltac mono_of f := intros; lazymatch goal with |- fuel_mono ?g => change (fuel_mono ltac:(let h := eval cbv beta in g in exact h)) end; unfold f; cbv zeta; solve_fuel_mono.

(** ** Slices *)

Lemma slice_range_run {A} (b : list A) i j :
  i ≤ j → j ≤ length b → slice_range b i j = Done (take (j - i) (drop i b), []).
Proof.
  intros Hi Hj. unfold slice_range.
  by rewrite (proj2 (Nat.leb_le _ _) Hi), (proj2 (Nat.leb_le _ _) Hj).
Qed.

(** * [BufReader] *)

Section BufReader.
Context {R : Type} `{ReaderLaws R}.
Implicit Types (this : BufReader R) (bs b rest : bytes).

(** The bytes in the buffer that are yet to be read. *)
Definition br_unread this : bytes := take (br_cap this - br_pos this) (drop (br_pos this) (br_buf this)).

Record br_holds this bs : Prop := mkBrHolds {
  br_room : 0 < length (br_buf this);
  br_range : br_pos this ≤ br_cap this ≤ length (br_buf this);
  br_bytes : ∃ rest, contents (br_inner this) rest ∧ bs = br_unread this ++ rest
}.
Definition br_buffered this bs b : Prop := br_holds this bs ∧ b = br_unread this.

Lemma br_unread_length this :
  br_pos this ≤ br_cap this ≤ length (br_buf this) → length (br_unread this) = br_cap this - br_pos this.
Proof. intros Hr. unfold br_unread. rewrite length_take, length_drop. lia. Qed.

Lemma br_unread_nil this : br_cap this ≤ br_pos this → br_unread this = [].
Proof. intros Hle. unfold br_unread. by replace (br_cap this - br_pos this) with 0 by lia. Qed.

Lemma br_slice this :
  br_pos this ≤ br_cap this ≤ length (br_buf this) →
  slice_range (br_buf this) (br_pos this) (br_cap this) = Done (br_unread this, []).
Proof. intros Hr. apply slice_range_run; lia. Qed.

Lemma br_fill_mono this : fuel_mono (λ n, BufReader_poll_fill_buf n this).
Proof. unfold BufReader_poll_fill_buf. solve_fuel_mono. Qed.

(** A refilled buffer. *)
Lemma br_refilled inner b buf rest :
  0 < length buf → length b ≤ length buf → contents inner rest →
  br_unread (mkBufReader inner (b ++ drop (length b) buf) 0 (length b)) = b ∧
  br_holds (mkBufReader inner (b ++ drop (length b) buf) 0 (length b)) (b ++ rest).
Proof.
  intros Hb Hl Hc. assert (br_unread (mkBufReader inner (b ++ drop (length b) buf) 0 (length b)) = b) as Hu.
  { unfold br_unread. simpl. by rewrite Nat.sub_0_r, drop_0, take_app_length. }
  split; [exact Hu|]. split; simpl.
  - rewrite length_app, length_drop. lia.
  - rewrite length_app, length_drop. lia.
  - exists rest. by rewrite Hu.
Qed.

Lemma br_fill_spec n this bs p this' w :
  br_holds this bs → BufReader_poll_fill_buf n this = Done ((p, this'), w) →
  match p with
  | Pending => w ≠ [] ∧ br_holds this' bs
  | Ready (Err e) => kind e ≠ Interrupted ∧ br_holds this' bs
  | Ready (Ok b) => br_buffered this' bs b ∧ (b = [] → bs = [])
  end.
Proof.
  intros Hh Hp. pose proof Hh as [Hroom Hr (rest & Hc & ->)]. unfold BufReader_poll_fill_buf in Hp.
  destruct (Nat.leb_spec (br_cap this) (br_pos this)) as [Hle|Hlt].
  - destruct (br_pos this =? br_cap this) eqn:He; [|done]. rewrite br_unread_nil in * by done.
    apply eff_bind_done in Hp as ([r inner] & w1 & w2 & Hread & Hp & ->).
    pose proof (read_spec _ _ _ _ _ _ _ Hc Hread) as Hs.
    assert (∀ rest', contents inner rest' → br_holds (br_set_inner inner this) rest') as Hkeep.
    { intros rest' Hc'. split; [done|done|]. exists rest'. split; [done|].
      by rewrite br_unread_nil. }
    destruct r as [[b|e]|].
    + destruct Hs as (rest' & -> & Hlen & Hend & Hc').
      destruct (br_refilled inner b (br_buf this) rest' Hroom Hlen Hc') as [Hu Hh'].
      rewrite br_slice in Hp by apply Hh'. rewrite eff_bind_Done in Hp. apply eff_ret_done in Hp as [[= <- <-] ->].
      split; [by split; [|rewrite Hu]|]. rewrite Hu. intros ->. destruct (Hend eq_refl); [lia|done].
    + apply eff_ret_done in Hp as [[= <- <-] ->]. destruct Hs as [? Hc']. split; [done|]. by apply Hkeep.
    + apply eff_ret_done in Hp as [[= <- <-] ->]. destruct Hs as [? Hc']. rewrite app_nil_r. split; [done|].
      by apply Hkeep.
  - rewrite br_slice, eff_bind_Done in Hp by done. apply eff_ret_done in Hp as [[= <- <-] ->].
    split; [by split|]. intros Hu. pose proof (br_unread_length this Hr) as Hl. rewrite Hu in Hl. simpl in Hl. lia.
Qed.

Lemma br_fill_returns this bs : br_holds this bs → ∃ n x, BufReader_poll_fill_buf n this = Done x.
Proof.
  intros [Hroom Hr (rest & Hc & ->)]. unfold BufReader_poll_fill_buf.
  destruct (Nat.leb_spec (br_cap this) (br_pos this)) as [Hle|Hlt].
  - rewrite (proj2 (Nat.eqb_eq _ _)) by lia.
    destruct (read_returns (br_inner this) rest (length (br_buf this)) Hc) as (n & [[r inner] w] & Hread).
    exists n. rewrite Hread. simpl. pose proof (read_spec _ _ _ _ _ _ _ Hc Hread) as Hs.
    destruct r as [[b|e]|]; try by eexists. destruct Hs as (rest' & _ & Hlen & _ & Hc').
    rewrite slice_range_run by (try rewrite length_app, length_drop; lia). by eexists.
  - exists 0. rewrite br_slice by done. by eexists.
Qed.

Lemma br_consume_spec this bs b amt :
  br_buffered this bs b → amt ≤ length b →
  ∃ this', BufReader_consume amt this = Done (this', []) ∧ br_holds this' (drop amt bs).
Proof.
  intros [[Hroom Hr (rest & Hc & ->)] ->] Ha. rewrite br_unread_length in Ha by done. eexists. split; [done|].
  split; simpl; [done|lia|]. exists rest. split; [done|].
  rewrite drop_app_le by (rewrite br_unread_length; lia). f_equal. unfold br_unread. simpl.
  rewrite Nat.min_l by lia. rewrite skipn_firstn_comm, drop_drop. f_equal; lia.
Qed.

Lemma br_consume_none this bs :
  br_holds this bs → ∃ this', BufReader_consume 0 this = Done (this', []) ∧ br_holds this' bs.
Proof.
  intros Hh. destruct (br_consume_spec this bs (br_unread this) 0) as (this' & He & Hh'); [done|lia|].
  exists this'. by rewrite drop_0 in Hh'.
Qed.

#[global] Program Instance BufReader_BufReaderLaws : BufReaderLaws (BufReader R) := {|
  to_come := br_holds;
  buffered := br_buffered;
  fill_mono := br_fill_mono;
  fill_returns := br_fill_returns;
  fill_spec := br_fill_spec;
  consume_spec := br_consume_spec;
  consume_none := br_consume_none
|}.
Next Obligation. intros this bs b [Hh ->]. split; [done|]. destruct Hh as [_ _ (rest & _ & ->)]. by eexists. Qed.

Lemma br_read_spec n len this bs p this' w :
  br_holds this bs → BufReader_poll_read n len this = Done ((p, this'), w) →
  match p with
  | Pending => w ≠ [] ∧ br_holds this' bs
  | Ready (Err e) => kind e ≠ Interrupted ∧ br_holds this' bs
  | Ready (Ok b) => ∃ rest, bs = b ++ rest ∧ length b ≤ len ∧
      (b = [] → len = 0 ∨ bs = []) ∧ br_holds this' rest
  end.
Proof.
  intros Hh Hp. unfold BufReader_poll_read in Hp.
  destruct ((br_pos this =? br_cap this) && (length (br_buf this) <=? len)) eqn:Hb.
  - apply andb_true_iff in Hb as [He%Nat.eqb_eq _]. destruct Hh as [Hroom Hr (rest & Hc & ->)].
    rewrite br_unread_nil by lia. apply eff_bind_done in Hp as ([r inner] & w1 & w2 & Hread & Hp & ->).
    pose proof (read_spec _ _ _ _ _ _ _ Hc Hread) as Hs.
    assert (∀ rest', contents inner rest' → br_holds (discard_buffer (br_set_inner inner this)) rest') as Hkeep.
    { intros rest' Hc'. split; simpl; [done|lia|]. by exists rest'. }
    destruct r as [[b|e]|]; apply eff_ret_done in Hp as [[= <- <-] ->]; simpl.
    + destruct Hs as (rest' & -> & Hlen & Hend & Hc'). exists rest'. eauto.
    + destruct Hs as [? Hc']. eauto.
    + destruct Hs as [? Hc']. rewrite app_nil_r. split; [done|]. split; [done|done|].
      exists rest. split; [done|]. by rewrite br_unread_nil by (simpl; lia).
  - apply eff_bind_done in Hp as ([r this1] & w1 & w2 & Hf & Hp & ->).
    pose proof (br_fill_spec _ _ _ _ _ _ Hh Hf) as Hs. destruct r as [[b|e]|].
    + destruct Hs as [Hbuf Hend].
      destruct (br_consume_spec _ _ _ (length (take len b)) Hbuf) as (this2 & Hcon & Hh2); [rewrite length_take; lia|].
      rewrite Hcon, eff_bind_Done in Hp. apply eff_ret_done in Hp as [[= <- <-] ->].
      destruct Hbuf as [[_ _ (rest & _ & ->)] ->]. eexists. split; [|split; [|split; [|exact Hh2]]].
      * rewrite length_take. set (u := br_unread this1).
        rewrite <- (take_drop (len `min` length u) (u ++ rest)) at 1. f_equal.
        rewrite take_app_le by lia. destruct (decide (len ≤ length u)); [by rewrite Nat.min_l|].
        by rewrite Nat.min_r, !take_ge by lia.
      * rewrite length_take. lia.
      * intros Ht. destruct len; [by left|right]. destruct (br_unread this1); [by apply Hend|done].
    + apply eff_ret_done in Hp as [[= <- <-] ->]. done.
    + apply eff_ret_done in Hp as [[= <- <-] ->]. by rewrite app_nil_r.
Qed.

#[global] Program Instance BufReader_ReaderLaws : ReaderLaws (BufReader R) := {|
  contents := br_holds;
  read_spec := br_read_spec
|}.
Next Obligation.
  intros len this. change (fuel_mono (λ n, BufReader_poll_read n len this)). unfold BufReader_poll_read.
  pose proof (br_fill_mono this). solve_fuel_mono.
Qed.
Next Obligation.
  intros this bs len Hh. change (∃ n x, BufReader_poll_read n len this = Done x). unfold BufReader_poll_read.
  destruct (_ && _).
  - destruct Hh as [_ _ (rest & Hc & _)].
    destruct (read_returns (br_inner this) rest len Hc) as (n & [[r inner] w] & Hread).
    exists n. rewrite Hread. destruct r; by eexists.
  - destruct (br_fill_returns this bs Hh) as (n & [[r this1] w] & Hf). exists n. rewrite Hf.
    destruct r as [[b|e]|]; by eexists.
Qed.
End BufReader.

(** * [Take] *)

Section Take.
Context {T : Type}.
Implicit Types (this : Take T) (bs b : bytes).

Definition limited (limit : N) bs : bytes := take (N.to_nat limit) bs.

Definition take_holds `{ReaderLaws T} this bs : Prop :=
  ∃ rest, contents (take_inner this) rest ∧ bs = limited (take_limit this) rest.

Lemma limited_app limit b rest :
  (N.of_nat (length b) ≤ limit)%N → limited limit (b ++ rest) = b ++ limited (limit - N.of_nat (length b)) rest.
Proof. intros Hl. unfold limited. rewrite take_app_ge by lia. do 2 f_equal. lia. Qed.

Lemma limited_nil limit bs : limited limit bs = [] → limit = 0%N ∨ bs = [].
Proof. unfold limited. intros He. destruct bs; [by right|]. destruct (N.to_nat limit) eqn:Hn; [left; lia|done]. Qed.

Lemma take_read_spec `{ReaderLaws T} n len this bs p this' w :
  take_holds this bs → Take_poll_read n len this = Done ((p, this'), w) →
  match p with
  | Pending => w ≠ [] ∧ take_holds this' bs
  | Ready (Err e) => kind e ≠ Interrupted ∧ take_holds this' bs
  | Ready (Ok b) => ∃ rest, bs = b ++ rest ∧ length b ≤ len ∧
      (b = [] → len = 0 ∨ bs = []) ∧ take_holds this' rest
  end.
Proof.
  intros (rest & Hc & ->) Hp. unfold Take_poll_read, take_read_internal in Hp.
  destruct (N.eqb_spec (take_limit this) 0) as [Hz|Hz].
  - rewrite eff_bind_ret in Hp. apply eff_ret_done in Hp as [[= <- <-] ->]. exists [].
    assert (limited (take_limit this) rest = []) as Hn by (unfold limited; by rewrite Hz).
    rewrite Hn. split_and!; [done|simpl; lia|by right|]. exists rest. by split.
  - apply eff_bind_done in Hp as ([[r rd] limit] & w1 & w2 & Hr & Hp & ->).
    apply eff_ret_done in Hp as [[= <- <-] ->]. rewrite app_nil_r.
    apply eff_bind_done in Hr as ([r0 rd0] & w3 & w4 & Hread & Hr & ->).
    pose proof (read_spec _ _ _ _ _ _ _ Hc Hread) as Hs. destruct r0 as [[b|e]|].
    + destruct Hs as (rest' & -> & Hlen & Hend & Hc').
      rewrite usize_sub_ok, eff_bind_Done in Hr by lia. apply eff_ret_done in Hr as [[= <- <- <-] ->].
      exists (limited (take_limit this - N.of_nat (length b)) rest').
      split_and!; [apply limited_app; lia|lia| |by exists rest'].
      intros ->. destruct (Hend eq_refl) as [?|Hn]; [left; lia|]. right. simpl in *. rewrite Hn.
      apply take_nil.
    + apply eff_ret_done in Hr as [[= <- <- <-] ->]. destruct Hs as [? Hc']. split; [done|]. by exists rest.
    + apply eff_ret_done in Hr as [[= <- <- <-] ->]. destruct Hs as [? Hc']. rewrite app_nil_r.
      split; [done|]. by exists rest.
Qed.

#[global] Program Instance Take_ReaderLaws `{ReaderLaws T} : ReaderLaws (Take T) := {|
  contents := take_holds;
  read_spec := take_read_spec
|}.
Next Obligation.
  intros ? ? len this. change (fuel_mono (λ n, Take_poll_read n len this)).
  unfold Take_poll_read, take_read_internal. cbv zeta. solve_fuel_mono.
Qed.
Next Obligation.
  intros ? ? this bs len (rest & Hc & ->). change (∃ n x, Take_poll_read n len this = Done x).
  unfold Take_poll_read, take_read_internal. destruct (N.eqb_spec (take_limit this) 0) as [_|_]; [by exists 0; eexists|].
  destruct (read_returns (take_inner this) rest (N.to_nat (N.min (N.of_nat len) (take_limit this))) Hc)
    as (n & [[r rd] w] & Hread).
  exists n. cbv zeta. rewrite Hread. pose proof (read_spec _ _ _ _ _ _ _ Hc Hread) as Hs.
  destruct r as [[b|e]|]; try by eexists. destruct Hs as (rest' & _ & Hlen & _).
  simpl. rewrite usize_sub_ok by lia. by eexists.
Qed.

(** The same of what it lets through of a buffered reader. *)
Definition take_to_come `{BufReaderLaws T} this bs : Prop :=
  ∃ rest, to_come (take_inner this) rest ∧ bs = limited (take_limit this) rest.
Definition take_buffered `{BufReaderLaws T} this bs b : Prop :=
  take_limit this = 0%N ∧ b = [] ∧ take_to_come this bs ∨
  ∃ rest b0, buffered (take_inner this) rest b0 ∧ bs = limited (take_limit this) rest ∧
    b = limited (take_limit this) b0.

Lemma take_fill_spec `{BufReaderLaws T} n this bs p this' w :
  take_to_come this bs → Take_poll_fill_buf n this = Done ((p, this'), w) →
  match p with
  | Pending => w ≠ [] ∧ take_to_come this' bs
  | Ready (Err e) => kind e ≠ Interrupted ∧ take_to_come this' bs
  | Ready (Ok b) => take_buffered this' bs b ∧ (b = [] → bs = [])
  end.
Proof.
  intros (rest & Hc & ->) Hp. unfold Take_poll_fill_buf in Hp.
  destruct (N.eqb_spec (take_limit this) 0) as [Hz|Hz].
  - apply eff_ret_done in Hp as [[= <- <-] ->]. split; [left; split_and!; [done|done|by exists rest]|].
    intros _. unfold limited. by rewrite Hz.
  - apply eff_bind_done in Hp as ([r inner] & w1 & w2 & Hf & Hp & ->).
    pose proof (fill_spec _ _ _ _ _ _ Hc Hf) as Hs.
    destruct r as [[b|e]|]; apply eff_ret_done in Hp as [[= <- <-] ->].
    + destruct Hs as [Hb Hend].
      assert (take (N.to_nat (N.min (N.of_nat (length b)) (take_limit this))) b = limited (take_limit this) b) as ->.
      { unfold limited. destruct (decide (length b ≤ N.to_nat (take_limit this))).
        - by rewrite !take_ge by lia.
        - f_equal. lia. }
      split; [right; by exists rest, b|]. intros [?| ->]%limited_nil; [done|]. rewrite Hend by done. apply take_nil.
    + destruct Hs as [? Hc']. split; [done|]. by exists rest.
    + destruct Hs as [? Hc']. rewrite app_nil_r. split; [done|]. by exists rest.
Qed.

Lemma limited_drop limit amt bs :
  amt ≤ N.to_nat limit → drop amt (limited limit bs) = limited (limit - N.of_nat amt) (drop amt bs).
Proof. intros Ha. unfold limited. rewrite skipn_firstn_comm. f_equal. lia. Qed.

Lemma take_consume_spec `{BufReaderLaws T} this bs b amt :
  take_buffered this bs b → amt ≤ length b →
  ∃ this', Take_consume amt this = Done (this', []) ∧ take_to_come this' (drop amt bs).
Proof.
  intros Hb Ha. assert (∃ rest inner, bs = limited (take_limit this) rest ∧ amt ≤ N.to_nat (take_limit this) ∧
    consume amt (take_inner this) = Done (inner, []) ∧ to_come inner (drop amt rest)) as (rest & inner & -> & Hl & He & Hc).
  { destruct Hb as [(Hz & -> & (rest & Hc & ->))|(rest & b0 & Hb & -> & ->)].
    - simpl in Ha. assert (amt = 0) as -> by lia. destruct (consume_none _ _ Hc) as (inner & He & Hc').
      exists rest, inner. rewrite drop_0. split_and!; [done|lia|done|done].
    - unfold limited in Ha. rewrite length_take in Ha.
      destruct (consume_spec _ _ _ amt Hb) as (inner & He & Hc'); [lia|]. exists rest, inner. split_and!; [done|lia|done|done]. }
  unfold Take_consume. cbv zeta. rewrite N.min_l, Nat2N.id, usize_sub_ok, eff_bind_Done, He, eff_bind_Done by lia.
  eexists. split; [done|]. exists (drop amt rest). split; [done|]. by apply limited_drop.
Qed.

#[global] Program Instance Take_BufReaderLaws `{BufReaderLaws T} : BufReaderLaws (Take T) := {|
  to_come := take_to_come;
  buffered := take_buffered;
  fill_spec := take_fill_spec;
  consume_spec := take_consume_spec
|}.
Next Obligation.
  intros ? ? this. change (fuel_mono (λ n, Take_poll_fill_buf n this)). unfold Take_poll_fill_buf. solve_fuel_mono.
Qed.
Next Obligation.
  intros ? ? this bs (rest & Hc & ->). change (∃ n x, Take_poll_fill_buf n this = Done x).
  unfold Take_poll_fill_buf. destruct (_ =? _)%N; [by exists 0; eexists|].
  destruct (fill_returns _ _ Hc) as (n & [[r inner] w] & Hf). exists n. rewrite Hf. destruct r as [[]|]; by eexists.
Qed.
Next Obligation.
  intros ? ? this bs b [(Hz & -> & Hc)|(rest & b0 & Hb & -> & ->)].
  - split; [done|by eexists].
  - destruct (buffered_prefix _ _ _ Hb) as [Hc [rest' ->]]. split; [by eexists|].
    unfold limited. rewrite take_app. by eexists.
Qed.
Next Obligation.
  intros ? ? this bs (rest & Hc & ->). destruct (consume_none _ _ Hc) as (inner & He & Hc').
  change (∃ r', Take_consume 0 this = Done (r', []) ∧ take_to_come r' (limited (take_limit this) rest)).
  unfold Take_consume. cbv zeta. rewrite N.min_l, usize_sub_ok, eff_bind_Done, Nat2N.id, He, eff_bind_Done by lia.
  eexists. split; [done|]. exists rest. split; [done|]. simpl. by rewrite N.sub_0_r.
Qed.
End Take.

(** * [Chain] *)

Section Chain.
Context {T U : Type}.
Implicit Types (this : Chain T U) (bs b : bytes).

Definition chain_holds `{ReaderLaws T} `{ReaderLaws U} this bs : Prop :=
  if done_first this then contents (second this) bs
  else ∃ bs1 bs2, contents (first this) bs1 ∧ contents (second this) bs2 ∧ bs = bs1 ++ bs2.

Lemma chain_read_spec `{ReaderLaws T} `{ReaderLaws U} n len this bs p this' w :
  chain_holds this bs → Chain_poll_read n len this = Done ((p, this'), w) →
  match p with
  | Pending => w ≠ [] ∧ chain_holds this' bs
  | Ready (Err e) => kind e ≠ Interrupted ∧ chain_holds this' bs
  | Ready (Ok b) => ∃ rest, bs = b ++ rest ∧ length b ≤ len ∧
      (b = [] → len = 0 ∨ bs = []) ∧ chain_holds this' rest
  end.
Proof.
  intros Hh Hp.
  assert (∀ (f : T) (s : U) bs w, contents s bs →
    ('(r, second) ← poll_read n len s; mret (r, mkChain f second true)) = Done ((p, this'), w) →
    match p with
    | Pending => w ≠ [] ∧ chain_holds this' bs
    | Ready (Err e) => kind e ≠ Interrupted ∧ chain_holds this' bs
    | Ready (Ok b) => ∃ rest, bs = b ++ rest ∧ length b ≤ len ∧
        (b = [] → len = 0 ∨ bs = []) ∧ chain_holds this' rest
    end) as Hsecond.
  { clear. intros f s bs w Hc Hp. apply eff_bind_done in Hp as ([r s'] & w1 & w2 & Hread & Hp & ->).
    apply eff_ret_done in Hp as [[= <- <-] ->]. rewrite app_nil_r.
    exact (read_spec _ _ _ _ _ _ _ Hc Hread). }
  destruct this as [f s []]; unfold Chain_poll_read in Hp; simpl in Hp; [exact (Hsecond f s bs w Hh Hp)|].
  destruct Hh as (bs1 & bs2 & Hc1 & Hc2 & ->). simpl in *.
  apply eff_bind_done in Hp as ([r f'] & w1 & w2 & Hread & Hp & ->).
  pose proof (read_spec _ _ _ _ _ _ _ Hc1 Hread) as Hs. destruct r as [[b|e]|].
  - destruct Hs as (rest & -> & Hlen & Hend & Hc'). destruct ((length b =? 0) && negb (len =? 0)) eqn:Hb.
    + apply andb_true_iff in Hb as [->%Nat.eqb_eq%nil_length_inv Hn%negb_true_iff%Nat.eqb_neq].
      destruct (Hend eq_refl) as [|Hr]; [done|]. simpl in Hr. subst rest. simpl app.
      apply (Hsecond _ _ _ _ Hc2) in Hp. destruct p as [[]|]; try done.
      destruct Hp as [Hw ?]. split; [by apply events_nonempty_r|done].
    + apply eff_ret_done in Hp as [[= <- <-] ->]. exists (rest ++ bs2). rewrite app_assoc.
      split_and!; [done|done| |by exists rest, bs2]. intros ->. simpl in Hb.
      apply negb_false_iff, Nat.eqb_eq in Hb. by left.
  - apply eff_ret_done in Hp as [[= <- <-] ->]. destruct Hs as [? Hc']. split; [done|]. by exists bs1, bs2.
  - apply eff_ret_done in Hp as [[= <- <-] ->]. destruct Hs as [? Hc']. rewrite app_nil_r.
    split; [done|]. by exists bs1, bs2.
Qed.

#[global] Program Instance Chain_ReaderLaws `{ReaderLaws T} `{ReaderLaws U} : ReaderLaws (Chain T U) := {|
  contents := chain_holds;
  read_spec := chain_read_spec
|}.
Next Obligation.
  intros ? ? ? ? len this. change (fuel_mono (λ n, Chain_poll_read n len this)). unfold Chain_poll_read.
  cbv zeta. solve_fuel_mono.
Qed.
Next Obligation.
  intros ? ? ? ? this bs len Hh. change (∃ n x, Chain_poll_read n len this = Done x).
  destruct this as [f s []]; unfold Chain_poll_read; simpl.
  - destruct (read_returns s bs len Hh) as (n & [[r s'] w] & Hr). exists n. rewrite Hr. by eexists.
  - destruct Hh as (bs1 & bs2 & Hc1 & Hc2 & ->). simpl in *.
    destruct (read_returns _ _ len Hc1) as (n & [[r f'] w] & Hr1).
    destruct (read_returns _ _ len Hc2) as (m & [[r2 s'] w2] & Hr2). exists (n `max` m).
    rewrite (read_mono len f n (n `max` m) _ ltac:(lia) Hr1), (read_mono len s m (n `max` m) _ ltac:(lia) Hr2).
    destruct r as [[b|e]|]; simpl; try by eexists. destruct (_ && _); by eexists.
Qed.

Definition chain_to_come `{BufReaderLaws T} `{BufReaderLaws U} this bs : Prop :=
  if done_first this then to_come (second this) bs
  else ∃ bs1 bs2, to_come (first this) bs1 ∧ to_come (second this) bs2 ∧ bs = bs1 ++ bs2.
Definition chain_buffered `{BufReaderLaws T} `{BufReaderLaws U} this bs b : Prop :=
  if done_first this then buffered (second this) bs b
  else ∃ bs1 bs2, buffered (first this) bs1 b ∧ to_come (second this) bs2 ∧ bs = bs1 ++ bs2.

Lemma chain_fill_spec `{BufReaderLaws T} `{BufReaderLaws U} n this bs p this' w :
  chain_to_come this bs → Chain_poll_fill_buf n this = Done ((p, this'), w) →
  match p with
  | Pending => w ≠ [] ∧ chain_to_come this' bs
  | Ready (Err e) => kind e ≠ Interrupted ∧ chain_to_come this' bs
  | Ready (Ok b) => chain_buffered this' bs b ∧ (b = [] → bs = [])
  end.
Proof.
  intros Hh Hp.
  assert (∀ (f : T) (s : U) bs w, to_come s bs →
    ('(r, second) ← poll_fill_buf n s; mret (r, mkChain f second true)) = Done ((p, this'), w) →
    match p with
    | Pending => w ≠ [] ∧ chain_to_come this' bs
    | Ready (Err e) => kind e ≠ Interrupted ∧ chain_to_come this' bs
    | Ready (Ok b) => chain_buffered this' bs b ∧ (b = [] → bs = [])
    end) as Hsecond.
  { clear. intros f s bs w Hc Hp. apply eff_bind_done in Hp as ([r s'] & w1 & w2 & Hf & Hp & ->).
    apply eff_ret_done in Hp as [[= <- <-] ->]. rewrite app_nil_r. exact (fill_spec _ _ _ _ _ _ Hc Hf). }
  destruct this as [f s []]; unfold Chain_poll_fill_buf in Hp; simpl in Hp; [exact (Hsecond f s bs w Hh Hp)|].
  destruct Hh as (bs1 & bs2 & Hc1 & Hc2 & ->). simpl in *.
  apply eff_bind_done in Hp as ([r f'] & w1 & w2 & Hf & Hp & ->).
  pose proof (fill_spec _ _ _ _ _ _ Hc1 Hf) as Hs. destruct r as [[[|x b]|e]|].
  - destruct Hs as [_ Hend]. rewrite Hend by done. simpl app.
    apply (Hsecond _ _ _ _ Hc2) in Hp. destruct p as [[]|]; try done.
    destruct Hp as [Hw ?]. split; [by apply events_nonempty_r|done].
  - apply eff_ret_done in Hp as [[= <- <-] ->]. destruct Hs as [Hb _]. split; [by exists bs1, bs2|done].
  - apply eff_ret_done in Hp as [[= <- <-] ->]. destruct Hs as [? Hc']. split; [done|]. by exists bs1, bs2.
  - apply eff_ret_done in Hp as [[= <- <-] ->]. destruct Hs as [? Hc']. rewrite app_nil_r.
    split; [done|]. by exists bs1, bs2.
Qed.

#[global] Program Instance Chain_BufReaderLaws `{BufReaderLaws T} `{BufReaderLaws U} :
    BufReaderLaws (Chain T U) := {|
  to_come := chain_to_come;
  buffered := chain_buffered;
  fill_spec := chain_fill_spec
|}.
Next Obligation.
  intros ? ? ? ? this. change (fuel_mono (λ n, Chain_poll_fill_buf n this)). unfold Chain_poll_fill_buf.
  cbv zeta. solve_fuel_mono.
Qed.
Next Obligation.
  intros ? ? ? ? this bs Hh. change (∃ n x, Chain_poll_fill_buf n this = Done x).
  destruct this as [f s []]; unfold Chain_poll_fill_buf; simpl.
  - destruct (fill_returns s bs Hh) as (n & [[r s'] w] & Hr). exists n. rewrite Hr. by eexists.
  - destruct Hh as (bs1 & bs2 & Hc1 & Hc2 & ->). simpl in *.
    destruct (fill_returns _ _ Hc1) as (n & [[r f'] w] & Hr1).
    destruct (fill_returns _ _ Hc2) as (m & [[r2 s'] w2] & Hr2). exists (n `max` m).
    rewrite (fill_mono f n (n `max` m) _ ltac:(lia) Hr1), (fill_mono s m (n `max` m) _ ltac:(lia) Hr2).
    destruct r as [[[]|e]|]; simpl; by eexists.
Qed.
Next Obligation.
  intros ? ? ? ? [f s []] bs b Hb; simpl in *; [by apply buffered_prefix|].
  destruct Hb as (bs1 & bs2 & Hb & Hc & ->). destruct (buffered_prefix _ _ _ Hb) as [Hc1 [rest ->]].
  split; [by do 2 eexists|]. rewrite <- app_assoc. by eexists.
Qed.
Next Obligation.
  intros ? ? ? ? this bs b amt Hb Ha.
  change (∃ r', Chain_consume amt this = Done (r', []) ∧ chain_to_come r' (drop amt bs)).
  destruct this as [f s []]; unfold Chain_consume; simpl in *.
  - destruct (consume_spec s bs b amt Hb Ha) as (s' & He & Hc). rewrite He. by eexists.
  - destruct Hb as (bs1 & bs2 & Hb & Hc2 & ->). destruct (consume_spec f bs1 b amt Hb Ha) as (f' & He & Hc).
    rewrite He. eexists. split; [done|]. exists (drop amt bs1), bs2. split_and!; [done|done|].
    apply drop_app_le. destruct (buffered_prefix _ _ _ Hb) as [_ [rest ->]]. rewrite length_app. lia.
Qed.
Next Obligation.
  intros ? ? ? ? this bs Hh. change (∃ r', Chain_consume 0 this = Done (r', []) ∧ chain_to_come r' bs).
  destruct this as [f s []]; unfold Chain_consume; simpl in *.
  - destruct (consume_none s bs Hh) as (s' & He & Hc). rewrite He. by eexists.
  - destruct Hh as (bs1 & bs2 & Hc1 & Hc2 & ->). destruct (consume_none f bs1 Hc1) as (f' & He & Hc).
    rewrite He. eexists. split; [done|]. by exists bs1, bs2.
Qed.
End Chain.

(** * [Cursor] and [Empty] *)

Definition cursor_holds (this : Cursor) (bs : bytes) : Prop :=
  (cursor_pos this < usize_modulus)%N ∧ (N.of_nat (length (cursor_inner this)) < usize_modulus)%N ∧
  bs = std_cursor_fill_buf this.

Lemma cursor_advance this bs amt :
  cursor_holds this bs → amt ≤ length bs →
  ∃ this', std_cursor_advance amt this = Done (this', []) ∧ cursor_holds this' (drop amt bs).
Proof.
  intros (Hb & Hl & ->) Ha. unfold std_cursor_fill_buf in *. rewrite length_drop in Ha.
  unfold std_cursor_advance. rewrite usize_add_ok, eff_bind_Done by lia. eexists. split; [done|].
  unfold cursor_holds, std_cursor_fill_buf. simpl. split_and!; [lia|lia|]. rewrite drop_drop.
  destruct amt as [|amt]; [by rewrite N.add_0_r, Nat.add_0_r|]. f_equal. lia.
Qed.

#[global] Program Instance Cursor_ReaderLaws : ReaderLaws Cursor := {| contents := cursor_holds |}.
Next Obligation. intros len this n m r _ Hr. exact Hr. Qed.
Next Obligation.
  intros this bs len Hh. exists 0. change (∃ x, Cursor_poll_read 0 len this = Done x). unfold Cursor_poll_read.
  destruct (cursor_advance this bs (length (take len (std_cursor_fill_buf this))) Hh) as (this' & -> & _);
    [destruct Hh as (_ & _ & ->); rewrite length_take; lia|by eexists].
Qed.
Next Obligation.
  intros n len this bs p this' w Hh Hp. change (Cursor_poll_read n len this = Done ((p, this'), w)) in Hp.
  unfold Cursor_poll_read in Hp. pose proof Hh as (_ & _ & Heq). rewrite <- Heq in Hp.
  destruct (cursor_advance this bs (length (take len bs)) Hh) as (this2 & He & Hh'); [rewrite length_take; lia|].
  rewrite He, eff_bind_Done in Hp. apply eff_ret_done in Hp as [[= <- <-] ->]. exists (drop (length (take len bs)) bs).
  split_and!; [|rewrite length_take; lia| |done].
  - rewrite length_take. destruct (decide (len ≤ length bs)).
    + by rewrite Nat.min_l, take_drop.
    + by rewrite Nat.min_r, take_ge, drop_all, app_nil_r by lia.
  - destruct len; [by left|]. destruct bs; [by right|done].
Qed.

#[global] Program Instance Cursor_BufReaderLaws : BufReaderLaws Cursor := {|
  to_come := cursor_holds;
  buffered this bs b := cursor_holds this bs ∧ b = bs
|}.
Next Obligation. intros this n m r _ Hr. exact Hr. Qed.
Next Obligation. intros this bs Hh. by exists 0; eexists. Qed.
Next Obligation.
  intros n this bs p this' w Hh Hp. change (Cursor_poll_fill_buf n this = Done ((p, this'), w)) in Hp.
  apply eff_ret_done in Hp as [[= <- <-] ->]. destruct Hh as (? & ? & ->). by repeat split.
Qed.
Next Obligation. intros this bs b [Hh ->]. split; [done|]. exists []. by rewrite app_nil_r. Qed.
Next Obligation. intros this bs b amt [Hh ->] Ha. by apply cursor_advance. Qed.
Next Obligation.
  intros this bs Hh. destruct (cursor_advance this bs 0 Hh) as (this' & He & Hh'); [lia|].
  exists this'. by rewrite drop_0 in Hh'.
Qed.

#[global] Program Instance Empty_ReaderLaws : ReaderLaws Empty := {| contents _ bs := bs = [] |}.
Next Obligation. intros len this n m r _ Hr. exact Hr. Qed.
Next Obligation. intros this bs len _. by exists 0; eexists. Qed.
Next Obligation.
  intros n len this bs p this' w -> Hp. change (Empty_poll_read n len this = Done ((p, this'), w)) in Hp.
  apply eff_ret_done in Hp as [[= <- <-] ->]. exists []. split_and!; [done|simpl; lia|by right|done].
Qed.
#[global] Program Instance Empty_BufReaderLaws : BufReaderLaws Empty := {|
  to_come _ bs := bs = [];
  buffered _ bs b := bs = [] ∧ b = []
|}.
Next Obligation. intros this n m r _ Hr. exact Hr. Qed.
Next Obligation. intros this bs _. by exists 0; eexists. Qed.
Next Obligation.
  intros n this bs p this' w -> Hp. change (Empty_poll_fill_buf n this = Done ((p, this'), w)) in Hp.
  by apply eff_ret_done in Hp as [[= <- <-] ->].
Qed.
Next Obligation. intros this bs b [-> ->]. split; [done|by exists []]. Qed.
Next Obligation. intros this bs b amt [-> ->] Ha. simpl in Ha. assert (amt = 0) as -> by lia. by exists this. Qed.
Next Obligation. intros this bs ->. by exists this. Qed.

(** * Writers *)

(** A sink keeps nothing; any bytes may have been what it accepted. *)
#[global] Program Instance Sink_WriterLaws : WriterLaws Sink := {| accepted _ _ := True; settled _ _ := True |}.
Next Obligation. done. Qed.
Next Obligation. intros buf this n m r _ Hr. exact Hr. Qed.
Next Obligation. intros this n m r _ Hr. exact Hr. Qed.
Next Obligation. intros this bs buf _. by exists 0; eexists. Qed.
Next Obligation. intros this bs _. by exists 0; eexists. Qed.
Next Obligation.
  intros n buf this bs p this' w _ Hp. change (Sink_poll_write n buf this = Done ((p, this'), w)) in Hp.
  by apply eff_ret_done in Hp as [[= <- <-] ->].
Qed.
Next Obligation.
  intros n this bs p this' w _ Hp. change (Sink_poll_flush n this = Done ((p, this'), w)) in Hp.
  by apply eff_ret_done in Hp as [[= <- <-] ->].
Qed.
