(* ===== verification/IoWriterLaws.v ===== *)
(** What is written through a [BufWriter] reaches the writer below in order,
    and the futures that write do so too. *)

From stdpp Require Import strings.
From Stdlib Require Import Strings.Byte.
From S2P Require Import Prelude Async Io IoBuf IoRead IoWrite IoLaws.
Local Open Scope async_scope.

Section BufWriter.
Context {W : Type} `{WriterLaws W}.
Implicit Types (this : BufWriter W) (bs buf : bytes).

Record bw_holds this bs : Prop := mkBwHolds {
  bw_range : bw_written this ≤ length (bw_buf this) ≤ bw_cap this;
  bw_bytes : ∃ pre, accepted (bw_inner this) pre ∧ bs = pre ++ drop (bw_written this) (bw_buf this)
}.

(** What is known after [poll_flush_buf]. *)
Definition flushed_buf (cap : nat) bs (r : Poll (Result () Error) * BufWriter W) (w : list CxEvent) : Prop :=
  bw_holds r.2 bs ∧ bw_cap r.2 = cap ∧
  match r.1 with
  | Pending => w ≠ []
  | Ready (Err e) => kind e ≠ Interrupted
  | Ready (Ok _) => bw_buf r.2 = [] ∧ accepted (bw_inner r.2) bs
  end.

Lemma flush_buf_mono this : fuel_mono (λ n, flush_buf_round n this).
Proof. unfold flush_buf_round. cbv zeta. solve_fuel_mono. Qed.
Hint Resolve flush_buf_mono : async.

Lemma drain_written_run ret this :
  bw_written this ≤ length (bw_buf this) →
  drain_written ret this =
    Done ((Ready ret, mkBufWriter (bw_inner this) (drop (bw_written this) (bw_buf this)) (bw_cap this) 0), []).
Proof. intros Hle. unfold drain_written. by rewrite (proj2 (Nat.leb_le _ _) Hle). Qed.

Lemma drained_holds inner this bs pre :
  bw_holds this bs → accepted inner pre → bs = pre ++ drop (bw_written this) (bw_buf this) →
  bw_holds (mkBufWriter inner (drop (bw_written this) (bw_buf this)) (bw_cap this) 0) bs.
Proof.
  intros [Hr _] Ha Hb. split; simpl; [rewrite length_drop; lia|]. exists pre. by rewrite drop_0.
Qed.

(** A round, and what it makes smaller. *)
Definition unwritten this : nat := length (bw_buf this) - bw_written this.

Lemma flush_buf_round_spec n this bs x w :
  bw_holds this bs → flush_buf_round n this = Done (x, w) →
  match x with
  | inl this' => bw_holds this' bs ∧ bw_cap this' = bw_cap this ∧ unwritten this' < unwritten this
  | inr r => flushed_buf (bw_cap this) bs r w
  end.
Proof.
  intros Hh Hp. pose proof Hh as [Hr (pre & Ha & Hbs)]. unfold flush_buf_round in Hp.
  destruct (Nat.ltb_spec (bw_written this) (length (bw_buf this))) as [Hlt|Hge].
  - apply eff_bind_done in Hp as ([r inner] & w1 & w2 & Hw & Hp & ->).
    pose proof (write_spec _ _ _ _ _ _ _ Ha Hw) as Hs. destruct r as [[[|k]|e]|].
    + destruct Hs as [_ Ha']. rewrite take_0, app_nil_r in Ha'.
      rewrite drain_written_run, eff_bind_Done in Hp by (simpl; lia). apply eff_ret_done in Hp as [<- ->].
      split; [by eapply (drained_holds inner this)|done].
    + apply eff_ret_done in Hp as [<- ->]. destruct Hs as [Hk Ha']. rewrite length_drop in Hk.
      split; [split|split; [done|unfold unwritten; simpl; lia]]; simpl; [lia|].
      eexists. split; [exact Ha'|]. by rewrite Hbs, <- app_assoc, <- drop_drop, take_drop.
    + destruct Hs as [Hk Ha']. case_bool_decide as Hi; [done|].
      rewrite drain_written_run, eff_bind_Done in Hp by (simpl; lia). apply eff_ret_done in Hp as [<- ->].
      split; [by eapply (drained_holds inner this)|done].
    + apply eff_ret_done in Hp as [<- ->]. destruct Hs as [Hw' Ha']. split; [|split; [done|by rewrite app_nil_r]].
      split; simpl; [done|]. by exists pre.
  - rewrite drain_written_run, eff_bind_Done in Hp by lia. apply eff_ret_done in Hp as [<- ->].
    split; [by eapply (drained_holds (bw_inner this) this)|]. split; [done|]. simpl.
    rewrite drop_ge in * by lia. split; [done|]. by rewrite Hbs, app_nil_r.
Qed.

Lemma flush_buf_round_returns this bs : bw_holds this bs → ∃ n x, flush_buf_round n this = Done x.
Proof.
  intros [Hr (pre & Ha & Hbs)]. unfold flush_buf_round.
  destruct (Nat.ltb_spec (bw_written this) (length (bw_buf this))) as [Hlt|Hge].
  - destruct (write_returns _ _ (drop (bw_written this) (bw_buf this)) Ha) as (n & [[r inner] w] & Hw).
    exists n. rewrite Hw. destruct r as [[[|k]|e]|]; try by eexists.
    + simpl. rewrite drain_written_run by (simpl; lia). by eexists.
    + simpl. case_bool_decide; [by eexists|]. rewrite drain_written_run by (simpl; lia). by eexists.
  - exists 0. rewrite drain_written_run by lia. by eexists.
Qed.

Lemma poll_flush_buf_spec n this bs r w :
  bw_holds this bs → poll_flush_buf n this = Done (r, w) → flushed_buf (bw_cap this) bs r w.
Proof.
  intros Hh. unfold poll_flush_buf.
  apply (loop_poll_inv flush_buf_round (λ t, bw_holds t bs ∧ bw_cap t = bw_cap this)); [..|done].
  - intros m t t' w' [Ht Hc] He. destruct (flush_buf_round_spec _ _ _ _ _ Ht He) as (Ht' & Hc' & _).
    split; [done|congruence].
  - intros m t r' w' [Ht Hc] He. rewrite <- Hc. exact (flush_buf_round_spec _ _ _ _ _ Ht He).
  - intros [p t] w1 w2 (Ht & Hc & Hm). split; [done|]. split; [done|].
    destruct p as [[]|]; [done|done|]. by apply events_nonempty_r.
Qed.

Lemma poll_flush_buf_returns this bs : bw_holds this bs → ∃ n x, poll_flush_buf n this = Done x.
Proof.
  apply (loop_poll_total flush_buf_round flush_buf_mono (λ t, bw_holds t bs) unwritten).
  intros t Ht. destruct (flush_buf_round_returns t bs Ht) as (n & [x w] & He). exists n, x, w.
  split; [done|]. intros t' ->. destruct (flush_buf_round_spec _ _ _ _ _ Ht He) as (? & _ & ?). done.
Qed.

Lemma poll_flush_buf_mono this : fuel_mono (λ n, poll_flush_buf n this).
Proof. unfold poll_flush_buf. apply loop_poll_mono, flush_buf_mono. Qed.
Hint Resolve poll_flush_buf_mono : async.

(** ** [poll_write] *)

Lemma bw_set_inner_holds inner this bs pre :
  bw_holds this bs → accepted inner pre → bs = pre ++ drop (bw_written this) (bw_buf this) →
  bw_holds (bw_set_inner inner this) bs.
Proof. intros [Hr _] Ha Hb. split; simpl; [done|]. by exists pre. Qed.

(** The part after the buffer has been flushed, if it had to be. *)
Lemma bw_write_spec n this bs buf p this' w :
  bw_holds this bs → bw_buf this = [] ∨ length (bw_buf this) + length buf ≤ bw_cap this →
  (if bw_cap this <=? length buf then
     '(r, inner) ← poll_write n buf (bw_inner this); mret (r, bw_set_inner inner this)
   else mret (Ready (Ok (length buf)),
     mkBufWriter (bw_inner this) (bw_buf this ++ buf) (bw_cap this) (bw_written this))) = Done ((p, this'), w) →
  match p with
  | Pending => w ≠ [] ∧ bw_holds this' bs
  | Ready (Err e) => kind e ≠ Interrupted ∧ bw_holds this' bs
  | Ready (Ok k) => k ≤ length buf ∧ bw_holds this' (bs ++ take k buf)
  end.
Proof.
  intros Hh Hfit Hp. pose proof Hh as [Hr (pre & Ha & Hbs)].
  destruct (Nat.leb_spec (bw_cap this) (length buf)) as [Hle|Hlt].
  - assert (bw_buf this = []) as He by (destruct Hfit; [done|apply nil_length_inv; lia]).
    rewrite He, drop_nil, app_nil_r in Hbs. subst pre.
    apply eff_bind_done in Hp as ([r inner] & w1 & w2 & Hw & Hp & ->).
    apply eff_ret_done in Hp as [[= <- <-] ->]. rewrite app_nil_r.
    pose proof (write_spec _ _ _ _ _ _ _ Ha Hw) as Hs.
    assert (∀ pre, accepted inner pre → bw_holds (bw_set_inner inner this) pre) as Hkeep.
    { intros pre Hpre. split; simpl; [done|]. exists pre. by rewrite He, drop_nil, app_nil_r. }
    destruct r as [[k|e]|]; destruct Hs as [? Hs]; eauto.
  - apply eff_ret_done in Hp as [[= <- <-] ->]. split; [done|]. rewrite firstn_all. split; simpl.
    + rewrite length_app. destruct Hfit as [He|]; [rewrite He in *; simpl in *; lia|lia].
    + exists pre. split; [done|]. rewrite drop_app_le by lia. by rewrite Hbs, app_assoc.
Qed.

Lemma bw_poll_write_spec n buf this bs p this' w :
  bw_holds this bs → BufWriter_poll_write n buf this = Done ((p, this'), w) →
  match p with
  | Pending => w ≠ [] ∧ bw_holds this' bs
  | Ready (Err e) => kind e ≠ Interrupted ∧ bw_holds this' bs
  | Ready (Ok k) => k ≤ length buf ∧ bw_holds this' (bs ++ take k buf)
  end.
Proof.
  intros Hh Hp. unfold BufWriter_poll_write in Hp. cbv zeta in Hp.
  destruct (Nat.ltb_spec (bw_cap this) (length (bw_buf this) + length buf)) as [Hlt|Hge].
  - unfold after_flush_buf in Hp. apply eff_bind_done in Hp as ([r this1] & w1 & w2 & Hf & Hp & ->).
    destruct (poll_flush_buf_spec _ _ _ _ _ Hh Hf) as (Hh1 & Hc1 & Hs). simpl in *.
    destruct r as [[u|e]|]; [|apply eff_ret_done in Hp as [[= <- <-] ->]; done|].
    + destruct Hs as [He _]. apply (bw_write_spec n this1 bs buf) in Hp; [|done|by left].
      destruct p as [[]|]; [done|done|]. destruct Hp. split; [by apply events_nonempty_r|done].
    + apply eff_ret_done in Hp as [[= <- <-] ->]. split; [by rewrite app_nil_r|done].
  - by apply (bw_write_spec n this bs buf); [|right|].
Qed.

Lemma bw_poll_flush_spec n this bs p this' w :
  bw_holds this bs → BufWriter_poll_flush n this = Done ((p, this'), w) →
  bw_holds this' bs ∧ (p = Pending → w ≠ []) ∧
  (p = Ready (Ok ()) → bw_holds this' bs ∧ settled (bw_inner this') bs).
Proof.
  intros Hh Hp. unfold BufWriter_poll_flush, after_flush_buf in Hp.
  apply eff_bind_done in Hp as ([r this1] & w1 & w2 & Hf & Hp & ->).
  destruct (poll_flush_buf_spec _ _ _ _ _ Hh Hf) as (Hh1 & Hc1 & Hs). simpl in *. destruct r as [[u|e]|].
  - destruct Hs as [He Ha]. apply eff_bind_done in Hp as ([r inner] & w3 & w4 & Hfl & Hp & ->).
    apply eff_ret_done in Hp as [[= <- <-] ->]. destruct (flush_spec _ _ _ _ _ _ Ha Hfl) as (Ha' & Hw & Hst).
    assert (bw_holds (bw_set_inner inner this1) bs) as Hh'.
    { eapply bw_set_inner_holds; [exact Hh1|exact Ha'|]. by rewrite He, drop_nil, app_nil_r. }
    split_and!; [done|intros Hr; apply events_nonempty_r, events_nonempty_l; auto|]. intros Hr.
    split; [done|by apply Hst].
  - by apply eff_ret_done in Hp as [[= <- <-] ->].
  - apply eff_ret_done in Hp as [[= <- <-] ->]. split_and!; [done| |done]. intros _. by rewrite app_nil_r.
Qed.

(** Whatever comes after the flush returns if it does without one. *)
Lemma after_flush_buf_returns {A} this bs (f : nat → BufWriter W → Eff (Poll (Result A Error) * BufWriter W)) :
  bw_holds this bs → (∀ t, fuel_mono (λ n, f n t)) →
  (∀ t, bw_holds t bs → ∃ n x, f n t = Done x) →
  ∃ n x, after_flush_buf n this (f n) = Done x.
Proof.
  intros Hh Hm Hf. destruct (poll_flush_buf_returns this bs Hh) as (n & [[r t] w] & Hfl).
  destruct (poll_flush_buf_spec _ _ _ _ _ Hh Hfl) as (Hh1 & _). destruct (Hf t Hh1) as (m & [x w'] & Hx).
  exists (n `max` m). unfold after_flush_buf.
  rewrite (poll_flush_buf_mono this n (n `max` m) _ ltac:(lia) Hfl). destruct r as [[u|e]|]; simpl; try by eexists.
  rewrite (Hm t m (n `max` m) _ ltac:(lia) Hx). by eexists.
Qed.

#[global] Program Instance BufWriter_WriterLaws : WriterLaws (BufWriter W) := {|
  accepted := bw_holds;
  settled this bs := bw_holds this bs ∧ settled (bw_inner this) bs;
  flush_spec := bw_poll_flush_spec;
  write_spec := bw_poll_write_spec
|}.
Next Obligation. by intros this bs [? _]. Qed.
Next Obligation.
  intros buf this. change (fuel_mono (λ n, BufWriter_poll_write n buf this)).
  unfold BufWriter_poll_write, after_flush_buf. cbv zeta. solve_fuel_mono.
Qed.
Next Obligation.
  intros this. change (fuel_mono (λ n, BufWriter_poll_flush n this)).
  unfold BufWriter_poll_flush, after_flush_buf. solve_fuel_mono.
Qed.
Next Obligation.
  intros this bs buf Hh. change (∃ n x, BufWriter_poll_write n buf this = Done x).
  assert (∀ t, bw_holds t bs → ∃ n x, (if bw_cap t <=? length buf then
     '(r, inner) ← poll_write n buf (bw_inner t); mret (r, bw_set_inner inner t)
   else mret (Ready (Ok (length buf)),
     mkBufWriter (bw_inner t) (bw_buf t ++ buf) (bw_cap t) (bw_written t))) = Done x) as Hw.
  { intros t [_ (pre & Ha & _)]. destruct (write_returns _ _ buf Ha) as (n & [[r inner] w] & Hw). exists n.
    destruct (_ <=? _); [|by eexists]. rewrite Hw. by eexists. }
  unfold BufWriter_poll_write. cbv zeta. destruct (_ <? _); [|by apply Hw].
  apply (after_flush_buf_returns this bs (λ n t, if bw_cap t <=? length buf then _ else _)); [done| |done].
  intros t. destruct (_ <=? _); solve_fuel_mono.
Qed.
Next Obligation.
  intros this bs Hh. change (∃ n x, BufWriter_poll_flush n this = Done x). unfold BufWriter_poll_flush.
  apply (after_flush_buf_returns this bs (λ n t, '(r, inner) ← poll_flush n (bw_inner t); _)); [done| |].
  - intros t. solve_fuel_mono.
  - intros t [_ (pre & Ha & _)]. destruct (flush_returns _ _ Ha) as (n & [[r inner] w] & Hw). exists n.
    rewrite Hw. by eexists.
Qed.
End BufWriter.
