(* ===== verification/IoFutures.v ===== *)
(** What the futures that read and write do, over any reader and writer that keep
    the laws of Io.v. *)

From stdpp Require Import strings.
From Stdlib Require Import Strings.Byte.
From S2P Require Import Prelude Async Io IoBuf IoRead IoLines IoWrite IoLaws.
Local Open Scope async_scope.

(** * [copy] *)

Section Copy.
Context {R W : Type} `{BufReaderLaws R} `{WriterLaws W}.
Implicit Types (this : CopyFuture R W) (bs ws : bytes).

(** Part of [bs] has been copied, onto a writer that had accepted [ws]. *)
Definition copying ws bs this : Prop :=
  ∃ copied rest, bs = copied ++ rest ∧ to_come (copy_reader this) rest ∧
    accepted (copy_writer this) (ws ++ copied) ∧ copy_amt this = N.of_nat (length copied).

Definition copied_to ws bs (r : Poll (Result N Error) * CopyFuture R W) (w : list CxEvent) : Prop :=
  copying ws bs r.2 ∧
  match r.1 with
  | Pending => w ≠ []
  | Ready (Ok n) => n = N.of_nat (length bs) ∧ settled (copy_writer r.2) (ws ++ bs)
  | Ready (Err _) => True
  end.

Lemma copy_mono this : fuel_mono (λ n, copy_round n this).
Proof. unfold copy_round. solve_fuel_mono. Qed.
Hint Resolve copy_mono : async.

Definition uncopied bs this : nat := length bs - N.to_nat (copy_amt this).

(** What a writer that took [S k] bytes of the buffer leaves. *)
Lemma copying_next ws copied rest reader writer buffer k :
  (N.of_nat (length (copied ++ rest)) < usize_modulus)%N →
  buffered reader rest buffer → k ≤ length buffer →
  accepted writer ((ws ++ copied) ++ take k buffer) →
  ∃ amt reader', usize_add (Ev:=CxEvent) (N.of_nat (length copied)) (N.of_nat k) = Done (amt, []) ∧
    consume k reader = Done (reader', []) ∧ amt = (N.of_nat (length copied) + N.of_nat k)%N ∧
    k ≤ length rest ∧ copying ws (copied ++ rest) (mkCopyFuture reader' writer amt).
Proof.
  intros Hlt Hb Hk Ha. destruct (buffered_prefix _ _ _ Hb) as [_ [tl ->]].
  destruct (consume_spec _ _ _ _ Hb Hk) as (reader' & Hc & Hto). rewrite !length_app in Hlt.
  exists (N.of_nat (length copied) + N.of_nat k)%N, reader'. rewrite usize_add_ok by lia.
  rewrite length_app. split_and!; [done|done|done|lia|].
  exists (copied ++ take k buffer), (drop k (buffer ++ tl)). simpl. split_and!; [|done|by rewrite app_assoc|].
  - rewrite <- app_assoc. f_equal. by rewrite drop_app_le, app_assoc, take_drop by lia.
  - rewrite length_app, length_take. lia.
Qed.

Lemma copy_round_spec ws bs n this x w :
  (N.of_nat (length bs) < usize_modulus)%N → copying ws bs this → copy_round n this = Done (x, w) →
  match x with
  | inl this' => copying ws bs this' ∧ uncopied bs this' < uncopied bs this
  | inr r => copied_to ws bs r w
  end.
Proof.
  intros Hlt (copied & rest & -> & Hto & Ha & Hamt) Hp. unfold copy_round in Hp.
  apply eff_bind_done in Hp as ([r reader] & w1 & w2 & Hf & Hp & ->).
  pose proof (fill_spec _ _ _ _ _ _ Hto Hf) as Hs.
  assert (∀ reader writer, to_come reader rest → accepted writer (ws ++ copied) →
    copying ws (copied ++ rest) (mkCopyFuture reader writer (copy_amt this))) as Hsame.
  { intros reader' writer' Hr' Hw'. by exists copied, rest. }
  destruct r as [[b|e]|].
  - destruct Hs as [Hb Hend]. destruct (buffered_prefix _ _ _ Hb) as [Hto' _]. destruct b as [|x0 b].
    + rewrite Hend, app_nil_r in * by done.
      apply eff_bind_done in Hp as ([r writer] & w3 & w4 & Hfl & Hp & ->).
      destruct (flush_spec _ _ _ _ _ _ Ha Hfl) as (Ha' & Hw & Hst).
      destruct r as [[u|e]|]; apply eff_ret_done in Hp as [<- ->]; (split; [by apply Hsame|]); simpl; [|done|].
      * destruct u. rewrite Hamt. split; [done|by apply Hst].
      * apply events_nonempty_r, events_nonempty_l. by apply Hw.
    + apply eff_bind_done in Hp as ([r writer] & w3 & w4 & Hw & Hp & ->).
      pose proof (write_spec _ _ _ _ _ _ _ Ha Hw) as Hs. destruct r as [[[|k]|e]|].
      * destruct Hs as [_ Ha']. rewrite take_0, app_nil_r in Ha'. apply eff_ret_done in Hp as [<- ->].
        split; [by apply Hsame|done].
      * destruct Hs as [Hk Ha'].
        destruct (copying_next ws copied rest reader writer _ _ Hlt Hb Hk Ha') as (amt & reader' & He1 & He2 & Hamt' & Hle & Hc).
        simpl copy_amt in Hp. rewrite Hamt, He1, eff_bind_Done, He2, eff_bind_Done in Hp.
        apply eff_ret_done in Hp as [<- ->]. split; [done|]. unfold uncopied. simpl. rewrite length_app. lia.
      * apply eff_ret_done in Hp as [<- ->]. destruct Hs as [_ Ha']. split; [by apply Hsame|done].
      * apply eff_ret_done in Hp as [<- ->]. destruct Hs as [Hw' Ha']. split; [by apply Hsame|].
        simpl. by apply events_nonempty_r, events_nonempty_l.
  - apply eff_ret_done in Hp as [<- ->]. destruct Hs as [_ Hr']. split; [by apply Hsame|done].
  - apply eff_ret_done in Hp as [<- ->]. destruct Hs as [Hw' Hr']. split; [by apply Hsame|].
    simpl. by apply events_nonempty_l.
Qed.

Lemma copy_round_returns ws bs this :
  (N.of_nat (length bs) < usize_modulus)%N → copying ws bs this → ∃ n x, copy_round n this = Done x.
Proof.
  intros Hlt (copied & rest & -> & Hto & Ha & Hamt). unfold copy_round.
  destruct (fill_returns _ _ Hto) as (n & [[r reader] w] & Hf).
  pose proof (fill_spec _ _ _ _ _ _ Hto Hf) as Hs.
  destruct r as [[b|e]|]; [|exists n; rewrite Hf; by eexists..]. destruct Hs as [Hb Hend]. destruct b as [|x0 b].
  - destruct (flush_returns _ _ Ha) as (m & [[r writer] w'] & Hfl). exists (n `max` m).
    rewrite (fill_mono (copy_reader this) n (n `max` m) _ ltac:(lia) Hf). simpl.
    rewrite (flush_mono (copy_writer this) m (n `max` m) _ ltac:(lia) Hfl). destruct r as [[]|]; by eexists.
  - destruct (write_returns _ _ (x0 :: b) Ha) as (m & [[r writer] w'] & Hw). exists (n `max` m).
    rewrite (fill_mono (copy_reader this) n (n `max` m) _ ltac:(lia) Hf). simpl.
    rewrite (write_mono (x0 :: b) (copy_writer this) m (n `max` m) _ ltac:(lia) Hw). simpl.
    pose proof (write_spec _ _ _ _ _ _ _ Ha Hw) as Hs. destruct r as [[[|k]|e]|]; try by eexists.
    destruct Hs as [Hk Ha'].
    destruct (copying_next ws copied rest reader writer _ _ Hlt Hb Hk Ha') as (amt & reader' & He1 & He2 & _).
    rewrite Hamt, He1, eff_bind_Done, He2. by eexists.
Qed.

Lemma copy_poll_meets ws bs this :
  (N.of_nat (length bs) < usize_modulus)%N → copying ws bs this →
  (∀ n r w, CopyFuture_poll n this = Done (r, w) → copied_to ws bs r w) ∧ ∃ n x, CopyFuture_poll n this = Done x.
Proof.
  intros Hlt. apply (loop_poll_meets copy_round copy_mono (copying ws bs) (uncopied bs)).
  - intros n t x w Ht He. exact (copy_round_spec _ _ _ _ _ _ Hlt Ht He).
  - intros t. by apply copy_round_returns.
  - intros [p t] w1 w2 [Hc Hm]. split; [done|]. destruct p as [[]|]; simpl in *; auto with async.
Qed.
End Copy.

(** * [write_all] *)

Section WriteAll.
Context {W : Type} `{WriterLaws W}.
Implicit Types (this : WriteAllFuture W) (bs ws : bytes).

(** Of [bs], what is no longer in the future's buffer has been written. *)
Definition writing ws bs this : Prop :=
  ∃ written, bs = written ++ wa_buf this ∧ accepted (wa_writer this) (ws ++ written).

Definition written_all ws bs (r : Poll (Result () Error) * WriteAllFuture W) (w : list CxEvent) : Prop :=
  writing ws bs r.2 ∧
  match r.1 with
  | Pending => w ≠ []
  | Ready (Ok _) => accepted (wa_writer r.2) (ws ++ bs)
  | Ready (Err e) => kind e ≠ Interrupted
  end.

Lemma WriteAll_mono this : fuel_mono (λ n, WriteAll_round n this).
Proof. unfold WriteAll_round. solve_fuel_mono. Qed.
Hint Resolve WriteAll_mono : async.

Lemma WriteAll_round_spec ws bs n this x w :
  writing ws bs this → WriteAll_round n this = Done (x, w) →
  match x with
  | inl this' => writing ws bs this' ∧ length (wa_buf this') < length (wa_buf this)
  | inr r => written_all ws bs r w
  end.
Proof.
  intros (written & -> & Ha) Hp. unfold WriteAll_round in Hp. case_bool_decide as Hb.
  - apply eff_ret_done in Hp as [<- ->]. split; [by exists written|]. simpl. by rewrite Hb, app_nil_r.
  - apply eff_bind_done in Hp as ([r writer] & w1 & w2 & Hw & Hp & ->).
    pose proof (write_spec _ _ _ _ _ _ _ Ha Hw) as Hs. destruct r as [[k|e]|].
    + destruct Hs as [Hk Ha']. destruct (Nat.leb_spec k (length (wa_buf this))); [|lia].
      assert (writing ws (written ++ wa_buf this) (mkWriteAllFuture writer (drop k (wa_buf this)))) as Hi.
      { exists (written ++ take k (wa_buf this)). simpl. by rewrite <- !app_assoc, take_drop, !app_assoc in *. }
      destruct (Nat.eqb_spec k 0) as [->|Hk0]; apply eff_ret_done in Hp as [<- ->]; (split; [done|]); [done|].
      simpl. rewrite length_drop. destruct (wa_buf this); [done|simpl; lia].
    + apply eff_ret_done in Hp as [<- ->]. destruct Hs. split; [by exists written|done].
    + apply eff_ret_done in Hp as [<- ->]. destruct Hs. split; [by exists written|]. simpl. auto with async.
Qed.

Lemma WriteAll_round_returns ws bs this : writing ws bs this → ∃ n x, WriteAll_round n this = Done x.
Proof.
  intros (written & -> & Ha). unfold WriteAll_round. case_bool_decide as Hb; [by exists 0; eexists|].
  destruct (write_returns _ _ (wa_buf this) Ha) as (n & [[r writer] w] & Hw). exists n. rewrite Hw. simpl.
  pose proof (write_spec _ _ _ _ _ _ _ Ha Hw) as Hs. destruct r as [[k|e]|]; try by eexists.
  destruct (Nat.leb_spec k (length (wa_buf this))); [|lia]. destruct (k =? 0); by eexists.
Qed.

Lemma WriteAll_poll_meets ws bs this :
  writing ws bs this →
  (∀ n r w, WriteAllFuture_poll n this = Done (r, w) → written_all ws bs r w) ∧
  ∃ n x, WriteAllFuture_poll n this = Done x.
Proof.
  apply (loop_poll_meets WriteAll_round WriteAll_mono (writing ws bs) (λ t, length (wa_buf t))).
  - intros *. apply WriteAll_round_spec.
  - apply WriteAll_round_returns.
  - intros [p t] w1 w2 [Hc Hm]. split; [done|]. destruct p as [[]|]; simpl in *; auto with async.
Qed.
End WriteAll.

(** * [read_exact] *)

Section ReadExact.
Context {R : Type} `{ReaderLaws R}.
Implicit Types (this : ReadExactFuture R) (bs : bytes).

(** The reader may answer [e]. *)
Definition read_fails (e : Error) : Prop :=
  ∃ n len (r r' : R) w, poll_read n len r = Done ((Ready (Err e), r'), w).

(** Of the [len] bytes wanted, the first ones of [bs] have been read. *)
Definition filling len bs this : Prop :=
  ∃ rest, bs = re_filled this ++ rest ∧ contents (re_reader this) rest ∧
    length (re_filled this) + re_buf this = len.

Definition filled_exactly len bs (r : Poll (Result () Error) * ReadExactFuture R) (w : list CxEvent) : Prop :=
  filling len bs r.2 ∧
  match r.1 with
  | Pending => w ≠ []
  | Ready (Ok _) => re_filled r.2 = take len bs ∧ len ≤ length bs ∧ contents (re_reader r.2) (drop len bs)
  | Ready (Err e) => e = error_of UnexpectedEof ∧ re_filled r.2 = bs ∧ length bs < len ∨ read_fails e
  end.

Lemma ReadExact_mono this : fuel_mono (λ n, ReadExact_round n this).
Proof. unfold ReadExact_round. solve_fuel_mono. Qed.
Hint Resolve ReadExact_mono : async.

Lemma ReadExact_round_spec len bs n this x w :
  filling len bs this → ReadExact_round n this = Done (x, w) →
  match x with
  | inl this' => filling len bs this' ∧ re_buf this' < re_buf this
  | inr r => filled_exactly len bs r w
  end.
Proof.
  intros (rest & -> & Hc & Hlen) Hp. unfold ReadExact_round in Hp. destruct (Nat.eqb_spec (re_buf this) 0) as [Hz|Hz].
  - apply eff_ret_done in Hp as [<- ->]. rewrite Hz, Nat.add_0_r in Hlen. subst len.
    split; [exists rest; split_and!; [done..|simpl; lia]|]. simpl.
    rewrite take_app_length, drop_app_length, length_app. split_and!; [done|lia|done].
  - apply eff_bind_done in Hp as ([r reader] & w1 & w2 & Hr & Hp & ->).
    pose proof (read_spec _ _ _ _ _ _ _ Hc Hr) as Hs. destruct r as [[b|e]|].
    + destruct Hs as (rest' & -> & Hle & Hend & Hc'). destruct (Nat.leb_spec (length b) (re_buf this)); [|lia].
      assert (filling len (re_filled this ++ b ++ rest')
        (mkReadExactFuture reader (re_filled this ++ b) (re_buf this - length b))) as Hi.
      { exists rest'. simpl. rewrite app_assoc, length_app. split_and!; [done..|lia]. }
      destruct b as [|x0 b]; apply eff_ret_done in Hp as [<- ->]; (split; [done|]); [|simpl in *; lia].
      simpl in *. left. destruct (Hend eq_refl) as [?| ->]; [lia|]. rewrite app_nil_r. split_and!; [done..|lia].
    + apply eff_ret_done in Hp as [<- ->]. destruct Hs. split; [by exists rest|right]. by do 5 eexists.
    + apply eff_ret_done in Hp as [<- ->]. destruct Hs. split; [by exists rest|]. simpl. auto with async.
Qed.

Lemma ReadExact_round_returns len bs this : filling len bs this → ∃ n x, ReadExact_round n this = Done x.
Proof.
  intros (rest & -> & Hc & Hlen). unfold ReadExact_round.
  destruct (re_buf this =? 0); [by exists 0; eexists|].
  destruct (read_returns _ _ (re_buf this) Hc) as (n & [[r reader] w] & Hr). exists n. rewrite Hr. simpl.
  pose proof (read_spec _ _ _ _ _ _ _ Hc Hr) as Hs. destruct r as [[b|e]|]; try by eexists.
  destruct Hs as (rest' & _ & Hle & _). destruct (Nat.leb_spec (length b) (re_buf this)); [|lia].
  destruct (length b =? 0); by eexists.
Qed.

Lemma ReadExact_poll_meets len bs this :
  filling len bs this →
  (∀ n r w, ReadExactFuture_poll n this = Done (r, w) → filled_exactly len bs r w) ∧
  ∃ n x, ReadExactFuture_poll n this = Done x.
Proof.
  apply (loop_poll_meets ReadExact_round ReadExact_mono (filling len bs) re_buf).
  - intros *. apply ReadExact_round_spec.
  - apply ReadExact_round_returns.
  - intros [p t] w1 w2 [Hc Hm]. split; [done|]. destruct p as [[]|]; simpl in *; auto with async.
Qed.
End ReadExact.

(** * [read_to_end], [read_to_string] *)

Section ReadToEnd.
Context {R : Type} `{ReaderLaws R} `{ReserveLaws}.
Implicit Types (bs old : bytes) (rd : R).

(** The vector holds [old] and the part of [bs] read so far. *)
Definition gathering old bs rd (buf : VecBuf) : Prop :=
  ∃ got rest, bs = got ++ rest ∧ contents rd rest ∧ vec_bytes buf = old ++ got.

Definition gathered old bs (p : Poll (Result nat Error)) rd (buf : VecBuf) (w : list CxEvent) : Prop :=
  gathering old bs rd buf ∧
  match p with
  | Pending => w ≠ []
  | Ready (Ok n) => n = length bs ∧ vec_bytes buf = old ++ bs ∧ contents rd []
  | Ready (Err e) => kind e ≠ Interrupted
  end.

Lemma read_to_end_mono start_len (st : R * VecBuf * nat) : fuel_mono (λ n, read_to_end_round start_len n st).
Proof. destruct st as [[rd buf] room]. unfold read_to_end_round. solve_fuel_mono. Qed.
Hint Resolve read_to_end_mono : async.

(** A round makes room first. *)
Lemma read_to_end_room start_len rd buf room :
  ∃ buf' room', vec_bytes buf' = vec_bytes buf ∧ 0 < room' ∧
    (∀ n, read_to_end_round start_len n (rd, buf, room) = read_to_end_round start_len n (rd, buf', room')).
Proof.
  destruct (Nat.eqb_spec room 0) as [->|Hz]; [|by exists buf, room; split_and!; [|lia|]].
  destruct (reserve_spec 32 buf) as [Hr _].
  exists (mkVecBuf (vec_bytes buf) (reserve 32 buf)), (reserve 32 buf - length (vec_bytes buf)).
  split_and!; [done|lia|]. intros m. unfold read_to_end_round. simpl.
  by destruct (Nat.eqb_spec (reserve 32 buf - length (vec_bytes buf)) 0); [lia|].
Qed.

Lemma read_to_end_round_meets old bs n rd buf room x w :
  gathering old bs rd buf → read_to_end_round (length old) n (rd, buf, room) = Done (x, w) →
  match x with
  | inl (rd', buf', _) => gathering old bs rd' buf' ∧ length (vec_bytes buf) < length (vec_bytes buf') ∧
      length (vec_bytes buf') ≤ length old + length bs
  | inr (p, rd', buf') => gathered old bs p rd' buf' w
  end.
Proof.
  intros (got & rest & -> & Hc & Hv) Hp.
  destruct (read_to_end_room (length old) rd buf room) as (buf1 & room1 & Hv1 & Hpos & Heq). rewrite Heq in Hp.
  rewrite Hv in Hv1. clear Heq room. rewrite Hv. clear Hv buf. unfold read_to_end_round in Hp.
  destruct (Nat.eqb_spec room1 0); [lia|]. apply eff_bind_done in Hp as ([r reader] & w1 & w2 & Hr & Hp & ->).
  pose proof (read_spec _ _ _ _ _ _ _ Hc Hr) as Hs.
  destruct r as [[[|x0 b]|e]|].
  - destruct Hs as (rest' & -> & _ & Hend & Hc'). destruct (Hend eq_refl) as [?|Hz]; [lia|].
    simpl in Hz. subst rest'. rewrite usize_sub_ok in Hp by (rewrite Hv1, length_app; lia).
    rewrite eff_bind_Done in Hp. apply eff_ret_done in Hp as [<- ->].
    split; [by exists got, []|]. rewrite !app_nil_r, Hv1, length_app. split_and!; [lia|done..].
  - destruct Hs as (rest' & -> & _ & _ & Hc'). apply eff_ret_done in Hp as [<- ->]. split_and!.
    + exists (got ++ x0 :: b), rest'. simpl. by rewrite Hv1, <- !app_assoc.
    + cbn [vec_bytes]. rewrite Hv1, !length_app. simpl. lia.
    + cbn [vec_bytes]. rewrite Hv1, !length_app. simpl. lia.
  - apply eff_ret_done in Hp as [<- ->]. destruct Hs. split; [by exists got, rest|done].
  - apply eff_ret_done in Hp as [<- ->]. destruct Hs. split; [by exists got, rest|]. auto with async.
Qed.

Lemma read_to_end_round_returns old bs rd buf room :
  gathering old bs rd buf → ∃ n x, read_to_end_round (length old) n (rd, buf, room) = Done x.
Proof.
  intros (got & rest & -> & Hc & Hv).
  destruct (read_to_end_room (length old) rd buf room) as (buf1 & room1 & Hv1 & Hpos & Heq).
  rewrite Hv in Hv1. destruct (read_returns _ _ room1 Hc) as (n & [[r reader] w] & Hr).
  exists n. rewrite Heq. unfold read_to_end_round. destruct (Nat.eqb_spec room1 0); [lia|]. rewrite Hr. simpl.
  destruct r as [[[|x0 b]|e]|]; try by eexists.
  rewrite usize_sub_ok by (rewrite Hv1, length_app; lia). by eexists.
Qed.

Lemma read_to_end_meets old bs rd buf :
  gathering old bs rd buf →
  (∀ n p rd' buf' w, read_to_end_internal n rd buf (length old) = Done ((p, rd', buf'), w) →
     gathered old bs p rd' buf' w) ∧
  ∃ n x, read_to_end_internal n rd buf (length old) = Done x.
Proof.
  intros Hg.
  pose proof (loop_poll_meets (read_to_end_round (length old)) (read_to_end_mono (length old))
    (λ '(rd, buf, _), gathering old bs rd buf)
    (λ '(_, buf, _), length old + length bs - length (vec_bytes buf))
    (λ '(p, rd', buf') w, gathered old bs p rd' buf' w)) as Hl.
  destruct (λ a b c, Hl a b c (rd, buf, 0) Hg) as [Hs Ht].
  - intros n [[rd1 buf1] room1] x w Hi He. pose proof (read_to_end_round_meets _ _ _ _ _ _ _ _ Hi He) as Hx.
    destruct x as [[[rd2 buf2] room2]|[[p rd2] buf2]]; [|done]. destruct Hx as (? & ? & ?). split; [done|lia].
  - intros [[rd1 buf1] room1] Hi. by eapply read_to_end_round_returns.
  - intros [[p rd1] buf1] w1 w2 [Hc Hm]. split; [done|]. destruct p as [[]|]; simpl in *; auto with async.
  - split; [|done]. intros n p rd' buf' w He. exact (Hs n (p, rd', buf') w He).
Qed.
End ReadToEnd.
