(* ===== verification/IoUntil.v ===== *)
(** Reading up to a delimiter, over any buffered reader that keeps the laws of
    Io.v: [read_until_internal], and the pieces that [Split] and [Lines] make of
    the bytes below them. *)

From stdpp Require Import strings.
From Stdlib Require Import Strings.Byte.
From S2P Require Import Prelude Async Io IoBuf IoRead IoLines IoLaws.
Local Open Scope async_scope.

(** * The bytes up to a delimiter *)

(** [bs] cut after every [d]. *)
Fixpoint chunks (d : byte) (bs : bytes) : list bytes :=
  match bs with
  | [] => []
  | b :: bs =>
      if decide (b = d) then [b] :: chunks d bs
      else match chunks d bs with
           | [] => [[b]]
           | c :: cs => (b :: c) :: cs
           end
  end.

Lemma chunks_concat d bs : concat (chunks d bs) = bs.
Proof.
  induction bs as [|b bs IH]; simpl; [done|]. destruct (decide (b = d)); simpl; [by rewrite IH|].
  destruct (chunks d bs); simpl in *; by rewrite <- IH.
Qed.

Lemma chunks_none d bs : bs ≠ [] → d ∉ bs → chunks d bs = [bs].
Proof.
  induction bs as [|b bs IH]; [done|]. intros _ Hn. apply not_elem_of_cons in Hn as [Hb Hn]. simpl.
  rewrite decide_False by done. destruct bs as [|b' bs]; [done|]. by rewrite IH.
Qed.

Lemma chunks_found d got bs : d ∉ got → chunks d (got ++ d :: bs) = (got ++ [d]) :: chunks d bs.
Proof.
  induction got as [|b got IH]; intros Hn; simpl; [by rewrite decide_True|].
  apply not_elem_of_cons in Hn as [Hb Hn]. rewrite decide_False by done. by rewrite IH.
Qed.

(** What one read takes: the first chunk. *)
Definition first_chunk d bs : bytes := default [] (head (chunks d bs)).

Lemma first_chunk_rest d bs c cs : chunks d bs = c :: cs → bs = c ++ concat cs ∧ chunks d (concat cs) = cs ∧ c ≠ [].
Proof.
  revert c cs. induction bs as [|b bs IH]; intros c cs Hc; [done|]. simpl in Hc. destruct (decide (b = d)).
  - simplify_eq. by rewrite chunks_concat.
  - pose proof (chunks_concat d bs) as Hbs. destruct (chunks d bs) as [|c' cs'] eqn:He;
      injection Hc as <- <-; simpl in *.
    + by rewrite <- Hbs.
    + destruct (IH _ _ eq_refl) as (_ & Hcs & _). by rewrite <- Hbs at 1.
Qed.

(** The last byte of the first chunk is the delimiter unless it is all there is. *)
Lemma first_chunk_shape d bs :
  bs ≠ [] → (∃ got rest, first_chunk d bs = got ++ [d] ∧ (d ∉ got) ∧ bs = got ++ d :: rest) ∨
    (first_chunk d bs = bs ∧ d ∉ bs).
Proof.
  intros Hne. destruct (decide (d ∈ bs)) as [Hin|Hn].
  - left. apply list_elem_of_split_l in Hin as (got & rest & -> & Hg).
    exists got, rest. unfold first_chunk. by rewrite chunks_found.
  - right. unfold first_chunk. by rewrite chunks_none.
Qed.

(** Readers that always have an answer, and never an error. *)
Definition prompt (R : Type) `{AsyncBufRead R} : Prop :=
  ∀ n (r r' : R) p w, poll_fill_buf n r = Done ((p, r'), w) → ∃ b, p = Ready (Ok b).
Definition prompt_reads (R : Type) `{AsyncRead R} : Prop :=
  ∀ n len (r r' : R) p w, poll_read n len r = Done ((p, r'), w) → ∃ b, p = Ready (Ok b).

Lemma BufReader_prompt `{AsyncRead R} : prompt_reads R → prompt (BufReader R).
Proof.
  intros Hr n this this' p w Hp. change (BufReader_poll_fill_buf n this = Done ((p, this'), w)) in Hp.
  unfold BufReader_poll_fill_buf in Hp. inv_eff; try by eexists.
  - destruct (Hr _ _ _ _ _ _ Heff) as [b Hb]. by simplify_eq.
  - destruct (Hr _ _ _ _ _ _ Heff) as [b Hb]. by simplify_eq.
Qed.

Lemma Cursor_prompt : prompt Cursor ∧ prompt_reads Cursor.
Proof.
  split.
  - intros n this this' p w Hp. change (Cursor_poll_fill_buf n this = Done ((p, this'), w)) in Hp.
    unfold Cursor_poll_fill_buf in Hp. inv_eff. by eexists.
  - intros n len this this' p w Hp. change (Cursor_poll_read n len this = Done ((p, this'), w)) in Hp.
    unfold Cursor_poll_read in Hp. inv_eff. by eexists.
Qed.

(** * [read_until_internal] *)

Section Until.
Context {R : Type} `{BufReaderLaws R} `{MemchrLaws}.
Implicit Types (reader : R) (bs old buf : bytes) (read : N) (d : byte).

(** Of the bytes [bs], which came after [old], some have been read, none of
    them [d]. *)
Definition until_at d old bs reader buf read : Prop :=
  ∃ got rest, bs = got ++ rest ∧ (d ∉ got) ∧ to_come reader rest ∧ buf = old ++ got ∧
    read = N.of_nat (length got).

Definition until_done d old bs (p : Poll (Result N Error)) reader buf read (w : list CxEvent) : Prop :=
  match p with
  | Pending => w ≠ [] ∧ until_at d old bs reader buf read
  | Ready (Ok n) => n = N.of_nat (length (first_chunk d bs)) ∧ buf = old ++ first_chunk d bs ∧ read = 0%N ∧
      to_come reader (drop (length (first_chunk d bs)) bs)
  | Ready (Err e) => kind e ≠ Interrupted ∧ until_at d old bs reader buf read
  end.

Lemma until_mono d (st : R * bytes * N) : fuel_mono (λ n, read_until_round d n st).
Proof. destruct st as [[reader buf] read]. unfold read_until_round. solve_fuel_mono. Qed.
Hint Resolve until_mono : async.

(** The round once the buffer has been filled, in terms of what was found. *)
Lemma until_taken d old got rest reader available buf read :
  (N.of_nat (length (got ++ rest)) < usize_modulus)%N → d ∉ got →
  buffered reader rest available → (available = [] → rest = []) →
  buf = old ++ got → read = N.of_nat (length got) →
  let '(done, used) := match memchr d available with Some i => (true, i + 1) | None => (false, length available) end in
  ∃ reader', consume used reader = Done (reader', []) ∧
    usize_add (Ev:=CxEvent) read (N.of_nat used) = Done (N.of_nat (length got + used), []) ∧
    to_come reader' (drop used rest) ∧
    (done || (used =? 0) = true → first_chunk d (got ++ rest) = got ++ take used available ∧
       length (take used available) = used ∧ drop (length got + used) (got ++ rest) = drop used rest) ∧
    (done || (used =? 0) = false → 0 < used ≤ length rest ∧
       until_at d old (got ++ rest) reader' (buf ++ take used available) (N.of_nat (length got + used))).
Proof.
  intros Hlt Hgot Hb Hend -> ->. destruct (buffered_prefix _ _ _ Hb) as [_ [tl ->]].
  rewrite !length_app in Hlt. pose proof (memchr_spec d available) as Hm. destruct (memchr d available) as [i|].
  - destruct Hm as [Hi Hn]. pose proof (lookup_lt_Some _ _ _ Hi) as Hil.
    destruct (consume_spec _ _ _ (i + 1) Hb ltac:(lia)) as (reader' & Hc & Hto). exists reader'.
    rewrite usize_add_ok by lia. split_and!; [done|do 2 f_equal; lia|done| |done]. intros _.
    split_and!; [|rewrite length_take; lia|apply drop_app_add].
    assert (take (i + 1) available = take i available ++ [d]) as Ht.
    { rewrite Nat.add_1_r. by apply take_S_r. }
    rewrite <- (take_drop (i + 1) available) at 1. rewrite Ht, <- !app_assoc, app_assoc. unfold first_chunk.
    cbn [app]. rewrite chunks_found by (rewrite elem_of_app; naive_solver). simpl. by rewrite <- app_assoc.
  - destruct (consume_spec _ _ _ (length available) Hb ltac:(lia)) as (reader' & Hc & Hto). exists reader'.
    rewrite usize_add_ok by lia. split_and!; [done|do 2 f_equal; lia|done| |]; simpl.
    + intros Hz%Nat.eqb_eq. apply nil_length_inv in Hz. rewrite (Hend Hz), Hz in *. simpl.
      rewrite !app_nil_r, Nat.add_0_r, drop_ge by done. split_and!; [|done..]. destruct got; [done|].
      unfold first_chunk. by rewrite chunks_none.
    + intros Hz%Nat.eqb_neq. rewrite length_app. split; [lia|].
      exists (got ++ available), tl. rewrite drop_app_length in Hto. rewrite firstn_all, length_app, <- !app_assoc.
      rewrite elem_of_app. naive_solver.
Qed.

Lemma until_round_meets d old bs n reader buf read x w :
  (N.of_nat (length bs) < usize_modulus)%N → until_at d old bs reader buf read →
  read_until_round d n (reader, buf, read) = Done (x, w) →
  match x with
  | inl (reader', buf', read') => until_at d old bs reader' buf' read' ∧
      length bs - N.to_nat read' < length bs - N.to_nat read
  | inr (p, reader', buf', read') => until_done d old bs p reader' buf' read' w
  end.
Proof.
  intros Hlt (got & rest & -> & Hgot & Hto & -> & ->) Hp. unfold read_until_round in Hp.
  apply eff_bind_done in Hp as ([r reader1] & w1 & w2 & Hf & Hp & ->).
  pose proof (fill_spec _ _ _ _ _ _ Hto Hf) as Hs. destruct r as [[available|e]|].
  - destruct Hs as [Hb Hend].
    pose proof (until_taken d old got rest reader1 available _ _ Hlt Hgot Hb Hend eq_refl eq_refl) as Ht.
    destruct (match memchr d available with Some _ => _ | None => _ end) as [done used].
    destruct Ht as (reader' & Hc & Ha & Hto' & Hyes & Hno). rewrite Hc, eff_bind_Done, Ha, eff_bind_Done in Hp.
    destruct (done || (used =? 0)); apply eff_ret_done in Hp as [<- ->].
    + destruct (Hyes eq_refl) as (Hfc & Hlen & Hd).
      simpl. rewrite Hfc, length_app, Hlen, Hd, app_assoc. done.
    + destruct (Hno eq_refl) as [Hu Hat]. split; [done|]. rewrite length_app. lia.
  - apply eff_ret_done in Hp as [<- ->]. destruct Hs. split; [done|]. by exists got, rest.
  - apply eff_ret_done in Hp as [<- ->]. destruct Hs. split; [auto with async|]. by exists got, rest.
Qed.

Lemma until_round_returns d old bs reader buf read :
  (N.of_nat (length bs) < usize_modulus)%N → until_at d old bs reader buf read →
  ∃ n x, read_until_round d n (reader, buf, read) = Done x.
Proof.
  intros Hlt (got & rest & -> & Hgot & Hto & -> & ->). unfold read_until_round.
  destruct (fill_returns _ _ Hto) as (n & [[r reader1] w] & Hf). exists n. rewrite Hf. simpl.
  pose proof (fill_spec _ _ _ _ _ _ Hto Hf) as Hs. destruct r as [[available|e]|]; try by eexists.
  destruct Hs as [Hb Hend].
  pose proof (until_taken d old got rest reader1 available _ _ Hlt Hgot Hb Hend eq_refl eq_refl) as Ht.
  destruct (match memchr d available with Some _ => _ | None => _ end) as [done used].
  destruct Ht as (reader' & Hc & Ha & _). rewrite Hc, eff_bind_Done, Ha, eff_bind_Done.
  destruct (done || (used =? 0)); by eexists.
Qed.

Lemma until_meets d old bs reader buf read :
  (N.of_nat (length bs) < usize_modulus)%N → until_at d old bs reader buf read →
  (∀ n p reader' buf' read' w,
     read_until_internal n reader d buf read = Done ((p, reader', buf', read'), w) →
     until_done d old bs p reader' buf' read' w) ∧
  ∃ n x, read_until_internal n reader d buf read = Done x.
Proof.
  intros Hlt Hat.
  pose proof (loop_poll_meets (read_until_round d) (until_mono d)
    (λ '(reader, buf, read), until_at d old bs reader buf read)
    (λ '(_, _, read), length bs - N.to_nat read)
    (λ '(p, reader', buf', read') w, until_done d old bs p reader' buf' read' w)) as Hl.
  destruct (λ a b c, Hl a b c (reader, buf, read) Hat) as [Hs Ht].
  - intros n [[r1 b1] n1] x w Hi He. pose proof (until_round_meets _ _ _ _ _ _ _ _ _ Hlt Hi He) as Hx.
    by destruct x as [[[? ?] ?]|[[[? ?] ?] ?]].
  - intros [[r1 b1] n1] Hi. by eapply until_round_returns.
  - intros [[[p r1] b1] n1] w1 w2 Hm. destruct p as [[]|]; simpl in *; [done..|]. destruct Hm. auto with async.
  - split; [|done]. intros n p r1 b1 n1 w He. exact (Hs n (p, r1, b1, n1) w He).
Qed.

Lemma until_prompt d n reader buf read p reader' buf' read' w :
  prompt R → read_until_internal n reader d buf read = Done ((p, reader', buf', read'), w) → ∃ k, p = Ready (Ok k).
Proof.
  intros Hr Hp. unfold read_until_internal in Hp.
  apply (loop_poll_ind (read_until_round d) (λ '(p, _, _, _) _, ∃ k, p = Ready (Ok k))) in Hp; [done| |].
  - clear -Hr. intros n [[r1 b1] n1] [[[p1 r2] b2] n2] w Hp. unfold read_until_round in Hp. inv_eff; try by eexists.
    + destruct (Hr _ _ _ _ _ Heff) as [? ?]. by simplify_eq.
    + destruct (Hr _ _ _ _ _ Heff) as [? ?]. by simplify_eq.
  - by intros [[[p1 r2] b2] n2].
Qed.
End Until.

(** * The streams *)

(** The answers that are not errors. *)
Definition ok_of {A E : Type} (r : Result A E) : option A := match r with Ok a => Some a | Err _ => None end.

Section Split.
Context {R : Type} `{BufReaderLaws R} `{MemchrLaws}.
Implicit Types (bs : bytes) (d : byte) (this : Split R).

Definition strip d (c : bytes) : bytes := if ends_with c d then pop c else c.

Definition splitting d bs this : Prop :=
  split_delim this = d ∧ until_at d [] bs (split_reader this) (split_buf this) (split_read this).

Definition split_next d bs (p : Poll (option (Result bytes Error))) this (w : list CxEvent) : Prop :=
  match p with
  | Pending => w ≠ [] ∧ splitting d bs this
  | Ready None => bs = [] ∧ splitting d [] this
  | Ready (Some (Ok piece)) => ∃ c cs, chunks d bs = c :: cs ∧ piece = strip d c ∧ splitting d (concat cs) this
  | Ready (Some (Err e)) => kind e ≠ Interrupted ∧ splitting d bs this
  end.

Lemma until_fresh d bs (reader : R) : to_come reader bs → until_at d [] bs reader [] 0.
Proof. intros Ht. exists [], bs. split_and!; [done| |done..]. apply not_elem_of_nil. Qed.

Lemma drop_first_chunk d bs c cs : chunks d bs = c :: cs → drop (length c) bs = concat cs.
Proof. intros Hc. destruct (first_chunk_rest _ _ _ _ Hc) as (-> & _). by rewrite drop_app_length. Qed.

Lemma chunks_cases d bs :
  (bs = [] ∧ chunks d bs = []) ∨
  ∃ c cs, chunks d bs = c :: cs ∧ first_chunk d bs = c ∧ c ≠ [] ∧ drop (length c) bs = concat cs.
Proof.
  destruct (chunks d bs) as [|c cs] eqn:Hc.
  - left. split; [|done]. by rewrite <- (chunks_concat d bs), Hc.
  - right. exists c, cs. split_and!; [done|by unfold first_chunk; rewrite Hc| |by eapply drop_first_chunk].
    by destruct (first_chunk_rest _ _ _ _ Hc) as (_ & _ & ?).
Qed.

Lemma Split_poll_cases d bs this n r reader buf read w :
  (N.of_nat (length bs) < usize_modulus)%N → splitting d bs this →
  read_until_internal n (split_reader this) (split_delim this) (split_buf this) (split_read this) =
    Done ((r, reader, buf, read), w) →
  ∃ p this', Split_poll_next n this = Done ((p, this'), w) ∧ split_next d bs p this' w.
Proof.
  intros Hlt [<- Hat] Hp. destruct (until_meets _ _ _ _ _ _ Hlt Hat) as [Hm _].
  pose proof (Hm _ _ _ _ _ _ Hp) as Hd. unfold Split_poll_next. destruct r as [[k|e]|]; simpl in Hd.
  - destruct Hd as (-> & -> & -> & Hto). destruct (chunks_cases (split_delim this) bs) as [[-> _]|Hc].
    + do 2 eexists. split; [by eapply eff_bind_pure|]. split; [done|]. split; [done|]. by apply until_fresh.
    + destruct Hc as (c & cs & Hc & Hfc & Hne & Hdr). rewrite Hfc in *. simpl in Hp.
      destruct (last_is_Some c) as [_ Hl]. destruct (Hl Hne) as [b Hb].
      do 2 eexists. split.
      { eapply eff_bind_pure; [done|]. lazy beta iota zeta. rewrite bool_decide_eq_false_2, andb_false_r, Hb by done. done. }
      exists c, cs. split_and!; [done| |].
      * unfold strip, ends_with. rewrite Hb. by do 2 case_bool_decide; simplify_eq.
      * split; [done|]. apply until_fresh. by rewrite <- Hdr.
  - do 2 eexists. split; [by eapply eff_bind_pure|]. destruct Hd as [? Hat']. by split.
  - do 2 eexists. split; [by eapply eff_bind_pure|]. destruct Hd as [? Hat']. by split.
Qed.

Lemma Split_poll_meets d bs this :
  (N.of_nat (length bs) < usize_modulus)%N → splitting d bs this →
  (∀ n p this' w, Split_poll_next n this = Done ((p, this'), w) → split_next d bs p this' w) ∧
  ∃ n x, Split_poll_next n this = Done x.
Proof.
  intros Hlt Hat. split.
  - intros n p this' w Hp. destruct (read_until_internal n (split_reader this) (split_delim this)
      (split_buf this) (split_read this)) as [[[[[r reader] buf] read] w']| |] eqn:Hr.
    + destruct (Split_poll_cases _ _ _ _ _ _ _ _ _ Hlt Hat Hr) as (p1 & this1 & He & Hn). rewrite Hp in He. by simplify_eq.
    + unfold Split_poll_next in Hp. by rewrite Hr in Hp.
    + unfold Split_poll_next in Hp. by rewrite Hr in Hp.
  - destruct Hat as [Hd Hat]. destruct (until_meets _ _ _ _ _ _ Hlt Hat) as [_ (n & [[[[r reader] buf] read] w] & Hr)].
    rewrite <- Hd in Hr. destruct (Split_poll_cases _ _ _ _ _ _ _ _ _ Hlt (conj Hd Hat) Hr) as (p & this' & He & _).
    by exists n, ((p, this'), w).
Qed.

(** A prompt reader's pieces, one by one. *)
Lemma Split_yields d bs this :
  prompt R → (N.of_nat (length bs) < usize_modulus)%N → splitting d bs this →
  yields this (Ok <$> (strip d <$> chunks d bs)).
Proof.
  intros Hpr. revert this bs.
  assert (∀ this bs, (N.of_nat (length bs) < usize_modulus)%N → splitting d bs this →
    ∃ o this' w, pulls this o this' ∧ split_next d bs (Ready o) this' w ∧ ∀ e, o ≠ Some (Err e)) as Hpull.
  { intros this bs Hlt [Hd Hat]. destruct (until_meets _ _ _ _ _ _ Hlt Hat) as [_ (n & [[[[r reader] buf] read] w] & Hr)].
    destruct (until_prompt _ _ _ _ _ _ _ _ _ _ Hpr Hr) as [k ->]. rewrite <- Hd in Hr.
    destruct (Split_poll_cases _ _ _ _ _ _ _ _ _ Hlt (conj Hd Hat) Hr) as (p & this' & He & Hn).
    assert (∃ o, p = Ready o ∧ ∀ e, o ≠ Some (Err e)) as (o & -> & Ho).
    { unfold Split_poll_next in He. rewrite Hr in He. inv_eff; by eexists. }
    exists o, this', w. split; [by eapply until_ready_now|done]. }
  intros this bs. remember (chunks d bs) as l eqn:Hl. revert this bs Hl.
  induction l as [|c cs IH]; intros this bs Hl Hlt Hat; destruct (Hpull _ _ Hlt Hat) as (o & this' & w & Hp & Hs & Ho).
  - destruct o as [[piece|e]|]; [|by destruct (Ho e)|by eapply yields_nil].
    destruct Hs as (c & cs & Hc & _). by rewrite Hc in Hl.
  - destruct o as [[piece|e]|]; [|by destruct (Ho e)|by destruct Hs as [-> _]].
    destruct Hs as (c' & cs' & Hc & -> & Hat'). rewrite Hc in Hl. injection Hl as -> ->.
    destruct (first_chunk_rest _ _ _ _ Hc) as (Hbs & Hcs & _). simpl. eapply yields_cons; [done|].
    apply (IH this' (concat cs')); [by rewrite Hcs| |done]. rewrite Hbs, length_app in Hlt. lia.
Qed.

(** However often the reader fails or is pending, the pieces are those of the
    bytes below. *)
Lemma Split_items d bs this l :
  (N.of_nat (length bs) < usize_modulus)%N → splitting d bs this → yields this l →
  omap ok_of l = strip d <$> chunks d bs.
Proof.
  intros Hlt Hat Hy. revert bs Hlt Hat.
  assert (∀ this o this', pulls this o this' → ∀ bs, (N.of_nat (length bs) < usize_modulus)%N →
    splitting d bs this → ∃ w, split_next d bs (Ready o) this' w) as Hpull.
  { induction 1 as [n s x s' w Hp|n s s1 x s' w Hp _ IH]; intros bs Hlt Hat;
      destruct (Split_poll_meets _ _ _ Hlt Hat) as [Hm _]; pose proof (Hm _ _ _ _ Hp) as Hs; [by eexists|].
    by apply IH; [|apply Hs]. }
  induction Hy as [this this' Hp|this [piece|e] this1 l Hp _ IH]; intros bs Hlt Hat;
    destruct (Hpull _ _ _ Hp _ Hlt Hat) as (w & Hs); simpl in Hs.
  - by destruct Hs as [-> _].
  - destruct Hs as (c & cs & Hc & -> & Hat'). destruct (first_chunk_rest _ _ _ _ Hc) as (Hbs & Hcs & _).
    rewrite Hc. simpl. f_equal. rewrite <- Hcs. apply IH; [|done]. rewrite Hbs, length_app in Hlt. lia.
  - by apply IH; [|apply Hs].
Qed.
End Split.

Section Lines.
Context {R : Type} `{BufReaderLaws R} `{MemchrLaws}.
Implicit Types (bs : bytes) (this : Lines R).

(** A line without its end, [\n] or [\r\n]. *)
Definition strip_eol (c : bytes) : bytes :=
  if ends_with c newline then
    let c := pop c in if ends_with c carriage_return then pop c else c
  else c.

(** A line as the stream gives it, or the error for one that is not UTF-8. *)
Definition line_of (c : bytes) : Result bytes Error := if utf8_valid c then Ok (strip_eol c) else Err invalid_utf8.

Definition lining bs this : Prop :=
  lines_buf this = [] ∧ until_at newline [] bs (lines_reader this) (lines_bytes this) (lines_read this).

(** What a poll gives when the reader has not failed. *)
Definition line_next bs (p : Poll (option (Result bytes Error))) this (w : list CxEvent) : Prop :=
  match p with
  | Pending => w ≠ [] ∧ lining bs this
  | Ready None => bs = [] ∧ lining [] this
  | Ready (Some r) => ∃ c cs, chunks newline bs = c :: cs ∧ r = line_of c ∧
      (utf8_valid c = true → lining (concat cs) this)
  end.

(** The poll that follows a [read_until] which did not fail. *)
Lemma Lines_poll_cases bs this n r reader buf read w :
  (N.of_nat (length bs) < usize_modulus)%N → lining bs this →
  read_until_internal n (lines_reader this) newline (lines_bytes this) (lines_read this) =
    Done ((r, reader, buf, read), w) → (∀ e, r ≠ Ready (Err e)) →
  ∃ p this', Lines_poll_next n this = Done ((p, this'), w) ∧ line_next bs p this' w.
Proof.
  intros Hlt [Hbuf Hat] Hp Hne. destruct (until_meets _ _ _ _ _ _ Hlt Hat) as [Hm _].
  pose proof (Hm _ _ _ _ _ _ Hp) as Hd. clear Hm. unfold Lines_poll_next, read_line_internal. rewrite Hbuf.
  destruct r as [[k|e]|]; simpl in Hd.
  - destruct Hd as (-> & -> & -> & Hto). simpl in Hp. destruct (chunks_cases newline bs) as [[-> _]|Hc].
    + do 2 eexists. split; [by eapply eff_bind_pure; [eapply eff_bind_pure; [done|]|]|].
      split; [done|]. split; [done|]. by apply until_fresh.
    + destruct Hc as (c & cs & Hc & Hfc & Hc0 & Hdr). rewrite Hfc in *.
      destruct (utf8_valid c) eqn:Hv.
      * do 2 eexists. split.
        { eapply eff_bind_pure; [eapply eff_bind_pure; [done|]; lazy beta iota zeta; by rewrite Hv|].
          lazy beta iota zeta. rewrite bool_decide_eq_false_2, andb_false_r by done. done. }
        exists c, cs. unfold line_of, strip_eol. rewrite Hv. split_and!; [done..|]. intros _.
        split; [done|]. apply until_fresh. by rewrite <- Hdr.
      * do 2 eexists. split.
        { eapply eff_bind_pure; [eapply eff_bind_pure; [done|]; lazy beta iota zeta; by rewrite Hv|]. done. }
        exists c, cs. unfold line_of. by rewrite Hv.
  - by destruct (Hne e).
  - do 2 eexists. split; [by eapply eff_bind_pure; [eapply eff_bind_pure; [done|]|]|].
    destruct Hd as [? Hat']. by split.
Qed.

(** Bytes that are valid line by line. *)
Lemma Lines_yields bs this :
  prompt R → (N.of_nat (length bs) < usize_modulus)%N → lining bs this →
  Forall (λ c, utf8_valid c = true) (chunks newline bs) → yields this (line_of <$> chunks newline bs).
Proof.
  intros Hpr. revert this bs.
  assert (∀ this bs, (N.of_nat (length bs) < usize_modulus)%N → lining bs this →
    ∃ o this' w, pulls this o this' ∧ line_next bs (Ready o) this' w) as Hpull.
  { intros this bs Hlt [Hd Hat]. destruct (until_meets _ _ _ _ _ _ Hlt Hat) as [_ (n & [[[[r reader] buf] read] w] & Hr)].
    destruct (until_prompt _ _ _ _ _ _ _ _ _ _ Hpr Hr) as [k ->].
    destruct (Lines_poll_cases _ _ _ _ _ _ _ _ Hlt (conj Hd Hat) Hr ltac:(done)) as (p & this' & He & Hn).
    assert (∃ o, p = Ready o) as (o & ->).
    { unfold Lines_poll_next, read_line_internal in He. rewrite Hr in He. inv_eff; by eexists. }
    exists o, this', w. split; [by eapply until_ready_now|done]. }
  intros this bs. remember (chunks newline bs) as l eqn:Hl. revert this bs Hl.
  induction l as [|c cs IH]; intros this bs Hl Hlt Hat Hall; destruct (Hpull _ _ Hlt Hat) as (o & this' & w & Hp & Hs).
  - destruct o as [r|]; [|by eapply yields_nil]. destruct Hs as (c & cs & Hc & _). by rewrite Hc in Hl.
  - destruct o as [r|]; [|by destruct Hs as [-> _]].
    destruct Hs as (c' & cs' & Hc & -> & Hat'). rewrite Hc in Hl. injection Hl as -> ->.
    apply Forall_cons_1 in Hall as [Hv Hall].
    destruct (first_chunk_rest _ _ _ _ Hc) as (Hbs & Hcs & _). simpl. eapply yields_cons; [done|].
    apply (IH this' (concat cs')); [by rewrite Hcs| |by apply Hat'|done]. rewrite Hbs, length_app in Hlt. lia.
Qed.
End Lines.

(** * Text written line by line *)

Definition terminator (crlf : bool) : bytes := if crlf then [carriage_return; newline] else [newline].
Definition unlines (ls : list (bytes * bool)) : bytes := concat ((λ '(l, crlf), l ++ terminator crlf) <$> ls).

Lemma utf8_valid_app a b : utf8_valid a = true → utf8_valid b = true → utf8_valid (a ++ b) = true.
Proof.
  intros Ha Hb. remember (length a) as k eqn:Hk. revert a Ha Hk.
  induction k as [k IH] using lt_wf_ind. intros a Ha Hk.
  assert (∀ a', utf8_valid a' = true → length a' < length a → utf8_valid (a' ++ b) = true) as IH'.
  { intros a' Ha' Hlt. eapply IH; [|done|done]. lia. }
  clear IH. destruct a as [|b0 a]; [done|]. cbn [utf8_valid app] in *.
  destruct (byte_in 0 127 b0); [apply IH'; [done|simpl; lia]|].
  destruct a as [|b1 a]; [done|]. cbn [app]. destruct (byte_in 194 223 b0).
  { apply andb_true_iff in Ha as [-> Ha]. apply IH'; [done|simpl; lia]. }
  destruct a as [|b2 a]; [done|]. cbn [app]. destruct (byte_in 224 239 b0).
  { apply andb_true_iff in Ha as [-> Ha]. apply IH'; [done|simpl; lia]. }
  destruct a as [|b3 a]; [done|]. cbn [app].
  apply andb_true_iff in Ha as [-> Ha]. apply IH'; [done|simpl; lia].
Qed.

Lemma pop_snoc l b : pop (l ++ [b]) = l.
Proof. unfold pop. rewrite length_app. simpl. rewrite Nat.add_sub. apply take_app_length. Qed.
Lemma ends_with_snoc l b b' : ends_with (l ++ [b]) b' = bool_decide (b = b').
Proof. unfold ends_with. rewrite last_snoc. apply bool_decide_ext. naive_solver. Qed.

(** A line that comes back: text without a newline, and without a carriage
    return before a bare newline. *)
Definition plain_line : bytes * bool → Prop :=
  λ '(l, crlf), utf8_valid l = true ∧ (newline ∉ l) ∧ (crlf = false → ends_with l carriage_return = false).

Lemma chunks_unlines ls :
  Forall plain_line ls → line_of <$> chunks newline (unlines ls) = Ok <$> ls.*1 ∧
    Forall (λ c, utf8_valid c = true) (chunks newline (unlines ls)).
Proof.
  induction 1 as [|[l crlf] ls (Hv & Hn & Hcr) _ [IH1 IH2]]; [done|]. unfold unlines. cbn [fmap list_fmap concat].
  fold (unlines ls). assert (∃ l', l ++ terminator crlf = l' ++ [newline] ∧ (newline ∉ l') ∧
    utf8_valid (l' ++ [newline]) = true ∧ strip_eol (l' ++ [newline]) = l) as (l' & -> & Hn' & Hv' & Hs).
  { destruct crlf.
    - exists (l ++ [carriage_return]). unfold strip_eol. rewrite ends_with_snoc, bool_decide_eq_true_2 by done.
      rewrite !pop_snoc, ends_with_snoc, bool_decide_eq_true_2, <- app_assoc by done. split_and!; [done| | |done].
      + rewrite elem_of_app. intros [?|?%list_elem_of_singleton]; done.
      + by apply utf8_valid_app.
    - exists l. unfold strip_eol. rewrite ends_with_snoc, bool_decide_eq_true_2 by done.
      rewrite !pop_snoc, Hcr by done. split_and!; [done..| |done]. by apply utf8_valid_app. }
  rewrite <- app_assoc. cbn [app]. rewrite chunks_found by done. cbn. unfold line_of at 1. rewrite Hv', Hs.
  split; [by f_equal|by constructor].
Qed.
