(* ===== verification/IoSpec.v ===== *)
(** What input and output promise: readers give the bytes below them however
    they are stacked, buffered writers pass on what they are given, text written
    line by line is read line by line, and where errors leave the data. *)

From stdpp Require Import strings.
From Stdlib Require Import Strings.Byte.
From S2P Require Import Prelude Async Io IoBuf IoRead IoLines IoWrite IoLaws IoWriterLaws IoFutures IoUntil.
Local Open Scope async_scope.

(** * Readers *)

(** Reading [x] to its end, into any vector, appends [bs]. *)
Definition reads_all `{ReaderLaws X} `{Reserve} (x : X) (bs : bytes) : Prop :=
  ∀ buf, promises (read_to_end x buf) (λ v this,
    match v with
    | Ok n => n = length bs ∧ vec_bytes (rte_buf this) = vec_bytes buf ++ bs ∧ contents (rte_reader this) []
    | Err e => kind e ≠ Interrupted ∧ gathering (vec_bytes buf) bs (rte_reader this) (rte_buf this)
    end).

(** Reading exactly [len] bytes gives the first [len] ones, or reports that the
    reader ended before. *)
Definition reads_exactly `{ReaderLaws X} (x : X) (bs : bytes) : Prop :=
  ∀ len, promises (mkReadExactFuture x [] len) (λ v this,
    match v with
    | Ok _ => re_filled this = take len bs ∧ len ≤ length bs ∧ contents (re_reader this) (drop len bs)
    | Err e => e = error_of UnexpectedEof ∧ re_filled this = bs ∧ length bs < len ∨ read_fails (R:=X) e
    end).

Lemma contents_reads_all `{ReaderLaws X} `{ReserveLaws} (x : X) bs : contents x bs → reads_all x bs.
Proof.
  intros Hc buf. exists (λ this, rte_start_len this = length (vec_bytes buf) ∧
    gathering (vec_bytes buf) bs (rte_reader this) (rte_buf this)).
  split; [split; [done|]; exists [], bs; by rewrite app_nil_r|]. intros [rd v start] [Hs Hg]. simpl in *. subst start.
  destruct (read_to_end_meets _ _ _ _ Hg) as [Hm (n & [[[r rd'] v'] w] & Hr)]. split.
  - exists n. eexists. eapply eff_bind_pure; [exact Hr|done].
  - clear n r rd' v' w Hr. intros n p this w Hp. change (ReadToEndFuture_poll n (mkReadToEndFuture rd v (length (vec_bytes buf))) = Done ((p, this), w)) in Hp.
    unfold ReadToEndFuture_poll in Hp. apply eff_bind_done in Hp as ([[r rd'] v'] & w1 & w2 & Hr & Hp & ->).
    apply eff_ret_done in Hp as [[= <- <-] ->]. simpl in *. destruct (Hm _ _ _ _ _ Hr) as [Hg' Hx].
    rewrite app_nil_r. by destruct r as [[k|e]|]; simpl in *.
Qed.

Lemma contents_reads_exactly `{ReaderLaws X} (x : X) bs : contents x bs → reads_exactly x bs.
Proof.
  intros Hc len. exists (filling len bs). split; [by exists bs|]. intros this Hf.
  destruct (ReadExact_poll_meets _ _ _ Hf) as [Hm Ht]. split; [done|]. intros n p this' w Hp.
  destruct (Hm _ _ _ Hp) as [Hf' Hx]. by destruct p as [[k|e]|].
Qed.

Lemma fresh_contents `{ReaderLaws X} (x : X) bs cap :
  contents x bs → 0 < cap → contents (BufReader_with_capacity cap x) bs.
Proof. intros Hx Hc. split; simpl; [by rewrite length_replicate|lia|]. by exists bs. Qed.

Section Readers.
Context `{ReaderLaws X} `{ReaderLaws Y} `{ReserveLaws}.

(** C23 The readers wrapped around others are transparent: if [x] and [y] are to
    give the bytes [bs] and [cs], then a [BufReader] on [x], of any capacity but
    zero, gives [bs], [take] the first [limit] of them, [chain] those of [x] and
    then those of [y], a [Cursor] those after its position; [read_to_end] appends
    exactly them, and [read_exact] the first ones, or reports the end.  Every poll
    returns, and one that is pending has used the waker. *)
Theorem readers_transparent (x : X) (y : Y) (bs cs data : bytes) (limit pos : N) (cap : nat) :
    contents x bs → contents y cs → 0 < cap → (pos <= N.of_nat (length data) < usize_modulus)%N →
    (reads_all x bs ∧ reads_exactly x bs) ∧
    (reads_all (BufReader_with_capacity cap x) bs ∧ reads_exactly (BufReader_with_capacity cap x) bs) ∧
    (reads_all (mkTake x limit) (take (N.to_nat limit) bs) ∧ reads_exactly (mkTake x limit) (take (N.to_nat limit) bs)) ∧
    (reads_all (mkChain x y false) (bs ++ cs) ∧ reads_exactly (mkChain x y false) (bs ++ cs)) ∧
    (reads_all (mkCursor data pos) (drop (N.to_nat pos) data) ∧
     reads_exactly (mkCursor data pos) (drop (N.to_nat pos) data)).
Proof.
  intros Hx Hy Hcap Hpos.
  assert (∀ Z (Hr : AsyncRead Z) (Hl : ReaderLaws Z) (z : Z) bs, contents z bs →
    reads_all z bs ∧ reads_exactly z bs) as Hall.
  { intros. split; [by apply contents_reads_all|by apply contents_reads_exactly]. }
  refine (conj (Hall _ _ _ _ _ _) (conj (Hall _ _ _ _ _ _) (conj (Hall _ _ _ _ _ _)
    (conj (Hall _ _ _ _ _ _) (Hall _ _ _ _ _ _))))).
  - done.
  - by apply fresh_contents.
  - by exists bs.
  - by exists bs, cs.
  - split_and!; simpl; [lia|lia|]. unfold std_cursor_fill_buf. simpl. f_equal. lia.
Qed.
End Readers.

(** * Writers *)

Section Writers.
Context `{ReaderLaws X} `{WriterLaws W}.
Implicit Types (x : X) (v : W) (bs ws : bytes).

Lemma copy_promises x v bs ws :
  contents x bs → accepted v ws → (N.of_nat (length bs) < usize_modulus)%N →
  promises (copy x v) (λ r this, copying ws bs this ∧
    ∀ n, r = Ok n → n = N.of_nat (length bs) ∧ settled (copy_writer this) (ws ++ bs)).
Proof.
  intros Hx Hv Hlt. exists (copying ws bs). split.
  { exists [], bs. rewrite app_nil_r. split_and!; [done| |done..]. apply fresh_contents; [done|].
    unfold DEFAULT_BUF_SIZE. lia. }
  intros this Hc. destruct (copy_poll_meets ws bs this Hlt Hc) as [Hm Ht]. split; [done|].
  intros n p this' w Hp. destruct (Hm _ _ _ Hp) as [Hc' Hx']. destruct p as [[k|e]|]; [|by split|done].
  split; [done|]. by intros ? [= <-].
Qed.

Lemma write_all_promises v bs ws :
  accepted v ws → promises (mkWriteAllFuture v bs) (λ r this, writing ws bs this ∧
    ∀ u, r = Ok u → accepted (wa_writer this) (ws ++ bs)).
Proof.
  intros Hv. exists (writing ws bs). split; [exists []; by rewrite app_nil_r|].
  intros this Hc. destruct (WriteAll_poll_meets ws bs this Hc) as [Hm Ht]. split; [done|].
  intros n p this' w Hp. destruct (Hm _ _ _ Hp) as [Hc' Hx']. by destruct p as [[k|e]|].
Qed.

Lemma flush_promises v ws :
  accepted v ws → promises (mkFlushFuture v) (λ r this, accepted (ff_writer this) ws ∧
    ∀ u, r = Ok u → settled (ff_writer this) ws).
Proof.
  intros Hv. exists (λ this, accepted (ff_writer this) ws). split; [done|]. intros [v1] Hc. simpl in Hc. split.
  - destruct (flush_returns _ _ Hc) as (n & [[r v2] w] & Hf). exists n. eexists. by eapply eff_bind_pure; [exact Hf|].
  - intros n p this' w Hp. change (FlushFuture_poll n (mkFlushFuture v1) = Done ((p, this'), w)) in Hp.
    unfold FlushFuture_poll in Hp. apply eff_bind_done in Hp as ([r v2] & w1 & w2 & Hf & Hp & ->).
    apply eff_ret_done in Hp as [[= <- <-] ->]. rewrite app_nil_r.
    destruct (flush_spec _ _ _ _ _ _ Hc Hf) as (Ha & Hw & Hs). destruct r as [[[]|e]|]; simpl; [|done|by split; [apply Hw|]].
    split; [done|]. intros [] _. by apply Hs.
Qed.

End Writers.

Section Delivery.
Context `{ReaderLaws X} `{WriterLaws W}.

(** C22 What is read is what was written: [copy] from a reader that is to give [bs],
    through a [BufWriter] of any capacity, puts [bs] behind what the writer below
    has accepted, in order and without loss or repetition, and when it answers [Ok]
    it has counted all of them and has flushed them; a [Cursor] over what it wrote
    gives them back.  [write_all] hands over all of its bytes, and [flush] what the
    buffer still held.  On an error, what has gone over is a prefix. *)
Theorem writers_deliver (x : X) (v : W) (bs ws : bytes) (cap : nat) :
    contents x bs → accepted v ws → (N.of_nat (length (ws ++ bs)) < usize_modulus)%N →
    promises (copy x (BufWriter_with_capacity cap v)) (λ r this,
      (∃ out, out `prefix_of` bs ∧ accepted (copy_writer this) (ws ++ out)) ∧
      ∀ n, r = Ok n → n = N.of_nat (length bs) ∧ settled (bw_inner (copy_writer this)) (ws ++ bs) ∧
        contents (mkCursor (ws ++ bs) (N.of_nat (length ws))) bs) ∧
    promises (mkWriteAllFuture (BufWriter_with_capacity cap v) bs) (λ r this,
      (∃ out, out `prefix_of` bs ∧ accepted (wa_writer this) (ws ++ out)) ∧
      ∀ u, r = Ok u → promises (mkFlushFuture (wa_writer this)) (λ r this,
        ∀ u, r = Ok u → settled (bw_inner (ff_writer this)) (ws ++ bs))).
Proof.
  intros Hx Hv Hlt. assert (accepted (BufWriter_with_capacity cap v) ws) as Hb.
  { split; simpl; [lia|]. exists ws. by rewrite app_nil_r. }
  rewrite length_app in Hlt. split.
  - eapply promises_mono; [apply (copy_promises x _ bs ws); [done..|lia]|].
    intros r this [(copied & rest & -> & _ & Ha & _) Hok]. split; [exists copied; split; [by eexists|done]|].
    intros n Hn. destruct (Hok n Hn) as [-> [_ Hs]]. split_and!; [done|done|].
    split_and!; simpl; [lia|rewrite length_app; lia|]. unfold std_cursor_fill_buf. simpl.
    rewrite N.min_l, Nat2N.id by (rewrite length_app; lia). by rewrite drop_app_length.
  - eapply promises_mono; [by apply (write_all_promises _ bs ws)|].
    intros r this [(written & Hw & Ha) Hok]. split; [exists written; split; [by eexists|done]|].
    intros u Hu. eapply promises_mono; [by apply flush_promises, (Hok u)|].
    intros r' this' [_ Hs] u' Hu'. by destruct (Hs u' Hu').
Qed.
End Delivery.

(** * Lines *)

Section Delimited.
Context `{ReaderLaws X} `{MemchrLaws}.

(** C24 Text comes back line by line: lines of valid UTF-8 without a newline in
    them, written one after another with [\n] or [\r\n] after each, are the items
    of [lines] over a [BufReader] of any capacity, whatever parts the reader gives
    them in; and [split] gives the parts of any bytes between delimiters, also
    when the reader is sometimes pending or fails in between. *)
Theorem lines_roundtrip (x : X) (ls : list (bytes * bool)) (d : byte) (bs : bytes) (cap : nat) :
    0 < cap → Forall plain_line ls → (N.of_nat (length (unlines ls)) < usize_modulus)%N →
    (N.of_nat (length bs) < usize_modulus)%N →
    (contents x (unlines ls) → prompt_reads X → yields (lines (BufReader_with_capacity cap x)) (Ok <$> ls.*1)) ∧
    (contents x bs → prompt_reads X →
       yields (split (BufReader_with_capacity cap x) d) (Ok <$> (strip d <$> chunks d bs))) ∧
    (∀ l, contents x bs → yields (split (BufReader_with_capacity cap x) d) l →
       omap ok_of l = strip d <$> chunks d bs) ∧
    concat (chunks d bs) = bs.
Proof.
  intros Hcap Hls Hlt Hlt'. split_and!.
  - intros Hx Hp. destruct (chunks_unlines ls Hls) as [<- Hv].
    apply Lines_yields; [by apply BufReader_prompt|done| |done]. split; [done|]. by apply until_fresh, fresh_contents.
  - intros Hx Hp. apply Split_yields; [by apply BufReader_prompt|done|]. split; [done|].
    by apply until_fresh, fresh_contents.
  - intros l Hx Hy. apply (Split_items d bs _ l Hlt') in Hy; [done|]. split; [done|]. by apply until_fresh, fresh_contents.
  - apply chunks_concat.
Qed.
End Delimited.

(** * Seeking in a buffer *)

(** A [BufReader] on a [Cursor] over [data] that is, for its user, at [at]: the
    cursor is ahead of it by what is still in the buffer. *)
Record br_at (this : BufReader Cursor) (data : bytes) (at_ : N) : Prop := mkBrAt {
  bra_data : cursor_inner (br_inner this) = data;
  bra_range : br_pos this ≤ br_cap this ≤ length (br_buf this);
  bra_pos : cursor_pos (br_inner this) = (at_ + N.of_nat (br_cap this - br_pos this))%N;
  bra_word : (cursor_pos (br_inner this) < usize_modulus)%N;
  bra_bytes : br_unread this = take (br_cap this - br_pos this) (drop (N.to_nat at_) data)
}.

Lemma br_at_contents this data at_ :
  br_at this data at_ → 0 < length (br_buf this) → (N.of_nat (length data) < usize_modulus)%N →
  contents this (drop (N.to_nat at_) data).
Proof.
  intros [Hd Hr Hp Hw Hb] H0 Hl. split; [done|done|].
  exists (std_cursor_fill_buf (br_inner this)). split; [split_and!; [done|by rewrite Hd|done]|].
  unfold std_cursor_fill_buf. rewrite Hb, Hd, Hp.
  destruct (N.le_gt_cases (at_ + N.of_nat (br_cap this - br_pos this)) (N.of_nat (length data))) as [Hle|Hgt].
  - rewrite N.min_l by done. rewrite <- (take_drop (br_cap this - br_pos this) (drop (N.to_nat at_) data)) at 1.
    rewrite drop_drop. do 2 f_equal. lia.
  - rewrite N.min_r, Nat2N.id, drop_all, app_nil_r by lia. rewrite take_ge; [done|]. rewrite length_drop. lia.
Qed.

(** After the buffer has been discarded. *)
Lemma br_at_discarded inner buf data :
  cursor_inner inner = data → (cursor_pos inner < usize_modulus)%N →
  br_at (mkBufReader inner buf 0 0) data (cursor_pos inner).
Proof. intros Hd Hw. split; simpl; [done|lia|lia|done|done]. Qed.

(** Where the cursor goes, or does not. *)
Lemma cursor_seek_cases pos c :
  let t := seek_target pos (cursor_pos c) (N.of_nat (length (cursor_inner c))) in
  if bool_decide (0 ≤ t < Z.of_N usize_modulus)%Z
  then std_cursor_seek pos c = (Ok (Z.to_N t), mkCursor (cursor_inner c) (Z.to_N t))
  else ∃ e, kind e = InvalidInput ∧ std_cursor_seek pos c = (Err e, c).
Proof. unfold std_cursor_seek. cbv zeta. case_bool_decide; [done|eexists; split; [|done]; done]. Qed.

Definition sought data at_ (pos : SeekFrom) (r : Result N Error) (this : BufReader Cursor) : Prop :=
  let t := seek_target pos at_ (N.of_nat (length data)) in
  if bool_decide (0 ≤ t < Z.of_N usize_modulus)%Z then r = Ok (Z.to_N t) ∧ br_at this data (Z.to_N t)
  else (∃ e, r = Err e ∧ kind e = InvalidInput) ∧ br_at this data at_.

(** One seek of the cursor, whose target is the one asked for. *)
Lemma seek_on_cursor n pos pos' this data at_ :
  br_at this data at_ →
  seek_target pos' (cursor_pos (br_inner this)) (N.of_nat (length data)) = seek_target pos at_ (N.of_nat (length data)) →
  ∃ r this', ('(r, inner) ← poll_seek n pos' (br_inner this);
    let this := br_set_inner inner this in
    match r with
    | Ready (Ok result) => mret (Ready (Ok result), discard_buffer this)
    | r => mret (r, this)
    end) = Done ((Ready r, this'), []) ∧ sought data at_ pos r this'.
Proof.
  intros Hat Ht. pose proof (cursor_seek_cases pos' (br_inner this)) as Hc. cbv zeta in Hc.
  rewrite (bra_data _ _ _ Hat), Ht in Hc. unfold sought.
  change (poll_seek n pos' (br_inner this)) with (Cursor_poll_seek n pos' (br_inner this)). unfold Cursor_poll_seek.
  case_bool_decide as Hb.
  - rewrite Hc, eff_bind_ret. do 2 eexists. split; [done|]. split; [done|]. by apply br_at_discarded; simpl; [|lia].
  - destruct Hc as (e & He & ->). rewrite eff_bind_ret. do 2 eexists. split; [done|]. split; [by eexists|].
    by destruct Hat; split.
Qed.

(** C25 Seeking through a [BufReader]: from wherever its user is, every
    [SeekFrom] with a 64-bit offset goes to the position it names, counted from
    where the user is and not from where the cursor below is, and what is read
    next starts there; a target below zero or beyond 64 bits is an error that
    leaves the user where they were, also where the offset less what is buffered
    is below the least [i64]. *)
Theorem bufreader_seek_bounds (n : nat) (pos : SeekFrom) (this : BufReader Cursor) (data : bytes) (at_ : N) :
    br_at this data at_ → (N.of_nat (length data) < usize_modulus)%N →
    ∃ r this', BufReader_poll_seek n pos this = Done ((Ready r, this'), []) ∧
      (if bool_decide (0 ≤ seek_target pos at_ (N.of_nat (length data)) < Z.of_N usize_modulus)%Z
       then r = Ok (Z.to_N (seek_target pos at_ (N.of_nat (length data)))) ∧
         br_at this' data (Z.to_N (seek_target pos at_ (N.of_nat (length data))))
       else (∃ e, r = Err e ∧ kind e = InvalidInput) ∧ br_at this' data at_) ∧
      (∀ at', br_at this' data at' → 0 < length (br_buf this') → contents this' (drop (N.to_nat at') data)).
Proof.
  intros Hat Hlen. assert (∃ r this', BufReader_poll_seek n pos this = Done ((Ready r, this'), []) ∧
    sought data at_ pos r this') as (r & this' & Hs & Hr).
  { pose proof Hat as [Hd Hrange Hpos Hw _]. unfold BufReader_poll_seek. destruct pos as [k|k|k]; cbv zeta.
    - by apply seek_on_cursor.
    - by apply seek_on_cursor.
    - rewrite (proj2 (Nat.leb_le _ _)) by lia. case_bool_decide as Hmin.
      + apply seek_on_cursor; [done|]. simpl. rewrite Hpos. lia.
      + change (poll_seek n (SeekCurrent (- Z.of_nat (br_cap this - br_pos this))) (br_inner this)) with
          (Cursor_poll_seek n (SeekCurrent (- Z.of_nat (br_cap this - br_pos this))) (br_inner this)).
        unfold Cursor_poll_seek, std_cursor_seek. cbv zeta. simpl seek_target. rewrite Hpos.
        rewrite bool_decide_eq_true_2 by lia. rewrite eff_bind_ret.
        apply (seek_on_cursor n (SeekCurrent k) (SeekCurrent k) (discard_buffer _) data at_); [|simpl; lia].
        replace at_ with (Z.to_N (Z.of_N (at_ + N.of_nat (br_cap this - br_pos this)) +
          - Z.of_nat (br_cap this - br_pos this))) at 2 by lia.
        by apply br_at_discarded; simpl; [|lia]. }
  exists r, this'. split; [done|]. split; [exact Hr|]. intros at' Hat' H0. by apply br_at_contents.
Qed.

(** * A string from a reader *)

Section Strings.
Context `{ReaderLaws X} `{ReserveLaws}.

Definition read_string_at (old bs : bytes) (this : ReadToStringFuture X) : Prop :=
  rts_string this = [] ∧ rts_start_len this = length old ∧ gathering old bs (rts_reader this) (rts_bytes this).

Lemma read_to_end_prompt n (rd rd' : X) buf buf' start p w :
  prompt_reads X → read_to_end_internal n rd buf start = Done ((p, rd', buf'), w) → ∃ k, p = Ready (Ok k).
Proof.
  intros Hr Hp. unfold read_to_end_internal in Hp.
  apply (loop_poll_ind (read_to_end_round start) (λ '(p, _, _) _, ∃ k, p = Ready (Ok k))) in Hp; [done| |].
  - clear -Hr. intros n [[r1 b1] n1] [[p1 r2] b2] w Hp. unfold read_to_end_round in Hp.
    destruct (if n1 =? 0 then _ else _) as [b3 n3]. inv_eff; try by eexists.
    + destruct (Hr _ _ _ _ _ _ Heff) as [? ?]. by simplify_eq.
    + destruct (Hr _ _ _ _ _ _ Heff) as [? ?]. by simplify_eq.
  - by intros [[p1 r2] b2].
Qed.

(** What the string holds in the end, [out] having been read. *)
Definition string_or_lost (old out : bytes) (this : ReadToStringFuture X) : Prop :=
  if utf8_valid (old ++ out) then rts_string this = old ++ out else rts_string this = [].

(** [read_to_string] into a string [old] from a reader that is to give [bs]: when
    it answers [Ok], the whole of [old ++ bs] is valid UTF-8, is in the string, and
    the number is that of the new bytes; otherwise the string holds what was read
    if it is valid; and if it is not, the answer is an error and the caller's string
    is empty: what it held before is gone. *)
Theorem read_to_string_outcomes (x : X) (old bs : bytes) (cap : nat) :
    contents x bs →
    promises (read_to_string x (mkVecBuf old cap)) (λ r this,
      match r with
      | Ok n => n = length bs ∧ utf8_valid (old ++ bs) = true ∧ rts_string this = old ++ bs
      | Err e => kind e ≠ Interrupted ∧ (∃ out, out `prefix_of` bs ∧ string_or_lost old out this) ∧
          (prompt_reads X → e = invalid_utf8 ∧ utf8_valid (old ++ bs) = false ∧ rts_string this = [])
      end).
Proof.
  intros Hx. exists (read_string_at old bs). split.
  { split_and!; [done..|]. exists [], bs. by rewrite app_nil_r. }
  intros [rd s v start] (Hs & Hst & Hg). simpl in *. subst s start.
  destruct (read_to_end_meets _ _ _ _ Hg) as [Hm (n & [[[r rd'] v'] w] & Hr)]. split.
  - exists n. change (∃ y, ReadToStringFuture_poll n (mkReadToStringFuture rd [] v (length old)) = Done y).
    unfold ReadToStringFuture_poll. cbn [rts_reader rts_string rts_bytes rts_start_len]. rewrite Hr.
    destruct r as [r|]; simpl; [|by eexists]. destruct (utf8_valid _); by eexists.
  - clear n r rd' v' w Hr. intros n p this w Hp.
    change (ReadToStringFuture_poll n (mkReadToStringFuture rd [] v (length old)) = Done ((p, this), w)) in Hp.
    unfold ReadToStringFuture_poll in Hp. cbn [rts_reader rts_string rts_bytes rts_start_len] in Hp.
    apply eff_bind_done in Hp as ([[r rd'] v'] & w1 & w2 & Hr & Hp & ->).
    destruct (Hm _ _ _ _ _ Hr) as [(got & rest & -> & Hc & Hv) Hx']. lazy beta iota zeta in Hp.
    destruct r as [ret|].
    2: { apply eff_ret_done in Hp as [[= <- <-] ->]. rewrite app_nil_r. split; [done|].
      split_and!; [done..|]. by exists got, rest. }
    assert (p = Ready (if utf8_valid (old ++ got) then ret else and_invalid ret) ∧ string_or_lost old got this) as [-> Hlost].
    { unfold string_or_lost. rewrite <- Hv. destruct (utf8_valid (vec_bytes v')); simpl in Hp; by inv_eff. }
    assert (string_or_lost old got this → ∃ out, out `prefix_of` got ++ rest ∧ string_or_lost old out this) as Hout.
    { intros. exists got. split; [by eexists|done]. }
    assert (prompt_reads X → ∃ k, ret = Ok k) as Hpr.
    { intros Hprompt. destruct (read_to_end_prompt _ _ _ _ _ _ _ _ Hprompt Hr) as [k Hk]. simplify_eq. by exists k. }
    unfold string_or_lost in Hlost. destruct ret as [k|e].
    + destruct Hx' as (-> & Hfull & _). rewrite Hv in Hfull. apply app_inv_head in Hfull.
      rewrite <- Hfull in *. destruct (utf8_valid (old ++ got)) eqn:Hutf; [done|]. simpl. split; [done|].
      split; [apply Hout; unfold string_or_lost; by rewrite Hutf|done].
    + destruct (utf8_valid (old ++ got)) eqn:Hutf; simpl.
      * split; [done|]. split; [apply Hout; unfold string_or_lost; by rewrite Hutf|].
        intros Hprompt. by destruct (Hpr Hprompt).
      * split; [done|]. split; [apply Hout; unfold string_or_lost; by rewrite Hutf|].
        intros Hprompt. by destruct (Hpr Hprompt).
Qed.
End Strings.

(** * Faults *)

(** A writer over a vector that takes at most [dribble_step] bytes at a time. *)
Record Dribble : Type := mkDribble { dribble_step : nat; dribbled : bytes }.
#[global] Instance Dribble_AsyncWrite : AsyncWrite Dribble := {|
  poll_write _ buf v := mret (Ready (Ok (dribble_step v `min` length buf)),
    mkDribble (dribble_step v) (dribbled v ++ take (dribble_step v) buf));
  poll_flush _ v := mret (Ready (Ok ()), v);
  poll_close _ v := mret (Ready (Ok ()), v)
|}.
#[global] Program Instance Dribble_WriterLaws : WriterLaws Dribble := {|
  accepted v bs := dribbled v = bs;
  settled v bs := dribbled v = bs
|}.
Next Obligation. done. Qed.
Next Obligation. intros buf v n m x _ Hx. exact Hx. Qed.
Next Obligation. intros v n m x _ Hx. exact Hx. Qed.
Next Obligation. intros v bs buf _. exists 0. by eexists. Qed.
Next Obligation. intros v bs _. exists 0. by eexists. Qed.
Next Obligation.
  intros n buf v bs p v' w <- Hp. apply eff_ret_done in Hp as [[= <- <-] ->]. split; [lia|]. simpl. f_equal.
  destruct (Nat.le_gt_cases (dribble_step v) (length buf)); [by rewrite Nat.min_l|].
  by rewrite Nat.min_r, !take_ge by lia.
Qed.
Next Obligation. intros n v bs p v' w <- Hp. apply eff_ret_done in Hp as [[= <- <-] ->]. by split_and!. Qed.

Lemma WriteFmt_mono {W} `{WriterLaws W} s this : fuel_mono (λ n, WriteFmt_round (W:=W) s n this).
Proof. unfold WriteFmt_round. cbv zeta. solve_fuel_mono. Qed.

(** The rounds left write the first byte again and again. *)
Lemma write_fmt_dribbles b s ws left :
  ∀ amt, amt + left = S (length s) → (N.of_nat (S (length s)) < usize_modulus)%N →
  ∃ n, loop_poll (WriteFmt_round (b :: s)) n
      (mkWriteFmtFuture (mkDribble 1 (ws ++ replicate amt b)) None (Some (b :: s)) (N.of_nat amt)) =
    Done ((Ready (Ok ()), mkWriteFmtFuture (mkDribble 1 (ws ++ replicate (S (length s)) b)) None (Some (b :: s))
      (N.of_nat (S (length s)))), []).
Proof.
  induction left as [|left IH]; intros amt Ha Hlt.
  - rewrite Nat.add_0_r in Ha. subst amt. eapply (loop_poll_break _ (WriteFmt_mono (b :: s)) 0).
    unfold WriteFmt_round. cbn [wfm_amt]. simpl length. by rewrite N.eqb_refl.
  - destruct (IH (S amt)) as [m Hm]; [lia|done|]. replace [] with ([] ++ [] : list CxEvent) by done.
    eapply (loop_poll_continue _ (WriteFmt_mono (b :: s)) 0); [|exact Hm].
    unfold WriteFmt_round. cbn [wfm_amt wfm_writer]. simpl length.
    destruct (N.eqb_spec (N.of_nat amt) (N.of_nat (S (length s)))); [lia|]. simpl.
    rewrite usize_add_ok by lia. simpl. do 4 f_equal; [|lia].
    by rewrite <- app_assoc, replicate_cons_app.
Qed.

(** C39 What becomes of errors and partial results.  [read_to_string] into a string
    [old] from a reader that is to give [bs]: when it answers [Ok], the whole of
    [old ++ bs] is valid UTF-8, is in the string, and the number is that of the new
    bytes; otherwise the string holds what was read if it is valid; and if it is
    not, the answer is an error and what the caller's string held before is gone.
    [write_fmt] offers the writer the whole text again after a partial write: a
    writer that takes a byte at a time is given the first byte over and over, and
    the answer is [Ok].  [lines] and [read_line] panic (debug assertions) when the
    reader fails after part of a valid line.  [bytes] answers [Pending] to an
    interrupted read, without having used the waker. *)
Theorem io_faults `{ReaderLaws U, ReserveLaws} `{BufReaderLaws X} `{AsyncRead Y} `{MemchrLaws} (b : byte) (s ws : bytes) (n : nat)
    (this : Lines X) (reader : X) (part : bytes) (read : N) (z z' : Y) (e : Error) (w : list CxEvent) :
    (N.of_nat (S (length s)) < usize_modulus)%N → kind e = Interrupted →
    (∀ (x : U) (old bs : bytes) (cap : nat), contents x bs →
      promises (read_to_string x (mkVecBuf old cap)) (λ r this,
        match r with
        | Ok n => n = length bs ∧ utf8_valid (old ++ bs) = true ∧ rts_string this = old ++ bs
        | Err e => kind e ≠ Interrupted ∧ (∃ out, out `prefix_of` bs ∧ string_or_lost old out this) ∧
            (prompt_reads U → e = invalid_utf8 ∧ utf8_valid (old ++ bs) = false ∧ rts_string this = [])
        end)) ∧
    (∃ this', resolves (write_fmt (mkDribble 1 ws) (Ok (b :: s))) (Ok ()) this' ∧
       dribbled (wfm_writer this') = ws ++ replicate (S (length s)) b) ∧
    (read_until_internal n (lines_reader this) newline (lines_bytes this) (lines_read this) =
       Done ((Ready (Err e), reader, part, read), w) → utf8_valid part = true → read ≠ 0%N →
     Lines_poll_next n this = Panic) ∧
    (poll_read n 1 z = Done ((Ready (Err e), z'), w) → poll_next n (mkBytes z) = Done ((Pending, mkBytes z'), w)).
Proof.
  intros Hlt He. split_and!.
  - intros x old bs cap. apply read_to_string_outcomes.
  - destruct (write_fmt_dribbles b s ws (S (length s)) 0) as [m Hm]; [lia|done|]. rewrite app_nil_r in Hm.
    match type of Hm with _ = Done ((_, ?t), _) => exists t end. split; [|done]. eapply (until_ready_now _ m).
    unfold poll, WriteFmtFuture_Future, WriteFmtFuture_poll. cbn [write_fmt wfm_buffer wfm_res wfm_writer wfm_amt].
    rewrite unwrap_Some, eff_bind_ret. exact Hm.
  - intros Hu Hv Hr. unfold Lines_poll_next, read_line_internal. rewrite Hu.
    unfold mbind, eff_mbind, eff_bind. lazy beta iota zeta. rewrite Hv. simpl.
    rewrite (proj2 (N.eqb_neq read 0)), andb_false_r by done. done.
  - intros Hz. change (Bytes_poll_next n (mkBytes z) = Done ((Pending, mkBytes z'), w)). unfold Bytes_poll_next.
    eapply eff_bind_pure; [exact Hz|]. lazy beta iota zeta. by rewrite bool_decide_eq_true_2.
Qed.

(** * The theorems at concrete inputs *)

#[local] Instance first_index : Memchr := λ b l, fst <$> list_find (b =.) l.
#[local] Instance first_index_laws : MemchrLaws.
Proof.
  intros b l. unfold memchr, first_index. destruct (list_find (b =.) l) as [[i a]|] eqn:Hf; simpl.
  - apply list_find_Some in Hf as (Hl & -> & Hn). split; [done|]. intros (j & Hj)%list_elem_of_lookup.
    apply lookup_take_Some in Hj as [Hj Hlt]. by eapply Hn.
  - apply list_find_None in Hf. intros (j & Hj)%list_elem_of_lookup. by apply (Forall_lookup_1 _ _ _ _ Hf Hj).
Qed.
#[local] Instance exact_reserve : Reserve := λ additional v, (length (vec_bytes v) + additional) `max` vec_capacity v.
#[local] Instance exact_reserve_laws : ReserveLaws.
Proof. intros additional v. unfold reserve, exact_reserve. lia. Qed.

Definition text : bytes := [x61; x62; x0d; x0a; x63; x0a].

Lemma text_contents : contents (Cursor_new text) text.
Proof. split_and!; [vm_compute; done|vm_compute; done|reflexivity]. Qed.

Lemma empty_contents : contents mkEmpty [].
Proof. reflexivity. Qed.
Lemma dribble_accepted k bs : accepted (mkDribble k bs) bs.
Proof. reflexivity. Qed.

Lemma readers_transparent_witness :
  reads_exactly (mkChain (Cursor_new text) mkEmpty false) text.
Proof.
  destruct (readers_transparent (Cursor_new text) mkEmpty text [] text 3 1 2 text_contents empty_contents) as (_ & _ & _ & [_ H] & _);
    [lia|vm_compute; split; [discriminate|reflexivity]|exact H].
Defined.

Lemma writers_deliver_witness :
  promises (copy (Cursor_new text) (BufWriter_with_capacity 4 (mkDribble 2 [x7a]))) (λ r this,
    (∃ out, out `prefix_of` text ∧ accepted (copy_writer this) ([x7a] ++ out)) ∧
    ∀ n, r = Ok n → n = 6%N ∧ dribbled (bw_inner (copy_writer this)) = x7a :: text ∧
      contents (mkCursor (x7a :: text) 1) text).
Proof.
  apply (writers_deliver (Cursor_new text) (mkDribble 2 [x7a]) text [x7a] 4 text_contents (dribble_accepted 2 _)).
  vm_compute. reflexivity.
Defined.

Lemma lines_roundtrip_witness :
  yields (lines (BufReader_with_capacity 2 (Cursor_new text))) [Ok [x61; x62]; Ok [x63]].
Proof.
  apply (lines_roundtrip (Cursor_new text) [([x61; x62], true); ([x63], false)] x0a text 2);
    [lia| |vm_compute; reflexivity|vm_compute; reflexivity|apply text_contents|apply Cursor_prompt].
  apply list.Forall_cons_2; [|apply list.Forall_cons_2; [|constructor]]; split_and!;
    first [reflexivity | discriminate | by apply (bool_decide_unpack _); vm_compute | by intros].
Defined.

Lemma bufreader_seek_bounds_witness :
  ∃ this', BufReader_poll_seek 0 (SeekCurrent (-1)) (mkBufReader (mkCursor text 4) (take 4 text) 2 4) =
    Done ((Ready (Ok 1%N), this'), []) ∧ contents this' (drop 1 text).
Proof.
  destruct (bufreader_seek_bounds 0 (SeekCurrent (-1)) (mkBufReader (mkCursor text 4) (take 4 text) 2 4) text 2)
    as (r & this' & Hs & [-> Hat] & Hc); [split; simpl; [done|lia|done|done|done]|done|].
  exists this'. split; [exact Hs|]. apply (Hc _ Hat). vm_compute in Hs. injection Hs as <-. simpl. lia.
Defined.

Lemma io_faults_witness :
  (∃ this', resolves (write_fmt (mkDribble 1 []) (Ok [x61; x62; x63])) (Ok ()) this' ∧
    dribbled (wfm_writer this') = [x61; x61; x61]) ∧
  promises (read_to_string (Cursor_new text) (mkVecBuf [xff] 8)) (λ r this, r = Err invalid_utf8 ∧ rts_string this = []).
Proof.
  destruct (io_faults (U:=Cursor) (X:=Cursor) (Y:=Cursor) x61 [x62; x63] [] 0 (lines (Cursor_new text)) (Cursor_new text) [] 0
    (Cursor_new []) (Cursor_new []) (error_of Interrupted) []) as (Hs & Hf & _); [vm_compute; reflexivity|reflexivity|].
  split; [exact Hf|]. eapply promises_mono; [exact (Hs (Cursor_new text) [xff] text 8 text_contents)|].
  intros [k|e] this; [by intros (_ & Hv & _)|]. intros (_ & _ & Hp). destruct (Hp (proj2 Cursor_prompt)) as (-> & _ & Hr).
  split; [reflexivity|exact Hr].
Defined.
