(* ===== verification/File.v ===== *)
(** Files (src/src/fs/file.rs): the state behind the lock of a [File], the
    operations that poll it, the blocking jobs they hand the lock guard to, the
    lock itself, and who owns the file when its descriptor is taken. *)

From stdpp Require Import strings relations.
From Stdlib Require Import Strings.Byte.
From S2P Require Import Prelude Async Io IoRead.
Local Open Scope async_scope.

(** * [std::fs::File] *)

(** What the code calls of it.  What it does in a call, and whether it fails, is
    up to its state, which stands for the operating system too. *)
Class OsFile (F : Type) : Type := {
  os_read : nat → F → Result bytes Error * F;
  os_write_all : bytes → F → Result () Error * F;
  os_flush : F → Result () Error * F;
  os_seek : SeekFrom → F → Result N Error * F;
  os_sync_all : F → Result () Error * F;
  os_sync_data : F → Result () Error * F;
  os_set_len : N → F → Result () Error * F
}.
#[global] Hint Mode OsFile ! : typeclass_instances.

(** [bs] written over [data] from the position [pos] on; a gap is filled with
    zeros. *)
Definition overwrite (data : bytes) (pos : nat) (bs : bytes) : bytes :=
  if bool_decide (bs = []) then data
  else take pos (data ++ replicate (pos - length data) x00) ++ bs ++ drop (pos + length bs) data.

(** * The state *)

Inductive Mode : Type :=
| Idle
| Reading (start : nat)
| Writing.

(** [capacity] is that of the vector [cache]. *)
Record State (F : Type) : Type := mkState {
  file : F;
  mode : Mode;
  cache : bytes;
  capacity : nat;
  is_flushed : bool;
  last_read_err : option Error;
  last_write_err : option Error
}.
Arguments mkState {F}.
Arguments file {F}.
Arguments mode {F}.
Arguments cache {F}.
Arguments capacity {F}.
Arguments is_flushed {F}.
Arguments last_read_err {F}.
Arguments last_write_err {F}.

(** The closures given to [spawn_blocking], which own the lock guard. *)
Inductive Job : Type :=
| ReadJob
| DrainJob
| FlushJob
| SyncAllJob
| SyncDataJob
| SetLenJob (size : N).
#[global] Instance Job_eq_dec : EqDecision Job.
Proof. solve_decision. Defined.

(** How a method of the guard ends: with a value, the guard being returned or
    dropped; with [Pending], the guard having moved into a job; or with
    [Pending] and the guard dropped. *)
Inductive Turn (F A : Type) : Type :=
| Answer (r : Result A Error) (st : State F)
| Spawn (job : Job) (st : State F)
| Waits (st : State F).
Arguments Answer {F A}.
Arguments Spawn {F A}.
Arguments Waits {F A}.

(** [futures_core::ready!(..)?], with the code that follows. *)
Definition ready_ok {F A B : Type} (m : Outcome (Turn F A)) (k : A → State F → Outcome (Turn F B)) :
    Outcome (Turn F B) :=
  match m with
  | Done (Answer (Ok a) st) => k a st
  | Done (Answer (Err e) st) => Done (Answer (Err e) st)
  | Done (Spawn job st) => Done (Spawn job st)
  | Done (Waits st) => Done (Waits st)
  | Panic => Panic
  | OutOfFuel => OutOfFuel
  end.

Section State.
Context {F : Type} `{OsFile F} `{Reserve}.
Implicit Types (st : State F).

Definition set_file (f : F) st : State F :=
  mkState f (mode st) (cache st) (capacity st) (is_flushed st) (last_read_err st) (last_write_err st).
Definition set_mode (m : Mode) st : State F :=
  mkState (file st) m (cache st) (capacity st) (is_flushed st) (last_read_err st) (last_write_err st).
Definition set_cache (c : bytes) (cap : nat) st : State F :=
  mkState (file st) (mode st) c cap (is_flushed st) (last_read_err st) (last_write_err st).
Definition set_flushed (b : bool) st : State F :=
  mkState (file st) (mode st) (cache st) (capacity st) b (last_read_err st) (last_write_err st).
Definition set_read_err (e : option Error) st : State F :=
  mkState (file st) (mode st) (cache st) (capacity st) (is_flushed st) e (last_write_err st).
Definition set_write_err (e : option Error) st : State F :=
  mkState (file st) (mode st) (cache st) (capacity st) (is_flushed st) (last_read_err st) e.

Definition State_new (f : F) (is_flushed : bool) : State F := mkState f Idle [] 0 is_flushed None None.

(** ** Unreading, draining, flushing *)

Definition poll_unread st : Outcome (Turn F ()) :=
  match mode st with
  | Idle | Writing => Done (Answer (Ok ()) st)
  | Reading start =>
      if start <=? length (cache st) then
        let n := length (cache st) - start in
        let st := if 0 <? n then set_file (snd (os_seek (SeekCurrent (- Z.of_nat n)) (file st))) st else st in
        Done (Answer (Ok ()) (set_mode Idle (set_cache [] (capacity st) st)))
      else Panic
  end.

Definition poll_drain st : Outcome (Turn F ()) :=
  match last_write_err st with
  | Some err => Done (Answer (Err err) (set_write_err None st))
  | None =>
      match mode st with
      | Idle | Reading _ => Done (Answer (Ok ()) st)
      | Writing => Done (Spawn DrainJob st)
      end
  end.

Definition poll_flush st : Outcome (Turn F ()) :=
  if is_flushed st then Done (Answer (Ok ()) st)
  else ready_ok (poll_drain st) (λ _ st, Done (Spawn FlushJob st)).

(** ** Seeking *)

(** [a - b] of unsigned 64-bit numbers. *)
Definition u64_sub (a b : N) : Outcome N := if (b <=? a)%N then Done (a - b)%N else Panic.
Definition u64_add (a b : N) : Outcome N := if (a + b <? usize_modulus)%N then Done (a + b)%N else Panic.

Definition answer_at (r : Outcome N) st : Outcome (Turn F N) :=
  match r with
  | Done n => Done (Answer (Ok n) st)
  | Panic => Panic
  | OutOfFuel => OutOfFuel
  end.

(** [internal - self.cache.len() as u64 + start as u64]. *)
Definition position_in (internal : N) (start : nat) st : Outcome N :=
  match u64_sub internal (N.of_nat (length (cache st))) with
  | Done n => u64_add n (N.of_nat start)
  | Panic => Panic
  | OutOfFuel => OutOfFuel
  end.

(** [(&*self.file).seek(SeekFrom::Current(0))?], with the code that follows. *)
Definition with_internal st (k : N → State F → Outcome (Turn F N)) : Outcome (Turn F N) :=
  let '(r, f) := os_seek (SeekCurrent 0) (file st) in
  match r with
  | Ok internal => k internal (set_file f st)
  | Err e => Done (Answer (Err e) (set_file f st))
  end.

(** Where in the cache a relative seek goes, if it stays there. *)
Definition cache_target (pos : SeekFrom) st : option nat :=
  match mode st, pos with
  | Reading start, SeekCurrent diff =>
      let new := (Z.of_nat start + diff)%Z in
      if bool_decide (i64_min ≤ new ≤ i64_max)%Z && bool_decide (0 ≤ new ≤ Z.of_nat (length (cache st)))%Z
      then Some (Z.to_nat new) else None
  | _, _ => None
  end.

Definition State_poll_seek (pos : SeekFrom) st : Outcome (Turn F N) :=
  if bool_decide (pos = SeekCurrent 0) then
    with_internal st (λ internal st,
      answer_at
        match mode st with
        | Idle => Done internal
        | Reading start => position_in internal start st
        | Writing => u64_add internal (N.of_nat (length (cache st)))
        end st)
  else
    match cache_target pos st with
    | Some new =>
        with_internal st (λ internal st, answer_at (position_in internal new st) (set_mode (Reading new) st))
    | None =>
        ready_ok (poll_unread st) (λ _ st,
          ready_ok (poll_flush st) (λ _ st,
            let '(r, f) := os_seek pos (file st) in Done (Answer r (set_file f st))))
    end.

(** ** Reading and writing *)

(** The vector made [n] bytes long; bytes that were not there are unspecified. *)
Definition resized (n : nat) (c : bytes) : bytes := take n c ++ replicate (n - length c) x00.

Definition start_read (n : nat) st : Outcome (Turn F bytes) :=
  let cap := if length (cache st) <? n then reserve (n - length (cache st)) (mkVecBuf (cache st) (capacity st))
             else capacity st in
  Done (Spawn ReadJob (set_cache (resized n (cache st)) cap st)).

(** [n] is the length of [buf].  The copy panics unless the range [start..n] of
    the cache is as long as [buf[..n]]. *)
Definition State_poll_read (n : nat) st : Outcome (Turn F bytes) :=
  match last_read_err st with
  | Some err => Done (Answer (Err err) (set_read_err None st))
  | None =>
      match mode st with
      | Idle => start_read n st
      | Reading start =>
          if start <=? length (cache st) then
            let available := length (cache st) - start in
            if (0 <? available) || (length (cache st) =? 0) then
              let k := available `min` n in
              if (start <=? k) && (k <=? length (cache st)) && (k - start =? k) then
                Done (Answer (Ok (take (k - start) (drop start (cache st)))) (set_mode (Reading (start + k)) st))
              else Panic
            else start_read n st
          else Panic
      | Writing => ready_ok (poll_flush st) (λ _ st, start_read n st)
      end
  end.

Definition State_poll_write (buf : bytes) st : Outcome (Turn F nat) :=
  match last_write_err st with
  | Some err => Done (Answer (Err err) (set_write_err None st))
  | None =>
      ready_ok (poll_unread st) (λ _ st,
        let cap := if capacity st <? length buf
                   then reserve (length buf - capacity st) (mkVecBuf (cache st) (capacity st)) else capacity st in
        let st := set_cache (cache st) cap st in
        if length (cache st) <=? cap then
          let available := cap - length (cache st) in
          if (0 <? available) || bool_decide (buf = []) then
            let k := available `min` length buf in
            Done (Answer (Ok k) (set_mode Writing (set_flushed false (set_cache (cache st ++ take k buf) cap st))))
          else ready_ok (poll_drain st) (λ _ st, Done (Waits st))
        else Panic)
  end.
Definition State_poll_flush st : Outcome (Turn F ()) := poll_flush st.
Definition State_poll_close st : Outcome (Turn F ()) := Done (Answer (Ok ()) st).

(** [sync_all], [sync_data] and [set_len] up to their [spawn_blocking], which the
    guard moves into. *)
Definition State_sync_all st : Outcome (Turn F ()) := ready_ok (poll_flush st) (λ _ st, Done (Spawn SyncAllJob st)).
Definition State_sync_data st : Outcome (Turn F ()) := ready_ok (poll_flush st) (λ _ st, Done (Spawn SyncDataJob st)).
Definition State_set_len (size : N) st : Outcome (Turn F ()) :=
  ready_ok (poll_unread st) (λ _ st, ready_ok (poll_flush st) (λ _ st, Done (Spawn (SetLenJob size) st))).

(** ** The jobs *)

Definition run_job (job : Job) st : Result () Error * State F :=
  match job with
  | ReadJob =>
      let '(res, f) := os_read (length (cache st)) (file st) in
      let st := set_file f st in
      match res with
      | Ok b => (Ok (), set_mode (Reading 0) (set_cache b (capacity st) st))
      | Err err => (Ok (), set_read_err (Some err) (set_mode Idle (set_cache [] (capacity st) st)))
      end
  | DrainJob =>
      let '(res, f) := os_write_all (cache st) (file st) in
      let st := set_file f st in
      match res with
      | Ok _ => (Ok (), set_mode Idle (set_cache [] (capacity st) st))
      | Err err => (Ok (), set_write_err (Some err) st)
      end
  | FlushJob =>
      let '(res, f) := os_flush (file st) in
      let st := set_file f st in
      match res with
      | Ok _ => (Ok (), set_flushed true st)
      | Err err => (Ok (), set_write_err (Some err) st)
      end
  | SyncAllJob => let '(res, f) := os_sync_all (file st) in (res, set_file f st)
  | SyncDataJob => let '(res, f) := os_sync_data (file st) in (res, set_file f st)
  | SetLenJob size => let '(res, f) := os_set_len size (file st) in (res, set_file f st)
  end.
End State.

(** * The lock *)

(** [running] is the job that owns the guard, while there is one; [joiner] the task
    that awaits its handle; [lock_wakers] the tasks registered, by their number. *)
Record File (F : Type) : Type := mkFile {
  locked : bool;
  value : State F;
  lock_wakers : list nat;
  running : option Job;
  joiner : option nat
}.
Arguments mkFile {F}.
Arguments locked {F}.
Arguments value {F}.
Arguments lock_wakers {F}.
Arguments running {F}.
Arguments joiner {F}.

Section Lock.
Context {F : Type} `{OsFile F} `{Reserve}.
Implicit Types (this : File F) (st : State F) (cx : nat).

Definition File_new (f : F) (is_flushed : bool) : File F := mkFile false (State_new f is_flushed) [] None None.
(** [open], [create] and [from], once [std::fs::File] has been made. *)
Definition File_open (r : Result F Error) (msg : string) : Result (File F) Error :=
  match io_context r msg with
  | Ok f => Ok (File_new f true)
  | Err e => Err e
  end.
Definition File_from (f : F) : File F := File_new f false.

(** A waker is pushed unless it is in the list already. *)
Definition push_waker cx (l : list nat) : list nat := if bool_decide (cx ∈ l) then l else l ++ [cx].

(** [LockGuard::drop]: the lock is free, and everybody registered is woken.  The code
    stores [false] before it locks the list and drains it; a task that polls in between
    takes the lock, or, if another was faster, pushes its waker and is woken by this
    drain or by that of the other: it never waits with nobody to wake it. *)
Definition unlock (st : State F) this : File F * list nat :=
  (mkFile false st [] None (joiner this), lock_wakers this).

(** Jobs of [poll_read], [poll_drain] and [poll_flush] are preceded by [register];
    the others are awaited by their handle. *)
Definition registers (job : Job) : bool :=
  match job with ReadJob | DrainJob | FlushJob => true | _ => false end.

(** [ready!(self.lock.poll_lock(cx))], then the operation [op] on the state; the
    answer, and the tasks woken.  The two attempts of [poll_lock] are one here: the
    second is made with the list of wakers locked. *)
Definition with_lock {A : Type} cx (op : State F → Outcome (Turn F A)) this :
    Outcome (Poll (Result A Error) * File F * list nat) :=
  if locked this then
    Done (Pending, mkFile true (value this) (push_waker cx (lock_wakers this)) (running this) (joiner this), [])
  else
    match op (value this) with
    | Done (Answer r st) => let '(this, woken) := unlock st this in Done (Ready r, this, woken)
    | Done (Waits st) => let '(this, woken) := unlock st this in Done (Pending, this, woken)
    | Done (Spawn job st) =>
        if registers job
        then Done (Pending, mkFile true st (push_waker cx (lock_wakers this)) (Some job) (joiner this), [])
        else Done (Pending, mkFile true st (lock_wakers this) (Some job) (Some cx), [])
    | Panic => Panic
    | OutOfFuel => OutOfFuel
    end.

Definition File_poll_read cx (n : nat) := with_lock cx (State_poll_read n).
Definition File_poll_write cx (buf : bytes) := with_lock cx (State_poll_write buf).
Definition File_poll_flush cx := with_lock cx State_poll_flush.
Definition File_poll_close cx := with_lock cx State_poll_close.
Definition File_poll_seek cx (pos : SeekFrom) := with_lock cx (State_poll_seek pos).
(** The first part of [sync_all], [sync_data], [set_len], awaited until it is ready
    or its job runs; the answer is then that of [complete]. *)
Definition File_sync_all cx := with_lock cx State_sync_all.
Definition File_sync_data cx := with_lock cx State_sync_data.
Definition File_set_len cx (size : N) := with_lock cx (State_set_len size).

(** A thread of the pool runs the job to its end, where it drops the guard: what
    its handle gives, and the tasks woken. *)
Definition complete this : option (Result () Error * File F * list nat) :=
  match running this with
  | Some job =>
      let '(r, st) := run_job job (value this) in
      let '(this', woken) := unlock st this in
      Some (r, mkFile (locked this') (value this') (lock_wakers this') (running this') None,
        woken ++ option_list (joiner this))
  | None => None
  end.

(** [File::drop]: [block_on(self.flush())], whose error is ignored.  Between two
    polls the thread sleeps until the job that has the lock is done.  A poll for no
    reason before that finds the lock taken, and leaves all but the list of wakers as
    it is (FileSpec.poll_while_locked). *)
Fixpoint File_drop (fuel : nat) cx this : Outcome (File F) :=
  match fuel with
  | O => OutOfFuel
  | S fuel =>
      match File_poll_flush cx this with
      | Done (Ready _, this, _) => Done this
      | Done (Pending, this, _) =>
          match complete this with
          | Some (_, this, _) => File_drop fuel cx this
          | None => OutOfFuel
          end
      | Panic => Panic
      | OutOfFuel => OutOfFuel
      end
  end.
End Lock.

(** * Who owns a file *)

(** Raw descriptors, and the descriptor of the file of std. *)
Class RawFile (F Fd : Type) : Type := {
  raw_fd : F → Fd;
  from_fd : Fd → F
}.

(** Where the owner of the [File] is: it uses it, or is in [into_raw_fd], which takes
    another [Arc] of the file, flushes the [File] and drops its fields, and unwraps
    the [Arc]. *)
Inductive Owner (Fd : Type) : Type :=
| Using
| Flushing           (* in [block_on(self.flush())] of [drop] *)
| DropFile           (* about to drop the field [file] *)
| DropLock           (* about to drop the field [lock] *)
| Unwrapping         (* at [Arc::try_unwrap] *)
| Returned (fd : Fd)
| Panicked.
Arguments Using {Fd}.
Arguments Flushing {Fd}.
Arguments DropFile {Fd}.
Arguments DropLock {Fd}.
Arguments Unwrapping {Fd}.
Arguments Returned {Fd}.
Arguments Panicked {Fd}.

Section Handles.
Context {F Fd : Type} `{OsFile F} `{Reserve} `{RawFile F Fd}.

Definition File_as_raw_fd (this : File F) : Fd := raw_fd (file (value this)).
Definition File_from_raw_fd (fd : Fd) : File F := File_from (from_fd fd).

(** A [File] with the counts of its two [Arc]s: [file_arc] of the file, of which
    [State] has one, and [lock_arc] of the state behind the lock.  [clones] are the
    closures of [metadata] and [set_permissions] that run, each with an [Arc] of the
    file; [ending] the threads of the pool that have dropped their guard so far that
    the lock is free and the tasks are woken, and have its [Arc] still. *)
Record Handles : Type := mkHandles {
  the_file : File F;
  file_arc : nat;
  lock_arc : nat;
  clones : nat;
  ending : nat;
  owner : Owner Fd
}.
Implicit Types (h : Handles) (this : File F).

Definition set_owner (o : Owner Fd) h : Handles :=
  mkHandles (the_file h) (file_arc h) (lock_arc h) (clones h) (ending h) o.
Definition set_arcs (nf nl : nat) h : Handles :=
  mkHandles (the_file h) nf nl (clones h) (ending h) (owner h).

(** [File::new] *)
Definition Handles_new (this : File F) : Handles := mkHandles this 2 1 0 0 Using.

(** The drop of an [Arc] of the state, which is dropped with its [Arc] of the file when
    it was the last one. *)
Definition drop_lock_arc h : Handles :=
  if lock_arc h =? 1 then set_arcs (file_arc h - 1) 0 h else set_arcs (file_arc h) (lock_arc h - 1) h.

(** A poll of the file; if it starts a job, the job has the guard with its [Arc] from
    then on, and otherwise the guard is gone again. *)
Definition polled {A : Type} (m : Outcome (Poll (Result A Error) * File F * list nat)) h : option (bool * Handles) :=
  match m with
  | Done (p, this, _) =>
      let started := match running (the_file h), running this with None, Some _ => 1 | _, _ => 0 end in
      Some (if p is Pending then false else true,
        mkHandles this (file_arc h) (lock_arc h + started) (clones h) (ending h) (owner h))
  | _ => None
  end.

(** What [into_raw_fd] does next; [cx] is the waker of [block_on]. *)
Definition into_raw_fd_step (cx : nat) h : option Handles :=
  match owner h with
  | Using => Some (set_owner Flushing (set_arcs (file_arc h + 1) (lock_arc h) h))
  | Flushing =>
      '(ready, h) ← polled (File_poll_flush cx (the_file h)) h;
      Some (if ready : bool then set_owner DropFile h else h)
  | DropFile => Some (set_owner DropLock (set_arcs (file_arc h - 1) (lock_arc h) h))
  | DropLock => Some (set_owner Unwrapping (drop_lock_arc h))
  | Unwrapping =>
      Some (if file_arc h =? 1 then set_owner (Returned (File_as_raw_fd (the_file h))) h
            else set_owner Panicked (set_arcs (file_arc h - 1) (lock_arc h) h))
  | Returned _ | Panicked => None
  end.

(** The other threads and what they do. *)
Inductive handles_step : Handles → Handles → Prop :=
| handles_poll (A : Type) cx (op : State F → Outcome (Turn F A)) h b h' :   (* the owner polls *)
    owner h = Using → polled (with_lock cx op (the_file h)) h = Some (b, h') → handles_step h h'
| handles_clone h :                                (* a closure is given to the pool *)
    owner h = Using →
    handles_step h (mkHandles (the_file h) (file_arc h + 1) (lock_arc h) (clones h + 1) (ending h) (owner h))
| handles_clone_ends h :
    0 < clones h →
    handles_step h (mkHandles (the_file h) (file_arc h - 1) (lock_arc h) (clones h - 1) (ending h) (owner h))
| handles_job h r this woken :                     (* a job ends and lets go of the lock *)
    complete (the_file h) = Some (r, this, woken) →
    handles_step h (mkHandles this (file_arc h) (lock_arc h) (clones h) (ending h + 1) (owner h))
| handles_job_ends h :                             (* and its guard is gone *)
    0 < ending h →
    handles_step h (drop_lock_arc
      (mkHandles (the_file h) (file_arc h) (lock_arc h) (clones h) (ending h - 1) (owner h)))
| handles_into cx h h' : into_raw_fd_step cx h = Some h' → handles_step h h'.

Definition handles_reachable (f : F) (is_flushed : bool) (h : Handles) : Prop :=
  rtc handles_step (Handles_new (File_new f is_flushed)) h.
End Handles.
