(* ===== verification/FileInv.v ===== *)
(** The state of a [File] as a file and a position: what the operations on the
    state and the jobs do to them, for any file system that keeps the laws of
    [OsFileLaws]. *)

From stdpp Require Import strings.
From Stdlib Require Import Strings.Byte.
From S2P Require Import Prelude Async Io IoRead File.
Local Open Scope async_scope.

(** * What is relied on *)

(** [os_at f data p]: the file holds [data], and the cursor is at [p].  Calls may
    fail, reads and failing writes be partial; seeking back to a place that exists
    succeeds (the files are seekable).  A write goes to where the cursor is, so that files
    opened to append are left out. *)
Class OsFileLaws (F : Type) `{OsFile F} : Type := {
  os_at : F → bytes → N → Prop;
  os_word (f : F) data p : os_at f data p → (Z.of_N p ≤ i64_max)%Z ∧ (Z.of_nat (length data) ≤ i64_max)%Z;
  os_read_spec n (f : F) data p r f' :
    os_at f data p → os_read n f = (r, f') →
    match r with
    | Ok b => b `prefix_of` drop (N.to_nat p) data ∧ length b ≤ n ∧
        (b = [] → n = 0 ∨ length data ≤ N.to_nat p) ∧ os_at f' data (p + N.of_nat (length b))
    | Err _ => os_at f' data p
    end;
  os_write_spec bs (f : F) data p r f' :
    os_at f data p → os_write_all bs f = (r, f') →
    match r with
    | Ok _ => os_at f' (overwrite data (N.to_nat p) bs) (p + N.of_nat (length bs))
    | Err _ => ∃ k, k ≤ length bs ∧ os_at f' (overwrite data (N.to_nat p) (take k bs)) (p + N.of_nat k)
    end;
  os_flush_spec (f : F) data p r f' : os_at f data p → os_flush f = (r, f') → os_at f' data p;
  os_seek_spec pos (f : F) data p r f' :
    os_at f data p → os_seek pos f = (r, f') →
    match r with
    | Ok t => Z.of_N t = seek_target pos p (N.of_nat (length data)) ∧ os_at f' data t
    | Err _ => os_at f' data p
    end;
  os_seek_back (f : F) data p k :
    os_at f data p → k ≤ N.to_nat p → ∃ f', os_seek (SeekCurrent (- Z.of_nat k)) f = (Ok (p - N.of_nat k)%N, f');
  os_sync_all_spec (f : F) data p r f' : os_at f data p → os_sync_all f = (r, f') → os_at f' data p;
  os_sync_data_spec (f : F) data p r f' : os_at f data p → os_sync_data f = (r, f') → os_at f' data p;
  os_set_len_spec size (f : F) data p r f' :
    os_at f data p → os_set_len size f = (r, f') →
    match r with
    | Ok _ => os_at f' (resized (N.to_nat size) data) p
    | Err _ => os_at f' data p
    end
}.
#[global] Hint Mode OsFileLaws ! - : typeclass_instances.

(** A vector is never longer than [isize::MAX]: [reserve] would abort. *)
Class ReserveBounded `{Reserve} : Prop :=
  reserve_bounded additional v :
    (Z.of_nat (length (vec_bytes v) + additional) ≤ i64_max)%Z → (Z.of_nat (vec_capacity v) ≤ i64_max)%Z →
    (Z.of_nat (reserve additional v) ≤ i64_max)%Z.

(** * Writing over bytes *)

Lemma overwrite_nil data p : overwrite data p [] = data.
Proof. done. Qed.

Lemma length_padded data p : length (take p (data ++ replicate (p - length data) x00)) = p.
Proof. rewrite length_take, length_app, length_replicate. lia. Qed.

Lemma overwrite_app data p a b : overwrite data p (a ++ b) = overwrite (overwrite data p a) (p + length a) b.
Proof.
  destruct a as [|x a]; [by rewrite overwrite_nil, Nat.add_0_r|]. destruct b as [|y b].
  { by rewrite app_nil_r, overwrite_nil. }
  remember (x :: a) as a' eqn:Ha. assert (a' ≠ []) as Hne by (by subst). clear x a Ha.
  remember (y :: b) as b' eqn:Hb. assert (b' ≠ []) as Hne' by (by subst). clear y b Hb.
  unfold overwrite. rewrite !bool_decide_eq_false_2 by (try done; by destruct a').
  set (pad := take p (data ++ replicate (p - length data) x00)).
  assert (length pad = p) as Hpad by apply length_padded.
  assert (p + length a' ≤ length (pad ++ a' ++ drop (p + length a') data)) as Hle.
  { rewrite !length_app, Hpad. lia. }
  rewrite (proj2 (Nat.sub_0_le _ _) Hle), app_nil_r, take_app_add', take_app_length by done.
  rewrite <- !app_assoc. do 3 f_equal. rewrite length_app.
  rewrite (drop_app_ge pad) by lia. rewrite drop_app_ge, drop_drop by lia. f_equal. lia.
Qed.

(** * The state as a file and a position *)

Section View.
Context {F : Type} `{OsFileLaws F} `{ReserveLaws} `{!ReserveBounded}.
Implicit Types (st : State F) (data d : bytes) (off p : N).

(** What the mode says of the cache: nothing is in it, or the bytes before the
    cursor, of which the user has had the first [start], or bytes to be written at
    the cursor. *)
Definition cached (m : Mode) (c : bytes) (flushed : bool) d p data off : Prop :=
  match m with
  | Idle => c = [] ∧ data = d ∧ off = p
  | Reading start =>
      start ≤ length c ∧ length c ≤ N.to_nat p ∧ c `prefix_of` drop (N.to_nat p - length c) d ∧
      (c = [] → length d ≤ N.to_nat p) ∧ data = d ∧ off = (p - N.of_nat (length c - start))%N
  | Writing => flushed = false ∧ data = overwrite d (N.to_nat p) c ∧ off = (p + N.of_nat (length c))%N
  end.

Definition capacity_ok st : Prop := length (cache st) ≤ capacity st ∧ (Z.of_nat (capacity st) ≤ i64_max)%Z.

(** The user sees a file that holds [data], at the position [off]. *)
Definition view st data off : Prop :=
  capacity_ok st ∧ ∃ d p, os_at (file st) d p ∧ cached (mode st) (cache st) (is_flushed st) d p data off.

(** The state while a job has it. *)
Definition flight (job : Job) st data off : Prop :=
  match job with
  | ReadJob => capacity_ok st ∧ cache st ≠ [] ∧ mode st ≠ Writing ∧ os_at (file st) data off
  | DrainJob => view st data off ∧ mode st = Writing ∧ last_write_err st = None
  | FlushJob => view st data off ∧ mode st ≠ Writing
  | SyncAllJob | SyncDataJob => view st data off ∧ mode st ≠ Writing ∧ is_flushed st = true
  | SetLenJob _ => view st data off ∧ mode st = Idle ∧ is_flushed st = true
  end.

(** How a method ends, from a state seen as [data] at [off]. *)
Definition turn_meets {A : Type} (P : Result A Error → State F → Prop) data off (o : Outcome (Turn F A)) : Prop :=
  match o with
  | Done (Answer r st) => P r st
  | Done (Spawn job st) => flight job st data off
  | _ => False
  end.

Lemma ready_ok_meets {A B} (m : Outcome (Turn F A)) (k : A → State F → Outcome (Turn F B)) P Q data off :
  turn_meets P data off m → (∀ a st, P (Ok a) st → turn_meets Q data off (k a st)) →
  (∀ e st, P (Err e) st → Q (Err e) st) → turn_meets Q data off (ready_ok m k).
Proof. destruct m as [[[a|e] st|job st|st]| |]; simpl; intros HP Hk He; auto. Qed.

Lemma view_set_read_err e st data off : view st data off → view (set_read_err e st) data off.
Proof. done. Qed.
Lemma view_set_write_err e st data off : view st data off → view (set_write_err e st) data off.
Proof. done. Qed.

(** ** Unreading, draining, flushing *)

Lemma poll_unread_meets st data off :
  view st data off →
  turn_meets (λ r st', r = Ok () ∧ view st' data off ∧ (mode st' = Idle ∨ mode st' = Writing) ∧
    last_write_err st' = last_write_err st ∧ is_flushed st' = is_flushed st) data off (poll_unread st).
Proof.
  intros Hv. unfold poll_unread. destruct (mode st) as [|start|] eqn:Hm; simpl; [by auto 10| |by auto 10].
  pose proof Hv as [[Hc Hb] (d & p & Hat & Hcache)]. rewrite Hm in Hcache.
  destruct Hcache as (Hs & Hp & Hpre & Hend & -> & ->). destruct (Nat.leb_spec start (length (cache st))); [|lia].
  set (st1 := if 0 <? length (cache st) - start then _ else st).
  assert (os_at (file st1) d (p - N.of_nat (length (cache st) - start)) ∧ capacity st1 = capacity st ∧
    last_write_err st1 = last_write_err st ∧ is_flushed st1 = is_flushed st) as (Hat' & Hc' & Hl & Hf).
  { subst st1. destruct (Nat.ltb_spec 0 (length (cache st) - start)).
    - destruct (os_seek_back (file st) d p (length (cache st) - start) Hat ltac:(lia)) as (f' & Hf').
      rewrite Hf'. simpl. split; [|done]. by apply (os_seek_spec _ _ _ _ _ _ Hat Hf').
    - replace (length (cache st) - start) with 0 by lia. by rewrite N.sub_0_r. }
  simpl. split_and!; [done| |by left|done|done].
  split; [split; simpl; [lia|by rewrite Hc']|]. by exists d, (p - N.of_nat (length (cache st) - start))%N.
Qed.

Lemma poll_drain_meets st data off :
  view st data off →
  turn_meets (λ r st', view st' data off ∧ is_flushed st' = is_flushed st ∧
    ∀ u, r = Ok u → st' = st ∧ mode st ≠ Writing ∧ last_write_err st = None) data off (poll_drain st).
Proof.
  intros Hv. unfold poll_drain. destruct (last_write_err st) eqn:He; simpl; [by split_and!|].
  by destruct (mode st) eqn:Hm; simpl; split_and!.
Qed.

(** A file that has been flushed holds what its user sees. *)
Definition settled_at st data off : Prop := is_flushed st = true ∧ view st data off.

Lemma settled_not_writing st data off : settled_at st data off → mode st ≠ Writing.
Proof. intros [Hf [_ (d & p & _ & Hc)]] Hm. rewrite Hm in Hc. destruct Hc as [Hf' _]. congruence. Qed.

Lemma poll_flush_meets st data off :
  view st data off →
  turn_meets (λ r st', view st' data off ∧ ∀ u, r = Ok u → st' = st ∧ is_flushed st = true) data off (poll_flush st).
Proof.
  intros Hv. unfold poll_flush. destruct (is_flushed st) eqn:Hf; [by split|].
  eapply ready_ok_meets; [by apply poll_drain_meets| |].
  - intros u st' (Hv' & _ & Hok). destruct (Hok u eq_refl) as (-> & Hm & _). by split.
  - by intros e st' (Hv' & _).
Qed.

(** Flushing, then a job that wants the file flushed. *)
Lemma flush_then_meets {A} (k : () → State F → Outcome (Turn F A)) (Q : Result A Error → State F → Prop) st data off :
  view st data off → (settled_at st data off → turn_meets Q data off (k () st)) →
  (∀ e st, view st data off → Q (Err e) st) → turn_meets Q data off (ready_ok (poll_flush st) k).
Proof.
  intros Hv Hk He. eapply ready_ok_meets; [by apply poll_flush_meets| |].
  - intros [] st' [Hv' Hok]. destruct (Hok () eq_refl) as [-> Hf]. by apply Hk.
  - intros e st' [Hv' _]. by apply He.
Qed.

(** ** Seeking *)

Lemma word_add a b : (Z.of_N a ≤ i64_max)%Z → (Z.of_N b ≤ i64_max)%Z → u64_add a b = Done (a + b)%N.
Proof. intros Ha Hb. unfold u64_add. rewrite (proj2 (N.ltb_lt _ _)); [done|]. 
  change i64_max with 9223372036854775807%Z in *. change usize_modulus with 18446744073709551616%N. lia. Qed.

Lemma position_in_cache st p start :
  (Z.of_N p ≤ i64_max)%Z → length (cache st) ≤ N.to_nat p → start ≤ length (cache st) →
  position_in p start st = Done (p - N.of_nat (length (cache st) - start))%N.
Proof.
  intros Hp Hl Hs. unfold position_in, u64_sub. rewrite (proj2 (N.leb_le _ _)) by lia.
  rewrite word_add by lia. f_equal. lia.
Qed.

(** Asking the cursor where it is. *)
Lemma with_internal_meets st data off (k : N → State F → Outcome (Turn F N)) Q :
  view st data off →
  (∀ d p f, os_at f d p → cached (mode st) (cache st) (is_flushed st) d p data off →
     turn_meets Q data off (k p (set_file f st))) →
  turn_meets Q data off (with_internal st k).
Proof.
  intros [[Hc Hb] (d & p & Hat & Hcache)] Hk. unfold with_internal.
  destruct (os_seek_back (file st) d p 0 Hat ltac:(lia)) as (f & Hf).
  change (- Z.of_nat 0)%Z with 0%Z in Hf. rewrite Hf, N.sub_0_r. apply (Hk d p f); [|done].
  pose proof (os_seek_spec _ _ _ _ _ _ Hat Hf) as [_ Hat']. by rewrite N.sub_0_r in Hat'.
Qed.

Definition seek_meets pos data off (r : Result N Error) st : Prop :=
  match r with
  | Ok t => Z.of_N t = seek_target pos off (N.of_nat (length data)) ∧ view st data t
  | Err _ => view st data off
  end.

Lemma State_poll_seek_meets pos st data off :
  view st data off → turn_meets (seek_meets pos data off) data off (State_poll_seek pos st).
Proof.
  intros Hv. pose proof Hv as [[Hc Hb] _]. unfold State_poll_seek. case_bool_decide as Hpos.
  - subst pos. apply with_internal_meets; [done|]. intros d p f Hat Hcache. destruct (os_word _ _ _ Hat) as [Hp _].
    assert (∀ n st', n = off → view st' data off → turn_meets (seek_meets (SeekCurrent 0) data off) data off
      (answer_at (Done n) st')) as Hans by (intros ? ? -> ?; simpl; split; [lia|done]).
    assert (view (set_file f st) data off) as Hv' by (by split; [|exists d, p]).
    simpl. destruct (mode st) as [|start|] eqn:Hm; destruct Hcache as (H1' & H2' & H3').
    + by apply Hans.
    + destruct H3' as (_ & _ & _ & ->). rewrite position_in_cache by done. by apply Hans.
    + rewrite word_add by lia. by apply Hans.
  - destruct (cache_target pos st) as [new|] eqn:Ht.
    + unfold cache_target in Ht. destruct (mode st) as [|start|] eqn:Hm; [done| |done].
      destruct pos as [|?|diff]; [done..|]. case_bool_decide; [|done]. case_bool_decide as Hnew; [|done]. simpl in Ht.
      injection Ht as <-. apply with_internal_meets; [done|]. intros d p f Hat Hcache.
      destruct (os_word _ _ _ Hat) as [Hp _]. rewrite Hm in Hcache.
      destruct Hcache as (Hs & Hl & Hpre & Hend & -> & ->). rewrite position_in_cache by (simpl; lia).
      simpl. split; [lia|]. split; [by split|]. exists d, p. split; [done|]. simpl. split_and!; try done. lia.
    + eapply ready_ok_meets; [by apply poll_unread_meets| |by intros e st' (? & _)].
      intros [] st' (_ & Hv' & Hmode & _). eapply flush_then_meets; [done| |done].
      intros Hst. pose proof (settled_not_writing _ _ _ Hst) as Hnw. destruct Hst as [Hf [Hcap (d & p & Hat & Hcache)]].
      destruct Hmode as [Hm|]; [|done]. rewrite Hm in Hcache. destruct Hcache as (Hnil & -> & ->).
      destruct (os_seek pos (file st')) as [r f] eqn:Hseek. pose proof (os_seek_spec _ _ _ _ _ _ Hat Hseek) as Hs.
      destruct r as [t|e]; simpl.
      * destruct Hs as [Ht' Hat']. split; [done|]. split; [done|]. exists d, t. split; [done|]. simpl. by rewrite Hm.
      * split; [done|]. exists d, p. split; [done|]. simpl. by rewrite Hm.
Qed.

(** ** Reading *)

(** Part of the cache has been read, and part has not. *)
Definition midway st : bool :=
  match mode st with Reading start => (0 <? start) && (start <? length (cache st)) | _ => false end.

Lemma resized_length n (c : bytes) : length (resized n c) = n.
Proof. unfold resized. rewrite length_app, length_take, length_replicate. lia. Qed.

Lemma start_read_meets (Q : Result bytes Error → State F → Prop) n st data off :
  0 < n → (Z.of_nat n ≤ i64_max)%Z → capacity_ok st → mode st ≠ Writing → os_at (file st) data off →
  turn_meets Q data off (start_read n st).
Proof.
  intros Hn Hmax [Hc Hb] Hm Hat. unfold start_read. simpl. split_and!; [split|..]; simpl; [..|done|done].
  - rewrite resized_length. destruct (Nat.ltb_spec (length (cache st)) n); [|lia].
    destruct (reserve_spec (n - length (cache st)) (mkVecBuf (cache st) (capacity st))) as [Hr _]. simpl in Hr. lia.
  - destruct (Nat.ltb_spec (length (cache st)) n); [|done]. apply reserve_bounded; simpl; [lia|done].
  - intros Hnil. apply (f_equal length) in Hnil. rewrite resized_length in Hnil. simpl in Hnil. lia.
Qed.

Definition read_meets n data off (r : Result bytes Error) st : Prop :=
  match r with
  | Ok b => b `prefix_of` drop (N.to_nat off) data ∧ length b ≤ n ∧ (b = [] → length data ≤ N.to_nat off) ∧
      view st data (off + N.of_nat (length b))
  | Err _ => view st data off
  end.

Lemma State_poll_read_meets n st data off :
  0 < n → (Z.of_nat n ≤ i64_max)%Z → view st data off → (last_read_err st = None → midway st = false) →
  turn_meets (read_meets n data off) data off (State_poll_read n st).
Proof.
  intros Hn Hmax Hv Hmid. unfold State_poll_read. destruct (last_read_err st) as [e|]; [done|]. specialize (Hmid eq_refl).
  pose proof Hv as [Hcap (d & p & Hat & Hcache)]. destruct (mode st) as [|start|] eqn:Hm.
  - destruct Hcache as (_ & -> & ->). apply start_read_meets; [done..|by rewrite Hm|done].
  - unfold midway in Hmid. rewrite Hm in Hmid. destruct Hcache as (Hs & Hl & Hpre & Hend & -> & ->).
    destruct (Nat.leb_spec start (length (cache st))); [|lia].
    destruct (Nat.ltb_spec 0 (length (cache st) - start)) as [Hav|Hav]; simpl.
    + destruct (Nat.ltb_spec 0 start); [simpl in Hmid; apply Nat.ltb_ge in Hmid; lia|]. replace start with 0 in * by lia.
      rewrite !Nat.sub_0_r in *. destruct (Nat.leb_spec (length (cache st) `min` n) (length (cache st))); [|lia].
      rewrite Nat.eqb_refl. simpl. rewrite drop_0.
      assert (length (take (length (cache st) `min` n) (cache st)) = length (cache st) `min` n) as Hlen by (rewrite length_take; lia).
      destruct Hpre as [tl Htl]. rewrite Hlen. split_and!.
      * exists (drop (length (cache st) `min` n) (cache st) ++ tl). rewrite app_assoc, take_drop, <- Htl. f_equal. lia.
      * lia.
      * intros Hnil. rewrite Hnil in Hlen. simpl in Hlen. lia.
      * split; [by destruct Hcap|]. exists d, p. split; [done|]. simpl. split_and!; [lia|lia|by exists tl|done|done|lia].
    + destruct (Nat.eqb_spec (length (cache st)) 0) as [Hz|Hz].
      * apply nil_length_inv in Hz. rewrite Hz in *. simpl in *. replace start with 0 in * by lia. simpl.
        split_and!; [by apply prefix_nil|lia|intros _; rewrite N.sub_0_r; by apply Hend|].
        split; [exact Hcap|].
        exists d, p. split; [done|]. simpl. rewrite Hz. split_and!; simpl; [lia|lia|by apply prefix_nil|done|done|lia].
      * replace (length (cache st) - start) with 0 by lia. rewrite N.sub_0_r.
        apply start_read_meets; [done..|by rewrite Hm|done].
  - apply flush_then_meets; [done| |by intros e st'].
    intros Hst. by destruct (settled_not_writing _ _ _ Hst).
Qed.

(** ** Writing *)

Definition write_meets buf data off (r : Result nat Error) st : Prop :=
  match r with
  | Ok k => k ≤ length buf ∧ (k = 0 → buf = []) ∧
      view st (overwrite data (N.to_nat off) (take k buf)) (off + N.of_nat k)
  | Err _ => view st data off
  end.

(** Bytes added to the cache, in idle or writing mode. *)
Lemma view_extended st data off cap extra :
  view st data off → mode st = Idle ∨ mode st = Writing →
  length (cache st ++ extra) ≤ cap → (Z.of_nat cap ≤ i64_max)%Z →
  view (set_mode Writing (set_flushed false (set_cache (cache st ++ extra) cap st)))
    (overwrite data (N.to_nat off) extra) (off + N.of_nat (length extra)).
Proof.
  intros [_ (d & p & Hat & Hcache)] Hm Hle Hmax. split; [done|]. exists d, p. split; [done|]. simpl. split; [done|].
  destruct Hm as [Hm|Hm]; rewrite Hm in Hcache.
  - destruct Hcache as (-> & -> & ->). done.
  - destruct Hcache as (_ & -> & ->). rewrite overwrite_app, length_app. split; [f_equal; lia|lia].
Qed.

Lemma State_poll_write_meets buf st data off :
  (Z.of_nat (length buf) ≤ i64_max)%Z → view st data off →
  turn_meets (write_meets buf data off) data off (State_poll_write buf st).
Proof.
  intros Hmax Hv. unfold State_poll_write. destruct (last_write_err st) as [e|] eqn:Hlw; [done|].
  eapply ready_ok_meets; [by apply poll_unread_meets| |by intros e st' (? & _)].
  intros [] st' (_ & Hv' & Hmode & Hlw' & _). set (cap := if capacity st' <? length buf then _ else _).
  pose proof Hv' as [[Hc Hb] (d & p & Hat & Hcache)].
  assert (capacity st' ≤ cap ∧ (Z.of_nat cap ≤ i64_max)%Z ∧ (0 < length buf → 0 < cap)) as (Hge & Hle & Hroom).
  { subst cap. destruct (Nat.ltb_spec (capacity st') (length buf)); [|split_and!; [done|done|lia]].
    destruct (reserve_spec (length buf - capacity st') (mkVecBuf (cache st') (capacity st'))) as [Hr1 Hr2]. simpl in *.
    split_and!; [done|apply reserve_bounded; simpl; [lia|done]|lia]. }
  cbn [cache set_cache]. destruct (Nat.leb_spec (length (cache st')) cap); [|lia].
  destruct ((0 <? cap - length (cache st')) || bool_decide (buf = [])) eqn:Hav.
  - set (k := (cap - length (cache st')) `min` length buf). simpl.
    assert (length (take k buf) = k) as Hk by (rewrite length_take; lia).
    split_and!; [lia| |].
    + intros Hk0. apply orb_prop in Hav as [Hav%Nat.ltb_lt|Hav%bool_decide_eq_true]; [|done].
      apply nil_length_inv. lia.
    + pose proof (view_extended st' data off cap (take k buf) Hv' Hmode) as He. rewrite Hk in He.
      apply He; [rewrite length_app; lia|done].
  - apply orb_false_iff in Hav as [Hav%Nat.ltb_ge Hbuf%bool_decide_eq_false].
    destruct Hmode as [Hm|Hm].
    + rewrite Hm in Hcache. destruct Hcache as (Hnil & _). rewrite Hnil in *. simpl in *. destruct buf; [done|simpl in *; lia].
    + unfold poll_drain. simpl. rewrite Hlw', Hlw, Hm. simpl. split_and!; [|done|congruence]. split; [split; simpl; [lia|done]|].
      exists d, p. split; [done|]. simpl. by rewrite Hm in *.
Qed.

(** ** [sync_all], [sync_data], [set_len] *)

Lemma State_sync_meets st data off :
  view st data off →
  turn_meets (λ r st', ∃ e, r = Err e ∧ view st' data off) data off (State_sync_all st) ∧
  turn_meets (λ r st', ∃ e, r = Err e ∧ view st' data off) data off (State_sync_data st).
Proof.
  intros Hv. split; (apply flush_then_meets; [done| |by eauto]); intros Hst;
    (split_and!; [apply Hst|by apply (settled_not_writing _ _ _ Hst)|apply Hst]).
Qed.

Lemma State_set_len_meets size st data off :
  view st data off → turn_meets (λ r st', ∃ e, r = Err e ∧ view st' data off) data off (State_set_len size st).
Proof.
  intros Hv. eapply ready_ok_meets; [by apply poll_unread_meets| |by intros e st' (? & _)].
  intros [] st' (_ & Hv' & Hmode & _). apply flush_then_meets; [done| |by eauto].
  intros Hst. pose proof (settled_not_writing _ _ _ Hst) as Hnw. destruct Hst. destruct Hmode; [|done]. by split_and!.
Qed.

(** ** The jobs *)

(** What is seen once a job is done: the same, unless the size was set, or a write
    failed after [k] bytes, which will be written again behind themselves. *)
Definition after_job (job : Job) data off st' : Prop :=
  match job with
  | DrainJob => view st' data off ∧ (last_write_err st' = None → mode st' = Idle) ∨
      ∃ e d p k, last_write_err st' = Some e ∧ k ≤ length (cache st') ∧ data = overwrite d (N.to_nat p) (cache st') ∧
        view st' (overwrite d (N.to_nat p) (take k (cache st') ++ cache st')) (off + N.of_nat k)
  | SetLenJob size => view st' data off ∨ view st' (resized (N.to_nat size) data) off
  | _ => view st' data off
  end.

Lemma run_job_meets job st data off r st' :
  flight job st data off → run_job job st = (r, st') → after_job job data off st'.
Proof.
  intros Hf Hr. unfold run_job in Hr. destruct job.
  - destruct Hf as ([Hc Hb] & Hne & Hm & Hat). destruct (os_read (length (cache st)) (file st)) as [res f] eqn:Hread.
    pose proof (os_read_spec _ _ _ _ _ _ Hat Hread) as Hs. destruct res as [b|e]; injection Hr as <- <-.
    + destruct Hs as ([tl Hpre] & Hlen & Hend & Hat'). split; [split; simpl; [lia|done]|].
      exists data, (off + N.of_nat (length b))%N. split; [done|]. simpl. split_and!; [lia|lia| | |done|lia].
      * exists tl. rewrite <- Hpre. f_equal. lia.
      * intros Hnil. destruct (Hend Hnil) as [Hz|Hz]; [|lia]. apply nil_length_inv in Hz. done.
    + split; [split; simpl; [lia|done]|]. by exists data, off.
  - destruct Hf as ([[Hc Hb] (d & p & Hat & Hcache)] & Hm & He). rewrite Hm in Hcache.
    destruct Hcache as (Hfl & -> & ->).
    destruct (os_write_all (cache st) (file st)) as [res f] eqn:Hw.
    pose proof (os_write_spec _ _ _ _ _ _ Hat Hw) as Hs. destruct res as [u|e]; injection Hr as <- <-.
    + left. split; [|done]. split; [split; simpl; [lia|done]|]. by do 2 eexists.
    + right. destruct Hs as (k & Hk & Hat'). exists e, d, p, k. split_and!; [done|done|done|]. split; [done|].
      do 2 eexists. split; [exact Hat'|]. simpl. rewrite Hm. split; [done|]. split; [|lia].
      rewrite overwrite_app, length_take, Nat.min_l by done. f_equal. lia.
  - destruct Hf as ([Hcap (d & p & Hat & Hcache)] & Hm). destruct (os_flush (file st)) as [res f] eqn:Hfl.
    pose proof (os_flush_spec _ _ _ _ _ Hat Hfl) as Hs. destruct res; injection Hr as <- <-; (split; [done|]);
      exists d, p; (split; [done|]); simpl; by destruct (mode st).
  - destruct Hf as ([Hcap (d & p & Hat & Hcache)] & Hm & _). destruct (os_sync_all (file st)) as [res f] eqn:Hs.
    injection Hr as <- <-. split; [done|]. exists d, p. split; [by eapply os_sync_all_spec|done].
  - destruct Hf as ([Hcap (d & p & Hat & Hcache)] & Hm & _). destruct (os_sync_data (file st)) as [res f] eqn:Hs.
    injection Hr as <- <-. split; [done|]. exists d, p. split; [by eapply os_sync_data_spec|done].
  - destruct Hf as ([Hcap (d & p & Hat & Hcache)] & Hm & _). destruct (os_set_len size (file st)) as [res f] eqn:Hs.
    injection Hr as <- <-. pose proof (os_set_len_spec _ _ _ _ _ _ Hat Hs) as Hat'. rewrite Hm in Hcache.
    destruct Hcache as (Hnil & -> & ->). destruct res; [right|left]; (split; [done|]); do 2 eexists;
      (split; [exact Hat'|]); simpl; by rewrite Hm.
Qed.
End View.
