(* ===== verification/FileSpec.v ===== *)
(** What a [File] promises: it behaves as a file and a position, whatever is in its
    cache and whichever blocking job has its state; dropping it writes what it
    holds; and where its cache goes wrong. *)

From stdpp Require Import strings relations.
From Stdlib Require Import Strings.Byte.
From S2P Require Import Prelude Async Io IoRead File FileInv.
Local Open Scope async_scope.

Section Files.
Context {F : Type} `{OsFileLaws F} `{ReserveLaws} `{!ReserveBounded}.
Implicit Types (this : File F) (st : State F) (data : bytes) (off : N) (cx : nat).

(** The user of [this] sees a file that holds [data], at the position [off]; the lock
    is taken exactly while a job runs. *)
Definition file_ok this data off : Prop :=
  if locked this then ∃ job, running this = Some job ∧ flight job (value this) data off
  else running this = None ∧ joiner this = None ∧ view (value this) data off.

(** A poll by the task [cx] of an operation whose answers satisfy [P]: it does not
    panic; if it is ready, the lock is free again and everybody registered is
    woken; if it is pending, a job is running, the task is registered to be woken
    at its end, and the user sees what they saw. *)
Definition poll_meets {A : Type} cx data off this (P : Result A Error → State F → Prop)
    (o : Outcome (Poll (Result A Error) * File F * list nat)) : Prop :=
  match o with
  | Done (Ready r, this', woken) =>
      locked this' = false ∧ running this' = None ∧ joiner this' = None ∧ woken = lock_wakers this ∧ P r (value this')
  | Done (Pending, this', woken) =>
      file_ok this' data off ∧ running this' ≠ None ∧ (cx ∈ lock_wakers this' ∨ joiner this' = Some cx)
  | _ => False
  end.

Lemma push_waker_in cx l : cx ∈ push_waker cx l.
Proof. unfold push_waker. case_bool_decide; [done|]. rewrite elem_of_app. right. by apply list_elem_of_singleton. Qed.

Lemma with_lock_meets {A} cx (op : State F → Outcome (Turn F A)) this data off P :
  file_ok this data off → (locked this = false → turn_meets P data off (op (value this))) →
  poll_meets cx data off this P (with_lock cx op this).
Proof.
  intros Hok Hop. unfold with_lock. unfold file_ok in Hok. destruct (locked this) eqn:Hl.
  - destruct Hok as (job & Hr & Hf). simpl. split; [by exists job|]. rewrite Hr. split; [done|]. left. apply push_waker_in.
  - destruct Hok as (Hr & Hj & Hv). specialize (Hop eq_refl).
    destruct (op (value this)) as [[r st|job st|st]| |]; simpl in Hop |- *; [done| |done..].
    destruct (registers job); simpl.
    + split; [by exists job|]. split; [done|]. left. apply push_waker_in.
    + split; [by exists job|]. split; [done|]. by right.
Qed.

(** C10 A file behaves as the abstract file its user sees, [data] and a position
    [off].  A read gives bytes from the position on, none only at the end, and moves
    over them; a write puts a prefix of its bytes there, an empty one only if there
    are none to put, and moves behind them; a seek answers and goes to the target it
    names; whatever is pending or fails leaves what the user sees.  When a flush
    answers [Ok], the operating system's file holds it.  No poll panics, except for a
    read in the middle of the cache; every pending poll has left its task where the
    job that runs will wake it; and a job ends with the lock free, everybody
    woken, and the user seeing the same, unless it was to set the size, or a write
    failed. *)
Theorem file_refines this data off cx n buf pos size :
    file_ok this data off → 0 < n → (Z.of_nat n ≤ i64_max)%Z → (Z.of_nat (length buf) ≤ i64_max)%Z →
    ((locked this = false → last_read_err (value this) = None → midway (value this) = false) →
     poll_meets cx data off this (read_meets n data off) (File_poll_read cx n this)) ∧
    poll_meets cx data off this (write_meets buf data off) (File_poll_write cx buf this) ∧
    poll_meets cx data off this (seek_meets pos data off) (File_poll_seek cx pos this) ∧
    poll_meets cx data off this (λ r st, view st data off ∧
      ∀ u, r = Ok u → os_at (file st) data (if mode st is Reading start then off + N.of_nat (length (cache st) - start) else off))
      (File_poll_flush cx this) ∧
    poll_meets cx data off this (λ r st, ∃ e, r = Err e ∧ view st data off) (File_sync_all cx this) ∧
    poll_meets cx data off this (λ r st, ∃ e, r = Err e ∧ view st data off) (File_set_len cx size this) ∧
    match complete this with
    | Some (_, this', woken) => ∃ job, running this = Some job ∧ locked this' = false ∧
        after_job job data off (value this') ∧ woken = lock_wakers this ++ option_list (joiner this)
    | None => running this = None
    end.
Proof.
  intros Hok Hn Hmax Hbuf. pose proof Hok as Hok'. unfold file_ok in Hok'.
  assert (locked this = false → view (value this) data off) as Hv by (intros Hl; rewrite Hl in Hok'; apply Hok').
  split_and!.
  - intros Hmid. apply with_lock_meets; [done|]. intros Hl. apply State_poll_read_meets; auto.
  - apply with_lock_meets; [done|]. intros Hl. apply State_poll_write_meets; auto.
  - apply with_lock_meets; [done|]. intros Hl. apply State_poll_seek_meets; auto.
  - apply with_lock_meets; [done|]. intros Hl. pose proof (poll_flush_meets _ _ _ (Hv Hl)) as Hf.
    unfold State_poll_flush. destruct (poll_flush (value this)) as [[r st|job st|st]| |]; simpl in *; [|done..].
    destruct Hf as [Hv' Hr]. split; [done|]. intros u Hu. destruct (Hr u Hu) as [-> Hfl].
    pose proof (settled_not_writing _ _ _ (conj Hfl Hv')) as Hnw. destruct Hv' as [_ (d & p & Hat & Hc)].
    destruct (mode (value this)) as [|start|]; [| |done]; simpl in Hc.
    + by destruct Hc as (_ & -> & ->).
    + destruct Hc as (Hs & Hl' & _ & _ & -> & ->).
      by replace (p - N.of_nat (length (cache (value this)) - start) + _)%N with p by lia.
  - apply with_lock_meets; [done|]. intros Hl. by apply State_sync_meets, Hv.
  - apply with_lock_meets; [done|]. intros Hl. by apply State_set_len_meets, Hv.
  - unfold complete. destruct (running this) as [job|] eqn:Hr; [|done].
    destruct (locked this); [|by destruct Hok']. destruct Hok' as (job' & [= <-] & Hf).
    destruct (run_job job (value this)) as [r st] eqn:Hrun. simpl. exists job. split_and!; [done..| |done].
    by eapply run_job_meets.
Qed.

(** ** Every reachable state *)

(** One step: a poll by some task, of a read into a buffer with room, a write, a
    seek, a flush, ..., or the end of the job. *)
Inductive file_step : File F → File F → Prop :=
| step_read cx n this r this' woken :
    0 < n → (Z.of_nat n ≤ i64_max)%Z → File_poll_read cx n this = Done (r, this', woken) → file_step this this'
| step_write cx buf this r this' woken :
    (Z.of_nat (length buf) ≤ i64_max)%Z → File_poll_write cx buf this = Done (r, this', woken) → file_step this this'
| step_seek cx pos this r this' woken : File_poll_seek cx pos this = Done (r, this', woken) → file_step this this'
| step_flush cx this r this' woken : File_poll_flush cx this = Done (r, this', woken) → file_step this this'
| step_sync_all cx this r this' woken : File_sync_all cx this = Done (r, this', woken) → file_step this this'
| step_sync_data cx this r this' woken : File_sync_data cx this = Done (r, this', woken) → file_step this this'
| step_set_len cx size this r this' woken : File_set_len cx size this = Done (r, this', woken) → file_step this this'
| step_complete this r this' woken : complete this = Some (r, this', woken) → file_step this this'.

Inductive file_reaches : File F → File F → Prop :=
| reaches_here this : file_reaches this this
| reaches_step this this1 this' : file_reaches this this1 → file_step this1 this' → file_reaches this this'.

Definition file_inv this : Prop :=
  (∃ data off, file_ok this data off) ∧ (locked this = false → lock_wakers this = []).

Lemma with_lock_wakers {A} cx (op : State F → Outcome (Turn F A)) this r this' woken :
  with_lock cx op this = Done (r, this', woken) → locked this' = false → lock_wakers this' = [].
Proof.
  unfold with_lock. destruct (locked this); [by intros [= <- <- <-]|].
  destruct (op (value this)) as [[r1 st|job st|st]| |]; [..|done|done];
    [|destruct (registers job)|]; by intros [= <- <- <-].
Qed.

(** A poll whose answers leave the user with some file keeps the invariant. *)
Lemma with_lock_inv {A} cx (op : State F → Outcome (Turn F A)) this r this' woken data off P :
  poll_meets cx data off this P (with_lock cx op this) →
  (∀ r st, P r st → ∃ data off, view st data off) →
  with_lock cx op this = Done (r, this', woken) → file_inv this'.
Proof.
  intros Hp HP He. split; [|by eapply with_lock_wakers]. rewrite He in Hp. destruct r as [r|]; simpl in Hp.
  - destruct Hp as (Hl & Hr & Hj & _ & Hv). destruct (HP _ _ Hv) as (data' & off' & Hv'). exists data', off'.
    unfold file_ok. by rewrite Hl.
  - exists data, off. apply Hp.
Qed.

(** A read in the middle of the cache panics. *)
Lemma midway_panics cx n this :
  locked this = false → last_read_err (value this) = None → midway (value this) = true → File_poll_read cx n this = Panic.
Proof.
  intros Hl He Hm. unfold File_poll_read, with_lock, State_poll_read. rewrite Hl, He. unfold midway in Hm.
  destruct (mode (value this)) as [|start|]; [done| |done]. apply andb_prop in Hm as [Hlo%Nat.ltb_lt Hhi%Nat.ltb_lt].
  destruct (Nat.leb_spec start (length (cache (value this)))); [|done].
  destruct (Nat.ltb_spec 0 (length (cache (value this)) - start)); [|lia]. simpl.
  destruct (Nat.leb_spec start ((length (cache (value this)) - start) `min` n)); [|done]. simpl.
  destruct (Nat.eqb_spec ((length (cache (value this)) - start) `min` n - start)
    ((length (cache (value this)) - start) `min` n)); [lia|]. by rewrite andb_false_r.
Qed.

Lemma after_job_view job data off st : after_job job data off st → ∃ data off, view st data off.
Proof. destruct job; simpl; naive_solver. Qed.

Lemma file_step_inv this this' : file_step this this' → file_inv this → file_inv this'.
Proof.
  intros Hs Hi. pose proof Hi as [(data & off & Hok) _]. pose proof Hok as Hok'. unfold file_ok in Hok'.
  assert (locked this = false → view (value this) data off) as Hv by (intros Hl; rewrite Hl in Hok'; apply Hok').
  destruct Hs as [cx n this r this' woken Hn Hmax He|cx buf this r this' woken Hmax He|cx pos this r this' woken He|
    cx this r this' woken He|cx this r this' woken He|cx this r this' woken He|cx size this r this' woken He|this r this' woken He].
  - eapply with_lock_inv; [apply with_lock_meets; [done|]| |exact He].
    + intros Hl. apply State_poll_read_meets; [done..|by apply Hv|]. intros Hre.
      destruct (midway (value this)) eqn:Hmid; [|done]. by rewrite (midway_panics cx n this Hl Hre Hmid) in He.
    + intros [b|e] st; simpl; naive_solver.
  - eapply with_lock_inv; [apply with_lock_meets; [done|]| |exact He].
    + intros Hl. apply State_poll_write_meets; auto.
    + intros [k|e] st; simpl; naive_solver.
  - eapply with_lock_inv; [apply with_lock_meets; [done|]| |exact He].
    + intros Hl. apply State_poll_seek_meets; auto.
    + intros [k|e] st; simpl; naive_solver.
  - eapply with_lock_inv; [apply with_lock_meets; [done|]| |exact He]; [intros Hl; apply poll_flush_meets; auto|].
    intros r0 st [? _]. eauto.
  - eapply with_lock_inv; [apply with_lock_meets; [done|]| |exact He]; [intros Hl; by apply State_sync_meets, Hv|].
    intros r0 st (e & _ & ?). eauto.
  - eapply with_lock_inv; [apply with_lock_meets; [done|]| |exact He]; [intros Hl; by apply State_sync_meets, Hv|].
    intros r0 st (e & _ & ?). eauto.
  - eapply with_lock_inv; [apply with_lock_meets; [done|]| |exact He]; [intros Hl; by apply State_set_len_meets, Hv|].
    intros r0 st (e & _ & ?). eauto.
  - unfold complete in He. destruct (running this) as [job|] eqn:Hr; [|done].
    destruct (run_job job (value this)) as [r0 st] eqn:Hrun. simpl in He. injection He as <- <- <-.
    destruct (locked this); [|by destruct Hok']. destruct Hok' as (job' & [= <-] & Hf).
    destruct (after_job_view _ _ _ _ (run_job_meets _ _ _ _ _ _ Hf Hrun)) as (data' & off' & Hv').
    split; [|done]. by exists data', off'.
Qed.

Lemma file_new_ok (f : F) data off b : os_at f data off → file_ok (File_new f b) data off.
Proof.
  intros Hat. split_and!; [done|done|]. split; [split; simpl; [lia|]|].
  - change (0 ≤ i64_max)%Z. unfold i64_max. lia.
  - by exists data, off.
Qed.

(** C20 In every state that polls and the ends of jobs lead to: a job runs exactly
    while the lock is taken, and nobody waits for a free lock; the cache fits its
    vector; it is empty in idle mode and what was read is within it; a file with
    bytes to be written is not taken for flushed; and some file and position is
    what its user sees, what is in the cache counted in. *)
Theorem file_invariant (f : F) (b : bool) data off this :
    os_at f data off → file_reaches (File_new f b) this →
    (locked this = true ↔ running this ≠ None) ∧ (locked this = false → lock_wakers this = []) ∧
    (locked this = false →
       length (cache (value this)) ≤ capacity (value this) ∧
       match mode (value this) with
       | Idle => cache (value this) = []
       | Reading start => start ≤ length (cache (value this))
       | Writing => is_flushed (value this) = false
       end) ∧
    ∃ data' off', file_ok this data' off'.
Proof.
  intros Hat Hr. assert (file_inv this) as [(data' & off' & Hok) Hw].
  { remember (File_new f b) as this0 eqn:Hnew. induction Hr as [this|this this1 this' Hr IH Hs].
    - subst. split; [|done]. exists data, off. by apply file_new_ok.
    - by eapply file_step_inv; [|apply IH]. }
  pose proof Hok as Hok'. unfold file_ok in Hok'. split; [|split; [exact Hw|split; [|by exists data', off']]].
  - destruct (locked this); [by destruct Hok' as (job & -> & _)|by destruct Hok' as (-> & _)].
  - intros Hl. rewrite Hl in Hok'. destruct Hok' as (_ & _ & [Hc _] & d & p & _ & Hcache). split; [done|].
    destruct (mode (value this)); by destruct Hcache.
Qed.

(** ** Dropping a file *)

Lemma File_drop_ready fuel cx this r st :
  locked this = false → poll_flush (value this) = Done (Answer r st) →
  File_drop (S fuel) cx this = Done (fst (unlock st this)).
Proof. intros Hl Hf. simpl. unfold File_poll_flush, with_lock, State_poll_flush. by rewrite Hl, Hf. Qed.

Lemma File_drop_pending fuel cx this this1 this2 r woken woken' :
  File_poll_flush cx this = Done (Pending, this1, woken) → complete this1 = Some (r, this2, woken') →
  File_drop (S fuel) cx this = File_drop fuel cx this2.
Proof. intros Hp Hc. simpl. by rewrite Hp, Hc. Qed.

(** How many more polls a free file needs. *)
Definition polls_left st : nat :=
  if is_flushed st then 1
  else match last_write_err st, mode st with
       | Some _, _ => 1
       | None, Writing => 3
       | None, _ => 2
       end.

Lemma File_drop_free fuel cx this :
  locked this = false → polls_left (value this) ≤ fuel → ∃ this', File_drop fuel cx this = Done this'.
Proof.
  intros Hl. remember (polls_left (value this)) as k eqn:Hk. revert this fuel Hl Hk.
  induction k as [k IH] using lt_wf_ind. intros this fuel Hl Hk Hle.
  destruct fuel as [|fuel]; [unfold polls_left in Hk; repeat case_match; lia|].
  assert (∀ job st, poll_flush (value this) = Done (Spawn job st) → (job = FlushJob ∨ job = DrainJob) →
    polls_left (snd (run_job job st)) < k → ∃ this', File_drop (S fuel) cx this = Done this') as Hspawn.
  { intros job st Hf Hj Hlt. destruct (run_job job st) as [r1 st1] eqn:Hrun.
    destruct (IH (polls_left st1) Hlt (mkFile false st1 [] None None) fuel eq_refl eq_refl) as [this' Hd]; [simpl in *; lia|].
    exists this'. rewrite <- Hd. eapply File_drop_pending.
    - unfold File_poll_flush, with_lock, State_poll_flush. rewrite Hl, Hf. by destruct Hj as [-> | ->].
    - unfold complete. simpl. rewrite Hrun. done. }
  unfold poll_flush, poll_drain in Hspawn. unfold polls_left in Hk.
  destruct (is_flushed (value this)) eqn:Hf.
  - eexists. eapply File_drop_ready; [done|]. unfold poll_flush. by rewrite Hf.
  - destruct (last_write_err (value this)) eqn:He.
    + eexists. eapply File_drop_ready; [done|]. unfold poll_flush, poll_drain. by rewrite Hf, He.
    + destruct (mode (value this)) eqn:Hm; simpl in Hspawn.
      * eapply Hspawn; [done|by left|]. subst k. simpl. destruct (os_flush _) as [[] ?]; unfold polls_left; simpl; rewrite ?Hf; lia.
      * eapply Hspawn; [done|by left|]. subst k. simpl. destruct (os_flush _) as [[] ?]; unfold polls_left; simpl; rewrite ?Hf; lia.
      * eapply Hspawn; [done|by right|]. subst k. simpl.
        destruct (os_write_all _ _) as [[] ?]; unfold polls_left; simpl; rewrite Hf, ?He; lia.
Qed.

(** The operating system's calls that write never fail. *)
Definition os_works : Prop :=
  (∀ bs (f : F), fst (os_write_all bs f) = Ok ()) ∧ ∀ f : F, fst (os_flush f) = Ok ().

Lemma settled_holds st data off : settled_at st data off → ∃ p, os_at (file st) data p.
Proof.
  intros Hs. pose proof (settled_not_writing _ _ _ Hs) as Hm. destruct Hs as [_ [_ (d & p & Hat & Hc)]]. exists p.
  destruct (mode st); [| |done]; simpl in Hc; [by destruct Hc as (_ & -> & _)|by destruct Hc as (_ & _ & _ & _ & -> & _)].
Qed.

Lemma File_drop_settles fuel cx this this' data off :
  os_works → locked this = false → last_write_err (value this) = None → view (value this) data off →
  File_drop fuel cx this = Done this' → ∃ p, os_at (file (value this')) data p.
Proof.
  intros [Hww Hwf]. revert this. induction fuel as [|fuel IH]; intros this Hl He Hv Hd; [done|].
  pose proof (poll_flush_meets _ _ _ Hv) as Hm.
  assert (∀ job st st1 r1, poll_flush (value this) = Done (Spawn job st) → registers job = true →
    run_job job st = (r1, st1) → last_write_err st1 = None → view st1 data off →
    ∃ p, os_at (file (value this')) data p) as Hspawn.
  { intros job st st1 r1 Hf Hreg Hrun He1 Hv1. apply (IH (mkFile false st1 [] None None)); [done..|].
    rewrite <- Hd. symmetry. eapply File_drop_pending.
    - unfold File_poll_flush, with_lock, State_poll_flush. by rewrite Hl, Hf, Hreg.
    - unfold complete. simpl. by rewrite Hrun. }
  destruct (poll_flush (value this)) as [[r st|job st|st]| |] eqn:Hf; simpl in Hm; [| |done..].
  - destruct Hm as [Hv' Hr]. rewrite (File_drop_ready fuel cx this r st Hl Hf) in Hd. injection Hd as <-. simpl.
    destruct r as [u|e]; [destruct (Hr u eq_refl) as [-> Hfl]; by eapply settled_holds|].
    unfold poll_flush, poll_drain in Hf. rewrite He in Hf. destruct (is_flushed _); [done|]. by destruct (mode (value this)).
  - destruct (run_job job st) as [r1 st1] eqn:Hrun. pose proof (run_job_meets _ _ _ _ _ _ Hm Hrun) as Hafter.
    assert ((job = DrainJob ∨ job = FlushJob) ∧ last_write_err st = None) as [Hj He'].
    { unfold poll_flush, poll_drain in Hf. rewrite He in Hf. destruct (is_flushed _); [done|].
      destruct (mode (value this)); simpl in Hf; injection Hf as <- <-; auto. }
    assert (last_write_err st1 = None ∧ view st1 data off) as [He1 Hv1].
    { unfold run_job in Hrun. destruct Hj as [-> | ->].
      - specialize (Hww (cache st) (file st)). destruct (os_write_all (cache st) (file st)) as [[] f]; [|done].
        injection Hrun as <- <-. split; [done|]. destruct Hafter as [[Hv' _]|(e & d & p & k & Hx & _)]; [done|]. simpl in Hx. congruence.
      - specialize (Hwf (file st)). destruct (os_flush (file st)) as [[] f]; [|done]. by injection Hrun as <- <-. }
    eapply Hspawn; [done|by destruct Hj as [-> | ->]|done..].
Qed.

(** C21 Dropping a file ends: whatever state it is in, also while a job has its lock,
    the flush of [drop] is polled at most four times.  If the file is free, no
    earlier write failed, and the operating system's writes succeed, its file then
    holds what the user saw. *)
Theorem file_drop_ends this data off cx :
    file_ok this data off →
    (∃ this', File_drop 4 cx this = Done this') ∧
    (locked this = false → last_write_err (value this) = None → os_works →
     ∃ this' p, File_drop 4 cx this = Done this' ∧ os_at (file (value this')) data p).
Proof.
  intros Hok. unfold file_ok in Hok.
  assert (∀ st, polls_left st ≤ 3) as Hle by (intros st; unfold polls_left; repeat case_match; lia).
  destruct (locked this) eqn:Hl.
  - split; [|done]. destruct Hok as (job & Hr & _). destruct (run_job job (value this)) as [r1 st1] eqn:Hrun.
    destruct (File_drop_free 3 cx (mkFile false st1 [] None None) eq_refl (Hle _)) as [this' Hd].
    exists this'. rewrite <- Hd. eapply File_drop_pending.
    + unfold File_poll_flush, with_lock. by rewrite Hl.
    + unfold complete. simpl. by rewrite Hr, Hrun.
  - destruct Hok as (Hr & Hj & Hv).
    destruct (File_drop_free 4 cx this Hl) as [this' Hd]; [specialize (Hle (value this)); lia|].
    split; [by exists this'|]. intros _ He Hos. destruct (File_drop_settles _ _ _ _ _ _ Hos Hl He Hv Hd) as [p Hp].
    by exists this', p.
Qed.

(** Where the cache goes wrong.  A read panics when part of the cache has been
    read and part has not: the copy takes [start..n] for [start..start + n].  After a
    read into an empty buffer, and after the end of the file has been met, reads
    answer that the file has ended, whatever it holds, until a seek or a write. *)
Theorem file_cache_faults this st cx n k :
    locked this = false → last_read_err (value this) = None → value this = st →
    (midway st = true → File_poll_read cx n this = Panic) ∧
    (mode st = Reading 0 → cache st = [] → ∃ this' woken,
       File_poll_read cx n this = Done (Ready (Ok []), this', woken) ∧
       locked this' = false ∧ last_read_err (value this') = None ∧ mode (value this') = Reading 0 ∧ cache (value this') = []) ∧
    (mode st = Idle → cache st = [] → ∃ this', File_poll_read cx 0 this = Done (Pending, this', []) ∧
       ∃ r this'' woken, complete this' = Some (r, this'', woken) ∧
         (∀ f, os_read 0 (file st) = (Ok [], f) →
          ∃ this3 woken, File_poll_read cx k this'' = Done (Ready (Ok []), this3, woken))).
Proof.
  intros Hl He <-. split_and!.
  - by apply midway_panics.
  - intros Hm Hc. unfold File_poll_read, with_lock, State_poll_read. rewrite Hl, He, Hm, Hc. simpl.
    do 2 eexists. split; [done|]. simpl. by rewrite Hc.
  - intros Hm Hc. unfold File_poll_read, with_lock, State_poll_read. rewrite Hl, He, Hm. simpl. eexists. split; [done|].
    unfold complete, run_job. simpl.
    destruct (os_read 0 (file (value this))) as [[b|e] f] eqn:Hr; do 3 eexists; (split; [reflexivity|]);
      intros f' Hr'; simplify_eq. simpl. rewrite He. simpl. by do 2 eexists.
Qed.
End Files.

(** A poll while a job has the lock, as one of a thread that was woken for no reason:
    it changes nothing but the wakers, and the list has the task once. *)
Lemma poll_while_locked {F A : Type} cx (op : State F → Outcome (Turn F A)) (this : File F) :
  locked this = true →
  ∃ this', with_lock cx op this = Done (Pending, this', []) ∧
    value this' = value this ∧ running this' = running this ∧ locked this' = true ∧
    lock_wakers this' = push_waker cx (lock_wakers this) ∧ with_lock cx op this' = Done (Pending, this', []).
Proof.
  intros Hl. unfold with_lock. rewrite Hl. eexists. split_and!; [done..|]. cbn. do 4 f_equal.
  unfold push_waker. destruct (bool_decide (cx ∈ lock_wakers this)) eqn:Hin; [by rewrite Hin|].
  rewrite bool_decide_eq_true_2; [done|set_solver].
Qed.

(** * Who owns a file *)

Section Handles.
Context {F Fd : Type} `{OsFile F} `{Reserve} `{RawFile F Fd}.
Abbreviation Handles := (Handles (F:=F) (Fd:=Fd)).
Implicit Types (h : Handles) (this : File F).

(** The [Arc]s that the owner has: of the lock, of the file as its field, and the
    clone of [into_raw_fd]. *)
Definition has_lock (o : Owner Fd) : nat :=
  match o with Using | Flushing | DropFile | DropLock => 1 | _ => 0 end.
Definition has_file (o : Owner Fd) : nat :=
  match o with Using | Flushing | DropFile => 1 | _ => 0 end.
Definition has_clone (o : Owner Fd) : nat := match o with Using | Panicked => 0 | _ => 1 end.
Definition polls (o : Owner Fd) : bool := match o with Using | Flushing => true | _ => false end.
Definition running_job this : nat := match running this with Some _ => 1 | None => 0 end.

(** The counts of the [Arc]s are the numbers of those who have them. *)
Record counted h : Prop := {
  c_locked : locked (the_file h) = bool_decide (is_Some (running (the_file h)));
  c_lock : lock_arc h = has_lock (owner h) + running_job (the_file h) + ending h;
  c_file : file_arc h = has_file (owner h) + has_clone (owner h) + clones h + (lock_arc h `min` 1);
  c_idle : polls (owner h) = false → running (the_file h) = None;
  c_returned fd : owner h = Returned fd → file_arc h = 1
}.

Lemma counted_new f fl : counted (Handles_new (File_new f fl)).
Proof. by split. Qed.

(** A poll starts one job, or leaves the job there is, or nothing is running. *)
Lemma with_lock_running {A : Type} cx (op : State F → Outcome (Turn F A)) this p this' woken :
  locked this = bool_decide (is_Some (running this)) →
  with_lock cx op this = Done (p, this', woken) →
  locked this' = bool_decide (is_Some (running this')) ∧
  (is_Some (running this) → running this' = running this) ∧
  (p ≠ Pending → running this' = None).
Proof.
  intros Hl. unfold with_lock. destruct (running this) as [job|] eqn:Hrun; rewrite Hl; cbn.
  - intros [= <- <- <-]. by split_and!.
  - destruct (op (value this)) as [[r st|job st|st]| |]; cbn; try done.
    + intros [= <- <- <-]. cbn. split; [done|]. split; [by intros []|done].
    + destruct (registers job); intros [= <- <- <-]; cbn; (split; [done|]; split; [by intros []|done]).
    + intros [= <- <- <-]. cbn. split; [done|]. split; [by intros []|done].
Qed.

Lemma polled_counted {A : Type} cx (op : State F → Outcome (Turn F A)) h b h' :
  counted h → polls (owner h) = true → polled (with_lock cx op (the_file h)) h = Some (b, h') →
  counted h' ∧ owner h' = owner h ∧ (b = true → running (the_file h') = None).
Proof.
  intros [Hl Hla Hfa Hi Hr] Hp. unfold polled. destruct (with_lock cx op (the_file h)) as [[[p this'] woken]| |] eqn:Hw; [|done..].
  intros [= <- <-]. destruct (with_lock_running _ _ _ _ _ _ Hl Hw) as (Hl' & Hkeep & Hready). split_and!.
  - split; cbn.
    + done.
    + unfold running_job in *. destruct (running (the_file h)) as [j|]; [rewrite Hkeep by eauto|]; [lia|].
      destruct (running this'); lia.
    + assert (lock_arc h > 0) by (rewrite Hla; destruct (owner h); simpl in *; try done; lia). lia.
    + by rewrite Hp.
    + intros fd Ho. by rewrite Ho in Hp.
  - done.
  - cbn. destruct p; [intros _; by apply Hready|done].
Qed.

Lemma drop_lock_counted h :
  locked (the_file h) = bool_decide (is_Some (running (the_file h))) →
  lock_arc h = S (has_lock (owner h) + running_job (the_file h) + ending h) →
  file_arc h = has_file (owner h) + has_clone (owner h) + clones h + 1 →
  (polls (owner h) = false → running (the_file h) = None) → (∀ fd, owner h ≠ Returned fd) →
  counted (drop_lock_arc h).
Proof.
  intros Hl Hla Hfa Hi Hr. unfold drop_lock_arc.
  destruct (Nat.eqb_spec (lock_arc h) 1); split; cbn; try done; try lia; intros fd Ho; by destruct (Hr fd).
Qed.

Lemma into_counted cx h h' : counted h → into_raw_fd_step cx h = Some h' → counted h'.
Proof.
  intros Hc. pose proof Hc as [Hl Hla Hfa Hi Hr]. unfold into_raw_fd_step. destruct (owner h) eqn:Ho; simpl in Hla, Hfa.
  - intros [= <-]. split; cbn; [done|lia|lia|done|done].
  - destruct (polled _ h) as [[b h1]|] eqn:Hp; [|done]. simpl. intros [= <-].
    destruct (polled_counted _ _ _ _ _ Hc ltac:(by rewrite Ho) Hp) as (Hc1 & Ho1 & Hidle). destruct b; [|done].
    destruct Hc1 as [Hl1 Hla1 Hfa1 Hi1 _]. rewrite Ho1, Ho in Hla1, Hfa1. simpl in Hla1, Hfa1.
    split; cbn; [done|lia|lia|auto|done].
  - intros [= <-]. split; cbn; [done|lia|lia|auto|done].
  - intros [= <-]. unfold drop_lock_arc. destruct (Nat.eqb_spec (lock_arc h) 1);
      (split; cbn; [done|lia|lia|auto|done]).
  - intros [= <-]. destruct (Nat.eqb_spec (file_arc h) 1); (split; cbn; [done|lia|lia|auto|done]).
  - done.
  - done.
Qed.

(** Nobody has the file but who has the descriptor. *)
Lemma returned_alone h fd : counted h → owner h = Returned fd → clones h = 0 ∧ ending h = 0 ∧ running (the_file h) = None.
Proof.
  intros [_ Hla Hfa Hi Hr] Ho. specialize (Hr fd Ho). rewrite Ho in Hla, Hfa, Hi. simpl in *.
  specialize (Hi eq_refl). unfold running_job in Hla. rewrite Hi in Hla. split_and!; [lia|lia|done].
Qed.

Lemma handles_counted h h' : counted h → handles_step h h' → counted h'.
Proof.
  intros Hc Hs. pose proof Hc as [Hl Hla Hfa Hi Hr].
  destruct Hs as [A cx op h b h' Ho Hp|h Ho|h Hn|h r this woken Hj|h Hn|cx h h' Hstep].
  - by apply (polled_counted _ _ _ _ _ Hc) in Hp as (? & _); [|by rewrite Ho].
  - split; cbn; [done|done|lia|done|]. intros fd Hf. congruence.
  - split; cbn; [done|done|lia|done|]. intros fd Ho. apply returned_alone in Ho as (? & _); [lia|done].
  - unfold complete in Hj. destruct (running (the_file h)) as [job|] eqn:Hrun; [|done].
    destruct (run_job job (value (the_file h))) as [r' st]. injection Hj as <- <- <-.
    unfold running_job in Hla. rewrite Hrun in Hla.
    split; cbn; [done|lia|lia|done|]. intros fd Ho. by apply Hr in Ho.
  - apply drop_lock_counted; cbn; [done|lia|lia|done|]. intros fd Ho. apply returned_alone in Ho as (_ & ? & _); [lia|done].
  - by apply into_counted in Hstep.
Qed.

Lemma handles_reachable_counted f fl h : handles_reachable f fl h → counted h.
Proof.
  unfold handles_reachable. intros Hs. pose proof (counted_new f fl) as Hc. revert Hc. induction Hs; eauto using handles_counted.
Qed.

(** [into_raw_fd] answers the descriptor of the file when nobody else has it, and
    panics when a closure of [metadata] or [set_permissions] runs still, or a thread
    that has let go of the lock is not done with its guard; nobody else has the file
    of a descriptor that was answered, and the state behind the lock is freed then. *)
Theorem into_raw_fd_unwraps f fl h cx :
  handles_reachable f fl h →
  (owner h = Unwrapping →
     into_raw_fd_step cx h =
       Some (if decide (clones h = 0 ∧ ending h = 0) then set_owner (Returned (File_as_raw_fd (the_file h))) h
             else set_owner Panicked (set_arcs (file_arc h - 1) (lock_arc h) h))) ∧
  (∀ fd, owner h = Returned fd → clones h = 0 ∧ lock_arc h = 0 ∧ running (the_file h) = None).
Proof.
  intros Hh%handles_reachable_counted. split.
  - intros Ho. unfold into_raw_fd_step. rewrite Ho. destruct Hh as [_ Hla Hfa Hi _].
    rewrite Ho in Hla, Hfa, Hi. simpl in *. unfold running_job in Hla. rewrite (Hi eq_refl) in Hla.
    destruct (decide _) as [[Hz1 Hz2]|Hne]; destruct (Nat.eqb_spec (file_arc h) 1); (done || lia).
  - intros fd Ho. pose proof (returned_alone h fd Hh Ho) as (Hcl & He & Hrun). split_and!; [done| |done].
    destruct Hh as [_ Hla _ _ _]. rewrite Ho in Hla. unfold running_job in Hla. rewrite Hrun in Hla. simpl in Hla. lia.
Qed.
End Handles.

(** * The theorems at concrete inputs *)

(** A file system of one file in memory, which reads at most [disk_chunk] bytes at a
    time (and at least one), and whose offsets are those of an [off_t]. *)
Record Disk : Type := mkDisk { disk_data : bytes; disk_pos : N; disk_chunk : nat }.

Definition fits (n : N) : bool := bool_decide (Z.of_N n ≤ i64_max)%Z.

#[local] Instance Disk_OsFile : OsFile Disk := {|
  os_read n f :=
    let b := take (n `min` S (disk_chunk f)) (drop (N.to_nat (disk_pos f)) (disk_data f)) in
    (Ok b, mkDisk (disk_data f) (disk_pos f + N.of_nat (length b)) (disk_chunk f));
  os_write_all bs f :=
    if fits (disk_pos f + N.of_nat (length bs))
    then (Ok (), mkDisk (overwrite (disk_data f) (N.to_nat (disk_pos f)) bs) (disk_pos f + N.of_nat (length bs)) (disk_chunk f))
    else (Err (mkError (OtherKind 0) "file too large"), f);
  os_flush f := (Ok (), f);
  os_seek pos f :=
    let t := seek_target pos (disk_pos f) (N.of_nat (length (disk_data f))) in
    if bool_decide (0 ≤ t ≤ i64_max)%Z then (Ok (Z.to_N t), mkDisk (disk_data f) (Z.to_N t) (disk_chunk f))
    else (Err (mkError InvalidInput "invalid argument"), f);
  os_sync_all f := (Ok (), f);
  os_sync_data f := (Ok (), f);
  os_set_len size f :=
    if fits size then (Ok (), mkDisk (resized (N.to_nat size) (disk_data f)) (disk_pos f) (disk_chunk f))
    else (Err (mkError (OtherKind 0) "file too large"), f)
|}.

Lemma overwrite_length data p bs :
  bs ≠ [] → length (overwrite data p bs) = length data `max` (p + length bs).
Proof.
  intros Hne. unfold overwrite. rewrite bool_decide_eq_false_2 by done.
  rewrite !length_app, length_padded, length_drop. lia.
Qed.

#[local] Program Instance Disk_laws : OsFileLaws Disk := {|
  os_at f data p := disk_data f = data ∧ disk_pos f = p ∧ (Z.of_N p ≤ i64_max)%Z ∧ (Z.of_nat (length data) ≤ i64_max)%Z
|}.
Next Obligation. by intros f data p (_ & _ & ? & ?). Qed.
Next Obligation.
  intros n f data p r f' (<- & <- & Hp & Hd) [= <- <-]. set (rest := drop (N.to_nat (disk_pos f)) (disk_data f)).
  split_and!; [apply prefix_take|rewrite length_take; lia| | done|done| |done].
  - intros Ht. apply (f_equal length) in Ht. rewrite length_take in Ht. unfold rest in Ht.
    rewrite length_drop in Ht. simpl in Ht. lia.
  - rewrite length_take. unfold rest. rewrite length_drop. simpl. lia.
Qed.
Next Obligation.
  intros bs f data p r f' (<- & <- & Hp & Hd) Hw. unfold os_write_all, Disk_OsFile, fits in Hw.
  case_bool_decide as Hfit; simplify_eq.
  - split_and!; [done|done|done|]. destruct (decide (bs = [])) as [->|Hne]; [done|]. rewrite overwrite_length by done. lia.
  - exists 0. rewrite take_0, N.add_0_r. split; [lia|]. by split_and!.
Qed.
Next Obligation. by intros f data p r f' Hat [= <- <-]. Qed.
Next Obligation.
  intros pos f data p r f' (<- & <- & Hp & Hd) Hs. unfold os_seek, Disk_OsFile in Hs. cbv zeta in Hs.
  case_bool_decide as Ht; simplify_eq; [|by split_and!]. split; [lia|]. split_and!; [done|done|lia|done].
Qed.
Next Obligation.
  intros f data p k (<- & <- & Hp & Hd) Hk. unfold os_seek, Disk_OsFile. cbv zeta. simpl seek_target.
  rewrite bool_decide_eq_true_2 by lia. eexists. f_equal. f_equal. lia.
Qed.
Next Obligation. by intros f data p r f' Hat [= <- <-]. Qed.
Next Obligation. by intros f data p r f' Hat [= <- <-]. Qed.
Next Obligation.
  intros size f data p r f' (<- & <- & Hp & Hd) Hs. unfold os_set_len, Disk_OsFile, fits in Hs.
  case_bool_decide as Ht; simplify_eq; [|by split_and!]. split_and!; [done|done|done|]. rewrite resized_length. lia.
Qed.

#[local] Instance needed : Reserve := λ additional v, (length (vec_bytes v) + additional) `max` vec_capacity v.
#[local] Instance needed_laws : ReserveLaws.
Proof. intros additional v. unfold reserve, needed. lia. Qed.
#[local] Instance needed_bounded : ReserveBounded.
Proof. intros additional v. unfold reserve, needed. lia. Qed.

Definition some_file : File Disk := File_new (mkDisk [x61; x62; x63] 1 0) true.

Lemma some_file_at : os_at (mkDisk [x61; x62; x63] 1 0) [x61; x62; x63] 1.
Proof. split_and!; [done|done|unfold i64_max; lia|simpl; unfold i64_max; lia]. Qed.
Lemma some_file_ok : file_ok some_file [x61; x62; x63] 1.
Proof. apply file_new_ok, some_file_at. Qed.

Lemma file_refines_witness :
  poll_meets 7 [x61; x62; x63] 1 some_file (write_meets [x7a] [x61; x62; x63] 1) (File_poll_write 7 [x7a] some_file).
Proof.
  apply (file_refines some_file [x61; x62; x63] 1 7 4 [x7a] (SeekStart 0) 9 some_file_ok);
    [lia|unfold i64_max; lia|simpl; unfold i64_max; lia].
Defined.

Lemma file_invariant_witness :
  ∃ this woken, File_poll_read 7 2 some_file = Done (Pending, this, woken) ∧ running this = Some ReadJob ∧
    (locked this = true ↔ running this ≠ None).
Proof.
  do 2 eexists. split; [reflexivity|]. split; [reflexivity|].
  apply (file_invariant (mkDisk [x61; x62; x63] 1 0) true [x61; x62; x63] 1); [apply some_file_at|].
  eapply reaches_step; [apply reaches_here|]. eapply (step_read 7 2); [lia|unfold i64_max; lia|reflexivity].
Defined.

Lemma file_drop_ends_witness : ∃ this', File_drop 4 7 some_file = Done this'.
Proof. apply (file_drop_ends some_file [x61; x62; x63] 1 7 some_file_ok). Defined.

Lemma file_cache_faults_witness :
  ∃ this : File Disk, midway (value this) = true ∧ File_poll_read 7 5 this = Panic.
Proof.
  exists (mkFile false (mkState (mkDisk [x61; x62; x63] 2 0) (Reading 1) [x61; x62] 2 true None None) [] None None).
  split; [reflexivity|].
  apply (file_cache_faults _ (mkState (mkDisk [x61; x62; x63] 2 0) (Reading 1) [x61; x62] 2 true None None) 7 5 9);
    reflexivity.
Defined.

(** A file is flushed by a thread of the pool in [into_raw_fd]; whether the thread is
    done with its guard when the [Arc] is unwrapped decides between the descriptor
    and a panic. *)
#[local] Instance Disk_fd : RawFile Disk nat := {| raw_fd _ := 3; from_fd _ := mkDisk [] 0 0 |}.

Definition flushed_by_job (ending : nat) (owner : Owner nat) : Handles (F:=Disk) (Fd:=nat) :=
  mkHandles (mkFile false (mkState (mkDisk [x61] 0 0) Idle [] 0 true None None) [] None None)
    3 (1 + ending) 0 ending owner.

Lemma flushing_reachable : handles_reachable (mkDisk [x61] 0 0) false (flushed_by_job 1 Flushing).
Proof.
  eapply rtc_l; [apply (handles_into 7); reflexivity|]. eapply rtc_l; [apply (handles_into 7); reflexivity|].
  eapply rtc_l; [eapply handles_job; reflexivity|]. apply rtc_refl.
Qed.

(** [into_raw_fd] once the file is flushed. *)
Definition unwrapped (h : Handles (F:=Disk) (Fd:=nat)) : option (Owner nat) :=
  let next (o : option (Handles (F:=Disk) (Fd:=nat))) := match o with Some h => into_raw_fd_step 7 h | None => None end in
  match next (next (next (next (Some h)))) with Some h => Some (owner h) | None => None end.

Lemma unwrapped_reachable h o :
  handles_reachable (mkDisk [x61] 0 0) false h → unwrapped h = Some o →
  ∃ h', handles_reachable (mkDisk [x61] 0 0) false h' ∧ owner h' = o.
Proof.
  unfold unwrapped. intros Hh Hu.
  destruct (into_raw_fd_step 7 h) as [h1|] eqn:H1; [|done]. simpl in Hu.
  destruct (into_raw_fd_step 7 h1) as [h2|] eqn:H2; [|done]. simpl in Hu.
  destruct (into_raw_fd_step 7 h2) as [h3|] eqn:H3; [|done]. simpl in Hu.
  destruct (into_raw_fd_step 7 h3) as [h4|] eqn:H4; [|done]. injection Hu as <-.
  exists h4. split; [|done]. unfold handles_reachable in *. etrans; [exact Hh|].
  do 4 (eapply rtc_l; [eapply (handles_into 7); eassumption|]). apply rtc_refl.
Qed.

Example into_raw_fd_races :
  (∃ h, handles_reachable (mkDisk [x61] 0 0) false h ∧ owner h = Panicked (Fd:=nat)) ∧
  (∃ h, handles_reachable (mkDisk [x61] 0 0) false h ∧ owner h = Returned 3).
Proof.
  split.
  - by apply (unwrapped_reachable (flushed_by_job 1 Flushing) _ flushing_reachable).
  - apply (unwrapped_reachable (flushed_by_job 0 Flushing)); [|reflexivity].
    unfold handles_reachable. etrans; [exact flushing_reachable|]. eapply rtc_l; [apply (handles_job_ends (flushed_by_job 1 Flushing)); cbn; lia|].
    apply rtc_refl.
Qed.
