(* ===== verification/Future.v ===== *)
(** The combinators of futures (src/src/future): [MaybeDone], [Join], [TryJoin],
    [Race], [TryRace], [FlattenFuture], [DelayFuture], [TimeoutFuture], and the
    futures [ready], [pending], [poll_fn] and [yield_now]. *)

From S2P Require Import Prelude Async.
Local Open Scope async_scope.

(** * maybe_done.rs *)

Inductive MaybeDone (Fut T : Type) : Type :=
| MdFuture (future : Fut)
| MdDone (output : T)
| MdGone.
Arguments MdFuture {Fut T}.
Arguments MdDone {Fut T}.
Arguments MdGone {Fut T}.

Section MaybeDone.
Context {Fut T : Type}.
Implicit Types (this : MaybeDone Fut T).

Definition MaybeDone_new (future : Fut) : MaybeDone Fut T := MdFuture future.
Definition MaybeDone_output this : option T := match this with MdDone res => Some res | _ => None end.
Definition MaybeDone_take this : option T * MaybeDone Fut T :=
  match this with
  | MdDone output => (Some output, MdGone)
  | MdFuture _ | MdGone => (None, this)
  end.
Definition MaybeDone_poll `{Future Fut T} (fuel : nat) this : Eff (Poll () * MaybeDone Fut T) :=
  match this with
  | MdFuture a =>
      '(r, a) ← poll fuel a;
      ready! res := r else mret (Pending, MdFuture a) in
      mret (Ready (), MdDone res)
  | MdDone _ => mret (Ready (), this)
  | MdGone => eff_panic
  end.
End MaybeDone.
#[global] Instance MaybeDone_Future `{Future Fut T} : Future (MaybeDone Fut T) () := MaybeDone_poll.

Definition is_ready {A : Type} (p : Poll A) : bool := match p with Ready _ => true | Pending => false end.
Definition is_some {A : Type} (o : option A) : bool := match o with Some _ => true | None => false end.
Definition is_ok {A E : Type} (r : Result A E) : bool := match r with Ok _ => true | Err _ => false end.
Definition result_ok {A E : Type} (r : Result A E) : option A := match r with Ok a => Some a | Err _ => None end.
Definition result_err {A E : Type} (r : Result A E) : option E := match r with Ok _ => None | Err e => Some e end.

(** * join.rs, try_join.rs *)

(** The two futures of [Join], [TryJoin], [Race] and [TryRace]. *)
Record Both (L A R B : Type) : Type := mkBoth { left : MaybeDone L A; right : MaybeDone R B }.
Arguments mkBoth {L A R B}.
Arguments left {L A R B}.
Arguments right {L A R B}.

Section Both.
Context {L A R B : Type} `{Future L A} `{Future R B}.

Definition Both_new (left : L) (right : R) : Both L A R B := mkBoth (MaybeDone_new left) (MaybeDone_new right).

(** [(left.take().unwrap(), right.take().unwrap())]. *)
Definition take_both (this : Both L A R B) : Eff ((A * B) * Both L A R B) :=
  let '(a, left) := MaybeDone_take (left this) in
  a ← unwrap a;
  let '(b, right) := MaybeDone_take (right this) in
  b ← unwrap b;
  mret (a, b, mkBoth left right).

Definition Join_poll (fuel : nat) (this : Both L A R B) : Eff (Poll (A * B) * Both L A R B) :=
  '(p, left) ← poll (T:=()) fuel (left this);
  let is_left_ready := is_ready p in
  if is_left_ready && is_some (MaybeDone_output (right this)) then
    '(ab, this) ← take_both (mkBoth left (right this));
    mret (Ready ab, this)
  else
    '(p, right) ← poll (T:=()) fuel (right this);
    let is_right_ready := is_ready p in
    if is_right_ready && is_some (MaybeDone_output left) then
      '(ab, this) ← take_both (mkBoth left right);
      mret (Ready ab, this)
    else mret (Pending, mkBoth left right).
End Both.

Record Join (L A R B : Type) : Type := mkJoin { join_both : Both L A R B }.
Arguments mkJoin {L A R B}.
Arguments join_both {L A R B}.
Definition Join_new {L A R B : Type} (left : L) (right : R) : Join L A R B := mkJoin (Both_new left right).
#[global] Instance Join_Future `{Future L A} `{Future R B} : Future (Join L A R B) (A * B) :=
  λ fuel this, '(p, both) ← Join_poll fuel (join_both this); mret (p, mkJoin both).

Section TryJoin.
Context {L R A B E : Type} `{Future L (Result A E)} `{Future R (Result B E)}.

(** [Ok((left.take().unwrap().ok().unwrap(), right.take().unwrap().ok().unwrap()))]. *)
Definition take_oks (this : Both L (Result A E) R (Result B E)) :
    Eff (Result (A * B) E * Both L (Result A E) R (Result B E)) :=
  '(ab, this) ← take_both this;
  a ← unwrap (result_ok (fst ab));
  b ← unwrap (result_ok (snd ab));
  mret (Ok (a, b), this).

Definition TryJoin_poll (fuel : nat) (this : Both L (Result A E) R (Result B E)) :
    Eff (Poll (Result (A * B) E) * Both L (Result A E) R (Result B E)) :=
  let poll_right left :=
    '(p, right) ← poll (T:=()) fuel (right this);
    if is_ready p then
      r ← unwrap (MaybeDone_output right);
      if negb (is_ok r) then
        let '(o, right) := MaybeDone_take right in
        o ← unwrap o;
        e ← unwrap (result_err o);
        mret (Ready (Err e), mkBoth left right)
      else if is_some (MaybeDone_output left) then
        '(ab, this) ← take_oks (mkBoth left right);
        mret (Ready ab, this)
      else mret (Pending, mkBoth left right)
    else mret (Pending, mkBoth left right) in
  '(p, left) ← poll (T:=()) fuel (left this);
  if is_ready p then
    l ← unwrap (MaybeDone_output left);
    if negb (is_ok l) then
      let '(o, left) := MaybeDone_take left in
      o ← unwrap o;
      e ← unwrap (result_err o);
      mret (Ready (Err e), mkBoth left (right this))
    else if is_some (MaybeDone_output (right this)) then
      '(ab, this) ← take_oks (mkBoth left (right this));
      mret (Ready ab, this)
    else poll_right left
  else poll_right left.
End TryJoin.

Record TryJoin (L A R B : Type) : Type := mkTryJoin { try_join_both : Both L A R B }.
Arguments mkTryJoin {L A R B}.
Arguments try_join_both {L A R B}.
Definition TryJoin_new {L A R B : Type} (left : L) (right : R) : TryJoin L A R B := mkTryJoin (Both_new left right).
#[global] Instance TryJoin_Future `{Future L (Result A E)} `{Future R (Result B E)} :
    Future (TryJoin L (Result A E) R (Result B E)) (Result (A * B) E) :=
  λ fuel this, '(p, both) ← TryJoin_poll fuel (try_join_both this); mret (p, mkTryJoin both).

(** * race.rs, try_race.rs *)

Section Race.
Context {L R A : Type} `{Future L A} `{Future R A}.
Definition Race_poll (fuel : nat) (this : Both L A R A) : Eff (Poll A * Both L A R A) :=
  '(p, left) ← poll (T:=()) fuel (left this);
  if is_ready p then
    let '(o, left) := MaybeDone_take left in
    a ← unwrap o;
    mret (Ready a, mkBoth left (right this))
  else
    '(p, right) ← poll (T:=()) fuel (right this);
    if is_ready p then
      let '(o, right) := MaybeDone_take right in
      a ← unwrap o;
      mret (Ready a, mkBoth left right)
    else mret (Pending, mkBoth left right).
End Race.

Record Race (L A R : Type) : Type := mkRace { race_both : Both L A R A }.
Arguments mkRace {L A R}.
Arguments race_both {L A R}.
Definition Race_new {L A R : Type} (left : L) (right : R) : Race L A R := mkRace (Both_new left right).
#[global] Instance Race_Future `{Future L A} `{Future R A} : Future (Race L A R) A :=
  λ fuel this, '(p, both) ← Race_poll fuel (race_both this); mret (p, mkRace both).

Section TryRace.
Context {L R T E : Type} `{Future L (Result T E)} `{Future R (Result T E)}.
Definition TryRace_poll (fuel : nat) (this : Both L (Result T E) R (Result T E)) :
    Eff (Poll (Result T E) * Both L (Result T E) R (Result T E)) :=
  let poll_right left_errored left :=
    '(p, right) ← poll (T:=()) fuel (right this);
    (* [is_ready && (.. || ..)], whose second part is evaluated only after the first *)
    won ← (if is_ready p then r ← unwrap (MaybeDone_output right); mret (is_ok r || left_errored) else mret false);
    if (won : bool) then
      let '(o, right) := MaybeDone_take right in
      a ← unwrap o;
      mret (Ready a, mkBoth left right)
    else mret (Pending, mkBoth left right) in
  '(p, left) ← poll (T:=()) fuel (left this);
  if is_ready p then
    l ← unwrap (MaybeDone_output left);
    if is_ok l then
      let '(o, left) := MaybeDone_take left in
      a ← unwrap o;
      mret (Ready a, mkBoth left (right this))
    else poll_right true left
  else poll_right false left.
End TryRace.

Record TryRace (L A R : Type) : Type := mkTryRace { try_race_both : Both L A R A }.
Arguments mkTryRace {L A R}.
Arguments try_race_both {L A R}.
Definition TryRace_new {L A R : Type} (left : L) (right : R) : TryRace L A R := mkTryRace (Both_new left right).
#[global] Instance TryRace_Future `{Future L (Result T E)} `{Future R (Result T E)} :
    Future (TryRace L (Result T E) R) (Result T E) :=
  λ fuel this, '(p, both) ← TryRace_poll fuel (try_race_both this); mret (p, mkTryRace both).

(** * flatten.rs *)

(** The trait [IntoFuture] of into_future.rs; every future is its own. *)
Class IntoFuture (I F : Type) : Type := into_future : I → F.

Inductive FlattenFuture (Fut1 Fut2 : Type) : Type :=
| First (fut1 : Fut1)
| Second (fut2 : Fut2)
| Empty.
Arguments First {Fut1 Fut2}.
Arguments Second {Fut1 Fut2}.
Arguments Empty {Fut1 Fut2}.

Definition FlattenFuture_new {Fut1 Fut2 : Type} (future : Fut1) : FlattenFuture Fut1 Fut2 := First future.

Section Flatten.
Context {Fut1 I Fut2 T : Type} `{Future Fut1 I} `{Future Fut2 T} `{!IntoFuture I Fut2}.
Definition Flatten_round (fuel : nat) (this : FlattenFuture Fut1 Fut2) :
    Eff (FlattenFuture Fut1 Fut2 + (Poll T * FlattenFuture Fut1 Fut2)) :=
  match this with
  | First fut1 =>
      '(p, fut1) ← poll fuel fut1;
      match p with
      | Pending => mret (inr (Pending, First fut1))
      | Ready i => mret (inl (Second (into_future i)))
      end
  | Second fut2 =>
      '(p, fut2) ← poll fuel fut2;
      match p with
      | Pending => mret (inr (Pending, Second fut2))
      | Ready v => mret (inr (Ready v, Empty))
      end
  | Empty => eff_panic
  end.
Definition Flatten_poll (fuel : nat) (this : FlattenFuture Fut1 Fut2) :
    Eff (Poll T * FlattenFuture Fut1 Fut2) := loop_poll Flatten_round fuel this.
End Flatten.

(** * delay.rs, timeout.rs *)

(** [D] is the timer, [futures_timer::Delay]. *)
Record DelayFuture (F D : Type) : Type := mkDelayFuture { df_future : F; df_delay : D }.
Arguments mkDelayFuture {F D}.
Arguments df_future {F D}.
Arguments df_delay {F D}.
Definition DelayFuture_poll {T : Type} `{Future F T} `{Future D ()} (fuel : nat) (this : DelayFuture F D) :
    Eff (Poll T * DelayFuture F D) :=
  '(p, delay) ← poll (T:=()) fuel (df_delay this);
  match p with
  | Pending => mret (Pending, mkDelayFuture (df_future this) delay)
  | Ready _ =>
      '(p, future) ← poll fuel (df_future this);
      match p with
      | Ready v => mret (Ready v, mkDelayFuture future delay)
      | Pending => mret (Pending, mkDelayFuture future delay)
      end
  end.
#[global] Instance DelayFuture_Future `{Future F T} `{Future D ()} : Future (DelayFuture F D) T := DelayFuture_poll.

Inductive TimeoutError : Type := mkTimeoutError.
Record TimeoutFuture (F D : Type) : Type := mkTimeoutFuture { tf_future : F; tf_delay : D }.
Arguments mkTimeoutFuture {F D}.
Arguments tf_future {F D}.
Arguments tf_delay {F D}.
Definition TimeoutFuture_poll {T : Type} `{Future F T} `{Future D ()} (fuel : nat) (this : TimeoutFuture F D) :
    Eff (Poll (Result T TimeoutError) * TimeoutFuture F D) :=
  '(p, future) ← poll fuel (tf_future this);
  match p with
  | Ready v => mret (Ready (Ok v), mkTimeoutFuture future (tf_delay this))
  | Pending =>
      '(p, delay) ← poll (T:=()) fuel (tf_delay this);
      match p with
      | Ready _ => mret (Ready (Err mkTimeoutError), mkTimeoutFuture future delay)
      | Pending => mret (Pending, mkTimeoutFuture future delay)
      end
  end.
#[global] Instance TimeoutFuture_Future `{Future F T} `{Future D ()} :
    Future (TimeoutFuture F D) (Result T TimeoutError) := TimeoutFuture_poll.

(** * ready.rs, pending.rs, poll_fn.rs *)

(** The future of [async fn ready]; it panics when polled after its end. *)
Inductive ReadyFuture (T : Type) : Type :=
| ReadyStart (val : T)
| ReadyEnd.
Arguments ReadyStart {T}.
Arguments ReadyEnd {T}.
Definition ready_poll {T : Type} (fuel : nat) (this : ReadyFuture T) : Eff (Poll T * ReadyFuture T) :=
  match this with
  | ReadyStart val => mret (Ready val, ReadyEnd)
  | ReadyEnd => eff_panic
  end.
#[global] Instance ready_Future {T} : Future (ReadyFuture T) T := ready_poll.

Inductive PendingFuture (T : Type) : Type := mkPending.
Definition Pending_poll {T : Type} (fuel : nat) (this : PendingFuture T) : Eff (Poll T * PendingFuture T) :=
  mret (Pending, this).

(** [F] is a closure over the context. *)
Record PollFn (F : Type) : Type := mkPollFn { pf_f : F }.
Arguments mkPollFn {F}.
Arguments pf_f {F}.
Definition PollFn_poll {F T : Type} (call : F → Eff (Poll T * F)) (fuel : nat) (this : PollFn F) :
    Eff (Poll T * PollFn F) :=
  '(p, f) ← call (pf_f this); mret (p, mkPollFn f).

(** * task/yield_now.rs *)

Record YieldNow : Type := mkYieldNow { yielded : bool }.
Definition yield_now : YieldNow := mkYieldNow false.
Definition YieldNow_poll (fuel : nat) (this : YieldNow) : Eff (Poll () * YieldNow) :=
  if negb (yielded this) then
    wake_by_ref;;
    mret (Pending, mkYieldNow true)
  else mret (Ready (), this).
#[global] Instance YieldNow_Future : Future YieldNow () := YieldNow_poll.
#[global] Instance Pending_Future {T} : Future (PendingFuture T) T := Pending_poll.
#[global] Instance Flatten_Future `{Future Fut1 Inn} `{Future Fut2 T} `{!IntoFuture Inn Fut2} :
  Future (FlattenFuture Fut1 Fut2) T := Flatten_poll (I:=Inn).

(** * future/mod.rs *)

(** The extension methods; [Delay::new(dur)] is made by the caller's timer. *)
Module FutureExt.
Definition delay {F D : Type} (new_delay : N → D) (self : F) (dur : N) : DelayFuture F D := mkDelayFuture self (new_delay dur).
Definition flatten {F G : Type} (self : F) : FlattenFuture F G := FlattenFuture_new self.
Definition race {L A R : Type} (self : L) (other : R) : Race L A R := Race_new self other.
Definition try_race {L A R : Type} (self : L) (other : R) : TryRace L A R := TryRace_new self other.
Definition join {L A R B : Type} (self : L) (other : R) : Join L A R B := Join_new self other.
Definition try_join {L A R B : Type} (self : L) (other : R) : TryJoin L A R B := TryJoin_new self other.
Definition timeout {F D : Type} (new_delay : N → D) (self : F) (dur : N) : TimeoutFuture F D := mkTimeoutFuture self (new_delay dur).
End FutureExt.
