(* ===== verification/FutureSpec.v ===== *)
(** What the combinators of futures resolve to, and after how many polls: which of
    two futures wins a race, what is joined, what errors cut short. *)

From S2P Require Import Prelude Async Future.
Local Open Scope async_scope.

(** [ready_after n f v]: [f] is pending at the first [n] polls, and ready with [v]
    at the next. *)
Inductive ready_after `{Future F T} : nat → F → T → Prop :=
| ready_at fuel f v f' w : poll fuel f = Done ((Ready v, f'), w) → ready_after 0 f v
| ready_later fuel f f1 w n v : poll fuel f = Done ((Pending, f1), w) → ready_after n f1 v → ready_after (S n) f v.
#[export] Hint Constructors ready_after : async.

Lemma ready_after_resolves `{Future F T} n (f : F) v : ready_after n f v → resolves_to f v.
Proof.
  induction 1 as [fuel f v f' w Hp|fuel f f1 w n v Hp _ [f' IH]]; [exists f'|exists f']; eauto with async.
Qed.

Lemma resolves_ready_after `{Future F T} (f : F) v : resolves_to f v → ∃ n, ready_after n f v.
Proof.
  intros [f' Hr]. induction Hr as [n f v f' w Hp|n f f1 v f' w Hp _ [k IH]]; [exists 0|exists (S k)]; eauto with async.
Qed.

(** * Laws of the combinators *)

Section Mono.
Context `{Future L A} `{Future R B} `{!FutureMono L} `{!FutureMono R}.
#[global] Instance MaybeDone_mono : FutureMono (MaybeDone L A).
Proof. intros s. unfold poll, MaybeDone_Future, MaybeDone_poll. solve_fuel_mono. Qed.
End Mono.

(** The first poll of a [MaybeDone], of which [n] more will be pending. *)
Section MaybeDone.
Context `{Future F T} `{!FutureMono F}.

(** [md n v m]: [m] is done with [v] when [n] is 0 and the poll that made it so
    has been; otherwise it will be. *)
Inductive md_state (v : T) : option nat → MaybeDone F T → Prop :=
| md_done : md_state v None (MdDone v)
| md_running n f : ready_after n f v → md_state v (Some n) (MdFuture f).

(** After a poll. *)
Definition md_next (k : option nat) : option nat := match k with Some (S n) => Some n | _ => None end.

Lemma md_poll v k m :
  md_state v k m → ∃ fuel w m',
    (∀ fuel', fuel ≤ fuel' → MaybeDone_poll fuel' m =
       Done ((if k is Some (S _) then Pending else Ready (), m'), w)) ∧ md_state v (md_next k) m'.
Proof.
  intros [|n f Hr].
  - exists 0, [], (MdDone v). split; [done|constructor].
  - destruct Hr as [fuel f v f' w Hp|fuel f f1 w n v Hp Hr].
    + exists fuel, w, (MdDone v). split; [|constructor]. intros fuel' Hle.
      pose proof (future_mono f fuel fuel' _ Hle Hp) as Hp'. simpl. rewrite Hp'. simpl. by rewrite app_nil_r.
    + exists fuel, w, (MdFuture f1). split; [|by constructor]. intros fuel' Hle.
      pose proof (future_mono f fuel fuel' _ Hle Hp) as Hp'. simpl. rewrite Hp'. simpl. by rewrite app_nil_r.
Qed.
End MaybeDone.

#[local] Arguments MaybeDone_poll : simpl never.

(** How many polls are still pending. *)
Definition left_of (k : option nat) : nat := default 0 k.

(** Runs a poll of two [MaybeDone]s in each of their states. *)
Ltac md_shape :=
  repeat match goal with
    | H : md_state _ None ?m |- _ => inversion H; clear H; subst
    | H : md_state _ (Some _) ?m |- _ => is_var m; inversion H; subst
    end.
Ltac run_both Hl Hr kl kr :=
  let f1 := fresh "f1" in let f2 := fresh "f2" in let w1 := fresh "w1" in let w2 := fresh "w2" in
  let l' := fresh "l'" in let r' := fresh "r'" in
  let Hpl := fresh "Hpl" in let Hpr := fresh "Hpr" in let Hl' := fresh "Hl'" in let Hr' := fresh "Hr'" in
  destruct (md_poll _ _ _ Hl) as (f1 & w1 & l' & Hpl & Hl');
  destruct (md_poll _ _ _ Hr) as (f2 & w2 & r' & Hpr & Hr');
  specialize (Hpl (f1 `max` f2) ltac:(lia)); specialize (Hpr (f1 `max` f2) ltac:(lia));
  exists (f1 `max` f2);
  destruct kl as [[|?nl]|]; destruct kr as [[|?nr]|]; simpl in Hpl, Hpr, Hl', Hr';
  unfold poll, MaybeDone_Future; rewrite Hpl;
  md_shape; simpl; try rewrite Hpr; simpl.

(** Closes what is left of a step once the poll has been run. *)
Ltac both_done :=
  do 3 eexists; (split; [reflexivity|]); simpl;
  repeat match goal with |- _ ∧ _ => split end;
  first [done | by constructor | lia | naive_solver lia | idtac].

Section Both.
Context `{Future L A} `{Future R B} {V : Type} (Q : nat → Both L A R B → Eff (Poll V * Both L A R B)).
Implicit Types (kl kr : option nat).

(** A combinator that is pending [rank] times more, as long as [Inv] holds. *)
Definition step_meets (a : A) (b : B) (v : V) (Inv : option nat → option nat → Prop)
    (rank : option nat → option nat → nat) : Prop :=
  ∀ kl kr (l : MaybeDone L A) (r : MaybeDone R B), Inv kl kr → md_state a kl l → md_state b kr r →
  ∃ fuel p both' w, Q fuel (mkBoth l r) = Done ((p, both'), w) ∧
    match rank kl kr with
    | 0 => p = Ready v
    | S n => p = Pending ∧ md_state a (md_next kl) (left both') ∧ md_state b (md_next kr) (right both') ∧
        rank (md_next kl) (md_next kr) = n ∧ Inv (md_next kl) (md_next kr)
    end.

Lemma both_ready {J} (wrap : Both L A R B → J) `{Future J V} a b v Inv rank :
  (∀ fuel x, poll fuel (wrap x) = ('(p, both) ← Q fuel x; mret (p, wrap both))) →
  step_meets a b v Inv rank →
  ∀ kl kr l r, Inv kl kr → md_state a kl l → md_state b kr r → ready_after (rank kl kr) (wrap (mkBoth l r)) v.
Proof.
  intros Hw Hs kl kr. remember (rank kl kr) as n eqn:Hn. revert kl kr Hn.
  induction n as [|n IH]; intros kl kr Hn l r Hi Hl Hr;
    destruct (Hs kl kr l r Hi Hl Hr) as (fuel & p & [l' r'] & w & Hq & Hm); rewrite <- Hn in Hm.
  - subst p. eapply ready_at. rewrite Hw, Hq. reflexivity.
  - destruct Hm as (-> & Hl' & Hr' & Hrank & Hi'). eapply ready_later.
    + rewrite Hw, Hq. reflexivity.
    + by apply (IH (md_next kl) (md_next kr)).
Qed.
End Both.

(** * Joins and races *)

Section Combinators.
Context `{Future L A} `{Future R B} `{!FutureMono L} `{!FutureMono R}.

Lemma join_step (a : A) (b : B) :
  step_meets (L:=L) (R:=R) Join_poll a b (a, b) (λ _ _, True) (λ kl kr, left_of kl `max` left_of kr).
Proof. intros kl kr l r _ Hl Hr. unfold Join_poll. simpl. run_both Hl Hr kl kr; both_done. Qed.

Lemma Join_ready (l : L) (r : R) (a : A) (b : B) nl nr :
  ready_after nl l a → ready_after nr r b → ready_after (nl `max` nr) (Join_new l r) (a, b).
Proof.
  intros Hl Hr. apply (both_ready Join_poll mkJoin a b (a, b) (λ _ _, True)
    (λ kl kr, left_of kl `max` left_of kr)) with (kl := Some nl) (kr := Some nr);
    [done|apply join_step|done|by constructor|by constructor].
Qed.
End Combinators.

Section Races.
Context `{Future L A} `{Future R A} `{!FutureMono L} `{!FutureMono R}.

(** The first future wins, the left one if both are ready at the same poll. *)
Lemma race_step (a b v : A) :
  step_meets (L:=L) (R:=R) Race_poll a b v
    (λ kl kr, kl ≠ None ∧ kr ≠ None ∧ v = if left_of kl <=? left_of kr then a else b)
    (λ kl kr, left_of kl `min` left_of kr).
Proof.
  intros kl kr l r (Hkl & Hkr & Hv) Hl Hr. unfold Race_poll. simpl. run_both Hl Hr kl kr; try done; both_done.
Qed.

Lemma Race_ready (l : L) (r : R) (a b : A) nl nr :
  ready_after nl l a → ready_after nr r b → ready_after (nl `min` nr) (Race_new l r) (if nl <=? nr then a else b).
Proof.
  intros Hl Hr. eapply (both_ready Race_poll mkRace a b _ _
    (λ kl kr, left_of kl `min` left_of kr)) with (kl := Some nl) (kr := Some nr);
    [done|apply race_step|done|by constructor|by constructor].
Qed.
End Races.

Section TryJoin.
Context {L R A B E : Type} `{Future L (Result A E)} `{Future R (Result B E)} `{!FutureMono L} `{!FutureMono R}.

Lemma try_join_step_ok (a : A) (b : B) :
  step_meets (L:=L) (R:=R) TryJoin_poll (Ok a) (Ok b) (Ok (E:=E) (a, b)) (λ _ _, True)
    (λ kl kr, left_of kl `max` left_of kr).
Proof. intros kl kr l r _ Hl Hr. unfold TryJoin_poll. simpl. run_both Hl Hr kl kr; both_done. Qed.

(** The left future's error comes first. *)
Lemma try_join_step_left (e : E) (b : Result B E) :
  step_meets (L:=L) (R:=R) TryJoin_poll (Err (A:=A) e) b (Err e)
    (λ kl kr, kl ≠ None ∧ (is_ok b = false → kr ≠ None ∧ left_of kl ≤ left_of kr)) (λ kl _, left_of kl).
Proof.
  intros kl kr l r (Hkl & Hb) Hl Hr. unfold TryJoin_poll. simpl. destruct b as [b|e'].
  - run_both Hl Hr kl kr; try done; both_done.
  - specialize (Hb eq_refl). run_both Hl Hr kl kr; try done; destruct Hb; simpl in *; try lia; both_done.
Qed.

(** The right future's error comes first. *)
Lemma try_join_step_right (e : E) (a : Result A E) :
  step_meets (L:=L) (R:=R) TryJoin_poll a (Err (A:=B) e) (Err e)
    (λ kl kr, kr ≠ None ∧ (is_ok a = false → kl ≠ None ∧ left_of kr < left_of kl)) (λ _ kr, left_of kr).
Proof.
  intros kl kr l r (Hkr & Ha) Hl Hr. unfold TryJoin_poll. simpl. destruct a as [a|e'].
  - run_both Hl Hr kl kr; try done; both_done.
  - specialize (Ha eq_refl). run_both Hl Hr kl kr; try done; destruct Ha; simpl in *; try lia; both_done.
Qed.

Definition try_joined (nl nr : nat) (a : Result A E) (b : Result B E) : nat * Result (A * B) E :=
  match a, b with
  | Ok a, Ok b => (nl `max` nr, Ok (a, b))
  | Err e, Ok _ => (nl, Err e)
  | Ok _, Err e => (nr, Err e)
  | Err e, Err e' => if nl <=? nr then (nl, Err e) else (nr, Err e')
  end.

Lemma TryJoin_ready (l : L) (r : R) a b nl nr :
  ready_after nl l a → ready_after nr r b →
  ready_after (fst (try_joined nl nr a b)) (TryJoin_new l r) (snd (try_joined nl nr a b)).
Proof.
  intros Hl Hr. assert (∀ v Inv rank, step_meets (L:=L) (R:=R) TryJoin_poll a b v Inv rank → Inv (Some nl) (Some nr) →
    ready_after (rank (Some nl) (Some nr)) (TryJoin_new l r) v) as Hb.
  { intros v Inv rank Hs Hi. by apply (both_ready TryJoin_poll mkTryJoin a b v Inv rank); [|..|constructor|constructor]. }
  destruct a as [a|e], b as [b|e']; simpl.
  - by apply (Hb _ _ _ (try_join_step_ok a b)).
  - apply (Hb _ _ _ (try_join_step_right e' (Ok a))). by split.
  - apply (Hb _ _ _ (try_join_step_left e (Ok b))). by split.
  - destruct (Nat.leb_spec nl nr).
    + apply (Hb _ _ _ (try_join_step_left e (Err e'))). by split.
    + apply (Hb _ _ _ (try_join_step_right e' (Err e))). by split.
Qed.
End TryJoin.

Section TryRace.
Context {L R T E : Type} `{Future L (Result T E)} `{Future R (Result T E)} `{!FutureMono L} `{!FutureMono R}.

(** The left future's success comes first. *)
Lemma try_race_step_left (a : T) (b : Result T E) :
  step_meets (L:=L) (R:=R) TryRace_poll (Ok a) b (Ok a)
    (λ kl kr, kl ≠ None ∧ (is_ok b = true → kr ≠ None ∧ left_of kl ≤ left_of kr)) (λ kl _, left_of kl).
Proof.
  intros kl kr l r (Hkl & Hb) Hl Hr. unfold TryRace_poll. simpl. destruct b as [b|e'].
  - specialize (Hb eq_refl). run_both Hl Hr kl kr; try done; destruct Hb; simpl in *; try lia; both_done.
  - run_both Hl Hr kl kr; try done; both_done.
Qed.

(** The right future's success comes first. *)
Lemma try_race_step_right (a : Result T E) (b : T) :
  step_meets (L:=L) (R:=R) TryRace_poll a (Ok b) (Ok b)
    (λ kl kr, kr ≠ None ∧ (is_ok a = true → kl ≠ None ∧ left_of kr < left_of kl)) (λ _ kr, left_of kr).
Proof.
  intros kl kr l r (Hkr & Ha) Hl Hr. unfold TryRace_poll. simpl. destruct a as [a|e'].
  - specialize (Ha eq_refl). run_both Hl Hr kl kr; try done; destruct Ha; simpl in *; try lia; both_done.
  - run_both Hl Hr kl kr; try done; both_done.
Qed.

(** Both fail. *)
Lemma try_race_step_err (e e' : E) :
  step_meets (L:=L) (R:=R) TryRace_poll (Err (A:=T) e) (Err (A:=T) e') (Err e')
    (λ _ _, True) (λ kl kr, left_of kl `max` left_of kr).
Proof. intros kl kr l r _ Hl Hr. unfold TryRace_poll. simpl. run_both Hl Hr kl kr; both_done. Qed.

Definition try_raced (nl nr : nat) (a b : Result T E) : nat * Result T E :=
  match a, b with
  | Ok a, Ok b => if nl <=? nr then (nl, Ok a) else (nr, Ok b)
  | Ok a, Err _ => (nl, Ok a)
  | Err _, Ok b => (nr, Ok b)
  | Err _, Err e => (nl `max` nr, Err e)
  end.

Lemma TryRace_ready (l : L) (r : R) (a b : Result T E) nl nr :
  ready_after nl l a → ready_after nr r b →
  ready_after (fst (try_raced nl nr a b)) (TryRace_new l r : TryRace L (Result T E) R) (snd (try_raced nl nr a b)).
Proof.
  intros Hl Hr. assert (∀ v Inv rank, step_meets (L:=L) (R:=R) TryRace_poll a b v Inv rank → Inv (Some nl) (Some nr) →
    ready_after (rank (Some nl) (Some nr)) (TryRace_new l r : TryRace L (Result T E) R) v) as Hb.
  { intros v Inv rank Hs Hi. by apply (both_ready TryRace_poll mkTryRace a b v Inv rank); [|..|constructor|constructor]. }
  destruct a as [a|e], b as [b|e']; simpl.
  - destruct (Nat.leb_spec nl nr).
    + apply (Hb _ _ _ (try_race_step_left a (Ok b))). by split.
    + apply (Hb _ _ _ (try_race_step_right (Ok a) b)). by split.
  - apply (Hb _ _ _ (try_race_step_left a (Err e'))). by split.
  - apply (Hb _ _ _ (try_race_step_right (Err e) b)). by split.
  - by apply (Hb _ _ _ (try_race_step_err e e')).
Qed.
End TryRace.

(** * Sequences and time *)

(** A timer that has fired stays so. *)
Class TimerFused (D : Type) `{Future D ()} : Prop :=
  timer_fused n (d d' : D) w : poll (T:=()) n d = Done ((Ready (), d'), w) → ready_after 0 d' ().

Section Sequence.
Context `{Future F T} `{Future D ()} `{!FutureMono F} `{!FutureMono D}.

(** Two polls in a row, with fuel for both. *)
Lemma poll_pair {A B} `{Future A X} `{Future B Y} `{!FutureMono A} `{!FutureMono B} fa (a : A) ra fb (b : B) rb :
  poll fa a = Done ra → poll fb b = Done rb → poll (fa `max` fb) a = Done ra ∧ poll (fa `max` fb) b = Done rb.
Proof. intros Ha Hb. split; [eapply (future_mono a fa)|eapply (future_mono b fb)]; [lia|done|lia|done]. Qed.

Lemma DelayFuture_fired `{!TimerFused D} (f : F) (d : D) v nf :
  ready_after nf f v → ready_after 0 d () → ready_after nf (mkDelayFuture f d) v.
Proof.
  intros Hf. revert d. induction Hf as [fuel f v f' w Hp|fuel f f1 w nf v Hp _ IH]; intros d Hd;
    inversion Hd as [fd ? u d' w' Hd' |]; subst; pose proof (timer_fused _ _ _ _ Hd') as Hd1;
    destruct (poll_pair _ _ _ _ _ _ Hd' Hp) as [Hd2 Hp2].
  - eapply (ready_at (fd `max` fuel)). unfold poll, DelayFuture_Future, DelayFuture_poll. simpl.
    rewrite Hd2. simpl. rewrite Hp2. reflexivity.
  - eapply (ready_later (fd `max` fuel)); [|by apply (IH d')].
    unfold poll, DelayFuture_Future, DelayFuture_poll. simpl. rewrite Hd2. simpl. rewrite Hp2. reflexivity.
Qed.

(** The timer first, and only then the future. *)
Lemma DelayFuture_ready `{!TimerFused D} (f : F) (d : D) v nf nd :
  ready_after nf f v → ready_after nd d () → ready_after (nd + nf) (mkDelayFuture f d) v.
Proof.
  intros Hf. revert d. induction nd as [|nd IH]; intros d Hd; [by apply DelayFuture_fired|].
  inversion Hd as [|fd ? d1 w ? ? Hp Hd1]; subst. simpl. eapply (ready_later fd); [|by apply IH].
  unfold poll, DelayFuture_Future, DelayFuture_poll. simpl. rewrite Hp. reflexivity.
Qed.

(** The future's answer if it comes no later than the timer. *)
Lemma TimeoutFuture_ready (f : F) (d : D) v nf nd :
  ready_after nf f v → ready_after nd d () →
  ready_after (nf `min` nd) (mkTimeoutFuture f d) (if nf <=? nd then Ok v else Err mkTimeoutError).
Proof.
  intros Hf. revert nd d. induction Hf as [fuel f v f' w Hp|fuel f f1 w nf v Hp _ IH]; intros nd d Hd.
  - simpl. eapply (ready_at fuel). unfold poll, TimeoutFuture_Future, TimeoutFuture_poll. simpl. rewrite Hp. reflexivity.
  - inversion Hd as [fd ? u d' w' Hp'|fd ? d1 w' nd' ? Hp' Hd1]; subst; destruct (poll_pair _ _ _ _ _ _ Hp Hp') as [Hp2 Hd2].
    + simpl. eapply (ready_at (fuel `max` fd)). unfold poll, TimeoutFuture_Future, TimeoutFuture_poll. simpl.
      rewrite Hp2. simpl. rewrite Hd2. reflexivity.
    + simpl. eapply (ready_later (fuel `max` fd)); [|by apply IH].
      unfold poll, TimeoutFuture_Future, TimeoutFuture_poll. simpl. rewrite Hp2. simpl. rewrite Hd2. reflexivity.
Qed.
End Sequence.

Section Flatten.
Context {Fut1 Inn Fut2 T : Type} `{Future Fut1 Inn} `{Future Fut2 T} `{!IntoFuture Inn Fut2}.
Context `{!FutureMono Fut1} `{!FutureMono Fut2}.

Lemma Flatten_mono (t : FlattenFuture Fut1 Fut2) : fuel_mono (λ n, Flatten_round n t).
Proof. unfold Flatten_round. solve_fuel_mono. Qed.

(** The inner future is polled as soon as the outer one is ready. *)
Lemma Flatten_second (f : Fut2) v n :
  ready_after n f v → ready_after (F:=FlattenFuture Fut1 Fut2) n (Second f) v.
Proof.
  induction 1 as [fuel f v f' w Hp|fuel f f1 w n v Hp _ IH].
  - destruct (loop_poll_break Flatten_round Flatten_mono fuel (Second f) (Ready v, Empty) w) as [m Hm].
    { simpl. rewrite Hp. simpl. by rewrite app_nil_r. }
    eapply (ready_at m). exact Hm.
  - destruct (loop_poll_break Flatten_round Flatten_mono fuel (Second f) (Pending, Second f1) w) as [m Hm].
    { simpl. rewrite Hp. simpl. by rewrite app_nil_r. }
    eapply (ready_later m); [exact Hm|done].
Qed.

Lemma Flatten_ready (f : Fut1) i v n1 n2 :
  ready_after n1 f i → ready_after n2 (into_future i) v →
  ready_after (n1 + n2) (FlattenFuture_new f : FlattenFuture Fut1 Fut2) v.
Proof.
  intros H1 H2. unfold FlattenFuture_new. induction H1 as [fuel f i f' w Hp|fuel f f1 w n1 i Hp _ IH].
  - assert (Flatten_round fuel (First f) = Done (inl (Second (into_future i)), w)) as Hr.
    { simpl. rewrite Hp. simpl. by rewrite app_nil_r. }
    apply Flatten_second in H2. inversion H2 as [m ? ? t' w' Hq|m ? t' w' n ? Hq Ht]; subst;
      destruct (loop_poll_continue Flatten_round Flatten_mono _ _ _ _ _ _ _ Hr Hq) as [m' Hm'].
    + eapply (ready_at m'). exact Hm'.
    + eapply (ready_later m'); [exact Hm'|done].
  - destruct (loop_poll_break Flatten_round Flatten_mono fuel (First f) (Pending, First f1) w) as [m Hm].
    { simpl. rewrite Hp. simpl. by rewrite app_nil_r. }
    simpl. eapply (ready_later m); [exact Hm|by apply IH].
Qed.
End Flatten.

(** * The contract of wakers *)

Lemma md_outcome `{Future F T} `{!FutureWakes F} n (m m' : MaybeDone F T) p w :
  MaybeDone_poll n m = Done ((p, m'), w) →
  match p with
  | Ready _ => ∃ o, m' = MdDone o
  | Pending => w ≠ [] ∧ ∃ f, m' = MdFuture f
  end.
Proof.
  unfold MaybeDone_poll. intros Hp. destruct m as [f|o|]; [| |done].
  - apply eff_bind_done in Hp as ([r f1] & w1 & w2 & Hf & Hp & ->).
    destruct r as [res|]; apply eff_ret_done in Hp as [[= <- <-] ->]; [by eexists|].
    split; [|by eexists]. apply events_nonempty_l. by eapply future_wakes.
  - apply eff_ret_done in Hp as [[= <- <-] ->]. by eexists.
Qed.

Lemma outcome_eta {Ev A} (m : Act Ev A) :
  match m with Done (b, w) => Done (b, w) | Panic => Panic | OutOfFuel => OutOfFuel end = m.
Proof. by destruct m as [[? ?]| |]. Qed.

(** Opens the two polls of a combinator in a hypothesis. *)
Ltac wake_both Hp :=
  try rewrite outcome_eta in Hp;
  apply eff_bind_done in Hp; destruct Hp as ([?p ?m] & ?w & ?w & ?Hleft & Hp & ->);
  match goal with H : poll _ _ = Done ((?p, _), _) |- _ =>
    apply md_outcome in H; destruct p; [destruct H as [? ->]|destruct H as [? [? ->]]] end; simpl in Hp.

Section Wakes.
Context {L R A B E : Type}.

#[global] Instance Join_wakes `{Future L A} `{Future R B} `{!FutureWakes L} `{!FutureWakes R} :
  FutureWakes (Join L A R B).
Proof.
  intros n [[l r]] this' w Hp. unfold poll, Join_Future, Join_poll in Hp. simpl in Hp.
  apply eff_bind_done in Hp as ([p both] & w0 & w1 & Hp & Hret & ->). apply eff_ret_done in Hret as [[= -> <-] ->].
  rewrite app_nil_r. wake_both Hp.
  - destruct (is_some (MaybeDone_output r)); [inv_eff|]. wake_both Hp; inv_eff. auto with async.
  - wake_both Hp; inv_eff; auto with async.
Qed.
#[global] Instance Race_wakes `{Future L A} `{Future R A} `{!FutureWakes L} `{!FutureWakes R} :
  FutureWakes (Race L A R).
Proof.
  intros n [[l r]] this' w Hp. unfold poll, Race_Future, Race_poll in Hp. simpl in Hp.
  apply eff_bind_done in Hp as ([p both] & w0 & w1 & Hp & Hret & ->). apply eff_ret_done in Hret as [[= -> <-] ->].
  rewrite app_nil_r. wake_both Hp; [inv_eff|]. wake_both Hp; inv_eff; auto with async.
Qed.
#[global] Instance TryJoin_wakes `{Future L (Result A E)} `{Future R (Result B E)} `{!FutureWakes L} `{!FutureWakes R} :
  FutureWakes (TryJoin L (Result A E) R (Result B E)).
Proof.
  intros n [[l r]] this' w Hp. unfold poll, TryJoin_Future, TryJoin_poll in Hp. simpl in Hp.
  apply eff_bind_done in Hp as ([p both] & w0 & w1 & Hp & Hret & ->). apply eff_ret_done in Hret as [[= -> <-] ->].
  rewrite app_nil_r. wake_both Hp.
  - match type of Hp with context [is_ok ?o] => destruct o end; simpl in Hp; [|inv_eff].
    destruct (is_some (MaybeDone_output r)); [inv_eff|]. wake_both Hp; [|inv_eff; auto with async].
    match type of Hp with context [is_ok ?o] => destruct o end; simpl in Hp; inv_eff.
  - wake_both Hp; inv_eff; auto with async.
Qed.
#[global] Instance TryRace_wakes `{Future L (Result A E)} `{Future R (Result A E)} `{!FutureWakes L} `{!FutureWakes R} :
  FutureWakes (TryRace L (Result A E) R).
Proof.
  intros n [[l r]] this' w Hp. unfold poll, TryRace_Future, TryRace_poll in Hp. simpl in Hp.
  apply eff_bind_done in Hp as ([p both] & w0 & w1 & Hp & Hret & ->). apply eff_ret_done in Hret as [[= -> <-] ->].
  rewrite app_nil_r. wake_both Hp.
  - match type of Hp with context [is_ok ?o] => destruct o end; simpl in Hp; [inv_eff|].
    wake_both Hp; [|inv_eff; auto with async].
    match type of Hp with context [is_ok ?o] => destruct o end; simpl in Hp; inv_eff.
  - wake_both Hp; inv_eff; auto with async.
Qed.
#[global] Instance DelayFuture_wakes `{Future L A} `{Future R ()} `{!FutureWakes L} `{!FutureWakes R} :
  FutureWakes (DelayFuture L R).
Proof.
  intros n this this' w Hp. unfold poll, DelayFuture_Future, DelayFuture_poll in Hp. inv_eff; wakes_done.
Qed.
#[global] Instance TimeoutFuture_wakes `{Future L A} `{Future R ()} `{!FutureWakes L} `{!FutureWakes R} :
  FutureWakes (TimeoutFuture L R).
Proof.
  intros n this this' w Hp. unfold poll, TimeoutFuture_Future, TimeoutFuture_poll in Hp. inv_eff; wakes_done.
Qed.
#[global] Instance Flatten_wakes `{Future L A} `{Future R B} `{!IntoFuture A R} `{!FutureWakes L} `{!FutureWakes R} :
  FutureWakes (FlattenFuture L R).
Proof.
  intros n this this' w Hp. unfold poll, Flatten_Future, Flatten_poll in Hp.
  refine (loop_poll_ind _ (λ r w, fst r = Pending → w ≠ []) _ _ _ _ _ _ Hp eq_refl); [|simpl; auto with async].
  clear Hp w n. intros n t [? ?] w Hp ?. simpl in *. subst. unfold Flatten_round in Hp. inv_eff; wakes_done.
Qed.
#[global] Instance YieldNow_wakes : FutureWakes YieldNow.
Proof. intros n [[|]] this' w Hp; [discriminate|]. by injection Hp as <- <-. Qed.
End Wakes.

(** * The theorems *)

Section Combine.
Context {A B E : Type} {FA FA' FB TA TA' TB FI D : Type}.
Context `{Future FA A} `{Future FA' A} `{Future FB B} `{!FutureMono FA} `{!FutureMono FA'} `{!FutureMono FB}.
Context `{Future TA (Result A E)} `{Future TA' (Result A E)} `{Future TB (Result B E)}.
Context `{!FutureMono TA} `{!FutureMono TA'} `{!FutureMono TB}.
Context `{Future FI Inn} `{!IntoFuture Inn FA} `{!FutureMono FI}.
Context `{Future D ()} `{!FutureMono D} `{!TimerFused D}.

(** C26 What the combinators of futures resolve to, and when, both futures being
    polled at every poll until they are ready: [join] the pair, when the later one
    is ready; [race] the value of the one that is ready first, the left one on a
    tie; [try_join] the pair, or at once the first error; [try_race] the first
    success, or, when both have failed, the right one's error; [flatten] the inner
    future's value; [delay] the value of the future, which is first polled when the
    timer has fired; [timeout] the future's value if it is ready no later than the
    timer, otherwise an error; [yield_now] after one poll. *)
Theorem futures_combine (fa : FA) (fa' : FA') (fb : FB) (ta : TA) (ta' : TA') (tb : TB) (fi : FI) (d : D)
    (a a' : A) (b : B) (ra ra' : Result A E) (rb : Result B E) (i : Inn) na na' nb ma ma' mb ni nd :
    ready_after na fa a → ready_after na' fa' a' → ready_after nb fb b →
    ready_after ma ta ra → ready_after ma' ta' ra' → ready_after mb tb rb →
    ready_after ni fi i → into_future i = fa → ready_after nd d () →
    ready_after (na `max` nb) (Join_new fa fb) (a, b) ∧
    ready_after (na `min` na') (Race_new fa fa') (if na <=? na' then a else a') ∧
    ready_after (fst (try_joined ma mb ra rb)) (TryJoin_new ta tb) (snd (try_joined ma mb ra rb)) ∧
    ready_after (fst (try_raced ma ma' ra ra')) (TryRace_new ta ta' : TryRace TA (Result A E) TA') (snd (try_raced ma ma' ra ra')) ∧
    ready_after (ni + na) (FlattenFuture_new fi : FlattenFuture FI FA) a ∧
    ready_after (nd + na) (mkDelayFuture fa d) a ∧
    ready_after (na `min` nd) (mkTimeoutFuture fa d) (if na <=? nd then Ok a else Err mkTimeoutError) ∧
    ready_after 0 (ReadyStart a) a ∧
    ready_after 1 yield_now ().
Proof.
  intros Ha Ha' Hb Hra Hra' Hrb Hi Hinto Hd. split_and!.
  - by apply Join_ready.
  - by apply Race_ready.
  - by apply TryJoin_ready.
  - by apply TryRace_ready.
  - eapply Flatten_ready; [done|by rewrite Hinto].
  - by apply DelayFuture_ready.
  - by apply TimeoutFuture_ready.
  - by eapply (ready_at 0).
  - eapply (ready_later 0); [reflexivity|]. by eapply (ready_at 0).
Qed.
End Combine.

(** * A concrete future *)

(** Pending a number of times. *)
Record Countdown (T : Type) : Type := mkCountdown { cd_left : nat; cd_value : T }.
Arguments mkCountdown {T}.
Arguments cd_left {T}.
Arguments cd_value {T}.
#[local] Instance Countdown_Future {T} : Future (Countdown T) T := λ _ this,
  match cd_left this with
  | 0 => mret (Ready (cd_value this), this)
  | S n => wake_by_ref;; mret (Pending, mkCountdown n (cd_value this))
  end.
#[local] Instance Countdown_mono {T} : FutureMono (Countdown T).
Proof. intros f n m r _ Hp. exact Hp. Qed.
#[local] Instance Countdown_fused : TimerFused (Countdown ()).
Proof.
  intros n [[|k] []] d' w Hp; unfold poll, Countdown_Future in Hp; simpl in Hp; inv_eff. by eapply (ready_at 0).
Qed.
#[local] Instance nat_into : IntoFuture nat (Countdown nat) := λ n, mkCountdown n 7.

Lemma Countdown_ready {T} n (v : T) : ready_after n (mkCountdown n v) v.
Proof. induction n as [|n IH]; [by eapply (ready_at 0)|by eapply (ready_later 0)]. Qed.

Lemma futures_combine_witness :
  ready_after 2 (Race_new (mkCountdown 3 7) (mkCountdown 2 8)) 8 ∧
  ready_after 5 (TryRace_new (mkCountdown 4 (Err 1)) (mkCountdown 5 (Err 2)) :
    TryRace (Countdown (Result nat nat)) (Result nat nat) (Countdown (Result nat nat))) (Err 2).
Proof.
  destruct (futures_combine (A:=nat) (B:=nat) (E:=nat) (mkCountdown 3 7) (mkCountdown 2 8) (mkCountdown 1 9)
    (mkCountdown 4 (Err 1)) (mkCountdown 5 (Err 2)) (mkCountdown 6 (Err 3)) (mkCountdown 2 3) (mkCountdown 1 ())
    7 8 9 (Err 1) (Err 2) (Err 3) 3 3 2 1 4 5 6 2 1) as (_ & H1 & _ & H2 & _); try apply Countdown_ready; [reflexivity|].
  split; [exact H1|exact H2].
Defined.
