(* ===== verification/DoubleEnded.v ===== *)
(** Double-ended streams: the trait and the futures of
    src/src/stream/double_ended_stream/*.rs, which take items from the back of a
    stream, with the two streams that implement the trait
    (src/src/stream/once.rs and from_iter.rs). *)

From S2P Require Import Prelude Async StreamSources.
Local Open Scope async_scope.

(** [DoubleEndedStream] extends [Stream] by [poll_next_back]. *)
Class DoubleEndedStream (St A : Type) : Type :=
  poll_next_back : nat → St → Eff (Poll (option A) * St).
#[global] Hint Mode DoubleEndedStream ! - : typeclass_instances.

(** The trait [DoubleEndedIterator] of the standard library. *)
Class DoubleEndedIterator (It A : Type) : Type := iter_next_back : It → option A * It.
#[global] Hint Mode DoubleEndedIterator ! - : typeclass_instances.

(** [std::vec::IntoIter]. *)
#[global] Instance list_DoubleEndedIterator (A : Type) : DoubleEndedIterator (list A) A :=
  λ l, (list.last l, removelast l).

(** * The streams with two ends *)

Definition Once_poll_next_back {T : Type} (fuel : nat) (this : Once T) :
    Eff (Poll (option T) * Once T) := mret (Ready (once_value this), mkOnce None).
#[global] Instance Once_DoubleEndedStream {T : Type} : DoubleEndedStream (Once T) T :=
  Once_poll_next_back.

Definition FromIter_poll_next_back `{DoubleEndedIterator It A} (fuel : nat) (this : FromIter It) :
    Eff (Poll (option A) * FromIter It) :=
  let '(item, iter) := iter_next_back (from_iter_iter this) in
  mret (Ready item, mkFromIter iter).
#[global] Instance FromIter_DoubleEndedStream `{DoubleEndedIterator It A} :
  DoubleEndedStream (FromIter It) A := FromIter_poll_next_back.

(** * The futures *)

(** ** next_back.rs *)

Record NextBackFuture (St : Type) : Type := mkNextBackFuture { next_back_stream : St }.
Arguments mkNextBackFuture {St}.
Arguments next_back_stream {St}.

Definition NextBackFuture_poll `{DoubleEndedStream St A} (fuel : nat) (this : NextBackFuture St) :
    Eff (Poll (option A) * NextBackFuture St) :=
  '(next, s) ← poll_next_back fuel (next_back_stream this);
  mret (next, mkNextBackFuture s).
#[global] Instance NextBackFuture_Future `{DoubleEndedStream St A} :
  Future (NextBackFuture St) (option A) := NextBackFuture_poll.

(** ** nth_back.rs *)

Record NthBackFuture (St : Type) : Type := mkNthBackFuture { nth_back_stream : St; nth_back_n : N }.
Arguments mkNthBackFuture {St}.
Arguments nth_back_stream {St}.
Arguments nth_back_n {St}.

Definition NthBackFuture_new {St : Type} (stream : St) (n : N) : NthBackFuture St :=
  mkNthBackFuture stream n.

Definition NthBackFuture_poll `{DoubleEndedStream St A} (fuel : nat) (this : NthBackFuture St) :
    Eff (Poll (option A) * NthBackFuture St) :=
  '(next, s) ← poll_next_back fuel (nth_back_stream this);
  ready! next := next else mret (Pending, mkNthBackFuture s (nth_back_n this)) in
  match next with
  | Some v =>
      if (nth_back_n this =? 0)%N then mret (Ready (Some v), mkNthBackFuture s (nth_back_n this))
      else
        n ← usize_sub (nth_back_n this) 1;
        _ ← wake_by_ref;
        mret (Pending, mkNthBackFuture s n)
  | None => mret (Ready None, mkNthBackFuture s (nth_back_n this))
  end.
#[global] Instance NthBackFuture_Future `{DoubleEndedStream St A} :
  Future (NthBackFuture St) (option A) := NthBackFuture_poll.

(** ** rfind.rs *)

Record RFindFuture (St P : Type) : Type := mkRFindFuture { rfind_stream : St; rfind_p : P }.
Arguments mkRFindFuture {St P}.
Arguments rfind_stream {St P}.
Arguments rfind_p {St P}.

Definition RFindFuture_new {St P : Type} (stream : St) (p : P) : RFindFuture St P :=
  mkRFindFuture stream p.

Definition RFindFuture_poll `{DoubleEndedStream St A} `{FnMut P A bool} (fuel : nat)
    (this : RFindFuture St P) : Eff (Poll (option A) * RFindFuture St P) :=
  '(item, s) ← poll_next_back fuel (rfind_stream this);
  ready! item := item else mret (Pending, mkRFindFuture s (rfind_p this)) in
  match item with
  | Some v =>
      let '(found, p) := call_mut (B:=bool) (rfind_p this) v in
      if found then mret (Ready (Some v), mkRFindFuture s p)
      else (_ ← wake_by_ref; mret (Pending, mkRFindFuture s p))
  | None => mret (Ready None, mkRFindFuture s (rfind_p this))
  end.
#[global] Instance RFindFuture_Future `{DoubleEndedStream St A} `{FnMut P A bool} :
  Future (RFindFuture St P) (option A) := RFindFuture_poll.

(** ** rfold.rs *)

Record RFoldFuture (St F B : Type) : Type := mkRFoldFuture {
  rfold_stream : St; rfold_f : F; rfold_acc : option B }.
Arguments mkRFoldFuture {St F B}.
Arguments rfold_stream {St F B}.
Arguments rfold_f {St F B}.
Arguments rfold_acc {St F B}.

Definition RFoldFuture_new {St F B : Type} (stream : St) (init : B) (f : F) : RFoldFuture St F B :=
  mkRFoldFuture stream f (Some init).

Definition RFoldFuture_round `{DoubleEndedStream St A} `{FnMut F (B * A) B} (fuel : nat)
    (this : RFoldFuture St F B) : Eff (RFoldFuture St F B + (Poll B * RFoldFuture St F B)) :=
  '(next, s) ← poll_next_back fuel (rfold_stream this);
  ready! next := next
    else mret (inr (Pending, mkRFoldFuture s (rfold_f this) (rfold_acc this))) in
  match next with
  | Some v =>
      old ← unwrap (rfold_acc this);
      let '(new, f) := call_mut (B:=B) (rfold_f this) (old, v) in
      mret (inl (mkRFoldFuture s f (Some new)))
  | None =>
      acc ← unwrap (rfold_acc this);
      mret (inr (Ready acc, mkRFoldFuture s (rfold_f this) None))
  end.
Definition RFoldFuture_poll `{DoubleEndedStream St A} `{FnMut F (B * A) B} :
  nat → RFoldFuture St F B → Eff (Poll B * RFoldFuture St F B) := loop_poll RFoldFuture_round.
#[global] Instance RFoldFuture_Future `{DoubleEndedStream St A} `{FnMut F (B * A) B} :
  Future (RFoldFuture St F B) B := RFoldFuture_poll.

(** ** try_rfold.rs *)

Record TryRFoldFuture (St F T : Type) : Type := mkTryRFoldFuture {
  try_rfold_stream : St; try_rfold_f : F; try_rfold_acc : option T }.
Arguments mkTryRFoldFuture {St F T}.
Arguments try_rfold_stream {St F T}.
Arguments try_rfold_f {St F T}.
Arguments try_rfold_acc {St F T}.

Definition TryRFoldFuture_new {St F T : Type} (stream : St) (init : T) (f : F) :
    TryRFoldFuture St F T := mkTryRFoldFuture stream f (Some init).

Definition TryRFoldFuture_round `{DoubleEndedStream St A} `{FnMut F (T * A) (Result T E)}
    (fuel : nat) (this : TryRFoldFuture St F T) :
    Eff (TryRFoldFuture St F T + (Poll (Result T E) * TryRFoldFuture St F T)) :=
  '(next, s) ← poll_next_back fuel (try_rfold_stream this);
  ready! next := next
    else mret (inr (Pending, mkTryRFoldFuture s (try_rfold_f this) (try_rfold_acc this))) in
  match next with
  | Some v =>
      old ← unwrap (try_rfold_acc this);
      let '(new, f) := call_mut (B:=Result T E) (try_rfold_f this) (old, v) in
      match new with
      | Ok o => mret (inl (mkTryRFoldFuture s f (Some o)))
      | Err e => mret (inr (Ready (Err e), mkTryRFoldFuture s f None))
      end
  | None =>
      acc ← unwrap (try_rfold_acc this);
      mret (inr (Ready (Ok acc), mkTryRFoldFuture s (try_rfold_f this) None))
  end.
Definition TryRFoldFuture_poll `{DoubleEndedStream St A} `{FnMut F (T * A) (Result T E)} :
  nat → TryRFoldFuture St F T → Eff (Poll (Result T E) * TryRFoldFuture St F T) :=
  loop_poll TryRFoldFuture_round.
#[global] Instance TryRFoldFuture_Future `{DoubleEndedStream St A} `{FnMut F (T * A) (Result T E)} :
  Future (TryRFoldFuture St F T) (Result T E) := TryRFoldFuture_poll.

(** ** mod.rs: the methods *)

Definition next_back {St : Type} (s : St) : NextBackFuture St := mkNextBackFuture s.
Definition nth_back {St : Type} (s : St) (n : N) : NthBackFuture St := NthBackFuture_new s n.
Definition rfind {St P : Type} (s : St) (p : P) : RFindFuture St P := RFindFuture_new s p.
Definition rfold {St F B : Type} (s : St) (accum : B) (f : F) : RFoldFuture St F B :=
  RFoldFuture_new s accum f.
Definition try_rfold {St F B : Type} (s : St) (accum : B) (f : F) : TryRFoldFuture St F B :=
  TryRFoldFuture_new s accum f.
