(* ===== verification/DoubleEndedSpec.v ===== *)
(** A double-ended stream is a deque: what the futures of DoubleEnded.v resolve
    to, which items they leave behind, and what comes of taking items from both
    ends in any order. *)

From S2P Require Import Prelude Async StreamConsumers StreamConsumersSpec StreamSources DoubleEnded.
Local Open Scope async_scope.

(** [s] given by the back of the stream: the item [o], leaving [s']. *)
Abbreviation pulls_back := (until_ready poll_next_back).

(** The promise of a double-ended stream: there is a list whose items the front
    gives in order and the back in the opposite order. *)
Class DoubleEndedLaws (St A : Type) `{Stream St A} `{!DoubleEndedStream St A} : Type := {
  deque : St → list A → Prop;
  deque_front (s : St) l : deque s l → ∃ s', pulls s (head l) s' ∧ deque s' (tail l);
  deque_back (s : St) l :
    deque s l → ∃ s', pulls_back s (list.last l) s' ∧ deque s' (removelast l)
}.

(** A poll of the back that is given more fuel answers the same. *)
Class BackMono (St : Type) {A} `{DoubleEndedStream St A} : Prop :=
  back_mono : ∀ s : St, fuel_mono (λ n, poll_next_back n s).
#[export] Hint Resolve back_mono : async.
#[export] Hint Extern 1 (BackMono _) => typeclasses eauto : async.

(** * The streams *)

#[global] Instance Once_BackMono {T} : BackMono (Once T).
Proof. intros s n m x _ Hs. exact Hs. Qed.
#[global] Instance FromIter_BackMono `{DoubleEndedIterator It A} : BackMono (FromIter It).
Proof. intros s n m x _ Hs. exact Hs. Qed.

#[global] Program Instance Once_DoubleEndedLaws {T} : DoubleEndedLaws (Once T) T :=
  {| deque s l := l = match once_value s with Some t => [t] | None => [] end |}.
Next Obligation.
  intros T [[t|]] l ->; (eexists; split; [by apply (until_ready_now _ 0 _ _ _ [])|done]).
Qed.
Next Obligation.
  intros T [[t|]] l ->; (eexists; split; [by apply (until_ready_now _ 0 _ _ _ [])|done]).
Qed.

#[global] Program Instance FromIter_DoubleEndedLaws {A} : DoubleEndedLaws (FromIter (list A)) A :=
  {| deque s l := from_iter_iter s = l |}.
Next Obligation.
  intros A [[|a l]] ? <-; (eexists; split; [by apply (until_ready_now _ 0 _ _ _ [])|done]).
Qed.
Next Obligation.
  intros A [l] ? <-; (eexists; split; [by apply (until_ready_now _ 0 _ _ _ [])|done]).
Qed.

(** * The loops *)

Section Rounds.
Context `{DoubleEndedStream St A} `{!BackMono St}.

Lemma RFoldFuture_round_mono `{FnMut F (B * A) B} (this : RFoldFuture St F B) :
  fuel_mono (λ n, RFoldFuture_round n this).
Proof. unfold RFoldFuture_round. solve_fuel_mono. Qed.

Lemma TryRFoldFuture_round_mono `{FnMut F (T * A) (Result T E)} (this : TryRFoldFuture St F T) :
  fuel_mono (λ n, TryRFoldFuture_round n this).
Proof. unfold TryRFoldFuture_round. solve_fuel_mono. Qed.
End Rounds.
#[export] Hint Resolve RFoldFuture_round_mono TryRFoldFuture_round_mono : async.

(** * What each future gives and leaves *)

Section Back.
Context `{DoubleEndedLaws St A}.
Implicit Types (s : St) (l : list A).

(** The two ways a stream answers at its back. *)
Lemma deque_back_nil s : deque s [] → ∃ s', pulls_back s None s' ∧ deque s' [].
Proof. apply (deque_back s []). Qed.

Lemma deque_back_snoc s l a :
  deque s (l ++ [a]) → ∃ s', pulls_back s (Some a) s' ∧ deque s' l.
Proof.
  intros Hd. destruct (deque_back _ _ Hd) as (s' & Hp & Hd').
  rewrite last_snoc in Hp. rewrite removelast_last in Hd'. eauto.
Qed.

Lemma NextBackFuture_resolves s l :
  deque s l → ∃ s', resolves (next_back s) (list.last l) (mkNextBackFuture s') ∧
                    deque s' (removelast l).
Proof.
  intros Hd. destruct (deque_back _ _ Hd) as (s' & Hp & Hd').
  exists s'. split; [unfold next_back; lift_now Hp|done].
Qed.

Lemma NthBackFuture_resolves s l n :
  deque s l → ∃ s' m,
    resolves (nth_back s n) (reverse l !! N.to_nat n) (mkNthBackFuture s' m) ∧
    deque s' (take (length l - S (N.to_nat n)) l).
Proof.
  unfold nth_back, NthBackFuture_new. revert s n.
  induction l as [|a l IH] using rev_ind; intros s n Hd.
  - destruct (deque_back_nil _ Hd) as (s' & Hp & Hd'). exists s', n. split; [lift_now Hp|done].
  - destruct (deque_back_snoc _ _ _ Hd) as (s' & Hp & Hd').
    rewrite reverse_snoc, length_app. simpl length. destruct (n =? 0)%N eqn:Hn.
    + apply N.eqb_eq in Hn as ->. exists s', 0%N. split; [lift_now Hp|].
      by rewrite N2Nat.inj_0, Nat.add_sub, take_app_length.
    + pose proof Hn as Hn'. apply N.eqb_neq in Hn'.
      assert (usize_sub (Ev:=CxEvent) n 1 = Done ((n - 1)%N, [])) as Hs by (apply usize_sub_ok; lia).
      destruct (IH s' (n - 1)%N Hd') as (s2 & m & Hr & Hd2). exists s2, m.
      replace (N.to_nat n) with (S (N.to_nat (n - 1))) by lia.
      split; [lift_again Hp; exact Hr|].
      rewrite take_app_le by lia.
      by replace (length l + 1 - S (S (N.to_nat (n - 1)))) with (length l - S (N.to_nat (n - 1)))
        by lia.
Qed.

(** What [rfind] leaves: the items before the one it found. *)
Lemma RFindFuture_resolves `{FnMut P A bool} s l (p : P) :
  deque s l → ∃ s' p',
    resolves (rfind s p) (fst <$> List.find snd (calls p (reverse l))) (mkRFindFuture s' p') ∧
    match List.find snd (calls p (reverse l)) with
    | Some (a, _) => ∃ l1 l2, l = l1 ++ a :: l2 ∧ deque s' l1
    | None => deque s' []
    end.
Proof.
  unfold rfind, RFindFuture_new. revert s p.
  induction l as [|a l IH] using rev_ind; intros s p Hd.
  - destruct (deque_back_nil _ Hd) as (s' & Hp & Hd'). exists s', p. split; [lift_now Hp|done].
  - destruct (deque_back_snoc _ _ _ Hd) as (s' & Hp & Hd'). rewrite reverse_snoc. simpl.
    destruct (call_mut p a) as [[] p'] eqn:Hc; simpl.
    + exists s', p'. split; [lift_now Hp|]. by exists l, [].
    + destruct (IH s' p' Hd') as (s2 & p2 & Hr & Hl). exists s2, p2.
      split; [lift_again Hp; exact Hr|].
      destruct (List.find snd _) as [[b found]|]; [|done].
      destruct Hl as (l1 & l2 & -> & Hl1). exists l1, (l2 ++ [a]).
      by rewrite <- app_assoc.
Qed.

Lemma RFoldFuture_resolves `{!BackMono St} `{FnMut F (B * A) B} s l (f : F) (init : B) :
  deque s l → ∃ s',
    resolves (rfold s init f) (fst (fold_calls f init (reverse l)))
      (mkRFoldFuture s' (snd (fold_calls f init (reverse l))) None) ∧ deque s' [].
Proof.
  unfold rfold, RFoldFuture_new. revert s f init.
  induction l as [|a l IH] using rev_ind; intros s f init Hd.
  - destruct (deque_back_nil _ Hd) as (s' & Hp & Hd'). exists s'. split; [|done].
    lift_now_loop (RFoldFuture_round (St:=St) (F:=F) (B:=B)) Hp.
  - destruct (deque_back_snoc _ _ _ Hd) as (s' & Hp & Hd'). rewrite reverse_snoc. simpl.
    destruct (call_mut f (init, a)) as [acc f'] eqn:Hc.
    destruct (IH s' f' acc Hd') as (s2 & Hr & Hd2). exists s2. split; [|done].
    lift_round (RFoldFuture_round (St:=St) (F:=F) (B:=B)) Hp. exact Hr.
Qed.

Lemma TryRFoldFuture_resolves `{!BackMono St} `{FnMut F (T * A) (Result T E)} s l (f : F) (init : T) :
  deque s l → resolves_to (try_rfold s init f) (try_fold_calls f init (reverse l)).
Proof.
  unfold try_rfold, TryRFoldFuture_new. revert s f init.
  induction l as [|a l IH] using rev_ind; intros s f init Hd.
  - destruct (deque_back_nil _ Hd) as (s' & Hp & _).
    eexists. lift_now_loop (TryRFoldFuture_round (St:=St) (F:=F) (T:=T)) Hp.
  - destruct (deque_back_snoc _ _ _ Hd) as (s' & Hp & Hd'). rewrite reverse_snoc. simpl.
    destruct (call_mut f (init, a)) as [[acc|e] f'] eqn:Hc.
    + destruct (IH s' f' acc Hd') as [t Ht]. exists t.
      lift_round (TryRFoldFuture_round (St:=St) (F:=F) (T:=T)) Hp. exact Ht.
    + eexists. lift_now_loop (TryRFoldFuture_round (St:=St) (F:=F) (T:=T)) Hp.
Qed.
End Back.

(** * Taking from both ends *)

Inductive Side : Type := Front | Back.

Section BothEnds.
Context `{DoubleEndedLaws St A}.
Implicit Types (s : St) (l : list A) (sides : list Side).

(** A task that awaits [next()] and [next_back()] in the order [sides], and the
    answers it gets. *)
Inductive takes : St → list Side → list (option A) → St → Prop :=
| takes_nil s : takes s [] [] s
| takes_front s o s1 sides os s' :
    resolves (mkNextFuture s) o (mkNextFuture s1) → takes s1 sides os s' →
    takes s (Front :: sides) (o :: os) s'
| takes_back s o s1 sides os s' :
    resolves (next_back s) o (mkNextBackFuture s1) → takes s1 sides os s' →
    takes s (Back :: sides) (o :: os) s'.

(** The items that were answered at one side, in the order of the answers. *)
Fixpoint taken_at (side : Side) sides (os : list (option A)) : list A :=
  match sides, os with
  | Front :: sides, o :: os =>
      match side with Front => option_list o | Back => [] end ++ taken_at side sides os
  | Back :: sides, o :: os =>
      match side with Back => option_list o | Front => [] end ++ taken_at side sides os
  | _, _ => []
  end.

Lemma head_tail l : option_list (head l) ++ tail l = l.
Proof. by destruct l. Qed.

Lemma last_removelast l : removelast l ++ option_list (list.last l) = l.
Proof.
  destruct l as [|a l _] using rev_ind; [done|]. by rewrite last_snoc, removelast_last.
Qed.

Lemma takes_all s l sides :
  deque s l → ∃ os s' rest, takes s sides os s' ∧ deque s' rest ∧
    taken_at Front sides os ++ rest ++ reverse (taken_at Back sides os) = l.
Proof.
  revert s l. induction sides as [|[] sides IH]; intros s l Hd.
  - exists [], s, l. split; [constructor|split; [done|]]. by apply app_nil_r.
  - destruct (deque_front _ _ Hd) as (s1 & Hp & Hd1).
    destruct (IH _ _ Hd1) as (os & s' & rest & Ht & Hr & Heq).
    exists (head l :: os), s', rest. split; [|split; [done|]].
    + eapply takes_front; [|exact Ht]. by apply NextFuture_resolves.
    + simpl. by rewrite <- app_assoc, Heq, head_tail.
  - destruct (NextBackFuture_resolves _ _ Hd) as (s1 & Hp & Hd1).
    destruct (IH _ _ Hd1) as (os & s' & rest & Ht & Hr & Heq).
    exists (list.last l :: os), s', rest. split; [|split; [done|]].
    + by eapply takes_back.
    + simpl. etrans; [|apply (last_removelast l)].
      rewrite <- Heq, reverse_app, <- !app_assoc. do 3 f_equal. by destruct (list.last l).
Qed.
End BothEnds.

(** * The theorems *)

(** A double-ended stream is a deque.  The consumers that work from the back
    ([nth_back], [rfind], [rfold], [try_rfold]) resolve to what their
    counterparts at the front resolve to on a stream that yields the items in
    the opposite order; [next_back], [nth_back] and [rfind] leave in the stream
    exactly the items before those they took, so that no item is lost; and a
    task that awaits [next] and [next_back] in any order is given every item
    once: the items taken at the front, those that remain, and those taken at
    the back, last first, are the list the stream started with. *)
Theorem double_ended_mirrors `{DoubleEndedLaws St A} `{!BackMono St} `{Stream St' A}
    `{!StreamMono St'} (s : St) (t : St') (l : list A) :
  deque s l → yields t (reverse l) →
  (∃ s', resolves (next_back s) (list.last l) (mkNextBackFuture s') ∧ deque s' (removelast l)) ∧
  (∀ n, ∃ o s' m,
     resolves (nth_back s n) o (mkNthBackFuture s' m) ∧ resolves_to (NthFuture_new t n) o ∧
     deque s' (take (length l - S (N.to_nat n)) l)) ∧
  (∀ P `(FnMut P A bool) (p : P), ∃ o s' p',
     resolves (rfind s p) o (mkRFindFuture s' p') ∧ resolves_to (FindFuture_new t p) o ∧
     match o with
     | Some a => ∃ l1 l2, l = l1 ++ a :: l2 ∧ deque s' l1
     | None => deque s' []
     end) ∧
  (∀ F B `(FnMut F (B * A) B) (f : F) init, ∃ v,
     resolves_to (rfold s init f) v ∧ resolves_to (FoldFuture_new t init f) v) ∧
  (∀ F B E `(FnMut F (B * A) (Result B E)) (f : F) init, ∃ v,
     resolves_to (try_rfold s init f) v ∧ resolves_to (TryFoldFuture_new t init f) v) ∧
  (∀ sides, ∃ os s' rest, takes s sides os s' ∧ deque s' rest ∧
     taken_at Front sides os ++ rest ++ reverse (taken_at Back sides os) = l).
Proof.
  intros Hd Hy. split_and!.
  - by apply NextBackFuture_resolves.
  - intros n. destruct (NthBackFuture_resolves s l n Hd) as (s' & m & Hr & Hd').
    eexists _, s', m. split; [exact Hr|split; [by apply NthFuture_resolves|done]].
  - intros P HP p. destruct (RFindFuture_resolves s l p Hd) as (s' & p' & Hr & Hl).
    eexists _, s', p'. split; [exact Hr|split; [by apply FindFuture_resolves|]].
    by destruct (List.find _ _) as [[a found]|].
  - intros F B HF f init. destruct (RFoldFuture_resolves s l f init Hd) as (s' & Hr & _).
    eexists. split; [by eexists|].
    apply yields_drains in Hy as [t' Hy]. eexists. by apply FoldFuture_resolves.
  - intros F B E HF f init. eexists.
    split; [by apply TryRFoldFuture_resolves|by apply TryFoldFuture_resolves].
  - intros sides. by apply takes_all.
Qed.

Lemma double_ended_mirrors_witness :
  (∃ s', resolves (nth_back (from_iter [1; 2; 3; 4; 5]) 1) (Some 4) s') ∧
  (∃ os s' rest, takes (from_iter [1; 2; 3]) [Front; Back; Back; Front] os s' ∧ deque s' rest ∧
     taken_at Front [Front; Back; Back; Front] os ++ rest ++
       reverse (taken_at Back [Front; Back; Back; Front] os) = [1; 2; 3]).
Proof.
  split.
  - destruct (double_ended_mirrors (from_iter [1; 2; 3; 4; 5]) (from_iter [5; 4; 3; 2; 1])
      [1; 2; 3; 4; 5]) as (_ & Hn & _).
    + reflexivity.
    + apply from_list_yields.
    + destruct (Hn 1%N) as (o & s' & m & Hr & [t Ht] & _).
      assert (resolves (NthFuture_new (from_iter [5; 4; 3; 2; 1]) 1) (Some 4)
        (mkNthFuture (mkFromIter [3; 2; 1]) 0)) as Ht'.
      { eapply (until_ready_later _ 0); [reflexivity|].
        by apply (until_ready_now _ 0 _ _ _ []). }
      destruct (until_ready_det _ (future_mono (F:=NthFuture _)) _ _ _ _ _ Ht Ht') as [-> _].
      by exists (mkNthBackFuture s' m).
  - apply (double_ended_mirrors (from_iter [1; 2; 3]) (from_iter [3; 2; 1]) [1; 2; 3]).
    + reflexivity.
    + apply from_list_yields.
Defined.
