(* ===== verification/Collect.v ===== *)
(** Collecting a stream: the traits [Extend] and [FromStream] with their
    implementations for the collections of the standard library
    (src/src/collections, vec, string, unit), the traits [Sum] and [Product]
    (src/src/stream/sum.rs, product.rs), and the implementations of the three for
    [Option] and [Result] (src/src/option, src/src/result), which stop at the
    first [None] or [Err].

    The futures are boxed in the code ([Pin<Box<dyn Future>>]); here every
    implementation has a type of futures, which depends on the stream.  A future
    that borrows a collection ([&'a mut self]) carries it.  The lower bound that
    [size_hint] gives is only used to reserve memory and is left out. *)

From stdpp Require Import gmap gmultiset.
From S2P Require Import Prelude Async StreamAdapters StreamConsumers.
Local Open Scope async_scope.

(** * The traits *)

(** stream/extend.rs.  [extended] and [extend_left] are the collection and the
    stream a future has borrowed, as it has left them. *)
Class Extend (C A : Type) : Type := {
  ExtendFuture : Type → Type;
  extend {St : Type} : C → St → ExtendFuture St;
#[global] extend_poll {St : Type} `{Stream St A} :: Future (ExtendFuture St) ();
  extended {St : Type} : ExtendFuture St → C;
  extend_left {St : Type} : ExtendFuture St → St
}.
#[global] Hint Mode Extend ! - : typeclass_instances.
Arguments ExtendFuture C A {_} St.

(** [FromStream], [Sum] and [Product] have the same form: a future made from a
    stream of [T] that resolves to a [V].  [consume_left] is the stream as the
    future has left it, which the closures that borrow a variable of the caller
    are read from. *)
Inductive ConsumerTrait : Type := FromStreamTrait | SumTrait | ProductTrait.

Class Consumer (K : ConsumerTrait) (V T : Type) : Type := {
  ConsumerFuture : Type → Type;
  consume {St : Type} : St → ConsumerFuture St;
#[global] consume_poll {St : Type} `{Stream St T} :: Future (ConsumerFuture St) V;
  consume_left {St : Type} : ConsumerFuture St → St
}.
#[global] Hint Mode Consumer ! ! - : typeclass_instances.
Arguments ConsumerFuture K V {T _} St.
Arguments consume K V {T _ St} stream : rename.
Arguments consume_left K V {T _ St} fut : rename.

Abbreviation FromStream := (Consumer FromStreamTrait).
Abbreviation from_stream := (consume FromStreamTrait).
Abbreviation Sum := (Consumer SumTrait).
Abbreviation Product := (Consumer ProductTrait).

(** * Extending with [for_each] *)

(** The closure [move |item| self.push(item)]. *)
Definition pushing {C A : Type} (push : C → A → C) (out : C) : Closure C A () :=
  mkClosure out (λ c a, ((), push c a)).

Definition for_each_Extend {C A : Type} (push : C → A → C) : Extend C A := {|
  ExtendFuture St := ForEachFuture St (Closure C A ());
  extend St out stream := ForEachFuture_new stream (pushing push out);
  extend_poll _ _ := _;
  extended St fut := closure_env (for_each_f fut);
  extend_left St fut := for_each_stream fut
|}.

(** The collections, by what can be seen of them: the sequences as lists, the
    maps and sets as finite maps and sets, the heap as a multiset. *)
Record VecDeque (A : Type) : Type := mkVecDeque { vec_deque_items : list A }.
Arguments mkVecDeque {A}.
Arguments vec_deque_items {A}.
Record LinkedList (A : Type) : Type := mkLinkedList { linked_list_items : list A }.
Arguments mkLinkedList {A}.
Arguments linked_list_items {A}.
Record HashMap (K V : Type) `{Countable K} : Type := mkHashMap { hash_map : gmap K V }.
Arguments mkHashMap {K V _ _}.
Arguments hash_map {K V _ _}.
Record BTreeMap (K V : Type) `{Countable K} : Type := mkBTreeMap { btree_map : gmap K V }.
Arguments mkBTreeMap {K V _ _}.
Arguments btree_map {K V _ _}.
Record HashSet (K : Type) `{Countable K} : Type := mkHashSet { hash_set : gset K }.
Arguments mkHashSet {K _ _}.
Arguments hash_set {K _ _}.
Record BTreeSet (K : Type) `{Countable K} : Type := mkBTreeSet { btree_set : gset K }.
Arguments mkBTreeSet {K _ _}.
Arguments btree_set {K _ _}.
Record BinaryHeap (K : Type) `{Countable K} : Type := mkBinaryHeap { heap_items : gmultiset K }.
Arguments mkBinaryHeap {K _ _}.
Arguments heap_items {K _ _}.

#[global] Instance Vec_Extend (A : Type) : Extend (list A) A :=
  for_each_Extend (λ out item, out ++ [item]).
#[global] Instance VecDeque_Extend (A : Type) : Extend (VecDeque A) A :=
  for_each_Extend (λ out item, mkVecDeque (vec_deque_items out ++ [item])).
#[global] Instance LinkedList_Extend (A : Type) : Extend (LinkedList A) A :=
  for_each_Extend (λ out item, mkLinkedList (linked_list_items out ++ [item])).
#[global] Instance HashMap_Extend (K V : Type) `{Countable K} : Extend (HashMap K V) (K * V) :=
  for_each_Extend (λ out '(k, v), mkHashMap (<[k := v]> (hash_map out))).
#[global] Instance BTreeMap_Extend (K V : Type) `{Countable K} : Extend (BTreeMap K V) (K * V) :=
  for_each_Extend (λ out '(k, v), mkBTreeMap (<[k := v]> (btree_map out))).
#[global] Instance HashSet_Extend (K : Type) `{Countable K} : Extend (HashSet K) K :=
  for_each_Extend (λ out item, mkHashSet ({[item]} ∪ hash_set out)).
#[global] Instance BTreeSet_Extend (K : Type) `{Countable K} : Extend (BTreeSet K) K :=
  for_each_Extend (λ out item, mkBTreeSet ({[item]} ∪ btree_set out)).
#[global] Instance BinaryHeap_Extend (K : Type) `{Countable K} : Extend (BinaryHeap K) K :=
  for_each_Extend (λ out item, mkBinaryHeap ({[+ item +]} ⊎ heap_items out)).

(** * Extending with a loop *)

(** [async move { while let Some(item) = stream.next().await { push(item) } }] *)
Record ExtendLoop (St C : Type) : Type := mkExtendLoop { loop_stream : St; loop_out : C }.
Arguments mkExtendLoop {St C}.
Arguments loop_stream {St C}.
Arguments loop_out {St C}.

Section ExtendLoop.
Context {C A : Type} (push : C → A → C).

Definition ExtendLoop_round `{Stream St A} (fuel : nat) (this : ExtendLoop St C) :
    Eff (ExtendLoop St C + (Poll () * ExtendLoop St C)) :=
  '(r, next) ← poll fuel (mkNextFuture (loop_stream this));
  let s := next_stream next in
  ready! item := r else mret (inr (Pending, mkExtendLoop s (loop_out this))) in
  match item with
  | Some item => mret (inl (mkExtendLoop s (push (loop_out this) item)))
  | None => mret (inr (Ready (), mkExtendLoop s (loop_out this)))
  end.
Definition ExtendLoop_poll `{Stream St A} :
    nat → ExtendLoop St C → Eff (Poll () * ExtendLoop St C) := loop_poll ExtendLoop_round.
End ExtendLoop.

(** The loop with its body: [push] is fixed by the implementation. *)
Record LoopOf {C A : Type} (push : C → A → C) (St : Type) : Type := mkLoopOf {
  loop_of : ExtendLoop St C }.
Arguments mkLoopOf {C A} push {St}.
Arguments loop_of {C A push St}.

Definition LoopOf_poll {C A : Type} {push : C → A → C} `{Stream St A} (fuel : nat)
    (this : LoopOf push St) : Eff (Poll () * LoopOf push St) :=
  '(r, l) ← ExtendLoop_poll push fuel (loop_of this);
  mret (r, mkLoopOf push l).
#[global] Instance LoopOf_Future {C A : Type} (push : C → A → C) `{Stream St A} :
  Future (LoopOf push St) () := LoopOf_poll.

Definition loop_Extend {C A : Type} (push : C → A → C) : Extend C A := {|
  ExtendFuture St := LoopOf push St;
  extend St out stream := mkLoopOf push (mkExtendLoop stream out);
  extend_poll _ _ := _;
  extended St fut := loop_out (loop_of fut);
  extend_left St fut := loop_stream (loop_of fut)
|}.

(** A string is the sequence of its characters, a character its scalar value;
    [&str], [String] and [Cow<str>] differ in who owns the characters. *)
Record Char : Type := mkChar { char_value : N }.
Record RString : Type := mkRString { string_chars : list Char }.
Record Str : Type := mkStr { str_chars : list Char }.
Record CharRef : Type := mkCharRef { char_ref : Char }.
Inductive CowStr : Type := BorrowedStr (s : Str) | OwnedStr (s : RString).

Definition string_new : RString := mkRString [].
Definition string_push (out : RString) (c : Char) : RString :=
  mkRString (string_chars out ++ [c]).
Definition string_push_str (out : RString) (s : list Char) : RString :=
  mkRString (string_chars out ++ s).
Definition cow_chars (s : CowStr) : list Char :=
  match s with BorrowedStr s => str_chars s | OwnedStr s => string_chars s end.

#[global] Instance String_Extend_char : Extend RString Char := loop_Extend string_push.
#[global] Instance String_Extend_char_ref : Extend RString CharRef :=
  loop_Extend (λ out item, string_push out (char_ref item)).
#[global] Instance String_Extend_str : Extend RString Str :=
  loop_Extend (λ out item, string_push_str out (str_chars item)).
#[global] Instance String_Extend_string : Extend RString RString :=
  loop_Extend (λ out item, string_push_str out (string_chars item)).
#[global] Instance String_Extend_cow : Extend RString CowStr :=
  loop_Extend (λ out item, string_push_str out (cow_chars item)).
#[global] Instance Unit_Extend : Extend () () := loop_Extend (λ out _, out).

(** * From a stream, by extending an empty collection *)

(** [async move { let mut out = new(); stream::extend(&mut out, stream).await; out }] *)
Record ExtendInto (C A : Type) `{Extend C A} (St : Type) : Type := mkExtendInto {
  into_future : ExtendFuture C A St }.
Arguments mkExtendInto {C A _ St}.
Arguments into_future {C A _ St}.

Definition ExtendInto_poll `{Extend C A} `{Stream St A} (fuel : nat) (this : ExtendInto C A St) :
    Eff (Poll C * ExtendInto C A St) :=
  '(r, fut) ← poll fuel (into_future this);
  ready! _ := r else mret (Pending, mkExtendInto fut) in
  mret (Ready (extended fut), mkExtendInto fut).
#[global] Instance ExtendInto_Future `{Extend C A} `{Stream St A} :
  Future (ExtendInto C A St) C := ExtendInto_poll.

Definition extend_FromStream {C A : Type} `{!Extend C A} (new : C) : FromStream C A := {|
  ConsumerFuture St := ExtendInto C A St;
  consume St stream := mkExtendInto (extend new stream);
  consume_poll _ _ := _;
  consume_left St fut := extend_left (into_future fut)
|}.

#[global] Instance Vec_FromStream (A : Type) : FromStream (list A) A := extend_FromStream [].
#[global] Instance VecDeque_FromStream (A : Type) : FromStream (VecDeque A) A :=
  extend_FromStream (mkVecDeque []).
#[global] Instance LinkedList_FromStream (A : Type) : FromStream (LinkedList A) A :=
  extend_FromStream (mkLinkedList []).
#[global] Instance HashMap_FromStream (K V : Type) `{Countable K} :
  FromStream (HashMap K V) (K * V) := extend_FromStream (mkHashMap ∅).
#[global] Instance BTreeMap_FromStream (K V : Type) `{Countable K} :
  FromStream (BTreeMap K V) (K * V) := extend_FromStream (mkBTreeMap ∅).
#[global] Instance HashSet_FromStream (K : Type) `{Countable K} :
  FromStream (HashSet K) K := extend_FromStream (mkHashSet ∅).
#[global] Instance BTreeSet_FromStream (K : Type) `{Countable K} :
  FromStream (BTreeSet K) K := extend_FromStream (mkBTreeSet ∅).
#[global] Instance BinaryHeap_FromStream (K : Type) `{Countable K} :
  FromStream (BinaryHeap K) K := extend_FromStream (mkBinaryHeap ∅).
#[global] Instance String_FromStream_char : FromStream RString Char :=
  extend_FromStream string_new.
#[global] Instance String_FromStream_char_ref : FromStream RString CharRef :=
  extend_FromStream string_new.
#[global] Instance String_FromStream_str : FromStream RString Str :=
  extend_FromStream string_new.
#[global] Instance String_FromStream_string : FromStream RString RString :=
  extend_FromStream string_new.
#[global] Instance String_FromStream_cow : FromStream RString CowStr :=
  extend_FromStream string_new.

(** unit/from_stream.rs: [for_each(|_| ())] *)
#[global] Instance Unit_FromStream : FromStream () () := {|
  ConsumerFuture St := ForEachFuture St (() → ());
  consume St stream := ForEachFuture_new stream (λ _, ());
  consume_poll _ _ := _;
  consume_left St fut := for_each_stream fut
|}.

(** * From a stream, through a vector *)

(** [async move { convert(Vec::from_stream(stream).await) }] *)
Record ThroughVec {A V : Type} (convert : list A → V) (St : Type) : Type := mkThroughVec {
  through_vec : ConsumerFuture FromStreamTrait (list A) St }.
Arguments mkThroughVec {A V} convert {St}.
Arguments through_vec {A V convert St}.

Definition ThroughVec_poll {A V : Type} {convert : list A → V} `{Stream St A} (fuel : nat)
    (this : ThroughVec convert St) : Eff (Poll V * ThroughVec convert St) :=
  '(r, fut) ← poll fuel (through_vec this);
  ready! v := r else mret (Pending, mkThroughVec convert fut) in
  mret (Ready (convert v), mkThroughVec convert fut).
#[global] Instance ThroughVec_Future {A V : Type} (convert : list A → V) `{Stream St A} :
  Future (ThroughVec convert St) V := ThroughVec_poll.

Definition through_vec_FromStream {A V : Type} (convert : list A → V) : FromStream V A := {|
  ConsumerFuture St := ThroughVec convert St;
  consume St stream := mkThroughVec convert (from_stream (list A) stream);
  consume_poll _ _ := _;
  consume_left St fut := consume_left FromStreamTrait (list A) (through_vec fut)
|}.

Record BoxSlice (A : Type) : Type := into_boxed_slice { box_items : list A }.
Record RcSlice (A : Type) : Type := into_rc { rc_items : list A }.
Record ArcSlice (A : Type) : Type := into_arc { arc_items : list A }.
Inductive CowSlice (A : Type) : Type := Borrowed (l : list A) | Owned (l : list A).
Arguments into_boxed_slice {A}.
Arguments into_rc {A}.
Arguments into_arc {A}.
Arguments Borrowed {A}.
Arguments Owned {A}.

#[global] Instance Cow_FromStream (A : Type) : FromStream (CowSlice A) A :=
  through_vec_FromStream Owned.
#[global] Instance Box_FromStream (A : Type) : FromStream (BoxSlice A) A :=
  through_vec_FromStream into_boxed_slice.
#[global] Instance Rc_FromStream (A : Type) : FromStream (RcSlice A) A :=
  through_vec_FromStream into_rc.
#[global] Instance Arc_FromStream (A : Type) : FromStream (ArcSlice A) A :=
  through_vec_FromStream into_arc.

(** * Stopping at the first [None] or [Err] *)

(** The closure that the implementations for [Option] pass to [scan]; what it
    captures is the variable [found_none] ([found_error]) of the caller. *)
Abbreviation NoneFinder T := (Closure bool (() * option T) (option T * ())).
Definition none_finder {T : Type} : NoneFinder T :=
  mkClosure false (λ found_none '(_, elem),
    match elem with
    | Some elem => ((Some elem, ()), found_none)
    | None => ((None, ()), true)
    end).

(** [async move { let out = stream.scan(..).collect().await; .. }], and the same
    with [sum] and [product]. *)
Record OptionFuture (K : ConsumerTrait) (V T : Type) `{Consumer K V T} (St : Type) : Type :=
  mkOptionFuture { option_future : ConsumerFuture K V (Scan St () (NoneFinder T)) }.
Arguments mkOptionFuture {K V T _ St}.
Arguments option_future {K V T _ St}.

Definition found_none {St T : Type} (s : Scan St () (NoneFinder T)) : bool :=
  closure_env (snd (scan_state_f s)).

Definition OptionFuture_poll `{Consumer K V T} `{Stream St (option T)} (fuel : nat)
    (this : OptionFuture K V T St) : Eff (Poll (option V) * OptionFuture K V T St) :=
  '(r, fut) ← poll fuel (option_future this);
  ready! out := r else mret (Pending, mkOptionFuture fut) in
  mret (Ready (if found_none (consume_left K V fut) then None else Some out), mkOptionFuture fut).
#[global] Instance OptionFuture_Future `{Consumer K V T} `{Stream St (option T)} :
  Future (OptionFuture K V T St) (option V) := OptionFuture_poll.

Definition Option_Consumer (K : ConsumerTrait) (V T : Type) `{!Consumer K V T} :
    Consumer K (option V) (option T) := {|
  ConsumerFuture St := OptionFuture K V T St;
  consume St stream := mkOptionFuture (consume K V (Scan_new stream () none_finder));
  consume_poll _ _ := _;
  consume_left St fut := scan_stream (consume_left K V (option_future fut))
|}.

#[global] Instance Option_FromStream (V T : Type) `{!FromStream V T} :
  FromStream (option V) (option T) := Option_Consumer FromStreamTrait V T.
#[global] Instance Option_Sum (V T : Type) `{!Sum V T} : Sum (option V) (option T) :=
  Option_Consumer SumTrait V T.
#[global] Instance Option_Product (V T : Type) `{!Product V T} :
  Product (option V) (option T) := Option_Consumer ProductTrait V T.

Abbreviation ErrFinder T E := (Closure (option E) (() * Result T E) (option T * ())).
Definition err_finder {T E : Type} : ErrFinder T E :=
  mkClosure None (λ found_error '(_, elem),
    match elem with
    | Ok elem => ((Some elem, ()), found_error)
    | Err err => ((None, ()), Some err)
    end).

Record ResultFuture (K : ConsumerTrait) (V T E : Type) `{Consumer K V T} (St : Type) : Type :=
  mkResultFuture { result_future : ConsumerFuture K V (Scan St () (ErrFinder T E)) }.
Arguments mkResultFuture {K V T E _ St}.
Arguments result_future {K V T E _ St}.

Definition found_error {St T E : Type} (s : Scan St () (ErrFinder T E)) : option E :=
  closure_env (snd (scan_state_f s)).

Definition ResultFuture_poll {E : Type} `{Consumer K V T} `{Stream St (Result T E)} (fuel : nat)
    (this : ResultFuture K V T E St) : Eff (Poll (Result V E) * ResultFuture K V T E St) :=
  '(r, fut) ← poll fuel (result_future this);
  ready! out := r else mret (Pending, mkResultFuture fut) in
  mret (Ready (match found_error (consume_left K V fut) with
               | Some err => Err err
               | None => Ok out
               end), mkResultFuture fut).
#[global] Instance ResultFuture_Future {E : Type} `{Consumer K V T} `{Stream St (Result T E)} :
  Future (ResultFuture K V T E St) (Result V E) := ResultFuture_poll.

Definition Result_Consumer (K : ConsumerTrait) (V T E : Type) `{!Consumer K V T} :
    Consumer K (Result V E) (Result T E) := {|
  ConsumerFuture St := ResultFuture K V T E St;
  consume St stream := mkResultFuture (consume K V (Scan_new stream () err_finder));
  consume_poll _ _ := _;
  consume_left St fut := scan_stream (consume_left K V (result_future fut))
|}.

#[global] Instance Result_FromStream (V T E : Type) `{!FromStream V T} :
  FromStream (Result V E) (Result T E) := Result_Consumer FromStreamTrait V T E.
#[global] Instance Result_Sum (V T E : Type) `{!Sum V T} : Sum (Result V E) (Result T E) :=
  Result_Consumer SumTrait V T E.
#[global] Instance Result_Product (V T E : Type) `{!Product V T} :
  Product (Result V E) (Result T E) := Result_Consumer ProductTrait V T E.

(** * The sum and the product of integers *)

Section Integers.
Local Open Scope Z_scope.

(** [i8] to [i128], [isize], [u8] to [u128] and [usize]. *)
Record IntTy : Type := mkIntTy { int_signed : bool; int_bits : Z }.

Definition int_min (ty : IntTy) : Z := if int_signed ty then - 2 ^ (int_bits ty - 1) else 0.
Definition int_max (ty : IntTy) : Z :=
  if int_signed ty then 2 ^ (int_bits ty - 1) - 1 else 2 ^ int_bits ty - 1.
Definition int_in (ty : IntTy) (z : Z) : bool := (int_min ty <=? z) && (z <=? int_max ty).
Definition int_wrap (ty : IntTy) (z : Z) : Z :=
  (z - int_min ty) mod 2 ^ int_bits ty + int_min ty.

Record Int (ty : IntTy) : Type := mkInt { int_val : Z }.
Record Wrapping (ty : IntTy) : Type := mkWrapping { wrapping_val : Z }.

(** [Add::add] and [Mul::mul]: overflow panics, unless the type wraps. *)
Definition int_op {ty : IntTy} (op : Z → Z → Z) (a b : Int ty) : Eff (Int ty) :=
  let c := op (int_val _ a) (int_val _ b) in
  if int_in ty c then mret (mkInt ty c) else eff_panic.
Definition wrapping_op {ty : IntTy} (op : Z → Z → Z) (ab : Wrapping ty * Wrapping ty) :
    Wrapping ty :=
  mkWrapping ty (int_wrap ty (op (wrapping_val _ (fst ab)) (wrapping_val _ (snd ab)))).
End Integers.

(** stream/fold.rs at a closure that may panic. *)
Definition fold_round {B A : Type} `{Stream St A} (f : B → A → Eff B) (fuel : nat)
    (this : FoldFuture St () B) : Eff (FoldFuture St () B + (Poll B * FoldFuture St () B)) :=
  '(next, s) ← poll_next fuel (fold_stream this);
  ready! next := next
    else mret (inr (Pending, mkFoldFuture s (fold_f this) (fold_acc this))) in
  match next with
  | Some v =>
      old ← unwrap (fold_acc this);
      new ← f old v;
      mret (inl (mkFoldFuture s (fold_f this) (Some new)))
  | None =>
      acc ← unwrap (fold_acc this);
      mret (inr (Ready acc, mkFoldFuture s (fold_f this) None))
  end.

(** [Box::pin(async move { stream.fold(zero, Add::add).await })] *)
Record IntFold {ty : IntTy} (op : Z → Z → Z) (St : Type) : Type := mkIntFold {
  int_fold : FoldFuture St () (Int ty) }.
Arguments mkIntFold {ty} op {St}.
Arguments int_fold {ty op St}.

Definition IntFold_poll {ty : IntTy} {op : Z → Z → Z} `{Stream St (Int ty)} (fuel : nat)
    (this : IntFold op St) : Eff (Poll (Int ty) * IntFold op St) :=
  '(r, fut) ← loop_poll (fold_round (int_op op)) fuel (int_fold this);
  mret (r, mkIntFold op fut).
#[global] Instance IntFold_Future {ty : IntTy} (op : Z → Z → Z) `{Stream St (Int ty)} :
  Future (IntFold op St) (Int ty) := IntFold_poll.

Definition int_Consumer (K : ConsumerTrait) (ty : IntTy) (op : Z → Z → Z) (unit : Z) :
    Consumer K (Int ty) (Int ty) := {|
  ConsumerFuture St := IntFold (ty:=ty) op St;
  consume St stream := mkIntFold op (FoldFuture_new stream (mkInt ty unit) ());
  consume_poll _ _ := _;
  consume_left St fut := fold_stream (int_fold fut)
|}.
Definition wrapping_Consumer (K : ConsumerTrait) (ty : IntTy) (op : Z → Z → Z) (unit : Z) :
    Consumer K (Wrapping ty) (Wrapping ty) := {|
  ConsumerFuture St := FoldFuture St (Wrapping ty * Wrapping ty → Wrapping ty) (Wrapping ty);
  consume St stream := FoldFuture_new stream (mkWrapping ty unit) (wrapping_op op);
  consume_poll _ _ := _;
  consume_left St fut := fold_stream fut
|}.

#[global] Instance Int_Sum (ty : IntTy) : Sum (Int ty) (Int ty) :=
  int_Consumer SumTrait ty Z.add 0.
#[global] Instance Wrapping_Sum (ty : IntTy) : Sum (Wrapping ty) (Wrapping ty) :=
  wrapping_Consumer SumTrait ty Z.add 0.
#[global] Instance Int_Product (ty : IntTy) : Product (Int ty) (Int ty) :=
  int_Consumer ProductTrait ty Z.mul 1.
#[global] Instance Wrapping_Product (ty : IntTy) : Product (Wrapping ty) (Wrapping ty) :=
  wrapping_Consumer ProductTrait ty Z.mul 1.
