(* ===== verification/CollectSpec.v ===== *)
(** What collecting, summing and multiplying a stream gives: the promise of
    [FromStream], [Sum] and [Product] as a class, proved for every
    implementation of Collect.v; and what the collections contain. *)

From stdpp Require Import gmap gmultiset.
From S2P Require Import Prelude Async StreamAdapters StreamAdaptersSpec StreamConsumers StreamConsumersSpec StreamSources Collect.
Local Open Scope async_scope.

(** * The promise *)

(** [reads enough s l s']: what a consumer takes from [s] that stops at an item
    that is [enough], or else at the end. *)
Inductive reads `{Stream St T} (enough : T → bool) : St → list T → St → Prop :=
| reads_end s s' : pulls s None s' → reads enough s [] s'
| reads_enough s a s' : pulls s (Some a) s' → enough a = true → reads enough s [a] s'
| reads_more s a s1 l s' :
    pulls s (Some a) s1 → enough a = false → reads enough s1 l s' → reads enough s (a :: l) s'.

Definition never {T : Type} (_ : T) : bool := false.

Lemma reads_never `{Stream St T} (s s' : St) l : reads never s l s' ↔ drains s l s'.
Proof. split; induction 1; eauto using reads with async; done. Qed.

(** An implementation of [FromStream], [Sum] or [Product]: having read [l], it
    resolves to a value that [builds l] allows, and has read no further. *)
Class ConsumerLaws (K : ConsumerTrait) (V T : Type) `{Consumer K V T} : Type := {
  enough : T → bool;
  builds : list T → V → Prop;
  consume_resolves `{Stream St T} `{!StreamMono St} (s : St) l s' v :
    reads enough s l s' → builds l v →
    ∃ f', resolves (consume K V s) v f' ∧ consume_left K V f' = s'
}.
#[global] Hint Mode ConsumerLaws ! ! - - : typeclass_instances.
Arguments enough K V {T _ _} a : rename.
Arguments builds K V {T _ _} l v : rename.

(** The same for [Extend]: the items are pushed in order. *)
Class ExtendLaws (C A : Type) `{Extend C A} (push : C → A → C) : Prop :=
  extend_resolves `{Stream St A} `{!StreamMono St} (c : C) (s : St) l s' :
    drains s l s' →
    ∃ f', resolves (extend c s) () f' ∧ extended f' = fold_left push l c ∧ extend_left f' = s'.

(** * Extending *)

Lemma calls_end_pushing {C A} (push : C → A → C) c l :
  calls_end (B:=()) (pushing push c) l = pushing push (fold_left push l c).
Proof. revert c. induction l as [|a l IH]; intros c; simpl; [done|apply IH]. Qed.

Lemma for_each_ExtendLaws {C A} (push : C → A → C) :
  @ExtendLaws C A (for_each_Extend push) push.
Proof.
  intros St HS Hm c s l s' Hd. eexists. split; [by apply (ForEachFuture_resolves s s')|].
  by rewrite calls_end_pushing.
Qed.

Section Loop.
Context {C A : Type} (push : C → A → C) `{Stream St A} `{!StreamMono St}.

Lemma ExtendLoop_round_eq n (s : St) c :
  ExtendLoop_round push n (mkExtendLoop s c) =
  ('(r, s) ← poll_next n s;
   ready! item := r else mret (inr (Pending, mkExtendLoop s c)) in
   match item with
   | Some item => mret (inl (mkExtendLoop s (push c item)))
   | None => mret (inr (Ready (), mkExtendLoop s c))
   end).
Proof.
  unfold ExtendLoop_round. simpl. unfold poll, NextFuture_Future, NextFuture_poll. simpl.
  by destruct (poll_next n s) as [[[r s1] w]| |]; simpl; rewrite ?app_nil_r.
Qed.

Lemma ExtendLoop_round_mono (this : ExtendLoop St C) : fuel_mono (λ n, ExtendLoop_round push n this).
Proof.
  destruct this as [s c]. intros n m x Hle Hx. cbv beta in *.
  rewrite ExtendLoop_round_eq in *. revert n m x Hle Hx.
  change (fuel_mono (λ n, '(r, s) ← poll_next n s;
   ready! item := r else mret (inr (Pending, mkExtendLoop s c)) in
   match item with
   | Some item => mret (inl (mkExtendLoop s (push c item)))
   | None => mret (inr (Ready (), mkExtendLoop s c))
   end)).
  solve_fuel_mono.
Qed.

Lemma ExtendLoop_resolves c (s s' : St) l :
  drains s l s' →
  until_ready (ExtendLoop_poll push) (mkExtendLoop s c) () (mkExtendLoop s' (fold_left push l c)).
Proof.
  assert (Hmono : ∀ this : ExtendLoop St C, fuel_mono (λ n, ExtendLoop_round push n this))
    by apply ExtendLoop_round_mono.
  assert (Hpend : ∀ c, pending_through poll_next (ExtendLoop_poll push)
                         (λ s : St, mkExtendLoop s c)).
  { intros c0 n s0 s1 w Hp. eapply (loop_poll_ready _ Hmono n).
    rewrite ExtendLoop_round_eq, Hp. reflexivity. }
  intros Hd. revert c. induction Hd as [s s' Hp|s a s1 l s' Hp Hd IH]; intros c; simpl.
  - eapply (until_ready_map _ _ (λ s : St, mkExtendLoop s c)); [apply Hpend|exact Hp|].
    intros s0 n w Hn. eapply (loop_poll_ready _ Hmono n).
    rewrite ExtendLoop_round_eq, Hn. reflexivity.
  - eapply (until_ready_continue _ _ (λ s : St, mkExtendLoop s c));
      [apply Hpend|exact Hp| |apply IH].
    intros s0 n w m r w1 Hn Hr. eapply (loop_poll_round _ Hmono n); [|exact Hr].
    rewrite ExtendLoop_round_eq, Hn. reflexivity.
Qed.
End Loop.

Lemma LoopOf_poll_done {C A} (push : C → A → C) `{Stream St A} n (t t1 : ExtendLoop St C) r w :
  ExtendLoop_poll push n t = Done ((r, t1), w) →
  poll n (mkLoopOf push t) = Done ((r, mkLoopOf push t1), w ++ []).
Proof. intros Ht. unfold poll, LoopOf_Future, LoopOf_poll. simpl. by rewrite Ht. Qed.

Lemma loop_ExtendLaws {C A} (push : C → A → C) : @ExtendLaws C A (loop_Extend push) push.
Proof.
  intros St HS Hm c s l s' Hd. pose proof (ExtendLoop_resolves push c s s' l Hd) as Hr.
  exists (mkLoopOf push (mkExtendLoop s' (fold_left push l c))). split; [|done].
  eapply (until_ready_map (ExtendLoop_poll push) poll (mkLoopOf push)); [|exact Hr|].
  - intros n t t1 w Ht. exists n. eexists. exact (LoopOf_poll_done push n t _ _ _ Ht).
  - intros t n w Ht. exists n. eexists. exact (LoopOf_poll_done push n t _ _ _ Ht).
Qed.

(** * From a stream *)

Section IntoLaws.
Context `{Extend C A} (push : C → A → C) (new : C) (Hext : ExtendLaws C A push).

Lemma ExtendInto_resolves `{Stream St A} `{!StreamMono St} (s : St) l s' :
  drains s l s' →
  ∃ f' : ExtendInto C A St, resolves (mkExtendInto (extend new s)) (fold_left push l new) f' ∧
    extend_left (into_future f') = s'.
Proof.
  intros Hd. destruct (Hext _ _ _ new _ _ _ Hd) as (f & Hr & <- & Hs).
  exists (mkExtendInto f). split; [|done]. lift_now Hr.
Qed.

Lemma extend_consumes `{Stream St A} `{!StreamMono St} (s : St) l s' v :
  reads never s l s' → v = fold_left push l new →
  ∃ f', resolves (consume (Consumer:=extend_FromStream new) FromStreamTrait C s) v f' ∧
    consume_left (Consumer:=extend_FromStream new) FromStreamTrait C f' = s'.
Proof. intros Hd%reads_never ->. by apply ExtendInto_resolves. Qed.

Definition extend_ConsumerLaws :
    @ConsumerLaws FromStreamTrait C A (extend_FromStream new) := {|
  enough := never;
  builds l v := v = fold_left push l new;
  consume_resolves _ _ _ := extend_consumes
|}.
End IntoLaws.

(** Every collection: the items are pushed on an empty one, in order. *)
#[global] Instance Vec_laws {A} : ConsumerLaws FromStreamTrait (list A) A :=
  extend_ConsumerLaws _ [] (for_each_ExtendLaws _).
#[global] Instance VecDeque_laws {A} : ConsumerLaws FromStreamTrait (VecDeque A) A :=
  extend_ConsumerLaws _ _ (for_each_ExtendLaws _).
#[global] Instance LinkedList_laws {A} : ConsumerLaws FromStreamTrait (LinkedList A) A :=
  extend_ConsumerLaws _ _ (for_each_ExtendLaws _).
#[global] Instance HashMap_laws `{Countable K} {V} :
  ConsumerLaws FromStreamTrait (HashMap K V) (K * V) :=
  extend_ConsumerLaws _ _ (for_each_ExtendLaws _).
#[global] Instance BTreeMap_laws `{Countable K} {V} :
  ConsumerLaws FromStreamTrait (BTreeMap K V) (K * V) :=
  extend_ConsumerLaws _ _ (for_each_ExtendLaws _).
#[global] Instance HashSet_laws `{Countable K} :
  ConsumerLaws FromStreamTrait (HashSet K) K := extend_ConsumerLaws _ _ (for_each_ExtendLaws _).
#[global] Instance BTreeSet_laws `{Countable K} :
  ConsumerLaws FromStreamTrait (BTreeSet K) K := extend_ConsumerLaws _ _ (for_each_ExtendLaws _).
#[global] Instance BinaryHeap_laws `{Countable K} :
  ConsumerLaws FromStreamTrait (BinaryHeap K) K :=
  extend_ConsumerLaws _ _ (for_each_ExtendLaws _).
#[global] Instance String_char_laws : ConsumerLaws FromStreamTrait RString Char :=
  extend_ConsumerLaws _ string_new (loop_ExtendLaws _).
#[global] Instance String_char_ref_laws : ConsumerLaws FromStreamTrait RString CharRef :=
  extend_ConsumerLaws _ string_new (loop_ExtendLaws _).
#[global] Instance String_str_laws : ConsumerLaws FromStreamTrait RString Str :=
  extend_ConsumerLaws _ string_new (loop_ExtendLaws _).
#[global] Instance String_string_laws : ConsumerLaws FromStreamTrait RString RString :=
  extend_ConsumerLaws _ string_new (loop_ExtendLaws _).
#[global] Instance String_cow_laws : ConsumerLaws FromStreamTrait RString CowStr :=
  extend_ConsumerLaws _ string_new (loop_ExtendLaws _).

(** What pushing makes of the items. *)
Lemma push_vec {A} (l acc : list A) : fold_left (λ out item, out ++ [item]) l acc = acc ++ l.
Proof.
  revert acc. induction l as [|a l IH]; intros acc; simpl; [by rewrite app_nil_r|].
  by rewrite IH, <- app_assoc.
Qed.

Lemma push_string {A} (chars : A → list Char) (l : list A) acc :
  fold_left (λ out item, string_push_str out (chars item)) l acc =
  mkRString (string_chars acc ++ concat (chars <$> l)).
Proof.
  revert acc. induction l as [|a l IH]; intros [acc]; simpl; [by rewrite app_nil_r|].
  rewrite IH. simpl. by rewrite <- app_assoc.
Qed.

Lemma concat_singletons {A B} (f : A → B) (l : list A) : concat ((λ a, [f a]) <$> l) = f <$> l.
Proof. induction l as [|a l IH]; [done|]. rewrite !fmap_cons, <- IH. done. Qed.

Lemma push_map `{Countable K} {V} (l : list (K * V)) (acc : gmap K V) :
  fold_left (λ m '(k, v), <[k := v]> m) l acc = list_to_map (reverse l) ∪ acc.
Proof.
  revert acc. induction l as [|[k v] l IH]; intros acc; simpl; [by rewrite map_empty_union|].
  rewrite IH, reverse_cons, list_to_map_app, <- (map_union_assoc (M:=gmap K)). f_equal.
  simpl. by rewrite insert_empty, <- insert_union_singleton_l.
Qed.

Lemma push_set `{Countable K} (l : list K) (acc : gset K) :
  fold_left (λ m k, {[k]} ∪ m) l acc = list_to_set l ∪ acc.
Proof. revert acc. induction l as [|k l IH]; intros acc; simpl; [set_solver|]. rewrite IH. set_solver. Qed.

Lemma push_heap `{Countable K} (l : list K) (acc : gmultiset K) :
  fold_left (λ m k, {[+ k +]} ⊎ m) l acc = list_to_set_disj l ⊎ acc.
Proof.
  revert acc. induction l as [|k l IH]; intros acc; simpl; [multiset_solver|].
  rewrite IH. multiset_solver.
Qed.

(** A constructor can be taken out of a fold. *)
Lemma fold_left_wrap {A B C} (wrap : B → C) (f : B → A → B) (g : C → A → C) l b :
  (∀ b a, g (wrap b) a = wrap (f b a)) → fold_left g l (wrap b) = wrap (fold_left f l b).
Proof. intros Hg. revert b. induction l as [|a l IH]; intros b; simpl; [done|]. by rewrite Hg, IH. Qed.

(** ** Through a vector *)

#[local] Opaque Vec_FromStream.
Lemma ThroughVec_resolves {A V} (convert : list A → V) `{Stream St A} (f f' : ConsumerFuture FromStreamTrait (list A) St) l :
  resolves f l f' → resolves (mkThroughVec convert f) (convert l) (mkThroughVec convert f').
Proof. intros Hf. lift_now Hf. Qed.
#[local] Transparent Vec_FromStream.

Section Through.
Context {A V : Type} (convert : list A → V).

Lemma through_consumes `{Stream St A} `{!StreamMono St} (s : St) l s' v :
  reads never s l s' → v = convert l →
  ∃ f', resolves (consume (Consumer:=through_vec_FromStream convert) FromStreamTrait V s) v f' ∧
    consume_left (Consumer:=through_vec_FromStream convert) FromStreamTrait V f' = s'.
Proof.
  intros Hr ->.
  destruct (@consume_resolves FromStreamTrait (list A) A _ Vec_laws _ _ _ s l s' _ Hr eq_refl) as (f & Hf & Hs).
  rewrite push_vec in Hf. exists (mkThroughVec convert f). split; [|done].
  apply (ThroughVec_resolves convert _ _ _ Hf).
Qed.

Definition through_ConsumerLaws :
    @ConsumerLaws FromStreamTrait V A (through_vec_FromStream convert) := {|
  enough := never;
  builds l v := v = convert l;
  consume_resolves _ _ _ := through_consumes
|}.
End Through.

#[global] Instance Cow_laws {A} : ConsumerLaws FromStreamTrait (CowSlice A) A :=
  through_ConsumerLaws Owned.
#[global] Instance Box_laws {A} : ConsumerLaws FromStreamTrait (BoxSlice A) A :=
  through_ConsumerLaws into_boxed_slice.
#[global] Instance Rc_laws {A} : ConsumerLaws FromStreamTrait (RcSlice A) A :=
  through_ConsumerLaws into_rc.
#[global] Instance Arc_laws {A} : ConsumerLaws FromStreamTrait (ArcSlice A) A :=
  through_ConsumerLaws into_arc.

#[global] Program Instance Unit_laws : ConsumerLaws FromStreamTrait () () := {|
  enough := never;
  builds l v := True
|}.
Next Obligation.
  intros St HS Hm s l s' [] Hd%reads_never _. eexists.
  split; [by apply (ForEachFuture_resolves s s')|done].
Qed.

(** * Stopping at the first [None] or [Err] *)

Section Stopping.
Context `{ConsumerLaws K V T}.

Definition option_enough (x : option T) : bool :=
  match x with Some t => enough K V t | None => true end.
Definition is_none (x : option T) : bool := match x with Some _ => false | None => true end.

(** The scan reads on as the consumer behind it does, and notes a [None]. *)
Lemma none_finder_reads `{Stream St (option T)} (s : St) l s' :
  reads option_enough s l s' →
  reads (enough K V) (Scan_new s () none_finder) (omap id l)
    (mkScan s' ((), mkClosure (existsb is_none l) (closure_body none_finder))).
Proof.
  unfold Scan_new.
  induction 1 as [s s' Hp|s [t|] s' Hp He|s [t|] s1 l s' Hp He Hr IH]; simpl in *; try done.
  - eapply reads_end, Scan_pulls_None, Hp.
  - eapply reads_enough; [|exact He]. eapply Scan_pulls_Some; [|exact Hp]; done.
  - eapply reads_end. eapply Scan_pulls_Some; [|exact Hp]; done.
  - eapply reads_more; [eapply Scan_pulls_Some; [|exact Hp]; done|done|exact IH].
Qed.

Lemma OptionFuture_resolves `{Stream St (option T)}
    (f f' : ConsumerFuture K V (Scan St () (NoneFinder T))) v :
  resolves f v f' →
  resolves (mkOptionFuture f)
    (if found_none (consume_left K V f') then None else Some v) (mkOptionFuture f').
Proof. intros Hf. lift_now Hf. Qed.

Lemma option_consumes `{Stream St (option T)} `{!StreamMono St} (s : St) l s' o :
  reads option_enough s l s' →
  (∃ v, builds K V (omap id l) v ∧ o = if existsb is_none l then None else Some v) →
  ∃ f', resolves (consume (Consumer:=Option_Consumer K V T) K (option V) s) o f' ∧
    consume_left (Consumer:=Option_Consumer K V T) K (option V) f' = s'.
Proof.
  intros Hr (v & Hb & ->). apply none_finder_reads in Hr.
  destruct (consume_resolves _ _ _ _ Hr Hb) as (f & Hf & Hs).
  exists (mkOptionFuture f). simpl. rewrite Hs. split; [|done].
  apply OptionFuture_resolves in Hf. rewrite Hs in Hf. exact Hf.
Qed.

Definition Option_ConsumerLaws : @ConsumerLaws K (option V) (option T) (Option_Consumer K V T) := {|
  enough := option_enough;
  builds l o := ∃ v, builds K V (omap id l) v ∧ o = if existsb is_none l then None else Some v;
  consume_resolves _ _ _ := option_consumes
|}.

Context {E : Type}.
Definition result_enough (x : Result T E) : bool :=
  match x with Ok t => enough K V t | Err _ => true end.
Definition ok (x : Result T E) : option T := match x with Ok t => Some t | Err _ => None end.
Definition err (x : Result T E) : option E := match x with Ok _ => None | Err e => Some e end.

Lemma err_finder_reads `{Stream St (Result T E)} (s : St) l s' :
  reads result_enough s l s' →
  reads (enough K V) (Scan_new s () err_finder) (omap ok l)
    (mkScan s' ((), mkClosure (head (omap err l)) (closure_body err_finder))).
Proof.
  unfold Scan_new.
  induction 1 as [s s' Hp|s [t|e] s' Hp He|s [t|e] s1 l s' Hp He Hr IH]; simpl in *; try done.
  - eapply reads_end, Scan_pulls_None, Hp.
  - eapply reads_enough; [|exact He]. eapply Scan_pulls_Some; [|exact Hp]; done.
  - eapply reads_end. eapply Scan_pulls_Some; [|exact Hp]; done.
  - eapply reads_more; [eapply Scan_pulls_Some; [|exact Hp]; done|done|exact IH].
Qed.

Lemma ResultFuture_resolves `{Stream St (Result T E)}
    (f f' : ConsumerFuture K V (Scan St () (ErrFinder T E))) v :
  resolves f v f' →
  resolves (mkResultFuture f)
    (match found_error (consume_left K V f') with Some e => Err e | None => Ok v end)
    (mkResultFuture f').
Proof. intros Hf. lift_now Hf. Qed.

Lemma result_consumes `{Stream St (Result T E)} `{!StreamMono St} (s : St) l s' r :
  reads result_enough s l s' →
  (∃ v, builds K V (omap ok l) v ∧
        r = match head (omap err l) with Some e => Err e | None => Ok v end) →
  ∃ f', resolves (consume (Consumer:=Result_Consumer K V T E) K (Result V E) s) r f' ∧
    consume_left (Consumer:=Result_Consumer K V T E) K (Result V E) f' = s'.
Proof.
  intros Hr (v & Hb & ->). apply err_finder_reads in Hr.
  destruct (consume_resolves _ _ _ _ Hr Hb) as (f & Hf & Hs).
  exists (mkResultFuture f). simpl. rewrite Hs. split; [|done].
  apply ResultFuture_resolves in Hf. rewrite Hs in Hf. exact Hf.
Qed.

Definition Result_ConsumerLaws :
    @ConsumerLaws K (Result V E) (Result T E) (Result_Consumer K V T E) := {|
  enough := result_enough;
  builds l r := ∃ v, builds K V (omap ok l) v ∧
    r = match head (omap err l) with Some e => Err e | None => Ok v end;
  consume_resolves _ _ _ := result_consumes
|}.
End Stopping.

#[global] Instance Option_FromStream_laws `{ConsumerLaws FromStreamTrait V T} :
  ConsumerLaws FromStreamTrait (option V) (option T) := Option_ConsumerLaws.
#[global] Instance Option_Sum_laws `{ConsumerLaws SumTrait V T} :
  ConsumerLaws SumTrait (option V) (option T) := Option_ConsumerLaws.
#[global] Instance Option_Product_laws `{ConsumerLaws ProductTrait V T} :
  ConsumerLaws ProductTrait (option V) (option T) := Option_ConsumerLaws.
#[global] Instance Result_FromStream_laws {E} `{ConsumerLaws FromStreamTrait V T} :
  ConsumerLaws FromStreamTrait (Result V E) (Result T E) := Result_ConsumerLaws.
#[global] Instance Result_Sum_laws {E} `{ConsumerLaws SumTrait V T} :
  ConsumerLaws SumTrait (Result V E) (Result T E) := Result_ConsumerLaws.
#[global] Instance Result_Product_laws {E} `{ConsumerLaws ProductTrait V T} :
  ConsumerLaws ProductTrait (Result V E) (Result T E) := Result_ConsumerLaws.

(** * Panics *)

(** Polled again and again, the future panics. *)
Inductive until_panic {F X : Type} (p : nat → F → Eff (Poll X * F)) : F → Prop :=
| until_panic_now f : (∃ n, ∀ m, n ≤ m → p m f = Panic) → until_panic p f
| until_panic_later n f f1 w :
    p n f = Done ((Pending, f1), w) → until_panic p f1 → until_panic p f.

(** The same for a poll that is a loop, at any fuel for the rounds. *)
Section LoopPanic.
Context {F X : Type} (body : nat → F → Eff (F + (Poll X * F))).
Context (Hmono : ∀ f, fuel_mono (λ n, body n f)).

Inductive loop_until_panic : F → Prop :=
| loop_until_panic_now f :
    (∃ n, ∀ b k, n ≤ b → n ≤ k → rust_loop (body b) k f = Panic) → loop_until_panic f
| loop_until_panic_later n f f1 w :
    loop_poll body n f = Done ((Pending, f1), w) → loop_until_panic f1 → loop_until_panic f.

Lemma loop_panics f : loop_until_panic f → until_panic (loop_poll body) f.
Proof.
  induction 1 as [f [n Hn]|n f f1 w Hf _ IH]; [|by eapply until_panic_later].
  apply until_panic_now. exists n. intros m Hm. by apply Hn.
Qed.

Lemma loop_panic_now f n : (∀ m, n ≤ m → body m f = Panic) → loop_until_panic f.
Proof.
  intros Hb. apply loop_until_panic_now. exists (Datatypes.S n). intros b [|k] Hle Hk; [lia|].
  simpl. by rewrite Hb by lia.
Qed.

Lemma loop_panic_round n f f1 w :
  body n f = Done (inl f1, w) → loop_until_panic f1 → loop_until_panic f.
Proof.
  intros Hb Hp. destruct Hp as [f1 [m Hm]|m f1 f2 w1 Hl Hp].
  - apply loop_until_panic_now. exists (Datatypes.S (n `max` m)). intros b [|k] Hle Hk; [lia|].
    simpl. rewrite (Hmono f n b _ ltac:(lia) Hb). simpl. by rewrite Hm by lia.
  - destruct (loop_poll_round body Hmono _ _ _ _ _ _ _ Hb Hl) as (k & w' & Hk).
    by eapply loop_until_panic_later.
Qed.

Lemma loop_panic_lift {S Y} (q : nat → S → Eff (Poll Y * S)) (g : S → F) s y s' :
  pending_through q (loop_poll body) g → until_ready q s y s' →
  (∀ s0 n w, q n s0 = Done ((Ready y, s'), w) → loop_until_panic (g s0)) →
  loop_until_panic (g s).
Proof.
  intros Hg Hs Hnow. induction Hs as [n s y s' w Hp|n s s1 y s' w Hp _ IH]; [by eapply Hnow|].
  destruct (Hg _ _ _ _ Hp) as (m & w' & Hq). eapply loop_until_panic_later; eauto.
Qed.
End LoopPanic.

(** * Sums and products *)

Section Arith.
Local Open Scope Z_scope.
Context {ty : IntTy} (op : Z → Z → Z).

(** Every partial result fits the type. *)
Fixpoint fits (acc : Z) (l : list (Int ty)) : bool :=
  match l with
  | [] => true
  | x :: l => let acc := op acc (int_val _ x) in int_in ty acc && fits acc l
  end.
Definition total (acc : Z) (l : list (Int ty)) : Z := fold_left op (int_val _ <$> l) acc.

Context `{Stream St (Int ty)} `{!StreamMono St}.

Lemma int_op_mono (a b : Int ty) : fuel_mono (λ _, int_op op a b).
Proof. intros n m x _ Hx. exact Hx. Qed.

Lemma fold_round_mono (this : FoldFuture St () (Int ty)) :
  fuel_mono (λ n, fold_round (int_op op) n this).
Proof. unfold fold_round. solve_fuel_mono. Qed.
Hint Resolve fold_round_mono : async.

Lemma fold_resolves (s s' : St) acc l :
  reads never s l s' → fits acc l = true →
  until_ready (loop_poll (fold_round (int_op op))) (FoldFuture_new s (mkInt ty acc) ())
    (mkInt ty (total acc l)) (mkFoldFuture s' () None).
Proof.
  intros Hd%reads_never. unfold FoldFuture_new. revert acc.
  induction Hd as [s s' Hp|s a s1 l s' Hp Hd IH]; intros acc Hf; simpl in *.
  - lift_now_loop (fold_round (St:=St) (int_op (ty:=ty) op)) Hp.
  - apply andb_true_iff in Hf as [Hi Hf].
    assert (int_op op (mkInt ty acc) a = Done (mkInt ty (op acc (int_val ty a)), [])) as Ho
      by (unfold int_op; simpl; by rewrite Hi).
    lift_round (fold_round (St:=St) (int_op (ty:=ty) op)) Hp. by apply IH.
Qed.

Lemma fold_panics (s s' : St) acc l :
  items s l s' → fits acc l = false →
  loop_until_panic (fold_round (int_op op)) (FoldFuture_new s (mkInt ty acc) ()).
Proof.
  intros Hi. unfold FoldFuture_new. revert acc.
  induction Hi as [s|s a s1 l s' Hp Hi IH]; intros acc Hf; simpl in *; [done|].
  eapply (loop_panic_lift _ poll_next (λ s, mkFoldFuture s () (Some (mkInt ty acc))));
    [solve_pending_loop (fold_round (St:=St) (int_op (ty:=ty) op))|exact Hp|].
  intros s0 n w Hn. destruct (int_in ty (op acc (int_val ty a))) eqn:Hin; simpl in Hf.
  - eapply (loop_panic_round _ fold_round_mono n); [|exact (IH _ Hf)].
    unfold fold_round. simpl. rewrite Hn. simpl. unfold int_op. simpl. rewrite Hin. reflexivity.
  - eapply (loop_panic_now _ _ n). intros m Hm. unfold fold_round. simpl.
    rewrite (stream_mono s0 n m _ Hm Hn). simpl. unfold int_op. simpl. by rewrite Hin.
Qed.

Lemma int_consumes K unit (s : St) l s' v :
  reads never s l s' → (fits unit l = true ∧ v = mkInt ty (total unit l)) →
  ∃ f', resolves (consume (Consumer:=int_Consumer K ty op unit) K (Int ty) s) v f' ∧
    consume_left (Consumer:=int_Consumer K ty op unit) K (Int ty) f' = s'.
Proof.
  intros Hr [Hf ->]. pose proof (fold_resolves s s' unit l Hr Hf) as Hu.
  exists (mkIntFold op (mkFoldFuture s' () None)). split; [|done].
  eapply (until_ready_map (loop_poll (fold_round (int_op op))) poll (mkIntFold op));
    [|exact Hu|].
  - intros n f f1 w Hp. exists n. eexists. simpl. unfold poll, IntFold_Future, IntFold_poll.
    simpl. rewrite Hp. reflexivity.
  - intros f n w Hp. exists n. eexists. simpl. unfold poll, IntFold_Future, IntFold_poll.
    simpl. rewrite Hp. reflexivity.
Qed.
End Arith.

Section IntPanics.
Context {ty : IntTy} (op : Z → Z → Z) `{Stream St (Int ty)} `{!StreamMono St}.

Lemma int_fold_panics (fut : FoldFuture St () (Int ty)) :
  loop_until_panic (fold_round (int_op op)) fut → until_panic poll (mkIntFold op fut).
Proof.
  intros Hp%loop_panics. induction Hp as [f [n Hn]|n f f1 w Hf _ IH].
  - apply until_panic_now. exists n. intros m Hm.
    unfold poll, IntFold_Future, IntFold_poll. simpl. by rewrite Hn.
  - eapply (until_panic_later _ n); [|exact IH].
    unfold poll, IntFold_Future, IntFold_poll. simpl. rewrite Hf. reflexivity.
Qed.
End IntPanics.

Definition int_ConsumerLaws K ty op unit :
    @ConsumerLaws K (Int ty) (Int ty) (int_Consumer K ty op unit) := {|
  enough := never;
  builds l v := fits op unit l = true ∧ v = mkInt ty (total op unit l);
  consume_resolves _ _ _ := int_consumes op K unit
|}.

Lemma wrapping_consumes K ty op unit `{Stream St (Wrapping ty)} `{!StreamMono St} (s : St) l s' v :
  reads never s l s' →
  v = fold_left (λ a b, wrapping_op op (a, b)) l (mkWrapping ty unit) →
  ∃ f', resolves (consume (Consumer:=wrapping_Consumer K ty op unit) K (Wrapping ty) s) v f' ∧
    consume_left (Consumer:=wrapping_Consumer K ty op unit) K (Wrapping ty) f' = s'.
Proof.
  intros Hd%reads_never ->. eexists. split.
  - pose proof (FoldFuture_resolves s s' (wrapping_op op) (mkWrapping ty unit) l Hd) as Hr.
    rewrite fold_calls_pure in Hr. exact Hr.
  - done.
Qed.

Definition wrapping_ConsumerLaws K ty op unit :
    @ConsumerLaws K (Wrapping ty) (Wrapping ty) (wrapping_Consumer K ty op unit) := {|
  enough := never;
  builds l v := v = fold_left (λ a b, wrapping_op op (a, b)) l (mkWrapping ty unit);
  consume_resolves _ _ _ := wrapping_consumes K ty op unit
|}.

#[global] Instance Int_Sum_laws ty : ConsumerLaws SumTrait (Int ty) (Int ty) :=
  int_ConsumerLaws SumTrait ty Z.add 0.
#[global] Instance Wrapping_Sum_laws ty : ConsumerLaws SumTrait (Wrapping ty) (Wrapping ty) :=
  wrapping_ConsumerLaws SumTrait ty Z.add 0.
#[global] Instance Int_Product_laws ty : ConsumerLaws ProductTrait (Int ty) (Int ty) :=
  int_ConsumerLaws ProductTrait ty Z.mul 1.
#[global] Instance Wrapping_Product_laws ty :
  ConsumerLaws ProductTrait (Wrapping ty) (Wrapping ty) :=
  wrapping_ConsumerLaws ProductTrait ty Z.mul 1.

(** ** Wrapping is arithmetic modulo a power of two *)

Section Wrap.
Local Open Scope Z_scope.
Context (ty : IntTy) (Hbits : 0 < int_bits ty).

Lemma int_wrap_mod z : int_wrap ty z mod 2 ^ int_bits ty = z mod 2 ^ int_bits ty.
Proof.
  unfold int_wrap. assert (0 < 2 ^ int_bits ty) by (apply Z.pow_pos_nonneg; lia).
  rewrite Zplus_mod, Z.mod_mod, <- Zplus_mod by lia. f_equal. lia.
Qed.

Lemma int_wrap_in z : int_in ty (int_wrap ty z) = true.
Proof.
  unfold int_in, int_wrap, int_max, int_min.
  assert (0 < 2 ^ (int_bits ty - 1)) by (apply Z.pow_pos_nonneg; lia).
  assert (2 ^ int_bits ty = 2 * 2 ^ (int_bits ty - 1)) as He
    by (rewrite <- Z.pow_succ_r by lia; f_equal; lia).
  rewrite He.
  destruct (int_signed ty); apply andb_true_intro; rewrite !Z.leb_le;
    [pose proof (Z.mod_pos_bound (z - - 2 ^ (int_bits ty - 1)) (2 * 2 ^ (int_bits ty - 1)))
    |pose proof (Z.mod_pos_bound (z - 0) (2 * 2 ^ (int_bits ty - 1)))]; lia.
Qed.

Lemma wrapping_fold_mod (op : Z → Z → Z) (l : list (Wrapping ty)) acc :
  (∀ a b x, a mod 2 ^ int_bits ty = b mod 2 ^ int_bits ty →
            op a x mod 2 ^ int_bits ty = op b x mod 2 ^ int_bits ty) →
  int_in ty acc = true →
  let r := wrapping_val ty (fold_left (λ a b, wrapping_op op (a, b)) l (mkWrapping ty acc)) in
  int_in ty r = true ∧
  r mod 2 ^ int_bits ty = fold_left op (wrapping_val ty <$> l) acc mod 2 ^ int_bits ty.
Proof.
  intros Hop.
  assert (Hmod : ∀ (l : list Z) a b, a mod 2 ^ int_bits ty = b mod 2 ^ int_bits ty →
    fold_left op l a mod 2 ^ int_bits ty = fold_left op l b mod 2 ^ int_bits ty).
  { clear l acc. intros l. induction l as [|x l IH]; intros a b Hab; simpl; auto. }
  revert acc. induction l as [|x l IH]; intros acc Hin; cbv zeta; [done|].
  simpl. unfold wrapping_op at 2 4. simpl.
  destruct (IH (int_wrap ty (op acc (wrapping_val ty x))) (int_wrap_in _)) as [H1 H2].
  split; [exact H1|]. rewrite H2. apply Hmod, int_wrap_mod.
Qed.

Lemma add_mod_l a b x :
  a mod 2 ^ int_bits ty = b mod 2 ^ int_bits ty →
  (a + x) mod 2 ^ int_bits ty = (b + x) mod 2 ^ int_bits ty.
Proof. intros Hab. by rewrite Zplus_mod, Hab, <- Zplus_mod. Qed.

Lemma mul_mod_l a b x :
  a mod 2 ^ int_bits ty = b mod 2 ^ int_bits ty →
  (a * x) mod 2 ^ int_bits ty = (b * x) mod 2 ^ int_bits ty.
Proof. intros Hab. by rewrite Zmult_mod, Hab, <- Zmult_mod. Qed.
End Wrap.

(** * The theorems *)

Lemma reads_yields `{Stream St T} (s : St) l : yields s l → ∃ s', reads never s l s'.
Proof. intros [s' Hd]%yields_drains. exists s'. by apply reads_never. Qed.

Lemma collects `{Stream St T} `{!StreamMono St} `{HC : Consumer K V T} (HL : ConsumerLaws K V T)
    (s : St) l v :
  (∀ t, enough K V t = false) → yields s l → builds K V l v → resolves_to (consume K V s) v.
Proof.
  intros He [s' Hd]%yields_drains Hb.
  destruct (consume_resolves (K:=K) (V:=V) s l s' v) as (f & Hf & _); [|done|by exists f].
  clear Hb v. induction Hd as [s s' Hp|s a s1 l s' Hp _ IH]; [by constructor|].
  by eapply reads_more.
Qed.

(** ** Lists of items that are all accepted *)

Lemma reads_drains `{Stream St B} {T} (enough : T → bool) (stops : B → bool) (wrap : T → B)
    (s s' : St) l :
  (∀ t, stops (wrap t) = enough t) → Forall (λ t, enough t = false) l →
  drains s (wrap <$> l) s' → reads stops s (wrap <$> l) s'.
Proof.
  intros Hw Hl. revert s. induction Hl as [|t l Ht _ IH]; intros s Hd; inversion Hd; subst.
  - by constructor.
  - eapply reads_more; [done|by rewrite Hw|by apply IH].
Qed.

Lemma reads_items `{Stream St B} {T} (enough : T → bool) (stops : B → bool) (wrap : T → B)
    (s s' : St) l b :
  (∀ t, stops (wrap t) = enough t) → Forall (λ t, enough t = false) l → stops b = true →
  items s ((wrap <$> l) ++ [b]) s' → reads stops s ((wrap <$> l) ++ [b]) s'.
Proof.
  intros Hw Hl Hb. revert s. induction Hl as [|t l Ht _ IH]; intros s Hi; inversion Hi; subst.
  - match goal with H1 : items _ [] _ |- _ => inversion H1; subst end. by apply reads_enough.
  - eapply reads_more; [done|by rewrite Hw|by apply IH].
Qed.

Lemma omap_wrapped {T B} (wrap : T → B) (unwrap : B → option T) (l : list T) :
  (∀ t, unwrap (wrap t) = Some t) → omap unwrap (wrap <$> l) = l.
Proof. intros Hw. induction l as [|t l IH]; csimpl; [done|]. by rewrite Hw, IH. Qed.

Lemma omap_dropped {T B C} (wrap : T → B) (unwrap : B → option C) (l : list T) :
  (∀ t, unwrap (wrap t) = None) → omap unwrap (wrap <$> l) = [].
Proof. intros Hw. induction l as [|t l IH]; csimpl; [done|]. by rewrite Hw, IH. Qed.

Lemma existsb_wrapped {T B} (wrap : T → B) (p : B → bool) (l : list T) :
  (∀ t, p (wrap t) = false) → existsb p (wrap <$> l) = false.
Proof. intros Hw. induction l as [|t l IH]; csimpl; [done|]. by rewrite Hw, IH. Qed.

(** C28 What a stream is collected into.  A [Vec], [VecDeque], [LinkedList] or
    slice is the list of the items; a [HashMap] or [BTreeMap] has for each key
    the value that came last; a set holds the items, a heap each as often as it
    came; a [String] is the concatenation of the characters or strings; and the
    unit collection awaits the end of the stream. *)
Theorem collect_builds :
  (∀ St A `(HS : Stream St A) `(!StreamMono St) (s : St) l, yields s l →
     resolves_to (from_stream (list A) s) l ∧
     resolves_to (from_stream (VecDeque A) s) (mkVecDeque l) ∧
     resolves_to (from_stream (LinkedList A) s) (mkLinkedList l) ∧
     resolves_to (from_stream (CowSlice A) s) (Owned l) ∧
     resolves_to (from_stream (BoxSlice A) s) (into_boxed_slice l) ∧
     resolves_to (from_stream (RcSlice A) s) (into_rc l) ∧
     resolves_to (from_stream (ArcSlice A) s) (into_arc l)) ∧
  (∀ St K V `(Countable K) `(HS : Stream St (K * V)) `(!StreamMono St) (s : St) l, yields s l →
     resolves_to (from_stream (HashMap K V) s) (mkHashMap (list_to_map (reverse l))) ∧
     resolves_to (from_stream (BTreeMap K V) s) (mkBTreeMap (list_to_map (reverse l)))) ∧
  (∀ St K `(Countable K) `(HS : Stream St K) `(!StreamMono St) (s : St) l, yields s l →
     resolves_to (from_stream (HashSet K) s) (mkHashSet (list_to_set l)) ∧
     resolves_to (from_stream (BTreeSet K) s) (mkBTreeSet (list_to_set l)) ∧
     resolves_to (from_stream (BinaryHeap K) s) (mkBinaryHeap (list_to_set_disj l))) ∧
  (∀ St `(HS : Stream St Char) `(!StreamMono St) (s : St) l, yields s l →
     resolves_to (from_stream RString s) (mkRString l)) ∧
  (∀ St `(HS : Stream St CharRef) `(!StreamMono St) (s : St) l, yields s l →
     resolves_to (from_stream RString s) (mkRString (char_ref <$> l))) ∧
  (∀ St `(HS : Stream St Str) `(!StreamMono St) (s : St) l, yields s l →
     resolves_to (from_stream RString s) (mkRString (concat (str_chars <$> l)))) ∧
  (∀ St `(HS : Stream St RString) `(!StreamMono St) (s : St) l, yields s l →
     resolves_to (from_stream RString s) (mkRString (concat (string_chars <$> l)))) ∧
  (∀ St `(HS : Stream St CowStr) `(!StreamMono St) (s : St) l, yields s l →
     resolves_to (from_stream RString s) (mkRString (concat (cow_chars <$> l)))) ∧
  (∀ St `(HS : Stream St ()) `(!StreamMono St) (s : St) l, yields s l →
     resolves_to (from_stream () s) ()).
Proof.
  split_and!.
  - intros St A HS Hm s l Hy.
    split_and!; eapply collects; try exact Hy; try apply _; try done; simpl.
    + by rewrite push_vec.
    + by rewrite (fold_left_wrap mkVecDeque (λ out item, out ++ [item])), push_vec.
    + by rewrite (fold_left_wrap mkLinkedList (λ out item, out ++ [item])), push_vec.
  - intros St K V HE HK HS Hm s l Hy.
    split; eapply collects; try exact Hy; try apply _; try done; simpl.
    + rewrite (fold_left_wrap mkHashMap (λ m '(k, v), <[k := v]> m)) by (by intros ? []).
      by rewrite push_map, (right_id_L ∅ (∪)).
    + rewrite (fold_left_wrap mkBTreeMap (λ m '(k, v), <[k := v]> m)) by (by intros ? []).
      by rewrite push_map, (right_id_L ∅ (∪)).
  - intros St K HE HK HS Hm s l Hy.
    split_and!; eapply collects; try exact Hy; try apply _; try done; simpl.
    + rewrite (fold_left_wrap mkHashSet (λ m k, {[k]} ∪ m)) by done.
      by rewrite push_set, (right_id_L ∅ (∪)).
    + rewrite (fold_left_wrap mkBTreeSet (λ m k, {[k]} ∪ m)) by done.
      by rewrite push_set, (right_id_L ∅ (∪)).
    + rewrite (fold_left_wrap mkBinaryHeap (λ m k, {[+ k +]} ⊎ m)) by done.
      by rewrite push_heap, (right_id_L ∅ (⊎)).
  - intros St HS Hm s l Hy. eapply collects; try exact Hy; [done|]. simpl. symmetry.
    etrans; [apply (push_string (λ c, [c]))|]. simpl. f_equal.
    by rewrite (concat_singletons id), list_fmap_id.
  - intros St HS Hm s l Hy. eapply collects; try exact Hy; [done|]. simpl. symmetry.
    etrans; [apply (push_string (λ c, [char_ref c]))|]. simpl. f_equal. apply concat_singletons.
  - intros St HS Hm s l Hy. eapply collects; try exact Hy; [done|]. simpl. by rewrite push_string.
  - intros St HS Hm s l Hy. eapply collects; try exact Hy; [done|]. simpl. by rewrite push_string.
  - intros St HS Hm s l Hy. eapply collects; try exact Hy; [done|]. simpl. by rewrite push_string.
  - intros St HS Hm s l Hy. by eapply collects.
Qed.

Lemma collect_builds_witness :
  resolves_to (from_stream (list nat) (from_iter [3; 1; 2])) [3; 1; 2] ∧
  resolves_to (from_stream (HashMap nat nat) (from_iter [(1, 5); (2, 6); (1, 7)]))
    (mkHashMap (<[1 := 7]> {[2 := 6]})).
Proof.
  destruct collect_builds as (Hl & Hm & _). split.
  - exact (proj1 (Hl _ _ _ _ _ _ (from_list_yields [3; 1; 2]))).
  - exact (proj1 (Hm _ nat nat _ _ _ _ _ _ (from_list_yields [(1, 5); (2, 6); (1, 7)]))).
Defined.

(** C29 Collecting, summing or multiplying a stream of [Option]s or [Result]s,
    for every element type whose implementation keeps its promise.  When no
    item is [None] ([Err]), the result is that of the values, wrapped.  At the
    first [None] ([Err]) the result is [None] (that [Err]), the stream is left
    at the item behind it, and this needs nothing of what would follow: the
    stream need not end. *)
Theorem consume_stops `{ConsumerLaws K V T} {E : Type} (l : list T) (v : V) :
  Forall (λ t, enough K V t = false) l → builds K V l v →
  (∀ St `(HS : Stream St (option T)) `(!StreamMono St) (s s' : St),
     (drains s (Some <$> l) s' →
        ∃ f', resolves (consume (Consumer:=Option_Consumer K V T) K (option V) s) (Some v) f' ∧
          consume_left (Consumer:=Option_Consumer K V T) K (option V) f' = s') ∧
     (items s ((Some <$> l) ++ [None]) s' →
        ∃ f', resolves (consume (Consumer:=Option_Consumer K V T) K (option V) s) None f' ∧
          consume_left (Consumer:=Option_Consumer K V T) K (option V) f' = s')) ∧
  (∀ St `(HS : Stream St (Result T E)) `(!StreamMono St) (s s' : St),
     (drains s (Ok <$> l) s' →
        ∃ f', resolves (consume (Consumer:=Result_Consumer K V T E) K (Result V E) s) (Ok v) f' ∧
          consume_left (Consumer:=Result_Consumer K V T E) K (Result V E) f' = s') ∧
     (∀ e, items s ((Ok <$> l) ++ [Err e]) s' →
        ∃ f', resolves (consume (Consumer:=Result_Consumer K V T E) K (Result V E) s) (Err e) f' ∧
          consume_left (Consumer:=Result_Consumer K V T E) K (Result V E) f' = s')).
Proof.
  intros He Hb. split; intros St HS Hm s s'; split.
  - intros Hd. apply (option_consumes s (Some <$> l) s'); [by eapply (reads_drains (enough K V))|].
    exists v. by rewrite omap_wrapped, existsb_wrapped.
  - intros Hi. apply (option_consumes s ((Some <$> l) ++ [None]) s'); [by eapply (reads_items (enough K V))|].
    exists v. by rewrite omap_app, omap_wrapped, app_nil_r, existsb_app, orb_true_r.
  - intros Hd. apply (result_consumes s (Ok <$> l) s'); [by eapply (reads_drains (enough K V))|].
    exists v. by rewrite omap_wrapped, omap_dropped.
  - intros e Hi. apply (result_consumes s ((Ok <$> l) ++ [Err e]) s'); [by eapply (reads_items (enough K V))|].
    exists v. by rewrite !omap_app, omap_wrapped, app_nil_r, omap_dropped.
Qed.

Lemma consume_stops_witness :
  resolves_to (from_stream (option (list nat)) (from_iter [Some 1; None; Some 3])) None ∧
  resolves_to (from_stream (option (list nat)) (from_fn (λ _ : (), Some (None : option nat)))) None.
Proof.
  split.
  - destruct (consume_stops (K:=FromStreamTrait) (V:=list nat) (E:=nat) [1] [1]) as [Ho _];
      [by repeat constructor|reflexivity|].
    destruct (Ho _ _ _ (from_iter [Some 1; None; Some 3]) (from_iter [Some 3])) as [_ Hn].
    destruct Hn as (f & Hf & _); [|by exists f].
    repeat (eapply items_cons; [by apply (until_ready_now _ 0 _ _ _ [])|]). apply items_nil.
  - destruct (consume_stops (K:=FromStreamTrait) (V:=list nat) (E:=nat) [] []) as [Ho _];
      [constructor|reflexivity|].
    destruct (Ho _ _ _ (from_fn (λ _ : (), Some (None : option nat))) (from_fn (λ _ : (), Some (None : option nat)))) as [_ Hn].
    destruct Hn as (f & Hf & _); [|by exists f].
    eapply items_cons; [by apply (until_ready_now _ 0 _ _ _ [])|]. apply items_nil.
Defined.

(** The value of a sum or a product without bounds. *)
Definition values {ty : IntTy} (l : list (Int ty)) : list Z := int_val ty <$> l.

(** Adding numbers that are not negative can only overflow upwards, so that the
    partial sums fit when the sum does. *)
Lemma unsigned_sum_fits {ty} (l : list (Int ty)) acc :
  int_signed ty = false → (0 ≤ acc)%Z → Forall (λ x, 0 ≤ int_val ty x)%Z l →
  (fold_left Z.add (values l) acc ≤ int_max ty)%Z ↔
  (acc ≤ int_max ty)%Z ∧ fits Z.add acc l = true.
Proof.
  intros Hs Hacc Hl. revert acc Hacc. induction Hl as [|x l Hx _ IH]; intros acc Hacc; simpl;
    [tauto|].
  rewrite IH by lia. unfold int_in at 1, int_min. rewrite Hs.
  rewrite andb_true_iff, andb_true_iff, !Z.leb_le. intuition lia.
Qed.

(** The sum and the product of a stream of machine integers.  When every
    partial result fits the type, the result is the sum (product) of the values;
    as soon as one does not, the future panics when it is polled, whatever the
    stream would still give (for unsigned integers the partial sums fit exactly
    when the sum does).  The wrapping integers never panic: their result is in
    the range of the type and congruent to the sum (product) modulo the power of
    two. *)
Theorem int_sums (ty : IntTy) :
  (0 < int_bits ty)%Z →
  (∀ St `(HS : Stream St (Int ty)) `(!StreamMono St) (s s' : St) l,
     (yields s l → fits Z.add 0 l = true →
        resolves_to (consume SumTrait (Int ty) s) (mkInt ty (fold_left Z.add (values l) 0%Z))) ∧
     (yields s l → fits Z.mul 1 l = true →
        resolves_to (consume ProductTrait (Int ty) s)
          (mkInt ty (fold_left Z.mul (values l) 1%Z))) ∧
     (items s l s' → fits Z.add 0 l = false →
        until_panic poll (consume SumTrait (Int ty) s)) ∧
     (items s l s' → fits Z.mul 1 l = false →
        until_panic poll (consume ProductTrait (Int ty) s))) ∧
  (∀ l : list (Int ty), int_signed ty = false → Forall (λ x, 0 ≤ int_val ty x)%Z l →
     fits Z.add 0 l = true ↔ (fold_left Z.add (values l) 0 ≤ int_max ty)%Z) ∧
  (∀ St `(HS : Stream St (Wrapping ty)) `(!StreamMono St) (s : St) l, yields s l →
     (∃ r, resolves_to (consume SumTrait (Wrapping ty) s) (mkWrapping ty r) ∧
        int_in ty r = true ∧
        (r mod 2 ^ int_bits ty =
           fold_left Z.add (wrapping_val ty <$> l) 0 mod 2 ^ int_bits ty)%Z) ∧
     (int_in ty 1 = true →
      ∃ r, resolves_to (consume ProductTrait (Wrapping ty) s) (mkWrapping ty r) ∧
        int_in ty r = true ∧
        (r mod 2 ^ int_bits ty =
           fold_left Z.mul (wrapping_val ty <$> l) 1 mod 2 ^ int_bits ty)%Z)).
Proof.
  intros Hbits.
  assert (H1 : (0 < 2 ^ (int_bits ty - 1))%Z) by (apply Z.pow_pos_nonneg; lia).
  assert (H2 : (0 < 2 ^ int_bits ty)%Z) by (apply Z.pow_pos_nonneg; lia).
  split_and!.
  - intros St HS Hm s s' l. split_and!.
    + intros Hy Hf. by eapply collects.
    + intros Hy Hf. by eapply collects.
    + intros Hi Hf. apply int_fold_panics. by eapply fold_panics.
    + intros Hi Hf. apply int_fold_panics. by eapply fold_panics.
  - intros l Hs Hl. rewrite (unsigned_sum_fits l 0 Hs) by (done || lia).
    unfold int_max. rewrite Hs. intuition lia.
  - intros St HS Hm s l Hy.
    assert (H0 : int_in ty 0 = true).
    { unfold int_in, int_min, int_max.
      destruct (int_signed ty); apply andb_true_iff; rewrite !Z.leb_le; lia. }
    split; [|intros Hone].
    + destruct (wrapping_fold_mod ty Hbits Z.add l 0 (add_mod_l ty) H0) as [Hin Hmod].
      eexists. split; [|split; [exact Hin|exact Hmod]]. eapply collects; [done|exact Hy|].
      simpl. by destruct (fold_left _ _ _).
    + destruct (wrapping_fold_mod ty Hbits Z.mul l 1 (mul_mod_l ty) Hone) as [Hin Hmod].
      eexists. split; [|split; [exact Hin|exact Hmod]]. eapply collects; [done|exact Hy|].
      simpl. by destruct (fold_left _ _ _).
Qed.

Lemma int_sums_witness :
  resolves_to (consume SumTrait (Int (mkIntTy false 8))
    (from_iter [mkInt (mkIntTy false 8) 200; mkInt _ 55])) (mkInt _ 255%Z) ∧
  until_panic poll (consume SumTrait (Int (mkIntTy false 8))
    (from_iter [mkInt (mkIntTy false 8) 200; mkInt _ 56])).
Proof.
  destruct (int_sums (mkIntTy false 8) eq_refl) as (Hi & _). split.
  - refine (proj1 (Hi _ _ _ (from_iter [mkInt (mkIntTy false 8) 200; mkInt _ 55%Z])
      (from_iter []) [mkInt (mkIntTy false 8) 200%Z; mkInt _ 55%Z]) _ eq_refl).
    apply from_list_yields.
  - refine (proj1 (proj2 (proj2 (Hi _ _ _ (from_iter [mkInt (mkIntTy false 8) 200; mkInt _ 56%Z])
      (from_iter []) [mkInt (mkIntTy false 8) 200%Z; mkInt _ 56%Z]))) _ eq_refl).
    repeat (eapply items_cons; [by apply (until_ready_now _ 0 _ _ _ [])|]). apply items_nil.
Defined.
