(* ===== verification/StreamExt.v ===== *)
(** The extension methods of streams (src/src/stream/stream/mod.rs), which make
    the adapters and the futures of the other files, and what chains of them
    do: pipelines of any length on a boxed stream. *)

From S2P Require Import Prelude Async StreamAdapters StreamAdaptersSpec StreamConsumers StreamConsumersSpec StreamSources StreamCombine StreamCombineSpec StreamCompare Collect CollectSpec.
Local Open Scope async_scope.

Module StreamExt.

(** ** Adapters *)

Section Adapters.
Context {St : Type}.
Implicit Type s : St.

Definition take s (n : N) : Take St := Take_new s n.
Definition take_while {P : Type} s (predicate : P) : TakeWhile St P := TakeWhile_new s predicate.
Definition throttle `{Timer D} s (d : N) : Throttle St D := Throttle_new s d.
Definition step_by s (step : N) : Eff (StepBy St) := StepBy_new s step.
Definition chain {U : Type} s (other : U) : Chain St U := Chain_new s other.
Definition cloned s : Cloned St := Cloned_new s.
Definition copied s : Copied St := Copied_new s.
Definition cycle `{!Clone St} s : Cycle St := Cycle_new s.
Definition enumerate s : Enumerate St := Enumerate_new s.
Definition delay `{Timer D} s (dur : N) : Delay St D := Delay_new s dur.
Definition map {F : Type} s (f : F) : Map St F := Map_new s f.
Definition inspect {F : Type} s (f : F) : Inspect St F := Inspect_new s f.
Definition fuse s : Fuse St := Fuse_new s.
Definition filter {P : Type} s (predicate : P) : Filter St P := Filter_new s predicate.
Definition flat_map {U F : Type} s (f : F) : FlatMap St U F := FlatMap_new s f.
Definition flatten {U : Type} s : Flatten St U := Flatten_new s.
Definition filter_map {F : Type} s (f : F) : FilterMap St F := FilterMap_new s f.
Definition by_ref s : St := s.
Definition scan {T F : Type} s (initial_state : T) (f : F) : Scan St T F :=
  Scan_new s initial_state f.
Definition skip_while {P : Type} s (predicate : P) : SkipWhile St P := SkipWhile_new s predicate.
Definition skip s (n : N) : Skip St := Skip_new s n.
Definition timeout `{Timer D} s (dur : N) : Timeout St D := Timeout_new s dur.
Definition zip {U A : Type} s (other : U) : Zip St U A := Zip_new s other.
(** The random number generator of the thread is part of the stream's state. *)
Definition merge {U : Type} s (other : U) (rng : N) : Merge St U := Merge_new s other rng.
End Adapters.

(** ** Consumers *)

Section Consumers.
Context {St : Type}.
Implicit Type s : St.

Definition next s : NextFuture St := mkNextFuture s.
Definition last {A : Type} s : LastFuture St A := LastFuture_new s.
Definition min_by_key {A F : Type} s (key_by : F) : MinByKeyFuture St A F :=
  MinByKeyFuture_new s key_by.
Definition max_by_key {A F : Type} s (key_by : F) : MaxByKeyFuture St A F :=
  MaxByKeyFuture_new s key_by.
Definition min_by {A F : Type} s (compare : F) : MinByFuture St F A := MinByFuture_new s compare.
Definition max_by {A F : Type} s (compare : F) : MaxByFuture St F A := MaxByFuture_new s compare.
Definition max {A : Type} s : MaxFuture St A := MaxFuture_new s.
Definition min {A : Type} s : MinFuture St A := MinFuture_new s.
Definition nth s (n : N) : NthFuture St := NthFuture_new s n.
Definition all {F : Type} s (f : F) : AllFuture St F := AllFuture_new s f.
Definition find {P : Type} s (p : P) : FindFuture St P := FindFuture_new s p.
Definition find_map {F : Type} s (f : F) : FindMapFuture St F := FindMapFuture_new s f.
Definition fold {B F : Type} s (init : B) (f : F) : FoldFuture St F B := FoldFuture_new s init f.
Definition partition {B A F : Type} `{Collection B A} s (f : F) : PartitionFuture St F B :=
  PartitionFuture_new s f.
Definition for_each {F : Type} s (f : F) : ForEachFuture St F := ForEachFuture_new s f.
Definition any {F : Type} s (f : F) : AnyFuture St F := AnyFuture_new s f.
Definition try_fold {T F : Type} s (init : T) (f : F) : TryFoldFuture St F T :=
  TryFoldFuture_new s init f.
Definition try_for_each {F : Type} s (f : F) : TryForEachFuture St F := TryForEachFuture_new s f.
Definition unzip {FromA FromB A B : Type} `{Collection FromA A} `{Collection FromB B} s :
  UnzipFuture St FromA FromB := UnzipFuture_new s.
Definition collect (V : Type) `{!FromStream V T} s : ConsumerFuture FromStreamTrait V St :=
  from_stream V s.
Definition partial_cmp {S A B : Type} s (other : S) : PartialCmpFuture St S A B :=
  PartialCmpFuture_new s other.
Definition position {P : Type} s (predicate : P) : PositionFuture St P :=
  PositionFuture_new s predicate.
Definition cmp {S A B : Type} s (other : S) : CmpFuture St S A B := CmpFuture_new s other.
Definition count s : CountFuture St := CountFuture_new s.
Definition ne {S : Type} s (other : S) : EqFuture St S := EqFuture_new s other.
Definition ge {S A B : Type} s (other : S) : PartialCmpFuture St S A B := partial_cmp s other.
Definition eq {S : Type} s (other : S) : EqFuture St S := EqFuture_new s other.
Definition gt {S A B : Type} s (other : S) : PartialCmpFuture St S A B := partial_cmp s other.
Definition le {S A B : Type} s (other : S) : PartialCmpFuture St S A B := partial_cmp s other.
Definition lt {S A B : Type} s (other : S) : PartialCmpFuture St S A B := partial_cmp s other.
Definition sum (V : Type) `{!Sum V T} s : ConsumerFuture SumTrait V St := consume SumTrait V s.
Definition product (V : Type) `{!Product V T} s : ConsumerFuture ProductTrait V St :=
  consume ProductTrait V s.
End Consumers.
End StreamExt.

(** * Streams that know their length (exact_size_stream.rs) *)

(** [Stream::size_hint] of futures_core. *)
Class SizeHint (St : Type) : Type := size_hint : St → N * option N.

(** [ExactSizeStream::len]; the assertion panics. *)
Definition ExactSizeStream_len {St : Type} `{SizeHint St} (s : St) : Eff N :=
  let '(lower, upper) := size_hint s in
  if decide (upper = Some lower) then mret lower else eff_panic.

(** It answers only when the bounds agree; the default hint of futures_core, which
    no stream of this crate overrides, makes it panic. *)
Lemma exact_len {St : Type} `{SizeHint St} (s : St) n w :
  ExactSizeStream_len s = Done (n, w) ↔ size_hint s = (n, Some n) ∧ w = [].
Proof.
  unfold ExactSizeStream_len. destruct (size_hint s) as [lower upper]. destruct (decide _) as [->|Hne].
  - split; [by intros [= <- <-]|by intros [[= <-] ->]].
  - split; [done|]. intros [[= <- ->] _]. by destruct Hne.
Qed.
Example default_hint_panics : ExactSizeStream_len (H:=λ _ : (), (0%N, None)) () = Panic.
Proof. reflexivity. Qed.

(** * Pipelines *)

(** [Box<dyn Stream<Item = A>>]. *)
Record BoxStream (A : Type) : Type := mkBoxStream {
  box_type : Type;
  box_Stream :: Stream box_type A;
  box_mono :: StreamMono box_type;
  box_state : box_type
}.
Arguments mkBoxStream {A} box_type {_ _} box_state.
Arguments box_type {A}.
Arguments box_state {A}.

(** One call in a chain of methods. *)
Inductive Stage : Type → Type → Type :=
| SMap {A B} (f : A → B) : Stage A B
| SInspect {A E} (f : Closure E A ()) : Stage A A
| SFilter {A} (p : A → bool) : Stage A A
| SFilterMap {A B} (f : A → option B) : Stage A B
| STake {A} (n : N) : Stage A A
| STakeWhile {A} (p : A → bool) : Stage A A
| SSkip {A} (n : N) : Stage A A
| SSkipWhile {A} (p : A → bool) : Stage A A
| SScan {A B T} (init : T) (f : T * A → option B * T) : Stage A B
| SFuse {A} : Stage A A
| SChain {A} (other : list A) : Stage A A
| SZip {A B} (other : list B) : Stage A (A * B).

Inductive Pipeline : Type → Type → Type :=
| PEnd {A} : Pipeline A A
| PThen {A B C} (stage : Stage A B) (rest : Pipeline B C) : Pipeline A C.

Definition call_stage {A B} (st : Stage A B) : BoxStream A → BoxStream B :=
  match st with
  | @SMap A B f => λ s, mkBoxStream _ (StreamExt.map (box_state s) f)
  | SInspect f => λ s, mkBoxStream _ (StreamExt.inspect (box_state s) f)
  | SFilter p => λ s, mkBoxStream _ (StreamExt.filter (box_state s) p)
  | SFilterMap f => λ s, mkBoxStream _ (StreamExt.filter_map (box_state s) f)
  | STake n => λ s, mkBoxStream _ (StreamExt.take (box_state s) n)
  | STakeWhile p => λ s, mkBoxStream _ (StreamExt.take_while (box_state s) p)
  | SSkip n => λ s, mkBoxStream _ (StreamExt.skip (box_state s) n)
  | SSkipWhile p => λ s, mkBoxStream _ (StreamExt.skip_while (box_state s) p)
  | SScan init f => λ s, mkBoxStream _ (StreamExt.scan (box_state s) init f)
  | SFuse => λ s, mkBoxStream _ (StreamExt.fuse (box_state s))
  | SChain other => λ s, mkBoxStream _ (StreamExt.chain (box_state s) (from_iter other))
  | SZip other => λ s, mkBoxStream _ (StreamExt.zip (box_state s) (from_iter other))
  end.

Fixpoint call_pipeline {A B} (p : Pipeline A B) : BoxStream A → BoxStream B :=
  match p with
  | PEnd => λ s, s
  | PThen stage rest => λ s, call_pipeline rest (call_stage stage s)
  end.

(** The same on lists. *)
Fixpoint list_take_while {A} (p : A → bool) (l : list A) : list A :=
  match l with a :: l => if p a then a :: list_take_while p l else [] | [] => [] end.
Fixpoint list_skip_while {A} (p : A → bool) (l : list A) : list A :=
  match l with a :: l' => if p a then list_skip_while p l' else l | [] => [] end.
Fixpoint list_scan {A B T} (f : T * A → option B * T) (st : T) (l : list A) : list B :=
  match l with
  | a :: l => match f (st, a) with
              | (Some b, st) => b :: list_scan f st l
              | (None, _) => []
              end
  | [] => []
  end.

Definition list_stage {A B} (st : Stage A B) : list A → list B :=
  match st with
  | SMap f => fmap f
  | SInspect _ => id
  | SFilter p => List.filter p
  | SFilterMap f => omap f
  | STake n => take (N.to_nat n)
  | STakeWhile p => list_take_while p
  | SSkip n => drop (N.to_nat n)
  | SSkipWhile p => list_skip_while p
  | SScan init f => list_scan f init
  | SFuse => id
  | SChain other => λ l, l ++ other
  | SZip other => λ l, zip l other
  end.

Fixpoint list_pipeline {A B} (p : Pipeline A B) : list A → list B :=
  match p with
  | PEnd => id
  | PThen stage rest => λ l, list_pipeline rest (list_stage stage l)
  end.

Lemma filter_calls {A} (p : A → bool) l : (List.filter snd (calls p l)).*1 = List.filter p l.
Proof. induction l as [|a l IH]; simpl; [done|]. destruct (p a); csimpl; by rewrite IH. Qed.

Lemma omap_calls {A B} (f : A → option B) l : omap snd (calls f l) = omap f l.
Proof. induction l as [|a l IH]; csimpl; [done|]. by rewrite IH. Qed.

Lemma accepted_pure {A} (p : A → bool) l : accepted p l = list_take_while p l.
Proof. induction l as [|a l IH]; simpl; [done|]. by rewrite IH. Qed.

Lemma after_accepted_pure {A} (p : A → bool) l : after_accepted p l = list_skip_while p l.
Proof. induction l as [|a l IH]; simpl; [done|]. by rewrite IH. Qed.

Lemma scanned_pure {A B T} (f : T * A → option B * T) st l :
  scanned st f l = list_scan f st l.
Proof.
  revert st. induction l as [|a l IH]; intros st; simpl; [done|].
  destruct (f (st, a)) as [[b|] st']; [by rewrite IH|done].
Qed.

Lemma call_stage_yields {A B} (st : Stage A B) (s : BoxStream A) l :
  yields (box_state s) l → yields (box_state (call_stage st s)) (list_stage st l).
Proof.
  intros Hy. destruct st; simpl.
  - pose proof (Map_yields (box_state s) f l Hy) as Hm. rewrite calls_pure in Hm.
    rewrite <- list_fmap_compose in Hm. exact Hm.
  - by apply (Inspect_yields (box_state s) f).
  - rewrite <- filter_calls. by apply Filter_yields.
  - rewrite <- omap_calls. by apply FilterMap_yields.
  - by apply Take_yields.
  - rewrite <- accepted_pure. by apply TakeWhile_yields.
  - by apply Skip_yields.
  - rewrite <- after_accepted_pure. by apply SkipWhile_yields.
  - rewrite <- scanned_pure. by apply Scan_yields.
  - by apply Fuse_yields.
  - apply Chain_yields; [done|apply from_list_yields].
  - apply Zip_yields; [done|apply from_list_yields].
Qed.

Lemma call_pipeline_yields {A B} (p : Pipeline A B) (s : BoxStream A) l :
  yields (box_state s) l → yields (box_state (call_pipeline p s)) (list_pipeline p l).
Proof.
  revert s l. induction p as [|A B C stage rest IH]; intros s l Hy; [done|].
  by apply IH, call_stage_yields.
Qed.

(** C27 Chains of methods, of any length, on any stream: [call_pipeline] calls
    [map], [inspect], [filter], [filter_map], [take], [take_while], [skip],
    [skip_while], [scan], [fuse], [chain] and [zip] one on the result of the
    other.  What comes out, collected into a [Vec], folded, or counted, is what
    the same functions on lists give, whatever the polls in between (a stream
    that is pending delays the result and does not change it). *)
Theorem pipelines_equivalent {A B} (p : Pipeline A B) (s : BoxStream A) (l : list A) :
  yields (box_state s) l →
  yields (box_state (call_pipeline p s)) (list_pipeline p l) ∧
  resolves_to (StreamExt.collect (list B) (box_state (call_pipeline p s))) (list_pipeline p l) ∧
  (∀ T (f : T * B → T) init,
     resolves_to (StreamExt.fold (box_state (call_pipeline p s)) init f)
       (fold_left (λ acc b, f (acc, b)) (list_pipeline p l) init)) ∧
  ((N.of_nat (length (list_pipeline p l)) < usize_modulus)%N →
   resolves_to (StreamExt.count (box_state (call_pipeline p s)))
     (N.of_nat (length (list_pipeline p l)))).
Proof.
  intros Hy%(call_pipeline_yields p). split_and!; [done|..].
  - eapply collects; [done|exact Hy|]. simpl. by rewrite push_vec.
  - intros T f init. apply yields_drains in Hy as [s' Hd].
    eexists. pose proof (FoldFuture_resolves _ _ f init _ Hd) as Hr.
    rewrite fold_calls_pure in Hr. exact Hr.
  - intros Hl. exact (CountFuture_resolves_from _ 0 _ Hl Hy).
Qed.

Lemma pipelines_equivalent_witness :
  resolves_to (StreamExt.collect (list nat) (box_state (call_pipeline
      (PThen (SFilter Nat.even) (PThen (SMap (λ n, n * n)) (PThen (SSkip 1) PEnd)))
      (mkBoxStream _ (from_iter [1; 2; 3; 4; 5; 6]))))) [16; 36].
Proof.
  apply (pipelines_equivalent
    (PThen (SFilter Nat.even) (PThen (SMap (λ n, n * n)) (PThen (SSkip 1) PEnd)))
    (mkBoxStream _ (from_iter [1; 2; 3; 4; 5; 6])) [1; 2; 3; 4; 5; 6]).
  apply from_list_yields.
Defined.
