(* ===== verification/Await.v ===== *)
(** Awaiting an operation that runs on a thread of the blocking pool: polls of the
    task and the end of the job, in any order. *)

From S2P Require Import Prelude Async.
Local Open Scope async_scope.

(** Rounds that use no fuel. *)
Lemma const_round_mono {T X} (body : T → Eff (T + X)) s :
  fuel_mono (λ n, loop_poll (λ _, body) n s).
Proof. apply loop_poll_mono. intros t n m x _ Hx. exact Hx. Qed.

Section Awaiting.
Context {S R : Type} (p : bool → nat → S → Eff (Poll R * S)) (fin : S → option (S * bool)).

(** A task polls, the thread finishes, in any order, until a poll is ready. *)
Inductive awaited : S → R → S → Prop :=
| awaited_ready fast n s r s' w : p fast n s = Done ((Ready r, s'), w) → awaited s r s'
| awaited_pending fast n s s1 r s' w :
    p fast n s = Done ((Pending, s1), w) → awaited s1 r s' → awaited s r s'
| awaited_finish s s1 b r s' : fin s = Some (s1, b) → awaited s1 r s' → awaited s r s'.

(** The states in between. *)
Inductive meanwhile : S → S → Prop :=
| meanwhile_refl s : meanwhile s s
| meanwhile_poll fast n s s1 s' w :
    p fast n s = Done ((Pending, s1), w) → meanwhile s1 s' → meanwhile s s'
| meanwhile_finish s s1 b s' : fin s = Some (s1, b) → meanwhile s1 s' → meanwhile s s'.

(** Awaiting ends with [r] and in [s'] however the polls and the thread
    interleave; every poll returns; and one that is pending has left the waker
    with a job at whose end the task is woken, to a poll that is ready. *)
Definition one_call (s : S) (r : R) (s' : S) : Prop :=
  (∀ r1 s1, awaited s r1 s1 → r1 = r ∧ s1 = s') ∧
  ∀ s1, meanwhile s s1 → ∀ fast,
    (∃ n x, p fast n s1 = Done x) ∧
    ∀ n s2 w, p fast n s1 = Done ((Pending, s2), w) →
      w ≠ [] ∧ ∃ s3, fin s2 = Some (s3, true) ∧
      ∀ fast, ∃ n w, p fast n s3 = Done ((Ready r, s'), w).

(** One operation after the other. *)
Inductive awaited_all : S → list R → S → Prop :=
| awaited_nil s : awaited_all s [] s
| awaited_cons s r s1 rs s' : awaited s r s1 → awaited_all s1 rs s' → awaited_all s (r :: rs) s'.

(** The three states of a call: not begun, running, finished. *)
Context (Hmono : ∀ fast s, fuel_mono (λ n, p fast n s)).
Context (s0 done s' : S) (running : bool → S) (r : R) (k : nat) (w0 w1 w2 w3 : list CxEvent).
Context (H0 : ∀ fast, p fast k s0 =
  Done (if fast then ((Ready r, s'), w0) else ((Pending, running true), CloneWaker :: w1))).
Context (Hrun : ∀ fast b, p fast k (running b) = Done ((Pending, running true), CloneWaker :: w2)).
Context (Hdone : ∀ fast, p fast k done = Done ((Ready r, s'), w3)).
Context (Hf0 : fin s0 = None) (Hfr : ∀ b, fin (running b) = Some (done, b)) (Hfd : fin done = None).

Lemma poll_at fast n s x y : p fast k s = Done x → p fast n s = Done y → y = x.
Proof.
  intros Hx Hy. pose proof (Hmono fast s k (k `max` n) x ltac:(lia) Hx) as H1.
  pose proof (Hmono fast s n (k `max` n) y ltac:(lia) Hy) as H2. cbv beta in *. congruence.
Qed.

Lemma three_states_awaited s r1 s1 :
  awaited s r1 s1 → s = s0 ∨ (∃ b, s = running b) ∨ s = done → r1 = r ∧ s1 = s'.
Proof.
  induction 1 as [fast n s r1 s1 w Hp|fast n s s2 r1 s1 w Hp _ IH|s s2 b r1 s1 Hp _ IH];
    intros [->|[[b' ->]| ->]].
  - pose proof (poll_at _ _ _ _ _ (H0 fast) Hp). destruct fast; simplify_eq; auto.
  - pose proof (poll_at _ _ _ _ _ (Hrun fast b') Hp). simplify_eq.
  - pose proof (poll_at _ _ _ _ _ (Hdone fast) Hp). simplify_eq; auto.
  - pose proof (poll_at _ _ _ _ _ (H0 fast) Hp). destruct fast; simplify_eq. apply IH; eauto.
  - pose proof (poll_at _ _ _ _ _ (Hrun fast b') Hp). simplify_eq. apply IH; eauto.
  - pose proof (poll_at _ _ _ _ _ (Hdone fast) Hp). simplify_eq.
  - congruence.
  - rewrite Hfr in Hp. simplify_eq. apply IH; eauto.
  - congruence.
Qed.

Lemma three_states_meanwhile s s1 :
  meanwhile s s1 → s = s0 ∨ (∃ b, s = running b) ∨ s = done →
  s1 = s0 ∨ (∃ b, s1 = running b) ∨ s1 = done.
Proof.
  induction 1 as [s|fast n s s2 s1 w Hp _ IH|s s2 b s1 Hp _ IH]; [done|..];
    intros [->|[[b' ->]| ->]]; apply IH.
  - pose proof (poll_at _ _ _ _ _ (H0 fast) Hp). destruct fast; simplify_eq; eauto.
  - pose proof (poll_at _ _ _ _ _ (Hrun fast b') Hp). simplify_eq; eauto.
  - pose proof (poll_at _ _ _ _ _ (Hdone fast) Hp). simplify_eq.
  - congruence.
  - rewrite Hfr in Hp. simplify_eq; eauto.
  - congruence.
Qed.

Lemma three_states_call : one_call s0 r s'.
Proof.
  split; [intros r1 s1 Ha; by apply (three_states_awaited _ _ _ Ha); left|].
  intros s1 Hm fast. apply three_states_meanwhile in Hm; [|by left].
  assert (Hready : ∃ s3, fin (running true) = Some (s3, true) ∧
    ∀ fast, ∃ n w, p fast n s3 = Done ((Ready r, s'), w)) by (exists done; eauto).
  destruct Hm as [->|[[b ->]| ->]].
  - split; [eauto|]. intros n s2 w Hp. pose proof (poll_at _ _ _ _ _ (H0 fast) Hp).
    destruct fast; simplify_eq; done.
  - split; [eauto|]. intros n s2 w Hp. pose proof (poll_at _ _ _ _ _ (Hrun fast b) Hp). by simplify_eq.
  - split; [eauto|]. intros n s2 w Hp. pose proof (poll_at _ _ _ _ _ (Hdone fast) Hp). by simplify_eq.
Qed.
End Awaiting.
