(* ===== verification/Stdio.v ===== *)
(** The standard streams (src/src/io/stdin.rs, stdout.rs, stderr.rs): handles
    whose operations run on a thread of the blocking pool, one at a time, and
    leave their result for the poll that comes back for it.

    The state is behind a [std::sync::Mutex], so that a poll is one step.  When
    the blocking thread finishes is up to the environment: the argument [fast] of
    a poll says whether a job it spawns is finished before the handle of the job
    is polled, and [finish] is the step of a thread that finishes later. *)

From stdpp Require Import strings.
From Stdlib Require Import Strings.Byte.
From S2P Require Import Prelude Async Io.
Local Open Scope async_scope.

(** * Jobs and states *)

(** [JoinHandle<State>] of a job whose closure owns [inner]; [waker] says
    whether the handle holds the waker of a task. *)
Inductive Task (J Inner : Type) : Type :=
| Running (job : J) (inner : Inner) (waker : bool)
| Finished (inner : Inner).
Arguments Running {J Inner}.
Arguments Finished {J Inner}.

Inductive State (J Inner : Type) : Type :=
| Idle (opt : option Inner)
| Busy (task : Task J Inner).
Arguments Idle {J Inner}.
Arguments Busy {J Inner}.

(** What the closure of a job does with what it owns. *)
Class Jobs (J Inner : Type) : Type := run_job : J → Inner → Inner.
#[global] Hint Mode Jobs ! ! : typeclass_instances.

Section Tasks.
Context `{Jobs J Inner}.

Definition spawn_blocking (fast : bool) (job : J) (inner : Inner) : Task J Inner :=
  if fast then Finished (run_job job inner) else Running job inner false.

(** [Pin::new(task).poll(cx)] *)
Definition task_poll (task : Task J Inner) : Eff (Poll (State J Inner) * Task J Inner) :=
  match task with
  | Running job inner _ => _ ← clone_waker; mret (Pending, Running job inner true)
  | Finished inner => mret (Ready (Idle (Some inner)), task)
  end.

(** [State::Busy(task) => *state = futures_core::ready!(..)] *)
Definition poll_busy {R : Type} (task : Task J Inner) :
    Eff (State J Inner + (Poll R * State J Inner)) :=
  '(r, task) ← task_poll task;
  match r with
  | Ready st => mret (inl st)
  | Pending => mret (inr (Pending, Busy task))
  end.

(** The thread of the pool comes to the end of the job; the second component says
    whether it wakes a task. *)
Definition finish (st : State J Inner) : option (State J Inner * bool) :=
  match st with
  | Busy (Running job inner waker) => Some (Busy (Finished (run_job job inner)), waker)
  | _ => None
  end.
End Tasks.

(** * stdout.rs, stderr.rs *)

Section Output.

(** [std::io::Stdout] and [std::io::Stderr]. *)
Class OsOutput (F : Type) : Type := {
  out_write : bytes → F → Result nat Error * F;
  out_flush : F → Result () Error * F
}.

Inductive OutOperation : Type :=
| Write (res : Result nat Error)
| Flush (res : Result () Error).

Inductive OutJob : Type := WriteJob | FlushJob.

Record OutInner (F : Type) : Type := mkOutInner {
  device : F;
  out_buf : bytes;
  out_last_op : option OutOperation
}.
#[global] Arguments mkOutInner {F}.
#[global] Arguments device {F}.
#[global] Arguments out_buf {F}.
#[global] Arguments out_last_op {F}.

Context {F : Type} `{OsOutput F}.

Definition run_out_job (job : OutJob) (inner : OutInner F) : OutInner F :=
  match job with
  | WriteJob => let '(res, f) := out_write (out_buf inner) (device inner) in
                mkOutInner f (out_buf inner) (Some (Write res))
  | FlushJob => let '(res, f) := out_flush (device inner) in
                mkOutInner f (out_buf inner) (Some (Flush res))
  end.
#[global] Instance Out_Jobs : Jobs OutJob (OutInner F) := run_out_job.

Abbreviation Out := (State OutJob (OutInner F)).

Definition stdout (f : F) : Out := Idle (Some (mkOutInner f [] None)).

Definition write_round (fast : bool) (buf : bytes) (fuel : nat) (st : Out) :
    Eff (Out + (Poll (Result nat Error) * Out)) :=
  match st with
  | Idle opt =>
      inner ← unwrap opt;
      let taken := mkOutInner (device inner) (out_buf inner) None in   (* last_op.take() *)
      match out_last_op inner with
      | Some (Write (Err e)) => mret (inr (Ready (Err e), Idle (Some taken)))
      | Some (Write (Ok n)) =>
          if n <=? length buf then mret (inr (Ready (Ok n), Idle (Some taken)))
          else mret (inl (Idle (Some taken)))
      | _ =>
          let inner := mkOutInner (device inner) buf None in
          mret (inl (Busy (spawn_blocking fast WriteJob inner)))
      end
  | Busy task => poll_busy task
  end.
Definition Stdout_poll_write (fast : bool) (fuel : nat) (buf : bytes) :
    Out → Eff (Poll (Result nat Error) * Out) := loop_poll (write_round fast buf) fuel.

Definition flush_round (fast : bool) (fuel : nat) (st : Out) :
    Eff (Out + (Poll (Result () Error) * Out)) :=
  match st with
  | Idle opt =>
      inner ← unwrap opt;
      let taken := mkOutInner (device inner) (out_buf inner) None in
      match out_last_op inner with
      | Some (Flush res) => mret (inr (Ready res, Idle (Some taken)))
      | _ => mret (inl (Busy (spawn_blocking fast FlushJob taken)))
      end
  | Busy task => poll_busy task
  end.
Definition Stdout_poll_flush (fast : bool) (fuel : nat) :
    Out → Eff (Poll (Result () Error) * Out) := loop_poll (flush_round fast) fuel.
Definition Stdout_poll_close (fast : bool) (fuel : nat) :
    Out → Eff (Poll (Result () Error) * Out) := Stdout_poll_flush fast fuel.

(** stderr.rs is stdout.rs with the names changed. *)
Definition stderr (f : F) : Out := stdout f.
Definition Stderr_poll_write (fast : bool) (fuel : nat) (buf : bytes) :
    Out → Eff (Poll (Result nat Error) * Out) := loop_poll (write_round fast buf) fuel.
Definition Stderr_poll_flush (fast : bool) (fuel : nat) :
    Out → Eff (Poll (Result () Error) * Out) := loop_poll (flush_round fast) fuel.
Definition Stderr_poll_close (fast : bool) (fuel : nat) :
    Out → Eff (Poll (Result () Error) * Out) := Stderr_poll_flush fast fuel.

(** [StdoutLock] and [StderrLock] call the device, on the thread of the task. *)
Definition StdoutLock_poll_write (buf : bytes) (f : F) : Eff (Poll (Result nat Error) * F) :=
  let '(res, f) := out_write buf f in mret (Ready res, f).
Definition StdoutLock_poll_flush (f : F) : Eff (Poll (Result () Error) * F) :=
  let '(res, f) := out_flush f in mret (Ready res, f).
Definition StdoutLock_poll_close (f : F) : Eff (Poll (Result () Error) * F) :=
  StdoutLock_poll_flush f.
End Output.
#[global] Hint Mode OsOutput ! : typeclass_instances.

(** * stdin.rs *)

Section Input.

(** [std::io::Stdin]: [read_line] appends to the string it is given; [read] gives
    the bytes it put at the front of a buffer. *)
Class OsInput (F : Type) : Type := {
  in_read_line : bytes → F → Result nat Error * bytes * F;
  in_read : nat → F → Result bytes Error * F
}.

Inductive InOperation : Type :=
| ReadLine (res : Result nat Error)
| Read (res : Result nat Error).

Inductive InJob : Type := ReadLineJob | ReadJob.

Record InInner (F : Type) : Type := mkInInner {
  input : F;
  line : bytes;
  in_buf : bytes;
  in_last_op : option InOperation
}.
#[global] Arguments mkInInner {F}.
#[global] Arguments input {F}.
#[global] Arguments line {F}.
#[global] Arguments in_buf {F}.
#[global] Arguments in_last_op {F}.

Context {F : Type} `{OsInput F}.

Definition run_in_job (job : InJob) (inner : InInner F) : InInner F :=
  match job with
  | ReadLineJob =>
      let '(res, l, f) := in_read_line [] (input inner) in             (* line.clear() *)
      mkInInner f l (in_buf inner) (Some (ReadLine res))
  | ReadJob =>
      let '(res, f) := in_read (length (in_buf inner)) (input inner) in
      match res with
      | Ok bs => mkInInner f (line inner) (bs ++ drop (length bs) (in_buf inner))
                   (Some (Read (Ok (length bs))))
      | Err e => mkInInner f (line inner) (in_buf inner) (Some (Read (Err e)))
      end
  end.
#[global] Instance In_Jobs : Jobs InJob (InInner F) := run_in_job.

Abbreviation In := (State InJob (InInner F)).

Definition stdin (f : F) : In := Idle (Some (mkInInner f [] [] None)).

(** The closure of [read_line]; [buf] is the string it borrows. *)
Definition read_line_round (fast : bool) (fuel : nat) (this : In * bytes) :
    Eff (In * bytes + (Poll (Result nat Error) * (In * bytes))) :=
  let '(st, buf) := this in
  match st with
  | Idle opt =>
      inner ← unwrap opt;
      let taken := mkInInner (input inner) (line inner) (in_buf inner) None in
      match in_last_op inner with
      | Some (ReadLine (Err e)) => mret (inr (Ready (Err e), (Idle (Some taken), buf)))
      | Some (ReadLine (Ok n)) =>
          mret (inr (Ready (Ok n), (Idle (Some taken), buf ++ line inner)))
      | _ => mret (inl (Busy (spawn_blocking fast ReadLineJob taken), buf))
      end
  | Busy task =>
      r ← poll_busy (R:=Result nat Error) task;
      match r with
      | inl st => mret (inl (st, buf))
      | inr (p, st) => mret (inr (p, (st, buf)))
      end
  end.
Definition read_line_poll (fast : bool) (fuel : nat) (this : In * bytes) :
    Eff (Poll (Result nat Error) * (In * bytes)) :=
  '(r, this) ← loop_poll (read_line_round fast) fuel this;
  match r with
  | Ready res => mret (Ready (io_context res "could not read line on stdin"), this)
  | Pending => mret (Pending, this)
  end.

(** The buffer is made [n] bytes long; bytes that were not there are
    unspecified. *)
Definition resize_buf (n : nat) (buf : bytes) : bytes := take n buf ++ replicate (n - length buf) x00.

Definition read_round (fast : bool) (len : nat) (fuel : nat) (st : In) :
    Eff (In + (Poll (Result bytes Error) * In)) :=
  match st with
  | Idle opt =>
      inner ← unwrap opt;
      let taken := mkInInner (input inner) (line inner) (in_buf inner) None in
      match in_last_op inner with
      | Some (Read (Err e)) => mret (inr (Ready (Err e), Idle (Some taken)))
      | Some (Read (Ok n)) =>
          if n <=? len then
            if n <=? length (in_buf inner) then
              mret (inr (Ready (Ok (take n (in_buf inner))), Idle (Some taken)))
            else eff_panic                                             (* inner.buf[..n] *)
          else mret (inl (Idle (Some taken)))
      | _ =>
          let inner := mkInInner (input inner) (line inner) (resize_buf len (in_buf inner)) None in
          mret (inl (Busy (spawn_blocking fast ReadJob inner)))
      end
  | Busy task => poll_busy task
  end.
Definition Stdin_poll_read (fast : bool) (fuel : nat) (len : nat) :
    In → Eff (Poll (Result bytes Error) * In) := loop_poll (read_round fast len) fuel.

Definition StdinLock_poll_read (len : nat) (f : F) : Eff (Poll (Result bytes Error) * F) :=
  let '(res, f) := in_read len f in mret (Ready res, f).
End Input.
#[global] Hint Mode OsInput ! : typeclass_instances.
