(* ===== verification/StdioSpec.v ===== *)
(** Awaiting an operation of a standard stream is one call of the operating
    system, and what comes of operations that are abandoned. *)

From stdpp Require Import strings.
From Stdlib Require Import Strings.Byte.
From S2P Require Import Prelude Async Await Io Stdio.
Local Open Scope async_scope.

(** * The contract of the operating system *)

Class OsOutputLaws (F : Type) `{OsOutput F} : Prop :=
  out_write_le buf (f f' : F) n : out_write buf f = (Ok n, f') → n ≤ length buf.
Class OsInputLaws (F : Type) `{OsInput F} : Prop :=
  in_read_le len (f f' : F) bs : in_read len f = (Ok bs, f') → length bs ≤ len.

(** A handle between two calls. *)
Definition quiet_out {F} (f : F) (buf : bytes) : State OutJob (OutInner F) :=
  Idle (Some (mkOutInner f buf None)).
Definition quiet_in {F} (f : F) (l buf : bytes) : State InJob (InInner F) :=
  Idle (Some (mkInInner f l buf None)).

Section Output.
Context {F : Type} `{OsOutputLaws F}.

Lemma write_one_call (buf b : bytes) (f : F) :
  let '(r, f') := out_write buf f in
  one_call (λ fast n, Stdout_poll_write fast n buf) finish (quiet_out f b) r (quiet_out f' buf).
Proof.
  destruct (out_write buf f) as [r f'] eqn:Hw.
  assert (Hle : match r with Ok n => (n <=? length buf) = true | Err _ => True end).
  { destruct r; [|done]. apply Nat.leb_le. by eapply out_write_le. }
  eapply (three_states_call _ _ (λ fast s, const_round_mono _ s) _ (Busy (Finished (mkOutInner f' buf (Some (Write r))))) _
    (λ w, Busy (Running WriteJob (mkOutInner f buf None) w)) r 4).
  - intros [|]; unfold Stdout_poll_write, loop_poll; simpl; [|reflexivity].
    unfold run_job, Out_Jobs, run_out_job. simpl. rewrite Hw. destruct r; simpl; [rewrite Hle|]; reflexivity.
  - reflexivity.
  - intros fast. unfold Stdout_poll_write, loop_poll. simpl. destruct r; simpl; [rewrite Hle|]; reflexivity.
  - reflexivity.
  - intros w. simpl. unfold run_job, Out_Jobs, run_out_job. simpl. by rewrite Hw.
  - reflexivity.
Qed.

Lemma flush_one_call (b : bytes) (f : F) :
  let '(r, f') := out_flush f in
  one_call (λ fast n, Stdout_poll_flush fast n) finish (quiet_out f b) r (quiet_out f' b).
Proof.
  destruct (out_flush f) as [r f'] eqn:Hw.
  eapply (three_states_call _ _ (λ fast s, const_round_mono _ s) _ (Busy (Finished (mkOutInner f' b (Some (Flush r))))) _
    (λ w, Busy (Running FlushJob (mkOutInner f b None) w)) r 4).
  - intros [|]; unfold Stdout_poll_flush, loop_poll; simpl; [|reflexivity].
    unfold run_job, Out_Jobs, run_out_job. simpl. rewrite Hw. reflexivity.
  - reflexivity.
  - reflexivity.
  - reflexivity.
  - intros w. simpl. unfold run_job, Out_Jobs, run_out_job. simpl. by rewrite Hw.
  - reflexivity.
Qed.
End Output.

Section Input.
Context {F : Type} `{OsInputLaws F}.

(** The handle together with the string that [read_line] borrows. *)
Definition finish_line (this : State InJob (InInner F) * bytes) :
    option (State InJob (InInner F) * bytes * bool) :=
  match finish (fst this) with Some (st, b) => Some ((st, snd this), b) | None => None end.

Lemma read_line_mono fast s : fuel_mono (λ n, read_line_poll (F:=F) fast n s).
Proof.
  unfold read_line_poll. apply fuel_mono_bind; [apply const_round_mono|].
  intros [r this]. apply fuel_mono_const.
Qed.

Lemma read_line_one_call (l b s : bytes) (f : F) :
  let '(r, l', f') := in_read_line [] f in
  one_call read_line_poll finish_line (quiet_in f l b, s)
    (io_context r "could not read line on stdin")
    (quiet_in f' l' b, match r with Ok _ => s ++ l' | Err _ => s end).
Proof.
  destruct (in_read_line [] f) as [[r l'] f'] eqn:Hr.
  eapply (three_states_call _ _ read_line_mono _
    (Busy (Finished (mkInInner f' l' b (Some (ReadLine r)))), s) _
    (λ w, (Busy (Running ReadLineJob (mkInInner f l b None) w), s)) _ 4).
  - intros [|]; unfold read_line_poll, loop_poll; simpl; [|reflexivity].
    unfold run_job, In_Jobs, run_in_job. simpl. rewrite Hr. destruct r; reflexivity.
  - reflexivity.
  - intros fast. unfold read_line_poll, loop_poll. simpl. destruct r; reflexivity.
  - reflexivity.
  - intros w. unfold finish_line. simpl. unfold run_job, In_Jobs, run_in_job. simpl. by rewrite Hr.
  - reflexivity.
Qed.

Lemma length_resize n b : length (resize_buf n b) = n.
Proof. unfold resize_buf. rewrite length_app, length_take, length_replicate. lia. Qed.

Lemma read_one_call (len : nat) (l b : bytes) (f : F) :
  let '(r, f') := in_read len f in
  ∃ b', one_call (λ fast n, Stdin_poll_read fast n len) finish (quiet_in f l b) r (quiet_in f' l b').
Proof.
  destruct (in_read len f) as [r f'] eqn:Hr.
  set (b' := match r with Ok bs => bs ++ drop (length bs) (resize_buf len b) | Err _ => resize_buf len b end).
  set (op := match r with Ok bs => Ok (length bs) | Err e => Err e end : Result nat Error).
  assert (Hrun : run_in_job ReadJob (mkInInner f l (resize_buf len b) None) =
    mkInInner f' l b' (Some (Read op))).
  { unfold run_in_job. simpl. rewrite length_resize, Hr. by destruct r. }
  assert (Hround : ∀ fast n,
      read_round fast len n (Idle (Some (mkInInner f' l b' (Some (Read op))))) =
      Done (inr (Ready r, quiet_in f' l b'), [])).
  { intros fast n. subst op b'. destruct r as [bs|e]; [|reflexivity]. simpl.
    pose proof (in_read_le _ _ _ _ Hr) as Hle.
    rewrite (proj2 (Nat.leb_le _ _) Hle), (proj2 (Nat.leb_le _ _)) by (rewrite length_app; lia).
    by rewrite take_app_length. }
  exists b'. eapply (three_states_call _ _ (λ fast s, const_round_mono _ s) _
    (Busy (Finished (mkInInner f' l b' (Some (Read op))))) _
    (λ w, Busy (Running ReadJob (mkInInner f l (resize_buf len b) None) w)) _ 5).
  - intros [|]; [|reflexivity]. unfold Stdin_poll_read, loop_poll. cbv iota.
    pose proof (Hround true 5) as Hx. rewrite <- Hrun in Hx.
    do 2 (eapply rust_loop_continue; [reflexivity|]). eapply rust_loop_break. exact Hx.
  - reflexivity.
  - intros fast. unfold Stdin_poll_read, loop_poll. eapply rust_loop_continue; [reflexivity|].
    eapply rust_loop_break, (Hround fast 5).
  - reflexivity.
  - intros w. simpl. unfold run_job, In_Jobs. by rewrite Hrun.
  - reflexivity.
Qed.
End Input.

(** * The theorems *)

(** C19 Awaiting an operation of a standard stream, from a handle on which no
    operation is under way, is one call of the blocking device: [read] and
    [read_line] answer what the one call of [std::io::Stdin] answered, the line
    being appended to the string when it is [Ok]; [write] and [flush] (and
    [close]) of [Stdout], and of [Stderr], which has the same code, answer what
    the one call of the device answered for exactly the buffer given; and the
    handle can be used again.  Polls never panic or loop; one that is pending has
    left the waker with the job, and the task is woken at its end, to a poll that
    is ready. *)
Theorem stdio_one_call {I O : Type} `{OsInputLaws I} `{OsOutputLaws O} :
  (∀ len l b (f : I), let '(r, f') := in_read len f in
     ∃ b', one_call (λ fast n, Stdin_poll_read fast n len) finish (quiet_in f l b) r
       (quiet_in f' l b')) ∧
  (∀ l b s (f : I), let '(r, l', f') := in_read_line [] f in
     one_call read_line_poll finish_line (quiet_in f l b, s)
       (io_context r "could not read line on stdin")
       (quiet_in f' l' b, match r with Ok _ => s ++ l' | Err _ => s end)) ∧
  (∀ buf b (f : O), let '(r, f') := out_write buf f in
     one_call (λ fast n, Stdout_poll_write fast n buf) finish (quiet_out f b) r (quiet_out f' buf) ∧
     one_call (λ fast n, Stderr_poll_write fast n buf) finish (quiet_out f b) r (quiet_out f' buf)) ∧
  (∀ b (f : O), let '(r, f') := out_flush f in
     one_call (λ fast n, Stdout_poll_close fast n) finish (quiet_out f b) r (quiet_out f' b) ∧
     one_call (λ fast n, Stderr_poll_close fast n) finish (quiet_out f b) r (quiet_out f' b)) ∧
  (∀ f : I, stdin f = quiet_in f [] []) ∧ (∀ f : O, stdout f = quiet_out f [] ∧ stderr f = quiet_out f []).
Proof.
  split_and!; try done.
  - intros len l b f. exact (read_one_call len l b f).
  - intros l b s f. exact (read_line_one_call l b s f).
  - intros buf b f. pose proof (write_one_call buf b f) as Hc.
    destruct (out_write buf f) as [r f']. by split.
  - intros b f. pose proof (flush_one_call b f) as Hc. destruct (out_flush f) as [r f']. by split.
Qed.

(** Operations that are abandoned: a poll takes the result that is waiting for
    it, whoever asked.  A [write] that was polled and dropped is carried out, and
    the next [write] of at least as many bytes as it wrote answers with its count
    without writing any of its own bytes; a [read] that was dropped after its
    thread had read more bytes than the next [read] has room for, or before a
    [read_line], has taken those bytes from the input and nobody is given them. *)
Theorem stdio_abandoned {I O : Type} `{OsInputLaws I} `{OsOutputLaws O} :
  (∀ (a b c : bytes) (f f' : O) n, out_write a f = (Ok n, f') → n ≤ length b →
     ∃ s1 s2 w w', Stdout_poll_write false 5 a (quiet_out f c) = Done ((Pending, s1), w) ∧
       finish s1 = Some (s2, true) ∧
       ∀ fast, Stdout_poll_write fast 5 b s2 = Done ((Ready (Ok n), quiet_out f' a), w')) ∧
  (∀ len len' l c (f f' : I) bs, in_read len f = (Ok bs, f') → len' < length bs →
     ∃ s1 s2 c' w w', Stdin_poll_read false 5 len (quiet_in f l c) = Done ((Pending, s1), w) ∧
       finish s1 = Some (s2, true) ∧
       Stdin_poll_read false 5 len' s2 =
         Done ((Pending, Busy (Running ReadJob (mkInInner f' l c' None) true)), w')) ∧
  (∀ len l c (s : bytes) (f f' : I) bs, in_read len f = (Ok bs, f') →
     ∃ s1 s2 c' w w', Stdin_poll_read false 5 len (quiet_in f l c) = Done ((Pending, s1), w) ∧
       finish s1 = Some (s2, true) ∧
       read_line_poll false 5 (s2, s) =
         Done ((Pending, (Busy (Running ReadLineJob (mkInInner f' l c' None) true), s)), w')).
Proof.
  split_and!.
  - intros a b c f f' n Hw Hn. do 4 eexists. split; [reflexivity|]. split; [reflexivity|].
    intros fast. unfold Stdout_poll_write, loop_poll. eapply rust_loop_continue; [reflexivity|].
    eapply rust_loop_break. unfold run_job, Out_Jobs, run_out_job. simpl. rewrite Hw. simpl.
    by rewrite (proj2 (Nat.leb_le _ _) Hn).
  - intros len len' l c f f' bs Hr Hlt. do 5 eexists. split; [reflexivity|]. split; [reflexivity|].
    unfold Stdin_poll_read, loop_poll. eapply rust_loop_continue; [reflexivity|].
    unfold run_job, In_Jobs, run_in_job. simpl. rewrite length_resize, Hr. simpl.
    rewrite (proj2 (Nat.leb_gt _ _) Hlt). reflexivity.
  - intros len l c s f f' bs Hr. do 5 eexists. split; [reflexivity|]. split; [reflexivity|].
    unfold read_line_poll, loop_poll. unfold run_job, In_Jobs, run_in_job. simpl.
    unfold run_job, In_Jobs, run_in_job. simpl. rewrite length_resize, Hr. reflexivity.
Qed.

(** * Witnesses: input from a list of bytes, output to a log that takes at most
    three bytes in a call *)

Record Keyboard : Type := mkKeyboard { typed : bytes }.
Record Screen : Type := mkScreen { shown : bytes }.

Fixpoint split_line (l : bytes) : bytes * bytes :=
  match l with
  | [] => ([], [])
  | c :: l => if bool_decide (c = x0a) then ([c], l) else let '(a, b) := split_line l in (c :: a, b)
  end.

#[local] Instance Keyboard_input : OsInput Keyboard := {|
  in_read_line s f := let '(a, b) := split_line (typed f) in (Ok (length a), s ++ a, mkKeyboard b);
  in_read n f := (Ok (take n (typed f)), mkKeyboard (drop n (typed f)))
|}.
#[local] Instance Keyboard_laws : OsInputLaws Keyboard.
Proof. intros len f f' bs Hr. simpl in Hr. simplify_eq. rewrite length_take. lia. Qed.

#[local] Instance Screen_output : OsOutput Screen := {|
  out_write buf f := (Ok (length (take 3 buf)), mkScreen (shown f ++ take 3 buf));
  out_flush f := (Ok (), f)
|}.
#[local] Instance Screen_laws : OsOutputLaws Screen.
Proof. intros buf f f' n Hw. simpl in Hw. simplify_eq. rewrite length_take. lia. Qed.

Lemma stdio_one_call_witness :
  one_call read_line_poll finish_line (quiet_in (mkKeyboard [x61; x0a; x62]) [] [], [x7a])
    (Ok 2) (quiet_in (mkKeyboard [x62]) [x61; x0a] [], [x7a; x61; x0a]) ∧
  one_call (λ fast n, Stdout_poll_write fast n [x61; x62; x63; x64]) finish
    (quiet_out (mkScreen []) []) (Ok 3) (quiet_out (mkScreen [x61; x62; x63]) [x61; x62; x63; x64]).
Proof.
  destruct (stdio_one_call (I:=Keyboard) (O:=Screen)) as (_ & Hl & Hw & _). split.
  - exact (Hl [] [] [x7a] (mkKeyboard [x61; x0a; x62])).
  - exact (proj1 (Hw [x61; x62; x63; x64] [] (mkScreen []))).
Defined.

Lemma stdio_abandoned_witness :
  ∃ s1 s2 w w', Stdout_poll_write false 5 [x61; x62] (quiet_out (mkScreen []) []) = Done ((Pending, s1), w) ∧
    finish s1 = Some (s2, true) ∧
    Stdout_poll_write true 5 [x78; x79; x7a] s2 =
      Done ((Ready (Ok 2), quiet_out (mkScreen [x61; x62]) [x61; x62]), w').
Proof.
  destruct (stdio_abandoned (I:=Keyboard) (O:=Screen)) as (Hw & _).
  destruct (Hw [x61; x62] [x78; x79; x7a] [] (mkScreen []) (mkScreen [x61; x62]) 2 eq_refl ltac:(simpl; lia))
    as (s1 & s2 & w & w' & H1 & H2 & H3).
  exists s1, s2, w, w'. split; [exact H1|]. split; [exact H2|]. exact (H3 true).
Defined.
