(* ===== verification/Barrier.v ===== *)
(** The barrier (src/src/sync/barrier.rs): its operation [wait] cut where it can
    be suspended, and the interleaving of any number of tasks that wait.

    A task holds the guard of [state] from the end of [lock().await] to where it
    is dropped; the only [await] in between is the [send] of the broadcast
    channel, which is unbounded and does not wait.  The part of [wait] under the
    lock is therefore one step ([enter]); how tasks queue for the lock is the
    mutex of Mutex.v. *)

From stdpp Require Import gmap fin_maps.
From S2P Require Import Prelude.
Local Open Scope async_scope.

(** * [broadcaster::BroadcastChannel] *)

(** The channel with all of its handles, which are numbered: [clone] makes a
    handle, [send] gives a message to every handle, and [recv] takes the next one
    of a handle, [None] when no sender is left. *)
Class Broadcast (C M : Type) : Type := {
  bc_new : nat * C;
  bc_clone : nat → C → nat * C;
  bc_send : nat → M → C → Result () () * C;
  bc_recv : nat → C → Poll (option M) * C;
  bc_drop : nat → C → C
}.
#[global] Hint Mode Broadcast ! - : typeclass_instances.

(** Its documented behaviour, on the messages that wait at each handle. *)
Class BroadcastLaws (C M : Type) `{Broadcast C M} : Type := {
  bc_view : C → gmap nat (list M);
  bc_new_spec : let '(h, c) := bc_new in bc_view c = {[h := []]};
  bc_clone_spec h c : is_Some (bc_view c !! h) →
    let '(h', c') := bc_clone h c in
    bc_view c !! h' = None ∧ bc_view c' = <[h' := []]> (bc_view c);
  bc_send_spec h m c : is_Some (bc_view c !! h) →
    ∃ c', bc_send h m c = (Ok (), c') ∧ bc_view c' = (λ q, q ++ [m]) <$> bc_view c;
  bc_recv_spec h c : match bc_view c !! h with
    | Some [] => ∃ c', bc_recv h c = (Pending, c') ∧ bc_view c' = bc_view c
    | Some (m :: q) => ∃ c', bc_recv h c = (Ready (Some m), c') ∧ bc_view c' = <[h := q]> (bc_view c)
    | None => True
    end;
  bc_drop_spec h c : bc_view (bc_drop h c) = delete h (bc_view c)
}.

(** * The barrier *)

Record BarrierState : Type := mkBarrierState { waker : nat; count : N; generation_id : N }.

(** [channel] is what the handles [waker] and [wait] share. *)
Record Barrier (C : Type) : Type := mkBarrier {
  state : BarrierState;
  wait_handle : nat;
  n : N;
  channel : C
}.
Arguments mkBarrier {C}.
Arguments state {C}.
Arguments wait_handle {C}.
Arguments n {C}.
Arguments channel {C}.

Inductive BarrierWaitResult : Type := mkBarrierWaitResult (leader : bool).
Definition is_leader (r : BarrierWaitResult) : bool :=
  let 'mkBarrierWaitResult leader := r in leader.

(** The variables of a [wait] that is suspended at [wait.recv().await]. *)
Record Waiting : Type := mkWaiting {
  local_gen : N;
  wait : nat;
  cur_generation_id : N;
  cur_count : N
}.

Section Operations.
Context {C : Type} `{Broadcast C (N * N)}.
Implicit Types (b : Barrier C).

Definition Barrier_new (n : N) : Barrier C :=
  let '(waker, c) := bc_new in
  let '(wait, c) := bc_clone waker c in
  let n := if (n =? 0)%N then 1%N else n in
  mkBarrier (mkBarrierState waker 0 1) wait n c.

Definition set_state (st : BarrierState) b : Barrier C :=
  mkBarrier st (wait_handle b) (n b) (channel b).
Definition set_channel (c : C) b : Barrier C := mkBarrier (state b) (wait_handle b) (n b) c.

(** [wait] from the lock to the first [recv], or to its end. *)
Definition enter b : Outcome ((Waiting + BarrierWaitResult) * Barrier C) :=
  let st := state b in
  let local_gen := generation_id st in
  match usize_add (Ev:=()) (count st) 1 with
  | Done (count, _) =>
      if (count <? n b)%N then
        let '(wait, c) := bc_clone (wait_handle b) (channel b) in
        Done (inl (mkWaiting local_gen wait local_gen count),
              set_channel c (set_state (mkBarrierState (waker st) count local_gen) b))
      else
        let st := mkBarrierState (waker st) 0 (wrapping_add local_gen 1) in
        let '(r, c) := bc_send (waker st) (generation_id st, Barrier.count st) (channel b) in
        match r with
        | Ok _ => Done (inr (mkBarrierWaitResult true), set_channel c (set_state st b))
        | Err _ => Panic                                               (* expect *)
        end
  | Panic => Panic
  | OutOfFuel => OutOfFuel
  end.

(** The loop of a suspended [wait], once round. *)
Definition wait_round (w : Waiting) b :
    Outcome ((Waiting + (Poll BarrierWaitResult * Waiting)) * Barrier C) :=
  if (local_gen w =? cur_generation_id w)%N && (cur_count w <? n b)%N then
    let '(r, c) := bc_recv (wait w) (channel b) in
    match r with
    | Pending => Done (inr (Pending, w), set_channel c b)
    | Ready (Some (g, k)) => Done (inl (mkWaiting (local_gen w) (wait w) g k), set_channel c b)
    | Ready None => Panic                                              (* expect *)
    end
  else Done (inr (Ready (mkBarrierWaitResult false), w), b).

(** A poll of it: the loop, and at its end the handle is dropped. *)
Fixpoint wait_poll (fuel : nat) (w : Waiting) b :
    Outcome ((Waiting + BarrierWaitResult) * Barrier C) :=
  match fuel with
  | O => OutOfFuel
  | S fuel =>
      match wait_round w b with
      | Done (inl w, b) => wait_poll fuel w b
      | Done (inr (Pending, w), b) => Done (inl w, b)
      | Done (inr (Ready r, w), b) => Done (inr r, set_channel (bc_drop (wait w) (channel b)) b)
      | Panic => Panic
      | OutOfFuel => OutOfFuel
      end
  end.

(** The future is dropped: the handle is, and nothing else. *)
Definition wait_drop (w : Waiting) b : Barrier C := set_channel (bc_drop (wait w) (channel b)) b.

(** * Interleavings *)

(** What has become of the calls of [wait]; [round] is which rendezvous a call
    belongs to, and is there for the theorems only. *)
Inductive Pc : Type :=
| Suspended (w : Waiting)
| Returned (r : BarrierWaitResult).

Record System : Type := mkSystem { barrier : Barrier C; calls : gmap nat (nat * Pc); rounds : nat }.

Definition init (n : N) : System := mkSystem (Barrier_new n) ∅ 0.

Inductive step : System → System → Prop :=
| step_enter b ps k o w b' :
    ps !! o = None → enter b = Done (inl w, b') →
    step (mkSystem b ps k) (mkSystem b' (<[o := (k, Suspended w)]> ps) k)
| step_lead b ps k o r b' :
    ps !! o = None → enter b = Done (inr r, b') →
    step (mkSystem b ps k) (mkSystem b' (<[o := (k, Returned r)]> ps) (S k))
| step_pending b ps k o j w fuel w' b' :
    ps !! o = Some (j, Suspended w) → wait_poll fuel w b = Done (inl w', b') →
    step (mkSystem b ps k) (mkSystem b' (<[o := (j, Suspended w')]> ps) k)
| step_return b ps k o j w fuel r b' :
    ps !! o = Some (j, Suspended w) → wait_poll fuel w b = Done (inr r, b') →
    step (mkSystem b ps k) (mkSystem b' (<[o := (j, Returned r)]> ps) k).

Definition reachable (n : N) (s : System) : Prop := rtc step (init n) s.
End Operations.
