(* ===== verification/BarrierSpec.v ===== *)
(** What the barrier of src/src/sync/barrier.rs promises: calls of [wait] meet in
    groups of [n], and each group has one leader. *)

From stdpp Require Import gmap fin_maps.
From S2P Require Import Prelude WakerClients Barrier.

Section Rendezvous.
Context {C : Type} `{BroadcastLaws C (N * N)}.
Implicit Types (b : Barrier C) (s : System (C:=C)) (ps : gmap nat (nat * Pc)).

(** The generation in which the rendezvous number [k] takes place. *)
Definition gen_of (k : nat) : N := ((1 + N.of_nat k) mod usize_modulus)%N.

Definition in_round (r : nat) (x : nat * Pc) : bool := fst x =? r.
Definition leads (r : nat) (x : nat * Pc) : bool :=
  (fst x =? r) && match snd x with Returned res => is_leader res | Suspended _ => false end.

Lemma gen_of_next k : wrapping_add (gen_of k) 1 = gen_of (S k).
Proof.
  unfold wrapping_add, gen_of. rewrite N.Div0.add_mod_idemp_l by done. f_equal. lia.
Qed.

Lemma gen_of_ne k : gen_of (S k) ≠ gen_of k.
Proof.
  rewrite <- gen_of_next. unfold wrapping_add.
  assert (gen_of k < usize_modulus)%N as Hlt by (apply N.mod_lt; done).
  destruct (N.eq_dec (gen_of k) (usize_modulus - 1)%N) as [->|Hne].
  - vm_compute. discriminate.
  - rewrite N.mod_small by lia. lia.
Qed.

(** ** The steps *)

(** A handle that is waiting: the messages that its channel has for it. *)
Definition queue b (w : Waiting) : option (list (N * N)) := bc_view (channel b) !! wait w.
Definition waits (b : Barrier C) (w : Waiting) : Prop :=
  cur_generation_id w = local_gen w ∧ (cur_count w < n b)%N.

Lemma waits_cond b w : waits b w →
  ((local_gen w =? cur_generation_id w) && (cur_count w <? n b))%N = true.
Proof. intros [-> Hc]. by rewrite N.eqb_refl, (proj2 (N.ltb_lt _ _) Hc). Qed.

Lemma wait_poll_empty fuel b w :
  waits b w → queue b w = Some [] →
  ∃ c, bc_view c = bc_view (channel b) ∧ wait_poll (S fuel) w b = Done (inl w, set_channel c b).
Proof.
  intros Hw Hq. pose proof (bc_recv_spec (wait w) (channel b)) as Hr.
  unfold queue in Hq. rewrite Hq in Hr. destruct Hr as (c & Hr & Hv). exists c. split; [done|].
  simpl. unfold wait_round. by rewrite (waits_cond b w Hw), Hr.
Qed.

Lemma wait_poll_released fuel b w g q :
  waits b w → queue b w = Some ((g, 0%N) :: q) → g ≠ local_gen w →
  ∃ c, bc_view c = delete (wait w) (bc_view (channel b)) ∧
    wait_poll (S (S fuel)) w b = Done (inr (mkBarrierWaitResult false), set_channel c b).
Proof.
  intros Hw Hq Hg. pose proof (bc_recv_spec (wait w) (channel b)) as Hr.
  unfold queue in Hq. rewrite Hq in Hr. destruct Hr as (c & Hr & Hv).
  exists (bc_drop (wait w) c). split.
  - rewrite bc_drop_spec, Hv. by rewrite delete_insert_eq.
  - simpl. unfold wait_round at 1. rewrite (waits_cond b w Hw), Hr. unfold wait_round. simpl.
    assert ((local_gen w =? g)%N = false) as -> by (apply N.eqb_neq; congruence). reflexivity.
Qed.

Lemma wait_poll_one b w m q :
  waits b w → queue b w = Some (m :: q) → wait_poll 1 w b = OutOfFuel.
Proof.
  intros Hw Hq. pose proof (bc_recv_spec (wait w) (channel b)) as Hr.
  unfold queue in Hq. rewrite Hq in Hr. destruct Hr as (c & Hr & _).
  simpl. unfold wait_round. rewrite (waits_cond b w Hw), Hr. by destruct m.
Qed.

Lemma enter_waits b :
  (count (state b) + 1 < n b)%N → (n b < usize_modulus)%N →
  is_Some (bc_view (channel b) !! wait_handle b) →
  ∃ h c, bc_view (channel b) !! h = None ∧ bc_view c = <[h := []]> (bc_view (channel b)) ∧
    let g := generation_id (state b) in let k := (count (state b) + 1)%N in
    enter b = Done (inl (mkWaiting g h g k),
      mkBarrier (mkBarrierState (waker (state b)) k g) (wait_handle b) (n b) c).
Proof.
  intros Hc Hn Hh. pose proof (bc_clone_spec (wait_handle b) (channel b) Hh) as Hs.
  destruct (bc_clone (wait_handle b) (channel b)) as [h c] eqn:Hcl. destruct Hs as [Hf Hv].
  exists h, c. split; [done|]. split; [done|]. unfold enter.
  rewrite usize_add_ok by lia. rewrite (proj2 (N.ltb_lt _ _) Hc), Hcl. reflexivity.
Qed.

Lemma enter_leads b :
  (count (state b) + 1 = n b)%N → (n b < usize_modulus)%N →
  is_Some (bc_view (channel b) !! waker (state b)) →
  ∃ c, let g := wrapping_add (generation_id (state b)) 1 in
    bc_view c = (λ q, q ++ [(g, 0%N)]) <$> bc_view (channel b) ∧
    enter b = Done (inr (mkBarrierWaitResult true),
      mkBarrier (mkBarrierState (waker (state b)) 0 g) (wait_handle b) (n b) c).
Proof.
  intros Hc Hn Hh.
  destruct (bc_send_spec (waker (state b)) (wrapping_add (generation_id (state b)) 1, 0%N)
    (channel b) Hh) as (c & Hs & Hv).
  exists c. split; [done|]. unfold enter. rewrite usize_add_ok by lia.
  rewrite (proj2 (N.ltb_ge _ _)) by lia. simpl. rewrite Hs. reflexivity.
Qed.

(** ** The invariant *)

Record Inv (n0 : N) s : Prop := mkInv {
  inv_n : n (barrier s) = N.max 1 n0;
  inv_count : (count (state (barrier s)) < n (barrier s))%N;
  inv_gen : generation_id (state (barrier s)) = gen_of (rounds s);
  inv_waker : is_Some (bc_view (channel (barrier s)) !! waker (state (barrier s)));
  inv_handle : is_Some (bc_view (channel (barrier s)) !! wait_handle (barrier s));
  inv_waiting o j w : calls s !! o = Some (j, Suspended w) →
    j ≤ rounds s ∧ local_gen w = gen_of j ∧ waits (barrier s) w ∧
    wait w ≠ waker (state (barrier s)) ∧ wait w ≠ wait_handle (barrier s) ∧
    ∃ q, queue (barrier s) w = Some q ∧
      if decide (j = rounds s) then q = [] else ∃ q', q = (gen_of (S j), 0%N) :: q';
  inv_distinct o1 o2 j1 j2 w1 w2 :
    calls s !! o1 = Some (j1, Suspended w1) → calls s !! o2 = Some (j2, Suspended w2) →
    wait w1 = wait w2 → o1 = o2;
  inv_returned o j r : calls s !! o = Some (j, Returned r) → j < rounds s;
  inv_full r : r < rounds s →
    N.of_nat (WakerClients.count (in_round r) (calls s)) = N.max 1 n0 ∧
    WakerClients.count (leads r) (calls s) = 1;
  inv_current :
    N.of_nat (WakerClients.count (in_round (rounds s)) (calls s)) = count (state (barrier s))
}.

Lemma Inv_init n0 : Inv n0 (init n0).
Proof.
  unfold init, Barrier_new. pose proof bc_new_spec as Hn.
  destruct bc_new as [h c]. pose proof (bc_clone_spec h c) as Hc. rewrite Hn in Hc.
  destruct (bc_clone h c) as [h' c']. destruct Hc as [Hf Hv]; [by rewrite lookup_singleton_eq|].
  assert (h ≠ h') as Hne by (intros ->; by rewrite lookup_singleton_eq in Hf).
  assert (n0' : (if (n0 =? 0)%N then 1 else n0)%N = N.max 1 n0) by (destruct (N.eqb_spec n0 0); lia).
  split; simpl; rewrite ?n0', ?Hv; try done; try lia.
  - rewrite lookup_insert_ne by done. by rewrite lookup_singleton_eq.
  - by rewrite lookup_insert_eq.
Qed.
(** ** It is preserved *)

Lemma count_fresh (P : nat * Pc → bool) ps o x :
  ps !! o = None → WakerClients.count P (<[o:=x]> ps) = WakerClients.count P ps + Nat.b2n (P x).
Proof. intros Ho. pose proof (count_set P ps o (Some x)) as Hc. rewrite Ho in Hc. simpl in Hc. lia. Qed.

Lemma count_change (P : nat * Pc → bool) ps o x y :
  ps !! o = Some y → P y = P x → WakerClients.count P (<[o:=x]> ps) = WakerClients.count P ps.
Proof.
  intros Ho Hp. pose proof (count_set P ps o (Some x)) as Hc. rewrite Ho in Hc.
  simpl in Hc. rewrite Hp in Hc. lia.
Qed.

(** The rounds that have not begun are empty. *)
Lemma Inv_next n0 s :
  Inv n0 s → WakerClients.count (in_round (S (rounds s))) (calls s) = 0 ∧
    WakerClients.count (leads (rounds s)) (calls s) = 0.
Proof.
  intros HI. split.
  - destruct (WakerClients.count _ _) eqn:Hc; [done|exfalso].
    destruct (count_ex (in_round (S (rounds s))) (calls s)) as (o & [j [w|r]] & Ho & Hj); [lia| |];
      apply Nat.eqb_eq in Hj; simpl in Hj.
    + apply (inv_waiting _ _ HI) in Ho as [Hle _]. lia.
    + apply (inv_returned _ _ HI) in Ho. lia.
  - destruct (WakerClients.count _ _) eqn:Hc; [done|exfalso].
    destruct (count_ex (leads (rounds s)) (calls s)) as (o & [j [w|r]] & Ho & Hj); [lia| |];
      apply andb_true_iff in Hj as [Hj Hl]; apply Nat.eqb_eq in Hj; simpl in Hj, Hl; [done|].
    apply (inv_returned _ _ HI) in Ho. lia.
Qed.

Lemma Inv_enter n0 b ps k o w b' :
  (N.max 1 n0 < usize_modulus)%N →
  Inv n0 (mkSystem b ps k) → ps !! o = None → enter b = Done (inl w, b') →
  Inv n0 (mkSystem b' (<[o := (k, Suspended w)]> ps) k).
Proof.
  intros Hn HI Ho He. pose proof (inv_count _ _ HI) as Hc. pose proof (inv_n _ _ HI) as Hnn.
  simpl in Hc, Hnn.
  destruct (decide (count (state b) + 1 < n b)%N) as [Hlt|Hge].
  2: { destruct (enter_leads b) as (c & _ & He'); [lia|lia|apply (inv_waker _ _ HI)|congruence]. }
  destruct (enter_waits b Hlt) as (h & c & Hf & Hv & He'); [lia|apply (inv_handle _ _ HI)|].
  rewrite He in He'. simplify_eq/=.
  pose proof (inv_waker _ _ HI) as [mw Hmw]. pose proof (inv_handle _ _ HI) as [mh Hmh].
  simpl in Hmw, Hmh.
  assert (h ≠ waker (state b)) as Hw1 by congruence.
  assert (h ≠ wait_handle b) as Hw2 by congruence.
  split; simpl; rewrite ?Hv.
  - done.
  - done.
  - apply (inv_gen _ _ HI).
  - rewrite lookup_insert_ne by done. by eexists.
  - rewrite lookup_insert_ne by done. by eexists.
  - intros o' j w [[<- [= <- <-]]|[Hne Ho']]%lookup_insert_Some.
    + split; [done|]. simpl. split; [apply (inv_gen _ _ HI)|]. split; [by split|].
      split; [done|]. split; [done|]. exists []. unfold queue. simpl.
      rewrite Hv, lookup_insert_eq. by rewrite decide_True.
    + destruct (inv_waiting _ _ HI _ _ _ Ho') as (Hj & Hg & Hw & H1 & H2 & q & Hq & Hqj).
      split; [done|]. split; [done|]. split; [exact Hw|]. split; [done|]. split; [done|].
      exists q. split; [|done]. unfold queue in *. simpl in *. rewrite Hv.
      rewrite lookup_insert_ne; [done|]. congruence.
  - intros o1 o2 j1 j2 w1 w2.
    intros [[<- [= <- <-]]|[Hne1 Ho1]]%lookup_insert_Some [[<- [= <- <-]]|[Hne2 Ho2]]%lookup_insert_Some Heq;
      [done|..|by eapply (inv_distinct _ _ HI)]; simpl in Heq.
    + destruct (inv_waiting _ _ HI _ _ _ Ho2) as (_ & _ & _ & _ & _ & q & Hq & _).
      unfold queue in Hq. simpl in Hq. congruence.
    + destruct (inv_waiting _ _ HI _ _ _ Ho1) as (_ & _ & _ & _ & _ & q & Hq & _).
      unfold queue in Hq. simpl in Hq. congruence.
  - intros o' j r [[<- [=]]|[Hne Ho']]%lookup_insert_Some.
    by apply (inv_returned _ _ HI) in Ho'.
  - intros r Hr. rewrite !count_fresh by done. unfold in_round at 2, leads at 2. simpl.
    rewrite (proj2 (Nat.eqb_neq k r)), !Nat.add_0_r by lia. by apply (inv_full _ _ HI r).
  - rewrite count_fresh by done. unfold in_round at 2. simpl. rewrite Nat.eqb_refl.
    pose proof (inv_current _ _ HI) as Hcur. simpl in Hcur |- *. lia.
Qed.

Lemma Inv_lead n0 b ps k o r b' :
  (N.max 1 n0 < usize_modulus)%N →
  Inv n0 (mkSystem b ps k) → ps !! o = None → enter b = Done (inr r, b') →
  Inv n0 (mkSystem b' (<[o := (k, Returned r)]> ps) (S k)).
Proof.
  intros Hn HI Ho He. pose proof (inv_count _ _ HI) as Hc. pose proof (inv_n _ _ HI) as Hnn.
  simpl in Hc, Hnn.
  destruct (decide (count (state b) + 1 < n b)%N) as [Hlt|Hge].
  { destruct (enter_waits b Hlt) as (h & c & _ & _ & He'); [lia|apply (inv_handle _ _ HI)|congruence]. }
  destruct (enter_leads b) as (c & Hv & He'); [lia|lia|apply (inv_waker _ _ HI)|].
  rewrite He in He'. simplify_eq/=. destruct (Inv_next _ _ HI) as [Hnext Hlead]. simpl in Hnext, Hlead.
  pose proof (inv_gen _ _ HI) as Hg. simpl in Hg. rewrite Hg, gen_of_next in Hv |- *.
  split; simpl; rewrite ?Hv; try done.
  - lia.
  - rewrite lookup_fmap. apply fmap_is_Some, (inv_waker _ _ HI).
  - rewrite lookup_fmap. apply fmap_is_Some, (inv_handle _ _ HI).
  - intros o' j w [[<- [=]]|[Hne Ho']]%lookup_insert_Some.
    destruct (inv_waiting _ _ HI _ _ _ Ho') as (Hj & Hgw & Hw & H1 & H2 & q & Hq & Hqj). simpl in Hj, Hqj.
    split; [lia|]. split; [done|]. split; [exact Hw|]. split; [done|]. split; [done|].
    unfold queue in *. simpl in *. exists (q ++ [(gen_of (S k), 0%N)]).
    rewrite Hv, lookup_fmap, Hq. split; [done|]. rewrite decide_False by lia.
    destruct (decide (j = k)) as [->|Hjk]; [subst q; by exists []|].
    destruct Hqj as [q' ->]. by eexists.
  - intros o1 o2 j1 j2 w1 w2.
    intros [[<- [=]]|[Hne1 Ho1]]%lookup_insert_Some [[<- [=]]|[Hne2 Ho2]]%lookup_insert_Some.
    by apply (inv_distinct _ _ HI _ _ _ _ _ _ Ho1 Ho2).
  - intros o' j r [[<- [= <- <-]]|[Hne Ho']]%lookup_insert_Some; [lia|].
    apply (inv_returned _ _ HI) in Ho'. simpl in Ho'. lia.
  - intros r Hr. rewrite !count_fresh by done. unfold in_round at 2, leads at 2. simpl.
    destruct (decide (r = k)) as [->|Hne].
    + rewrite Nat.eqb_refl, Hlead. pose proof (inv_current _ _ HI) as Hcur. simpl in Hcur |- *. lia.
    + rewrite (proj2 (Nat.eqb_neq k r)), !Nat.add_0_r by lia. apply (inv_full _ _ HI r). simpl. lia.
  - rewrite count_fresh by done. unfold in_round at 2. simpl.
    rewrite (proj2 (Nat.eqb_neq k (S k))), Hnext by lia. done.
Qed.

Lemma Inv_pending n0 b ps k o j w fuel w' b' :
  Inv n0 (mkSystem b ps k) → ps !! o = Some (j, Suspended w) →
  wait_poll fuel w b = Done (inl w', b') →
  Inv n0 (mkSystem b' (<[o := (j, Suspended w')]> ps) k).
Proof.
  intros HI Ho Hp. destruct (inv_waiting _ _ HI _ _ _ Ho) as (Hj & Hg & Hw & H1 & H2 & q & Hq & Hqj).
  simpl in *. destruct fuel as [|fuel]; [done|]. destruct (decide (j = k)) as [->|Hjk].
  - subst q. destruct (wait_poll_empty fuel b w Hw Hq) as (c & Hv & Hp').
    rewrite Hp in Hp'. simplify_eq. rewrite insert_id by done.
    destruct HI as [I1 I2 I3 I4 I5 I6 I7 I8 I9 I10]. split; simpl in *; unfold queue in *; simpl in *;
      rewrite ?Hv; auto.
  - destruct Hqj as [q' ->]. destruct fuel as [|fuel].
    + by rewrite (wait_poll_one b w _ q' Hw Hq) in Hp.
    + destruct (wait_poll_released fuel b w _ q' Hw Hq) as (c & _ & Hp'); [|congruence].
      rewrite Hg. apply gen_of_ne.
Qed.

Lemma Inv_return n0 b ps k o j w fuel r b' :
  Inv n0 (mkSystem b ps k) → ps !! o = Some (j, Suspended w) →
  wait_poll fuel w b = Done (inr r, b') →
  Inv n0 (mkSystem b' (<[o := (j, Returned r)]> ps) k).
Proof.
  intros HI Ho Hp. destruct (inv_waiting _ _ HI _ _ _ Ho) as (Hj & Hg & Hw & H1 & H2 & q & Hq & Hqj).
  simpl in *. destruct fuel as [|fuel]; [done|]. destruct (decide (j = k)) as [->|Hjk].
  { subst q. destruct (wait_poll_empty fuel b w Hw Hq) as (c & _ & Hp'). congruence. }
  destruct Hqj as [q' ->]. destruct fuel as [|fuel].
  { by rewrite (wait_poll_one b w _ q' Hw Hq) in Hp. }
  destruct (wait_poll_released fuel b w _ q' Hw Hq) as (c & Hv & Hp'); [rewrite Hg; apply gen_of_ne|].
  rewrite Hp in Hp'. simplify_eq.
  split; simpl; rewrite ?Hv.
  - apply (inv_n _ _ HI).
  - apply (inv_count _ _ HI).
  - apply (inv_gen _ _ HI).
  - rewrite lookup_delete_ne by done. apply (inv_waker _ _ HI).
  - rewrite lookup_delete_ne by done. apply (inv_handle _ _ HI).
  - intros o' j' w' [[<- [=]]|[Hne Ho']]%lookup_insert_Some.
    destruct (inv_waiting _ _ HI _ _ _ Ho') as (Hj' & Hg' & Hw' & H1' & H2' & q & Hq' & Hqj').
    split; [done|]. split; [done|]. split; [exact Hw'|]. split; [done|]. split; [done|].
    exists q. split; [|done]. unfold queue in *. simpl in *. rewrite Hv, lookup_delete_ne; [done|].
    intros He. apply Hne. by apply (inv_distinct _ _ HI _ _ _ _ _ _ Ho Ho').
  - intros o1 o2 j1 j2 w1 w2.
    intros [[<- [=]]|[Hne1 Ho1]]%lookup_insert_Some [[<- [=]]|[Hne2 Ho2]]%lookup_insert_Some.
    by apply (inv_distinct _ _ HI _ _ _ _ _ _ Ho1 Ho2).
  - intros o' j' r [[<- [= <- <-]]|[Hne Ho']]%lookup_insert_Some; [lia|].
    by apply (inv_returned _ _ HI) in Ho'.
  - intros r Hr. rewrite !(count_change _ _ _ _ _ Ho); [by apply (inv_full _ _ HI r)|..|done].
    unfold leads. simpl. by rewrite !andb_false_r.
  - rewrite (count_change _ _ _ _ _ Ho) by done. apply (inv_current _ _ HI).
Qed.

Lemma barrier_Inv n0 s :
  (N.max 1 n0 < usize_modulus)%N → reachable n0 s → Inv n0 s.
Proof.
  intros Hn Hr. unfold reachable in Hr. revert Hr. generalize (Inv_init n0). generalize (init (C:=C) n0).
  intros s0 H1 Hr. induction Hr as [s|s s1 s2 Hs _ IH]; [done|]. apply IH. destruct Hs.
  - by eapply Inv_enter.
  - by eapply Inv_lead.
  - by eapply Inv_pending.
  - by eapply Inv_return.
Qed.

(** C13 The barrier, under every interleaving of calls of [wait] that are not
    cancelled.  The calls form groups of [n] (a barrier made for 0 is one for 1):
    every rendezvous that has taken place was of exactly [n] calls, exactly one
    of which returned as the leader, and nobody has returned from the one that is
    still gathering, which has fewer than [n].  A call of an earlier rendezvous
    that has not returned does so, not as the leader, at its next poll, its
    channel holding the message that released it; one that is still gathering is
    pending.  The next call never panics, and is the leader exactly when it is
    the [n]-th; the generation numbers may wrap around. *)
Theorem barrier_rendezvous (n0 : N) s :
  (N.max 1 n0 < usize_modulus)%N → reachable n0 s →
  let here := N.of_nat (WakerClients.count (in_round (rounds s)) (calls s)) in
  (∀ r, r < rounds s →
     N.of_nat (WakerClients.count (in_round r) (calls s)) = N.max 1 n0 ∧
     WakerClients.count (leads r) (calls s) = 1) ∧
  (here < N.max 1 n0)%N ∧
  (∀ o j r, calls s !! o = Some (j, Returned r) → j < rounds s) ∧
  (∀ o j w, calls s !! o = Some (j, Suspended w) → j ≤ rounds s ∧ ∀ fuel,
     if decide (j = rounds s)
     then ∃ b', wait_poll (S fuel) w (barrier s) = Done (inl w, b')
     else ∃ b', wait_poll (S (S fuel)) w (barrier s) = Done (inr (mkBarrierWaitResult false), b')) ∧
  (if decide (here + 1 = N.max 1 n0)%N
   then ∃ b', enter (barrier s) = Done (inr (mkBarrierWaitResult true), b')
   else ∃ w b', enter (barrier s) = Done (inl w, b')).
Proof.
  intros Hn HI%barrier_Inv; [|done]. cbv zeta. pose proof (inv_n _ _ HI) as Hnn.
  pose proof (inv_count _ _ HI) as Hc. rewrite (inv_current _ _ HI). split_and!.
  - apply (inv_full _ _ HI).
  - lia.
  - intros o j r. apply (inv_returned _ _ HI).
  - intros o j w Ho.
    destruct (inv_waiting _ _ HI _ _ _ Ho) as (Hj & Hg & Hw & _ & _ & q & Hq & Hqj).
    split; [done|]. intros fuel. destruct (decide (j = rounds s)) as [->|Hne].
    + subst q. destruct (wait_poll_empty fuel _ w Hw Hq) as (c & _ & Hp). by eexists.
    + destruct Hqj as [q' ->].
      destruct (wait_poll_released fuel _ w _ q' Hw Hq) as (c & _ & Hp); [|by eexists].
      rewrite Hg. apply gen_of_ne.
  - case_decide as Hd.
    + destruct (enter_leads (barrier s)) as (c & _ & He); [lia|lia|apply (inv_waker _ _ HI)|by eexists].
    + destruct (enter_waits (barrier s)) as (h & c & _ & _ & He);
        [lia|lia|apply (inv_handle _ _ HI)|by eauto].
Qed.
End Rendezvous.

(** * Witnesses: the channel as the map of its queues *)

Abbreviation Queues := (gmap nat (list (N * N))).

#[local] Instance queues_broadcast : Broadcast Queues (N * N) := {|
  bc_new := (0, {[0 := []]});
  bc_clone _ c := let h := fresh (dom c) in (h, <[h := []]> c);
  bc_send _ m c := (Ok (), (λ q, q ++ [m]) <$> c);
  bc_recv h c := match c !! h with
                 | Some (m :: q) => (Ready (Some m), <[h := q]> c)
                 | _ => (Pending, c)
                 end;
  bc_drop h c := delete h c
|}.
#[local] Program Instance queues_laws : BroadcastLaws Queues (N * N) := {| bc_view c := c |}.
Next Obligation. done. Qed.
Next Obligation. intros h c _. simpl. split; [apply not_elem_of_dom, is_fresh|done]. Qed.
Next Obligation. intros h m c _. by eexists. Qed.
Next Obligation.
  intros h c. simpl. destruct (c !! h) as [[|m q]|]; [..|done]; eexists; split; reflexivity.
Qed.
Next Obligation. done. Qed.

Definition met : option (System (C:=Queues)) :=
  let b := Barrier_new 2 in
  match enter b with
  | Done (inl w, b) =>
      match enter b with
      | Done (inr r, b) => Some (mkSystem b (<[1 := (0, Returned r)]> {[0 := (0, Suspended w)]}) 1)
      | _ => None
      end
  | _ => None
  end.

Lemma met_reachable s : met = Some s → reachable 2 s.
Proof.
  unfold met. destruct (enter (Barrier_new 2)) as [[[w|r] b]| |] eqn:H1; try done.
  destruct (enter b) as [[[w'|r] b']| |] eqn:H2; try done. intros [= <-].
  eapply rtc_l; [by eapply (step_enter _ _ _ 0)|]. eapply rtc_l; [|apply rtc_refl].
  by apply (step_lead _ _ _ 1).
Qed.

Lemma barrier_rendezvous_witness :
  ∃ s w, met = Some s ∧ calls s !! 0 = Some (0, Suspended w) ∧
    ∃ b', wait_poll 2 w (barrier s) = Done (inr (mkBarrierWaitResult false), b').
Proof.
  destruct met as [s|] eqn:Hm; [|by vm_compute in Hm].
  assert (∃ w, calls s !! 0 = Some (0, Suspended w)) as [w Hw].
  { vm_compute in Hm. injection Hm as <-. eexists. vm_compute. reflexivity. }
  exists s, w. split; [done|]. split; [exact Hw|].
  destruct (barrier_rendezvous 2 s) as (_ & _ & _ & Hs & _); [done|by apply met_reachable|].
  destruct (Hs 0 0 w Hw) as [_ Hp]. specialize (Hp 0).
  assert (rounds s = 1) as Hr by (vm_compute in Hm; injection Hm as <-; reflexivity).
  rewrite decide_False in Hp by (rewrite Hr; lia). exact Hp.
Defined.

(** A [wait] whose future is dropped stays counted: at a barrier for two, one
    task passes alone after another has given up. *)
Example barrier_dropped_wait :
  match enter (Barrier_new (C:=Queues) 2) with
  | Done (inl w, b) => match enter (wait_drop w b) with
                       | Done (inr r, _) => is_leader r
                       | _ => false
                       end
  | _ => false
  end = true.
Proof. vm_compute. reflexivity. Qed.
