(* ===== verification/Maps.v ===== *)
(** What the values of a map hold, gathered in one list: references to shared
    memory, or tasks in the hands of threads. *)

From stdpp Require Import gmap fin_maps.
From S2P Require Import Prelude.

Section Gathered.
Context {K A B : Type} `{Countable K} (f : A → list B).

Definition gathered (m : gmap K A) : list B := concat (f <$> (map_to_list m).*2).

Lemma gathered_empty : gathered ∅ = [].
Proof. unfold gathered. by rewrite map_to_list_empty. Qed.

Lemma gathered_new m k x : m !! k = None → gathered (<[k := x]> m) ≡ₚ f x ++ gathered m.
Proof. intros Hk. unfold gathered. by rewrite map_to_list_insert. Qed.

Lemma gathered_delete m k x : m !! k = Some x → gathered m ≡ₚ f x ++ gathered (delete k m).
Proof.
  intros Hk. rewrite <- (insert_delete_id m k x Hk) at 1. apply gathered_new, lookup_delete_eq.
Qed.

Lemma gathered_set m k x : gathered (<[k := x]> m) ≡ₚ f x ++ gathered (delete k m).
Proof.
  rewrite (gathered_delete _ k x) by apply lookup_insert_eq.
  by rewrite delete_insert_eq.
Qed.

Lemma gathered_in m k x b : m !! k = Some x → b ∈ f x → b ∈ gathered m.
Proof. intros Hk Hb. rewrite (gathered_delete m k x Hk). apply elem_of_app. by left. Qed.

Lemma gathered_elem m b : b ∈ gathered m → ∃ k x, m !! k = Some x ∧ b ∈ f x.
Proof.
  unfold gathered. rewrite list_elem_of_In, in_concat. intros (l & Hl & Hb).
  rewrite <- list_elem_of_In in Hl. rewrite <- list_elem_of_In in Hb.
  apply list_elem_of_fmap in Hl as (x & -> & Hx). apply list_elem_of_fmap in Hx as ([k x'] & -> & Hx).
  apply elem_of_map_to_list in Hx. eauto.
Qed.

(** Where no element is held twice, two values that hold the same are the same. *)
Lemma gathered_unique m k k' x x' b :
  NoDup (gathered m) → m !! k = Some x → m !! k' = Some x' → b ∈ f x → b ∈ f x' → k = k'.
Proof.
  intros Hnd Hk Hk' Hb Hb'. destruct (decide (k = k')) as [|Hne]; [done|exfalso].
  rewrite (gathered_delete m k x Hk) in Hnd. apply list.NoDup_app in Hnd as (_ & Hdis & _).
  apply (Hdis b Hb). eapply gathered_in; [|exact Hb']. by rewrite lookup_delete_ne.
Qed.
End Gathered.

(** How often an address is in a list. *)
Abbreviation times a l := (count_occ Nat.eq_dec l a).

Lemma times_cons (a b : nat) l : times a (b :: l) = (if decide (b = a) then 1 else 0) + times a l.
Proof. simpl. destruct (Nat.eq_dec b a), (decide (b = a)); simpl; congruence || lia. Qed.

Lemma times_perm (a : nat) l l' : l ≡ₚ l' → times a l = times a l'.
Proof. intros Hp. by apply Permutation_count_occ. Qed.

Lemma times_in (a : nat) l : a ∈ l → 1 ≤ times a l.
Proof. rewrite list_elem_of_In, (count_occ_In Nat.eq_dec). lia. Qed.

Lemma times_elem (a : nat) l : 1 ≤ times a l → a ∈ l.
Proof. rewrite list_elem_of_In, (count_occ_In Nat.eq_dec). lia. Qed.

Lemma NoDup_times (l : list nat) : (∀ a, times a l ≤ 1) → NoDup l.
Proof. intros Hl. rewrite NoDup_ListNoDup. apply (NoDup_count_occ Nat.eq_dec), Hl. Qed.

Lemma perm_times (l k : list nat) : (∀ a, times a l = times a k) → l ≡ₚ k.
Proof. apply (Permutation_count_occ Nat.eq_dec). Qed.

Lemma times_out (a : nat) l : a ∉ l → times a l = 0.
Proof. rewrite list_elem_of_In. apply count_occ_not_In. Qed.

Lemma NoDup_perm {A : Type} (l l' : list A) : l ≡ₚ l' → NoDup l → NoDup l'.
Proof. by intros ->. Qed.

Lemma NoDup_part {A : Type} (l k : list A) : l ⊆+ k → NoDup k → NoDup l.
Proof.
  intros [k' Hk]%submseteq_Permutation Hnd. apply (NoDup_perm _ _ Hk) in Hnd.
  by apply list.NoDup_app in Hnd as [Hl _].
Qed.
