(* ===== verification/Executor.v ===== *)
(** The executor of src/src/task/executor: the run queues and the search for work
    (pool.rs) and the place where idle workers sleep (sleepers.rs).

    [schedule], [find_runnable] and [notify_one] are the functions as the code has
    them, run by one thread without interruption.  [thread_step] is the same code,
    with [main_loop] and [wait], cut at its operations on what the threads share;
    [step] lets any number of threads interleave there.  The queues are those of
    the crossbeam_deque crate. *)

From stdpp Require Import gmap fin_maps relations.
From S2P Require Import Prelude Utils WakerClients.
Local Open Scope async_scope.

(** * [crossbeam_deque] *)

(** [Steal], the result of an attempt to steal. *)
Inductive Steal (T : Type) : Type :=
| Empty
| Success (t : T)
| Retry.
Arguments Empty {T}.
Arguments Success {T} t.
Arguments Retry {T}.

(** [Worker]s made by [new_fifo] (and their [Stealer]s) and an [Injector]: what
    the code uses of them.  [stealer_steal_own] is what a [Stealer] does when it
    is given the very [Worker] it belongs to. *)
Class Deque (Q I T : Type) : Type := {
  worker_new_fifo : Q;
  worker_push : T → Q → Q;
  worker_pop : Q → option T * Q;
  injector_new : I;
  injector_push : T → I → I;
  injector_steal : I → Q → Steal T * I * Q;
  stealer_steal : Q → Q → Steal T * Q * Q;
  stealer_steal_own : Q → Steal T * Q;
  steal_or_else {S : Type} : Steal T → (S → Steal T * S) → S → Steal T * S;
  steal_collect {S : Type} : list (S → Steal T * S) → S → Steal T * S
}.

(** [steal_batch_and_pop]: a batch goes from one queue to another, and one task is
    popped there; how many are taken, and when the attempt is given up, is not
    specified. *)
Definition stolen {T} (r : Steal T) (src src' dst dst' : list T) : Prop :=
  match r with
  | Success t => ∃ batch, src = batch ++ src' ∧ batch ++ dst ≡ₚ t :: dst'
  | Empty => src = [] ∧ src' = [] ∧ dst' = dst
  | Retry => src' = src ∧ dst' = dst
  end.

(** The documented behaviour. *)
Class DequeLaws (Q I T : Type) `{Deque Q I T} : Type := {
  worker_view : Q → list T;
  injector_view : I → list T;
  worker_new_spec : worker_view worker_new_fifo = [];
  worker_push_spec t q : worker_view (worker_push t q) = worker_view q ++ [t];
  worker_pop_spec q : match worker_view q with
    | [] => (worker_pop q).1 = None ∧ worker_view (worker_pop q).2 = []
    | t :: l => (worker_pop q).1 = Some t ∧ worker_view (worker_pop q).2 = l
    end;
  injector_new_spec : injector_view injector_new = [];
  injector_push_spec t i : injector_view (injector_push t i) = injector_view i ++ [t];
  injector_steal_spec i q : let '(r, i', q') := injector_steal i q in
    stolen r (injector_view i) (injector_view i') (worker_view q) (worker_view q');
  stealer_steal_spec v q : let '(r, v', q') := stealer_steal v q in
    stolen r (worker_view v) (worker_view v') (worker_view q) (worker_view q');
  stealer_own_spec q : let '(r, q') := stealer_steal_own q in
    match r with
    | Success t => worker_view q ≡ₚ t :: worker_view q'
    | _ => worker_view q' = worker_view q
    end;
  steal_or_else_spec {S} (r : Steal T) f (s : S) : steal_or_else r f s =
    match r with
    | Success t => (Success t, s)
    | Empty => f s
    | Retry => let '(r', s') := f s in (if r' is Success t then Success t else Retry, s')
    end;
  steal_collect_nil {S} (s : S) : steal_collect [] s = (Empty, s);
  steal_collect_cons {S} f fs (s : S) : steal_collect (f :: fs) s =
    let '(r, s) := f s in
    match r with
    | Success t => (Success t, s)
    | Empty => steal_collect fs s
    | Retry => let '(r', s') := steal_collect fs s in
               (if r' is Success t then Success t else Retry, s')
    end
}.

(** * The state *)

(** [sleep] is a [Mutex<usize>]: who holds it, and what is in it; [wake] is a
    [Condvar]: the threads that wait on it. *)
Record Sleepers : Type := mkSleepers {
  sleep_owner : option nat;
  sleep : N;
  wake : gset nat;
  notified : bool
}.

Definition Sleepers_new : Sleepers := mkSleepers None 0 ∅ false.

(** A worker thread: its [PROCESSOR], and its [RNG] of utils.rs. *)
Record Processor (Q T : Type) : Type := mkProcessor {
  worker : Q;
  slot : option T;
  slot_runs : N;
  rng : N
}.
Arguments mkProcessor {Q T}.
Arguments worker {Q T}.
Arguments slot {Q T}.
Arguments slot_runs {Q T}.
Arguments rng {Q T}.

(** [POOL], with the processors of the worker threads, which are the threads
    [0..n]; their queues are those that [stealers] steals from. *)
Record Pool (Q I T : Type) : Type := mkPool {
  injector : I;
  processors : list (Processor Q T);
  sleepers : Sleepers
}.
Arguments mkPool {Q I T}.
Arguments injector {Q I T}.
Arguments processors {Q I T}.
Arguments sleepers {Q I T}.

(** What happens to tasks, for the record. *)
Inductive Event (T : Type) : Type :=
| Scheduled (t : T)
| Started (t : T).
Arguments Scheduled {T} t.
Arguments Started {T} t.

Definition SLOT_LIMIT : N := 16.
Definition YIELDS : nat := 3.
Definition SLEEPS : nat := 1.

Section Executor.
Context {Q I T : Type} `{Deque Q I T}.
Implicit Types (po : Pool Q I T) (p : Processor Q T) (s : Sleepers).

(** The pool for the seeds of its worker threads. *)
Definition Pool_new (seeds : list N) : Pool Q I T :=
  mkPool injector_new ((λ seed, mkProcessor worker_new_fifo None 0%N seed) <$> seeds) Sleepers_new.

Definition set_injector (i : I) po : Pool Q I T := mkPool i (processors po) (sleepers po).
Definition set_processor (w : nat) p po : Pool Q I T :=
  mkPool (injector po) (<[w:=p]> (processors po)) (sleepers po).
Definition set_sleepers s po : Pool Q I T := mkPool (injector po) (processors po) s.
Definition set_worker (q : Q) p : Processor Q T := mkProcessor q (slot p) (slot_runs p) (rng p).

Definition set_owner (o : option nat) s : Sleepers := mkSleepers o (sleep s) (wake s) (notified s).
Definition set_sleep (k : N) s : Sleepers := mkSleepers (sleep_owner s) k (wake s) (notified s).
Definition set_wake (w : gset nat) s : Sleepers :=
  mkSleepers (sleep_owner s) (sleep s) w (notified s).
Definition set_notified (b : bool) s : Sleepers :=
  mkSleepers (sleep_owner s) (sleep s) (wake s) b.

(** * The functions *)

(** [Condvar::notify_one], if it chooses the thread [c]. *)
Definition condvar_notify_one (c : nat) s : Sleepers := set_wake (wake s ∖ {[c]}) s.

(** [Sleepers::notify_one]. *)
Definition notify_one (c : nat) s : Act (Event T) Sleepers :=
  if notified s then mret s
  else if (0 <? sleep s)%N then
    sleep ← usize_sub (sleep s) 1;
    mret (condvar_notify_one c (set_sleep sleep s))
  else mret (set_notified true s).

(** [schedule] up to the notification, by the thread [tid]; and whether there is
    one to follow. *)
Definition schedule_push (tid : nat) (t : T) po : bool * Pool Q I T :=
  match processors po !! tid with
  | Some p =>
      let p' := mkProcessor (worker p) (Some t) (slot_runs p) (rng p) in
      match slot p with
      | Some task => (true, set_processor tid (set_worker (worker_push task (worker p')) p') po)
      | None => (false, set_processor tid p' po)
      end
  | None => (true, set_injector (injector_push t (injector po)) po)
  end.

Definition schedule (c tid : nat) (t : T) po : Act (Event T) (Pool Q I T) :=
  _ ← emit (Scheduled t);
  let '(notify, po) := schedule_push tid t po in
  if notify then s ← notify_one c (sleepers po); mret (set_sleepers s po)
  else mret po.

(** The slot, in [find_runnable]. *)
Definition take_slot p : option T * Processor Q T :=
  let runs := slot_runs p in
  let skip := (None, mkProcessor (worker p) (slot p) 0%N (rng p)) in
  if (runs <? SLOT_LIMIT)%N then
    match slot p with
    | Some task => (Some task, mkProcessor (worker p) None (runs + 1)%N (rng p))
    | None => skip
    end
  else skip.

(** [POOL.injector.steal_batch_and_pop(&proc.worker)]. *)
Definition steal_global (tid : nat) po : Steal T * Pool Q I T :=
  match processors po !! tid with
  | Some p =>
      let '(r, i, q) := injector_steal (injector po) (worker p) in
      (r, set_processor tid (set_worker q p) (set_injector i po))
  | None => (Empty, po)
  end.

(** [s.steal_batch_and_pop(&proc.worker)], where [s] belongs to the thread [v]. *)
Definition steal_from (tid v : nat) po : Steal T * Pool Q I T :=
  match processors po !! tid, processors po !! v with
  | Some p, Some p_v =>
      if decide (v = tid) then
        let '(r, q) := stealer_steal_own (worker p) in (r, set_processor tid (set_worker q p) po)
      else
        let '(r, q_v, q) := stealer_steal (worker p_v) (worker p) in
        (r, set_processor tid (set_worker q p) (set_processor v (set_worker q_v p_v) po))
  | _, _ => (Empty, po)
  end.

(** Where the search of the local queues starts, and the order in which they are
    tried; [split_at] panics beyond the end. *)
Definition search_order (tid : nat) po : Act (Event T) (list nat * Pool Q I T) :=
  match processors po !! tid with
  | Some p =>
      let len := length (processors po) in
      let '(start, rng') := random (N.of_nat len mod u32_modulus)%N (rng p) in
      let start := N.to_nat start in
      if start <=? len then
        mret (seq start (len - start) ++ seq 0 start,
              set_processor tid (mkProcessor (worker p) (slot p) (slot_runs p) rng') po)
      else eff_panic
  | None => eff_panic
  end.

(** The closure given to [or_else]; it may panic. *)
Definition steal_others (tid : nat) (st : Act (Event T) (Pool Q I T)) :
    Steal T * Act (Event T) (Pool Q I T) :=
  match po ← st; search_order tid po with
  | Done ((order, po), w) =>
      let '(r, po) := steal_collect (steal_from tid <$> order) po in (r, Done (po, w))
  | Panic => (Empty, Panic)
  | OutOfFuel => (Empty, OutOfFuel)
  end.

(** One round of [repeat_with(..).find(|s| !s.is_retry())]. *)
Definition steal_round (tid : nat) (po : Pool Q I T) :
    Act (Event T) (Pool Q I T + (option T * Pool Q I T)) :=
  let '(r, po) := steal_global tid po in
  let '(r, st) := steal_or_else r (steal_others tid) (mret po) in
  po ← st;
  match r with
  | Retry => mret (inl po)
  | Success t => mret (inr (Some t, po))
  | Empty => mret (inr (None, po))
  end.

(** [find_runnable], by the worker thread [tid]. *)
Definition find_runnable (fuel tid : nat) po : Act (Event T) (option T * Pool Q I T) :=
  p ← unwrap (processors po !! tid);
  let '(task, p) := take_slot p in
  let po := set_processor tid p po in
  match task with
  | Some task => mret (Some task, po)
  | None =>
      let '(task, q) := worker_pop (worker p) in
      let po := set_processor tid (set_worker q p) po in
      match task with
      | Some task => mret (Some task, po)
      | None => rust_loop (steal_round tid) fuel po
      end
  end.

(** * The threads *)

(** Where a thread is.  A thread that calls [schedule] is a worker that runs a
    task [h] or, if there is none, a thread that does not belong to the pool. *)
Inductive NotifyPc : Type := NLoad | NLock | NTest | NWake | NStore | NUnlock.
Inductive WaitPc : Type := WLock | WSwap | WCount | WPark | WAsleep | WUnlock.

Inductive Pc : Type :=
| Find (fails : nat)                 (* about to call [find_runnable] *)
| Pop (fails : nat)                  (* about to pop from its own queue *)
| StealGlobal (fails : nat)          (* at the head of [repeat_with] *)
| StealLocal (fails : nat) (order : list nat) (retry : bool)
| Running (t : T)                    (* in [task.run()] *)
| Scheduling (h : option T) (t : T)  (* about to call [schedule(t)] *)
| Notify (h : option T) (n : NotifyPc)
| Wait (w : WaitPc).

Definition resume (h : option T) : option Pc := Running <$> h.

(** In [main_loop], when no task was found. *)
Definition not_found (fails : nat) : Pc :=
  let fails := S fails in
  if fails <=? YIELDS then Find fails
  else if fails <=? YIELDS + SLEEPS then Find fails
  else Wait WLock.

Inductive Turn : Type :=
| Blocked
| Goes (pc : option Pc) (po : Pool Q I T).

Definition run_task (t : T) po : Act (Event T) Turn :=
  _ ← emit (Started t); mret (Goes (Some (Running t)) po).

(** A lock is taken if it is free. *)
Definition lock_step (tid : nat) (pc : Pc) po : Turn :=
  match sleep_owner (sleepers po) with
  | None => Goes (Some pc) (set_sleepers (set_owner (Some tid) (sleepers po)) po)
  | Some _ => Blocked
  end.

(** [notify_one], operation by operation. *)
Definition notify_step (c tid : nat) (h : option T) (n : NotifyPc) po : Act (Event T) Turn :=
  let s := sleepers po in
  match n with
  | NLoad => mret (if notified s then Goes (resume h) po else Goes (Some (Notify h NLock)) po)
  | NLock => mret (lock_step tid (Notify h NTest) po)
  | NTest =>
      if (0 <? sleep s)%N then
        sleep ← usize_sub (sleep s) 1;
        mret (Goes (Some (Notify h NWake)) (set_sleepers (set_sleep sleep s) po))
      else mret (Goes (Some (Notify h NStore)) po)
  | NWake =>
      let pc := Some (Notify h NUnlock) in
      if decide (wake s = ∅) then mret (Goes pc po)
      else if decide (c ∈ wake s) then mret (Goes pc (set_sleepers (condvar_notify_one c s) po))
      else mret Blocked
  | NStore => mret (Goes (Some (Notify h NUnlock)) (set_sleepers (set_notified true s) po))
  | NUnlock => mret (Goes (resume h) (set_sleepers (set_owner None s) po))
  end.

(** [Sleepers::wait], operation by operation. *)
Definition wait_step (tid : nat) (w : WaitPc) po : Act (Event T) Turn :=
  let s := sleepers po in
  match w with
  | WLock => mret (lock_step tid (Wait WSwap) po)
  | WSwap =>
      let pc := if notified s then Wait WUnlock else Wait WCount in
      mret (Goes (Some pc) (set_sleepers (set_notified false s) po))
  | WCount =>
      sleep ← usize_add (sleep s) 1;
      mret (Goes (Some (Wait WPark)) (set_sleepers (set_sleep sleep s) po))
  | WPark =>
      mret (Goes (Some (Wait WAsleep))
        (set_sleepers (set_owner None (set_wake ({[tid]} ∪ wake s) s)) po))
  | WAsleep =>
      mret (if decide (tid ∈ wake s) then Blocked else lock_step tid (Wait WUnlock) po)
  | WUnlock => mret (Goes (Some (Find 0)) (set_sleepers (set_owner None s) po))
  end.

(** The next operation of the thread [tid]; [c] is the thread that the condition
    variable would choose. *)
Definition thread_step (c tid : nat) (pc : Pc) po : Act (Event T) Turn :=
  match pc with
  | Find fails =>
      p ← unwrap (processors po !! tid);
      let '(task, p) := take_slot p in
      let po := set_processor tid p po in
      match task with
      | Some task => run_task task po
      | None => mret (Goes (Some (Pop fails)) po)
      end
  | Pop fails =>
      p ← unwrap (processors po !! tid);
      let '(task, q) := worker_pop (worker p) in
      let po := set_processor tid (set_worker q p) po in
      match task with
      | Some task => run_task task po
      | None => mret (Goes (Some (StealGlobal fails)) po)
      end
  | StealGlobal fails =>
      let '(r, po) := steal_global tid po in
      if r is Success task then run_task task po
      else
        '(order, po) ← search_order tid po;
        mret (Goes (Some (StealLocal fails order (if r is Retry then true else false))) po)
  | StealLocal fails [] true => mret (Goes (Some (StealGlobal fails)) po)
  | StealLocal fails [] false => mret (Goes (Some (not_found fails)) po)
  | StealLocal fails (v :: order) retry =>
      let '(r, po) := steal_from tid v po in
      match r with
      | Success task => run_task task po
      | Empty => mret (Goes (Some (StealLocal fails order retry)) po)
      | Retry => mret (Goes (Some (StealLocal fails order true)) po)
      end
  | Running _ => mret (Goes (Some (Find 0)) po)
  | Scheduling h t =>
      _ ← emit (Scheduled t);
      let '(notify, po) := schedule_push tid t po in
      mret (Goes (if notify then Some (Notify h NLoad) else resume h) po)
  | Notify h n => notify_step c tid h n po
  | Wait w => wait_step tid w po
  end.

(** * Interleavings *)

Record System : Type := mkSystem {
  pool : Pool Q I T;
  threads : gmap nat Pc;
  log : list (Event T)
}.

Inductive step : System → System → Prop :=
| step_thread po th l c tid pc pc' po' ev :
    th !! tid = Some pc → thread_step c tid pc po = Done (Goes pc' po', ev) →
    step (mkSystem po th l) (mkSystem po' (set_op tid pc' th) (l ++ ev))
| step_task_schedules po th l tid task t :     (* a task calls a waker, or spawns *)
    th !! tid = Some (Running task) →
    step (mkSystem po th l) (mkSystem po (<[tid:=Scheduling (Some task) t]> th) l)
| step_other_schedules po th l tid t :         (* a thread outside the pool does *)
    processors po !! tid = None → th !! tid = None →
    step (mkSystem po th l) (mkSystem po (<[tid:=Scheduling None t]> th) l).

(** What the documentation of [Condvar::wait] allows too. *)
Inductive spurious_wakeup : System → System → Prop :=
| wakes_up po th l tid :
    tid ∈ wake (sleepers po) →
    spurious_wakeup (mkSystem po th l)
      (mkSystem (set_sleepers (set_wake (wake (sleepers po) ∖ {[tid]}) (sleepers po)) po) th l).

Definition initial (seeds : list N) : System :=
  mkSystem (Pool_new seeds) (list_to_map ((λ tid, (tid, Find 0)) <$> seq 0 (length seeds))) [].

(** The seeds are what [addr as u32] can be, and there is a thread or more:
    [num_cpus::get().max(1)]. *)
Definition good_seeds (seeds : list N) : Prop :=
  seeds ≠ [] ∧ (N.of_nat (length seeds) < usize_modulus)%N ∧
  Forall (λ seed, seed < u32_modulus)%N seeds.

Definition reachable (seeds : list N) (s : System) : Prop :=
  good_seeds seeds ∧ rtc step (initial seeds) s.
End Executor.
