(* ===== verification/ExecutorSpec.v ===== *)
(** What the executor of src/src/task/executor promises: no task is lost or run
    twice, and no task waits in a queue while all worker threads sleep. *)

From stdpp Require Import gmap fin_maps relations.
From S2P Require Import Prelude Utils WakerClients Executor.

(** * The sleepers *)

Section Sleeping.
Context {Q I T : Type} `{DequeLaws Q I T}.
Implicit Types (po : Pool Q I T) (s : Sleepers) (th : gmap nat (Pc (T:=T))) (pc : Pc (T:=T)).

(** The threads that hold the lock, by what they are about to do. *)
Definition at_count pc : bool := if pc is Wait WCount then true else false.
Definition at_park pc : bool := if pc is Wait WPark then true else false.
Definition at_wake pc : bool := if pc is Notify _ NWake then true else false.
Definition at_store pc : bool := if pc is Notify _ NStore then true else false.
Definition at_rest pc : bool :=
  match pc with
  | Notify _ NTest | Notify _ NUnlock | Wait WSwap | Wait WUnlock => true
  | _ => false
  end.

(** Neither holding the lock nor asleep. *)
Definition neutral pc : bool :=
  negb (at_count pc || at_park pc || at_wake pc || at_store pc || at_rest pc ||
        (if pc is Wait WAsleep then true else false)).

(** [sleep] counts the threads that wait on the condition variable, and a
    notification is only kept when there are none. *)
Record SleepOk s th : Prop := {
  sleep_lock : count at_count th + count at_park th + count at_wake th + count at_store th +
    count at_rest th = if sleep_owner s is Some _ then 1 else 0;
  sleep_count : N.to_nat (sleep s) + count at_wake th = size (wake s) + count at_park th;
  sleep_quiet : notified s = true →
    sleep s = 0%N ∧ count at_count th = 0 ∧ count at_park th = 0 ∧ count at_wake th = 0;
  sleep_store : 1 ≤ count at_store th → sleep s = 0%N;
  sleep_asleep tid : tid ∈ wake s → th !! tid = Some (Wait WAsleep)
}.

Lemma exec_counts_set th tid (pc' : option Pc) :
  let change (P : Pc → bool) := count P (set_op tid pc' th) + is_at P (th !! tid) = count P th + is_at P pc' in
  change at_count ∧ change at_park ∧ change at_wake ∧ change at_store ∧ change at_rest.
Proof. split_and!; apply count_set. Qed.

Lemma asleep_ne s th tid pc :
  SleepOk s th → th !! tid = Some pc → pc ≠ Wait WAsleep → tid ∉ wake s.
Proof. intros Hs Ht Hpc Hin. apply (sleep_asleep _ _ Hs) in Hin. congruence. Qed.

(** The entries of the others in the wait set are as they were. *)
Lemma asleep_set s th tid (pc' : option Pc) (w : gset nat) :
  SleepOk s th → w ⊆ wake s ∪ {[tid]} → (tid ∈ w → pc' = Some (Wait WAsleep)) →
  ∀ t, t ∈ w → set_op tid pc' th !! t = Some (Wait WAsleep).
Proof.
  intros Hs Hw Hpc t Ht. destruct (decide (t = tid)) as [->|Hne]; [rewrite set_op_eq; auto|].
  rewrite set_op_ne by done. apply (sleep_asleep _ _ Hs). set_solver.
Qed.

(** A thread that has nothing to do with the sleepers moves on, starts or ends. *)
Lemma sleep_keep s th tid (pc' : option Pc) :
  SleepOk s th → is_at (negb ∘ neutral) (th !! tid) = 0 → is_at (negb ∘ neutral) pc' = 0 →
  SleepOk s (set_op tid pc' th).
Proof.
  intros Hs Hpc Hpc'. pose proof (exec_counts_set th tid pc') as Hc. simpl in Hc.
  assert (∀ o, is_at (negb ∘ neutral) o = 0 →
    is_at at_count o = 0 ∧ is_at at_park o = 0 ∧ is_at at_wake o = 0 ∧ is_at at_store o = 0 ∧
    is_at at_rest o = 0) as Hn.
  { intros [[| | | | | |? []|[]]|]; simpl; try discriminate; auto. }
  destruct (Hn _ Hpc) as (? & ? & ? & ? & ?), (Hn _ Hpc') as (? & ? & ? & ? & ?).
  assert (tid ∉ wake s) as Hin.
  { intros Hin. apply (sleep_asleep _ _ Hs) in Hin. rewrite Hin in Hpc. discriminate. }
  destruct Hs as [S1 S2 S3 S4 S5]. split; [lia|lia|intros Hq; apply S3 in Hq; lia|lia|].
  apply (asleep_set s); [done|set_solver|done].
Qed.

(** Proves [SleepOk] of a thread that moves on, by counting. *)
Ltac solve_sleep Hs Ht :=
  match goal with |- SleepOk _ (set_op ?tid ?pc' ?th) =>
    let Hc := fresh "Hc" in
    pose proof (exec_counts_set th tid pc') as Hc; rewrite Ht in Hc; simpl in Hc;
    let Hlock := fresh "Hlock" in let Hcount := fresh "Hcount" in
    let Hquiet := fresh "Hquiet" in let Hstore := fresh "Hstore" in
    pose proof Hs as [Hlock Hcount Hquiet Hstore _];
    split;
      [..|apply (asleep_set _ _ _ _ _ Hs); [set_solver|intros Hin;
          try done; exfalso; pose proof (asleep_ne _ _ _ _ Hs Ht ltac:(done)); set_solver]];
      simpl in *;
      try (intros Hq; try specialize (Hquiet Hq));
      try (destruct (sleep_owner _); simpl in *; lia)
  end.

Lemma lock_step_goes tid pc po (pc' : option Pc) po' :
  lock_step tid pc po = Goes pc' po' →
  sleep_owner (sleepers po) = None ∧ pc' = Some pc ∧
  po' = set_sleepers (set_owner (Some tid) (sleepers po)) po.
Proof.
  unfold lock_step. destruct (sleep_owner (sleepers po)); [discriminate|].
  by intros [= <- <-].
Qed.

(** The lock is taken, by a thread that did not hold it. *)
Lemma sleep_take s th tid pc :
  SleepOk s th → sleep_owner s = None → tid ∉ wake s → at_rest pc = true →
  is_at (negb ∘ neutral) (th !! tid) = 0 ∨ th !! tid = Some (Wait WAsleep) →
  SleepOk (set_owner (Some tid) s) (<[tid:=pc]> th).
Proof.
  intros Hs Ho Hin Hpc Ht. change (<[tid:=pc]> th) with (set_op tid (Some pc) th).
  pose proof (exec_counts_set th tid (Some pc)) as Hc. simpl in Hc.
  assert (is_at at_count (th !! tid) = 0 ∧ is_at at_park (th !! tid) = 0 ∧
    is_at at_wake (th !! tid) = 0 ∧ is_at at_store (th !! tid) = 0 ∧
    is_at at_rest (th !! tid) = 0) as (Z1 & Z2 & Z3 & Z4 & Z5).
  { destruct Ht as [Ht| ->]; [|done].
    by destruct (th !! tid) as [[| | | | | |? []|[]]|]; simpl in *; try discriminate. }
  rewrite Z1, Z2, Z3, Z4, Z5 in Hc.
  destruct Hs as [S1 S2 S3 S4 S5]. rewrite Ho in S1.
  destruct pc as [| | | | | |? []|[]]; try discriminate Hpc; simpl in Hc;
    (split; simpl; [lia|lia|intros Hq; apply S3 in Hq; lia|lia|]);
    (intros t Ht'; rewrite lookup_insert_ne; [by apply S5|congruence]).
Qed.

Lemma size_without c (w : gset nat) : c ∈ w → size (w ∖ {[c]}) + 1 = size w.
Proof.
  intros Hc. rewrite size_difference, size_singleton by set_solver.
  assert (1 ≤ size w); [|lia]. rewrite <- (size_singleton (C:=gset nat) c).
  apply subseteq_size. set_solver.
Qed.

Lemma size_with c (w : gset nat) : c ∉ w → size ({[c]} ∪ w) = S (size w).
Proof. intros Hc. by rewrite size_union, size_singleton by set_solver. Qed.

(** [notify_one] keeps it. *)
Lemma sleep_notify c tid h n po (pc' : option Pc) po' ev th :
  SleepOk (sleepers po) th → th !! tid = Some (Notify h n) →
  notify_step c tid h n po = Done (Goes pc' po', ev) →
  SleepOk (sleepers po') (set_op tid pc' th).
Proof.
  intros Hs Ht Hrun. destruct n; simpl in Hrun.
  - apply eff_ret_done in Hrun as [Hrun ->]. destruct (notified _); simplify_eq;
      (apply sleep_keep; [done|by rewrite Ht|by try destruct h]).
  - apply eff_ret_done in Hrun as [(Ho & -> & ->)%lock_step_goes ->].
    apply sleep_take; [done|done| |done|left; by rewrite Ht].
    by eapply asleep_ne.
  - destruct (N.ltb_spec 0 (sleep (sleepers po))) as [Hlt|Hge].
    + rewrite usize_sub_ok in Hrun by lia. rewrite eff_bind_Done in Hrun.
      apply eff_ret_done in Hrun as [Hrun ->]. simplify_eq. solve_sleep Hs Ht.
    + apply eff_ret_done in Hrun as [Hrun ->]. simplify_eq. solve_sleep Hs Ht.
  - destruct (decide (wake (sleepers po) = ∅)) as [He|Hne].
    { apply eff_ret_done in Hrun as [Hrun ->]. simplify_eq. exfalso.
      pose proof (exec_counts_set th tid None) as Hc. rewrite Ht in Hc. simpl in Hc.
      destruct Hs as [S1 S2 _ _ _]. rewrite He, size_empty in S2.
      destruct (sleep_owner _); lia. }
    destruct (decide (c ∈ wake (sleepers po))) as [Hc|Hc];
      apply eff_ret_done in Hrun as [Hrun ->]; simplify_eq. solve_sleep Hs Ht.
    pose proof (size_without c _ Hc).
    destruct (sleep_owner _); lia.
  - apply eff_ret_done in Hrun as [Hrun ->]. simplify_eq. solve_sleep Hs Ht.
  - apply eff_ret_done in Hrun as [Hrun ->]. simplify_eq.
    destruct h as [t|]; solve_sleep Hs Ht.
Qed.

(** So does [wait]. *)
Lemma sleep_wait tid w po (pc' : option Pc) po' ev th :
  SleepOk (sleepers po) th → th !! tid = Some (Wait w) →
  wait_step tid w po = Done (Goes pc' po', ev) →
  SleepOk (sleepers po') (set_op tid pc' th).
Proof.
  intros Hs Ht Hrun. destruct w; simpl in Hrun.
  - apply eff_ret_done in Hrun as [(Ho & -> & ->)%lock_step_goes ->].
    apply sleep_take; [done|done| |done|left; by rewrite Ht]. by eapply asleep_ne.
  - apply eff_ret_done in Hrun as [Hrun ->]. simplify_eq.
    destruct (notified (sleepers po)) eqn:Hn; solve_sleep Hs Ht.
  - apply eff_bind_done in Hrun as (k & w1 & w2 & Hk & Hrun & ->).
    apply usize_add_done in Hk as [-> ->]. apply eff_ret_done in Hrun as [Hrun ->].
    simplify_eq. solve_sleep Hs Ht.
  - apply eff_ret_done in Hrun as [Hrun ->]. simplify_eq.
    pose proof (asleep_ne _ _ _ _ Hs Ht ltac:(done)) as Hout.
    pose proof (size_with tid _ Hout). solve_sleep Hs Ht.
  - destruct (decide (tid ∈ wake (sleepers po))) as [Hin|Hin];
      apply eff_ret_done in Hrun as [Hrun ->]; [discriminate|].
    apply lock_step_goes in Hrun as (Ho & -> & ->).
    apply sleep_take; [done|done|done|done|by right].
  - apply eff_ret_done in Hrun as [Hrun ->]. simplify_eq. solve_sleep Hs Ht.
Qed.
End Sleeping.

(** * The queues *)

Section Queues.
Context {Q I T : Type} `{DequeLaws Q I T}.
Implicit Types (po : Pool Q I T) (p : Processor Q T).

Definition local_view p : list T := option_list (slot p) ++ worker_view (worker p).
Definition queued po : list T :=
  injector_view (injector po) ++ concat (local_view <$> processors po).

Definition scheduled (l : list (Event T)) : list T :=
  omap (λ e, if e is Scheduled t then Some t else None) l.
Definition started (l : list (Event T)) : list T :=
  omap (λ e, if e is Started t then Some t else None) l.

Lemma concat_set {A B} (f : A → list B) l i (x : A) :
  l !! i = Some x →
  ∃ rest, concat (f <$> l) ≡ₚ f x ++ rest ∧ ∀ y, concat (f <$> <[i:=y]> l) ≡ₚ f y ++ rest.
Proof.
  revert i. induction l as [|a l IH]; intros [|i] Hi; simplify_eq/=.
  - by exists (concat (f <$> l)).
  - destruct (IH i Hi) as (rest & Hr & Hy). exists (f a ++ rest).
    split; [rewrite Hr|intros y; rewrite (Hy y)]; solve_Permutation.
Qed.

(** What the whole pool loses and gains is what the processor does. *)
Lemma queued_processor po i p p' (gone come : list T) :
  processors po !! i = Some p → come ++ local_view p ≡ₚ gone ++ local_view p' →
  come ++ queued po ≡ₚ gone ++ queued (set_processor i p' po).
Proof.
  intros Hi Hp. destruct (concat_set local_view _ _ _ Hi) as (rest & Hr & Hy).
  unfold queued. simpl. rewrite Hr, (Hy p').
  trans ((come ++ local_view p) ++ injector_view (injector po) ++ rest); [solve_Permutation|].
  rewrite Hp. solve_Permutation.
Qed.

(** A task goes from the queue of one to the other. *)
Lemma queued_two po i j p p' q q' (gone : list T) :
  i ≠ j → processors po !! i = Some p → processors po !! j = Some q →
  local_view q ++ local_view p ≡ₚ gone ++ local_view q' ++ local_view p' →
  queued po ≡ₚ gone ++ queued (set_processor i p' (set_processor j q' po)).
Proof.
  intros Hne Hi Hj Hp.
  pose proof (queued_processor po j q q' (local_view q) (local_view q') Hj
    ltac:(solve_Permutation)) as Hq.
  set (po1 := set_processor j q' po) in *.
  assert (processors po1 !! i = Some p) as Hi1 by (simpl; by rewrite list_lookup_insert_ne).
  pose proof (queued_processor po1 i p p' (local_view p) (local_view p') Hi1
    ltac:(solve_Permutation)) as Hq1.
  set (po2 := set_processor i p' po1) in *.
  apply (Permutation_app_inv_l (local_view q' ++ local_view p')).
  trans (local_view p' ++ local_view q' ++ queued po); [solve_Permutation|]. rewrite Hq.
  trans (local_view q ++ local_view p' ++ queued po1); [solve_Permutation|]. rewrite Hq1.
  trans ((local_view q ++ local_view p) ++ queued po2); [solve_Permutation|]. rewrite Hp.
  solve_Permutation.
Qed.

Lemma queued_injector po i (come : list T) :
  injector_view i ≡ₚ come ++ injector_view (injector po) →
  come ++ queued po ≡ₚ queued (set_injector i po).
Proof. intros Hi. unfold queued. simpl. rewrite Hi. solve_Permutation. Qed.

Lemma set_processor_lookup po i j p p' :
  processors po !! i = Some p →
  processors (set_processor i p' po) !! j = if decide (j = i) then Some p' else processors po !! j.
Proof.
  intros Hi. simpl. destruct (decide (j = i)) as [->|Hne].
  - apply list_lookup_insert_eq. by eapply lookup_lt_Some.
  - by rewrite list_lookup_insert_ne.
Qed.

(** ** The operations *)

Lemma take_slot_view p task p' :
  take_slot p = (task, p') →
  local_view p = option_list task ++ local_view p' ∧ worker p' = worker p ∧ rng p' = rng p ∧
  match task with
  | Some _ => slot p' = None
  | None => slot_runs p' = 0%N ∧ slot p' = slot p ∧ (slot_runs p = 0%N → slot p = None)
  end.
Proof.
  unfold take_slot, SLOT_LIMIT, local_view.
  destruct (N.ltb_spec (slot_runs p) 16); [destruct (slot p) eqn:Hs|]; intros [= <- <-];
    simpl; rewrite ?Hs; split_and!; done || lia.
Qed.

Lemma take_slot_wf p task p' :
  take_slot p = (task, p') → (rng p < u32_modulus)%N ∧ (slot_runs p ≤ SLOT_LIMIT)%N →
  (rng p' < u32_modulus)%N ∧ (slot_runs p' ≤ SLOT_LIMIT)%N.
Proof.
  unfold take_slot, SLOT_LIMIT.
  destruct (N.ltb_spec (slot_runs p) 16); [destruct (slot p)|]; intros [= <- <-]; simpl; lia.
Qed.

Lemma worker_pop_view q task q' :
  worker_pop q = (task, q') → worker_view q = option_list task ++ worker_view q' ∧
  (task = None → worker_view q' = []).
Proof.
  intros Hp. pose proof (worker_pop_spec q) as Hs. rewrite Hp in Hs. simpl in Hs.
  destruct (worker_view q); destruct Hs as [-> ->]; done.
Qed.

(** What a worker knows after an attempt to steal. *)
Definition steal_list (r : Steal T) : list T := if r is Success t then [t] else [].

Lemma stolen_perm (r : Steal T) src src' dst dst' :
  stolen r src src' dst dst' → src ++ dst ≡ₚ steal_list r ++ src' ++ dst'.
Proof.
  destruct r; simpl; [intros (-> & -> & ->); done| |by intros [-> ->]].
  intros (batch & -> & Hb). change (batch ++ dst ≡ₚ [t] ++ dst') in Hb.
  trans ((batch ++ dst) ++ src'); [solve_Permutation|]. rewrite Hb. solve_Permutation.
Qed.

Lemma stolen_nil (r : Steal T) src src' dst dst' :
  stolen r src src' dst dst' → (r = Empty → src = [] ∧ src' = []) ∧ (src = [] → src' = []) ∧
  (steal_list r = [] → dst' = dst).
Proof.
  destruct r; simpl; [by intros (-> & -> & ->)| |by intros [-> ->]].
  intros (batch & -> & _). split_and!; [done| |done]. by intros [_ ?]%app_nil.
Qed.
End Queues.

(** * A worker that looks for work *)

Section Searching.
Context {Q I T : Type} `{DequeLaws Q I T}.
Implicit Types (po : Pool Q I T) (p : Processor Q T).

Definition processor_wf p : Prop := (rng p < u32_modulus)%N ∧ (slot_runs p ≤ SLOT_LIMIT)%N.

(** What a worker knows of its own queue and slot. *)
Definition local_ok (pc : Pc (T:=T)) p : Prop :=
  match pc with
  | Find f => 1 ≤ f → slot_runs p = 0%N
  | Pop f => slot_runs p = 0%N ∧ (1 ≤ f → slot p = None)
  | StealGlobal f | StealLocal f _ _ =>
      slot_runs p = 0%N ∧ (1 ≤ f → slot p = None) ∧ worker_view (worker p) = []
  | Wait _ => slot p = None ∧ worker_view (worker p) = []
  | Running _ | Scheduling _ _ | Notify _ _ => True
  end.

(** What may happen to the processor of another thread. *)
Definition robbed p p' : Prop :=
  slot p' = slot p ∧ slot_runs p' = slot_runs p ∧ rng p' = rng p ∧
  (worker_view (worker p) = [] → worker_view (worker p') = []).

Definition others_robbed (tid : nat) po po' : Prop :=
  length (processors po') = length (processors po) ∧
  ∀ j p, j ≠ tid → processors po !! j = Some p →
    ∃ p', processors po' !! j = Some p' ∧ robbed p p'.

Lemma robbed_refl p : robbed p p.
Proof. done. Qed.

Lemma robbed_local_ok (pc : Pc (T:=T)) p p' : robbed p p' → local_ok pc p → local_ok pc p'.
Proof.
  intros (Hs & Hr & _ & Hw). destruct pc; simpl; rewrite ?Hs, ?Hr; naive_solver.
Qed.

Lemma others_refl tid po : others_robbed tid po po.
Proof. split; [done|]. intros j p _ Hj. exists p. auto using robbed_refl. Qed.

Lemma others_own tid p p' po :
  processors po !! tid = Some p → others_robbed tid po (set_processor tid p' po).
Proof.
  intros Ht. split; [simpl; apply length_insert|]. intros j q Hne Hj.
  exists q. split; [|apply robbed_refl]. simpl. by rewrite list_lookup_insert_ne.
Qed.

Lemma others_trans tid po1 po2 po3 :
  others_robbed tid po1 po2 → others_robbed tid po2 po3 → others_robbed tid po1 po3.
Proof.
  intros [L1 H1] [L2 H2]. split; [congruence|]. intros j p Hne Hj.
  destruct (H1 j p Hne Hj) as (p1 & Hj1 & A1 & A2 & A3 & A4).
  destruct (H2 j p1 Hne Hj1) as (p2 & Hj2 & B1 & B2 & B3 & B4).
  exists p2. split; [done|]. split_and!; [congruence..|auto].
Qed.

Record Stole (tid : nat) po p (r : Steal T) po' p' : Prop := {
  stole_own : processors po' !! tid = Some p';
  stole_slot : slot p' = slot p ∧ slot_runs p' = slot_runs p ∧ rng p' = rng p;
  stole_worker : steal_list r = [] → worker_view (worker p') = worker_view (worker p);
  stole_sleepers : sleepers po' = sleepers po;
  stole_others : others_robbed tid po po';
  stole_queued : queued po ≡ₚ steal_list r ++ queued po';
  stole_injector : injector_view (injector po) = [] → injector_view (injector po') = []
}.

Lemma steal_global_ok tid po p r po' :
  processors po !! tid = Some p → steal_global tid po = (r, po') →
  ∃ p', Stole tid po p r po' p' ∧ (r = Empty → injector_view (injector po') = []).
Proof.
  intros Ht Hs. unfold steal_global in Hs. rewrite Ht in Hs.
  pose proof (injector_steal_spec (injector po) (worker p)) as Hi.
  destruct (injector_steal (injector po) (worker p)) as [[r' i'] q'].
  injection Hs as -> <-. exists (set_worker q' p).
  pose proof (stolen_perm _ _ _ _ _ Hi) as Hp.
  destruct (stolen_nil _ _ _ _ _ Hi) as (He & Hn & Hw).
  split; [|simpl; naive_solver].
  split; simpl; [| |done|done| | |done].
  - apply list_lookup_insert_eq. by eapply lookup_lt_Some.
  - done.
  - by eapply (others_own _ p _ (set_injector i' po)).
  - destruct (concat_set local_view _ _ _ Ht) as (rest & Hr & Hy).
    unfold queued. simpl. rewrite Hr, Hy. unfold local_view at 1. unfold local_view. simpl.
    trans ((injector_view (injector po) ++ worker_view (worker p)) ++ option_list (slot p) ++ rest);
      [solve_Permutation|]. rewrite Hp. solve_Permutation.
Qed.

Lemma steal_from_ok tid v po p r po' :
  processors po !! tid = Some p → steal_from tid v po = (r, po') →
  ∃ p', Stole tid po p r po' p' ∧ injector po' = injector po.
Proof.
  intros Ht Hs. unfold steal_from in Hs. rewrite Ht in Hs.
  destruct (processors po !! v) as [p_v|] eqn:Hv; [destruct (decide (v = tid)) as [->|Hne]|].
  - rewrite Ht in Hv. injection Hv as <-.
    pose proof (stealer_own_spec (worker p)) as Ho.
    destruct (stealer_steal_own (worker p)) as [r' q']. injection Hs as -> <-.
    exists (set_worker q' p). split; [|done]. split; simpl; [| | |done| | |done].
    + apply list_lookup_insert_eq. by eapply lookup_lt_Some.
    + done.
    + by destruct r.
    + by eapply others_own.
    + apply (queued_processor po tid p (set_worker q' p) (steal_list r) []); [done|].
      unfold local_view. simpl. destruct r; simpl; rewrite ?Ho; solve_Permutation.
  - pose proof (stealer_steal_spec (worker p_v) (worker p)) as Ho.
    destruct (stealer_steal (worker p_v) (worker p)) as [[r' q_v] q]. injection Hs as -> <-.
    pose proof (stolen_perm _ _ _ _ _ Ho) as Hp.
    destruct (stolen_nil _ _ _ _ _ Ho) as (He & Hn & Hw).
    exists (set_worker q p). split; [|done]. split; simpl; [| |done|done| | |done].
    + apply list_lookup_insert_eq. rewrite length_insert. by eapply lookup_lt_Some.
    + done.
    + split; [simpl; by rewrite !length_insert|]; simpl. intros j pj Hj Hpj.
      rewrite list_lookup_insert_ne by done. destruct (decide (j = v)) as [->|Hjv].
      * exists (set_worker q_v p_v). rewrite Hv in Hpj. injection Hpj as <-.
        rewrite list_lookup_insert_eq by (by eapply lookup_lt_Some). done.
      * exists pj. rewrite list_lookup_insert_ne by done. auto using robbed_refl.
    + apply (queued_two po tid v p (set_worker q p) p_v (set_worker q_v p_v)); [done..|].
      unfold local_view. simpl.
      trans ((worker_view (worker p_v) ++ worker_view (worker p)) ++
        option_list (slot p_v) ++ option_list (slot p)); [solve_Permutation|].
      rewrite Hp. solve_Permutation.
  - injection Hs as <- <-. exists p. split; [|done].
    split; auto using others_refl.
Qed.

(** Whether the next thing a thread does in the end is to look into the injector,
    or to tell somebody to. *)
Definition attends (s : Sleepers) (tid : nat) (pc : Pc (T:=T)) : bool :=
  match pc with
  | Wait WUnlock => true
  | Wait WAsleep => bool_decide (tid ∉ wake s)
  | Wait _ => false
  | StealLocal _ _ retry => retry
  | Notify None NUnlock => false
  | Scheduling None _ => false
  | _ => true
  end.

(** Whether the thread is a worker of the pool. *)
Definition is_worker (pc : Pc (T:=T)) : bool :=
  match pc with
  | Scheduling None _ | Notify None _ => false
  | _ => true
  end.

Definition searching (pc : Pc (T:=T)) : bool :=
  match pc with Notify _ _ | Wait _ => false | _ => true end.

(** All there is to say of a step outside [notify_one] and [wait]. *)
Record Searched (tid : nat) (pc : Pc (T:=T)) po (pc' : option (Pc (T:=T))) po'
    (ev : list (Event T)) : Prop := {
  se_sleepers : sleepers po' = sleepers po;
  se_neutral : is_at (negb ∘ neutral) pc' = 0;
  se_worker : if pc' is Some pc' then is_worker pc' = is_worker pc else is_worker pc = false;
  se_queued : scheduled ev ++ queued po ≡ₚ started ev ++ queued po';
  se_others : others_robbed tid po po';
  se_own p : processors po !! tid = Some p → local_ok pc p → processor_wf p →
    ∃ p', processors po' !! tid = Some p' ∧ processor_wf p' ∧
      ∀ pc'', pc' = Some pc'' → local_ok pc'' p';
  se_work : injector_view (injector po') ≠ [] →
    is_at (attends (sleepers po) tid) pc' = 0 →
    attends (sleepers po) tid pc = false ∧ injector_view (injector po) ≠ []
}.

Lemma search_order_ok tid po p order po' ev :
  processors po !! tid = Some p → search_order tid po = Done ((order, po'), ev) →
  ev = [] ∧ ∃ rng', po' = set_processor tid (mkProcessor (worker p) (slot p) (slot_runs p) rng') po ∧
    ((rng p < u32_modulus)%N → (rng' < u32_modulus)%N).
Proof.
  intros Ht Hs. unfold search_order in Hs. rewrite Ht in Hs.
  pose proof (random_le (N.of_nat (length (processors po)) mod u32_modulus) (rng p)) as Hr.
  destruct (random _ _) as [start rng']. destruct (_ <=? _); [|discriminate].
  apply eff_ret_done in Hs as [Hs ->]. simplify_eq. split; [done|].
  exists rng'. split; [done|]. intros Hlt. apply Hr; [done|]. by apply N.mod_lt.
Qed.

(** The order of the search does not matter to what follows. *)
Lemma queued_same_view po tid p p' :
  processors po !! tid = Some p → local_view p' = local_view p →
  queued (set_processor tid p' po) ≡ₚ queued po.
Proof.
  intros Ht Hv. symmetry. apply (queued_processor po tid p p' [] []); [done|].
  by rewrite Hv.
Qed.

(** A task was found: it runs. *)
Lemma searched_run tid pc po t po1 pc' po' ev :
  run_task t po1 = Done (Goes pc' po', ev) → is_worker pc = true →
  sleepers po1 = sleepers po → queued po ≡ₚ [t] ++ queued po1 → others_robbed tid po po1 →
  (∀ p, processors po !! tid = Some p → processor_wf p →
    ∃ p', processors po1 !! tid = Some p' ∧ processor_wf p') →
  Searched tid pc po pc' po' ev.
Proof.
  intros Hr Hw Hs Hq Ho Hp. unfold run_task in Hr.
  apply eff_bind_done in Hr as ([] & w1 & w2 & He & Hr & ->).
  unfold emit in He. injection He as <-. apply eff_ret_done in Hr as [[= <- <-] ->].
  split; simpl; [done|done|done|exact Hq|done| |discriminate].
  intros p Ht _ Hwf. destruct (Hp p Ht Hwf) as (p' & Ht' & Hwf').
  exists p'. split_and!; [done|done|]. by intros pc'' [= <-].
Qed.

(** Nothing was found where it was sought. *)
Lemma searched_move tid pc po pc1 po' :
  is_worker pc1 = is_worker pc → neutral pc1 = true →
  sleepers po' = sleepers po → queued po ≡ₚ queued po' → others_robbed tid po po' →
  (∀ p, processors po !! tid = Some p → local_ok pc p → processor_wf p →
    ∃ p', processors po' !! tid = Some p' ∧ processor_wf p' ∧ local_ok pc1 p') →
  (injector_view (injector po') ≠ [] → attends (sleepers po) tid pc1 = false →
    attends (sleepers po) tid pc = false ∧ injector_view (injector po) ≠ []) →
  Searched tid pc po (Some pc1) po' [].
Proof.
  intros Hw Hn Hs Hq Ho Hp Hi. split; simpl; [done|by rewrite Hn|done|done|done| |].
  - intros p Ht Hok Hwf. destruct (Hp p Ht Hok Hwf) as (p' & Ht' & Hwf' & Hok').
    exists p'. split_and!; [done|done|]. by intros pc'' [= <-].
  - intros Hne Ha. apply Hi; [done|]. by destruct (attends _ _ _).
Qed.

Lemma set_processor_own tid p p' po :
  processors po !! tid = Some p → processors (set_processor tid p' po) !! tid = Some p'.
Proof. intros Ht. simpl. apply list_lookup_insert_eq. by eapply lookup_lt_Some. Qed.

Lemma search_find c tid f po pc' po' ev :
  thread_step c tid (Find f) po = Done (Goes pc' po', ev) →
  Searched tid (Find f) po pc' po' ev.
Proof.
  simpl. intros Hs. apply eff_bind_done in Hs as (p & w1 & w2 & Hu & Hs & ->).
  destruct (processors po !! tid) as [p0|] eqn:Ht; [|discriminate].
  apply eff_ret_done in Hu as [-> ->]. destruct (take_slot p) as [task p'] eqn:Hts.
  destruct (take_slot_view _ _ _ Hts) as (Hv & Hw & Hr & Hk).
  pose proof (take_slot_wf _ _ _ Hts) as Hwf.
  pose proof (queued_processor po tid p p' (option_list task) [] Ht ltac:(by rewrite Hv)) as Hq.
  pose proof (set_processor_own tid p p' po Ht) as Hp'.
  destruct task as [task|].
  - eapply searched_run; [exact Hs|done|done|exact Hq|by eapply others_own|].
    intros q Hq1 Hwf1. exists p'. simplify_eq. split; [exact Hp'|by apply Hwf].
  - apply eff_ret_done in Hs as [[= <- <-] ->]. apply searched_move; simpl; [done..|exact Hq| | |done].
    + by eapply others_own.
    + intros q Hq1 Hok Hwf1. exists p'. simplify_eq. destruct Hk as (K1 & K2 & K3).
      split_and!; [exact Hp'|by apply Hwf|done|]. rewrite K2. auto.
Qed.

Lemma search_pop c tid f po pc' po' ev :
  thread_step c tid (Pop f) po = Done (Goes pc' po', ev) →
  Searched tid (Pop f) po pc' po' ev.
Proof.
  simpl. intros Hs. apply eff_bind_done in Hs as (p & w1 & w2 & Hu & Hs & ->).
  destruct (processors po !! tid) as [p0|] eqn:Ht; [|discriminate].
  apply eff_ret_done in Hu as [-> ->]. destruct (worker_pop (worker p)) as [task q] eqn:Hts.
  destruct (worker_pop_view _ _ _ Hts) as (Hv & Hn).
  pose proof (queued_processor po tid p (set_worker q p) (option_list task) [] Ht) as Hq.
  unfold local_view at 1 2 in Hq. simpl in Hq. rewrite Hv in Hq.
  specialize (Hq ltac:(solve_Permutation)).
  pose proof (set_processor_own tid p (set_worker q p) po Ht) as Hp'.
  destruct task as [task|].
  - eapply searched_run; [exact Hs|done|done|exact Hq|by eapply others_own|].
    intros q1 Hq1 Hwf1. exists (set_worker q p). simplify_eq. by split; [exact Hp'|].
  - apply eff_ret_done in Hs as [[= <- <-] ->]. apply searched_move; simpl; [done..|exact Hq| | |done].
    + by eapply others_own.
    + intros q1 Hq1 [O1 O2] Hwf1. exists (set_worker q p). simplify_eq.
      split_and!; [exact Hp'|done|done|done|]. by apply Hn.
Qed.

Lemma search_global c tid f po pc' po' ev :
  thread_step c tid (StealGlobal f) po = Done (Goes pc' po', ev) →
  Searched tid (StealGlobal f) po pc' po' ev.
Proof.
  simpl. intros Hs. destruct (steal_global tid po) as [r po1] eqn:Hg.
  destruct (processors po !! tid) as [p|] eqn:Ht.
  2:{ unfold steal_global in Hg. rewrite Ht in Hg. injection Hg as <- <-.
      unfold search_order in Hs. rewrite Ht in Hs. discriminate. }
  destruct (steal_global_ok _ _ _ _ _ Ht Hg) as (p1 & [Ho (Z1 & Z2 & Z3) Hw Hsl Hot Hq Hi] & He).
  destruct r as [|task|].
  2:{ eapply searched_run; [exact Hs|done|done|exact Hq|done|].
      intros q1 Hq1 Hwf1. exists p1. simplify_eq. unfold processor_wf. by rewrite Z2, Z3. }
  all: apply eff_bind_done in Hs as ([order po2] & w1 & w2 & Hso & Hs & ->);
    destruct (search_order_ok _ _ _ _ _ _ Ho Hso) as (-> & rng' & -> & Hrng);
    apply eff_ret_done in Hs as [[= <- <-] ->];
    apply searched_move; simpl; [done|done|done| | | |];
    [rewrite (queued_same_view _ _ _ _ Ho) by done; exact Hq
    |eapply others_trans; [exact Hot|by eapply others_own]
    |intros q1 Hq1 (O1 & O2 & O3) [W1 W2]; eexists; split; [by eapply set_processor_own|]; simplify_eq;
     unfold processor_wf; simpl; rewrite Z1, Z2, Hw, Z3 in *; auto
    |try done].
  intros Hne. by rewrite He in Hne.
Qed.

Lemma not_found_cases f :
  not_found (T:=T) f = Find (S f) ∨ not_found (T:=T) f = Wait WLock ∧ 1 ≤ f.
Proof.
  unfold not_found, YIELDS, SLEEPS. destruct (Nat.leb_spec (S f) 3); [by left|].
  destruct (Nat.leb_spec (S f) (3 + 1)); [by left|]. right. split; [done|]. lia.
Qed.

Lemma search_local c tid f order retry po pc' po' ev :
  thread_step c tid (StealLocal f order retry) po = Done (Goes pc' po', ev) →
  is_Some (processors po !! tid) →
  Searched tid (StealLocal f order retry) po pc' po' ev.
Proof.
  intros Hs [p Ht]. destruct order as [|v order]; simpl in Hs.
  - destruct retry; apply eff_ret_done in Hs as [[= <- <-] ->].
    + apply searched_move; simpl; try done; eauto using others_refl.
    + destruct (not_found_cases f) as [->|[-> Hf]]; apply searched_move; simpl; try done;
        try apply others_refl; intros q Hq (O1 & O2 & O3) Hwf; exists q; auto.
  - destruct (steal_from tid v po) as [r po1] eqn:Hg.
    destruct (steal_from_ok _ _ _ _ _ _ Ht Hg) as (p1 & [Ho (Z1 & Z2 & Z3) Hw Hsl Hot Hq Hi] & He).
    destruct r as [|task|].
    2:{ eapply searched_run; [exact Hs|done|done|exact Hq|done|].
        intros q1 Hq1 Hwf1. exists p1. simplify_eq. unfold processor_wf. by rewrite Z2, Z3. }
    all: apply eff_ret_done in Hs as [[= <- <-] ->];
      apply searched_move; simpl; [done|done|done|exact Hq|exact Hot| |rewrite He; done];
      intros q1 Hq1 (O1 & O2 & O3) [W1 W2]; exists p1; simplify_eq;
      unfold processor_wf; rewrite Z1, Z2, Hw, Z3 in *; auto.
Qed.

Lemma search_schedule c tid h t po pc' po' ev :
  thread_step c tid (Scheduling h t) po = Done (Goes pc' po', ev) →
  (h = None → processors po !! tid = None) →
  Searched tid (Scheduling h t) po pc' po' ev.
Proof.
  intros Hs Hh. unfold thread_step in Hs. apply eff_bind_done in Hs as ([] & w1 & w2 & He & Hs & ->).
  unfold emit in He. injection He as <-.
  destruct (schedule_push tid t po) as [notify po1] eqn:Hp.
  apply eff_ret_done in Hs as [[= <- <-] ->]. unfold schedule_push in Hp.
  destruct (processors po !! tid) as [p|] eqn:Ht.
  - destruct h as [h|]; [|by specialize (Hh eq_refl)].
    destruct (slot p) as [task|] eqn:Hsl; injection Hp as <- <-; simpl.
    + set (p1 := set_worker _ _).
      split; simpl; [done..| |by eapply others_own| |done].
      * apply (queued_processor po tid p p1 [] [t] Ht). unfold local_view. simpl.
        rewrite Hsl, worker_push_spec. simpl. solve_Permutation.
      * intros q Hq _ Hwf. exists p1. simplify_eq.
        split_and!; [by eapply set_processor_own|done|]. by intros pc'' [= <-].
    + set (p1 := mkProcessor _ _ _ _).
      split; simpl; [done..| |by eapply others_own| |done].
      * apply (queued_processor po tid p p1 [] [t] Ht). unfold local_view. simpl.
        rewrite Hsl. simpl. solve_Permutation.
      * intros q Hq _ Hwf. exists p1. simplify_eq.
        split_and!; [by eapply set_processor_own|done|]. by intros pc'' [= <-].
  - injection Hp as <- <-. split; simpl; [done|done|by destruct h| | | |].
    + apply (queued_injector po _ [t]). rewrite injector_push_spec. solve_Permutation.
    + by split; [|intros j q Hj Hq; exists q; auto using robbed_refl].
    + intros q Hq. congruence.
    + by destruct h.
Qed.

(** Every step outside [notify_one] and [wait]. *)
Lemma search_step c tid pc po pc' po' ev :
  searching pc = true → (is_worker pc = true → is_Some (processors po !! tid)) →
  (is_worker pc = false → processors po !! tid = None) →
  thread_step c tid pc po = Done (Goes pc' po', ev) → Searched tid pc po pc' po' ev.
Proof.
  intros Hpc Hw Ho Hs. destruct pc as [f|f|f|f order retry|t|h t|h n|w]; try discriminate Hpc.
  - by eapply search_find.
  - by eapply search_pop.
  - by eapply search_global.
  - eapply search_local; [exact Hs|auto].
  - apply eff_ret_done in Hs as [[= <- <-] ->]. apply searched_move; simpl; try done.
    + apply others_refl.
    + intros p Hp _ Hwf. exists p. split_and!; [done..|]. intros. lia.
  - eapply search_schedule; [exact Hs|]. intros ->. auto.
Qed.
End Searching.

(** * The invariant *)

Section Invariant.
Context {Q I T : Type} `{DequeLaws Q I T}.
Implicit Types (po : Pool Q I T) (th : gmap nat (Pc (T:=T))) (s : System (Q:=Q) (I:=I) (T:=T)).

(** There is a notification, or a thread that will look for work. *)
Definition witness (sl : Sleepers) th : Prop :=
  notified sl = true ∨ ∃ tid pc, th !! tid = Some pc ∧ attends sl tid pc = true.

Record Inv (n : nat) s : Prop := {
  inv_len : length (processors (pool s)) = n;
  inv_wf tid p : processors (pool s) !! tid = Some p → processor_wf p;
  inv_present tid : tid < n → is_Some (threads s !! tid);
  inv_kind tid pc : threads s !! tid = Some pc → is_worker pc = true ↔ tid < n;
  inv_sleep : SleepOk (sleepers (pool s)) (threads s);
  inv_local tid pc p : threads s !! tid = Some pc → processors (pool s) !! tid = Some p →
    local_ok pc p;
  inv_work : injector_view (injector (pool s)) ≠ [] → witness (sleepers (pool s)) (threads s);
  inv_log : scheduled (log s) ≡ₚ started (log s) ++ queued (pool s)
}.

Lemma scheduled_app (l l' : list (Event T)) : scheduled (l ++ l') = scheduled l ++ scheduled l'.
Proof. apply omap_app. Qed.
Lemma started_app (l l' : list (Event T)) : started (l ++ l') = started l ++ started l'.
Proof. apply omap_app. Qed.

Lemma log_step (l ev : list (Event T)) q q' :
  scheduled l ≡ₚ started l ++ q → scheduled ev ++ q ≡ₚ started ev ++ q' →
  scheduled (l ++ ev) ≡ₚ started (l ++ ev) ++ q'.
Proof.
  intros Hl He. rewrite scheduled_app, started_app, Hl.
  trans (started l ++ scheduled ev ++ q); [solve_Permutation|]. rewrite He. solve_Permutation.
Qed.

(** The threads [0..n] are the workers, wherever they are. *)
Lemma present_set n th tid pc (pc' : option (Pc (T:=T))) :
  (∀ tid, tid < n → is_Some (th !! tid)) →
  (∀ tid pc, th !! tid = Some pc → is_worker pc = true ↔ tid < n) →
  th !! tid = Some pc →
  (if pc' is Some pc' then is_worker pc' = is_worker pc else is_worker pc = false) →
  (∀ t, t < n → is_Some (set_op tid pc' th !! t)) ∧
  (∀ t q, set_op tid pc' th !! t = Some q → is_worker q = true ↔ t < n).
Proof.
  intros Hp Hk Ht Hpc. split; intros t; destruct (decide (t = tid)) as [->|Hne];
    rewrite ?set_op_eq, ?set_op_ne by done; [| |intros q|intros q]; eauto.
  - intros Hlt. destruct pc' as [pc'|]; [by eexists|]. apply (Hk _ _ Ht) in Hlt. congruence.
  - intros ->. rewrite Hpc. by apply Hk.
Qed.

(** The witness is another thread, or the step leaves one. *)
Lemma witness_set (sl sl' : Sleepers) th tid pc (pc' : option (Pc (T:=T))) :
  witness sl th → th !! tid = Some pc → (∀ t, t ≠ tid → t ∈ wake sl' → t ∈ wake sl) →
  (notified sl = true ∨ attends sl tid pc = true → witness sl' (set_op tid pc' th)) →
  witness sl' (set_op tid pc' th).
Proof.
  intros [Hn|(t & q & Hq & Ha)] Ht Hw Hstep; [by apply Hstep; left|].
  destruct (decide (t = tid)) as [->|Hne]; [apply Hstep; right; congruence|].
  right. exists t, q. rewrite set_op_ne by done. split; [done|].
  destruct q as [| | | | | | |[]]; try done. simpl in *.
  apply bool_decide_eq_true in Ha. apply bool_decide_eq_true. auto.
Qed.

Lemma witness_at (sl : Sleepers) th tid pc :
  attends sl tid pc = true → witness sl (set_op tid (Some pc) th).
Proof. intros Ha. right. exists tid, pc. by rewrite set_op_eq. Qed.

Lemma exec_initial_Inv seeds : good_seeds seeds → Inv (length seeds) (initial seeds).
Proof.
  intros (Hne & Hlen & Hseeds).
  assert (∀ tid pc, threads (initial seeds) !! tid = Some pc ↔ pc = Find 0 ∧ tid < length seeds)
    as Hth.
  { intros tid pc. simpl. rewrite <- elem_of_list_to_map.
    - rewrite list_elem_of_fmap. setoid_rewrite elem_of_seq. split.
      + intros (t & [= -> ->] & Hlt). split; [done|lia].
      + intros [-> Hlt]. exists tid. split; [done|lia].
    - rewrite <- list_fmap_compose. simpl. rewrite list_fmap_id. apply NoDup_seq. }
  assert (∀ (P : Pc (T:=T) → bool), P (Find 0) = false → count P (threads (initial seeds)) = 0)
    as Hc.
  { intros P HP. destruct (count P (threads (initial seeds))) eqn:He; [done|].
    destruct (count_ex P (threads (initial seeds))) as (t & pc & Ht & HP'); [lia|].
    apply Hth in Ht as [-> _]. congruence. }
  split; unfold initial at 1; cbn [pool threads log].
  - simpl. apply length_fmap.
  - intros tid p Hp. simpl in Hp. rewrite list_lookup_fmap in Hp.
    destruct (seeds !! tid) as [seed|] eqn:Hs; [|done]. injection Hp as <-.
    split; simpl; [by eapply Forall_lookup in Hseeds|done].
  - intros tid Hlt. exists (Find 0). by apply Hth.
  - intros tid pc [-> Hlt]%Hth. done.
  - split; rewrite ?Hc by done; simpl; try done.
  - intros tid pc p [-> _]%Hth _. simpl. lia.
  - intros Hi. simpl in Hi. by rewrite injector_new_spec in Hi.
  - unfold queued, local_view. simpl. rewrite injector_new_spec. simpl.
    clear. induction seeds as [|x l IH]; simpl; [done|]. by rewrite worker_new_spec.
Qed.

(** All there is to say of a step of [notify_one] and [wait]. *)
Record Waited (tid : nat) (pc : Pc (T:=T)) po (pc' : option (Pc (T:=T))) po' th : Prop := {
  wa_injector : injector po' = injector po;
  wa_processors : processors po' = processors po;
  wa_worker : if pc' is Some pc' then is_worker pc' = is_worker pc else is_worker pc = false;
  wa_local p : local_ok pc p → ∀ pc'', pc' = Some pc'' → local_ok pc'' p;
  wa_wake t : t ≠ tid → t ∈ wake (sleepers po') → t ∈ wake (sleepers po);
  wa_work : notified (sleepers po) = true ∨ attends (sleepers po) tid pc = true →
    witness (sleepers po') (set_op tid pc' th)
}.

Lemma notify_waited c tid h n po pc' po' ev th :
  SleepOk (sleepers po) th → th !! tid = Some (Notify h n) →
  notify_step c tid h n po = Done (Goes pc' po', ev) →
  ev = [] ∧ Waited tid (Notify h n) po pc' po' th.
Proof.
  intros Hs Ht Hrun. destruct n; simpl in Hrun.
  - apply eff_ret_done in Hrun as [Hrun ->]. split; [done|].
    destruct (notified (sleepers po)) eqn:Hn; simplify_eq; split; simpl;
      try (by destruct h); try (by left).
    + intros p _ pc'' Hpc. by destruct h; simplify_eq/=.
    + by intros p _ pc'' [= <-].
    + intros _. apply witness_at. by destruct h.
  - apply eff_ret_done in Hrun as [(Ho & -> & ->)%lock_step_goes ->].
    split; [done|]. split; simpl; try (by destruct h).
    + by intros p _ pc'' [= <-].
    + intros _. apply witness_at. by destruct h.
  - destruct (N.ltb_spec 0 (sleep (sleepers po))) as [Hlt|Hge].
    + rewrite usize_sub_ok in Hrun by lia. rewrite eff_bind_Done in Hrun.
      apply eff_ret_done in Hrun as [[= <- <-] ->]. split; [done|].
      split; simpl; try (by destruct h).
      * by intros p _ pc'' [= <-].
      * intros _. apply witness_at. by destruct h.
    + apply eff_ret_done in Hrun as [[= <- <-] ->]. split; [done|].
      split; simpl; try (by destruct h).
      * by intros p _ pc'' [= <-].
      * intros _. apply witness_at. by destruct h.
  - destruct (decide (wake (sleepers po) = ∅)) as [He|Hne].
    { exfalso. pose proof (exec_counts_set th tid None) as Hc. rewrite Ht in Hc. simpl in Hc.
      destruct Hs as [S1 S2 _ _ _]. rewrite He, size_empty in S2.
      destruct (sleep_owner _); lia. }
    destruct (decide (c ∈ wake (sleepers po))) as [Hc|Hc];
      apply eff_ret_done in Hrun as [Hrun ->]; simplify_eq. split; [done|].
    split; simpl; try (by destruct h).
    + by intros p _ pc'' [= <-].
    + intros t _. set_solver.
    + intros _. right. exists c, (Wait WAsleep).
      pose proof (sleep_asleep _ _ Hs c Hc) as Hac.
      split; [rewrite lookup_insert_ne; [done|congruence]|].
      apply bool_decide_eq_true. set_solver.
  - apply eff_ret_done in Hrun as [[= <- <-] ->]. split; [done|].
    split; simpl; try (by destruct h).
    + by intros p _ pc'' [= <-].
    + by left.
  - apply eff_ret_done in Hrun as [[= <- <-] ->]. split; [done|].
    split; simpl; try (by destruct h).
    + intros p _ pc'' Hpc. by destruct h; simplify_eq/=.
    + intros [Hn|Ha]; [by left|]. destruct h; [|done]. by apply witness_at.
Qed.

Lemma wait_waited tid w po pc' po' ev th :
  wait_step tid w po = Done (Goes pc' po', ev) →
  ev = [] ∧ Waited tid (Wait w) po pc' po' th.
Proof.
  intros Hrun. destruct w; simpl in Hrun.
  - apply eff_ret_done in Hrun as [(Ho & -> & ->)%lock_step_goes ->].
    split; [done|]. split; simpl; try done.
    + by intros p ? pc'' [= <-].
    + intros [Hn|Ha]; [by left|done].
  - apply eff_ret_done in Hrun as [[= <- <-] ->]. split; [done|].
    destruct (notified (sleepers po)) eqn:Hn; split; simpl; try done;
      try (by intros p ? pc'' [= <-]).
    + intros _. by apply witness_at.
    + rewrite Hn. by intros [?|?].
  - apply eff_bind_done in Hrun as (k & w1 & w2 & Hk & Hrun & ->).
    apply usize_add_done in Hk as [-> ->]. apply eff_ret_done in Hrun as [[= <- <-] ->].
    split; [done|]. split; simpl; try done.
    + by intros p ? pc'' [= <-].
    + intros [Hn|Ha]; [by left|done].
  - apply eff_ret_done in Hrun as [[= <- <-] ->]. split; [done|].
    split; simpl; try done; [by intros p ? pc'' [= <-]|set_solver|].
    intros [Hn|Ha]; [by left|done].
  - destruct (decide (tid ∈ wake (sleepers po))) as [Hin|Hin];
      apply eff_ret_done in Hrun as [Hrun ->]; [discriminate|].
    apply lock_step_goes in Hrun as (Ho & -> & ->).
    split; [done|]. split; simpl; try done; [by intros p ? pc'' [= <-]|].
    intros _. by apply witness_at.
  - apply eff_ret_done in Hrun as [[= <- <-] ->]. split; [done|].
    split; simpl; try done.
    + intros p ? pc'' [= <-]. simpl. lia.
    + intros _. by apply witness_at.
Qed.

Lemma waited_Inv n po th l tid pc pc' po' :
  Inv n (mkSystem po th l) → th !! tid = Some pc → Waited tid pc po pc' po' th →
  SleepOk (sleepers po') (set_op tid pc' th) →
  Inv n (mkSystem po' (set_op tid pc' th) (l ++ [])).
Proof.
  intros [I1 I2 I3 I4 I5 I6 I7 I8] Ht [W1 W2 W3 W4 W5 W6] Hs. simpl in *.
  destruct (present_set n th tid pc pc' I3 I4 Ht W3) as [P1 P2].
  split; simpl; rewrite ?W1, ?W2, ?app_nil_r; try done.
  - intros t q p. destruct (decide (t = tid)) as [->|Hne].
    + rewrite set_op_eq. intros Hq Hp. eapply W4; [by eapply I6|done].
    + rewrite set_op_ne by done. apply I6.
  - intros Hi. eapply witness_set; [by apply I7|exact Ht|exact W5|exact W6].
  - rewrite I8. f_equiv. unfold queued. by rewrite W1, W2.
Qed.

Lemma searched_Inv n po th l tid pc pc' po' ev :
  Inv n (mkSystem po th l) → th !! tid = Some pc → neutral pc = true →
  Searched tid pc po pc' po' ev →
  Inv n (mkSystem po' (set_op tid pc' th) (l ++ ev)).
Proof.
  intros [I1 I2 I3 I4 I5 I6 I7 I8] Ht Hn [S1 S2 S3 S4 [S5 S5'] S6 S7]. simpl in *.
  destruct (present_set n th tid pc pc' I3 I4 Ht S3) as [P1 P2].
  assert (∀ t p', t ≠ tid → processors po' !! t = Some p' →
    ∃ p, processors po !! t = Some p ∧ robbed p p') as Hback.
  { intros t p' Hne Hp'. destruct (lookup_lt_is_Some_2 (processors po) t) as [p Hp];
      [rewrite <- S5; by eapply lookup_lt_Some|].
    destruct (S5' t p Hne Hp) as (p1 & Hp1 & Hr). exists p. split; [done|congruence]. }
  assert (∀ p', processors po' !! tid = Some p' →
    processor_wf p' ∧ ∀ pc'', pc' = Some pc'' → local_ok pc'' p') as Hown.
  { intros p' Hp'. destruct (lookup_lt_is_Some_2 (processors po) tid) as [p Hp];
      [rewrite <- S5; by eapply lookup_lt_Some|].
    destruct (S6 p Hp) as (p1 & Hp1 & ? & ?); [by eapply I6|by eapply I2|].
    by simplify_eq. }
  split; simpl; try done; rewrite ?S1; try congruence.
  - intros t p' Hp'. destruct (decide (t = tid)) as [->|Hne]; [by apply Hown|].
    destruct (Hback t p' Hne Hp') as (p & Hp & R1 & R2 & R3 & R4).
    unfold processor_wf. rewrite R2, R3. by eapply I2.
  - apply sleep_keep; [done| |done]. rewrite Ht. simpl. by rewrite Hn.
  - intros t q p' Hq Hp'. destruct (decide (t = tid)) as [->|Hne].
    + rewrite set_op_eq in Hq. by eapply Hown.
    + rewrite set_op_ne in Hq by done. destruct (Hback t p' Hne Hp') as (p & Hp & Hr).
      eapply robbed_local_ok; [done|by eapply I6].
  - intros Hi. destruct pc' as [pc'|]; [destruct (attends (sleepers po) tid pc') eqn:Ha|].
    { by apply witness_at. }
    all: destruct (S7 Hi) as [Hna Hi0]; [simpl; by rewrite ?Ha|].
    all: eapply witness_set; [by apply I7|exact Ht|done|]; intros [Hq|?]; [by left|congruence].
  - by eapply log_step.
Qed.

Lemma searching_neutral (pc : Pc (T:=T)) : searching pc = true → neutral pc = true.
Proof. by destruct pc. Qed.

Lemma exec_Inv_step n s s' : 0 < n → Inv n s → step s s' → Inv n s'.
Proof.
  intros Hn HI Hs. destruct Hs as [po th l c tid pc pc' po' ev Ht Hrun|po th l tid task t Ht
    |po th l tid t Hp Ht].
  - destruct (searching pc) eqn:Hpc.
    + eapply searched_Inv; [exact HI|exact Ht|by apply searching_neutral|].
      destruct HI as [I1 _ _ I4 _ _ _ _]. simpl in *. eapply search_step; [done| | |exact Hrun].
      * intros Hw. apply lookup_lt_is_Some_2. rewrite I1. by apply (I4 _ _ Ht).
      * intros Hw. apply lookup_ge_None_2. rewrite I1.
        destruct (decide (n ≤ tid)) as [|Hlt]; [done|].
        assert (is_worker pc = true) by (apply (I4 _ _ Ht); lia). congruence.
    + pose proof (inv_sleep _ _ HI) as Hsl. simpl in Hsl.
      destruct pc as [f|f|f|f order retry|t|h t|h n0|w]; try discriminate Hpc; simpl in Hrun.
      * destruct (notify_waited c tid h n0 po pc' po' ev th Hsl Ht Hrun) as [-> Hw].
        eapply waited_Inv; [done..|]. by eapply sleep_notify.
      * destruct (wait_waited tid w po pc' po' ev th Hrun) as [-> Hw].
        eapply waited_Inv; [done..|]. by eapply sleep_wait.
  - change (<[tid:=Scheduling (Some task) t]> th)
      with (set_op tid (Some (Scheduling (Some task) t)) th).
    rewrite <- (app_nil_r l). eapply searched_Inv; [exact HI|exact Ht|done|].
    apply searched_move; try done; [apply others_refl|].
    intros p Hp _ Hwf. by exists p.
  - destruct HI as [I1 I2 I3 I4 I5 I6 I7 I8]. simpl in *.
    assert (n ≤ tid) as Hge by (rewrite <- I1; by apply lookup_ge_None_1).
    split; simpl; try done.
    + intros t' Hlt. rewrite lookup_insert_ne by lia. auto.
    + intros t' q Hq. apply lookup_insert_Some in Hq as [[<- <-]|[Hne Hq]]; [|by apply I4].
      simpl. split; [done|lia].
    + apply (sleep_keep _ _ tid (Some (Scheduling None t))); [done|by rewrite Ht|done].
    + intros t' q p Hq Hp'. apply lookup_insert_Some in Hq as [[<- <-]|[Hne Hq]]; [done|].
      by eapply I6.
    + intros Hi. destruct (I7 Hi) as [|(t' & q & Hq & Ha)]; [by left|right].
      exists t', q. rewrite lookup_insert_ne; [done|congruence].
Qed.

Lemma exec_reachable_Inv seeds s : reachable seeds s → Inv (length seeds) s.
Proof.
  intros [Hg Hr]. assert (0 < length seeds) as Hn by (destruct Hg; destruct seeds; simpl; [done|lia]).
  revert Hr. apply (rtc_ind_r (λ s, Inv (length seeds) s)); [by apply exec_initial_Inv|].
  intros s1 s2 _ Hs HI. by eapply exec_Inv_step.
Qed.
End Invariant.

(** * What it implies *)

Section Consequences.
Context {Q I T : Type} `{DequeLaws Q I T}.
Implicit Types (po : Pool Q I T) (th : gmap nat (Pc (T:=T))) (s : System (Q:=Q) (I:=I) (T:=T)).

Lemma search_order_done tid po p :
  processors po !! tid = Some p → (rng p < u32_modulus)%N →
  ∃ r, search_order tid po = Done (r, []).
Proof.
  intros Hp Hr. unfold search_order. rewrite Hp.
  assert (N.of_nat (length (processors po)) mod u32_modulus < u32_modulus)%N as Hm
    by (by apply N.mod_lt).
  pose proof (random_le _ _ Hr Hm) as [Hle _]. destruct (random _ _) as [start rng']. simpl in Hle.
  pose proof (N.Div0.mod_le (N.of_nat (length (processors po))) u32_modulus) as Hml.
  rewrite (proj2 (Nat.leb_le _ _)) by lia. by eexists.
Qed.

(** At most as many threads sleep as there are. *)
Lemma sleep_bound n s tid :
  Inv n s → threads s !! tid = Some (Wait WCount) → (N.to_nat (sleep (sleepers (pool s))) < n).
Proof.
  intros HI Ht. pose proof (inv_sleep _ _ HI) as Hs.
  pose proof (exec_counts_set (threads s) tid None) as Hc. rewrite Ht in Hc. simpl in Hc.
  assert (N.to_nat (sleep (sleepers (pool s))) = size (wake (sleepers (pool s)))) as ->.
  { destruct Hs as [S1 S2 _ _ _]. destruct (sleep_owner _); lia. }
  assert (tid ∉ wake (sleepers (pool s))) as Hin by (by eapply asleep_ne).
  assert (size ({[tid]} ∪ wake (sleepers (pool s))) ≤ size (set_seq 0 n : gset nat)) as Hsz.
  { apply subseteq_size. intros t [->%elem_of_singleton|Hw]%elem_of_union; apply elem_of_set_seq.
    - by apply (inv_kind _ _ HI) in Ht as [? _]; split; [lia|simpl; auto].
    - apply (sleep_asleep _ _ Hs) in Hw. apply (inv_kind _ _ HI) in Hw as [? _].
      split; [lia|simpl; auto]. }
  rewrite size_with in Hsz by done. rewrite size_set_seq in Hsz. lia.
Qed.

Lemma search_goes n s tid (pc : Pc (T:=T)) c :
  Inv n s → threads s !! tid = Some pc → searching pc = true →
  ∃ pc' po' ev, thread_step c tid pc (pool s) = Done (Goes pc' po', ev).
Proof.
  intros HI Ht Hpc.
  assert (is_worker pc = true → ∃ p, processors (pool s) !! tid = Some p) as Hw.
  { intros Hw. apply (inv_kind _ _ HI _ _ Ht) in Hw. rewrite <- (inv_len _ _ HI) in Hw.
    by apply lookup_lt_is_Some in Hw as [p Hp]; exists p. }
  destruct pc as [f|f|f|f [|v order] []|t|h t|h n0|w]; try discriminate Hpc; simpl;
    try (destruct (Hw eq_refl) as [p Hp]; rewrite ?Hp); try by do 3 eexists.
  - rewrite unwrap_Some, eff_bind_ret. destruct (take_slot p) as [[]]; by do 3 eexists.
  - rewrite unwrap_Some, eff_bind_ret. destruct (worker_pop _) as [[]]; by do 3 eexists.
  - destruct (steal_global tid (pool s)) as [r po1] eqn:Hg.
    destruct (steal_global_ok _ _ _ _ _ Hp Hg) as (p1 & Hst & _).
    destruct (search_order_done tid po1 p1) as [[order po2] Ho]; [apply Hst| |].
    { destruct (stole_slot _ _ _ _ _ _ Hst) as (_ & _ & ->). by eapply inv_wf. }
    destruct r; rewrite ?Ho, ?eff_bind_Done; by do 3 eexists.
  - destruct (steal_from tid v (pool s)) as [[]]; by do 3 eexists.
  - destruct (steal_from tid v (pool s)) as [[]]; by do 3 eexists.
  - destruct (schedule_push tid t (pool s)); by do 3 eexists.
Qed.

(** A thread that does not need the lock moves on. *)
Lemma thread_goes n s tid pc :
  Inv n s → (N.of_nat n < usize_modulus)%N → threads s !! tid = Some pc →
  (match pc with
   | Notify _ NLock | Wait WLock => sleep_owner (sleepers (pool s)) = None
   | Wait WAsleep => sleep_owner (sleepers (pool s)) = None ∧ tid ∉ wake (sleepers (pool s))
   | _ => True
   end) →
  ∃ c pc' po' ev, thread_step c tid pc (pool s) = Done (Goes pc' po', ev).
Proof.
  intros HI Hn Ht Hl.
  assert (is_worker pc = true → ∃ p, processors (pool s) !! tid = Some p) as Hw.
  { intros Hw. apply (inv_kind _ _ HI _ _ Ht) in Hw. rewrite <- (inv_len _ _ HI) in Hw.
    by apply lookup_lt_is_Some in Hw as [p Hp]; exists p. }
  destruct (decide (searching pc = true)) as [Hpc|Hpc].
  { exists 0. by apply (search_goes n). }
  destruct pc as [f|f|f|f order retry|t|h t|h []|[]]; try (by destruct Hpc); simpl.
  - exists 0. by case_match; do 3 eexists.
  - exists 0. unfold lock_step. rewrite Hl. by do 3 eexists.
  - exists 0. destruct (N.ltb_spec 0 (sleep (sleepers (pool s)))).
    + rewrite usize_sub_ok, eff_bind_Done by lia. by do 3 eexists.
    + by do 3 eexists.
  - destruct (decide (wake (sleepers (pool s)) = ∅)) as [He|(c & Hc)%set_choose_L];
      [exists 0; by do 3 eexists|].
    exists c. rewrite decide_True by done. by do 3 eexists.
  - exists 0. by do 3 eexists.
  - exists 0. by do 3 eexists.
  - exists 0. unfold lock_step. rewrite Hl. by do 3 eexists.
  - exists 0. by do 3 eexists.
  - exists 0. pose proof (sleep_bound _ _ _ HI Ht).
    rewrite usize_add_ok, eff_bind_Done by lia. by do 3 eexists.
  - exists 0. by do 3 eexists.
  - exists 0. destruct Hl as [Ho Hin]. rewrite decide_False by done.
    unfold lock_step. rewrite Ho. by do 3 eexists.
  - exists 0. by do 3 eexists.
Qed.

(** No thread panics. *)
Lemma thread_returns n s tid pc c :
  Inv n s → (N.of_nat n < usize_modulus)%N → threads s !! tid = Some pc →
  ∃ r, thread_step c tid pc (pool s) = Done r.
Proof.
  intros HI Hn Ht. destruct (searching pc) eqn:Hpc.
  { destruct (search_goes n s tid pc c HI Ht Hpc) as (? & ? & ? & ->). by eexists. }
  destruct pc as [f|f|f|f order retry|t|h t|h []|[]]; try discriminate Hpc; simpl;
    try by eexists.
  - destruct (N.ltb_spec 0 (sleep (sleepers (pool s)))); [|by eexists].
    rewrite usize_sub_ok, eff_bind_Done by lia. by eexists.
  - repeat case_decide; by eexists.
  - pose proof (sleep_bound _ _ _ HI Ht). rewrite usize_add_ok, eff_bind_Done by lia. by eexists.
Qed.

Definition holds (pc : Pc (T:=T)) : bool :=
  at_count pc || at_park pc || at_wake pc || at_store pc || at_rest pc.

(** The lock is free, or whoever holds it moves on. *)
Lemma lock_holder n s :
  Inv n s → sleep_owner (sleepers (pool s)) = None ∨
  ∃ tid pc, threads s !! tid = Some pc ∧ holds pc = true.
Proof.
  intros HI. pose proof (sleep_lock _ _ (inv_sleep _ _ HI)) as Hl.
  destruct (sleep_owner _) as [o|]; [right|by left].
  assert (∀ P : Pc (T:=T) → bool, (∀ pc, P pc = true → holds pc = true) → 1 ≤ count P (threads s) →
    ∃ tid pc, threads s !! tid = Some pc ∧ holds pc = true) as Hex.
  { intros P HP Hc. destruct (count_ex P _ Hc) as (tid & pc & Ht & Hpc). eauto. }
  assert (1 ≤ count at_count (threads s) ∨ 1 ≤ count at_park (threads s) ∨
    1 ≤ count at_wake (threads s) ∨ 1 ≤ count at_store (threads s) ∨ 1 ≤ count at_rest (threads s))
    as [Hc|[Hc|[Hc|[Hc|Hc]]]] by lia; (eapply Hex; [|exact Hc]); intros pc Hpc; unfold holds;
    rewrite Hpc, ?orb_true_r; done.
Qed.

(** As long as somebody is neither asleep nor outside, somebody moves on. *)
Lemma somebody_goes n s tid pc :
  Inv n s → (N.of_nat n < usize_modulus)%N → threads s !! tid = Some pc →
  ¬ (pc = Wait WAsleep ∧ tid ∈ wake (sleepers (pool s))) →
  ∃ tid pc c pc' po' ev, threads s !! tid = Some pc ∧
    thread_step c tid pc (pool s) = Done (Goes pc' po', ev).
Proof.
  intros HI Hn Ht Ha.
  assert (∀ tid pc, threads s !! tid = Some pc → holds pc = true → ∃ tid pc c pc' po' ev,
    threads s !! tid = Some pc ∧ thread_step c tid pc (pool s) = Done (Goes pc' po', ev)) as Hh.
  { intros t q Hq Hhq. exists t, q. destruct (thread_goes n s t q HI Hn Hq) as (c & ? & ? & ? & ?);
      [by destruct q as [| | | | | |? []|[]]|]. eauto 10. }
  destruct (lock_holder n s HI) as [Ho|(t & q & Hq & Hhq)]; [|by eapply Hh].
  exists tid, pc. destruct (thread_goes n s tid pc HI Hn Ht) as (c & ? & ? & ? & ?); [|eauto 10].
  destruct pc as [| | | | | |? []|[]]; try done. split; [done|]. intros Hin. by apply Ha.
Qed.

(** When everybody sleeps there is nothing to do. *)
Lemma all_asleep n s :
  Inv n s → 0 < n →
  (∀ tid pc, threads s !! tid = Some pc → pc = Wait WAsleep ∧ tid ∈ wake (sleepers (pool s))) →
  queued (pool s) = [].
Proof.
  intros HI Hn Hall. pose proof (inv_sleep _ _ HI) as Hs.
  assert (threads s !! 0 = Some (Wait WAsleep) ∧ 0 ∈ wake (sleepers (pool s))) as [Ht0 Hin0].
  { destruct (inv_present _ _ HI 0 Hn) as [pc Hpc]. destruct (Hall _ _ Hpc) as [-> ?]. done. }
  unfold queued. apply app_nil. split.
  - destruct (injector_view (injector (pool s))) eqn:Hi; [done|exfalso].
    destruct (inv_work _ _ HI) as [Hnot|(tid & pc & Ht & Ha)]; [by rewrite Hi| |].
    + destruct (sleep_quiet _ _ Hs Hnot) as (S1 & S2 & S3 & S4).
      pose proof (sleep_count _ _ Hs) as Hc. rewrite S1, S3, S4 in Hc.
      assert (size (wake (sleepers (pool s))) = 0) as Hz by (simpl in Hc; lia).
      apply size_empty_inv in Hz. set_solver.
    + destruct (Hall _ _ Ht) as [-> Hin]. simpl in Ha. by apply bool_decide_eq_true in Ha.
  - apply concat_nil_Forall, Forall_fmap, Forall_lookup_2. intros tid p Hp. simpl.
    assert (tid < n) as Hlt by (rewrite <- (inv_len _ _ HI); by eapply lookup_lt_Some).
    destruct (inv_present _ _ HI tid Hlt) as [pc Ht]. destruct (Hall _ _ Ht) as [-> _].
    destruct (inv_local _ _ HI _ _ _ Ht Hp) as [L1 L2]. unfold local_view. by rewrite L1, L2.
Qed.

(** * The functions are runs of the threads *)

Definition Local : Type := Pc (T:=T) * Pool Q I T * list (Event T).

(** The thread [tid] moves, and nobody else. *)
Inductive local_step (tid : nat) : Local → Local → Prop :=
| local_goes c pc po l pc' po' ev :
    thread_step c tid pc po = Done (Goes (Some pc') po', ev) →
    local_step tid (pc, po, l) (pc', po', l ++ ev).

Definition in_system (th : gmap nat (Pc (T:=T))) (tid : nat) (x : Local) : System :=
  let '(pc, po, l) := x in mkSystem po (<[tid:=pc]> th) l.

Lemma local_steps th tid x y :
  rtc (local_step tid) x y → rtc step (in_system th tid x) (in_system th tid y).
Proof.
  induction 1 as [|x y z Hs _ IH]; [done|]. eapply rtc_l; [|exact IH].
  destruct Hs as [c pc po l pc' po' ev Hs]. simpl.
  replace (<[tid:=pc']> th) with (set_op tid (Some pc') (<[tid:=pc]> th)) by (simpl; apply insert_insert_eq).
  eapply step_thread; [apply lookup_insert_eq|exact Hs].
Qed.

(** Where a search ends. *)
Definition outcome (f : nat) (task : option T) (l : list (Event T)) po : Local :=
  match task with
  | Some t => (Running t, po, l ++ [Started t])
  | None => (not_found f, po, l)
  end.

Lemma local_one c tid pc po l pc' po' ev y :
  thread_step c tid pc po = Done (Goes (Some pc') po', ev) →
  rtc (local_step tid) (pc', po', l ++ ev) y → rtc (local_step tid) (pc, po, l) y.
Proof. intros Hs Hr. eapply rtc_l; [by eapply local_goes|exact Hr]. Qed.

Lemma collect_runs tid f order retry po r po' l :
  steal_collect (steal_from tid <$> order) po = (r, po') →
  rtc (local_step tid) (StealLocal f order retry, po, l)
    (match r with
     | Success t => outcome f (Some t) l po'
     | Empty => (StealLocal f [] retry, po', l)
     | Retry => (StealLocal f [] true, po', l)
     end).
Proof.
  revert retry po r po' l. induction order as [|v order IH]; intros retry po r po' l Hr; csimpl in Hr.
  { rewrite steal_collect_nil in Hr. injection Hr as <- <-. apply rtc_refl. }
  rewrite steal_collect_cons in Hr. destruct (steal_from tid v po) as [r1 po1] eqn:Hv.
  destruct r1 as [|t|].
  - eapply (local_one 0); [simpl; rewrite Hv; reflexivity|]. rewrite app_nil_r. by apply IH.
  - injection Hr as <- <-. eapply (local_one 0); [simpl; rewrite Hv; reflexivity|apply rtc_refl].
  - destruct (steal_collect (steal_from tid <$> order) po1) as [r2 po2] eqn:Hc.
    injection Hr as <- <-.
    eapply (local_one 0); [simpl; rewrite Hv; reflexivity|]. rewrite app_nil_r.
    specialize (IH true _ _ _ l Hc). by destruct r2.
Qed.

Lemma others_runs tid f (r r2 : Steal T) po po1 po2 ev l :
  steal_global tid po = (r, po1) → (if r is Success _ then False else True) →
  steal_others tid (mret po1) = (r2, Done (po2, ev)) →
  ev = [] ∧ rtc (local_step tid) (StealGlobal f, po, l)
    (match r2 with
     | Success t => outcome f (Some t) l po2
     | Empty => (StealLocal f [] (if r is Retry then true else false), po2, l)
     | Retry => (StealLocal f [] true, po2, l)
     end).
Proof.
  intros Hg Hr Ho. unfold steal_others in Ho. rewrite eff_bind_ret in Ho.
  destruct (search_order tid po1) as [[[order po3] ev1]| |] eqn:Hs; [|done..].
  destruct (steal_collect (steal_from tid <$> order) po3) as [r3 po4] eqn:Hc.
  injection Ho as -> -> ->.
  assert (ev = []) as ->.
  { unfold search_order in Hs. destruct (processors po1 !! tid); [|done].
    destruct (random _ _) as [start rng']. destruct (_ <=? _); [|done].
    by apply eff_ret_done in Hs as [_ ->]. }
  split; [done|]. apply (collect_runs _ f _ (if r is Retry then true else false) _ _ _ l) in Hc.
  eapply (local_one 0 _ _ _ _ (StealLocal f order (if r is Retry then true else false))).
  - simpl. rewrite Hg. destruct r; try done; rewrite Hs, eff_bind_Done; reflexivity.
  - by rewrite app_nil_r.
Qed.

Lemma round_runs tid f po x ev l :
  steal_round tid po = Done (x, ev) →
  ev = [] ∧ rtc (local_step tid) (StealGlobal f, po, l)
    (match x with inl po' => (StealGlobal f, po', l) | inr (task, po') => outcome f task l po' end).
Proof.
  unfold steal_round. destruct (steal_global tid po) as [r po1] eqn:Hg.
  rewrite steal_or_else_spec. intros Hs.
  assert (∀ b po2, rtc (local_step tid) (StealLocal f [] b, po2, l)
    (if b : bool then (StealGlobal f, po2, l) else outcome f None l po2)) as Hend.
  { intros [] po2; (eapply (local_one 0); [reflexivity|]); rewrite app_nil_r; apply rtc_refl. }
  destruct r as [|t|].
  2:{ rewrite eff_bind_ret in Hs. apply eff_ret_done in Hs as [<- ->]. split; [done|].
      eapply (local_one 0); [simpl; rewrite Hg; reflexivity|]. apply rtc_refl. }
  all: destruct (steal_others tid (mret po1)) as [r2 [[po2 ev2]| |]] eqn:Ho; try done;
    destruct (others_runs tid f _ r2 po po1 po2 ev2 l Hg Logic.I Ho) as [-> Hrun];
    destruct r2 as [|t|]; apply eff_bind_done in Hs as (po3 & w1 & w2 & He & Hs & ->);
    injection He as <- <-; apply eff_ret_done in Hs as [<- ->]; (split; [done|]);
    first [exact Hrun | etrans; [exact Hrun|]; apply (Hend true) | etrans; [exact Hrun|]; apply (Hend false)].
Qed.

(** A search without interference is [find_runnable]. *)
Lemma find_runs fuel tid f po task po' ev l :
  find_runnable fuel tid po = Done ((task, po'), ev) →
  rtc (local_step tid) (Find f, po, l) (outcome f task l po').
Proof.
  unfold find_runnable. intros Hs.
  apply eff_bind_done in Hs as (p & w1 & w2 & Hu & Hs & ->).
  destruct (processors po !! tid) as [p0|] eqn:Hp; [|discriminate].
  apply eff_ret_done in Hu as [-> ->].
  destruct (take_slot p) as [[t|] p1] eqn:Hts.
  { apply eff_ret_done in Hs as [[= <- <-] ->].
    eapply (local_one 0); [simpl; rewrite Hp, unwrap_Some, eff_bind_ret, Hts; reflexivity|apply rtc_refl]. }
  eapply (local_one 0);
    [simpl; rewrite Hp, unwrap_Some, eff_bind_ret, Hts; reflexivity|rewrite app_nil_r].
  destruct (worker_pop (worker p1)) as [[t|] q] eqn:Hpop.
  { apply eff_ret_done in Hs as [[= <- <-] ->].
    eapply (local_one 0); [|apply rtc_refl].
    unfold thread_step. rewrite (set_processor_own _ _ _ _ Hp), unwrap_Some, eff_bind_ret, Hpop.
    reflexivity. }
  eapply (local_one 0).
  { unfold thread_step. rewrite (set_processor_own _ _ _ _ Hp), unwrap_Some, eff_bind_ret, Hpop.
    reflexivity. }
  rewrite app_nil_r. revert Hs. generalize (set_processor tid (set_worker q p1) (set_processor tid p1 po)).
  clear Hts Hpop Hp. revert w2. induction fuel as [|fuel IH]; intros w2 po1 Hs; [done|]. simpl in Hs.
  apply eff_bind_done in Hs as (x & w3 & w4 & Hr & Hs & ->).
  destruct (round_runs _ f _ _ _ l Hr) as [-> Hrun]. destruct x as [po2|[task' po2]].
  - etrans; [exact Hrun|]. by eapply IH.
  - apply eff_ret_done in Hs as [[= <- <-] ->]. exact Hrun.
Qed.

(** And a call of [schedule] without interference is [schedule]. *)
Lemma schedule_runs c tid task t po po' ev l :
  sleep_owner (sleepers po) = None →
  (if (0 <? sleep (sleepers po))%N then c ∈ wake (sleepers po) else True) →
  schedule c tid t po = Done (po', ev) →
  rtc (local_step tid) (Scheduling (Some task) t, po, l) (Running task, po', l ++ ev).
Proof.
  intros Ho Hc Hs. unfold schedule in Hs.
  apply eff_bind_done in Hs as ([] & w1 & w2 & He & Hs & ->).
  unfold emit in He. injection He as <-. destruct (schedule_push tid t po) as [notify po1] eqn:Hp.
  assert (sleepers po1 = sleepers po) as Hsl.
  { unfold schedule_push in Hp. destruct (processors po !! tid) as [p|]; [destruct (slot p)|];
      by injection Hp as <- <-. }
  eapply (local_one c _ _ _ _ (if notify then Notify (Some task) NLoad else Running task)).
  { unfold thread_step. rewrite Hp. by destruct notify. }
  rewrite app_nil_r, app_assoc. generalize (l ++ [Scheduled t]). intros l1.
  destruct notify; [|apply eff_ret_done in Hs as [<- ->]; rewrite app_nil_r; apply rtc_refl].
  apply eff_bind_done in Hs as (sl & w3 & w4 & Hn & Hs & ->). apply eff_ret_done in Hs as [<- ->].
  rewrite <- Hsl in Ho, Hc. clear Hsl Hp. destruct po1 as [i ps [o k wk b]]. simpl in *. subst o.
  unfold notify_one in Hn. simpl in Hn.
  destruct b.
  { apply eff_ret_done in Hn as [<- ->]. rewrite app_nil_r.
    eapply (local_one c); [reflexivity|]. rewrite app_nil_r. apply rtc_refl. }
  eapply (local_one c); [reflexivity|]. rewrite app_nil_r.
  eapply (local_one c); [reflexivity|]. rewrite app_nil_r.
  destruct (N.ltb_spec 0 k) as [Hk|Hk].
  - rewrite usize_sub_ok in Hn by lia. rewrite eff_bind_Done in Hn.
    apply eff_ret_done in Hn as [<- ->]. rewrite app_nil_r.
    eapply (local_one c);
      [simpl; rewrite (proj2 (N.ltb_lt _ _) Hk), usize_sub_ok, eff_bind_Done by lia; reflexivity|].
    rewrite app_nil_r. eapply (local_one c).
    { simpl. rewrite decide_False by set_solver. rewrite decide_True by done. reflexivity. }
    rewrite app_nil_r. eapply (local_one c); [reflexivity|]. rewrite app_nil_r. apply rtc_refl.
  - apply eff_ret_done in Hn as [<- ->]. rewrite app_nil_r.
    eapply (local_one c);
      [simpl; rewrite (proj2 (N.ltb_ge _ _) Hk); reflexivity|].
    rewrite app_nil_r. eapply (local_one c); [reflexivity|].
    rewrite app_nil_r. eapply (local_one c); [reflexivity|]. rewrite app_nil_r. apply rtc_refl.
Qed.

(** The attempts to steal succeed or find nothing, as they do when no other thread
    gets in the way. *)
Record uncontended : Prop := {
  uncontended_injector (i : I) (q : Q) : (injector_steal i q).1.1 ≠ Retry;
  uncontended_stealer (v q : Q) : (stealer_steal v q).1.1 ≠ Retry;
  uncontended_own (q : Q) : (stealer_steal_own q).1 ≠ Retry
}.

Lemma collect_done tid order po p r po' :
  processors po !! tid = Some p → steal_collect (steal_from tid <$> order) po = (r, po') →
  (∃ p', processors po' !! tid = Some p' ∧ rng p' = rng p) ∧ (uncontended → r ≠ Retry).
Proof.
  revert po p r. induction order as [|v order IH]; intros po p r Hp Hr; csimpl in Hr.
  { rewrite steal_collect_nil in Hr. injection Hr as <- <-. split; [by exists p|done]. }
  rewrite steal_collect_cons in Hr. destruct (steal_from tid v po) as [r1 po1] eqn:Hv.
  destruct (steal_from_ok _ _ _ _ _ _ Hp Hv) as (p1 & [Hp1 (_ & _ & Hrng) _ _ _ _ _] & _).
  assert (uncontended → r1 ≠ Retry) as Hu.
  { intros [_ U2 U3]. unfold steal_from in Hv. rewrite Hp in Hv.
    destruct (processors po !! v) as [p_v|]; [|by injection Hv as <- _].
    destruct (decide (v = tid)).
    - specialize (U3 (worker p)). destruct (stealer_steal_own (worker p)). by injection Hv as <- _.
    - specialize (U2 (worker p_v) (worker p)).
      destruct (stealer_steal (worker p_v) (worker p)) as [[] ?]. by injection Hv as <- _. }
  destruct r1 as [|t|].
  - destruct (IH _ _ _ Hp1 Hr) as [(p2 & ? & ?) ?]. split; [exists p2; split; congruence|done].
  - injection Hr as <- <-. split; [by exists p1|done].
  - destruct (steal_collect (steal_from tid <$> order) po1) as [r2 po2] eqn:Hc.
    injection Hr as <- <-. destruct (IH _ _ _ Hp1 Hc) as [(p2 & ? & ?) _].
    split; [exists p2; split; congruence|]. intros Hun. by destruct (Hu Hun).
Qed.

(** A round of the search returns. *)
Lemma steal_round_done tid p po :
  processors po !! tid = Some p → (rng p < u32_modulus)%N →
  ∃ x, steal_round tid po = Done (x, []) ∧
    match x with
    | inl po' => ¬ uncontended ∧
        ∃ p', processors po' !! tid = Some p' ∧ (rng p' < u32_modulus)%N
    | inr _ => True
    end.
Proof.
  intros Hp Hr. unfold steal_round. destruct (steal_global tid po) as [r po1] eqn:Hg.
  destruct (steal_global_ok _ _ _ _ _ Hp Hg) as (p1 & [Hp1 (_ & _ & Hrng) _ _ _ _ _] & _).
  assert (uncontended → r ≠ Retry) as Hu.
  { intros [U1 _ _]. unfold steal_global in Hg. rewrite Hp in Hg.
    specialize (U1 (injector po) (worker p)).
    destruct (injector_steal (injector po) (worker p)) as [[] ?]. by injection Hg as <- _. }
  destruct (search_order_done tid po1 p1 Hp1) as [[order po2] Ho]; [congruence|].
  destruct (search_order_ok _ _ _ _ _ _ Hp1 Ho) as (_ & rng' & -> & Hrng').
  assert (processors (set_processor tid (mkProcessor (worker p1) (slot p1) (slot_runs p1) rng') po1)
    !! tid = Some (mkProcessor (worker p1) (slot p1) (slot_runs p1) rng')) as Hp2
    by (by eapply set_processor_own).
  set (po2 := set_processor _ _ _) in *.
  destruct (steal_collect (steal_from tid <$> order) po2) as [r2 po3] eqn:Hc.
  destruct (collect_done _ _ _ _ _ _ Hp2 Hc) as [(p3 & Hp3 & Hr3) Hu2].
  assert (rng p3 < u32_modulus)%N as Hlt by (rewrite Hr3; simpl; apply Hrng'; congruence).
  assert (steal_others tid (mret po1) = (r2, Done (po3, []))) as Hso.
  { unfold steal_others. by rewrite eff_bind_ret, Ho, Hc. }
  rewrite steal_or_else_spec, Hso. destruct r as [|t|].
  - rewrite eff_bind_Done. destruct r2; eexists; (split; [reflexivity|]); [done|done|].
    split; [intros Hun; by destruct (Hu2 Hun)|eauto].
  - eexists. by split.
  - rewrite eff_bind_Done. destruct r2; eexists; (split; [reflexivity|]); try done;
      (split; [intros Hun; by destruct (Hu Hun)|eauto]).
Qed.

(** [find_runnable] does not panic, and it returns unless it has to try again. *)
Lemma find_runnable_returns fuel tid po p :
  processors po !! tid = Some p → processor_wf p →
  ((∃ r, find_runnable fuel tid po = Done (r, [])) ∨ find_runnable fuel tid po = OutOfFuel) ∧
  (uncontended → 1 ≤ fuel → ∃ r, find_runnable fuel tid po = Done (r, [])).
Proof.
  intros Hp Hwf. unfold find_runnable. rewrite Hp, unwrap_Some, eff_bind_ret.
  destruct (take_slot p) as [[t|] p1] eqn:Hts; [eauto|].
  destruct (take_slot_wf _ _ _ Hts Hwf) as [Hr _].
  destruct (worker_pop (worker p1)) as [[t|] q] eqn:Hpop; [eauto|].
  set (po1 := set_processor tid (set_worker q p1) (set_processor tid p1 po)).
  assert (processors po1 !! tid = Some (set_worker q p1)) as Hp1
    by (eapply set_processor_own; by eapply set_processor_own).
  change (rng p1) with (rng (set_worker q p1)) in Hr. revert Hp1 Hr.
  generalize po1 (set_worker q p1). clear Hts Hpop po1. induction fuel as [|fuel IH];
    intros po1 p2 Hp1 Hr; [split; [by right|intros _ ?; lia]|].
  destruct (steal_round_done tid p2 po1 Hp1 Hr) as (x & Hx & Hin). simpl. rewrite Hx, eff_bind_Done.
  destruct x as [po2|r]; [|eauto]. destruct Hin as [Hc (p3 & Hp3 & Hr3)].
  split; [by eapply IH|]. intros Hu. by destruct Hc.
Qed.

(** Whether the thread sleeps, and nobody has woken it. *)
Definition asleep s (tid : nat) (pc : Pc (T:=T)) : bool :=
  if pc is Wait WAsleep then bool_decide (tid ∈ wake (sleepers (pool s))) else false.

Lemma asleep_spec s tid pc :
  asleep s tid pc = true ↔ pc = Wait WAsleep ∧ tid ∈ wake (sleepers (pool s)).
Proof.
  unfold asleep. destruct pc as [| | | | | | |[]]; try (split; [done|by intros [? _]]).
  rewrite bool_decide_eq_true. naive_solver.
Qed.
End Consequences.

(** * The theorems *)

Section Theorems.
Context {Q I T : Type} `{DequeLaws Q I T}.
Implicit Types (s : System (Q:=Q) (I:=I) (T:=T)).

(** C14 No task waits while the executor sleeps.  A worker that is in
    [Sleepers::wait] has nothing in its slot and nothing in its queue; if there are
    tasks in the global queue, then a notification is kept for the next worker that
    wants to sleep, or some thread will look there before it sleeps or is about to
    notify; and whenever a task is queued anywhere, some thread can move.  (Condition
    variables that wake up for no reason are excluded: see
    [executor_spurious_wakeup].) *)
Theorem executor_no_lost_wakeup seeds s (Hr : reachable seeds s) :
  (∀ tid w p, threads s !! tid = Some (Wait w) → processors (pool s) !! tid = Some p →
     slot p = None ∧ worker_view (worker p) = []) ∧
  (injector_view (injector (pool s)) ≠ [] →
     notified (sleepers (pool s)) = true ∨
     ∃ tid pc, threads s !! tid = Some pc ∧ attends (sleepers (pool s)) tid pc = true) ∧
  (queued (pool s) ≠ [] → ∃ tid pc c pc' po' ev, threads s !! tid = Some pc ∧
     thread_step c tid pc (pool s) = Done (Goes pc' po', ev)).
Proof.
  pose proof (exec_reachable_Inv seeds s Hr) as HI. destruct Hr as [(Hne & Hlen & _) _].
  assert (0 < length seeds) as Hn by (destruct seeds; simpl; [done|lia]).
  split_and!; [by intros tid w p Ht Hp; apply (inv_local _ _ HI _ _ _ Ht Hp)|apply HI|].
  intros Hq. destruct (decide (map_Forall (λ tid pc, asleep s tid pc = true) (threads s))) as [Hall|Hex].
  - destruct Hq. eapply all_asleep; [done..|]. intros tid pc Ht. by apply asleep_spec, Hall.
  - apply map_not_Forall in Hex as (tid & pc & Ht & Ha); [|apply _].
    eapply somebody_goes; [done..|]. by rewrite <- asleep_spec.
Qed.

(** C15 No task is lost, and none runs more often than it is scheduled: the tasks
    that [schedule] was given are those that were started and those that are still
    in the queues and slots.  And no thread panics. *)
Theorem executor_keeps_tasks seeds s (Hr : reachable seeds s) :
  scheduled (log s) ≡ₚ started (log s) ++ queued (pool s) ∧
  ∀ tid pc c, threads s !! tid = Some pc → ∃ r, thread_step c tid pc (pool s) = Done r.
Proof.
  pose proof (exec_reachable_Inv seeds s Hr) as HI. destruct Hr as [(Hne & Hlen & _) _].
  split; [apply HI|]. intros tid pc c. by apply (thread_returns (length seeds)).
Qed.

(** The steps of the threads are those of the functions: a call of
    [find_runnable] or [schedule] that nobody interferes with is a run of the
    thread.  [find_runnable] does not panic, and if no attempt to steal has to be
    repeated it returns after one round. *)
Theorem executor_functions seeds s tid (Hr : reachable seeds s) :
  (∀ f, threads s !! tid = Some (Find f) →
     (∀ fuel, find_runnable fuel tid (pool s) ≠ Panic) ∧
     (uncontended → ∃ r, find_runnable 1 tid (pool s) = Done r) ∧
     ∀ fuel task po' ev, find_runnable fuel tid (pool s) = Done ((task, po'), ev) →
       rtc step s (in_system (threads s) tid (outcome f task (log s) po'))) ∧
  (∀ c task t po' ev, threads s !! tid = Some (Scheduling (Some task) t) →
     sleep_owner (sleepers (pool s)) = None →
     (if (0 <? sleep (sleepers (pool s)))%N then c ∈ wake (sleepers (pool s)) else True) →
     schedule c tid t (pool s) = Done (po', ev) →
     rtc step s (in_system (threads s) tid (Running task, po', log s ++ ev))).
Proof.
  pose proof (exec_reachable_Inv seeds s Hr) as HI.
  assert (∀ pc, threads s !! tid = Some pc → s = in_system (threads s) tid (pc, pool s, log s)) as Hs.
  { intros pc Ht. simpl. rewrite insert_id by done. by destruct s. }
  split.
  - intros f Ht.
    assert (is_Some (processors (pool s) !! tid)) as [p Hp].
    { apply lookup_lt_is_Some. rewrite (inv_len _ _ HI). by apply (inv_kind _ _ HI _ _ Ht). }
    pose proof (λ fuel, find_runnable_returns fuel tid (pool s) p Hp (inv_wf _ _ HI _ _ Hp)) as Hret.
    split_and!.
    + intros fuel Hpanic. destruct (Hret fuel) as [[[r Hd]|Ho] _]; congruence.
    + intros Hu. destruct (Hret 1) as [_ Hd]. destruct (Hd Hu) as [r ?]; [lia|]. eauto.
    + intros fuel task po' ev Hf. rewrite (Hs _ Ht) at 1. apply local_steps.
      by eapply find_runs.
  - intros c task t po' ev Ht Ho Hc Hsch. rewrite (Hs _ Ht) at 1. apply local_steps.
    by eapply schedule_runs.
Qed.
End Theorems.

(** * Runs, computed *)

Section Play.
Context {Q I T : Type} `{Deque Q I T}.

Inductive Move : Type :=
| Go (c tid : nat)            (* the thread [tid] takes a step *)
| Inside (tid : nat) (t : T)  (* the task that it runs calls [schedule] *)
| Outside (tid : nat) (t : T). (* a thread outside the pool does *)

Definition play (m : Move) (s : System (Q:=Q) (I:=I) (T:=T)) : option System :=
  match m with
  | Go c tid =>
      pc ← threads s !! tid;
      match thread_step c tid pc (pool s) with
      | Done (Goes pc' po', ev) => Some (mkSystem po' (set_op tid pc' (threads s)) (log s ++ ev))
      | _ => None
      end
  | Inside tid t =>
      pc ← threads s !! tid;
      match pc with
      | Running task =>
          Some (mkSystem (pool s) (<[tid:=Scheduling (Some task) t]> (threads s)) (log s))
      | _ => None
      end
  | Outside tid t =>
      match processors (pool s) !! tid, threads s !! tid with
      | None, None => Some (mkSystem (pool s) (<[tid:=Scheduling None t]> (threads s)) (log s))
      | _, _ => None
      end
  end.

Definition plays (ms : list Move) (s : System (Q:=Q) (I:=I) (T:=T)) : option System :=
  foldl (λ o m, o ≫= play m) (Some s) ms.

Lemma play_step m s s' : play m s = Some s' → step s s'.
Proof.
  destruct s as [po th l], m as [c tid|tid t|tid t]; simpl; intros Hp.
  - destruct (th !! tid) as [pc|] eqn:Ht; [|done]. simpl in Hp.
    destruct (thread_step c tid pc po) as [[[|pc' po'] ev]| |] eqn:Hs; try done.
    injection Hp as <-. by eapply step_thread.
  - destruct (th !! tid) as [[]|] eqn:Ht; try done. injection Hp as <-.
    by eapply step_task_schedules.
  - destruct (processors po !! tid) eqn:Hpr; [done|]. destruct (th !! tid) eqn:Ht; [done|].
    injection Hp as <-. by apply step_other_schedules.
Qed.

Lemma plays_steps ms s s' : plays ms s = Some s' → rtc step s s'.
Proof.
  unfold plays. revert s'. induction ms as [|m ms IH] using rev_ind; intros s' Hp.
  - injection Hp as <-. done.
  - rewrite foldl_snoc in Hp. destruct (foldl _ _ ms) as [s1|] eqn:Hf; [|done].
    eapply rtc_r; [by apply IH|by eapply play_step].
Qed.
End Play.

(** Queues that are lists; half of a queue is stolen. *)
Definition list_steal (src dst : list nat) : Steal nat * list nat * list nat :=
  match src with
  | [] => (Empty, [], dst)
  | t :: src => let k := Nat.div2 (length src) in (Success t, drop k src, dst ++ take k src)
  end.

Definition list_pop (q : list nat) : option nat * list nat :=
  match q with [] => (None, []) | t :: q => (Some t, q) end.

Definition list_or_else {S} (r : Steal nat) (f : S → Steal nat * S) (s : S) : Steal nat * S :=
  match r with
  | Success t => (Success t, s)
  | Empty => f s
  | Retry => let '(r', s') := f s in (if r' is Success t then Success t else Retry, s')
  end.

Fixpoint list_collect {S} (fs : list (S → Steal nat * S)) (s : S) : Steal nat * S :=
  match fs with
  | [] => (Empty, s)
  | f :: fs =>
      let '(r, s) := f s in
      match r with
      | Success t => (Success t, s)
      | Empty => list_collect fs s
      | Retry => let '(r', s') := list_collect fs s in
                 (if r' is Success t then Success t else Retry, s')
      end
  end.

#[global] Instance list_Deque : Deque (list nat) (list nat) nat := {
  worker_new_fifo := [];
  worker_push t q := q ++ [t];
  worker_pop := list_pop;
  injector_new := [];
  injector_push t i := i ++ [t];
  injector_steal := list_steal;
  stealer_steal := list_steal;
  stealer_steal_own q :=
    match list_pop q with (Some t, q) => (Success t, q) | (None, q) => (Empty, q) end;
  steal_or_else _ := list_or_else;
  steal_collect _ := list_collect
}.

Lemma list_steal_stolen src dst :
  let '(r, src', dst') := list_steal src dst in stolen r src src' dst dst'.
Proof.
  destruct src as [|t src]; simpl; [done|].
  exists (t :: take (Nat.div2 (length src)) src). simpl. rewrite take_drop. split; [done|].
  f_equiv. apply Permutation_app_comm.
Qed.

#[global] Instance list_DequeLaws : DequeLaws (list nat) (list nat) nat.
Proof.
  refine {| worker_view (q : list nat) := q; injector_view (i : list nat) := i |}; try done.
  - by intros [].
  - apply list_steal_stolen.
  - apply list_steal_stolen.
  - intros [|t q]; simpl; done.
Defined.

(** A run of two workers: a thread of the program schedules the task 7. *)
Definition a_run : System (Q:=list nat) (I:=list nat) (T:=nat) :=
  default (initial [1%N; 2%N]) (plays [Go 0 0; Go 0 0; Outside 5 7; Go 0 5] (initial [1%N; 2%N])).

Lemma a_run_reachable : reachable [1%N; 2%N] a_run.
Proof.
  split; [split_and!; [done|vm_compute; reflexivity|repeat constructor]|].
  apply (plays_steps [Go 0 0; Go 0 0; Outside 5 7; Go 0 5]). vm_compute. reflexivity.
Qed.

Lemma executor_no_lost_wakeup_witness :
  queued (pool a_run) = [7] ∧ ∃ tid pc c pc' po' ev, threads a_run !! tid = Some pc ∧
    thread_step c tid pc (pool a_run) = Done (Goes pc' po', ev).
Proof.
  assert (queued (pool a_run) = [7]) as Hq by (vm_compute; reflexivity).
  split; [exact Hq|]. destruct (executor_no_lost_wakeup _ _ a_run_reachable) as (_ & _ & Hw).
  apply Hw. rewrite Hq. discriminate.
Defined.

Lemma executor_keeps_tasks_witness :
  scheduled (log a_run) = [7] ∧ scheduled (log a_run) ≡ₚ started (log a_run) ++ queued (pool a_run).
Proof.
  split; [vm_compute; reflexivity|].
  exact (proj1 (executor_keeps_tasks _ _ a_run_reachable)).
Defined.

Lemma executor_functions_witness :
  ∃ task po', find_runnable 1 1 (pool a_run) = Done ((Some task, po'), []) ∧
    rtc step a_run (in_system (threads a_run) 1 (outcome 0 (Some task) (log a_run) po')).
Proof.
  destruct (executor_functions _ _ 1 a_run_reachable) as [Hf _].
  destruct (Hf 0) as (_ & _ & Hr); [vm_compute; reflexivity|].
  eexists _, _. split; [vm_compute; reflexivity|]. eapply (Hr 1). vm_compute. reflexivity.
Defined.

(** The condition variable wakes up for no reason, which its documentation
    allows: the count of sleepers stays one too high, the next notification goes to
    nobody, and a task waits while the only worker sleeps. *)
Definition search : list (Move (T:=nat)) := replicate 25 (Go 0 0).
Definition go_to_sleep : list (Move (T:=nat)) := replicate 4 (Go 0 0).

Definition sleeping : System (Q:=list nat) (I:=list nat) (T:=nat) :=
  default (initial [1%N]) (plays (search ++ go_to_sleep) (initial [1%N])).
Definition woken_up : System (Q:=list nat) (I:=list nat) (T:=nat) :=
  mkSystem (set_sleepers (set_wake (wake (sleepers (pool sleeping)) ∖ {[0]})
    (sleepers (pool sleeping))) (pool sleeping)) (threads sleeping) (log sleeping).
Definition moves_after : list (Move (T:=nat)) :=
  [Go 0 0; Go 0 0] ++ search ++ [Outside 5 7] ++ replicate 6 (Go 0 5) ++ go_to_sleep.
Definition stuck : System (Q:=list nat) (I:=list nat) (T:=nat) :=
  default woken_up (plays moves_after woken_up).

Example executor_spurious_wakeup :
  reachable [1%N] sleeping ∧ spurious_wakeup sleeping woken_up ∧ rtc step woken_up stuck ∧
  map_Forall (λ tid pc, asleep stuck tid pc = true) (threads stuck) ∧ queued (pool stuck) = [7].
Proof.
  split_and!.
  - split; [split_and!; [done|vm_compute; reflexivity|repeat constructor]|].
    apply (plays_steps (search ++ go_to_sleep)). vm_compute. reflexivity.
  - unfold woken_up. replace sleeping with
      (mkSystem (pool sleeping) (threads sleeping) (log sleeping)) at 1 by (by destruct sleeping).
    apply wakes_up. apply (bool_decide_unpack _). vm_compute. exact Logic.I.
  - apply (plays_steps moves_after). vm_compute. reflexivity.
  - apply (bool_decide_unpack _). vm_compute. exact Logic.I.
  - vm_compute. reflexivity.
Qed.
