(* ===== verification/Blocking.v ===== *)
(** The pool of threads for blocking tasks (src/src/task/spawn_blocking.rs): the
    loop of its threads, cut at the operations on the counter [SLEEPING] and on the
    channel, and the interleaving of any number of them with the callers of
    [spawn_blocking].  The channel is that of the crossbeam_channel crate. *)

From stdpp Require Import gmap fin_maps relations.
From S2P Require Import Prelude WakerClients.
Local Open Scope async_scope.

(** * [crossbeam_channel] *)

(** What the code uses of [unbounded]: [send] never blocks, and [recv] takes the
    next message, if there is one. *)
Class Unbounded (C T : Type) : Type := {
  unbounded : C;
  chan_send : T → C → C;
  chan_recv : C → option T * C
}.

(** Its documented behaviour. *)
Class UnboundedLaws (C T : Type) `{Unbounded C T} : Type := {
  chan_view : C → list T;
  unbounded_spec : chan_view unbounded = [];
  chan_send_spec t c : chan_view (chan_send t c) = chan_view c ++ [t];
  chan_recv_spec c : match chan_view c with
    | [] => (chan_recv c).1 = None ∧ chan_view (chan_recv c).2 = []
    | t :: q => (chan_recv c).1 = Some t ∧ chan_view (chan_recv c).2 = q
    end
}.

(** * The pool *)

(** [POOL] and [SLEEPING]. *)
Record Pool (C : Type) : Type := mkPool { channel : C; SLEEPING : N }.
Arguments mkPool {C}.
Arguments channel {C}.
Arguments SLEEPING {C}.

Section Blocking.
Context {C T : Type} `{Unbounded C T}.
Implicit Types (po : Pool C).

Definition set_channel (c : C) po : Pool C := mkPool c (SLEEPING po).
Definition set_sleeping (k : N) po : Pool C := mkPool (channel po) k.

(** [SLEEPING.fetch_add(1)] and [SLEEPING.fetch_sub(1)], with the value before. *)
Definition fetch_add po : N * Pool C := (SLEEPING po, set_sleeping (wrapping_add (SLEEPING po) 1) po).
Definition fetch_sub po : N * Pool C := (SLEEPING po, set_sleeping (wrapping_sub (SLEEPING po) 1) po).
(** [SLEEPING.compare_and_swap(old, new)]. *)
Definition compare_and_swap (old new : N) po : N * Pool C :=
  (SLEEPING po, if (SLEEPING po =? old)%N then set_sleeping new po else po).

(** Where a thread is.  [start_thread] is called by a thread of the pool that has
    taken a task, or by whoever makes the pool. *)
Inductive Pc : Type :=
| Receiving                     (* in [recv_timeout] *)
| TimedOut                      (* its result was an error, about to [fetch_sub] *)
| Restarting                    (* about to [compare_and_swap] *)
| Received (t : T)              (* about to [fetch_sub] *)
| StartThread (t : option T)    (* about to call [start_thread] *)
| Spawning (t : option T)       (* about to call [spawn] in it *)
| Running (t : T)               (* in [task.run()] *)
| Trying                        (* about to call [try_recv] *)
| Checking                      (* about to load [SLEEPING] *)
| Parking.                      (* about to [fetch_add] *)

(** What happens to tasks, for the record. *)
Inductive Event : Type :=
| Sent (t : T)
| Taken (t : T)
| Finished (t : T).

(** After [start_thread]. *)
Definition started (t : option T) : option Pc := Running <$> t.

(** The next operation of a thread, other than [spawn]; [None] when it stops.
    [timeout] is whether [recv_timeout] gives up, which it may do whenever it
    likes, and [Blocked] that it does not return. *)
Inductive Turn : Type :=
| Blocked
| Goes (pc : option Pc) (po : Pool C).

Definition thread_step (timeout : bool) (pc : Pc) po : Act Event Turn :=
  match pc with
  | Receiving =>
      if timeout then mret (Goes (Some TimedOut) po)
      else
        let '(task, c) := chan_recv (channel po) in
        match task with
        | Some task => _ ← emit (Taken task); mret (Goes (Some (Received task)) (set_channel c po))
        | None => mret Blocked
        end
  | TimedOut =>
      let '(before, po) := fetch_sub po in
      mret (Goes (if (before =? 1)%N then Some Restarting else None) po)
  | Restarting =>
      let '(before, po) := compare_and_swap 0 1 po in
      mret (Goes (if (before =? 0)%N then Some Receiving else None) po)
  | Received t =>
      let '(before, po) := fetch_sub po in
      mret (Goes (Some (if (before =? 1)%N then StartThread (Some t) else Running t)) po)
  | StartThread t =>
      let '(_, po) := fetch_add po in
      mret (Goes (Some (Spawning t)) po)
  | Spawning t => mret Blocked
  | Running t => _ ← emit (Finished t); mret (Goes (Some Trying) po)
  | Trying =>
      let '(task, c) := chan_recv (channel po) in
      match task with
      | Some task => _ ← emit (Taken task); mret (Goes (Some (Running task)) (set_channel c po))
      | None => mret (Goes (Some Checking) (set_channel c po))
      end
  | Checking => mret (Goes (if (0 <? SLEEPING po)%N then None else Some Parking) po)
  | Parking =>
      let '(_, po) := fetch_add po in
      mret (Goes (Some Receiving) po)
  end.

(** * Interleavings *)

Record System : Type := mkSystem {
  pool : Pool C;
  threads : gmap nat Pc;
  log : list Event
}.

(** A thread moves on; it does so without having to wait for a task when [pc] is
    not [Running]. *)
Inductive thread_moves (waits : bool) : System → System → Prop :=
| moves_on po th l tid timeout pc pc' po' ev :
    th !! tid = Some pc → (if pc is Running _ then waits = true else True) →
    thread_step timeout pc po = Done (Goes pc' po', ev) →
    thread_moves waits (mkSystem po th l) (mkSystem po' (set_op tid pc' th) (l ++ ev))
| spawns po th l tid t new :   (* [thread::Builder::spawn]: there is room for one more *)
    th !! tid = Some (Spawning t) → th !! new = None →
    (N.of_nat (size th) + 1 < usize_modulus)%N →
    thread_moves waits (mkSystem po th l)
      (mkSystem po (set_op tid (started t) (<[new:=Receiving]> th)) l).

(** A task is sent once the pool has been made. *)
Inductive step : System → System → Prop :=
| step_thread s s' : thread_moves true s s' → step s s'
| step_spawn_blocking po th l t :
    (∀ tid pc, th !! tid = Some pc → pc ≠ StartThread None ∧ pc ≠ Spawning None) →
    step (mkSystem po th l) (mkSystem (set_channel (chan_send t (channel po)) po) th (l ++ [Sent t])).

(** The operating system has no thread to give: [expect] panics. *)
Inductive spawn_fails : System → System → Prop :=
| fails po th l tid t :
    th !! tid = Some (Spawning t) →
    spawn_fails (mkSystem po th l) (mkSystem po (delete tid th) l).

(** The thread 0 makes the pool. *)
Definition initial : System := mkSystem (mkPool unbounded 0) {[0 := StartThread None]} [].
Definition reachable (s : System) : Prop := rtc step initial s.
End Blocking.
