(* ===== verification/BlockingSpec.v ===== *)
(** What the blocking pool of src/src/task/spawn_blocking.rs promises: the counter
    is right, tasks are taken in the order in which they were sent and each one
    once, and there is always a thread for the next one. *)

From stdpp Require Import gmap fin_maps relations.
From S2P Require Import Prelude Maps WakerClients Blocking.

Section Blocking.
Context {C T : Type} `{UnboundedLaws C T}.
Implicit Types (po : Pool C) (th : gmap nat (Pc (T:=T))) (s : System (C:=C) (T:=T)).

(** The threads that [SLEEPING] counts. *)
Definition counted (pc : Pc (T:=T)) : bool :=
  match pc with Receiving | TimedOut | Received _ | Spawning _ => true | _ => false end.
(** The threads that are about to count themselves, or a new one. *)
Definition starting (pc : Pc (T:=T)) : bool :=
  match pc with Restarting | StartThread _ => true | _ => false end.

(** The tasks that threads have taken and not finished. *)
Definition held (pc : Pc (T:=T)) : list T :=
  match pc with
  | Received t | Running t => [t]
  | StartThread o | Spawning o => option_list o
  | _ => []
  end.
Definition in_hands th : list T := gathered held th.

Definition sent (l : list (Event (T:=T))) : list T :=
  omap (λ e, if e is Sent t then Some t else None) l.
Definition taken (l : list (Event (T:=T))) : list T :=
  omap (λ e, if e is Taken t then Some t else None) l.
Definition finished (l : list (Event (T:=T))) : list T :=
  omap (λ e, if e is Finished t then Some t else None) l.

Record Inv s : Prop := {
  inv_count : N.to_nat (SLEEPING (pool s)) = count counted (threads s);
  inv_size : (N.of_nat (size (threads s)) < usize_modulus)%N;
  inv_thread : 1 ≤ count counted (threads s) + count starting (threads s);
  inv_order : sent (log s) = taken (log s) ++ chan_view (channel (pool s));
  inv_once : taken (log s) ≡ₚ finished (log s) ++ in_hands (threads s)
}.

(** ** Tasks in hands *)

Lemma in_hands_delete th tid pc :
  th !! tid = Some pc → in_hands th ≡ₚ held pc ++ in_hands (delete tid th).
Proof. apply gathered_delete. Qed.

Lemma in_hands_set th tid (pc' : option (Pc (T:=T))) :
  in_hands (set_op tid pc' th) ≡ₚ
    (if pc' is Some pc' then held pc' else []) ++ in_hands (delete tid th).
Proof. destruct pc' as [pc'|]; simpl; [apply gathered_set|done]. Qed.

Lemma in_hands_move th tid pc (pc' : option (Pc (T:=T))) (come gone : list T) :
  th !! tid = Some pc →
  come ++ held pc ≡ₚ gone ++ (if pc' is Some pc' then held pc' else []) →
  come ++ in_hands th ≡ₚ gone ++ in_hands (set_op tid pc' th).
Proof.
  intros Ht Hh. rewrite (in_hands_delete _ _ _ Ht), in_hands_set.
  trans ((come ++ held pc) ++ in_hands (delete tid th)); [solve_Permutation|].
  rewrite Hh. solve_Permutation.
Qed.

(** ** The steps *)

Lemma blocking_counts_set th tid (pc' : option Pc) :
  (count counted (set_op tid pc' th) + is_at counted (th !! tid) =
   count counted th + is_at counted pc') ∧
  (count starting (set_op tid pc' th) + is_at starting (th !! tid) =
   count starting th + is_at starting pc').
Proof. split; apply count_set. Qed.

Lemma size_set th tid pc (pc' : option (Pc (T:=T))) :
  th !! tid = Some pc → size (set_op tid pc' th) ≤ size th.
Proof.
  intros Ht. destruct pc' as [pc'|]; simpl.
  - by rewrite map_size_insert_Some by (by exists pc).
  - rewrite map_size_delete, Ht. lia.
Qed.

(** The events of a step, on the logs. *)
Lemma logs_app (l ev : list (Event (T:=T))) :
  sent (l ++ ev) = sent l ++ sent ev ∧ taken (l ++ ev) = taken l ++ taken ev ∧
  finished (l ++ ev) = finished l ++ finished ev.
Proof. split_and!; apply omap_app. Qed.

(** A thread moves: it is enough to look at what it does. *)
Lemma moves_Inv po th l tid pc (pc' : option Pc) po' ev :
  Inv (mkSystem po th l) → th !! tid = Some pc →
  N.to_nat (SLEEPING po') + Nat.b2n (counted pc) = N.to_nat (SLEEPING po) + is_at counted pc' →
  1 ≤ N.to_nat (SLEEPING po') ∨ is_at starting pc' = 1 ∨
    (starting pc = false ∧ SLEEPING po' = SLEEPING po) →
  sent ev = [] → chan_view (channel po) = taken ev ++ chan_view (channel po') →
  taken ev ++ held pc ≡ₚ finished ev ++ (if pc' is Some pc' then held pc' else []) →
  Inv (mkSystem po' (set_op tid pc' th) (l ++ ev)).
Proof.
  intros [I1 I2 I3 I4 I5] Ht Hc Hs Hse Hta Hfi. simpl in *.
  destruct (blocking_counts_set th tid pc') as [C1 C2]. rewrite Ht in C1, C2. simpl in C1, C2.
  destruct (logs_app l ev) as (L1 & L2 & L3).
  assert (Nat.b2n (starting pc) ≤ count starting th) as Hle.
  { destruct (starting pc) eqn:Hpc; simpl; [by eapply count_pos|lia]. }
  split; simpl.
  - lia.
  - pose proof (size_set th tid pc pc' Ht). lia.
  - destruct Hs as [Hs|[Hs|[Hs Heq]]]; [lia|lia|]. rewrite Hs in C2. simpl in C2. lia.
  - rewrite L1, L2, Hse, app_nil_r, I4, Hta. by rewrite app_assoc.
  - rewrite L2, L3, I5. pose proof (in_hands_move th tid pc pc' _ _ Ht Hfi) as Hm.
    trans (finished l ++ taken ev ++ in_hands th); [solve_Permutation|].
    rewrite Hm. solve_Permutation.
Qed.

Lemma sleeping_small s : Inv s → (SLEEPING (pool s) < usize_modulus)%N.
Proof.
  intros HI. pose proof (inv_count _ HI). pose proof (inv_size _ HI).
  pose proof (count_le counted (threads s)). lia.
Qed.

Lemma fetch_sub_ok po : (1 ≤ SLEEPING po)%N → (SLEEPING po < usize_modulus)%N →
  fetch_sub po = (SLEEPING po, mkPool (channel po) (SLEEPING po - 1)).
Proof. intros H1 H2. unfold fetch_sub, set_sleeping. by rewrite wrapping_sub_le. Qed.

Lemma fetch_add_ok po : (SLEEPING po + 1 < usize_modulus)%N →
  fetch_add po = (SLEEPING po, mkPool (channel po) (SLEEPING po + 1)).
Proof. intros H1. unfold fetch_add, set_sleeping, wrapping_add. by rewrite N.mod_small. Qed.

Lemma recv_cases po task c :
  chan_recv (channel po) = (task, c) → chan_view (channel po) = option_list task ++ chan_view c.
Proof.
  intros Hr. pose proof (chan_recv_spec (channel po)) as Hs. rewrite Hr in Hs. simpl in Hs.
  destruct (chan_view (channel po)); destruct Hs as [-> ->]; done.
Qed.

Lemma counted_pos s tid pc :
  Inv s → threads s !! tid = Some pc → counted pc = true → (1 ≤ SLEEPING (pool s))%N.
Proof.
  intros HI Ht Hc. pose proof (inv_count _ HI). pose proof (count_pos counted _ _ _ Ht Hc). lia.
Qed.

(** One more can be counted as long as some thread is not. *)
Lemma uncounted_room s tid pc :
  Inv s → threads s !! tid = Some pc → counted pc = false →
  (SLEEPING (pool s) + 1 < usize_modulus)%N.
Proof.
  intros HI Ht Hc. pose proof (inv_count _ HI) as Hn. pose proof (inv_size _ HI).
  pose proof (blocking_counts_set (threads s) tid None) as [C1 _]. rewrite Ht in C1. simpl in C1.
  rewrite Hc in C1. simpl in C1.
  pose proof (count_le counted (delete tid (threads s))) as Hle.
  rewrite map_size_delete, Ht in Hle.
  assert (size (threads s) ≠ 0) as Hne.
  { intros Hz. apply map_size_empty_iff in Hz. rewrite Hz in Ht. by rewrite lookup_empty in Ht. }
  lia.
Qed.

(** Proves the invariant after a move of a thread. *)
Ltac solve_move HI Ht :=
  eapply moves_Inv;
    [exact HI|exact Ht|simpl; lia
    |simpl; first [left; lia|right; left; reflexivity|right; right; split; reflexivity]
    |reflexivity|simpl; first [assumption|reflexivity]|reflexivity].

Lemma thread_step_Inv po th l tid timeout pc (pc' : option Pc) po' ev :
  Inv (mkSystem po th l) → th !! tid = Some pc →
  thread_step timeout pc po = Done (Goes pc' po', ev) →
  Inv (mkSystem po' (set_op tid pc' th) (l ++ ev)).
Proof.
  intros HI Ht Hs.
  pose proof (sleeping_small _ HI) as Hsm. simpl in Hsm.
  assert (counted pc = true → (1 ≤ SLEEPING po)%N) as Hpos by exact (counted_pos _ _ _ HI Ht).
  assert (counted pc = false → (SLEEPING po + 1 < usize_modulus)%N) as Hroom
    by exact (uncounted_room _ _ _ HI Ht).
  destruct pc as [| | |t|t|t|t| | |]; unfold thread_step in Hs.
  - destruct timeout; [apply eff_ret_done in Hs as [[= <- <-] ->]; by solve_move HI Ht|].
    destruct (chan_recv (channel po)) as [[task|] c] eqn:Hr; [|by apply eff_ret_done in Hs as [? _]].
    apply recv_cases in Hr. injection Hs as <- <- <-. by solve_move HI Ht.
  - specialize (Hpos eq_refl). rewrite fetch_sub_ok in Hs by done.
    apply eff_ret_done in Hs as [[= <- <-] ->].
    destruct (N.eqb_spec (SLEEPING po) 1); by solve_move HI Ht.
  - specialize (Hroom eq_refl). unfold compare_and_swap in Hs.
    apply eff_ret_done in Hs as [[= <- <-] ->].
    destruct (N.eqb_spec (SLEEPING po) 0); by solve_move HI Ht.
  - specialize (Hpos eq_refl). rewrite fetch_sub_ok in Hs by done.
    apply eff_ret_done in Hs as [[= <- <-] ->].
    destruct (N.eqb_spec (SLEEPING po) 1); by solve_move HI Ht.
  - specialize (Hroom eq_refl). rewrite fetch_add_ok in Hs by done.
    apply eff_ret_done in Hs as [[= <- <-] ->]. by solve_move HI Ht.
  - by apply eff_ret_done in Hs as [? _].
  - injection Hs as <- <- <-. by solve_move HI Ht.
  - destruct (chan_recv (channel po)) as [[task|] c] eqn:Hr; apply recv_cases in Hr.
    + injection Hs as <- <- <-. by solve_move HI Ht.
    + apply eff_ret_done in Hs as [[= <- <-] ->]. by solve_move HI Ht.
  - apply eff_ret_done in Hs as [[= <- <-] ->].
    destruct (N.ltb_spec 0 (SLEEPING po)); by solve_move HI Ht.
  - specialize (Hroom eq_refl). rewrite fetch_add_ok in Hs by done.
    apply eff_ret_done in Hs as [[= <- <-] ->]. by solve_move HI Ht.
Qed.

Lemma spawns_Inv po th l tid t new :
  Inv (mkSystem po th l) → th !! tid = Some (Spawning t) → th !! new = None →
  (N.of_nat (size th) + 1 < usize_modulus)%N →
  Inv (mkSystem po (set_op tid (started t) (<[new:=Receiving]> th)) l).
Proof.
  intros [I1 I2 I3 I4 I5] Ht Hn Hsz. simpl in *.
  assert (tid ≠ new) as Hne by congruence.
  set (th1 := <[new:=Receiving]> th). change th1 with (set_op new (Some Receiving) th) in *.
  destruct (blocking_counts_set th new (Some Receiving)) as [C1 C2]. rewrite Hn in C1, C2. simpl in C1, C2.
  assert (set_op new (Some Receiving) th !! tid = Some (Spawning t)) as Ht1
    by (by rewrite set_op_ne).
  destruct (blocking_counts_set (set_op new (Some Receiving) th) tid (started t)) as [D1 D2].
  rewrite Ht1 in D1, D2. simpl in D1, D2.
  pose proof (size_set _ tid _ (started t) Ht1) as Hs1.
  assert (size (set_op new (Some Receiving) th) = S (size th)) as Hs2
    by (simpl; by rewrite map_size_insert_None).
  assert (is_at counted (started t) = 0 ∧ is_at starting (started t) = 0) as [Z1 Z2] by (by destruct t).
  rewrite Z1 in D1. rewrite Z2 in D2.
  split; simpl in *; [lia|lia|lia|done|].
  rewrite I5. f_equiv.
  trans (in_hands (set_op new (Some Receiving) th)).
  - rewrite in_hands_set. simpl. by rewrite delete_id.
  - apply (in_hands_move _ tid _ (started t) [] [] Ht1). by destruct t.
Qed.

Lemma thread_moves_Inv waits s s' : Inv s → thread_moves waits s s' → Inv s'.
Proof.
  intros HI Hs. destruct Hs as [po th l tid timeout pc pc' po' ev Ht _ Hs|po th l tid t new Ht Hn Hsz].
  - by eapply thread_step_Inv.
  - by apply spawns_Inv.
Qed.

Lemma blocking_initial_Inv : Inv initial.
Proof.
  destruct (blocking_counts_set ∅ 0 (Some (StartThread None))) as [C1 C2].
  rewrite lookup_empty, count_empty in C1, C2.
  change (set_op 0 (Some (StartThread None)) ∅) with (threads (initial (C:=C) (T:=T))) in *.
  simpl in C1, C2. split; [simpl in *; lia|vm_compute; reflexivity|simpl in *; lia|..].
  - simpl. by rewrite unbounded_spec.
  - unfold in_hands, gathered. simpl. by rewrite map_to_list_singleton.
Qed.

Lemma blocking_reachable_Inv s : reachable s → Inv s.
Proof.
  unfold reachable. revert s. apply (rtc_ind_r (λ s, Inv s)); [apply blocking_initial_Inv|].
  intros s1 s2 _ Hs HI. destruct Hs as [s1 s2 Hs|po th l t Hth]; [by eapply thread_moves_Inv|].
  destruct HI as [I1 I2 I3 I4 I5]. destruct (logs_app l [Sent t]) as (L1 & L2 & L3).
  split; simpl in *; [done..| |].
  - rewrite L1, L2, I4, chan_send_spec. simpl. by rewrite app_nil_r, app_assoc.
  - rewrite L2, L3, I5. simpl. by rewrite !app_nil_r.
Qed.

(** ** The next task is taken *)

(** Without waiting for a task that runs, some thread takes the task [t]. *)
Definition gets (t : T) s : Prop :=
  ∃ s', rtc (thread_moves false) s s' ∧ log s' = log s ++ [Taken t].

Lemma gets_step t s s' : thread_moves false s s' → log s' = log s → gets t s' → gets t s.
Proof.
  intros Hs Hl (s'' & Hr & Hl'). exists s''. split; [by eapply rtc_l|congruence].
Qed.

(** One move of a thread without an event. *)
Lemma gets_move t po th l tid timeout pc (pc' : option Pc) po' :
  th !! tid = Some pc → (if pc is Running _ then False else True) →
  thread_step timeout pc po = Done (Goes pc' po', []) →
  gets t (mkSystem po' (set_op tid pc' th) l) → gets t (mkSystem po th l).
Proof.
  intros Ht Hpc Hs. apply gets_step; [|done]. rewrite <- (app_nil_r l) at 2.
  eapply moves_on; [exact Ht|by destruct pc|exact Hs].
Qed.

Section Queued.
Context (t : T) (q : list T).

Lemma gets_receiving po th l tid :
  th !! tid = Some Receiving → chan_view (channel po) = t :: q → gets t (mkSystem po th l).
Proof.
  intros Ht Hq. pose proof (chan_recv_spec (channel po)) as Hs. rewrite Hq in Hs.
  destruct (chan_recv (channel po)) as [o c] eqn:Hr. destruct Hs as [Ho _]. simpl in Ho. subst o.
  eexists (mkSystem _ _ (l ++ [Taken t])). split; [|reflexivity]. apply rtc_once.
  eapply (moves_on _ _ _ _ tid false); [exact Ht|done|].
  simpl. rewrite Hr. reflexivity.
Qed.

Lemma gets_spawning po th l tid o :
  th !! tid = Some (Spawning o) → chan_view (channel po) = t :: q →
  (N.of_nat (size th) + 1 < usize_modulus)%N → gets t (mkSystem po th l).
Proof.
  intros Ht Hq Hsz. set (new := fresh (dom th)).
  assert (th !! new = None) as Hn by apply not_elem_of_dom, is_fresh.
  eapply gets_step; [by eapply spawns|done|].
  apply (gets_receiving _ _ _ new); [|done]. rewrite set_op_ne by congruence.
  apply lookup_insert_eq.
Qed.

Lemma gets_starting po th l tid o :
  th !! tid = Some (StartThread o) → chan_view (channel po) = t :: q →
  (N.of_nat (size th) + 1 < usize_modulus)%N → gets t (mkSystem po th l).
Proof.
  intros Ht Hq Hsz. eapply (gets_move _ _ _ _ tid false); [exact Ht|done|reflexivity|].
  eapply (gets_spawning _ _ _ tid); [by rewrite set_op_eq|done|].
  pose proof (size_set th tid _ (Some (Spawning o)) Ht). lia.
Qed.

Lemma gets_restarting po th l tid :
  th !! tid = Some Restarting → SLEEPING po = 0%N → chan_view (channel po) = t :: q →
  gets t (mkSystem po th l).
Proof.
  intros Ht Hz Hq.
  eapply (gets_move _ _ _ _ tid false _ (Some Receiving) (mkPool (channel po) 1)); [exact Ht|done| |].
  - simpl. unfold compare_and_swap. by rewrite Hz.
  - apply (gets_receiving _ _ _ tid); [by rewrite set_op_eq|done].
Qed.

(** Whatever the threads are doing. *)
Lemma gets_any s :
  Inv s → chan_view (channel (pool s)) = t :: q →
  (N.of_nat (size (threads s)) + 1 < usize_modulus)%N → gets t s.
Proof.
  remember (count counted (threads s)) as k eqn:Hk. revert s Hk.
  induction k as [|k IH]; intros [po th l] Hk HI Hq Hsz; simpl in *; subst.
  - pose proof (inv_thread _ HI) as Hth. pose proof (inv_count _ HI) as Hc. simpl in *.
    destruct (count_ex starting th) as (tid & pc & Ht & Hpc); [lia|].
    destruct pc; try discriminate Hpc; [apply (gets_restarting _ _ _ tid); [done|lia|done]|].
    by eapply gets_starting.
  - destruct (count_ex counted th) as (tid & pc & Ht & Hpc); [lia|].
    pose proof (sleeping_small _ HI) as Hsm. pose proof (counted_pos _ _ _ HI Ht Hpc) as Hpos.
    pose proof (inv_count _ HI) as Hc. simpl in *.
    assert (∀ pc' po' , SLEEPING po ≠ 1%N → thread_step false pc po = Done (Goes pc' po', []) →
      is_at counted pc' = 0 → channel po' = channel po → (if pc is Running _ then False else True) →
      gets t (mkSystem po th l)) as Hmove.
    { intros pc' po' Hne Hs Hz Hch Hnr. eapply gets_move; [exact Ht|done|exact Hs|].
      destruct (blocking_counts_set th tid pc') as [C1 _]. rewrite Ht in C1. simpl in C1.
      rewrite Hpc, Hz in C1. simpl in C1.
      pose proof (size_set th tid pc pc' Ht).
      apply IH; simpl; [lia| |congruence|lia].
      rewrite <- (app_nil_r l). by eapply thread_step_Inv. }
    destruct pc as [| | |t0|o|o|t0| | |]; try discriminate Hpc.
    + by eapply gets_receiving.
    + destruct (N.eq_dec (SLEEPING po) 1%N) as [He|Hne].
      * eapply (gets_move _ _ _ _ tid false _ (Some Restarting) (mkPool (channel po) 0));
          [exact Ht|done| |].
        -- unfold thread_step. rewrite fetch_sub_ok, He by done. reflexivity.
        -- apply (gets_restarting _ _ _ tid); [by rewrite set_op_eq|done|done].
      * eapply Hmove; [done| | | |done].
        -- unfold thread_step. rewrite fetch_sub_ok by done.
           rewrite (proj2 (N.eqb_neq _ _) Hne). reflexivity.
        -- done.
        -- done.
    + destruct (N.eq_dec (SLEEPING po) 1%N) as [He|Hne].
      * eapply (gets_move _ _ _ _ tid false _ (Some (StartThread (Some t0))) (mkPool (channel po) 0));
          [exact Ht|done| |].
        -- unfold thread_step. rewrite fetch_sub_ok, He by done. reflexivity.
        -- eapply (gets_starting _ _ _ tid); [by rewrite set_op_eq|done|].
           pose proof (size_set th tid _ (Some (StartThread (Some t0))) Ht). simpl in *. lia.
      * eapply Hmove; [done| | | |done].
        -- unfold thread_step. rewrite fetch_sub_ok by done.
           rewrite (proj2 (N.eqb_neq _ _) Hne). reflexivity.
        -- done.
        -- done.
    + by eapply gets_spawning.
Qed.
End Queued.

(** * The theorems *)

(** C18 The blocking pool.  [SLEEPING] is the number of threads that wait for a task,
    are about to leave, have just taken a task, or are just being started: it never
    wraps around.  The tasks are taken in the order in which they were sent, and
    each of those taken is finished or in the hands of one thread.  And there is
    always a thread for the next task, or one that is about to start it: if a task
    is in the channel, the threads can move so that it is taken without any running
    task having to finish, as long as the system gives the pool another thread. *)
Theorem blocking_pool s (Hr : reachable s) :
  N.to_nat (SLEEPING (pool s)) = count counted (threads s) ∧
  sent (log s) = taken (log s) ++ chan_view (channel (pool s)) ∧
  taken (log s) ≡ₚ finished (log s) ++ in_hands (threads s) ∧
  ∀ t q, chan_view (channel (pool s)) = t :: q →
    (N.of_nat (size (threads s)) + 1 < usize_modulus)%N →
    ∃ s', rtc (thread_moves false) s s' ∧ log s' = log s ++ [Taken t].
Proof.
  pose proof (blocking_reachable_Inv s Hr) as HI.
  split_and!; [apply HI..|]. intros t q Hq Hsz. by eapply gets_any.
Qed.
End Blocking.

(** * A run *)

#[global] Instance list_Unbounded : Unbounded (list nat) nat := {
  unbounded := [];
  chan_send t c := c ++ [t];
  chan_recv c := match c with [] => (None, []) | t :: q => (Some t, q) end
}.
#[global] Instance list_UnboundedLaws : UnboundedLaws (list nat) nat.
Proof. refine {| chan_view (c : list nat) := c |}; try done. by intros []. Defined.

(** A step whose outcome is written out. *)
Lemma step_to (th th' : gmap nat (Pc (T:=nat))) l l' po po' tid timeout pc pc' ev :
  th !! tid = Some pc → thread_step (C:=list nat) timeout pc po = Done (Goes pc' po', ev) →
  set_op tid pc' th = th' → l ++ ev = l' →
  step (mkSystem po th l) (mkSystem po' th' l').
Proof. intros Ht Hs <- <-. apply step_thread. eapply moves_on; [exact Ht|by destruct pc|exact Hs]. Qed.

(** The pool is made, and two tasks are sent. *)
Definition two_sent : System (C:=list nat) (T:=nat) :=
  mkSystem (mkPool [7; 8] 1) {[1 := Receiving]} [Sent 7; Sent 8].

Lemma two_sent_reachable : reachable two_sent.
Proof.
  unfold reachable.
  eapply (rtc_l _ _ (mkSystem (mkPool [] 1) {[0 := Spawning None]} [])).
  { by eapply (step_to _ _ _ _ _ _ 0 false). }
  eapply (rtc_l _ _ (mkSystem (mkPool [] 1) {[1 := Receiving]} [])).
  { apply step_thread.
    replace ({[1 := Receiving]} : gmap nat (Pc (T:=nat))) with
      (set_op 0 (started None) (<[1:=Receiving]> ({[0 := Spawning None]} : gmap nat (Pc (T:=nat)))))
      by (vm_compute; reflexivity).
    by apply (spawns true (mkPool [] 1) {[0 := Spawning None]} [] 0 None 1). }
  assert (∀ po l t, step (mkSystem po ({[1 := Receiving]} : gmap nat (Pc (T:=nat))) l)
    (mkSystem (set_channel (chan_send t (channel po)) po) {[1 := Receiving]} (l ++ [Sent t]))) as Hsend.
  { intros po l t. apply step_spawn_blocking. intros tid pc Ht.
    apply lookup_singleton_Some in Ht as [_ <-]. done. }
  eapply rtc_l; [apply (Hsend _ _ 7)|]. eapply rtc_l; [apply (Hsend _ _ 8)|]. apply rtc_refl.
Qed.

Lemma blocking_pool_witness :
  ∃ s', rtc (thread_moves false) two_sent s' ∧ log s' = [Sent 7; Sent 8; Taken 7].
Proof.
  destruct (blocking_pool two_sent two_sent_reachable) as (_ & _ & _ & Hg).
  apply (Hg 7 [8]); [reflexivity|vm_compute; reflexivity].
Defined.

(** When the system has no thread to give, [start_thread] has counted the thread
    that there is not: the last thread unwinds, [SLEEPING] stays 1, and no thread
    will ever take the next task. *)
Example blocking_spawn_fails :
  ∃ s1 s2 : System (C:=list nat) (T:=nat), reachable s1 ∧ spawn_fails s1 s2 ∧
    SLEEPING (pool s2) = 1%N ∧ threads s2 = ∅ ∧ channel (pool s2) = [8].
Proof.
  set (l := [Sent 7; Sent 8; Taken 7]).
  exists (mkSystem (mkPool [8] 1) {[1 := Spawning (Some 7)]} l), (mkSystem (mkPool [8] 1) ∅ l).
  split_and!; [| |reflexivity..].
  - unfold reachable. etrans; [apply two_sent_reachable|].
    eapply (rtc_l _ _ (mkSystem (mkPool [8] 1) {[1 := Received 7]} l)).
    { by eapply (step_to _ _ _ _ _ _ 1 false). }
    eapply (rtc_l _ _ (mkSystem (mkPool [8] 0) {[1 := StartThread (Some 7)]} l)).
    { by eapply (step_to _ _ _ _ _ _ 1 false). }
    apply rtc_once. by eapply (step_to _ _ _ _ _ _ 1 false).
  - replace (∅ : gmap nat (Pc (T:=nat))) with
      (delete 1 ({[1 := Spawning (Some 7)]} : gmap nat (Pc (T:=nat)))) by (vm_compute; reflexivity).
    by apply (fails (mkPool [8] 1) {[1 := Spawning (Some 7)]} l 1 (Some 7)).
Qed.
