(* ===== verification/Task.v ===== *)
(** Tasks and their local storage: src/src/task/task.rs, task_id.rs, task_local.rs,
    current.rs, and what block_on.rs puts around the future it runs.

    The code runs in one thread and works on a [World]: the statics, the memory and
    the thread's pointer to its current task.  A value of the type [T] in a
    [Box<dyn Send>] is a dependent pair of a code for [T] and the value; the unsafe
    cast of a pointer to it is the pointer itself, and using the cast pointer at
    another type is undefined behaviour.  The code of users (the initialisers, the
    closures, the destructors) is any code on the same world. *)

From stdpp Require Import gmap fin_maps.
From S2P Require Import Prelude Utils.
Local Open Scope async_scope.

(** * The standard library *)

(** [slice::binary_search_by_key], on the keys of the slice. *)
Fixpoint search_loop (fuel : nat) (key : N) (keys : list N) (base size : nat) : nat :=
  match fuel with
  | O => base
  | S fuel =>
      if 1 <? size then
        let half := Nat.div2 size in
        let mid := base + half in
        let base := if (key <? nth mid keys 0)%N then base else mid in
        search_loop fuel key keys base (size - half)
      else base
  end.

(** [Ok(index)] is [inl index], [Err(index)] is [inr index]. *)
Definition binary_search_by_key (key : N) (keys : list N) : nat + nat :=
  match keys with
  | [] => inr 0
  | _ =>
      let base := search_loop (length keys) key keys 0 (length keys) in
      let k := nth base keys 0%N in
      if (k =? key)%N then inl base
      else inr (base + if (k <? key)%N then 1 else 0)
  end.

(** * The data *)

Section Task.
(** The types of task-local values, by their codes. *)
Context {Ty : Type} `{EqDecision Ty} {den : Ty → Type}.

(** [Box<dyn Send>]: the box is at an address, and this is what is in it. *)
Definition Boxed : Type := {ty : Ty & den ty}.

Record Entry : Type := mkEntry { key : N; value : nat }.

(** [LocalsMap]: the entries, or [None] after [clear]. *)
Definition LocalsMap : Type := option (list Entry).

(** [Inner], in an [Arc]: [strong] is its count of references. *)
Record Inner : Type := mkInner { id : N; name : option (list N); locals : LocalsMap; strong : nat }.

(** [CURRENT] points to a [Task], which holds a pointer to its [Inner], or null;
    [__keys] has the field [__key] of every [LocalKey] there is, and the two
    counters are those of [TaskId::generate] and of [LocalKey::key]. *)
Record World : Type := mkWorld {
  CURRENT : option nat;
  tasks : gmap nat (option nat);
  inners : gmap nat Inner;
  boxes : gmap nat Boxed;
  __keys : gmap nat N;
  id_COUNTER : N;
  key_COUNTER : N
}.

Abbreviation M := (Run World).

Definition set_CURRENT (t : option nat) : M () :=
  modify (λ w, mkWorld t (tasks w) (inners w) (boxes w) (__keys w) (id_COUNTER w) (key_COUNTER w)).
Definition set_tasks (ts : gmap nat (option nat)) : M () :=
  modify (λ w, mkWorld (CURRENT w) ts (inners w) (boxes w) (__keys w) (id_COUNTER w) (key_COUNTER w)).
Definition set_inners (ins : gmap nat Inner) : M () :=
  modify (λ w, mkWorld (CURRENT w) (tasks w) ins (boxes w) (__keys w) (id_COUNTER w) (key_COUNTER w)).
Definition set_boxes (bs : gmap nat Boxed) : M () :=
  modify (λ w, mkWorld (CURRENT w) (tasks w) (inners w) bs (__keys w) (id_COUNTER w) (key_COUNTER w)).
Definition set_keys (ks : gmap nat N) : M () :=
  modify (λ w, mkWorld (CURRENT w) (tasks w) (inners w) (boxes w) ks (id_COUNTER w) (key_COUNTER w)).
Definition set_id_COUNTER (n : N) : M () :=
  modify (λ w, mkWorld (CURRENT w) (tasks w) (inners w) (boxes w) (__keys w) n (key_COUNTER w)).
Definition set_key_COUNTER (n : N) : M () :=
  modify (λ w, mkWorld (CURRENT w) (tasks w) (inners w) (boxes w) (__keys w) (id_COUNTER w) n).

(** Follows a pointer; one that dangles is undefined behaviour. *)
Definition follow {A : Type} (o : option A) : M A :=
  match o with Some a => mret a | None => stop Undefined end.

(** * Memory *)

Definition Box_new (b : Boxed) : M nat :=
  bs ← get boxes;
  let r := fresh (dom bs) in
  _ ← set_boxes (<[r := b]> bs);
  mret r.

(** Reads the value behind a [&T] that was made by a cast, and writes to it (as a
    [Cell] does). *)
Definition cast (ty : Ty) (b : Boxed) : option (den ty) :=
  match decide (projT1 b = ty) with
  | left e => Some (eq_rect (projT1 b) den (projT2 b) ty e)
  | right _ => None
  end.
Definition deref (ty : Ty) (r : nat) : M (den ty) :=
  bs ← get boxes; b ← follow (bs !! r); follow (cast ty b).
Definition assign (ty : Ty) (r : nat) (v : den ty) : M () :=
  bs ← get boxes; b ← follow (bs !! r); _ ← follow (cast ty b);
  set_boxes (<[r := existT ty v]> bs).

(** [Arc::new], [Arc::clone] and the drop of an [Arc]. *)
Definition Arc_new (i : Inner) : M nat :=
  ins ← get inners;
  let a := fresh (dom ins) in
  _ ← set_inners (<[a := i]> ins);
  mret a.
Definition set_strong (n : nat) (i : Inner) : Inner := mkInner (id i) (name i) (locals i) n.
Definition set_locals (l : LocalsMap) (i : Inner) : Inner := mkInner (id i) (name i) l (strong i).
Definition Arc_clone (a : nat) : M () :=
  ins ← get inners; i ← follow (ins !! a);
  set_inners (<[a := set_strong (S (strong i)) i]> ins).

(** The destructors of the values, which are code of users. *)
Context (drop_value : ∀ ty : Ty, den ty → M ()).

(** The boxes of entries are dropped, one after the other. *)
Definition drop_box (r : nat) : M () :=
  bs ← get boxes; b ← follow (bs !! r);
  _ ← set_boxes (delete r bs);
  drop_value (projT1 b) (projT2 b).
Fixpoint drop_entries (es : list Entry) : M () :=
  match es with
  | [] => mret tt
  | e :: es => defer (drop_entries es) (drop_box (value e))
  end.

Definition Arc_drop (a : nat) : M () :=
  ins ← get inners; i ← follow (ins !! a);
  if strong i =? 1 then
    _ ← set_inners (delete a ins);
    drop_entries (default [] (locals i))
  else set_inners (<[a := set_strong (strong i - 1) i]> ins).

(** * task_id.rs *)

Definition TaskId_generate : M N :=
  id ← get id_COUNTER;
  _ ← set_id_COUNTER (wrapping_add id 1);
  if ((usize_modulus - 1) / 2 <? id)%N then stop Aborts else mret id.

(** * task.rs *)

Definition Inner_new (name : option (list N)) : M Inner :=
  id ← TaskId_generate; mret (mkInner id name (Some []) 1).

Definition new_task (inner : option nat) : M nat :=
  ts ← get tasks;
  let t := fresh (dom ts) in
  _ ← set_tasks (<[t := inner]> ts);
  mret t.

Definition Task_new (name : option (list N)) : M nat :=
  match name with
  | None => new_task None
  | Some name => i ← Inner_new (Some name); a ← Arc_new i; new_task (Some a)
  end.

(** One round of the loop of [inner]: [inl] when it goes round again. *)
Definition inner_round (t : nat) : M (() + nat) :=
  ts ← get tasks; raw ← follow (ts !! t);
  match raw with
  | Some a => mret (inr a)
  | None =>
      i ← Inner_new None; new ← Arc_new i;
      (* compare_and_swap(raw, new) *)
      ts ← get tasks; found ← follow (ts !! t);
      match found with
      | None => _ ← set_tasks (<[t := Some new]> ts); mret (inl tt)
      | Some _ => _ ← Arc_drop new; mret (inl tt)
      end
  end.

Fixpoint inner_loop (fuel : nat) (t : nat) : M nat :=
  match fuel with
  | O => stop Unfinished
  | S fuel => r ← inner_round t; match r with inl _ => inner_loop fuel t | inr a => mret a end
  end.
(** Without another thread it goes round twice at most. *)
Definition Task_inner (t : nat) : M nat := inner_loop 2 t.

Definition inner_of (a : nat) : M Inner := ins ← get inners; follow (ins !! a).
Definition Task_id (t : nat) : M N := a ← Task_inner t; i ← inner_of a; mret (id i).
Definition Task_name (t : nat) : M (option (list N)) :=
  a ← Task_inner t; i ← inner_of a; mret (name i).
(** A reference to the map is the address of the [Inner] that it is in. *)
Definition Task_locals (t : nat) : M nat := Task_inner t.

(** [LocalsMap::clear]. *)
Definition clear (a : nat) : M () :=
  ins ← get inners; i ← follow (ins !! a);
  _ ← set_inners (<[a := set_locals None i]> ins);
  drop_entries (default [] (locals i)).

Definition drop_locals (t : nat) : M () :=
  ts ← get tasks; raw ← follow (ts !! t);
  match raw with
  | Some a => abort_on_panic (clear a)
  | None => mret tt
  end.

(** The guard of [defer!] puts the old pointer back. *)
Definition set_current {R : Type} (task : nat) (f : M R) : M R :=
  old_task ← get CURRENT;
  _ ← set_CURRENT (Some task);
  defer (set_CURRENT old_task) f.

Definition get_current {R : Type} (f : nat → M R) : M (option R) :=
  current ← get CURRENT;
  match current with
  | Some t => r ← f t; mret (Some r)
  | None => mret None
  end.

Definition Task_drop (t : nat) : M () :=
  ts ← get tasks; raw ← follow (ts !! t);
  _ ← set_tasks (delete t ts);
  match raw with Some a => Arc_drop a | None => mret tt end.

Definition Task_clone (t : nat) : M nat :=
  a ← Task_inner t; _ ← Arc_clone a; new_task (Some a).

(** [task::current]. *)
Definition current : M nat :=
  r ← get_current Task_clone;
  match r with Some t => mret t | None => stop Unwinds end.

(** * task_local.rs *)

(** A [LocalKey<T>]: [__key] is where it is in [__keys]. *)
Record LocalKey (ty : Ty) : Type := mkLocalKey { __init : M (den ty); __key : nat }.
Arguments mkLocalKey {ty}.
Arguments __init {ty}.
Arguments __key {ty}.

(** [LocalKey::key]. *)
Definition LocalKey_key {ty} (this : LocalKey ty) : M N :=
  keys ← get __keys;
  match default 0%N (keys !! __key this) with
  | 0%N =>
      counter ← get key_COUNTER;
      _ ← set_key_COUNTER ((counter + 1) mod u32_modulus)%N;
      if ((u32_modulus - 1) / 2 <? counter)%N then stop Aborts
      else
        (* compare_and_swap(0, counter) *)
        keys ← get __keys;
        match default 0%N (keys !! __key this) with
        | 0%N => _ ← set_keys (<[__key this := counter]> keys); mret counter
        | k => mret k
        end
  | k => mret k
  end.

Definition entries_of (a : nat) : M (list Entry) :=
  i ← inner_of a; follow (locals i).

(** [Vec::insert]. *)
Definition insert_entry (i : nat) (e : Entry) (es : list Entry) : M (list Entry) :=
  if i <=? length es then mret (take i es ++ e :: drop i es) else stop Unwinds.

(** [LocalsMap::get_or_insert] on the map of the [Inner] at [a]; the result is the
    address of the box. *)
Definition get_or_insert (a : nat) (k : N) (init : M nat) : M nat :=
  inner ← inner_of a;
  match locals inner with
  | None => stop Unwinds                                             (* panic! *)
  | Some entries =>
      index ← match binary_search_by_key k (key <$> entries) with
              | inl i => mret i
              | inr i =>
                  v ← init;
                  entries ← entries_of a;
                  entries ← insert_entry i (mkEntry k v) entries;
                  ins ← get inners;
                  inner ← follow (ins !! a);
                  _ ← set_inners (<[a := set_locals (Some entries) inner]> ins);
                  mret i
              end;
      entries ← entries_of a;
      match entries !! index with
      | Some e => mret (value e)
      | None => stop Unwinds
      end
  end.

(** [None] is [Err(AccessError)]. *)
Definition try_with {ty} {R : Type} (this : LocalKey ty) (f : nat → M R) : M (option R) :=
  get_current (λ task,
    key ← LocalKey_key this;
    let init := v ← __init this; Box_new (existT ty v) in
    a ← Task_locals task;
    value ← get_or_insert a key init;
    f value).

(** [with]: [expect] panics. *)
Definition with_local {ty} {R : Type} (this : LocalKey ty) (f : nat → M R) : M R :=
  r ← try_with this f;
  match r with Some r => mret r | None => stop Unwinds end.

(** * block_on.rs *)

(** What [block_on] puts around [run(future)]: a new task that is the current one
    meanwhile, and whose locals are dropped when the future is done with.  [run] is
    what running the future to its end does. *)
Definition block_on {R : Type} (run : M R) : M R :=
  task ← Task_new None;
  defer (Task_drop task)
    (set_current task (defer (_ ← get_current drop_locals; mret tt) run)).

(** * builder.rs *)

(** One poll of the future that [Builder::spawn] makes of its argument: the guard of
    [defer!] stays while the answer is [Pending] (here [None]), and drops the locals
    of the current task when the block is left. *)
Definition spawned_poll {R : Type} (poll : M (option R)) : M (option R) := λ w,
  match poll w with
  | (Returns None, w) => (Returns None, w)
  | (e, w) => defer (_ ← get_current drop_locals; mret tt) (stop e) w
  end.

(** [Runnable::run]: a poll of the task whose tag is the handle [tag]. *)
Definition Runnable_run {R : Type} (tag : nat) (run : M R) : M R := set_current tag (abort_on_panic run).
End Task.

Arguments mkLocalKey {Ty den ty} _ _.
Arguments __init {Ty den ty} _.
Arguments __key {Ty den ty} _.
