(* ===== verification/TaskSpec.v ===== *)
(** What tasks and their local storage promise (src/src/task/task.rs, task_local.rs):
    the unsafe cast of a task-local value is always at its own type, a value is
    made once per task and found again, and the current task is put back. *)

From stdpp Require Import gmap fin_maps sorting.
From S2P Require Import Prelude Utils WakerClients Task.

(** * The binary search *)

Section Search.
Implicit Types (k : N) (keys : list N).

Lemma div2_bounds n : 1 < n → 1 ≤ Nat.div2 n ∧ Nat.div2 n + Nat.div2 n ≤ n.
Proof. intros Hn. pose proof (Nat.div2_odd n). destruct (Nat.odd n); simpl in *; lia. Qed.

Lemma search_loop_bounds fuel k keys base size :
  1 ≤ size → base + size ≤ length keys → search_loop fuel k keys base size < length keys.
Proof.
  revert base size. induction fuel as [|fuel IH]; intros base size Hs Hb; simpl; [lia|].
  destruct (Nat.ltb_spec 1 size); [|lia].
  destruct (div2_bounds size); [done|].
  apply IH; [lia|]. destruct (_ <? _)%N; lia.
Qed.

Lemma nth_Some keys i : i < length keys → keys !! i = Some (nth i keys 0%N).
Proof. intros Hi. destruct (nth_lookup_or_length keys i 0%N); [done|lia]. Qed.

(** Whatever the keys are. *)
Lemma binary_search_any k keys :
  match binary_search_by_key k keys with
  | inl i => keys !! i = Some k
  | inr i => i ≤ length keys
  end.
Proof.
  unfold binary_search_by_key. destruct keys as [|k0 keys']; [done|].
  set (keys := k0 :: keys') in *.
  pose proof (search_loop_bounds (length keys) k keys 0 (length keys)) as Hb.
  set (base := search_loop _ _ _ _ _) in *.
  assert (base < length keys) as Hlt by (apply Hb; simpl; lia).
  pose proof (nth_Some keys base Hlt) as Hn.
  destruct (N.eqb_spec (nth base keys 0%N) k) as [He|Hne]; [congruence|].
  destruct (_ <? _)%N; lia.
Qed.

(** What the search knows of the window that is left. *)
Definition window k keys (base size : nat) : Prop :=
  1 ≤ size ∧ base + size ≤ length keys ∧
  (0 < base → (nth base keys 0 ≤ k)%N) ∧
  ∀ j k', base + size ≤ j → keys !! j = Some k' → (k < k')%N.

Lemma sorted_nth keys i j k1 k2 :
  StronglySorted N.lt keys → keys !! i = Some k1 → keys !! j = Some k2 → i < j → (k1 < k2)%N.
Proof.
  intros Hs. revert i j. induction Hs as [|k keys Hs IH Hall]; intros [|i] [|j] H1 H2 Hij;
    try lia; simplify_eq/=.
  - by eapply Forall_lookup in Hall.
  - eapply IH; [done..|lia].
Qed.

Lemma sorted_position keys i j k :
  StronglySorted N.lt keys → keys !! i = Some k → keys !! j = Some k → i = j.
Proof.
  intros Hs Hi Hj. destruct (lt_eq_lt_dec i j) as [[Hlt| ->]|Hlt]; [|done|];
    [pose proof (sorted_nth keys i j k k Hs Hi Hj Hlt)|pose proof (sorted_nth keys j i k k Hs Hj Hi Hlt)]; lia.
Qed.

Lemma search_loop_window fuel k keys base size :
  StronglySorted N.lt keys → window k keys base size → size ≤ S fuel →
  window k keys (search_loop fuel k keys base size) 1.
Proof.
  intros Hsort. revert base size.
  induction fuel as [|fuel IH]; intros base size (H1 & H2 & H3 & H4) Hf; simpl.
  { replace size with 1 in * by lia. done. }
  destruct (Nat.ltb_spec 1 size); [|replace size with 1 in * by lia; done].
  destruct (div2_bounds size) as [Hh1 Hh2]; [done|].
  set (mid := base + Nat.div2 size). assert (mid < length keys) as Hmid by lia.
  pose proof (nth_Some keys mid Hmid) as Hn.
  apply IH; [|lia]. destruct (N.ltb_spec k (nth mid keys 0%N)) as [Hlt|Hge].
  - split_and!; [lia|lia|done|]. intros j k' Hj Hk'.
    destruct (decide (j = mid)) as [->|Hne]; [by simplify_eq|].
    etrans; [exact Hlt|]. eapply (sorted_nth keys mid j); [done..|lia].
  - split_and!; [lia|lia|done|]. intros j k' Hj Hk'. apply (H4 j); [lia|done].
Qed.

(** On sorted keys it finds the key, or the place where it belongs. *)
Lemma binary_search_sorted k keys :
  StronglySorted N.lt keys →
  match binary_search_by_key k keys with
  | inl i => keys !! i = Some k
  | inr i => (k ∉ keys) ∧ StronglySorted N.lt (take i keys ++ k :: drop i keys)
  end.
Proof.
  intros Hs. pose proof (binary_search_any k keys) as Hany. revert Hany.
  unfold binary_search_by_key. destruct keys as [|k0 keys'].
  { intros _. split; [set_solver|]. repeat constructor. }
  set (keys := k0 :: keys') in *.
  assert (window k keys (search_loop (length keys) k keys 0 (length keys)) 1) as (H1 & H2 & H3 & H4).
  { apply search_loop_window; [done| |lia]. split_and!; [simpl; lia|lia|lia|].
    intros j k' Hj Hk'. apply lookup_lt_Some in Hk'. lia. }
  set (base := search_loop _ _ _ _ _) in *. pose proof (nth_Some keys base ltac:(lia)) as Hn.
  destruct (N.eqb_spec (nth base keys 0%N) k) as [He|Hne]; [congruence|]. intros _.
  set (i := base + _).
  assert (∀ j k', keys !! j = Some k' → if decide (j < i) then (k' < k)%N else (k < k')%N) as Hplace.
  { intros j k' Hk'. unfold i. destruct (N.ltb_spec (nth base keys 0%N) k) as [Hlt|Hge].
    - case_decide as Hj; [|apply (H4 j); [lia|done]].
      destruct (decide (j = base)) as [->|Hjb]; [by simplify_eq|].
      etrans; [|exact Hlt]. eapply (sorted_nth keys j base); [done..|lia].
    - assert (base = 0) as Hb0 by (destruct (decide (0 < base)); [specialize (H3 ltac:(lia)); lia|lia]).
      rewrite Hb0 in *. case_decide; [lia|].
      destruct (decide (j = 0)) as [->|Hj0]; [simplify_eq; lia|apply (H4 j); [lia|done]]. }
  split.
  - intros [j Hj]%list_elem_of_lookup. specialize (Hplace j k Hj). case_decide; lia.
  - clearbody i. clear -Hs Hplace. revert i Hplace.
    induction Hs as [|k1 keys1 Hs IH Hall]; intros i Hplace.
    { rewrite take_nil, drop_nil. repeat constructor. }
    destruct i as [|i]; simpl.
    + constructor; [by constructor|]. apply Forall_lookup_2. intros j k' Hj.
      specialize (Hplace j k' Hj). case_decide; [lia|done].
    + constructor; [apply IH; intros j k' Hj; specialize (Hplace (S j) k' Hj); repeat case_decide; (done || lia)|].
      rewrite Forall_app. split; [by apply Forall_take|]. constructor; [|by apply Forall_drop].
      specialize (Hplace 0 k1 eq_refl). by case_decide; [|lia].
Qed.
End Search.

(** * Types *)

Section Types.
Context {Ty : Type} `{EqDecision Ty} {den : Ty → Type}.
(** The type of the value of each [LocalKey]. *)
Context (type_of : nat → Ty).
(** The destructors. *)
Context (drop_value : ∀ ty : Ty, den ty → Run (World (den:=den)) ()).
Abbreviation World := (Task.World (den:=den)).
Abbreviation M := (Run World).
Implicit Types (w base : World) (i : Inner) (es : list Entry).

(** A [&T] that may be used: a box with a [T] is there. *)
Definition valid (r : nat) (ty : Ty) w : Prop := ∃ b : Boxed, boxes w !! r = Some b ∧ projT1 b = ty.

(** The entry [e] is number [j] of the map of the task at [a]. *)
Definition entry_at w (a j : nat) (e : Entry) : Prop :=
  ∃ i es, inners w !! a = Some i ∧ locals i = Some es ∧ es !! j = Some e.

Definition points_to (a : nat) (raw : option nat) : bool := bool_decide (raw = Some a).

(** What holds between any two operations: keys are given out once; an entry's box
    has the type of the key, and no two entries share a box; [CURRENT] and the
    pointers of tasks do not dangle, and a task is counted in its [Inner]. *)
Record WInv w : Prop := {
  w_counter : (1 ≤ key_COUNTER w ≤ 2 ^ 31)%N;
  w_keys c k : __keys w !! c = Some k → k ≠ 0%N →
    (k < key_COUNTER w)%N ∧ ∀ c', __keys w !! c' = Some k → c' = c;
  w_entries a j e : entry_at w a j e →
    ∃ c, __keys w !! c = Some (key e) ∧ key e ≠ 0%N ∧ valid (value e) (type_of c) w;
  w_owned a1 j1 e1 a2 j2 e2 : entry_at w a1 j1 e1 → entry_at w a2 j2 e2 →
    value e1 = value e2 → a1 = a2 ∧ j1 = j2;
  w_current t : CURRENT w = Some t → is_Some (tasks w !! t);
  w_tasks t a : tasks w !! t = Some (Some a) → is_Some (inners w !! a);
  w_strong a i : inners w !! a = Some i →
    WakerClients.count (points_to a) (tasks w) ≤ strong i
}.

(** What code leaves as it was, whatever it does: the current task, the keys, the
    references, the handles and the entries there were; and the entries that are
    new have new boxes. *)
Record extends w w' : Prop := {
  e_current : CURRENT w' = CURRENT w;
  e_keys c k : __keys w !! c = Some k → k ≠ 0%N → __keys w' !! c = Some k;
  e_valid r ty : valid r ty w → valid r ty w';
  e_tasks t raw : tasks w !! t = Some raw → ∃ raw', tasks w' !! t = Some raw' ∧
    ∀ a, raw = Some a → raw' = Some a;
  e_locals a i : inners w !! a = Some i → ∃ i', inners w' !! a = Some i' ∧
    (locals i = None → locals i' = None) ∧
    ∀ es, locals i = Some es → ∃ es', locals i' = Some es' ∧ length es ≤ length es' ∧ es ⊆ es';
  e_new a j e : entry_at w' a j e → (∃ j', entry_at w a j' e) ∨ boxes w !! value e = None;
  e_fresh t a : tasks w !! t = Some None → tasks w' !! t = Some (Some a) → inners w !! a = None
}.

Lemma extends_refl w : extends w w.
Proof. split; eauto; [|congruence]. intros a i Hi. exists i. split_and!; [done..|]. intros es Hes. by exists es. Qed.

Lemma extends_box w w' r b : extends w w' → boxes w !! r = Some b → is_Some (boxes w' !! r).
Proof.
  intros He Hr. destruct (e_valid _ _ He r (projT1 b)) as (b' & Hb' & _); [by exists b|].
  by exists b'.
Qed.

Lemma extends_trans w1 w2 w3 : extends w1 w2 → extends w2 w3 → extends w1 w3.
Proof.
  intros H1 H2. split.
  - rewrite (e_current _ _ H2). apply H1.
  - intros c k Hk Hn. eapply (e_keys _ _ H2); [by apply H1|done].
  - intros r ty Hr. by apply H2, H1.
  - intros t raw Ht. destruct (e_tasks _ _ H1 t raw Ht) as (raw1 & Ht1 & Ha1).
    destruct (e_tasks _ _ H2 t raw1 Ht1) as (raw2 & Ht2 & Ha2). exists raw2. eauto.
  - intros a i Hi. destruct (e_locals _ _ H1 a i Hi) as (i1 & Hi1 & Hn1 & Hs1).
    destruct (e_locals _ _ H2 a i1 Hi1) as (i2 & Hi2 & Hn2 & Hs2).
    exists i2. split_and!; [done|auto|]. intros es Hes.
    destruct (Hs1 es Hes) as (es1 & He1 & Hl1 & Hsub1).
    destruct (Hs2 es1 He1) as (es2 & He2 & Hl2 & Hsub2).
    exists es2. split_and!; [done|lia|set_solver].
  - intros a j e He. destruct (e_new _ _ H2 a j e He) as [[j' He']|Hn].
    + by apply (e_new _ _ H1 a j').
    + right. destruct (boxes w1 !! value e) as [b|] eqn:Hb; [|done].
      destruct (extends_box _ _ _ _ H1 Hb) as [b' Hb']. congruence.
  - intros t a Ht Ha. destruct (e_tasks _ _ H1 t None Ht) as ([a1|] & Ht1 & _).
    + destruct (e_tasks _ _ H2 t (Some a1) Ht1) as (raw & Ht2 & Ha2).
      rewrite (Ha2 a1) in Ht2 by done. simplify_eq. by apply (e_fresh _ _ H1 t).
    + pose proof (e_fresh _ _ H2 t a Ht1 Ha) as Hn.
      destruct (inners w1 !! a) as [i|] eqn:Hi; [|done].
      destruct (e_locals _ _ H1 a i Hi) as (i' & ? & _). congruence.
Qed.

(** How code may end that started when the world was [w]. *)
Definition ok {A : Type} w (post : A → World → Prop) (r : Exit A * World) : Prop :=
  match r.1 with
  | Returns a => WInv r.2 ∧ extends w r.2 ∧ post a r.2
  | Unwinds => WInv r.2 ∧ extends w r.2
  | Undefined => False
  | Aborts | Unfinished => True
  end.

(** Code of users is safe if it ends that way in every world where [pre] holds. *)
Definition safe {A : Type} (pre : World → Prop) (m : M A) (post : A → World → Prop) : Prop :=
  ∀ w, WInv w → pre w → ok w post (m w).

Lemma ok_bind {A B} w0 (post1 : A → World → Prop) (post2 : B → World → Prop)
    (m : M A) (k : A → M B) w :
  ok w0 post1 (m w) →
  (∀ a w1, WInv w1 → extends w0 w1 → post1 a w1 → ok w0 post2 (k a w1)) →
  ok w0 post2 ((m ≫= k) w).
Proof.
  unfold ok, mbind, run_mbind, run_bind. destruct (m w) as [[a| | | |] w1]; simpl; [|done..].
  intros (Hw & He & Hp) Hk. by apply Hk.
Qed.

Lemma ok_trans {A} w0 w1 (post : A → World → Prop) r : extends w0 w1 → ok w1 post r → ok w0 post r.
Proof.
  intros H1. unfold ok. destruct r as [[a| | | |] w2]; simpl; [|naive_solver eauto using extends_trans..].
  intros (Hw & He & Hp). split_and!; [done|by eapply extends_trans|done].
Qed.

Lemma ok_weaken {A} w0 (post post' : A → World → Prop) r :
  ok w0 post r → (∀ a w, post a w → post' a w) → ok w0 post' r.
Proof. unfold ok. destruct r as [[a| | | |] w2]; simpl; naive_solver. Qed.

Lemma ok_ret {A} w (post : A → World → Prop) a : WInv w → post a w → ok w post ((mret a : M A) w).
Proof. intros Hw Hp. split_and!; [done|apply extends_refl|done]. Qed.

(** An operation that succeeds is applied to the world it is given. *)
Lemma ok_step {A B} w0 (post : B → World → Prop) (m : M A) (k : A → M B) w a w1 :
  m w = (Returns a, w1) → ok w0 post (k a w1) → ok w0 post ((m ≫= k) w).
Proof. intros Hm Hk. by rewrite (run_bind_returns _ _ _ _ _ Hm). Qed.

(** Goes through the operations that succeed. *)
Ltac steps := repeat (rewrite run_bind_assoc || (eapply ok_step; [reflexivity|])).

(** * The operations *)

(** A change of the world that leaves the entries as they are. *)
Lemma entry_at_ext w w' a j e : inners w' = inners w → entry_at w' a j e ↔ entry_at w a j e.
Proof. unfold entry_at. by intros ->. Qed.

(** A key that has no number gets the next one. *)
Lemma new_key_ok w c :
  WInv w → (key_COUNTER w < 2 ^ 31)%N → default 0%N (__keys w !! c) = 0%N →
  let w' := mkWorld (CURRENT w) (tasks w) (inners w) (boxes w)
    (<[c := key_COUNTER w]> (__keys w)) (id_COUNTER w) (key_COUNTER w + 1)%N in
  WInv w' ∧ extends w w'.
Proof.
  intros Hw Hle Hc w'. pose proof (w_counter _ Hw) as Hn.
  assert (∀ c' k, __keys w !! c' = Some k → k ≠ 0%N → __keys w' !! c' = Some k) as Hkeep.
  { intros c' k Hk H0. unfold w'. simpl. rewrite lookup_insert_ne; [done|].
    intros ->. rewrite Hk in Hc. done. }
  split; split; try apply Hw; simpl; try done.
  - lia.
  - intros c1 k Hk H0. rewrite lookup_insert_Some in Hk. destruct Hk as [[<- <-]|[Hne Hk]].
    + split; [lia|]. intros c' [[<- _]|[_ Hc']]%lookup_insert_Some; [done|].
      apply (w_keys _ Hw) in Hc' as [Hlt _]; [|done]. lia.
    + destruct (w_keys _ Hw c1 k Hk H0) as [Hlt Huniq]. split; [lia|].
      intros c' [[<- Heq]|[_ Hc']]%lookup_insert_Some; [lia|by apply Huniq].
  - intros a j e He. destruct (w_entries _ Hw a j e He) as (c' & Hk & H0 & Hv).
    exists c'. split_and!; [by apply Hkeep|done|done].
  - eauto.
  - apply extends_refl.
  - eauto.
  - intros t a H1 H2. congruence.
Qed.

Lemma LocalKey_key_ok {ty} (this : LocalKey ty) w :
  WInv w →
  ok w (λ k w', k ≠ 0%N ∧ __keys w' !! __key this = Some k) (LocalKey_key this w).
Proof.
  intros Hw. unfold LocalKey_key. eapply ok_step; [reflexivity|].
  destruct (default 0%N (__keys w !! __key this)) as [|k] eqn:Hk.
  - eapply ok_step; [reflexivity|]. eapply ok_step; [reflexivity|]. simpl.
    destruct (N.ltb_spec ((u32_modulus - 1) / 2) (key_COUNTER w)) as [|Hle]; [done|].
    assert (key_COUNTER w < 2 ^ 31)%N as Hlt.
    { unfold u32_modulus in Hle. replace ((2 ^ 32 - 1) / 2)%N with (2 ^ 31 - 1)%N in Hle by done. lia. }
    eapply ok_step; [reflexivity|]. simpl. rewrite Hk.
    eapply ok_step; [reflexivity|]. simpl.
    rewrite N.mod_small by (unfold u32_modulus; lia).
    destruct (new_key_ok w (__key this)) as [Hw' He]; [done..|].
    split_and!; [done|done| |apply lookup_insert_eq].
    pose proof (w_counter _ Hw). simpl. lia.
  - apply ok_ret; [done|]. split; [done|]. destruct (__keys w !! __key this); naive_solver.
Qed.

(** The pointers to an [Inner], when the pointer of one task changes. *)
Lemma points_to_set a ts t raw :
  WakerClients.count (points_to a) (<[t := raw]> ts) + is_at (points_to a) (ts !! t)
  = WakerClients.count (points_to a) ts + Nat.b2n (points_to a raw).
Proof. exact (count_set (points_to a) ts t (Some raw)). Qed.

Lemma no_pointer w a : WInv w → inners w !! a = None → WakerClients.count (points_to a) (tasks w) = 0.
Proof.
  intros Hw Ha. destruct (decide (1 ≤ WakerClients.count (points_to a) (tasks w))) as [Hc|]; [|lia].
  apply count_ex in Hc as (t & raw & Ht & Hp). apply bool_decide_eq_true in Hp as ->.
  apply (w_tasks _ Hw) in Ht as [??]. congruence.
Qed.

(** A task that had no [Inner] gets a new one. *)
Lemma new_inner_ok w t a n n' :
  WInv w → tasks w !! t = Some None → inners w !! a = None →
  let w' := mkWorld (CURRENT w) (<[t := Some a]> (tasks w)) (<[a := mkInner n None (Some []) 1]> (inners w))
    (boxes w) (__keys w) n' (key_COUNTER w) in
  WInv w' ∧ extends w w'.
Proof.
  intros Hw Ht Ha w'.
  assert (∀ a' j e, entry_at w' a' j e → entry_at w a' j e) as Hent.
  { intros a' j e (i & es & Hi & Hes & He). simpl in Hi.
    apply lookup_insert_Some in Hi as [[<- <-]|[_ Hi]]; [by simplify_eq/=|by exists i, es]. }
  split; split; try apply Hw; simpl; try done.
  - intros a' j e He. by apply (w_entries _ Hw a' j), Hent.
  - intros a1 j1 e1 a2 j2 e2 H1 H2. apply (w_owned _ Hw); by apply Hent.
  - intros t' Ht'. apply (w_current _ Hw) in Ht'. rewrite lookup_insert_is_Some'. by right.
  - intros t' a'. rewrite lookup_insert_is_Some'.
    intros [[_ ?]|[_ Ht']]%lookup_insert_Some; [simplify_eq; by left|right].
    by apply (w_tasks _ Hw) in Ht'.
  - intros a' i Hi. pose proof (points_to_set a' (tasks w) t (Some a)) as Hc.
    rewrite Ht in Hc. simpl in Hc. apply lookup_insert_Some in Hi as [[<- <-]|[Hne Hi]].
    + rewrite (no_pointer w a) in Hc by done. simpl. destruct (points_to a (Some a)); simpl in *; lia.
    + pose proof (w_strong _ Hw a' i Hi).
      replace (points_to a' (Some a)) with false in Hc by (symmetry; apply bool_decide_eq_false; congruence).
      simpl in Hc. lia.
  - intros t' raw Hraw. destruct (decide (t = t')) as [<-|Hne].
    + exists (Some a). rewrite lookup_insert_eq. split; [done|]. congruence.
    + exists raw. by rewrite lookup_insert_ne.
  - intros a' i Hi. exists i. rewrite lookup_insert_ne by congruence.
    split_and!; [done..|]. intros es Hes. by exists es.
  - intros a' j e He. left. exists j. by apply Hent.
  - intros t' a' H1 H2. apply lookup_insert_Some in H2 as [[_ ?]|[_ H2]]; congruence.
Qed.

Lemma fresh_inner w : inners w !! fresh (dom (inners w)) = None.
Proof. apply not_elem_of_dom, is_fresh. Qed.

Lemma follow_bind {A B} (k : A → M B) o a w : o = Some a → (follow o ≫= k) w = k a w.
Proof. by intros ->. Qed.

Lemma inner_loop_ready fuel t a w :
  tasks w !! t = Some (Some a) → inner_loop drop_value (S fuel) t w = (Returns a, w).
Proof.
  intros Ht. simpl. unfold inner_round. rewrite run_bind_assoc, run_bind_get.
  by rewrite run_bind_assoc, (follow_bind _ _ _ _ Ht).
Qed.

Lemma inner_round_new t w :
  WInv w → tasks w !! t = Some None →
  ok w (λ r w', r = inl tt ∧ ∃ a, tasks w' !! t = Some (Some a)) (inner_round drop_value t w).
Proof.
  intros Hw Ht. unfold inner_round, Inner_new, TaskId_generate, Arc_new.
  steps. rewrite (follow_bind _ _ _ _ Ht). steps.
  destruct (_ <? _)%N; [done|].
  steps. rewrite (follow_bind _ _ _ _ Ht). steps.
  destruct (new_inner_ok w t (fresh (dom (inners w))) (id_COUNTER w) (wrapping_add (id_COUNTER w) 1))
    as [Hw' He]; [done..|apply fresh_inner|].
  split_and!; [done..|]. simpl. exists (fresh (dom (inners w))). apply lookup_insert_eq.
Qed.

Lemma Task_inner_ok t w :
  WInv w → is_Some (tasks w !! t) →
  ok w (λ a w', tasks w' !! t = Some (Some a)) (Task_inner drop_value t w).
Proof.
  intros Hw [[a|] Ht]; unfold Task_inner.
  { rewrite (inner_loop_ready _ _ a) by done. by apply (ok_ret w _ a). }
  eapply ok_bind; [by apply inner_round_new|]. intros r w1 Hw1 He [-> [a Ha]].
  change (ok w (λ a w', tasks w' !! t = Some (Some a)) (inner_loop drop_value 1 t w1)).
  rewrite (inner_loop_ready 0 t a) by done. by split_and!.
Qed.

Lemma lookup_inserted {A} (l : list A) n x j :
  n ≤ length l →
  (take n l ++ x :: drop n l) !! j = if decide (j = n) then Some x else l !! (if decide (j < n) then j else j - 1).
Proof.
  intros Hn. destruct (decide (j < n)) as [Hj|Hj].
  - rewrite decide_False by lia. rewrite lookup_app_l by (rewrite length_take; lia).
    by rewrite lookup_take_lt.
  - rewrite lookup_app_r by (rewrite length_take; lia). rewrite length_take, Nat.min_l by done.
    case_decide as Hjn; [by rewrite Hjn, Nat.sub_diag|].
    replace (j - n) with (S (j - 1 - n)) by lia. simpl. rewrite lookup_drop. f_equal. lia.
Qed.

(** A value and its entry are added to the map of a task. *)
Section NewEntry.
Context w (Hw : WInv w) (a n c r : nat) (k : N) i es (v : den (type_of c)).
Context (Ha : inners w !! a = Some i) (Hes : locals i = Some es) (Hn : n ≤ length es).
Context (Hc : __keys w !! c = Some k) (Hk : k ≠ 0%N) (Hr : boxes w !! r = None).

Let es' := take n es ++ mkEntry k r :: drop n es.
Let w' := mkWorld (CURRENT w) (tasks w) (<[a := set_locals (Some es') i]> (inners w))
  (<[r := existT (type_of c) v]> (boxes w)) (__keys w) (id_COUNTER w) (key_COUNTER w).

Lemma new_entry_at a' j e :
  entry_at w' a' j e →
  (a' = a ∧ j = n ∧ e = mkEntry k r) ∨
  (a' = a → j ≠ n) ∧ entry_at w a' (if decide (a' = a) then if decide (j < n) then j else j - 1 else j) e.
Proof using Ha Hes Hn.
  intros (i' & l & Hi & Hl & Hj). simpl in Hi. apply lookup_insert_Some in Hi as [[<- <-]|[Hne Hi]].
  - simpl in Hl. injection Hl as <-. unfold es' in Hj. rewrite lookup_inserted in Hj by done.
    case_decide as Hjn; simplify_eq; [by left|right].
    split; [done|]. rewrite decide_True by done. by exists i, es.
  - right. split; [congruence|]. destruct (decide (a' = a)) as [->|]; [done|]. by exists i', l.
Qed.

Lemma new_entry_valid r' ty : valid r' ty w → valid r' ty w'.
Proof using Hr.
  intros (b & Hb & Ht). exists b. simpl. rewrite lookup_insert_ne; [done|]. intros <-. congruence.
Qed.

Lemma entry_box a' j e : entry_at w a' j e → value e ≠ r.
Proof using Hw Hr.
  intros He Heq. destruct (w_entries _ Hw a' j e He) as (c' & _ & _ & b & Hb & _).
  congruence.
Qed.

Lemma new_entry_ok : WInv w' ∧ extends w w'.
Proof using All.
  split; split; try apply Hw; simpl; try done.
  - intros a' j e [(-> & -> & ->)|[_ He]]%new_entry_at.
    + exists c. split_and!; [done..|]. exists (existT (type_of c) v). simpl. by rewrite lookup_insert_eq.
    + destruct (w_entries _ Hw _ _ _ He) as (c' & Hk' & H0 & Hv).
      exists c'. split_and!; [done..|]. by apply new_entry_valid.
  - intros a1 j1 e1 a2 j2 e2 H1%new_entry_at H2%new_entry_at Hv.
    destruct H1 as [(-> & -> & ->)|[Hn1 H1]], H2 as [(-> & -> & ->)|[Hn2 H2]]; simpl in *.
    + done.
    + by apply entry_box in H2.
    + by apply entry_box in H1.
    + destruct (w_owned _ Hw _ _ _ _ _ _ H1 H2 Hv) as [-> Hj]. split; [done|].
      destruct (decide (a2 = a)) as [->|]; [|done].
      specialize (Hn1 eq_refl). specialize (Hn2 eq_refl). repeat case_decide; lia.
  - intros t a' Ht. apply (w_tasks _ Hw) in Ht. rewrite lookup_insert_is_Some'. by right.
  - intros a' i' [[<- <-]|[_ Hi']]%lookup_insert_Some; [|by apply (w_strong _ Hw)].
    by apply (w_strong _ Hw) in Ha.
  - apply new_entry_valid.
  - eauto.
  - intros a' i' Hi'. destruct (decide (a = a')) as [<-|Hne].
    + assert (i' = i) as -> by congruence. rewrite lookup_insert_eq. eexists. split; [done|]. simpl.
      split; [congruence|]. intros l Hl. assert (l = es) as -> by congruence.
      exists es'. split; [done|]. unfold es'. split; [rewrite length_app, length_take; simpl; rewrite length_drop; lia|].
      rewrite <- (take_drop n es) at 1. set_solver.
    + exists i'. rewrite lookup_insert_ne by done. split_and!; [done..|]. intros l Hl. by exists l.
  - intros a' j e [(-> & -> & ->)|[_ He]]%new_entry_at; [by right|left]. by eexists.
  - intros t a' H1 H2. congruence.
Qed.
End NewEntry.

Lemma get_or_insert_ok (a c : nat) (k : N) (init : M (den (type_of c))) w :
  WInv w → is_Some (inners w !! a) → __keys w !! c = Some k → k ≠ 0%N →
  safe (λ _, True) init (λ _ _, True) →
  ok w (λ r, valid r (type_of c))
    (get_or_insert a k (v ← init; Box_new (existT (type_of c) v)) w).
Proof.
  intros Hw [i Ha] Hc Hk Hinit. unfold get_or_insert, inner_of.
  steps. rewrite (follow_bind _ _ _ _ Ha). destruct (locals i) as [es|] eqn:Hes; [|by split; [|apply extends_refl]].
  pose proof (binary_search_any k (key <$> es)) as Hany.
  destruct (binary_search_by_key _ _) as [n|n].
  - rewrite list_lookup_fmap_Some in Hany. destruct Hany as (e & -> & He).
    unfold entries_of, inner_of. steps. rewrite (follow_bind _ _ _ _ Ha).
    rewrite (follow_bind _ _ _ _ Hes), He. apply (ok_ret w _ (value e)); [done|].
    destruct (w_entries _ Hw a n e) as (c' & Hc' & _ & Hv); [by exists i, es|].
    destruct (w_keys _ Hw c (key e) Hc Hk) as [_ Huniq]. by rewrite <- (Huniq c' Hc').
  - rewrite length_fmap in Hany. rewrite !run_bind_assoc.
    eapply ok_bind; [by apply Hinit|]. intros v w1 Hw1 He1 _.
    destruct (e_locals _ _ He1 a i Ha) as (i1 & Hi1 & _ & Hes1).
    destruct (Hes1 es Hes) as (es1 & Hl1 & Hle & _).
    pose proof (e_keys _ _ He1 c k Hc Hk) as Hc1.
    assert (boxes w1 !! fresh (dom (boxes w1)) = None) as Hr by apply not_elem_of_dom, is_fresh.
    destruct (new_entry_ok w1 Hw1 a n c (fresh (dom (boxes w1))) k i1 es1 v) as [Hw2 He2]; [done..|lia|done|done|done|].
    eapply ok_trans; [exact He1|].
    unfold Box_new, entries_of, inner_of, insert_entry. steps. rewrite (follow_bind _ _ _ _ Hi1).
    rewrite (follow_bind _ _ _ _ Hl1). rewrite (proj2 (Nat.leb_le _ _)) by lia. steps.
    erewrite follow_bind by exact Hi1. steps.
    erewrite follow_bind by apply lookup_insert_eq. erewrite follow_bind by reflexivity. simpl.
    rewrite lookup_inserted, decide_True by (done || lia).
    split_and!; [done..|]. exists (existT (type_of c) v). simpl. by rewrite lookup_insert_eq.
Qed.

(** Running code inside the scope of [get_current]. *)
Lemma try_with_ok {R} c (this : LocalKey (type_of c)) (f : nat → M R) (pre : World → Prop) post w :
  WInv w → __key this = c → safe (λ _, True) (__init this) (λ _ _, True) →
  (∀ w', pre w → extends w w' → pre w') →
  (∀ r, safe (λ w, pre w ∧ valid r (type_of c) w) (f r) post) →
  pre w →
  ok w (λ o w', ∀ r, o = Some r → post r w') (try_with drop_value this f w).
Proof.
  intros Hw Hc Hinit Hpre Hf Hp. unfold try_with, get_current. steps.
  destruct (CURRENT w) as [t|] eqn:Hcur; [|by apply ok_ret].
  pose proof (w_current _ Hw t Hcur) as Ht.
  rewrite run_bind_assoc. eapply ok_bind; [by apply LocalKey_key_ok|].
  intros k w1 Hw1 He1 [Hk Hc1]. rewrite Hc in Hc1.
  rewrite run_bind_assoc. eapply (ok_trans _ _ _ _ He1), ok_bind.
  { apply Task_inner_ok; [done|]. destruct Ht as [raw Ht].
    destruct (e_tasks _ _ He1 t raw Ht) as (? & ? & _). by eexists. }
  intros a w2 Hw2 He2 Ha. pose proof (w_tasks _ Hw2 t a Ha) as Hi.
  rewrite run_bind_assoc. eapply (ok_trans _ _ _ _ He2), ok_bind.
  { apply (get_or_insert_ok a c k); [done..| |done|done]. by apply (e_keys _ _ He2). }
  intros r w3 Hw3 He3 Hv. eapply (ok_trans _ _ _ _ He3), ok_bind.
  { apply Hf; [done|]. split; [|done]. apply Hpre; [done|].
    by eapply extends_trans; [|eapply extends_trans]. }
  intros x w4 Hw4 He4 Hx. split_and!; [done..|]. simpl. by intros ? [= <-].
Qed.
(** ** References *)

Lemma cast_ok (b : Boxed (den:=den)) (ty : Ty) : projT1 b = ty → ∃ v, cast ty b = Some v.
Proof. intros H. unfold cast. destruct (decide _) as [e|]; [by eexists|done]. Qed.

Lemma deref_ok ty r w : WInv w → valid r ty w → ok w (λ _ w', w' = w) (deref ty r w).
Proof.
  intros Hw (b & Hb & Ht). destruct (cast_ok b ty Ht) as [v Hv]. unfold deref. steps.
  rewrite (follow_bind _ _ _ _ Hb), Hv. by apply (ok_ret w _ v).
Qed.

Lemma assign_ok ty r v w : WInv w → valid r ty w → ok w (λ _ _, True) (assign ty r v w).
Proof.
  intros Hw (b & Hb & Ht). destruct (cast_ok b ty Ht) as [v' Hv]. unfold assign. steps.
  rewrite (follow_bind _ _ _ _ Hb), (follow_bind _ _ _ _ Hv).
  set (w' := mkWorld (CURRENT w) (tasks w) (inners w) (<[r:=existT ty v]> (boxes w)) (__keys w)
    (id_COUNTER w) (key_COUNTER w)).
  assert (∀ r' ty', valid r' ty' w → valid r' ty' w') as Hvalid.
  { intros r' ty' (b' & Hb' & Ht'). destruct (decide (r = r')) as [<-|Hne].
    - exists (existT ty v). simpl. rewrite lookup_insert_eq. split; [done|]. congruence.
    - exists b'. simpl. by rewrite lookup_insert_ne. }
  split_and!; [split; try apply Hw|split|done]; simpl; try done.
  - intros a j e He. destruct (w_entries _ Hw a j e He) as (c & Hc & H0 & Hr). eauto.
  - eauto.
  - apply extends_refl.
  - intros a j e He. left. by exists j.
  - intros t a H1 H2. congruence.
Qed.

(** ** Destructors *)

Definition drops_safely : Prop := ∀ ty v, safe (λ _, True) (drop_value ty v) (λ _ _, True).

(** A guard runs when the rest of the scope is left; what [base] has is still there. *)
Lemma ok_defer {A} base w1 (P : A → Prop) body (rest : M A) w :
  ok w1 (λ a _, P a) (rest w) →
  (∀ w2, WInv w2 → extends w1 w2 → ok base (λ _ _, True) (body w2)) →
  ok base (λ a _, P a) (defer body rest w).
Proof.
  unfold ok at 1, defer. destruct (rest w) as [[a| | | |] w2]; simpl; [| |done..].
  - intros (Hw & He & Hp) Hb. specialize (Hb w2 Hw He). revert Hb. unfold ok.
    destruct (body w2) as [[[]| | | |] w3]; simpl; naive_solver.
  - intros (Hw & He) Hb. specialize (Hb w2 Hw He). revert Hb. unfold ok.
    destruct (body w2) as [[[]| | | |] w3]; simpl; naive_solver.
Qed.

(** Entries that were taken out of a map, and whose boxes are to be dropped. *)
Record pending base w es : Prop := {
  p_nodup : NoDup (value <$> es);
  p_box e : e ∈ es → is_Some (boxes w !! value e) ∧ boxes base !! value e = None;
  p_free e a j e' : e ∈ es → entry_at w a j e' → value e' ≠ value e
}.

Lemma pending_extends base w w' es :
  WInv w → pending base w es → extends w w' → pending base w' es.
Proof.
  intros Hw [H1 H2 H3] He. split; [done| |].
  - intros e Hin. destruct (H2 e Hin) as [[b Hb] Hn]. split; [|done]. by eapply extends_box.
  - intros e a j e' Hin He' Heq. destruct (e_new _ _ He a j e' He') as [[j' Hj]|Hn].
    + by eapply H3.
    + destruct (H2 e Hin) as [[b Hb] _]. congruence.
Qed.

Lemma delete_box_ok base w r :
  WInv w → extends base w → boxes base !! r = None →
  (∀ a j e, entry_at w a j e → value e ≠ r) →
  let w' := mkWorld (CURRENT w) (tasks w) (inners w) (delete r (boxes w)) (__keys w)
    (id_COUNTER w) (key_COUNTER w) in
  WInv w' ∧ extends base w'.
Proof.
  intros Hw He Hr Hfree w'.
  assert (∀ r' ty, r' ≠ r → valid r' ty w → valid r' ty w') as Hvalid.
  { intros r' ty Hne (b & Hb & Ht). exists b. simpl. by rewrite lookup_delete_ne. }
  split; split; try apply Hw; try apply He; simpl; try done.
  - intros a j e Hj. destruct (w_entries _ Hw a j e Hj) as (c & Hc & H0 & Hv).
    exists c. split_and!; [done..|]. apply Hvalid; [by eapply Hfree|done].
  - intros r' ty Hv. apply Hvalid; [|by apply (e_valid _ _ He)].
    destruct Hv as (b & Hb & _). congruence.
Qed.

Lemma drop_entries_ok base w es :
  drops_safely → WInv w → extends base w → pending base w es →
  ok base (λ _ _, True) (drop_entries drop_value es w).
Proof.
  intros Hd. revert w. induction es as [|e es IH]; intros w Hw He Hp; simpl.
  { by split_and!. }
  destruct (p_box _ _ _ Hp e) as [[b Hb] Hn]; [set_solver|].
  destruct (delete_box_ok base w (value e)) as [Hw1 He1]; [done..| |].
  { intros a j e' Hj. apply (p_free _ _ _ Hp e a j e'); [set_solver|done]. }
  set (w1 := mkWorld _ _ _ (delete (value e) (boxes w)) _ _ _) in *.
  assert (pending base w1 es) as Hp1.
  { destruct Hp as [H1 H2 H3]. simpl in H1. apply list.NoDup_cons in H1 as [Hnot H1].
    split; [done| |].
    - intros e' Hin. destruct (H2 e') as [Hb' Hn']; [set_solver|]. split; [|done].
      simpl. rewrite lookup_delete_ne; [done|]. intros Heq. apply Hnot. rewrite Heq.
      by apply list_elem_of_fmap_2.
    - intros e' a j e'' Hin. apply H3. set_solver. }
  apply (ok_defer _ w1 (λ _, True)).
  - unfold drop_box. steps. rewrite (follow_bind _ _ _ _ Hb). steps.
    exact (Hd _ _ w1 Hw1 Logic.I).
  - intros w2 Hw2 He2. apply IH; [done|by apply (extends_trans _ w1)|by apply (pending_extends _ w1)].
Qed.
(** ** The end of a task *)

(** The entries of the [Inner] at [a] are taken out, and it is new since [base]. *)
Lemma taken_pending base w w' a i :
  WInv w → extends base w → inners base !! a = None → inners w !! a = Some i →
  boxes w' = boxes w → (∀ a' j e, entry_at w' a' j e → entry_at w a' j e ∧ a' ≠ a) →
  pending base w' (default [] (locals i)).
Proof.
  intros Hw He Hnew Ha Hb Hent. destruct (locals i) as [es|] eqn:Hes; simpl.
  2: { split; [constructor|set_solver..]. }
  assert (∀ j e, es !! j = Some e → entry_at w a j e) as Hat by (intros j e Hj; by exists i, es).
  split.
  - apply NoDup_alt. intros j1 j2 v H1 H2. apply list_lookup_fmap_Some in H1 as (e1 & -> & H1).
    apply list_lookup_fmap_Some in H2 as (e2 & Heq & H2).
    by destruct (w_owned _ Hw _ _ _ _ _ _ (Hat _ _ H1) (Hat _ _ H2) Heq).
  - intros e [j Hj]%list_elem_of_lookup. rewrite Hb.
    destruct (w_entries _ Hw a j e (Hat j e Hj)) as (c & _ & _ & b & Hv & _). split; [by eexists|].
    destruct (e_new _ _ He a j e (Hat j e Hj)) as [(j' & i' & es' & Hi' & _)|Hn]; [congruence|done].
  - intros e a' j' e' [j Hj]%list_elem_of_lookup He' Heq. apply Hent in He' as [He' Hne].
    by destruct (w_owned _ Hw _ _ _ _ _ _ He' (Hat j e Hj) Heq).
Qed.

Lemma clear_ok base w a :
  drops_safely → WInv w → extends base w → inners base !! a = None → is_Some (inners w !! a) →
  ok base (λ _ _, True) (clear drop_value a w).
Proof.
  intros Hd Hw He Hnew [i Ha]. unfold clear. steps. rewrite (follow_bind _ _ _ _ Ha). steps.
  set (w' := mkWorld (CURRENT w) (tasks w) (<[a := set_locals None i]> (inners w)) (boxes w)
    (__keys w) (id_COUNTER w) (key_COUNTER w)).
  assert (∀ a' j e, entry_at w' a' j e → entry_at w a' j e ∧ a' ≠ a) as Hent.
  { intros a' j e (i' & es & Hi & Hes & Hj). simpl in Hi.
    apply lookup_insert_Some in Hi as [[_ <-]|[Hne Hi]]; [done|]. split; [by exists i', es|done]. }
  apply drop_entries_ok; [done| | |by apply (taken_pending _ w _ a)].
  - split; try apply Hw; simpl.
    + intros a' j e [He' _]%Hent. by apply (w_entries _ Hw) in He'.
    + intros a1 j1 e1 a2 j2 e2 [H1 _]%Hent [H2 _]%Hent. by apply (w_owned _ Hw).
    + intros t a' Ht. apply (w_tasks _ Hw) in Ht. rewrite lookup_insert_is_Some'. by right.
    + intros a' i' [[<- <-]|[_ Hi']]%lookup_insert_Some; [|by apply (w_strong _ Hw)].
      by apply (w_strong _ Hw) in Ha.
  - split; try apply He; simpl.
    + intros a' i' Hi'. rewrite lookup_insert_ne by congruence. by apply He.
    + intros a' j e [He' _]%Hent. by apply (e_new _ _ He a' j).
Qed.

Lemma abort_on_panic_ok {A} base (post : A → World → Prop) (m : M A) w :
  ok base post (m w) → ok base post (abort_on_panic m w).
Proof. unfold ok, abort_on_panic. by destruct (m w) as [[a| | | |] w']. Qed.

Lemma drop_locals_ok base w t :
  drops_safely → WInv w → extends base w → tasks base !! t = Some None →
  ok base (λ _ _, True) (drop_locals drop_value t w).
Proof.
  intros Hd Hw He Ht. unfold drop_locals. steps.
  destruct (e_tasks _ _ He t None Ht) as (raw & Hraw & _). rewrite (follow_bind _ _ _ _ Hraw).
  destruct raw as [a|]; [|by split_and!]. apply abort_on_panic_ok, clear_ok; [done..| |].
  - by apply (e_fresh _ _ He t).
  - by apply (w_tasks _ Hw t).
Qed.
(** The [Inner] at [a], which is new since [base], loses a reference that was not
    a task's. *)
Lemma Arc_drop_ok base w a :
  drops_safely → WInv w → extends base w → inners base !! a = None →
  (∀ i, inners w !! a = Some i → WakerClients.count (points_to a) (tasks w) < strong i) →
  is_Some (inners w !! a) →
  ok base (λ _ _, True) (Arc_drop drop_value a w).
Proof.
  intros Hd Hw He Hnew Hlt [i Ha]. unfold Arc_drop. steps. rewrite (follow_bind _ _ _ _ Ha).
  specialize (Hlt i Ha). destruct (Nat.eqb_spec (strong i) 1) as [H1|H1]; steps.
  - set (w' := mkWorld (CURRENT w) (tasks w) (delete a (inners w)) (boxes w) (__keys w)
      (id_COUNTER w) (key_COUNTER w)).
    assert (∀ a' j e, entry_at w' a' j e → entry_at w a' j e ∧ a' ≠ a) as Hent.
    { intros a' j e (i' & es & Hi & Hes & Hj). simpl in Hi.
      apply lookup_delete_Some in Hi as [Hne Hi]. split; [by exists i', es|done]. }
    apply drop_entries_ok; [done| | |by apply (taken_pending _ w _ a)].
    + split; try apply Hw; simpl.
      * intros a' j e [He' _]%Hent. by apply (w_entries _ Hw) in He'.
      * intros a1 j1 e1 a2 j2 e2 [HH1 _]%Hent [HH2 _]%Hent. by apply (w_owned _ Hw).
      * intros t a' Ht. rewrite lookup_delete_ne; [by apply (w_tasks _ Hw) in Ht|]. intros <-.
        pose proof (count_pos (points_to a) (tasks w) t (Some a) Ht) as Hc.
        unfold points_to at 1 in Hc. rewrite bool_decide_true in Hc by done. specialize (Hc eq_refl). lia.
      * intros a' i' [_ Hi']%lookup_delete_Some. by apply (w_strong _ Hw).
    + split; try apply He; simpl.
      * intros a' i' Hi'. rewrite lookup_delete_ne by congruence. by apply He.
      * intros a' j e [He' _]%Hent. by apply (e_new _ _ He a' j).
  - set (w' := mkWorld (CURRENT w) (tasks w) (<[a := set_strong (strong i - 1) i]> (inners w))
      (boxes w) (__keys w) (id_COUNTER w) (key_COUNTER w)).
    assert (∀ a' j e, entry_at w' a' j e → entry_at w a' j e) as Hent.
    { intros a' j e (i' & es & Hi & Hes & Hj). simpl in Hi.
      apply lookup_insert_Some in Hi as [[<- <-]|[_ Hi]]; [by exists i, es|by exists i', es]. }
    split_and!; [split; try apply Hw|split; try apply He|done]; simpl.
    + intros a' j e He'%Hent. by apply (w_entries _ Hw) in He'.
    + intros a1 j1 e1 a2 j2 e2 HH1%Hent HH2%Hent. by apply (w_owned _ Hw).
    + intros t a' Ht. apply (w_tasks _ Hw) in Ht. rewrite lookup_insert_is_Some'. by right.
    + intros a' i' [[<- <-]|[_ Hi']]%lookup_insert_Some; [simpl; lia|by apply (w_strong _ Hw)].
    + intros a' i' Hi'. rewrite lookup_insert_ne by congruence. by apply He.
    + intros a' j e He'%Hent. by apply (e_new _ _ He a' j).
Qed.

Lemma task_deleted_ok base w t :
  WInv w → extends base w → tasks base !! t = None → CURRENT w ≠ Some t →
  let w' := mkWorld (CURRENT w) (delete t (tasks w)) (inners w) (boxes w) (__keys w)
    (id_COUNTER w) (key_COUNTER w) in
  WInv w' ∧ extends base w'.
Proof.
  intros Hw He Ht Hcur w'.
  split; split; try apply Hw; try apply He; simpl.
  - intros t' Ht'. rewrite lookup_delete_ne by congruence. by apply (w_current _ Hw).
  - intros t' a [_ Ha]%lookup_delete_Some. by apply (w_tasks _ Hw) in Ha.
  - intros a i Hi. apply (w_strong _ Hw) in Hi.
    pose proof (count_set (points_to a) (tasks w) t None) as Hc. simpl in Hc. lia.
  - intros t' raw Hraw. rewrite lookup_delete_ne by congruence. by apply (e_tasks _ _ He).
  - intros t' a' H1 [_ H2]%lookup_delete_Some. by apply (e_fresh _ _ He t').
Qed.

Lemma Task_drop_ok base w t :
  drops_safely → WInv w → extends base w → tasks base !! t = None → CURRENT w ≠ Some t →
  is_Some (tasks w !! t) → (∀ a, tasks w !! t = Some (Some a) → inners base !! a = None) →
  ok base (λ _ _, True) (Task_drop drop_value t w).
Proof.
  intros Hd Hw He Hnew Hcur [raw Ht] Ha. unfold Task_drop. steps.
  rewrite (follow_bind _ _ _ _ Ht). steps.
  destruct (task_deleted_ok base w t) as [Hw' He']; [done..|].
  destruct raw as [a|]; [|by split_and!]. apply Arc_drop_ok; [done..|by apply Ha| |by apply (w_tasks _ Hw t)].
  intros i Hi. apply (w_strong _ Hw) in Hi.
  pose proof (count_set (points_to a) (tasks w) t None) as Hc. rewrite Ht in Hc. simpl in *.
  unfold points_to at 2 in Hc. rewrite bool_decide_true in Hc by done. simpl in Hc. lia.
Qed.
(** ** The current task *)

Definition with_current (t : option nat) w : World :=
  mkWorld t (tasks w) (inners w) (boxes w) (__keys w) (id_COUNTER w) (key_COUNTER w).

Lemma with_current_WInv t w :
  WInv w → (∀ t', t = Some t' → is_Some (tasks w !! t')) → WInv (with_current t w).
Proof. intros Hw Ht. split; try apply Hw; simpl. by intros t' ->; apply Ht. Qed.

Lemma with_current_extends w1 t w2 :
  extends (with_current t w1) w2 → extends w1 (with_current (CURRENT w1) w2).
Proof. intros He. split; try apply He. done. Qed.

(** [set_current] puts the pointer back, however [f] ends. *)
Lemma set_current_ok {R} (P : R → Prop) t (f : M R) w :
  WInv w → ok (with_current (Some t) w) (λ r _, P r) (f (with_current (Some t) w)) →
  ok w (λ r _, P r) (set_current t f w).
Proof.
  intros Hw Hf. unfold set_current. steps. eapply ok_defer; [exact Hf|].
  intros w2 Hw2 He2. split_and!; [|by eapply with_current_extends|done].
  apply with_current_WInv; [done|]. intros t' Ht'.
  destruct (w_current _ Hw t' Ht') as [raw Hraw].
  destruct (e_tasks _ _ He2 t' raw Hraw) as (? & ? & _). by eexists.
Qed.

Lemma new_task_ok w t :
  WInv w → tasks w !! t = None →
  let w' := mkWorld (CURRENT w) (<[t := None]> (tasks w)) (inners w) (boxes w) (__keys w)
    (id_COUNTER w) (key_COUNTER w) in
  WInv w' ∧ extends w w'.
Proof.
  intros Hw Ht w'.
  split; split; try apply Hw; try apply (extends_refl w); simpl.
  - intros t' Ht'. apply (w_current _ Hw) in Ht'. rewrite lookup_insert_is_Some'. by right.
  - intros t' a [[_ ?]|[_ Ha]]%lookup_insert_Some; [done|]. by apply (w_tasks _ Hw) in Ha.
  - intros a i Hi. apply (w_strong _ Hw) in Hi.
    pose proof (points_to_set a (tasks w) t None) as Hc. rewrite Ht in Hc. simpl in Hc.
    change (Nat.b2n (points_to a None)) with 0 in Hc. lia.
  - intros t' raw Hraw. exists raw. rewrite lookup_insert_ne by congruence. split; [done|by intros a ->].
  - intros t' a' H1 H2. rewrite lookup_insert_ne in H2 by congruence. congruence.
Qed.

(** A task around safe code: nothing that was there is lost, and its own values are
    dropped before it ends. *)
Lemma block_on_ok {R} (P : R → Prop) (pre : World → Prop) (run : M R) w :
  drops_safely → WInv w → safe pre run (λ r _, P r) →
  (∀ w', boxes w' = boxes w → pre w') →
  ok w (λ r _, P r) (block_on drop_value run w).
Proof.
  intros Hd Hw Hrun Hpre. unfold block_on, Task_new, new_task. steps.
  set (t := fresh (dom (tasks w))).
  assert (tasks w !! t = None) as Ht by apply not_elem_of_dom, is_fresh.
  destruct (new_task_ok w t) as [Hw1 He1]; [done..|].
  set (w1 := mkWorld _ (<[t := None]> (tasks w)) _ _ _ _ _) in *.
  assert (tasks w1 !! t = Some None) as Ht1 by apply lookup_insert_eq.
  eapply (ok_defer w w1).
  - apply set_current_ok; [done|].
    assert (WInv (with_current (Some t) w1)) as Hwc.
    { apply with_current_WInv; [done|]. intros t' [= <-]. by eexists. }
    eapply ok_defer; [by apply Hrun, Hpre|]. intros w2 Hw2 He2.
    unfold get_current. steps. rewrite (e_current _ _ He2). simpl. rewrite run_bind_assoc.
    eapply ok_bind; [by apply drop_locals_ok|]. intros [] w3 Hw3 He3 _. by split_and!.
  - intros w2 Hw2 He2. apply Task_drop_ok; [done|done|by apply (extends_trans _ w1)|done| | |].
    + rewrite (e_current _ _ He2). simpl. intros Hc. destruct (w_current _ Hw t Hc). congruence.
    + destruct (e_tasks _ _ He2 t None Ht1) as (raw & Hr & _). by eexists.
    + intros a Ha. by apply (e_fresh _ _ He2 t a).
Qed.

(** A poll of a spawned task: the task is the current one meanwhile and the old one
    is back afterwards; a panic aborts the process, so that nothing unwinds into the
    executor; the values of the task stay while it is pending, and are dropped when
    it is done. *)
Lemma spawned_runs {R} (poll : M (option R)) t w r w1 :
  poll (with_current (Some t) w) = (r, w1) →
  let result := Runnable_run t (spawned_poll drop_value poll) w in
  (r = Returns None → result = (Returns None, with_current (CURRENT w) w1)) ∧
  (∀ x w2, r = Returns (Some x) → get_current (drop_locals drop_value) w1 = (Returns (Some ()), w2) →
     result = (Returns (Some x), with_current (CURRENT w) w2)) ∧
  result.1 ≠ Unwinds.
Proof.
  intros Hp. cbv zeta.
  assert (Runnable_run t (spawned_poll drop_value poll) w =
    defer (set_CURRENT (CURRENT w)) (abort_on_panic (spawned_poll drop_value poll)) (with_current (Some t) w)) as -> by done.
  unfold defer, abort_on_panic, spawned_poll. rewrite Hp. split_and!.
  - by intros ->.
  - intros x w2 -> Hg. unfold defer, stop.
    unfold mbind, run_mbind, run_bind. by rewrite Hg.
  - destruct r as [[x|]| | | |]; simpl; try done; unfold defer, stop;
      by destruct ((get_current (drop_locals drop_value) ≫= λ _, mret ()) w1) as [[[]| | | |] w2].
Qed.

(** ** Handles *)

(** A new handle [t] of the [Inner] at [a], counted in it. *)
Lemma cloned_ok w t a i :
  WInv w → inners w !! a = Some i → tasks w !! t = None →
  let w' := mkWorld (CURRENT w) (<[t := Some a]> (tasks w)) (<[a := set_strong (S (strong i)) i]> (inners w))
    (boxes w) (__keys w) (id_COUNTER w) (key_COUNTER w) in
  WInv w' ∧ extends w w'.
Proof.
  intros Hw Ha Ht w'.
  assert (∀ a' j e, entry_at w' a' j e → entry_at w a' j e) as Hent.
  { intros a' j e (i' & es & Hi & Hes & Hj). simpl in Hi.
    apply lookup_insert_Some in Hi as [[<- <-]|[_ Hi]]; [by exists i, es|by exists i', es]. }
  split; split; try apply Hw; try apply (extends_refl w); simpl.
  - intros a' j e He'%Hent. by apply (w_entries _ Hw) in He'.
  - intros a1 j1 e1 a2 j2 e2 H1%Hent H2%Hent. by apply (w_owned _ Hw).
  - intros t' Ht'. apply (w_current _ Hw) in Ht'. rewrite lookup_insert_is_Some'. by right.
  - intros t' a' [[_ [= <-]]|[_ Ha']]%lookup_insert_Some; rewrite lookup_insert_is_Some'; [by left|right].
    by apply (w_tasks _ Hw) in Ha'.
  - intros a' i' Hi'. pose proof (points_to_set a' (tasks w) t (Some a)) as Hc. rewrite Ht in Hc. simpl in Hc.
    apply lookup_insert_Some in Hi' as [[<- <-]|[Hne Hi']].
    + apply (w_strong _ Hw) in Ha. simpl. destruct (points_to a (Some a)); simpl in Hc; lia.
    + replace (points_to a' (Some a)) with false in Hc by (symmetry; apply bool_decide_eq_false; congruence).
      apply (w_strong _ Hw) in Hi'. simpl in Hc. lia.
  - intros t' raw Hraw. exists raw. rewrite lookup_insert_ne by congruence. split; [done|by intros a' ->].
  - intros a' i' Hi'. destruct (decide (a = a')) as [<-|Hne].
    + rewrite lookup_insert_eq. eexists. split; [done|]. assert (i' = i) as -> by congruence.
      simpl. split; [done|]. intros es Hes. by exists es.
    + exists i'. rewrite lookup_insert_ne by done. split_and!; [done..|]. intros es Hes. by exists es.
  - intros a' j e He'%Hent. left. by exists j.
  - intros t' a' H1 H2. rewrite lookup_insert_ne in H2 by congruence. congruence.
Qed.

(** [task::current]: a handle to the [Inner] of the current task. *)
Lemma current_ok w :
  WInv w →
  ok w (λ t' w', ∃ t a, CURRENT w' = Some t ∧ tasks w' !! t = Some (Some a) ∧ t' ≠ t ∧
    tasks w' !! t' = Some (Some a)) (current drop_value w).
Proof.
  intros Hw. unfold current, get_current. steps.
  destruct (CURRENT w) as [t|] eqn:Hcur; [|by split; [|apply extends_refl]].
  unfold Task_clone. rewrite !run_bind_assoc. eapply ok_bind; [by apply Task_inner_ok, (w_current _ Hw)|].
  intros a w1 Hw1 He1 Ha. simpl in Ha. destruct (w_tasks _ Hw1 t a Ha) as [i Hi].
  eapply ok_trans; [exact He1|]. unfold Arc_clone, new_task. steps. rewrite (follow_bind _ _ _ _ Hi). steps.
  set (t' := fresh (dom (tasks w1))).
  assert (tasks w1 !! t' = None) as Ht' by apply not_elem_of_dom, is_fresh.
  assert (t' ≠ t) as Hne by (intros ->; congruence).
  destruct (cloned_ok w1 t' a i) as [Hw2 He2]; [done..|].
  split_and!; [done|done|]. exists t, a. simpl. rewrite (e_current _ _ He1).
  rewrite lookup_insert_eq, lookup_insert_ne by done. done.
Qed.
End Types.
