(* ===== verification/TaskTheorems.v ===== *)
(** The theorems on tasks and their local values, from the lemmas of TaskSpec.v,
    and the same at concrete inputs. *)

From stdpp Require Import gmap fin_maps sorting.
From S2P Require Import Prelude Utils Task TaskSpec.

Section Safety.
Context {Ty : Type} `{EqDecision Ty} {den : Ty → Type}.
Context (type_of : nat → Ty) (drop_value : ∀ ty : Ty, den ty → Run (World (den:=den)) ()).
Abbreviation World := (Task.World (den:=den)).
Abbreviation M := (Run World).
Abbreviation safe := (safe type_of).

(** The references that code has: pointers that were cast to a [&T]. *)
Definition refs_valid (refs : list (nat * Ty)) (w : World) : Prop :=
  ∀ r ty, (r, ty) ∈ refs → valid r ty w.

(** Before the first task. *)
Definition initial_world : World := mkWorld None ∅ ∅ ∅ ∅ 1 1.

Lemma refs_valid_extends refs w w' : refs_valid refs w → extends w w' → refs_valid refs w'.
Proof. intros Hr He r ty Hin. by apply He, Hr. Qed.

Lemma initial_world_WInv : WInv type_of initial_world.
Proof.
  assert (∀ a j e, ¬ entry_at initial_world a j e) as Hno by (by intros a j e (i & es & Hi & _)).
  split; simpl.
  - lia.
  - intros c k Hc. by rewrite lookup_empty in Hc.
  - intros a j e He. by destruct (Hno a j e).
  - intros a1 j1 e1 a2 j2 e2 H1. by destruct (Hno a1 j1 e1).
  - done.
  - intros t a Ht. by rewrite lookup_empty in Ht.
  - intros a i Hi. by rewrite lookup_empty in Hi.
Qed.

(** One safe piece of code after the other. *)
Lemma safe_bind {A B} refs (post1 : A → World → Prop) (post2 : B → World → Prop) (m : M A) (k : A → M B) :
  safe (refs_valid refs) m post1 →
  (∀ a, safe (λ w, refs_valid refs w ∧ post1 a w) (k a) post2) →
  safe (refs_valid refs) (m ≫= k) post2.
Proof.
  intros Hm Hk w Hw Hr. eapply ok_bind; [by apply Hm|]. intros a w1 Hw1 He1 Ha.
  eapply ok_trans; [exact He1|]. apply Hk; [done|]. split; [by eapply refs_valid_extends|done].
Qed.

Lemma safe_pre {A} (pre pre' : World → Prop) (m : M A) (post : A → World → Prop) :
  (∀ w, pre' w → pre w) → safe pre m post → safe pre' m post.
Proof. intros Hp Hm w Hw Hr. apply Hm; auto. Qed.

Lemma safe_post {A} (pre : World → Prop) (m : M A) (post post' : A → World → Prop) :
  (∀ a w, post a w → post' a w) → safe pre m post → safe pre m post'.
Proof. intros Hp Hm w Hw Hr. eapply ok_weaken; [by apply Hm|done]. Qed.

Lemma safe_ret {A} (pre : World → Prop) (a : A) : safe pre (mret a) (λ _ _, True).
Proof. intros w Hw _. by apply ok_ret. Qed.

(** C36 Type safety of the unsafe casts of task-local storage.  [safe pre m post]: in
    a consistent world where [pre] holds, the code [m] never follows a dangling
    pointer, nor uses a box at a type it has not; and when it returns (then [post]
    holds) or unwinds, the world is consistent, the current task is the one it was,
    and no reference, key or value that there was is lost.  Code that is safe with
    a reference to a value of the key's type is safe in [try_with], whatever the
    initialiser does that is safe; the references that code has, from this key and
    others, can be read and written; a task around safe code is safe and leaves
    the references outside as they were, although it drops its own values; taking
    a new handle to the current task is safe; and the first world is consistent.
    The destructors are code of this kind too. *)
Theorem locals_type_safe :
  drops_safely type_of drop_value →
  (∀ c (this : LocalKey (type_of c)) R (f : nat → M R) refs post,
     __key this = c → safe (λ _, True) (__init this) (λ _ _, True) →
     (∀ r, safe (refs_valid ((r, type_of c) :: refs)) (f r) post) →
     safe (refs_valid refs) (try_with drop_value this f) (λ o w, ∀ x, o = Some x → post x w)) ∧
  (∀ refs r ty, (r, ty) ∈ refs →
     safe (refs_valid refs) (deref ty r) (λ _ _, True) ∧
     (∀ v, safe (refs_valid refs) (assign ty r v) (λ _ _, True))) ∧
  (∀ R (P : R → Prop) (run : M R) refs,
     safe (refs_valid refs) run (λ x _, P x) →
     safe (refs_valid refs) (block_on drop_value run) (λ x _, P x)) ∧
  safe (λ _, True) (current drop_value) (λ t' w, ∃ t a, CURRENT w = Some t ∧
     tasks w !! t = Some (Some a) ∧ tasks w !! t' = Some (Some a)) ∧
  WInv type_of initial_world.
Proof.
  intros Hd. split_and!; [| | | |apply initial_world_WInv].
  - intros c this R f refs post Hc Hinit Hf w Hw Hr.
    apply (try_with_ok type_of drop_value c this f (refs_valid refs)); [done..| | |done].
    + intros w' Hr' He. by eapply refs_valid_extends.
    + intros r. eapply safe_pre; [|apply Hf]. intros w' [Hr' Hv] r' ty Hin.
      apply elem_of_cons in Hin as [[= -> ->]|Hin]; [done|by apply Hr'].
  - intros refs r ty Hin. split.
    + intros w Hw Hr. eapply ok_weaken; [by apply deref_ok, Hr|done].
    + intros v w Hw Hr. by apply assign_ok, Hr.
  - intros R P run refs Hrun w Hw Hr. apply (block_on_ok _ _ P (refs_valid refs)); [done..|].
    intros w' Hb r ty Hin. destruct (Hr r ty Hin) as (b & Hb' & Ht). exists b. by rewrite Hb.
  - intros w Hw _. eapply ok_weaken; [by apply current_ok|]. naive_solver.
Qed.
End Safety.

(** * What an access does *)

(** Runs the operations that succeed. *)
Ltac run := repeat (rewrite run_bind_assoc || (erewrite run_bind_returns by reflexivity)).

Section Once.
Context {Ty : Type} `{EqDecision Ty} {den : Ty → Type}.
Context (drop_value : ∀ ty : Ty, den ty → Run (World (den:=den)) ()).
Abbreviation World := (Task.World (den:=den)).
Abbreviation M := (Run World).
Implicit Types (w : World).

(** The world with a new value for the task whose [Inner] is at [a]. *)
Definition with_entry w (a : nat) i (es : list Entry) (r : nat) (b : Boxed (den:=den)) : World :=
  mkWorld (CURRENT w) (tasks w) (<[a := set_locals (Some es) i]> (inners w)) (<[r := b]> (boxes w))
    (__keys w) (id_COUNTER w) (key_COUNTER w).

Section Access.
Context {ty : Ty} {R : Type} (this : LocalKey (den:=den) ty) (f : nat → M R) (w wk : World) (t a : nat) (k : N) (i : Inner).
Context (Hcur : CURRENT w = Some t) (Hkey : LocalKey_key this w = (Returns k, wk)).
Context (Ht : tasks wk !! t = Some (Some a)) (Ha : inners wk !! a = Some i).

Lemma try_with_access r w' :
  get_or_insert a k (v ← __init this; Box_new (existT ty v)) wk = (Returns r, w') →
  try_with drop_value this f w = (x ← f r; mret (Some x)) w'.
Proof using Hcur Hkey Ht.
  intros Hg. unfold try_with, get_current. rewrite run_bind_get, Hcur, run_bind_assoc.
  rewrite (run_bind_returns _ _ _ _ _ Hkey), run_bind_assoc.
  rewrite (run_bind_returns _ _ _ _ _ (inner_loop_ready drop_value 1 t a wk Ht)).
  by rewrite run_bind_assoc, (run_bind_returns _ _ _ _ _ Hg).
Qed.

Lemma try_with_unwinds w' :
  get_or_insert a k (v ← __init this; Box_new (existT ty v)) wk = (Unwinds, w') →
  try_with drop_value this f w = (Unwinds, w').
Proof using Hcur Hkey Ht.
  intros Hg. unfold try_with, get_current. rewrite run_bind_get, Hcur, run_bind_assoc.
  rewrite (run_bind_returns _ _ _ _ _ Hkey), run_bind_assoc.
  rewrite (run_bind_returns _ _ _ _ _ (inner_loop_ready drop_value 1 t a wk Ht)).
  rewrite run_bind_assoc. unfold mbind, run_mbind, run_bind in *. by rewrite Hg.
Qed.

Lemma get_or_insert_dropped init :
  locals i = None → get_or_insert a k init wk = (Unwinds, wk).
Proof using Ha.
  intros Hl. unfold get_or_insert, inner_of. rewrite run_bind_assoc, run_bind_get, (follow_bind _ _ _ _ Ha).
  by rewrite Hl.
Qed.

Context (es : list Entry) (Hes : locals i = Some es) (Hsorted : StronglySorted N.lt (key <$> es)).

Lemma get_or_insert_found init e :
  e ∈ es → key e = k → get_or_insert a k init wk = (Returns (value e), wk).
Proof using Ha Hes Hsorted.
  intros Hin Hek. unfold get_or_insert, inner_of. rewrite run_bind_assoc, run_bind_get, (follow_bind _ _ _ _ Ha), Hes.
  pose proof (binary_search_sorted k _ Hsorted) as Hs.
  destruct (binary_search_by_key _ _) as [n|n].
  2: { destruct Hs as [Hs _]. destruct Hs. rewrite <- Hek. by apply list_elem_of_fmap_2. }
  apply list_lookup_fmap_Some in Hs as (e' & Hk' & He').
  unfold entries_of, inner_of.
  rewrite run_bind_mret, !run_bind_assoc, run_bind_get, (follow_bind _ _ _ _ Ha).
  rewrite (follow_bind _ _ _ _ Hes), He'.
  apply list_elem_of_lookup in Hin as [j Hj].
  assert (j = n) as ->; [|rewrite He' in Hj; by injection Hj as ->].
  assert ((key <$> es) !! j = Some k) as Hj' by (rewrite list_lookup_fmap, Hj; simpl; by f_equal).
  assert ((key <$> es) !! n = Some k) as Hn' by (rewrite list_lookup_fmap, He'; simpl; by f_equal).
  by apply (sorted_position _ _ _ k Hsorted).
Qed.

Context (Hnew : k ∉ (key <$> es)).

Lemma get_or_insert_unwinds init w1 :
  init wk = (Unwinds, w1) → get_or_insert a k init wk = (Unwinds, w1).
Proof using Ha Hes Hsorted Hnew.
  intros Hi. unfold get_or_insert, inner_of. rewrite run_bind_assoc, run_bind_get, (follow_bind _ _ _ _ Ha), Hes.
  pose proof (binary_search_sorted k _ Hsorted) as Hs.
  destruct (binary_search_by_key _ _) as [n|n].
  { destruct Hnew. by eapply list_elem_of_lookup_2. }
  rewrite run_bind_assoc. unfold mbind, run_mbind, run_bind. by rewrite Hi.
Qed.

Lemma get_or_insert_new v w1 i1 :
  __init this wk = (Returns v, w1) → inners w1 !! a = Some i1 → locals i1 = Some es →
  ∃ es' r, boxes w1 !! r = None ∧ es' ≡ₚ mkEntry k r :: es ∧ StronglySorted N.lt (key <$> es') ∧
    get_or_insert a k (v ← __init this; Box_new (existT ty v)) wk =
      (Returns r, with_entry w1 a i1 es' r (existT ty v)).
Proof using Ha Hes Hsorted Hnew.
  intros Hi Ha1 Hes1. unfold get_or_insert, inner_of.
  rewrite run_bind_assoc, run_bind_get, (follow_bind _ _ _ _ Ha), Hes.
  pose proof (binary_search_sorted k _ Hsorted) as Hs. pose proof (binary_search_any k (key <$> es)) as Hany.
  destruct (binary_search_by_key _ _) as [n|n].
  { destruct Hnew. by eapply list_elem_of_lookup_2. }
  destruct Hs as [_ Hs]. rewrite length_fmap in Hany.
  set (r := fresh (dom (boxes w1))). exists (take n es ++ mkEntry k r :: drop n es), r.
  split_and!.
  - apply not_elem_of_dom, is_fresh.
  - rewrite <- Permutation_middle, take_drop. done.
  - rewrite fmap_app, fmap_cons, fmap_take, fmap_drop. exact Hs.
  - rewrite run_bind_assoc, run_bind_assoc, (run_bind_returns _ _ _ _ _ Hi).
    unfold Box_new, entries_of, inner_of, insert_entry. run.
    erewrite (follow_bind _ _ i1) by exact Ha1. erewrite (follow_bind _ _ es) by exact Hes1.
    rewrite (proj2 (Nat.leb_le _ _)) by done. run.
    erewrite (follow_bind _ _ i1) by exact Ha1. run.
    erewrite follow_bind by apply lookup_insert_eq. erewrite follow_bind by reflexivity.
    by rewrite lookup_inserted, decide_True by done.
Qed.

End Access.

(** What [try_with] does.  Outside a task it answers the access error, and
    neither the initialiser nor the closure is run.  In a task whose values have been
    dropped it panics.  Otherwise, the entries being sorted by their keys: if there
    is one with this key, the closure gets the value it has, without the
    initialiser; if there is none, the initialiser is run; if it panics, no entry
    is made; and if it returns and has left the map as it was, the closure gets a
    new box with its value, in an entry that is added so that the map stays sorted,
    for the next access to find. *)
Theorem locals_once {ty R} (this : LocalKey (den:=den) ty) (f : nat → M R) w :
  (CURRENT w = None → try_with drop_value this f w = (Returns None, w)) ∧
  (∀ t k wk a i, CURRENT w = Some t → LocalKey_key this w = (Returns k, wk) →
    tasks wk !! t = Some (Some a) → inners wk !! a = Some i →
    (locals i = None → try_with drop_value this f w = (Unwinds, wk)) ∧
    ∀ es, locals i = Some es → StronglySorted N.lt (key <$> es) →
      (∀ e, e ∈ es → key e = k → try_with drop_value this f w = (x ← f (value e); mret (Some x)) wk) ∧
      (k ∉ (key <$> es) →
        (∀ w1, __init this wk = (Unwinds, w1) → try_with drop_value this f w = (Unwinds, w1)) ∧
        (∀ v w1 i1, __init this wk = (Returns v, w1) → inners w1 !! a = Some i1 → locals i1 = Some es →
          ∃ es' r, boxes w1 !! r = None ∧ es' ≡ₚ mkEntry k r :: es ∧ StronglySorted N.lt (key <$> es') ∧
            try_with drop_value this f w =
              (x ← f r; mret (Some x)) (with_entry w1 a i1 es' r (existT ty v))))).
Proof.
  split.
  - intros Hcur. unfold try_with, get_current. by rewrite run_bind_get, Hcur.
  - intros t k wk a i Hcur Hkey Ht Ha. split.
    { intros Hl. eapply try_with_unwinds; [done..|]. by eapply get_or_insert_dropped. }
    intros es Hes Hs. split.
    { intros e He Hk. eapply try_with_access; [done..|]. by eapply get_or_insert_found. }
    intros Hnew. split.
    + intros w1 Hi. eapply try_with_unwinds; [done..|]. eapply get_or_insert_unwinds; [done..|].
      unfold mbind, run_mbind, run_bind. by rewrite Hi.
    + intros v w1 i1 Hi Ha1 Hes1.
      destruct (get_or_insert_new this wk a k i Ha es Hes Hs Hnew v w1 i1 Hi Ha1 Hes1)
        as (es' & r & Hr & Hp & Hs' & Hg).
      exists es', r. split_and!; [done..|]. by eapply try_with_access.
Qed.
End Once.

(** * At concrete inputs *)

Inductive code : Type := Number | Text.
#[local] Instance code_eq_dec : EqDecision code.
Proof. solve_decision. Defined.

Definition meaning (c : code) : Type := match c with Number => N | Text => list N end.
Definition code_of (c : nat) : code := match c with 1 => Text | _ => Number end.
Definition nothing (c : code) (_ : meaning c) : Run (World (den:=meaning)) () := mret tt.

Definition COUNT : LocalKey (den:=meaning) Number := mkLocalKey (mret 5%N : Run _ (meaning Number)) 0.
Definition TITLE : LocalKey (den:=meaning) Text := mkLocalKey (mret [7%N] : Run _ (meaning Text)) 1.

(** Counts up inside a task, and a task inside that. *)
Definition nested : Run (World (den:=meaning)) (N * list N) :=
  block_on nothing (
    _ ← with_local nothing COUNT (λ r, n ← deref Number r; assign Number r (n + 1)%N);
    l ← block_on nothing (
      _ ← with_local nothing COUNT (λ r, assign Number r 0%N);
      with_local nothing TITLE (deref Text));
    n ← with_local nothing COUNT (deref Number);
    mret (n, l)).

(** A reference to the count of one task is used in a task inside. *)
Definition shared : Run (World (den:=meaning)) (option (option N)) :=
  block_on nothing (try_with nothing COUNT (λ r,
    block_on nothing (try_with nothing TITLE (λ r', _ ← assign Text r' []; deref Number r)))).

Example shared_result : (shared initial_world).1 = Returns (Some (Some 5%N)).
Proof. vm_compute. reflexivity. Qed.

Lemma nothing_safe : drops_safely code_of nothing.
Proof. intros ty v. apply safe_ret. Qed.

Lemma locals_type_safe_witness :
  drops_safely code_of nothing ∧ safe code_of (refs_valid []) shared (λ _ _, True).
Proof.
  split; [exact nothing_safe|].
  destruct (locals_type_safe code_of nothing nothing_safe) as (Htry & Href & Hblock & _ & _).
  apply (Hblock _ (λ _, True)). eapply safe_post; [|eapply (Htry 0 COUNT _ _ [] (λ _ _, True))];
    [done|reflexivity|apply safe_ret|intros r].
  apply (Hblock _ (λ _, True)). eapply safe_post; [|eapply (Htry 1 TITLE _ _ [(r, code_of 0)] (λ _ _, True))];
    [done|reflexivity|apply safe_ret|intros r'].
  apply (safe_bind _ [(r', code_of 1); (r, code_of 0)] (λ _ _, True)); [apply Href; set_solver|].
  intros x. eapply safe_pre; [|apply (Href [(r', code_of 1); (r, code_of 0)] r (code_of 0)); set_solver].
  intros w Hr. exact (proj1 Hr).
Defined.

Lemma locals_once_witness :
  (try_with nothing COUNT (deref Number) initial_world).1 = Returns None ∧
  ∃ es' r, es' ≡ₚ [mkEntry 1 r] ∧
    (set_current 0 (try_with nothing COUNT (deref Number))
      (mkWorld None {[0 := Some 0]} {[0 := mkInner 1 None (Some []) 1]} ∅ ∅ 2 1)).1 = Returns (Some 5%N).
Proof.
  split.
  - rewrite (proj1 (locals_once nothing COUNT (deref Number) initial_world)) by reflexivity. reflexivity.
  - set (w := mkWorld (Some 0) {[0 := Some 0]} {[0 := mkInner 1 None (Some []) 1]} ∅ ∅ 2 1
      : World (den:=meaning)).
    destruct (proj2 (locals_once nothing COUNT (deref Number) w) 0 1%N
      (mkWorld (Some 0) {[0 := Some 0]} {[0 := mkInner 1 None (Some []) 1]} ∅ {[0 := 1%N]} 2 2)
      0 (mkInner 1 None (Some []) 1) eq_refl) as [_ Hin]; [vm_compute; reflexivity..|].
    destruct (Hin [] eq_refl) as [_ Hnew]; [constructor|].
    destruct Hnew as [_ Hnew]; [apply not_elem_of_nil|].
    edestruct Hnew as (es' & r & _ & Hes & _ & Heq); [reflexivity..|].
    exists es', r. split; [exact Hes|]. vm_compute. reflexivity.
Defined.

(** An initialiser that uses another task-local value: the place that the search
    found is stale when it returns, the map is no longer sorted, and the value is
    made a second time at the next access. *)
Definition TOTAL : LocalKey (den:=meaning) Number :=
  mkLocalKey (l ← with_local nothing TITLE (deref Text); mret (hd 0%N l) : Run _ (meaning Number)) 2.

Example locals_made_twice :
  (_ ← block_on nothing (with_local nothing TITLE (λ _, mret tt));
   block_on nothing (
     r1 ← with_local nothing TOTAL (λ r, _ ← assign Number r 9%N; mret r);
     r2 ← with_local nothing TOTAL mret;
     v ← with_local nothing TOTAL (deref Number);
     mret (bool_decide (r1 = r2), v))) initial_world
  = (Returns (false, 7%N), mkWorld None ∅ ∅ ∅ {[1 := 1%N; 2 := 2%N]} 3 3).
Proof. vm_compute. reflexivity. Qed.

Example nested_result : (nested initial_world).1 = Returns (6%N, [7%N]).
Proof. vm_compute. reflexivity. Qed.
