(* ===== verification/Park.v ===== *)
(** Blocking a thread on a future: [run] of src/src/task/block_on.rs, its waker over
    a [Parker] in an [Arc], and the parker that each thread keeps for the next call.

    The loop is cut where another thread may come in between.  The code of users
    (the future that is polled, and whoever holds a waker) may clone, call and drop
    wakers at any time, poll to any answer, and block on other futures meanwhile.
    The [Parker] is that of the crossbeam_utils crate. *)

From stdpp Require Import gmap fin_maps relations.
From S2P Require Import Prelude Utils.
Local Open Scope async_scope.

(** * [crossbeam_utils::sync::Parker] *)

(** [park] is [None] while it blocks. *)
Class Park (P : Type) : Type := {
  Parker_new : P;
  park : P → option P;
  unpark : P → P
}.

(** Its documentation: [park] waits for the token and takes it, [unpark] makes it
    available. *)
Class ParkLaws (P : Type) `{Park P} : Type := {
  token : P → bool;
  token_new : token Parker_new = false;
  token_unpark p : token (unpark p) = true;
  park_blocks p : token p = false → park p = None;
  park_takes p : token p = true → ∃ p', park p = Some p' ∧ token p' = false
}.

Section Park.
Context {P : Type} `{Park P}.

(** * [Arc<Parker>] *)

(** What an [Arc] points to: its count of references, and the value. *)
Record ArcInner : Type := mkArcInner { strong : nat; parker : P }.
Abbreviation Heap := (gmap nat ArcInner).

Abbreviation M := (Run Heap).

(** Follows a pointer; one that dangles is undefined behaviour. *)
Definition arc (a : nat) : M ArcInner := λ h,
  match h !! a with Some i => (Returns i, h) | None => (Undefined, h) end.
Definition set_arc (a : nat) (i : ArcInner) : M () := modify (<[a := i]>).

Definition Arc_new (p : P) : M nat :=
  h ← get id;
  let a := fresh (dom h) in
  _ ← set_arc a (mkArcInner 1 p);
  mret a.
Definition Arc_clone (a : nat) : M () :=
  i ← arc a; set_arc a (mkArcInner (S (strong i)) (parker i)).
Definition Arc_drop (a : nat) : M () :=
  i ← arc a;
  if strong i =? 1 then modify (delete a)
  else set_arc a (mkArcInner (strong i - 1) (parker i)).

(** * The virtual table of the wakers *)

(** [clone_raw] and [drop_raw].  The [Arc] made of the raw pointer is not dropped by
    [clone_raw] and [wake_by_ref_raw]. *)
Definition clone_raw (ptr : nat) : M nat := _ ← Arc_clone ptr; mret ptr.
Definition drop_raw (ptr : nat) : M () := Arc_drop ptr.

(** [arc.unparker().unpark()]: all of [wake_by_ref_raw], and the first part of
    [wake_raw], which then drops its [Arc]. *)
Definition wake_by_ref_raw (ptr : nat) : M () :=
  i ← arc ptr; set_arc ptr (mkArcInner (strong i) (unpark (parker i))).

(** * [run] *)

(** Where a call of [run] is. *)
Inductive Pc : Type :=
| PollNext     (* about to poll the future *)
| InPoll       (* in the code of the future *)
| YieldNow     (* about to call [thread::yield_now] *)
| ParkNext.    (* about to call [park], or blocked in it *)

#[global] Instance Pc_eq_dec : EqDecision Pc.
Proof. solve_decision. Defined.

(** The local variables of a call of [run]. *)
Record Frame : Type := mkFrame { arc_parker : nat; step_ : nat; at_ : Pc }.
Definition goto (pc : Pc) (f : Frame) : Frame := mkFrame (arc_parker f) (step_ f) pc.

(** [cache.take().unwrap_or_else(|| Arc::new(Parker::new()))]. *)
Definition take_parker (cache : option nat) : M nat :=
  match cache with Some a => mret a | None => Arc_new Parker_new end.

Definition run_start (cache : option nat) : M Frame :=
  a ← take_parker cache; mret (mkFrame a 0 PollNext).

(** [Cell::set] drops what was in the cell. *)
Definition cache_drop (cache : option nat) : M () :=
  match cache with Some a => Arc_drop a | None => mret tt end.

(** [park], and whether it returned. *)
Definition arc_park (a : nat) : M bool :=
  i ← arc a;
  match park (parker i) with
  | Some p => _ ← set_arc a (mkArcInner (strong i) p); mret true
  | None => mret false
  end.

(** How the code of the future comes to an end. *)
Inductive Outcome : Type := IsReady | IsPending | Panics.

(** What happens to the wakers: a future is polled with the waker of the parker
    [a], or a waker of [a] is called. *)
Inductive Event : Type := Polls (a : nat) | Woken (a : nat).

(** What the call of [run] at [f] does next, given what the thread has in its
    [CACHE]: where the call is afterwards ([None] when it is left), the [CACHE], and
    the events.  Nobody else uses the [CACHE] in between. *)
Definition frame_step (o : Outcome) (f : Frame) (cache : option nat) :
    M (option Frame * option nat * list Event) :=
  match at_ f with
  | PollNext => mret (Some (goto InPoll f), cache, [Polls (arc_parker f)])
  | InPoll =>
      match o with
      | IsReady => _ ← cache_drop cache; mret (None, Some (arc_parker f), [])
      | IsPending => mret (Some (goto (if step_ f <? 3 then YieldNow else ParkNext) f), cache, [])
      | Panics => _ ← Arc_drop (arc_parker f); mret (None, cache, [])
      end
  | YieldNow => mret (Some (mkFrame (arc_parker f) (S (step_ f)) PollNext), cache, [])
  | ParkNext =>
      returned ← arc_park (arc_parker f);
      mret (Some (if returned : bool then mkFrame (arc_parker f) 0 PollNext else f), cache, [])
  end.

(** * Threads and wakers *)

(** The calls of [run] of a thread, the innermost first, and its [CACHE]. *)
Record Thread : Type := mkThread { stack : list Frame; CACHE : option nat }.

(** A waker; [waking] is set between the two parts of [wake_raw]. *)
Record Waker : Type := mkWaker { ptr : nat; waking : bool }.

Record System : Type := mkSystem {
  heap : Heap;
  threads : gmap nat Thread;
  wakers : gmap nat Waker;
  log : list Event
}.

(** The thread runs code of users, which may call [block_on]. *)
Definition in_user_code (t : Thread) : bool :=
  match stack t with f :: _ => match at_ f with InPoll => true | _ => false end | [] => true end.

Definition push_frame (f : option Frame) (fs : list Frame) : list Frame :=
  match f with Some f => f :: fs | None => fs end.

(** The thread [tid] moves in its innermost call of [run]. *)
Inductive turn (tid : nat) : System → System → Prop :=
| turn_frame h th ws l t o f fs f' cache' ev h' :
    th !! tid = Some t → stack t = f :: fs →
    frame_step o f (CACHE t) h = (Returns (f', cache', ev), h') →
    turn tid (mkSystem h th ws l)
      (mkSystem h' (<[tid := mkThread (push_frame f' fs) cache']> th) ws (l ++ ev)).

Inductive step : System → System → Prop :=
| step_turn tid s s' : turn tid s s' → step s s'
| step_spawn h th ws l tid :                       (* a new thread *)
    th !! tid = None →
    step (mkSystem h th ws l) (mkSystem h (<[tid := mkThread [] None]> th) ws l)
| step_exit h th ws l tid t h' :                   (* and the end of one *)
    th !! tid = Some t → stack t = [] → cache_drop (CACHE t) h = (Returns tt, h') →
    step (mkSystem h th ws l) (mkSystem h' (delete tid th) ws l)
| step_start h th ws l tid t f h' :                (* [run] is called *)
    th !! tid = Some t → in_user_code t = true → run_start (CACHE t) h = (Returns f, h') →
    step (mkSystem h th ws l) (mkSystem h' (<[tid := mkThread (f :: stack t) None]> th) ws l)
| step_cx_clone h th ws l tid t f w a h' :         (* [cx.waker().clone()] *)
    th !! tid = Some t → f ∈ stack t → at_ f = InPoll → ws !! w = None →
    clone_raw (arc_parker f) h = (Returns a, h') →
    step (mkSystem h th ws l) (mkSystem h' th (<[w := mkWaker a false]> ws) l)
| step_cx_wake h th ws l tid t f h' :              (* [cx.waker().wake_by_ref()] *)
    th !! tid = Some t → f ∈ stack t → at_ f = InPoll →
    wake_by_ref_raw (arc_parker f) h = (Returns tt, h') →
    step (mkSystem h th ws l) (mkSystem h' th ws (l ++ [Woken (arc_parker f)]))
| step_clone h th ws l v a w a' h' :               (* the same, of a waker *)
    ws !! v = Some (mkWaker a false) → ws !! w = None → clone_raw a h = (Returns a', h') →
    step (mkSystem h th ws l) (mkSystem h' th (<[w := mkWaker a' false]> ws) l)
| step_wake_by_ref h th ws l w a h' :
    ws !! w = Some (mkWaker a false) → wake_by_ref_raw a h = (Returns tt, h') →
    step (mkSystem h th ws l) (mkSystem h' th ws (l ++ [Woken a]))
| step_wake h th ws l w a h' :                     (* [wake], in two parts *)
    ws !! w = Some (mkWaker a false) → wake_by_ref_raw a h = (Returns tt, h') →
    step (mkSystem h th ws l) (mkSystem h' th (<[w := mkWaker a true]> ws) (l ++ [Woken a]))
| step_wake_drop h th ws l w a h' :
    ws !! w = Some (mkWaker a true) → Arc_drop a h = (Returns tt, h') →
    step (mkSystem h th ws l) (mkSystem h' th (delete w ws) l)
| step_drop h th ws l w a h' :                     (* the drop of a waker *)
    ws !! w = Some (mkWaker a false) → drop_raw a h = (Returns tt, h') →
    step (mkSystem h th ws l) (mkSystem h' th (delete w ws) l).

Definition initial : System := mkSystem ∅ ∅ ∅ [].
Definition reachable (s : System) : Prop := rtc step initial s.
End Park.
