(* ===== verification/ParkSpec.v ===== *)
(** What blocking on a future promises (src/src/task/block_on.rs): no wakeup is lost,
    calls of [block_on] do not share a parker, and wakers never outlive it. *)

From stdpp Require Import gmap fin_maps relations.
From S2P Require Import Prelude Utils Maps Park.
Local Open Scope async_scope.

Section Spec.
Context {P : Type} `{ParkLaws P}.
Implicit Types (h : gmap nat (ArcInner (P:=P))) (s : System (P:=P)) (th : gmap nat Thread) (ws : gmap nat Waker)
  (l : list nat) (lg : list Event) (t : Thread) (f : Frame).

(** * Who holds references *)

Definition thread_refs t : list nat := (arc_parker <$> stack t) ++ option_list (CACHE t).
Definition waker_refs (w : Waker) : list nat := [ptr w].
Definition owners th ws : list nat := gathered thread_refs th ++ gathered waker_refs ws.

(** The counts are those of the references in [l]. *)
Definition counts h l : Prop :=
  ∀ a, default 0 (strong <$> h !! a) = times a l ∧ ∀ i, h !! a = Some i → 0 < strong i.

(** The token of the parker at [a] is available. *)
Definition tok h a : bool := match h !! a with Some i => token (parker i) | None => false end.

(** A waker of [a] was called since a future was last polled with it. *)
Definition woken_after (a : nat) (b : bool) (e : Event) : bool :=
  match e with
  | Polls x => if decide (x = a) then false else b
  | Woken x => if decide (x = a) then true else b
  end.
Definition woken (a : nat) lg : bool := fold_left (woken_after a) lg false.

Lemma woken_app a lg e : woken a (lg ++ [e]) = woken_after a (woken a lg) e.
Proof. unfold woken. by rewrite fold_left_app. Qed.

(** * The heap *)

Lemma counts_perm h l l' : l ≡ₚ l' → counts h l → counts h l'.
Proof. intros Hp Hc a. destruct (Hc a) as [Ha Hi]. by rewrite <- (times_perm a _ _ Hp). Qed.

Lemma counts_in h l a : counts h l → a ∈ l → ∃ i, h !! a = Some i ∧ 0 < strong i ∧ strong i = times a l.
Proof.
  intros Hc Ha%times_in. destruct (Hc a) as [Ht Hi]. destruct (h !! a) as [i|]; simpl in Ht; [|lia].
  exists i. split_and!; [done|by apply Hi|done].
Qed.

Lemma counts_out h l a : counts h l → h !! a = None → a ∉ l.
Proof. intros Hc Ha Hin. destruct (counts_in h l a Hc Hin) as (i & Hi & _). congruence. Qed.

(** One entry changes. *)
Lemma counts_set h l l' a i :
  counts h l → (∀ b, b ≠ a → times b l' = times b l) → strong i = times a l' → 0 < strong i →
  counts (<[a := i]> h) l'.
Proof.
  intros Hc Hne Ha Hpos b. destruct (decide (b = a)) as [->|Hb].
  - rewrite lookup_insert_eq. simpl. split; [done|]. by intros j [= <-].
  - rewrite lookup_insert_ne by done. destruct (Hc b) as [Hl Hi]. by rewrite Hne.
Qed.

Lemma times_other a b l : b ≠ a → times b (a :: l) = times b l.
Proof. intros Hne. rewrite times_cons, decide_False by congruence. lia. Qed.
Lemma times_same a l : (times a (a :: l)) = S (times a l).
Proof. by rewrite times_cons, decide_True. Qed.

Lemma arc_new_ok h l p :
  counts h l → ∃ a, Arc_new p h = (Returns a, <[a := mkArcInner 1 p]> h) ∧ (a ∉ l) ∧
    counts (<[a := mkArcInner 1 p]> h) (a :: l).
Proof.
  intros Hc. exists (fresh (dom h)). split; [done|].
  assert (h !! fresh (dom h) = None) as Hf by apply not_elem_of_dom, is_fresh.
  pose proof (counts_out h l _ Hc Hf) as Hout. split; [done|].
  eapply counts_set; [done|intros b Hb; by apply times_other| |simpl; lia].
  rewrite times_same, times_out by done. done.
Qed.

Lemma arc_clone_ok h l a :
  counts h l → a ∈ l → ∃ i, h !! a = Some i ∧
    Arc_clone a h = (Returns tt, <[a := mkArcInner (S (strong i)) (parker i)]> h) ∧
    counts (<[a := mkArcInner (S (strong i)) (parker i)]> h) (a :: l).
Proof.
  intros Hc Ha. destruct (counts_in h l a Hc Ha) as (i & Hi & Hpos & Ht). exists i. split_and!; [done| |].
  - unfold Arc_clone. erewrite run_bind_returns; [|unfold arc; by rewrite Hi]. done.
  - eapply counts_set; [done|intros b Hb; by apply times_other| |simpl; lia]. by rewrite times_same, <- Ht.
Qed.

(** A reference is dropped; what the others refer to stays. *)
Lemma arc_drop_ok h l a :
  counts h (a :: l) → ∃ h', Arc_drop a h = (Returns tt, h') ∧ counts h' l ∧ ∀ b, b ∈ l → tok h' b = tok h b.
Proof.
  intros Hc. destruct (counts_in h _ a Hc) as (i & Hi & Hpos & Ht); [left|]. rewrite times_same in Ht.
  unfold Arc_drop. rewrite (run_bind_returns (arc a) _ h i h) by (unfold arc; by rewrite Hi).
  destruct (strong i =? 1) eqn:He.
  - apply Nat.eqb_eq in He. exists (delete a h). split; [done|].
    assert (a ∉ l) as Hout by (intros Hin%times_in; lia). split.
    + intros b. destruct (decide (b = a)) as [->|Hb].
      * rewrite lookup_delete_eq. split; [by rewrite times_out|done].
      * rewrite lookup_delete_ne by done. destruct (Hc b) as [Hl Hp]. by rewrite times_other in Hl.
    + intros b Hb. unfold tok. rewrite lookup_delete_ne; [done|]. by intros ->.
  - apply Nat.eqb_neq in He. eexists. split; [reflexivity|]. split.
    + eapply counts_set; [done|intros b Hb; symmetry; by apply times_other|simpl; lia..].
    + intros b _. unfold tok. destruct (decide (b = a)) as [->|Hb].
      * by rewrite lookup_insert_eq, Hi.
      * by rewrite lookup_insert_ne.
Qed.

(** The parker at [a] is another one. *)
Lemma set_parker_ok h l a i p :
  counts h l → h !! a = Some i → a ∈ l →
  counts (<[a := mkArcInner (strong i) p]> h) l ∧ tok (<[a := mkArcInner (strong i) p]> h) a = token p ∧
  ∀ b, b ≠ a → tok (<[a := mkArcInner (strong i) p]> h) b = tok h b.
Proof.
  intros Hc Hi Ha. destruct (counts_in h l a Hc Ha) as (i' & Hi' & Hpos & Ht). simplify_eq.
  split_and!; [by eapply counts_set| |].
  - unfold tok. by rewrite lookup_insert_eq.
  - intros b Hb. unfold tok. by rewrite lookup_insert_ne.
Qed.

Lemma tok_set_same h a n i : h !! a = Some i → ∀ b, tok (<[a := mkArcInner n (parker i)]> h) b = tok h b.
Proof.
  intros Hi b. unfold tok. destruct (decide (b = a)) as [->|Hb]; [by rewrite lookup_insert_eq, Hi|].
  by rewrite lookup_insert_ne.
Qed.

Lemma wake_by_ref_ok h l a :
  counts h l → a ∈ l → ∃ h', wake_by_ref_raw a h = (Returns tt, h') ∧ counts h' l ∧
    tok h' a = true ∧ ∀ b, b ≠ a → tok h' b = tok h b.
Proof.
  intros Hc Ha. destruct (counts_in h l a Hc Ha) as (i & Hi & _).
  destruct (set_parker_ok h l a i (unpark (parker i)) Hc Hi Ha) as (Hc' & Ht & Hb).
  eexists. split; [|by rewrite Ht, token_unpark in *; eauto].
  unfold wake_by_ref_raw. by rewrite (run_bind_returns (arc a) _ h i h) by (unfold arc; by rewrite Hi).
Qed.

(** * A call of [run] *)

(** A call that is not about to poll has the token if its waker was called. *)
Definition alert h lg f : Prop :=
  at_ f ≠ PollNext → woken (arc_parker f) lg = true → tok h (arc_parker f) = true.

(** It yields three times at most before it parks. *)
Definition few f : Prop := step_ f ≤ 3 ∧ (at_ f = YieldNow → step_ f < 3).

Lemma run_start_ok h l cache :
  counts h (option_list cache ++ l) → ∃ f h', run_start cache h = (Returns f, h') ∧
    step_ f = 0 ∧ at_ f = PollNext ∧ counts h' (arc_parker f :: l) ∧
    (arc_parker f ∈ option_list cache ∨ arc_parker f ∉ l) ∧ (∀ b, b ∈ l → tok h' b = tok h b).
Proof.
  intros Hc. destruct cache as [a|]; simpl in Hc.
  - exists (mkFrame a 0 PollNext), h. split_and!; try done. left. by left.
  - destruct (arc_new_ok h l Parker_new Hc) as (a & Ha & Hout & Hc').
    exists (mkFrame a 0 PollNext), (<[a := mkArcInner 1 Parker_new]> h).
    split_and!; [|done|done|done|by right|].
    + unfold run_start. by rewrite (run_bind_returns (take_parker None) _ h a _ Ha).
    + intros b Hb. unfold tok. rewrite lookup_insert_ne; [done|]. by intros <-.
Qed.

Lemma cache_drop_ok h l cache :
  counts h (option_list cache ++ l) → ∃ h', cache_drop cache h = (Returns tt, h') ∧ counts h' l ∧
    ∀ b, b ∈ l → tok h' b = tok h b.
Proof. intros Hc. destruct cache as [a|]; simpl in *; [by apply arc_drop_ok|by eauto]. Qed.

Lemma arc_park_ok h l a :
  counts h l → a ∈ l → ∃ h', arc_park a h = (Returns (tok h a), h') ∧ counts h' l ∧
    (tok h a = false → h' = h) ∧ ∀ b, b ≠ a → tok h' b = tok h b.
Proof.
  intros Hc Ha. destruct (counts_in h l a Hc Ha) as (i & Hi & _).
  assert (tok h a = token (parker i)) as -> by (unfold tok; by rewrite Hi).
  unfold arc_park. rewrite (run_bind_returns (arc a) _ h i h) by (unfold arc; by rewrite Hi).
  destruct (token (parker i)) eqn:Ht.
  - destruct (park_takes _ Ht) as (p & -> & _). destruct (set_parker_ok h l a i p Hc Hi Ha) as (Hc' & _ & Hb).
    eexists. by split_and!.
  - rewrite (park_blocks _ Ht). by exists h.
Qed.

(** What a call does next: nothing dangles, it keeps its parker or leaves it in the
    [CACHE], and it touches no other parker. *)
Record Stepped (o : Outcome) f (cache : option nat) h l lg
    (f' : option Frame) (cache' : option nat) (ev : list Event) h' : Prop := {
  st_run : frame_step o f cache h = (Returns (f', cache', ev), h');
  st_counts : counts h' ((arc_parker <$> option_list f') ++ option_list cache' ++ l);
  st_refs : (arc_parker <$> option_list f') ++ option_list cache' ⊆+ arc_parker f :: option_list cache;
  st_tok : ∀ b, b ∈ l → b ≠ arc_parker f → tok h' b = tok h b;
  st_ev : ev = [] ∨ ev = [Polls (arc_parker f)] ∧ at_ f = PollNext;
  st_frame : ∀ g, f' = Some g → arc_parker g = arc_parker f ∧ few g ∧ alert h' (lg ++ ev) g
}.

Lemma frame_step_ok o f cache h l lg :
  counts h (arc_parker f :: option_list cache ++ l) → few f → alert h lg f →
  ∃ (f' : option Frame) cache' ev h', Stepped o f cache h l lg f' cache' ev h'.
Proof.
  intros Hc [Hs Hy] Hal. destruct f as [a k pc]. simpl in *. destruct pc.
  - exists (Some (mkFrame a k InPoll)), cache, [Polls a], h. split; simpl; try done; [by right|].
    intros g [= <-]. simpl. split_and!; [done|by split|]. intros _. rewrite woken_app. simpl. by rewrite decide_True.
  - destruct o.
    + destruct (cache_drop_ok h (a :: l) cache) as (h' & Hd & Hc' & Ht).
      { eapply counts_perm; [|exact Hc]. solve_Permutation. }
      exists None, (Some a), [], h'. split; simpl; try done; [|apply submseteq_skip, submseteq_nil_l| |by left].
      * unfold frame_step. simpl. by rewrite (run_bind_returns _ _ _ _ _ Hd).
      * intros b Hb _. apply Ht. by right.
    + exists (Some (goto (if k <? 3 then YieldNow else ParkNext) (mkFrame a k InPoll))), cache, [], h.
      split; simpl; try done; [by left|]. intros g [= <-]. simpl. rewrite app_nil_r.
      split_and!; [done| |by intros _ Hw; apply Hal].
      split; simpl; [done|]. destruct (Nat.ltb_spec k 3); [by intros|done].
    + destruct (arc_drop_ok h (option_list cache ++ l) a Hc) as (h' & Hd & Hc' & Ht).
      exists None, cache, [], h'. split; simpl; try done; [|by apply submseteq_cons| |by left].
      * unfold frame_step. simpl. by rewrite (run_bind_returns _ _ _ _ _ Hd).
      * intros b Hb _. apply Ht. apply elem_of_app. by right.
  - exists (Some (mkFrame a (S k) PollNext)), cache, [], h. split; simpl; try done; [by left|].
    intros g [= <-]. simpl. specialize (Hy eq_refl). split_and!; [done|split; simpl; [lia|done]|by intros []].
  - destruct (arc_park_ok h _ a Hc) as (h' & Hp & Hc' & Hsame & Ht); [left|].
    exists (Some (if tok h a then mkFrame a 0 PollNext else mkFrame a k ParkNext)), cache, [], h'.
    assert (∀ x : bool, arc_parker (if x then mkFrame a 0 PollNext else mkFrame a k ParkNext) = a) as Harc by by intros [].
    split; simpl; rewrite ?Harc; try done; [|by intros b _ Hne; apply Ht|by left|].
    + unfold frame_step. simpl. by rewrite (run_bind_returns _ _ _ _ _ Hp).
    + intros g [= <-]. rewrite Harc, app_nil_r. destruct (tok h a) eqn:Htok; simpl; [split_and!; [done|split; simpl; [lia|done]|by intros []]|].
      split_and!; [done|by split|]. intros _ Hw. rewrite Hsame by done. by apply Hal.
Qed.

(** * The invariant *)

(** The calls of a thread: all but the innermost are in the code of their future. *)
Definition calls_ok h lg t : Prop :=
  Forall (λ f, few f ∧ alert h lg f) (stack t) ∧ Forall (λ f, at_ f = InPoll) (tail (stack t)).

Record Inv s : Prop := {
  inv_counts : counts (heap s) (owners (threads s) (wakers s));
  inv_parkers : NoDup (gathered thread_refs (threads s));
  inv_calls : ∀ tid t, threads s !! tid = Some t → calls_ok (heap s) (log s) t
}.

(** Whatever of [l] is called, has its token. *)
Definition noted h lg h' lg' l : Prop :=
  ∀ b, b ∈ l → woken b lg' = true → tok h' b = true ∨ (woken b lg = true ∧ tok h' b = tok h b).

Lemma calls_noted h lg h' lg' l t :
  noted h lg h' lg' l → (∀ f, f ∈ stack t → arc_parker f ∈ l) → calls_ok h lg t → calls_ok h' lg' t.
Proof.
  intros Hn Hin [Ha Ht]. split; [|done]. rewrite list.Forall_forall in Ha |- *. intros f Hf.
  destruct (Ha f Hf) as [Hfew Hal]. split; [done|]. intros Hpc Hw.
  destruct (Hn _ (Hin f Hf) Hw) as [|[Hw' ->]]; [done|]. by apply Hal.
Qed.

Lemma noted_same h h' lg l : (∀ b, b ∈ l → tok h' b = tok h b) → noted h lg h' lg l.
Proof. intros Ht b Hb Hw. right. split; [done|by apply Ht]. Qed.

Lemma frame_refs t f : f ∈ stack t → arc_parker f ∈ thread_refs t.
Proof. intros Hf. apply elem_of_app. left. by apply list_elem_of_fmap_2. Qed.

Lemma frame_gathered th tid t f :
  th !! tid = Some t → f ∈ stack t → arc_parker f ∈ gathered thread_refs th.
Proof. intros Ht Hf. eapply gathered_in; [exact Ht|by apply frame_refs]. Qed.

Lemma frame_owner th ws tid t f : th !! tid = Some t → f ∈ stack t → arc_parker f ∈ owners th ws.
Proof. intros Ht Hf. apply elem_of_app. left. by eapply frame_gathered. Qed.

Lemma waker_owner th ws w a b : ws !! w = Some (mkWaker a b) → a ∈ owners th ws.
Proof. intros Hw. apply elem_of_app. right. eapply gathered_in; [exact Hw|]. by left. Qed.

(** What is shared changes, and no thread does. *)
Lemma shared_Inv h th ws lg h' ws' lg' :
  Inv (mkSystem h th ws lg) → counts h' (owners th ws') →
  noted h lg h' lg' (gathered thread_refs th) → Inv (mkSystem h' th ws' lg').
Proof.
  intros [Hc Hn Hf] Hc' Hno. split; simpl in *; [done..|]. intros tid t Ht.
  eapply calls_noted; [exact Hno| |by eapply Hf]. intros f. by apply (frame_gathered th tid t f).
Qed.

(** One thread changes; it has some of its references, and perhaps a new one. *)
Lemma thread_Inv h th ws lg h' lg' tid t t' :
  Inv (mkSystem h th ws lg) → th !! tid = Some t →
  counts h' (thread_refs t' ++ gathered thread_refs (delete tid th) ++ gathered waker_refs ws) →
  NoDup (thread_refs t' ++ gathered thread_refs (delete tid th)) →
  noted h lg h' lg' (gathered thread_refs (delete tid th)) → calls_ok h' lg' t' →
  Inv (mkSystem h' (<[tid := t']> th) ws lg').
Proof.
  intros [Hc Hn Hf] Ht Hc' Hn' Hno Ht'. split; simpl in *.
  - eapply counts_perm; [|exact Hc']. unfold owners. rewrite gathered_set. solve_Permutation.
  - by rewrite gathered_set.
  - intros tid2 t2 Ht2. destruct (decide (tid2 = tid)) as [->|Hne].
    + rewrite lookup_insert_eq in Ht2. by simplify_eq.
    + rewrite lookup_insert_ne in Ht2 by done. eapply calls_noted; [exact Hno| |by eapply Hf].
      intros f. apply (frame_gathered (delete tid th) tid2 t2 f). by rewrite lookup_delete_ne.
Qed.

Lemma owners_delete th ws tid t :
  th !! tid = Some t →
  owners th ws ≡ₚ thread_refs t ++ gathered thread_refs (delete tid th) ++ gathered waker_refs ws.
Proof. intros Ht. unfold owners. rewrite (gathered_delete _ th tid t Ht). solve_Permutation. Qed.

(** ** The innermost call of a thread moves *)

Lemma call_turn_Inv o h th ws lg tid t f fs :
  Inv (mkSystem h th ws lg) → th !! tid = Some t → stack t = f :: fs →
  ∃ (f' : option Frame) cache' ev h', frame_step o f (CACHE t) h = (Returns (f', cache', ev), h') ∧
    Inv (mkSystem h' (<[tid := mkThread (push_frame f' fs) cache']> th) ws (lg ++ ev)).
Proof.
  intros HI Ht Hst. pose proof HI as [Hc Hn Hf]. simpl in *. destruct t as [st cache]. simpl in *. subst st.
  destruct (Hf _ _ Ht) as [Hcalls Hin]. simpl in *. apply list.Forall_cons in Hcalls as [[Hfew Hal] Hcalls].
  set (R := (arc_parker <$> fs) ++ gathered thread_refs (delete tid th)).
  assert (NoDup (arc_parker f :: option_list cache ++ R)) as Hnd.
  { rewrite (gathered_delete _ th tid _ Ht) in Hn. unfold thread_refs in Hn. simpl in Hn.
    eapply NoDup_perm; [|exact Hn]. unfold R. solve_Permutation. }
  destruct (frame_step_ok o f cache h (R ++ gathered waker_refs ws) lg) as (f' & cache' & ev & h' & S); [|done..|].
  { eapply counts_perm; [|exact Hc]. rewrite (owners_delete _ ws _ _ Ht). unfold thread_refs, R. simpl. solve_Permutation. }
  destruct S as [Hrun Hc' Hrefs Htok Hev Hg].
  exists f', cache', ev, h'. split; [done|].
  assert (arc_parker f ∉ R) as Hout.
  { apply list.NoDup_cons in Hnd as [Hnot _]. intros Hr. apply Hnot, elem_of_app. by right. }
  assert (noted h lg h' (lg ++ ev) R) as Hno.
  { intros b Hb Hw. assert (b ≠ arc_parker f) as Hne by by intros ->. right. split.
    - destruct Hev as [->|[-> _]]; [by rewrite app_nil_r in Hw|].
      rewrite woken_app in Hw. simpl in Hw. by rewrite decide_False in Hw by done.
    - apply Htok; [apply elem_of_app; by left|done]. }
  assert ((arc_parker <$> push_frame f' fs) = (arc_parker <$> option_list f') ++ (arc_parker <$> fs)) as Hpush by by destruct f'.
  eapply thread_Inv; [done|exact Ht|..].
  - eapply counts_perm; [|exact Hc']. unfold thread_refs, R. simpl. rewrite Hpush. solve_Permutation.
  - assert (NoDup (((arc_parker <$> option_list f') ++ option_list cache') ++ R)) as Hnd'.
    { eapply NoDup_part; [|exact Hnd]. by apply (submseteq_app _ (arc_parker f :: option_list cache)). }
    eapply NoDup_perm; [|exact Hnd']. unfold thread_refs, R. simpl. rewrite Hpush. solve_Permutation.
  - intros b Hb. apply Hno. apply elem_of_app. by right.
  - assert (calls_ok h' (lg ++ ev) (mkThread fs cache')) as [Hfs _].
    { eapply calls_noted; [exact Hno|intros g Hgin; apply elem_of_app; left; by apply list_elem_of_fmap_2|].
      split; [exact Hcalls|]. simpl. destruct fs as [|g fs]; [done|]. simpl in *. by apply list.Forall_cons in Hin as [_ Hin]. }
    destruct f' as [g|]; simpl.
    + destruct (Hg g eq_refl) as (_ & Hgf & Hga). split; simpl; [by constructor|done].
    + split; [exact Hfs|]. simpl. destruct fs as [|g fs]; [done|]. by apply list.Forall_cons in Hin as [_ Hin].
Qed.

(** Code that runs on the same state does the same. *)
Ltac same_run := match goal with
  | H1 : ?m = (Returns _, _), H2 : ?m = (Returns _, _) |- _ => rewrite H2 in H1; injection H1 as ?; subst
  end.

(** ** The other steps *)

Lemma wake_noted h l a h' lg :
  tok h' a = true → (∀ b, b ≠ a → tok h' b = tok h b) → noted h lg h' (lg ++ [Woken a]) l.
Proof.
  intros Ha Hb b _ Hw. destruct (decide (b = a)) as [->|Hne]; [by left|]. right.
  rewrite woken_app in Hw. simpl in Hw. rewrite decide_False in Hw by done. by rewrite Hb.
Qed.

Lemma wake_Inv h th ws lg a h' :
  Inv (mkSystem h th ws lg) → a ∈ owners th ws → wake_by_ref_raw a h = (Returns tt, h') →
  Inv (mkSystem h' th ws (lg ++ [Woken a])).
Proof.
  intros HI Ha Hr. destruct (wake_by_ref_ok h _ a (inv_counts _ HI) Ha) as (h2 & Hr2 & Hc & Ht & Hb).
  same_run. eapply shared_Inv; [exact HI|exact Hc|]. by apply wake_noted.
Qed.

Lemma clone_raw_run h l a :
  counts h l → a ∈ l → ∃ h', clone_raw a h = (Returns a, h') ∧ counts h' (a :: l) ∧ ∀ b, tok h' b = tok h b.
Proof.
  intros Hc Ha. destruct (arc_clone_ok h l a Hc Ha) as (i & Hi & Hr & Hc').
  eexists. split; [unfold clone_raw; by rewrite (run_bind_returns _ _ _ _ _ Hr)|].
  split; [exact Hc'|]. by apply tok_set_same.
Qed.

Lemma clone_Inv h th ws lg a w a' h' :
  Inv (mkSystem h th ws lg) → a ∈ owners th ws → ws !! w = None → clone_raw a h = (Returns a', h') →
  Inv (mkSystem h' th (<[w := mkWaker a' false]> ws) lg).
Proof.
  intros HI Ha Hw Hr. destruct (clone_raw_run h _ a (inv_counts _ HI) Ha) as (h2 & Hr2 & Hc & Ht).
  same_run. eapply shared_Inv; [exact HI| |by apply noted_same].
  eapply counts_perm; [|exact Hc]. unfold owners. rewrite (gathered_new _ _ _ _ Hw). solve_Permutation.
Qed.

Lemma drop_Inv h th ws lg a w b h' :
  Inv (mkSystem h th ws lg) → ws !! w = Some (mkWaker a b) → Arc_drop a h = (Returns tt, h') →
  Inv (mkSystem h' th (delete w ws) lg).
Proof.
  intros HI Hw Hr. pose proof (inv_counts _ HI) as Hc. simpl in Hc.
  destruct (arc_drop_ok h (owners th (delete w ws)) a) as (h2 & Hr2 & Hc' & Ht).
  { eapply counts_perm; [|exact Hc]. unfold owners. rewrite (gathered_delete _ _ _ _ Hw). simpl. solve_Permutation. }
  same_run. eapply shared_Inv; [exact HI|exact Hc'|]. apply noted_same.
  intros c Hin. apply Ht, elem_of_app. by left.
Qed.

Lemma spawn_Inv h th ws lg tid :
  Inv (mkSystem h th ws lg) → th !! tid = None → Inv (mkSystem h (<[tid := mkThread [] None]> th) ws lg).
Proof.
  intros [Hc Hn Hf] Ht. simpl in *. pose proof (gathered_new thread_refs th tid (mkThread [] None) Ht) as Hp. simpl in Hp.
  split; simpl.
  - eapply counts_perm; [|exact Hc]. unfold owners. by rewrite Hp.
  - by rewrite Hp.
  - intros tid2 t2 [[<- <-]|[_ Ht2]]%lookup_insert_Some; [by split; constructor|by eapply Hf].
Qed.

Lemma exit_Inv h th ws lg tid t h' :
  Inv (mkSystem h th ws lg) → th !! tid = Some t → stack t = [] → cache_drop (CACHE t) h = (Returns tt, h') →
  Inv (mkSystem h' (delete tid th) ws lg).
Proof.
  intros [Hc Hn Hf] Ht Hst Hr. simpl in *. destruct t as [st cache]. simpl in *. subst st.
  pose proof (gathered_delete thread_refs th tid _ Ht) as Hp. unfold thread_refs at 2 in Hp. simpl in Hp.
  destruct (cache_drop_ok h (owners (delete tid th) ws) cache) as (h2 & Hr2 & Hc' & Htok).
  { eapply counts_perm; [|exact Hc]. unfold owners. rewrite Hp. solve_Permutation. }
  same_run. split; simpl; [done| |].
  - rewrite Hp in Hn. by apply list.NoDup_app in Hn as (_ & _ & Hn).
  - intros tid2 t2 [Hne Ht2]%lookup_delete_Some. eapply (calls_noted h lg _ lg (owners (delete tid th) ws)).
    + by apply noted_same.
    + intros f. apply frame_owner with tid2. by rewrite lookup_delete_ne.
    + by eapply Hf.
Qed.

Lemma start_Inv h th ws lg tid t f h' :
  Inv (mkSystem h th ws lg) → th !! tid = Some t → in_user_code t = true → run_start (CACHE t) h = (Returns f, h') →
  Inv (mkSystem h' (<[tid := mkThread (f :: stack t) None]> th) ws lg).
Proof.
  intros HI Ht Hu Hr. pose proof HI as [Hc Hn Hf]. simpl in *. destruct t as [st cache]. simpl in *.
  set (R := (arc_parker <$> st) ++ gathered thread_refs (delete tid th)).
  assert (NoDup (option_list cache ++ R)) as Hnd.
  { rewrite (gathered_delete _ th tid _ Ht) in Hn. eapply NoDup_perm; [|exact Hn]. unfold thread_refs, R. simpl. solve_Permutation. }
  destruct (run_start_ok h (R ++ gathered waker_refs ws) cache) as (f2 & h2 & Hr2 & Hs & Hpc & Hc' & Ha & Htok).
  { eapply counts_perm; [|exact Hc]. rewrite (owners_delete _ ws _ _ Ht). unfold thread_refs, R. simpl. solve_Permutation. }
  same_run.
  assert (noted h lg h' lg R) as Hno by (apply noted_same; intros b Hb; apply Htok, elem_of_app; by left).
  assert (arc_parker f ∉ R) as Hout.
  { apply list.NoDup_app in Hnd as (_ & Hdis & _). destruct Ha as [Ha|Ha]; [by apply Hdis|].
    intros Hin. by apply Ha, elem_of_app; left. }
  eapply thread_Inv; [exact HI|exact Ht|..].
  - eapply counts_perm; [|exact Hc']. unfold thread_refs, R. simpl. solve_Permutation.
  - apply (NoDup_perm (arc_parker f :: R)); [unfold thread_refs, R; simpl; solve_Permutation|].
    constructor; [done|]. by apply list.NoDup_app in Hnd as (_ & _ & Hnd).
  - intros b Hb. apply Hno, elem_of_app. by right.
  - destruct (Hf _ _ Ht) as [Hcalls Htail].
    destruct (calls_noted h lg h' lg R (mkThread st cache)) as [Hcalls' _]; [done| |by split|].
    { intros g Hg. apply elem_of_app. left. by apply list_elem_of_fmap_2. }
    simpl in *. split; simpl.
    + constructor; [|done]. split; [split; [lia|by rewrite Hpc]|]. by intros Hne.
    + destruct st as [|g st]; [done|]. constructor; [|done]. unfold in_user_code in Hu. simpl in Hu. by destruct (at_ g).
Qed.

Lemma park_step_Inv s s' : Inv s → step s s' → Inv s'.
Proof.
  intros HI Hs. destruct Hs as [tid s s' Htu|h th ws l tid Ht|h th ws l tid t h' Ht Hst Hr|h th ws l tid t f h' Ht Hu Hr|
    h th ws l tid t f w a h' Ht Hf Hpc Hw Hr|h th ws l tid t f h' Ht Hf Hpc Hr|h th ws l v a w a' h' Hv Hw Hr|
    h th ws l w a h' Hw Hr|h th ws l w a h' Hw Hr|h th ws l w a h' Hw Hr|h th ws l w a h' Hw Hr].
  - destruct Htu as [h th ws l t o f fs f' cache' ev h' Ht Hst Hr].
    destruct (call_turn_Inv o h th ws l tid t f fs HI Ht Hst) as (f2 & c2 & ev2 & h2 & Hr2 & HI2). by same_run.
  - by apply spawn_Inv.
  - by eapply exit_Inv.
  - by eapply start_Inv.
  - eapply clone_Inv; [exact HI|by eapply frame_owner|done..].
  - eapply wake_Inv; [exact HI|by eapply frame_owner|done].
  - eapply clone_Inv; [exact HI|by eapply waker_owner|done..].
  - eapply wake_Inv; [exact HI|by eapply waker_owner|done].
  - pose proof (wake_Inv h th ws l a h' HI (waker_owner _ _ _ _ _ Hw) Hr) as HI'.
    eapply shared_Inv; [exact HI'| |by apply noted_same].
    eapply counts_perm; [|exact (inv_counts _ HI')]. unfold owners. simpl.
    rewrite gathered_set, (gathered_delete _ _ _ _ Hw). done.
  - by eapply drop_Inv.
  - by eapply drop_Inv.
Qed.

Lemma park_reachable_Inv s : reachable s → Inv s.
Proof.
  unfold reachable. revert s. apply (rtc_ind_r (λ s, Inv s)).
  - split; simpl; [|by rewrite gathered_empty; constructor|by intros tid t; rewrite lookup_empty].
    intros a. unfold owners. by rewrite !gathered_empty, lookup_empty.
  - intros s1 s2 _ Hs HI. by eapply park_step_Inv.
Qed.

(** * Turns *)

(** The innermost call of [tid] is at [g], with what is shared as it is. *)
Definition call_at tid g fs (cache : option nat) lg s : Prop :=
  Inv s ∧ threads s !! tid = Some (mkThread (g :: fs) cache) ∧ log s = lg.

Lemma turn_to o tid g fs cache lg s f' ev h' :
  call_at tid g fs cache lg s → frame_step o g cache (heap s) = (Returns (Some f', cache, ev), h') →
  ∃ s', turn tid s s' ∧ call_at tid f' fs cache (lg ++ ev) s' ∧ heap s' = h'.
Proof.
  destruct s as [h th ws l]. intros (HI & Ht & <-) Hr. simpl in *.
  exists (mkSystem h' (<[tid := mkThread (f' :: fs) cache]> th) ws (l ++ ev)). split_and!; [|split_and!|done].
  - exact (turn_frame tid h th ws l _ o g fs (Some f') cache ev h' Ht eq_refl Hr).
  - destruct (call_turn_Inv o h th ws l tid _ g fs HI Ht eq_refl) as (f2 & c2 & ev2 & h2 & Hr2 & HI2).
    simpl in Hr2. by same_run.
  - apply lookup_insert_eq.
  - done.
Qed.

Lemma poll_turn tid g fs cache lg s :
  call_at tid g fs cache lg s → at_ g = PollNext →
  ∃ s', turn tid s s' ∧ call_at tid (goto InPoll g) fs cache (lg ++ [Polls (arc_parker g)]) s'.
Proof.
  intros Hs Hpc. destruct (turn_to IsPending tid g fs cache lg s (goto InPoll g) [Polls (arc_parker g)] (heap s) Hs)
    as (s' & Ht & Hs' & _); [unfold frame_step; by rewrite Hpc|by eauto].
Qed.

(** From its end of the round to the next poll, if it has the token. *)
Lemma wait_turn tid g fs cache lg s :
  call_at tid g fs cache lg s → at_ g = YieldNow ∨ at_ g = ParkNext ∧ tok (heap s) (arc_parker g) = true →
  ∃ s' g', turn tid s s' ∧ call_at tid g' fs cache lg s' ∧ arc_parker g' = arc_parker g ∧ at_ g' = PollNext.
Proof.
  intros Hs Hpc. pose proof Hs as (HI & Ht & _).
  assert (∃ g' h', frame_step IsPending g cache (heap s) = (Returns (Some g', cache, []), h') ∧
    arc_parker g' = arc_parker g ∧ at_ g' = PollNext) as (g' & h' & Hr & Ha & Hp).
  { destruct Hpc as [Hpc|[Hpc Htok]].
    - unfold frame_step. rewrite Hpc. eexists _, _. by split.
    - destruct (arc_park_ok (heap s) _ (arc_parker g) (inv_counts _ HI)) as (h' & Hr & _).
      { eapply frame_owner; [exact Ht|left]. }
      rewrite Htok in Hr. unfold frame_step. rewrite Hpc, (run_bind_returns _ _ _ _ _ Hr). eexists _, _. by split. }
  destruct (turn_to _ _ _ _ _ _ _ _ _ _ Hs Hr) as (s' & Hturn & Hs' & _). rewrite app_nil_r in Hs'.
  exists s', g'. by split_and!.
Qed.

Lemma wait_poll tid g fs cache lg s :
  call_at tid g fs cache lg s → at_ g ≠ InPoll → woken (arc_parker g) lg = true →
  ∃ n s' g', n ≤ 2 ∧ nsteps (turn tid) n s s' ∧ call_at tid g' fs cache (lg ++ [Polls (arc_parker g)]) s' ∧
    arc_parker g' = arc_parker g ∧ at_ g' = InPoll.
Proof.
  intros Hs Hpc Hw. pose proof Hs as (HI & Ht & Hlg).
  destruct (inv_calls _ HI _ _ Ht) as [Hcalls _]. simpl in Hcalls. apply list.Forall_cons in Hcalls as [[_ Hal] _].
  destruct (decide (at_ g = PollNext)) as [Hp|Hne].
  - destruct (poll_turn _ _ _ _ _ _ Hs Hp) as (s' & Htu & Hs'). exists 1, s', (goto InPoll g).
    split_and!; [lia|by apply nsteps_once|done..].
  - destruct (wait_turn _ _ _ _ _ _ Hs) as (s1 & g1 & Ht1 & Hs1 & Ha & Hp).
    { destruct (at_ g) eqn:E; [done..|by left|right; split; [done|]]. apply Hal; [by rewrite E|by rewrite Hlg]. }
    destruct (poll_turn _ _ _ _ _ _ Hs1 Hp) as (s2 & Ht2 & Hs2). rewrite Ha in Hs2.
    exists 2, s2, (goto InPoll g1). split_and!; [lia| |done..].
    by eapply nsteps_l, nsteps_once.
Qed.

(** * The theorems *)

(** C16 No wakeup is lost by a thread that blocks on a future.  In every reachable
    state, with any number of threads, of nested calls of [block_on], and of wakers
    that are cloned, called and dropped by anybody at any time: when the waker of a
    call has been called since the future was last polled (or while it is being
    polled), the call polls the future again after three turns of its own at most,
    one of which is the end of the current poll if it is pending; whatever is in
    the [CACHE] and whoever has the parker from an earlier call. *)
Theorem block_on_wakes s tid t f fs :
  reachable s → threads s !! tid = Some t → stack t = f :: fs → woken (arc_parker f) (log s) = true →
  ∃ n s' g, n ≤ 3 ∧ nsteps (turn tid) n s s' ∧ threads s' !! tid = Some (mkThread (g :: fs) (CACHE t)) ∧
    arc_parker g = arc_parker f ∧ at_ g = InPoll ∧ log s' = log s ++ [Polls (arc_parker f)].
Proof.
  intros HI%park_reachable_Inv Ht Hst Hw.
  assert (call_at tid f fs (CACHE t) (log s) s) as Hs by (destruct t; simpl in *; subst; by split).
  destruct (decide (at_ f = InPoll)) as [Hpc|Hne].
  - destruct (turn_to IsPending tid f fs (CACHE t) (log s) s
      (goto (if step_ f <? 3 then YieldNow else ParkNext) f) [] (heap s) Hs) as (s1 & Ht1 & Hs1 & _).
    { unfold frame_step. by rewrite Hpc. }
    rewrite app_nil_r in Hs1.
    destruct (wait_poll _ _ _ _ _ _ Hs1) as (n & s2 & g & Hn & Hns & (_ & Hg & Hl) & Ha & Hp);
      [by simpl; case_match|done|].
    exists (S n), s2, g. split_and!; [lia| |done..]. by eapply nsteps_l.
  - destruct (wait_poll _ _ _ _ _ _ Hs) as (n & s2 & g & Hn & Hns & (_ & Hg & Hl) & Ha & Hp); [done..|].
    exists n, s2, g. split_and!; [lia|done..].
Qed.

(** C17 Parkers are not shared, and wakers do not outlive them.  In every reachable
    state the calls of [run] that there are, nested ones and those of other threads,
    have parkers of their own, none of which is in a [CACHE]; the memory holds a
    parker exactly as long as there are references to it, and counts them; and
    nothing that a call, a thread or the holder of a waker does next follows a
    pointer to a parker that has been freed. *)
Theorem block_on_parkers s tid t :
  reachable s → threads s !! tid = Some t →
  NoDup (thread_refs t) ∧
  (∀ tid' t' a, threads s !! tid' = Some t' → a ∈ thread_refs t → a ∈ thread_refs t' → tid' = tid) ∧
  counts (heap s) (owners (threads s) (wakers s)) ∧
  (∀ o f fs, stack t = f :: fs → ∃ r h', frame_step o f (CACHE t) (heap s) = (Returns r, h')) ∧
  (∃ r h', run_start (CACHE t) (heap s) = (Returns r, h')) ∧
  (stack t = [] → ∃ h', cache_drop (CACHE t) (heap s) = (Returns tt, h')) ∧
  (∀ a, a ∈ owners (threads s) (wakers s) →
    (∃ h', clone_raw a (heap s) = (Returns a, h')) ∧ (∃ h', wake_by_ref_raw a (heap s) = (Returns tt, h')) ∧
    (∃ h', Arc_drop a (heap s) = (Returns tt, h'))).
Proof.
  intros HI%park_reachable_Inv Ht. pose proof HI as [Hc Hn Hf]. destruct s as [h th ws lg]. simpl in *.
  split_and!; [|..|exact Hc| | | |].
  - rewrite (gathered_delete _ _ _ _ Ht) in Hn. by apply list.NoDup_app in Hn as [Hn _].
  - intros tid' t' a Ht' Ha Ha'. by eapply gathered_unique.
  - intros o f fs Hst. destruct (call_turn_Inv o h th ws lg tid t f fs HI Ht Hst) as (? & ? & ? & ? & Hr & _). by eauto.
  - destruct (run_start_ok h ((arc_parker <$> stack t) ++ gathered thread_refs (delete tid th) ++ gathered waker_refs ws)
      (CACHE t)) as (f & h' & Hr & _); [|by eauto].
    eapply counts_perm; [|exact Hc]. rewrite (owners_delete _ ws _ _ Ht). unfold thread_refs. simpl. solve_Permutation.
  - intros Hst. destruct (cache_drop_ok h (gathered thread_refs (delete tid th) ++ gathered waker_refs ws) (CACHE t))
      as (h' & Hr & _); [|by eauto].
    eapply counts_perm; [|exact Hc]. rewrite (owners_delete _ ws _ _ Ht). unfold thread_refs. rewrite Hst. done.
  - intros a Ha. destruct (clone_raw_run h _ a Hc Ha) as (h1 & H1 & _).
    destruct (wake_by_ref_ok h _ a Hc Ha) as (h2 & H2 & _).
    apply elem_of_Permutation in Ha as (l' & Hl').
    destruct (arc_drop_ok h l' a) as (h3 & H3 & _); [by eapply counts_perm|]. by eauto 6.
Qed.
End Spec.

(** * At concrete inputs *)

(** A parker is its token. *)
#[local] Instance bool_park : Park bool := {
  Parker_new := false;
  park p := if p : bool then Some false else None;
  unpark _ := true
}.
#[local] Program Instance bool_park_laws : ParkLaws bool := { token p := p }.
Solve Obligations with naive_solver.

(** [turn], as a function. *)
Definition turn_fun (tid : nat) (o : Outcome) (s : System (P:=bool)) : option (System (P:=bool)) :=
  t ← threads s !! tid;
  match stack t with
  | f :: fs =>
      match frame_step o f (CACHE t) (heap s) with
      | (Returns (f', cache', ev), h') =>
          Some (mkSystem h' (<[tid := mkThread (push_frame f' fs) cache']> (threads s)) (wakers s) (log s ++ ev))
      | _ => None
      end
  | [] => None
  end.

Lemma turn_fun_turn tid o s s' : turn_fun tid o s = Some s' → turn tid s s'.
Proof.
  unfold turn_fun. destruct s as [h th ws l]. simpl. destruct (th !! tid) as [t|] eqn:Ht; simpl; [|done].
  destruct (stack t) as [|f fs] eqn:Hst; [done|].
  destruct (frame_step o f (CACHE t) h) as [[[[f' cache'] ev]| | | |] h'] eqn:Hr; try done.
  intros [= <-]. by eapply turn_frame.
Qed.

Fixpoint turns_fun (tid : nat) (os : list Outcome) (s : System (P:=bool)) : option (System (P:=bool)) :=
  match os with
  | [] => Some s
  | o :: os => s' ← turn_fun tid o s; turns_fun tid os s'
  end.

Lemma turns_fun_rtc tid os s s' : turns_fun tid os s = Some s' → rtc step s s'.
Proof.
  revert s. induction os as [|o os IH]; intros s; simpl; [by intros [= <-]|].
  destruct (turn_fun tid o s) as [s1|] eqn:Ht; simpl; [|done]. intros Hs.
  eapply rtc_l; [by eapply step_turn, turn_fun_turn|by apply IH].
Qed.

(** A thread is inside [block_on] for the first time, and its future has cloned the
    waker in the poll. *)
Definition cloned : System (P:=bool) :=
  mkSystem {[0 := mkArcInner 2 false]} {[7 := mkThread [mkFrame 0 0 InPoll] None]} {[0 := mkWaker 0 false]} [Polls 0].
(** It polled four times in vain and is parked. *)
Definition parked : System (P:=bool) :=
  mkSystem {[0 := mkArcInner 2 false]} {[7 := mkThread [mkFrame 0 3 ParkNext] None]} {[0 := mkWaker 0 false]}
    [Polls 0; Polls 0; Polls 0; Polls 0].
(** The waker is called. *)
Definition called : System (P:=bool) :=
  mkSystem {[0 := mkArcInner 2 true]} {[7 := mkThread [mkFrame 0 3 ParkNext] None]} {[0 := mkWaker 0 false]}
    [Polls 0; Polls 0; Polls 0; Polls 0; Woken 0].

Lemma cloned_reachable : reachable cloned.
Proof.
  eapply rtc_l; [by apply (step_spawn _ _ _ _ 7)|]. eapply rtc_l; [by eapply (step_start _ _ _ _ 7)|].
  eapply rtc_l; [by eapply step_turn, (turn_fun_turn 7 IsReady)|].
  apply rtc_once. eapply (step_cx_clone _ _ _ _ 7 _ _ 0 0); [reflexivity|by left|done..].
Qed.

Lemma called_reachable : reachable called.
Proof.
  unfold reachable. trans cloned; [exact cloned_reachable|]. trans parked.
  - apply (turns_fun_rtc 7 (repeat IsPending 10)). vm_compute. reflexivity.
  - apply rtc_once. by apply (step_wake_by_ref (heap parked) (threads parked) (wakers parked) (log parked) 0 0).
Qed.

Lemma block_on_wakes_witness :
  ∃ n s' g, n ≤ 3 ∧ nsteps (turn 7) n called s' ∧ threads s' !! 7 = Some (mkThread [g] None) ∧
    arc_parker g = 0 ∧ at_ g = InPoll ∧ log s' = log called ++ [Polls 0].
Proof.
  exact (block_on_wakes called 7 (mkThread [mkFrame 0 3 ParkNext] None) (mkFrame 0 3 ParkNext) []
    called_reachable eq_refl eq_refl eq_refl).
Defined.

Lemma block_on_parkers_witness : ∃ h', wake_by_ref_raw 0 (heap called) = (Returns tt, h').
Proof.
  destruct (block_on_parkers called 7 (mkThread [mkFrame 0 3 ParkNext] None) called_reachable eq_refl)
    as (_ & _ & _ & _ & _ & _ & Hops).
  apply (Hops 0). vm_compute. by left.
Defined.

(** A call that returns leaves its parker for the next one, and the waker of the
    first call, called late, makes the second one poll once more. *)
Example stale_wakeup :
  ∃ s, reachable s ∧ threads s !! 7 = Some (mkThread [mkFrame 0 0 PollNext] None) ∧
    woken 0 (log s) = true ∧ tok (heap s) 0 = true.
Proof.
  set (th := {[7 := mkThread [mkFrame 0 0 PollNext] None]} : gmap nat Thread).
  set (ws := {[0 := mkWaker 0 false]} : gmap nat Waker).
  exists (mkSystem {[0 := mkArcInner 2 true]} th ws [Polls 0; Woken 0]).
  split; [unfold reachable|by split_and!]. trans cloned; [exact cloned_reachable|].
  set (left := mkSystem {[0 := mkArcInner 2 false]} {[7 := mkThread [] (Some 0)]} ws [Polls 0]).
  trans left; [by apply (turns_fun_rtc 7 [IsReady])|].
  apply (rtc_l _ _ (mkSystem (heap left) th ws [Polls 0])).
  - by apply (step_start (heap left) (threads left) ws [Polls 0] 7 (mkThread [] (Some 0)) (mkFrame 0 0 PollNext)).
  - apply rtc_once. by apply (step_wake_by_ref (heap left) th ws [Polls 0] 0 0).
Qed.
