(* ===== verification/Driver.v ===== *)
(** The networking driver (src/src/net/driver/mod.rs): the table of the registered
    I/O handles, the thread that waits for events and wakes tasks, and the
    operations of a [Watcher], cut where another thread may come in between.
    The mio crate is a parameter ([Mio]), and the operating system with it. *)

From stdpp Require Import gmap fin_maps relations.
From S2P Require Import Prelude Async Io WakerSet WakerClients.
Local Open Scope async_scope.

(** * mio *)

(** What an operation waits for. *)
Inductive Interest : Type := Reading | Writing.
#[global] Instance Interest_eq_dec : EqDecision Interest.
Proof. solve_decision. Defined.

(** The flags of [mio::Ready], as bits. *)
Class Flags : Type := {
  ready_readable : N;
  ready_writable : N;
  ready_all : N;
  ready_hup : N
}.

(** [P] is the state of the operating system and of the poller, [Src] an event
    source, and a token is a number. *)
Class Mio (P Src : Type) : Type := {
  poller_new : Result P Error;
  poller_register : Src → nat → P → Result () Error * P;
  poller_deregister : Src → P → Result () Error * P;
  poller_poll : P → Result (list (nat * N)) Error * P;
  (* [Registration::new2], and [set_readiness] of the other half *)
  registration_new : P → Src * P;
  set_readiness : Src → N → P → Result () Error * P
}.

Definition flag_of `{Flags} (d : Interest) : N :=
  match d with Reading => ready_readable | Writing => ready_writable end.

(** The flags of an event tell that a source may be read or written. *)
Definition tells `{Flags} (d : Interest) (flags : N) : Prop := N.land flags (flag_of d) ≠ 0%N.

Class FlagsLaws `{Flags} : Prop := {
  all_readable : N.land ready_all ready_readable = ready_readable;
  readable_not_writable : N.land ready_readable ready_writable = 0%N
}.

(** What the documentation of mio speaks of: the token of a registered source,
    whether an operation on a source would block, and whether there is an event
    that is still to be delivered. *)
Class MioView (P Src : Type) : Type := {
  token_of : P → Src → option nat;
  blocked : P → Src → Interest → bool;
  pending : P → nat → Interest → bool
}.

(** The state goes on: events stay until they are delivered, and there is one when a
    registered source no longer blocks (for the sources other than those of
    [except]). *)
Definition steady `{MioView P Src} (except : Src → Prop) (p p' : P) : Prop :=
  (∀ s, ¬ except s → token_of p' s = token_of p s) ∧
  (∀ k d, pending p k d → pending p' k d) ∧
  (∀ s k d, ¬ except s → token_of p s = Some k → blocked p s d → blocked p' s d ∨ pending p' k d).

(** The documented behaviour of an edge-triggered poller. *)
Class MioLaws (P Src : Type) `{Mio P Src, Flags, MioView P Src} : Prop := {
  poller_new_spec p : poller_new = Ok p → ∀ s, token_of p s = None;
  registration_new_spec p s p' :
    registration_new p = (s, p') → token_of p s = None ∧ steady (λ _, False) p p';
  register_spec s k p r p' : poller_register s k p = (r, p') →
    token_of p' s = (if r is Ok _ then Some k else token_of p s) ∧ steady (.= s) p p';
  deregister_spec s p r p' : poller_deregister s p = (r, p') →
    (r = Ok () → token_of p' s = None) ∧ steady (.= s) p p';
  set_readiness_spec s flags p r p' : set_readiness s flags p = (r, p') → steady (λ _, False) p p';
  poll_spec p events p' : poller_poll p = (Ok events, p') →
    (∀ s, token_of p' s = token_of p s) ∧
    (∀ k d, pending p k d → pending p' k d ∨ ∃ flags, (k, flags) ∈ events ∧ tells d flags) ∧
    (∀ s k d, token_of p s = Some k → blocked p s d →
       blocked p' s d ∨ pending p' k d ∨ ∃ flags, (k, flags) ∈ events ∧ tells d flags)
}.

(** * The driver *)

(** [Mutex<Vec<Waker>>]; the waker of a task is its number. *)
Record Wakers : Type := mkWakers { is_locked : bool; wakers : list nat }.

Record Entry : Type := mkEntry { token : nat; readers : Wakers; writers : Wakers }.

Definition list_of (d : Interest) (e : Entry) : Wakers :=
  match d with Reading => readers e | Writing => writers e end.
Definition set_list (d : Interest) (l : Wakers) (e : Entry) : Entry :=
  match d with
  | Reading => mkEntry (token e) l (writers e)
  | Writing => mkEntry (token e) (readers e) l
  end.

(** What happens, for the record. *)
Inductive Event : Type := Woken (task : nat).

Definition would_block {R : Type} (res : Result R Error) : bool :=
  match res with Err err => bool_decide (kind err = WouldBlock) | Ok _ => false end.

Section Driver.
Context {P Src S : Type} `{Mio P Src, Flags} `{Slab S nat}.

(** [Reactor], the memory of the entries, which are in [Arc]s, and the lock of the
    table, by whether the thread of the driver holds it (the others do one thing
    with it, and let it go). *)
Record Driver : Type := mkDriver {
  poller : P;
  heap : gmap nat Entry;
  entries_locked : bool;
  entries : S;
  notify_reg : Src;
  notify_token : nat
}.
Implicit Types (dr : Driver).

Definition set_poller (p : P) dr : Driver :=
  mkDriver p (heap dr) (entries_locked dr) (entries dr) (notify_reg dr) (notify_token dr).
Definition set_heap (h : gmap nat Entry) dr : Driver :=
  mkDriver (poller dr) h (entries_locked dr) (entries dr) (notify_reg dr) (notify_token dr).
Definition set_locked (b : bool) dr : Driver :=
  mkDriver (poller dr) (heap dr) b (entries dr) (notify_reg dr) (notify_token dr).
Definition set_entries (es : S) dr : Driver :=
  mkDriver (poller dr) (heap dr) (entries_locked dr) es (notify_reg dr) (notify_token dr).
Definition set_entry_list (a : nat) (d : Interest) (l : Wakers) (e : Entry) dr : Driver :=
  set_heap (<[a := set_list d l e]> (heap dr)) dr.

(** [Reactor::register], with the table locked; the entry is at the address in the
    result.  It stays in the table when the poller does not take the source. *)
Definition register (source : Src) dr : Result nat Error * Driver :=
  let a := fresh (dom (heap dr)) in
  let '(token, es) := slab_insert (entries dr) a in
  let entry := mkEntry token (mkWakers false []) (mkWakers false []) in
  let dr := set_entries es (set_heap (<[a := entry]> (heap dr)) dr) in
  let '(res, p) := poller_register source token (poller dr) in
  (match res with Ok _ => Ok a | Err e => Err e end, set_poller p dr).

(** [Reactor::deregister], before and after the table is locked. *)
Definition deregister_source (source : Src) dr : Result () Error * Driver :=
  let '(res, p) := poller_deregister source (poller dr) in (res, set_poller p dr).
Definition remove_entry (token : nat) dr : Act Event Driver :=
  '(_, es) ← unwrap (slab_remove (entries dr) token);
  mret (set_entries es dr).

(** [Reactor::new] *)
Definition Reactor_new : Result Driver Error :=
  match poller_new with
  | Err e => Err e
  | Ok p =>
      let '(notify_reg, p) := registration_new p in
      let reactor := mkDriver p ∅ false slab_new notify_reg 0 in
      let '(res, dr) := register notify_reg reactor in
      match res with
      | Err e => Err e
      | Ok a =>
          Ok (mkDriver (poller dr) (heap dr) (entries_locked dr) (entries dr) notify_reg
            (match heap dr !! a with Some entry => token entry | None => 0 end))
      end
  end.

Definition reader_interests : N := N.ldiff ready_all ready_writable.
Definition writer_interests : N := N.lor ready_writable ready_hup.
Definition interests (d : Interest) : N :=
  match d with Reading => reader_interests | Writing => writer_interests end.

(** ** The thread of the driver *)

(** Where [main_loop] is; [events] are those of this round that are left, and [a]
    is the entry of the one it is at. *)
Inductive Loop : Type :=
| Polling                                                    (* about to poll *)
| LockEntries (events : list (nat * N))                      (* about to lock the table *)
| Events (events : list (nat * N))                           (* at the head of [for] *)
| Wake (d : Interest) (a : nat) (flags : N) (events : list (nat * N)).   (* at the [if] for [d] *)

Inductive LoopTurn : Type :=
| LoopWaits
| LoopGoes (l : Loop) (dr : Driver)
| LoopDies.                                                  (* the process is aborted *)

(** The tasks of a list, which is locked meanwhile, are woken. *)
Fixpoint wake_all (l : list nat) : Act Event () :=
  match l with
  | [] => mret tt
  | w :: l => _ ← emit (Woken w); wake_all l
  end.

Definition after_wake (d : Interest) (a : nat) (flags : N) (events : list (nat * N)) : Loop :=
  match d with Reading => Wake Writing a flags events | Writing => Events events end.

Definition loop_step (l : Loop) dr : Act Event LoopTurn :=
  match l with
  | Polling =>
      let '(res, p) := poller_poll (poller dr) in
      match res with
      | Ok events => mret (LoopGoes (LockEntries events) (set_poller p dr))
      | Err _ => mret LoopDies
      end
  | LockEntries events =>
      mret (if entries_locked dr then LoopWaits else LoopGoes (Events events) (set_locked true dr))
  | Events [] => mret (LoopGoes Polling (set_locked false dr))
  | Events ((token, readiness) :: events) =>
      if token =? notify_token dr then
        let '(res, p) := set_readiness (notify_reg dr) 0 (poller dr) in
        match res with
        | Ok _ => mret (LoopGoes (Events events) (set_poller p dr))
        | Err _ => mret LoopDies
        end
      else
        match slab_get (entries dr) token with
        | Some a => mret (LoopGoes (Wake Reading a readiness events) dr)
        | None => mret (LoopGoes (Events events) dr)
        end
  | Wake d a readiness events =>
      if (N.land readiness (interests d) =? 0)%N then mret (LoopGoes (after_wake d a readiness events) dr)
      else
        entry ← unwrap (heap dr !! a);
        if is_locked (list_of d entry) then mret LoopWaits
        else
          _ ← wake_all (wakers (list_of d entry));
          mret (LoopGoes (after_wake d a readiness events) (set_entry_list a d (mkWakers false []) entry dr))
  end.

(** ** The operations of a [Watcher] *)

Record Watcher : Type := mkWatcher { source : Src; entry : nat }.

(** [poll_read_with] and [poll_write_with], by [d]; [f] is the operation on the
    source, and [waker] that of the context. *)
Definition poll_with {R : Type} (d : Interest) (waker : nat) (f : P → Result R Error * P) (this : Watcher) dr :
    Act Event (Poll (Result R Error) * Driver) :=
  let '(res, p) := f (poller dr) in
  let dr := set_poller p dr in
  if would_block res then
    entry' ← unwrap (heap dr !! entry this);
    let '(res, p) := f (poller dr) in
    let dr := set_poller p dr in
    if would_block res then
      let list := wakers (list_of d entry') in
      let list := if forallb (λ w, negb (w =? waker)) list then list ++ [waker] else list in
      mret (Pending, set_entry_list (entry this) d (mkWakers false list) entry' dr)
    else mret (Ready res, dr)
  else mret (Ready res, dr).

(** The same, cut before every operation on what is shared. *)
Inductive Pc : Type :=
| Trying
| Locking
| Retrying        (* with the list locked, as below *)
| Registering.

Record Op (R : Type) : Type := mkOp {
  op_watcher : nat;
  op_interest : Interest;
  op_waker : nat;
  op_run : P → Result R Error * P;
  op_pc : Pc
}.
#[global] Arguments mkOp {R}.
#[global] Arguments op_watcher {R}.
#[global] Arguments op_interest {R}.
#[global] Arguments op_waker {R}.
#[global] Arguments op_run {R}.
#[global] Arguments op_pc {R}.

Inductive Turn (R : Type) : Type :=
| Waits
| Goes (pc : Pc) (dr : Driver)
| Returns (res : Poll (Result R Error)) (dr : Driver).
#[global] Arguments Waits {R}.
#[global] Arguments Goes {R}.
#[global] Arguments Returns {R}.

Definition op_step {R : Type} (o : Op R) (this : Watcher) dr : Act Event (Turn R) :=
  let d := op_interest o in
  match op_pc o with
  | Trying =>
      let '(res, p) := op_run o (poller dr) in
      mret (if would_block res then Goes Locking (set_poller p dr) else Returns (Ready res) (set_poller p dr))
  | Locking =>
      entry' ← unwrap (heap dr !! entry this);
      mret (if is_locked (list_of d entry') then Waits
            else Goes Retrying (set_entry_list (entry this) d (mkWakers true (wakers (list_of d entry'))) entry' dr))
  | Retrying =>
      let '(res, p) := op_run o (poller dr) in
      let dr := set_poller p dr in
      if would_block res then mret (Goes Registering dr)
      else
        entry' ← unwrap (heap dr !! entry this);
        mret (Returns (Ready res)
          (set_entry_list (entry this) d (mkWakers false (wakers (list_of d entry'))) entry' dr))
  | Registering =>
      entry' ← unwrap (heap dr !! entry this);
      let list := wakers (list_of d entry') in
      let list := if forallb (λ w, negb (w =? op_waker o)) list then list ++ [op_waker o] else list in
      mret (Returns Pending (set_entry_list (entry this) d (mkWakers false list) entry' dr))
  end.
End Driver.

(** * Interleavings *)

Section Interleavings.
Context {P Src S R : Type} `{Mio P Src, Flags, !MioView P Src} `{Slab S nat}.
Abbreviation Driver := (Driver (P:=P) (Src:=Src) (S:=S)).
Abbreviation Watcher := (Watcher (Src:=Src)).
Abbreviation Op := (Op (P:=P) R).

(** [removing] has the entries of the watchers that are being dropped and have been
    deregistered, and whose entries are to be removed from the table. *)
Record System : Type := mkSystem {
  driver : Driver;
  loop : Loop;
  watchers : gmap nat Watcher;
  removing : gmap nat nat;
  ops : gmap nat Op;
  log : list Event
}.

(** An operation that [f] does on the source [s]: it says [WouldBlock] only when the
    source would. *)
Definition operates (s : Src) (d : Interest) (f : P → Result R Error * P) : Prop :=
  ∀ p r p', f p = (r, p') → steady (λ _, False) p p' ∧ (would_block r = true → blocked p' s d = true).

(** The turns of the thread of the driver and of the tasks that are in the midst of
    an operation. *)
Inductive turn : System → System → Prop :=
| turn_loop dr l ws rm os lg l' dr' ev :
    loop_step l dr = Done (LoopGoes l' dr', ev) →
    turn (mkSystem dr l ws rm os lg) (mkSystem dr' l' ws rm os (lg ++ ev))
| turn_goes dr l ws rm os lg i o w pc' dr' ev :
    os !! i = Some o → ws !! op_watcher o = Some w →
    op_step o w dr = Done (Goes pc' dr', ev) →
    turn (mkSystem dr l ws rm os lg)
      (mkSystem dr' l ws rm
        (<[i := mkOp (op_watcher o) (op_interest o) (op_waker o) (op_run o) pc']> os) (lg ++ ev))
| turn_returns dr l ws rm os lg i o w res dr' ev :
    os !! i = Some o → ws !! op_watcher o = Some w →
    op_step o w dr = Done (Returns res dr', ev) →
    turn (mkSystem dr l ws rm os lg) (mkSystem dr' l ws rm (delete i os) (lg ++ ev)).

Inductive step : System → System → Prop :=
| step_turn s s' : turn s s' → step s s'
| step_system dr l ws rm os lg p' :        (* the operating system goes on *)
    steady (λ _, False) (poller dr) p' →
    step (mkSystem dr l ws rm os lg) (mkSystem (set_poller p' dr) l ws rm os lg)
| step_poll dr l ws rm os lg i n d waker f w :      (* a task polls *)
    ws !! n = Some w → os !! i = None → operates (source w) d f →
    step (mkSystem dr l ws rm os lg) (mkSystem dr l ws rm (<[i := mkOp n d waker f Trying]> os) lg)
| step_new dr l ws rm os lg n s a dr' :    (* [Watcher::new] *)
    entries_locked dr = false → ws !! n = None → token_of (poller dr) s = None →
    register s dr = (Ok a, dr') →
    step (mkSystem dr l ws rm os lg) (mkSystem dr' l (<[n := mkWatcher s a]> ws) rm os lg)
| step_new_fails dr l ws rm os lg s e dr' :    (* which panics *)
    entries_locked dr = false → token_of (poller dr) s = None →
    register s dr = (Err e, dr') →
    step (mkSystem dr l ws rm os lg) (mkSystem dr' l ws rm os lg)
| step_drop dr l ws rm os lg n w e dr' :   (* the drop of a [Watcher] that nobody uses *)
    ws !! n = Some w → (∀ i o, os !! i = Some o → op_watcher o ≠ n) → rm !! n = None →
    heap dr !! entry w = Some e →
    deregister_source (source w) dr = (Ok (), dr') →
    step (mkSystem dr l ws rm os lg) (mkSystem dr' l (delete n ws) (<[n := token e]> rm) os lg)
| step_drop_fails dr l ws rm os lg n w err dr' :   (* which panics *)
    ws !! n = Some w → (∀ i o, os !! i = Some o → op_watcher o ≠ n) →
    deregister_source (source w) dr = (Err err, dr') →
    step (mkSystem dr l ws rm os lg) (mkSystem dr' l (delete n ws) rm os lg)
| step_remove dr l ws rm os lg n k dr' :
    rm !! n = Some k → entries_locked dr = false →
    remove_entry k dr = Done (dr', []) →
    step (mkSystem dr l ws rm os lg) (mkSystem dr' l ws (delete n rm) os lg).

(** Once the reactor has been made. *)
Inductive initial : System → Prop :=
| initially dr : Reactor_new = Ok dr → initial (mkSystem dr Polling ∅ ∅ ∅ []).

Definition reachable (s : System) : Prop := ∃ s0, initial s0 ∧ rtc step s0 s.
End Interleavings.
