(* ===== verification/DriverSpec.v ===== *)
(** What the networking driver promises: no task that waits for an I/O handle is
    forgotten, and what the operations of a [Watcher] answer. *)

From stdpp Require Import gmap fin_maps relations.
From S2P Require Import Prelude Async Io WakerSet WakerClients Driver.

(** * Flags *)

Section Flags.
Context `{FlagsLaws}.

(** The masks of the code take in the events that concern readers and writers. *)
Lemma tells_interests d flags : tells d flags → N.land flags (interests d) ≠ 0%N.
Proof.
  unfold tells. intros Ht Hz. apply Ht, N.bits_inj_0. intros i. rewrite N.land_spec.
  assert (N.testbit flags i && N.testbit (interests d) i = false) as Hi.
  { by rewrite <- N.land_spec, Hz, N.bits_0. }
  destruct (N.testbit flags i); [|done]. simpl in *. destruct d; simpl in *.
  - unfold reader_interests in Hi. rewrite N.ldiff_spec in Hi.
    destruct (N.testbit ready_readable i) eqn:Hr; [|done]. exfalso.
    assert (N.testbit ready_all i = true) as Ha.
    { rewrite <- all_readable, N.land_spec in Hr. by apply andb_true_iff in Hr as []. }
    assert (N.testbit ready_writable i = false) as Hw.
    { destruct (N.testbit ready_writable i) eqn:Hw; [|done].
      assert (N.testbit (N.land ready_readable ready_writable) i = true) as Hb by by rewrite N.land_spec, Hr, Hw.
      by rewrite readable_not_writable, N.bits_0 in Hb. }
    by rewrite Ha, Hw in Hi.
  - unfold writer_interests in Hi. rewrite N.lor_spec in Hi. by apply orb_false_iff in Hi as [].
Qed.
End Flags.

(** * The invariant *)

Section Spec.
Context {P Src S R : Type} `{MioLaws P Src, !FlagsLaws} `{SlabLaws S nat}.
Abbreviation Driver := (Driver (P:=P) (Src:=Src) (S:=S)).
Abbreviation Watcher := (Watcher (Src:=Src)).
Abbreviation Op := (Op (P:=P) R).
Abbreviation System := (System (P:=P) (Src:=Src) (S:=S) (R:=R)).
Implicit Types (dr : Driver) (l : Loop) (ws : gmap nat Watcher) (rm : gmap nat nat) (os : gmap nat Op)
  (w : Watcher) (o : Op) (e : Entry) (a k n i : nat) (d : Interest).

(** Every watcher has an entry of its own, which is in the table at the token that
    its source is registered with; the entry of the notification handle stays. *)
Record TableOk dr ws rm : Prop := {
  t_watch n w : ws !! n = Some w → ∃ e, heap dr !! entry w = Some e ∧
    slab_view (entries dr) !! token e = Some (entry w) ∧ token_of (poller dr) (source w) = Some (token e);
  t_own n1 n2 w1 w2 : ws !! n1 = Some w1 → ws !! n2 = Some w2 → entry w1 = entry w2 → n1 = n2;
  t_slab k a : slab_view (entries dr) !! k = Some a → ∃ e, heap dr !! a = Some e ∧ token e = k;
  t_removing n k : rm !! n = Some k → k ≠ notify_token dr ∧
    ∃ a, slab_view (entries dr) !! k = Some a ∧ ∀ n' w, ws !! n' = Some w → entry w ≠ a;
  t_once n1 n2 k : rm !! n1 = Some k → rm !! n2 = Some k → n1 = n2;
  t_notify : ∃ a, slab_view (entries dr) !! notify_token dr = Some a ∧
    ∀ n w, ws !! n = Some w → entry w ≠ a
}.

Definition holding (pc : Pc) : bool := match pc with Retrying | Registering => true | _ => false end.

(** The operation [oo] has the lock of the list for [d] of the entry at [a]. *)
Definition holds_by ws (oo : option Op) a d : Prop :=
  ∃ o w, oo = Some o ∧ holding (op_pc o) = true ∧ ws !! op_watcher o = Some w ∧
    entry w = a ∧ op_interest o = d.
Definition holds ws os i a d : Prop := holds_by ws (os !! i) a d.

Definition op_ok ws o : Prop :=
  ∃ w, ws !! op_watcher o = Some w ∧ operates (source w) (op_interest o) (op_run o).

Record OpsOk (h : gmap nat Entry) ws os : Prop := {
  o_watcher i o : os !! i = Some o → op_ok ws o;
  o_locked i a d : holds ws os i a d → ∃ e, h !! a = Some e ∧ is_locked (list_of d e) = true;
  o_holder a d e : h !! a = Some e → is_locked (list_of d e) = true → ∃ i, holds ws os i a d;
  o_one i j a d : holds ws os i a d → holds ws os j a d → i = j
}.

Definition in_events k d (events : list (nat * N)) : Prop :=
  ∃ flags, (k, flags) ∈ events ∧ tells d flags.

(** The thread of the driver has an event for [d] that it has not come to. *)
Definition attends l a k d : Prop :=
  match l with
  | Polling => False
  | LockEntries events | Events events => in_events k d events
  | Wake d' a' flags events =>
      (a' = a ∧ tells d flags ∧ (d' = Reading ∨ d = Writing)) ∨ in_events k d events
  end.

Record LoopOk dr l : Prop := {
  l_locked : entries_locked dr = match l with Events _ | Wake _ _ _ _ => true | _ => false end;
  l_entry d a flags events : l = Wake d a flags events → is_Some (heap dr !! a)
}.

(** Somebody waits, or is about to, in the list for [d] of the entry [e] of [n]. *)
Definition waits os n e d : Prop :=
  wakers (list_of d e) ≠ [] ∨
  ∃ i o, os !! i = Some o ∧ op_watcher o = n ∧ op_interest o = d ∧ op_pc o = Registering.

(** Then the source would block, or an event is on its way to the list. *)
Definition WakeOk dr l ws os : Prop :=
  ∀ n w e d, ws !! n = Some w → heap dr !! entry w = Some e → waits os n e d →
    blocked (poller dr) (source w) d ∨ pending (poller dr) (token e) d ∨ attends l (entry w) (token e) d.

Definition ListsOk (h : gmap nat Entry) : Prop :=
  ∀ a e d, h !! a = Some e → NoDup (wakers (list_of d e)).

(** All of it, on the parts of a system. *)
Definition InvC dr l ws rm os : Prop :=
  TableOk dr ws rm ∧ OpsOk (heap dr) ws os ∧ LoopOk dr l ∧ WakeOk dr l ws os ∧ ListsOk (heap dr).

(** ** Frames *)

Lemma list_of_set_list d d' (x : Wakers) e : list_of d (set_list d' x e) = if decide (d = d') then x else list_of d e.
Proof. by destruct d, d'. Qed.
Lemma token_set_list d (x : Wakers) e : token (set_list d x e) = token e.
Proof. by destruct d. Qed.

Lemma table_steady dr ws rm p' :
  TableOk dr ws rm → steady (λ _, False) (poller dr) p' → TableOk (set_poller p' dr) ws rm.
Proof.
  intros Ht (Htok & _). split; try apply Ht; simpl.
  intros n w Hn. destruct (t_watch _ _ _ Ht n w Hn) as (e & He & Hk & Hp).
  exists e. split_and!; [done..|]. rewrite Htok; [done|auto].
Qed.

Lemma wake_steady dr l ws rm os p' :
  TableOk dr ws rm → WakeOk dr l ws os → steady (λ _, False) (poller dr) p' → WakeOk (set_poller p' dr) l ws os.
Proof.
  intros Ht Hw (_ & Hpend & Hb) n w e d Hn He Hwait. simpl in *.
  destruct (t_watch _ _ _ Ht n w Hn) as (e' & He' & _ & Htok). simplify_eq.
  destruct (Hw n w e d Hn He Hwait) as [Hbl|[Hp|Ha]]; [|by eauto..].
  destruct (Hb (source w) (token e) d) as [?|?]; eauto.
Qed.

(** The list for [d] of an entry is changed. *)
Section SetList.
Context dr a d (x : Wakers) e (Ha : heap dr !! a = Some e).
Let dr' := set_entry_list a d x e dr.

Lemma set_list_heap a' e' :
  heap dr' !! a' = Some e' →
  ∃ e0, heap dr !! a' = Some e0 ∧ token e' = token e0 ∧
    ∀ d', list_of d' e' = if decide (a' = a ∧ d' = d) then x else list_of d' e0.
Proof using Ha.
  intros Hl. simpl in Hl. apply lookup_insert_Some in Hl as [[<- <-]|[Hne Hl]].
  - exists e. split_and!; [done|apply token_set_list|]. intros d'. rewrite list_of_set_list.
    destruct (decide (d' = d)); [by rewrite decide_True|by rewrite decide_False by naive_solver].
  - exists e'. split_and!; [done..|]. intros d'. by rewrite decide_False by naive_solver.
Qed.

Lemma set_list_old a' e0 :
  heap dr !! a' = Some e0 → ∃ e', heap dr' !! a' = Some e' ∧ token e' = token e0.
Proof using Ha.
  intros Hl. simpl. destruct (decide (a = a')) as [<-|Hne].
  - rewrite lookup_insert_eq. eexists. split; [done|]. rewrite token_set_list. congruence.
  - rewrite lookup_insert_ne by done. by exists e0.
Qed.

Lemma table_list ws rm : TableOk dr ws rm → TableOk dr' ws rm.
Proof using Ha.
  intros Ht. split; try apply Ht.
  - intros n w Hn. destruct (t_watch _ _ _ Ht n w Hn) as (e0 & He & Hk & Hp).
    destruct (set_list_old _ _ He) as (e' & He' & Htok). exists e'. by rewrite Htok.
  - intros k a' Hk. destruct (t_slab _ _ _ Ht k a' Hk) as (e0 & He & Hek).
    destruct (set_list_old _ _ He) as (e' & He' & Htok). exists e'. split; [done|congruence].
Qed.

Lemma loop_list l : LoopOk dr l → LoopOk dr' l.
Proof using Ha.
  intros [Hl He]. split; [exact Hl|]. intros d' a' flags events ->.
  destruct (He _ _ _ _ eq_refl) as [e0 He0]. destruct (set_list_old _ _ He0) as (e' & He' & _). by eexists.
Qed.

Lemma lists_list : ListsOk (heap dr) → NoDup (wakers x) → ListsOk (heap dr').
Proof using Ha.
  intros Hl Hx a' e' d' He'. destruct (set_list_heap _ _ He') as (e0 & He0 & _ & Hlist).
  rewrite Hlist. destruct (decide _); [exact Hx|by apply (Hl a')].
Qed.
End SetList.

(** ** The operations *)

Lemma holds_set ws os i (oo : option Op) j a d :
  holds ws (set_op i oo os) j a d ↔ if decide (j = i) then holds_by ws oo a d else holds ws os j a d.
Proof.
  unfold holds. destruct (decide (j = i)) as [->|Hne]; [by rewrite set_op_eq|by rewrite set_op_ne].
Qed.

(** An operation moves on or ends, with the locks it has. *)
Lemma ops_same h ws os i (oo : option Op) :
  OpsOk h ws os → (∀ a d, holds_by ws oo a d ↔ holds ws os i a d) →
  (∀ o, oo = Some o → op_ok ws o) → OpsOk h ws (set_op i oo os).
Proof.
  intros Ho Hiff Hok.
  assert (∀ j a d, holds ws (set_op i oo os) j a d ↔ holds ws os j a d) as Hh.
  { intros j a d. rewrite holds_set. destruct (decide (j = i)) as [->|]; [apply Hiff|done]. }
  split.
  - intros j o. destruct (decide (j = i)) as [->|Hne]; [rewrite set_op_eq; apply Hok|].
    rewrite set_op_ne by done. apply (o_watcher _ _ _ Ho).
  - intros j a d Hj%Hh. by apply (o_locked _ _ _ Ho) in Hj.
  - intros a d e Ha Hl. destruct (o_holder _ _ _ Ho a d e Ha Hl) as [j Hj]. exists j. by apply Hh.
  - intros j1 j2 a d Hj1%Hh Hj2%Hh. by apply (o_one _ _ _ Ho j1 j2 a d).
Qed.

(** The list for [d] of the entry at [a] is locked by [i], or let go. *)
Lemma ops_lock dr ws os i (oo : option Op) a d x e :
  OpsOk (heap dr) ws os → heap dr !! a = Some e →
  (∀ a' d', holds_by ws oo a' d' ↔ (is_locked x = true ∧ a' = a ∧ d' = d)) →
  (∀ a' d', holds ws os i a' d' → a' = a ∧ d' = d) →
  (is_locked (list_of d e) = false ∨ holds ws os i a d) →
  (∀ o, oo = Some o → op_ok ws o) →
  OpsOk (heap (set_entry_list a d x e dr)) ws (set_op i oo os).
Proof.
  intros Ho Ha Hnew Hold Hfree Hok.
  assert (∀ j, j ≠ i → ¬ holds ws os j a d) as Hno.
  { intros j Hne Hj. destruct Hfree as [Hf|Hi].
    - destruct (o_locked _ _ _ Ho j a d Hj) as (e' & He' & Hl). congruence.
    - by destruct Hne, (o_one _ _ _ Ho j i a d). }
  split.
  - intros j o. destruct (decide (j = i)) as [->|Hne]; [rewrite set_op_eq; apply Hok|].
    rewrite set_op_ne by done. apply (o_watcher _ _ _ Ho).
  - intros j a' d' Hj. rewrite holds_set in Hj. simpl. destruct (decide (j = i)) as [->|Hne].
    + apply Hnew in Hj as (Hx & -> & ->). exists (set_list d x e). rewrite lookup_insert_eq. split; [done|].
      by rewrite list_of_set_list, decide_True.
    + destruct (o_locked _ _ _ Ho j a' d' Hj) as (e' & He' & Hl). destruct (decide (a = a')) as [<-|Ha'].
      * rewrite lookup_insert_eq. eexists. split; [done|]. rewrite list_of_set_list.
        rewrite decide_False; [congruence|]. intros ->. by destruct (Hno j Hne).
      * rewrite lookup_insert_ne by done. by exists e'.
  - intros a' d' e' He' Hl. destruct (set_list_heap dr a d x e Ha a' e' He') as (e0 & He0 & _ & Hlist).
    rewrite Hlist in Hl. destruct (decide _) as [[-> ->]|Hne].
    + exists i. rewrite holds_set, decide_True by done. by apply Hnew.
    + destruct (o_holder _ _ _ Ho a' d' e0 He0 Hl) as [j Hj]. exists j. rewrite holds_set.
      rewrite decide_False; [done|]. intros ->. destruct Hne. by apply Hold.
  - intros j1 j2 a' d' Hj1 Hj2. rewrite holds_set in Hj1, Hj2.
    destruct (decide (j1 = i)) as [->|Hn1], (decide (j2 = i)) as [->|Hn2]; [done| | |].
    + apply Hnew in Hj1 as (_ & -> & ->). by destruct (Hno j2 Hn2).
    + apply Hnew in Hj2 as (_ & -> & ->). by destruct (Hno j1 Hn1).
    + by apply (o_one _ _ _ Ho j1 j2 a' d').
Qed.

(** An operation moves on; if it is to register its task, [Hreg]. *)
Lemma wake_op dr l ws os i (oo : option Op) :
  WakeOk dr l ws os →
  (∀ o w e, oo = Some o → op_pc o = Registering → ws !! op_watcher o = Some w → heap dr !! entry w = Some e →
     blocked (poller dr) (source w) (op_interest o) ∨ pending (poller dr) (token e) (op_interest o) ∨
     attends l (entry w) (token e) (op_interest o)) →
  WakeOk dr l ws (set_op i oo os).
Proof.
  intros Hw Hreg n w e d Hn He [Hl|(j & o & Hj & <- & <- & Hpc)]; [by apply (Hw n); [..|left]|].
  destruct (decide (j = i)) as [->|Hne]; [rewrite set_op_eq in Hj; by eapply Hreg|].
  rewrite set_op_ne in Hj by done. apply (Hw (op_watcher o)); [done..|]. right. by exists j, o.
Qed.

(** The list for [d] of an entry is changed; somebody who waits in it did so. *)
Lemma wake_list dr l ws os a d x e :
  WakeOk dr l ws os → heap dr !! a = Some e →
  (∀ n w, ws !! n = Some w → entry w = a → wakers x ≠ [] → waits os n e d) →
  WakeOk (set_entry_list a d x e dr) l ws os.
Proof.
  intros Hw Ha Hx n w e' d' Hn He' Hwait.
  destruct (set_list_heap dr a d x e Ha _ _ He') as (e0 & He0 & Htok & Hlist). rewrite Htok.
  apply (Hw n w e0 d' Hn He0). destruct Hwait as [Hl|Hr]; [|by right]. rewrite Hlist in Hl.
  destruct (decide _) as [[Hwa ->]|Hne]; [|by left].
  assert (e0 = e) as -> by congruence. by eapply Hx.
Qed.

Lemma push_NoDup (waker : nat) (l : list nat) :
  NoDup l → NoDup (if forallb (λ v, negb (v =? waker)) l then l ++ [waker] else l).
Proof.
  intros Hl. destruct (forallb _ l) eqn:Hf; [|done]. apply list.NoDup_app. split_and!; [done| |apply NoDup_singleton].
  intros w Hw Hw'. apply list_elem_of_singleton in Hw' as ->. rewrite forallb_forall in Hf.
  specialize (Hf waker (proj1 (list_elem_of_In _ _) Hw)). rewrite Nat.eqb_refl in Hf. done.
Qed.

Definition at_pc (pc : Pc) o : Op := mkOp (op_watcher o) (op_interest o) (op_waker o) (op_run o) pc.

Lemma InvC_steady dr l ws rm os p' :
  InvC dr l ws rm os → steady (λ _, False) (poller dr) p' → InvC (set_poller p' dr) l ws rm os.
Proof.
  intros (Ht & Ho & [Hl He] & Hw & Hn) Hs.
  split_and!; [by apply table_steady|done|by split|by eapply wake_steady|done].
Qed.

(** Only an operation moves on, which has no lock and does not get one. *)
Lemma InvC_op dr l ws rm os i (oo : option Op) :
  InvC dr l ws rm os → (∀ a d, holds_by ws oo a d ↔ holds ws os i a d) → (∀ o, oo = Some o → op_ok ws o) →
  (∀ o w e, oo = Some o → op_pc o = Registering → ws !! op_watcher o = Some w → heap dr !! entry w = Some e →
     blocked (poller dr) (source w) (op_interest o)) →
  InvC dr l ws rm (set_op i oo os).
Proof.
  intros (Ht & Ho & Hl & Hw & Hn) Hh Hok Hreg.
  split_and!; [done|by apply ops_same|done| |done]. apply wake_op; [done|].
  intros o w e He Hpc Hwo Hew. left. by eapply Hreg.
Qed.

(** An operation takes the lock of a list, or lets it go with the list changed. *)
Lemma InvC_lock dr l ws rm os i (oo : option Op) a d x e :
  InvC dr l ws rm os → heap dr !! a = Some e →
  (∀ a' d', holds_by ws oo a' d' ↔ (is_locked x = true ∧ a' = a ∧ d' = d)) →
  (∀ a' d', holds ws os i a' d' → a' = a ∧ d' = d) →
  (is_locked (list_of d e) = false ∨ holds ws os i a d) →
  (∀ o, oo = Some o → op_ok ws o ∧ op_pc o ≠ Registering) →
  (∀ n w, ws !! n = Some w → entry w = a → wakers x ≠ [] → waits os n e d) →
  NoDup (wakers x) →
  InvC (set_entry_list a d x e dr) l ws rm (set_op i oo os).
Proof.
  intros (Ht & Ho & Hl & Hw & Hn) Ha Hnew Hold Hfree Hok Hx Hnd.
  split_and!; [by apply table_list|apply ops_lock; try done; by intros o []%Hok|by apply loop_list| |by apply lists_list].
  apply wake_op; [by apply wake_list|]. intros o w e' Heq Hpc. by destruct (Hok o Heq).
Qed.

Lemma op_step_InvC dr l ws rm os i o w (t : Turn R) ev :
  InvC dr l ws rm os → os !! i = Some o → ws !! op_watcher o = Some w →
  op_step o w dr = Done (t, ev) →
  ev = [] ∧ match t with
  | Waits => True
  | Goes pc' dr' => InvC dr' l ws rm (set_op i (Some (at_pc pc' o)) os)
  | Returns _ dr' => InvC dr' l ws rm (set_op i None os)
  end.
Proof.
  intros HI Hi Hwo Hstep. pose proof HI as (Ht & Ho & Hl & Hw & Hnd).
  destruct (o_watcher _ _ _ Ho i o Hi) as (w' & Hw' & Hf). simplify_eq.
  destruct (t_watch _ _ _ Ht _ _ Hwo) as (e & He & _ & _).
  assert (∀ pc, op_ok ws (at_pc pc o)) as Hok by (intros pc; by exists w).
  assert (∀ a d, holds_by ws (None : option Op) a d ↔ False) as HhN by (intros a d; split; [by intros (? & ? & [=] & _)|done]).
  assert (∀ pc a d, holds_by ws (Some (at_pc pc o)) a d ↔ holding pc = true ∧ a = entry w ∧ d = op_interest o) as Hh.
  { intros pc a d. split.
    - intros (o' & w' & [= <-] & Hp & Hw' & <- & <-). simpl in *. by simplify_eq.
    - intros (Hp & -> & ->). by exists (at_pc pc o), w. }
  assert (∀ a d, holds ws os i a d ↔ holding (op_pc o) = true ∧ a = entry w ∧ d = op_interest o) as Hho.
  { intros a d. unfold holds. rewrite Hi. rewrite <- (Hh (op_pc o)). by destruct o. }
  unfold op_step in Hstep. destruct (op_pc o) eqn:Hpc.
  - destruct (op_run o (poller dr)) as [res p] eqn:Hrun. destruct (Hf _ _ _ Hrun) as [Hs Hb].
    apply (InvC_steady _ _ _ _ _ p) in HI; [|done].
    destruct (would_block res) eqn:Hres; inv_eff; (split; [done|]).
    + apply (InvC_op _ _ _ _ os i (Some (at_pc Locking o))); [done| |intros o' [= <-]; apply Hok|by intros o' w' e' [= <-]].
      intros a d. rewrite Hh, Hho. simpl. tauto.
    + apply (InvC_op _ _ _ _ os i None); [done| |done..]. intros a d. rewrite HhN, Hho. naive_solver.
  - rewrite He in Hstep. simpl in Hstep. destruct (is_locked _) eqn:Hlock; inv_eff; [done|].
    split; [done|]. apply (InvC_lock _ _ _ _ os i (Some (at_pc Retrying o)) _ _ _ e); [done|done|..].
    + intros a' d'. rewrite Hh. simpl. tauto.
    + intros a' d' Hj. by apply Hho in Hj as [? _].
    + by left.
    + intros o' [= <-]. split; [apply Hok|done].
    + intros n w' Hn Hwe Hne. by left.
    + by apply (Hnd (entry w)).
  - destruct (op_run o (poller dr)) as [res p] eqn:Hrun. destruct (Hf _ _ _ Hrun) as [Hs Hb].
    apply (InvC_steady _ _ _ _ _ p) in HI; [|done].
    destruct (would_block res) eqn:Hres.
    + inv_eff. split; [done|].
      apply (InvC_op _ _ _ _ os i (Some (at_pc Registering o))); [done| |intros o' [= <-]; apply Hok|].
      * intros a d. rewrite Hh, Hho. simpl. tauto.
      * intros o' w' e' [= <-] _ Hw' He'. simpl in *. simplify_eq. by rewrite Hb.
    + change (heap (set_poller p dr)) with (heap dr) in Hstep. rewrite He in Hstep. inv_eff. split; [done|].
      apply (InvC_lock _ _ _ _ os i None _ _ _ _ HI He).
      * intros a' d'. rewrite HhN. simpl. naive_solver.
      * intros a' d' Hj. by apply Hho in Hj as [_ ?].
      * right. by apply Hho.
      * done.
      * intros n w' Hn Hwe Hne. by left.
      * by apply (Hnd (entry w)).
  - rewrite He in Hstep. inv_eff. split; [done|]. apply (InvC_lock _ _ _ _ os i None _ _ _ _ HI He).
    + intros a' d'. rewrite HhN. simpl. naive_solver.
    + intros a' d' Hj. by apply Hho in Hj as [_ ?].
    + right. by apply Hho.
    + done.
    + intros n w' Hn Hwe Hne. right. exists i, o. split_and!; [done| |done..].
      by apply (t_own _ _ _ Ht (op_watcher o) n w w').
    + apply push_NoDup. by apply (Hnd (entry w)).
Qed.

(** ** The thread of the driver *)

Lemma table_ext dr dr' ws rm :
  TableOk dr ws rm → heap dr' = heap dr → entries dr' = entries dr → notify_token dr' = notify_token dr →
  (∀ s, token_of (poller dr') s = token_of (poller dr) s) → TableOk dr' ws rm.
Proof.
  intros Ht Hh He Hn Hs. split; rewrite ?Hh, ?He, ?Hn; try apply Ht.
  intros n w Hw. destruct (t_watch _ _ _ Ht n w Hw) as (e & Hew & Hk & Hp). exists e. by rewrite Hs.
Qed.

Lemma wake_ext dr dr' l l' ws os :
  WakeOk dr l ws os → heap dr' = heap dr →
  (∀ n w e d, ws !! n = Some w → heap dr !! entry w = Some e →
     blocked (poller dr) (source w) d ∨ pending (poller dr) (token e) d ∨ attends l (entry w) (token e) d →
     blocked (poller dr') (source w) d ∨ pending (poller dr') (token e) d ∨ attends l' (entry w) (token e) d) →
  WakeOk dr' l' ws os.
Proof. intros Hw Hh Hm n w e d Hn He Hwait. rewrite Hh in He. by eapply Hm, Hw. Qed.

Lemma ops_relist dr ws os a d x e :
  OpsOk (heap dr) ws os → heap dr !! a = Some e → is_locked x = is_locked (list_of d e) →
  OpsOk (heap (set_entry_list a d x e dr)) ws os.
Proof.
  intros Ho Ha Hx. split; [apply Ho| | |apply Ho].
  - intros j a' d' Hj. destruct (o_locked _ _ _ Ho j a' d' Hj) as (e' & He' & Hl). simpl.
    destruct (decide (a = a')) as [<-|Hne]; [|by rewrite lookup_insert_ne by done; eauto].
    rewrite lookup_insert_eq. eexists. split; [done|]. rewrite list_of_set_list.
    assert (e' = e) as -> by congruence. destruct (decide _) as [->|]; [congruence|done].
  - intros a' d' e' He' Hl. destruct (set_list_heap dr a d x e Ha _ _ He') as (e0 & He0 & _ & Hlist).
    rewrite Hlist in Hl. apply (o_holder _ _ _ Ho a' d' e0 He0).
    destruct (decide _) as [[-> ->]|]; [|done]. assert (e0 = e) as -> by congruence. congruence.
Qed.

Lemma in_events_cons k d k' flags events :
  in_events k d ((k', flags) :: events) → (k' = k ∧ tells d flags) ∨ in_events k d events.
Proof. intros (f & [[= <- <-]|Hin]%elem_of_cons & Ht); [by left|right]. by exists f. Qed.

Lemma token_not_notify dr ws rm n w e :
  TableOk dr ws rm → ws !! n = Some w → heap dr !! entry w = Some e → token e ≠ notify_token dr.
Proof.
  intros Ht Hn He Heq. destruct (t_notify _ _ _ Ht) as (a & Ha & Hno).
  destruct (t_watch _ _ _ Ht n w Hn) as (e' & He' & Hk & _). apply (Hno n w Hn). congruence.
Qed.

(** The list is being emptied, or the event does not concern it. *)
Lemma attends_after d a flags events a' k d' :
  attends (Wake d a flags events) a' k d' → (a' = a → d' = d → ¬ tells d' flags) →
  attends (after_wake d a flags events) a' k d'.
Proof.
  intros [(-> & Ht & Hd)|Hin] Hno.
  - destruct d, d'; simpl; try (by destruct (Hno eq_refl eq_refl)); [left; auto|by destruct Hd].
  - destruct d; simpl; [by right|done].
Qed.

Lemma loop_step_InvC dr l ws rm os l' dr' ev :
  InvC dr l ws rm os → loop_step l dr = Done (LoopGoes l' dr', ev) → InvC dr' l' ws rm os.
Proof.
  intros (Ht & Ho & [Hl Hle] & Hw & Hnd) Hstep. destruct l as [|events|[|[k flags] events]|d a flags events]; simpl in Hstep.
  - destruct (poller_poll (poller dr)) as [[events|err] p] eqn:Hp; inv_eff.
    destruct (poll_spec _ _ _ Hp) as (Htok & Hpend & Hb).
    split_and!; [by eapply table_ext|done|by split| |done].
    eapply wake_ext; [done..|]. intros n w e d Hn He Hor. simpl in *.
    destruct (t_watch _ _ _ Ht n w Hn) as (e' & He' & _ & Hk). simplify_eq.
    destruct Hor as [Hbl|[Hpe|[]]]; [by eauto|]. destruct (Hpend (token e) d) as [?|?]; eauto.
  - destruct (entries_locked dr); inv_eff. split_and!; [by eapply table_ext|done|by split|by eapply wake_ext|done].
  - inv_eff. split_and!; [by eapply table_ext|done|by split| |done].
    eapply wake_ext; [done..|]. intros n w e d _ _ [?|[?|(f & Hin & _)]]; [by eauto..|by apply not_elem_of_nil in Hin].
  - destruct (Nat.eqb_spec k (notify_token dr)) as [->|Hk].
    + destruct (set_readiness _ _ _) as [[[]|err] p] eqn:Hr; inv_eff.
      apply set_readiness_spec in Hr. pose proof Hr as (Htok & Hpend & Hb).
      split_and!; [by apply table_steady|done|by split| |done].
      eapply wake_ext; [done..|]. intros n w e d Hn He Hor. simpl in *.
      destruct (t_watch _ _ _ Ht n w Hn) as (e' & He' & _ & Hk). simplify_eq.
      destruct Hor as [Hbl|[Hpe|Hin]]; [|by eauto|].
      * destruct (Hb (source w) (token e) d) as [?|?]; eauto.
      * apply in_events_cons in Hin as [[Heq _]|Hin]; [|by eauto].
        symmetry in Heq. by apply (token_not_notify _ _ _ _ _ _ Ht Hn He) in Heq.
    + rewrite slab_view_get in Hstep. destruct (slab_view (entries dr) !! k) as [a|] eqn:Ha; inv_eff.
      * split_and!; [done..| | |done].
        { split; [done|]. intros d a' flags' events' [= <- <- <- <-].
          destruct (t_slab _ _ _ Ht k a Ha) as (e & He & _). by eexists. }
        eapply wake_ext; [done..|]. intros n w e d Hn He [?|[?|Hin]]; [by eauto..|right; right].
        apply in_events_cons in Hin as [[Heq Htells]|Hin]; [left|by right].
        destruct (t_watch _ _ _ Ht n w Hn) as (e' & He' & Hs & _). simplify_eq. split_and!; [congruence|done|by left].
      * split_and!; [done..|by split| |done]. eapply wake_ext; [done..|].
        intros n w e d Hn He [?|[?|Hin]]; [by eauto..|right; right].
        apply in_events_cons in Hin as [[Heq Htells]|Hin]; [|done].
        destruct (t_watch _ _ _ Ht n w Hn) as (e' & He' & Hs & _). congruence.
  - destruct (N.eqb_spec (N.land flags (interests d)) 0) as [Hz|Hne].
    + inv_eff. split_and!; [done..| | |done].
      { split; [by destruct d|]. destruct d; [|done]. intros d a' flags' events' [= <- <- <- <-]. eauto. }
      eapply wake_ext; [done..|]. intros n w e d' Hn He [?|[?|Hat]]; [by eauto..|right; right].
      apply attends_after; [done|]. intros _ -> Htells. by apply tells_interests in Htells.
    + destruct (Hle _ _ _ _ eq_refl) as [e Ha]. rewrite Ha in Hstep. simpl in Hstep.
      destruct (is_locked (list_of d e)) eqn:Hlock; inv_eff. simplify_eq.
      split_and!; [by apply table_list|by apply ops_relist| | |by apply lists_list; [..|constructor]].
      { destruct (loop_list dr a d (mkWakers false []) e Ha (Wake d a flags events)) as [Hl' Hle']; [by split|].
        split; [by destruct d|]. destruct d; [|done]. intros d a' flags' events' [= <- <- <- <-]. eauto. }
      intros n wt e' d' Hn He' Hwait.
      destruct (set_list_heap dr a d (mkWakers false []) e Ha _ _ He') as (e0 & He0 & Htok & Hlist). rewrite Htok.
      assert (entry wt = a → d' = d → False) as Hno.
      { intros Hwa ->. destruct Hwait as [Hwk|(j & o & Hj & Hon & Hod & Hpc)].
        - by rewrite Hlist, decide_True in Hwk.
        - destruct (o_locked _ _ _ Ho j a d) as (e1 & He1 & Hl1); [|congruence].
          exists o, wt. rewrite Hpc, Hon. done. }
      destruct (Hw n wt e0 d' Hn He0) as [?|[?|Hat]]; [|by eauto..|].
      { destruct Hwait as [Hwk|Hr]; [|by right]. rewrite Hlist in Hwk. left.
        destruct (decide _) as [[??]|]; [by destruct Hno|done]. }
      right; right. apply attends_after; [done|]. intros Heq Hd _. by apply Hno.
Qed.

(** ** Making and dropping watchers *)

(** The sources of two watchers are not the same. *)
Lemma source_own dr ws rm n1 n2 w1 w2 :
  TableOk dr ws rm → ws !! n1 = Some w1 → ws !! n2 = Some w2 → source w1 = source w2 → n1 = n2.
Proof.
  intros Ht Hn1 Hn2 Heq. destruct (t_watch _ _ _ Ht n1 w1 Hn1) as (e1 & He1 & Hk1 & Hs1).
  destruct (t_watch _ _ _ Ht n2 w2 Hn2) as (e2 & He2 & Hk2 & Hs2).
  apply (t_own _ _ _ Ht n1 n2 w1 w2); congruence.
Qed.

Lemma wake_steady_except dr l ws rm os s p' :
  TableOk dr ws rm → WakeOk dr l ws os → steady (.= s) (poller dr) p' →
  (∀ n w, ws !! n = Some w → source w ≠ s) → WakeOk (set_poller p' dr) l ws os.
Proof.
  intros Ht Hw (_ & Hpend & Hb) Hne n w e d Hn He Hwait. simpl in *.
  destruct (t_watch _ _ _ Ht n w Hn) as (e' & He' & _ & Htok). simplify_eq.
  destruct (Hw n w e d Hn He Hwait) as [Hbl|[Hp|Ha]]; [|by eauto..].
  destruct (Hb (source w) (token e) d) as [?|?]; eauto.
Qed.

(** The table and the memory after [register], whether the poller takes the source
    or not. *)
Lemma register_InvC dr l ws rm os s res dr' :
  InvC dr l ws rm os → token_of (poller dr) s = None → register s dr = (res, dr') →
  InvC dr' l ws rm os ∧ (∀ n w, ws !! n = Some w → source w ≠ s) ∧
  ∃ a k, heap dr !! a = None ∧ heap dr' !! a = Some (mkEntry k (mkWakers false []) (mkWakers false [])) ∧
    slab_view (entries dr) !! k = None ∧ slab_view (entries dr') !! k = Some a ∧
    notify_token dr' = notify_token dr ∧
    ∀ a', res = Ok a' → a' = a ∧ token_of (poller dr') s = Some k.
Proof.
  intros (Ht & Ho & [Hl Hle] & Hw & Hnd) Hs Hreg. unfold register in Hreg.
  set (a := fresh (dom (heap dr))) in *.
  assert (heap dr !! a = None) as Ha by apply not_elem_of_dom, is_fresh.
  destruct (slab_insert (entries dr) a) as [k es] eqn:Hins. apply slab_view_insert in Hins as [Hk Hes].
  set (h := <[a := mkEntry k (mkWakers false []) (mkWakers false [])]> (heap dr)) in *. simpl in Hreg.
  destruct (poller_register s k (poller dr)) as [r p] eqn:Hp. apply register_spec in Hp as [Htok Hst].
  assert (∀ n w, ws !! n = Some w → source w ≠ s) as Hne.
  { intros n w Hn Heq. destruct (t_watch _ _ _ Ht n w Hn) as (e & _ & _ & Hsw). congruence. }
  assert (∀ a' e, heap dr !! a' = Some e → h !! a' = Some e) as Hheap.
  { intros a' e He. unfold h. rewrite lookup_insert_ne; [done|congruence]. }
  assert (∀ k' a', slab_view (entries dr) !! k' = Some a' → slab_view es !! k' = Some a') as Hslab.
  { intros k' a' Hk'. rewrite Hes, lookup_insert_ne; [done|congruence]. }
  injection Hreg as <- <-. split; [split_and!|split; [done|]].
  - split.
    + intros n w Hn. destruct (t_watch _ _ _ Ht n w Hn) as (e & He & Hke & Hsw).
      exists e. simpl. split_and!; [by apply Hheap|by apply Hslab|]. rewrite (proj1 Hst); [done|by apply (Hne n)].
    + apply Ht.
    + intros k' a' Hk'. simpl in *. rewrite Hes, lookup_insert_Some in Hk'. destruct Hk' as [[<- <-]|[_ Hk']].
      * eexists. split; [apply lookup_insert_eq|done].
      * destruct (t_slab _ _ _ Ht k' a' Hk') as (e & He & Hke). exists e. split; [by apply Hheap|done].
    + intros n k' Hn. destruct (t_removing _ _ _ Ht n k' Hn) as (Hkn & a' & Ha' & Hno). split; [done|].
      exists a'. split; [by apply Hslab|done].
    + apply Ht.
    + destruct (t_notify _ _ _ Ht) as (a' & Ha' & Hno). exists a'. split; [by apply Hslab|done].
  - split; [apply Ho| | |apply Ho].
    + intros j a' d Hj. destruct (o_locked _ _ _ Ho j a' d Hj) as (e & He & Hlk). exists e.
      split; [by apply Hheap|done].
    + intros a' d e He Hlk. simpl in He. apply lookup_insert_Some in He as [[<- <-]|[_ He]].
      * by destruct d.
      * by apply (o_holder _ _ _ Ho a' d e).
  - split; [done|]. intros d a' flags events ->. destruct (Hle _ _ _ _ eq_refl) as [e He].
    exists e. by apply Hheap.
  - intros n w e d Hn He Hwait.
    destruct (t_watch _ _ _ Ht n w Hn) as (e' & He' & _ & _).
    assert (e = e') as -> by (apply Hheap in He'; simpl in He; congruence).
    by apply (wake_steady_except dr l ws rm os s p Ht Hw Hst Hne n w e' d).
  - intros a' e d He. simpl in He. apply lookup_insert_Some in He as [[<- <-]|[_ He]].
    + destruct d; constructor.
    + by apply (Hnd a').
  - exists a, k. split_and!; [done|apply lookup_insert_eq|done|simpl; by rewrite Hes, lookup_insert_eq|done|].
    intros a' Hok. simpl. destruct r; by simplify_eq.
Qed.

Lemma holds_ws_iff ws ws' os i a d :
  (∀ i o, os !! i = Some o → ws' !! op_watcher o = ws !! op_watcher o) →
  holds ws' os i a d ↔ holds ws os i a d.
Proof.
  intros Hws. unfold holds, holds_by. split; intros (o & w & Hi & Hp & Hw & Hr); exists o, w;
    (split_and!; [done..| |by destruct Hr|by destruct Hr]); specialize (Hws i o Hi); congruence.
Qed.

(** The watchers that operations use are the same. *)
Lemma ops_ws h ws ws' os :
  OpsOk h ws os → (∀ i o, os !! i = Some o → ws' !! op_watcher o = ws !! op_watcher o) → OpsOk h ws' os.
Proof.
  intros Ho Hws. split.
  - intros i o Hi. destruct (o_watcher _ _ _ Ho i o Hi) as (w & Hw & Hf). exists w. by rewrite (Hws i o Hi).
  - intros i a d Hi. rewrite (holds_ws_iff ws) in Hi by done. by apply (o_locked _ _ _ Ho) in Hi.
  - intros a d e Ha Hl. destruct (o_holder _ _ _ Ho a d e Ha Hl) as [j Hj]. exists j.
    by rewrite (holds_ws_iff ws) by done.
  - intros i j a d Hi Hj. rewrite (holds_ws_iff ws) in Hi, Hj by done. by apply (o_one _ _ _ Ho i j a d).
Qed.

(** A new watcher, of the entry that [register] made. *)
Lemma watch_InvC dr l ws rm os n s a k :
  InvC dr l ws rm os → ws !! n = None → heap dr !! a = Some (mkEntry k (mkWakers false []) (mkWakers false [])) →
  slab_view (entries dr) !! k = Some a → token_of (poller dr) s = Some k →
  (∀ n w, ws !! n = Some w → entry w ≠ a) → (∀ n k', rm !! n = Some k' → k' ≠ k) → notify_token dr ≠ k →
  InvC dr l (<[n := mkWatcher s a]> ws) rm os.
Proof.
  intros (Ht & Ho & Hl & Hw & Hnd) Hn Ha Hk Hs Hown Hrm Hnot.
  assert (∀ i o, os !! i = Some o → op_watcher o ≠ n) as Hops.
  { intros i o Hi Heq. destruct (o_watcher _ _ _ Ho i o Hi) as (w & Hwn & _). congruence. }
  assert (∀ a' k', slab_view (entries dr) !! k' = Some a' → k' ≠ k → a' ≠ a) as Hother.
  { intros a' k' Hk' Hne ->. destruct (t_slab _ _ _ Ht k' a Hk') as (e & He & Hke). simplify_eq. }
  split_and!; [split|..|done].
  - intros n' w [[<- <-]|[Hne Hn']]%lookup_insert_Some; [|by apply (t_watch _ _ _ Ht n')].
    eexists. split; [exact Ha|]. done.
  - intros n1 n2 w1 w2 [[<- <-]|[Hne1 Hn1]]%lookup_insert_Some [[<- <-]|[Hne2 Hn2]]%lookup_insert_Some Heq; simpl in *.
    + done.
    + by destruct (Hown n2 w2).
    + by destruct (Hown n1 w1).
    + by apply (t_own _ _ _ Ht n1 n2 w1 w2).
  - apply Ht.
  - intros m k' Hm. destruct (t_removing _ _ _ Ht m k' Hm) as (Hkn & a' & Ha' & Hno). split; [done|].
    exists a'. split; [done|]. intros n' w [[<- <-]|[_ Hn']]%lookup_insert_Some; [|by apply (Hno n')].
    simpl. intros ->. by destruct (Hother a' k' Ha' (Hrm m k' Hm)).
  - apply Ht.
  - destruct (t_notify _ _ _ Ht) as (a' & Ha' & Hno). exists a'. split; [done|].
    intros n' w [[<- <-]|[_ Hn']]%lookup_insert_Some; [|by apply (Hno n')]. simpl. intros ->.
    by destruct (Hother a' _ Ha' Hnot).
  - apply (ops_ws _ ws); [done|]. intros i o Hi. by rewrite lookup_insert_ne by (apply not_eq_sym, (Hops i o Hi)).
  - done.
  - intros n' w e d [[<- <-]|[_ Hn']]%lookup_insert_Some He Hwait; [|by apply (Hw n')].
    simpl in He. exfalso. destruct Hwait as [Hwk|(i & o & Hi & Hon & _)].
    + assert (e = mkEntry k (mkWakers false []) (mkWakers false [])) as -> by congruence. by destruct d.
    + by destruct (Hops i o Hi).
Qed.

(** A watcher whose source is deregistered. *)
Lemma unwatch_InvC dr l ws rm os n w p' :
  InvC dr l ws rm os → ws !! n = Some w → (∀ i o, os !! i = Some o → op_watcher o ≠ n) →
  steady (.= source w) (poller dr) p' → InvC (set_poller p' dr) l (delete n ws) rm os.
Proof.
  intros (Ht & Ho & Hl & Hw & Hnd) Hn Hops Hst.
  assert (∀ n' w', delete n ws !! n' = Some w' → ws !! n' = Some w' ∧ source w' ≠ source w) as Hws.
  { intros n' w' [Hne Hn']%lookup_delete_Some. split; [done|]. intros Heq.
    by destruct Hne, (source_own _ _ _ n n' w w' Ht Hn Hn'). }
  assert (TableOk dr (delete n ws) rm) as Ht'.
  { split; try apply Ht.
    - intros n' w' [Hn' _]%Hws. by apply (t_watch _ _ _ Ht) in Hn'.
    - intros n1 n2 w1 w2 [Hn1 _]%Hws [Hn2 _]%Hws. by apply (t_own _ _ _ Ht).
    - intros m k Hm. destruct (t_removing _ _ _ Ht m k Hm) as (Hkn & a & Ha & Hno). split; [done|].
      exists a. split; [done|]. intros n' w' [Hn' _]%Hws. by apply (Hno n').
    - destruct (t_notify _ _ _ Ht) as (a & Ha & Hno). exists a. split; [done|].
      intros n' w' [Hn' _]%Hws. by apply (Hno n'). }
  split_and!; [split; try apply Ht'; simpl| |by split; apply Hl| |done].
  - intros n' w' Hn'. destruct (t_watch _ _ _ Ht' n' w' Hn') as (e & He & Hk & Hs). exists e.
    split_and!; [done..|]. rewrite (proj1 Hst); [done|]. by apply Hws in Hn' as [_ ?].
  - apply (ops_ws _ ws); [done|]. intros i o Hi. by rewrite lookup_delete_ne by (apply not_eq_sym, (Hops i o Hi)).
  - apply (wake_steady_except _ _ _ rm _ (source w)); [done| |done|by intros n' w' [_ ?]%Hws].
    intros n' w' e d [Hn' _]%Hws. by apply (Hw n').
Qed.

(** ... and whose entry is to be removed. *)
Lemma removing_InvC dr l ws rm os n k a :
  InvC dr l ws rm os → rm !! n = None → slab_view (entries dr) !! k = Some a →
  (∀ n' w, ws !! n' = Some w → entry w ≠ a) → k ≠ notify_token dr → (∀ n' k', rm !! n' = Some k' → k' ≠ k) →
  InvC dr l ws (<[n := k]> rm) os.
Proof.
  intros (Ht & HI) Hn Hk Hno Hnot Hrm. split; [|done]. split; try apply Ht.
  - intros m k' [[<- <-]|[_ Hm]]%lookup_insert_Some; [|by apply (t_removing _ _ _ Ht m)].
    split; [done|]. by exists a.
  - intros n1 n2 k' [[<- <-]|[_ Hn1]]%lookup_insert_Some [[<- Heq]|[_ Hn2]]%lookup_insert_Some; [done| | |].
    + by destruct (Hrm _ _ Hn2).
    + by destruct (Hrm _ _ Hn1).
    + by apply (t_once _ _ _ Ht n1 n2 k').
Qed.

Lemma remove_entry_InvC dr l ws rm os n k dr' ev :
  InvC dr l ws rm os → rm !! n = Some k → remove_entry k dr = Done (dr', ev) → InvC dr' l ws (delete n rm) os.
Proof.
  intros (Ht & Ho & [Hl Hle] & Hw & Hnd) Hn Hrem. unfold remove_entry in Hrem.
  destruct (t_removing _ _ _ Ht n k Hn) as (Hkn & a & Ha & Hno).
  destruct (slab_view_remove (entries dr) k a Ha) as (es & Hes & Hview). rewrite Hes in Hrem. simpl in Hrem.
  inv_eff. simplify_eq. split_and!; [|done|by split|by eapply wake_ext|done].
  split; simpl; try apply Ht; rewrite ?Hview.
  - intros n' w Hn'. destruct (t_watch _ _ _ Ht n' w Hn') as (e & He & Hk & Hs). exists e.
    split_and!; [done| |done]. rewrite lookup_delete_ne; [done|]. intros ->. apply (Hno n' w Hn'). congruence.
  - intros k' a' [_ Hk']%lookup_delete_Some. by apply (t_slab _ _ _ Ht).
  - intros m k' [Hne Hm]%lookup_delete_Some. destruct (t_removing _ _ _ Ht m k' Hm) as (Hk'n & a' & Ha' & Hno').
    split; [done|]. exists a'. split; [|done]. rewrite lookup_delete_ne; [done|]. intros <-.
    by destruct Hne, (t_once _ _ _ Ht n m k).
  - intros n1 n2 k' [_ Hn1]%lookup_delete_Some [_ Hn2]%lookup_delete_Some. by apply (t_once _ _ _ Ht n1 n2 k').
  - destruct (t_notify _ _ _ Ht) as (a' & Ha' & Hno'). exists a'. split; [|done]. by rewrite lookup_delete_ne.
Qed.

Definition Inv (s : System) : Prop := InvC (driver s) (loop s) (watchers s) (removing s) (ops s).

Lemma turn_Inv s s' : Inv s → turn s s' → Inv s'.
Proof.
  intros HI Ht. destruct Ht as [??????? ?? Hl|??????? o w pc' ? ev Hi Hw Hs|??????? o w res ? ev Hi Hw Hs]; unfold Inv in *; simpl in *.
  - by eapply loop_step_InvC.
  - by destruct (op_step_InvC _ _ _ _ _ _ _ _ _ _ HI Hi Hw Hs).
  - by destruct (op_step_InvC _ _ _ _ _ _ _ _ _ _ HI Hi Hw Hs).
Qed.

Lemma driver_step_Inv s s' : Inv s → step s s' → Inv s'.
Proof.
  intros HI Hs. destruct Hs as [s s' Ht|dr l ws rm os lg p' Hst|dr l ws rm os lg i n d waker f w Hn Hi Hf
    |dr l ws rm os lg n s a dr' Hlk Hn Hs Hr|dr l ws rm os lg s err dr' Hlk Hs Hr
    |dr l ws rm os lg n w e dr' Hn Hops Hrm He Hd|dr l ws rm os lg n w err dr' Hn Hops Hd
    |dr l ws rm os lg n k dr' Hn Hlk Hr]; unfold Inv in *; simpl in *.
  - by eapply turn_Inv.
  - by apply InvC_steady.
  - apply (InvC_op _ _ _ _ os i (Some (mkOp n d waker f Trying))); [done| |intros o [= <-]; by exists w|by intros o w' e [= <-]].
    intros a d'. unfold holds. rewrite Hi. split; [intros (o & w' & [= <-] & [=] & _)|intros (o & w' & [=] & _)].
  - destruct (register_InvC _ _ _ _ _ _ _ _ HI Hs Hr) as (HI' & Hne & a' & k & Ha & Ha' & Hk & Hk' & Hnt & Hok).
    destruct (Hok a eq_refl) as [-> Htok]. destruct HI as (Ht & _).
    apply (watch_InvC _ _ _ _ _ n s a' k); [done..| | |].
    + intros n' w Hn' Heq. destruct (t_watch _ _ _ Ht n' w Hn') as (e & He & _). congruence.
    + intros n' k' Hk0 ->. destruct (t_removing _ _ _ Ht n' k Hk0) as (_ & a0 & Ha0 & _). congruence.
    + rewrite Hnt. intros Heq. destruct (t_notify _ _ _ Ht) as (a0 & Ha0 & _). congruence.
  - by destruct (register_InvC _ _ _ _ _ _ _ _ HI Hs Hr) as (HI' & _).
  - unfold deregister_source in Hd. destruct (poller_deregister _ _) as [r p] eqn:Hp.
    apply deregister_spec in Hp as [_ Hst]. simplify_eq. pose proof HI as (Ht & _).
    destruct (t_watch _ _ _ Ht n w Hn) as (e' & He' & Hk & _). simplify_eq.
    assert (∀ n' w', delete n ws !! n' = Some w' → entry w' ≠ entry w) as Hown.
    { intros n' w' [Hne Hn']%lookup_delete_Some Heq. by destruct Hne, (t_own _ _ _ Ht n n' w w'). }
    apply (removing_InvC _ _ _ _ _ _ _ (entry w)); [by apply (unwatch_InvC _ _ _ _ _ _ w)|done..| |].
    + by apply (token_not_notify dr ws rm n w).
    + intros n' k' Hk' ->. destruct (t_removing _ _ _ Ht n' _ Hk') as (_ & a0 & Ha0 & Hno).
      apply (Hno n w Hn). congruence.
  - unfold deregister_source in Hd. destruct (poller_deregister _ _) as [r p] eqn:Hp.
    apply deregister_spec in Hp as [_ Hst]. simplify_eq. by apply (unwatch_InvC _ _ _ _ _ _ w).
  - by eapply remove_entry_InvC.
Qed.

Lemma driver_initial_Inv s : initial s → Inv s.
Proof.
  intros [dr Hnew]. unfold Reactor_new in Hnew. destruct poller_new as [p|] eqn:Hp; [|done].
  destruct (registration_new p) as [src p1] eqn:Hreg. unfold register in Hnew. simpl in Hnew.
  set (a := fresh (dom ∅)) in *. destruct (slab_insert slab_new a) as [k es] eqn:Hins.
  apply slab_view_insert in Hins as [_ Hes]. rewrite slab_view_new in Hes. simpl in Hnew.
  destruct (poller_register src k p1) as [[[]|err] p2]; [|done]. simplify_eq. simpl in *.
  rewrite lookup_insert_eq. simpl. unfold Inv. simpl.
  split_and!; [split| |by split| |]; simpl; rewrite ?Hes; try done.
  - intros k' a' [[<- <-]|[_ Hk']]%lookup_insert_Some; [|by rewrite lookup_empty in Hk'].
    eexists. split; [apply lookup_insert_eq|done].
  - exists a. split; [apply lookup_insert_eq|]. done.
  - split; [done| | |].
    + by intros i a' d (o & w & Hi & _).
    + intros a' d e [[<- <-]|[_ He]]%lookup_insert_Some; [by destruct d|by rewrite lookup_empty in He].
    + by intros i j a' d (o & w & Hi & _).
  - intros a' e d [[<- <-]|[_ He]]%lookup_insert_Some; [destruct d; constructor|by rewrite lookup_empty in He].
Qed.

Lemma driver_reachable_Inv s : reachable s → Inv s.
Proof.
  intros (s0 & Hs0%driver_initial_Inv & Hsteps). induction Hsteps; [done|]. eauto using driver_step_Inv.
Qed.

(** ** The thread comes to the list *)

Lemma wake_all_done (ts : list nat) : wake_all ts = Done (tt, Woken <$> ts).
Proof. induction ts as [|t ts IH]; [done|]. simpl. by rewrite IH. Qed.

(** The task [t] waits in the list for [d] of the watcher [n]. *)
Section Waiting.
Context (t n : nat) (w : Watcher) (d : Interest) (k : nat).

Definition waiting (s : System) : Prop :=
  Inv s ∧ watchers s !! n = Some w ∧
  ∃ e, heap (driver s) !! entry w = Some e ∧ token e = k ∧ t ∈ wakers (list_of d e).

(** It is woken by turns of the thread of the driver and of those that have locked
    a list, unless the process is aborted. *)
Definition gets_woken (s : System) : Prop :=
  ∃ s', rtc turn s s' ∧
    (Woken t ∈ log s' ∨ loop_step (loop s') (driver s') = Done (LoopDies, [])).

Lemma gets_turn s s' : turn s s' → gets_woken s' → gets_woken s.
Proof. intros Ht (s2 & Hs & Hr). exists s2. split; [by eapply rtc_l|done]. Qed.

Lemma gets_turns s s' : rtc turn s s' → gets_woken s' → gets_woken s.
Proof. intros Ht (s2 & Hs & Hr). exists s2. split; [by etrans|done]. Qed.

(** Lists that only grow. *)
Definition grows (h h' : gmap nat Entry) : Prop :=
  ∀ a e, h !! a = Some e → ∃ e', h' !! a = Some e' ∧ token e' = token e ∧
    ∀ d, wakers (list_of d e) ⊆ wakers (list_of d e').

Lemma grows_list h a d' x e :
  h !! a = Some e → wakers (list_of d' e) ⊆ wakers x → grows h (<[a := set_list d' x e]> h).
Proof.
  intros Ha Hx a' e' He'. destruct (decide (a = a')) as [<-|Hne].
  - rewrite lookup_insert_eq. eexists. split; [done|]. rewrite token_set_list.
    assert (e' = e) as -> by congruence. split; [done|]. intros d0. rewrite list_of_set_list.
    by destruct (decide _) as [->|].
  - rewrite lookup_insert_ne by done. by exists e'.
Qed.

Lemma waiting_grows dr l ws rm os lg dr' l' os' lg' :
  waiting (mkSystem dr l ws rm os lg) → InvC dr' l' ws rm os' → grows (heap dr) (heap dr') →
  waiting (mkSystem dr' l' ws rm os' lg').
Proof.
  intros (_ & Hn & e & He & Hk & Hin) HI Hg. destruct (Hg _ _ He) as (e' & He' & Hk' & Hsub).
  split_and!; [done..|]. exists e'. split_and!; [done|by simpl in *; congruence|by apply Hsub].
Qed.

Lemma op_step_grows o w0 dr (tn : Turn R) ev :
  op_step o w0 dr = Done (tn, ev) →
  match tn with Waits => True | Goes _ dr' | Returns _ dr' => grows (heap dr) (heap dr') end.
Proof.
  intros Hs. assert (grows (heap dr) (heap dr)) as Hrefl by (intros a e He; by exists e).
  unfold op_step in Hs. destruct (op_pc o).
  - destruct (op_run o _) as [r p]. destruct (would_block r); by inv_eff.
  - destruct (heap dr !! entry w0) as [e|] eqn:He; [|done]. simpl in Hs. destruct (is_locked _); inv_eff; [done|].
    by apply grows_list.
  - destruct (op_run o _) as [r p]. destruct (would_block r); [by inv_eff|].
    change (heap (set_poller p dr)) with (heap dr) in Hs.
    destruct (heap dr !! entry w0) as [e|] eqn:He; [|done]. inv_eff. by apply grows_list.
  - destruct (heap dr !! entry w0) as [e|] eqn:He; [|done]. inv_eff. apply grows_list; [done|]. simpl.
    destruct (forallb _ _); set_solver.
Qed.

(** Whoever has locked a list lets it go. *)
Lemma registering_frees dr l ws rm os lg i o w0 e :
  waiting (mkSystem dr l ws rm os lg) → os !! i = Some o → ws !! op_watcher o = Some w0 →
  op_pc o = Registering → heap dr !! entry w0 = Some e →
  ∃ s' e', turn (mkSystem dr l ws rm os lg) s' ∧ waiting s' ∧ loop s' = l ∧
    heap (driver s') !! entry w0 = Some e' ∧ is_locked (list_of (op_interest o) e') = false.
Proof.
  intros Hwt Hi Hw0 Hpc He. destruct (op_step o w0 dr) as [[tn ev]| |] eqn:Hs.
  2,3: (unfold op_step in Hs; by rewrite Hpc, He in Hs).
  pose proof Hwt as (HI & _). destruct (op_step_InvC _ _ _ _ _ _ _ _ _ _ HI Hi Hw0 Hs) as [-> HI'].
  pose proof (op_step_grows _ _ _ _ _ Hs) as Hg. pose proof Hs as Hs'.
  unfold op_step in Hs'. rewrite Hpc, He in Hs'. inv_eff. eexists _, _. split_and!.
  - eapply turn_returns; [done..|exact Hs].
  - by eapply waiting_grows.
  - done.
  - apply lookup_insert_eq.
  - by rewrite list_of_set_list, decide_True.
Qed.

Lemma list_frees dr l ws rm os lg a d' :
  waiting (mkSystem dr l ws rm os lg) → is_Some (heap dr !! a) →
  ∃ s' e', rtc turn (mkSystem dr l ws rm os lg) s' ∧ waiting s' ∧ loop s' = l ∧
    heap (driver s') !! a = Some e' ∧ is_locked (list_of d' e') = false.
Proof.
  intros Hwt [e He]. destruct (is_locked (list_of d' e)) eqn:Hl.
  2: { eexists _, e. split; [apply rtc_refl|done]. }
  pose proof Hwt as (HI & _). pose proof HI as (_ & Ho & _).
  destruct (o_holder _ _ _ Ho a d' e He Hl) as (i & o & w0 & Hi & Hh & Hw0 & <- & <-).
  simpl in Hi, Hw0, Hh. destruct (op_pc o) eqn:Hpc; [done..| |].
  2: { destruct (registering_frees _ _ _ _ _ _ _ _ _ _ Hwt Hi Hw0 Hpc He) as (s' & e' & Ht & Hr).
       exists s', e'. split; [by apply rtc_once|done]. }
  destruct (op_step o w0 dr) as [[tn ev]| |] eqn:Hs.
  2,3: (unfold op_step in Hs; rewrite Hpc in Hs; destruct (op_run o _) as [r p]; destruct (would_block r);
        [done|change (heap (set_poller p dr)) with (heap dr) in Hs; by rewrite He in Hs]).
  destruct (op_step_InvC _ _ _ _ _ _ _ _ _ _ HI Hi Hw0 Hs) as [-> HI'].
  pose proof (op_step_grows _ _ _ _ _ Hs) as Hg. pose proof Hs as Hs'.
  unfold op_step in Hs'. rewrite Hpc in Hs'. destruct (op_run o (poller dr)) as [r p]. destruct (would_block r).
  - inv_eff. assert (waiting (mkSystem (set_poller p dr) l ws rm (<[i := at_pc Registering o]> os) (lg ++ []))) as Hwt'
      by by eapply waiting_grows.
    edestruct (registering_frees _ _ _ _ _ _ i (at_pc Registering o) w0 e Hwt') as (s' & e' & Ht & Hr);
      [apply lookup_insert_eq|done..|].
    exists s', e'. split; [|done]. eapply rtc_l; [by eapply turn_goes|]. by apply rtc_once.
  - change (heap (set_poller p dr)) with (heap dr) in Hs'. rewrite He in Hs'. inv_eff.
    eexists _, _. split_and!; [apply rtc_once; by eapply turn_returns|by eapply waiting_grows|done|apply lookup_insert_eq|].
    by rewrite list_of_set_list, decide_True.
Qed.

(** It comes by the list, or goes past an event that is none of its business. *)
Lemma wake_passes d' a flags events s :
  waiting s → loop s = Wake d' a flags events →
  (∀ s', waiting s' → loop s' = after_wake d' a flags events → ¬ (a = entry w ∧ d' = d ∧ tells d flags) → gets_woken s') →
  gets_woken s.
Proof.
  intros Hwt Hloop Hnext. destruct (N.eqb_spec (N.land flags (interests d')) 0) as [Hz|Hz].
  - destruct s as [dr l ws rm os lg]. simpl in Hloop. subst l. pose proof Hwt as (HI & _).
    assert (loop_step (Wake d' a flags events) dr = Done (LoopGoes (after_wake d' a flags events) dr, [])) as Hs
      by (simpl; by rewrite Hz).
    eapply gets_turn; [by apply turn_loop|]. apply Hnext; [|done|].
    + eapply waiting_grows; [done|by eapply loop_step_InvC|]. intros a' e He. by exists e.
    + intros (-> & -> & Ht). by apply tells_interests in Ht.
  - destruct s as [dr0 l ws rm os lg]. simpl in Hloop. subst l. pose proof Hwt as (HI & _).
    destruct HI as (_ & _ & [_ Hle] & _). specialize (Hle _ _ _ _ eq_refl).
    destruct (list_frees _ _ _ _ _ _ a d' Hwt Hle) as (s1 & e & Hts & Hwt1 & Hloop1 & He & Hfree).
    eapply gets_turns; [exact Hts|]. clear Hts Hle Hwt dr0 ws rm os lg.
    destruct s1 as [dr l ws rm os lg]. simpl in *. subst l.
    assert (loop_step (Wake d' a flags events) dr = Done (LoopGoes (after_wake d' a flags events)
      (set_entry_list a d' (mkWakers false []) e dr), Woken <$> wakers (list_of d' e))) as Hs.
    { simpl. destruct (N.eqb_spec (N.land flags (interests d')) 0); [done|].
      rewrite He. simpl. rewrite Hfree, wake_all_done. simpl. by rewrite app_nil_r. }
    pose proof Hwt1 as (HI & Hn & e0 & He0 & Hk & Hin). simpl in *.
    eapply gets_turn; [by apply turn_loop|].
    destruct (decide (a = entry w ∧ d' = d)) as [[-> ->]|Hne].
    + eexists. split; [apply rtc_refl|]. left. simpl. apply elem_of_app. right.
      apply list_elem_of_fmap_2. by simplify_eq.
    + apply Hnext; [|done|naive_solver].
      split_and!; [by eapply loop_step_InvC|done|]. simpl.
      destruct (decide (a = entry w)) as [->|Ha].
      * exists (set_list d' (mkWakers false []) e). rewrite lookup_insert_eq. simplify_eq.
        rewrite token_set_list, list_of_set_list, decide_False by naive_solver. done.
      * exists e0. by rewrite lookup_insert_ne.
Qed.

Lemma events_come events s :
  waiting s → loop s = Events events → in_events k d events → gets_woken s.
Proof.
  revert s. induction events as [|[k' flags] events IH]; intros s Hwt Hloop Hin.
  { destruct Hin as (f & Hf & _). by apply not_elem_of_nil in Hf. }
  destruct s as [dr l ws rm os lg]. simpl in Hloop. subst l.
  pose proof Hwt as (HI & Hn & e & He & Hk & _). simpl in Hn, He. destruct HI as (Ht & HI).
  assert (∀ l' dr', loop_step (Events ((k', flags) :: events)) dr = Done (LoopGoes l' dr', []) → heap dr' = heap dr →
    (waiting (mkSystem dr' l' ws rm os (lg ++ [])) → gets_woken (mkSystem dr' l' ws rm os (lg ++ []))) →
    gets_woken (mkSystem dr (Events ((k', flags) :: events)) ws rm os lg)) as Hgo.
  { intros l' dr' Hs Hh Hnext. eapply gets_turn; [by apply turn_loop|]. apply Hnext.
    eapply waiting_grows; [done|by eapply loop_step_InvC|]. rewrite Hh. intros a e' He'. by exists e'. }
  destruct (t_watch _ _ _ Ht n w Hn) as (e' & He' & Hslab & _). simplify_eq.
  apply in_events_cons in Hin. simpl in Hgo. destruct (Nat.eqb_spec k' (notify_token dr)) as [->|Hne].
  - destruct (set_readiness _ _ _) as [[[]|err] p] eqn:Hr.
    + eapply Hgo; [done..|]. intros Hwt'. apply IH; [done..|]. destruct Hin as [[Heq _]|?]; [|done].
      symmetry in Heq. destruct (token_not_notify _ _ _ _ _ _ Ht Hn He). simpl in *. congruence.
    + eexists. split; [apply rtc_refl|]. right. simpl. by rewrite Nat.eqb_refl, Hr.
  - rewrite slab_view_get in Hgo. destruct (slab_view (entries dr) !! k') as [a|] eqn:Ha.
    + eapply Hgo; [done..|]. intros Hwt'. eapply wake_passes; [done..|]. intros s1 Hwt1 Hl1 Hno1.
      eapply wake_passes; [done..|]. intros s2 Hwt2 Hl2 Hno2. apply IH; [done..|].
      destruct Hin as [[Heq Htells]|?]; [|done].
      assert (a = entry w) as -> by (simpl in *; congruence). destruct d; naive_solver.
    + eapply Hgo; [done..|]. intros Hwt'. apply IH; [done..|]. destruct Hin as [[Heq _]|?]; [simpl in *; congruence|done].
Qed.

Lemma attends_gets s : waiting s → attends (loop s) (entry w) k d → gets_woken s.
Proof.
  intros Hwt Hat. destruct (loop s) as [|events|events|d' a flags events] eqn:Hl; [done| | |].
  - destruct s as [dr l ws rm os lg]. simpl in Hl. subst l. pose proof Hwt as (HI & _).
    destruct HI as (_ & _ & [Hlock _] & _). simpl in Hlock.
    assert (loop_step (LockEntries events) dr = Done (LoopGoes (Events events) (set_locked true dr), [])) as Hs
      by (simpl; by rewrite Hlock).
    eapply gets_turn; [by apply turn_loop|]. eapply events_come; [|done|done].
    pose proof Hwt as (HI & _). eapply waiting_grows; [done|by eapply loop_step_InvC|].
    intros a e He. by exists e.
  - by eapply events_come.
  - eapply wake_passes; [done..|]. intros s1 Hwt1 Hl1 Hno1. destruct d'; simpl in *.
    + eapply wake_passes; [done..|]. intros s2 Hwt2 Hl2 Hno2. eapply events_come; [done..|].
      destruct Hat as [(-> & Ht & _)|?]; [|done]. destruct d; naive_solver.
    + eapply events_come; [done..|]. destruct Hat as [(-> & Ht & [?| ->])|?]; [done| |done].
      by destruct Hno1.
Qed.
End Waiting.

(** ** A poll from its start to its end *)

(** The waker in a list in which it was not. *)
Definition with_waker (waker : nat) (ts : list nat) : list nat :=
  if decide (waker ∈ ts) then ts else ts ++ [waker].

Lemma push_with_waker (waker : nat) (ts : list nat) :
  (if forallb (λ v, negb (v =? waker)) ts then ts ++ [waker] else ts) = with_waker waker ts.
Proof.
  unfold with_waker. destruct (forallb _ ts) eqn:Hf; destruct (decide (waker ∈ ts)) as [Hin|Hin]; try done.
  - rewrite forallb_forall in Hf. specialize (Hf waker (proj1 (list_elem_of_In _ _) Hin)).
    by rewrite Nat.eqb_refl in Hf.
  - exfalso. assert (forallb (λ v, negb (v =? waker)) ts = true); [|congruence].
    apply forallb_forall. intros v Hv%list_elem_of_In. apply negb_true_iff, Nat.eqb_neq. by intros ->.
Qed.

(** What a poll answers: the result of the first attempt that does not block, or
    [Pending], with the task in the list. *)
Definition polls_to (d : Interest) (waker : nat) (f : P → Result R Error * P) (a : nat) e dr
    (res : Poll (Result R Error)) dr' : Prop :=
  let '(r1, p1) := f (poller dr) in
  let '(r2, p2) := f p1 in
  if would_block r1 then
    if would_block r2 then
      res = Pending ∧ dr' = set_entry_list a d (mkWakers false (with_waker waker (wakers (list_of d e)))) e (set_poller p2 dr)
    else res = Ready r2 ∧ dr' = set_poller p2 dr
  else res = Ready r1 ∧ dr' = set_poller p1 dr.

Lemma poll_with_spec d waker f w e dr :
  heap dr !! entry w = Some e →
  ∃ res dr', poll_with d waker f w dr = Done (res, dr', []) ∧ polls_to d waker f (entry w) e dr res dr'.
Proof.
  intros He. unfold poll_with, polls_to. destruct (f (poller dr)) as [r1 p1] eqn:Hf1.
  destruct (would_block r1); [|by destruct (f p1); do 2 eexists].
  change (heap (set_poller p1 dr)) with (heap dr). rewrite He. simpl. destruct (f p1) as [r2 p2] eqn:Hf2.
  destruct (would_block r2); do 2 eexists; (split; [reflexivity|]); [|done].
  split; [done|]. by rewrite push_with_waker.
Qed.

Lemma set_entry_list_twice a d (x y : Wakers) e dr :
  set_entry_list a d y (set_list d x e) (set_entry_list a d x e dr) = set_entry_list a d y e dr.
Proof.
  unfold set_entry_list, set_heap. simpl. rewrite insert_insert_eq. by destruct d.
Qed.

Lemma set_entry_list_same a d e dr :
  heap dr !! a = Some e → is_locked (list_of d e) = false →
  set_entry_list a d (mkWakers false (wakers (list_of d e))) e dr = dr.
Proof.
  intros He Hl. unfold set_entry_list, set_heap. replace (set_list d _ e) with e.
  - rewrite insert_id by done. by destruct dr.
  - destruct e as [k [lr wr] [lw ww]], d; simpl in *; by subst.
Qed.

(** ... and it is what its steps come to, when no other thread comes in between. *)
Lemma poll_with_turns dr l ws rm os lg i n w e d waker f :
  ws !! n = Some w → heap dr !! entry w = Some e → is_locked (list_of d e) = false →
  ∃ res dr', poll_with d waker f w dr = Done (res, dr', []) ∧
    rtc turn (mkSystem dr l ws rm (<[i := mkOp n d waker f Trying]> os) lg) (mkSystem dr' l ws rm (delete i os) lg).
Proof.
  intros Hn He Hfree. set (at_ pc := mkOp n d waker f pc : Op).
  assert (∀ dr pc pc' dr', op_step (at_ pc) w dr = Done (Goes pc' dr', []) →
    turn (mkSystem dr l ws rm (<[i := at_ pc]> os) lg) (mkSystem dr' l ws rm (<[i := at_ pc']> os) lg)) as Hgo.
  { intros dr0 pc pc' dr' Hs. rewrite <- (app_nil_r lg) at 2.
    rewrite <- (insert_insert_eq os i (at_ pc') (at_ pc)).
    by apply (turn_goes dr0 l ws rm _ lg i (at_ pc) w pc' dr' []); [rewrite lookup_insert_eq|..]. }
  assert (∀ dr pc res dr', op_step (at_ pc) w dr = Done (Returns res dr', []) →
    turn (mkSystem dr l ws rm (<[i := at_ pc]> os) lg) (mkSystem dr' l ws rm (delete i os) lg)) as Hret.
  { intros dr0 pc res dr' Hs. rewrite <- (app_nil_r lg) at 2.
    rewrite <- (delete_insert_eq os i (at_ pc)).
    by apply (turn_returns dr0 l ws rm _ lg i (at_ pc) w res dr' []); [rewrite lookup_insert_eq|..]. }
  unfold poll_with. destruct (f (poller dr)) as [r1 p1] eqn:Hf1. destruct (would_block r1) eqn:Hr1.
  2: { do 2 eexists. split; [reflexivity|]. apply rtc_once, (Hret dr Trying (Ready r1)).
       unfold op_step. simpl. by rewrite Hf1, Hr1. }
  change (heap (set_poller p1 dr)) with (heap dr). rewrite He. simpl. destruct (f p1) as [r2 p2] eqn:Hf2.
  set (locked := set_entry_list (entry w) d (mkWakers true (wakers (list_of d e))) e (set_poller p1 dr)).
  assert (heap locked !! entry w = Some (set_list d (mkWakers true (wakers (list_of d e))) e)) as Hl by apply lookup_insert_eq.
  assert (rtc turn (mkSystem dr l ws rm (<[i := at_ Trying]> os) lg) (mkSystem locked l ws rm (<[i := at_ Retrying]> os) lg)) as Hstart.
  { eapply rtc_l; [apply (Hgo dr Trying Locking (set_poller p1 dr)); unfold op_step; simpl; by rewrite Hf1, Hr1|].
    apply rtc_once, Hgo. unfold op_step. simpl. rewrite He. simpl. by rewrite Hfree. }
  destruct (would_block r2) eqn:Hr2; do 2 eexists; (split; [reflexivity|]); eapply rtc_trans; try exact Hstart.
  - eapply rtc_l; [apply (Hgo locked Retrying Registering (set_poller p2 locked)); unfold op_step; simpl; by rewrite Hf2, Hr2|].
    apply rtc_once, (Hret _ Registering Pending). unfold op_step.
    change (heap (set_poller p2 locked)) with (heap locked). cbn [op_pc at_ op_interest op_waker].
    rewrite Hl. simpl. rewrite list_of_set_list, decide_True by done. simpl. do 3 f_equal.
    apply (set_entry_list_twice (entry w) d _ _ e (set_poller p2 dr)).
  - apply rtc_once, (Hret _ Retrying (Ready r2)). unfold op_step. cbn [op_pc at_ op_interest op_waker op_run].
    change (poller locked) with p1. rewrite Hf2, Hr2.
    change (heap (set_poller p2 locked)) with (heap locked). rewrite Hl. simpl.
    rewrite list_of_set_list, decide_True by done. simpl. do 3 f_equal.
    change (set_poller p2 locked) with (set_entry_list (entry w) d (mkWakers true (wakers (list_of d e))) e (set_poller p2 dr)).
    rewrite set_entry_list_twice. by apply (set_entry_list_same (entry w) d e (set_poller p2 dr)).
Qed.

(** C34 No task that waits for an I/O handle is forgotten.  In every reachable state of
    the driver, its watchers and their operations, with any number of tasks, and
    handles that are made and dropped meanwhile: when a task is in one of the lists
    of a handle (it is there once), either the source would still block for that
    list, or the poller has an event to deliver that tells otherwise, or the thread
    of the driver has the event and is before that list; and in the last case it
    comes to the list and wakes the task, without waiting for anything but the tasks
    that have locked a list and are about to let it go (unless the poller fails,
    which aborts the process). *)
Theorem driver_no_lost_wakeup (s : System) n w e d (t : nat) :
  reachable s → watchers s !! n = Some w → heap (driver s) !! entry w = Some e → t ∈ wakers (list_of d e) →
  NoDup (wakers (list_of d e)) ∧
  (blocked (poller (driver s)) (source w) d ∨ pending (poller (driver s)) (token e) d ∨
   attends (loop s) (entry w) (token e) d) ∧
  (attends (loop s) (entry w) (token e) d →
   ∃ s', rtc turn s s' ∧ (Woken t ∈ log s' ∨ loop_step (loop s') (driver s') = Done (LoopDies, []))).
Proof.
  intros Hs%driver_reachable_Inv Hn He Hin. pose proof Hs as (_ & _ & _ & Hw & Hnd). split_and!.
  - by apply (Hnd (entry w)).
  - apply (Hw n w e d Hn He). left. intros Heq. rewrite Heq in Hin. by apply not_elem_of_nil in Hin.
  - intros Hat. apply (attends_gets t n w d (token e)); [|done]. split_and!; [done..|]. by exists e.
Qed.
End Spec.

(** * A poller to compute with *)

(** Sources that have been registered, those that are ready, and the events. *)
Record Epoll : Type := mkEpoll {
  ep_tokens : gmap nat nat;
  ep_ready : list (nat * Interest);
  ep_queue : list (nat * N)
}.

#[local] Instance unix_flags : Flags := {|
  ready_readable := 1; ready_writable := 2; ready_all := 31; ready_hup := 16 |}.
#[local] Instance unix_flags_laws : FlagsLaws.
Proof. by split. Qed.

Definition ep_tells (d : Interest) (ev : nat * N) : bool := negb (N.land ev.2 (flag_of d) =? 0)%N.

#[local] Instance Epoll_Mio : Mio Epoll nat := {|
  poller_new := Ok (mkEpoll ∅ [] []);
  poller_register s k p := (Ok (), mkEpoll (<[s := k]> (ep_tokens p)) (ep_ready p) (ep_queue p));
  poller_deregister s p := (Ok (), mkEpoll (delete s (ep_tokens p)) (ep_ready p) (ep_queue p));
  poller_poll p := (Ok (ep_queue p), mkEpoll (ep_tokens p) (ep_ready p) []);
  registration_new p := (fresh (dom (ep_tokens p)), p);
  set_readiness _ _ p := (Ok (), p)
|}.
#[local] Instance Epoll_View : MioView Epoll nat := {|
  token_of p s := ep_tokens p !! s;
  blocked p s d := negb (bool_decide ((s, d) ∈ ep_ready p));
  pending p k d := existsb (λ ev, (ev.1 =? k) && ep_tells d ev) (ep_queue p)
|}.

Lemma ep_pending p k d : pending p k d → ∃ flags, (k, flags) ∈ ep_queue p ∧ tells d flags.
Proof.
  simpl. intros Hp. apply Is_true_true, existsb_exists in Hp as ([k' flags] & Hin & Ht). simpl in Ht.
  apply andb_true_iff in Ht as [->%Nat.eqb_eq Ht]. exists flags. split; [by apply list_elem_of_In|].
  intros Hz. unfold ep_tells in Ht. simpl in Ht. by rewrite Hz in Ht.
Qed.

#[local] Instance Epoll_Laws : MioLaws Epoll nat.
Proof.
  split; simpl.
  - intros p [= <-] s. apply lookup_empty.
  - intros p s p' [= <- <-]. split; [apply not_elem_of_dom, is_fresh|]. split_and!; eauto.
  - intros s k p r p' [= <- <-]. split; [apply lookup_insert_eq|]. split_and!; eauto.
    intros s' Hne. simpl. by rewrite lookup_insert_ne.
  - intros s p r p' [= <- <-]. split; [intros _; apply lookup_delete_eq|]. split_and!; eauto.
    intros s' Hne. simpl. by rewrite lookup_delete_ne.
  - intros s flags p r p' [= <- <-]. split_and!; eauto.
  - intros p events p' [= <- <-]. split_and!; [done| |].
    + intros k d Hp. right. by apply ep_pending.
    + intros s k d _ Hb. by left.
Qed.

(** Reading a source that has nothing, and its becoming readable. *)
Definition ep_read (s : nat) (p : Epoll) : Result nat Error * Epoll :=
  if bool_decide ((s, Reading) ∈ ep_ready p) then (Ok 1, p) else (Err (error_of WouldBlock), p).
Definition ep_arrive (s k : nat) (p : Epoll) : Epoll :=
  mkEpoll (ep_tokens p) ((s, Reading) :: ep_ready p) (ep_queue p ++ [(k, 1%N)]).

Lemma ep_read_operates s : operates s Reading (ep_read s).
Proof.
  intros p r p' Hr. unfold ep_read in Hr. destruct (bool_decide _) eqn:Hb; simplify_eq;
    (split; [split_and!; eauto|]); [done|]. intros _. simpl. by rewrite Hb.
Qed.

Lemma ep_arrive_steady s k p : ep_tokens p !! s = Some k → steady (λ _, False) p (ep_arrive s k p).
Proof.
  intros Hs. split_and!; [done| |].
  - intros k' d Hp. simpl in *. rewrite existsb_app. apply Is_true_true in Hp. by rewrite Hp.
  - intros s' k' d _ Hk Hb. simpl in *. destruct (decide ((s', d) = (s, Reading))) as [[= -> ->]|Hne].
    + right. assert (k' = k) as -> by congruence. by rewrite existsb_app, orb_comm; simpl; rewrite Nat.eqb_refl.
    + left. apply negb_prop_intro. apply negb_prop_elim in Hb. intros Hin. apply Hb.
      apply bool_decide_unpack in Hin. apply bool_decide_pack. set_solver.
Qed.

(** A task polls a handle that has nothing to read, and is registered; then something
    arrives, and the thread of the driver gets the event. *)
Abbreviation D := (Driver (P:=Epoll) (Src:=nat) (S:=gmap nat nat)).

Definition driver0 : D :=
  match Reactor_new with Ok dr => dr | Err _ => mkDriver (mkEpoll ∅ [] []) ∅ false ∅ 0 0 end.
Definition driver1 : D := (register 7 driver0).2.
Definition handle : Watcher := mkWatcher 7 1.
Definition reading (pc : Pc) : Op (P:=Epoll) nat := mkOp 0 Reading 5 (ep_read 7) pc.

Definition after_op (pc : Pc) (dr : D) : D :=
  match op_step (reading pc) handle dr with
  | Done (Goes _ dr', _) | Done (Returns _ dr', _) => dr'
  | _ => dr
  end.
Definition driver2 : D := after_op Registering (after_op Retrying (after_op Locking driver1)).
Definition driver3 : D := set_poller (ep_arrive 7 1 (poller driver2)) driver2.
Definition driver4 : D := set_poller (mkEpoll (ep_tokens (poller driver3)) (ep_ready (poller driver3)) []) driver3.

Definition one_handle (dr : D) (l : Loop) (os : gmap nat (Op nat)) : System (R:=nat) :=
  mkSystem dr l {[0 := handle]} ∅ os [].
Definition arrived : System := one_handle driver4 (LockEntries [(1, 1%N)]) ∅.

Lemma arrived_reachable : reachable arrived.
Proof.
  exists (mkSystem driver0 Polling ∅ ∅ ∅ []). split; [by apply initially|].
  assert (∀ dr pc pc' dr', op_step (reading pc) handle dr = Done (Goes pc' dr', []) →
    step (one_handle dr Polling {[0 := reading pc]}) (one_handle dr' Polling {[0 := reading pc']})) as Hop.
  { intros dr pc pc' dr' Hs. apply step_turn.
    exact (turn_goes dr Polling {[0 := handle]} ∅ {[0 := reading pc]} [] 0 (reading pc) handle pc' dr' [] eq_refl eq_refl Hs). }
  eapply rtc_l; [apply (step_new driver0 Polling ∅ ∅ ∅ [] 0 7 1 driver1); vm_compute; reflexivity|].
  eapply rtc_l; [apply (step_poll _ _ _ _ _ _ 0 0 Reading 5 (ep_read 7) handle); [done..|apply ep_read_operates]|].
  eapply rtc_l; [by apply (Hop driver1 Trying Locking driver1)|].
  eapply rtc_l; [by apply (Hop driver1 Locking Retrying (after_op Locking driver1))|].
  eapply rtc_l; [by apply (Hop _ Retrying Registering (after_op Retrying (after_op Locking driver1)))|].
  eapply rtc_l; [apply step_turn; by apply (turn_returns _ Polling {[0 := handle]} ∅ {[0 := reading Registering]} [] 0
    (reading Registering) handle Pending driver2 [])|].
  eapply rtc_l; [apply (step_system _ _ _ _ _ _ (ep_arrive 7 1 (poller driver2)))|].
  - apply ep_arrive_steady. vm_compute. reflexivity.
  - eapply rtc_l; [|apply rtc_refl]. apply step_turn.
    exact (turn_loop driver3 Polling {[0 := handle]} ∅ ∅ [] (LockEntries [(1, 1%N)]) driver4 [] eq_refl).
Qed.

Lemma driver_no_lost_wakeup_witness :
  ∃ s', rtc turn arrived s' ∧ (Woken 5 ∈ log s' ∨ loop_step (loop s') (driver s') = Done (LoopDies, [])).
Proof.
  refine (proj2 (proj2 (driver_no_lost_wakeup arrived 0 handle
    (mkEntry 1 (mkWakers false [5]) (mkWakers false [])) Reading 5 arrived_reachable eq_refl _ _)) _).
  - vm_compute. reflexivity.
  - apply list_elem_of_here.
  - exists 1%N. split; [apply list_elem_of_here|]. vm_compute. discriminate.
Defined.
