(* ===== verification/Net.v ===== *)
(** The network types over the driver: addresses (src/src/net/addr.rs), TCP streams
    and listeners (net/tcp/stream.rs, listener.rs), UDP sockets (net/udp/mod.rs) and
    Unix sockets (os/unix/net): their polls, how they are made, asked and set, and how
    a [Watcher] ends.  What std and mio do with sockets is a parameter. *)

From stdpp Require Import gmap strings.
From S2P Require Import Prelude Async Io WakerSet Driver.
Local Open Scope async_scope.

(** * Addresses *)

(** The types of [std::net]; an IP address is the number of its bits. *)
Record Ipv4Addr : Type := mkIpv4 { octets : N }.
Record Ipv6Addr : Type := mkIpv6 { segments : N }.
Inductive IpAddr : Type := IpV4 (a : Ipv4Addr) | IpV6 (a : Ipv6Addr).
Record SocketAddrV4 : Type := mkV4 { v4_ip : Ipv4Addr; v4_port : N }.
Record SocketAddrV6 : Type := mkV6 { v6_ip : Ipv6Addr; v6_port : N; flowinfo : N; scope_id : N }.
Inductive SocketAddr : Type := V4 (a : SocketAddrV4) | V6 (a : SocketAddrV6).
#[global] Instance SocketAddr_eq_dec : EqDecision SocketAddr.
Proof.
  assert (EqDecision Ipv4Addr) by solve_decision. assert (EqDecision Ipv6Addr) by solve_decision.
  assert (EqDecision SocketAddrV4) by solve_decision. assert (EqDecision SocketAddrV6) by solve_decision.
  solve_decision.
Defined.

(** The parsers of std ([FromStr]), its [Display], and the jobs for the blocking pool
    that resolve a host with a port, or a string with both. *)
Class Resolver (J : Type) : Type := {
  parse_ipv4 : string → option Ipv4Addr;
  parse_ipv6 : string → option Ipv6Addr;
  parse_socket_addr : string → option SocketAddr;
  show_v4 : SocketAddrV4 → string;
  show_v6 : SocketAddrV6 → string;
  resolve_host : string → N → J;
  resolve_str : string → J
}.

(** The iterator of addresses is the list of what it yields. *)
Abbreviation Addrs := (Result (list SocketAddr) Error).

Section Addresses.
(** [JoinHandle<io::Result<I>>] *)
Context {J : Type} `{Future J Addrs, Resolver J}.

Inductive ToSocketAddrsFuture : Type :=
| Resolving (task : J)
| ReadyAddrs (res : Addrs)
| DoneAddrs.

(** [ErrorContext::context] *)
Definition addrs_context (this : ToSocketAddrsFuture) (message : string) : ToSocketAddrsFuture :=
  match this with
  | ReadyAddrs res => ReadyAddrs (io_context res message)
  | x => x
  end.

Definition ToSocketAddrsFuture_poll (fuel : nat) (this : ToSocketAddrsFuture) :
    Eff (Poll Addrs * ToSocketAddrsFuture) :=
  match this with
  | Resolving task =>
      '(p, task) ← poll fuel task;
      mret (p, if p is Pending then Resolving task else DoneAddrs)
  | ReadyAddrs res => mret (Ready res, DoneAddrs)
  | DoneAddrs => eff_panic
  end.

(** The trait, and its implementations. *)
Class ToSocketAddrs (A : Type) : Type := to_socket_addrs : A → ToSocketAddrsFuture.

#[export] Instance addrs_of_addr : ToSocketAddrs SocketAddr := λ a, ReadyAddrs (Ok [a]).

Definition could_not_resolve (a : string) : string :=
  String.append "could not resolve address `" (String.append a "`").
#[export] Instance addrs_of_v4 : ToSocketAddrs SocketAddrV4 := λ a,
  addrs_context (to_socket_addrs (V4 a)) (could_not_resolve (show_v4 a)).
#[export] Instance addrs_of_v6 : ToSocketAddrs SocketAddrV6 := λ a,
  addrs_context (to_socket_addrs (V6 a)) (could_not_resolve (show_v6 a)).
#[export] Instance addrs_of_ipv4 : ToSocketAddrs (Ipv4Addr * N) := λ '(ip, port),
  to_socket_addrs (mkV4 ip port).
#[export] Instance addrs_of_ipv6 : ToSocketAddrs (Ipv6Addr * N) := λ '(ip, port),
  to_socket_addrs (mkV6 ip port 0 0).
#[export] Instance addrs_of_ip : ToSocketAddrs (IpAddr * N) := λ '(ip, port),
  match ip with
  | IpV4 a => to_socket_addrs (a, port)
  | IpV6 a => to_socket_addrs (a, port)
  end.
#[export] Instance addrs_of_host : ToSocketAddrs (string * N) := λ '(host, port),
  match parse_ipv4 host with
  | Some addr => ReadyAddrs (Ok [V4 (mkV4 addr port)])
  | None =>
      match parse_ipv6 host with
      | Some addr => ReadyAddrs (Ok [V6 (mkV6 addr port 0 0)])
      | None => Resolving (resolve_host host port)
      end
  end.
#[export] Instance addrs_of_str : ToSocketAddrs string := λ s,
  match parse_socket_addr s with
  | Some addr => ReadyAddrs (Ok [addr])
  | None => Resolving (resolve_str s)
  end.
#[export] Instance addrs_of_slice : ToSocketAddrs (list SocketAddr) := λ l, ReadyAddrs (Ok l).
End Addresses.
#[export] Hint Mode ToSocketAddrs - ! : typeclass_instances.
#[global] Instance ToSocketAddrsFuture_Future {J} `{Future J Addrs} :
  Future (ToSocketAddrsFuture (J:=J)) Addrs := ToSocketAddrsFuture_poll.

(** * One address after the other *)

(** The error when there was no address, or the last one otherwise. *)
Definition no_addresses : Error := mkError InvalidInput "could not resolve to any addresses".
Definition after_all {T : Type} (last_err : option Error) : Result T Error := Err (default no_addresses last_err).

(** ** [TcpStream::connect] *)

Section Connect.
(** [spawn] gives the closure for an address to the blocking pool, and [C] is the
    [JoinHandle] of that. *)
Context {J C T : Type} `{Future J Addrs} `{Future C (Result T Error)} (spawn : SocketAddr → C).

Inductive ConnectFuture : Type :=
| AtAddrs (addrs : ToSocketAddrsFuture (J:=J))
| AtAttempt (last_err : option Error) (task : C) (addrs : list SocketAddr)
| Connected.

(** The head of the [for] loop. *)
Definition next_attempt (last_err : option Error) (addrs : list SocketAddr) :
    Eff (ConnectFuture + (Poll (Result T Error) * ConnectFuture)) :=
  match addrs with
  | [] => mret (inr (Ready (after_all last_err), Connected))
  | addr :: addrs => mret (inl (AtAttempt last_err (spawn addr) addrs))
  end.

Definition connect_round (fuel : nat) (this : ConnectFuture) :
    Eff (ConnectFuture + (Poll (Result T Error) * ConnectFuture)) :=
  match this with
  | AtAddrs addrs =>
      '(p, addrs) ← poll fuel addrs;
      match p with
      | Pending => mret (inr (Pending, AtAddrs addrs))
      | Ready (Err e) => mret (inr (Ready (Err e), Connected))
      | Ready (Ok addrs) => next_attempt None addrs
      end
  | AtAttempt last_err task addrs =>
      '(p, task) ← poll fuel task;
      match p with
      | Pending => mret (inr (Pending, AtAttempt last_err task addrs))
      | Ready (Ok stream) => mret (inr (Ready (Ok stream), Connected))
      | Ready (Err e) => next_attempt (Some e) addrs
      end
  | Connected => eff_panic
  end.

Definition connect_poll (fuel : nat) (this : ConnectFuture) : Eff (Poll (Result T Error) * ConnectFuture) :=
  loop_poll connect_round fuel this.
#[export] Instance ConnectFuture_Future : Future ConnectFuture (Result T Error) := connect_poll.
Definition connect {A : Type} `{!ToSocketAddrs (J:=J) A} (addrs : A) : ConnectFuture := AtAddrs (to_socket_addrs addrs).
End Connect.

(** ** [TcpListener::bind], [UdpSocket::bind], [UdpSocket::connect] *)

Section Bind.
(** [attempt] is what is called for each address, on a state [W]. *)
Context {J W T : Type} `{Future J Addrs} (attempt : SocketAddr → W → Result T Error * W).

Fixpoint try_each (last_err : option Error) (addrs : list SocketAddr) (w : W) : Result T Error * W :=
  match addrs with
  | [] => (after_all last_err, w)
  | addr :: addrs =>
      let '(res, w) := attempt addr w in
      match res with
      | Ok t => (Ok t, w)
      | Err e => try_each (Some e) addrs w
      end
  end.

Inductive BindFuture : Type :=
| BindAddrs (addrs : ToSocketAddrsFuture (J:=J)) (w : W)
| Bound (w : W).

(** [context] is what the error of the addresses is given ([UdpSocket::connect]). *)
Definition bind_poll (context : Addrs → Addrs) (fuel : nat) (this : BindFuture) :
    Eff (Poll (Result T Error) * BindFuture) :=
  match this with
  | BindAddrs addrs w =>
      '(p, addrs) ← poll fuel addrs;
      match p with
      | Pending => mret (Pending, BindAddrs addrs w)
      | Ready res =>
          match context res with
          | Err e => mret (Ready (Err e), Bound w)
          | Ok addrs => let '(res, w) := try_each None addrs w in mret (Ready res, Bound w)
          end
      end
  | Bound _ => eff_panic
  end.
Definition bind {A : Type} `{!ToSocketAddrs (J:=J) A} (addrs : A) (w : W) : BindFuture :=
  BindAddrs (to_socket_addrs addrs) w.
End Bind.
#[global] Arguments BindFuture J W : clear implicits.

(** [UdpSocket::send_to] sends to the first address. *)
Definition no_destination : Error := mkError InvalidInput "no addresses to send data to".
Definition destination (addrs : Addrs) : Result SocketAddr Error :=
  match addrs with
  | Err e => Err e
  | Ok [] => Err no_destination
  | Ok (addr :: _) => Ok addr
  end.

(** * Sockets *)

(** What mio does with a socket that does not block; the addresses of Unix sockets
    are not those of the others. *)
Class Sockets (P Src Addr : Type) : Type := {
  sock_read : Src → nat → P → Result bytes Error * P;
  sock_peek : Src → nat → P → Result bytes Error * P;
  sock_write : Src → bytes → P → Result nat Error * P;
  sock_flush : Src → P → Result () Error * P;
  sock_shutdown_write : Src → P → Result () Error * P;
  (* [accept_std] of a TCP and of a Unix listener, and [from_stream] of what it gives *)
  sock_accept : Src → P → Result (Src * Addr) Error * P;
  sock_accept_unix : Src → P → Result (option (Src * Addr)) Error * P;
  from_stream : Src → P → Result Src Error * P;
  sock_recv_from : Src → nat → P → Result (bytes * Addr) Error * P;
  sock_recv : Src → nat → P → Result bytes Error * P;
  sock_send_to : Src → bytes → Addr → P → Result nat Error * P;
  sock_send : Src → bytes → P → Result nat Error * P;
  sock_connect : Src → Addr → P → Result () Error * P;
  sock_local_addr : Src → P → Result Addr Error;
  show_addr : Addr → string
}.

Section Sockets.
Context {P Src S Addr : Type} `{Mio P Src, Flags} `{Slab S nat} `{Sockets P Src Addr}.
Abbreviation Driver := (Driver (P:=P) (Src:=Src) (S:=S)).
Abbreviation Watcher := (Watcher (Src:=Src)).
Abbreviation M := (Act Event).
Implicit Types (dr : Driver) (this : Watcher) (waker : nat).

(** [Watcher::new] panics when the driver does not take the source. *)
Definition Watcher_new (s : Src) dr : M (Watcher * Driver) :=
  let '(res, dr) := register s dr in
  match res with
  | Ok a => mret (mkWatcher s a, dr)
  | Err _ => eff_panic
  end.

(** An operation that is not waited for. *)
Definition sync {A : Type} (f : P → Result A Error * P) dr : Result A Error * Driver :=
  let '(res, p) := f (poller dr) in (res, set_poller p dr).

(** ** TcpStream *)

Definition TcpStream_poll_read waker this (len : nat) dr : M (Poll (Result bytes Error) * Driver) :=
  poll_with Reading waker (sock_read (source this) len) this dr.
Definition TcpStream_poll_write waker this (buf : bytes) dr : M (Poll (Result nat Error) * Driver) :=
  poll_with Writing waker (sock_write (source this) buf) this dr.
Definition TcpStream_poll_flush waker this dr : M (Poll (Result () Error) * Driver) :=
  poll_with Writing waker (sock_flush (source this)) this dr.
Definition TcpStream_shutdown_write this dr : Result () Error * Driver :=
  sync (sock_shutdown_write (source this)) dr.
Definition TcpStream_poll_close this dr : M (Poll (Result () Error) * Driver) :=
  let '(res, dr) := TcpStream_shutdown_write this dr in
  match res with
  | Err e => mret (Ready (Err e), dr)
  | Ok _ => mret (Ready (Ok ()), dr)
  end.
(** A poll of [peek]. *)
Definition TcpStream_peek waker this (len : nat) dr : M (Poll (Result bytes Error) * Driver) :=
  poll_with Reading waker (sock_peek (source this) len) this dr.

(** ** TcpListener *)

(** The socket that was accepted, and its address. *)
Definition accepted (io : Src) (addr : Addr) dr : M (Poll (Result (Watcher * Addr) Error) * Driver) :=
  let '(res, dr) := sync (from_stream io) dr in
  match res with
  | Err e => mret (Ready (Err e), dr)
  | Ok mio_stream =>
      '(stream, dr) ← Watcher_new mio_stream dr;
      mret (Ready (Ok (stream, addr)), dr)
  end.

(** A poll of [accept], whose only suspension point is its first expression. *)
Definition TcpListener_accept waker this dr : M (Poll (Result (Watcher * Addr) Error) * Driver) :=
  '(p, dr) ← poll_with Reading waker (sock_accept (source this)) this dr;
  match p with
  | Pending => mret (Pending, dr)
  | Ready (Err e) => mret (Ready (Err e), dr)
  | Ready (Ok (io, addr)) =>
      accepted io addr dr
  end.

(** [Incoming::poll_next], over a poll of [accept]. *)
Definition Incoming_poll_next (accept : nat → Watcher → Driver → M (Poll (Result (Watcher * Addr) Error) * Driver))
    waker this dr : M (Poll (option (Result Watcher Error)) * Driver) :=
  '(p, dr) ← accept waker this dr;
  match p with
  | Pending => mret (Pending, dr)
  | Ready (Err e) => mret (Ready (Some (Err e)), dr)
  | Ready (Ok (socket, _)) => mret (Ready (Some (Ok socket)), dr)
  end.

(** ** UdpSocket *)

(** The message of an error on this socket. *)
Definition on_socket (what : string) this dr : string :=
  String.append what (match sock_local_addr (source this) (poller dr) with
    | Ok addr => show_addr addr
    | Err _ => "socket" end).

(** A poll of an operation, and the context of its error. *)
Definition with_context {A : Type} (m : M (Poll (Result A Error) * Driver)) (message : Driver → string) :
    M (Poll (Result A Error) * Driver) :=
  '(p, dr) ← m;
  match p with
  | Pending => mret (Pending, dr)
  | Ready res => mret (Ready (io_context res (message dr)), dr)
  end.

(** A poll of [send_to], when the address is known. *)
Definition UdpSocket_send_to waker this (buf : bytes) (addr : Addr) dr :
    M (Poll (Result nat Error) * Driver) :=
  with_context (poll_with Writing waker (sock_send_to (source this) buf addr) this dr)
    (λ _, String.append "could not send packet to " (show_addr addr)).
Definition UdpSocket_recv_from waker this (len : nat) dr : M (Poll (Result (bytes * Addr) Error) * Driver) :=
  with_context (poll_with Reading waker (sock_recv_from (source this) len) this dr)
    (on_socket "could not receive data on " this).
Definition UdpSocket_send waker this (buf : bytes) dr : M (Poll (Result nat Error) * Driver) :=
  with_context (poll_with Writing waker (sock_send (source this) buf) this dr)
    (on_socket "could not send data on " this).
Definition UdpSocket_recv waker this (len : nat) dr : M (Poll (Result bytes Error) * Driver) :=
  with_context (poll_with Reading waker (sock_recv (source this) len) this dr)
    (on_socket "could not receive data on " this).
(** What [UdpSocket::connect] does with an address. *)
Definition UdpSocket_connect this (addr : Addr) dr : Result () Error * Driver :=
  sync (sock_connect (source this) addr) dr.

(** ** Unix sockets *)

Definition UnixStream_poll_read := TcpStream_poll_read.
Definition UnixStream_poll_write := TcpStream_poll_write.
Definition UnixStream_poll_flush := TcpStream_poll_flush.
Definition UnixStream_poll_close this dr : M (Poll (Result () Error) * Driver) := mret (Ready (Ok ()), dr).

(** [accept_std] answers [None] when nobody comes. *)
Definition accept_or_block this (p : P) : Result (option (Src * Addr)) Error * P :=
  let '(res, p) := sock_accept_unix (source this) p in
  (match res with Ok None => Err (error_of WouldBlock) | res => res end, p).
Definition UnixListener_accept waker this dr : M (Poll (Result (Watcher * Addr) Error) * Driver) :=
  '(p, dr) ← poll_with Reading waker (accept_or_block this) this dr;
  match p with
  | Pending => mret (Pending, dr)
  | Ready (Err e) => mret (Ready (Err e), dr)
  | Ready (Ok (Some (io, addr))) =>
      accepted io addr dr
  | Ready (Ok None) => eff_panic
  end.

Definition UnixDatagram_recv_from waker this (len : nat) dr : M (Poll (Result (bytes * Addr) Error) * Driver) :=
  poll_with Reading waker (sock_recv_from (source this) len) this dr.
Definition UnixDatagram_recv waker this (len : nat) dr : M (Poll (Result bytes Error) * Driver) :=
  poll_with Reading waker (sock_recv (source this) len) this dr.
Definition UnixDatagram_send_to waker this (buf : bytes) (addr : Addr) dr : M (Poll (Result nat Error) * Driver) :=
  poll_with Writing waker (sock_send_to (source this) buf addr) this dr.
Definition UnixDatagram_send waker this (buf : bytes) dr : M (Poll (Result nat Error) * Driver) :=
  poll_with Writing waker (sock_send (source this) buf) this dr.
End Sockets.

(** * Making, asking and giving up sockets *)

(** The types of sockets. *)
Inductive SocketType : Type :=
| TcpStreamType | TcpListenerType | UdpSocketType
| UnixStreamType | UnixListenerType | UnixDatagramType.

Inductive Shutdown : Type := ShutRead | ShutWrite | ShutBoth.

(** The options of a socket, by the types of their values; [u32] is [N]. *)
Inductive SockOption : Type → Type :=
| Ttl : SockOption N
| Nodelay : SockOption bool
| Broadcast : SockOption bool
| MulticastLoopV4 : SockOption bool
| MulticastTtlV4 : SockOption N
| MulticastLoopV6 : SockOption bool.

(** What joins or leaves a multicast group: the group and the interface. *)
Inductive Membership : Type :=
| GroupV4 (multiaddr interface : Ipv4Addr)
| GroupV6 (multiaddr : Ipv6Addr) (interface : N).

(** [Std] are the sockets of std, [Src] those of mio, [Fd] the raw descriptors, [Addr]
    the addresses of the family and [At] what is bound and connected to: an address
    for TCP and UDP, a path for Unix sockets. *)
Class SocketApi (P Std Src Fd Addr At : Type) : Type := {
  std_connect : SocketType → At → P → Result Std Error * P;
  mio_bind : SocketType → At → P → Result Src Error * P;
  mio_unbound : P → Result Src Error * P;
  mio_pair : SocketType → P → Result (Src * Src) Error * P;
  mio_connect : Src → At → P → Result () Error * P;
  (* [from_stream], [from_std], [from_socket], [from_listener], [from_datagram] *)
  mio_from_std : SocketType → Std → P → Result Src Error * P;
  local_addr : Src → P → Result Addr Error;
  peer_addr : Src → P → Result Addr Error;
  get_option {A : Type} : SockOption A → Src → P → Result A Error;
  set_option {A : Type} : SockOption A → A → Src → P → Result () Error * P;
  join_group : Membership → Src → P → Result () Error * P;
  leave_group : Membership → Src → P → Result () Error * P;
  mio_shutdown : Shutdown → Src → P → Result () Error * P;
  as_fd : Src → Fd;
  into_fd : Src → Fd;
  std_from_fd : SocketType → Fd → Std;
  show_at : At → string
}.

(** A source made of a socket of std is that socket, and has its descriptor. *)
Class DescriptorLaws (P Std Src Fd Addr At : Type) `{SocketApi P Std Src Fd Addr At} : Type := {
  std_fd : Std → Fd;
  std_from_fd_fd k fd : std_fd (std_from_fd k fd) = fd;
  mio_from_std_fd k s p src p' : mio_from_std k s p = (Ok src, p') → as_fd src = std_fd s;
  into_fd_as_fd src : into_fd src = as_fd src
}.

Section SocketCalls.
Context {P Std Src Fd Addr At S : Type} `{Mio P Src, Flags} `{Slab S nat}.
Context `{SocketApi P Std Src Fd Addr At}.
Abbreviation Driver := (Driver (P:=P) (Src:=Src) (S:=S)).
Abbreviation Watcher := (Watcher (Src:=Src)).
Abbreviation M := (Act Event).
Implicit Types (dr : Driver) (this : Watcher).

(** ** The end of a watcher *)

(** [REACTOR.deregister(source, entry).expect(..)]; [Reactor::deregister] is
    [deregister_source] and, with the table locked, [remove_entry]. *)
Definition Reactor_deregister (s : Src) (a : nat) dr : M Driver :=
  let '(res, dr) := deregister_source s dr in
  match res with
  | Err _ => eff_panic
  | Ok _ =>
      entry ← unwrap (heap dr !! a);
      remove_entry (token entry) dr
  end.

(** [Drop for Watcher]; [source] is [None] when it was taken. *)
Definition Watcher_drop (source : option Src) (a : nat) dr : M Driver :=
  match source with
  | Some s => Reactor_deregister s a dr
  | None => mret dr
  end.

(** [Watcher::into_inner], with the drop of [self] at its end. *)
Definition Watcher_into_inner this dr : M (Src * Driver) :=
  let s := source this in
  dr ← Reactor_deregister s (entry this) dr;
  dr ← Watcher_drop None (entry this) dr;
  mret (s, dr).

(** ** Constructors *)

(** The source that was made, put into a watcher, or the error. *)
Definition watched (r : Result Src Error * Driver) : M (Result Watcher Error * Driver) :=
  let '(res, dr) := r in
  match res with
  | Err e => mret (Err e, dr)
  | Ok s => '(this, dr) ← Watcher_new s dr; mret (Ok this, dr)
  end.

(** [bind] of TCP and UDP. *)

(** The [for] loop over the addresses, and what follows it. *)
Fixpoint bind_each (k : SocketType) (last_err : option Error) (addrs : list At) dr :
    M (Result Watcher Error * Driver) :=
  match addrs with
  | [] => mret (after_all last_err, dr)
  | addr :: addrs =>
      let '(res, dr) := sync (mio_bind k addr) dr in
      match res with
      | Ok s => watched (Ok s, dr)
      | Err e => bind_each k (Some e) addrs dr
      end
  end.

(** [TcpListener::bind] and [UdpSocket::bind], after their only suspension point. *)
Definition TcpListener_bind (addrs : Result (list At) Error) dr : M (Result Watcher Error * Driver) :=
  match addrs with
  | Err e => mret (Err e, dr)
  | Ok addrs => bind_each TcpListenerType None addrs dr
  end.
Definition UdpSocket_bind (addrs : Result (list At) Error) dr : M (Result Watcher Error * Driver) :=
  match addrs with
  | Err e => mret (Err e, dr)
  | Ok addrs => bind_each UdpSocketType None addrs dr
  end.

(** The closures that connect on the blocking pool. *)

Definition TcpStream_connect_job (addr : At) dr : M (Result Watcher Error * Driver) :=
  let '(res, dr) := sync (std_connect TcpStreamType addr) dr in
  match io_context res (String.append "could not connect to "%string (show_at addr)) with
  | Err e => mret (Err e, dr)
  | Ok std_stream =>
      let '(res, dr) := sync (mio_from_std TcpStreamType std_stream) dr in
      watched (io_context res (String.append "could not open async connection to "%string (show_at addr)), dr)
  end.

Definition UnixStream_connect_job (path : At) dr : M (Result Watcher Error * Driver) :=
  let '(res, dr) := sync (std_connect UnixStreamType path) dr in
  match res with
  | Err e => mret (Err e, dr)
  | Ok std_stream => watched (sync (mio_from_std UnixStreamType std_stream) dr)
  end.

(** Unix sockets. *)

(** [bind], where the closure is [mio_uds]'s [bind]; [res] is what awaiting it gave. *)
Definition UnixListener_bind_job (path : At) dr : Result Src Error * Driver :=
  sync (mio_bind UnixListenerType path) dr.
Definition UnixListener_bind (res : Result Src Error) dr : M (Result Watcher Error * Driver) :=
  watched (res, dr).

Definition UnixDatagram_bind_job (path : At) dr : Result Src Error * Driver :=
  sync (mio_bind UnixDatagramType path) dr.
(** [UnixDatagram::new] is [Watcher_new]. *)
Definition UnixDatagram_bind (res : Result Src Error) dr : M (Result Watcher Error * Driver) :=
  watched (res, dr).
Definition UnixDatagram_unbound dr : M (Result Watcher Error * Driver) := watched (sync mio_unbound dr).

(** [pair] *)
Definition watched_pair (r : Result (Src * Src) Error * Driver) : M (Result (Watcher * Watcher) Error * Driver) :=
  let '(res, dr) := r in
  match res with
  | Err e => mret (Err e, dr)
  | Ok (a, b) =>
      '(a, dr) ← Watcher_new a dr;
      '(b, dr) ← Watcher_new b dr;
      mret (Ok (a, b), dr)
  end.
Definition UnixStream_pair dr : M (Result (Watcher * Watcher) Error * Driver) :=
  watched_pair (sync (mio_pair UnixStreamType) dr).
Definition UnixDatagram_pair dr : M (Result (Watcher * Watcher) Error * Driver) :=
  watched_pair (sync (mio_pair UnixDatagramType) dr).

Definition UnixDatagram_connect this (path : At) dr : Result () Error * Driver :=
  sync (mio_connect (source this) path) dr.

(** ** Conversions *)

(** [From<std::..>]: both [unwrap]s panic. *)
Definition from_std (k : SocketType) (s : Std) dr : M (Watcher * Driver) :=
  let '(res, dr) := sync (mio_from_std k s) dr in
  match res with
  | Err _ => eff_panic
  | Ok src => Watcher_new src dr
  end.
Definition TcpStream_from := from_std TcpStreamType.
Definition TcpListener_from := from_std TcpListenerType.
Definition UdpSocket_from := from_std UdpSocketType.
Definition UnixStream_from := from_std UnixStreamType.
Definition UnixListener_from := from_std UnixListenerType.
Definition UnixDatagram_from := from_std UnixDatagramType.

(** Raw descriptors. *)
Definition as_raw_fd this : Fd := as_fd (source this).
Definition into_raw_fd this dr : M (Fd * Driver) :=
  '(s, dr) ← Watcher_into_inner this dr;
  mret (into_fd s, dr).
Definition TcpStream_from_raw_fd (fd : Fd) := TcpStream_from (std_from_fd TcpStreamType fd).
Definition TcpListener_from_raw_fd (fd : Fd) := TcpListener_from (std_from_fd TcpListenerType fd).
Definition UdpSocket_from_raw_fd (fd : Fd) := UdpSocket_from (std_from_fd UdpSocketType fd).
Definition UnixStream_from_raw_fd (fd : Fd) := UnixStream_from (std_from_fd UnixStreamType fd).
Definition UnixListener_from_raw_fd (fd : Fd) := UnixListener_from (std_from_fd UnixListenerType fd).
Definition UnixDatagram_from_raw_fd (fd : Fd) := UnixDatagram_from (std_from_fd UnixDatagramType fd).

(** ** Getters and setters *)

(** They call the source ([self.watcher.get_ref()]), and do not wait. *)
Definition asks {A : Type} (f : Src → P → Result A Error) this dr : Result A Error :=
  f (source this) (poller dr).
Definition sets {A : Type} (f : Src → P → Result A Error * P) this dr : Result A Error * Driver :=
  sync (f (source this)) dr.

Definition TcpStream_local_addr := asks local_addr.
Definition TcpStream_peer_addr := asks peer_addr.
Definition TcpStream_ttl := asks (get_option Ttl).
Definition TcpStream_set_ttl (ttl : N) := sets (set_option Ttl ttl).
Definition TcpStream_nodelay := asks (get_option Nodelay).
Definition TcpStream_set_nodelay (nodelay : bool) := sets (set_option Nodelay nodelay).
Definition TcpStream_shutdown (how : Shutdown) := sets (mio_shutdown how).
Definition TcpListener_local_addr := asks local_addr.

Definition UdpSocket_local_addr this dr : Result Addr Error :=
  io_context (asks local_addr this dr) "could not get local address"%string.
Definition UdpSocket_broadcast := asks (get_option Broadcast).
Definition UdpSocket_set_broadcast (on : bool) := sets (set_option Broadcast on).
Definition UdpSocket_multicast_loop_v4 := asks (get_option MulticastLoopV4).
Definition UdpSocket_set_multicast_loop_v4 (on : bool) := sets (set_option MulticastLoopV4 on).
Definition UdpSocket_multicast_ttl_v4 := asks (get_option MulticastTtlV4).
Definition UdpSocket_set_multicast_ttl_v4 (ttl : N) := sets (set_option MulticastTtlV4 ttl).
Definition UdpSocket_multicast_loop_v6 := asks (get_option MulticastLoopV6).
Definition UdpSocket_set_multicast_loop_v6 (on : bool) := sets (set_option MulticastLoopV6 on).
Definition UdpSocket_ttl := asks (get_option Ttl).
Definition UdpSocket_set_ttl (ttl : N) := sets (set_option Ttl ttl).
Definition UdpSocket_join_multicast_v4 (multiaddr interface : Ipv4Addr) :=
  sets (join_group (GroupV4 multiaddr interface)).
Definition UdpSocket_join_multicast_v6 (multiaddr : Ipv6Addr) (interface : N) :=
  sets (join_group (GroupV6 multiaddr interface)).
Definition UdpSocket_leave_multicast_v4 (multiaddr interface : Ipv4Addr) :=
  sets (leave_group (GroupV4 multiaddr interface)).
Definition UdpSocket_leave_multicast_v6 (multiaddr : Ipv6Addr) (interface : N) :=
  sets (leave_group (GroupV6 multiaddr interface)).

Definition UnixStream_local_addr := asks local_addr.
Definition UnixStream_peer_addr := asks peer_addr.
Definition UnixStream_shutdown (how : Shutdown) := sets (mio_shutdown how).
Definition UnixListener_local_addr := asks local_addr.
Definition UnixDatagram_local_addr := asks local_addr.
Definition UnixDatagram_peer_addr := asks peer_addr.
Definition UnixDatagram_shutdown (how : Shutdown) := sets (mio_shutdown how).
End SocketCalls.
