(* ===== verification/NetSpec.v ===== *)
(** What connecting, binding and accepting answer, and how sockets are made and given
    up. *)

From stdpp Require Import gmap strings relations.
From S2P Require Import Prelude Async Io WakerSet Driver DriverSpec Net.

(** * Addresses *)

Section Addresses.
Context {J : Type} `{Future J Addrs, !FutureMono J, Resolver J}.

#[export] Instance ToSocketAddrsFuture_mono : FutureMono (ToSocketAddrsFuture (J:=J)).
Proof.
  intros f. unfold poll, ToSocketAddrsFuture_Future, ToSocketAddrsFuture_poll. destruct f; auto with async.
Qed.

Lemma resolving_resolves (task : J) (r : Addrs) : resolves_to task r → resolves_to (Resolving task) r.
Proof.
  intros [task' Hr]. exists DoneAddrs. induction Hr as [n f v f' w Hp|n f f1 v f' w Hp _ IH].
  - apply (until_ready_now _ n _ _ _ w). unfold poll, ToSocketAddrsFuture_Future, ToSocketAddrsFuture_poll.
    rewrite Hp. simpl. by rewrite app_nil_r.
  - apply (until_ready_later _ n _ (Resolving f1) _ _ w); [|done].
    unfold poll, ToSocketAddrsFuture_Future, ToSocketAddrsFuture_poll. rewrite Hp. simpl. by rewrite app_nil_r.
Qed.

Lemma ready_resolves (r : Addrs) : resolves_to (ReadyAddrs (J:=J) r) r.
Proof. exists DoneAddrs. by apply (until_ready_now _ 0 _ _ _ []). Qed.
End Addresses.

(** * One address after the other *)

Section Tries.
Context {T : Type}.

Definition fails (r : Result T Error) : Prop := if r is Err _ then True else False.

(** What comes of trying the addresses [l], the attempt at [a] giving [res a]: the
    first success, or the last error; [tried] are the addresses that are tried. *)
Inductive outcome (res : SocketAddr → Result T Error) (l : list SocketAddr) :
    list SocketAddr → Result T Error → Prop :=
| succeeds l1 a l2 t :
    l = l1 ++ a :: l2 → Forall (λ a, fails (res a)) l1 → res a = Ok t → outcome res l (l1 ++ [a]) (Ok t)
| none_succeeds l1 a e :
    l = l1 ++ [a] → Forall (λ a, fails (res a)) l1 → res a = Err e → outcome res l l (Err e)
| none_there : l = [] → outcome res l [] (Err no_addresses).

(** The same, with an error that there is from before. *)
Fixpoint tries (res : SocketAddr → Result T Error) (last : option Error) (l : list SocketAddr) :
    list SocketAddr * Result T Error :=
  match l with
  | [] => ([], after_all last)
  | a :: l =>
      match res a with
      | Ok t => ([a], Ok t)
      | Err e => let '(tried, r) := tries res (Some e) l in (a :: tried, r)
      end
  end.

Lemma tries_fails res last l1 l2 :
  Forall (λ a, fails (res a)) l1 →
  ∃ last', tries res last (l1 ++ l2) = let '(tried, r) := tries res last' l2 in (l1 ++ tried, r).
Proof.
  intros Hl. revert last. induction Hl as [|a l1 Ha Hl IH]; intros last; simpl.
  { exists last. by destruct (tries _ _ _). }
  destruct (res a) as [|e]; [done|]. destruct (IH (Some e)) as [last' ->]. exists last'.
  by destruct (tries res last' l2).
Qed.

Lemma outcome_tries res l tried r : outcome res l tried r → tries res None l = (tried, r).
Proof.
  destruct 1 as [l1 a l2 t -> Hl Ha|l1 a e -> Hl Ha| ->]; [| |done];
    (edestruct (tries_fails res None l1) as [last' ->]; [done|]); simpl; by rewrite Ha.
Qed.

Lemma tried_prefix res last l tried r : tries res last l = (tried, r) → tried `prefix_of` l.
Proof.
  revert last tried. induction l as [|a l IH]; intros last tried Ht; simpl in Ht; [by simplify_eq; exists []|].
  destruct (res a) as [t|e]; [simplify_eq; by exists l|].
  destruct (tries res (Some e) l) as [tried' r'] eqn:Ht'. simplify_eq. by apply prefix_cons, (IH (Some e)).
Qed.
End Tries.

(** ** [connect] *)

Section Connect.
Context {J C T : Type} `{Future J Addrs, !FutureMono J} `{Future C (Result T Error), !FutureMono C}.
Context (spawn : SocketAddr → C) (res : SocketAddr → Result T Error).
Abbreviation ConnectFuture := (ConnectFuture (J:=J) (C:=C)).
Abbreviation round := (connect_round (J:=J) spawn).

Lemma connect_round_mono (this : ConnectFuture) : fuel_mono (λ n, round n this).
Proof. unfold connect_round. solve_fuel_mono. Qed.

#[export] Instance ConnectFuture_mono : @FutureMono ConnectFuture (Result T Error) (ConnectFuture_Future spawn).
Proof. intros f. apply loop_poll_mono, connect_round_mono. Qed.

(** [fails_before l]: the attempts that are made come to what [res] says. *)
Definition attempts_made (l : list SocketAddr) : Prop :=
  ∀ l1 a l2, l = l1 ++ a :: l2 → Forall (λ a, fails (res a)) l1 → resolves_to (spawn a) (res a).

Lemma attempts_tail a l : attempts_made (a :: l) → fails (res a) → attempts_made l.
Proof. intros Hm Ha l1 b l2 -> Hl. apply (Hm (a :: l1) b l2); [done|by constructor]. Qed.

Lemma next_resolves n s w last l r :
  (∀ a l', l = a :: l' → until_ready (loop_poll round) (AtAttempt last (spawn a) l') r Connected) →
  (l = [] → r = after_all last) →
  (∀ x, next_attempt spawn last l = Done x → round n s = Done (x.1, w ++ x.2)) →
  until_ready (loop_poll round) s r Connected.
Proof.
  intros Hc Hn Hround. destruct l as [|a l].
  - rewrite Hn by done. eapply (until_round_ready round connect_round_mono n).
    by apply (Hround (inr (Ready (after_all last), Connected), [])).
  - eapply (until_round_continue round connect_round_mono n); [|by apply Hc].
    by apply (Hround (inl (AtAttempt last (spawn a) l), [])).
Qed.

Lemma attempt_resolves last a l :
  attempts_made (a :: l) →
  until_ready (loop_poll round) (AtAttempt last (spawn a) l) (tries res last (a :: l)).2 Connected.
Proof.
  revert last a. induction l as [|b l IH]; intros last a Hm;
    (destruct (Hm [] a _ eq_refl) as [task' Hr]; [constructor|]);
    pose proof (attempts_tail _ _ Hm) as Hm'; simpl; set (sp := spawn a) in *; clearbody sp;
    remember (res a) as v eqn:Hv in *;
    (induction Hr as [n f v f' w Hp|n f f1 v f' w Hp _ IHr];
      [|eapply (until_round_pending round connect_round_mono n); [|by apply IHr];
        unfold connect_round; rewrite Hp; simpl; by rewrite app_nil_r]);
    destruct v as [t|e].
  - eapply (until_round_ready round connect_round_mono n). unfold connect_round. rewrite Hp. reflexivity.
  - apply (next_resolves n _ w (Some e) []); [done|done|]. intros x Hx.
    unfold connect_round. rewrite Hp. simpl. unfold mret, eff_mret in *. by injection Hx as <-.
  - eapply (until_round_ready round connect_round_mono n). unfold connect_round. rewrite Hp. reflexivity.
  - apply (next_resolves n _ w (Some e) (b :: l)); [|done|].
    + intros ? ? [= <- <-]. specialize (IH (Some e) b (Hm' Logic.I)). simpl in IH.
      destruct (res b); [done|]. by destruct (tries res _ l).
    + intros x Hx. unfold connect_round. rewrite Hp. simpl. unfold mret, eff_mret in *. by injection Hx as <-.
Qed.

Lemma connect_resolves (addrs : ToSocketAddrsFuture (J:=J)) l :
  resolves_to addrs (Ok l) → attempts_made l → resolves_to (H:=ConnectFuture_Future spawn) (AtAddrs addrs) (tries res None l).2.
Proof.
  intros [addrs' Hr] Hm. exists Connected. remember (Ok l) as v eqn:Hv.
  induction Hr as [n f v f' w Hp|n f f1 v f' w Hp _ IHr]; subst.
  - apply (next_resolves n _ w None l); [|by intros ->|].
    + intros a l' ->. by apply attempt_resolves.
    + intros x Hx. unfold connect_round. rewrite Hp. simpl. rewrite Hx. by destruct x.
  - eapply (until_round_pending round connect_round_mono n); [|by apply IHr].
    unfold connect_round. rewrite Hp. simpl. by rewrite app_nil_r.
Qed.

Lemma connect_unresolved (addrs : ToSocketAddrsFuture (J:=J)) e :
  resolves_to addrs (Err e) → resolves_to (H:=ConnectFuture_Future spawn) (AtAddrs addrs) (Err e : Result T Error).
Proof.
  intros [addrs' Hr]. exists Connected. remember (Err e) as v eqn:Hv.
  induction Hr as [n f v f' w Hp|n f f1 v f' w Hp _ IHr]; subst.
  - eapply (until_round_ready round connect_round_mono n). unfold connect_round. rewrite Hp. reflexivity.
  - eapply (until_round_pending round connect_round_mono n); [|by apply IHr].
    unfold connect_round. rewrite Hp. simpl. by rewrite app_nil_r.
Qed.
End Connect.

(** ** [bind] *)

Section Bind.
Context {J W T : Type} `{Future J Addrs, !FutureMono J}.
Context (attempt : SocketAddr → W → Result T Error * W) (context : Addrs → Addrs).
Context (res : SocketAddr → Result T Error) (after : SocketAddr → W → W).
Context (Hattempt : ∀ a w, attempt a w = (res a, after a w)).

Lemma try_each_tries last l w :
  let '(tried, r) := tries res last l in try_each attempt last l w = (r, foldl (λ w a, after a w) w tried).
Proof using Hattempt.
  revert last w. induction l as [|a l IH]; intros last w; simpl; [done|]. rewrite Hattempt.
  destruct (res a) as [t|e]; [done|]. specialize (IH (Some e) (after a w)).
  by destruct (tries res (Some e) l) as [tried r].
Qed.

(** The state of the operating system is that after the attempts that were made. *)
Lemma bind_resolves (addrs : ToSocketAddrsFuture (J:=J)) l w l' tried r :
  resolves_to addrs l → context l = Ok l' → tries res None l' = (tried, r) →
  until_ready (bind_poll attempt context) (BindAddrs addrs w) r (Bound (foldl (λ w a, after a w) w tried)).
Proof using Hattempt.
  intros [addrs' Hr] Hc Ht. induction Hr as [n f v f' w' Hp|n f f1 v f' w' Hp _ IHr].
  - eapply until_ready_now. unfold bind_poll. rewrite Hp. simpl. rewrite Hc.
    pose proof (try_each_tries None l' w) as Hl. rewrite Ht in Hl. by rewrite Hl.
  - eapply until_ready_later; [|by apply IHr]. unfold bind_poll. rewrite Hp. reflexivity.
Qed.

Lemma bind_unresolved (addrs : ToSocketAddrsFuture (J:=J)) l w e :
  resolves_to addrs l → context l = Err e →
  until_ready (bind_poll attempt context) (BindAddrs addrs w) (Err e) (Bound w).
Proof using.
  intros [addrs' Hr] Hc. induction Hr as [n f v f' w' Hp|n f f1 v f' w' Hp _ IHr].
  - eapply until_ready_now. unfold bind_poll. rewrite Hp. simpl. by rewrite Hc.
  - eapply until_ready_later; [|by apply IHr]. unfold bind_poll. rewrite Hp. reflexivity.
Qed.
End Bind.

(** * Sockets *)

Section Sockets.
Context {P Src S Addr : Type} `{Mio P Src, Flags} `{SlabLaws S nat} `{Sockets P Src Addr}.
Abbreviation Driver := (Driver (P:=P) (Src:=Src) (S:=S)).
Abbreviation Watcher := (Watcher (Src:=Src)).
Implicit Types (dr : Driver) (this : Watcher) (e : Entry).

(** A poll with an error context is the poll but for the message. *)
Lemma with_context_spec {A : Type} (d : Interest) waker (f : P → Result A Error * P) this e dr message :
  heap dr !! entry this = Some e →
  ∃ res dr', polls_to d waker f (entry this) e dr res dr' ∧
    with_context (poll_with d waker f this dr) message =
      Done (match res with Pending => Pending | Ready r => Ready (io_context r (message dr')) end, dr', []).
Proof.
  intros He. destruct (poll_with_spec d waker f this e dr He) as (res & dr' & Hp & Hpolls).
  exists res, dr'. split; [done|]. unfold with_context. rewrite Hp. simpl. by destruct res.
Qed.

(** What comes of a connection [io] from [addr]: a stream that the driver has
    taken, unless the operating system fails. *)
Definition comes_in (io : Src) (addr : Addr) dr (res : Poll (Result (Watcher * Addr) Error)) dr' : Prop :=
  match from_stream io (poller dr) with
  | (Err err, p) => res = Ready (Err err) ∧ dr' = set_poller p dr
  | (Ok s, p) => ∃ a, register s (set_poller p dr) = (Ok a, dr') ∧ res = Ready (Ok (mkWatcher s a, addr)) ∧
      heap dr !! a = None ∧ is_Some (heap dr' !! a)
  end.

Lemma register_entry s dr a dr' : register s dr = (Ok a, dr') → heap dr !! a = None ∧ is_Some (heap dr' !! a).
Proof.
  unfold register. destruct (slab_insert _ _) as [k es]. destruct (poller_register _ _ _) as [[[]|] p]; [|done].
  intros [= <- <-]. split; [apply not_elem_of_dom, is_fresh|]. simpl. rewrite lookup_insert_eq. by eexists.
Qed.

Lemma accepted_spec io addr dr res dr' ev :
  accepted io addr dr = Done (res, dr', ev) → ev = [] ∧ comes_in io addr dr res dr'.
Proof.
  unfold accepted, comes_in, sync. intros Ha. destruct (from_stream io (poller dr)) as [[s|err] p]; [|by inv_eff; simplify_eq].
  unfold Watcher_new in Ha. destruct (register s (set_poller p dr)) as [[a|] dr1] eqn:Hr; [|done].
  inv_eff. simplify_eq. split; [done|]. exists a. split_and!; [done..| |]; by apply register_entry in Hr as [??].
Qed.
End Sockets.

Section Accept.
Context {P Src S Addr : Type} `{Mio P Src, Flags} `{SlabLaws S nat} `{Sockets P Src Addr}.
Abbreviation Driver := (Driver (P:=P) (Src:=Src) (S:=S)).
Abbreviation Watcher := (Watcher (Src:=Src)).
Implicit Types (dr : Driver) (this : Watcher) (e : Entry).

(** A poll of [accept] on a listener whose attempt is [f], which gives a connection
    that [from] understands. *)
Definition accepts {A : Type} (waker : nat) (f : P → Result A Error * P) (from : A → option (Src * Addr))
    this e dr (res : Poll (Result (Watcher * Addr) Error)) dr' : Prop :=
  ∃ p dr1, polls_to Reading waker f (entry this) e dr p dr1 ∧
    match p with
    | Pending => res = Pending ∧ dr' = dr1
    | Ready (Err err) => res = Ready (Err err) ∧ dr' = dr1
    | Ready (Ok c) => ∃ io addr, from c = Some (io, addr) ∧ comes_in io addr dr1 res dr'
    end.

Lemma TcpListener_accept_spec waker this e dr res dr' ev :
  heap dr !! entry this = Some e →
  TcpListener_accept waker this dr = Done (res, dr', ev) →
  ev = [] ∧ accepts waker (sock_accept (source this)) Some this e dr res dr'.
Proof.
  intros He Ha. unfold TcpListener_accept in Ha.
  destruct (poll_with_spec Reading waker (sock_accept (source this)) this e dr He) as (p & dr1 & Hp & Hpolls).
  rewrite Hp, eff_bind_Done in Ha. destruct p as [[[io addr]|err]|].
  - apply accepted_spec in Ha as [-> Hc]. split; [done|]. exists (Ready (Ok (io, addr))), dr1.
    split; [done|]. by exists io, addr.
  - inv_eff. simplify_eq. split; [done|]. by exists (Ready (Err err)), dr'.
  - inv_eff. simplify_eq. split; [done|]. by exists Pending, dr'.
Qed.

Lemma UnixListener_accept_spec waker this e dr res dr' ev :
  heap dr !! entry this = Some e →
  UnixListener_accept waker this dr = Done (res, dr', ev) →
  ev = [] ∧ accepts waker (accept_or_block this) id this e dr res dr'.
Proof.
  intros He Ha. unfold UnixListener_accept in Ha.
  destruct (poll_with_spec Reading waker (accept_or_block this) this e dr He) as (p & dr1 & Hp & Hpolls).
  rewrite Hp, eff_bind_Done in Ha. destruct p as [[[[io addr]|]|err]|].
  - apply accepted_spec in Ha as [-> Hc]. split; [done|]. exists (Ready (Ok (Some (io, addr)))), dr1.
    split; [done|]. by exists io, addr.
  - done.
  - inv_eff. simplify_eq. split; [done|]. by exists (Ready (Err err)), dr'.
  - inv_eff. simplify_eq. split; [done|]. by exists Pending, dr'.
Qed.

(** Nobody there is not taken for somebody. *)
Lemma accept_or_block_some d waker this e dr p dr1 :
  polls_to d waker (accept_or_block this) (entry this) e dr p dr1 → p ≠ Ready (Ok (None : option (Src * Addr))).
Proof.
  unfold polls_to, accept_or_block.
  destruct (sock_accept_unix (source this) (poller dr)) as [[[c|]|err] p1];
    destruct (sock_accept_unix (source this) p1) as [[[c'|]|err'] p2]; simpl;
    repeat case_match; naive_solver.
Qed.

(** The driver takes every source. *)
Definition registers : Prop := ∀ s dr, ∃ a dr', register s dr = (Ok a, dr').

Lemma accepted_returns io addr dr : registers → ∃ res dr', accepted io addr dr = Done (res, dr', []).
Proof.
  intros Hr. unfold accepted, sync, Watcher_new. destruct (from_stream io (poller dr)) as [[s|err] p].
  - destruct (Hr s (set_poller p dr)) as (a & dr' & ->). by do 2 eexists.
  - by do 2 eexists.
Qed.

Lemma TcpListener_accept_returns waker this e dr :
  registers → heap dr !! entry this = Some e → ∃ res dr', TcpListener_accept waker this dr = Done (res, dr', []).
Proof.
  intros Hr He. unfold TcpListener_accept.
  destruct (poll_with_spec Reading waker (sock_accept (source this)) this e dr He) as (p & dr1 & Hp & _).
  rewrite Hp, eff_bind_Done. destruct p as [[[io addr]|err]|]; [by apply accepted_returns|by do 2 eexists..].
Qed.

(** The [unreachable!] is not reached. *)
Lemma UnixListener_accept_returns waker this e dr :
  registers → heap dr !! entry this = Some e → ∃ res dr', UnixListener_accept waker this dr = Done (res, dr', []).
Proof.
  intros Hr He. unfold UnixListener_accept.
  destruct (poll_with_spec Reading waker (accept_or_block this) this e dr He) as (p & dr1 & Hp & Hpolls).
  apply accept_or_block_some in Hpolls.
  rewrite Hp, eff_bind_Done. destruct p as [[[[io addr]|]|err]|]; [by apply accepted_returns|done|by do 2 eexists..].
Qed.
End Accept.

(** * How sockets are made and given up *)

Section Ends.
Context {P Src S : Type} `{Mio P Src, Flags} `{SlabLaws S nat}.
Abbreviation Driver := (Driver (P:=P) (Src:=Src) (S:=S)).
Abbreviation Watcher := (Watcher (Src:=Src)).
Implicit Types (dr : Driver) (this : Watcher) (e : Entry).

(** A new watcher: its source is at the poller with the token of its entry. *)
Lemma Watcher_new_spec s dr this dr' ev :
  Watcher_new s dr = Done (this, dr', ev) →
  ev = [] ∧ source this = s ∧ heap dr !! entry this = None ∧
  ∃ e p, poller_register s (token e) (poller dr) = (Ok (), p) ∧ poller dr' = p ∧
    heap dr' = <[entry this := e]> (heap dr) ∧ entries_locked dr' = entries_locked dr ∧
    slab_view (Driver.entries dr) !! token e = None ∧
    slab_view (Driver.entries dr') = <[token e := entry this]> (slab_view (Driver.entries dr)).
Proof.
  unfold Watcher_new, register. destruct (slab_insert _ _) as [k es] eqn:Hi.
  destruct (poller_register s k _) as [[[]|] p] eqn:Hp; [|done]. intros [= <- <- <-]. simpl.
  apply slab_view_insert in Hi as [Hk Hes].
  split_and!; [done..|apply not_elem_of_dom, is_fresh|].
  exists (mkEntry k (mkWakers false []) (mkWakers false [])), p. by split_and!.
Qed.

Lemma Watcher_new_returns s dr : registers (P:=P) (Src:=Src) (S:=S) → ∃ this dr', Watcher_new s dr = Done (this, dr', []).
Proof. intros Hr. unfold Watcher_new. destruct (Hr s dr) as (a & dr' & ->). by do 2 eexists. Qed.

(** A watcher gives its source back when the poller lets it go, and its token is free
    again; otherwise it panics. *)
Lemma Watcher_into_inner_spec this dr e :
  heap dr !! entry this = Some e → slab_view (Driver.entries dr) !! token e = Some (entry this) →
  match poller_deregister (source this) (poller dr) with
  | (Ok _, p) => ∃ dr', Watcher_into_inner this dr = Done (source this, dr', []) ∧
      remove_entry (token e) (set_poller p dr) = Done (dr', []) ∧ poller dr' = p ∧ heap dr' = heap dr ∧
      slab_view (Driver.entries dr') = delete (token e) (slab_view (Driver.entries dr))
  | (Err _, _) => Watcher_into_inner this dr = Panic
  end.
Proof.
  intros He Hk. unfold Watcher_into_inner, Reactor_deregister, deregister_source.
  destruct (poller_deregister _ _) as [[[]|err] p]; [|done]. simpl. rewrite He. simpl.
  destruct (slab_view_remove _ _ _ Hk) as (es & Hes & Hview).
  exists (set_entries es (set_poller p dr)). unfold remove_entry. simpl. rewrite Hes. by split_and!.
Qed.

(** Made and given up at once, the table is as it was. *)
Lemma new_into_inner s dr this dr1 ev p :
  Watcher_new s dr = Done (this, dr1, ev) → poller_deregister s (poller dr1) = (Ok (), p) →
  ∃ dr2, Watcher_into_inner this dr1 = Done (s, dr2, []) ∧
    slab_view (Driver.entries dr2) = slab_view (Driver.entries dr).
Proof.
  intros (_ & Hs & _ & e & p1 & _ & _ & Hheap & _ & Hnone & Hview)%Watcher_new_spec Hd.
  pose proof (Watcher_into_inner_spec this dr1 e) as Hspec. rewrite Hheap, Hview, !lookup_insert_eq, Hs, Hd in Hspec.
  destruct Hspec as (dr2 & Hi & _ & _ & _ & Hv); [done..|]. exists dr2. split; [done|].
  by rewrite Hv, delete_insert_id.
Qed.
End Ends.

(** [into_inner] and the drop of a watcher are two steps of the driver. *)
Section Steps.
Context {P Src S R : Type} `{MioLaws P Src, !FlagsLaws} `{SlabLaws S nat}.
Abbreviation System := (System (P:=P) (Src:=Src) (S:=S) (R:=R)).

Lemma into_inner_steps (dr : Driver (P:=P) (Src:=Src) (S:=S)) l ws rm (os : gmap nat (Op (P:=P) R)) lg n this :
  reachable (S:=S) (mkSystem dr l ws rm os lg) → ws !! n = Some this → rm !! n = None →
  (∀ i o, os !! i = Some o → op_watcher o ≠ n) → entries_locked dr = false →
  match poller_deregister (source this) (poller dr) with
  | (Ok _, _) => ∃ dr', Watcher_into_inner (S:=S) this dr = Done (source this, dr', []) ∧
      reachable (S:=S) (mkSystem dr' l (delete n ws) rm os lg) ∧ token_of (poller dr') (source this) = None
  | (Err _, _) => Watcher_into_inner (S:=S) this dr = Panic
  end.
Proof.
  intros Hreach Hn Hrm Hos Hfree.
  pose proof (driver_reachable_Inv _ Hreach) as (Ht & _).
  destruct (t_watch _ _ _ Ht n this Hn) as (e & He & Hk & _).
  pose proof (Watcher_into_inner_spec this dr e He Hk) as Hspec.
  destruct (poller_deregister (source this) (poller dr)) as [[[]|err] p] eqn:Hd; [|done].
  destruct Hspec as (dr' & Hi & Hremove & Hp & _). exists dr'. split_and!; [done| |].
  - destruct Hreach as (s0 & Hs0 & Hsteps). exists s0. split; [done|].
    etrans; [exact Hsteps|]. eapply rtc_l.
    { eapply (step_drop dr l ws rm os lg n this e); [done..|]. unfold deregister_source. by rewrite Hd. }
    eapply rtc_l; [|apply rtc_refl].
    rewrite <- (delete_insert_id rm n (token e)) at 2 by done.
    eapply (step_remove _ _ _ _ _ _ n (token e)); [by rewrite lookup_insert_eq|done|exact Hremove].
  - rewrite Hp. by apply deregister_spec in Hd as [Htok _]; apply Htok.
Qed.
End Steps.

(** ** Constructors *)

Section Constructors.
Context {P Std Src Fd Addr At S : Type} `{Mio P Src, Flags} `{SlabLaws S nat}.
Context `{SocketApi P Std Src Fd Addr At}.
Abbreviation Driver := (Driver (P:=P) (Src:=Src) (S:=S)).
Abbreviation Watcher := (Watcher (Src:=Src)).
Implicit Types (dr : Driver) (this : Watcher).

(** [bind] fails at all of [l] and goes on from [p'], having had the error [last']. *)
Inductive refuses (k : SocketType) : list At → option Error → P → option Error → P → Prop :=
| refuses_nil last p : refuses k [] last p last p
| refuses_cons a l last p e p1 last' p' :
    mio_bind k a p = (Err e, p1) → refuses k l (Some e) p1 last' p' → refuses k (a :: l) last p last' p'.

(** The outcome of [bind] on [l]: the first address that is taken, or the last error. *)
Inductive binds (k : SocketType) (l : list At) dr : Result Watcher Error → Driver → Prop :=
| binds_first l1 a l2 last p s p1 this dr' :
    l = l1 ++ a :: l2 → refuses k l1 None (poller dr) last p → mio_bind k a p = (Ok s, p1) →
    Watcher_new s (set_poller p1 dr) = Done (this, dr', []) → binds k l dr (Ok this) dr'
| binds_none last p :
    refuses k l None (poller dr) last p → binds k l dr (after_all last) (set_poller p dr).

Lemma set_poller_same dr : set_poller (poller dr) dr = dr.
Proof. by destruct dr. Qed.

Lemma refuses_snoc k l a last p last1 p1 e p2 :
  refuses k l last p last1 p1 → mio_bind k a p1 = (Err e, p2) → refuses k (l ++ [a]) last p (Some e) p2.
Proof. induction 1; intros Ha; simpl; econstructor; eauto using refuses_nil. Qed.

(** From an address on, those before it having been refused. *)
Lemma bind_each_from k l1 l2 last dr0 p r dr' ev :
  refuses k l1 None (poller dr0) last p →
  bind_each k last l2 (set_poller p dr0) = Done (r, dr', ev) → ev = [] ∧ binds k (l1 ++ l2) dr0 r dr'.
Proof.
  revert l1 last p. induction l2 as [|a l2 IH]; intros l1 last p Hl Hb; simpl in Hb.
  { injection Hb as <- <- <-. rewrite app_nil_r. split; [done|by constructor]. }
  unfold sync in Hb. simpl in Hb. destruct (mio_bind k a p) as [[s|e] p1] eqn:Ha.
  - unfold watched in Hb.
    destruct (Watcher_new s _) as [[[this dr1] ev1]| |] eqn:Hn; simpl in Hb; [|done..]. injection Hb as <- <- <-.
    pose proof (Watcher_new_spec _ _ _ _ _ Hn) as [-> _]. split; [done|]. by eapply (binds_first k _ dr0 l1 a l2).
  - replace (l1 ++ a :: l2) with ((l1 ++ [a]) ++ l2) by by rewrite <- app_assoc.
    apply (IH (l1 ++ [a]) (Some e) p1); [by eapply refuses_snoc|exact Hb].
Qed.

Lemma bind_each_spec k l dr r dr' ev :
  bind_each k None l dr = Done (r, dr', ev) → ev = [] ∧ binds k l dr r dr'.
Proof.
  intros Hb. apply (bind_each_from k [] l None dr (poller dr)); [constructor|by rewrite set_poller_same].
Qed.

Lemma bind_each_returns k last l dr :
  registers (P:=P) (Src:=Src) (S:=S) → ∃ r dr', bind_each k last l dr = Done (r, dr', []).
Proof.
  intros Hr. revert last dr. induction l as [|a l IH]; intros last dr; simpl; [by do 2 eexists|].
  unfold sync. destruct (mio_bind k a _) as [[s|e] p]; [|apply IH]. unfold watched.
  destruct (Watcher_new_returns s (set_poller p dr) Hr) as (this & dr' & ->). by do 2 eexists.
Qed.

(** The two halves of a pair are different sources of the driver. *)
Lemma watched_pair_spec r dr a b dr' ev :
  watched_pair (r, dr) = Done (Ok (a, b), dr', ev) →
  ev = [] ∧ r = Ok (source a, source b) ∧ entry a ≠ entry b ∧ ∃ ea eb,
    heap dr' !! entry a = Some ea ∧ heap dr' !! entry b = Some eb ∧ token ea ≠ token eb ∧
    slab_view (Driver.entries dr') !! token ea = Some (entry a) ∧
    slab_view (Driver.entries dr') !! token eb = Some (entry b).
Proof.
  unfold watched_pair. destruct r as [[sa sb]|err]; [|done]. intros Hp.
  destruct (Watcher_new sa dr) as [[[a1 dr1] ev1]| |] eqn:Ha; simpl in Hp; [|done..].
  destruct (Watcher_new sb dr1) as [[[b1 dr2] ev2]| |] eqn:Hb; simpl in Hp; [|done..].
  injection Hp as <- <- <- <-.
  apply Watcher_new_spec in Ha as (-> & <- & _ & ea & _ & _ & _ & Hh1 & _ & _ & Hv1).
  apply Watcher_new_spec in Hb as (-> & <- & Hnew & eb & _ & _ & _ & Hh2 & _ & Hnone & Hv2).
  assert (entry a1 ≠ entry b1) as Hne by (intros Heq; by rewrite Hh1, Heq, lookup_insert_eq in Hnew).
  assert (token ea ≠ token eb) as Hte by (intros Heq; by rewrite Hv1, Heq, lookup_insert_eq in Hnone).
  split_and!; [done..|]. exists ea, eb. rewrite Hh2, Hv2, Hh1, Hv1.
  rewrite !lookup_insert_eq, !(lookup_insert_ne _ (entry b1)), !(lookup_insert_ne _ (token eb)) by done.
  by rewrite !lookup_insert_eq.
Qed.

(** ** Raw descriptors *)

Lemma from_std_spec `{!DescriptorLaws P Std Src Fd Addr At} k s dr this dr' ev :
  from_std k s dr = Done (this, dr', ev) →
  ev = [] ∧ as_raw_fd this = std_fd s ∧ ∃ src p, mio_from_std k s (poller dr) = (Ok src, p) ∧
    Watcher_new src (set_poller p dr) = Done (this, dr', []).
Proof.
  unfold from_std, sync. destruct (mio_from_std k s _) as [[src|err] p] eqn:Hf; [|done]. intros Hn.
  pose proof (Watcher_new_spec _ _ _ _ _ Hn) as (-> & Hs & _). split_and!; [done| |by exists src, p].
  unfold as_raw_fd. rewrite Hs. by eapply mio_from_std_fd.
Qed.

(** A descriptor that is taken and given up again is the same descriptor, and the
    driver has forgotten it. *)
Lemma raw_fd_roundtrip `{!DescriptorLaws P Std Src Fd Addr At} k fd dr this dr1 ev p :
  from_std k (std_from_fd k fd) dr = Done (this, dr1, ev) →
  poller_deregister (source this) (poller dr1) = (Ok (), p) →
  as_raw_fd this = fd ∧ ∃ dr2, into_raw_fd this dr1 = Done (fd, dr2, []) ∧
    slab_view (Driver.entries dr2) = slab_view (Driver.entries dr).
Proof.
  intros (_ & Hfd & src & p1 & _ & Hn)%from_std_spec Hd. rewrite std_from_fd_fd in Hfd. split; [done|].
  pose proof (Watcher_new_spec _ _ _ _ _ Hn) as (_ & Hs & _). rewrite Hs in Hd.
  destruct (new_into_inner _ _ _ _ _ _ Hn Hd) as (dr2 & Hi & Hv). exists dr2. split; [|exact Hv].
  unfold into_raw_fd. rewrite Hi. simpl. by rewrite into_fd_as_fd, <- Hs, <- Hfd.
Qed.
End Constructors.

(** * Connections *)

(** C35 What the network types answer, whatever the awaited jobs and the driver do
    meanwhile.  [TcpStream::connect] tries the addresses one after the other and
    answers the first success, or the error of the last attempt, or that there are
    no addresses; an error in resolving them is answered as it is.  [bind] and
    [UdpSocket::connect] do the same, and try nothing after the first success.  A host
    that is a literal address is not given to the resolver.  [accept] waits for the
    listener to be readable and answers a stream with a new entry in the driver, or
    the error of the operating system; it does not panic if the driver takes every
    source, also on a Unix socket, where [Ok(None)] is not taken for a connection. *)
Theorem net_connections {J C T W P Src S Addr : Type}
    `{Future J Addrs, !FutureMono J, Resolver J} `{Future C (Result T Error), !FutureMono C}
    `{Mio P Src, Flags} `{SlabLaws S nat} `{Sockets P Src Addr}
    (spawn : SocketAddr → C) (res : SocketAddr → Result T Error) (after : SocketAddr → W → W)
    (addrs : ToSocketAddrsFuture (J:=J)) (l tried : list SocketAddr) (r : Result T Error) :
  outcome res l tried r →
  (resolves_to addrs (Ok l) →
     (attempts_made spawn res l → resolves_to (H:=ConnectFuture_Future spawn) (AtAddrs addrs) r) ∧
     ∀ w, until_ready (bind_poll (λ a w, (res a, after a w)) id) (BindAddrs addrs w) r
            (Bound (foldl (λ w a, after a w) w tried))) ∧
  (∀ err, resolves_to addrs (Err err) →
     resolves_to (H:=ConnectFuture_Future spawn) (AtAddrs addrs) (Err err : Result T Error)) ∧
  (∀ host port a, parse_ipv4 (J:=J) host = Some a →
     resolves_to (to_socket_addrs (J:=J) (host, port)) (Ok [V4 (mkV4 a port)])) ∧
  (∀ (this : Watcher (Src:=Src)) e (dr dr' : Driver (P:=P) (S:=S)) waker ans ev,
     heap dr !! entry this = Some e →
     (registers (S:=S) → (∃ x, TcpListener_accept waker this dr = Done x) ∧
        ∃ x, UnixListener_accept waker this dr = Done x) ∧
     (TcpListener_accept waker this dr = Done (ans, dr', ev) →
        accepts waker (sock_accept (source this)) Some this e dr ans dr') ∧
     (UnixListener_accept waker this dr = Done (ans, dr', ev) →
        accepts waker (accept_or_block this) id this e dr ans dr')).
Proof.
  intros Ho%outcome_tries. split_and!.
  - intros Hl. split.
    + intros Hm. pose proof (connect_resolves spawn res addrs l Hl Hm) as Hc. by rewrite Ho in Hc.
    + intros w. by eapply (bind_resolves (λ a w, (res a, after a w)) id res after).
  - intros err. apply connect_unresolved.
  - intros host port a Ha. unfold to_socket_addrs, addrs_of_host. rewrite Ha. apply ready_resolves.
  - intros this e dr dr' waker ans ev He. split_and!.
    { intros Hr. destruct (TcpListener_accept_returns waker this e dr Hr He) as (? & ? & ?).
      destruct (UnixListener_accept_returns waker this e dr Hr He) as (? & ? & ?). by split; eexists. }
    all: intros Ha.
    + by destruct (TcpListener_accept_spec _ _ _ _ _ _ _ He Ha).
    + by destruct (UnixListener_accept_spec _ _ _ _ _ _ _ He Ha).
Qed.

(** * At concrete inputs *)

#[local] Existing Instance unix_flags.
#[local] Existing Instance Epoll_Mio.

(** Jobs that are over when they are awaited. *)
Definition Job (T : Type) : Type := T.
#[local] Instance Job_Future {T} : Future (Job T) T := λ _ t, mret (Ready t, t).
#[local] Instance Job_mono {T} : FutureMono (Job T).
Proof. by intros f n m r _ Hp. Qed.
#[local] Instance literal_only : Resolver (Job Addrs) := {|
  parse_ipv4 s := if String.eqb s "127.0.0.1" then Some (mkIpv4 2130706433) else None;
  parse_ipv6 s := None;
  parse_socket_addr s := None;
  show_v4 _ := "";
  show_v6 _ := "";
  resolve_host _ _ := Err (error_of InvalidInput);
  resolve_str _ := Err (error_of InvalidInput)
|}.
#[local] Instance nobody_comes : Sockets Epoll nat SocketAddr := {|
  sock_read _ _ p := (Err (error_of WouldBlock), p);
  sock_peek _ _ p := (Err (error_of WouldBlock), p);
  sock_write _ b p := (Ok (length b), p);
  sock_flush _ p := (Ok (), p);
  sock_shutdown_write _ p := (Ok (), p);
  sock_accept _ p := (Err (error_of WouldBlock), p);
  sock_accept_unix _ p := (Ok None, p);
  from_stream s p := (Ok s, p);
  sock_recv_from _ _ p := (Err (error_of WouldBlock), p);
  sock_recv _ _ p := (Err (error_of WouldBlock), p);
  sock_send_to _ b _ p := (Ok (length b), p);
  sock_send _ b p := (Ok (length b), p);
  sock_connect _ _ p := (Ok (), p);
  sock_local_addr _ _ := Err (error_of InvalidInput);
  show_addr _ := ""
|}.

Definition local (port : N) : SocketAddr := V4 (mkV4 (mkIpv4 2130706433) port).
Definition second_only (a : SocketAddr) : Result nat Error :=
  if bool_decide (a = local 2) then Ok 7 else Err (error_of TimedOut).

Lemma net_connections_witness :
  resolves_to (H:=ConnectFuture_Future (J:=Job Addrs) second_only) (AtAddrs (ReadyAddrs (Ok [local 1; local 2; local 3]))) (Ok 7).
Proof.
  refine (proj1 (proj1 (net_connections (J:=Job Addrs) (C:=Job (Result nat Error)) (P:=Epoll) (Src:=nat) (S:=gmap nat nat)
    second_only second_only (λ a w, w ++ [a]) (ReadyAddrs (Ok [local 1; local 2; local 3]))
    [local 1; local 2; local 3] [local 1; local 2] (Ok 7) _) _) _).
  - apply (succeeds _ _ [local 1] (local 2) [local 3]); [reflexivity|repeat constructor|reflexivity].
  - apply ready_resolves.
  - intros l1 a l2 _ _. exists (second_only a). apply (until_ready_now _ 0 _ _ _ []). reflexivity.
Defined.
