(* ===== verification/Fs.v ===== *)
(** The file system (src/src/fs): functions that are one call of [std::fs] each, on a
    thread of the blocking pool, the builders [DirBuilder] and [OpenOptions], and
    the stream [ReadDir].  What the operating system does is a parameter, a function
    of the state of its file system. *)

From stdpp Require Import strings.
From S2P Require Import Prelude Async Io File.
Local Open Scope async_scope.

(** * Jobs on the blocking pool *)

(** A job works on what the operating system has.  [JoinHandle<R>]: the job is still
    to be finished ([waker]: the handle holds the waker of a task), or its result is
    there to be taken: [None] if the task was cancelled.  (A job that panics aborts the
    process.) *)
Inductive JoinHandle (Os R : Type) : Type :=
| Working (job : Os → R * Os) (waker : bool)
| Finished (r : option R).
Arguments Working {Os R}.
Arguments Finished {Os R}.

Section Jobs.
Context {Os R : Type}.

(** As in Stdio.v, [fast] says whether the job is finished before its handle is polled
    for the first time. *)
Definition spawn_blocking (fast : bool) (job : Os → R * Os) (os : Os) : JoinHandle Os R * Os :=
  if fast then let '(r, os) := job os in (Finished (Some r), os) else (Working job false, os).

Definition JoinHandle_poll (h : JoinHandle Os R) : Eff (Poll R * JoinHandle Os R) :=
  match h with
  | Working job _ => _ ← clone_waker; mret (Pending, Working job true)
  | Finished (Some r) => mret (Ready r, h)
  | Finished None => eff_panic         (* cannot await the result of a panicked task *)
  end.

(** The thread finishes the job; the last component says whether it wakes a task. *)
Definition finish_job (h : JoinHandle Os R) (os : Os) : option (JoinHandle Os R * Os * bool) :=
  match h with
  | Working job waker => let '(r, os) := job os in Some (Finished (Some r), os, waker)
  | Finished _ => None
  end.

(** [async fn f(..) -> R { ..; spawn_blocking(job).await }]: nothing is done before the
    first poll, and a poll after the end panics. *)
Inductive Call : Type :=
| Unresumed (job : Os → R * Os)
| Suspended (h : JoinHandle Os R)
| Returned.

Definition await_handle (h : JoinHandle Os R) (os : Os) : Eff (Poll R * (Os * Call)) :=
  '(p, h) ← JoinHandle_poll h;
  mret (p, (os, match p with Ready _ => Returned | Pending => Suspended h end)).

Definition Call_poll (fast : bool) (fuel : nat) (this : Os * Call) : Eff (Poll R * (Os * Call)) :=
  let '(os, call) := this in
  match call with
  | Unresumed job => let '(h, os) := spawn_blocking fast job os in await_handle h os
  | Suspended h => await_handle h os
  | Returned => eff_panic
  end.

Definition finish_call (this : Os * Call) : option (Os * Call * bool) :=
  let '(os, call) := this in
  match call with
  | Suspended h => '(h, os, woken) ← finish_job h os; Some (os, Suspended h, woken)
  | _ => None
  end.

(** The future is dropped: its handle detaches from the job, which is finished all
    the same. *)
Definition Call_drop (this : Os * Call) : Os :=
  let '(os, call) := this in
  match call with Suspended (Working job _) => (job os).2 | _ => os end.
End Jobs.
Arguments Call : clear implicits.

(** * std::fs *)

(** [std::fs::OpenOptions] on Unix. *)
Record StdOpenOptions : Type := mkStdOpenOptions {
  oo_read : bool; oo_write : bool; oo_append : bool; oo_truncate : bool;
  oo_create : bool; oo_create_new : bool; oo_mode : N; oo_custom_flags : Z
}.

(** Paths, open files, directories being read and entries are those of [std]; so are
    the functions that the code calls. *)
Class Filesystem (Os Path F Dir Entry Meta Perm FileType : Type) : Type := {
  display : Path → string;
  std_canonicalize : Path → Os → Result Path Error * Os;
  std_copy : Path → Path → Os → Result N Error * Os;
  std_create_dir : Path → Os → Result () Error * Os;
  std_create_dir_all : Path → Os → Result () Error * Os;
  std_hard_link : Path → Path → Os → Result () Error * Os;
  std_symlink : Path → Path → Os → Result () Error * Os;
  std_metadata : Path → Os → Result Meta Error * Os;
  std_symlink_metadata : Path → Os → Result Meta Error * Os;
  std_read : Path → Os → Result bytes Error * Os;
  std_read_to_string : Path → Os → Result bytes Error * Os;
  std_write : Path → bytes → Os → Result () Error * Os;
  std_read_dir : Path → Os → Result Dir Error * Os;
  std_dir_next : Dir → Os → (Dir * option (Result Entry Error)) * Os;
  std_read_link : Path → Os → Result Path Error * Os;
  std_remove_dir : Path → Os → Result () Error * Os;
  std_remove_dir_all : Path → Os → Result () Error * Os;
  std_remove_file : Path → Os → Result () Error * Os;
  std_rename : Path → Path → Os → Result () Error * Os;
  std_set_permissions : Path → Perm → Os → Result () Error * Os;
  entry_path : Entry → Path;
  entry_file_name : Entry → string;
  entry_ino : Entry → N;
  std_entry_metadata : Entry → Os → Result Meta Error * Os;
  std_entry_file_type : Entry → Os → Result FileType Error * Os;
  std_file_metadata : F → Os → Result Meta Error * Os;
  std_file_set_permissions : F → Perm → Os → Result () Error * Os;
  std_dir_builder_create : bool → option N → Path → Os → Result () Error * Os;
  std_open : StdOpenOptions → Path → Os → Result F Error * Os
}.

Section Fs.
Context {Os Path F Dir Entry Meta Perm FileType : Type}.
Context `{Filesystem Os Path F Dir Entry Meta Perm FileType}.
Implicit Types (path from to : Path).

Definition quoted path : string := "`" +:+ display path +:+ "`".

(** [f.context(message)], of a job. *)
Definition context {A : Type} (job : Os → Result A Error * Os) (message : string) : Os → Result A Error * Os :=
  λ os, let '(r, os) := job os in (io_context r message, os).

Definition canonicalize path : Call Os (Result Path Error) :=
  Unresumed (context (std_canonicalize path) ("could not canonicalize " +:+ quoted path)).
Definition copy from to : Call Os (Result N Error) :=
  Unresumed (context (std_copy from to) ("could not copy " +:+ quoted from +:+ " to " +:+ quoted to)).
Definition create_dir path : Call Os (Result () Error) :=
  Unresumed (context (std_create_dir path) ("could not create directory " +:+ quoted path)).
Definition create_dir_all path : Call Os (Result () Error) :=
  Unresumed (context (std_create_dir_all path) ("could not create directory path " +:+ quoted path)).
Definition hard_link from to : Call Os (Result () Error) :=
  Unresumed (context (std_hard_link from to)
    ("could not create a hard link from " +:+ quoted from +:+ " to " +:+ quoted to)).
Definition symlink (src dst : Path) : Call Os (Result () Error) := Unresumed (std_symlink src dst).
Definition metadata path : Call Os (Result Meta Error) := Unresumed (std_metadata path).
Definition symlink_metadata path : Call Os (Result Meta Error) := Unresumed (std_symlink_metadata path).
Definition read path : Call Os (Result bytes Error) :=
  Unresumed (context (std_read path) ("could not read file " +:+ quoted path)).
Definition read_to_string path : Call Os (Result bytes Error) :=
  Unresumed (context (std_read_to_string path) ("could not read file " +:+ quoted path)).
Definition write path (contents : bytes) : Call Os (Result () Error) :=
  Unresumed (context (std_write path contents) ("could not write to file " +:+ quoted path)).
Definition read_link path : Call Os (Result Path Error) :=
  Unresumed (context (std_read_link path) ("could not read link " +:+ quoted path)).
Definition remove_dir path : Call Os (Result () Error) :=
  Unresumed (context (std_remove_dir path) ("could not remove directory " +:+ quoted path)).
Definition remove_dir_all path : Call Os (Result () Error) :=
  Unresumed (context (std_remove_dir_all path) ("could not remove directory " +:+ quoted path)).
Definition remove_file path : Call Os (Result () Error) :=
  Unresumed (context (std_remove_file path) ("could not remove file " +:+ quoted path)).
Definition rename from to : Call Os (Result () Error) :=
  Unresumed (context (std_rename from to)
    ("could not rename " +:+ quoted from +:+ " to " +:+ quoted to)).
Definition set_permissions path (perm : Perm) : Call Os (Result () Error) :=
  Unresumed (std_set_permissions path perm).
Definition File_metadata (file : F) : Call Os (Result Meta Error) := Unresumed (std_file_metadata file).
Definition File_set_permissions (file : F) (perm : Perm) : Call Os (Result () Error) :=
  Unresumed (std_file_set_permissions file perm).

(** * dir_builder.rs *)

Record DirBuilder : Type := mkDirBuilder { db_recursive : bool; db_mode : option N }.
Definition DirBuilder_new : DirBuilder := mkDirBuilder false None.
Definition recursive (b : bool) (this : DirBuilder) : DirBuilder := mkDirBuilder b (db_mode this).
Definition DirBuilder_mode (mode : N) (this : DirBuilder) : DirBuilder := mkDirBuilder (db_recursive this) (Some mode).

(** The builder and the path are copied when [create] is called. *)
Definition create (this : DirBuilder) path : Call Os (Result () Error) :=
  Unresumed (std_dir_builder_create (db_recursive this) (db_mode this) path).

(** * open_options.rs *)

(** A wrapper of [std::fs::OpenOptions], whose setters set one field each. *)
Abbreviation OpenOptions := StdOpenOptions.
Definition OpenOptions_new : OpenOptions := mkStdOpenOptions false false false false false false 438 0.
Definition OpenOptions_read (b : bool) (o : OpenOptions) : OpenOptions :=
  mkStdOpenOptions b (oo_write o) (oo_append o) (oo_truncate o) (oo_create o) (oo_create_new o) (oo_mode o) (oo_custom_flags o).
Definition OpenOptions_write (b : bool) (o : OpenOptions) : OpenOptions :=
  mkStdOpenOptions (oo_read o) b (oo_append o) (oo_truncate o) (oo_create o) (oo_create_new o) (oo_mode o) (oo_custom_flags o).
Definition OpenOptions_append (b : bool) (o : OpenOptions) : OpenOptions :=
  mkStdOpenOptions (oo_read o) (oo_write o) b (oo_truncate o) (oo_create o) (oo_create_new o) (oo_mode o) (oo_custom_flags o).
Definition OpenOptions_truncate (b : bool) (o : OpenOptions) : OpenOptions :=
  mkStdOpenOptions (oo_read o) (oo_write o) (oo_append o) b (oo_create o) (oo_create_new o) (oo_mode o) (oo_custom_flags o).
Definition OpenOptions_create (b : bool) (o : OpenOptions) : OpenOptions :=
  mkStdOpenOptions (oo_read o) (oo_write o) (oo_append o) (oo_truncate o) b (oo_create_new o) (oo_mode o) (oo_custom_flags o).
Definition OpenOptions_create_new (b : bool) (o : OpenOptions) : OpenOptions :=
  mkStdOpenOptions (oo_read o) (oo_write o) (oo_append o) (oo_truncate o) (oo_create o) b (oo_mode o) (oo_custom_flags o).
Definition OpenOptions_mode (mode : N) (o : OpenOptions) : OpenOptions :=
  mkStdOpenOptions (oo_read o) (oo_write o) (oo_append o) (oo_truncate o) (oo_create o) (oo_create_new o) mode (oo_custom_flags o).
Definition OpenOptions_custom_flags (flags : Z) (o : OpenOptions) : OpenOptions :=
  mkStdOpenOptions (oo_read o) (oo_write o) (oo_append o) (oo_truncate o) (oo_create o) (oo_create_new o) (oo_mode o) flags.

(** [open]: the options are copied when it is called.  [File::open] and
    [File::create] are async functions with fixed options, and a message. *)
Definition open (this : OpenOptions) path : Call Os (Result F Error) := Unresumed (std_open this path).
Definition File_open_call path : Call Os (Result F Error) :=
  Unresumed (context (std_open (OpenOptions_read true OpenOptions_new) path) ("could not open " +:+ quoted path)).
Definition File_create_call path : Call Os (Result F Error) :=
  Unresumed (context (std_open (OpenOptions_truncate true (OpenOptions_create true (OpenOptions_write true OpenOptions_new))) path)
    ("could not create " +:+ quoted path)).

(** [let file = ...await?; Ok(File::new(file, true))]. *)
Definition opened (r : Result F Error) : Result (File F) Error :=
  match r with Ok f => Ok (File_new f true) | Err e => Err e end.
Definition open_poll (fast : bool) (fuel : nat) (this : Os * Call Os (Result F Error)) :
    Eff (Poll (Result (File F) Error) * (Os * Call Os (Result F Error))) :=
  '(r, this) ← Call_poll fast fuel this;
  mret (match r with Ready r => Ready (opened r) | Pending => Pending end, this).

(** * dir_entry.rs *)

(** [DirEntry] is an [Arc] of [std]'s. *)
Definition DirEntry_path (this : Entry) : Path := entry_path this.
Definition DirEntry_file_name (this : Entry) : string := entry_file_name this.
Definition DirEntry_ino (this : Entry) : N := entry_ino this.
Definition DirEntry_metadata (this : Entry) : Call Os (Result Meta Error) := Unresumed (std_entry_metadata this).
Definition DirEntry_file_type (this : Entry) : Call Os (Result FileType Error) :=
  Unresumed (std_entry_file_type this).

(** * read_dir.rs *)

Definition Next : Type := Dir * option (Result Entry Error).

Inductive DirState : Type :=
| DirIdle (opt : option Dir)
| DirBusy (task : JoinHandle Os Next).

Definition ReadDir_new (inner : Dir) : DirState := DirIdle (Some inner).

Definition read_dir path : Call Os (Result Dir Error) :=
  Unresumed (context (std_read_dir path) ("could not read directory " +:+ quoted path)).
Definition dir_opened (r : Result Dir Error) : Result DirState Error :=
  match r with Ok inner => Ok (ReadDir_new inner) | Err e => Err e end.
Definition read_dir_poll (fast : bool) (fuel : nat) (this : Os * Call Os (Result Dir Error)) :
    Eff (Poll (Result DirState Error) * (Os * Call Os (Result Dir Error))) :=
  '(r, this) ← Call_poll fast fuel this;
  mret (match r with Ready r => Ready (dir_opened r) | Pending => Pending end, this).

Definition ReadDir_round (fast : bool) (fuel : nat) (this : Os * DirState) :
    Eff (Os * DirState + (Poll (option (Result Entry Error)) * (Os * DirState))) :=
  let '(os, st) := this in
  match st with
  | DirIdle opt =>
      inner ← unwrap opt;
      let '(h, os) := spawn_blocking fast (std_dir_next inner) os in
      mret (inl (os, DirBusy h))
  | DirBusy task =>
      '(r, task) ← JoinHandle_poll task;
      match r with
      | Pending => mret (inr (Pending, (os, DirBusy task)))
      | Ready (inner, opt) => mret (inr (Ready opt, (os, DirIdle (Some inner))))
      end
  end.
Definition ReadDir_poll_next (fast : bool) (fuel : nat) :
    Os * DirState → Eff (Poll (option (Result Entry Error)) * (Os * DirState)) :=
  loop_poll (ReadDir_round fast) fuel.

Definition finish_dir (this : Os * DirState) : option (Os * DirState * bool) :=
  let '(os, st) := this in
  match st with
  | DirBusy h => '(h, os, woken) ← finish_job h os; Some (os, DirBusy h, woken)
  | _ => None
  end.
End Fs.
