(* ===== verification/FsSpec.v ===== *)
(** Awaiting a function of src/src/fs is one call of [std::fs], and a stream of
    directory entries gives what the directory gives. *)

From stdpp Require Import strings.
From S2P Require Import Prelude Async Await Io File Fs.
Local Open Scope async_scope.

Section Calls.
Context {Os R : Type}.

Lemma call_mono fast (s : Os * Call Os R) : fuel_mono (λ n, Call_poll fast n s).
Proof. intros n m x _ Hx. exact Hx. Qed.

Lemma call_one_call (job : Os → R * Os) (os : Os) :
  one_call Call_poll finish_call (os, Unresumed job) (job os).1 ((job os).2, Returned).
Proof.
  eapply (three_states_call _ _ call_mono _ ((job os).2, Suspended (Finished (Some (job os).1))) _
    (λ w, (os, Suspended (Working job w))) _ 0).
  - intros [|]; [|reflexivity]. simpl. by destruct (job os).
  - reflexivity.
  - reflexivity.
  - reflexivity.
  - intros w. simpl. by destruct (job os).
  - reflexivity.
Qed.

(** What is done with the result when it is there. *)
Definition mapped {A} (k : R → A) (fast : bool) (fuel : nat) (this : Os * Call Os R) : Eff (Poll A * (Os * Call Os R)) :=
  '(r, this) ← Call_poll fast fuel this;
  mret (match r with Ready r => Ready (k r) | Pending => Pending end, this).

Lemma mapped_one_call {A} (k : R → A) (job : Os → R * Os) (os : Os) :
  one_call (mapped k) finish_call (os, Unresumed job) (k (job os).1) ((job os).2, Returned).
Proof.
  eapply (three_states_call _ _ (λ fast s, fuel_mono_bind _ _ (call_mono fast s) (λ x, fuel_mono_const _)) _
    ((job os).2, Suspended (Finished (Some (job os).1))) _ (λ w, (os, Suspended (Working job w))) _ 0).
  - intros [|]; [|reflexivity]. unfold mapped. simpl. by destruct (job os).
  - reflexivity.
  - reflexivity.
  - reflexivity.
  - intros w. simpl. by destruct (job os).
  - reflexivity.
Qed.
End Calls.

Section Fs.
Context {Os Path F Dir Entry Meta Perm FileType : Type}.
Context `{Filesystem Os Path F Dir Entry Meta Perm FileType}.

Lemma dir_one_call (d : Dir) (os : Os) :
  let '(d', item, os') := std_dir_next d os in
  one_call ReadDir_poll_next finish_dir (os, ReadDir_new d) item (os', ReadDir_new d').
Proof.
  destruct (std_dir_next d os) as [[d' item] os'] eqn:Hn.
  eapply (three_states_call _ _ (λ fast s, const_round_mono _ s) _ (os', DirBusy (Finished (Some (d', item)))) _
    (λ w, (os, DirBusy (Working (std_dir_next d) w))) _ 2).
  - intros [|]; unfold ReadDir_poll_next, loop_poll; simpl; [by rewrite Hn|reflexivity].
  - reflexivity.
  - reflexivity.
  - reflexivity.
  - intros w. simpl. by rewrite Hn.
  - reflexivity.
Qed.

(** The next [n] entries of a directory, and what is left. *)
Fixpoint dir_entries (n : nat) (d : Dir) (os : Os) : list (option (Result Entry Error)) * (Os * Dir) :=
  match n with
  | O => ([], (os, d))
  | S n =>
      let '(d, item, os) := std_dir_next d os in
      let '(items, rest) := dir_entries n d os in
      (item :: items, rest)
  end.

Lemma dir_awaited items s1 s2 :
  awaited_all ReadDir_poll_next finish_dir s1 items s2 → ∀ d os, s1 = (os, ReadDir_new d) →
  ∃ os' d', dir_entries (length items) d os = (items, (os', d')) ∧ s2 = (os', ReadDir_new d').
Proof.
  induction 1 as [s|s r s1 rs s2 Ha _ IH]; intros d os ->; [by eexists _, _|].
  pose proof (dir_one_call d os) as Hd. simpl. destruct (std_dir_next d os) as [[d1 item] os1].
  destruct (proj1 Hd _ _ Ha) as [-> ->]. destruct (IH d1 os1 eq_refl) as (os' & d' & -> & ->). by eexists _, _.
Qed.

(** C33 Awaiting a function of the file system is one call of [std::fs], with nobody
    else using the file system meanwhile: the answer is that of the one call, with
    the kind of its error and the message of this crate; it is made when the future
    is polled, neither before nor twice, and however the polls of the task and the
    thread of the pool interleave; a poll that is pending has left the waker with the
    job.  A future that is dropped before it is polled has called nothing; once it
    has been polled, the call is made whether or not it is dropped.  The options
    of [open] and of [DirBuilder] are those when it was called.  A stream of directory
    entries gives the entries of the directory, one call each, in order. *)
Theorem fs_one_call (os : Os) (path to : Path) (contents : bytes) (d : Dir) (o : StdOpenOptions) (b : DirBuilder) :
  (let '(r, os') := std_read path os in
     one_call Call_poll finish_call (os, read path)
       (io_context r ("could not read file `" +:+ display path +:+ "`")) (os', Returned)) ∧
  (let '(r, os') := std_write path contents os in
     one_call Call_poll finish_call (os, write path contents)
       (io_context r ("could not write to file `" +:+ display path +:+ "`")) (os', Returned)) ∧
  (let '(r, os') := std_rename path to os in
     one_call Call_poll finish_call (os, rename path to)
       (io_context r ("could not rename " +:+ quoted path +:+ " to " +:+ quoted to)) (os', Returned)) ∧
  (let '(r, os') := std_open o path os in
     one_call open_poll finish_call (os, open o path)
       (match r with Ok f => Ok (File_new f true) | Err e => Err e end) (os', Returned)) ∧
  (let '(r, os') := std_dir_builder_create (db_recursive b) (db_mode b) path os in
     one_call Call_poll finish_call (os, create b path) r (os', Returned)) ∧
  (let '(r, os') := std_read_dir path os in
     one_call (read_dir_poll (Entry:=Entry)) finish_call (os, read_dir path)
       (dir_opened (Entry:=Entry) (io_context r ("could not read directory `" +:+ display path +:+ "`"))) (os', Returned)) ∧
  (let '(d', item, os') := std_dir_next d os in
     one_call ReadDir_poll_next finish_dir (os, ReadDir_new d) item (os', ReadDir_new d')) ∧
  (∀ items s, awaited_all ReadDir_poll_next finish_dir (os, ReadDir_new d) items s →
     ∃ os' d', dir_entries (length items) d os = (items, (os', d')) ∧ s = (os', ReadDir_new d')) ∧
  (∀ R (job : Os → R * Os),
     one_call Call_poll finish_call (os, Unresumed job) (job os).1 ((job os).2, Returned) ∧
     Call_drop (os, Unresumed job) = os ∧
     ∀ fast n p s w, Call_poll fast n (os, Unresumed job) = Done ((p, s), w) → Call_drop s = (job os).2).
Proof.
  split_and!.
  - pose proof (call_one_call (context (std_read path) ("could not read file " +:+ quoted path)) os) as Hc.
    unfold context in Hc. by destruct (std_read path os).
  - pose proof (call_one_call (context (std_write path contents) ("could not write to file " +:+ quoted path)) os) as Hc.
    unfold context in Hc. by destruct (std_write path contents os).
  - pose proof (call_one_call (context (std_rename path to) ("could not rename " +:+ quoted path +:+ " to " +:+ quoted to)) os) as Hc.
    unfold context in Hc. by destruct (std_rename path to os).
  - pose proof (mapped_one_call opened (std_open o path) os) as Hc. by destruct (std_open o path os).
  - pose proof (call_one_call (std_dir_builder_create (db_recursive b) (db_mode b) path) os) as Hc.
    by destruct (std_dir_builder_create _ _ path os).
  - pose proof (mapped_one_call (dir_opened (Os:=Os) (Entry:=Entry)) (context (std_read_dir path) ("could not read directory " +:+ quoted path)) os) as Hc.
    unfold context in Hc. by destruct (std_read_dir path os).
  - apply dir_one_call.
  - intros items s Ha. by eapply dir_awaited.
  - intros R job. split; [apply call_one_call|]. split; [done|]. intros [|] n p s w; simpl; [|by intros [= <- <- <-]].
    destruct (job os) as [r os']. by intros [= <- <- <-].
Qed.
End Fs.

(** * At a concrete file system *)

(** Files by name, that can be read and listed; a directory is the list of the names
    that are left. *)
Definition toy_find (path : string) (os : list (string * bytes)) : option bytes :=
  snd <$> List.find (λ e, String.eqb path e.1) os.
Definition toy_refuse {A : Type} (os : list (string * bytes)) : Result A Error * list (string * bytes) :=
  (Err (error_of (OtherKind 1)), os).

#[local] Instance toy_filesystem :
    Filesystem (list (string * bytes)) string nat (list string) string nat () () := {
  display path := path;
  std_canonicalize _ := toy_refuse;
  std_copy _ _ := toy_refuse;
  std_create_dir _ := toy_refuse;
  std_create_dir_all _ := toy_refuse;
  std_hard_link _ _ := toy_refuse;
  std_symlink _ _ := toy_refuse;
  std_metadata _ := toy_refuse;
  std_symlink_metadata _ := toy_refuse;
  std_read path os := (match toy_find path os with Some c => Ok c | None => Err (error_of (OtherKind 2)) end, os);
  std_read_to_string _ := toy_refuse;
  std_write path c os := (Ok (), (path, c) :: os);
  std_read_dir _ os := (Ok os.*1, os);
  std_dir_next d os := match d with e :: d => (d, Some (Ok e), os) | [] => ([], None, os) end;
  std_read_link _ := toy_refuse;
  std_remove_dir _ := toy_refuse;
  std_remove_dir_all _ := toy_refuse;
  std_remove_file _ := toy_refuse;
  std_rename _ _ := toy_refuse;
  std_set_permissions _ _ := toy_refuse;
  entry_path e := e;
  entry_file_name e := e;
  entry_ino _ := 0%N;
  std_entry_metadata _ := toy_refuse;
  std_entry_file_type _ := toy_refuse;
  std_file_metadata _ := toy_refuse;
  std_file_set_permissions _ _ := toy_refuse;
  std_dir_builder_create _ _ _ := toy_refuse;
  std_open _ _ := toy_refuse
}.

(** A file that is missing: the error has the name of the file, and its kind; and a
    directory of two files is read to its end. *)
Lemma fs_one_call_witness :
  one_call Call_poll finish_call ([], read "a"%string)
    (Err (mkError (OtherKind 2) "could not read file `a`")) ([], Returned) ∧
  ∀ os' d', awaited_all ReadDir_poll_next finish_dir ([], ReadDir_new ["a"; "b"]%string)
    [Some (Ok "a"%string); Some (Ok "b"%string); None] (os', d') → os' = [] ∧ d' = ReadDir_new [].
Proof.
  destruct (fs_one_call (Os:=list (string * bytes)) [] "a"%string "b"%string [] ["a"; "b"]%string OpenOptions_new DirBuilder_new)
    as (Hr & _ & _ & _ & _ & _ & _ & Hl & _).
  split; [exact Hr|]. intros os' d' Ha. destruct (Hl _ _ Ha) as (os2 & d2 & He & [= -> ->]).
  vm_compute in He. by injection He as <- <-.
Defined.
