(* ===== verification/Path.v ===== *)
(** Paths (src/src/path), on Unix: [Path] and [PathBuf] wrap those of the standard
    library, whose double-ended iterator over the components of a path is here with
    what [std::path] builds on it; the iterators of this crate, the asynchronous
    methods, and collecting a stream into a [PathBuf]. *)

From stdpp Require Import strings.
From Stdlib Require Import Strings.Byte.
From S2P Require Import Prelude Async Io Fs Collect.
Local Open Scope async_scope.

(** * std::path *)

(** A path is the bytes of an [OsStr]. *)
Abbreviation Path := bytes.
Definition slash : byte := x2f.
Definition dot : byte := x2e.
Definition is_sep (b : byte) : bool := bool_decide (b = slash).

Inductive Component : Type := RootDir | CurDir | ParentDir | Normal (s : bytes).
#[global] Instance Component_eq_dec : EqDecision Component.
Proof. solve_decision. Defined.

Definition Component_as_os_str (c : Component) : bytes :=
  match c with RootDir => [slash] | CurDir => [dot] | ParentDir => [dot; dot] | Normal s => s end.

Definition has_root (p : Path) : bool := match p with b :: _ => is_sep b | [] => false end.
Definition is_absolute (p : Path) : bool := has_root p.
Definition is_relative (p : Path) : bool := negb (is_absolute p).

(** Where an end of [std::path::Components] is; on Unix nothing has a prefix. *)
Inductive State : Type := Prefix | StartDir | Body | AtEnd.
#[global] Instance State_eq_dec : EqDecision State.
Proof. solve_decision. Defined.
Definition state_index (s : State) : nat :=
  match s with Prefix => 0 | StartDir => 1 | Body => 2 | AtEnd => 3 end.

Record Components : Type := mkComponents {
  path : bytes;
  has_physical_root : bool;
  front : State;
  back : State
}.

Definition components (p : Path) : Components := mkComponents p (has_root p) Prefix Body.

(** [None] is for what is skipped: nothing between two separators, and ["."]. *)
Definition parse_single_component (comp : bytes) : option Component :=
  if bool_decide (comp = [dot]) then None
  else if bool_decide (comp = [dot; dot]) then Some ParentDir
  else if bool_decide (comp = []) then None
  else Some (Normal comp).

(** [position(is_sep)] and what is before it. *)
Fixpoint before_sep (p : bytes) : bytes * bool :=
  match p with
  | [] => ([], false)
  | b :: p => if is_sep b then ([], true) else let '(s, found) := before_sep p in (b :: s, found)
  end.

(** The size of the next component, with its separator, and what it is. *)
Definition parse_next_component (p : bytes) : nat * option Component :=
  let '(comp, extra) := before_sep p in
  (length comp + (if extra : bool then 1 else 0), parse_single_component comp).

Definition include_cur_dir (c : Components) : bool :=
  if has_physical_root c then false
  else match path c with
       | b :: rest => bool_decide (b = dot) && match rest with [] => true | b :: _ => is_sep b end
       | [] => false
       end.

Definition len_before_body (c : Components) : nat :=
  (if (state_index (front c) <=? 1) && has_physical_root c then 1 else 0) +
  (if (state_index (front c) <=? 1) && include_cur_dir c then 1 else 0).

(** The same from the back, of what is after [start]. *)
Definition parse_next_component_back (c : Components) : nat * option Component :=
  let '(comp, extra) := before_sep (rev (drop (len_before_body c) (path c))) in
  (length comp + (if extra : bool then 1 else 0), parse_single_component (rev comp)).

Definition finished (c : Components) : bool :=
  (state_index (front c) =? 3) || (state_index (back c) =? 3) || (state_index (back c) <? state_index (front c)).

Definition set_path (p : bytes) (c : Components) : Components := mkComponents p (has_physical_root c) (front c) (back c).
Definition set_front (s : State) (c : Components) : Components := mkComponents (path c) (has_physical_root c) s (back c).
Definition set_back (s : State) (c : Components) : Components := mkComponents (path c) (has_physical_root c) (front c) s.

(** A round of the loops of [next] and [next_back]: [inl] when it goes round again. *)
Definition next_round (c : Components) : Components + (option Component * Components) :=
  if finished c then inr (None, c)
  else
    match front c with
    | Prefix => inl (set_front StartDir c)
    | StartDir =>
        let c := set_front Body c in
        if has_physical_root c then inr (Some RootDir, set_path (drop 1 (path c)) c)
        else if include_cur_dir c then inr (Some CurDir, set_path (drop 1 (path c)) c)
        else inl c
    | Body =>
        if bool_decide (path c = []) then inl (set_front AtEnd c)
        else
          let '(size, comp) := parse_next_component (path c) in
          let c := set_path (drop size (path c)) c in
          match comp with Some comp => inr (Some comp, c) | None => inl c end
    | AtEnd => inr (None, c)
    end.

Definition next_back_round (c : Components) : Components + (option Component * Components) :=
  if finished c then inr (None, c)
  else
    match back c with
    | Body =>
        if len_before_body c <? length (path c) then
          let '(size, comp) := parse_next_component_back c in
          let c := set_path (take (length (path c) - size) (path c)) c in
          match comp with Some comp => inr (Some comp, c) | None => inl c end
        else inl (set_back StartDir c)
    | StartDir =>
        let c := set_back Prefix c in
        if has_physical_root c then inr (Some RootDir, set_path (take (length (path c) - 1) (path c)) c)
        else if include_cur_dir c then inr (Some CurDir, set_path (take (length (path c) - 1) (path c)) c)
        else inl c
    | Prefix => inr (None, set_back AtEnd c)
    | AtEnd => inr (None, c)
    end.

(** Every round takes a byte or changes a state. *)
Fixpoint path_loop {A : Type} (round : Components → Components + A) (fuel : nat) (c : Components) : option A :=
  match fuel with
  | O => None
  | S fuel => match round c with inl c => path_loop round fuel c | inr r => Some r end
  end.
Definition rounds (c : Components) : nat := length (path c) + 4.

Definition std_next (c : Components) : option Component * Components :=
  default (None, c) (path_loop next_round (rounds c) c).
Definition std_next_back (c : Components) : option Component * Components :=
  default (None, c) (path_loop next_back_round (rounds c) c).

(** [trim_left] and [trim_right]. *)
Fixpoint trim_left (fuel : nat) (c : Components) : Components :=
  match fuel with
  | O => c
  | S fuel =>
      if bool_decide (path c = []) then c
      else
        let '(size, comp) := parse_next_component (path c) in
        match comp with Some _ => c | None => trim_left fuel (set_path (drop size (path c)) c) end
  end.
Fixpoint trim_right (fuel : nat) (c : Components) : Components :=
  match fuel with
  | O => c
  | S fuel =>
      if len_before_body c <? length (path c) then
        let '(size, comp) := parse_next_component_back c in
        match comp with
        | Some _ => c
        | None => trim_right fuel (set_path (take (length (path c) - size) (path c)) c)
        end
      else c
  end.

Definition std_as_path (c : Components) : Path :=
  let c := match front c with Body => trim_left (rounds c) c | _ => c end in
  let c := match back c with Body => trim_right (rounds c) c | _ => c end in
  path c.

(** ** [std::path::Path] *)

Definition parent (p : Path) : option Path :=
  let '(comp, comps) := std_next_back (components p) in
  match comp with
  | Some (Normal _) | Some CurDir | Some ParentDir => Some (std_as_path comps)
  | _ => None
  end.

Definition file_name (p : Path) : option bytes :=
  match (std_next_back (components p)).1 with Some (Normal s) => Some s | _ => None end.

(** [iter_after], on two iterators that are advanced with [nxt]. *)
Fixpoint iter_after (nxt : Components → option Component * Components) (fuel : nat) (iter prefix : Components) :
    option Components :=
  match fuel with
  | O => None
  | S fuel =>
      match nxt iter, nxt prefix with
      | (Some x, iter_next), (Some y, prefix) =>
          if bool_decide (x = y) then iter_after nxt fuel iter_next prefix else None
      | (_, _), (None, _) => Some iter
      | (None, _), (Some _, _) => None
      end
  end.

(** [None] is [Err(StripPrefixError)]. *)
Definition strip_prefix (p base : Path) : option Path :=
  std_as_path <$> iter_after std_next (S (length base + 2)) (components p) (components base).
Definition starts_with (p base : Path) : bool :=
  bool_decide (is_Some (iter_after std_next (S (length base + 2)) (components p) (components base))).
Definition ends_with (p child : Path) : bool :=
  bool_decide (is_Some (iter_after std_next_back (S (length child + 2)) (components p) (components child))).

(** [rsplitn(2, '.')]: what is after the last dot and what is before it, if there is
    one. *)
Fixpoint rsplit_dot (file : bytes) : option (bytes * bytes) :=
  match file with
  | [] => None
  | b :: file =>
      match rsplit_dot file with
      | Some (before, after) => Some (b :: before, after)
      | None => if bool_decide (b = dot) then Some ([], file) else None
      end
  end.
Definition rsplit_file_at_dot (file : bytes) : option bytes * option bytes :=
  if bool_decide (file = [dot; dot]) then (Some file, None)
  else match rsplit_dot file with
       | Some ([], _) => (Some file, None)
       | Some (before, after) => (Some before, Some after)
       | None => (None, Some file)
       end.
Definition file_stem (p : Path) : option bytes :=
  file ← file_name p;
  let '(before, after) := rsplit_file_at_dot file in
  match before with Some b => Some b | None => after end.
Definition extension (p : Path) : option bytes :=
  file ← file_name p;
  let '(before, after) := rsplit_file_at_dot file in
  match before with Some _ => after | None => None end.

(** ** [std::path::PathBuf] *)

Definition push_bytes (buf path : Path) : Path :=
  let need_sep := match list.last buf with Some b => negb (is_sep b) | None => false end in
  if is_absolute path then path
  else if need_sep then buf ++ slash :: path
  else buf ++ path.

Definition pop_bytes (buf : Path) : bool * Path :=
  match parent buf with
  | Some p => (true, take (length p) buf)
  | None => (false, buf)
  end.

Definition set_file_name_bytes (buf name : Path) : Path :=
  match file_name buf with
  | Some _ => push_bytes (pop_bytes buf).2 name
  | None => push_bytes buf name
  end.

Definition set_extension_bytes (buf ext : Path) : bool * Path :=
  match file_name buf with
  | None => (false, buf)
  | Some _ =>
      let stem := default [] (file_stem buf) in
      (true, set_file_name_bytes buf (match ext with [] => stem | _ => stem ++ dot :: ext end))
  end.

Definition join_bytes (p q : Path) : Path := push_bytes p q.

(** * path.rs *)

(** [Path] is [std]'s; the functions above are its methods of the same names. *)
Record PathBuf : Type := mkPathBuf { inner : Path }.

Definition Path_new (s : bytes) : Path := s.
Definition as_os_str (p : Path) : bytes := p.
Definition to_path_buf (p : Path) : PathBuf := mkPathBuf p.
Definition Path_join (p q : Path) : PathBuf := mkPathBuf (join_bytes p q).
Definition with_file_name (p : Path) (name : bytes) : PathBuf := mkPathBuf (set_file_name_bytes p name).
Definition with_extension (p : Path) (ext : bytes) : PathBuf := mkPathBuf (set_extension_bytes p ext).2.

(** ** Asynchronous methods *)

Section Methods.
Context {Os F Dir Entry Meta Perm FileType : Type}.
Context `{Filesystem Os Path F Dir Entry Meta Perm FileType}.
(** The methods of [std::fs::Metadata] that are used. *)
Context (meta_is_file meta_is_dir : Meta → bool).

Definition Path_metadata (p : Path) : Call Os (Result Meta Error) := metadata p.
Definition Path_symlink_metadata (p : Path) : Call Os (Result Meta Error) := symlink_metadata p.
Definition Path_canonicalize (p : Path) : Call Os (Result Path Error) := canonicalize p.
Definition Path_read_link (p : Path) : Call Os (Result Path Error) := read_link p.
Definition Path_read_dir (p : Path) : Call Os (Result Dir Error) := read_dir p.

(** [fs::metadata(self).await], and what is made of the answer. *)
Definition answer_poll (f : Result Meta Error → bool) (fast : bool) (fuel : nat) (this : Os * Call Os (Result Meta Error)) :
    Eff (Poll bool * (Os * Call Os (Result Meta Error))) :=
  '(r, this) ← Call_poll fast fuel this;
  mret (match r with Ready r => Ready (f r) | Pending => Pending end, this).

Definition exists_poll := answer_poll (λ r, match r with Ok _ => true | Err _ => false end).
Definition is_file_poll := answer_poll (λ r, match r with Ok m => meta_is_file m | Err _ => false end).
Definition is_dir_poll := answer_poll (λ r, match r with Ok m => meta_is_dir m | Err _ => false end).
End Methods.

(** * ancestors.rs, components.rs, iter.rs *)

Definition Ancestors : Type := option Path.
Definition ancestors (p : Path) : Ancestors := Some p.
Definition Ancestors_next (this : Ancestors) : option Path * Ancestors := (this, this ≫= parent).

Definition Components_next (this : Components) : option Component * Components := std_next this.
Definition Components_next_back (this : Components) : option Component * Components := std_next_back this.
Definition Components_as_path (this : Components) : Path := std_as_path this.

Record Iter : Type := mkIter { iter_inner : Components }.
Definition iter (p : Path) : Iter := mkIter (components p).
Definition Iter_next (this : Iter) : option bytes * Iter :=
  let '(c, inner) := Components_next (iter_inner this) in (Component_as_os_str <$> c, mkIter inner).
Definition Iter_next_back (this : Iter) : option bytes * Iter :=
  let '(c, inner) := Components_next_back (iter_inner this) in (Component_as_os_str <$> c, mkIter inner).
Definition Iter_as_path (this : Iter) : Path := Components_as_path (iter_inner this).

(** * pathbuf.rs *)

Definition PathBuf_new : PathBuf := mkPathBuf [].
Definition as_path (this : PathBuf) : Path := inner this.
Definition PathBuf_push (this : PathBuf) (p : Path) : PathBuf := mkPathBuf (push_bytes (inner this) p).
Definition PathBuf_pop (this : PathBuf) : bool * PathBuf :=
  let '(r, p) := pop_bytes (inner this) in (r, mkPathBuf p).
Definition set_file_name (this : PathBuf) (name : bytes) : PathBuf := mkPathBuf (set_file_name_bytes (inner this) name).
Definition set_extension (this : PathBuf) (ext : bytes) : bool * PathBuf :=
  let '(r, p) := set_extension_bytes (inner this) ext in (r, mkPathBuf p).
Definition into_os_string (this : PathBuf) : bytes := inner this.

(** [iter::Extend] and [FromIterator]. *)
Definition PathBuf_extend (this : PathBuf) (ps : list Path) : PathBuf := fold_left PathBuf_push ps this.
Definition PathBuf_from_iter (ps : list Path) : PathBuf := PathBuf_extend PathBuf_new ps.

(** [stream::Extend] and [FromStream]. *)
#[global] Instance PathBuf_Extend : Extend PathBuf Path := loop_Extend PathBuf_push.
#[global] Instance PathBuf_FromStream : FromStream PathBuf Path := extend_FromStream PathBuf_new.
