(* ===== verification/PathSpec.v ===== *)
(** What paths promise: a path is the list of its components, read from both ends,
    and the operations on paths are operations on that list. *)

From stdpp Require Import strings.
From Stdlib Require Import Strings.Byte.
From S2P Require Import Prelude Async Await Io Fs FsSpec Collect CollectSpec Path.
Local Open Scope async_scope.

(** * Components, by splitting *)

(** What is between separators. *)
Fixpoint pieces (p : bytes) : list bytes :=
  match p with
  | [] => [[]]
  | b :: p => if is_sep b then [] :: pieces p
              else match pieces p with s :: ss => (b :: s) :: ss | [] => [[b]] end
  end.

Definition body (p : bytes) : list Component := omap parse_single_component (pieces p).

Lemma pieces_cons p : ∃ s ss, pieces p = s :: ss.
Proof. destruct p as [|b p]; simpl; [by eauto|]. case_match; [by eauto|]. case_match; by eauto. Qed.

Lemma pieces_app p q : pieces (p ++ slash :: q) = pieces p ++ pieces q.
Proof.
  induction p as [|b p IH]; [done|]. simpl. rewrite IH. case_match; [done|].
  destruct (pieces_cons p) as (s & ss & ->). done.
Qed.

Definition plain (s : bytes) : Prop := Forall (λ b, is_sep b = false) s.

Lemma pieces_plain s : plain s → pieces s = [s].
Proof. induction 1 as [|b s Hb _ IH]; [done|]. simpl. by rewrite Hb, IH. Qed.

Lemma body_app p q : body (p ++ slash :: q) = body p ++ body q.
Proof. unfold body. by rewrite pieces_app, omap_app. Qed.

Lemma body_plain s : plain s → body s = option_list (parse_single_component s).
Proof. intros Hs. unfold body. rewrite pieces_plain by done. simpl. by destruct (parse_single_component s). Qed.

Lemma body_nil : body [] = [].
Proof. done. Qed.

(** ** One component *)

Lemma before_sep_spec p s (found : bool) :
  before_sep p = (s, found) → plain s ∧ (if found then ∃ q, p = s ++ slash :: q else p = s).
Proof.
  revert s found. induction p as [|b p IH]; intros s found; simpl.
  - intros [= <- <-]. split; [constructor|done].
  - destruct (is_sep b) eqn:Hb.
    + intros [= <- <-]. split; [constructor|]. unfold is_sep in Hb. apply bool_decide_eq_true in Hb as ->. by exists p.
    + destruct (before_sep p) as [s' found'] eqn:Hp. intros [= <- <-].
      destruct (IH _ _ eq_refl) as [Hs Hq]. split; [by constructor|].
      destruct found'; [destruct Hq as [q ->]; by exists q|by subst].
Qed.

Lemma parse_next_spec p size comp :
  parse_next_component p = (size, comp) → p ≠ [] →
  body p = option_list comp ++ body (drop size p) ∧ 0 < size ∧
  ∃ s, plain s ∧ comp = parse_single_component s ∧ take (length s) p = s ∧
    (drop (length s) p = [] ∨ ∃ q, drop (length s) p = slash :: q).
Proof.
  unfold parse_next_component. destruct (before_sep p) as [s found] eqn:Hb.
  intros [= <- <-] Hne. destruct (before_sep_spec _ _ _ Hb) as [Hs Hq]. destruct found.
  - destruct Hq as [q ->]. rewrite body_app, (body_plain s) by done.
    replace (drop (length s + 1) (s ++ slash :: q)) with q.
    2:{ rewrite drop_app_ge by lia. by replace (length s + 1 - length s) with 1 by lia. }
    split_and!; [done|lia|]. exists s. rewrite take_app_length, drop_app_length. by eauto 8.
  - subst p. rewrite Nat.add_0_r, drop_all, body_nil, app_nil_r. split_and!; [by apply body_plain| |].
    + destruct s; [done|simpl; lia].
    + exists s. rewrite take_ge, drop_all by lia. by eauto.
Qed.

Lemma plain_rev s : plain s → plain (rev s).
Proof. unfold plain. rewrite !list.Forall_forall. intros Hs b Hb. apply Hs.
  rewrite list_elem_of_In in Hb |- *. by apply in_rev.
Qed.

(** The same from the back. *)
Lemma parse_back_spec (b : bytes) s (found : bool) :
  before_sep (rev b) = (s, found) →
  let size := length s + (if found then 1 else 0) in
  (b ≠ [] → 0 < size) ∧ size ≤ length b ∧
  body b = body (take (length b - size) b) ++ option_list (parse_single_component (rev s)) ∧
  (take (length b - size) b = [] ∧ plain b ∨ ∃ q, b = take (length b - size) b ++ slash :: q).
Proof.
  intros Hb. destruct (before_sep_spec _ _ _ Hb) as [Hs%plain_rev Hq]. cbv zeta. destruct found.
  - destruct Hq as [q Hq]. apply (f_equal (@rev byte)) in Hq.
    rewrite rev_involutive, rev_app_distr in Hq. simpl in Hq. rewrite <- app_assoc in Hq. simpl in Hq.
    assert (length b = length (rev q) + S (length s)) as Hlen by (rewrite Hq, length_app; simpl; by rewrite !length_rev).
    replace (length b - (length s + 1)) with (length (rev q)) by lia.
    assert (take (length (rev q)) b = rev q) as -> by (rewrite Hq; apply take_app_length).
    split_and!; [lia|lia| |].
    + by rewrite Hq, body_app, (body_plain (rev s)).
    + right. by exists (rev s).
  - apply (f_equal (@rev byte)) in Hq. rewrite rev_involutive in Hq. subst b.
    rewrite length_rev, Nat.add_0_r, Nat.sub_diag. simpl. split_and!; [|done| |by left].
    + destruct s; [done|simpl; lia].
    + by rewrite body_plain.
Qed.

(** * The iterator is a deque *)

(** The component that a path begins with. *)
Definition start (c : Components) : list Component :=
  if has_physical_root c then [RootDir] else if include_cur_dir c then [CurDir] else [].

(** The states that [next] and [next_back] lead to, and the components left. *)
Definition wf (c : Components) : Prop :=
  match front c, back c with
  | (Prefix | StartDir), Body => has_physical_root c = has_root (path c)
  | (Prefix | StartDir), StartDir => has_physical_root c = has_root (path c) ∧ length (path c) ≤ len_before_body c
  | Body, Body => True
  | _, _ => path c = []
  end.

Definition left (c : Components) : list Component :=
  match front c, back c with
  | (Prefix | StartDir), Body => start c ++ body (drop (len_before_body c) (path c))
  | (Prefix | StartDir), StartDir => start c
  | Body, Body => body (path c)
  | _, _ => []
  end.

Definition next_left (c : Components) : nat := length (path c) + (3 - state_index (front c)).
Definition back_left (c : Components) : nat := length (path c) + state_index (back c).

Lemma sep_true b : is_sep b = true ↔ b = slash.
Proof. apply bool_decide_eq_true. Qed.

(** What the start takes: a separator, or a dot before one. *)
Lemma body_slash r : body (slash :: r) = body r.
Proof. done. Qed.

Lemma include_cur_spec c :
  include_cur_dir c = true ↔ has_physical_root c = false ∧ (path c = [dot] ∨ ∃ r, path c = dot :: slash :: r).
Proof.
  unfold include_cur_dir. destruct c as [p hr f bk]. simpl. destruct hr.
  - split; [done|by intros []].
  - destruct p as [|a r]; [split; [done|intros (_ & [|[]]); done]|].
    rewrite andb_true_iff, bool_decide_eq_true. destruct r as [|b r]; [naive_solver|].
    rewrite sep_true. naive_solver.
Qed.

Lemma cur_body c : include_cur_dir c = true → body (drop 1 (path c)) = body (path c).
Proof. intros (_ & [->|[r ->]])%include_cur_spec; done. Qed.

Lemma body_root p : has_root p = true → body (drop 1 p) = body p.
Proof. destruct p as [|b p]; [done|]. simpl. by intros ->%sep_true. Qed.

Lemma start_body c :
  has_physical_root c = has_root (path c) → state_index (front c) ≤ 1 →
  body (drop (len_before_body c) (path c)) = body (path c) ∧
  len_before_body c = length (start c) ∧ len_before_body c ≤ length (path c).
Proof.
  intros Hr Hf. unfold len_before_body, start. rewrite (proj2 (Nat.leb_le _ _) Hf). simpl.
  destruct (has_physical_root c) eqn:Hp.
  - assert (include_cur_dir c = false) as -> by by unfold include_cur_dir; rewrite Hp.
    symmetry in Hr. simpl. split_and!; [by apply body_root|done|]. destruct (path c); [done|simpl; lia].
  - destruct (include_cur_dir c) eqn:Hc; simpl; [|split_and!; [done|done|lia]].
    split_and!; [by apply cur_body|done|]. apply include_cur_spec in Hc as (_ & [->|[r ->]]); simpl; lia.
Qed.

Lemma next_round_ok c :
  wf c →
  match next_round c with
  | inl c' => wf c' ∧ left c' = left c ∧ next_left c' < next_left c
  | inr (x, c') => wf c' ∧ x = head (left c) ∧ left c' = list.tail (left c)
  end.
Proof.
  destruct c as [p hr f bk]. destruct f, bk; intros Hw; unfold next_round, finished; simpl; try by split_and!.
  all: try by (unfold next_left; simpl; split_and!; try done; lia).
  - (* StartDir, StartDir *)
    destruct Hw as [Hr Hl]. simpl in Hr, Hl.
    destruct (start_body (mkComponents p hr StartDir StartDir)) as (_ & Hs & _); [done|simpl; lia|].
    rewrite Hs in Hl. unfold left, start in *. simpl in *. unfold include_cur_dir in *. simpl in *.
    destruct hr; simpl in *; [split_and!; [|done..]; unfold wf; simpl; destruct p as [|? [|]]; simpl in *; done || lia|].
    destruct (match p with [] => false | _ => _ end) eqn:Hc; simpl in *.
    + split_and!; [|done..]. unfold wf. simpl. destruct p as [|? [|]]; simpl in *; done || lia.
    + unfold next_left. simpl. split_and!; [|done|lia]. unfold wf. simpl. destruct p; simpl in *; done || lia.
  - (* StartDir, Body *)
    simpl in Hw. destruct (start_body (mkComponents p hr StartDir Body)) as (Hb & _ & _); [done|simpl; lia|].
    unfold left. simpl front. simpl back. cbv iota. rewrite Hb. unfold start. simpl. unfold include_cur_dir. simpl.
    destruct hr; simpl; [split_and!; [done..|]; by apply body_root|].
    destruct (match p with [] => false | _ => _ end) eqn:Hc; simpl.
    + split_and!; [done..|]. apply (cur_body (mkComponents p false StartDir Body)). exact Hc.
    + unfold next_left. simpl. split_and!; [done|done|lia].
  - (* Body, Body *)
    case_bool_decide as Hp; simpl; [by subst; unfold next_left; simpl; split_and!; [done|done|lia]|].
    destruct (parse_next_component p) as [size comp] eqn:Hn.
    destruct (parse_next_spec _ _ _ Hn Hp) as (Hb & Hsz & _). unfold left. simpl. rewrite Hb.
    destruct comp as [comp|]; simpl; [by split_and!|]. unfold next_left. simpl. rewrite length_drop.
    split_and!; [done|done|]. destruct p; [done|simpl; lia].
Qed.

(** Bytes taken from the end leave the start as it is. *)
Lemma start_take c n :
  has_physical_root c = has_root (path c) → state_index (front c) ≤ 1 → len_before_body c ≤ n →
  (include_cur_dir c = false → has_root (path c) = false → take n (path c) = [] ∨ ∃ q, path c = take n (path c) ++ slash :: q) →
  let c' := set_path (take n (path c)) c in
  has_physical_root c' = has_root (path c') ∧ start c' = start c ∧ len_before_body c' = len_before_body c.
Proof.
  intros Hr Hf Hn Hq. cbv zeta. unfold len_before_body in Hn.
  rewrite (proj2 (Nat.leb_le _ _) Hf), Hr in Hn. simpl in Hn.
  assert (has_root (take n (path c)) = has_root (path c)) as Hroot.
  { destruct (path c) as [|b p]; [by destruct n|]. destruct n; [|done]. simpl in *. destruct (is_sep b); [lia|done]. }
  assert (include_cur_dir (set_path (take n (path c)) c) = include_cur_dir c) as Hcur.
  { destruct (include_cur_dir c) eqn:Hc.
    - apply include_cur_spec in Hc as [Hp Hpath]. apply include_cur_spec. simpl. split; [done|].
      destruct n as [|n]; [lia|]. destruct Hpath as [->|[r ->]]; simpl; [destruct n; by left|].
      destruct n; [by left|right; by eexists].
    - destruct (include_cur_dir (set_path _ c)) eqn:Hc'; [|done]. exfalso.
      apply include_cur_spec in Hc' as [Hp Hpath]. simpl in *.
      destruct Hq as [Hq|[q Hq]]; [done|congruence| |]; [rewrite Hq in Hpath; destruct Hpath as [|[]]; done|].
      assert (include_cur_dir c = true); [|congruence]. apply include_cur_spec. split; [done|].
      right. destruct Hpath as [Ht|[r Ht]]; rewrite Ht in Hq; rewrite Hq; by eexists. }
  split_and!; [simpl; by rewrite Hr, Hroot| |].
  - unfold start. by rewrite Hcur.
  - unfold len_before_body. by rewrite Hcur.
Qed.

Lemma back_body c size comp :
  wf c → back c = Body → len_before_body c < length (path c) → parse_next_component_back c = (size, comp) →
  let c' := set_path (take (length (path c) - size) (path c)) c in
  wf c' ∧ left c = left c' ++ option_list comp ∧ 0 < size ∧ size ≤ length (path c) ∧
    (front c = Body → path c' = [] ∨ ∃ q, path c = path c' ++ slash :: q).
Proof.
  intros Hw Hbk Hlt. unfold parse_next_component_back.
  destruct (before_sep _) as [s found] eqn:Hb. intros [= <- <-]. cbv zeta.
  set (b := drop (len_before_body c) (path c)) in *.
  assert (length b = length (path c) - len_before_body c) as Hlen by apply length_drop.
  destruct (parse_back_spec b s found Hb) as (Hpos & Hle & Hbody & Hq).
  set (size := length s + (if found then 1 else 0)) in *.
  assert (b ≠ []) as Hne by (intros Hz; rewrite Hz in Hlen; simpl in Hlen; lia).
  assert (drop (len_before_body c) (take (length (path c) - size) (path c)) = take (length b - size) b) as Hdrop.
  { unfold b at 2. rewrite take_drop_commute. f_equal. f_equal. lia. }
  assert (state_index (front c) ≤ 1 → has_physical_root c = has_root (path c) →
    has_physical_root (set_path (take (length (path c) - size) (path c)) c) = has_root (take (length (path c) - size) (path c)) ∧
    start (set_path (take (length (path c) - size) (path c)) c) = start c ∧
    len_before_body (set_path (take (length (path c) - size) (path c)) c) = len_before_body c) as Hstart.
  { intros Hf Hr. apply start_take; [done|done|lia|]. intros Hcur Hroot.
    assert (len_before_body c = 0) as H0 by (unfold len_before_body; by rewrite Hr, Hroot, Hcur, !andb_false_r).
    unfold b in Hq. rewrite H0 in Hq. simpl in Hq. destruct Hq as [[Hq _]|[q Hq]]; [by left|right; by exists q]. }
  destruct c as [p hr f bk]. simpl in *. subst bk. unfold wf, left in *. simpl in *.
  destruct f; simpl in *; try (exfalso; rewrite Hw in Hlt; simpl in Hlt; lia).
  1,2: destruct (Hstart ltac:(lia) Hw) as (H1 & H2 & H3); unfold set_path in *; simpl in *;
    rewrite H2, H3, Hdrop; fold b; rewrite Hbody, app_assoc; split_and!; [done|done|by apply Hpos|lia|done].
  split_and!; [done|exact Hbody|by apply Hpos|lia|]. intros _. destruct Hq as [[Hq _]|[q Hq]]; [by left|right; by exists q].
Qed.

Lemma back_round_ok c :
  wf c →
  match next_back_round c with
  | inl c' => wf c' ∧ left c' = left c ∧ back_left c' < back_left c ∧ path c' `prefix_of` path c
  | inr (x, c') => wf c' ∧ left c = left c' ++ option_list x ∧ path c' `prefix_of` path c ∧ (x = None → left c = [])
  end.
Proof.
  intros Hw. unfold next_back_round. destruct (finished c) eqn:Hfin.
  { destruct c as [p hr f bk]. rewrite app_nil_r. destruct f, bk; done || by split_and!. }
  destruct (back c) eqn:Hbk.
  - destruct c as [p hr f bk]. simpl in *. subst bk.
    by destruct f.
  - destruct c as [p hr f bk]. simpl in *. subst bk.
    assert (state_index f ≤ 1 → length p ≤ length (start (mkComponents p hr f StartDir)) ∧ hr = has_root p) as Hs.
    { intros Hf. destruct f; simpl in Hf; try lia; destruct Hw as [Hr Hl]; simpl in *;
        (destruct (start_body (mkComponents p hr Prefix StartDir)) as (_ & Hs & _); [done|simpl; lia|]);
        (split; [|done]); unfold start, len_before_body, include_cur_dir in *; simpl in *; lia. }
    destruct f; try done; destruct (Hs ltac:(simpl; lia)) as [Hl Hr]; clear Hs; unfold start in Hl; unfold left, start; simpl in *;
      unfold include_cur_dir in *; simpl in *;
      (destruct hr; [|destruct (match p with [] => false | _ => _ end)]); simpl in *; unfold wf, back_left; simpl;
      (split_and!; [destruct p as [|? [|]]; simpl in *; done || lia|done|try lia; try done|try done]);
      try apply prefix_take; try done.
  - destruct (Nat.ltb_spec (len_before_body c) (length (path c))) as [Hlt|Hge].
    + destruct (parse_next_component_back c) as [size comp] eqn:Hp.
      destruct (back_body c size comp Hw Hbk Hlt Hp) as (Hw' & Hl & Hpos & Hle & _).
      destruct comp as [comp|]; simpl in Hl; [split_and!; [done|done|apply prefix_take|done]|].
      rewrite app_nil_r in Hl. unfold back_left. simpl. rewrite length_take. split_and!; [done|done|lia|apply prefix_take].
    + destruct c as [p hr f bk]. simpl in *. subst bk. unfold wf, left, back_left in *. simpl in *.
      destruct f; simpl in *; try done.
      1,2: rewrite drop_ge, body_nil, app_nil_r by done; split_and!; first [done|exact Hge|lia].
      assert (p = []) as -> by (unfold len_before_body in Hge; destruct p; simpl in *; done || lia). split_and!; first [done|exact Hge|lia].
  - destruct c as [p hr f bk]. simpl in *. by subst bk; destruct f.
Qed.

Lemma path_loop_ok {A} (round : Components → Components + A) (measure : Components → nat) (post : Components → A → Prop) :
  (∀ c, wf c → match round c with
     | inl c' => wf c' ∧ measure c' < measure c ∧ ∀ r, post c' r → post c r
     | inr r => post c r
     end) →
  ∀ fuel c, wf c → measure c < fuel → ∃ r, path_loop round fuel c = Some r ∧ post c r.
Proof.
  intros Hround fuel. induction fuel as [|fuel IH]; intros c Hw Hm; [lia|]. simpl.
  specialize (Hround c Hw). destruct (round c) as [c'|r]; [|by exists r].
  destruct Hround as (Hw' & Hlt & Hpost). destruct (IH c' Hw') as (r & Hr & Hp); [lia|]. exists r. auto.
Qed.

Lemma next_ok c :
  wf c → ∃ c', std_next c = (head (left c), c') ∧ wf c' ∧ left c' = list.tail (left c).
Proof.
  intros Hw. destruct (path_loop_ok next_round next_left (λ c r, r.1 = head (left c) ∧ wf r.2 ∧ left r.2 = list.tail (left c))
    ) with (fuel := rounds c) (c := c) as ([x c'] & Hr & Hx & Hw' & Hl); [|done|unfold next_left, rounds; lia|].
  - intros c0 Hw0. pose proof (next_round_ok c0 Hw0) as Hn. destruct (next_round c0) as [c1|[x c1]].
    + destruct Hn as (Hw1 & Hl & Hm). split_and!; [done|done|]. by rewrite Hl.
    + simpl. naive_solver.
  - exists c'. unfold std_next. rewrite Hr. simpl in *. by rewrite Hx.
Qed.

Lemma next_back_ok c :
  wf c → ∃ x c', std_next_back c = (x, c') ∧ wf c' ∧ left c = left c' ++ option_list x ∧
    path c' `prefix_of` path c ∧ (x = None → left c = []) ∧ front c' = front c.
Proof.
  intros Hw. destruct (path_loop_ok next_back_round back_left
    (λ c r, wf r.2 ∧ left c = left r.2 ++ option_list r.1 ∧ path r.2 `prefix_of` path c ∧ (r.1 = None → left c = []) ∧
       front r.2 = front c)
    ) with (fuel := rounds c) (c := c) as ([x c'] & Hr & Hp); [|done| |].
  - intros c0 Hw0. pose proof (back_round_ok c0 Hw0) as Hn.
    assert (match next_back_round c0 with inl c1 => front c1 = front c0 | inr (_, c1) => front c1 = front c0 end) as Hf.
    { unfold next_back_round. repeat case_match; simplify_eq; done. }
    destruct (next_back_round c0) as [c1|[x c1]]; [|simpl; naive_solver].
    destruct Hn as (Hw1 & Hl & Hm & Hpre). split_and!; [done|done|].
    rewrite Hl, <- Hf. intros [x c2] (H1 & H2 & H3 & H4 & H5). split_and!; [done..|by etrans|done|done].
  - unfold back_left, rounds. destruct (back c); simpl; lia.
  - exists x, c'. unfold std_next_back. by rewrite Hr.
Qed.

(** * The components of a path *)

Definition comps (p : Path) : list Component := left (components p).

Lemma components_wf p : wf (components p).
Proof. done. Qed.

Lemma comps_eq p : comps p = start (components p) ++ body p.
Proof.
  unfold comps, left. simpl. destruct (start_body (components p)) as [Hb _]; [done|simpl; lia|].
  simpl in Hb. by rewrite Hb.
Qed.

(** A path that begins with a component of its body has no start. *)
Definition clean (p : bytes) : Prop := p = [] ∨ ∃ s ss c, pieces p = s :: ss ∧ parse_single_component s = Some c.

Lemma clean_comps p : clean p → comps p = body p.
Proof.
  intros Hp. rewrite comps_eq. destruct Hp as [->|(s & ss & c & Hs & Hc)]; [done|].
  unfold start. simpl. destruct (has_root p) eqn:Hr.
  - destruct p as [|b p]; [done|]. simpl in *. rewrite Hr in Hs. injection Hs as <- <-. done.
  - destruct (include_cur_dir (components p)) eqn:Hcur; [|done]. exfalso.
    apply include_cur_spec in Hcur as (_ & [Hp|[r Hp]]); simpl in Hp; subst p; simpl in Hs; injection Hs as <- <-; done.
Qed.

Lemma clean_prefix p q p' : clean p → p = p' ++ slash :: q → clean p'.
Proof.
  intros [->|(s & ss & c & Hs & Hc)] Hp; [by destruct p'|]. subst p. rewrite pieces_app in Hs.
  destruct (pieces_cons p') as (s' & ss' & Hs'). rewrite Hs' in Hs. simpl in Hs. injection Hs as -> <-.
  right. by exists s, ss', c.
Qed.

Lemma trim_left_ok fuel c :
  front c = Body → length (path c) < fuel →
  let c' := trim_left fuel c in
  body (path c') = body (path c) ∧ clean (path c') ∧ front c' = Body ∧ back c' = back c ∧
  (path c = [] → path c' = []).
Proof.
  intros Hf. revert c Hf. induction fuel as [|fuel IH]; intros c Hf Hlt; [lia|]. simpl.
  case_bool_decide as Hp; [split_and!; try done; by left|].
  destruct (parse_next_component (path c)) as [size comp] eqn:Hn.
  destruct (parse_next_spec _ _ _ Hn Hp) as (Hb & Hpos & s & Hs & Hc & Ht & Hd).
  destruct comp as [comp|].
  - split_and!; [done| |done|done|done]. right. exists s.
    rewrite <- (take_drop (length s) (path c)), Ht.
    destruct Hd as [->|[q ->]].
    + rewrite app_nil_r, pieces_plain by done. by eexists _, _.
    + rewrite pieces_app, pieces_plain by done. by eexists _, _.
  - destruct (IH (set_path (drop size (path c)) c)) as (H1 & H2 & H3 & H4 & _); [done| |].
    { simpl. rewrite length_drop. destruct (path c); [done|simpl in *; lia]. }
    simpl in H1. split_and!; [by rewrite H1, Hb|done|done|done|done].
Qed.

Lemma trim_right_ok fuel c :
  wf c → back c = Body →
  let c' := trim_right fuel c in
  wf c' ∧ left c' = left c ∧ front c' = front c ∧ back c' = Body ∧ path c' `prefix_of` path c ∧
  (front c = Body → clean (path c) → clean (path c')).
Proof.
  revert c. induction fuel as [|fuel IH]; intros c Hw Hb; [by split_and!|]. simpl.
  destruct (Nat.ltb_spec (len_before_body c) (length (path c))) as [Hlt|Hge]; [|by split_and!].
  destruct (parse_next_component_back c) as [size comp] eqn:Hp.
  destruct (back_body c size comp Hw Hb Hlt Hp) as (Hw' & Hl & Hpos & Hle & Hq).
  destruct comp as [comp|]; [by split_and!|]. simpl in Hl. rewrite app_nil_r in Hl.
  destruct (IH _ Hw' Hb) as (H1 & H2 & H3 & H4 & H5 & H6). split_and!; [done|by rewrite H2|done|done| |].
  - etrans; [exact H5|]. apply prefix_take.
  - intros Hf Hcl. apply H6; [done|]. destruct (Hq Hf) as [Hz|[q Hz]]; [left; exact Hz|].
    by eapply clean_prefix.
Qed.

Lemma front_comps c : has_physical_root c = has_root (path c) → comps (path c) = start c ++ body (path c).
Proof.
  intros Hr. rewrite comps_eq. f_equal. unfold start, include_cur_dir. simpl. by rewrite Hr.
Qed.

Lemma left_front c :
  wf c → front c ≠ Body → back c = Body ∨ back c = StartDir → front c ≠ AtEnd → comps (path c) = left c.
Proof.
  intros Hw Hf Hb Ha.
  assert (has_physical_root c = has_root (path c) ∧ state_index (front c) ≤ 1) as [Hr Hs].
  { unfold wf in Hw. destruct (front c), (back c); simpl; naive_solver lia. }
  rewrite front_comps by done. destruct (start_body c Hr Hs) as (Hbody & Hl & _). rewrite <- Hbody.
  unfold wf, left in *. destruct (front c), (back c); try done; try (by destruct Hb); simpl in *.
  all: rewrite drop_ge, body_nil, app_nil_r; [done|]; by destruct Hw.
Qed.

Lemma comps_nil : comps [] = [].
Proof. done. Qed.

(** [as_path] is a path with the components that are left. *)
Lemma as_path_ok c : wf c → comps (std_as_path c) = left c ∧ (front c ≠ Body → std_as_path c `prefix_of` path c).
Proof.
  intros Hw. unfold std_as_path. destruct (decide (front c = Body)) as [Hf|Hf].
  - rewrite Hf. split; [|done].
    destruct (trim_left_ok (rounds c) c Hf) as (Hb & Hc & Hf' & Hbk & Hnil); [unfold rounds; lia|].
    set (c1 := trim_left (rounds c) c) in *. destruct (decide (back c = Body)) as [Hb2|Hb2].
    + rewrite Hbk, Hb2. assert (wf c1) as Hw1 by (unfold wf; by rewrite Hf', Hbk, Hb2).
      destruct (trim_right_ok (rounds c1) c1 Hw1) as (H1 & H2 & H3 & H4 & _ & H6); [by rewrite Hbk|].
      rewrite clean_comps by by apply H6.
      unfold left in H2. rewrite H3, H4, Hf', Hbk, Hb2 in H2. rewrite H2, Hb. unfold left. by rewrite Hf, Hb2.
    + assert (path c = []) as Hp by (unfold wf in Hw; rewrite Hf in Hw; by destruct (back c)).
      assert (left c = []) as -> by (unfold left; rewrite Hf; by destruct (back c)).
      rewrite Hbk. destruct (back c); rewrite ?Hnil by done; done.
  - assert ((match front c with Body => trim_left (rounds c) c | _ => c end) = c) as -> by by destruct (front c).
    assert (path c = [] → left c = [] → ∀ c', path c' `prefix_of` path c → comps (path c') = left c) as Hnil.
    { intros -> -> c' ->%prefix_nil_inv. done. }
    destruct (back c) eqn:Hb.
    + split; [|done]. unfold wf, left in *. rewrite Hb in *. by destruct (front c); auto.
    + split; [|done]. destruct (decide (front c = AtEnd)) as [Ha|Ha]; [|by apply left_front; auto].
      unfold wf, left in *. rewrite Ha in *. auto.
    + destruct (trim_right_ok (rounds c) c Hw Hb) as (H1 & H2 & H3 & H4 & H5 & _).
      split; [|done]. destruct (decide (front c = AtEnd)) as [Ha|Ha].
      * apply Hnil; [by unfold wf in Hw; rewrite Ha in Hw|by unfold left; rewrite Ha|done].
      * rewrite <- H2. apply left_front; rewrite ?H3; auto.
    + split; [|done]. unfold wf, left in *. rewrite Hb in *. by destruct (front c); auto.
Qed.

(** * Reading paths *)

Lemma back_comps p : ∃ x c',
  std_next_back (components p) = (x, c') ∧ comps p = comps (std_as_path c') ++ option_list x ∧
  std_as_path c' `prefix_of` p ∧ (x = None → comps p = []).
Proof.
  destruct (next_back_ok (components p) (components_wf p)) as (x & c' & Hx & Hw & Hl & Hp & Hn & Hf).
  destruct (as_path_ok c' Hw) as [Hc Hpre]. exists x, c'. split_and!; [done|by rewrite Hc| |done].
  etrans; [apply Hpre; by rewrite Hf|exact Hp].
Qed.

Lemma parse_root s : parse_single_component s ≠ Some RootDir ∧ parse_single_component s ≠ Some CurDir.
Proof. unfold parse_single_component. repeat case_bool_decide; done. Qed.

Lemma body_not_root p : (RootDir ∉ body p) ∧ (CurDir ∉ body p).
Proof.
  unfold body. split; intros (s & _ & Hs)%list_elem_of_omap; by destruct (parse_root s).
Qed.

(** The root is the first component. *)
Lemma root_first p l : comps p = l ++ [RootDir] → l = [].
Proof.
  rewrite comps_eq. unfold start. destruct (body_not_root p) as [Hr _].
  assert (∀ l', body p = l' ++ [RootDir] → l = []) as Hno.
  { intros l' Hb. destruct Hr. rewrite Hb. apply elem_of_app. right. by left. }
  simpl. destruct (has_root p); [|destruct (include_cur_dir _)]; simpl; destruct l as [|x l]; try done.
  - intros [= _ Hb]. by apply (Hno l).
  - intros [= _ Hb]. by apply (Hno l).
  - intros Hb. by apply (Hno (x :: l)).
Qed.

Lemma parent_ok p :
  match parent p with
  | Some q => q `prefix_of` p ∧ ∃ x, x ≠ RootDir ∧ comps p = comps q ++ [x]
  | None => comps p = [] ∨ comps p = [RootDir]
  end.
Proof.
  unfold parent. destruct (back_comps p) as (x & c' & -> & Hc & Hp & Hn).
  destruct x as [x|]; [|left; by apply Hn].
  destruct x; simpl in Hc; [right; pose proof (root_first _ _ Hc) as Hz; by rewrite Hc, Hz|..].
  all: split; [done|]; eexists; (split; [|exact Hc]); done.
Qed.

Lemma file_name_ok p :
  file_name p = match list.last (comps p) with Some (Normal s) => Some s | _ => None end.
Proof.
  unfold file_name. destruct (back_comps p) as (x & c' & -> & Hc & _ & Hn). simpl.
  destruct x as [x|]; [|by rewrite Hn]. rewrite Hc. simpl. by rewrite last_snoc.
Qed.

(** Two iterators, advanced together. *)
Lemma iter_after_front fuel c b :
  wf c → wf b → length (left b) < fuel →
  match iter_after std_next fuel c b with
  | Some c' => wf c' ∧ left c = left b ++ left c'
  | None => ¬ left b `prefix_of` left c
  end.
Proof.
  revert c b. induction fuel as [|fuel IH]; intros c b Hc Hb Hlt; [lia|]. simpl.
  destruct (next_ok c Hc) as (c' & -> & Hc' & Hlc). destruct (next_ok b Hb) as (b' & -> & Hb' & Hlb).
  destruct (left c) as [|x lc] eqn:Ec, (left b) as [|y lb] eqn:Eb; simpl in *.
  - by rewrite Ec.
  - intros [k Hk]. done.
  - by rewrite Ec.
  - case_bool_decide as Hxy.
    + subst y. specialize (IH c' b' Hc' Hb'). rewrite Hlc, Hlb in IH.
      destruct (iter_after _ _ _ _) as [r|]; [destruct IH as [? ->]; [lia|done]|].
      intros Hp%prefix_cons_inv_2. apply IH; [lia|done].
    + by intros Hp%prefix_cons_inv_1.
Qed.

Lemma iter_after_back fuel c b :
  wf c → wf b → length (left b) < fuel →
  match iter_after std_next_back fuel c b with
  | Some c' => left b `suffix_of` left c
  | None => ¬ left b `suffix_of` left c
  end.
Proof.
  revert c b. induction fuel as [|fuel IH]; intros c b Hc Hb Hlt; [lia|]. simpl.
  destruct (next_back_ok c Hc) as (x & c' & -> & Hc' & Hlc & _ & Hnc & _).
  destruct (next_back_ok b Hb) as (y & b' & -> & Hb' & Hlb & _ & Hnb & _).
  destruct x as [x|], y as [y|]; simpl in *.
  - rewrite Hlc, Hlb in *. rewrite length_app in Hlt. simpl in Hlt. case_bool_decide as Hxy.
    + subst y. specialize (IH c' b' Hc' Hb' ltac:(lia)). destruct (iter_after _ _ _ _) as [r|].
      * destruct IH as [k ->]. exists k. by rewrite app_assoc.
      * intros Hs%suffix_snoc_inv_2. done.
    + by intros Hs%suffix_snoc_inv_1.
  - rewrite Hnb by done. apply suffix_nil.
  - rewrite Hnc by done. rewrite Hlb. intros [k Hk]. by destruct k, (left b').
  - rewrite Hnb by done. apply suffix_nil.
Qed.

Lemma length_comps p : length (comps p) ≤ length p + 2.
Proof.
  assert (length (pieces p) ≤ length p + 1) as Hp.
  { induction p as [|b p IH]; simpl; [lia|]. case_match; simpl; [lia|].
    destruct (pieces_cons p) as (s & ss & Hs). rewrite Hs in *. simpl in *. lia. }
  assert (length (body p) ≤ length (pieces p)) as Hb.
  { unfold body. generalize (pieces p). intros ss. induction ss as [|s ss IH]; csimpl; [done|]. case_match; csimpl; lia. }
  rewrite comps_eq, length_app. unfold start. repeat case_match; simpl; lia.
Qed.

Lemma strip_prefix_ok p base :
  match strip_prefix p base with
  | Some r => comps p = comps base ++ comps r
  | None => ¬ comps base `prefix_of` comps p
  end.
Proof.
  unfold strip_prefix. pose proof (length_comps base).
  pose proof (iter_after_front (S (length base + 2)) (components p) (components base)
    (components_wf p) (components_wf base)) as Hi.
  destruct (iter_after _ _ _ _) as [c|]; simpl.
  - destruct Hi as [Hw Hl]; [unfold comps in *; lia|]. by rewrite (proj1 (as_path_ok c Hw)).
  - apply Hi. unfold comps in *. lia.
Qed.

Lemma starts_with_ok p base : starts_with p base = bool_decide (comps base `prefix_of` comps p).
Proof.
  pose proof (strip_prefix_ok p base) as Hs. unfold strip_prefix, starts_with in *.
  destruct (iter_after _ _ _ _) as [c|]; simpl in Hs; symmetry.
  - apply bool_decide_eq_true_2. by eexists.
  - by apply bool_decide_eq_false_2.
Qed.

Lemma ends_with_ok p child : ends_with p child = bool_decide (comps child `suffix_of` comps p).
Proof.
  unfold ends_with. pose proof (length_comps child).
  pose proof (iter_after_back (S (length child + 2)) (components p) (components child)
    (components_wf p) (components_wf child)) as Hi.
  destruct (iter_after _ _ _ _) as [c|]; symmetry.
  - apply bool_decide_eq_true_2. apply Hi. unfold comps in *. lia.
  - apply bool_decide_eq_false_2. apply Hi. unfold comps in *. lia.
Qed.

(** ** From both ends *)

(** Takes from the front ([true]) or from the back. *)
Fixpoint takes (ends : list bool) (c : Components) : list (option Component) * Components :=
  match ends with
  | [] => ([], c)
  | e :: ends =>
      let '(x, c) := if e : bool then Components_next c else Components_next_back c in
      let '(xs, c) := takes ends c in
      (x :: xs, c)
  end.

(** The same of a list. *)
Fixpoint list_takes (ends : list bool) (l : list Component) : list (option Component) * list Component :=
  match ends with
  | [] => ([], l)
  | e :: ends =>
      let '(x, l) := if e : bool then (head l, list.tail l) else (list.last l, removelast l) in
      let '(xs, l) := list_takes ends l in
      (x :: xs, l)
  end.

Lemma takes_ok ends c :
  wf c → (takes ends c).1 = (list_takes ends (left c)).1 ∧
    comps (Components_as_path (takes ends c).2) = (list_takes ends (left c)).2.
Proof.
  revert c. induction ends as [|[] ends IH]; intros c Hw; simpl.
  - split; [done|]. by apply as_path_ok.
  - destruct (next_ok c Hw) as (c' & Hn & Hw' & Hl). unfold Components_next. rewrite Hn.
    destruct (IH c' Hw') as [H1 H2]. rewrite Hl in *. destruct (takes ends c'), (list_takes _ _). simpl in *. by subst.
  - destruct (next_back_ok c Hw) as (x & c' & Hn & Hw' & Hl & _ & Hnone & _). unfold Components_next_back. rewrite Hn.
    destruct (IH c' Hw') as [H1 H2].
    assert (list.last (left c) = x ∧ removelast (left c) = left c') as [-> ->].
    { destruct x as [x|]; simpl in Hl; [rewrite Hl; split; [apply last_snoc|apply removelast_last]|].
      rewrite (Hnone eq_refl) in *. by rewrite app_nil_r in Hl; rewrite <- Hl. }
    destruct (takes ends c'), (list_takes _ _). simpl in *. by subst.
Qed.

(** ** Ancestors *)

Fixpoint ancestors_list (n : nat) (this : Ancestors) : list Path * Ancestors :=
  match n with
  | O => ([], this)
  | S n =>
      let '(p, this) := Ancestors_next this in
      let '(ps, this) := ancestors_list n this in
      (option_list p ++ ps, this)
  end.

(** The ancestors are those with the last components left out, and they come to an
    end. *)
Lemma ancestors_ok p :
  ∃ ps, ancestors_list (S (length (comps p))) (ancestors p) = (ps, None) ∧ head ps = Some p ∧
    ∀ i q q', ps !! i = Some q → ps !! S i = Some q' → ∃ x, comps q = comps q' ++ [x].
Proof.
  assert (∀ n p, length (comps p) ≤ n →
    ∃ ps, ancestors_list (S n) (Some p) = (p :: ps, None) ∧
    ∀ i q q', (p :: ps) !! i = Some q → (p :: ps) !! S i = Some q' → ∃ x, comps q = comps q' ++ [x]) as Hgen.
  { clear p. assert (∀ n, ancestors_list n None = ([], None)) as Hnone.
    { induction n as [|n IH]; [done|]. simpl. by rewrite IH. }
    induction n as [|n IH]; intros p Hn.
    - pose proof (parent_ok p) as Hp. simpl. destruct (parent p) as [q|].
      + destruct Hp as (_ & x & _ & Hc). rewrite Hc, length_app in Hn. simpl in Hn. lia.
      + exists []. split; [done|]. by intros [|i] q q' ? ?.
    - pose proof (parent_ok p) as Hp. remember (S n) as m. simpl. destruct (parent p) as [q|] eqn:Hq; subst m.
      + destruct Hp as (_ & x & Hx & Hc). rewrite Hc, length_app in Hn. simpl in Hn.
        destruct (IH q ltac:(lia)) as (ps & Hps & Hall). rewrite Hps. exists (q :: ps). split; [done|].
        intros [|i] q1 q2 H1 H2; [|by apply (Hall i)]. simpl in *. simplify_eq. by exists x.
      + rewrite Hnone. exists []. split; [done|]. by intros [|i] q q' ? ?. }
  destruct (Hgen (length (comps p)) p) as (ps & Hps & Hall); [done|]. exists (p :: ps). split_and!; done.
Qed.

(** * Writing paths *)

(** More after a separator does not change how a path begins. *)
Lemma start_app p r :
  p ≠ [] → list.last p = Some slash ∨ head r = Some slash → start (components (p ++ r)) = start (components p).
Proof.
  intros Hne Hsep. unfold start. simpl.
  assert (has_root (p ++ r) = has_root p) as -> by by destruct p.
  destruct (has_root p) eqn:Hr; [done|].
  assert (include_cur_dir (components (p ++ r)) = include_cur_dir (components p)) as ->; [|done].
  unfold include_cur_dir. simpl. assert (has_root (p ++ r) = has_root p) as -> by by destruct p.
  rewrite Hr. destruct p as [|a [|b p]]; [done| |done]. simpl.
  destruct Hsep as [[= ->]|Hsep]; [done|]. destruct r as [|c r]; [done|]. simpl in Hsep. by injection Hsep as ->.
Qed.

Lemma last_split (p : bytes) b : list.last p = Some b → ∃ p', p = p' ++ [b].
Proof. intros Hp. by apply last_Some. Qed.

Lemma push_ok p q :
  comps (push_bytes p q) =
    if has_root q then comps q else match p with [] => comps q | _ => comps p ++ body q end.
Proof.
  unfold push_bytes, is_absolute. destruct (has_root q) eqn:Hq; [done|].
  destruct (decide (p = [])) as [->|Hne]; [done|].
  assert (match p with [] => comps q | _ => comps p ++ body q end = comps p ++ body q) as -> by by destruct p.
  destruct (list.last p) as [b|] eqn:Hl; [|by apply last_None in Hl].
  destruct (is_sep b) eqn:Hb; simpl.
  - apply sep_true in Hb as ->. destruct (last_split _ _ Hl) as [p' Hp'].
    rewrite (comps_eq (p ++ q)), (comps_eq p), start_app, <- app_assoc by auto. f_equal.
    rewrite Hp', <- app_assoc. simpl. by rewrite !body_app, body_nil, app_nil_r.
  - by rewrite (comps_eq (p ++ slash :: q)), (comps_eq p), start_app, <- app_assoc, body_app by auto.
Qed.

(** The name of a file. *)
Definition simple (s : bytes) : Prop := plain s ∧ parse_single_component s = Some (Normal s).

Lemma simple_body s : simple s → body s = [Normal s].
Proof. intros [Hs Hp]. by rewrite body_plain, Hp. Qed.

Lemma simple_root s : simple s → has_root s = false.
Proof. intros [Hs Hp]. destruct s as [|b s]; [done|]. by inversion Hs. Qed.

Lemma simple_comps s : simple s → comps s = [Normal s].
Proof.
  intros Hs. rewrite clean_comps; [by apply simple_body|]. right. exists s, [], (Normal s).
  destruct Hs as [Hs Hp]. by rewrite pieces_plain.
Qed.

Lemma push_simple p s : simple s → comps (push_bytes p s) = comps p ++ [Normal s].
Proof.
  intros Hs. rewrite push_ok, (simple_root s) by done. destruct p as [|b p]; [by apply simple_comps|].
  by rewrite simple_body.
Qed.

Lemma pop_ok p :
  match pop_bytes p with
  | (true, q) => parent p = Some q ∧ ∃ x, x ≠ RootDir ∧ comps p = comps q ++ [x]
  | (false, q) => q = p ∧ (comps p = [] ∨ comps p = [RootDir])
  end.
Proof.
  unfold pop_bytes. pose proof (parent_ok p) as Hp. destruct (parent p) as [q|]; [|done].
  destruct Hp as ([k Hk] & Hx). assert (take (length q) p = q) as -> by (rewrite Hk; apply take_app_length). done.
Qed.

Lemma pop_push p s : simple s → ∃ q, pop_bytes (push_bytes p s) = (true, q) ∧ comps q = comps p.
Proof.
  intros Hs. pose proof (push_simple p s Hs) as Hc. pose proof (pop_ok (push_bytes p s)) as Hp.
  destruct (pop_bytes (push_bytes p s)) as [[] q].
  - destruct Hp as (_ & x & _ & Hq). exists q. split; [done|]. rewrite Hc in Hq. by apply app_inj_tail in Hq as [-> _].
  - destruct Hp as (_ & [Hz|Hz]); rewrite Hz in Hc; [by destruct (comps p)|].
    destruct (comps p) as [|? []]; done.
Qed.

Lemma set_file_name_ok p s :
  simple s → file_name (set_file_name_bytes p s) = Some s ∧
    comps (set_file_name_bytes p s) = (if file_name p is Some _ then removelast (comps p) else comps p) ++ [Normal s].
Proof.
  intros Hs. assert (comps (set_file_name_bytes p s) = (if file_name p is Some _ then removelast (comps p) else comps p) ++ [Normal s]) as Hc.
  { unfold set_file_name_bytes. pose proof (file_name_ok p) as Hf. pose proof (pop_ok p) as Hp.
    destruct (file_name p) as [n|]; [|by apply push_simple]. rewrite push_simple by done. f_equal.
    destruct (pop_bytes p) as [[] q]; simpl.
    - destruct Hp as (_ & x & _ & ->). by rewrite removelast_last.
    - destruct Hp as (_ & [Hz|Hz]); by rewrite Hz in Hf. }
  split; [|done]. by rewrite file_name_ok, Hc, last_snoc.
Qed.

(** ** Extensions *)

Lemma pieces_all_plain p : Forall plain (pieces p).
Proof.
  induction p as [|b p IH]; simpl; [by repeat constructor|]. destruct (is_sep b) eqn:Hb; [by constructor; [constructor|]|].
  destruct (pieces_cons p) as (s & ss & Hs). rewrite Hs in *. inversion IH; subst. by repeat constructor.
Qed.

Lemma normal_simple p s : Normal s ∈ comps p → simple s.
Proof.
  rewrite comps_eq. intros [Hs|Hs]%elem_of_app.
  - exfalso. unfold start in Hs. repeat case_match; by repeat (apply elem_of_cons in Hs as [?|Hs] || apply not_elem_of_nil in Hs).
  - unfold body in Hs. apply list_elem_of_omap in Hs as (t & Ht & Hp).
    assert (t = s) as -> by (unfold parse_single_component in Hp; repeat case_bool_decide; congruence).
    split; [|done]. pose proof (pieces_all_plain p) as Hall. rewrite list.Forall_forall in Hall. by apply Hall.
Qed.

Lemma file_name_simple p f : file_name p = Some f → simple f.
Proof.
  rewrite file_name_ok. destruct (list.last (comps p)) as [[| | |s]|] eqn:Hl; try done. intros [= <-].
  apply (normal_simple p). apply last_Some in Hl as [l Hl]. rewrite Hl. apply elem_of_app. right. by left.
Qed.

Definition undotted (s : bytes) : Prop := dot ∉ s.

Lemma rsplit_dot_none s : undotted s → rsplit_dot s = None.
Proof.
  unfold undotted. induction s as [|b s IH]; [done|]. rewrite not_elem_of_cons. intros [Hb Hs]. simpl.
  rewrite IH by done. by rewrite bool_decide_eq_false_2.
Qed.

Lemma rsplit_dot_app stem ext : undotted ext → rsplit_dot (stem ++ dot :: ext) = Some (stem, ext).
Proof.
  intros He. induction stem as [|b stem IH]; simpl; [|by rewrite IH].
  by rewrite rsplit_dot_none.
Qed.

Lemma rsplit_dot_some s a e : rsplit_dot s = Some (a, e) → s = a ++ dot :: e.
Proof.
  revert a e. induction s as [|b s IH]; intros a e; simpl; [done|].
  destruct (rsplit_dot s) as [[a' e']|].
  - intros [= <- <-]. by rewrite (IH a' e').
  - case_bool_decide; [|done]. by intros [= <- <-]; subst.
Qed.

(** A file name has a stem, which is not empty and is a part of it. *)
Lemma file_stem_ok p f : file_name p = Some f → ∃ stem, file_stem p = Some stem ∧ stem ≠ [] ∧ plain stem.
Proof.
  intros Hf. pose proof (file_name_simple p f Hf) as [Hpl Hp]. unfold file_stem. rewrite Hf. simpl.
  unfold rsplit_file_at_dot, parse_single_component in *. repeat case_bool_decide; try congruence.
  destruct (rsplit_dot f) as [[a e]|] eqn:Hr; [|by exists f].
  destruct a as [|b a]; [by exists f|]. exists (b :: a). split_and!; [done|done|].
  rewrite (rsplit_dot_some _ _ _ Hr) in Hpl. by apply Forall_app in Hpl as [Hpl _].
Qed.

Lemma set_extension_ok p e f :
  file_name p = Some f → plain e → undotted e → e ≠ [] →
  ∃ q, set_extension_bytes p e = (true, q) ∧ extension q = Some e ∧ file_stem q = file_stem p ∧
    ∃ name, comps q = removelast (comps p) ++ [Normal name].
Proof.
  intros Hf He Hd Hne. destruct (file_stem_ok p f Hf) as (stem & Hs & Hsne & Hspl).
  unfold set_extension_bytes. rewrite Hf, Hs. simpl. destruct e as [|b e]; [done|].
  set (name := stem ++ dot :: b :: e). assert (simple name) as Hname.
  { split; [apply Forall_app; split; [done|]; by constructor|]. unfold parse_single_component, name.
    destruct stem as [|c stem]; [done|].
    rewrite !bool_decide_eq_false_2; [done|..]; intros Hx; apply (f_equal length) in Hx; simpl in Hx;
      rewrite ?length_app in Hx; simpl in Hx; lia. }
  destruct (set_file_name_ok p name Hname) as [Hn Hc]. rewrite Hf in Hc.
  assert (rsplit_file_at_dot name = (Some stem, Some (b :: e))) as Hr.
  { unfold rsplit_file_at_dot, name. rewrite rsplit_dot_app by done.
    destruct stem as [|c stem]; [done|]. rewrite bool_decide_eq_false_2; [done|]. intros Hx.
    apply (f_equal length) in Hx. simpl in Hx. rewrite length_app in Hx. simpl in Hx. lia. }
  exists (set_file_name_bytes p name). split; [done|]. unfold extension, file_stem. rewrite Hn. simpl.
  rewrite Hr. split_and!; [done|done|by exists name].
Qed.

(** * Paths up to their components *)

(** [Path == Path]. *)
Definition path_eq (p q : Path) : Prop := comps p = comps q.
#[export] Instance path_eq_equiv : Equivalence path_eq.
Proof. split; unfold path_eq; intros ?; congruence. Qed.

#[export] Instance file_name_proper : Proper (path_eq ==> eq) file_name.
Proof. intros p q Hpq. by rewrite !file_name_ok, Hpq. Qed.
#[export] Instance starts_with_proper : Proper (path_eq ==> path_eq ==> eq) starts_with.
Proof. intros p q Hpq b c Hbc. by rewrite !starts_with_ok, Hpq, Hbc. Qed.
#[export] Instance ends_with_proper : Proper (path_eq ==> path_eq ==> eq) ends_with.
Proof. intros p q Hpq b c Hbc. by rewrite !ends_with_ok, Hpq, Hbc. Qed.

#[export] Instance PathBuf_laws : ConsumerLaws FromStreamTrait PathBuf Path :=
  extend_ConsumerLaws _ _ (loop_ExtendLaws _).

(** What is left of a relative path when it is put after another. *)
Lemma join_strip p q :
  has_root q = false → p ≠ [] → ∃ r, strip_prefix (join_bytes p q) p = Some r ∧ comps r = body q.
Proof.
  intros Hq Hp. assert (comps (join_bytes p q) = comps p ++ body q) as Hc.
  { unfold join_bytes. rewrite push_ok, Hq. by destruct p. }
  pose proof (strip_prefix_ok (join_bytes p q) p) as Hs. destruct (strip_prefix _ _) as [r|].
  - exists r. split; [done|]. rewrite Hc in Hs. by apply app_inv_head in Hs.
  - destruct Hs. rewrite Hc. by eexists.
Qed.

(** * The theorems *)

(** C30 A path is the list of its components.  Components are the root, a [.] at the
    beginning, [..], and names; the iterator over the bytes gives them from both ends,
    in any order of [next] and [next_back], as taking from the list does, and what is
    left is the path [as_path] of the rest.  [parent] leaves out the last one (there
    is none of an empty path and of the root) and is the beginning of the path;
    [file_name] is the last one if it is a name; [starts_with], [ends_with] and
    [strip_prefix] are about beginnings and ends of the list; and the ancestors are
    finitely many. *)
Theorem path_components (p base : Path) (ends : list bool) :
  (comps p = (if has_root p then [RootDir] else if include_cur_dir (components p) then [CurDir] else []) ++
     omap parse_single_component (pieces p)) ∧
  (takes ends (components p)).1 = (list_takes ends (comps p)).1 ∧
  comps (Components_as_path (takes ends (components p)).2) = (list_takes ends (comps p)).2 ∧
  match parent p with
  | Some q => q `prefix_of` p ∧ ∃ x, x ≠ RootDir ∧ comps p = comps q ++ [x]
  | None => comps p = [] ∨ comps p = [RootDir]
  end ∧
  file_name p = match list.last (comps p) with Some (Normal s) => Some s | _ => None end ∧
  starts_with p base = bool_decide (comps base `prefix_of` comps p) ∧
  ends_with p base = bool_decide (comps base `suffix_of` comps p) ∧
  match strip_prefix p base with
  | Some r => comps p = comps base ++ comps r
  | None => ¬ comps base `prefix_of` comps p
  end ∧
  ∃ ps, ancestors_list (S (length (comps p))) (ancestors p) = (ps, None) ∧ head ps = Some p ∧
    ∀ i q q', ps !! i = Some q → ps !! S i = Some q' → ∃ x, comps q = comps q' ++ [x].
Proof.
  destruct (takes_ok ends (components p) (components_wf p)) as [H1 H2]. split_and!.
  - apply comps_eq.
  - exact H1.
  - exact H2.
  - apply parent_ok.
  - apply file_name_ok.
  - apply starts_with_ok.
  - apply ends_with_ok.
  - apply strip_prefix_ok.
  - apply ancestors_ok.
Qed.

(** What the edits of paths do to their components.  An absolute path that is
    pushed replaces everything; a relative one is put after it, without its [.] at the
    beginning, and can be stripped again; a name that is pushed can be popped again;
    [pop] refuses on an empty path and on the root.  [set_file_name] replaces the
    last component if it is a name, and adds one otherwise.  [set_extension] with a
    name that has no dot is read back by [extension], and leaves the stem and
    everything before as it was; it refuses where there is no file name.  A stream
    of paths that is collected is pushed in order. *)
Theorem path_edits (p q : Path) (s e : bytes) :
  simple s → plain e → undotted e → e ≠ [] →
  comps (inner (Path_join p q)) = (if has_root q then comps q else match p with [] => comps q | _ => comps p ++ body q end) ∧
  (has_root q = false → p ≠ [] → ∃ r, strip_prefix (inner (Path_join p q)) p = Some r ∧ comps r = body q) ∧
  (∃ r, PathBuf_pop (PathBuf_push (mkPathBuf p) s) = (true, mkPathBuf r) ∧ comps r = comps p) ∧
  match PathBuf_pop (mkPathBuf p) with
  | (true, r) => parent p = Some (inner r) ∧ ∃ x, x ≠ RootDir ∧ comps p = comps (inner r) ++ [x]
  | (false, r) => inner r = p ∧ (comps p = [] ∨ comps p = [RootDir])
  end ∧
  (file_name (inner (with_file_name p s)) = Some s ∧
   comps (inner (with_file_name p s)) = (if file_name p is Some _ then removelast (comps p) else comps p) ++ [Normal s]) ∧
  (file_name p = None → set_extension (mkPathBuf p) e = (false, mkPathBuf p)) ∧
  (∀ f, file_name p = Some f → ∃ r, set_extension (mkPathBuf p) e = (true, mkPathBuf r) ∧ extension r = Some e ∧
     file_stem r = file_stem p ∧ ∃ name, comps r = removelast (comps p) ++ [Normal name]) ∧
  (∀ (St : Type) `(Stream St Path) `(!StreamMono St) (st : St) ps, yields st ps →
     resolves_to (from_stream PathBuf st) (PathBuf_from_iter ps)).
Proof.
  intros Hs He Hd Hne. split_and!.
  - apply push_ok.
  - apply join_strip.
  - destruct (pop_push p s Hs) as (r & Hr & Hc). exists r. split; [|done].
    unfold PathBuf_pop, PathBuf_push. simpl. by rewrite Hr.
  - pose proof (pop_ok p) as Hp. unfold PathBuf_pop. simpl. by destruct (pop_bytes p) as [[] r].
  - by apply set_file_name_ok.
  - by apply set_file_name_ok.
  - intros Hf. unfold set_extension, set_extension_bytes. simpl. by rewrite Hf.
  - intros f Hf. destruct (set_extension_ok p e f Hf He Hd Hne) as (r & Hr & Hx). exists r.
    split; [|exact Hx]. unfold set_extension. simpl. by rewrite Hr.
  - intros St HS Hm st ps Hy. by eapply collects.
Qed.

(** [exists], [is_file] and [is_dir] ask for the metadata once, and take an error for
    no. *)
Lemma path_asks `{Filesystem Os Path F Dir Entry Meta Perm FileType} (is_file is_dir : Meta → bool) (p : Path) (os : Os) :
  let '(r, os') := std_metadata p os in
  one_call exists_poll finish_call (os, Path_metadata p) (match r with Ok _ => true | Err _ => false end) (os', Returned) ∧
  one_call (is_file_poll is_file) finish_call (os, Path_metadata p)
    (match r with Ok m => is_file m | Err _ => false end) (os', Returned) ∧
  one_call (is_dir_poll is_dir) finish_call (os, Path_metadata p)
    (match r with Ok m => is_dir m | Err _ => false end) (os', Returned).
Proof.
  assert (∀ f, one_call (answer_poll f) finish_call (os, Path_metadata p) (f (std_metadata p os).1)
    ((std_metadata p os).2, Returned)) as Hask by (intros f; apply (mapped_one_call f)).
  pose proof (Hask (λ r, match r with Ok _ => true | Err _ => false end)) as H1.
  pose proof (Hask (λ r, match r with Ok m => is_file m | Err _ => false end)) as H2.
  pose proof (Hask (λ r, match r with Ok m => is_dir m | Err _ => false end)) as H3.
  destruct (std_metadata p os) as [r os']. by split_and!.
Qed.

(** * At concrete inputs *)

Definition of_string (s : string) : Path := String.list_byte_of_string s.

Example components_both_ends :
  (takes [true; false; true; false; true] (components (of_string "/usr//./lib/../x/"))).1 =
    [Some RootDir; Some (Normal (of_string "x")); Some (Normal (of_string "usr")); Some ParentDir;
     Some (Normal (of_string "lib"))].
Proof. vm_compute. reflexivity. Qed.

Lemma path_edits_witness :
  comps (inner (Path_join (of_string "a/") (of_string "./b"))) = [Normal (of_string "a"); Normal (of_string "b")] ∧
  ∃ r, set_extension (mkPathBuf (of_string "a/b.txt")) (of_string "rs") = (true, mkPathBuf r) ∧
    extension r = Some (of_string "rs").
Proof.
  assert (simple (of_string "x")) as Hs by (split; [repeat constructor|vm_compute; reflexivity]).
  assert (plain (of_string "rs")) as He by repeat constructor.
  assert (undotted (of_string "rs")) as Hd by (apply (bool_decide_unpack _); vm_compute; exact I).
  split.
  - destruct (path_edits (of_string "a/") (of_string "./b") (of_string "x") (of_string "rs") Hs He Hd ltac:(discriminate))
      as (Hj & _). rewrite Hj. vm_compute. reflexivity.
  - destruct (path_edits (of_string "a/b.txt") (of_string "b") (of_string "x") (of_string "rs") Hs He Hd ltac:(discriminate))
      as (_ & _ & _ & _ & _ & _ & Hx & _).
    destruct (Hx (of_string "b.txt") ltac:(vm_compute; reflexivity)) as (r & Hr & Hext & _). by exists r.
Defined.

(** A name that begins with two dots loses itself with its extension. *)
Example extension_lost :
  set_extension (mkPathBuf (of_string "a/..b")) [] = (true, mkPathBuf (of_string "a/.")) ∧
  comps (of_string "a/..b") = [Normal (of_string "a"); Normal (of_string "..b")] ∧
  comps (of_string "a/.") = [Normal (of_string "a")].
Proof. vm_compute. done. Qed.
