(* ===== verification/Spawn.v ===== *)
(** Spawned tasks: src/src/task/builder.rs, spawn.rs and join_handle.rs, on top of
    the executor.

    A task is an allocation of the async_task crate, which the [Runnable], the
    wakers and the [JoinHandle] refer to; that crate is a parameter, [AsyncTask].
    A [Runnable] is in a queue of the executor, or a thread is about to schedule or
    to run it.  [step] lets the threads of the executor (Executor.v, operation by
    operation), the code of users inside polls, and other threads of the program
    take turns; the futures that are polled may answer anything at any time. *)

From stdpp Require Import gmap fin_maps relations.
From S2P Require Import Prelude Utils WakerClients Executor.
Local Open Scope async_scope.

(** * [async_task] *)

(** What the code uses of it, on the state [H] that the references to a task share.
    [V] is the type of the future's output and [W] that of wakers.  A [bool] says
    whether a [Task] is passed to the function [schedule]. *)
Class AsyncTask (H V W : Type) : Type := {
  async_spawn : H;                              (* [spawn]: a [Task] and a [JoinHandle] *)
  task_wake : H → bool * H;                     (* a waker of the task is called *)
  task_run : H → bool * H;                      (* [Task::run]: is the future polled *)
  task_pending : H → bool * H;                  (* and what it does with the answer, *)
  task_ready : V → H → list W * H;              (* calling the wakers in the list *)
  handle_poll : W → H → Poll (option V) * H;    (* [JoinHandle::poll] *)
  handle_drop : H → H
}.

(** A task as the documentation of the crate has it. *)
Inductive TaskState (V : Type) : Type :=
| Idle                       (* there is no [Task] until a waker is called *)
| Referenced                 (* there is one [Task] *)
| Polled (woken : bool)      (* its future is being polled *)
| Completed (v : V)          (* the result is there for the handle *)
| Taken.                     (* and the handle has taken it *)
Arguments Idle {V}.
Arguments Referenced {V}.
Arguments Polled {V} woken.
Arguments Completed {V} v.
Arguments Taken {V}.

(** The documented behaviour.  [Task]: "At any moment in time, there is at most one
    [Task] reference associated with a particular task", it is made again and
    passed to [schedule] when the task is woken up, and when the poll it was woken
    up in is over.  [JoinHandle]: resolves to [Some] result of the future, or to
    [None] when the task has panicked or was cancelled; pending, it keeps the
    waker and calls it. *)
Class AsyncTaskLaws (H V W : Type) `{AsyncTask H V W} : Type := {
  task_state : H → TaskState V;
  awaiter : H → option W;
  async_spawn_spec : task_state async_spawn = Referenced ∧ awaiter async_spawn = None;
  task_wake_spec h : awaiter (task_wake h).2 = awaiter h ∧
    match task_state h with
    | Idle => (task_wake h).1 = true ∧ task_state (task_wake h).2 = Referenced
    | Polled _ => (task_wake h).1 = false ∧ task_state (task_wake h).2 = Polled true
    | st => (task_wake h).1 = false ∧ task_state (task_wake h).2 = st
    end;
  task_run_spec h : task_state h = Referenced →
    (task_run h).1 = true ∧ task_state (task_run h).2 = Polled false ∧
    awaiter (task_run h).2 = awaiter h;
  task_pending_spec h woken : task_state h = Polled woken →
    (task_pending h).1 = woken ∧
    task_state (task_pending h).2 = (if woken then Referenced else Idle) ∧
    awaiter (task_pending h).2 = awaiter h;
  task_ready_spec h v woken : task_state h = Polled woken →
    (task_ready v h).1 = option_list (awaiter h) ∧
    task_state (task_ready v h).2 = Completed v ∧ awaiter (task_ready v h).2 = None;
  handle_poll_spec h w :
    match task_state h with
    | Completed v => (handle_poll w h).1 = Ready (Some v) ∧ task_state (handle_poll w h).2 = Taken
    | Taken => True
    | st => (handle_poll w h).1 = Pending ∧ task_state (handle_poll w h).2 = st ∧
            awaiter (handle_poll w h).2 = Some w
    end;
  handle_drop_spec h : task_state h ≠ Taken → task_state (handle_drop h) = task_state h
}.

(** * The state *)

(** A waker: of a spawned task, or any other. *)
Inductive Waker : Type :=
| WakesTask (t : nat)
| WakesOther (k : nat).

#[global] Instance Waker_eq_dec : EqDecision Waker.
Proof. solve_decision. Defined.

(** Where a call of [Runnable::run] is: about to enter [set_current]; in the code of
    the future; in [Task::run] after the poll, with the wakers it has yet to call. *)
Inductive Phase : Type :=
| Entering
| Polling
| Leaving (ws : list Waker).

(** A call of [Runnable::run]; [old_task] is that of [set_current]. *)
Record Frame : Type := mkFrame { task : nat; old_task : option nat; phase : Phase }.

Record Builder : Type := mkBuilder { name : option (list N) }.
Definition Builder_new : Builder := mkBuilder None.
Definition Builder_name (name : list N) (self : Builder) : Builder := mkBuilder (Some name).

(** A task that was spawned: its tag, a [Task] with this name, and its state. *)
Record Spawned (H : Type) : Type := mkSpawned { tag : option (list N); header : H }.
Arguments mkSpawned {H} tag header.
Arguments tag {H} s.
Arguments header {H} s.

(** What happens, for the record. *)
Inductive Happening (V : Type) : Type :=
| Spawns (t : nat)
| Woken (w : Waker)
| Polls (t : nat)
| DropsLocals (t : nat)
| Resolves (t : nat) (v : V)
| Awaits (t : nat) (w : Waker)       (* its [JoinHandle] is pending *)
| Joined (t : nat) (v : V)           (* or gives the result *)
| JoinPanics (t : nat).              (* or panics *)
Arguments Spawns {V} t.
Arguments Woken {V} w.
Arguments Polls {V} t.
Arguments DropsLocals {V} t.
Arguments Resolves {V} t v.
Arguments Awaits {V} t w.
Arguments Joined {V} t v.
Arguments JoinPanics {V} t.

Section Spawn.
Context {Q I H V : Type} `{Deque Q I nat} `{AsyncTask H V Waker}.

(** [CURRENT] is thread-local; [frames] are the calls of [Runnable::run], by their
    threads; [handles] the tasks whose [JoinHandle] there is; [history] has the
    latest first. *)
Record System : Type := mkSystem {
  exec : Executor.System (Q:=Q) (I:=I) (T:=nat);
  tasks : gmap nat (Spawned H);
  frames : gmap nat Frame;
  CURRENT : gmap nat nat;
  handles : gset nat;
  aborted : bool;
  history : list (Happening V)
}.
Implicit Types (s : System).

Definition set_exec e s : System :=
  mkSystem e (tasks s) (frames s) (CURRENT s) (handles s) (aborted s) (history s).
Definition set_tasks ts s : System :=
  mkSystem (exec s) ts (frames s) (CURRENT s) (handles s) (aborted s) (history s).
Definition set_frames fs s : System :=
  mkSystem (exec s) (tasks s) fs (CURRENT s) (handles s) (aborted s) (history s).
Definition set_CURRENT cs s : System :=
  mkSystem (exec s) (tasks s) (frames s) cs (handles s) (aborted s) (history s).
Definition set_handles hs s : System :=
  mkSystem (exec s) (tasks s) (frames s) (CURRENT s) hs (aborted s) (history s).
Definition happens (x : Happening V) s : System :=
  mkSystem (exec s) (tasks s) (frames s) (CURRENT s) (handles s) (aborted s) (x :: history s).
Definition process_abort s : System :=
  mkSystem (exec s) (tasks s) (frames s) (CURRENT s) (handles s) true (history s).

Definition set_phase (tid : nat) (f : Frame) (p : Phase) s : System :=
  set_frames (<[tid := mkFrame (task f) (old_task f) p]> (frames s)) s.
Definition set_header (t : nat) (sp : Spawned H) (h : H) s : System :=
  set_tasks (<[t := mkSpawned (tag sp) h]> (tasks s)) s.

(** * The code *)

(** The closure [schedule] of [Builder::spawn]: [executor::schedule(Runnable(t))], which
    the thread [tid] begins; [h] is the task it runs, if it is a worker. *)
Definition schedule_runnable (tid : nat) (h : option nat) (t : nat) s : System :=
  let e := exec s in
  set_exec (Executor.mkSystem (pool e) (<[tid := Scheduling h t]> (threads e)) (log e)) s.

(** A waker is called. *)
Definition wake_waker (tid : nat) (h : option nat) (w : Waker) s : System :=
  let s := happens (Woken w) s in
  match w with
  | WakesOther _ => s
  | WakesTask t =>
      match tasks s !! t with
      | Some sp =>
          let '(again, hd) := task_wake (header sp) in
          let s := set_header t sp hd s in
          if again then schedule_runnable tid h t s else s
      | None => s
      end
  end.

(** [Builder::spawn]: [Task::new], [async_task::spawn], [task.schedule()]; the handle is
    the task.  It never answers an error. *)
Definition Builder_spawn (tid : nat) (h : option nat) (self : Builder) s : Result nat N * System :=
  let t := fresh (dom (tasks s)) in
  let s := happens (Spawns t) (set_tasks (<[t := mkSpawned (name self) async_spawn]> (tasks s)) s) in
  let s := set_handles ({[t]} ∪ handles s) s in
  (Ok t, schedule_runnable tid h t s).

(** [task::spawn]; [None] is the panic of [expect]. *)
Definition spawn (tid : nat) (h : option nat) s : option nat * System :=
  let '(r, s) := Builder_spawn tid h Builder_new s in
  (match r with Ok t => Some t | Err _ => None end, s).

(** [JoinHandle::poll]; the outer [None] is the panic. *)
Definition JoinHandle_poll (w : Waker) (inner : H) : option (Poll V) * H :=
  let '(r, inner) := handle_poll w inner in
  (match r with
   | Pending => Some Pending
   | Ready None => None
   | Ready (Some val) => Some (Ready val)
   end, inner).

(** [JoinHandle::task]. *)
Definition JoinHandle_task (t : nat) s : option (option (list N)) := tag <$> tasks s !! t.

(** The handle of [t] is polled with the waker [w]; ready, it is consumed. *)
Definition join (t : nat) (w : Waker) (sp : Spawned H) s : System :=
  let '(r, hd) := JoinHandle_poll w (header sp) in
  let s := set_header t sp hd s in
  match r with
  | Some Pending => happens (Awaits t w) s
  | Some (Ready v) => happens (Joined t v) (set_handles (handles s ∖ {[t]}) s)
  | None => happens (JoinPanics t) (set_handles (handles s ∖ {[t]}) s)
  end.

(** [Runnable::run] up to the poll: [Task::set_current] and [Task::run]. *)
Definition run_enter (tid : nat) (f : Frame) (sp : Spawned H) s : System :=
  let old := CURRENT s !! tid in
  let s := set_CURRENT (<[tid := task f]> (CURRENT s)) s in
  let '(polled, hd) := task_run (header sp) in
  let s := set_header (task f) sp hd s in
  let f := mkFrame (task f) old (phase f) in
  if polled then happens (Polls (task f)) (set_phase tid f Polling s)
  else set_phase tid f (Leaving []) s.

(** The future is pending, and so is the block around it. *)
Definition run_pending (tid : nat) (f : Frame) (sp : Spawned H) s : System :=
  let '(again, hd) := task_pending (header sp) in
  let s := set_phase tid f (Leaving []) (set_header (task f) sp hd s) in
  if again then schedule_runnable tid (Some (task f)) (task f) s else s.

(** The future is ready with [v]: the guards of the block run, which drop the locals
    of the current task, and [Task::run] keeps the result and wakes up whoever awaits
    the handle. *)
Definition run_ready (tid : nat) (f : Frame) (sp : Spawned H) (v : V) s : System :=
  let s := match CURRENT s !! tid with Some t => happens (DropsLocals t) s | None => s end in
  let '(ws, hd) := task_ready v (header sp) in
  happens (Resolves (task f) v) (set_phase tid f (Leaving ws) (set_header (task f) sp hd s)).

(** [Runnable::run] returns: the guard of [set_current] puts the old task back, and the
    main loop goes on. *)
Definition run_leave (tid : nat) (f : Frame) s : System :=
  let e := exec s in
  set_exec (Executor.mkSystem (pool e) (<[tid := Find 0]> (threads e)) (log e))
    (set_CURRENT (set_op tid (old_task f) (CURRENT s)) (set_frames (delete tid (frames s)) s)).

(** * The turns *)

(** What a thread of the executor found. *)
Definition found (ev : list (Event nat)) : option nat :=
  match ev with [Started t] => Some t | _ => None end.

(** A step of the executor; a worker that has found a task calls [Runnable::run]. *)
Definition exec_goes (tid : nat) pc' po' (ev : list (Event nat)) s : System :=
  let e := exec s in
  set_exec (Executor.mkSystem po' (set_op tid pc' (threads e)) (log e ++ ev))
    (match found ev with
     | Some t => set_frames (<[tid := mkFrame t None Entering]> (frames s)) s
     | None => s
     end).

Definition is_running (pc : Pc (T:=nat)) : bool := if pc is Running _ then true else false.

(** The worker [tid] is in [Runnable::run], at [f] and not in a call of [schedule]. *)
Definition runs (tid : nat) (f : Frame) s : Prop :=
  frames s !! tid = Some f ∧ threads (exec s) !! tid = Some (Running (task f)).

(** The thread [tid] moves, in code of the executor or of [Runnable::run]. *)
Inductive turn (tid : nat) : System → System → Prop :=
| turn_exec s c pc pc' po' ev :
    threads (exec s) !! tid = Some pc → is_running pc = false →
    thread_step c tid pc (pool (exec s)) = Done (Goes pc' po', ev) →
    turn tid s (exec_goes tid pc' po' ev s)
| turn_enter s f sp :
    runs tid f s → phase f = Entering → tasks s !! task f = Some sp →
    turn tid s (run_enter tid f sp s)
| turn_pending s f sp :                            (* the poll returns *)
    runs tid f s → phase f = Polling → tasks s !! task f = Some sp →
    turn tid s (run_pending tid f sp s)
| turn_ready s f sp v :
    runs tid f s → phase f = Polling → tasks s !! task f = Some sp →
    turn tid s (run_ready tid f sp v s)
| turn_panics s f :                                (* or panics: [abort_on_panic] *)
    runs tid f s → phase f = Polling → turn tid s (process_abort s)
| turn_wakes s f w ws :
    runs tid f s → phase f = Leaving (w :: ws) →
    turn tid s (wake_waker tid (Some (task f)) w (set_phase tid f (Leaving ws) s))
| turn_leave s f :
    runs tid f s → phase f = Leaving [] → turn tid s (run_leave tid f s).

(** The thread [tid] runs code of users: a worker that polls [h], or a thread outside
    the pool. *)
Definition user_code (tid : nat) (h : option nat) s : Prop :=
  match h with
  | Some t => ∃ f, runs tid f s ∧ phase f = Polling ∧ t = task f
  | None => processors (pool (exec s)) !! tid = None ∧ threads (exec s) !! tid = None
  end.

Inductive step : System → System → Prop :=
| step_turn tid s s' : aborted s = false → turn tid s s' → step s s'
| step_wake tid h w s :                            (* users call a waker, *)
    aborted s = false → user_code tid h s → step s (wake_waker tid h w s)
| step_spawn tid h b s :                           (* spawn, *)
    aborted s = false → user_code tid h s → step s (Builder_spawn tid h b s).2
| step_join tid h t w sp s :                       (* poll a handle, *)
    aborted s = false → user_code tid h s → t ∈ handles s → tasks s !! t = Some sp →
    step s (join t w sp s)
| step_detach tid h t sp s :                       (* and drop it *)
    aborted s = false → user_code tid h s → t ∈ handles s → tasks s !! t = Some sp →
    step s (set_handles (handles s ∖ {[t]}) (set_header t sp (handle_drop (header sp)) s)).

Definition initial (seeds : list N) : System :=
  mkSystem (Executor.initial seeds) ∅ ∅ ∅ ∅ false [].

Definition reachable (seeds : list N) s : Prop :=
  good_seeds seeds ∧ rtc step (initial seeds) s.
End Spawn.
