(* ===== verification/SpawnSpec.v ===== *)
(** What spawning promises (src/src/task/builder.rs, spawn.rs, join_handle.rs): a task
    whose waker was called is polled again and never by two threads at once, the
    current task is the one that runs, and its handle gives its result. *)

From stdpp Require Import gmap fin_maps relations.
From S2P Require Import Prelude Utils WakerClients Maps Executor ExecutorSpec Spawn.
Local Open Scope async_scope.

(** * The threads of the executor *)

(** The task that the thread runs, and the one it is about to schedule. *)
Definition holder (pc : Pc (T:=nat)) : option nat :=
  match pc with
  | Running t => Some t
  | Scheduling h _ | Notify h _ => h
  | _ => None
  end.
Definition pushing (pc : Pc (T:=nat)) : list nat :=
  match pc with Scheduling _ t => [t] | _ => [] end.

(** What is held at an entry of a map. *)
Definition held {A B} (f : A → list B) (o : option A) : list B := from_option f [] o.

Lemma times_app (a : nat) l k : times a (l ++ k) = times a l + times a k.
Proof. apply count_occ_app. Qed.

Lemma times_set_op {A} (f : A → list nat) (m : gmap nat A) tid o a :
  times a (gathered f (set_op tid o m)) + times a (held f (m !! tid)) =
  times a (gathered f m) + times a (held f o).
Proof.
  assert (times a (gathered f m) = times a (held f (m !! tid)) + times a (gathered f (delete tid m))) as ->.
  { destruct (m !! tid) as [x|] eqn:Hm; simpl.
    - by rewrite (times_perm _ _ _ (gathered_delete f m tid x Hm)), times_app.
    - by rewrite delete_id. }
  destruct o as [x|]; simpl; [|lia].
  rewrite (times_perm _ _ _ (gathered_set f m tid x)), times_app. lia.
Qed.

Lemma times_insert {A} (f : A → list nat) (m : gmap nat A) tid x a :
  times a (gathered f (<[tid := x]> m)) + times a (held f (m !! tid)) =
  times a (gathered f m) + times a (f x).
Proof. apply (times_set_op f m tid (Some x)). Qed.

Section Executor.
Context {Q I : Type} `{DequeLaws Q I nat}.
Implicit Types (po : Pool Q I nat).

Lemma run_task_inv t po pc' po' ev :
  run_task t po = Done (Goes pc' po', ev) → ev = [Started t] ∧ pc' = Some (Running t).
Proof. by intros [= <- <- <-]. Qed.

Lemma search_order_events tid po x ev : search_order tid po = Done (x, ev) → ev = [].
Proof.
  unfold search_order. destruct (processors po !! tid) as [p|]; [|done].
  destruct (random _ _). destruct (_ <=? _); [|done]. by intros [_ ->]%eff_ret_done.
Qed.

(** A step of the executor finds a task and runs it, or runs what it ran. *)
Lemma thread_step_moves c tid pc po pc' po' ev :
  is_running pc = false → thread_step c tid pc po = Done (Goes pc' po', ev) →
  match found ev with
  | Some t => ev = [Started t] ∧ pc' = Some (Running t) ∧ holder pc = None ∧ pushing pc = []
  | None => ev = Scheduled <$> pushing pc ∧ pc' ≫= holder = holder pc ∧ held pushing pc' = []
  end.
Proof.
  intros Hr Hs. destruct pc as [f|f|f|f order retry|t|h t|h n|w]; try discriminate Hr;
    cbn [thread_step] in Hs.
  - apply eff_bind_done in Hs as (p & w1 & w2 & Hp & Hs & ->).
    unfold unwrap in Hp. destruct (processors po !! tid); [|done]. apply eff_ret_done in Hp as [-> ->].
    destruct (take_slot p) as [[t|] p'].
    + apply run_task_inv in Hs as [-> ->]. done.
    + by apply eff_ret_done in Hs as [[= <- <-] ->].
  - apply eff_bind_done in Hs as (p & w1 & w2 & Hp & Hs & ->).
    unfold unwrap in Hp. destruct (processors po !! tid); [|done]. apply eff_ret_done in Hp as [-> ->].
    destruct (worker_pop (worker p)) as [[t|] q].
    + apply run_task_inv in Hs as [-> ->]. done.
    + by apply eff_ret_done in Hs as [[= <- <-] ->].
  - destruct (steal_global tid po) as [[|t|] po1]; [|by apply run_task_inv in Hs as [-> ->]|];
      apply eff_bind_done in Hs as ([order po2] & w1 & w2 & Ho & Hs & ->);
      apply eff_ret_done in Hs as [[= <- <-] ->]; by apply search_order_events in Ho as ->.
  - destruct order as [|v order].
    + destruct retry; apply eff_ret_done in Hs as [[= <- <-] ->]; [done|].
      unfold not_found. by repeat case_match.
    + destruct (steal_from tid v po) as [[|t|] po1]; [|by apply run_task_inv in Hs as [-> ->]|];
        by apply eff_ret_done in Hs as [[= <- <-] ->].
  - destruct (schedule_push tid t po) as [notify po1].
    apply eff_bind_done in Hs as ([] & w1 & w2 & [= <-] & Hs & ->).
    apply eff_ret_done in Hs as [[= <- <-] ->]. by destruct notify, h.
  - assert (ev = [] ∧ pc' ≫= holder = h ∧ held pushing pc' = []) as (-> & ? & ?); [|done].
    destruct n; unfold notify_step, lock_step in Hs; repeat case_match; unfold usize_sub in Hs; inv_eff; by destruct h.
  - assert (ev = [] ∧ pc' ≫= holder = None ∧ held pushing pc' = []) as (-> & ? & ?); [|done].
    destruct w; unfold wait_step, lock_step, usize_add in Hs; repeat case_match; by inv_eff.
Qed.
End Executor.

(** * Where tasks are *)

Definition entering (f : Frame) : list nat := if phase f is Entering then [task f] else [].
Definition polling (f : Frame) : list nat := if phase f is Polling then [task f] else [].

Section Placed.
Context {Q I H V : Type} `{DequeLaws Q I nat} `{AsyncTaskLaws H V Waker}.
Implicit Types (s : System (Q:=Q) (I:=I) (H:=H) (V:=V)) (sp : Spawned H).

(** The [Runnable]s there are: in the queues, in the hands of threads that are about
    to schedule them, and of those that are about to run them. *)
Definition references s : list nat :=
  queued (pool (exec s)) ++ gathered pushing (threads (exec s)) ++ gathered entering (frames s).
(** The tasks that threads are polling. *)
Definition pollers s : list nat := gathered polling (frames s).

Definition state_of s (t : nat) : option (TaskState V) := (task_state ∘ header) <$> tasks s !! t.
Definition is_referenced (st : TaskState V) : nat := if st is Referenced then 1 else 0.
Definition is_polled (st : TaskState V) : nat := if st is Polled _ then 1 else 0.

(** What is where, between any two steps. *)
Record Placed (n : nat) s : Prop := {
  p_exec : ExecutorSpec.Inv n (exec s);
  p_frames tid : threads (exec s) !! tid ≫= holder = task <$> frames s !! tid;
  p_entering tid f : frames s !! tid = Some f → phase f = Entering →
    threads (exec s) !! tid = Some (Running (task f));
  p_old tid f : frames s !! tid = Some f → old_task f = None;
  p_current tid : CURRENT s !! tid =
    (frames s !! tid ≫= λ f, if phase f is Entering then None else Some (task f));
  p_refs t : times t (references s) = from_option is_referenced 0 (state_of s t);
  p_polls t : times t (pollers s) = from_option is_polled 0 (state_of s t)
}.

(** Whoever may call [schedule]. *)
Definition may_schedule (tid : nat) (h : option nat) s : Prop :=
  match h with
  | Some t => ∃ f, runs tid f s ∧ phase f ≠ Entering ∧ t = task f
  | None => processors (pool (exec s)) !! tid = None ∧ threads (exec s) !! tid = None
  end.

Lemma user_code_may tid h s : user_code tid h s → may_schedule tid h s.
Proof. destruct h; [|done]. intros (f & Hr & Hp & ->). exists f. by rewrite Hp. Qed.

(** ** Counting *)

Lemma refs_schedule tid h t s x :
  held pushing (threads (exec s) !! tid) = [] →
  times x (references (schedule_runnable tid h t s)) = times x [t] + times x (references s).
Proof.
  intros Hp. unfold references, schedule_runnable. cbn [exec set_exec pool threads frames].
  rewrite !times_app. pose proof (times_insert pushing (threads (exec s)) tid (Scheduling h t) x) as Hc.
  rewrite Hp in Hc. simpl in *. destruct (Nat.eq_dec t x); lia.
Qed.

Lemma refs_frame tid f' s x :
  times x (references (set_frames (<[tid := f']> (frames s)) s)) + times x (held entering (frames s !! tid)) =
  times x (references s) + times x (entering f').
Proof.
  unfold references. cbn [exec set_frames frames]. rewrite !times_app.
  pose proof (times_insert entering (frames s) tid f' x). lia.
Qed.

Lemma state_insert s t sp' t' :
  state_of (set_tasks (<[t := sp']> (tasks s)) s) t' =
  if decide (t' = t) then Some (task_state (header sp')) else state_of s t'.
Proof.
  unfold state_of. cbn [tasks set_tasks]. destruct (decide (t' = t)) as [->|Hne].
  - by rewrite lookup_insert_eq.
  - by rewrite lookup_insert_ne by done.
Qed.

Lemma may_schedule_pushes n tid h s :
  Placed n s → may_schedule tid h s → held pushing (threads (exec s) !! tid) = [].
Proof.
  intros HP. destruct h as [t|]; simpl.
  - by intros (f & [_ ->] & _).
  - by intros [_ ->].
Qed.

Lemma schedule_step tid h t s :
  may_schedule tid h s → Executor.step (exec s) (exec (schedule_runnable tid h t s)).
Proof.
  unfold schedule_runnable. cbn [exec set_exec]. destruct (exec s) as [po th l] eqn:He.
  destruct h as [t'|]; unfold may_schedule, runs; rewrite He; simpl.
  - intros (f & [_ Ht] & _ & ->). by apply step_task_schedules.
  - intros [Hp Ht]. by apply step_other_schedules.
Qed.

(** A thread that schedules a task is where it was. *)
Lemma schedule_frames tid h t s tid' :
  may_schedule tid h s →
  threads (exec (schedule_runnable tid h t s)) !! tid' ≫= holder = threads (exec s) !! tid' ≫= holder.
Proof.
  intros Hm. unfold schedule_runnable. cbn [exec set_exec threads].
  destruct (decide (tid' = tid)) as [->|Hne]; [|by rewrite lookup_insert_ne by done].
  rewrite lookup_insert_eq. destruct h as [t'|]; simpl in *.
  - by destruct Hm as (f & [_ ->] & _ & ->).
  - by destruct Hm as [_ ->].
Qed.
(** ** Steps of one task *)

(** At most the phase of the call at [tid] changes. *)
Definition frames_change (tid : nat) (fs fs' : gmap nat Frame) : Prop :=
  fs' = fs ∨ ∃ f p, fs !! tid = Some f ∧ phase f ≠ Entering ∧ p ≠ Entering ∧
    fs' = <[tid := mkFrame (task f) (old_task f) p]> fs.

Lemma frames_change_at tid fs fs' i f' :
  frames_change tid fs fs' → fs' !! i = Some f' →
  ∃ f, fs !! i = Some f ∧ task f' = task f ∧ old_task f' = old_task f ∧
    (phase f' = Entering → f' = f) ∧ (phase f = Entering → f' = f).
Proof.
  intros [->|(f & p & Hf & Hne & Hp & ->)] Hi; [by exists f'|].
  apply lookup_insert_Some in Hi as [[<- <-]|[Hi Hf']]; [by exists f|by exists f'].
Qed.

Lemma frames_change_task tid fs fs' i :
  frames_change tid fs fs' → task <$> fs' !! i = task <$> fs !! i.
Proof.
  intros [->|(f & p & Hf & Hne & Hp & ->)]; [done|].
  destruct (decide (i = tid)) as [->|Hi]; [by rewrite lookup_insert_eq, Hf|by rewrite lookup_insert_ne].
Qed.

Lemma frames_change_current tid fs fs' i :
  frames_change tid fs fs' →
  (fs' !! i ≫= λ f, if phase f is Entering then None else Some (task f)) =
  (fs !! i ≫= λ f, if phase f is Entering then None else Some (task f)).
Proof.
  intros [->|(f & p & Hf & Hne & Hp & ->)]; [done|].
  destruct (decide (i = tid)) as [->|Hi]; [|by rewrite lookup_insert_ne].
  rewrite lookup_insert_eq, Hf. simpl. by destruct (phase f), p.
Qed.

Lemma frames_change_entering tid fs fs' x :
  frames_change tid fs fs' → times x (gathered entering fs') = times x (gathered entering fs).
Proof.
  intros [->|(f & p & Hf & Hne & Hp & ->)]; [done|].
  pose proof (times_insert entering fs tid (mkFrame (task f) (old_task f) p) x) as Hc.
  rewrite Hf in Hc. unfold held, from_option, entering in *. simpl in *.
  destruct (phase f), p; simpl in *; done || lia.
Qed.

Lemma may_schedule_change tid h s s' :
  may_schedule tid h s → frames_change tid (frames s) (frames s') → exec s' = exec s →
  may_schedule tid h s'.
Proof.
  intros Hm Hf He. destruct h as [t|]; simpl in *; [|by rewrite He].
  destruct Hm as (f & [Hf1 Ht] & Hp & ->). unfold runs. rewrite He.
  destruct Hf as [->|(f' & p & Hf' & Hne & Hp' & ->)]; [by exists f|]. simplify_eq.
  exists (mkFrame (task f) (old_task f) p). by rewrite lookup_insert_eq.
Qed.

Lemma placed_change n s s' tid h t (again : bool) :
  Placed n s → may_schedule tid h s → frames_change tid (frames s) (frames s') →
  exec s' = exec s → CURRENT s' = CURRENT s → 0 < n →
  (∀ x, from_option is_referenced 0 (state_of s' x) =
        from_option is_referenced 0 (state_of s x) + if again then times x [t] else 0) →
  (∀ x, times x (pollers s') = from_option is_polled 0 (state_of s' x)) →
  Placed n (if again then schedule_runnable tid h t s' else s').
Proof.
  intros HP Hm Hf He Hc Hn Hr Hpoll.
  pose proof (may_schedule_change _ _ _ _ Hm Hf He) as Hm'.
  assert (∀ x, times x (references s') = times x (references s)) as Hrefs.
  { intros x. unfold references. rewrite !times_app, He, (frames_change_entering _ _ _ _ Hf). done. }
  destruct HP as [P1 P2 P3 P4 P5 P6 P7].
  assert (Placed n s' ∨ again = true) as HP'.
  { destruct again; [by right|left]. split; rewrite ?He, ?Hc; try done.
    - intros i. by rewrite P2, (frames_change_task _ _ _ _ Hf).
    - intros i f' Hi Hph. destruct (frames_change_at _ _ _ _ _ Hf Hi) as (f & Hfi & Ht & _ & He1 & _).
      rewrite Ht. rewrite (He1 Hph) in Hph. by apply P3.
    - intros i f' Hi. destruct (frames_change_at _ _ _ _ _ Hf Hi) as (f & Hfi & _ & -> & _). by eapply P4.
    - intros i. by rewrite P5, (frames_change_current _ _ _ _ Hf).
    - intros x. by rewrite Hrefs, P6, Hr, Nat.add_0_r. }
  destruct again; [|by destruct HP']. clear HP'.
  assert (held pushing (threads (exec s') !! tid) = []) as Hpush.
  { rewrite He. destruct h; [by destruct Hm as (? & [_ ->] & _)|by destruct Hm as [_ ->]]. }
  split.
  - eapply exec_Inv_step; [done| |by apply schedule_step]. by rewrite He.
  - intros i. rewrite (schedule_frames _ _ _ _ _ Hm'), He, P2.
    symmetry. apply (frames_change_task _ _ _ _ Hf).
  - intros i f' Hi Hph. cbn in Hi. destruct (frames_change_at _ _ _ _ _ Hf Hi) as (f & Hfi & Ht & _ & He1 & _).
    rewrite Ht. rewrite (He1 Hph) in Hph. pose proof (P3 i f Hfi Hph) as Hrun.
    cbn. rewrite He. rewrite lookup_insert_ne; [done|]. intros ->.
    destruct h as [t'|]; simpl in Hm.
    + destruct Hm as (f1 & [Hf1 _] & Hne & _). congruence.
    + destruct Hm as [_ Hnone]. congruence.
  - intros i f' Hi. cbn in Hi.
    destruct (frames_change_at _ _ _ _ _ Hf Hi) as (f & Hfi & _ & -> & _). by eapply P4.
  - intros i. cbn. by rewrite Hc, P5, (frames_change_current _ _ _ _ Hf).
  - intros x. rewrite refs_schedule by done. rewrite Hrefs, P6.
    change (state_of (schedule_runnable tid h t s') x) with (state_of s' x). rewrite Hr. lia.
  - intros x. apply Hpoll.
Qed.
(** A waker is called: by nobody in particular, of a task there is. *)
Lemma wake_waker_cases tid h w s :
  wake_waker tid h w s = happens (Woken w) s ∨
  ∃ t sp, w = WakesTask t ∧ tasks s !! t = Some sp ∧
    wake_waker tid h w s =
      let s' := set_header t sp (task_wake (header sp)).2 (happens (Woken w) s) in
      if (task_wake (header sp)).1 then schedule_runnable tid h t s' else s'.
Proof.
  destruct w as [t|k]; [|by left]. unfold wake_waker. cbn [tasks happens].
  destruct (tasks s !! t) as [sp|] eqn:Ht; [|by left]. right. exists t, sp.
  by destruct (task_wake (header sp)).
Qed.

Lemma state_at s t sp : tasks s !! t = Some sp → state_of s t = Some (task_state (header sp)).
Proof. intros Ht. unfold state_of. by rewrite Ht. Qed.

Lemma times_one (x t : nat) : times x [t] = if decide (x = t) then 1 else 0.
Proof. simpl. destruct (Nat.eq_dec t x), (decide (x = t)); congruence. Qed.

(** Nobody's [Runnable]s change, nor who is polled. *)
Lemma placed_keep n s s' tid h :
  Placed n s → may_schedule tid h s → 0 < n → frames s' = frames s → exec s' = exec s →
  CURRENT s' = CURRENT s →
  (∀ x, from_option is_referenced 0 (state_of s' x) = from_option is_referenced 0 (state_of s x)) →
  (∀ x, from_option is_polled 0 (state_of s' x) = from_option is_polled 0 (state_of s x)) →
  Placed n s'.
Proof.
  intros HP Hm Hn Hf He Hc Hr Hp.
  apply (placed_change n s s' tid h 0 false HP Hm); [by left|done..| |].
  - intros x. by rewrite Hr, Nat.add_0_r.
  - intros x. unfold pollers. rewrite Hf, Hp. apply HP.
Qed.

Lemma placed_wake n s tid h w :
  Placed n s → may_schedule tid h s → 0 < n → Placed n (wake_waker tid h w s).
Proof.
  intros HP Hm Hn. destruct (wake_waker_cases tid h w s) as [->|(t & sp & -> & Ht & ->)].
  { by apply (placed_keep n s _ tid h). }
  pose proof (task_wake_spec (header sp)) as [_ Hw]. pose proof (state_at _ _ _ Ht) as Hst.
  cbv zeta. set (s' := set_header t sp (task_wake (header sp)).2 (happens (Woken (WakesTask t)) s)).
  assert (∀ x, state_of s' x = if decide (x = t) then Some (task_state (task_wake (header sp)).2)
    else state_of s x) as Hs'.
  { intros x. exact (state_insert s t (mkSpawned (tag sp) (task_wake (header sp)).2) x). }
  apply (placed_change n s s' tid h t _ HP Hm); [by left|done..| |].
  - intros x. rewrite Hs', times_one. destruct (decide (x = t)) as [->|]; [|destruct (fst (task_wake (header sp))); lia].
    rewrite Hst. destruct (task_state (header sp)); destruct Hw as [-> ->]; simpl; lia.
  - intros x. change (pollers s') with (pollers s). rewrite (p_polls _ _ HP), Hs'.
    destruct (decide (x = t)) as [->|]; [|done].
    rewrite Hst. destruct (task_state (header sp)); by destruct Hw as [_ ->].
Qed.

Lemma fresh_state s : state_of s (fresh (dom (tasks s))) = None.
Proof.
  unfold state_of. pose proof (is_fresh (dom (tasks s))) as Hf. apply not_elem_of_dom in Hf. by rewrite Hf.
Qed.

Lemma placed_spawn n s tid h b :
  Placed n s → may_schedule tid h s → 0 < n → Placed n (Builder_spawn tid h b s).2.
Proof.
  intros HP Hm Hn. unfold Builder_spawn. cbn [snd]. set (t := fresh (dom (tasks s))).
  set (s' := set_handles _ _). destruct async_spawn_spec as [Hsp _].
  assert (∀ x, state_of s' x = if decide (x = t) then Some Referenced else state_of s x) as Hs'.
  { intros x. rewrite <- Hsp. apply (state_insert s t (mkSpawned (name b) async_spawn)). }
  apply (placed_change n s s' tid h t true HP Hm); [by left|done..| |].
  - intros x. rewrite Hs', times_one. destruct (decide (x = t)) as [->|]; [|lia].
    unfold t. by rewrite fresh_state.
  - intros x. change (pollers s') with (pollers s). rewrite (p_polls _ _ HP), Hs'.
    destruct (decide (x = t)) as [->|]; [|done]. unfold t. by rewrite fresh_state.
Qed.

Lemma placed_happens n s x : Placed n s → Placed n (happens x s).
Proof. intros []. by split. Qed.

Lemma placed_header n s tid h t sp hd hs :
  Placed n s → may_schedule tid h s → 0 < n → tasks s !! t = Some sp →
  is_referenced (task_state hd) = is_referenced (task_state (header sp)) →
  is_polled (task_state hd) = is_polled (task_state (header sp)) →
  Placed n (set_handles hs (set_header t sp hd s)).
Proof.
  intros HP Hm Hn Ht Hr Hp. pose proof (state_at _ _ _ Ht) as Hst.
  assert (∀ i, state_of (set_handles hs (set_header t sp hd s)) i =
    if decide (i = t) then Some (task_state hd) else state_of s i) as Hs'.
  { intros i. exact (state_insert s t (mkSpawned (tag sp) hd) i). }
  apply (placed_keep n s _ tid h); try done; intros i; rewrite Hs';
    (destruct (decide (i = t)) as [->|]; [|done]); by rewrite Hst.
Qed.
(** ** Steps of [Runnable::run] *)

Lemma polling_state n s tid f :
  Placed n s → frames s !! tid = Some f → phase f = Polling →
  ∃ woken, state_of s (task f) = Some (Polled woken).
Proof.
  intros HP Hf Hp. pose proof (p_polls _ _ HP (task f)) as Hc.
  assert (1 ≤ times (task f) (pollers s)) as Hge.
  { apply times_in. eapply gathered_in; [done|]. unfold polling. rewrite Hp. by left. }
  destruct (state_of s (task f)) as [[]|]; simpl in Hc; try lia. by eexists.
Qed.

Lemma entering_state n s tid f :
  Placed n s → frames s !! tid = Some f → phase f = Entering →
  state_of s (task f) = Some Referenced.
Proof.
  intros HP Hf Hp. pose proof (p_refs _ _ HP (task f)) as Hc.
  assert (1 ≤ times (task f) (references s)) as Hge.
  { apply times_in. unfold references. rewrite !elem_of_app. right. right.
    eapply gathered_in; [done|]. unfold entering. rewrite Hp. by left. }
  destruct (state_of s (task f)) as [[]|]; simpl in Hc; lia || done.
Qed.

(** The poll is over. *)
Lemma leave_pollers tid f ws s x :
  frames s !! tid = Some f → phase f = Polling →
  times x (pollers (set_phase tid f (Leaving ws) s)) + (if decide (x = task f) then 1 else 0) =
  times x (pollers s).
Proof.
  intros Hf Hp. pose proof (times_insert polling (frames s) tid (mkFrame (task f) (old_task f) (Leaving ws)) x) as Hc.
  rewrite Hf in Hc. unfold held, from_option, polling at 2 4 in Hc. simpl in Hc. rewrite Hp, times_one in Hc.
  unfold pollers. cbn [set_phase set_frames frames]. lia.
Qed.

Lemma placed_pending n s tid f sp :
  Placed n s → 0 < n → runs tid f s → phase f = Polling → tasks s !! task f = Some sp →
  Placed n (run_pending tid f sp s).
Proof.
  intros HP Hn Hr Hp Ht. destruct (polling_state n s tid f HP (proj1 Hr) Hp) as [woken Hst].
  rewrite (state_at _ _ _ Ht) in Hst. injection Hst as Hst.
  destruct (task_pending_spec (header sp) woken Hst) as (Ha & Hs & _).
  unfold run_pending. destruct (task_pending (header sp)) as [again hd]. simpl in Ha, Hs. subst again.
  set (s' := set_phase tid f (Leaving []) (set_header (task f) sp hd s)).
  assert (∀ x, state_of s' x = if decide (x = task f) then Some (task_state hd) else state_of s x) as Hs'.
  { intros x. exact (state_insert s (task f) (mkSpawned (tag sp) hd) x). }
  apply (placed_change n s s' tid (Some (task f)) (task f) woken HP); try done.
  - exists f. split_and!; [done|by rewrite Hp|done].
  - right. exists f, (Leaving []). rewrite Hp. destruct Hr. done.
  - intros x. rewrite Hs', times_one. destruct (decide (x = task f)) as [->|]; [|destruct woken; lia].
    rewrite (state_at _ _ _ Ht), Hst, Hs. by destruct woken.
  - intros x. pose proof (leave_pollers tid f [] s x (proj1 Hr) Hp) as Hc.
    pose proof (p_polls _ _ HP x) as Hx. rewrite Hs'. change (pollers (set_phase _ _ _ _)) with (pollers s') in Hc.
    destruct (decide (x = task f)) as [->|]; [|lia].
    rewrite (state_at _ _ _ Ht), Hst in Hx. rewrite Hs. simpl in *. destruct woken; simpl; lia.
Qed.

Lemma placed_ready n s tid f sp v :
  Placed n s → 0 < n → runs tid f s → phase f = Polling → tasks s !! task f = Some sp →
  Placed n (run_ready tid f sp v s).
Proof.
  intros HP Hn Hr Hp Ht. destruct (polling_state n s tid f HP (proj1 Hr) Hp) as [woken Hst].
  rewrite (state_at _ _ _ Ht) in Hst. injection Hst as Hst.
  destruct (task_ready_spec (header sp) v woken Hst) as (_ & Hs & _).
  assert (CURRENT s !! tid = Some (task f)) as Hcur.
  { rewrite (p_current _ _ HP), (proj1 Hr). simpl. by rewrite Hp. }
  unfold run_ready. rewrite Hcur. destruct (task_ready v (header sp)) as [ws hd]. simpl in Hs.
  set (s' := happens _ _).
  assert (∀ x, state_of s' x = if decide (x = task f) then Some (task_state hd) else state_of s x) as Hs'.
  { intros x. exact (state_insert s (task f) (mkSpawned (tag sp) hd) x). }
  apply (placed_change n s s' tid (Some (task f)) (task f) false HP); try done.
  - exists f. split_and!; [done|by rewrite Hp|done].
  - right. exists f, (Leaving ws). rewrite Hp. destruct Hr. done.
  - intros x. rewrite Hs'. destruct (decide (x = task f)) as [->|]; [|lia].
    by rewrite (state_at _ _ _ Ht), Hst, Hs.
  - intros x. pose proof (leave_pollers tid f ws s x (proj1 Hr) Hp) as Hc.
    pose proof (p_polls _ _ HP x) as Hx. rewrite Hs'. change (pollers (set_phase _ _ _ _)) with (pollers s') in Hc.
    destruct (decide (x = task f)) as [->|]; [|lia].
    rewrite (state_at _ _ _ Ht), Hst in Hx. rewrite Hs. simpl in *. lia.
Qed.
Lemma placed_wakes n s tid f w ws :
  Placed n s → 0 < n → runs tid f s → phase f = Leaving (w :: ws) →
  Placed n (wake_waker tid (Some (task f)) w (set_phase tid f (Leaving ws) s)).
Proof.
  intros HP Hn Hr Hp. assert (may_schedule tid (Some (task f)) s) as Hm.
  { exists f. split_and!; [done|by rewrite Hp|done]. }
  assert (frames_change tid (frames s) (frames (set_phase tid f (Leaving ws) s))) as Hf.
  { right. exists f, (Leaving ws). rewrite Hp. by destruct Hr. }
  apply placed_wake; [|by eapply may_schedule_change|done].
  apply (placed_change n s _ tid (Some (task f)) 0 false HP Hm Hf); try done.
  intros x. etrans; [|exact (p_polls _ _ HP x)].
  pose proof (times_insert polling (frames s) tid (mkFrame (task f) (old_task f) (Leaving ws)) x) as Hc.
  rewrite (proj1 Hr) in Hc. unfold held, from_option, polling at 2 4 in Hc. simpl in Hc. rewrite Hp in Hc.
  unfold pollers. cbn [set_phase set_frames frames]. simpl in Hc. lia.
Qed.

Lemma placed_enter n s tid f sp :
  Placed n s → runs tid f s → phase f = Entering → tasks s !! task f = Some sp →
  Placed n (run_enter tid f sp s).
Proof.
  intros HP [Hf Hrun] Hp Ht. pose proof (entering_state n s tid f HP Hf Hp) as Hst.
  rewrite (state_at _ _ _ Ht) in Hst. injection Hst as Hst.
  assert (CURRENT s !! tid = None) as Hcur by (rewrite (p_current _ _ HP), Hf; simpl; by rewrite Hp).
  destruct (task_run_spec (header sp) Hst) as (Hr & Hs & _).
  unfold run_enter. rewrite Hcur. destruct (task_run (header sp)) as [polled hd]. simpl in Hr, Hs. subst polled.
  apply placed_happens. set (f' := mkFrame (task f) None Polling).
  assert (∀ i, <[tid := f']> (frames s) !! i = if decide (i = tid) then Some f' else frames s !! i) as Hi.
  { intros i. destruct (decide (i = tid)) as [->|]; [by rewrite lookup_insert_eq|by rewrite lookup_insert_ne]. }
  assert (∀ x, state_of (set_header (task f) sp hd s) x =
    if decide (x = task f) then Some (task_state hd) else state_of s x) as Hs'.
  { intros x. exact (state_insert s (task f) (mkSpawned (tag sp) hd) x). }
  pose proof HP as [P1 P2 P3 P4 P5 P6 P7].
  split; cbn [exec frames CURRENT set_phase set_frames set_header set_tasks set_CURRENT task old_task]; try done.
  - intros i. rewrite Hi, P2. destruct (decide (i = tid)) as [->|]; [by rewrite Hf|done].
  - intros i g. rewrite Hi. destruct (decide (i = tid)) as [->|]; [by intros [= <-]|apply P3].
  - intros i g. rewrite Hi. destruct (decide (i = tid)) as [->|]; [by intros [= <-]|apply P4].
  - intros i. rewrite Hi. destruct (decide (i = tid)) as [->|]; [by rewrite lookup_insert_eq|].
    by rewrite lookup_insert_ne.
  - intros x. pose proof (refs_frame tid f' s x) as Hc. rewrite Hf in Hc.
    unfold held, from_option, entering in Hc. rewrite Hp, times_one in Hc. simpl in Hc.
    change (references _) with (references (set_frames (<[tid := f']> (frames s)) s)).
    change (state_of _ x) with (state_of (set_header (task f) sp hd s) x).
    rewrite Hs'. pose proof (P6 x) as Hx. destruct (decide (x = task f)) as [->|]; [|lia].
    rewrite (state_at _ _ _ Ht), Hst in Hx. rewrite Hs. simpl in *. lia.
  - intros x. pose proof (times_insert polling (frames s) tid f' x) as Hc. rewrite Hf in Hc.
    assert (held polling (Some f) = []) as Hnot by (unfold held, polling; simpl; by rewrite Hp).
    change (polling f') with [task f] in Hc. rewrite Hnot, times_one in Hc. change (times x []) with 0 in Hc.
    change (pollers _) with (gathered polling (<[tid := f']> (frames s))).
    change (state_of _ x) with (state_of (set_header (task f) sp hd s) x).
    rewrite Hs'. pose proof (P7 x) as Hx. unfold pollers in Hx. destruct (decide (x = task f)) as [->|]; [|lia].
    rewrite (state_at _ _ _ Ht), Hst in Hx. rewrite Hs. simpl in *. lia.
Qed.
Lemma placed_leave n s tid f :
  Placed n s → 0 < n → runs tid f s → phase f = Leaving [] → Placed n (run_leave tid f s).
Proof.
  intros HP Hn [Hf Hrun] Hp. pose proof (p_old _ _ HP tid f Hf) as Ho.
  pose proof HP as [P1 P2 P3 P4 P5 P6 P7]. unfold run_leave. rewrite Ho.
  assert (∀ i, delete tid (frames s) !! i = if decide (i = tid) then None else frames s !! i) as Hi.
  { intros i. destruct (decide (i = tid)) as [->|]; [by rewrite lookup_delete_eq|by rewrite lookup_delete_ne]. }
  assert (∀ i, <[tid := Find 0]> (threads (exec s)) !! i =
    if decide (i = tid) then Some (Find 0) else threads (exec s) !! i) as Ht.
  { intros i. destruct (decide (i = tid)) as [->|]; [by rewrite lookup_insert_eq|by rewrite lookup_insert_ne]. }
  split; cbn [exec frames CURRENT set_frames set_CURRENT set_exec threads pool].
  - apply (exec_Inv_step n (exec s)); [done..|]. destruct (exec s) as [po th l] eqn:He. simpl in *.
    rewrite <- (app_nil_r l) at 2. by apply (step_thread po th l 0 tid _ (Some (Find 0)) po []) in Hrun.
  - intros i. rewrite Hi, Ht. by destruct (decide (i = tid)) as [->|].
  - intros i g. rewrite Hi, Ht. destruct (decide (i = tid)) as [->|]; [done|]. apply P3.
  - intros i g. rewrite Hi. destruct (decide (i = tid)) as [->|]; [done|]. apply P4.
  - intros i. rewrite Hi. simpl. destruct (decide (i = tid)) as [->|]; [by rewrite lookup_delete_eq|].
    by rewrite lookup_delete_ne.
  - intros x. etrans; [|exact (P6 x)].
    unfold references. cbn [exec frames set_frames set_CURRENT set_exec threads pool]. rewrite !times_app.
    pose proof (times_set_op entering (frames s) tid None x) as Hc.
    pose proof (times_insert pushing (threads (exec s)) tid (Find 0) x) as Hc'.
    rewrite Hf in Hc. rewrite Hrun in Hc'. unfold held, from_option in Hc, Hc'.
    unfold entering at 2 in Hc. rewrite Hp in Hc. simpl in *. lia.
  - intros x. etrans; [|exact (P7 x)].
    unfold pollers. cbn [exec frames set_frames set_CURRENT set_exec].
    pose proof (times_set_op polling (frames s) tid None x) as Hc. rewrite Hf in Hc.
    unfold held, from_option in Hc. unfold polling at 2 in Hc. rewrite Hp in Hc. simpl in *. lia.
Qed.

(** What a step of the executor does to the [Runnable]s. *)
Lemma exec_refs n e c tid pc pc' po' ev :
  ExecutorSpec.Inv n e → 0 < n → threads e !! tid = Some pc → is_running pc = false →
  thread_step c tid pc (pool e) = Done (Goes pc' po', ev) →
  ExecutorSpec.Inv n (Executor.mkSystem po' (set_op tid pc' (threads e)) (log e ++ ev)) ∧
  ∀ x, times x (queued po') + times x (gathered pushing (set_op tid pc' (threads e))) +
       times x (option_list (found ev)) =
       times x (queued (pool e)) + times x (gathered pushing (threads e)).
Proof.
  intros HI Hn Ht Hr Hs. destruct e as [po th l]. simpl in *.
  assert (ExecutorSpec.Inv n (Executor.mkSystem po' (set_op tid pc' th) (l ++ ev))) as HI'.
  { eapply exec_Inv_step; [done..|]. by eapply step_thread. }
  split; [done|]. intros x. pose proof (inv_log _ _ HI) as Hl. pose proof (inv_log _ _ HI') as Hl'. simpl in *.
  apply (times_perm x) in Hl, Hl'. rewrite scheduled_app, started_app, !times_app in Hl'. rewrite times_app in Hl.
  pose proof (times_set_op pushing th tid pc' x) as Hc. rewrite Ht in Hc. unfold held at 1, from_option in Hc.
  pose proof (thread_step_moves c tid pc po pc' po' ev Hr Hs) as Hm. destruct (found ev) as [t|] eqn:Hfound.
  - destruct Hm as (-> & -> & _ & Hp). rewrite Hp in Hc.
    change (scheduled [Started t]) with (@nil nat) in Hl'. change (started [Started t]) with [t] in Hl'.
    change (option_list (Some t)) with [t]. change (held pushing (Some (Running t))) with (@nil nat) in Hc.
    change (times x []) with 0 in *. lia.
  - destruct Hm as (-> & _ & Hp). rewrite Hp in Hc. change (option_list None) with (@nil nat).
    assert (scheduled (Scheduled <$> pushing pc) = pushing pc ∧ started (Scheduled <$> pushing pc) = []) as [Hq1 Hq2]
      by (by destruct pc).
    rewrite Hq1, Hq2 in Hl'. change (times x []) with 0 in *. lia.
Qed.

Lemma placed_exec n s c tid pc pc' po' ev :
  Placed n s → 0 < n → threads (exec s) !! tid = Some pc → is_running pc = false →
  thread_step c tid pc (pool (exec s)) = Done (Goes pc' po', ev) →
  Placed n (exec_goes tid pc' po' ev s).
Proof.
  intros HP Hn Ht Hr Hs. pose proof HP as [P1 P2 P3 P4 P5 P6 P7].
  destruct (exec_refs n (exec s) c tid pc pc' po' ev P1 Hn Ht Hr Hs) as [HI Hc].
  pose proof (thread_step_moves c tid pc _ pc' po' ev Hr Hs) as Hm.
  pose proof (P2 tid) as Hown. rewrite Ht in Hown. simpl in Hown.
  assert (∀ i, set_op tid pc' (threads (exec s)) !! i = if decide (i = tid) then pc' else threads (exec s) !! i) as Hi.
  { intros i. destruct (decide (i = tid)) as [->|]; [apply set_op_eq|by apply set_op_ne]. }
  unfold exec_goes. destruct (found ev) as [t|].
  - destruct Hm as (-> & -> & Hnone & _). rewrite Hnone in Hown.
    destruct (frames s !! tid) eqn:Hf; [done|]. set (f' := mkFrame t None Entering).
    assert (∀ i, <[tid := f']> (frames s) !! i = if decide (i = tid) then Some f' else frames s !! i) as Hi'.
    { intros i. destruct (decide (i = tid)) as [->|]; [by rewrite lookup_insert_eq|by rewrite lookup_insert_ne]. }
    split; cbn [exec frames CURRENT set_frames set_exec threads pool]; try done.
    + intros i. rewrite Hi, Hi'. by destruct (decide (i = tid)).
    + intros i g. rewrite Hi, Hi'. destruct (decide (i = tid)) as [->|]; [by intros [= <-]|apply P3].
    + intros i g. rewrite Hi'. destruct (decide (i = tid)) as [->|]; [by intros [= <-]|apply P4].
    + intros i. rewrite Hi', P5. destruct (decide (i = tid)) as [->|]; [by rewrite Hf|done].
    + intros x. etrans; [|exact (P6 x)].
      unfold references. cbn [exec frames set_frames set_exec threads pool]. rewrite !times_app.
      pose proof (times_insert entering (frames s) tid f' x) as He. rewrite Hf in He.
      specialize (Hc x). change (option_list (Some t)) with [t] in Hc.
      change (entering f') with [t] in He. change (held entering None) with (@nil nat) in He.
      change (times x []) with 0 in He. cbn [set_op] in *. lia.
    + intros x. etrans; [|exact (P7 x)].
      unfold pollers. cbn [frames set_frames set_exec].
      pose proof (times_insert polling (frames s) tid f' x) as He. rewrite Hf in He.
      change (polling f') with (@nil nat) in He. change (held polling None) with (@nil nat) in He.
      change (times x []) with 0 in He. lia.
  - destruct Hm as (_ & Hh & _).
    split; cbn [exec frames CURRENT set_exec threads pool]; try done.
    + intros i. rewrite Hi, <- P2. destruct (decide (i = tid)) as [->|]; [|done]. by rewrite Hh, Ht.
    + intros i g Hg Hp. rewrite Hi. destruct (decide (i = tid)) as [->|]; [|by apply P3].
      rewrite (P3 _ _ Hg Hp) in Ht. injection Ht as <-. done.
    + intros x. etrans; [|exact (P6 x)].
      unfold references. cbn [exec frames set_exec threads pool]. rewrite !times_app.
      specialize (Hc x). change (option_list None) with (@nil nat) in Hc. change (times x []) with 0 in Hc. lia.
Qed.
Lemma placed_initial seeds : good_seeds seeds → Placed (length seeds) (initial seeds : System).
Proof.
  intros Hg. pose proof (exec_initial_Inv seeds Hg) as HI.
  assert (∀ tid pc, threads (Executor.initial seeds : Executor.System (Q:=Q) (I:=I)) !! tid = Some pc → pc = Find 0) as Ht.
  { intros tid pc Hpc. apply elem_of_list_to_map_2 in Hpc. by apply list_elem_of_fmap in Hpc as (i & [= -> ->] & _). }
  assert (gathered pushing (threads (Executor.initial seeds : Executor.System (Q:=Q) (I:=I))) = []) as Hp.
  { unfold gathered. assert (Forall (λ pc, pushing pc = []) (map_to_list (threads
      (Executor.initial seeds : Executor.System (Q:=Q) (I:=I)))).*2) as Hall.
    { apply Forall_fmap, list.Forall_forall. intros [i pc] Hin. apply elem_of_map_to_list in Hin.
      simpl. by rewrite (Ht i pc Hin). }
    induction Hall as [|pc l Hpc _ IH]; simpl; [done|]. by rewrite Hpc. }
  pose proof (inv_log _ _ HI) as Hq. change ([] ≡ₚ queued (pool (Executor.initial seeds))) in Hq.
  apply Permutation_nil in Hq.
  split; cbn [exec frames CURRENT initial]; try done.
  - intros i. destruct (threads _ !! i) as [pc|] eqn:He; [|done]. by rewrite (Ht i pc He).
  - intros x. unfold references. cbn [exec frames initial]. by rewrite Hq, Hp.
Qed.
End Placed.
