(* ===== verification/SpawnTheorems.v ===== *)
(** What users see of spawned tasks (src/src/task/builder.rs, spawn.rs, join_handle.rs):
    an abstract specification of what a step may change, which the threads
    implement, and the theorems about polls, wakers and results. *)

From stdpp Require Import gmap fin_maps relations.
From S2P Require Import Prelude Utils WakerClients Maps Executor ExecutorSpec Spawn SpawnSpec.
Local Open Scope async_scope.

(** * Histories *)

Section Histories.
Context {V : Type}.
Implicit Types (l : list (Happening V)).

(** The task [t] was spawned, or its waker was called, since its last poll began. *)
Fixpoint due (t : nat) l : bool :=
  match l with
  | [] => false
  | x :: l =>
      match x with
      | Spawns t' => bool_decide (t' = t) || due t l
      | Woken w => bool_decide (w = WakesTask t) || due t l
      | Polls t' => negb (bool_decide (t' = t)) && due t l
      | _ => due t l
      end
  end.

(** The waker of the last poll of the handle of [t] that was pending, and whether it
    has been called since. *)
Fixpoint waits (t : nat) l : option (Waker * bool) :=
  match l with
  | [] => None
  | x :: l =>
      match x with
      | Awaits t' w => if decide (t' = t) then Some (w, false) else waits t l
      | Woken w' => (λ '(w, called), (w, called || bool_decide (w' = w))) <$> waits t l
      | _ => waits t l
      end
  end.

Definition resolved l : list nat := omap (λ x, if x is Resolves t _ then Some t else None) l.
Definition joined l : list nat := omap (λ x, if x is Joined t _ then Some t else None) l.

(** A result that a handle gives is one that its future returned; before it did, the
    task's locals were dropped; and no handle panics. *)
Fixpoint in_order l : Prop :=
  match l with
  | [] => True
  | x :: l =>
      match x with
      | Resolves t _ => head l = Some (DropsLocals t)
      | Joined t v => Resolves t v ∈ l
      | JoinPanics _ => False
      | _ => True
      end ∧ in_order l
  end.

Lemma in_order_at later x before :
  in_order (later ++ x :: before) →
  match x with
  | Resolves t _ => head before = Some (DropsLocals t)
  | Joined t v => Resolves t v ∈ before
  | JoinPanics _ => False
  | _ => True
  end.
Proof. induction later as [|y later IH]; simpl; [by intros [? _]|intros [_ Hin]; by apply IH]. Qed.

Lemma resolved_in t l : t ∈ resolved l → ∃ v, Resolves t v ∈ l.
Proof.
  intros Hin. apply list_elem_of_omap in Hin as (x & Hx & He). destruct x; try done. injection He as ->. eauto.
Qed.
Lemma joined_in t l : t ∈ joined l → ∃ v, Joined t v ∈ l.
Proof.
  intros Hin. apply list_elem_of_omap in Hin as (x & Hx & He). destruct x; try done. injection He as ->. eauto.
Qed.
Lemma in_resolved t v l : Resolves t v ∈ l → t ∈ resolved l.
Proof. intros Hin. apply list_elem_of_omap. by exists (Resolves t v). Qed.
Lemma in_joined t v l : Joined t v ∈ l → t ∈ joined l.
Proof. intros Hin. apply list_elem_of_omap. by exists (Joined t v). Qed.
End Histories.

(** * The specification *)

Section Change.
Context {Q I H V : Type} `{DequeLaws Q I nat} `{AsyncTaskLaws H V Waker}.
Implicit Types (s : System (Q:=Q) (I:=I) (H:=H) (V:=V)) (sp : Spawned H).

Definition awaiter_of s (t : nat) : option Waker := tasks s !! t ≫= (awaiter ∘ header).

(** A thread is about to call the waker, at the end of a task. *)
Definition owes s (w : Waker) : Prop :=
  ∃ tid f ws, frames s !! tid = Some f ∧ phase f = Leaving ws ∧ w ∈ ws.

Definition wake_state (st : TaskState V) : TaskState V :=
  match st with Idle => Referenced | Polled _ => Polled true | st => st end.

(** The other tasks are as they were. *)
Definition same_at s s' (x : nat) : Prop :=
  state_of s' x = state_of s x ∧ awaiter_of s' x = awaiter_of s x.
Definition same_but (t : nat) s s' : Prop := ∀ x, x ≠ t → same_at s s' x.
Definition same_owed s s' : Prop := ∀ w, owes s w → owes s' w.

(** What a step may change, as users see it. *)
Inductive change s s' : Prop :=
| change_quiet :
    (∀ x, same_at s s' x) → handles s' = handles s → history s' = history s →
    same_owed s s' → change s s'
| change_woken w :
    (∀ x, state_of s' x = (if decide (w = WakesTask x) then wake_state else id) <$> state_of s x) →
    (∀ x, awaiter_of s' x = awaiter_of s x) →
    handles s' = handles s → history s' = Woken w :: history s →
    (∀ w', owes s w' → w' = w ∨ owes s' w') → change s s'
| change_spawned t :
    state_of s t = None → state_of s' t = Some Referenced → same_but t s s' →
    handles s' = {[t]} ∪ handles s → history s' = Spawns t :: history s →
    same_owed s s' → change s s'
| change_polls t :
    state_of s t = Some Referenced → state_of s' t = Some (Polled false) →
    awaiter_of s' t = awaiter_of s t → same_but t s s' →
    handles s' = handles s → history s' = Polls t :: history s →
    same_owed s s' → change s s'
| change_pending t woken :
    state_of s t = Some (Polled woken) → state_of s' t = Some (if woken : bool then Referenced else Idle) →
    awaiter_of s' t = awaiter_of s t → same_but t s s' →
    handles s' = handles s → history s' = history s → same_owed s s' → change s s'
| change_ready t woken v :
    state_of s t = Some (Polled woken) → state_of s' t = Some (Completed v) →
    (∀ w, awaiter_of s t = Some w → owes s' w) → same_but t s s' →
    handles s' = handles s → history s' = Resolves t v :: DropsLocals t :: history s →
    same_owed s s' → change s s'
| change_awaits t w :
    t ∈ handles s →
    (∀ v, state_of s t ≠ Some (Completed v)) → state_of s' t = state_of s t → awaiter_of s' t = Some w →
    same_but t s s' → handles s' = handles s → history s' = Awaits t w :: history s →
    same_owed s s' → change s s'
| change_joined t v :
    state_of s t = Some (Completed v) → state_of s' t = Some Taken → same_but t s s' →
    handles s' = handles s ∖ {[t]} → history s' = Joined t v :: history s →
    same_owed s s' → change s s'
| change_detached t :
    state_of s' t = state_of s t → same_but t s s' →
    handles s' = handles s ∖ {[t]} → history s' = history s →
    same_owed s s' → change s s'.

(** What the history, the handles there are and the wakers that threads are about to
    call say of the task [t] is true of its state [st] and its awaiter [aw]. *)
Record told_task (l : list (Happening V)) (hs : gset nat) (ow : Waker → Prop)
    (st : option (TaskState V)) (aw : option Waker) (t : nat) : Prop := {
  t_handles : t ∈ hs → ∃ st', st = Some st' ∧ st' ≠ Taken;
  t_resolved v : Resolves t v ∈ l → st = Some (Completed v) ∨ st = Some Taken;
  t_completed v : st = Some (Completed v) → Resolves t v ∈ l;
  t_joined v : Joined t v ∈ l → st = Some Taken;
  t_due : due t l = true → match st with Some Idle | Some (Polled false) => False | _ => True end;
  t_waits w : waits t l = Some (w, false) → t ∈ hs →
    match st with Some (Completed _) | Some Taken => ow w | _ => aw = Some w end;
  t_unknown : st = None → waits t l = None;
  t_taken : st = Some Taken → t ∈ resolved l
}.

Record Told s : Prop := {
  t_task t : told_task (history s) (handles s) (owes s) (state_of s t) (awaiter_of s t) t;
  t_resolved_once : NoDup (resolved (history s));
  t_joined_once : NoDup (joined (history s));
  t_order : in_order (history s)
}.

Lemma told_initial seeds : Told (initial seeds : System).
Proof. split; simpl; [|constructor|constructor|done]. intros t. split; simpl; try done; intros *; by rewrite ?elem_of_nil. Qed.

(** The task that a happening is about. *)
Definition about (x : Happening V) : option nat :=
  match x with
  | Spawns t | Polls t | DropsLocals t | Resolves t _ | Awaits t _ | Joined t _ | JoinPanics t => Some t
  | Woken _ => None
  end.

Lemma told_less l hs hs' (ow ow' : Waker → Prop) st aw t :
  told_task l hs ow st aw t → (t ∈ hs' → t ∈ hs) → (∀ w, ow w → ow' w) → told_task l hs' ow' st aw t.
Proof.
  intros [T1 T2 T3 T4 T5 T6 T7 T8] Hh Ho. split; auto. intros w Hw Hin.
  specialize (T6 w Hw (Hh Hin)). destruct st as [[]|]; auto.
Qed.

Lemma told_other x l hs ow st aw t t' :
  told_task l hs ow st aw t → about x = Some t' → t' ≠ t → told_task (x :: l) hs ow st aw t.
Proof.
  intros [T1 T2 T3 T4 T5 T6 T7 T8] Hx Hne. split; [done|..].
  - intros v [<-|Hin]%elem_of_cons; [simplify_eq/=|auto].
  - intros v Hv. right. auto.
  - intros v [<-|Hin]%elem_of_cons; [simplify_eq/=|eauto].
  - simpl. destruct x; simplify_eq/=; rewrite ?bool_decide_eq_false_2 by done; auto.
  - intros w. simpl. destruct x; simplify_eq/=; rewrite ?decide_False by done; apply T6.
  - intros Hst. simpl. destruct x; simplify_eq/=; rewrite ?decide_False by done; auto.
  - intros Hst. specialize (T8 Hst). destruct x; simpl; try done. by right.
Qed.

(** A waker is called; it may be one of those that are owed. *)
Lemma told_woken w l hs (ow ow' : Waker → Prop) st aw t :
  told_task l hs ow st aw t → (∀ w', ow w' → w' = w ∨ ow' w') →
  told_task (Woken w :: l) hs ow' ((if decide (w = WakesTask t) then wake_state else id) <$> st) aw t.
Proof.
  intros [T1 T2 T3 T4 T5 T6 T7 T8] Ho. split.
  - intros Hin. destruct (T1 Hin) as (st' & -> & Hne). eexists. split; [done|].
    by destruct (decide _), st'.
  - intros v [[=]|Hin]%elem_of_cons. destruct (T2 v Hin) as [-> | ->]; simpl; destruct (decide _); auto.
  - intros v Hv. right. apply T3. destruct st as [st|]; [|done]. simpl in Hv.
    destruct (decide _); [|done]. by destruct st.
  - intros v [[=]|Hin]%elem_of_cons. rewrite (T4 v Hin). simpl. by destruct (decide _).
  - simpl. destruct (decide (w = WakesTask t)) as [->|Hne].
    + intros _. destruct st as [[]|]; simpl; done.
    + rewrite bool_decide_eq_false_2 by done. simpl. intros Hd. specialize (T5 Hd). by destruct st as [[]|].
  - intros w'. simpl. destruct (waits t l) as [[w1 called]|]; [|done]. simpl.
    intros [= <- Hc] Hin. apply orb_false_iff in Hc as [-> Hc]. apply bool_decide_eq_false in Hc.
    specialize (T6 w1 eq_refl Hin).
    destruct st as [[]|]; simpl; try case_decide; simpl; try done; destruct (Ho w1 T6) as [->|]; done.
  - intros Hst. simpl. rewrite T7; [done|]. by destruct st.
  - intros Hst. apply T8. destruct st as [[]|]; simpl in Hst; try done; by case_decide.
Qed.

(** ** Every change is told *)

(** The happenings [xs] are all about the task [t]. *)
Lemma told_others s s' t xs :
  Told s → same_but t s s' → same_owed s s' → history s' = xs ++ history s →
  Forall (λ x, about x = Some t) xs → (∀ x, x ≠ t → x ∈ handles s' → x ∈ handles s) →
  ∀ x, x ≠ t → told_task (history s') (handles s') (owes s') (state_of s' x) (awaiter_of s' x) x.
Proof.
  intros HT Hs Ho Hl Hx Hh x Hne. destruct (Hs x Hne) as [-> ->]. rewrite Hl. clear Hl.
  apply (told_less _ (handles s) _ (owes s)); [|auto|done].
  induction Hx as [|y xs Hy _ IH]; simpl; [apply HT|]. by eapply told_other.
Qed.

(** What is told of the task itself, where only some of it changes. *)
Lemma told_all s s' t :
  (∀ x, x ≠ t → told_task (history s') (handles s') (owes s') (state_of s' x) (awaiter_of s' x) x) →
  told_task (history s') (handles s') (owes s') (state_of s' t) (awaiter_of s' t) t →
  NoDup (resolved (history s')) → NoDup (joined (history s')) → in_order (history s') → Told s'.
Proof. intros Hne Ht ? ? ?. split; [|done..]. intros x. destruct (decide (x = t)) as [->|]; auto. Qed.

Lemma told_quiet s s' :
  Told s → (∀ x, same_at s s' x) → handles s' = handles s → history s' = history s →
  same_owed s s' → Told s'.
Proof.
  intros [T R1 R2 R3] Hs Hh Hl Ho. split; rewrite ?Hl; [|done..].
  intros t. destruct (Hs t) as [-> ->]. rewrite Hh. by eapply told_less.
Qed.

Lemma told_wakes s s' w :
  Told s → (∀ x, state_of s' x = (if decide (w = WakesTask x) then wake_state else id) <$> state_of s x) →
  (∀ x, awaiter_of s' x = awaiter_of s x) → handles s' = handles s → history s' = Woken w :: history s →
  (∀ w', owes s w' → w' = w ∨ owes s' w') → Told s'.
Proof.
  intros [T R1 R2 R3] Hs Ha Hh Hl Ho. split; rewrite ?Hl; [|done..].
  intros t. rewrite Hs, Ha, Hh. by apply (told_woken _ _ _ (owes s)).
Qed.

Lemma told_spawned s s' t :
  Told s → state_of s t = None → state_of s' t = Some Referenced → same_but t s s' →
  handles s' = {[t]} ∪ handles s → history s' = Spawns t :: history s → same_owed s s' → Told s'.
Proof.
  intros HT Hs1 Hs2 Hs Hh Hl Ho. pose proof HT as [T R1 R2 R3].
  apply (told_all s s' t); rewrite ?Hl; [| |done..].
  { rewrite <- Hl. apply (told_others s s' t [Spawns t] HT); try done; [by repeat constructor|].
    rewrite Hh. set_solver. }
  destruct (T t) as [T1 T2 T3 T4 T5 T6 T7 T8]. rewrite Hs2. split.
  - intros _. by exists Referenced.
  - intros v [[=]|Hin]%elem_of_cons. destruct (T2 v Hin); congruence.
  - done.
  - intros v [[=]|Hin]%elem_of_cons. specialize (T4 v Hin). congruence.
  - done.
  - intros w Hw. simpl in Hw. rewrite T7 in Hw; done.
  - done.
  - done.
Qed.

(** The other cases: the task [t] goes from [st] to [st']. *)
Lemma told_polls s s' t :
  Told s → state_of s t = Some Referenced → state_of s' t = Some (Polled false) →
  awaiter_of s' t = awaiter_of s t → same_but t s s' →
  handles s' = handles s → history s' = Polls t :: history s → same_owed s s' → Told s'.
Proof.
  intros HT Hs1 Hs2 Ha Hs Hh Hl Ho. pose proof HT as [T R1 R2 R3].
  apply (told_all s s' t); rewrite ?Hl; [| |done..].
  { rewrite <- Hl. apply (told_others s s' t [Polls t] HT); try done; [by repeat constructor|].
    by rewrite Hh. }
  destruct (T t) as [T1 T2 T3 T4 T5 T6 T7 T8]. rewrite Hs2, Ha, Hh. rewrite Hs1 in *. split.
  - intros _. eexists. by split.
  - intros v [[=]|Hin]%elem_of_cons. by destruct (T2 v Hin).
  - done.
  - intros v [[=]|Hin]%elem_of_cons. by specialize (T4 v Hin).
  - simpl. by rewrite bool_decide_eq_true_2.
  - apply T6.
  - done.
  - done.
Qed.

Lemma told_pending s s' t (woken : bool) :
  Told s → state_of s t = Some (Polled woken) → state_of s' t = Some (if woken then Referenced else Idle) →
  awaiter_of s' t = awaiter_of s t → same_but t s s' →
  handles s' = handles s → history s' = history s → same_owed s s' → Told s'.
Proof.
  intros HT Hs1 Hs2 Ha Hs Hh Hl Ho. pose proof HT as [T R1 R2 R3].
  apply (told_all s s' t); rewrite ?Hl; [| |done..].
  { rewrite <- Hl. apply (told_others s s' t [] HT); try done. by rewrite Hh. }
  destruct (T t) as [T1 T2 T3 T4 T5 T6 T7 T8]. rewrite Hs2, Ha, Hh. rewrite Hs1 in *. split.
  - intros _. eexists. split; [done|]. by destruct woken.
  - intros v Hin. by destruct (T2 v Hin).
  - intros v. by destruct woken.
  - intros v Hin. by specialize (T4 v Hin).
  - by destruct woken.
  - intros w Hw Hin. specialize (T6 w Hw Hin). by destruct woken.
  - done.
  - by destruct woken.
Qed.

Lemma told_ready s s' t (woken : bool) v :
  Told s → state_of s t = Some (Polled woken) → state_of s' t = Some (Completed v) →
  (∀ w, awaiter_of s t = Some w → owes s' w) → same_but t s s' →
  handles s' = handles s → history s' = Resolves t v :: DropsLocals t :: history s →
  same_owed s s' → Told s'.
Proof.
  intros HT Hs1 Hs2 Ha Hs Hh Hl Ho. pose proof HT as [T R1 R2 R3].
  destruct (T t) as [T1 T2 T3 T4 T5 T6 T7 T8].
  apply (told_all s s' t); rewrite ?Hl; [| |simpl|done|done].
  { rewrite <- Hl. apply (told_others s s' t [Resolves t v; DropsLocals t] HT); try done; [by repeat constructor|].
    by rewrite Hh. }
  2:{ constructor; [|done]. intros [v' Hin]%resolved_in. destruct (T2 v' Hin); congruence. }
  rewrite Hs2, Hh. rewrite Hs1 in *. split.
  - intros _. eexists. by split.
  - intros v' Hin. rewrite !elem_of_cons in Hin. destruct Hin as [[= ->]|[[=]|Hin]]; [by left|].
    by destruct (T2 v' Hin).
  - intros v' [= ->]. by left.
  - intros v' Hin. rewrite !elem_of_cons in Hin. destruct Hin as [[=]|[[=]|Hin]]. by specialize (T4 v' Hin).
  - done.
  - intros w Hw Hin. by apply Ha, T6.
  - done.
  - done.
Qed.

Lemma told_awaits s s' t w :
  Told s → t ∈ handles s → (∀ v, state_of s t ≠ Some (Completed v)) → state_of s' t = state_of s t →
  awaiter_of s' t = Some w → same_but t s s' → handles s' = handles s →
  history s' = Awaits t w :: history s → same_owed s s' → Told s'.
Proof.
  intros HT Hth Hs1 Hs2 Ha Hs Hh Hl Ho. pose proof HT as [T R1 R2 R3].
  apply (told_all s s' t); rewrite ?Hl; [| |done..].
  { rewrite <- Hl. apply (told_others s s' t [Awaits t w] HT); try done; [by repeat constructor|].
    by rewrite Hh. }
  destruct (T t) as [T1 T2 T3 T4 T5 T6 T7 T8]. rewrite Hs2, Ha, Hh.
  destruct (T1 Hth) as (st & Hst & Htaken). rewrite Hst in *. split.
  - done.
  - intros v [[=]|Hin]%elem_of_cons. auto.
  - intros v [= ->]. by destruct (Hs1 v).
  - intros v [[=]|Hin]%elem_of_cons. eauto.
  - done.
  - intros w'. simpl. rewrite decide_True by done. intros [= ->] _.
    destruct st; try done; [by destruct (Hs1 v)].
  - done.
  - done.
Qed.

Lemma told_joined s s' t v :
  Told s → state_of s t = Some (Completed v) → state_of s' t = Some Taken → same_but t s s' →
  handles s' = handles s ∖ {[t]} → history s' = Joined t v :: history s → same_owed s s' → Told s'.
Proof.
  intros HT Hs1 Hs2 Hs Hh Hl Ho. pose proof HT as [T R1 R2 R3].
  destruct (T t) as [T1 T2 T3 T4 T5 T6 T7 T8].
  apply (told_all s s' t); rewrite ?Hl; [| |done|simpl|split; [by apply T3|done]].
  { rewrite <- Hl. apply (told_others s s' t [Joined t v] HT); try done; [by repeat constructor|].
    rewrite Hh. set_solver. }
  2:{ constructor; [|done]. intros [v' Hin]%joined_in. specialize (T4 v' Hin). congruence. }
  rewrite Hs2, Hh. split; try done.
  - intros Hin. set_solver.
  - intros v' Hin. by right.
  - intros w _ Hin. set_solver.
  - intros _. change (t ∈ resolved (history s)). by apply (in_resolved t v), T3.
Qed.

Lemma told_detached s s' t :
  Told s → state_of s' t = state_of s t → same_but t s s' →
  handles s' = handles s ∖ {[t]} → history s' = history s → same_owed s s' → Told s'.
Proof.
  intros HT Hs2 Hs Hh Hl Ho. pose proof HT as [T R1 R2 R3].
  destruct (T t) as [T1 T2 T3 T4 T5 T6 T7 T8].
  apply (told_all s s' t); rewrite ?Hl; [| |done..].
  { rewrite <- Hl. apply (told_others s s' t [] HT); try done. rewrite Hh. set_solver. }
  rewrite Hs2, Hh. split; try done; intros; set_solver.
Qed.

Lemma told_change s s' : Told s → change s s' → Told s'.
Proof.
  intros HT [| | | | | | | |];
    [eapply told_quiet|eapply told_wakes|eapply told_spawned|eapply told_polls|eapply told_pending
    |eapply told_ready|eapply told_awaits|eapply told_joined|eapply told_detached]; eassumption.
Qed.

(** * The steps implement it *)

Lemma awaiter_insert s t sp' x :
  awaiter_of (set_tasks (<[t := sp']> (tasks s)) s) x =
  if decide (x = t) then awaiter (header sp') else awaiter_of s x.
Proof.
  unfold awaiter_of. cbn [tasks set_tasks]. destruct (decide (x = t)) as [->|Hne].
  - by rewrite lookup_insert_eq.
  - by rewrite lookup_insert_ne by done.
Qed.

Lemma awaiter_at s t sp : tasks s !! t = Some sp → awaiter_of s t = awaiter (header sp).
Proof. intros Ht. unfold awaiter_of. by rewrite Ht. Qed.

(** The header of one task is another. *)
Lemma header_view s s' t sp hd :
  tasks s' = <[t := mkSpawned (tag sp) hd]> (tasks s) →
  state_of s' t = Some (task_state hd) ∧ awaiter_of s' t = awaiter hd ∧ same_but t s s'.
Proof.
  intros Ht. unfold same_but, same_at, state_of, awaiter_of. rewrite Ht, lookup_insert_eq. split_and!; [done..|].
  intros x Hx. by rewrite lookup_insert_ne.
Qed.

Lemma wake_view tid h w s :
  (∀ x, state_of (wake_waker tid h w s) x = (if decide (w = WakesTask x) then wake_state else id) <$> state_of s x) ∧
  (∀ x, awaiter_of (wake_waker tid h w s) x = awaiter_of s x) ∧
  handles (wake_waker tid h w s) = handles s ∧ history (wake_waker tid h w s) = Woken w :: history s ∧
  frames (wake_waker tid h w s) = frames s.
Proof.
  unfold wake_waker. destruct w as [t|k].
  2: { split_and!; try done. intros x. rewrite decide_False by done. change (state_of _ x) with (state_of s x). by destruct (state_of s x). }
  cbn [tasks happens]. destruct (tasks s !! t) as [sp|] eqn:Ht.
  2: { split_and!; try done. intros x. change (state_of _ x) with (state_of s x).
    destruct (decide _) as [[= ->]|]; [unfold state_of; by rewrite Ht|by destruct (state_of s x)]. }
  pose proof (task_wake_spec (header sp)) as [Ha Hw]. destruct (task_wake (header sp)) as [again hd]. simpl in Ha, Hw.
  set (s' := if again then _ else _).
  assert (tasks s' = <[t := mkSpawned (tag sp) hd]> (tasks s)) as Htasks by (unfold s'; by destruct again).
  destruct (header_view s s' t sp hd Htasks) as (H1' & H2' & H3').
  split_and!; [| |unfold s'; by destruct again..].
  - intros x. destruct (decide _) as [[= ->]|Hne].
    + rewrite H1', (state_at _ _ _ Ht). simpl. f_equal. destruct (task_state (header sp)); by destruct Hw as [_ ->].
    + destruct (H3' x) as [-> _]; [congruence|]. by destruct (state_of s x).
  - intros x. destruct (decide (x = t)) as [->|Hne]; [|by apply H3'].
    rewrite H2', Ha. by rewrite (awaiter_at _ _ _ Ht).
Qed.

Lemma owes_frame s s' tid f f' :
  frames s !! tid = Some f → frames s' = <[tid := f']> (frames s) →
  ∀ w, owes s w → (∃ ws, phase f = Leaving ws ∧ w ∈ ws) ∨ owes s' w.
Proof.
  intros Hf Hf' w (i & g & ws & Hg & Hp & Hw). destruct (decide (i = tid)) as [->|Hne].
  - left. simplify_eq. by exists ws.
  - right. exists i, g, ws. by rewrite Hf', lookup_insert_ne.
Qed.

(** Who calls wakers at the end of a task still does, if another call moves. *)
Lemma same_owed_phase s s' tid f f' :
  frames s !! tid = Some f → frames s' = <[tid := f']> (frames s) →
  (∀ ws, phase f = Leaving ws → ws = []) → same_owed s s'.
Proof.
  intros Hf Hf' Hp w Hw. destruct (owes_frame s s' tid f f' Hf Hf' w Hw) as [(ws & Hws & Hin)|]; [|done].
  rewrite (Hp _ Hws) in Hin. by apply not_elem_of_nil in Hin.
Qed.

Lemma same_owed_frames s s' : frames s' = frames s → same_owed s s'.
Proof. intros Hf w (i & g & ws & Hg & ?). exists i, g, ws. by rewrite Hf. Qed.

Lemma wake_change tid h w s s0 :
  (∀ x, same_at s s0 x) → handles s0 = handles s → history s0 = history s →
  (∀ w', owes s w' → w' = w ∨ owes s0 w') → change s (wake_waker tid h w s0).
Proof.
  intros Hs Hh Hl Ho. destruct (wake_view tid h w s0) as (Hs' & Ha' & Hh' & Hl' & Hf').
  apply (change_woken _ _ w).
  - intros x. rewrite Hs'. by destruct (Hs x) as [-> _].
  - intros x. rewrite Ha'. apply Hs.
  - congruence.
  - congruence.
  - intros w' Hw. destruct (Ho w' Hw) as [->|]; [by left|right]. by eapply same_owed_frames.
Qed.

Lemma spawn_change tid h b s : change s (Builder_spawn tid h b s).2.
Proof.
  unfold Builder_spawn. cbn [snd]. set (t := fresh (dom (tasks s))). set (s' := schedule_runnable _ _ _ _).
  assert (tasks s' = <[t := mkSpawned (tag (mkSpawned (name b) (async_spawn (H:=H)))) async_spawn]> (tasks s)) as Ht by done.
  destruct (header_view s s' t _ _ Ht) as (H1' & H2' & H3'). destruct async_spawn_spec as [Hsp _].
  apply (change_spawned _ _ t); try done.
  - apply fresh_state.
  - by rewrite H1', Hsp.
  - by apply same_owed_frames.
Qed.

Lemma join_change t w sp s :
  Told s → t ∈ handles s → tasks s !! t = Some sp → change s (join t w sp s).
Proof.
  intros HT Hin Ht. destruct (t_handles _ _ _ _ _ _ (t_task _ HT t) Hin) as (st & Hst & Hne).
  rewrite (state_at _ _ _ Ht) in Hst. injection Hst as Hst.
  pose proof (handle_poll_spec (header sp) w) as Hp. unfold join, JoinHandle_poll.
  destruct (handle_poll w (header sp)) as [r hd]. simpl in Hp.
  assert (∀ s', tasks s' = <[t := mkSpawned (tag sp) hd]> (tasks s) →
    (r = Pending ∧ state_of s' t = state_of s t ∧ (∀ v, state_of s t ≠ Some (Completed v)) ∧
       awaiter_of s' t = Some w ∧ same_but t s s') ∨
    (∃ v, r = Ready (Some v) ∧ state_of s t = Some (Completed v) ∧ state_of s' t = Some Taken ∧ same_but t s s'))
    as Hcase.
  { intros s' Hs'. destruct (header_view s s' t _ _ Hs') as (H1' & H2' & H3').
    rewrite (state_at _ _ _ Ht), H1', H2', Hst in *. clear H1' H2'.
    destruct st; try done; [left|left|left|right];
      [destruct Hp as (-> & -> & ->)..|destruct Hp as (-> & ->)]; eauto 10. }
  destruct r as [[v|]|].
  - destruct (Hcase (happens (Joined t v) (set_handles (handles s ∖ {[t]}) (set_header t sp hd s))) eq_refl)
      as [(? & _)|(v' & [= <-] & H1' & H2' & H3')]; [done|].
    apply (change_joined _ _ t v); try done. by apply same_owed_frames.
  - by destruct (Hcase (set_header t sp hd s) eq_refl) as [(? & _)|(v' & ? & _)].
  - destruct (Hcase (happens (Awaits t w) (set_header t sp hd s)) eq_refl)
      as [(_ & H1' & H2' & H3' & H4')|(v' & ? & _)]; [|done].
    apply (change_awaits _ _ t w); try done. by apply same_owed_frames.
Qed.

Lemma detach_change t sp s :
  Told s → t ∈ handles s → tasks s !! t = Some sp →
  change s (set_handles (handles s ∖ {[t]}) (set_header t sp (handle_drop (header sp)) s)).
Proof.
  intros HT Hin Ht. destruct (t_handles _ _ _ _ _ _ (t_task _ HT t) Hin) as (st & Hst & Hne).
  set (s' := set_handles _ _). destruct (header_view s s' t sp (handle_drop (header sp)) eq_refl) as (H1' & _ & H3').
  apply (change_detached _ _ t); try done; [|by apply same_owed_frames].
  rewrite H1', Hst. f_equal. rewrite (state_at _ _ _ Ht) in Hst. injection Hst as <-.
  by apply handle_drop_spec.
Qed.

Lemma enter_change n s tid f sp :
  Placed n s → runs tid f s → phase f = Entering → tasks s !! task f = Some sp →
  change s (run_enter tid f sp s).
Proof.
  intros HP [Hf _] Hp Ht. pose proof (entering_state n s tid f HP Hf Hp) as Hst.
  pose proof Hst as Hst'. rewrite (state_at _ _ _ Ht) in Hst'. injection Hst' as Hst'.
  destruct (task_run_spec (header sp) Hst') as (Hr & Hs & Ha).
  unfold run_enter. destruct (task_run (header sp)) as [polled hd]. simpl in Hr, Hs, Ha. subst polled.
  set (s' := happens _ _). destruct (header_view s s' (task f) sp hd eq_refl) as (H1' & H2' & H3').
  apply (change_polls _ _ (task f)); try done.
  - by rewrite H1', Hs.
  - by rewrite H2', Ha, (awaiter_at _ _ _ Ht).
  - eapply same_owed_phase; [exact Hf|reflexivity|]. intros ws. by rewrite Hp.
Qed.

Lemma pending_change n s tid f sp :
  Placed n s → runs tid f s → phase f = Polling → tasks s !! task f = Some sp →
  change s (run_pending tid f sp s).
Proof.
  intros HP [Hf _] Hp Ht. destruct (polling_state n s tid f HP Hf Hp) as [woken Hst].
  pose proof Hst as Hst'. rewrite (state_at _ _ _ Ht) in Hst'. injection Hst' as Hst'.
  destruct (task_pending_spec (header sp) woken Hst') as (Ha & Hs & Hw).
  unfold run_pending. destruct (task_pending (header sp)) as [again hd]. simpl in Ha, Hs, Hw. subst again.
  set (s' := if woken then _ else _).
  assert (tasks s' = <[task f := mkSpawned (tag sp) hd]> (tasks s) ∧ handles s' = handles s ∧
    history s' = history s ∧
    frames s' = <[tid := mkFrame (task f) (old_task f) (Leaving [])]> (frames s)) as (Htasks & Hh & Hl & Hf')
    by (unfold s'; by destruct woken).
  destruct (header_view s s' (task f) sp hd Htasks) as (H1' & H2' & H3').
  apply (change_pending _ _ (task f) woken); try done.
  - by rewrite H1', Hs.
  - by rewrite H2', Hw, (awaiter_at _ _ _ Ht).
  - eapply same_owed_phase; [exact Hf|exact Hf'|]. intros ws. by rewrite Hp.
Qed.

Lemma ready_change n s tid f sp v :
  Placed n s → runs tid f s → phase f = Polling → tasks s !! task f = Some sp →
  change s (run_ready tid f sp v s).
Proof.
  intros HP [Hf _] Hp Ht. destruct (polling_state n s tid f HP Hf Hp) as [woken Hst].
  pose proof Hst as Hst'. rewrite (state_at _ _ _ Ht) in Hst'. injection Hst' as Hst'.
  assert (CURRENT s !! tid = Some (task f)) as Hcur.
  { rewrite (p_current _ _ HP), Hf. simpl. by rewrite Hp. }
  destruct (task_ready_spec (header sp) v woken Hst') as (Hws & Hs & Ha).
  unfold run_ready. rewrite Hcur. destruct (task_ready v (header sp)) as [ws hd]. simpl in Hws, Hs, Ha.
  set (s' := happens _ _). destruct (header_view s s' (task f) sp hd eq_refl) as (H1' & H2' & H3').
  apply (change_ready _ _ (task f) woken v); try done.
  - by rewrite H1', Hs.
  - intros w Hw. exists tid, (mkFrame (task f) (old_task f) (Leaving ws)), ws. split_and!; [|done|].
    + cbn. by rewrite lookup_insert_eq.
    + rewrite (awaiter_at _ _ _ Ht) in Hw. rewrite Hws, Hw. by left.
  - eapply same_owed_phase; [exact Hf|reflexivity|]. intros ws'. by rewrite Hp.
Qed.

Lemma leave_change s tid f :
  runs tid f s → phase f = Leaving [] → change s (run_leave tid f s).
Proof.
  intros [Hf _] Hp. apply change_quiet; try done.
  intros w (i & g & ws & Hg & Hph & Hw). exists i, g, ws. split_and!; [|done..]. cbn.
  rewrite lookup_delete_ne; [done|]. intros <-. simplify_eq.
  rewrite Hp in Hph. injection Hph as <-. by apply not_elem_of_nil in Hw.
Qed.

Lemma exec_change n s c tid pc pc' po' ev :
  Placed n s → threads (exec s) !! tid = Some pc → is_running pc = false →
  thread_step c tid pc (pool (exec s)) = Done (Goes pc' po', ev) →
  change s (exec_goes tid pc' po' ev s).
Proof.
  intros HP Ht Hr Hs. pose proof (thread_step_moves c tid pc _ pc' po' ev Hr Hs) as Hm.
  unfold exec_goes. destruct (found ev) as [t|]; [|apply change_quiet; try done; by apply same_owed_frames].
  destruct Hm as (_ & _ & Hh & _). pose proof (p_frames _ _ HP tid) as Hown. rewrite Ht in Hown. simpl in Hown.
  rewrite Hh in Hown. destruct (frames s !! tid) eqn:Hf; [done|]. apply change_quiet; try done.
  intros w (i & g & ws & Hg & Hph & Hw). exists i, g, ws. split_and!; [|done..]. cbn.
  rewrite lookup_insert_ne; [done|]. intros <-. congruence.
Qed.

Lemma turn_change n tid s s' : Placed n s → turn tid s s' → change s s'.
Proof.
  intros HP Ht. destruct Ht as [s c pc pc' po' ev Ht Hr Hs|s f sp Hr Hp Ht|s f sp Hr Hp Ht|s f sp v Hr Hp Ht
    |s f Hr Hp|s f w ws Hr Hp|s f Hr Hp].
  - by eapply exec_change.
  - by eapply enter_change.
  - by eapply pending_change.
  - by eapply ready_change.
  - apply change_quiet; try done. by apply same_owed_frames.
  - apply wake_change; try done. intros w' Hw.
    destruct (owes_frame s (set_phase tid f (Leaving ws) s) tid f _ (proj1 Hr) eq_refl w' Hw)
      as [(ws' & Hws & Hin)|]; [|by right].
    rewrite Hp in Hws. injection Hws as <-. apply elem_of_cons in Hin as [->|Hin]; [by left|right].
    exists tid, (mkFrame (task f) (old_task f) (Leaving ws)), ws. cbn. by rewrite lookup_insert_eq.
  - by apply leave_change.
Qed.

Lemma step_change n s s' : Placed n s → Told s → step s s' → change s s'.
Proof.
  intros HP HT Hs. destruct Hs as [tid s s' _ Ht|tid h w s _ Hu|tid h b s _ Hu|tid h t w sp s _ Hu Hin Ht
    |tid h t sp s _ Hu Hin Ht].
  - by eapply turn_change.
  - apply wake_change; auto. by intros x.
  - apply spawn_change.
  - by apply join_change.
  - by apply detach_change.
Qed.

(** ** Reachable states *)

Lemma placed_turn n tid s s' : Placed n s → 0 < n → turn tid s s' → Placed n s'.
Proof.
  intros HP Hn Ht. destruct Ht as [s c pc pc' po' ev Ht Hr Hs|s f sp Hr Hp Ht|s f sp Hr Hp Ht|s f sp v Hr Hp Ht
    |s f Hr Hp|s f w ws Hr Hp|s f Hr Hp].
  - by eapply placed_exec.
  - by apply placed_enter.
  - by apply placed_pending.
  - by apply placed_ready.
  - destruct HP. by split.
  - by apply placed_wakes.
  - by apply placed_leave.
Qed.

Lemma placed_join n s tid h t w sp :
  Placed n s → Told s → 0 < n → may_schedule tid h s → t ∈ handles s → tasks s !! t = Some sp →
  Placed n (join t w sp s).
Proof.
  intros HP HT Hn Hm Hin Ht. destruct (t_handles _ _ _ _ _ _ (t_task _ HT t) Hin) as (st & Hst & Hne).
  rewrite (state_at _ _ _ Ht) in Hst. injection Hst as Hst.
  pose proof (handle_poll_spec (header sp) w) as Hp. unfold join, JoinHandle_poll.
  destruct (handle_poll w (header sp)) as [r hd]. simpl in Hp. rewrite Hst in Hp.
  assert (∀ hs, Placed n (set_handles hs (set_header t sp hd s))) as Hset.
  { assert (is_referenced (task_state hd) = is_referenced st ∧ is_polled (task_state hd) = is_polled st) as [Hr1 Hr2].
    { destruct st; try done; [destruct Hp as (_ & -> & _)..|destruct Hp as (_ & ->)]; done. }
    intros hs. apply (placed_header n s tid h); congruence || done. }
  destruct r as [[v|]|]; apply placed_happens, Hset.
Qed.

Lemma placed_step n s s' : Placed n s → Told s → 0 < n → step s s' → Placed n s'.
Proof.
  intros HP HT Hn Hs. destruct Hs as [tid s s' _ Ht|tid h w s _ Hu|tid h b s _ Hu|tid h t w sp s _ Hu Hin Ht
    |tid h t sp s _ Hu Hin Ht].
  - by eapply placed_turn.
  - eapply placed_wake; [done|by apply user_code_may|done].
  - eapply placed_spawn; [done|by apply user_code_may|done].
  - eapply placed_join; try done. by apply user_code_may.
  - destruct (t_handles _ _ _ _ _ _ (t_task _ HT t) Hin) as (st & Hst & Hne).
    rewrite (state_at _ _ _ Ht) in Hst. injection Hst as Hst.
    apply (placed_header n s tid h); try done; [by apply user_code_may|..];
      by rewrite handle_drop_spec by congruence.
Qed.

Lemma spawn_reachable seeds s :
  reachable seeds s → 0 < length seeds ∧ Placed (length seeds) s ∧ Told s.
Proof.
  intros [Hg Hr]. assert (0 < length seeds) as Hn by (destruct Hg; destruct seeds; simpl; [done|lia]).
  split; [done|]. revert Hr. apply (rtc_ind_r (λ s, Placed (length seeds) s ∧ Told s)).
  - split; [by apply placed_initial|apply told_initial].
  - intros s1 s2 _ Hs [HP HT]. split; [by eapply placed_step|].
    eapply told_change; [done|by eapply step_change].
Qed.

(** ** Somebody moves *)

Lemma frame_task n s tid f :
  Placed n s → frames s !! tid = Some f → phase f = Entering ∨ phase f = Polling →
  ∃ sp, tasks s !! task f = Some sp.
Proof.
  intros HP Hf Hp. assert (∃ st, state_of s (task f) = Some st) as [st Hst].
  { destruct Hp as [Hp|Hp]; [eexists; by eapply entering_state|].
    destruct (polling_state n s tid f HP Hf Hp) as [woken ?]. by eexists. }
  unfold state_of in Hst. destruct (tasks s !! task f) as [sp|]; [by exists sp|done].
Qed.

(** A thread that can take a step of the executor takes a turn. *)
Lemma goes_turn n s tid pc c pc' po' ev :
  Placed n s → threads (exec s) !! tid = Some pc →
  thread_step c tid pc (pool (exec s)) = Done (Goes pc' po', ev) → ∃ s', turn tid s s'.
Proof.
  intros HP Ht Hs. destruct (is_running pc) eqn:Hr; [|eexists; by eapply turn_exec].
  destruct pc as [| | | |t| | |]; try discriminate Hr.
  pose proof (p_frames _ _ HP tid) as Hown. rewrite Ht in Hown. simpl in Hown.
  destruct (frames s !! tid) as [f|] eqn:Hf; [|done]. injection Hown as ->.
  assert (runs tid f s) as Hruns by done.
  destruct (phase f) as [| |[|w ws]] eqn:Hp.
  - destruct (frame_task n s tid f HP Hf) as [sp Hsp]; [by left|]. eexists. by eapply turn_enter.
  - destruct (frame_task n s tid f HP Hf) as [sp Hsp]; [by right|]. eexists. by eapply turn_pending.
  - eexists. by apply turn_leave.
  - eexists. by eapply turn_wakes.
Qed.

(** A thread that is not asleep, as long as there is something to run. *)
Lemma somebody_awake n s :
  Placed n s → 0 < n → references s ++ pollers s ≠ [] →
  ∃ tid pc, threads (exec s) !! tid = Some pc ∧
    ¬ (pc = Wait WAsleep ∧ tid ∈ wake (sleepers (pool (exec s)))).
Proof.
  intros HP Hn Hne.
  assert (∀ tid f, frames s !! tid = Some f → ∃ pc, threads (exec s) !! tid = Some pc ∧ holder pc = Some (task f))
    as Hframe.
  { intros tid f Hf. pose proof (p_frames _ _ HP tid) as Hown. rewrite Hf in Hown.
    destruct (threads (exec s) !! tid) as [pc|]; [|done]. by exists pc. }
  unfold references, pollers in Hne.
  destruct (queued (pool (exec s))) as [|q qs] eqn:Hq.
  - simpl in Hne. destruct (gathered pushing (threads (exec s))) as [|t l] eqn:Hp; [simpl in Hne|].
    + assert (∃ tid f, frames s !! tid = Some f) as (tid & f & Hf).
      { destruct (gathered entering (frames s)) as [|t l] eqn:He; simpl in Hne.
        - destruct (gathered polling (frames s)) as [|t l] eqn:Hpoll; [done|].
          assert (t ∈ gathered polling (frames s)) as (tid & f & Hf & _)%gathered_elem by (rewrite Hpoll; left).
          eauto.
        - assert (t ∈ gathered entering (frames s)) as (tid & f & Hf & _)%gathered_elem by (rewrite He; left).
          eauto. }
      destruct (Hframe tid f Hf) as (pc & Ht & Hh). exists tid, pc. split; [done|]. by intros [-> _].
    + assert (t ∈ gathered pushing (threads (exec s))) as (tid & pc & Ht & Hin)%gathered_elem by (rewrite Hp; left).
      exists tid, pc. split; [done|]. intros [-> _]. by apply not_elem_of_nil in Hin.
  - destruct (decide (map_Forall (λ tid pc, asleep (exec s) tid pc = true) (threads (exec s)))) as [Hall|Hex].
    + rewrite (all_asleep n (exec s)) in Hq; [done|apply HP|done|].
      intros tid pc Ht. by apply asleep_spec, Hall.
    + apply map_not_Forall in Hex as (tid & pc & Ht & Ha); [|apply _].
      exists tid, pc. split; [done|]. by rewrite <- asleep_spec.
Qed.

Lemma somebody_turns seeds s :
  reachable seeds s → references s ++ pollers s ≠ [] → ∃ tid s', turn tid s s'.
Proof.
  intros Hr Hne. destruct (spawn_reachable seeds s Hr) as (Hn & HP & _). destruct Hr as [(_ & Hlen & _) _].
  destruct (somebody_awake _ s HP Hn Hne) as (tid & pc & Ht & Ha).
  destruct (somebody_goes (length seeds) (exec s) tid pc) as (tid' & pc1 & c & pc' & po' & ev & Ht' & Hs);
    [apply HP|done..|]. exists tid'. by eapply goes_turn.
Qed.
End Change.

(** * The theorems *)

Section Theorems.
Context {Q I H V : Type} `{DequeLaws Q I nat} `{AsyncTaskLaws H V Waker}.
Implicit Types (s : System (Q:=Q) (I:=I) (H:=H) (V:=V)).

(** C11 Spawned tasks are run when they have to be.  In every reachable state of the
    executor's threads, the code of tasks and the threads that wake them:
    - a task has at most one [Runnable], and none while it is polled, and no two
      threads poll it at once;
    - a thread in a task's code has that task as its current one, and has no
      current task when it is in no task's code;
    - a task that was spawned, or whose waker was called, since its last poll began,
      has its result, or has a [Runnable], or is being polled and will be scheduled
      when that poll is over;
    - and as long as there is a [Runnable], or a poll, a thread moves.
    What is spawned is a new task with the name given and a [Runnable]. *)
Theorem spawned_tasks_run seeds s (Hr : reachable seeds s) :
  NoDup (references s ++ pollers s) ∧
  (∀ tid f, frames s !! tid = Some f → phase f ≠ Entering → CURRENT s !! tid = Some (task f)) ∧
  (∀ tid, frames s !! tid = None → CURRENT s !! tid = None) ∧
  (∀ t sp, tasks s !! t = Some sp → due t (history s) = true →
     t ∈ resolved (history s) ∨ t ∈ references s ∨
     (t ∈ pollers s ∧ (task_pending (header sp)).1 = true)) ∧
  (references s ++ pollers s ≠ [] → ∃ tid s', turn tid s s') ∧
  (∀ tid h b, user_code tid h s → ∃ t s', Builder_spawn tid h b s = (Ok t, s') ∧
     tasks s !! t = None ∧ JoinHandle_task t s' = Some (name b) ∧ t ∈ handles s' ∧
     references s' ≡ₚ t :: references s).
Proof.
  destruct (spawn_reachable seeds s Hr) as (Hn & HP & HT). split_and!.
  - apply NoDup_times. intros t. rewrite times_app, (p_refs _ _ HP), (p_polls _ _ HP).
    destruct (state_of s t) as [[]|]; simpl; lia.
  - intros tid f Hf Hp. rewrite (p_current _ _ HP), Hf. simpl. by destruct (phase f).
  - intros tid Hf. by rewrite (p_current _ _ HP), Hf.
  - intros t sp Ht Hd. pose proof (t_due _ _ _ _ _ _ (t_task _ HT t) Hd) as Hs.
    pose proof (p_refs _ _ HP t) as Hrefs. pose proof (p_polls _ _ HP t) as Hpolls.
    rewrite (state_at _ _ _ Ht) in *. destruct (task_state (header sp)) as [| |[]|v|] eqn:Hst; try done.
    + right. left. apply times_elem. simpl in Hrefs. lia.
    + right. right. split; [apply times_elem; simpl in Hpolls; lia|].
      by destruct (task_pending_spec (header sp) true Hst) as [-> _].
    + left. apply (in_resolved t v), (t_completed _ _ _ _ _ _ (t_task _ HT t)).
      by rewrite (state_at _ _ _ Ht), Hst.
    + left. apply (t_taken _ _ _ _ _ _ (t_task _ HT t)). by rewrite (state_at _ _ _ Ht), Hst.
  - intros Hne. by eapply somebody_turns.
  - intros tid h b Hu. eexists _, _. split; [reflexivity|]. set (t := fresh (dom (tasks s))). split_and!.
    + apply not_elem_of_dom, is_fresh.
    + unfold JoinHandle_task. cbn. by rewrite lookup_insert_eq.
    + cbn. set_solver.
    + apply perm_times. intros x. pose proof (user_code_may tid h s Hu) as Hm.
      pose proof (may_schedule_pushes (length seeds) tid h s HP Hm) as Hp.
      rewrite refs_schedule by exact Hp.
      change (t :: references s) with ([t] ++ references s). by rewrite times_app.
Qed.

(** C12 A [JoinHandle] gives the result of its task.  In every reachable state: no
    handle has panicked, the message for that can not be reached; a result that a
    handle has given is one that the future returned before, with the locals of
    the task dropped just before that; a future returns once, and a result is given
    once.  As long as there is the handle of a task whose future has returned,
    polling the handle gives that result, and if its last poll was pending, the waker of
    that poll has been called, or a thread is about to call it. *)
Theorem join_handles seeds s (Hr : reachable seeds s) :
  (∀ t, JoinPanics t ∉ history s) ∧
  (∀ later t v before, history s = later ++ Joined t v :: before → Resolves t v ∈ before) ∧
  (∀ later t v before, history s = later ++ Resolves t v :: before → head before = Some (DropsLocals t)) ∧
  NoDup (resolved (history s)) ∧ NoDup (joined (history s)) ∧
  (∀ t v, Resolves t v ∈ history s → t ∈ handles s →
     (∃ sp, tasks s !! t = Some sp ∧ ∀ w, ∃ hd, JoinHandle_poll w (header sp) = (Some (Ready v), hd)) ∧
     ∀ w, waits t (history s) = Some (w, false) → owes s w).
Proof.
  destruct (spawn_reachable seeds s Hr) as (Hn & HP & [T R1 R2 R3]). split_and!; [| | |done|done|].
  - intros t (later & before & Hl)%list_elem_of_split. rewrite Hl in R3. by apply in_order_at in R3.
  - intros later t v before Hl. rewrite Hl in R3. by apply in_order_at in R3.
  - intros later t v before Hl. rewrite Hl in R3. by apply in_order_at in R3.
  - intros t v Hv Hin. destruct (T t) as [T1 T2 T3 T4 T5 T6 T7 T8].
    assert (state_of s t = Some (Completed v)) as Hst.
    { destruct (T2 v Hv) as [|Ht]; [done|]. destruct (T1 Hin) as (st & Hst & Hne). congruence. }
    rewrite Hst in *. split; [|intros w Hw; by apply T6].
    unfold state_of in Hst. destruct (tasks s !! t) as [sp|]; [|done]. injection Hst as Hst.
    exists sp. split; [done|]. intros w. pose proof (handle_poll_spec (header sp) w) as Hp. rewrite Hst in Hp.
    unfold JoinHandle_poll. destruct (handle_poll w (header sp)) as [r hd]. destruct Hp as [Hp _]. simpl in Hp.
    subst r. by exists hd.
Qed.
End Theorems.

(** * A run, computed *)

Section Play.
Context {Q I H V : Type} `{Deque Q I nat} `{AsyncTask H V Waker}.
Implicit Types (s : System (Q:=Q) (I:=I) (H:=H) (V:=V)).

Inductive Move : Type :=
| Execs (c tid : nat)
| Enters (tid : nat)
| Pends (tid : nat)
| Readies (tid : nat) (v : V)
| Calls (tid : nat)
| Leaves (tid : nat)
| UserWakes (tid : nat) (w : Waker)          (* by a thread outside the pool *)
| UserSpawns (tid : nat) (b : Builder)
| UserJoins (tid t : nat) (w : Waker).

(** The call of [Runnable::run] of the worker [tid], with its task. *)
Definition running_at (tid : nat) s : option (Frame * Spawned H) :=
  match threads (exec s) !! tid, frames s !! tid with
  | Some (Running t), Some f =>
      if decide (t = task f) then sp ← tasks s !! t; Some (f, sp) else None
  | _, _ => None
  end.

Definition outside (tid : nat) s : bool :=
  match processors (pool (exec s)) !! tid, threads (exec s) !! tid with None, None => true | _, _ => false end.

Definition spawn_play (m : Move) s : option (System (Q:=Q) (I:=I) (H:=H) (V:=V)) :=
  if aborted s then None else
  match m with
  | Execs c tid =>
      pc ← threads (exec s) !! tid;
      if is_running pc then None else
      match thread_step c tid pc (pool (exec s)) with
      | Done (Goes pc' po', ev) => Some (exec_goes tid pc' po' ev s)
      | _ => None
      end
  | Enters tid =>
      '(f, sp) ← running_at tid s; if phase f is Entering then Some (run_enter tid f sp s) else None
  | Pends tid =>
      '(f, sp) ← running_at tid s; if phase f is Polling then Some (run_pending tid f sp s) else None
  | Readies tid v =>
      '(f, sp) ← running_at tid s; if phase f is Polling then Some (run_ready tid f sp v s) else None
  | Calls tid =>
      '(f, sp) ← running_at tid s;
      if phase f is Leaving (w :: ws)
      then Some (wake_waker tid (Some (task f)) w (set_phase tid f (Leaving ws) s)) else None
  | Leaves tid =>
      '(f, sp) ← running_at tid s; if phase f is Leaving [] then Some (run_leave tid f s) else None
  | UserWakes tid w => if outside tid s then Some (wake_waker tid None w s) else None
  | UserSpawns tid b => if outside tid s then Some (Builder_spawn tid None b s).2 else None
  | UserJoins tid t w =>
      if outside tid s && bool_decide (t ∈ handles s) then sp ← tasks s !! t; Some (join t w sp s) else None
  end.

Lemma running_at_runs tid s f sp :
  running_at tid s = Some (f, sp) → runs tid f s ∧ tasks s !! task f = Some sp.
Proof.
  unfold running_at, runs. destruct (threads (exec s) !! tid) as [[| | | |t| | |]|] eqn:Ht; try done.
  destruct (frames s !! tid) as [g|]; [|done]. destruct (decide (t = task g)) as [->|]; [|done].
  destruct (tasks s !! task g) as [sp'|] eqn:Hsp; [|done]. by intros [= -> ->].
Qed.

Lemma outside_user tid s : outside tid s = true → user_code tid None s.
Proof.
  unfold outside, user_code. destruct (processors _ !! tid); [done|]. by destruct (threads _ !! tid).
Qed.

Lemma spawn_play_step m s s' : spawn_play m s = Some s' → step s s'.
Proof.
  unfold spawn_play. destruct (aborted s) eqn:Ha; [done|]. intros Hp.
  assert (∀ tid (g : Frame → Spawned H → option (System (Q:=Q) (I:=I) (H:=H) (V:=V))),
    ('(f, sp) ← running_at tid s; g f sp) = Some s' →
    ∃ f sp, runs tid f s ∧ tasks s !! task f = Some sp ∧ g f sp = Some s') as Hrun.
  { intros tid g Hg. destruct (running_at tid s) as [[f sp]|] eqn:Hr; [|done].
    apply running_at_runs in Hr as [? ?]. eauto. }
  destruct m as [c tid|tid|tid|tid v|tid|tid|tid w|tid b|tid t w].
  - apply step_turn with tid; [done|]. destruct (threads (exec s) !! tid) as [pc|] eqn:Ht; [|done]. simpl in Hp.
    destruct (is_running pc) eqn:Hr; [done|].
    destruct (thread_step c tid pc (pool (exec s))) as [[[|pc' po'] ev]| |] eqn:Hs; try done.
    injection Hp as <-. by eapply turn_exec.
  - apply step_turn with tid; [done|]. apply Hrun in Hp as (f & sp & Hr & Hsp & Hp).
    destruct (phase f) eqn:Hph; try done. injection Hp as <-. by apply turn_enter.
  - apply step_turn with tid; [done|]. apply Hrun in Hp as (f & sp & Hr & Hsp & Hp).
    destruct (phase f) eqn:Hph; try done. injection Hp as <-. by apply turn_pending.
  - apply step_turn with tid; [done|]. apply Hrun in Hp as (f & sp & Hr & Hsp & Hp).
    destruct (phase f) eqn:Hph; try done. injection Hp as <-. by apply turn_ready.
  - apply step_turn with tid; [done|]. apply Hrun in Hp as (f & sp & Hr & Hsp & Hp).
    destruct (phase f) as [| |[|w ws]] eqn:Hph; try done. injection Hp as <-. by apply turn_wakes.
  - apply step_turn with tid; [done|]. apply Hrun in Hp as (f & sp & Hr & Hsp & Hp).
    destruct (phase f) as [| |[|w ws]] eqn:Hph; try done. injection Hp as <-. by apply turn_leave.
  - destruct (outside tid s) eqn:Ho; [|done]. injection Hp as <-. apply step_wake; [done|by apply outside_user].
  - destruct (outside tid s) eqn:Ho; [|done]. injection Hp as <-. apply step_spawn; [done|by apply outside_user].
  - destruct (outside tid s) eqn:Ho; [|done]. simpl in Hp. case_bool_decide as Hin; [|done].
    destruct (tasks s !! t) as [sp|] eqn:Hsp; [|done]. injection Hp as <-.
    apply (step_join tid None); [done|by apply outside_user|done..].
Qed.

Definition spawn_plays (ms : list Move) s : option (System (Q:=Q) (I:=I) (H:=H) (V:=V)) :=
  foldl (λ o m, o ≫= spawn_play m) (Some s) ms.

Lemma spawn_plays_steps ms s s' : spawn_plays ms s = Some s' → rtc step s s'.
Proof.
  unfold spawn_plays. revert s'. induction ms as [|m ms IH] using rev_ind; intros s' Hp.
  - by injection Hp as <-.
  - rewrite foldl_snoc in Hp. destruct (foldl _ _ ms) as [s1|] eqn:Hf; [|done].
    eapply rtc_r; [by apply IH|by eapply spawn_play_step].
Qed.
End Play.

(** A task that is the state of the documentation itself. *)
Definition Documented : Type := TaskState nat * option Waker.

#[global] Instance documented_AsyncTask : AsyncTask Documented nat Waker := {
  async_spawn := (Referenced, None);
  task_wake '(st, aw) :=
    match st with
    | Idle => (true, (Referenced, aw))
    | Polled _ => (false, (Polled true, aw))
    | st => (false, (st, aw))
    end;
  task_run '(st, aw) := (true, (Polled false, aw));
  task_pending '(st, aw) :=
    match st with
    | Polled true => (true, (Referenced, aw))
    | _ => (false, (Idle, aw))
    end;
  task_ready v '(st, aw) := (option_list aw, (Completed v, None));
  handle_poll w '(st, aw) :=
    match st with
    | Completed v => (Ready (Some v), (Taken, aw))
    | Taken => (Ready None, (Taken, aw))
    | st => (Pending, (st, Some w))
    end;
  handle_drop h := h
}.

#[global] Instance documented_AsyncTaskLaws : AsyncTaskLaws Documented nat Waker.
Proof.
  refine {| task_state (h : Documented) := h.1; awaiter (h : Documented) := h.2 |}; simpl.
  - done.
  - by intros [[] aw].
  - intros [st aw]. simpl. by intros ->.
  - intros [st aw] woken. simpl. intros ->. by destruct woken.
  - intros [st aw] v woken. done.
  - by intros [[] aw] w.
  - done.
Defined.

(** A thread outside the pool spawns a task and awaits it; the task is woken while it is
    polled, polled again, and ready. *)
Definition until_woken : list (Move (V:=nat)) :=
  [UserSpawns 5 Builder_new; Execs 0 5; Execs 0 0; Execs 0 0; Execs 0 0; Enters 0;
   UserJoins 7 0 (WakesOther 1); UserWakes 7 (WakesTask 0); Pends 0].
Definition until_resolved : list (Move (V:=nat)) :=
  until_woken ++ [Execs 0 0; Leaves 0; Execs 0 0; Enters 0; Readies 0 42].

Abbreviation Sys := (System (Q:=list nat) (I:=list nat) (H:=Documented) (V:=nat)).
Definition state_woken : Sys := default (initial [1%N]) (spawn_plays until_woken (initial [1%N])).
Definition state_ready : Sys := default (initial [1%N]) (spawn_plays until_resolved (initial [1%N])).

Lemma one_seed : good_seeds [1%N].
Proof. split_and!; [done|vm_compute; reflexivity|repeat constructor]. Qed.

Lemma state_woken_reachable : reachable [1%N] state_woken.
Proof. split; [exact one_seed|]. apply (spawn_plays_steps until_woken). vm_compute. reflexivity. Qed.
Lemma state_ready_reachable : reachable [1%N] state_ready.
Proof. split; [exact one_seed|]. apply (spawn_plays_steps until_resolved). vm_compute. reflexivity. Qed.

Lemma spawned_tasks_run_witness :
  due 0 (history state_woken) = true ∧ resolved (history state_woken) = [] ∧ pollers state_woken = [] ∧
  0 ∈ references state_woken ∧ ∃ tid s', turn tid state_woken s'.
Proof.
  destruct (spawned_tasks_run _ _ state_woken_reachable) as (_ & _ & _ & Hdue & Hmoves & _).
  assert (due 0 (history state_woken) = true) as H1 by (vm_compute; reflexivity).
  assert (resolved (history state_woken) = []) as H2 by (vm_compute; reflexivity).
  assert (pollers state_woken = []) as H3 by (vm_compute; reflexivity).
  assert (references state_woken = [0]) as H4 by (vm_compute; reflexivity).
  split_and!; [exact H1|exact H2|exact H3| |apply Hmoves; by rewrite H4].
  destruct (Hdue 0 (mkSpawned None (Referenced, Some (WakesOther 1)))) as [Hr|[Hr|[Hr _]]];
    [vm_compute; reflexivity|exact H1| |exact Hr|].
  - rewrite H2 in Hr. by apply not_elem_of_nil in Hr.
  - rewrite H3 in Hr. by apply not_elem_of_nil in Hr.
Defined.

Lemma join_handles_witness :
  Resolves 0 42 ∈ history state_ready ∧ 0 ∈ handles state_ready ∧
  waits 0 (history state_ready) = Some (WakesOther 1, false) ∧ owes state_ready (WakesOther 1).
Proof.
  destruct (join_handles _ _ state_ready_reachable) as (_ & _ & _ & _ & _ & Hres).
  assert (Resolves 0 42 ∈ history state_ready) as H1.
  { replace (history state_ready) with (Resolves 0 42 :: tail (history state_ready)) by (vm_compute; reflexivity). left. }
  assert (0 ∈ handles state_ready) as H2 by (apply (bool_decide_unpack _); vm_compute; exact Logic.I).
  assert (waits 0 (history state_ready) = Some (WakesOther 1, false)) as H3 by (vm_compute; reflexivity).
  split_and!; [exact H1|exact H2|exact H3|]. by apply (Hres 0 42).
Defined.
