(* ===== verification/IoVectored.v ===== *)
(** Reading into and writing from several buffers at once (src/src/io: read/chain.rs,
    buf_reader.rs, cursor.rs, read_vectored.rs, write_vectored.rs), and the cursors that
    write into a slice or a borrowed vector.  A vectored read is to do what one read
    of the buffers joined would; it does, except for [Chain]. *)

From stdpp Require Import strings.
From Stdlib Require Import Strings.Byte.
From S2P Require Import Prelude Async Io IoBuf IoRead IoExt IoLaws.
Local Open Scope async_scope.

(** * The traits *)

(** The buffers are given by their lengths; they are filled in order, and the answer
    is what was put into them. *)
Class AsyncReadVectored (R : Type) : Type :=
  poll_read_vectored : nat → list nat → R → Eff (Poll (Result bytes Error) * R).
#[global] Hint Mode AsyncReadVectored ! : typeclass_instances.

Class AsyncWriteVectored (W : Type) : Type :=
  poll_write_vectored : nat → list bytes → W → Eff (Poll (Result nat Error) * W).
#[global] Hint Mode AsyncWriteVectored ! : typeclass_instances.

(** "The default implementation calls [read] with either the first nonempty buffer
    provided, or an empty one if none exists", and that of [write_vectored] the same. *)
Definition default_read_vectored {R : Type} `{AsyncRead R} (fuel : nat) (bufs : list nat) (r : R) :
    Eff (Poll (Result bytes Error) * R) :=
  poll_read fuel (default 0 (List.find (λ len, negb (len =? 0)) bufs)) r.
Definition default_write_vectored {W : Type} `{AsyncWrite W} (fuel : nat) (bufs : list bytes) (v : W) :
    Eff (Poll (Result nat Error) * W) :=
  poll_write fuel (default [] (List.find (λ b, negb (length b =? 0)) bufs)) v.

(** * cursor.rs *)

(** [read_vectored] of [std::io::Cursor] reads into one buffer after the other, as long as
    they are filled. *)
Fixpoint std_cursor_read_vectored (bufs : list nat) (c : Cursor) : Eff (bytes * Cursor) :=
  match bufs with
  | [] => mret ([], c)
  | len :: bufs =>
      let b := take len (std_cursor_fill_buf c) in
      c ← std_cursor_advance (length b) c;
      if length b <? len then mret (b, c)
      else '(b', c) ← std_cursor_read_vectored bufs c; mret (b ++ b', c)
  end.
Definition Cursor_poll_read_vectored (fuel : nat) (bufs : list nat) (this : Cursor) :
    Eff (Poll (Result bytes Error) * Cursor) :=
  '(b, c) ← std_cursor_read_vectored bufs this; mret (Ready (Ok b), c).
#[global] Instance Cursor_AsyncReadVectored : AsyncReadVectored Cursor := Cursor_poll_read_vectored.

(** [Cursor<&mut [u8]>]: what does not fit into the slice is not written. *)
Record SliceCursor : Type := mkSliceCursor { slice_cursor : Cursor }.

Definition std_slice_write (buf : bytes) (c : Cursor) : Eff (nat * Cursor) :=
  let inner := cursor_inner c in
  let p := N.to_nat (N.min (cursor_pos c) (N.of_nat (length inner))) in
  let amt := length buf `min` (length inner - p) in
  pos ← usize_add (cursor_pos c) (N.of_nat amt);
  mret (amt, mkCursor (take p inner ++ take amt buf ++ drop (p + amt) inner) pos).
Fixpoint std_slice_write_vectored (bufs : list bytes) (c : Cursor) : Eff (nat * Cursor) :=
  match bufs with
  | [] => mret (0, c)
  | buf :: bufs =>
      '(n, c) ← std_slice_write buf c;
      if n <? length buf then mret (n, c)
      else '(n', c) ← std_slice_write_vectored bufs c; mret (n + n', c)
  end.

Definition SliceCursor_poll_write (fuel : nat) (buf : bytes) (this : SliceCursor) :
    Eff (Poll (Result nat Error) * SliceCursor) :=
  '(n, c) ← std_slice_write buf (slice_cursor this); mret (Ready (Ok n), mkSliceCursor c).
Definition SliceCursor_poll_write_vectored (fuel : nat) (bufs : list bytes) (this : SliceCursor) :
    Eff (Poll (Result nat Error) * SliceCursor) :=
  '(n, c) ← std_slice_write_vectored bufs (slice_cursor this); mret (Ready (Ok n), mkSliceCursor c).
Definition SliceCursor_poll_flush (fuel : nat) (this : SliceCursor) :
    Eff (Poll (Result () Error) * SliceCursor) := mret (Ready (Ok ()), this).
Definition SliceCursor_poll_close (fuel : nat) (this : SliceCursor) :
    Eff (Poll (Result () Error) * SliceCursor) := SliceCursor_poll_flush fuel this.
#[global] Instance SliceCursor_AsyncWrite : AsyncWrite SliceCursor :=
  {| poll_write := SliceCursor_poll_write; poll_flush := SliceCursor_poll_flush;
     poll_close := SliceCursor_poll_close |}.
#[global] Instance SliceCursor_AsyncWriteVectored : AsyncWriteVectored SliceCursor :=
  SliceCursor_poll_write_vectored.

(** [Cursor<&mut Vec<u8>>] writes as [Cursor<Vec<u8>>] does. *)
Record MutVecCursor : Type := mkMutVecCursor { mut_vec_cursor : Cursor }.
Definition MutVecCursor_poll_write (fuel : nat) (buf : bytes) (this : MutVecCursor) :
    Eff (Poll (Result nat Error) * MutVecCursor) :=
  '(n, c) ← std_cursor_write buf (mut_vec_cursor this); mret (Ready (Ok n), mkMutVecCursor c).
Definition MutVecCursor_poll_flush (fuel : nat) (this : MutVecCursor) :
    Eff (Poll (Result () Error) * MutVecCursor) := mret (Ready (Ok ()), this).
Definition MutVecCursor_poll_close (fuel : nat) (this : MutVecCursor) :
    Eff (Poll (Result () Error) * MutVecCursor) := MutVecCursor_poll_flush fuel this.
#[global] Instance MutVecCursor_AsyncWrite : AsyncWrite MutVecCursor :=
  {| poll_write := MutVecCursor_poll_write; poll_flush := MutVecCursor_poll_flush;
     poll_close := MutVecCursor_poll_close |}.

(** * read/chain.rs *)

Definition Chain_poll_read_vectored {T U : Type} `{AsyncReadVectored T} `{AsyncReadVectored U} (fuel : nat)
    (bufs : list nat) (this : Chain T U) : Eff (Poll (Result bytes Error) * Chain T U) :=
  let read_second this :=
    '(r, second) ← poll_read_vectored fuel bufs (second this);
    mret (r, mkChain (first this) second (done_first this)) in
  if done_first this then read_second this
  else
    '(r, first) ← poll_read_vectored fuel bufs (first this);
    let this := mkChain first (second this) false in
    match r with
    | Pending => mret (Pending, this)
    | Ready (Ok b) =>
        if (length b =? 0) && negb (length bufs =? 0) then read_second (mkChain first (second this) true)
        else mret (Ready (Ok b), this)
    | Ready (Err err) => mret (Ready (Err err), this)
    end.
#[global] Instance Chain_AsyncReadVectored {T U} `{AsyncReadVectored T} `{AsyncReadVectored U} :
    AsyncReadVectored (Chain T U) := Chain_poll_read_vectored.

(** * buf_reader.rs *)

Definition BufReader_poll_read_vectored {R : Type} `{AsyncRead R} `{AsyncReadVectored R} (fuel : nat)
    (bufs : list nat) (this : BufReader R) : Eff (Poll (Result bytes Error) * BufReader R) :=
  let total_len := sum_list bufs in
  if (br_pos this =? br_cap this) && (length (br_buf this) <=? total_len) then
    '(r, inner) ← poll_read_vectored fuel bufs (br_inner this);
    ready! r := r else mret (Pending, br_set_inner inner this) in
    mret (Ready r, discard_buffer (br_set_inner inner this))
  else
    '(r, this) ← BufReader_poll_fill_buf fuel this;
    ready! r := r else mret (Pending, this) in
    match r with
    | Err e => mret (Ready (Err e), this)
    | Ok rem =>
        let b := take total_len rem in                                (* rem.read_vectored(bufs) *)
        this ← BufReader_consume (length b) this;
        mret (Ready (Ok b), this)
    end.
#[global] Instance BufReader_AsyncReadVectored {R} `{AsyncRead R} `{AsyncReadVectored R} :
    AsyncReadVectored (BufReader R) := BufReader_poll_read_vectored.

(** * read_vectored.rs, write_vectored.rs *)

Record ReadVectoredFuture (R : Type) : Type := mkReadVectoredFuture { rv_reader : R; rv_bufs : list nat }.
Arguments mkReadVectoredFuture {R}.
Arguments rv_reader {R}.
Arguments rv_bufs {R}.
Definition ReadVectoredFuture_poll {R : Type} `{AsyncReadVectored R} (fuel : nat) (this : ReadVectoredFuture R) :
    Eff (Poll (Result bytes Error) * ReadVectoredFuture R) :=
  '(r, reader) ← poll_read_vectored fuel (rv_bufs this) (rv_reader this);
  mret (r, mkReadVectoredFuture reader (rv_bufs this)).
#[global] Instance ReadVectoredFuture_Future {R} `{AsyncReadVectored R} :
    Future (ReadVectoredFuture R) (Result bytes Error) := ReadVectoredFuture_poll.

Record WriteVectoredFuture (W : Type) : Type := mkWriteVectoredFuture { wv_writer : W; wv_bufs : list bytes }.
Arguments mkWriteVectoredFuture {W}.
Arguments wv_writer {W}.
Arguments wv_bufs {W}.
Definition WriteVectoredFuture_poll {W : Type} `{AsyncWriteVectored W} (fuel : nat) (this : WriteVectoredFuture W) :
    Eff (Poll (Result nat Error) * WriteVectoredFuture W) :=
  '(r, writer) ← poll_write_vectored fuel (wv_bufs this) (wv_writer this);
  mret (r, mkWriteVectoredFuture writer (wv_bufs this)).
#[global] Instance WriteVectoredFuture_Future {W} `{AsyncWriteVectored W} :
    Future (WriteVectoredFuture W) (Result nat Error) := WriteVectoredFuture_poll.

Definition read_vectored {R : Type} (reader : R) (bufs : list nat) : ReadVectoredFuture R :=
  mkReadVectoredFuture reader bufs.
Definition write_vectored {W : Type} (writer : W) (bufs : list bytes) : WriteVectoredFuture W :=
  mkWriteVectoredFuture writer bufs.

(** * What is documented of them *)

(** [read_vectored] "must behave as a single call to [read] with the buffers concatenated
    would". *)
Class VectoredLaws (R : Type) `{ReaderLaws R} `{AsyncReadVectored R} : Prop := {
  rv_mono bufs (r : R) : fuel_mono (λ n, poll_read_vectored n bufs r);
  rv_returns (r : R) bs bufs : contents r bs → ∃ n x, poll_read_vectored n bufs r = Done x;
  rv_spec n bufs (r : R) bs p r' w :
    contents r bs → poll_read_vectored n bufs r = Done ((p, r'), w) →
    match p with
    | Pending => w ≠ [] ∧ contents r' bs
    | Ready (Err e) => kind e ≠ Interrupted ∧ contents r' bs
    | Ready (Ok b) => ∃ rest, bs = b ++ rest ∧ length b ≤ sum_list bufs ∧
        (b = [] → sum_list bufs = 0 ∨ bs = []) ∧ contents r' rest
    end
}.

(** * They do what is documented *)

Section Default.
Context {R : Type} `{ReaderLaws R}.

Lemma first_nonempty bufs :
  let len := default 0 (List.find (λ len, negb (len =? 0)) bufs) in
  len ≤ sum_list bufs ∧ (len = 0 → sum_list bufs = 0).
Proof.
  induction bufs as [|len bufs IH]; simpl; [lia|].
  destruct (Nat.eqb_spec len 0) as [->|Hne]; simpl; [exact IH|lia].
Qed.

(** The default implementation does. *)
Lemma default_vectored_spec n bufs (r : R) bs p r' w :
  contents r bs → default_read_vectored n bufs r = Done ((p, r'), w) →
  match p with
  | Pending => w ≠ [] ∧ contents r' bs
  | Ready (Err e) => kind e ≠ Interrupted ∧ contents r' bs
  | Ready (Ok b) => ∃ rest, bs = b ++ rest ∧ length b ≤ sum_list bufs ∧
      (b = [] → sum_list bufs = 0 ∨ bs = []) ∧ contents r' rest
  end.
Proof.
  intros Hc Hp. destruct (first_nonempty bufs) as [Hle Hz]. pose proof (read_spec _ _ _ _ _ _ _ Hc Hp) as Hs.
  destruct p as [[b|e]|]; [|done..]. destruct Hs as (rest & -> & Hlen & Hend & Hc').
  exists rest. split_and!; [done|lia| |done]. intros Hb. destruct (Hend Hb); auto.
Qed.
End Default.

(** A [BufReader]: as [poll_read] with the whole length, but for the reader below. *)
Section BufReader.
Context {R : Type} `{VectoredLaws R}.
Implicit Types (this : BufReader R) (bs : bytes).

Lemma br_vectored_buffered n bufs this :
  (br_pos this =? br_cap this) && (length (br_buf this) <=? sum_list bufs) = false →
  BufReader_poll_read_vectored n bufs this = BufReader_poll_read n (sum_list bufs) this.
Proof. intros Hb. unfold BufReader_poll_read_vectored, BufReader_poll_read. cbv zeta. by rewrite Hb. Qed.

Lemma br_vectored_spec n bufs this bs p this' w :
  br_holds this bs → BufReader_poll_read_vectored n bufs this = Done ((p, this'), w) →
  match p with
  | Pending => w ≠ [] ∧ br_holds this' bs
  | Ready (Err e) => kind e ≠ Interrupted ∧ br_holds this' bs
  | Ready (Ok b) => ∃ rest, bs = b ++ rest ∧ length b ≤ sum_list bufs ∧
      (b = [] → sum_list bufs = 0 ∨ bs = []) ∧ br_holds this' rest
  end.
Proof.
  intros Hh Hp. destruct ((br_pos this =? br_cap this) && (length (br_buf this) <=? sum_list bufs)) eqn:Hb.
  2: { rewrite br_vectored_buffered in Hp by done. by eapply br_read_spec. }
  unfold BufReader_poll_read_vectored in Hp. cbv zeta in Hp. rewrite Hb in Hp.
  apply andb_true_iff in Hb as [He%Nat.eqb_eq _]. destruct Hh as [Hroom Hr (rest & Hc & ->)].
  rewrite br_unread_nil by lia. apply eff_bind_done in Hp as ([r inner] & w1 & w2 & Hread & Hp & ->).
  pose proof (rv_spec _ _ _ _ _ _ _ Hc Hread) as Hs.
  assert (∀ rest', contents inner rest' → br_holds (discard_buffer (br_set_inner inner this)) rest') as Hkeep.
  { intros rest' Hc'. split; simpl; [done|lia|]. by exists rest'. }
  destruct r as [[b|e]|]; apply eff_ret_done in Hp as [[= <- <-] ->]; simpl.
  - destruct Hs as (rest' & -> & Hlen & Hend & Hc'). exists rest'. eauto.
  - destruct Hs as [? Hc']. eauto.
  - destruct Hs as [? Hc']. rewrite app_nil_r. split; [done|]. split; [done|done|].
    exists rest. split; [done|]. by rewrite br_unread_nil by (simpl; lia).
Qed.

#[global] Instance BufReader_VectoredLaws : VectoredLaws (BufReader R).
Proof.
  split.
  - intros bufs this. change (fuel_mono (λ n, BufReader_poll_read_vectored n bufs this)).
    unfold BufReader_poll_read_vectored. pose proof (br_fill_mono this). pose proof (λ bufs, rv_mono bufs (br_inner this)).
    cbv zeta. solve_fuel_mono.
  - intros this bs bufs Hh. change (∃ n x, BufReader_poll_read_vectored n bufs this = Done x).
    destruct ((br_pos this =? br_cap this) && (length (br_buf this) <=? sum_list bufs)) eqn:Hb.
    + unfold BufReader_poll_read_vectored. cbv zeta. rewrite Hb. destruct Hh as [_ _ (rest & Hc & _)].
      destruct (rv_returns _ _ bufs Hc) as (n & [[r inner] w] & Hread). exists n. rewrite Hread. destruct r; by eexists.
    + setoid_rewrite br_vectored_buffered; [|done]. exact (read_returns this bs _ Hh).
  - intros n bufs this bs p this' w Hh Hp. by eapply br_vectored_spec.
Qed.
End BufReader.

(** A cursor over a vector: one read of the whole length. *)
Lemma cursor_advance_run c bs amt :
  cursor_holds c bs → amt ≤ length bs →
  std_cursor_advance amt c = Done (mkCursor (cursor_inner c) (cursor_pos c + N.of_nat amt), []) ∧
  cursor_holds (mkCursor (cursor_inner c) (cursor_pos c + N.of_nat amt)) (drop amt bs).
Proof.
  intros Hh Ha. destruct (cursor_advance c bs amt Hh Ha) as (c' & Hc & Hh').
  assert (c' = mkCursor (cursor_inner c) (cursor_pos c + N.of_nat amt)) as ->; [|done].
  unfold std_cursor_advance in Hc. apply eff_bind_done in Hc as (pos & w1 & w2 & Hp & Hc & _).
  apply usize_add_done in Hp as [-> _]. by apply eff_ret_done in Hc as [<- _].
Qed.

Lemma cursor_read_vectored bufs c bs :
  cursor_holds c bs →
  std_cursor_read_vectored bufs c = Done (take (sum_list bufs) bs,
    mkCursor (cursor_inner c) (cursor_pos c + N.of_nat (length (take (sum_list bufs) bs))), []).
Proof.
  revert c bs. induction bufs as [|len bufs IH]; intros c bs Hh; simpl.
  - rewrite take_0. simpl. rewrite N.add_0_r. by destruct c.
  - pose proof Hh as (_ & _ & Hbs). rewrite <- Hbs.
    destruct (cursor_advance_run c bs (length (take len bs)) Hh) as [Hc1 Hh1]; [rewrite length_take; lia|].
    rewrite Hc1, eff_bind_Done. destruct (Nat.ltb_spec (length (take len bs)) len) as [Hlt|Hge].
    + rewrite length_take in Hlt. by rewrite !(take_ge bs) by lia.
    + rewrite length_take in Hge. assert (length (take len bs) = len) as Hl by (rewrite length_take; lia).
      rewrite Hl in Hh1 |- *. rewrite (IH _ _ Hh1), eff_bind_Done.
      rewrite <- (take_take_drop bs len). rewrite length_app, Hl. simpl. unfold mret, eff_mret. do 4 f_equal. lia.
Qed.

Lemma Cursor_vectored n bufs c bs :
  cursor_holds c bs → Cursor_poll_read_vectored n bufs c = Cursor_poll_read n (sum_list bufs) c.
Proof.
  intros Hh. unfold Cursor_poll_read_vectored, Cursor_poll_read. rewrite (cursor_read_vectored _ _ _ Hh), eff_bind_Done.
  pose proof Hh as (_ & _ & <-).
  destruct (cursor_advance_run c bs (length (take (sum_list bufs) bs)) Hh) as [-> _]; [rewrite length_take; lia|done].
Qed.

#[global] Instance Cursor_VectoredLaws : VectoredLaws Cursor.
Proof.
  split.
  - intros bufs c n m r _ Hr. exact Hr.
  - intros c bs bufs Hh. change (∃ n x, Cursor_poll_read_vectored n bufs c = Done x).
    setoid_rewrite (Cursor_vectored _ _ _ _ Hh). exact (read_returns c bs _ Hh).
  - intros n bufs c bs p c' w Hh Hp. change (Cursor_poll_read_vectored n bufs c = Done ((p, c'), w)) in Hp.
    rewrite (Cursor_vectored _ _ _ _ Hh) in Hp. exact (read_spec _ _ _ _ _ _ _ Hh Hp).
Qed.

(** ** [Chain] *)

(** It keeps to its contract when there is room in the buffers, or there are none. *)
Lemma chain_vectored_spec `{VectoredLaws T} `{VectoredLaws U} n bufs (this : Chain T U) bs p this' w :
  sum_list bufs ≠ 0 ∨ bufs = [] →
  chain_holds this bs → Chain_poll_read_vectored n bufs this = Done ((p, this'), w) →
  match p with
  | Pending => w ≠ [] ∧ chain_holds this' bs
  | Ready (Err e) => kind e ≠ Interrupted ∧ chain_holds this' bs
  | Ready (Ok b) => ∃ rest, bs = b ++ rest ∧ length b ≤ sum_list bufs ∧
      (b = [] → sum_list bufs = 0 ∨ bs = []) ∧ chain_holds this' rest
  end.
Proof.
  intros Hroom Hh Hp.
  assert (∀ (f : T) (s : U) bs w, contents s bs →
    ('(r, second) ← poll_read_vectored n bufs s; mret (r, mkChain f second true)) = Done ((p, this'), w) →
    match p with
    | Pending => w ≠ [] ∧ chain_holds this' bs
    | Ready (Err e) => kind e ≠ Interrupted ∧ chain_holds this' bs
    | Ready (Ok b) => ∃ rest, bs = b ++ rest ∧ length b ≤ sum_list bufs ∧
        (b = [] → sum_list bufs = 0 ∨ bs = []) ∧ chain_holds this' rest
    end) as Hsecond.
  { clear Hroom Hh Hp this bs w. intros f s bs w Hc Hp. apply eff_bind_done in Hp as ([r s'] & w1 & w2 & Hread & Hp & ->).
    apply eff_ret_done in Hp as [[= <- <-] ->]. rewrite app_nil_r.
    exact (rv_spec _ _ _ _ _ _ _ Hc Hread). }
  destruct this as [f s []]; unfold Chain_poll_read_vectored in Hp; simpl in Hp; [exact (Hsecond f s bs w Hh Hp)|].
  destruct Hh as (bs1 & bs2 & Hc1 & Hc2 & ->). simpl in *.
  apply eff_bind_done in Hp as ([r f'] & w1 & w2 & Hread & Hp & ->).
  pose proof (rv_spec _ _ _ _ _ _ _ Hc1 Hread) as Hs. destruct r as [[b|e]|].
  - destruct Hs as (rest & -> & Hlen & Hend & Hc'). destruct ((length b =? 0) && negb (length bufs =? 0)) eqn:Hb.
    + apply andb_true_iff in Hb as [->%Nat.eqb_eq%nil_length_inv Hn%negb_true_iff%Nat.eqb_neq].
      destruct Hroom as [Hroom| ->]; [|done].
      destruct (Hend eq_refl) as [|Hr]; [done|]. simpl in Hr. subst rest. simpl app.
      apply (Hsecond _ _ _ _ Hc2) in Hp. destruct p as [[]|]; try done.
      destruct Hp as [Hw ?]. split; [by apply events_nonempty_r|done].
    + apply eff_ret_done in Hp as [[= <- <-] ->]. exists (rest ++ bs2). rewrite app_assoc.
      split_and!; [done|done| |by exists rest, bs2]. intros ->. simpl in Hb.
      apply negb_false_iff, Nat.eqb_eq, nil_length_inv in Hb as ->. by left.
  - apply eff_ret_done in Hp as [[= <- <-] ->]. destruct Hs as [? Hc']. split; [done|]. by exists bs1, bs2.
  - apply eff_ret_done in Hp as [[= <- <-] ->]. destruct Hs as [? Hc']. rewrite app_nil_r.
    split; [done|]. by exists bs1, bs2.
Qed.

(** With one empty buffer, it takes the first reader to be at its end: the bytes that
    were still to come of it are not read any more. *)
Example chain_vectored_loses :
  let this := mkChain (Cursor_new [x61; x62]) (Cursor_new [x63]) false in
  contents this [x61; x62; x63] ∧
  Chain_poll_read_vectored 0 [0] this = Done ((Ready (Ok []), mkChain (Cursor_new [x61; x62]) (Cursor_new [x63]) true), []) ∧
  contents (mkChain (Cursor_new [x61; x62]) (Cursor_new [x63]) true) [x63].
Proof.
  split_and!; [|reflexivity|].
  - exists [x61; x62], [x63]. split_and!; [split_and!; vm_compute; done|split_and!; vm_compute; done|done].
  - split_and!; vm_compute; done.
Qed.

(** ** Writing into a slice *)

Definition cursor_wf (c : Cursor) : Prop :=
  (cursor_pos c < usize_modulus)%N ∧ (N.of_nat (length (cursor_inner c)) < usize_modulus)%N.

(** What is free behind the position. *)
Definition slice_room (c : Cursor) : nat := length (cursor_inner c) - N.to_nat (cursor_pos c).

(** The bytes are put where the position is, as far as there is room. *)
Lemma slice_write_run c buf :
  cursor_wf c →
  let p := N.to_nat (cursor_pos c) in let k := length buf `min` slice_room c in
  std_slice_write buf c = Done (k, mkCursor
    (take p (cursor_inner c) ++ take k buf ++ drop (p + k) (cursor_inner c)) (cursor_pos c + N.of_nat k), []).
Proof.
  intros [Hp Hl]. cbv zeta. unfold std_slice_write, slice_room.
  destruct (N.le_gt_cases (cursor_pos c) (N.of_nat (length (cursor_inner c)))) as [Hle|Hgt].
  - rewrite N.min_l by done. rewrite usize_add_ok, eff_bind_Done by lia. done.
  - rewrite N.min_r by lia. rewrite Nat2N.id.
    replace (length (cursor_inner c) - length (cursor_inner c)) with 0 by lia.
    replace (length (cursor_inner c) - N.to_nat (cursor_pos c)) with 0 by lia. rewrite !Nat.min_0_r.
    rewrite usize_add_ok, eff_bind_Done by lia. rewrite !Nat.add_0_r, (take_ge _ (length _)), (take_ge _ (N.to_nat _)) by lia.
    by rewrite !drop_ge by lia.
Qed.

Lemma slice_write_wf c buf k c' w :
  cursor_wf c → std_slice_write buf c = Done (k, c', w) →
  cursor_wf c' ∧ length (cursor_inner c') = length (cursor_inner c) ∧ slice_room c' = slice_room c - k ∧
  k = length buf `min` slice_room c.
Proof.
  intros Hwf Hw. rewrite slice_write_run in Hw by done. injection Hw as <- <- <-. destruct Hwf as [Hp Hl].
  unfold cursor_wf, slice_room. simpl. rewrite !length_app, !length_take, length_drop. split_and!; lia.
Qed.

(** Two writes of which the first is complete are one write. *)
Lemma slice_write_app c a b c' :
  cursor_wf c → length a ≤ slice_room c →
  std_slice_write a c = Done (length a, c', []) →
  std_slice_write (a ++ b) c = ('(k, c2) ← std_slice_write b c'; mret (length a + k, c2)).
Proof.
  intros Hwf Hroom Ha. destruct (slice_write_wf _ _ _ _ _ Hwf Ha) as (Hwf' & Hl' & Hr' & _).
  rewrite (slice_write_run c' b Hwf'), (slice_write_run c (a ++ b) Hwf), eff_bind_Done.
  rewrite (slice_write_run c a Hwf) in Ha. rewrite Nat.min_l in Ha by done. rewrite Hr'.
  injection Ha as <-. simpl. rewrite length_app. rewrite firstn_all.
  set (k := length b `min` (slice_room c - length a)).
  assert ((length a + length b) `min` slice_room c = length a + k) as -> by lia.
  rewrite Nat2N.inj_add, N.add_assoc. unfold mret, eff_mret. rewrite take_app_add.
  set (p := N.to_nat (cursor_pos c)) in *. set (l := cursor_inner c) in *.
  replace (N.to_nat (cursor_pos c + N.of_nat (length a))) with (p + length a) by lia.
  assert (length a = 0 ∨ p + length a ≤ length l) as [Hz|Hle] by (unfold slice_room in Hroom; fold l p in Hroom; lia).
  - apply nil_length_inv in Hz as ->. simpl. by rewrite !Nat.add_0_r, take_drop.
  - rewrite (app_assoc (take p l) a). rewrite take_app_length' by (rewrite length_app, length_take; lia).
    rewrite drop_app_add' by (rewrite length_app, length_take; lia). rewrite drop_drop, <- !app_assoc.
    by rewrite Nat.add_assoc.
Qed.

Lemma slice_write_vectored bufs c :
  cursor_wf c → std_slice_write_vectored bufs c = std_slice_write (concat bufs) c.
Proof.
  revert c. induction bufs as [|buf bufs IH]; intros c Hwf; simpl.
  - rewrite slice_write_run by done. simpl. rewrite N.add_0_r, Nat.add_0_r, take_drop. by destruct c.
  - pose proof (slice_write_run c buf Hwf) as Hr. cbv zeta in Hr. rewrite Hr, eff_bind_Done.
    destruct (Nat.ltb_spec (length buf `min` slice_room c) (length buf)) as [Hlt|Hge].
    + rewrite (slice_write_run c (buf ++ concat bufs) Hwf). rewrite length_app.
      replace ((length buf + length (concat bufs)) `min` slice_room c) with (length buf `min` slice_room c) by lia.
      by rewrite take_app_le by lia.
    + assert (length buf ≤ slice_room c) as Hroom by lia. rewrite Nat.min_l in Hr by done.
      rewrite Nat.min_l by done. destruct (slice_write_wf _ _ _ _ _ Hwf Hr) as (Hwf' & _).
      by rewrite (slice_write_app c buf (concat bufs) _ Hwf Hroom Hr), <- IH.
Qed.

(** What a slice cursor has accepted is what is in the slice before its position. *)
Definition slice_accepted (v : SliceCursor) (bs : bytes) : Prop :=
  let c := slice_cursor v in
  cursor_wf c ∧ (cursor_pos c <= N.of_nat (length (cursor_inner c)))%N ∧
  ∃ before after, cursor_inner c = before ++ bs ++ after ∧ N.to_nat (cursor_pos c) = length (before ++ bs).

#[global] Program Instance SliceCursor_WriterLaws : WriterLaws SliceCursor :=
  {| accepted := slice_accepted; settled := slice_accepted |}.
Next Obligation. done. Qed.
Next Obligation. intros buf v n m r _ Hr. exact Hr. Qed.
Next Obligation. intros v n m r _ Hr. exact Hr. Qed.
Next Obligation.
  intros v bs buf [Hwf _]. exists 0. change (∃ x, SliceCursor_poll_write 0 buf v = Done x).
  unfold SliceCursor_poll_write. rewrite slice_write_run by done. by eexists.
Qed.
Next Obligation. intros v bs _. by exists 0; eexists. Qed.
Next Obligation.
  intros n buf v bs p v' w (Hwf & Hle & before & after & Hc & Hp) Hw.
  change (SliceCursor_poll_write n buf v = Done ((p, v'), w)) in Hw. unfold SliceCursor_poll_write in Hw.
  pose proof (slice_write_run (slice_cursor v) buf Hwf) as Hr. cbv zeta in Hr. rewrite Hr, eff_bind_Done in Hw.
  apply eff_ret_done in Hw as [[= <- <-] ->]. destruct (slice_write_wf _ _ _ _ _ Hwf Hr) as (Hwf' & Hl & _).
  set (k := length buf `min` slice_room (slice_cursor v)) in *.
  assert (k ≤ length buf ∧ k ≤ length after) as [Hk1 Hk2].
  { unfold k, slice_room. rewrite Hc, Hp. rewrite !length_app. lia. }
  split; [done|]. split; [exact Hwf'|]. cbn [slice_cursor cursor_inner cursor_pos] in *. split.
  { rewrite Hl, Hc, !length_app. rewrite length_app in Hp. lia. }
  exists before, (drop k after). split.
  - rewrite Hp, Hc, (app_assoc before bs after). rewrite take_app_length, drop_app_add, <- !app_assoc. done.
  - rewrite length_app in Hp. rewrite !length_app, length_take. lia.
Qed.
Next Obligation.
  intros n v bs p v' w Ha Hf. change (SliceCursor_poll_flush n v = Done ((p, v'), w)) in Hf.
  by apply eff_ret_done in Hf as [[= <- <-] ->].
Qed.

(** * The theorem *)

(** Vectored calls are calls on the buffers joined: a cursor, and a [BufReader] over a
    reader that does so, read what one read into the whole length might; a [Chain]
    does when there is room or no buffer at all; and writing several buffers into a
    slice is writing them joined. *)
Theorem vectored_calls `{VectoredLaws R} `{VectoredLaws U} (r : R) (q : U) (bs cs : bytes) (cap : nat)
    (bufs : list nat) n :
  contents r bs → contents q cs → 0 < cap →
  (∀ c data, contents c data →
     poll_read_vectored (R:=Cursor) n bufs c = poll_read n (sum_list bufs) c) ∧
  (∀ p this' w, poll_read_vectored n bufs (BufReader_with_capacity cap r) = Done ((p, this'), w) →
     match p with
     | Ready (Ok b) => ∃ rest, bs = b ++ rest ∧ length b ≤ sum_list bufs ∧
         (b = [] → sum_list bufs = 0 ∨ bs = []) ∧ contents this' rest
     | Ready (Err _) => contents this' bs
     | Pending => w ≠ [] ∧ contents this' bs
     end) ∧
  (∀ p this' w, sum_list bufs ≠ 0 ∨ bufs = [] →
     poll_read_vectored n bufs (mkChain r q false) = Done ((p, this'), w) →
     match p with
     | Ready (Ok b) => ∃ rest, bs ++ cs = b ++ rest ∧ length b ≤ sum_list bufs ∧
         (b = [] → sum_list bufs = 0 ∨ bs ++ cs = []) ∧ contents this' rest
     | Ready (Err _) => contents this' (bs ++ cs)
     | Pending => w ≠ [] ∧ contents this' (bs ++ cs)
     end) ∧
  (∀ v ws out, accepted v ws →
     poll_write_vectored (W:=SliceCursor) n out v = poll_write n (concat out) v).
Proof.
  intros Hr Hq Hcap. split_and!.
  - intros c data Hc. by apply (Cursor_vectored n bufs c data).
  - intros p this' w Hp. assert (br_holds (BufReader_with_capacity cap r) bs) as Hh.
    { split; simpl; [by rewrite length_replicate|lia|]. by exists bs. }
    pose proof (br_vectored_spec _ _ _ _ _ _ _ Hh Hp) as Hs. destruct p as [[b|e]|]; [done| |done]. apply Hs.
  - intros p this' w Hroom Hp. assert (chain_holds (mkChain r q false) (bs ++ cs)) as Hh by (by exists bs, cs).
    pose proof (chain_vectored_spec _ _ _ _ _ _ _ Hroom Hh Hp) as Hs. destruct p as [[b|e]|]; [done| |done]. apply Hs.
  - intros v ws out [Hwf _]. change (SliceCursor_poll_write_vectored n out v = SliceCursor_poll_write n (concat out) v).
    unfold SliceCursor_poll_write_vectored, SliceCursor_poll_write. by rewrite slice_write_vectored.
Qed.
